(* ===== verification/_CoqProject ===== *)
-Q . S2P
Prelude.v
Dll.v
Policy.v
Duo.v
S3fifo.v
TwoQ.v
Arc.v
Family.v
Lfu.v
Sketch.v
TinyLfu.v
Fifo.v
Lru.v
Policies.v
Storage.v
FlatStore.v
Ttl.v
Heap.v
Wheel.v
Backends.v
Codec.v
Snapshot.v
Events.v
Cachetag.v
Counters.v
Sorting.v
Clock.v
Store.v
Entry.v
Tags.v
Flights.v
Shard.v
Admission.v
Cache.v
Bulk.v
Loads.v
Run.v
StoreCache.v
Tiered.v
Async.v
Compute.v
ShardInv.v
ShardOps.v
ShardBulk.v
CacheInv.v
CacheOps.v
CacheReads.v
CacheRun.v
CacheKeep.v
CacheBulk.v
BulkInv.v
LoadsInv.v
RunInv.v
Walk.v
Restore.v
Close.v
CacheNew.v
CacheLoads.v
StoreInv.v
StoreSteps.v
StoreOps.v
Concrete.v
StoreProps.v
CacheProps.v
BulkProps.v
LoadProps.v
TieredInv.v
TieredProps.v
AsyncInv.v
AsyncProps.v
ComputeProps.v
SaveLoad.v
CloseProps.v
Diagnose.v
View.v
Configured.v
Options.v
OptionsProps.v
Sizing.v
Findings.v
