(* ===== verification/Prelude.v ===== *)
(** * A verification of the Go package memcache

    The package is an in-process cache: a generic map from keys to values with
    entry and byte bounds, eviction policies, expiry (plain, jittered and
    sliding), tags, negative caching, loaders with stale-while-revalidate, and
    a lock-free read path.  This library models its core as executable
    functions and proves what makes it correct.

    ** The program and the files that model it

    A cache is an array of shards and a few cache-wide counters.  An operation
    hashes its key, locks one shard, runs locked routines on it, unlocks, and
    at the unlock fires the deferred callbacks and sheds entries from other
    shards while the cache is over its bounds.  A shard holds an entry table,
    an eviction policy, a TTL backend, an entry pool, the registry of loads in
    flight and the read snapshot; the first three sit behind Go interfaces.

    - [Prelude]: machine integers with their wrap-around ([u64], [i64]),
      tactics and generic lemmas.
    - [Dll]: the intrusive doubly linked lists that the policies write out by
      hand, as pointer maps with a representation predicate.
    - [Policy]: the interface of policy.go as the class [EvictionPolicy], and
      what a shard relies on as [PolicyLaws].  Its instances are [Fifo]
      (fifo.go), [Lru] (lru.go), [S3fifo] (s3fifo.go), [TwoQ] (twoq.go), [Arc]
      (arc.go), [Lfu] (lfu.go) and [TinyLfu] (tinylfu.go), and [Policies], the
      sum of them behind [newPolicy].  [Duo] is the pair of linked queues and
      the ghost queue that S3-FIFO, 2Q and ARC share; [Family] the indexed
      queues of LFU and TinyLFU.
    - [Storage]: the table interface and its map instance (shardstore.go);
      [FlatStore]: the open-addressing instance (flatstore.go).
    - [Ttl] and [Heap]: the TTL interface and the heap backend with
      container/heap written out (ttlbackend.go, expiry.go); [Wheel]: the
      timing wheel and its backend (internal/wheel, wheel_ttl.go).
      [Backends]: the choice between the tables and between the backends.
    - [Codec]: codecs with their compression and encryption layers, raw keys
      (codec.go, codec_compress.go, codec_encrypt.go).  [Snapshot]: the
      snapshot format, written and read (snapshot.go).  [Restore] and
      [SaveLoad]: staging the entries of a cache and loading a snapshot
      into one.
    - [Sketch]: SipHash-2-4, the mixer, the Bloom filter and the count-min
      sketch (internal/sketch).  [Admission]: admission.go.
    - [Entry] (entry.go, weigher.go, types.go), [Tags] (tags.go),
      [Flights] (loader.go): the data of a shard and of the cache.
    - [Shard]: the routines that run under a shard's lock (the locked half of
      cache.go, readmap.go, the shard side of expiry.go, tags.go and
      tagcleanup.go), as functions of [globals * shard].
    - [Cache]: the public operations of cache.go and tags.go, each the sequence
      of locked routines and unlocks that the code runs; [Bulk]: the walks and
      the operations on many keys; [Loads]: [GetOrLoad] and the refreshes;
      [Run]: the list of all operations ([cop]) and [run_all], which runs a
      sequence of them.  [Walk]: visiting every entry of all shards.
    - [Store]: the interface of a backing store and [MemoryStore] (store.go);
      [StoreCache]: the cache in front of a store (cache_store.go), reads
      through it in three steps that interleave with every operation;
      [Compute]: compute.go, with and without a store; [StoreOps] also has
      write calls in their steps (memory, store, rollback), with other calls
      in between; [Tiered]: two caches as tiers (tiered.go), copies and writes
      in their halves; [Async]: the queue of pending writes as an overlay on
      the cache (asyncwrites.go).
    - [Close]: [Close] in its sections, between which calls and late writes
      run.  [View]: read-only views, values that carry their key, and [Clone]
      (view.go, cacheable.go).  [Diagnose]: listings, rankings, histograms and
      statistics (diagnose.go, stats.go).
    - [Events]: the fan-out of events to channels (events.go), every method
      split at its locks.  [Cachetag]: struct tags, snapshot filters and tag
      templates (cachetag.go, cacheable.go).  [Clock]: the fake clock
      (clock.go).  [Counters]: the sharded counters and the latency histogram
      (sharded_counter.go, internal/tdigest).  [Sorting]: the [sort] package
      as the class [GoSort] and its stable instance.
    - [Options]: the options of the package, their validation and [New]
      (options.go and the constructors in cache.go); [Configured]: every call
      of the API in one list, and the cache with the components the options
      select.
    - [ShardInv], [ShardOps], [ShardBulk]: the invariant of a shard and what
      each locked routine does.  [CacheInv], [CacheOps], [CacheReads],
      [CacheRun], [CacheKeep], [CacheBulk], [CacheNew], [CacheLoads],
      [BulkInv], [LoadsInv], [RunInv]: the same for the cache and its
      operations.  [StoreInv], [StoreSteps], [StoreOps], [TieredInv],
      [AsyncInv]: the invariants with a store, of two tiers and with queued
      writes.
    - [Concrete]: a cache with every parameter instantiated, for witnesses.
    - [CacheProps], [BulkProps], [LoadProps], [StoreProps], [ComputeProps],
      [TieredProps], [AsyncProps], [SaveLoad], [CloseProps], [OptionsProps],
      [Sizing], [Findings]: the properties; the smaller components have theirs
      in their own file.

    Parameters of the model are the functions a user supplies (hasher,
    weigher, tag and TTL functions), the clock (the n-th read), the random
    source and the choice of the entry pool; a theorem that needs a law of one
    (the hash is a [uint64], [rand.Int64N m] is below [m]) has it as a named
    hypothesis.  In [Codec] and [Snapshot] the codecs gob and JSON, gzip,
    AES-GCM and its nonces are parameters with the laws [codecEnv_ok]; in
    [Options] what the type assertions of the code find is part of the option
    ([raw]); in [Cachetag] sha256 and the formatting of fmt are parameters; a
    [Store] is any instance of its class with its laws.

    ** What the theorems show

    The theorems about a cache are about one without a store and queued writes
    unless they say otherwise, and most about one without negative caching;
    each states its conditions.

    - The invariant ([reachable_wf]): whatever sequence of calls runs
      (computations, resizes and snapshot loads included), table, policy, TTL
      backend, pool, snapshot, counters and tag index agree, and the cache is
      within its bounds.  It is proved against the interfaces, hence for every
      policy, table and TTL backend with an instance; with [new_sound] it holds
      for every cache that [New] returns, and [new_refuses] says precisely
      which options [New] rejects.
    - What a reader sees ([last_write_wins], [delete_wins], [set_get],
      [Get_correct], [superseded_load_dropped], [lock_free_agrees]).
    - Loads: callers share the load in flight ([single_flight]) and what its
      waiters get ([load_served]).
    - Whole-cache operations ([Clear_empties], [DeleteExpired_exact],
      [InvalidateTag_complete], [Range_exact], [DeleteWhere_exact],
      [DeletePrefix_exact]); [Compute] against its specification
      ([Compute_correct]).
    - With a store: memory and store agree wherever both know a key, but for
      the write in progress, under every interleaving of the steps of reads
      and writes in which no read of the store begins between the two writes
      of its key ([store_coherent]; [read_between_writes] shows what such a
      read does); the steps of a write in a row are the operation
      ([finish_start]), failed writes leave nothing behind ([write_through]),
      and without a store nothing changes ([storeless_equiv]).  Two tiers:
      [tiered_delete_wins] and, when no copy begins between the two halves of
      the write, [tiered_set_wins].
    - Queued writes: [async_read_your_writes], [async_delete_wins],
      [async_drained], and a write that is queued and applied equals the
      synchronous one ([async_set_equiv]).
    - The life of a cache: nothing is left or comes back after [Close]
      ([close_final]); a clone holds exactly the live entries
      ([clone_faithful]); a view only reads ([view_reads]).
    - The components: the linked lists implement their abstract orders
      ([fifo_refines_queue], [lru_refines_recency], [twoq_refines],
      [arc_refines], [lfu_refines], [tinylfu_refines]) and all seven policies
      track what the shard holds ([policies_track]); S3-FIFO keeps a new entry
      and always finds a victim ([s3_new_survives], [s3_victim_progress]); the
      flat table is a map ([flat_is_map]); the heap sweep and the wheel are
      exact ([heap_sweep_exact], [advance_exact], [wheel_timely]); the sketches
      keep their one-sided promises; sizes, jitter and sliding expiry stay
      within their bounds.
    - Snapshots: what was saved is loaded ([snapshot_roundtrip],
      [codec_roundtrip]), so that a cache loaded from what another saved
      shows exactly its live entries ([save_load_restores]); what is loaded
      passed its CRC ([load_checks_crc]), no file breaks the invariant or
      the bounds ([load_sound]), and no field marked secret is saved
      ([secrets_blanked]).
    - Around the cache: events reach their subscribers, in order unless their
      calls of [publish] overlap, and no channel is used after it is closed
      ([events_delivered]); rankings and histograms
      are exact ([rankings], [histogram_counts]); the fake clock fires what is
      due ([fake_clock_fires]); a sharded counter is a counter
      ([sharded_is_counter]) and the quantiles bracket the records
      ([quantile_brackets]); templates expand ([template_expands]).
    - [Findings]: runs on which the code departs from its documentation, among
      them the byte counter that a negative tombstone leaves too high.  The
      invariant therefore carries a drift, which is zero without negative
      caching ([cf_negativeTTL <= 0]).

    ** Fuel

    Every loop that is not structural has fuel that provably suffices: the
    eviction loop has one turn per entry of the shard and one more, the
    shedding passes as many as entries, the heap's sift loops the length of
    the heap, a sweep one turn per tracked entry, [nextPowerOfTwo] 63
    doublings (enough up to 2^62; beyond, the Go loop does not end), and the
    growth of the sketches' tables 64 doublings.  The rotations of S3-FIFO
    and the turns of TinyLFU are the code's own bounds, proved sufficient;
    ghost queues are trimmed with their length, LFU's [pick] goes around
    twice, a walk of the wheel has one step per entry, a probe of the flat
    table one per slot, a varint has ten groups, a template expands in as many
    turns as it has characters and one more, the binary search of the latency
    histogram needs at most its 24 buckets, and the walk over the fields of a
    struct type ends when no struct embeds itself ([walk_ends]; otherwise the
    Go recursion does not end either).  The theorems state results, not
    partial correctness.

    ** What is not modelled

    Concurrency within a locked section: each one is a step.  Operations are
    sequences of steps; where a component interleaves them (loads, reads
    and writes through a store, copies and writes between tiers, queued writes,
    [Close], the event bus, the fake clock) the theorems range over the interleavings, and the
    other operations run one after the other.

    Left out: saving to and loading from files by name (temporary files and
    renames), the goroutines of automatic saves and of the janitor (one pass
    of it is a step), [GetMultiOrLoad], contexts, the rate limiter (its
    verdict is an argument), tracing, logging and the export of statistics,
    which are input and output, [Dump] and [HitRate], which format or use
    floating point, and the memory of metadata per type. *)

From stdpp Require Export gmap list sets ssreflect.
From Stdlib Require Export ZArith Lia.

#[export] Set Warnings "-rewrite-rw,-clear-no-such-hyp,-level-tolerance".
#[export] Set Default Goal Selector "!".

(** ** Machine integers

    Go's [uint64] and [int64] are [Z] with the wrap-around written out;
    the notations live in a scope of their own. *)

Declare Scope go_scope.
Delimit Scope go_scope with go.

Definition u64 (x : Z) : Z := x `mod` 2 ^ 64.
Definition i64 (x : Z) : Z := (x + 2 ^ 63) `mod` 2 ^ 64 - 2 ^ 63.

Notation "x +u y" := (u64 (x + y)) (at level 50, left associativity) : go_scope.
Notation "x *u y" := (u64 (x * y)) (at level 40, left associativity) : go_scope.
Notation "x <<u n" := (u64 (Z.shiftl x n)) (at level 60, no associativity) : go_scope.
Notation "x >>u n" := (Z.shiftr x n) (at level 60, no associativity) : go_scope.

Definition is_u64 (x : Z) : Prop := (0 <= x < 2 ^ 64)%Z.
Definition is_i64 (x : Z) : Prop := (- 2 ^ 63 <= x < 2 ^ 63)%Z.

Lemma u64_range x : is_u64 (u64 x).
Proof. apply Z.mod_pos_bound. lia. Qed.

Lemma u64_id x : is_u64 x → u64 x = x.
Proof. intros H. by apply Z.mod_small. Qed.

Lemma i64_id x : is_i64 x → i64 x = x.
Proof. unfold i64, is_i64. intros H. rewrite Z.mod_small; lia. Qed.

Lemma i64_add x y : i64 (i64 x + y) = i64 (x + y).
Proof.
  unfold i64. f_equal. replace ((x + 2 ^ 63) `mod` 2 ^ 64 - 2 ^ 63 + y + 2 ^ 63)%Z with ((x + 2 ^ 63) `mod` 2 ^ 64 + y)%Z by lia.
  rewrite Zplus_mod_idemp_l. f_equal. lia.
Qed.

Lemma i64_range x : is_i64 (i64 x).
Proof.
  unfold i64, is_i64.
  pose proof (Z.mod_pos_bound (x + 2 ^ 63) (2 ^ 64)). lia.
Qed.

(** ** Automation *)

Create HintDb memcache discriminated.
#[export] Hint Constants Opaque : memcache.
#[export] Hint Resolve u64_range i64_range : memcache.

(** Splits every conjunction and existential of the context. *)
Ltac split_hyps :=
  repeat match goal with
    | H : _ ∧ _ |- _ => destruct H
    | H : ∃ _, _ |- _ => destruct H
    end.

(** Case analysis on every [decide], [match] and boolean test of the goal. *)
Ltac cases :=
  repeat (case_match || case_decide); simplify_eq/=; try done.

(** ** Maps updated through a nil-able pointer *)

Abbreviation loc := positive.

(** [n.f = v], where [v] may be nil: a nil field is an absent key. *)
Definition upd {A} (m : gmap loc A) (k : loc) (v : option A) : gmap loc A :=
  partial_alter (λ _, v) k m.

Lemma lookup_upd_eq {A} (m : gmap loc A) k v : upd m k v !! k = v.
Proof. apply lookup_partial_alter_eq. Qed.

Lemma lookup_upd_ne {A} (m : gmap loc A) k k' v : k ≠ k' → upd m k v !! k' = m !! k'.
Proof. apply lookup_partial_alter_ne. Qed.

Lemma lookup_upd {A} (m : gmap loc A) k k' v :
  upd m k v !! k' = if decide (k = k') then v else m !! k'.
Proof. case_decide; subst; [apply lookup_upd_eq | by apply lookup_upd_ne]. Qed.

Lemma upd_upd {A} (m : gmap loc A) k v v' : upd (upd m k v) k v' = upd m k v'.
Proof. apply map_eq. intros i. rewrite !lookup_upd. by repeat case_decide. Qed.

(** ** Lists *)

Section lists.
Context {A : Type} `{EqDecision A}.
Implicit Types (l : list A) (x : A).

(** The list without [x]. *)
Definition without (x : A) (l : list A) : list A := filter (.≠ x) l.

Lemma without_notin x l : x ∉ l → without x l = l.
Proof.
  unfold without. induction l as [|y l IH]; [done|].
  rewrite not_elem_of_cons. intros [? ?].
  rewrite filter_cons_True; last congruence. by rewrite IH.
Qed.

Lemma without_split x l1 l2 :
  NoDup (l1 ++ x :: l2) → without x (l1 ++ x :: l2) = l1 ++ l2.
Proof.
  rewrite NoDup_app NoDup_cons. intros (H1 & H2 & H3 & H4).
  unfold without. rewrite filter_app filter_cons_False; last naive_solver.
  f_equal; apply without_notin; [|done]. intros Hin. set_solver.
Qed.

Lemma elem_of_without x y l : y ∈ without x l ↔ y ≠ x ∧ y ∈ l.
Proof. unfold without. by rewrite list_elem_of_filter. Qed.

Lemma NoDup_without x l : NoDup l → NoDup (without x l).
Proof. apply NoDup_filter. Qed.

Lemma without_app x l1 l2 : without x (l1 ++ l2) = without x l1 ++ without x l2.
Proof. apply filter_app. Qed.

Lemma without_cons_eq x l : x ∉ l → without x (x :: l) = l.
Proof. intros. unfold without. rewrite filter_cons_False; last naive_solver. by apply without_notin. Qed.

Lemma length_without x l : NoDup l → x ∈ l → S (length (without x l)) = length l.
Proof.
  intros Hn (l1 & l2 & ->)%list_elem_of_split.
  rewrite without_split //. rewrite !length_app /=. lia.
Qed.

Lemma last_is_Some_cons x l : is_Some (last (x :: l)).
Proof. apply last_is_Some. done. Qed.
End lists.

Lemma size_delete_S {K A} `{Countable K} (m : gmap K A) k a :
  m !! k = Some a → size m = S (size (delete k m)).
Proof.
  intros Hk. rewrite map_size_delete_Some //. assert (size m ≠ 0%nat); [|lia].
  intros Hz%map_size_empty_inv. subst. by rewrite lookup_empty in Hk.
Qed.

#[global] Arguments without : simpl never.

Create Rewrite HintDb memcache.
#[export] Hint Rewrite @elem_of_without : memcache.

(** ** [nextPowerOfTwo] ([options.go]) *)

#[local] Open Scope Z_scope.

(** [p <<= 1] while [p < n].  62 doublings reach every [n] up to [2^62];
    beyond, [p] overflows to 0 and Go's loop does not end. *)
Fixpoint nextPow_loop (fuel : nat) (p n : Z) : Z :=
  match fuel with
  | O => p
  | S fuel => if bool_decide (p < n) then nextPow_loop fuel (i64 (Z.shiftl p 1)) n else p
  end.

Definition nextPowerOfTwo (n : Z) : Z :=
  if bool_decide (n <= 1) then 1 else nextPow_loop 63 1 n.

Lemma nextPow_loop_spec fuel (b : nat) n :
  Z.of_nat b + Z.of_nat fuel = 63 → 2 ^ Z.of_nat b < 2 * n → n <= 2 ^ 62 →
  ∃ b' : nat, (b' <= 62)%nat ∧ nextPow_loop fuel (2 ^ Z.of_nat b) n = 2 ^ Z.of_nat b' ∧
    n <= 2 ^ Z.of_nat b' < 2 * n.
Proof.
  revert b. induction fuel as [|fuel IH]; intros b Hb Hlt Hn.
  - assert (b = 63%nat) as -> by lia. lia.
  - cbn [nextPow_loop]. case_bool_decide as Hp.
    + assert (2 ^ Z.of_nat b < 2 ^ 62) as Hb62 by lia.
      apply Z.pow_lt_mono_r_iff in Hb62; [|lia..].
      rewrite Z.shiftl_mul_pow2 // -Z.pow_add_r; [|lia..].
      replace (Z.of_nat b + 1) with (Z.of_nat (S b)) by lia.
      assert (2 ^ Z.of_nat (S b) = 2 * 2 ^ Z.of_nat b) as Hd by (rewrite Nat2Z.inj_succ Z.pow_succ_r; lia).
      rewrite i64_id; [|unfold is_i64; lia]. apply IH; lia.
    + exists b. split_and!; [|done|lia|lia].
      assert (2 ^ Z.of_nat b < 2 ^ 63) as Hb63 by lia. apply Z.pow_lt_mono_r_iff in Hb63; lia.
Qed.

Lemma nextPowerOfTwo_spec n :
  n <= 2 ^ 62 →
  ∃ b : nat, (b <= 62)%nat ∧ nextPowerOfTwo n = 2 ^ Z.of_nat b ∧ n <= 2 ^ Z.of_nat b ∧
    (1 < n → 2 ^ Z.of_nat b < 2 * n).
Proof.
  intros Hn. unfold nextPowerOfTwo. case_bool_decide.
  - exists 0%nat. split_and!; [lia|done|done|lia].
  - destruct (nextPow_loop_spec 63 0 n) as (b & B1 & B2 & B3); [done|lia|done|]. exists b.
    split_and!; [done|exact B2|lia|lia].
Qed.
