(* ===== verification/Dll.v ===== *)
(** * Dll: the intrusive doubly linked lists of the eviction policies

    Every policy of the package keeps its entries on intrusive doubly linked
    lists, each written out by hand in its own file.  This file models the
    memory those lists live in and the list code itself.

    Memory is modelled field by field: a pointer is a [loc], and the [next]
    and [prev] fields of all nodes of one node type are two finite maps from
    locations to locations, a nil field being an absent key.  A list header
    ([head], [tail] and [size] fields of a policy struct) is a [dll].

    [dll_rep L q l] says that header [q] and the pointers [L] represent the
    sequence of nodes [l]; the lemmas show what each pointer routine does to
    that sequence and that it leaves every other list alone. *)

From S2P Require Import Prelude.

(** ** Memory and headers *)

Record links := Links { l_next : gmap loc loc; l_prev : gmap loc loc }.

Definition no_links : links := Links ∅ ∅.

(** [n.next = v] and [n.prev = v]. *)
Definition set_next (L : links) (n : loc) (v : option loc) : links :=
  Links (upd (l_next L) n v) (l_prev L).
Definition set_prev (L : links) (n : loc) (v : option loc) : links :=
  Links (l_next L) (upd (l_prev L) n v).

Record dll := Dll { d_head : option loc; d_tail : option loc; d_size : Z }.

Definition dll_nil : dll := Dll None None 0.

(** ** The pointer routines *)

(** Append at the tail, and count: [pushSmallTail], [pushMainTail],
    [pushInTail], [lfuList.pushTail] and FIFO's [OnInsert]. *)
Definition dll_pushTail (L : links) (q : dll) (n : loc) : links * dll :=
  let L := set_prev L n (d_tail q) in
  let L := set_next L n None in
  match d_tail q with
  | Some t => (set_next L t (Some n), Dll (d_head q) (Some n) (d_size q + 1))
  | None => (L, Dll (Some n) (Some n) (d_size q + 1))
  end.

(** Insert at the head, and count: [pushAmHead], [pushT1Head], [pushT2Head]
    and the three branches of TinyLFU's [pushHead]. *)
Definition dll_pushHead (L : links) (q : dll) (n : loc) : links * dll :=
  let L := set_prev L n None in
  let L := set_next L n (d_head q) in
  match d_head q with
  | Some h => (set_prev L h (Some n), Dll (Some n) (d_tail q) (d_size q + 1))
  | None => (L, Dll (Some n) (Some n) (d_size q + 1))
  end.

(** The [switch]-shaped unlink that returns early on a node that is not on
    the list: [unlinkSmall], [unlinkMain], [unlinkIn], [unlinkAm],
    [unlinkT1], [unlinkT2], TinyLFU's [unlinkSegment], [lfuList.remove]. *)
Definition dll_unlink (L : links) (q : dll) (n : loc) : links * dll :=
  let first :=
    match l_prev L !! n with
    | Some p => Some (set_next L p (l_next L !! n), d_head q)
    | None =>
        if decide (d_head q = Some n) then Some (L, l_next L !! n) else None
    end in
  match first with
  | None => (L, q)
  | Some (L, h) =>
      let '(L, t) :=
        match l_next L !! n with
        | Some x => (set_prev L x (l_prev L !! n), d_tail q)
        | None => (L, if decide (d_tail q = Some n) then l_prev L !! n else d_tail q)
        end in
      (set_prev (set_next L n None) n None, Dll h t (d_size q - 1))
  end.

(** The [if]-shaped unlink of LRU and of the ghost queues: no early return,
    the head and tail are moved only when they are [n]. *)
Definition dll_unlinkIf (L : links) (q : dll) (n : loc) : links * dll :=
  let '(L, h) :=
    match l_prev L !! n with
    | Some p => (set_next L p (l_next L !! n), d_head q)
    | None => (L, if decide (d_head q = Some n) then l_next L !! n else d_head q)
    end in
  let '(L, t) :=
    match l_next L !! n with
    | Some x => (set_prev L x (l_prev L !! n), d_tail q)
    | None => (L, if decide (d_tail q = Some n) then l_prev L !! n else d_tail q)
    end in
  (set_prev (set_next L n None) n None, Dll h t (d_size q - 1)).

(** The list walk [for n := head; n != nil; n = n.next], cut off after
    [fuel] nodes; [dll_walk_rep] shows that a list's own length is enough. *)
Fixpoint dll_walk (L : links) (n : option loc) (fuel : nat) : list loc :=
  match fuel, n with
  | S fuel, Some x => x :: dll_walk L (l_next L !! x) fuel
  | _, _ => []
  end.

(** ** What a header represents *)

Definition hdo (l : list loc) (e : option loc) : option loc :=
  match l with [] => e | y :: _ => Some y end.

(** The pointers of the nodes [l], entered from [p] and left to [e]. *)
Fixpoint chain (L : links) (p : option loc) (l : list loc) (e : option loc) : Prop :=
  match l with
  | [] => True
  | x :: l' =>
      l_prev L !! x = p ∧ l_next L !! x = hdo l' e ∧ chain L (Some x) l' e
  end.

Record dll_rep (L : links) (q : dll) (l : list loc) : Prop := DllRep {
  rep_chain : chain L None l None;
  rep_head : d_head q = head l;
  rep_tail : d_tail q = last l;
  rep_size : d_size q = Z.of_nat (length l);
  rep_nodup : NoDup l
}.

(** Both memories have the same pointers at [x]. *)
Definition same_at (L L' : links) (x : loc) : Prop :=
  l_next L' !! x = l_next L !! x ∧ l_prev L' !! x = l_prev L !! x.

(** A node that is on no list. *)
Definition detached (L : links) (x : loc) : Prop :=
  l_next L !! x = None ∧ l_prev L !! x = None.

(** ** Lemmas on chains *)

Lemma lasto_cons (x : loc) l p : from_option Some p (last (x :: l)) = from_option Some (Some x) (last l).
Proof. destruct l as [|y l]; [done|]. change (last (x :: y :: l)) with (last (y :: l)).
  by destruct (last_is_Some_cons y l) as [z ->]. Qed.

Lemma chain_app L p l1 l2 e :
  chain L p (l1 ++ l2) e ↔
  chain L p l1 (hdo l2 e) ∧ chain L (from_option Some p (last l1)) l2 e.
Proof.
  revert p. induction l1 as [|x l1 IH]; intros p; [cbn; tauto|].
  rewrite lasto_cons. cbn [app chain]. rewrite IH.
  assert (hdo (l1 ++ l2) e = hdo l1 (hdo l2 e)) as -> by by destruct l1. tauto.
Qed.

Lemma chain_frame L L' p l e :
  (∀ x, x ∈ l → same_at L L' x) → chain L p l e → chain L' p l e.
Proof.
  revert p. induction l as [|x l IH]; intros p Hs; [done|].
  intros (H1 & H2 & H3). destruct (Hs x) as [E1 E2]; [set_solver|].
  cbn. rewrite E1 E2. split_and!; [done..|]. apply IH; [set_solver|done].
Qed.

Lemma rep_frame L L' q l :
  (∀ x, x ∈ l → same_at L L' x) → dll_rep L q l → dll_rep L' q l.
Proof. intros Hs [? ? ? ? ?]. constructor; eauto using chain_frame. Qed.

Lemma rep_nil L : dll_rep L dll_nil [].
Proof. by constructor; [| | | |constructor]. Qed.

Lemma detached_frame L L' x : same_at L L' x → detached L x → detached L' x.
Proof. intros [E1 E2] [H1 H2]. split; congruence. Qed.

(** The pointers of one node of a list, by its neighbours. *)
Lemma rep_node L q l1 x l2 :
  dll_rep L q (l1 ++ x :: l2) → l_prev L !! x = last l1 ∧ l_next L !! x = head l2.
Proof.
  intros [Hc _ _ _ _]. apply chain_app in Hc as [_ (H1 & H2 & _)].
  split; [rewrite H1; by destruct (last l1)|rewrite H2; by destruct l2].
Qed.

(** A chain survives a change of the pointer that enters it, when its first
    node is changed to match, and of the pointer that leaves it. *)
Lemma chain_reenter L L' p p' l e :
  NoDup l →
  (∀ x, x ∈ l → l_next L' !! x = l_next L !! x) →
  (∀ x, x ∈ tail l → l_prev L' !! x = l_prev L !! x) →
  (∀ x, head l = Some x → l_prev L' !! x = p') →
  chain L p l e → chain L' p' l e.
Proof.
  destruct l as [|x l]; [done|]. intros Hn Hx Hp Hh (H1 & H2 & H3).
  cbn. split_and!; [by apply Hh|rewrite Hx; [done|set_solver]|].
  eapply chain_frame; [|exact H3]. intros y Hy. split; [apply Hx; set_solver|by apply Hp].
Qed.

Lemma chain_reexit L L' p l y e e' :
  NoDup (l ++ [y]) →
  (∀ x, x ∈ l → same_at L L' x) →
  l_prev L' !! y = l_prev L !! y →
  l_next L' !! y = e' →
  chain L p (l ++ [y]) e → chain L' p (l ++ [y]) e'.
Proof.
  intros Hn Hs Hp He. rewrite !chain_app /=. intros (H1 & H2 & H3 & _).
  split_and!; [by eapply chain_frame|by rewrite Hp|done|done].
Qed.

(** ** Appending and prepending *)

Lemma pushTail_rep L q l n :
  dll_rep L q l → n ∉ l →
  let '(L', q') := dll_pushTail L q n in
  dll_rep L' q' (l ++ [n]) ∧ (∀ x, x ≠ n → x ∉ l → same_at L L' x).
Proof.
  intros [Hc Hh Ht Hs Hn] Hin. unfold dll_pushTail. rewrite Ht.
  assert (NoDup (l ++ [n])) as Hn'.
  { apply NoDup_app. split_and!; [done|set_solver|apply NoDup_singleton]. }
  destruct l as [|t l] using rev_ind.
  - cbn. split.
    + constructor; cbn; rewrite ?lookup_upd_eq; [done|done|done|rewrite Hs; done|done].
    + intros x Hx _. split; cbn; by rewrite lookup_upd_ne.
  - clear IHl. rewrite last_snoc. rewrite !not_elem_of_app not_elem_of_cons in Hin.
    destruct Hin as (Hl & Htn & _).
    apply NoDup_app in Hn as (Hnl & Hd & _).
    assert (t ∉ l) as Htl by set_solver.
    split.
    + constructor; cbn; [|rewrite Hh|by rewrite last_snoc|rewrite Hs !length_app /=; lia|done].
      * apply chain_app. rewrite last_snoc. split.
        -- eapply chain_reexit; [| | | |exact Hc]; cbn.
           ++ apply NoDup_app. split_and!; [done|set_solver|apply NoDup_singleton].
           ++ intros x Hx. assert (x ≠ t) by set_solver +Hx Htl. assert (x ≠ n) by set_solver +Hx Hl.
              split; cbn; by rewrite ?lookup_upd_ne.
           ++ by rewrite lookup_upd_ne.
           ++ by rewrite lookup_upd_eq.
        -- cbn. rewrite lookup_upd_eq lookup_upd_ne // lookup_upd_eq //.
      * by destruct l.
    + intros x Hxn Hx. assert (x ≠ t) by set_solver.
      split; cbn; by rewrite !lookup_upd_ne.
Qed.

Lemma pushHead_rep L q l n :
  dll_rep L q l → n ∉ l →
  let '(L', q') := dll_pushHead L q n in
  dll_rep L' q' (n :: l) ∧ (∀ x, x ≠ n → x ∉ l → same_at L L' x).
Proof.
  intros [Hc Hh Ht Hs Hn] Hin. unfold dll_pushHead. rewrite Hh.
  assert (NoDup (n :: l)) as Hn' by by constructor.
  destruct l as [|h l].
  - cbn. split.
    + constructor; cbn; rewrite ?lookup_upd_eq; [done|done|done|rewrite Hs; done|done].
    + intros x Hx _. split; cbn; by rewrite lookup_upd_ne.
  - cbn -[set_next set_prev]. apply not_elem_of_cons in Hin as [Hnh Hnl].
    split.
    + constructor; [|done|by cbn; rewrite Ht|cbn; rewrite Hs /=; lia|done].
      split; [by cbn; rewrite lookup_upd_ne // lookup_upd_eq|].
      split; [by cbn; rewrite lookup_upd_eq|].
      eapply (chain_reenter L _ None (Some n) (h :: l)); [done| | | |exact Hc]; cbn.
      * intros x Hx. rewrite lookup_upd_ne //. set_solver.
      * intros x Hx. apply NoDup_cons in Hn as [Hhl _].
        assert (x ≠ h) by set_solver. assert (x ≠ n) by set_solver. by rewrite !lookup_upd_ne.
      * intros x [= ->]. by rewrite lookup_upd_eq.
    + intros x Hxn [Hxh Hxl]%not_elem_of_cons.
      split; cbn; by rewrite !lookup_upd_ne.
Qed.

(** ** Unlinking *)

(** What both unlink routines leave behind when [x] sits between [l1] and
    [l2]. *)
Definition spliced (L : links) (q : dll) (l1 : list loc) (x : loc) (l2 : list loc) : links * dll :=
  (Links (upd (match last l1 with Some p => upd (l_next L) p (head l2) | None => l_next L end) x None)
         (upd (match head l2 with Some s => upd (l_prev L) s (last l1) | None => l_prev L end) x None),
   Dll (head (l1 ++ l2)) (last (l1 ++ l2)) (d_size q - 1)).

Lemma head_app_split (l1 l2 : list loc) :
  head (l1 ++ l2) = match last l1 with Some _ => head l1 | None => head l2 end.
Proof. destruct l1 as [|y l1]; [done|]. by destruct (last_is_Some_cons y l1) as [z ->]. Qed.

Lemma last_app_split (l1 l2 : list loc) :
  last (l1 ++ l2) = match head l2 with Some _ => last l2 | None => last l1 end.
Proof.
  destruct l2 as [|y l2]; [by rewrite app_nil_r|]. cbn [head hd_error].
  rewrite last_app. by destruct (last_is_Some_cons y l2) as [z ->].
Qed.

Section unlink.
Context (L : links) (q : dll) (l1 l2 : list loc) (x : loc).
Hypothesis Hrep : dll_rep L q (l1 ++ x :: l2).

Let Hn : NoDup (l1 ++ x :: l2) := rep_nodup _ _ _ Hrep.

Lemma unlink_apart : x ∉ l1 ∧ x ∉ l2 ∧ (∀ y, y ∈ l1 → y ∉ l2) ∧ NoDup l1 ∧ NoDup l2.
Proof using Hn. apply NoDup_app in Hn as (? & ? & [??]%NoDup_cons). set_solver. Qed.

Lemma unlink_head : d_head q = match last l1 with Some _ => head l1 | None => Some x end.
Proof using Hrep. rewrite (rep_head _ _ _ Hrep) head_app_split. done. Qed.

Lemma unlink_tail : d_tail q = match head l2 with Some _ => last l2 | None => Some x end.
Proof using Hrep.
  rewrite (rep_tail _ _ _ Hrep) last_app_split /=. destruct l2 as [|y l']; [done|].
  done.
Qed.

Lemma unlink_next_x_kept p : last l1 = Some p → p ≠ x.
Proof using Hn. destruct unlink_apart as [? _]. intros Hl%last_Some_elem_of ->. done. Qed.

Lemma unlink_spliced : dll_unlink L q x = spliced L q l1 x l2.
Proof using Hrep.
  destruct (rep_node _ _ _ _ _ Hrep) as [Hp Hx]. destruct unlink_apart as (Hx1 & Hx2 & _).
  unfold dll_unlink, spliced. rewrite Hp Hx unlink_head unlink_tail head_app_split last_app_split.
  destruct (last l1) as [p|] eqn:El; cbn.
  - pose proof (unlink_next_x_kept p El). rewrite lookup_upd_ne // Hx.
    destruct (head l2) as [s|]; cbn; rewrite Hp; [done|]. by rewrite decide_True.
  - rewrite decide_True //. cbn. rewrite Hx.
    destruct (head l2) as [s|]; cbn; rewrite Hp; [done|]. by rewrite decide_True.
Qed.

Lemma unlinkIf_spliced : dll_unlinkIf L q x = spliced L q l1 x l2.
Proof using Hrep.
  destruct (rep_node _ _ _ _ _ Hrep) as [Hp Hx]. destruct unlink_apart as (Hx1 & Hx2 & _).
  unfold dll_unlinkIf, spliced. rewrite Hp Hx unlink_head unlink_tail head_app_split last_app_split.
  destruct (last l1) as [p|] eqn:El; cbn.
  - pose proof (unlink_next_x_kept p El). rewrite lookup_upd_ne // Hx.
    destruct (head l2) as [s|]; cbn; rewrite Hp; [done|]. by rewrite decide_True.
  - rewrite (decide_True (P := Some x = Some x)) // Hx.
    destruct (head l2) as [s|]; cbn; rewrite Hp; [done|]. by rewrite decide_True.
Qed.

(** The pointers of the remaining nodes, and of the unlinked one. *)
Lemma spliced_chain :
  chain (spliced L q l1 x l2).1 None (l1 ++ l2) None ∧
  detached (spliced L q l1 x l2).1 x.
Proof using Hrep.
  destruct unlink_apart as (Hx1 & Hx2 & Hd & Hn1 & Hn2).
  split; [|by split; cbn; rewrite lookup_upd_eq].
  pose proof (rep_chain _ _ _ Hrep) as (Hc1 & _ & _ & Hc2)%chain_app.
  apply chain_app. split.
  - destruct l1 as [|p l] using rev_ind; [done|]. clear IHl.
    apply NoDup_app in Hn1 as (? & Hpl & _).
    assert (p ≠ x) by set_solver +Hx1.
    eapply chain_reexit; [| | | |exact Hc1]; cbn; rewrite ?last_snoc.
    + apply NoDup_app. split_and!; [done|set_solver|apply NoDup_singleton].
    + intros y Hy. assert (y ≠ p) by set_solver. assert (y ≠ x) by set_solver +Hx1 Hy.
      split; cbn; rewrite !lookup_upd_ne //.
      destruct (head l2) as [s|] eqn:Es; [|done]. rewrite lookup_upd_ne //.
      intros ->. apply head_Some_elem_of in Es. set_solver.
    + rewrite !lookup_upd_ne //.
      destruct (head l2) as [s|] eqn:Es; [|done]. rewrite lookup_upd_ne //.
      intros ->. apply head_Some_elem_of in Es. set_solver.
    + rewrite lookup_upd_ne // lookup_upd_eq. by destruct l2.
  - eapply chain_reenter; [done| | | |exact Hc2]; cbn.
    + intros y Hy. rewrite lookup_upd_ne; [|set_solver].
      destruct (last l1) as [p|] eqn:Ep; [|done]. rewrite lookup_upd_ne //.
      intros ->. apply last_Some_elem_of in Ep. set_solver.
    + intros y Hy. destruct l2 as [|s l]; [set_solver|]. cbn.
      apply NoDup_cons in Hn2 as [? _]. rewrite !lookup_upd_ne //; set_solver.
    + intros y Hy. assert (y ∈ l2) by by apply head_Some_elem_of. rewrite lookup_upd_ne; [|set_solver].
      rewrite Hy lookup_upd_eq. by destruct (last l1).
Qed.

Lemma spliced_rep :
  let '(L', q') := spliced L q l1 x l2 in
  dll_rep L' q' (l1 ++ l2) ∧ detached L' x ∧ (∀ y, y ∉ l1 ++ x :: l2 → same_at L L' y).
Proof using Hrep.
  destruct unlink_apart as (Hx1 & Hx2 & Hd & Hn1 & Hn2).
  destruct spliced_chain as [Hc Hdet]. split_and!; [|done|].
  - constructor; cbn; [done|done|done| |].
    + rewrite (rep_size _ _ _ Hrep) !length_app /=. lia.
    + apply NoDup_app. by split_and!.
  - intros y Hy. assert (x ≠ y) by set_solver. split; cbn; rewrite lookup_upd_ne //.
    + destruct (last l1) as [p|] eqn:Ep; [|done]. rewrite lookup_upd_ne //.
      intros ->. apply last_Some_elem_of in Ep. set_solver.
    + destruct (head l2) as [s|] eqn:Es; [|done]. rewrite lookup_upd_ne //.
      intros ->. apply head_Some_elem_of in Es. set_solver.
Qed.
End unlink.

Lemma unlink_rep L q l x :
  dll_rep L q l → x ∈ l →
  let '(L', q') := dll_unlink L q x in
  dll_rep L' q' (without x l) ∧ detached L' x ∧ (∀ y, y ∉ l → same_at L L' y).
Proof.
  intros Hrep (l1 & l2 & ->)%list_elem_of_split.
  rewrite (unlink_spliced _ _ _ _ _ Hrep) without_split; [|apply Hrep].
  exact (spliced_rep _ _ _ _ _ Hrep).
Qed.

(** On a node of the list, both unlink routines do the same. *)
Lemma unlinkIf_unlink L q l x :
  dll_rep L q l → x ∈ l → dll_unlinkIf L q x = dll_unlink L q x.
Proof.
  intros Hrep (l1 & l2 & ->)%list_elem_of_split.
  by rewrite (unlink_spliced _ _ _ _ _ Hrep) (unlinkIf_spliced _ _ _ _ _ Hrep).
Qed.

Lemma unlinkIf_rep L q l x :
  dll_rep L q l → x ∈ l →
  let '(L', q') := dll_unlinkIf L q x in
  dll_rep L' q' (without x l) ∧ detached L' x ∧ (∀ y, y ∉ l → same_at L L' y).
Proof. intros Hrep Hx. rewrite (unlinkIf_unlink _ _ _ _ Hrep Hx). by apply unlink_rep. Qed.

(** On a node that is on no list the early return fires. *)
Lemma unlink_detached L q l x :
  dll_rep L q l → x ∉ l → detached L x → dll_unlink L q x = (L, q).
Proof.
  intros Hrep Hx [_ Hp]. unfold dll_unlink. rewrite Hp decide_False; [done|].
  rewrite (rep_head _ _ _ Hrep). intros Hh%head_Some_elem_of. done.
Qed.

(** ** Walking *)

Lemma walk_chain L p l :
  chain L p l None → dll_walk L (head l) (length l) = l.
Proof.
  revert p. induction l as [|x l IH]; intros p; [done|]. intros (_ & Hx & Hc).
  cbn. rewrite Hx. f_equal. specialize (IH _ Hc). by destruct l.
Qed.

Lemma dll_walk_rep L q l :
  dll_rep L q l → dll_walk L (d_head q) (Z.to_nat (d_size q)) = l.
Proof.
  intros [Hc Hh _ Hs _]. rewrite Hh Hs Nat2Z.id. exact (walk_chain _ _ _ Hc).
Qed.
