(* ===== verification/Policy.v ===== *)
(** * Policy: the interface between a shard and its eviction policy

    [policy.go] declares the Go interface [evictionPolicy]: the operations a
    shard calls, and which of the shard's events trigger them.  Here it is
    the class [EvictionPolicy].  What a shard relies on when it calls them
    is the class [PolicyLaws]: a policy state tracks a set of entries, each
    operation changes that set as its name says, [Victim] only ever returns a
    tracked entry, and a shard that holds entries can always shed one.  The
    shard's theorems are proved against [PolicyLaws]; the file of each policy
    proves its instance.

    The file also holds what the policies share: the memory of their nodes
    ([nodes]) and the bijection between nodes and tracked entries ([owns]). *)

From S2P Require Import Prelude Dll.

(** A pointer to an entry.  A policy only compares such pointers, reads the
    [key] field and writes the [policyData] field, so a pointer is its
    address together with the entry's key, which does not change while a
    policy tracks the entry. *)
Abbreviation eref K := (loc * K)%type.

(** The [Stats.PolicyDetail] values. *)
Inductive policyDetail :=
| PolicyDetailLRU (Size : Z)
| PolicyDetailFIFO (Size : Z)
| PolicyDetailLFU (Size DistinctBuckets : Z)
| PolicyDetailS3FIFO (SmallSize MainSize GhostSize SmallBudget MainBudget : Z)
| PolicyDetailTinyLFU (WindowSize MainSize SketchOps : Z)
| PolicyDetail2Q (A1inSize AmSize A1outSize : Z)
| PolicyDetailARC (T1Size T2Size B1Size B2Size P : Z).

(** ** The interface *)

Class EvictionPolicy (K P : Type) := {
  OnInsert : P → eref K → P;
  OnAccess : P → eref K → P;
  OnUpdate : P → eref K → P;
  OnRemove : P → eref K → P;
  Victim : P → option (eref K) * P;
  Len : P → Z;
  Reset : P → P;
  SetBudget : P → Z → P;
  Snapshot : P → policyDetail;
  PromotionNeeded : P → eref K → bool;
  (** The arm of [shedVictim]'s type switch for this policy. *)
  shed : P → bool → option (eref K) * P
}.

(** An entry to evict when the cache is over its byte or entry bound. *)
Definition shedVictim {K P} `{EvictionPolicy K P} (p : P) (keepRecent : bool) : option (eref K) * P :=
  match Victim p with
  | (Some v, p) => (Some v, p)
  | (None, p) => shed p keepRecent
  end.

(** ** Sequences of calls *)

(** The calls a shard makes; [PEvict] is [Victim] followed by the [OnRemove]
    of the entry it returned. *)
Inductive pop (K : Type) :=
| PInsert (e : eref K)
| PAccess (e : eref K)
| PUpdate (e : eref K)
| PRemove (e : eref K)
| PEvict
| PReset.
Arguments PInsert {K} _.
Arguments PAccess {K} _.
Arguments PUpdate {K} _.
Arguments PRemove {K} _.
Arguments PEvict {K}.
Arguments PReset {K}.

Definition pol_step {K P} `{EvictionPolicy K P} (p : P) (o : pop K) : P :=
  match o with
  | PInsert e => OnInsert p e
  | PAccess e => OnAccess p e
  | PUpdate e => OnUpdate p e
  | PRemove e => OnRemove p e
  | PEvict => match Victim p with (Some e, p) => OnRemove p e | (None, p) => p end
  | PReset => Reset p
  end.

(** A shard inserts entries whose address no tracked entry has, and touches
    only entries it holds. *)
Definition pop_ok {K} `{Countable K} (es : list (eref K)) (o : pop K) : Prop :=
  match o with
  | PInsert e => e.1 ∉ es.*1
  | PAccess e | PUpdate e | PRemove e => e ∈ es
  | PEvict | PReset => True
  end.

(** A sequence of calls, each allowed in the state of the specification
    [spec] (a sequence of entries) that the calls before it lead to. *)
Fixpoint pops_ok {K} `{Countable K} (spec : list (eref K) → pop K → list (eref K))
    (es : list (eref K)) (os : list (pop K)) : Prop :=
  match os with
  | [] => True
  | o :: os => pop_ok es o ∧ pops_ok spec (spec es o) os
  end.

(** The same for a specification with a state [T], in which [held] are the
    entries a shard may touch. *)
Fixpoint calls_ok {K T} `{Countable K} (held : T → list (eref K)) (spec : T → pop K → T)
    (st : T) (os : list (pop K)) : Prop :=
  match os with
  | [] => True
  | o :: os => pop_ok (held st) o ∧ calls_ok held spec (spec st o) os
  end.

(** A victim is a tracked entry, and [OnRemove] then forgets it; without a
    victim the tracked entries are unchanged. *)
Definition evicted {K P} `{Countable K} `{EvictionPolicy K P}
    (T : P → gset (eref K) → Prop) (S : gset (eref K)) (r : option (eref K) * P) : Prop :=
  match r with
  | (Some e, p) => e ∈ S ∧ T (OnRemove p e) (S ∖ {[e]})
  | (None, p) => T p S
  end.

(** What a shard relies on. *)
Class PolicyLaws (K P : Type) `{Countable K} `{EvictionPolicy K P} := {
  (** [tracks p S]: [p] is well-formed and holds exactly the entries [S]. *)
  tracks : P → gset (eref K) → Prop;
  tracks_insert p S e :
    tracks p S → (∀ e', e' ∈ S → e'.1 ≠ e.1) → tracks (OnInsert p e) ({[e]} ∪ S);
  tracks_access p S e : tracks p S → e ∈ S → tracks (OnAccess p e) S;
  tracks_update p S e : tracks p S → e ∈ S → tracks (OnUpdate p e) S;
  tracks_remove p S e : tracks p S → e ∈ S → tracks (OnRemove p e) (S ∖ {[e]});
  tracks_victim p S : tracks p S → evicted tracks S (Victim p);
  tracks_shed p S b : tracks p S → evicted tracks S (shed p b);
  (** A shard over its bounds can shed: any entry, or with [keepRecent] any
      but the newest. *)
  shed_progress p S (b : bool) :
    tracks p S → (if b then 2 ≤ size S else 1 ≤ size S)%nat → is_Some (shedVictim p b).1;
  tracks_len p S : tracks p S → Len p = Z.of_nat (size S);
  tracks_reset p S : tracks p S → tracks (Reset p) ∅;
  tracks_set_budget p S b : tracks p S → tracks (SetBudget p b) S;
  (** The read path skips [OnAccess] when [PromotionNeeded] is false. *)
  promotion_skip p S e :
    tracks p S → e ∈ S → PromotionNeeded p e = false → OnAccess p e = p
}.

Lemma tracks_shedVictim {K P} `{PolicyLaws K P} (p : P) S b :
  tracks p S → evicted tracks S (shedVictim p b).
Proof.
  intros HT. pose proof (tracks_victim p S HT) as Hv. unfold shedVictim.
  destruct (Victim p) as [[e|] p']; [done|]. by apply tracks_shed.
Qed.

(** ** The nodes of a policy *)

(** Nodes of one type: their list pointers, their [entry] fields, the
    [policyData] field of each entry (by the entry's address), and the next
    address an allocation returns. *)
Record nodes (K : Type) := Nodes {
  nd_links : links;
  nd_entry : gmap loc (eref K);
  nd_data : gmap loc loc;
  nd_fresh : loc
}.
Arguments Nodes {K} _ _ _ _.
Arguments nd_links {K} _.
Arguments nd_entry {K} _.
Arguments nd_data {K} _.
Arguments nd_fresh {K} _.

Section nodes.
Context {K : Type}.
Implicit Types (N : nodes K) (e : eref K).

Definition nodes_empty : nodes K := Nodes no_links ∅ ∅ 1%positive.

Definition with_links N (L : links) : nodes K :=
  Nodes L (nd_entry N) (nd_data N) (nd_fresh N).

(** [n := &node{entry: e}; e.policyData = n]; the new node is at the old
    [nd_fresh] and its pointers are nil. *)
Definition alloc N e : nodes K :=
  Nodes (set_prev (set_next (nd_links N) (nd_fresh N) None) (nd_fresh N) None)
    (<[nd_fresh N := e]> (nd_entry N))
    (<[e.1 := nd_fresh N]> (nd_data N)) (Pos.succ (nd_fresh N)).

(** [n.entry = nil; n.next, n.prev = nil, nil; e.policyData = nil] *)
Definition release N (n : loc) e : nodes K :=
  Nodes (set_prev (set_next (nd_links N) n None) n None)
    (delete n (nd_entry N)) (delete e.1 (nd_data N)) (nd_fresh N).

(** The body of the loops of [Reset]: every node of the list is cleared and
    its entry's [policyData] forgotten. *)
Fixpoint reset_nodes N (l : list loc) : nodes K :=
  match l with
  | [] => N
  | n :: l =>
      let N' := match nd_entry N !! n with
                | Some e => release N n e
                | None => Nodes (set_prev (set_next (nd_links N) n None) n None)
                            (nd_entry N) (nd_data N) (nd_fresh N)
                end in
      reset_nodes N' l
  end.
End nodes.

(** The entries of a sequence of nodes, in order. *)
Definition ents {K} (N : nodes K) (l : list loc) : list (eref K) :=
  omap (λ x, nd_entry N !! x) l.

(** [owns N l S]: the nodes [l] are in one-to-one correspondence, by their
    [entry] fields and the entries' [policyData] fields, with [S]. *)
Record owns {K} `{Countable K} (N : nodes K) (l : list loc) (S : gset (eref K)) : Prop := Owns {
  owns_nodup : NoDup l;
  owns_fresh : ∀ x, x ∈ l → (x < nd_fresh N)%positive;
  owns_node : ∀ x, x ∈ l → ∃ e, nd_entry N !! x = Some e ∧ e ∈ S ∧ nd_data N !! e.1 = Some x;
  owns_data : ∀ e, e ∈ S → ∃ x, x ∈ l ∧ nd_data N !! e.1 = Some x ∧ nd_entry N !! x = Some e
}.

Section owns.
Context {K : Type} `{Countable K}.
Implicit Types (N : nodes K) (e : eref K) (S : gset (eref K)) (l : list loc).

Lemma owns_empty : owns (nodes_empty (K := K)) [] ∅.
Proof. constructor; [constructor|set_solver..]. Qed.

Lemma owns_nil N : owns N [] (∅ : gset (eref K)).
Proof. constructor; [constructor|set_solver..]. Qed.

(** Only the [entry] and [policyData] fields matter. *)
Lemma owns_ext N N' l l' S :
  l ≡ₚ l' → nd_entry N' = nd_entry N → nd_data N' = nd_data N → nd_fresh N' = nd_fresh N →
  owns N l S → owns N' l' S.
Proof.
  intros Hp E1 E2 E3 [H1 H2 H3 H4]. constructor.
  - by rewrite -Hp.
  - intros x. rewrite -Hp E3. apply H2.
  - intros x. rewrite -Hp E1 E2. apply H3.
  - intros e He. rewrite E1 E2. destruct (H4 e He) as (x & ? & ?). exists x. by rewrite -Hp.
Qed.

Lemma owns_links N L l l' S : owns N l S → l ≡ₚ l' → owns (with_links N L) l' S.
Proof. intros HO Hp. exact (owns_ext N (with_links N L) _ _ _ Hp eq_refl eq_refl eq_refl HO). Qed.

(** The node an entry of [S] points to. *)
Lemma owns_lookup N l S e :
  owns N l S → e ∈ S → ∃ x, nd_data N !! e.1 = Some x ∧ x ∈ l ∧ nd_entry N !! x = Some e.
Proof. intros HO He. destruct (owns_data _ _ _ HO e He) as (x & ? & ? & ?). eauto. Qed.

(** Addresses identify entries. *)
Lemma owns_id_inj N l S e1 e2 : owns N l S → e1 ∈ S → e2 ∈ S → e1.1 = e2.1 → e1 = e2.
Proof.
  intros HO (x & ? & _ & ?)%(owns_lookup _ _ _ _ HO) (y & ? & _ & ?)%(owns_lookup _ _ _ _ HO) E.
  congruence.
Qed.

Lemma owns_node_inj N l S x y e :
  owns N l S → x ∈ l → y ∈ l → nd_entry N !! x = Some e → nd_entry N !! y = Some e → x = y.
Proof.
  intros HO (ex & ? & _ & ?)%(owns_node _ _ _ HO) (ey & ? & _ & ?)%(owns_node _ _ _ HO) Ex Ey.
  congruence.
Qed.

Lemma owns_elem N l S x e : owns N l S → x ∈ l → nd_entry N !! x = Some e → e ∈ S.
Proof. intros HO (? & ? & ? & _)%(owns_node _ _ _ HO) ?. congruence. Qed.

Lemma owns_data_eq N l S x e :
  owns N l S → x ∈ l → nd_entry N !! x = Some e → nd_data N !! e.1 = Some x.
Proof. intros HO (? & ? & ? & ?)%(owns_node _ _ _ HO) ?. congruence. Qed.

Lemma owns_alloc N l S e :
  owns N l S → (∀ e', e' ∈ S → e'.1 ≠ e.1) →
  nd_fresh N ∉ l ∧ owns (alloc N e) (nd_fresh N :: l) ({[e]} ∪ S).
Proof.
  intros [H1 H2 H3 H4] Hid.
  assert (nd_fresh N ∉ l) as Hf by (intros Hx%H2; lia).
  split; [done|]. constructor; cbn.
  - by constructor.
  - intros x [->|Hx%H2]%elem_of_cons; lia.
  - intros x [->|Hx]%elem_of_cons.
    + exists e. rewrite !lookup_insert_eq. set_solver.
    + destruct (H3 x Hx) as (e' & ? & He' & ?). exists e'.
      rewrite !lookup_insert_ne; [set_solver|..]; first [by apply not_eq_sym, Hid|by intros <-].
  - intros e' [->%elem_of_singleton|He']%elem_of_union.
    + exists (nd_fresh N). rewrite !lookup_insert_eq. set_solver.
    + destruct (H4 e' He') as (x & Hx & ? & ?). exists x.
      rewrite !lookup_insert_ne; [set_solver|..]; first [by apply not_eq_sym, Hid|by intros <-].
Qed.

(** Forgetting one entry; the [policyData] field may be kept ([pinNodes]). *)
Lemma owns_release N N' l S x e :
  owns N l S → e ∈ S → nd_data N !! e.1 = Some x →
  nd_entry N' = delete x (nd_entry N) →
  (nd_data N' = delete e.1 (nd_data N) ∨ nd_data N' = nd_data N) →
  nd_fresh N' = nd_fresh N →
  owns N' (without x l) (S ∖ {[e]}).
Proof.
  intros HO He Hx E1 E2 E3.
  assert (∀ id, id ≠ e.1 → nd_data N' !! id = nd_data N !! id) as Hd.
  { intros id ?. destruct E2 as [-> | ->]; [by rewrite lookup_delete_ne|done]. }
  assert (∀ e', e' ∈ S → e' ≠ e → e'.1 ≠ e.1) as Hid.
  { intros e' ? Hne Heq. by apply Hne, (owns_id_inj _ _ _ _ _ HO). }
  constructor.
  - apply NoDup_without, HO.
  - intros y [_ Hy]%elem_of_without. rewrite E3. by apply (owns_fresh _ _ _ HO).
  - intros y [Hne Hy]%elem_of_without.
    destruct (owns_node _ _ _ HO y Hy) as (e' & Ee & He' & Hd'). exists e'.
    assert (e' ≠ e) by congruence.
    rewrite E1 lookup_delete_ne // Hd; [|by apply Hid]. set_solver.
  - intros e' [He' Hne%not_elem_of_singleton]%elem_of_difference.
    destruct (owns_lookup _ _ _ _ HO He') as (y & Hy & Hyl & Hye). exists y.
    assert (y ≠ x). { intros ->. destruct (owns_lookup _ _ _ _ HO He) as (? & ? & ? & ?). congruence. }
    rewrite elem_of_without Hd; [|by apply Hid]. rewrite E1 lookup_delete_ne //.
Qed.

Lemma elem_of_ents N l S e : owns N l S → e ∈ ents N l ↔ e ∈ S.
Proof.
  intros HO. unfold ents. rewrite list_elem_of_omap. split.
  - intros (x & Hx & Ex). by eapply owns_elem.
  - intros (x & _ & ? & ?)%(owns_lookup _ _ _ _ HO). eauto.
Qed.

Lemma ents_alloc N l e : nd_fresh N ∉ l → ents (alloc N e) l = ents N l.
Proof.
  unfold ents. induction l as [|x l IH]; [done|]. rewrite not_elem_of_cons. intros [Hx Hl].
  cbn. rewrite lookup_insert_ne // IH //.
Qed.

Lemma ents_alloc_new N e : ents (alloc N e) [nd_fresh N] = [e].
Proof. unfold ents. cbn. by rewrite lookup_insert_eq. Qed.

Lemma ents_release N N' l S x e :
  owns N l S → nd_data N !! e.1 = Some x → nd_entry N !! x = Some e →
  nd_entry N' = delete x (nd_entry N) →
  ents N' (without x l) = without e (ents N l).
Proof.
  intros HO Hd Hx HE.
  assert (∀ y, y ∈ l → y ≠ x → ∃ e', nd_entry N !! y = Some e' ∧ e' ≠ e) as Hy.
  { intros y Hy Hne. destruct (owns_node _ _ _ HO y Hy) as (e' & ? & _ & ?).
    exists e'. split; [done|]. intros ->. congruence. }
  clear HO Hd. unfold ents. induction l as [|y l IH]; [done|].
  unfold without in *. destruct (decide (y = x)) as [->|Hne].
  - rewrite filter_cons_False; [|naive_solver]. cbn. rewrite Hx filter_cons_False; [|naive_solver].
    apply IH. set_solver.
  - destruct (Hy y) as (e' & Ee & Hne'); [set_solver|done|].
    rewrite filter_cons_True //. cbn. rewrite HE lookup_delete_ne // Ee filter_cons_True //.
    f_equal. rewrite -HE. apply IH. set_solver.
Qed.

Lemma ents_ext N N' l : nd_entry N' = nd_entry N → ents N' l = ents N l.
Proof. unfold ents. by intros ->. Qed.

Lemma ents_without N l S x e :
  owns N l S → nd_data N !! e.1 = Some x → nd_entry N !! x = Some e →
  ents N (without x l) = without e (ents N l).
Proof.
  intros HO Hd Hx. rewrite -(ents_release _ (release N x e) _ _ _ _ HO Hd Hx) //.
  unfold ents, without. cbn. clear. induction l as [|y l IH]; [done|].
  destruct (decide (y = x)) as [->|Hy].
  - rewrite filter_cons_False //. naive_solver.
  - rewrite filter_cons_True //. cbn. by rewrite IH lookup_delete_ne.
Qed.

Lemma ents_app N l1 l2 : ents N (l1 ++ l2) = ents N l1 ++ ents N l2.
Proof. apply omap_app. Qed.

Lemma ents_head N l S : owns N l S → head (ents N l) = head l ≫= λ x, nd_entry N !! x.
Proof.
  intros HO. destruct l as [|x l]; [done|]. cbn.
  destruct (owns_node _ _ _ HO x) as (e & -> & _); [set_solver|done].
Qed.

Lemma ents_last N l S : owns N l S → last (ents N l) = last l ≫= λ x, nd_entry N !! x.
Proof.
  intros HO. destruct l as [|x l] using rev_ind; [done|].
  rewrite ents_app last_snoc. cbn.
  destruct (owns_node _ _ _ HO x) as (e & -> & _); [set_solver|]. cbn. by rewrite last_snoc.
Qed.

Lemma ents_ids N l S e :
  owns N l S → e.1 ∉ (ents N l).*1 → ∀ e', e' ∈ S → e'.1 ≠ e.1.
Proof.
  intros HO Hn e' He' Heq. apply Hn. rewrite -Heq. apply list_elem_of_fmap_2.
  by apply (elem_of_ents _ _ _ _ HO).
Qed.

Lemma ents_length N l S : owns N l S → length (ents N l) = length l.
Proof.
  intros HO. assert (∀ x, x ∈ l → is_Some (nd_entry N !! x)) as Hs.
  { intros x (e & -> & _)%(owns_node _ _ _ HO). done. }
  clear HO. unfold ents. induction l as [|x l IH]; [done|]. cbn.
  destruct (Hs x) as [e ->]; [set_solver|]. cbn. rewrite IH //. set_solver.
Qed.

Lemma NoDup_ents N l S : owns N l S → NoDup (ents N l).
Proof.
  intros HO. pose proof (owns_nodup _ _ _ HO) as Hn.
  assert (∀ x y e, x ∈ l → y ∈ l → nd_entry N !! x = Some e → nd_entry N !! y = Some e → x = y)
    as Hinj by eauto using owns_node_inj. clear HO.
  unfold ents. induction l as [|x l IH]; [constructor|]. cbn. apply NoDup_cons in Hn as [Hx Hn].
  destruct (nd_entry N !! x) as [e|] eqn:Ex; [|apply IH; [done|set_solver]].
  constructor; [|apply IH; [done|set_solver]].
  rewrite list_elem_of_omap. intros (y & Hy & Ey). assert (x = y) as ->; [|done].
  eapply Hinj; [set_solver..|exact Ex|exact Ey].
Qed.

(** As many entries as nodes. *)
Lemma owns_size N l S : owns N l S → size S = length l.
Proof.
  intros HO. revert N S HO. induction l as [|x l IH]; intros N S HO.
  - assert (S ≡ ∅) as ->; [|done]. intros e. split; [|set_solver].
    intros He. destruct (owns_lookup _ _ _ _ HO He) as (? & _ & ? & _). set_solver.
  - destruct (owns_node _ _ _ HO x) as (e & Ee & He & Hd); [set_solver|].
    assert (owns (release N x e) l (S ∖ {[e]})) as HO'.
    { assert (without x (x :: l) = l) as <-.
      { apply without_cons_eq. pose proof (owns_nodup _ _ _ HO) as [??]%NoDup_cons. done. }
      eapply owns_release; [exact HO|done..|by left|done]. }
    apply IH in HO'. rewrite size_difference in HO'; [|set_solver].
    rewrite size_singleton in HO'.
    assert (size S ≠ 0%nat). { intros E%size_empty_inv. set_solver. }
    cbn. lia.
Qed.
End owns.

(** Lists are untouched by the allocation of a node outside them. *)
Lemma rep_alloc {K} (N : nodes K) q l e :
  nd_fresh N ∉ l → dll_rep (nd_links N) q l → dll_rep (nd_links (alloc N e)) q l.
Proof.
  intros Hf. apply rep_frame. intros x Hx. assert (nd_fresh N ≠ x) by by intros <-.
  split; cbn; by rewrite lookup_upd_ne.
Qed.

(** Lists are untouched by the release of a node outside them. *)
Lemma rep_release {K} (N : nodes K) q l n e :
  n ∉ l → dll_rep (nd_links N) q l → dll_rep (nd_links (release N n e)) q l.
Proof.
  intros Hf. apply rep_frame. intros x Hx. assert (n ≠ x) by by intros <-.
  split; cbn; by rewrite lookup_upd_ne.
Qed.

#[export] Hint Resolve owns_nil owns_nodup : memcache.
