(* ===== verification/Duo.v ===== *)
(** * Duo: two queues of nodes and a ghost queue of keys

    S3-FIFO (Small and Main), 2Q (A1in and Am) and ARC (T1 and T2) keep their
    entries on two intrusive lists, with a flag in each node that says which
    one it is on, and remember the keys of evicted entries on ghost queues
    with a map for membership.  Each of s3fifo.go, twoq.go and arc.go writes
    the same routines out; this file models them once.

    [du_rep d ls lx S] says that the two queues of [d] hold the nodes [ls
    false] and [ls true], that the nodes [lx] are on neither (just allocated,
    or unlinked and not pushed yet) and that all of them together carry the
    entries [S]. *)

From S2P Require Import Prelude Dll Policy.

(** ** Two queues *)

(** The flag ([inMain], [inAm], [inT2]) is the set of nodes where it is
    true. *)
Record duo (K : Type) := Duo {
  du_nodes : nodes K;
  du_flag : gset loc;
  du_a : dll;
  du_b : dll
}.
Arguments Duo {K} _ _ _ _.
Arguments du_nodes {K} _.
Arguments du_flag {K} _.
Arguments du_a {K} _.
Arguments du_b {K} _.

Section duo.
Context {K : Type} `{Countable K}.
Implicit Types (d : duo K) (e : eref K) (n x : loc) (ls : bool → list loc) (S : gset (eref K)).

Definition du_empty : duo K := Duo nodes_empty ∅ dll_nil dll_nil.

Definition du_links d : links := nd_links (du_nodes d).

Definition du_queue d (b : bool) : dll := if b then du_b d else du_a d.

Definition du_isB d n : bool := bool_decide (n ∈ du_flag d).

Definition du_size d (b : bool) : Z := d_size (du_queue d b).

(** Store new pointers and a new header of queue [b]. *)
Definition du_store d (b : bool) (r : links * dll) : duo K :=
  Duo (with_links (du_nodes d) r.1) (du_flag d) (if b then du_a d else r.2) (if b then r.2 else du_b d).

(** [n.inMain = b] *)
Definition du_mark d (b : bool) n : duo K :=
  Duo (du_nodes d) (if b then {[n]} ∪ du_flag d else du_flag d ∖ {[n]}) (du_a d) (du_b d).

(** [pushSmallTail], [pushMainTail], [pushInTail] *)
Definition du_pushTail d (b : bool) n : duo K :=
  let d := du_mark d b n in du_store d b (dll_pushTail (du_links d) (du_queue d b) n).

(** [pushAmHead], [pushT1Head], [pushT2Head] *)
Definition du_pushHead d (b : bool) n : duo K :=
  let d := du_mark d b n in du_store d b (dll_pushHead (du_links d) (du_queue d b) n).

(** [unlinkSmall], [unlinkMain], [unlinkIn], [unlinkAm], [unlinkT1],
    [unlinkT2] *)
Definition du_unlink d (b : bool) n : duo K := du_store d b (dll_unlink (du_links d) (du_queue d b) n).

(** [n := &node{entry: e}; e.policyData = n] *)
Definition du_alloc d e : duo K :=
  Duo (alloc (du_nodes d) e) (du_flag d ∖ {[nd_fresh (du_nodes d)]}) (du_a d) (du_b d).

(** [n.entry = nil; n.next, n.prev = nil, nil], and [e.policyData = nil] unless
    nodes are pinned. *)
Definition du_release d n e (pin : bool) : duo K :=
  let N := release (du_nodes d) n e in
  Duo (if pin then Nodes (nd_links N) (nd_entry N) (nd_data (du_nodes d)) (nd_fresh N) else N)
    (du_flag d) (du_a d) (du_b d).

(** The nodes of a queue, head first. *)
Definition du_seq d (b : bool) : list loc :=
  dll_walk (du_links d) (d_head (du_queue d b)) (Z.to_nat (du_size d b)).

(** [Reset]: both lists cleared, and each entry's [policyData] forgotten unless
    nodes are pinned. *)
Definition du_reset d (pin : bool) : duo K :=
  let N := reset_nodes (reset_nodes (du_nodes d) (du_seq d false)) (du_seq d true) in
  Duo (if pin then Nodes (nd_links N) (nd_entry N) (nd_data (du_nodes d)) (nd_fresh N) else N)
    (du_flag d) dll_nil dll_nil.

(** ** What the queues hold *)

Definition setl {A} (ls : bool → list A) (b : bool) (l : list A) : bool → list A := λ b', if eqb b b' then l else ls b'.

Record du_rep d ls (lx : list loc) S : Prop := DuRep {
  dr_list : ∀ b, dll_rep (du_links d) (du_queue d b) (ls b);
  dr_owns : owns (du_nodes d) (lx ++ ls false ++ ls true) S;
  dr_flag : ∀ x b, x ∈ ls b → du_isB d x = b;
  dr_loose : ∀ x, x ∈ lx → detached (du_links d) x
}.

Lemma setl_eq {A} (ls : bool → list A) b l : setl ls b l b = l.
Proof. by destruct b. Qed.

Lemma setl_ne {A} (ls : bool → list A) b l : setl ls b l (negb b) = ls (negb b).
Proof. by destruct b. Qed.

Lemma du_apart d ls lx S :
  du_rep d ls lx S → (∀ x b, x ∈ ls b → x ∉ ls (negb b)) ∧ (∀ x b, x ∈ lx → x ∉ ls b).
Proof.
  intros HR. pose proof (owns_nodup _ _ _ (dr_owns _ _ _ _ HR)) as Hn. rewrite !NoDup_app in Hn.
  destruct Hn as (_ & H1 & _ & H2 & _). split.
  - intros x [] Hx; cbn; [intros Hy; exact (H2 x Hy Hx)|intros Hy; exact (H2 x Hx Hy)].
  - intros x b Hx Hy. apply (H1 x Hx). apply elem_of_app. destruct b; auto.
Qed.

(** Queue [b] gets new contents; the other keeps its own. *)
Lemma du_store_rep d b r l' ls lx lx' S :
  du_rep d ls lx S → dll_rep r.1 r.2 l' →
  (∀ x, x ∈ ls (negb b) → same_at (du_links d) r.1 x) →
  (∀ x, x ∈ lx' → detached r.1 x) →
  lx ++ ls b ≡ₚ lx' ++ l' → (∀ x, x ∈ l' → du_isB d x = b) →
  du_rep (du_store d b r) (setl ls b l') lx' S.
Proof.
  intros [R1 R2 R3 R4] Hr Hs Hd Hp Hf. constructor.
  - intros b'. destruct (decide (b' = b)) as [->|Hne].
    + rewrite setl_eq. destruct b; exact Hr.
    + assert (b' = negb b) as -> by by destruct b, b'. rewrite setl_ne.
      eapply rep_frame; [exact Hs|]. specialize (R1 (negb b)). by destruct b.
  - apply (owns_links _ _ (lx ++ ls false ++ ls true)); [exact R2|].
    destruct b; cbn; [|by rewrite !app_assoc Hp].
    rewrite (Permutation_app_comm (ls false) (ls true)) (Permutation_app_comm (ls false) l').
    by rewrite !app_assoc Hp.
  - intros x b' Hx. change (du_isB (du_store d b r) x) with (du_isB d x).
    destruct (decide (b' = b)) as [->|Hne]; [rewrite setl_eq in Hx; by apply Hf|].
    assert (b' = negb b) as -> by by destruct b, b'. rewrite setl_ne in Hx. by apply R3.
  - done.
Qed.

Lemma du_unlink_rep d ls b x S :
  du_rep d ls [] S → x ∈ ls b → du_rep (du_unlink d b x) (setl ls b (without x (ls b))) [x] S.
Proof.
  intros HR Hx. pose proof (du_apart _ _ _ _ HR) as [Ha _].
  pose proof (unlink_rep _ _ _ _ (dr_list _ _ _ _ HR b) Hx) as Hu. unfold du_unlink.
  destruct (dll_unlink _ _ _) as [L' q']. destruct Hu as (U1 & U2 & U3).
  eapply du_store_rep; [exact HR|exact U1|..].
  - intros y Hy. apply U3. intros Hb. exact (Ha _ _ Hb Hy).
  - intros y ->%list_elem_of_singleton. done.
  - cbn. destruct (list_elem_of_split _ _ Hx) as (l1 & l2 & El).
    pose proof (rep_nodup _ _ _ (dr_list _ _ _ _ HR b)) as Hn. rewrite El in Hn |- *.
    rewrite without_split //. by rewrite Permutation_middle.
  - intros y [_ Hy]%elem_of_without. by apply (dr_flag _ _ _ _ HR).
Qed.

(** A node that is on no list stays so. *)
Lemma du_unlink_loose d ls b x S : du_rep d ls [x] S → du_unlink d b x = d.
Proof.
  intros HR. unfold du_unlink. rewrite (unlink_detached _ _ (ls b)).
  - destruct d as [[] ? ? ?], b; done.
  - apply HR.
  - by apply (du_apart _ _ _ _ HR), list_elem_of_singleton.
  - apply (dr_loose _ _ _ _ HR), list_elem_of_singleton. done.
Qed.

Lemma du_mark_rep d ls b x S : du_rep d ls [x] S → du_rep (du_mark d b x) ls [x] S ∧ du_isB (du_mark d b x) x = b.
Proof.
  intros HR. pose proof (du_apart _ _ _ _ HR) as [_ Ha]. destruct HR as [R1 R2 R3 R4]. split.
  - constructor; [intros []; [exact (R1 true)|exact (R1 false)]|done| |done]. intros y b' Hy. rewrite -(R3 y b' Hy).
    assert (y ≠ x) by (intros ->; by eapply Ha, Hy; left).
    unfold du_isB. apply bool_decide_ext. destruct b; cbn; set_solver.
  - unfold du_isB. destruct b; cbn; [apply bool_decide_eq_true_2|apply bool_decide_eq_false_2]; set_solver.
Qed.

Lemma du_push_rep d ls b x S l' r :
  du_rep d ls [x] S → l' ≡ₚ x :: ls b → dll_rep r.1 r.2 l' →
  (∀ y, y ≠ x → y ∉ ls b → same_at (du_links d) r.1 y) →
  du_rep (du_store (du_mark d b x) b r) (setl ls b l') [] S.
Proof.
  intros HR Hp Hr Hs. destruct (du_mark_rep d ls b x S HR) as [HM HB].
  pose proof (du_apart _ _ _ _ HR) as [Ha Hl].
  eapply du_store_rep; [exact HM|exact Hr|..].
  - intros y Hy. apply Hs; [|intros Hb; exact (Ha _ _ Hb Hy)]. intros ->. by eapply Hl, Hy; left.
  - intros y []%elem_of_nil.
  - cbn. by rewrite Hp.
  - intros y. rewrite Hp. intros [->|Hy]%elem_of_cons; [done|]. by apply (dr_flag _ _ _ _ HM).
Qed.

Lemma du_pushTail_rep d ls b x S :
  du_rep d ls [x] S → du_rep (du_pushTail d b x) (setl ls b (ls b ++ [x])) [] S.
Proof.
  intros HR. assert (x ∉ ls b) as Hx by (apply (du_apart _ _ _ _ HR); by left).
  pose proof (pushTail_rep _ _ _ x (dr_list _ _ _ _ HR b) Hx) as Hp. unfold du_pushTail.
  change (du_links (du_mark d b x)) with (du_links d). assert (du_queue (du_mark d b x) b = du_queue d b) as -> by done.
  destruct (dll_pushTail _ _ _) as [L' q']. destruct Hp as [P1 P2].
  by apply du_push_rep; [done|rewrite Permutation_app_comm|..].
Qed.

Lemma du_pushHead_rep d ls b x S :
  du_rep d ls [x] S → du_rep (du_pushHead d b x) (setl ls b (x :: ls b)) [] S.
Proof.
  intros HR. assert (x ∉ ls b) as Hx by (apply (du_apart _ _ _ _ HR); by left).
  pose proof (pushHead_rep _ _ _ x (dr_list _ _ _ _ HR b) Hx) as Hp. unfold du_pushHead.
  change (du_links (du_mark d b x)) with (du_links d). assert (du_queue (du_mark d b x) b = du_queue d b) as -> by done.
  destruct (dll_pushHead _ _ _) as [L' q']. destruct Hp as [P1 P2]. by apply du_push_rep.
Qed.

Lemma du_alloc_rep d ls S e :
  du_rep d ls [] S → (∀ e', e' ∈ S → e'.1 ≠ e.1) →
  du_rep (du_alloc d e) ls [nd_fresh (du_nodes d)] ({[e]} ∪ S).
Proof.
  intros [R1 R2 R3 R4] Hid. destruct (owns_alloc _ _ _ _ R2 Hid) as [Hf HO]. cbn in Hf. constructor.
  - intros b. pose proof (R1 b) as Hb. destruct b; (apply rep_alloc; [set_solver|exact Hb]).
  - exact HO.
  - intros x b Hx. rewrite -(R3 x b Hx). unfold du_isB, du_alloc. cbn. apply bool_decide_ext.
    assert (x ≠ nd_fresh (du_nodes d)); [|set_solver]. intros ->. apply Hf. destruct b; set_solver.
  - intros x ->%list_elem_of_singleton. split; cbn; by rewrite lookup_upd_eq.
Qed.

Lemma du_release_rep d ls S x e pin :
  du_rep d ls [x] S → nd_entry (du_nodes d) !! x = Some e → du_rep (du_release d x e pin) ls [] (S ∖ {[e]}).
Proof.
  intros HR He. pose proof (du_apart _ _ _ _ HR) as [_ Ha]. pose proof HR as [R1 R2 R3 R4].
  assert (e ∈ S) as HeS by (eapply owns_elem; [exact R2|by left|done]). constructor.
  - intros b. assert (dll_rep (nd_links (release (du_nodes d) x e)) (du_queue d b) (ls b)) as Hb.
    { apply rep_release; [by apply Ha, list_elem_of_singleton|apply R1]. }
    destruct b, pin; exact Hb.
  - assert ([] ++ ls false ++ ls true = without x ([x] ++ ls false ++ ls true)) as ->.
    { symmetry. apply without_cons_eq. by apply NoDup_cons, (owns_nodup _ _ _ R2). }
    eapply owns_release; [exact R2|done|eapply owns_data_eq; [exact R2|by left|done]|by destruct pin| |by destruct pin].
    destruct pin; [by right|by left].
  - intros y b Hy. by rewrite -(R3 y b Hy).
  - by intros y ?%elem_of_nil.
Qed.

Lemma du_empty_rep d pin : du_rep (du_reset d pin) (λ _, []) [] ∅.
Proof. constructor; [intros []; apply rep_nil|apply owns_nil|by intros x b ?%elem_of_nil|by intros x ?%elem_of_nil]. Qed.

Lemma du_new_rep : du_rep du_empty (λ _, []) [] ∅.
Proof. constructor; [intros []; apply rep_nil|apply owns_nil|by intros x b ?%elem_of_nil|by intros x ?%elem_of_nil]. Qed.

Lemma du_seq_rep d ls lx S b : du_rep d ls lx S → du_seq d b = ls b.
Proof. intros HR. exact (dll_walk_rep _ _ _ (dr_list _ _ _ _ HR b)). Qed.

Lemma du_size_rep d ls lx S b : du_rep d ls lx S → du_size d b = Z.of_nat (length (ls b)).
Proof. intros HR. exact (rep_size _ _ _ (dr_list _ _ _ _ HR b)). Qed.

Lemma du_size_S d ls S : du_rep d ls [] S → (du_size d false + du_size d true)%Z = Z.of_nat (size S).
Proof.
  intros HR. rewrite !(du_size_rep _ _ _ _ _ HR) (owns_size _ _ _ (dr_owns _ _ _ _ HR)) !length_app. cbn. lia.
Qed.

(** The entry of a node of a queue. *)
Lemma du_entry d ls lx S x :
  du_rep d ls lx S → x ∈ lx ++ ls false ++ ls true →
  ∃ e, nd_entry (du_nodes d) !! x = Some e ∧ e ∈ S ∧ nd_data (du_nodes d) !! e.1 = Some x.
Proof. intros HR Hx. exact (owns_node _ _ _ (dr_owns _ _ _ _ HR) x Hx). Qed.

Lemma du_node d ls lx S e :
  du_rep d ls lx S → e ∈ S →
  ∃ x, nd_data (du_nodes d) !! e.1 = Some x ∧ x ∈ lx ++ ls false ++ ls true ∧ nd_entry (du_nodes d) !! x = Some e.
Proof. intros HR. exact (owns_lookup _ _ _ _ (dr_owns _ _ _ _ HR)). Qed.

(** ** The queues as lists of entries *)

(** [du_is d f lx S]: queue [b] holds the entries [f b] in order, the entries
    [lx] have a node on neither queue, and all of them are [S]. *)
Definition du_is d (f : bool → list (eref K)) (lx : list (eref K)) S : Prop :=
  ∃ ls lo, du_rep d ls lo S ∧ (∀ b, ents (du_nodes d) (ls b) = f b) ∧ ents (du_nodes d) lo = lx.

(** The node of an entry. *)
Definition du_at d e n : Prop :=
  nd_data (du_nodes d) !! e.1 = Some n ∧ nd_entry (du_nodes d) !! n = Some e.

Implicit Types (f : bool → list (eref K)).

Lemma owns_sub N l S : owns N l S → ∀ x, x ∈ l → is_Some (nd_entry (K := K) N !! x).
Proof. intros HO x (e & -> & _)%(owns_node _ _ _ HO). done. Qed.

Lemma ents_elem_node N l S l0 e :
  owns (K := K) N l S → (∀ x, x ∈ l0 → x ∈ l) → e ∈ ents N l0 →
  ∃ n, n ∈ l0 ∧ nd_entry N !! n = Some e ∧ nd_data N !! e.1 = Some n.
Proof.
  intros HO Hsub (n & Hn & He)%list_elem_of_omap. exists n. split_and!; [done..|].
  by eapply owns_data_eq; [exact HO|apply Hsub|].
Qed.

Lemma in_parts (ls : bool → list loc) lo b x : x ∈ ls b → x ∈ lo ++ ls false ++ ls true.
Proof. rewrite !elem_of_app. destruct b; auto. Qed.

Lemma du_is_at d f lx S b e : du_is d f lx S → e ∈ f b → ∃ n, du_at d e n ∧ du_isB d n = b.
Proof.
  intros (ls & lo & HR & Hf & _) He. rewrite -Hf in He.
  destruct (ents_elem_node _ _ _ _ _ (dr_owns _ _ _ _ HR) (in_parts ls lo b) He) as (n & Hn & H1 & H2).
  exists n. split; [done|]. by apply (dr_flag _ _ _ _ HR).
Qed.

(** The entries of a part of the nodes, without one of them. *)
Lemma ents_without_part N l S l0 e n :
  owns (K := K) N l S → (∀ x, x ∈ l0 → x ∈ l) → nd_data N !! e.1 = Some n → nd_entry N !! n = Some e →
  ents N (without n l0) = without e (ents N l0).
Proof.
  intros HO Hsub Hd Hn. unfold ents, without. induction l0 as [|y l0 IH]; [done|].
  specialize (IH (λ x Hx, Hsub x (list_elem_of_further _ _ _ Hx))).
  destruct (owns_node _ _ _ HO y (Hsub y (list_elem_of_here _ _))) as (e' & He' & _ & Hd').
  destruct (decide (y = n)) as [->|Hne].
  - rewrite filter_cons_False; [|by intros []]. cbn. rewrite Hn /= filter_cons_False; [done|by intros []].
  - rewrite filter_cons_True //. cbn. rewrite He' /= filter_cons_True; [by rewrite IH|]. intros ->. congruence.
Qed.

Lemma du_is_unlink d f S b e n :
  du_is d f [] S → e ∈ f b → du_at d e n → du_is (du_unlink d b n) (setl f b (without e (f b))) [e] S.
Proof.
  intros (ls & lo & HR & Hf & Hlo) He [Hd Hn].
  assert (lo = []) as ->.
  { pose proof (owns_sub _ _ _ (dr_owns _ _ _ _ HR)) as Hs. destruct lo as [|x lo]; [done|].
    destruct (Hs x ltac:(left)) as [e' He']. cbn in Hlo. by rewrite He' in Hlo. }
  assert (n ∈ ls b) as Hnb.
  { rewrite -Hf in He. destruct (ents_elem_node _ _ _ _ _ (dr_owns _ _ _ _ HR) (in_parts ls [] b) He) as (n' & ? & _ & ?).
    congruence. }
  exists (setl ls b (without n (ls b))), [n]. split; [by apply du_unlink_rep|].
  change (nd_entry (du_nodes (du_unlink d b n))) with (nd_entry (du_nodes d)). split.
  - intros b'. rewrite (ents_ext (du_nodes d)) //. destruct (decide (b' = b)) as [->|Hne].
    + rewrite !setl_eq (ents_without_part _ _ _ _ e n (dr_owns _ _ _ _ HR) (in_parts ls [] b)) // Hf //.
    + assert (b' = negb b) as -> by by destruct b, b'. rewrite !setl_ne. apply Hf.
  - rewrite (ents_ext (du_nodes d)) //. cbn. by rewrite Hn.
Qed.

Lemma du_is_loose d f S e : du_is d f [e] S → ∃ ls n, du_rep d ls [n] S ∧ (∀ b, ents (du_nodes d) (ls b) = f b) ∧ du_at d e n.
Proof.
  intros (ls & lo & HR & Hf & Hlo). pose proof (owns_sub _ _ _ (dr_owns _ _ _ _ HR)) as Hs.
  destruct lo as [|x lo]; [done|]. destruct (Hs x ltac:(left)) as [e' He']. cbn in Hlo. rewrite He' in Hlo.
  injection Hlo as -> Hlo. destruct lo as [|y lo].
  - exists ls, x. split; [done|]. split; [done|]. split; [|done].
    eapply owns_data_eq; [apply HR|by left|done].
  - destruct (Hs y ltac:(right; left)) as [e2 He2]. cbn in Hlo. by rewrite He2 in Hlo.
Qed.

Lemma du_is_pushTail d f S b e n :
  du_is d f [e] S → du_at d e n → du_is (du_pushTail d b n) (setl f b (f b ++ [e])) [] S.
Proof.
  intros (ls & n' & HR & Hf & [Hd' He'])%du_is_loose [Hd He]. assert (n' = n) as -> by congruence.
  exists (setl ls b (ls b ++ [n])), []. split; [by apply du_pushTail_rep|]. split; [|done].
  intros b'. rewrite (ents_ext (du_nodes d)) //. destruct (decide (b' = b)) as [->|Hne].
  - rewrite !setl_eq ents_app Hf. cbn. by rewrite He.
  - assert (b' = negb b) as -> by by destruct b, b'. rewrite !setl_ne. apply Hf.
Qed.

Lemma du_is_pushHead d f S b e n :
  du_is d f [e] S → du_at d e n → du_is (du_pushHead d b n) (setl f b (e :: f b)) [] S.
Proof.
  intros (ls & n' & HR & Hf & [Hd' He'])%du_is_loose [Hd He]. assert (n' = n) as -> by congruence.
  exists (setl ls b (n :: ls b)), []. split; [by apply du_pushHead_rep|]. split; [|done].
  intros b'. rewrite (ents_ext (du_nodes d)) //. destruct (decide (b' = b)) as [->|Hne].
  - rewrite !setl_eq. change (n :: ls b) with ([n] ++ ls b). rewrite ents_app Hf. cbn. by rewrite He.
  - assert (b' = negb b) as -> by by destruct b, b'. rewrite !setl_ne. apply Hf.
Qed.

Lemma du_is_nil d f S : du_is d f [] S → ∃ ls, du_rep d ls [] S ∧ ∀ b, ents (du_nodes d) (ls b) = f b.
Proof.
  intros (ls & lo & HR & Hf & Hlo). exists ls. destruct lo as [|x lo]; [done|].
  destruct (owns_sub _ _ _ (dr_owns _ _ _ _ HR) x ltac:(left)) as [e' He']. cbn in Hlo. by rewrite He' in Hlo.
Qed.

Lemma du_is_alloc d f S e :
  du_is d f [] S → (∀ e', e' ∈ S → e'.1 ≠ e.1) →
  du_is (du_alloc d e) f [e] ({[e]} ∪ S) ∧ du_at (du_alloc d e) e (nd_fresh (du_nodes d)).
Proof.
  intros (ls & HR & Hf)%du_is_nil Hid. pose proof (owns_alloc _ _ _ _ (dr_owns _ _ _ _ HR) Hid) as [Hfr _]. split.
  - exists ls, [nd_fresh (du_nodes d)]. split; [by apply du_alloc_rep|]. split; [|apply ents_alloc_new].
    intros b. rewrite -Hf. apply ents_alloc. intros Hb. apply Hfr. by eapply in_parts.
  - split; cbn; by rewrite lookup_insert_eq.
Qed.

Lemma du_is_release d f S e n pin :
  du_is d f [e] S → du_at d e n → du_is (du_release d n e pin) f [] (S ∖ {[e]}).
Proof.
  intros (ls & n' & HR & Hf & [Hd' He'])%du_is_loose [Hd He]. assert (n' = n) as -> by congruence.
  exists ls, []. split; [by apply du_release_rep|]. split; [|done]. intros b. rewrite -Hf.
  assert (n ∉ ls b) as Hnb by (apply (du_apart _ _ _ _ HR); by left).
  assert (∀ l, n ∉ l → ents (du_nodes (du_release d n e pin)) l = ents (du_nodes d) l) as Hx; [|by apply Hx].
  intros l. unfold ents. assert (nd_entry (du_nodes (du_release d n e pin)) = delete n (nd_entry (du_nodes d))) as ->
    by by destruct pin. induction l as [|y l IH]; [done|]. rewrite not_elem_of_cons. intros [? ?]. cbn.
  rewrite lookup_delete_ne // IH //.
Qed.

Lemma du_is_unlink_loose d f S b e n : du_is d f [e] S → du_at d e n → du_unlink d b n = d.
Proof.
  intros (ls & n' & HR & Hf & [Hd' He'])%du_is_loose [Hd He]. assert (n' = n) as -> by congruence.
  by eapply du_unlink_loose.
Qed.

Lemma du_is_node d f S e : du_is d f [] S → e ∈ S → ∃ b, e ∈ f b.
Proof.
  intros (ls & HR & Hf)%du_is_nil He. destruct (du_node _ _ _ _ e HR He) as (x & _ & Hx & Hxe).
  cbn in Hx. apply elem_of_app in Hx as [Hx|Hx]; [exists false|exists true]; rewrite -Hf; apply list_elem_of_omap; eauto.
Qed.

Lemma du_is_elem d f lx S e b : du_is d f lx S → e ∈ f b → e ∈ S.
Proof.
  intros (ls & lo & HR & Hf & _) He. rewrite -Hf in He.
  destruct (ents_elem_node _ _ _ _ _ (dr_owns _ _ _ _ HR) (in_parts ls lo b) He) as (n & Hn & H1 & H2).
  eapply owns_elem; [apply HR|by eapply in_parts|done].
Qed.

Lemma ents_len N l S l0 : owns (K := K) N l S → (∀ x, x ∈ l0 → x ∈ l) → length (ents N l0) = length l0.
Proof.
  intros HO Hsub. unfold ents. induction l0 as [|x l0 IH]; [done|]. cbn.
  destruct (owns_sub _ _ _ HO x (Hsub x ltac:(left))) as [e ->]. cbn. f_equal. apply IH. intros y Hy. apply Hsub. by right.
Qed.

Lemma du_is_size d f lx S b : du_is d f lx S → du_size d b = Z.of_nat (length (f b)).
Proof.
  intros (ls & lo & HR & Hf & _). rewrite (du_size_rep _ _ _ _ _ HR) -Hf.
  by rewrite (ents_len _ _ _ _ (dr_owns _ _ _ _ HR) (in_parts ls lo b)).
Qed.

Lemma du_is_total d f S : du_is d f [] S → Z.of_nat (size S) = (du_size d false + du_size d true)%Z.
Proof. intros (ls & HR & _)%du_is_nil. symmetry. by eapply du_size_S. Qed.

Lemma du_is_head d f lx S b :
  du_is d f lx S →
  match d_head (du_queue d b) with
  | Some n => ∃ e, head (f b) = Some e ∧ du_at d e n
  | None => f b = []
  end.
Proof.
  intros (ls & lo & HR & Hf & _). rewrite (rep_head _ _ _ (dr_list _ _ _ _ HR b)) -Hf.
  pose proof (in_parts ls lo b) as Hin. destruct (ls b) as [|n l]; [done|]. cbn.
  destruct (owns_node _ _ _ (dr_owns _ _ _ _ HR) n (Hin n ltac:(left))) as (e & He & _ & Hd).
  exists e. by rewrite He.
Qed.

Lemma du_is_tail d f lx S b :
  du_is d f lx S →
  match d_tail (du_queue d b) with
  | Some n => ∃ e, last (f b) = Some e ∧ du_at d e n
  | None => f b = []
  end.
Proof.
  intros (ls & lo & HR & Hf & _). rewrite (rep_tail _ _ _ (dr_list _ _ _ _ HR b)) -Hf.
  pose proof (in_parts ls lo b) as Hin. destruct (ls b) as [|n l _] using rev_ind; [done|]. rewrite last_snoc ents_app.
  destruct (owns_node _ _ _ (dr_owns _ _ _ _ HR) n (Hin n ltac:(set_solver))) as (e & He & _ & Hd).
  exists e. cbn. rewrite He. by rewrite last_snoc.
Qed.

Lemma du_is_nodup d f lx S b : du_is d f lx S → NoDup (f b).
Proof.
  intros (ls & lo & HR & Hf & _). pose proof (NoDup_ents _ _ _ (dr_owns _ _ _ _ HR)) as Hn.
  rewrite !ents_app !NoDup_app in Hn. rewrite -Hf. destruct b; tauto.
Qed.

(** The two queues hold different entries. *)
Lemma du_is_apart d f lx S b e : du_is d f lx S → e ∈ f b → e ∉ f (negb b).
Proof.
  intros (ls & lo & HR & Hf & _). pose proof (NoDup_ents _ _ _ (dr_owns _ _ _ _ HR)) as Hn.
  rewrite !ents_app !NoDup_app in Hn. destruct Hn as (_ & _ & _ & Hd & _). rewrite -!Hf.
  destruct b; cbn; intros H1 H2; [exact (Hd e H2 H1)|exact (Hd e H1 H2)].
Qed.

(** The entries of a queue, head first. *)
Definition du_ents d (b : bool) : list (eref K) := ents (du_nodes d) (du_seq d b).

Lemma du_is_ents d f lx S b : du_is d f lx S → du_ents d b = f b.
Proof. intros (ls & lo & HR & Hf & _). unfold du_ents. by rewrite (du_seq_rep _ _ _ _ _ HR) Hf. Qed.

Lemma du_is_new : du_is du_empty (λ _, []) [] ∅.
Proof. exists (λ _, []), []. split; [apply du_new_rep|done]. Qed.

Lemma du_is_reset d pin : du_is (du_reset d pin) (λ _, []) [] ∅.
Proof. exists (λ _, []), []. split; [apply du_empty_rep|done]. Qed.

Lemma du_is_ext d f f' lx S : (∀ b, f' b = f b) → du_is d f lx S → du_is d f' lx S.
Proof. intros Hf (ls & lo & ? & ? & ?). exists ls, lo. split_and!; [done|intros b; by rewrite Hf|done]. Qed.

(** [OnRemove] of an entry that is on queue [b], and of one that a victim
    selection has unlinked already. *)
Lemma du_is_remove d f S b e n pin :
  du_is d f [] S → e ∈ f b → du_at d e n →
  du_is (du_release (du_unlink d b n) n e pin) (setl f b (without e (f b))) [] (S ∖ {[e]}).
Proof. intros HD He Hat. eapply du_is_release; [by eapply du_is_unlink|done]. Qed.
End duo.

(** ** Ghost queues *)

(** A queue of keys and the map from a key to its node. *)
Record ghosts (K : Type) `{Countable K} := Ghosts {
  gh_links : links;
  gh_key : gmap loc K;
  gh_q : dll;
  gh_set : gmap K loc;
  gh_fresh : loc
}.
Arguments Ghosts {K _ _} _ _ _ _ _.
Arguments gh_links {K _ _} _.
Arguments gh_key {K _ _} _.
Arguments gh_q {K _ _} _.
Arguments gh_set {K _ _} _.
Arguments gh_fresh {K _ _} _.

Section ghosts.
Context {K : Type} `{Countable K}.
Implicit Types (G : ghosts K) (k : K) (l : list loc).

Definition gh_empty : ghosts K := Ghosts no_links ∅ dll_nil ∅ 1%positive.

Definition gh_size G : Z := d_size (gh_q G).

(** [unlinkGhost], [unlinkB1], [unlinkB2] *)
Definition gh_unlink G (g : loc) : ghosts K :=
  let '(L, q) := dll_unlinkIf (gh_links G) (gh_q G) g in
  Ghosts L (gh_key G) q (match gh_key G !! g with Some k => delete k (gh_set G) | None => gh_set G end) (gh_fresh G).

(** A new node for [k] at one end of the queue. *)
Definition gh_push (push : links → dll → loc → links * dll) G k : ghosts K :=
  let g := gh_fresh G in
  let '(L, q) := push (set_prev (set_next (gh_links G) g None) g None) (gh_q G) g in
  Ghosts L (<[g := k]> (gh_key G)) q (<[k := g]> (gh_set G)) (Pos.succ g).

(** [for size > limit && head != nil { unlink(head) }]: the queue's own length
    is enough fuel.  2Q and S3-FIFO drop from the head. *)
Fixpoint gh_trimHead (fuel : nat) (limit : Z) G : ghosts K :=
  match fuel with
  | O => G
  | S fuel =>
      match d_head (gh_q G) with
      | Some g => if bool_decide (limit < gh_size G)%Z then gh_trimHead fuel limit (gh_unlink G g) else G
      | None => G
      end
  end.

(** ARC drops from the tail. *)
Fixpoint gh_trimTail (fuel : nat) (limit : Z) G : ghosts K :=
  match fuel with
  | O => G
  | S fuel =>
      match d_tail (gh_q G) with
      | Some g => if bool_decide (limit < gh_size G)%Z then gh_trimTail fuel limit (gh_unlink G g) else G
      | None => G
      end
  end.

(** The keys on the queue, head first. *)
Definition gh_keys G : list K :=
  omap (λ x, gh_key G !! x) (dll_walk (gh_links G) (d_head (gh_q G)) (Z.to_nat (gh_size G))).

Record gh_rep G l : Prop := GhRep {
  gr_list : dll_rep (gh_links G) (gh_q G) l;
  gr_fresh : ∀ x, x ∈ l → (x < gh_fresh G)%positive;
  gr_node : ∀ x, x ∈ l → ∃ k, gh_key G !! x = Some k ∧ gh_set G !! k = Some x;
  gr_set : ∀ k x, gh_set G !! k = Some x → x ∈ l ∧ gh_key G !! x = Some k
}.

Lemma gh_empty_rep : gh_rep gh_empty [].
Proof.
  constructor; [apply rep_nil|by intros x ?%elem_of_nil|by intros x ?%elem_of_nil|]. intros k x. cbn. by rewrite lookup_empty.
Qed.

Lemma gh_size_rep G l : gh_rep G l → gh_size G = Z.of_nat (length l).
Proof. intros HG. exact (rep_size _ _ _ (gr_list _ _ HG)). Qed.

Lemma gh_unlink_rep G l g : gh_rep G l → g ∈ l → gh_rep (gh_unlink G g) (without g l).
Proof.
  intros [G1 G2 G3 G4] Hg. pose proof (unlinkIf_rep _ _ _ _ G1 Hg) as Hu. unfold gh_unlink.
  destruct (dll_unlinkIf _ _ _) as [L q]. destruct Hu as (U1 & _ & _).
  destruct (G3 g Hg) as (k & Hk & Hs). rewrite Hk. constructor; cbn.
  - done.
  - intros x [_ Hx]%elem_of_without. by apply G2.
  - intros x [Hne Hx]%elem_of_without. destruct (G3 x Hx) as (k' & Hk' & Hs'). exists k'. split; [done|].
    rewrite lookup_delete_ne //. intros <-. congruence.
  - intros k' x [Hne Hx]%lookup_delete_Some. destruct (G4 k' x Hx) as [Hin Hkx]. split; [|done].
    apply elem_of_without. split; [|done]. intros ->. congruence.
Qed.

Lemma gh_push_rep push G l (l' : loc → list loc) k :
  (∀ L q n, dll_rep L q l → n ∉ l → dll_rep (push L q n).1 (push L q n).2 (l' n)) →
  (∀ n, l' n ≡ₚ n :: l) → gh_rep G l → gh_set G !! k = None → gh_rep (gh_push push G k) (l' (gh_fresh G)).
Proof.
  intros Hp Hl [G1 G2 G3 G4] Hk. unfold gh_push. set (g := gh_fresh G).
  assert (g ∉ l) as Hg by (intros Hx%G2; unfold g in *; lia).
  specialize (Hp (set_prev (set_next (gh_links G) g None) g None) (gh_q G) g).
  destruct (push _ _ _) as [L q]. cbn in Hp. constructor; cbn.
  - apply Hp; [|done]. eapply rep_frame; [|exact G1]. intros x Hx. assert (g ≠ x) by by intros <-.
    split; cbn; by rewrite lookup_upd_ne.
  - intros x. rewrite Hl. intros [->|Hx%G2]%elem_of_cons; unfold g; lia.
  - intros x. rewrite Hl. intros [->|Hx]%elem_of_cons; [exists k; by rewrite !lookup_insert_eq|].
    destruct (G3 x Hx) as (k' & Hk' & Hs'). exists k'.
    rewrite !lookup_insert_ne //; [intros <-; congruence|by intros <-].
  - intros k' x [[<- <-]|[Hne Hx]]%lookup_insert_Some; [by rewrite Hl lookup_insert_eq; split; [left|]|].
    destruct (G4 k' x Hx) as [Hin Hkx]. rewrite Hl lookup_insert_ne; [by split; [right|]|by intros <-].
Qed.

Lemma gh_pushTail_rep G l k :
  gh_rep G l → gh_set G !! k = None → gh_rep (gh_push dll_pushTail G k) (l ++ [gh_fresh G]).
Proof.
  apply (gh_push_rep _ _ _ (λ n, l ++ [n])); [|intros n; by rewrite Permutation_app_comm].
  intros L q n HL Hn. pose proof (pushTail_rep _ _ _ _ HL Hn) as Hp. destruct (dll_pushTail L q n). apply Hp.
Qed.

Lemma gh_pushHead_rep G l k :
  gh_rep G l → gh_set G !! k = None → gh_rep (gh_push dll_pushHead G k) (gh_fresh G :: l).
Proof.
  apply (gh_push_rep _ _ _ (λ n, n :: l)); [|done].
  intros L q n HL Hn. pose proof (pushHead_rep _ _ _ _ HL Hn) as Hp. destruct (dll_pushHead L q n). apply Hp.
Qed.

(** Trimming leaves at most [limit] keys. *)
Lemma gh_trimHead_rep fuel limit G l :
  gh_rep G l → (length l ≤ fuel)%nat → (0 <= limit)%Z →
  ∃ l', gh_rep (gh_trimHead fuel limit G) l' ∧ l' `suffix_of` l ∧ Z.of_nat (length l') = Z.min limit (Z.of_nat (length l)).
Proof.
  revert G l. induction fuel as [|fuel IH]; intros G l HG Hf Hlim.
  - destruct l; [|cbn in Hf; lia]. exists []. cbn. split_and!; [done|done|lia].
  - cbn [gh_trimHead]. rewrite (rep_head _ _ _ (gr_list _ _ HG)) (gh_size_rep _ _ HG).
    destruct l as [|g l]; [exists []; cbn; split_and!; [done|done|lia]|]. cbn [head hd_error].
    pose proof (rep_nodup _ _ _ (gr_list _ _ HG)) as [Hg _]%NoDup_cons.
    case_bool_decide; [|by exists (g :: l); split_and!; [done|done|cbn in *; lia]].
    pose proof (gh_unlink_rep _ _ g HG ltac:(left)) as HG'. rewrite without_cons_eq // in HG'.
    destruct (IH _ _ HG') as (l' & R1 & R2 & R3); [cbn in Hf; lia|done|]. exists l'.
    split_and!; [done|by apply suffix_cons_r|cbn in *; lia].
Qed.

Lemma gh_trimTail_rep fuel limit G l :
  gh_rep G l → (length l ≤ fuel)%nat → (0 <= limit)%Z →
  ∃ l', gh_rep (gh_trimTail fuel limit G) l' ∧ l' `prefix_of` l ∧ Z.of_nat (length l') = Z.min limit (Z.of_nat (length l)).
Proof.
  revert G l. induction fuel as [|fuel IH]; intros G l HG Hf Hlim.
  - destruct l; [|cbn in Hf; lia]. exists []. cbn. split_and!; [done|done|lia].
  - cbn [gh_trimTail]. rewrite (rep_tail _ _ _ (gr_list _ _ HG)) (gh_size_rep _ _ HG).
    destruct l as [|g l _] using rev_ind; [exists []; cbn; split_and!; [done|done|lia]|].
    rewrite last_snoc length_app. cbn [length]. rewrite length_app in Hf. cbn in Hf.
    pose proof (rep_nodup _ _ _ (gr_list _ _ HG)) as Hn.
    case_bool_decide; [|by exists (l ++ [g]); rewrite length_app; split_and!; [done|done|cbn in *; lia]].
    assert (g ∈ l ++ [g]) as Hin by set_solver.
    pose proof (gh_unlink_rep _ _ g HG Hin) as HG'. rewrite without_split // app_nil_r in HG'.
    destruct (IH _ _ HG') as (l' & R1 & R2 & R3); [lia|done|]. exists l'.
    split_and!; [done|by apply prefix_app_r|cbn in *; lia].
Qed.

(** ** A ghost queue as a list of keys *)

Definition gh_is G (ks : list K) : Prop :=
  ∃ l, gh_rep G l ∧ Forall2 (λ x k, gh_key G !! x = Some k) l ks.

Lemma gh_is_empty : gh_is gh_empty [].
Proof. exists []. split; [apply gh_empty_rep|constructor]. Qed.

Lemma gh_is_size G ks : gh_is G ks → gh_size G = Z.of_nat (length ks).
Proof. intros (l & HG & HF). rewrite (gh_size_rep _ _ HG). by rewrite (Forall2_length _ _ _ HF). Qed.

Lemma gh_is_mem G ks k : gh_is G ks → is_Some (gh_set G !! k) ↔ k ∈ ks.
Proof.
  intros (l & HG & HF). split.
  - intros [g Hg]. destruct (gr_set _ _ HG _ _ Hg) as [Hin Hk].
    apply list_elem_of_lookup in Hin as [i Hi]. destruct (Forall2_lookup_l _ _ _ _ _ HF Hi) as (k' & Hk' & E).
    assert (k' = k) as -> by congruence. by eapply list_elem_of_lookup_2.
  - intros [i Hi]%list_elem_of_lookup. destruct (Forall2_lookup_r _ _ _ _ _ HF Hi) as (x & Hx & E).
    destruct (gr_node _ _ HG x) as (k' & Hk' & Hs); [by eapply list_elem_of_lookup_2|].
    assert (k' = k) as -> by congruence. eauto.
Qed.

Lemma keys_without G l ks g k :
  gh_rep G l → Forall2 (λ x k, gh_key G !! x = Some k) l ks → gh_set G !! k = Some g →
  Forall2 (λ x k, gh_key G !! x = Some k) (without g l) (without k ks).
Proof.
  intros HG HF Hk. destruct (gr_set _ _ HG _ _ Hk) as [_ Hgk].
  assert (∀ x, x ∈ l → gh_key G !! x = Some k → x = g) as Hinj.
  { intros x Hx Hxk. destruct (gr_node _ _ HG x Hx) as (k' & ? & ?). congruence. }
  clear HG Hk. induction HF as [|x k' l ks Hx HF IH]; [constructor|]. unfold without in *.
  specialize (IH ltac:(intros; apply Hinj; [by right|done])).
  destruct (decide (x = g)) as [->|Hne].
  - assert (k' = k) as -> by congruence. rewrite !filter_cons_False; [done|by intros []|by intros []].
  - rewrite !filter_cons_True //; [by constructor|]. intros ->. by apply Hne, Hinj; [left|].
Qed.

Lemma gh_is_unlink G ks k g : gh_is G ks → gh_set G !! k = Some g → gh_is (gh_unlink G g) (without k ks).
Proof.
  intros (l & HG & HF) Hk. destruct (gr_set _ _ HG _ _ Hk) as [Hin Hgk].
  exists (without g l). split; [by apply gh_unlink_rep|].
  pose proof (keys_without _ _ _ _ _ HG HF Hk) as Hw. unfold gh_unlink. by destruct (dll_unlinkIf _ _ _).
Qed.

Lemma keys_pushed push G k l ks :
  gh_rep G l → Forall2 (λ x k, gh_key G !! x = Some k) l ks →
  Forall2 (λ x k', gh_key (gh_push push G k) !! x = Some k') l ks ∧ gh_key (gh_push push G k) !! gh_fresh G = Some k.
Proof.
  intros HG HF. assert (gh_key (gh_push push G k) = <[gh_fresh G := k]> (gh_key G)) as ->.
  { unfold gh_push. by destruct (push _ _ _). }
  split; [|by rewrite lookup_insert_eq].
  assert (gh_fresh G ∉ l) as Hf by (intros Hx%(gr_fresh _ _ HG); lia). clear HG.
  induction HF as [|x k' l ks E HF IH]; [constructor|]. apply not_elem_of_cons in Hf as [? ?].
  constructor; [by rewrite lookup_insert_ne|by apply IH].
Qed.

Lemma gh_is_pushTail G ks k : gh_is G ks → k ∉ ks → gh_is (gh_push dll_pushTail G k) (ks ++ [k]).
Proof.
  intros HI Hk. assert (gh_set G !! k = None) as Hn.
  { apply eq_None_not_Some. by rewrite (gh_is_mem _ _ k HI). }
  destruct HI as (l & HG & HF). destruct (keys_pushed dll_pushTail G k l ks HG HF) as [H1 H2].
  exists (l ++ [gh_fresh G]). split; [by apply gh_pushTail_rep|]. apply Forall2_app; [done|]. by repeat constructor.
Qed.

Lemma gh_is_pushHead G ks k : gh_is G ks → k ∉ ks → gh_is (gh_push dll_pushHead G k) (k :: ks).
Proof.
  intros HI Hk. assert (gh_set G !! k = None) as Hn.
  { apply eq_None_not_Some. by rewrite (gh_is_mem _ _ k HI). }
  destruct HI as (l & HG & HF). destruct (keys_pushed dll_pushHead G k l ks HG HF) as [H1 H2].
  exists (gh_fresh G :: l). split; [by apply gh_pushHead_rep|]. by constructor.
Qed.

Lemma gh_trimHead_key fuel limit G : gh_key (gh_trimHead fuel limit G) = gh_key G.
Proof.
  revert G. induction fuel as [|fuel IH]; intros G; [done|]. cbn. destruct (d_head _) as [g|]; [|done].
  case_bool_decide; [|done]. rewrite IH. unfold gh_unlink. by destruct (dll_unlinkIf _ _ _).
Qed.

Lemma gh_trimTail_key fuel limit G : gh_key (gh_trimTail fuel limit G) = gh_key G.
Proof.
  revert G. induction fuel as [|fuel IH]; intros G; [done|]. cbn. destruct (d_tail _) as [g|]; [|done].
  case_bool_decide; [|done]. rewrite IH. unfold gh_unlink. by destruct (dll_unlinkIf _ _ _).
Qed.

(** The oldest keys beyond [limit] are dropped. *)
Lemma gh_is_trimHead G ks limit :
  gh_is G ks → (0 <= limit)%Z →
  gh_is (gh_trimHead (Z.to_nat (gh_size G)) limit G) (drop (length ks - Z.to_nat limit) ks).
Proof.
  intros HI Hl. rewrite (gh_is_size _ _ HI). destruct HI as (l & HG & HF). pose proof (Forall2_length _ _ _ HF) as Hlen.
  destruct (gh_trimHead_rep (Z.to_nat (Z.of_nat (length ks))) limit G l HG) as (l' & T1 & [l0 ->] & T3); [lia|done|].
  exists l'. split; [exact T1|]. rewrite gh_trimHead_key. rewrite length_app in Hlen, T3.
  assert (length ks - Z.to_nat limit = length l0)%nat as -> by lia.
  apply (Forall2_drop _ _ _ (length l0)) in HF. by rewrite drop_app_length in HF.
Qed.

Lemma gh_is_trimTail G ks limit :
  gh_is G ks → (0 <= limit)%Z →
  gh_is (gh_trimTail (Z.to_nat (gh_size G)) limit G) (take (Z.to_nat limit) ks).
Proof.
  intros HI Hl. rewrite (gh_is_size _ _ HI). destruct HI as (l & HG & HF). pose proof (Forall2_length _ _ _ HF) as Hlen.
  destruct (gh_trimTail_rep (Z.to_nat (Z.of_nat (length ks))) limit G l HG) as (l' & T1 & [l0 ->] & T3); [lia|done|].
  exists l'. split; [exact T1|]. rewrite gh_trimTail_key. rewrite length_app in Hlen, T3.
  apply (Forall2_take _ _ _ (Z.to_nat limit)) in HF.
  destruct (decide (length l0 = 0)%nat) as [->%nil_length_inv|].
  - rewrite app_nil_r take_ge in HF; [done|]. cbn in T3. lia.
  - by assert (Z.to_nat limit = length l') as E by lia; rewrite E take_app_length -E in HF.
Qed.

Lemma gh_is_keys G ks : gh_is G ks → gh_keys G = ks.
Proof.
  intros (l & HG & HF). unfold gh_keys. rewrite (dll_walk_rep _ _ _ (gr_list _ _ HG)).
  clear HG. induction HF as [|x k l ks Hx HF IH]; [done|]. cbn. by rewrite Hx /= IH.
Qed.
End ghosts.
