(* ===== verification/S3fifo.v ===== *)
(** * S3fifo: the S3-FIFO eviction policy ([s3fifo.go]), the default

    New entries go to the Small queue, or to Main when their key is on the
    Ghost queue; an entry of Small that was accessed is promoted to Main, one
    of Main that was accessed gets another round.  The file shows that the
    policy satisfies [PolicyLaws], that it never returns the entry inserted
    last, and that a shard over its budget always gets a victim. *)

From S2P Require Import Prelude Dll Policy Duo.

#[local] Open Scope Z_scope.

Definition s3FreqMax : Z := 3.

Definition s3SplitBudget (budget : Z) : Z * Z :=
  if bool_decide (budget <= 0) then (0, 0)
  else if bool_decide (budget = 1) then (1, 0)
  else
    let small := i64 (budget + 9) `quot` 10 in
    let small := if bool_decide (budget <= small) then 1 else small in
    (small, budget - small).

Section s3.
Context {K : Type} `{Countable K}.

(** Queue [false] is Small, queue [true] is Main, the flag is [inMain]; the
    [freq] fields are a map from nodes. *)
Record s3fifoPolicy := S3 {
  s3_q : duo K;
  s3_freq : gmap loc Z;
  s3_smallBudget : Z;
  s3_mainBudget : Z;
  s3_ghostBudget : Z;
  s3_ghost : ghosts K;
  s3_recent : option loc;
  s3_pin : bool
}.

Implicit Types (p : s3fifoPolicy) (e : eref K) (n x : loc).

Definition newS3FIFO (budget : Z) (pinNodes : bool) : s3fifoPolicy :=
  let '(small, main) := s3SplitBudget budget in
  S3 du_empty ∅ small main main gh_empty None pinNodes.

Definition s3_with p (q : duo K) : s3fifoPolicy :=
  S3 q (s3_freq p) (s3_smallBudget p) (s3_mainBudget p) (s3_ghostBudget p) (s3_ghost p) (s3_recent p) (s3_pin p).

Definition s3_setGhost p (G : ghosts K) : s3fifoPolicy :=
  S3 (s3_q p) (s3_freq p) (s3_smallBudget p) (s3_mainBudget p) (s3_ghostBudget p) G (s3_recent p) (s3_pin p).

Definition s3_setRecent p (r : option loc) : s3fifoPolicy :=
  S3 (s3_q p) (s3_freq p) (s3_smallBudget p) (s3_mainBudget p) (s3_ghostBudget p) (s3_ghost p) r (s3_pin p).

(** [n.freq.Load()] and [n.freq.Store(f)] *)
Definition freqOf p n : Z := default 0 (s3_freq p !! n).
Definition setFreq p n (f : Z) : s3fifoPolicy :=
  S3 (s3_q p) (<[n := f]> (s3_freq p)) (s3_smallBudget p) (s3_mainBudget p) (s3_ghostBudget p) (s3_ghost p)
    (s3_recent p) (s3_pin p).

Definition s3_SetBudget p (budget : Z) : s3fifoPolicy :=
  let '(small, main) := s3SplitBudget budget in
  S3 (s3_q p) (s3_freq p) small main main (gh_trimHead (Z.to_nat (gh_size (s3_ghost p))) main (s3_ghost p))
    (s3_recent p) (s3_pin p).

Definition s3_OnInsert p e : s3fifoPolicy :=
  let n := nd_fresh (du_nodes (s3_q p)) in
  let p := setFreq (s3_with p (du_alloc (s3_q p) e)) n 0 in
  let p :=
    match gh_set (s3_ghost p) !! e.2 with
    | Some g =>
        let p := setFreq (s3_setGhost p (gh_unlink (s3_ghost p) g)) n 1 in
        s3_with p (du_pushTail (s3_q p) true n)
    | None => s3_with p (du_pushTail (s3_q p) false n)
    end in
  s3_setRecent p (Some n).

Definition s3_OnAccess p e : s3fifoPolicy :=
  match nd_data (du_nodes (s3_q p)) !! e.1 with
  | None => p
  | Some n => if bool_decide (freqOf p n < s3FreqMax) then setFreq p n (freqOf p n + 1) else p
  end.

Definition s3_OnUpdate p e : s3fifoPolicy := s3_OnAccess p e.

(** The end of [OnRemove]. *)
Definition s3_forget p n e : s3fifoPolicy :=
  let p := if decide (s3_recent p = Some n) then s3_setRecent p None else p in
  s3_with p (du_release (s3_q p) n e (s3_pin p)).

Definition s3_OnRemove p e : s3fifoPolicy :=
  match nd_data (du_nodes (s3_q p)) !! e.1 with
  | None => p
  | Some n =>
      match nd_entry (du_nodes (s3_q p)) !! n with
      | None => p
      | Some _ => s3_forget (s3_with p (du_unlink (s3_q p) (du_isB (s3_q p) n) n)) n e
      end
  end.

Definition recordGhost p (key : K) : s3fifoPolicy :=
  match gh_set (s3_ghost p) !! key with
  | Some _ => p
  | None =>
      let G := gh_push dll_pushTail (s3_ghost p) key in
      s3_setGhost p (gh_trimHead (Z.to_nat (gh_size G)) (s3_ghostBudget p) G)
  end.

(** [unlink(n); return n.entry], with the key recorded when [n] leaves Small. *)
Definition s3_take p (b : bool) n : option (eref K) * s3fifoPolicy :=
  let p := s3_with p (du_unlink (s3_q p) b n) in
  match nd_entry (du_nodes (s3_q p)) !! n with
  | Some e => (Some e, if b then p else recordGhost p e.2)
  | None => (None, p)
  end.

(** [unlink(n); push(n)] *)
Definition s3_requeue p (b b' : bool) n : s3fifoPolicy :=
  s3_with p (du_pushTail (du_unlink (s3_q p) b n) b' n).

Definition budgetOf p (b : bool) : Z := if b then s3_mainBudget p else s3_smallBudget p.

(** The head of a queue that is over its budget. *)
Definition overHead p (b : bool) : option loc :=
  if bool_decide (budgetOf p b < du_size (s3_q p) b) then d_head (du_queue (s3_q p) b) else None.

(** One turn of [Victim]'s loop: [inl] returns, [inr] goes on. *)
Definition s3_turn p : (option (eref K) * s3fifoPolicy) + s3fifoPolicy :=
  match overHead p false with
  | Some n =>
      if decide (s3_recent p = Some n) then inr (s3_requeue p false false n)
      else if bool_decide (1 <= freqOf p n) then inr (setFreq (s3_requeue p false true n) n 0)
      else inl (s3_take p false n)
  | None =>
      match overHead p true with
      | Some n =>
          if decide (s3_recent p = Some n) then inr (s3_requeue p true true n)
          else if bool_decide (1 <= freqOf p n)
          then inr (setFreq (s3_requeue p true true n) n (freqOf p n - 1))
          else inl (s3_take p true n)
      | None => inl (None, p)
      end
  end.

Fixpoint s3_rotate (rotations : nat) p : (option (eref K) * s3fifoPolicy) + s3fifoPolicy :=
  match rotations with
  | O => inr p
  | S rotations =>
      match s3_turn p with
      | inl r => inl r
      | inr p => s3_rotate rotations p
      end
  end.

(** [firstSmallNotRecent] and [firstMainNotRecent] *)
Definition firstNotRecent p (b : bool) : option loc :=
  List.find (λ n, bool_decide (s3_recent p ≠ Some n)) (du_seq (s3_q p) b).

(** The fallback of [Victim] after the loop. *)
Definition s3_fallback p : option (eref K) * s3fifoPolicy :=
  match (if bool_decide (s3_mainBudget p < du_size (s3_q p) true) then firstNotRecent p true else None) with
  | Some n => s3_take p true n
  | None =>
      match firstNotRecent p false with
      | Some n => s3_take p false n
      | None =>
          match firstNotRecent p true with
          | Some n => s3_take p true n
          | None => (None, p)
          end
      end
  end.

Definition s3_Victim p : option (eref K) * s3fifoPolicy :=
  let maxRotations := (du_size (s3_q p) false + du_size (s3_q p) true + 1) * (s3FreqMax + 1) + 1 in
  match s3_rotate (Z.to_nat maxRotations) p with
  | inl r => r
  | inr p => s3_fallback p
  end.

Definition s3_Len p : Z := du_size (s3_q p) false + du_size (s3_q p) true.

Definition s3_Reset p : s3fifoPolicy :=
  S3 (du_reset (s3_q p) (s3_pin p)) (s3_freq p) (s3_smallBudget p) (s3_mainBudget p) (s3_ghostBudget p)
    (Ghosts no_links ∅ dll_nil ∅ (gh_fresh (s3_ghost p))) None (s3_pin p).

Definition s3_Snapshot p : policyDetail :=
  PolicyDetailS3FIFO (du_size (s3_q p) false) (du_size (s3_q p) true) (gh_size (s3_ghost p))
    (s3_smallBudget p) (s3_mainBudget p).

Definition s3_PromotionNeeded p e : bool :=
  match nd_data (du_nodes (s3_q p)) !! e.1 with
  | None => true
  | Some n => bool_decide (freqOf p n < s3FreqMax)
  end.

Definition s3_shed p (keepRecent : bool) : option (eref K) * s3fifoPolicy :=
  match firstNotRecent p false with
  | Some n => s3_take p false n
  | None =>
      match firstNotRecent p true with
      | Some n => s3_take p true n
      | None =>
          if keepRecent then (None, p)
          else match s3_recent p with
               | None => (None, p)
               | Some n => s3_take p (du_isB (s3_q p) n) n
               end
      end
  end.

#[export] Instance s3_policy : EvictionPolicy K s3fifoPolicy := {
  OnInsert := s3_OnInsert;
  OnAccess := s3_OnAccess;
  OnUpdate := s3_OnUpdate;
  OnRemove := s3_OnRemove;
  Victim := s3_Victim;
  Len := s3_Len;
  Reset := s3_Reset;
  SetBudget := s3_SetBudget;
  Snapshot := s3_Snapshot;
  PromotionNeeded := s3_PromotionNeeded;
  shed := s3_shed
}.

(** ** The invariant *)

(** The queues hold the entries [S], but for the nodes [lx]; the ghost queue
    is within its budget, frequencies are counters of two bits, and
    [recentInsert] is the node of a tracked entry. *)
Record s3_ok p (ls : bool → list loc) (lx : list loc) (S : gset (eref K)) : Prop := S3Ok {
  s3_rep : du_rep (s3_q p) ls lx S;
  s3_ghosts : ∃ gl, gh_rep (s3_ghost p) gl ∧ Z.of_nat (length gl) <= s3_ghostBudget p;
  s3_freqs : ∀ n f, s3_freq p !! n = Some f → 0 <= f <= s3FreqMax;
  s3_recent_ok : ∀ n, s3_recent p = Some n → ∃ e, e ∈ S ∧ nd_data (du_nodes (s3_q p)) !! e.1 = Some n
}.

Definition s3_tracks p (S : gset (eref K)) : Prop := ∃ ls, s3_ok p ls [] S.

(** A victim: the node of [e] is on no queue, the others are as they were. *)
Definition s3_taken p n e (S : gset (eref K)) : Prop :=
  ∃ ls, s3_ok p ls [n] S ∧ nd_entry (du_nodes (s3_q p)) !! n = Some e.

(** What [Victim] leaves alone. *)
Definition s3_same p p' : Prop :=
  s3_recent p' = s3_recent p ∧ s3_smallBudget p' = s3_smallBudget p ∧ s3_mainBudget p' = s3_mainBudget p ∧
  s3_ghostBudget p' = s3_ghostBudget p ∧ nd_data (du_nodes (s3_q p')) = nd_data (du_nodes (s3_q p)).

Lemma split_main budget : 0 <= (s3SplitBudget budget).2.
Proof. unfold s3SplitBudget. repeat case_bool_decide; cbn; lia. Qed.

(** The shares add up to the budget. *)
Lemma split_sum budget : 0 < budget → (s3SplitBudget budget).1 + (s3SplitBudget budget).2 = budget.
Proof. intros Hb. unfold s3SplitBudget. repeat case_bool_decide; cbn; lia. Qed.

Lemma s3_same_trans p1 p2 p3 : s3_same p1 p2 → s3_same p2 p3 → s3_same p1 p3.
Proof. unfold s3_same. intuition congruence. Qed.

Lemma recordGhost_ok p k ls lx S :
  s3_ok p ls lx S → 0 <= s3_ghostBudget p → s3_ok (recordGhost p k) ls lx S ∧ s3_same p (recordGhost p k).
Proof.
  intros [R1 (gl & R2 & R3) R4 R5] Hb. unfold recordGhost.
  destruct (gh_set (s3_ghost p) !! k) eqn:Hk; [split; [constructor; eauto|done]|].
  pose proof (gh_pushTail_rep _ _ _ R2 Hk) as HG. split; [|done]. constructor; [done| |done|done].
  destruct (gh_trimHead_rep (Z.to_nat (gh_size (gh_push dll_pushTail (s3_ghost p) k))) (s3_ghostBudget p) _ _ HG)
    as (l' & T1 & _ & T2); [rewrite (gh_size_rep _ _ HG); lia|done|].
  exists l'. split; [exact T1|]. rewrite T2. cbn [s3_ghostBudget s3_setGhost]. lia.
Qed.

(** The budget of the ghost queue is never negative. *)
Lemma s3_ghost_nonneg p ls lx S : s3_ok p ls lx S → 0 <= s3_ghostBudget p.
Proof. intros [_ (gl & _ & Hl) _ _]. lia. Qed.

Lemma du_links_only (q : duo K) b n :
  nd_entry (du_nodes (du_unlink q b n)) = nd_entry (du_nodes q) ∧
  nd_data (du_nodes (du_unlink q b n)) = nd_data (du_nodes q).
Proof. done. Qed.

Lemma s3_take_ok p ls S b n :
  s3_ok p ls [] S → n ∈ ls b →
  ∃ e p', s3_take p b n = (Some e, p') ∧ e ∈ S ∧ s3_taken p' n e S ∧ s3_same p p' ∧
    nd_data (du_nodes (s3_q p)) !! e.1 = Some n.
Proof.
  intros HP Hn. destruct (du_entry (s3_q p) ls [] S n) as (e & He & HeS & Hd);
    [apply HP|destruct b; set_solver|].
  unfold s3_take. cbn. rewrite He. exists e. eexists. split; [done|]. split; [done|].
  assert (s3_ok (s3_with p (du_unlink (s3_q p) b n)) (setl ls b (without n (ls b))) [n] S) as HU.
  { destruct HP as [R1 R2 R3 R4]. constructor; [by apply du_unlink_rep|done..]. }
  destruct b; [by split_and!; [eexists|..]|].
  destruct (recordGhost_ok _ e.2 _ _ _ HU (s3_ghost_nonneg _ _ _ _ HP)) as [HG HS].
  split_and!; [|done..]. eexists. split; [exact HG|].
  unfold recordGhost. by destruct (gh_set _ !! _).
Qed.

Lemma s3_requeue_ok p ls S b b' n :
  s3_ok p ls [] S → n ∈ ls b →
  let ls1 := setl ls b (without n (ls b)) in
  s3_ok (s3_requeue p b b' n) (setl ls1 b' (ls1 b' ++ [n])) [] S.
Proof.
  intros [R1 R2 R3 R4] Hn. constructor; [|done..]. by apply du_pushTail_rep, du_unlink_rep.
Qed.

Lemma setFreq_ok p ls lx S n f : s3_ok p ls lx S → 0 <= f <= s3FreqMax → s3_ok (setFreq p n f) ls lx S.
Proof.
  intros [R1 R2 R3 R4] Hf. constructor; [done|done| |done]. intros m g. cbn.
  intros [[_ <-]|[_ Hm]]%lookup_insert_Some; [done|by eapply R3].
Qed.

Lemma freqOf_range p ls lx S n : s3_ok p ls lx S → 0 <= freqOf p n <= s3FreqMax.
Proof.
  intros HP. unfold freqOf. destruct (s3_freq p !! n) eqn:Hn; cbn; [by eapply s3_freqs|]. unfold s3FreqMax. lia.
Qed.

Lemma overHead_elem p ls lx S b n : s3_ok p ls lx S → overHead p b = Some n → n ∈ ls b.
Proof.
  intros HP. unfold overHead. case_bool_decide; [|done].
  rewrite (rep_head _ _ _ (dr_list _ _ _ _ (s3_rep _ _ _ _ HP) b)). apply head_Some_elem_of.
Qed.

(** Neither queue has more nodes than its budget, unless the budget is
    negative. *)
Lemma overHead_None p ls lx S b :
  s3_ok p ls lx S → overHead p b = None → du_size (s3_q p) b <= Z.max 0 (budgetOf p b).
Proof.
  intros HP. unfold overHead. rewrite (du_size_rep _ _ _ _ _ (s3_rep _ _ _ _ HP)).
  case_bool_decide; [|lia]. rewrite (rep_head _ _ _ (dr_list _ _ _ _ (s3_rep _ _ _ _ HP) b)).
  destruct (ls b); [cbn; lia|done].
Qed.

(** What [Victim] may end with. *)
Definition s3_result p S (r : option (eref K) * s3fifoPolicy) : Prop :=
  match r with
  | (Some e, p') => e ∈ S ∧ ∃ n, s3_taken p' n e S ∧ s3_same p p' ∧ s3_recent p ≠ Some n
  | (None, p') => s3_tracks p' S ∧ s3_same p p'
  end.

Lemma s3_take_result p ls S b n :
  s3_ok p ls [] S → n ∈ ls b → s3_recent p ≠ Some n →
  s3_result p S (s3_take p b n) ∧ is_Some (s3_take p b n).1.
Proof.
  intros HP Hn Hr. destruct (s3_take_ok p ls S b n HP Hn) as (e & p' & -> & He & Ht & Hs & _).
  split; [|done]. split; [done|]. by exists n.
Qed.

(** When a turn ends the loop without a victim, both queues are within their
    budgets. *)
Lemma s3_turn_ok p S :
  s3_tracks p S →
  match s3_turn p with
  | inl r => s3_result p S r ∧
      (is_Some r.1 ∨ r.2 = p ∧ ∀ b, du_size (s3_q p) b <= Z.max 0 (budgetOf p b))
  | inr p' => s3_tracks p' S ∧ s3_same p p'
  end.
Proof.
  intros [ls HP]. unfold s3_turn.
  assert (∀ b b' n f, n ∈ ls b → 0 <= f <= s3FreqMax →
    s3_tracks (s3_requeue p b b' n) S ∧ s3_tracks (setFreq (s3_requeue p b b' n) n f) S) as Hq.
  { intros b b' n f Hn Hf. pose proof (s3_requeue_ok p ls S b b' n HP Hn) as HQ.
    split; [by eexists|]. eexists. apply setFreq_ok; [exact HQ|done]. }
  destruct (overHead p false) as [n|] eqn:H1; [|destruct (overHead p true) as [n|] eqn:H2].
  - apply (overHead_elem p ls [] S) in H1; [|done]. destruct (Hq false true n 0 H1 ltac:(done)) as [_ H3].
    destruct (decide (s3_recent p = Some n)) as [|Hr]; [by split; [eapply (Hq false false n 0)|]|].
    case_bool_decide; [done|]. destruct (s3_take_result p ls S false n HP H1 Hr). auto.
  - apply (overHead_elem p ls [] S) in H2; [|done]. pose proof (freqOf_range p ls [] S n HP).
    destruct (decide (s3_recent p = Some n)) as [|Hr]; [by split; [eapply (Hq true true n 0)|]|].
    case_bool_decide; [split; [eapply (Hq true true n); [done|lia]|done]|].
    destruct (s3_take_result p ls S true n HP H2 Hr). auto.
  - split; [split; [by eexists|done]|right]. split; [done|]. intros []; by apply (overHead_None p ls [] S).
Qed.

Lemma s3_rotate_ok fuel p S :
  s3_tracks p S →
  match s3_rotate fuel p with
  | inl r => s3_result p S r ∧
      (is_Some r.1 ∨ ∀ b, du_size (s3_q r.2) b <= Z.max 0 (budgetOf p b))
  | inr p' => s3_tracks p' S ∧ s3_same p p'
  end.
Proof.
  revert p. induction fuel as [|fuel IH]; intros p HT; [done|]. cbn.
  pose proof (s3_turn_ok p S HT) as Ht. destruct (s3_turn p) as [r|p1].
  - destruct Ht as [R1 R2]. split; [done|]. destruct R2 as [?|[-> R2]]; auto.
  - destruct Ht as [T1 T2]. specialize (IH p1 T1). destruct (s3_rotate fuel p1) as [r|p2].
    + destruct IH as [R1 R2]. pose proof T2 as (E1 & E2 & E3 & E4 & E5).
      assert (∀ b, budgetOf p1 b = budgetOf p b) as Eb by (intros []; done). split.
      * destruct r as [[e|] p2]; cbn in R1 |- *.
        -- destruct R1 as [He (n & Hn & Hs & Hr)]. split; [done|]. exists n. split; [done|].
           split; [by eapply s3_same_trans|by rewrite -E1].
        -- destruct R1 as [R1 Hs]. split; [done|]. by eapply s3_same_trans.
      * destruct R2 as [?|R2]; [by left|right]. intros b. rewrite -Eb. apply R2.
    + destruct IH as [I1 I2]. split; [done|]. by eapply s3_same_trans.
Qed.

(** ** The laws *)

Lemma s3_forget_ok p ls n e S :
  s3_ok p ls [n] S → nd_entry (du_nodes (s3_q p)) !! n = Some e → s3_tracks (s3_forget p n e) (S ∖ {[e]}).
Proof.
  intros [R1 R2 R3 R4] He. exists ls.
  assert (∀ m, s3_recent p = Some m → m ≠ n → ∃ e', e' ∈ S ∖ {[e]} ∧
    nd_data (du_nodes (du_release (s3_q p) n e (s3_pin p))) !! e'.1 = Some m) as Hr.
  { intros m (e' & He' & Hd)%R4 Hne. exists e'.
    pose proof (owns_data_eq _ _ _ n e (dr_owns _ _ _ _ R1) ltac:(left) He) as Hd'.
    assert (e' ≠ e) as Hee by (intros ->; congruence). split; [set_solver|].
    assert (e ∈ S) by (eapply owns_elem; [apply R1|by left|done]).
    assert (e'.1 ≠ e.1) by (intros Heq; by apply Hee, (owns_id_inj _ _ _ _ _ (dr_owns _ _ _ _ R1))).
    unfold du_release. destruct (s3_pin p); cbn; [done|]. by rewrite lookup_delete_ne. }
  unfold s3_forget. destruct (decide _) as [Hn|Hn]; (constructor; [by apply du_release_rep|done|done|]); [done|].
  intros m Hm. apply Hr; [done|]. cbn in Hm. congruence.
Qed.

Lemma s3_remove_taken p n e S :
  s3_taken p n e S → s3_tracks (s3_OnRemove p e) (S ∖ {[e]}).
Proof.
  intros (ls & HP & He). unfold s3_OnRemove.
  rewrite (owns_data_eq _ _ _ n e (dr_owns _ _ _ _ (s3_rep _ _ _ _ HP)) ltac:(left) He) He.
  rewrite (du_unlink_loose _ _ _ _ _ (s3_rep _ _ _ _ HP)).
  replace (s3_with p (s3_q p)) with p by by destruct p. by eapply s3_forget_ok.
Qed.

Lemma s3_remove_ok p S e : s3_tracks p S → e ∈ S → s3_tracks (s3_OnRemove p e) (S ∖ {[e]}).
Proof.
  intros [ls HP] He. destruct (du_node _ _ _ _ e (s3_rep _ _ _ _ HP) He) as (n & Hd & Hn & Hne).
  unfold s3_OnRemove. rewrite Hd Hne.
  assert (∃ b, n ∈ ls b) as [b Hb] by (cbn in Hn; apply elem_of_app in Hn as [?|?]; eauto).
  rewrite (dr_flag _ _ _ _ (s3_rep _ _ _ _ HP) n b Hb).
  eapply s3_forget_ok; [|done]. destruct HP as [R1 R2 R3 R4]. constructor; [by apply du_unlink_rep|done..].
Qed.

Lemma s3_insert_ok p S e :
  s3_tracks p S → (∀ e', e' ∈ S → e'.1 ≠ e.1) → s3_tracks (s3_OnInsert p e) ({[e]} ∪ S).
Proof.
  intros [ls HP] Hid. pose proof HP as [R1 (gl & R2 & R2') R3 R4].
  pose proof (du_alloc_rep _ _ _ _ R1 Hid) as HA. unfold s3_OnInsert.
  set (n := nd_fresh (du_nodes (s3_q p))) in *.
  assert (∀ m f, <[n := 0]> (s3_freq p) !! m = Some f → 0 <= f <= s3FreqMax) as Hf0.
  { intros m f [[_ <-]|[_ Hm]]%lookup_insert_Some; [done|by eapply R3]. }
  assert (∀ q : duo K, nd_data (du_nodes q) = nd_data (du_nodes (du_alloc (s3_q p) e)) → ∀ m, Some n = Some m →
    ∃ e', e' ∈ {[e]} ∪ S ∧ nd_data (du_nodes q) !! e'.1 = Some m) as Hrec.
  { intros q -> m [= <-]. exists e. split; [set_solver|]. cbn. by rewrite lookup_insert_eq. }
  cbn [s3_ghost setFreq s3_with]. destruct (gh_set (s3_ghost p) !! e.2) as [g|] eqn:Hg.
  - eexists. constructor; [by apply du_pushTail_rep| | |by apply Hrec].
    + destruct (gr_set _ _ R2 _ _ Hg) as [Hin _]. pose proof (gh_unlink_rep _ _ _ R2 Hin) as HG.
      eexists. split; [exact HG|]. cbn. pose proof (length_without g gl (rep_nodup _ _ _ (gr_list _ _ R2)) Hin). lia.
    + intros m f. cbn [s3_freq s3_setRecent s3_with setFreq s3_setGhost]. intros [[_ <-]|[_ Hm]]%lookup_insert_Some; [done|by eapply Hf0].
  - eexists. constructor; [by apply du_pushTail_rep|by eexists|exact Hf0|by apply Hrec].
Qed.

Lemma s3_access_ok p S e : s3_tracks p S → s3_tracks (s3_OnAccess p e) S.
Proof.
  intros [ls HP]. unfold s3_OnAccess. destruct (nd_data _ !! e.1) as [n|]; [|by exists ls].
  pose proof (freqOf_range p ls [] S n HP). case_bool_decide; exists ls; [|done]. apply setFreq_ok; [done|]. lia.
Qed.

Lemma s3_reset_ok p S : s3_tracks p S → s3_tracks (s3_Reset p) ∅.
Proof.
  intros [ls HP]. eexists. constructor; [apply du_empty_rep| |apply HP|done].
  exists []. split; [|cbn; by eapply s3_ghost_nonneg].
  constructor; [apply rep_nil|by intros x ?%elem_of_nil|by intros x ?%elem_of_nil|]. intros k x. cbn. by rewrite lookup_empty.
Qed.

Lemma s3_budget_ok p S b : s3_tracks p S → s3_tracks (s3_SetBudget p b) S.
Proof.
  intros [ls [R1 (gl & R2 & R2') R3 R4]]. exists ls. unfold s3_SetBudget. pose proof (split_main b) as Hm.
  destruct (s3SplitBudget b) as [small main]. constructor; [done| |done|done]. cbn in Hm |- *.
  destruct (gh_trimHead_rep (Z.to_nat (gh_size (s3_ghost p))) main _ _ R2) as (l' & T1 & _ & T2);
    [rewrite (gh_size_rep _ _ R2); lia|done|]. exists l'. split; [done|]. lia.
Qed.

(** [find] finds a node other than the recent one, or there is none. *)
Lemma firstNotRecent_ok p ls lx S b :
  s3_ok p ls lx S →
  match firstNotRecent p b with
  | Some n => n ∈ ls b ∧ s3_recent p ≠ Some n
  | None => ∀ n, n ∈ ls b → s3_recent p = Some n
  end.
Proof.
  intros HP. unfold firstNotRecent. rewrite (du_seq_rep _ _ _ _ b (s3_rep _ _ _ _ HP)).
  destruct (List.find _ (ls b)) as [n|] eqn:Hf.
  - apply List.find_some in Hf as [Hn Hr%bool_decide_eq_true]. split; [by apply list_elem_of_In|done].
  - intros n Hn%list_elem_of_In. apply (List.find_none _ _ Hf) in Hn.
    apply bool_decide_eq_false in Hn. by apply dec_stable.
Qed.

(** Without a node other than the recent one, at most one entry is tracked. *)
Lemma only_recent p ls S :
  s3_ok p ls [] S → (∀ b n, n ∈ ls b → s3_recent p = Some n) → (size S ≤ 1)%nat.
Proof.
  intros HP Hall. rewrite (owns_size _ _ _ (dr_owns _ _ _ _ (s3_rep _ _ _ _ HP))).
  pose proof (owns_nodup _ _ _ (dr_owns _ _ _ _ (s3_rep _ _ _ _ HP))) as Hn. cbn in Hn |- *.
  assert (∀ x, x ∈ ls false ++ ls true → s3_recent p = Some x) as Hr by (intros x [?|?]%elem_of_app; eauto).
  destruct (ls false ++ ls true) as [|x [|y l]]; cbn; [lia|lia|]. exfalso.
  pose proof (Hr x ltac:(set_solver)). pose proof (Hr y ltac:(set_solver)).
  apply NoDup_cons in Hn as [Hx _]. apply Hx. assert (x = y) as -> by congruence. left.
Qed.

Lemma s3_fallback_ok p S :
  s3_tracks p S → s3_result p S (s3_fallback p) ∧ (is_Some (s3_fallback p).1 ∨ (size S ≤ 1)%nat).
Proof.
  intros [ls HP]. unfold s3_fallback.
  pose proof (firstNotRecent_ok p ls [] S true HP) as Hm. pose proof (firstNotRecent_ok p ls [] S false HP) as Hs.
  assert (∀ b n, n ∈ ls b ∧ s3_recent p ≠ Some n → s3_result p S (s3_take p b n) ∧
    (is_Some (s3_take p b n).1 ∨ (size S ≤ 1)%nat)) as Ht.
  { intros b n [Hn Hr]. destruct (s3_take_result p ls S b n HP Hn Hr). auto. }
  assert (∀ o : option loc, (∀ n, o = Some n → firstNotRecent p true = Some n) →
    s3_result p S (match o with Some n => s3_take p true n | None =>
      match firstNotRecent p false with Some n => s3_take p false n | None =>
        match firstNotRecent p true with Some n => s3_take p true n | None => (None, p) end end end) ∧
    (is_Some (match o with Some n => s3_take p true n | None =>
      match firstNotRecent p false with Some n => s3_take p false n | None =>
        match firstNotRecent p true with Some n => s3_take p true n | None => (None, p) end end end).1 ∨ (size S ≤ 1)%nat)) as Hgen.
  { intros [n|] Ho; [rewrite (Ho n eq_refl) in Hm; by apply Ht|].
    destruct (firstNotRecent p false); [by apply Ht|]. destruct (firstNotRecent p true); [by apply Ht|].
    split; [split; [by exists ls|done]|right]. apply (only_recent p ls); [done|]. intros []; done. }
  apply Hgen. case_bool_decide; [done|]. by intros.
Qed.

Lemma s3_victim_result p S :
  s3_tracks p S →
  s3_result p S (s3_Victim p) ∧
  (is_Some (s3_Victim p).1 ∨ (size S ≤ 1)%nat ∨
   Z.of_nat (size S) <= Z.max 0 (s3_smallBudget p) + Z.max 0 (s3_mainBudget p)).
Proof.
  intros HT. unfold s3_Victim. set (fuel := Z.to_nat _). pose proof (s3_rotate_ok fuel p S HT) as Hr.
  destruct (s3_rotate fuel p) as [r|p'].
  - destruct Hr as [R1 R2]. split; [done|]. destruct R2 as [?|R2]; [auto|].
    destruct r as [[e|] p']; [by left|right; right]. cbn in R2. destruct R1 as [[ls HP] _].
    rewrite -(du_size_S _ _ _ (s3_rep _ _ _ _ HP)). pose proof (R2 false). pose proof (R2 true). cbn in *. lia.
  - destruct Hr as [T1 (E1 & E2 & E3 & E4 & E5)]. destruct (s3_fallback_ok p' S T1) as [F1 F2]. split.
    + destruct (s3_fallback p') as [[e|] p2]; cbn in F1 |- *.
      * destruct F1 as [He (n & Hn & Hs & Hr)]. split; [done|]. exists n. rewrite E1 in Hr.
        split; [done|]. split; [|done]. by eapply s3_same_trans.
      * destruct F1 as [F1 Hs]. split; [done|]. by eapply s3_same_trans.
    + destruct F2; auto.
Qed.

Lemma s3_shed_ok p S b :
  s3_tracks p S → evicted s3_tracks S (s3_shed p b) ∧
  ((if b then 2 ≤ size S else 1 ≤ size S)%nat → is_Some (s3_shed p b).1).
Proof.
  intros [ls HP]. unfold s3_shed.
  pose proof (firstNotRecent_ok p ls [] S true HP) as Hm. pose proof (firstNotRecent_ok p ls [] S false HP) as Hs.
  assert (∀ b' n, n ∈ ls b' → evicted s3_tracks S (s3_take p b' n) ∧
    ((if b then 2 ≤ size S else 1 ≤ size S)%nat → is_Some (s3_take p b' n).1)) as Ht.
  { intros b' n Hn. destruct (s3_take_ok p ls S b' n HP Hn) as (e & p' & -> & He & Htk & _).
    split; [|done]. split; [done|]. by eapply s3_remove_taken. }
  destruct (firstNotRecent p false) as [n|]; [apply Ht, Hs|].
  destruct (firstNotRecent p true) as [n|]; [apply Ht, Hm|].
  assert (∀ b' n, n ∈ ls b' → s3_recent p = Some n) as Hall by (intros []; done).
  pose proof (only_recent p ls S HP Hall) as Hsz.
  destruct b; [split; [by exists ls|lia]|]. destruct (s3_recent p) as [n|] eqn:Hr.
  - destruct (s3_recent_ok _ _ _ _ HP n Hr) as (e & He & Hd).
    destruct (du_node _ _ _ _ e (s3_rep _ _ _ _ HP) He) as (n' & Hd' & Hn & _).
    assert (n' = n) as -> by congruence.
    assert (∃ b', n ∈ ls b') as [b' Hb] by (cbn in Hn; apply elem_of_app in Hn as [?|?]; eauto).
    rewrite (dr_flag _ _ _ _ (s3_rep _ _ _ _ HP) n b' Hb). by apply Ht.
  - split; [by exists ls|]. intros Hs1. exfalso.
    rewrite (owns_size _ _ _ (dr_owns _ _ _ _ (s3_rep _ _ _ _ HP))) in Hs1. cbn in Hs1.
    destruct (ls false ++ ls true) as [|x l] eqn:Hl; cbn in Hs1; [lia|].
    assert (x ∈ ls false ++ ls true) as [Hx|Hx]%elem_of_app by (rewrite Hl; left).
    + by specialize (Hall false x Hx).
    + by specialize (Hall true x Hx).
Qed.

#[export] Program Instance s3_laws : PolicyLaws K s3fifoPolicy := { tracks := s3_tracks }.
Next Obligation. intros. by apply s3_insert_ok. Qed.
Next Obligation. intros. by apply s3_access_ok. Qed.
Next Obligation. intros. by apply s3_access_ok. Qed.
Next Obligation. intros. by apply s3_remove_ok. Qed.
Next Obligation.
  intros p S HT. change (Victim p) with (s3_Victim p). destruct (s3_victim_result p S HT) as [Hr _].
  destruct (s3_Victim p) as [[e|] p']; cbn in Hr |- *; [|apply Hr].
  destruct Hr as [He (n & Hn & _)]. split; [done|]. by eapply s3_remove_taken.
Qed.
Next Obligation. intros p S b HT. by apply s3_shed_ok. Qed.
Next Obligation.
  intros p S b HT Hs. unfold shedVictim. change (Victim p) with (s3_Victim p).
  destruct (s3_victim_result p S HT) as [Hr _]. destruct (s3_Victim p) as [[e|] p']; [done|].
  destruct Hr as [HT' _]. by apply (s3_shed_ok p' S b HT').
Qed.
Next Obligation. intros p S [ls HP]. exact (du_size_S _ _ _ (s3_rep _ _ _ _ HP)). Qed.
Next Obligation. intros. by eapply s3_reset_ok. Qed.
Next Obligation. intros. by apply s3_budget_ok. Qed.
Next Obligation.
  intros p S e HT He. change (PromotionNeeded p e) with (s3_PromotionNeeded p e).
  change (OnAccess p e) with (s3_OnAccess p e). unfold s3_PromotionNeeded, s3_OnAccess.
  destruct (nd_data _ !! e.1); [|done]. by intros ->.
Qed.

Lemma s3_new_ok budget pin : s3_tracks (newS3FIFO budget pin) ∅.
Proof.
  exists (λ _, []). unfold newS3FIFO. pose proof (split_main budget) as Hm.
  destruct (s3SplitBudget budget) as [small main]. constructor; [apply du_new_rep| |done|done].
  exists []. split; [apply gh_empty_rep|]. cbn in *. lia.
Qed.

(** ** What the policy promises beyond the laws *)

(** [e] is the entry inserted last. *)
Definition s3_newest p e (S : gset (eref K)) : Prop :=
  s3_tracks p S ∧ e ∈ S ∧ nd_data (du_nodes (s3_q p)) !! e.1 = s3_recent p.

(** Another entry is evicted. *)
Lemma s3_evict_newest p e S v p' :
  s3_newest p e S → s3_Victim p = (Some v, p') → v ≠ e ∧ s3_newest (s3_OnRemove p' v) e (S ∖ {[v]}).
Proof.
  intros (HT & He & Hd) Hv. destruct (s3_victim_result p S HT) as [Hr _]. rewrite Hv in Hr.
  destruct Hr as [HvS (n & Hn & (E1 & _ & _ & _ & E5) & Hne)]. pose proof Hn as (ls & HP & Hvn).
  pose proof (owns_data_eq _ _ _ n v (dr_owns _ _ _ _ (s3_rep _ _ _ _ HP)) ltac:(left) Hvn) as Hdv.
  assert (v ≠ e) as Hve by (intros ->; congruence).
  assert (v.1 ≠ e.1) as Hid by (intros Heq; by apply Hve, (owns_id_inj _ _ _ _ _ (dr_owns _ _ _ _ (s3_rep _ _ _ _ HP)))).
  split; [done|]. split; [by eapply s3_remove_taken|]. split; [set_solver|].
  unfold s3_OnRemove. rewrite Hdv Hvn. unfold s3_forget. cbn [s3_recent s3_with].
  rewrite decide_False; [|by rewrite E1]. cbn. unfold du_release. rewrite -E1 -E5 in Hd.
  destruct (s3_pin p'); cbn; [done|]. by rewrite lookup_delete_ne.
Qed.

(** The entry that was just inserted is never the victim of the evictions
    that its insertion triggers: however many follow it, it stays tracked. *)
Theorem s3_new_survives p S e (n : nat) :
  s3_tracks p S → (∀ e', e' ∈ S → e'.1 ≠ e.1) →
  ∃ S', s3_tracks (Nat.iter n (λ p, pol_step p PEvict) (s3_OnInsert p e)) S' ∧ e ∈ S'.
Proof.
  intros HT Hid. assert (∃ S', s3_newest (Nat.iter n (λ p, pol_step p PEvict) (s3_OnInsert p e)) e S') as (S' & H1 & H2 & _); [|eauto].
  induction n as [|n [S' IH]].
  - exists ({[e]} ∪ S). split; [by apply s3_insert_ok|]. split; [set_solver|]. unfold s3_OnInsert.
    set (x := nd_fresh _). destruct (gh_set _ !! _); cbn; by rewrite lookup_insert_eq.
  - rewrite Nat.iter_succ. set (q := Nat.iter n _ _) in *. cbn. change (Victim q) with (s3_Victim q).
    destruct (s3_Victim q) as [[v|] q'] eqn:Hv.
    + destruct (s3_evict_newest q e S' v q' IH Hv) as [_ ?]. eauto.
    + destruct IH as (HT' & He & Hd). destruct (s3_victim_result q S' HT') as [Hr _]. rewrite Hv in Hr.
      destruct Hr as [Hr (E1 & _ & _ & _ & E5)]. exists S'. split; [done|]. split; [done|]. by rewrite E1 E5.
Qed.

(** C28: S3-FIFO makes progress: a shard with more entries than the budget its
    S3-FIFO policy was given always gets a victim: an entry it holds, which
    [OnRemove] then forgets. *)
Theorem s3_victim_progress p S budget :
  s3_tracks p S → (s3_smallBudget p, s3_mainBudget p) = s3SplitBudget budget → is_i64 (budget + 9) →
  Z.max 1 budget < Z.of_nat (size S) →
  ∃ v p', s3_Victim p = (Some v, p') ∧ v ∈ S ∧ s3_tracks (s3_OnRemove p' v) (S ∖ {[v]}).
Proof.
  intros HT Hb Hi Hs. destruct (s3_victim_result p S HT) as [Hr Hp].
  assert (is_Some (s3_Victim p).1) as [v Hv].
  { destruct Hp as [?|[?|Hp]]; [done|lia|]. exfalso. revert Hb Hp. unfold s3SplitBudget.
    rewrite i64_id //. pose proof (Z.quot_pos (budget + 9) 10). repeat case_bool_decide; intros [= -> ->]; lia. }
  destruct (s3_Victim p) as [o p']. cbn in Hv. subst o. destruct Hr as [Hin (n & Hn & _)].
  exists v, p'. split_and!; [done|done|]. by eapply s3_remove_taken.
Qed.
End s3.
Arguments s3fifoPolicy K {_ _}.

(** Two entries in a policy with a budget of two. *)
Definition s3_two : s3fifoPolicy Z :=
  s3_OnInsert (s3_OnInsert (newS3FIFO 2 false) (1%positive, 10)) (2%positive, 20).

Lemma s3_two_ok : s3_tracks s3_two ({[(2%positive, 20)]} ∪ ({[(1%positive, 10)]} ∪ ∅)).
Proof. apply s3_insert_ok; [apply s3_insert_ok; [apply s3_new_ok|set_solver]|set_solver]. Qed.

Lemma s3_new_survives_witness :
  ∃ S', s3_tracks (Nat.iter 2 (λ p, pol_step p PEvict) (s3_OnInsert s3_two (3%positive, 30))) S' ∧
    (3%positive, 30) ∈ S'.
Proof. apply (s3_new_survives _ _ _ 2 s3_two_ok). set_solver. Defined.

Lemma s3_victim_progress_witness :
  ∃ v p', s3_Victim (s3_OnInsert s3_two (3%positive, 30)) = (Some v, p') ∧ v = (1%positive, 10).
Proof.
  edestruct (s3_victim_progress (s3_OnInsert s3_two (3%positive, 30))) as (v & p' & Hv & _).
  - apply s3_insert_ok; [exact s3_two_ok|set_solver].
  - instantiate (1 := 2). vm_compute. done.
  - done.
  - vm_compute. done.
  - exists v, p'. split; [exact Hv|]. vm_compute in Hv. congruence.
Defined.
