(* ===== verification/TwoQ.v ===== *)
(** * TwoQ: the 2Q eviction policy ([twoq.go])

    New entries wait in A1in, a FIFO; an entry whose key is still on the ghost
    queue A1out when it comes back goes to Am, an LRU list.  The file shows
    that the linked code implements 2Q on plain lists ([twoq_refines]) and
    that it satisfies [PolicyLaws]. *)

From S2P Require Import Prelude Dll Policy Duo.

#[local] Open Scope Z_scope.

Definition twoQSplitBudget (budget : Z) : Z * Z * Z :=
  if bool_decide (budget <= 0) then (0, 0, 0)
  else
    let inB := Z.max (i64 (budget + 3) `quot` 4) 1 in
    let am := Z.max (budget - inB) 1 in
    let out := Z.max (i64 (budget + 1) `quot` 2) 1 in
    (inB, am, out).

Section twoq.
Context {K : Type} `{Countable K}.

(** Queue [false] is A1in, queue [true] is Am, the flag is [inAm]. *)
Record twoQPolicy := TwoQ {
  tq_q : duo K;
  tq_inBudget : Z;
  tq_amBudget : Z;
  tq_outBudget : Z;
  tq_out : ghosts K
}.

Implicit Types (p : twoQPolicy) (e : eref K) (n : loc).

Definition newTwoQ (budget : Z) : twoQPolicy :=
  let '(inB, am, out) := twoQSplitBudget budget in TwoQ du_empty inB am out gh_empty.

Definition tq_with p (q : duo K) : twoQPolicy :=
  TwoQ q (tq_inBudget p) (tq_amBudget p) (tq_outBudget p) (tq_out p).

Definition tq_setOut p (G : ghosts K) : twoQPolicy :=
  TwoQ (tq_q p) (tq_inBudget p) (tq_amBudget p) (tq_outBudget p) G.

Definition tq_SetBudget p (budget : Z) : twoQPolicy :=
  let '(inB, am, out) := twoQSplitBudget budget in
  TwoQ (tq_q p) inB am out (gh_trimHead (Z.to_nat (gh_size (tq_out p))) out (tq_out p)).

Definition tq_OnInsert p e : twoQPolicy :=
  let n := nd_fresh (du_nodes (tq_q p)) in
  let p := tq_with p (du_alloc (tq_q p) e) in
  match gh_set (tq_out p) !! e.2 with
  | Some g =>
      let p := tq_setOut p (gh_unlink (tq_out p) g) in
      tq_with p (du_pushHead (tq_q p) true n)
  | None => tq_with p (du_pushTail (tq_q p) false n)
  end.

Definition tq_OnAccess p e : twoQPolicy :=
  match nd_data (du_nodes (tq_q p)) !! e.1 with
  | None => p
  | Some n =>
      if negb (du_isB (tq_q p) n) then p
      else if decide (d_head (du_b (tq_q p)) = Some n) then p
      else tq_with p (du_pushHead (du_unlink (tq_q p) true n) true n)
  end.

Definition tq_OnUpdate p e : twoQPolicy := tq_OnAccess p e.

Definition tq_OnRemove p e : twoQPolicy :=
  match nd_data (du_nodes (tq_q p)) !! e.1 with
  | None => p
  | Some n => tq_with p (du_release (du_unlink (tq_q p) (du_isB (tq_q p) n) n) n e false)
  end.

Definition tq_recordGhost p (key : K) : twoQPolicy :=
  match gh_set (tq_out p) !! key with
  | Some _ => p
  | None =>
      let G := gh_push dll_pushTail (tq_out p) key in
      tq_setOut p (gh_trimHead (Z.to_nat (gh_size G)) (tq_outBudget p) G)
  end.

(** [unlink(n); return n.entry], with the key recorded when [n] leaves A1in. *)
Definition tq_take p (b : bool) n : option (eref K) * twoQPolicy :=
  let p := tq_with p (du_unlink (tq_q p) b n) in
  match nd_entry (du_nodes (tq_q p)) !! n with
  | Some e => (Some e, if b then p else tq_recordGhost p e.2)
  | None => (None, p)
  end.

Definition tq_Victim p : option (eref K) * twoQPolicy :=
  let inHead := d_head (du_a (tq_q p)) in
  let amTail := d_tail (du_b (tq_q p)) in
  match (if bool_decide (tq_inBudget p < du_size (tq_q p) false) then inHead else None) with
  | Some n => tq_take p false n
  | None =>
      match (if bool_decide (tq_amBudget p < du_size (tq_q p) true) then amTail else None) with
      | Some n => tq_take p true n
      | None =>
          match inHead with
          | Some n => tq_take p false n
          | None => match amTail with Some n => tq_take p true n | None => (None, p) end
          end
      end
  end.

Definition tq_Len p : Z := du_size (tq_q p) false + du_size (tq_q p) true.

Definition tq_Reset p : twoQPolicy :=
  TwoQ (du_reset (tq_q p) false) (tq_inBudget p) (tq_amBudget p) (tq_outBudget p)
    (Ghosts no_links ∅ dll_nil ∅ (gh_fresh (tq_out p))).

Definition tq_Snapshot p : policyDetail :=
  PolicyDetail2Q (du_size (tq_q p) false) (du_size (tq_q p) true) (gh_size (tq_out p)).

Definition tq_PromotionNeeded p e : bool :=
  match nd_data (du_nodes (tq_q p)) !! e.1 with
  | None => false
  | Some n => du_isB (tq_q p) n && bool_decide (d_head (du_b (tq_q p)) ≠ Some n)
  end.

#[export] Instance tq_policy : EvictionPolicy K twoQPolicy := {
  OnInsert := tq_OnInsert;
  OnAccess := tq_OnAccess;
  OnUpdate := tq_OnUpdate;
  OnRemove := tq_OnRemove;
  Victim := tq_Victim;
  Len := tq_Len;
  Reset := tq_Reset;
  SetBudget := tq_SetBudget;
  Snapshot := tq_Snapshot;
  PromotionNeeded := tq_PromotionNeeded;
  shed p _ := (None, p)
}.

(** ** 2Q on lists *)

(** A1in oldest first, Am most recently used first, A1out oldest first. *)
Record twoQ := TwoQState { a1in : list (eref K); am : list (eref K); a1out : list K }.

Definition remember (outB : Z) (ks : list K) (k : K) : list K :=
  if decide (k ∈ ks) then ks
  else let ks := ks ++ [k] in drop (length ks - Z.to_nat outB) ks.

Definition leaveIn (outB : Z) (s : twoQ) e : twoQ :=
  TwoQState (without e (a1in s)) (am s) (remember outB (a1out s) e.2).

Definition leaveAm (s : twoQ) e : twoQ := TwoQState (a1in s) (without e (am s)) (a1out s).

(** The oldest entry of A1in when A1in is over its share, else the least
    recently used one of Am when Am is, else whatever there is. *)
Definition twoq_evict (inB amB outB : Z) (s : twoQ) : option (eref K) * twoQ :=
  let fromIn e := (Some e, leaveIn outB s e) in
  let fromAm e := (Some e, leaveAm s e) in
  match head (a1in s), last (am s) with
  | Some x, Some y =>
      if bool_decide (inB < Z.of_nat (length (a1in s))) then fromIn x
      else if bool_decide (amB < Z.of_nat (length (am s))) then fromAm y
      else fromIn x
  | Some x, None => fromIn x
  | None, Some y => fromAm y
  | None, None => (None, s)
  end.

Definition twoq_spec (inB amB outB : Z) (s : twoQ) (o : pop K) : twoQ :=
  match o with
  | PInsert e =>
      if decide (e.2 ∈ a1out s) then TwoQState (a1in s) (e :: am s) (without e.2 (a1out s))
      else TwoQState (a1in s ++ [e]) (am s) (a1out s)
  | PAccess e | PUpdate e =>
      if decide (e ∈ am s) then TwoQState (a1in s) (e :: without e (am s)) (a1out s) else s
  | PRemove e => TwoQState (without e (a1in s)) (without e (am s)) (a1out s)
  | PEvict => (twoq_evict inB amB outB s).2
  | PReset => TwoQState [] [] []
  end.

(** What the pointers hold. *)
Definition tq_view p : twoQ := TwoQState (du_ents (tq_q p) false) (du_ents (tq_q p) true) (gh_keys (tq_out p)).

Definition lists_of (s : twoQ) : bool → list (eref K) := λ b, if b then am s else a1in s.

Record tq_ok p (s : twoQ) (lx : list (eref K)) (S : gset (eref K)) : Prop := TqOk {
  to_q : du_is (tq_q p) (lists_of s) lx S;
  to_out : gh_is (tq_out p) (a1out s);
  to_budget : Z.of_nat (length (a1out s)) <= tq_outBudget p
}.

Definition tq_tracks p (S : gset (eref K)) : Prop := ∃ s, tq_ok p s [] S.

Lemma tq_ok_view p s lx S : tq_ok p s lx S → tq_view p = s.
Proof.
  intros [H1 H2 _]. unfold tq_view. rewrite !(du_is_ents _ _ _ _ _ H1) (gh_is_keys _ _ H2). by destruct s.
Qed.

Lemma split_out budget : 0 <= (twoQSplitBudget budget).2.
Proof. unfold twoQSplitBudget. case_bool_decide; cbn; lia. Qed.

Lemma remember_length outB ks k :
  0 <= outB → Z.of_nat (length ks) <= outB → Z.of_nat (length (remember outB ks k)) <= outB.
Proof. intros. unfold remember. case_decide; [done|]. rewrite length_drop. lia. Qed.

Lemma tq_recordGhost_ok p s lx S k :
  tq_ok p s lx S → tq_ok (tq_recordGhost p k) (TwoQState (a1in s) (am s) (remember (tq_outBudget p) (a1out s) k)) lx S ∧
    tq_q (tq_recordGhost p k) = tq_q p.
Proof.
  intros [H1 H2 H3]. unfold tq_recordGhost, remember. pose proof (gh_is_mem _ _ k H2) as Hm.
  destruct (gh_set (tq_out p) !! k) eqn:Hk.
  - rewrite decide_True; [|by apply Hm]. by destruct s.
  - rewrite decide_False; [|intros Hin%Hm; by destruct Hin]. split; [|done].
    assert (k ∉ a1out s) as Hnk by (intros Hin%Hm; by destruct Hin).
    constructor; [done| |].
    + apply gh_is_trimHead; [by apply gh_is_pushTail|]. lia.
    + cbn. rewrite length_drop. lia.
Qed.

Lemma tq_take_ok p s S b e n :
  tq_ok p s [] S → e ∈ lists_of s b → du_at (tq_q p) e n →
  ∃ p', tq_take p b n = (Some e, p') ∧ du_at (tq_q p') e n ∧
    tq_ok p' (if b then leaveAm s e else leaveIn (tq_outBudget p) s e) [e] S.
Proof.
  intros [H1 H2 H3] He Hat. pose proof (du_is_unlink _ _ _ _ _ _ H1 He Hat) as Hu. unfold tq_take.
  destruct Hat as [Hd Hn]. cbn. rewrite Hn. eexists. split; [done|].
  assert (tq_ok (tq_with p (du_unlink (tq_q p) b n))
    (if b then leaveAm s e else TwoQState (without e (a1in s)) (am s) (a1out s)) [e] S) as HP.
  { constructor; [|by destruct b|by destruct b]. eapply du_is_ext; [|exact Hu]. by destruct b; intros []. }
  destruct b; [done|]. destruct (tq_recordGhost_ok _ _ _ _ e.2 HP) as [HG Hq]. rewrite Hq. done.
Qed.

Lemma tq_remove_taken p s S e n :
  tq_ok p s [e] S → du_at (tq_q p) e n → tq_ok (tq_OnRemove p e) s [] (S ∖ {[e]}).
Proof.
  intros [H1 H2 H3] Hat. unfold tq_OnRemove. rewrite (proj1 Hat).
  rewrite (du_is_unlink_loose _ _ _ _ _ _ H1 Hat). constructor; [by apply du_is_release|done..].
Qed.

Lemma tq_remove_ok p s S e :
  tq_ok p s [] S → e ∈ S →
  tq_ok (tq_OnRemove p e) (TwoQState (without e (a1in s)) (without e (am s)) (a1out s)) [] (S ∖ {[e]}).
Proof.
  intros [H1 H2 H3] He. destruct (du_is_node _ _ _ _ H1 He) as [b Hb].
  destruct (du_is_at _ _ _ _ _ _ H1 Hb) as (n & Hat & HB). unfold tq_OnRemove. rewrite (proj1 Hat) HB.
  constructor; [|done..]. eapply du_is_ext; [|by apply du_is_remove].
  pose proof (du_is_apart _ _ _ _ _ _ H1 Hb) as Ha. intros b'. destruct b, b'; cbn in *; try done; by rewrite without_notin.
Qed.

Lemma tq_victim_ok p s S :
  tq_ok p s [] S →
  let '(o, p') := tq_Victim p in
  let '(o', s') := twoq_evict (tq_inBudget p) (tq_amBudget p) (tq_outBudget p) s in
  o = o' ∧
  match o with
  | Some e => e ∈ S ∧ ∃ n, du_at (tq_q p') e n ∧ tq_ok p' s' [e] S
  | None => tq_ok p' s' [] S ∧ S = ∅
  end.
Proof.
  intros HP. pose proof HP as [H1 H2 H3]. unfold tq_Victim, twoq_evict.
  pose proof (du_is_head _ _ _ _ false H1) as Hh. pose proof (du_is_tail _ _ _ _ true H1) as Ht.
  rewrite (du_is_size _ _ _ _ false H1) (du_is_size _ _ _ _ true H1). cbn in Hh, Ht |- *.
  assert (∀ b e n, e ∈ lists_of s b → du_at (tq_q p) e n → let '(o, p') := tq_take p b n in
    let '(o', s') := (Some e, if b then leaveAm s e else leaveIn (tq_outBudget p) s e) in o = o' ∧
    match o with Some e => e ∈ S ∧ ∃ n, du_at (tq_q p') e n ∧ tq_ok p' s' [e] S
    | None => tq_ok p' s' [] S ∧ S = ∅ end) as Htk.
  { intros b e n He Hat. destruct (tq_take_ok p s S b e n HP He Hat) as (p' & -> & Hat' & HP').
    split; [done|]. split; [by eapply du_is_elem|]. by exists n. }
  assert (∀ x, head (a1in s) = Some x → x ∈ a1in s) as Hx by (intros; by apply head_Some_elem_of).
  assert (∀ y, last (am s) = Some y → y ∈ am s) as Hy by (intros; by apply last_Some_elem_of).
  destruct (d_head (du_a (tq_q p))) as [n1|], (d_tail (du_b (tq_q p))) as [n2|].
  - destruct Hh as (x & Ex & Ax), Ht as (y & Ey & Ay). rewrite Ex Ey.
    pose proof (Htk false x n1 (Hx _ Ex) Ax). pose proof (Htk true y n2 (Hy _ Ey) Ay).
    repeat case_bool_decide; done.
  - destruct Hh as (x & Ex & Ax). rewrite Ex Ht. cbn. pose proof (Htk false x n1 (Hx _ Ex) Ax).
    repeat case_bool_decide; done.
  - destruct Ht as (y & Ey & Ay). rewrite Ey Hh. cbn. pose proof (Htk true y n2 (Hy _ Ey) Ay).
    repeat case_bool_decide; done.
  - rewrite Hh Ht. cbn. assert (S = ∅) as HS.
    { apply set_eq. intros e. split; [|set_solver]. intros He. destruct (du_is_node _ _ _ _ H1 He) as [[] Hb]; cbn in Hb.
      - rewrite Ht in Hb. by apply elem_of_nil in Hb.
      - rewrite Hh in Hb. by apply elem_of_nil in Hb. }
    repeat case_bool_decide; done.
Qed.

Lemma tq_insert_ok p s S e inB amB outB :
  tq_ok p s [] S → (∀ e', e' ∈ S → e'.1 ≠ e.1) →
  tq_ok (tq_OnInsert p e) (twoq_spec inB amB outB s (PInsert e)) [] ({[e]} ∪ S).
Proof.
  intros [H1 H2 H3] Hid. destruct (du_is_alloc _ _ _ _ H1 Hid) as [HA Hat]. unfold tq_OnInsert. cbn [tq_out tq_with].
  pose proof (gh_is_mem _ _ e.2 H2) as Hm. cbn [twoq_spec]. destruct (gh_set (tq_out p) !! e.2) as [g|] eqn:Hg.
  - rewrite decide_True; [|by apply Hm]. constructor; [|by apply gh_is_unlink|].
    + eapply du_is_ext; [|by apply du_is_pushHead]. by intros [].
    + cbn. unfold without. pose proof (length_filter (λ y, y ≠ e.2) (a1out s)). lia.
  - rewrite decide_False; [|intros Hin%Hm; by destruct Hin]. constructor; [|done..].
    eapply du_is_ext; [|by apply du_is_pushTail]. by intros [].
Qed.

Lemma tq_access_ok p s S e inB amB outB :
  tq_ok p s [] S → e ∈ S → tq_ok (tq_OnAccess p e) (twoq_spec inB amB outB s (PAccess e)) [] S.
Proof.
  intros HP He. pose proof HP as [H1 H2 H3]. destruct (du_is_node _ _ _ _ H1 He) as [b Hb].
  destruct (du_is_at _ _ _ _ _ _ H1 Hb) as (n & Hat & HB). unfold tq_OnAccess. rewrite (proj1 Hat) HB. cbn [twoq_spec].
  pose proof (du_is_apart _ _ _ _ _ _ H1 Hb) as Ha. destruct b; cbn in Ha, Hb |- *; [|by rewrite decide_False].
  destruct (decide (e ∈ am s)) as [_|]; [|done]. destruct (decide _) as [Hh|Hh].
  - pose proof (du_is_head _ _ _ _ true H1) as Hd. cbn in Hd. rewrite Hh in Hd. destruct Hd as (e' & Ee & [Hd' Hn']).
    assert (e' = e) as -> by (destruct Hat; congruence).
    pose proof (du_is_nodup _ _ _ _ true H1) as Hn. cbn in Hn, Ee. destruct s as [l1 [|x l2] l3]; [done|].
    cbn in *. injection Ee as ->. rewrite without_cons_eq; [done|]. by apply NoDup_cons in Hn as [? _].
  - constructor; [|done..]. eapply du_is_ext; [|apply du_is_pushHead; [by eapply du_is_unlink|done]]. by intros [].
Qed.

Lemma tq_reset_ok p s S : tq_ok p s [] S → tq_ok (tq_Reset p) (TwoQState [] [] []) [] ∅.
Proof.
  intros [_ _ H3]. constructor; [|cbn|cbn in *; lia].
  - eapply du_is_ext; [|apply du_is_reset]. by intros [].
  - exists []. split; [|constructor].
    constructor; [apply rep_nil|by intros x ?%elem_of_nil|by intros x ?%elem_of_nil|]. intros k x. cbn. by rewrite lookup_empty.
Qed.

Lemma tq_evict_ok p s S :
  tq_ok p s [] S → ∃ S', tq_ok (pol_step p PEvict) (twoq_spec (tq_inBudget p) (tq_amBudget p) (tq_outBudget p) s PEvict) [] S'.
Proof.
  intros HP. pose proof (tq_victim_ok p s S HP) as Hv. cbn. change (Victim p) with (tq_Victim p).
  destruct (tq_Victim p) as [o p']. destruct (twoq_evict _ _ _ s) as [o' s']. destruct Hv as [-> Hv].
  destruct o' as [e|]; [|by exists S; apply Hv].
  destruct Hv as (He & n & Hat & HP'). exists (S ∖ {[e]}). by eapply tq_remove_taken.
Qed.

#[export] Program Instance tq_laws : PolicyLaws K twoQPolicy := { tracks := tq_tracks }.
Next Obligation. intros p S e [s HP] Hid. eexists. by apply (tq_insert_ok p s S e 0 0 0). Qed.
Next Obligation. intros p S e [s HP] He. eexists. by apply (tq_access_ok p s S e 0 0 0). Qed.
Next Obligation. intros p S e [s HP] He. eexists. by apply (tq_access_ok p s S e 0 0 0). Qed.
Next Obligation. intros p S e [s HP] He. eexists. by apply tq_remove_ok. Qed.
Next Obligation.
  intros p S [s HP]. pose proof (tq_victim_ok p s S HP) as Hv. change (Victim p) with (tq_Victim p).
  destruct (tq_Victim p) as [o p']. destruct (twoq_evict _ _ _ s) as [o' s']. destruct Hv as [-> Hv].
  destruct o' as [e|]; cbn; [|exists s'; apply Hv].
  destruct Hv as (He & n & Hat & HP'). split; [done|]. exists s'. by eapply tq_remove_taken.
Qed.
Next Obligation. done. Qed.
Next Obligation.
  intros p S b [s HP] Hs. unfold shedVictim. pose proof (tq_victim_ok p s S HP) as Hv. change (Victim p) with (tq_Victim p).
  destruct (tq_Victim p) as [[e|] p']; [done|]. destruct (twoq_evict _ _ _ s) as [o' s']. destruct Hv as (_ & _ & ->).
  rewrite size_empty in Hs. destruct b; lia.
Qed.
Next Obligation. intros p S [s [H1 _ _]]. symmetry. exact (du_is_total _ _ _ H1). Qed.
Next Obligation. intros p S [s HP]. eexists. by eapply tq_reset_ok. Qed.
Next Obligation.
  intros p S b [s [H1 H2 H3]]. exists (TwoQState (a1in s) (am s)
    (drop (length (a1out s) - Z.to_nat (twoQSplitBudget b).2) (a1out s))).
  change (SetBudget p b) with (tq_SetBudget p b). unfold tq_SetBudget. pose proof (split_out b) as Ho.
  destruct (twoQSplitBudget b) as [[inB amB] out]. cbn in Ho |- *. constructor; [done|by apply gh_is_trimHead|].
  cbn. rewrite length_drop. lia.
Qed.
Next Obligation.
  intros p S e _ _. change (PromotionNeeded p e) with (tq_PromotionNeeded p e).
  change (OnAccess p e) with (tq_OnAccess p e). unfold tq_PromotionNeeded, tq_OnAccess.
  destruct (nd_data _ !! e.1) as [n|]; [|done]. destruct (du_isB (tq_q p) n); [|done]. cbn.
  intros Hh%bool_decide_eq_false. destruct (decide _) as [|Hd]; [done|]. by destruct Hh.
Qed.

Lemma tq_new_ok budget : tq_ok (newTwoQ budget) (TwoQState [] [] []) [] ∅.
Proof.
  unfold newTwoQ. pose proof (split_out budget) as Ho. destruct (twoQSplitBudget budget) as [[inB amB] out].
  constructor; [|apply gh_is_empty|cbn in *; lia]. eapply du_is_ext; [|apply du_is_new]. by intros [].
Qed.

(** The budgets do not change. *)
Lemma tq_step_budgets p o :
  tq_inBudget (pol_step p o) = tq_inBudget p ∧ tq_amBudget (pol_step p o) = tq_amBudget p ∧
  tq_outBudget (pol_step p o) = tq_outBudget p.
Proof.
  assert (∀ q b n, let p' := (tq_take q b n).2 in tq_inBudget p' = tq_inBudget q ∧ tq_amBudget p' = tq_amBudget q ∧
    tq_outBudget p' = tq_outBudget q) as Ht.
  { intros q b n. unfold tq_take, tq_recordGhost. by repeat case_match. }
  assert (∀ q e, tq_inBudget (tq_OnRemove q e) = tq_inBudget q ∧ tq_amBudget (tq_OnRemove q e) = tq_amBudget q ∧
    tq_outBudget (tq_OnRemove q e) = tq_outBudget q) as Hr by (intros q e; unfold tq_OnRemove; by case_match).
  destruct o; cbn; [unfold tq_OnInsert|unfold tq_OnAccess|unfold tq_OnUpdate, tq_OnAccess|apply Hr| |done];
    try by repeat case_match.
  change (Victim p) with (tq_Victim p).
  assert (let p' := (tq_Victim p).2 in tq_inBudget p' = tq_inBudget p ∧ tq_amBudget p' = tq_amBudget p ∧
    tq_outBudget p' = tq_outBudget p) as Hv.
  { unfold tq_Victim. repeat case_match; first [apply Ht|done]. }
  destruct (tq_Victim p) as [[e|] p']; [|done]. specialize (Hr p' e). cbn in Hv.
  destruct Hr as (-> & -> & ->). done.
Qed.

(** C29: driven by any sequence of calls a shard can make, the linked code
    implements 2Q on lists: A1in is a FIFO whose entries leave a ghost key
    behind, a key that comes back while its ghost is remembered goes to the
    front of Am, accesses reorder Am only, and the victim is the oldest entry
    of A1in or the least recently used one of Am as the shares say. *)
Theorem twoq_refines budget os :
  let '(inB, amB, outB) := twoQSplitBudget budget in
  let spec := twoq_spec inB amB outB in
  calls_ok (λ s, a1in s ++ am s) spec (TwoQState [] [] []) os →
  tq_view (foldl pol_step (newTwoQ budget) os) = foldl spec (TwoQState [] [] []) os.
Proof.
  destruct (twoQSplitBudget budget) as [[inB amB] outB] eqn:HB. cbn zeta.
  assert (tq_inBudget (newTwoQ budget) = inB ∧ tq_amBudget (newTwoQ budget) = amB ∧ tq_outBudget (newTwoQ budget) = outB)
    as Hb by by rewrite /newTwoQ HB.
  pose proof (tq_new_ok budget) as HP. revert HP Hb. generalize (newTwoQ budget), (TwoQState [] [] []), (∅ : gset (eref K)).
  clear HB. induction os as [|o os IH]; intros p s S HP Hb Hok; [by eapply tq_ok_view|].
  destruct Hok as [Ho Hok]. cbn [foldl]. destruct (tq_step_budgets p o) as (B1 & B2 & B3).
  assert (∃ S', tq_ok (pol_step p o) (twoq_spec inB amB outB s o) [] S') as [S' HP'].
  { pose proof HP as [H1 _ _]. assert (∀ e, e ∈ a1in s ++ am s → e ∈ S) as Hin.
    { intros e [He|He]%elem_of_app; [by eapply (du_is_elem _ _ _ _ e false H1)|by eapply (du_is_elem _ _ _ _ e true H1)]. }
    destruct o as [e|e|e|e| |].
    - eexists. apply tq_insert_ok; [done|]. intros e' He' Heq. apply Ho. cbn. rewrite -Heq. apply list_elem_of_fmap_2.
      destruct (du_is_node _ _ _ _ H1 He') as [[] Hb']; apply elem_of_app; auto.
    - eexists. apply tq_access_ok; [done|by apply Hin].
    - eexists. by apply (tq_access_ok p s S e inB amB outB); [|apply Hin].
    - eexists. apply tq_remove_ok; [done|by apply Hin].
    - destruct Hb as (<- & <- & <-). by eapply tq_evict_ok.
    - eexists. by eapply tq_reset_ok. }
  eapply IH; [exact HP'| |done]. rewrite B1 B2 B3. done.
Qed.
End twoq.
Arguments twoQPolicy K {_ _}.

Lemma twoq_refines_witness :
  let e (n : positive) : eref Z := (n, Z.pos n) in
  tq_view (foldl pol_step (newTwoQ 3)
    [PInsert (e 1%positive); PInsert (e 2%positive); PInsert (e 3%positive); PEvict; PInsert (4%positive, 1)])
  = TwoQState [e 2%positive; e 3%positive] [(4%positive, 1)] [].
Proof.
  cbv zeta. refine (eq_trans (twoq_refines 3 _ _) _); [|reflexivity].
  vm_compute. repeat split; set_solver.
Defined.
