(* ===== verification/Arc.v ===== *)
(** * Arc: the ARC eviction policy ([arc.go])

    T1 holds entries seen once, T2 entries seen again, both in order of
    recency; B1 and B2 remember the keys evicted from them, and a hit there
    moves the target size [p] of T1.  The file shows that the linked code
    implements ARC on plain lists ([arc_refines]), that the target and the
    ghost lists stay within their bounds, and that the policy satisfies
    [PolicyLaws].

    Sizes count nodes in memory, so that arithmetic on them is exact; the
    doubling of the budget, which the user chooses, is kept at its width. *)

From S2P Require Import Prelude Dll Policy Duo.

#[local] Open Scope Z_scope.

Section arc.
Context {K : Type} `{Countable K}.

(** Queue [false] is T1, queue [true] is T2, the flag is [inT2]. *)
Record arcPolicy := Arc {
  ar_c : Z;
  ar_p : Z;
  ar_q : duo K;
  ar_b1 : ghosts K;
  ar_b2 : ghosts K;
  ar_recent : option loc
}.

Implicit Types (p : arcPolicy) (e : eref K) (n : loc).

Definition newARC (budget : Z) : arcPolicy := Arc (Z.max budget 1) 0 du_empty gh_empty gh_empty None.

Definition ar_with p (q : duo K) : arcPolicy := Arc (ar_c p) (ar_p p) q (ar_b1 p) (ar_b2 p) (ar_recent p).

(** The ghost list of a queue, and the most keys it may hold. *)
Definition ar_ghost p (b : bool) : ghosts K := if b then ar_b2 p else ar_b1 p.

Definition ar_limit p (b : bool) : Z :=
  if b then Z.max (i64 (2 * ar_c p) - du_size (ar_q p) true) 0
  else Z.max (ar_c p - du_size (ar_q p) false) 0.

Definition ar_setGhost p (b : bool) (G : ghosts K) : arcPolicy :=
  if b then Arc (ar_c p) (ar_p p) (ar_q p) (ar_b1 p) G (ar_recent p)
  else Arc (ar_c p) (ar_p p) (ar_q p) G (ar_b2 p) (ar_recent p).

Definition ar_trim p (b : bool) : arcPolicy :=
  ar_setGhost p b (gh_trimTail (Z.to_nat (gh_size (ar_ghost p b))) (ar_limit p b) (ar_ghost p b)).

Definition ar_SetBudget p (budget : Z) : arcPolicy :=
  let c := Z.max budget 1 in
  let p := Arc c (if bool_decide (c < ar_p p) then c else ar_p p) (ar_q p) (ar_b1 p) (ar_b2 p) (ar_recent p) in
  ar_trim (ar_trim p false) true.

(** How far a ghost hit on one list moves the target: the ratio of the
    lists. *)
Definition ar_delta (hit other : Z) : Z :=
  if bool_decide (0 < hit) && bool_decide (hit < other) then Z.max (other `quot` hit) 1 else 1.

Definition ar_OnInsert p e : arcPolicy :=
  let n := nd_fresh (du_nodes (ar_q p)) in
  let p := Arc (ar_c p) (ar_p p) (du_alloc (ar_q p) e) (ar_b1 p) (ar_b2 p) (Some n) in
  match gh_set (ar_b1 p) !! e.2 with
  | Some g =>
      let delta := ar_delta (gh_size (ar_b1 p)) (gh_size (ar_b2 p)) in
      Arc (ar_c p) (Z.min (ar_p p + delta) (ar_c p)) (du_pushHead (ar_q p) true n)
        (gh_unlink (ar_b1 p) g) (ar_b2 p) (ar_recent p)
  | None =>
      match gh_set (ar_b2 p) !! e.2 with
      | Some g =>
          let delta := ar_delta (gh_size (ar_b2 p)) (gh_size (ar_b1 p)) in
          Arc (ar_c p) (Z.max (ar_p p - delta) 0) (du_pushHead (ar_q p) true n)
            (ar_b1 p) (gh_unlink (ar_b2 p) g) (ar_recent p)
      | None => ar_with p (du_pushHead (ar_q p) false n)
      end
  end.

Definition ar_OnAccess p e : arcPolicy :=
  match nd_data (du_nodes (ar_q p)) !! e.1 with
  | None => p
  | Some n =>
      if negb (du_isB (ar_q p) n) then ar_with p (du_pushHead (du_unlink (ar_q p) false n) true n)
      else if decide (d_head (du_b (ar_q p)) = Some n) then p
      else ar_with p (du_pushHead (du_unlink (ar_q p) true n) true n)
  end.

Definition ar_OnUpdate p e : arcPolicy := ar_OnAccess p e.

Definition ar_OnRemove p e : arcPolicy :=
  match nd_data (du_nodes (ar_q p)) !! e.1 with
  | None => p
  | Some n =>
      let p := ar_with p (du_unlink (ar_q p) (du_isB (ar_q p) n) n) in
      Arc (ar_c p) (ar_p p) (du_release (ar_q p) n e false) (ar_b1 p) (ar_b2 p)
        (if decide (ar_recent p = Some n) then None else ar_recent p)
  end.

(** [recordB1] and [recordB2] *)
Definition ar_record p (b : bool) (key : K) : arcPolicy :=
  match gh_set (ar_ghost p b) !! key with
  | Some _ => p
  | None => ar_trim (ar_setGhost p b (gh_push dll_pushHead (ar_ghost p b) key)) b
  end.

(** [unlink(n); record(n.entry.key); return n.entry] *)
Definition ar_take p (b : bool) n : option (eref K) * arcPolicy :=
  let p := ar_with p (du_unlink (ar_q p) b n) in
  match nd_entry (du_nodes (ar_q p)) !! n with
  | Some e => (Some e, ar_record p b e.2)
  | None => (None, p)
  end.

Definition ar_Victim p : option (eref K) * arcPolicy :=
  let t1Size := du_size (ar_q p) false in
  let t2Size := du_size (ar_q p) true in
  let t1Tail := d_tail (du_a (ar_q p)) in
  let t2Tail := d_tail (du_b (ar_q p)) in
  if bool_decide (t1Size + t2Size = 0) then (None, p)
  else
    let useT1 := bool_decide (0 < t1Size) && (bool_decide (t2Size = 0) || bool_decide (ar_p p < t1Size)) in
    let useT1 :=
      if useT1 && bool_decide (t1Tail = ar_recent p) && bool_decide (t2Tail ≠ None) then false
      else if negb useT1 && bool_decide (t2Tail = ar_recent p) && bool_decide (t1Tail ≠ None) then true
      else useT1 in
    match (if useT1 then t1Tail else None) with
    | Some n => ar_take p false n
    | None =>
        match t2Tail with
        | Some n => ar_take p true n
        | None => match t1Tail with Some n => ar_take p false n | None => (None, p) end
        end
    end.

Definition ar_Len p : Z := du_size (ar_q p) false + du_size (ar_q p) true.

Definition ar_Reset p : arcPolicy :=
  Arc (ar_c p) 0 (du_reset (ar_q p) false) (Ghosts no_links ∅ dll_nil ∅ (gh_fresh (ar_b1 p)))
    (Ghosts no_links ∅ dll_nil ∅ (gh_fresh (ar_b2 p))) None.

Definition ar_Snapshot p : policyDetail :=
  PolicyDetailARC (du_size (ar_q p) false) (du_size (ar_q p) true) (gh_size (ar_b1 p)) (gh_size (ar_b2 p)) (ar_p p).

Definition ar_PromotionNeeded p e : bool := true.

#[export] Instance ar_policy : EvictionPolicy K arcPolicy := {
  OnInsert := ar_OnInsert;
  OnAccess := ar_OnAccess;
  OnUpdate := ar_OnUpdate;
  OnRemove := ar_OnRemove;
  Victim := ar_Victim;
  Len := ar_Len;
  Reset := ar_Reset;
  SetBudget := ar_SetBudget;
  Snapshot := ar_Snapshot;
  PromotionNeeded := ar_PromotionNeeded;
  shed p _ := (None, p)
}.

(** ** ARC on lists *)

(** T1 and T2 most recently used first, B1 and B2 most recently evicted
    first, the target and the entry inserted last. *)
Record arc := ArcState {
  t1 : list (eref K); t2 : list (eref K); b1 : list K; b2 : list K; target : Z; newest : option (eref K)
}.

Definition lenZ {X} (l : list X) : Z := Z.of_nat (length l).

Definition arc_remember (limit : Z) (ks : list K) (k : K) : list K :=
  if decide (k ∈ ks) then ks else take (Z.to_nat (Z.max limit 0)) (k :: ks).

Definition arc_evictT1 (c : Z) (s : arc) e : option (eref K) * arc :=
  let t := without e (t1 s) in
  (Some e, ArcState t (t2 s) (arc_remember (c - lenZ t) (b1 s) e.2) (b2 s) (target s)
             (if decide (newest s = Some e) then None else newest s)).

Definition arc_evictT2 (c : Z) (s : arc) e : option (eref K) * arc :=
  let t := without e (t2 s) in
  (Some e, ArcState (t1 s) t (b1 s) (arc_remember (i64 (2 * c) - lenZ t) (b2 s) e.2) (target s)
             (if decide (newest s = Some e) then None else newest s)).

(** REPLACE: T1 gives up its least recently used entry when it is over the
    target or T2 is empty, else T2 does; but not the entry inserted last when
    the other list has one to give. *)
Definition arc_evict (c : Z) (s : arc) : option (eref K) * arc :=
  match last (t1 s), last (t2 s) with
  | None, None => (None, s)
  | Some x, None => arc_evictT1 c s x
  | None, Some y => arc_evictT2 c s y
  | Some x, Some y =>
      if bool_decide (target s < lenZ (t1 s))
      then if decide (newest s = Some x) then arc_evictT2 c s y else arc_evictT1 c s x
      else if decide (newest s = Some y) then arc_evictT1 c s x else arc_evictT2 c s y
  end.

Definition arc_spec (c : Z) (s : arc) (o : pop K) : arc :=
  match o with
  | PInsert e =>
      if decide (e.2 ∈ b1 s) then
        ArcState (t1 s) (e :: t2 s) (without e.2 (b1 s)) (b2 s)
          (Z.min (target s + ar_delta (lenZ (b1 s)) (lenZ (b2 s))) c) (Some e)
      else if decide (e.2 ∈ b2 s) then
        ArcState (t1 s) (e :: t2 s) (b1 s) (without e.2 (b2 s))
          (Z.max (target s - ar_delta (lenZ (b2 s)) (lenZ (b1 s))) 0) (Some e)
      else ArcState (e :: t1 s) (t2 s) (b1 s) (b2 s) (target s) (Some e)
  | PAccess e | PUpdate e =>
      ArcState (without e (t1 s)) (e :: without e (t2 s)) (b1 s) (b2 s) (target s) (newest s)
  | PRemove e =>
      ArcState (without e (t1 s)) (without e (t2 s)) (b1 s) (b2 s) (target s)
        (if decide (newest s = Some e) then None else newest s)
  | PEvict => (arc_evict c s).2
  | PReset => ArcState [] [] [] [] 0 None
  end.

(** What the pointers hold. *)
Definition ar_view p : arc :=
  ArcState (du_ents (ar_q p) false) (du_ents (ar_q p) true) (gh_keys (ar_b1 p)) (gh_keys (ar_b2 p)) (ar_p p)
    (ar_recent p ≫= λ n, nd_entry (du_nodes (ar_q p)) !! n).

Definition t_of (s : arc) : bool → list (eref K) := λ b, if b then t2 s else t1 s.
Definition b_of (s : arc) : bool → list K := λ b, if b then b2 s else b1 s.

(** The most keys a ghost list ever holds. *)
Definition ghost_max (c : Z) (b : bool) : Z := if b then Z.max (i64 (2 * c)) 0 else c.

Definition same_newest p (S : gset (eref K)) (o : option (eref K)) : Prop :=
  match ar_recent p, o with
  | Some n, Some e => du_at (ar_q p) e n ∧ e ∈ S
  | None, None => True
  | _, _ => False
  end.

Record ar_ok p (s : arc) (lx : list (eref K)) (S : gset (eref K)) : Prop := ArOk {
  ao_q : du_is (ar_q p) (t_of s) lx S;
  ao_b : ∀ b, gh_is (ar_ghost p b) (b_of s b);
  ao_p : ar_p p = target s;
  ao_newest : same_newest p S (newest s);
  ao_c : 1 <= ar_c p;
  ao_target : 0 <= target s <= ar_c p;
  ao_max : ∀ b, lenZ (b_of s b) <= ghost_max (ar_c p) b
}.

Definition ar_tracks p (S : gset (eref K)) : Prop := ∃ s, ar_ok p s [] S.

Lemma ar_ok_view p s lx S : ar_ok p s lx S → ar_view p = s.
Proof.
  intros [H1 H2 H3 H4 _ _ _]. unfold ar_view. rewrite !(du_is_ents _ _ _ _ _ H1).
  rewrite (gh_is_keys _ _ (H2 false)) (gh_is_keys _ _ (H2 true)) H3. unfold same_newest in H4.
  destruct s as [? ? ? ? ? o]. cbn in *. f_equal.
  destruct (ar_recent p), o; cbn; [|done..]. by destruct H4 as [[_ ?] _].
Qed.

(** An entry is the newest one exactly when its node is [recent]. *)
Lemma newest_iff p S o e n :
  same_newest p S o → du_at (ar_q p) e n → ar_recent p = Some n ↔ o = Some e.
Proof.
  unfold same_newest. intros Ho [Hd He]. destruct (ar_recent p) as [m|], o as [e'|]; try done.
  destruct Ho as [[Hd' He'] _]. split; [intros [= ->]|intros [= ->]]; congruence.
Qed.

Definition s_setGhost (s : arc) (b : bool) (ks : list K) : arc :=
  if b then ArcState (t1 s) (t2 s) (b1 s) ks (target s) (newest s)
  else ArcState (t1 s) (t2 s) ks (b2 s) (target s) (newest s).

Lemma ar_record_ok p s lx S b k :
  ar_ok p s lx S →
  ar_ok (ar_record p b k)
    (s_setGhost s b (arc_remember ((if b then i64 (2 * ar_c p) else ar_c p) - lenZ (t_of s b)) (b_of s b) k)) lx S ∧
  ar_q (ar_record p b k) = ar_q p.
Proof.
  intros HP. pose proof HP as [H1 H2 H3 H4 H5 H6 H7]. unfold ar_record, arc_remember.
  pose proof (gh_is_mem _ _ k (H2 b)) as Hm. destruct (gh_set (ar_ghost p b) !! k) as [g|] eqn:Hk.
  - rewrite decide_True; [|by apply Hm]. split; [|done]. by destruct b, s.
  - assert (k ∉ b_of s b) as Hnk by (intros Hin%Hm; by destruct Hin). rewrite decide_False //.
    set (lim := (if b then i64 (2 * ar_c p) else ar_c p) - lenZ (t_of s b)).
    pose proof (gh_is_pushHead _ _ _ (H2 b) Hnk) as HG.
    assert (∀ q, ar_q q = ar_q p → ar_c q = ar_c p → ar_limit q b = Z.max lim 0) as Hlim.
    { intros q E1 E2. unfold ar_limit. rewrite E1 E2 !(du_is_size _ _ _ _ _ H1). by destruct b. }
    pose proof (gh_is_trimTail _ _ (Z.max lim 0) HG ltac:(lia)) as HT. split; [|by destruct b].
    assert (ar_limit (ar_setGhost p b (gh_push dll_pushHead (ar_ghost p b) k)) b = Z.max lim 0) as Hl
      by (apply Hlim; by destruct b).
    unfold ar_trim. rewrite Hl.
    assert (lenZ (take (Z.to_nat (Z.max lim 0)) (k :: b_of s b)) <= ghost_max (ar_c p) b) as Hmx.
    { unfold lenZ. rewrite length_take. subst lim. destruct b; cbn; unfold lenZ; lia. }
    specialize (H2 (negb b)) as H2'. specialize (H7 (negb b)) as H7'.
    constructor; destruct b; try done; by intros [].
Qed.

Lemma ar_take_ok p s S b e n :
  ar_ok p s [] S → e ∈ t_of s b → du_at (ar_q p) e n →
  ∃ p', ar_take p b n = (Some e, p') ∧ du_at (ar_q p') e n ∧ ar_c p' = ar_c p ∧
    let s' := if b then (arc_evictT2 (ar_c p) s e).2 else (arc_evictT1 (ar_c p) s e).2 in
    ar_ok p' (ArcState (t1 s') (t2 s') (b1 s') (b2 s') (target s') (newest s)) [e] S.
Proof.
  intros [H1 H2 H3 H4 H5 H6 H7] He Hat. pose proof (du_is_unlink _ _ _ _ _ _ H1 He Hat) as Hu. unfold ar_take.
  pose proof Hat as [Hd Hn]. cbn. rewrite Hn. eexists. split; [done|].
  set (s1 := if b then ArcState (t1 s) (without e (t2 s)) (b1 s) (b2 s) (target s) (newest s)
             else ArcState (without e (t1 s)) (t2 s) (b1 s) (b2 s) (target s) (newest s)).
  assert (ar_ok (ar_with p (du_unlink (ar_q p) b n)) s1 [e] S) as HP.
  { constructor; [|intros b'; specialize (H2 b'); by destruct b, b'|by destruct b|by destruct b|done|by destruct b|
      intros b'; specialize (H7 b'); by destruct b, b'].
    eapply du_is_ext; [|exact Hu]. by destruct b; intros []. }
  destruct (ar_record_ok _ _ _ _ b e.2 HP) as [HG Hq]. rewrite Hq. split; [done|]. split.
  - unfold ar_record. destruct (gh_set _ !! _); by destruct b.
  - by destruct b.
Qed.

(** What [OnRemove] leaves of the state. *)
Definition s_forget (s : arc) e : arc :=
  ArcState (t1 s) (t2 s) (b1 s) (b2 s) (target s) (if decide (newest s = Some e) then None else newest s).

Lemma ar_forget_ok p s S e n :
  ar_ok p s [e] S → du_at (ar_q p) e n →
  ar_ok (Arc (ar_c p) (ar_p p) (du_release (ar_q p) n e false) (ar_b1 p) (ar_b2 p)
    (if decide (ar_recent p = Some n) then None else ar_recent p)) (s_forget s e) [] (S ∖ {[e]}).
Proof.
  intros [H1 H2 H3 H4 H5 H6 H7] Hat. pose proof (newest_iff _ _ _ _ _ H4 Hat) as Hnew.
  constructor; [by apply du_is_release|intros b; specialize (H2 b); by destruct b|done| |done|done|
    intros b; specialize (H7 b); by destruct b].
  unfold same_newest in *. cbn. destruct (decide (ar_recent p = Some n)) as [Hr|Hr].
  - by rewrite decide_True; [|apply Hnew].
  - rewrite decide_False; [|by rewrite -Hnew]. destruct (ar_recent p) as [m|]; [|done].
    destruct (newest s) as [e'|]; [|done]. destruct H4 as [[Hd' He'] HeS].
    assert (e' ≠ e) as Hne. { intros ->. apply Hr. f_equal. destruct Hat. congruence. }
    split; [|set_solver]. assert (e'.1 ≠ e.1).
    { intros Heq. destruct Hat as [Hd He]. rewrite Heq Hd in Hd'. congruence. }
    split; cbn; [by rewrite lookup_delete_ne|]. rewrite lookup_delete_ne //. intros ->. destruct Hat. congruence.
Qed.

Lemma ar_remove_taken p s S e n :
  ar_ok p s [e] S → du_at (ar_q p) e n → ar_ok (ar_OnRemove p e) (s_forget s e) [] (S ∖ {[e]}).
Proof.
  intros HP Hat. unfold ar_OnRemove. rewrite (proj1 Hat).
  rewrite (du_is_unlink_loose _ _ _ _ _ _ (ao_q _ _ _ _ HP) Hat). exact (ar_forget_ok p s S e n HP Hat).
Qed.

Lemma ar_remove_ok p s S e :
  ar_ok p s [] S → e ∈ S → ar_ok (ar_OnRemove p e) (arc_spec (ar_c p) s (PRemove e)) [] (S ∖ {[e]}).
Proof.
  intros HP He. pose proof HP as [H1 H2 H3 H4 H5 H6 H7]. destruct (du_is_node _ _ _ _ H1 He) as [b Hb].
  destruct (du_is_at _ _ _ _ _ _ H1 Hb) as (n & Hat & HB). unfold ar_OnRemove. rewrite (proj1 Hat) HB.
  set (s1 := ArcState (without e (t1 s)) (without e (t2 s)) (b1 s) (b2 s) (target s) (newest s)).
  apply (ar_forget_ok (ar_with p (du_unlink (ar_q p) b n)) s1); [|done].
  constructor; [|intros []; [exact (H2 true)|exact (H2 false)]|done|done|done|done|
    intros []; [exact (H7 true)|exact (H7 false)]].
  eapply du_is_ext; [|by eapply du_is_unlink]. pose proof (du_is_apart _ _ _ _ _ _ H1 Hb) as Ha.
  intros b'. destruct b, b'; cbn in *; try done; by rewrite without_notin.
Qed.

Lemma arc_evict_forget c (s : arc) e (b : bool) :
  let s' := if b then (arc_evictT2 c s e).2 else (arc_evictT1 c s e).2 in
  s_forget (ArcState (t1 s') (t2 s') (b1 s') (b2 s') (target s') (newest s)) e = s'.
Proof. by destruct b. Qed.

Lemma ar_victim_ok p s S :
  ar_ok p s [] S →
  let '(o, p') := ar_Victim p in
  let '(o', s') := arc_evict (ar_c p) s in
  o = o' ∧
  match o with
  | Some e => e ∈ S ∧ ar_ok (ar_OnRemove p' e) s' [] (S ∖ {[e]})
  | None => p' = p ∧ s' = s ∧ S = ∅
  end.
Proof.
  intros HP. pose proof HP as [H1 H2 H3 H4 H5 H6 H7]. unfold ar_Victim, arc_evict.
  pose proof (du_is_tail _ _ _ _ false H1) as Ha. pose proof (du_is_tail _ _ _ _ true H1) as Hb.
  rewrite (du_is_size _ _ _ _ false H1) (du_is_size _ _ _ _ true H1) H3. cbn in Ha, Hb |- *.
  assert (∀ b e n, e ∈ t_of s b → du_at (ar_q p) e n → let '(o, p') := ar_take p b n in
    let '(o', s') := if b then arc_evictT2 (ar_c p) s e else arc_evictT1 (ar_c p) s e in o = o' ∧
    match o with Some e => e ∈ S ∧ ar_ok (ar_OnRemove p' e) s' [] (S ∖ {[e]})
    | None => p' = p ∧ s' = s ∧ S = ∅ end) as Htk.
  { intros b e n He Hat. destruct (ar_take_ok p s S b e n HP He Hat) as (p' & -> & Hat' & _ & HP').
    pose proof (ar_remove_taken _ _ _ _ _ HP' Hat') as Hr. rewrite arc_evict_forget in Hr.
    assert (e ∈ S) by by eapply du_is_elem. by destruct b. }
  destruct (d_tail (du_a (ar_q p))) as [n1|] eqn:E1, (d_tail (du_b (ar_q p))) as [n2|] eqn:E2.
  - destruct Ha as (x & Ex & Ax), Hb as (y & Ey & Ay). rewrite Ex Ey.
    pose proof (Htk false x n1 (last_Some_elem_of _ _ Ex) Ax) as T1.
    pose proof (Htk true y n2 (last_Some_elem_of _ _ Ey) Ay) as T2.
    pose proof (newest_iff _ _ _ _ _ H4 Ax) as Nx. pose proof (newest_iff _ _ _ _ _ H4 Ay) as Ny.
    assert (t1 s ≠ [] ∧ t2 s ≠ []) as [L1 L2] by (split; intros E; rewrite E in Ex, Ey; done).
    destruct (t1 s) as [|z l1]; [done|]. destruct (t2 s) as [|z' l2]; [done|]. cbn [length].
    rewrite (bool_decide_false (_ + _ = 0)); [|lia]. rewrite (bool_decide_true (0 < _)); [|lia].
    rewrite (bool_decide_false (Z.of_nat (Datatypes.S (length l2)) = 0)); [|lia]. cbn [andb orb].
    unfold lenZ. cbn [length]. destruct (bool_decide (target s < _)); cbn [andb negb].
    + rewrite (bool_decide_ext (Some n1 = ar_recent p) (newest s = Some x)); [|rewrite -Nx; naive_solver].
      rewrite (bool_decide_true (Some n2 ≠ None)) //. case_bool_decide as Hc; cbn [andb negb]; [rewrite decide_True; [exact T2|done]|rewrite decide_False; [exact T1|done]].
    + rewrite (bool_decide_ext (Some n2 = ar_recent p) (newest s = Some y)); [|rewrite -Ny; naive_solver].
      rewrite (bool_decide_true (Some n1 ≠ None)) //. case_bool_decide as Hc; cbn [andb negb]; [rewrite decide_True; [exact T1|done]|rewrite decide_False; [exact T2|done]].
  - destruct Ha as (x & Ex & Ax). rewrite Ex Hb. pose proof (Htk false x n1 (last_Some_elem_of _ _ Ex) Ax) as T1.
    destruct (t1 s) as [|z l1]; [done|]. cbn [length].
    rewrite (bool_decide_false (_ + _ = 0)); [|lia]. rewrite (bool_decide_true (0 < _)); [|lia].
    rewrite (bool_decide_true (Z.of_nat 0 = 0)) // (bool_decide_false (@None loc ≠ None)); [|by intros []].
    rewrite andb_false_r. exact T1.
  - destruct Hb as (y & Ey & Ay). rewrite Ey Ha. pose proof (Htk true y n2 (last_Some_elem_of _ _ Ey) Ay) as T2.
    destruct (t2 s) as [|z l2]; [done|]. cbn [length].
    rewrite (bool_decide_false (_ + _ = 0)); [|lia]. rewrite (bool_decide_false (0 < Z.of_nat 0)); [|lia].
    rewrite (bool_decide_false (@None loc ≠ None)); [|by intros []].
    rewrite andb_false_r. exact T2.
  - rewrite Ha Hb. cbn. split; [done|]. split; [done|]. split; [done|].
    apply set_eq. intros e. split; [|set_solver]. intros He. destruct (du_is_node _ _ _ _ H1 He) as [[] Hin]; cbn in Hin.
    + rewrite Hb in Hin. by apply elem_of_nil in Hin.
    + rewrite Ha in Hin. by apply elem_of_nil in Hin.
Qed.

Lemma ar_delta_pos x y : 1 <= ar_delta x y.
Proof. unfold ar_delta. destruct (_ && _); lia. Qed.

Lemma ar_insert_ok p s S e :
  ar_ok p s [] S → (∀ e', e' ∈ S → e'.1 ≠ e.1) →
  ar_ok (ar_OnInsert p e) (arc_spec (ar_c p) s (PInsert e)) [] ({[e]} ∪ S).
Proof.
  intros [H1 H2 H3 H4 H5 H6 H7] Hid. destruct (du_is_alloc _ _ _ _ H1 Hid) as [HA Hat]. unfold ar_OnInsert.
  cbn [ar_b1 ar_b2 ar_q ar_c ar_p ar_recent]. set (n := nd_fresh (du_nodes (ar_q p))) in *.
  pose proof (gh_is_mem _ _ e.2 (H2 false)) as M1. pose proof (gh_is_mem _ _ e.2 (H2 true)) as M2. cbn in M1, M2.
  assert (∀ b f', (∀ b', f' b' = setl (t_of s) b (e :: t_of s b) b') →
    du_is (du_pushHead (du_alloc (ar_q p) e) b n) f' [] ({[e]} ∪ S)) as Hpush.
  { intros b f' Hf. eapply du_is_ext; [exact Hf|]. by apply du_is_pushHead. }
  assert (∀ b, du_at (du_pushHead (du_alloc (ar_q p) e) b n) e n ∧ e ∈ ({[e]} ∪ S : gset (eref K))) as Hnew by (split; [done|set_solver]).
  pose proof (gh_is_size _ _ (H2 false)) as Z1. pose proof (gh_is_size _ _ (H2 true)) as Z2. cbn in Z1, Z2.
  assert (∀ (ks : list K), lenZ (without e.2 ks) <= lenZ ks) as Hw.
  { intros ks. unfold lenZ, without. pose proof (length_filter (λ y, y ≠ e.2) ks). lia. }
  cbn [arc_spec]. destruct (gh_set (ar_b1 p) !! e.2) as [g|] eqn:G1.
  - rewrite decide_True; [|by apply M1]. rewrite Z1 Z2 H3. pose proof (ar_delta_pos (lenZ (b1 s)) (lenZ (b2 s))).
    constructor; [by apply Hpush; intros []| |done|apply Hnew|done|unfold lenZ in *; cbn; lia|].
    + intros []; [exact (H2 true)|]. by apply (gh_is_unlink _ _ _ _ (H2 false)).
    + intros []; [exact (H7 true)|]. etrans; [apply Hw|exact (H7 false)].
  - rewrite decide_False; [|intros Hin%M1; by destruct Hin]. destruct (gh_set (ar_b2 p) !! e.2) as [g|] eqn:G2.
    + rewrite decide_True; [|by apply M2]. rewrite Z1 Z2 H3. pose proof (ar_delta_pos (lenZ (b2 s)) (lenZ (b1 s))).
      constructor; [by apply Hpush; intros []| |done|apply Hnew|done|unfold lenZ in *; cbn; lia|].
      * intros []; [|exact (H2 false)]. by apply (gh_is_unlink _ _ _ _ (H2 true)).
      * intros []; [|exact (H7 false)]. etrans; [apply Hw|exact (H7 true)].
    + rewrite decide_False; [|intros Hin%M2; by destruct Hin].
      constructor; [by apply Hpush; intros []|intros []; [exact (H2 true)|exact (H2 false)]|done|apply Hnew|done|done|
        intros []; [exact (H7 true)|exact (H7 false)]].
Qed.

Lemma ar_access_ok p s S e :
  ar_ok p s [] S → e ∈ S → ar_ok (ar_OnAccess p e) (arc_spec (ar_c p) s (PAccess e)) [] S.
Proof.
  intros HP He. pose proof HP as [H1 H2 H3 H4 H5 H6 H7]. destruct (du_is_node _ _ _ _ H1 He) as [b Hb].
  destruct (du_is_at _ _ _ _ _ _ H1 Hb) as (n & Hat & HB). unfold ar_OnAccess. rewrite (proj1 Hat) HB. cbn [arc_spec].
  pose proof (du_is_apart _ _ _ _ _ _ H1 Hb) as Ha.
  assert (ar_ok (ar_with p (du_pushHead (du_unlink (ar_q p) b n) true n))
    (ArcState (without e (t1 s)) (e :: without e (t2 s)) (b1 s) (b2 s) (target s) (newest s)) [] S) as Hmv.
  { constructor; [|intros []; [exact (H2 true)|exact (H2 false)]|done|done|done|done|
    intros []; [exact (H7 true)|exact (H7 false)]].
    eapply du_is_ext; [|apply du_is_pushHead; [by eapply du_is_unlink|done]].
    intros b'. destruct b, b'; cbn in *; try done; by rewrite without_notin. }
  destruct b; cbn [negb]; [|done]. destruct (decide _) as [Hh|Hh]; [|done].
  pose proof (du_is_head _ _ _ _ true H1) as Hd. cbn in Hd. rewrite Hh in Hd. destruct Hd as (e' & Ee & [Hd' Hn']).
  assert (e' = e) as -> by (destruct Hat; congruence).
  pose proof (du_is_nodup _ _ _ _ true H1) as Hn. cbn in Hn, Ee, Ha. destruct s as [l1 [|x l2] l3 l4 t o]; [done|].
  cbn in *. injection Ee as ->. rewrite without_cons_eq; [|by apply NoDup_cons in Hn as [? _]]. by rewrite without_notin.
Qed.

Lemma ar_reset_ok p s S : ar_ok p s [] S → ar_ok (ar_Reset p) (ArcState [] [] [] [] 0 None) [] ∅.
Proof.
  intros [_ _ _ _ H5 _ _]. constructor; [eapply du_is_ext; [|apply du_is_reset]; by intros []| |done|done|done|cbn; lia|].
  - assert (∀ x : loc, gh_is (Ghosts (K := K) no_links ∅ dll_nil ∅ x) []) as Hg; [|intros []; apply Hg].
    intros x. exists []. split; [|constructor]. constructor; [apply rep_nil|by intros y ?%elem_of_nil|by intros y ?%elem_of_nil|].
    intros k y. cbn. by rewrite lookup_empty.
  - intros []; unfold lenZ, ghost_max; cbn [b_of b1 b2 length ar_c ar_Reset]; lia.
Qed.

Lemma ar_new_ok budget : ar_ok (newARC budget) (ArcState [] [] [] [] 0 None) [] ∅.
Proof.
  constructor; [eapply du_is_ext; [|apply du_is_new]; by intros []|intros []; apply gh_is_empty|done|done|cbn; lia|cbn; lia|].
  intros []; unfold lenZ, ghost_max; cbn [b_of b1 b2 length ar_c newARC]; lia.
Qed.

Lemma ar_budget_ok p s S budget : ar_ok p s [] S → ar_tracks (ar_SetBudget p budget) S.
Proof.
  intros [H1 H2 H3 H4 H5 H6 H7]. unfold ar_SetBudget. set (c := Z.max budget 1).
  set (l1 := Z.max (c - lenZ (t1 s)) 0). set (l2 := Z.max (i64 (2 * c) - lenZ (t2 s)) 0).
  exists (ArcState (t1 s) (t2 s) (take (Z.to_nat l1) (b1 s)) (take (Z.to_nat l2) (b2 s))
    (if bool_decide (c < target s) then c else target s) (newest s)).
  pose proof (gh_is_trimTail _ _ l1 (H2 false) ltac:(lia)) as G1. pose proof (gh_is_trimTail _ _ l2 (H2 true) ltac:(lia)) as G2.
  unfold ar_trim, ar_setGhost, ar_limit, ar_ghost. cbn [ar_q ar_b1 ar_b2 ar_c ar_p ar_recent].
  rewrite !(du_is_size _ _ _ _ _ H1) H3.
  constructor; [exact H1|by intros []|done|exact H4|cbn; lia|cbn; case_bool_decide; lia|].
  subst l1 l2. intros []; unfold lenZ, ghost_max; cbn [b_of b1 b2 ar_c]; rewrite length_take; lia.
Qed.

#[export] Program Instance ar_laws : PolicyLaws K arcPolicy := { tracks := ar_tracks }.
Next Obligation. intros p S e [s HP] Hid. eexists. by apply ar_insert_ok. Qed.
Next Obligation. intros p S e [s HP] He. eexists. by apply ar_access_ok. Qed.
Next Obligation. intros p S e [s HP] He. eexists. by apply ar_access_ok. Qed.
Next Obligation. intros p S e [s HP] He. eexists. by apply ar_remove_ok. Qed.
Next Obligation.
  intros p S [s HP]. pose proof (ar_victim_ok p s S HP) as Hv. change (Victim p) with (ar_Victim p).
  destruct (ar_Victim p) as [o p']. destruct (arc_evict _ s) as [o' s']. destruct Hv as [-> Hv].
  destruct o' as [e|]; cbn; [|destruct Hv as (-> & _); by exists s].
  destruct Hv as (He & HP'). split; [done|]. by exists s'.
Qed.
Next Obligation. done. Qed.
Next Obligation.
  intros p S b [s HP] Hs. unfold shedVictim. pose proof (ar_victim_ok p s S HP) as Hv. change (Victim p) with (ar_Victim p).
  destruct (ar_Victim p) as [[e|] p']; [done|]. destruct (arc_evict _ s) as [o' s']. destruct Hv as (_ & _ & _ & ->).
  rewrite size_empty in Hs. destruct b; lia.
Qed.
Next Obligation. intros p S [s HP]. symmetry. exact (du_is_total _ _ _ (ao_q _ _ _ _ HP)). Qed.
Next Obligation. intros p S [s HP]. eexists. by eapply ar_reset_ok. Qed.
Next Obligation. intros p S b [s HP]. by eapply ar_budget_ok. Qed.
Next Obligation. done. Qed.

Lemma ar_victim_c p : ar_c (ar_Victim p).2 = ar_c p.
Proof.
  assert (∀ b n, ar_c (ar_take p b n).2 = ar_c p) as Ht.
  { intros b n. unfold ar_take, ar_record, ar_trim, ar_setGhost. by repeat case_match. }
  unfold ar_Victim. repeat case_match; first [apply Ht|done].
Qed.

(** Every call a shard makes is a step of ARC on lists. *)
Lemma ar_step_ok p s S o :
  ar_ok p s [] S → pop_ok (t1 s ++ t2 s) o →
  ar_c (pol_step p o) = ar_c p ∧ ∃ S', ar_ok (pol_step p o) (arc_spec (ar_c p) s o) [] S'.
Proof.
  intros HP Ho. pose proof (ao_q _ _ _ _ HP) as H1.
  assert (∀ e, e ∈ t1 s ++ t2 s → e ∈ S) as Hin.
  { intros e [He|He]%elem_of_app; [by eapply (du_is_elem _ _ _ _ e false H1)|by eapply (du_is_elem _ _ _ _ e true H1)]. }
  assert (∀ q e, ar_c (ar_OnRemove q e) = ar_c q) as Hc by (intros q e; unfold ar_OnRemove; by case_match).
  destruct o as [e|e|e|e| |].
  - split; [cbn; unfold ar_OnInsert; by repeat case_match|]. eexists. apply ar_insert_ok; [done|].
    intros e' He' Heq. apply Ho. cbn. rewrite -Heq. apply list_elem_of_fmap_2.
    destruct (du_is_node _ _ _ _ H1 He') as [[] Hb']; apply elem_of_app; auto.
  - split; [cbn; unfold ar_OnAccess; by repeat case_match|]. eexists. apply ar_access_ok; [done|by apply Hin].
  - split; [cbn; unfold ar_OnUpdate, ar_OnAccess; by repeat case_match|]. eexists.
    by apply (ar_access_ok p s S e); [|apply Hin].
  - split; [apply Hc|]. eexists. apply ar_remove_ok; [done|by apply Hin].
  - pose proof (ar_victim_ok p s S HP) as Hv. pose proof (ar_victim_c p) as Hvc. cbn [pol_step arc_spec].
    change (Victim p) with (ar_Victim p). destruct (ar_Victim p) as [o p']. destruct (arc_evict _ s) as [o' s'].
    destruct Hv as [-> Hv]. destruct o' as [e|]; [split; [cbn; by rewrite Hc|eexists; apply Hv]|].
    destruct Hv as (-> & -> & _). split; [done|]. by exists S.
  - split; [done|]. eexists. by eapply ar_reset_ok.
Qed.

(** C30: driven by any sequence of calls a shard can make, the linked code
    implements ARC on lists: T1 and T2 in order of recency, ghost hits on B1
    and B2 that move the target, REPLACE for the victim.  The target stays
    between 0 and the capacity [c], B1 holds at most [c] keys and B2 at most
    [2c]. *)
Theorem arc_refines budget os :
  let c := Z.max budget 1 in
  let s0 := ArcState [] [] [] [] 0 None in
  calls_ok (λ s, t1 s ++ t2 s) (arc_spec c) s0 os → c <= 2 ^ 61 →
  let s := foldl (arc_spec c) s0 os in
  ar_view (foldl pol_step (newARC budget) os) = s ∧
  0 <= target s <= c ∧ lenZ (b1 s) <= c ∧ lenZ (b2 s) <= 2 * c.
Proof.
  cbv zeta. set (c := Z.max budget 1). intros Hok Hc.
  pose proof (ar_new_ok budget) as HP. assert (ar_c (newARC budget) = c) as Ec by done.
  revert HP Ec Hok. generalize (newARC budget), (ArcState [] [] [] [] 0 None), (∅ : gset (eref K)).
  assert (1 <= c) as Hc1 by (subst c; lia). clearbody c.
  induction os as [|o os IH]; intros p s S HP Ec Hok; cbn [foldl].
  - split; [by eapply ar_ok_view|]. destruct HP as [_ _ _ _ _ H6 H7]. rewrite Ec in H6, H7.
    pose proof (H7 false) as B1. pose proof (H7 true) as B2. cbn in B1. unfold ghost_max in B2. cbn [b_of] in B2.
    rewrite i64_id in B2; [|unfold is_i64; lia]. split_and!; [lia|lia|done|lia].
  - destruct Hok as [Ho Hok]. destruct (ar_step_ok p s S o HP Ho) as [Ec' [S' HP']].
    rewrite Ec in Ec', HP'. by eapply IH.
Qed.

(** ** The entry inserted last *)

(** [e] is at the front of its list and the newest entry. *)
Definition arc_front (s : arc) e : Prop :=
  newest s = Some e ∧ ((head (t1 s) = Some e ∧ e ∉ t2 s) ∨ (head (t2 s) = Some e ∧ e ∉ t1 s)).

Lemma without_head_last {X} `{EqDecision X} (l : list X) x y :
  head l = Some x → last l = Some y → x ≠ y → head (without y l) = Some x.
Proof.
  destruct l as [|z l]; [done|]. cbn. intros [= ->] _ Hne. unfold without. by rewrite filter_cons_True.
Qed.

Lemma single_last {X} (l : list X) x : NoDup l → head l = Some x → last l = Some x → l = [x].
Proof.
  destruct l as [|z [|z' l]]; [done|by intros _ [= ->]|]. intros [Hz _]%NoDup_cons [= ->] Hl.
  destruct Hz. change (last (x :: z' :: l)) with (last (z' :: l)) in Hl. by apply last_Some_elem_of in Hl.
Qed.

(** Another entry is evicted while there is one. *)
Lemma arc_evict_front c s e :
  NoDup (t1 s) → NoDup (t2 s) → arc_front s e → (2 ≤ length (t1 s) + length (t2 s))%nat →
  ∃ v, (arc_evict c s).1 = Some v ∧ v ≠ e ∧ arc_front (arc_evict c s).2 e.
Proof.
  intros N1 N2 [Hn Hf] Hlen. unfold arc_evict.
  assert (∀ x, last (t1 s) = Some x → x ≠ e → arc_front (arc_evictT1 c s x).2 e) as F1.
  { intros x Hx Hne. split; cbn; [by rewrite decide_False; [|congruence]|].
    destruct Hf as [[Hh Hnot]|[Hh Hnot]]; [left|right]; (split; [|by rewrite ?elem_of_without; try tauto]); [|done].
    by eapply without_head_last. }
  assert (∀ y, last (t2 s) = Some y → y ≠ e → arc_front (arc_evictT2 c s y).2 e) as F2.
  { intros y Hy Hne. split; cbn; [by rewrite decide_False; [|congruence]|].
    destruct Hf as [[Hh Hnot]|[Hh Hnot]]; [left|right]; (split; [|by rewrite ?elem_of_without; try tauto]); [done|].
    by eapply without_head_last. }
  assert (∀ x, last (t1 s) = Some x → x ∈ t1 s) as I1 by (intros; by apply last_Some_elem_of).
  assert (∀ y, last (t2 s) = Some y → y ∈ t2 s) as I2 by (intros; by apply last_Some_elem_of).
  destruct (last (t1 s)) as [x|] eqn:Ex, (last (t2 s)) as [y|] eqn:Ey.
  - assert (x = e → y ≠ e) as X1 by (intros -> ->; destruct Hf as [[? []]|[? []]]; auto).
    case_bool_decide; case_decide as Hd.
    + exists y. rewrite Hn in Hd. injection Hd as ->. split_and!; [done|auto|auto].
    + exists x. assert (x ≠ e) by congruence. split_and!; [done|auto|auto].
    + exists x. rewrite Hn in Hd. injection Hd as ->. assert (x ≠ y) by (intros ->; by apply X1). split_and!; [done|auto|auto].
    + exists y. assert (y ≠ e) by congruence. split_and!; [done|auto|auto].
  - apply last_None in Ey. exists x. assert (x ≠ e) as Hne; [|split_and!; auto]. intros ->.
    destruct Hf as [[Hh _]|[Hh _]]; [|by rewrite Ey in Hh]. rewrite (single_last _ _ N1 Hh Ex) Ey in Hlen. cbn in Hlen. lia.
  - apply last_None in Ex. exists y. assert (y ≠ e) as Hne; [|split_and!; auto]. intros ->.
    destruct Hf as [[Hh _]|[Hh _]]; [by rewrite Ex in Hh|]. rewrite (single_last _ _ N2 Hh Ey) Ex in Hlen. cbn in Hlen. lia.
  - apply last_None in Ex, Ey. rewrite Ex Ey in Hlen. cbn in Hlen. lia.
Qed.

(** The entry just inserted survives the evictions that its insertion
    triggers, as long as another entry is left to evict. *)
Theorem arc_new_survives p S e (n : nat) :
  ar_tracks p S → (∀ e', e' ∈ S → e'.1 ≠ e.1) → (n ≤ size S)%nat →
  ∃ S', ar_tracks (Nat.iter n (λ p, pol_step p PEvict) (ar_OnInsert p e)) S' ∧ e ∈ S'.
Proof.
  intros [s HP] Hid Hn.
  assert (∃ s' S', ar_ok (Nat.iter n (λ p, pol_step p PEvict) (ar_OnInsert p e)) s' [] S' ∧ arc_front s' e ∧
    (size S' + n = Datatypes.S (size S))%nat) as (s' & S' & HP' & [_ Hf] & _).
  { induction n as [|n IH].
    - exists (arc_spec (ar_c p) s (PInsert e)), ({[e]} ∪ S). assert (e ∉ S) as HeS by (intros He; by apply (Hid e He)).
      split; [by apply ar_insert_ok|]. split.
      + assert (∀ b, e ∉ t_of s b) as Hnot by (intros b Hb; by apply HeS, (du_is_elem _ _ _ _ _ _ (ao_q _ _ _ _ HP) Hb)).
        pose proof (Hnot true). pose proof (Hnot false).
        cbn. repeat case_decide; (split; [done|]); cbn; [right|right|left]; done.
      + cbn. rewrite size_union; [|set_solver]. rewrite size_singleton. lia.
    - destruct IH as (s' & S' & HP' & Hf & Hsz); [lia|]. rewrite Nat.iter_succ. set (q := Nat.iter n _ _) in *.
      pose proof (ar_victim_ok q s' S' HP') as Hv. cbn [pol_step]. change (Victim q) with (ar_Victim q).
      pose proof (ao_q _ _ _ _ HP') as H1.
      destruct (arc_evict_front (ar_c q) s' e) as (v & Ev & Hne & Hf'); [exact (du_is_nodup _ _ _ _ false H1)|
        exact (du_is_nodup _ _ _ _ true H1)|done| |].
      { pose proof (du_is_total _ _ _ H1) as Ht. rewrite !(du_is_size _ _ _ _ _ H1) in Ht. cbn in Ht. lia. }
      destruct (ar_Victim q) as [o q']. destruct (arc_evict (ar_c q) s') as [o' s'']. cbn in Ev, Hf'. subst o'.
      destruct Hv as [-> [Hin HP'']]. exists s'', (S' ∖ {[v]}). split; [exact HP''|]. split; [done|].
      rewrite size_difference; [|set_solver]. rewrite size_singleton.
      assert (size S' ≠ 0)%nat by (intros E%size_empty_inv; set_solver). lia. }
  exists S'. split; [by exists s'|]. pose proof (ao_q _ _ _ _ HP') as H1.
  destruct Hf as [[Hh _]|[Hh _]]; apply head_Some_elem_of in Hh.
  - by eapply (du_is_elem _ _ _ _ e false H1).
  - by eapply (du_is_elem _ _ _ _ e true H1).
Qed.
End arc.
Arguments arcPolicy K {_ _}.

Lemma arc_refines_witness :
  let e (n : positive) : eref Z := (n, Z.pos n) in
  let os := [PInsert (e 1%positive); PInsert (e 2%positive); PInsert (e 3%positive); PEvict; PInsert (4%positive, 1)] in
  ar_view (foldl pol_step (newARC 3) os) =
    ArcState [e 3%positive; e 2%positive] [(4%positive, 1)] [] [] 1 (Some (4%positive, 1)).
Proof.
  cbv zeta. refine (eq_trans (proj1 (arc_refines 3 _ _ _)) _); [|done|vm_compute; reflexivity].
  vm_compute. repeat split; set_solver.
Defined.

(** Two entries. *)
Definition arc_two : arcPolicy Z := ar_OnInsert (ar_OnInsert (newARC 2) (1%positive, 10)) (2%positive, 20).

Lemma arc_two_ok : ar_tracks arc_two ({[(2%positive, 20)]} ∪ ({[(1%positive, 10)]} ∪ ∅)).
Proof.
  eexists. apply ar_insert_ok; [|set_solver]. apply ar_insert_ok; [|set_solver]. apply ar_new_ok.
Qed.

Lemma arc_new_survives_witness :
  ∃ S', ar_tracks (Nat.iter 2 (λ p, pol_step p PEvict) (ar_OnInsert arc_two (3%positive, 30))) S' ∧
    (3%positive, 30) ∈ S'.
Proof. apply (arc_new_survives _ _ _ 2 arc_two_ok); [set_solver|vm_compute; lia]. Defined.

(** ** The documented invariant *)

(** The invariant |T1| + |B1| <= c that the policy documents does not
    hold: B1 is trimmed when a key is recorded, not when T1 grows.  With a
    capacity of 2, a policy that is within its capacity holds 3. *)
Theorem arc_ghost_invariant_broken :
  let s := ar_view (foldl pol_step (newARC (K := Z) 2)
    [PInsert (1%positive, 1); PInsert (2%positive, 2); PEvict; PInsert (3%positive, 3)]) in
  lenZ (t1 s) + lenZ (t2 s) = 2 ∧ lenZ (t1 s) + lenZ (b1 s) = 3.
Proof. vm_compute. done. Qed.
