(* ===== verification/Family.v ===== *)
(** * Family: many queues of nodes, by a tag

    LFU keeps one list per access count and TinyLFU one per region; the node
    says which list it is on ([freq], [region]).  [fm_is F f lx S] says that the
    list with tag [i] holds the entries [f i] in order, that the entries [lx]
    have a node on no list, and that all of them together are [S]. *)

From S2P Require Import Prelude Dll Policy Duo.

(** The lists are a map from tags to headers, an absent one being empty. *)
Record family (I K : Type) `{Countable I} := Family {
  fm_nodes : nodes K;
  fm_tag : gmap loc I;
  fm_lists : gmap I dll
}.
Arguments Family {I K _ _} _ _ _.
Arguments fm_nodes {I K _ _} _.
Arguments fm_tag {I K _ _} _.
Arguments fm_lists {I K _ _} _.

Section family.
Context {I K : Type} `{Countable I} `{Countable K}.
Implicit Types (F : family I K) (e : eref K) (n x : loc) (i j : I) (f : I → list (eref K)) (S : gset (eref K)).

Definition fm_empty : family I K := Family nodes_empty ∅ ∅.

Definition fm_links F : links := nd_links (fm_nodes F).

Definition fm_queue F i : dll := default dll_nil (fm_lists F !! i).

Definition fm_store F i (r : links * dll) : family I K :=
  Family (with_links (fm_nodes F) r.1) (fm_tag F) (<[i := r.2]> (fm_lists F)).

Definition fm_setTag F n i : family I K := Family (fm_nodes F) (<[n := i]> (fm_tag F)) (fm_lists F).

(** Forget a list: [delete(p.buckets, freq)]. *)
Definition fm_drop F i : family I K := Family (fm_nodes F) (fm_tag F) (delete i (fm_lists F)).

Definition fm_pushTail F i n : family I K :=
  let F := fm_setTag F n i in fm_store F i (dll_pushTail (fm_links F) (fm_queue F i) n).

Definition fm_pushHead F i n : family I K :=
  let F := fm_setTag F n i in fm_store F i (dll_pushHead (fm_links F) (fm_queue F i) n).

Definition fm_unlink F i n : family I K := fm_store F i (dll_unlink (fm_links F) (fm_queue F i) n).

Definition fm_alloc F e : family I K := Family (alloc (fm_nodes F) e) (fm_tag F) (fm_lists F).

Definition fm_release F n e : family I K := Family (release (fm_nodes F) n e) (fm_tag F) (fm_lists F).

Definition fm_seq F i : list loc :=
  dll_walk (fm_links F) (d_head (fm_queue F i)) (Z.to_nat (d_size (fm_queue F i))).

Definition fm_ents F i : list (eref K) := ents (fm_nodes F) (fm_seq F i).

(** [Reset] of the lists with [tags]: every node is cleared. *)
Definition fm_reset F (tags : list I) : family I K :=
  Family (foldl (λ N i, reset_nodes N (fm_seq F i)) (fm_nodes F) tags) (fm_tag F) ∅.

Definition fm_at F e n : Prop :=
  nd_data (fm_nodes F) !! e.1 = Some n ∧ nd_entry (fm_nodes F) !! n = Some e.

Definition setf {A} (f : I → A) (i : I) (a : A) : I → A := λ j, if decide (j = i) then a else f j.

(** ** What the lists hold *)

Record fm_rep F (ls : I → list loc) (lo : list loc) (l : list loc) S : Prop := FmRep {
  fr_owns : owns (fm_nodes F) l S;
  fr_list : ∀ i, dll_rep (fm_links F) (fm_queue F i) (ls i);
  fr_loose : ∀ x, x ∈ lo → detached (fm_links F) x;
  fr_tag : ∀ x i, x ∈ ls i → fm_tag F !! x = Some i;
  fr_apart : ∀ x i, x ∈ lo → x ∉ ls i;
  fr_all : ∀ x, x ∈ l ↔ x ∈ lo ∨ ∃ i, x ∈ ls i
}.

Definition fm_is F f (lx : list (eref K)) S : Prop :=
  ∃ ls lo l, fm_rep F ls lo l S ∧ (∀ i, ents (fm_nodes F) (ls i) = f i) ∧ ents (fm_nodes F) lo = lx.

Lemma setf_eq {A} (f : I → A) i a : setf f i a i = a.
Proof. unfold setf. by rewrite decide_True. Qed.

Lemma setf_ne {A} (f : I → A) i j a : j ≠ i → setf f i a j = f j.
Proof. intros ?. unfold setf. by rewrite decide_False. Qed.

Lemma fm_queue_store F i r j : fm_queue (fm_store F i r) j = if decide (j = i) then r.2 else fm_queue F j.
Proof.
  unfold fm_queue, fm_store. cbn. destruct (decide (j = i)) as [->|?].
  - by rewrite lookup_insert_eq.
  - by rewrite lookup_insert_ne.
Qed.

(** List [i] gets new contents; the others keep theirs. *)
Lemma fm_store_rep F i r l' ls lo lo' l S :
  fm_rep F ls lo l S → dll_rep r.1 r.2 l' →
  (∀ j x, j ≠ i → x ∈ ls j → same_at (fm_links F) r.1 x) →
  (∀ x, x ∈ lo' → detached r.1 x) → (∀ x, x ∈ l' → fm_tag F !! x = Some i) →
  (∀ x, x ∈ lo' → x ∉ l') → (∀ x, x ∈ lo ∨ x ∈ ls i ↔ x ∈ lo' ∨ x ∈ l') →
  (∀ x j, j ≠ i → x ∈ lo' → x ∉ ls j) →
  fm_rep (fm_store F i r) (setf ls i l') lo' l S.
Proof.
  intros [R1 R2 R3 R4 R5 R6] Hr Hs Hd Ht Ha Hp Ho. constructor.
  - eapply owns_links; [exact R1|done].
  - intros j. rewrite fm_queue_store. destruct (decide (j = i)) as [->|Hne]; [by rewrite setf_eq|].
    rewrite setf_ne //. eapply rep_frame; [|exact (R2 j)]. intros x Hx. by eapply Hs.
  - done.
  - intros x j. destruct (decide (j = i)) as [->|Hne]; [rewrite setf_eq; apply Ht|rewrite setf_ne //; apply R4].
  - intros x j Hx. destruct (decide (j = i)) as [->|Hne]; [rewrite setf_eq; auto|rewrite setf_ne //; auto].
  - intros x. rewrite R6. split.
    + intros [Hx|[j Hj]].
      * destruct (proj1 (Hp x)) as [?|?]; [by left|by left|right]. exists i. by rewrite setf_eq.
      * destruct (decide (j = i)) as [->|Hne]; [|right; exists j; by rewrite setf_ne].
        destruct (proj1 (Hp x)) as [?|?]; [by right|by left|right]. exists i. by rewrite setf_eq.
    + intros [Hx|[j Hj]].
      * destruct (proj2 (Hp x)) as [?|?]; [by left|by left|right; eauto].
      * destruct (decide (j = i)) as [->|Hne]; [rewrite setf_eq in Hj|rewrite setf_ne // in Hj; eauto].
        destruct (proj2 (Hp x)) as [?|?]; [by right|by left|right; eauto].
Qed.

Lemma fm_other F ls lo l S i j x : fm_rep F ls lo l S → x ∈ ls i → x ∈ ls j → i = j.
Proof. intros HR Hi Hj. apply (fr_tag _ _ _ _ _ HR) in Hi, Hj. congruence. Qed.

Lemma fm_unlink_rep F ls lo l S i n :
  fm_rep F ls lo l S → n ∈ ls i → fm_rep (fm_unlink F i n) (setf ls i (without n (ls i))) (n :: lo) l S.
Proof.
  intros HR Hn. pose proof (unlink_rep _ _ _ _ (fr_list _ _ _ _ _ HR i) Hn) as Hu. unfold fm_unlink.
  destruct (dll_unlink _ _ _) as [L' q']. destruct Hu as (U1 & U2 & U3).
  eapply fm_store_rep; [exact HR|exact U1|..].
  - intros j x Hne Hx. apply U3. intros Hi. by apply Hne, (fm_other _ _ _ _ _ j i x HR).
  - intros x [->|Hx]%elem_of_cons; [done|]. pose proof (fr_apart _ _ _ _ _ HR x i Hx) as Hxi.
    destruct (fr_loose _ _ _ _ _ HR x Hx) as [D1 D2]. destruct (U3 x Hxi) as [E1 E2]. split; cbn; congruence.
  - intros x [_ Hx]%elem_of_without. by apply (fr_tag _ _ _ _ _ HR).
  - intros x [->|Hx]%elem_of_cons; rewrite elem_of_without; [tauto|].
    pose proof (fr_apart _ _ _ _ _ HR x i Hx). tauto.
  - intros x. rewrite elem_of_without elem_of_cons.
    destruct (decide (x = n)) as [->|?]; naive_solver.
  - intros x j Hne [->|Hx']%elem_of_cons Hx; [by apply Hne, (fm_other _ _ _ _ _ j i n HR)|].
    by apply (fr_apart _ _ _ _ _ HR x j).
Qed.

Lemma fm_setTag_rep F ls lo l S n i : fm_rep F ls (n :: lo) l S → fm_rep (fm_setTag F n i) ls (n :: lo) l S.
Proof.
  intros [R1 R2 R3 R4 R5 R6]. constructor; [done|done|done| |done|done].
  intros x j Hx. cbn. rewrite lookup_insert_ne; [by apply R4|]. intros <-. by eapply R5; [left|].
Qed.

Lemma fm_push_rep F ls lo l S i n l' r :
  fm_rep F ls (n :: lo) l S → n ∉ lo → (∀ x, x ∈ l' ↔ x = n ∨ x ∈ ls i) → dll_rep r.1 r.2 l' →
  (∀ y, y ≠ n → y ∉ ls i → same_at (fm_links F) r.1 y) →
  fm_rep (fm_store (fm_setTag F n i) i r) (setf ls i l') lo l S.
Proof.
  intros HR Hlo Hl Hr Hs. pose proof (fm_setTag_rep F ls lo l S n i HR) as HM.
  assert (∀ x j, x ∈ lo → x ≠ n ∧ x ∉ ls j ∧ detached (fm_links F) x) as Hx.
  { intros x j Hx. split; [by intros ->|]. split; [apply (fr_apart _ _ _ _ _ HR); by right|].
    apply (fr_loose _ _ _ _ _ HR). by right. }
  eapply fm_store_rep; [exact HM|exact Hr|..].
  - intros j x Hne Hxj. apply Hs; [|intros Hi; by apply Hne, (fm_other _ _ _ _ _ j i x HR)].
    intros ->. by eapply (fr_apart _ _ _ _ _ HR n j); [left|].
  - intros x (? & ? & [D1 D2])%(λ H, Hx x i H). destruct (Hs x) as [E1 E2]; [done..|]. split; congruence.
  - intros x [->|Hx']%Hl; [cbn; by rewrite lookup_insert_eq|by apply (fr_tag _ _ _ _ _ HM)].
  - intros x Hx'. rewrite Hl. destruct (Hx x i Hx') as (? & ? & _). tauto.
  - intros x. rewrite Hl elem_of_cons. tauto.
  - intros x j _ Hx'. by apply Hx.
Qed.

Lemma fm_unlink_loose_rep F ls l S i n : fm_rep F ls [n] l S → fm_queue F i = fm_queue (fm_unlink F i n) i ∧
  fm_nodes (fm_unlink F i n) = fm_nodes F.
Proof.
  intros HR. unfold fm_unlink. rewrite fm_queue_store decide_True //.
  rewrite (unlink_detached _ _ (ls i)); [by destruct F as [[] ? ?]|apply HR|by apply (fr_apart _ _ _ _ _ HR), list_elem_of_singleton|].
  by apply (fr_loose _ _ _ _ _ HR), list_elem_of_singleton.
Qed.

(** ** The lists as entries *)

Lemma fr_sub F ls lo l S : fm_rep F ls lo l S → (∀ x, x ∈ lo → x ∈ l) ∧ (∀ i x, x ∈ ls i → x ∈ l).
Proof. intros HR. split; intros; apply (fr_all _ _ _ _ _ HR); eauto. Qed.

Lemma no_loose F ls lo l S : fm_rep F ls lo l S → ents (fm_nodes F) lo = [] → lo = [].
Proof.
  intros HR Hlo. destruct lo as [|x lo]; [done|]. destruct (fr_sub _ _ _ _ _ HR) as [Hs _].
  destruct (owns_sub _ _ _ (fr_owns _ _ _ _ _ HR) x (Hs x ltac:(left))) as [e He]. cbn in Hlo. by rewrite He in Hlo.
Qed.

Lemma some_loose F ls lo l S e lx :
  fm_rep F ls lo l S → ents (fm_nodes F) lo = e :: lx →
  ∃ n lo', lo = n :: lo' ∧ fm_at F e n ∧ ents (fm_nodes F) lo' = lx.
Proof.
  intros HR Hlo. destruct (fr_sub _ _ _ _ _ HR) as [Hs _]. pose proof (owns_sub _ _ _ (fr_owns _ _ _ _ _ HR)) as Ho.
  destruct lo as [|x lo]; [done|].
  destruct (Ho x (Hs x ltac:(left))) as [e' He]. cbn in Hlo. rewrite He in Hlo. injection Hlo as -> <-.
  exists x, lo. split; [done|]. split; [|done]. split; [|done]. eapply owns_data_eq; [apply HR|apply Hs; left|done].
Qed.

Lemma one_loose F ls lo l S e :
  fm_rep F ls lo l S → ents (fm_nodes F) lo = [e] → ∃ n, lo = [n] ∧ fm_at F e n.
Proof.
  intros HR Hlo. destruct (some_loose _ _ _ _ _ _ _ HR Hlo) as (n & lo' & -> & Hat & Hlo').
  exists n. split; [|done]. f_equal. destruct lo' as [|x lo']; [done|]. destruct (fr_sub _ _ _ _ _ HR) as [Hs _].
  destruct (owns_sub _ _ _ (fr_owns _ _ _ _ _ HR) x (Hs x ltac:(right; left))) as [e' He]. cbn in Hlo'. by rewrite He in Hlo'.
Qed.

Lemma fm_is_node F f lx S e i :
  fm_is F f lx S → e ∈ f i → ∃ n, fm_at F e n ∧ fm_tag F !! n = Some i.
Proof.
  intros (ls & lo & l & HR & Hf & _) He. rewrite -Hf in He. destruct (fr_sub _ _ _ _ _ HR) as [_ Hs].
  destruct (ents_elem_node _ _ _ _ _ (fr_owns _ _ _ _ _ HR) (Hs i) He) as (n & Hn & H1 & H2).
  exists n. split; [done|]. by apply (fr_tag _ _ _ _ _ HR).
Qed.

Lemma fm_is_elem F f lx S e i : fm_is F f lx S → e ∈ f i → e ∈ S.
Proof.
  intros (ls & lo & l & HR & Hf & _) He. rewrite -Hf in He. destruct (fr_sub _ _ _ _ _ HR) as [_ Hs].
  destruct (ents_elem_node _ _ _ _ _ (fr_owns _ _ _ _ _ HR) (Hs i) He) as (n & Hn & H1 & H2).
  eapply owns_elem; [apply HR|by eapply Hs|done].
Qed.

Lemma fm_is_cover F f S e : fm_is F f [] S → e ∈ S → ∃ i, e ∈ f i.
Proof.
  intros (ls & lo & l & HR & Hf & Hlo) He. apply (no_loose _ _ _ _ _ HR) in Hlo. subst lo.
  destruct (owns_lookup _ _ _ _ (fr_owns _ _ _ _ _ HR) He) as (n & _ & Hn & Hne).
  apply (fr_all _ _ _ _ _ HR) in Hn as [Hn|[i Hn]]; [by apply elem_of_nil in Hn|].
  exists i. rewrite -Hf. apply list_elem_of_omap. eauto.
Qed.

(** A node determines its list. *)
Lemma fm_is_tag F f lx S e n i j :
  fm_is F f lx S → e ∈ f i → fm_at F e n → fm_tag F !! n = Some j → i = j.
Proof.
  intros HF He [Hd Hn] Ht. destruct (fm_is_node _ _ _ _ _ _ HF He) as (n' & [Hd' _] & Ht'). congruence.
Qed.

Lemma fm_is_unlink F f lx S i e n :
  fm_is F f lx S → e ∈ f i → fm_at F e n → fm_is (fm_unlink F i n) (setf f i (without e (f i))) (e :: lx) S.
Proof.
  intros (ls & lo & l & HR & Hf & Hlo) He [Hd Hn].
  destruct (fr_sub _ _ _ _ _ HR) as [_ Hs]. assert (n ∈ ls i) as Hni.
  { rewrite -Hf in He. destruct (ents_elem_node _ _ _ _ _ (fr_owns _ _ _ _ _ HR) (Hs i) He) as (n' & ? & _ & ?). congruence. }
  exists (setf ls i (without n (ls i))), (n :: lo), l. split; [by apply fm_unlink_rep|]. split.
  - intros j. rewrite (ents_ext (fm_nodes F)) //. destruct (decide (j = i)) as [->|Hne].
    + rewrite !setf_eq (ents_without_part _ _ _ _ e n (fr_owns _ _ _ _ _ HR) (Hs i)) // Hf //.
    + rewrite !setf_ne //.
  - rewrite (ents_ext (fm_nodes F)) //. cbn. by rewrite Hn -Hlo.
Qed.

Lemma fm_is_push F f lx S i e n (l' : list loc → list loc) (f' : list (eref K)) r :
  (l' = (λ l, l ++ [n]) ∧ f' = f i ++ [e] ∧ r = dll_pushTail (fm_links F) (fm_queue F i) n ∨
   l' = (λ l, n :: l) ∧ f' = e :: f i ∧ r = dll_pushHead (fm_links F) (fm_queue F i) n) →
  fm_is F f (e :: lx) S → e ∉ lx → fm_at F e n → fm_is (fm_store (fm_setTag F n i) i r) (setf f i f') lx S.
Proof.
  intros Hc (ls & lo & l & HR & Hf & Hlo) Hex [Hd Hn].
  destruct (some_loose _ _ _ _ _ _ _ HR Hlo) as (n' & lo' & -> & [Hd' Hn'] & Hlo').
  assert (n' = n) as -> by congruence.
  assert (n ∉ lo') as Hnl. { intros Hin. apply Hex. rewrite -Hlo'. apply list_elem_of_omap. eauto. }
  assert (n ∉ ls i) as Hni by (apply (fr_apart _ _ _ _ _ HR); by left).
  exists (setf ls i (l' (ls i))), lo', l. split; [|split; [|by rewrite (ents_ext (fm_nodes F))]].
  - destruct Hc as [(-> & -> & ->)|(-> & -> & ->)].
    + pose proof (pushTail_rep _ _ _ n (fr_list _ _ _ _ _ HR i) Hni) as Hp. destruct (dll_pushTail _ _ _) as [L' q'].
      destruct Hp as [P1 P2]. apply fm_push_rep; [done|done|set_solver|exact P1|exact P2].
    + pose proof (pushHead_rep _ _ _ n (fr_list _ _ _ _ _ HR i) Hni) as Hp. destruct (dll_pushHead _ _ _) as [L' q'].
      destruct Hp as [P1 P2]. apply fm_push_rep; [done|done|set_solver|exact P1|exact P2].
  - intros j. rewrite (ents_ext (fm_nodes F)) //. destruct (decide (j = i)) as [->|Hne]; [|rewrite !setf_ne //].
    rewrite !setf_eq. destruct Hc as [(-> & -> & _)|(-> & -> & _)].
    + rewrite ents_app Hf. cbn. by rewrite Hn.
    + rewrite (ents_app _ [n]) Hf. cbn. by rewrite Hn.
Qed.

Lemma fm_is_pushTail F f S i e n :
  fm_is F f [e] S → fm_at F e n → fm_is (fm_pushTail F i n) (setf f i (f i ++ [e])) [] S.
Proof. intros HF. apply (fm_is_push F f [] S i e n (λ l, l ++ [n])); [by left|done|apply not_elem_of_nil]. Qed.

Lemma fm_is_pushHead F f lx S i e n :
  fm_is F f (e :: lx) S → e ∉ lx → fm_at F e n → fm_is (fm_pushHead F i n) (setf f i (e :: f i)) lx S.
Proof. apply (fm_is_push F f lx S i e n (λ l, n :: l)). by right. Qed.

(** The order of the loose entries does not matter. *)
Lemma fm_is_swap F f e e' S : fm_is F f [e; e'] S → fm_is F f [e'; e] S.
Proof.
  intros (ls & lo & l & HR & Hf & Hlo). destruct (some_loose _ _ _ _ _ _ _ HR Hlo) as (n & lo' & -> & Hat & Hlo').
  assert (∀ x, x ∈ n :: lo' ↔ x ∈ lo' ++ [n]) as Hx by (intros x; rewrite elem_of_app elem_of_cons list_elem_of_singleton; tauto).
  exists ls, (lo' ++ [n]), l. split; [|split; [done|by rewrite ents_app Hlo' /= (proj2 Hat)]].
  destruct HR as [R1 R2 R3 R4 R5 R6]. constructor; [done|done| |done| |]; setoid_rewrite <- Hx; done.
Qed.

Lemma fm_is_ext F f f' lx S : (∀ i, f' i = f i) → fm_is F f lx S → fm_is F f' lx S.
Proof. intros Hf (ls & lo & l & ? & ? & ?). exists ls, lo, l. split_and!; [done|intros i; by rewrite Hf|done]. Qed.

Lemma fm_is_alloc F f S e :
  fm_is F f [] S → (∀ e', e' ∈ S → e'.1 ≠ e.1) →
  fm_is (fm_alloc F e) f [e] ({[e]} ∪ S) ∧ fm_at (fm_alloc F e) e (nd_fresh (fm_nodes F)).
Proof.
  intros (ls & lo & l & HR & Hf & Hlo) Hid. apply (no_loose _ _ _ _ _ HR) in Hlo. subst lo.
  destruct (owns_alloc _ _ _ _ (fr_owns _ _ _ _ _ HR) Hid) as [Hfr HO]. destruct (fr_sub _ _ _ _ _ HR) as [_ Hs].
  assert (∀ i, nd_fresh (fm_nodes F) ∉ ls i) as Hni by (intros i Hi; by apply Hfr, (Hs i)).
  split; [|split; cbn; by rewrite lookup_insert_eq].
  exists ls, [nd_fresh (fm_nodes F)], (nd_fresh (fm_nodes F) :: l). split; [|split; [|apply ents_alloc_new]].
  - constructor; [exact HO| | |apply HR| |].
    + intros i. apply rep_alloc; [apply Hni|apply HR].
    + intros x ->%list_elem_of_singleton. split; cbn; by rewrite lookup_upd_eq.
    + intros x i ->%list_elem_of_singleton. apply Hni.
    + intros x. rewrite elem_of_cons list_elem_of_singleton (fr_all _ _ _ _ _ HR) elem_of_nil. naive_solver.
  - intros i. rewrite -Hf. apply ents_alloc, Hni.
Qed.

Lemma ents_release_out (N : nodes K) n e l : n ∉ l → ents (release N n e) l = ents N l.
Proof.
  unfold ents. induction l as [|y l IH]; [done|]. rewrite not_elem_of_cons. intros [? ?]. cbn.
  rewrite lookup_delete_ne // IH //.
Qed.

Lemma fm_is_release F f S e n :
  fm_is F f [e] S → fm_at F e n → fm_is (fm_release F n e) f [] (S ∖ {[e]}).
Proof.
  intros (ls & lo & l & HR & Hf & Hlo) [Hd Hn]. destruct (one_loose _ _ _ _ _ _ HR Hlo) as (n' & -> & [Hd' Hn']).
  assert (n' = n) as -> by congruence. destruct (fr_sub _ _ _ _ _ HR) as [Hl _].
  assert (∀ i, n ∉ ls i) as Hni by (intros i; by apply (fr_apart _ _ _ _ _ HR), list_elem_of_singleton).
  assert (e ∈ S) as HeS by (eapply owns_elem; [apply HR|apply Hl; left|done]).
  exists ls, [], (without n l). split; [|split; [|done]].
  - constructor; [| |by intros x ?%elem_of_nil|apply HR|by intros x i ?%elem_of_nil|].
    + eapply owns_release; [apply HR|done|done|done|by left|done].
    + intros i. apply rep_release; [apply Hni|apply HR].
    + intros x. rewrite elem_of_without (fr_all _ _ _ _ _ HR) list_elem_of_singleton elem_of_nil. split; [naive_solver|].
      intros [[]|[i Hi]]. split; [|eauto]. intros ->. by eapply Hni.
  - intros i. rewrite -Hf. apply ents_release_out, Hni.
Qed.

(** Unlinking a loose node changes nothing that matters. *)
Lemma fm_is_unlink_loose F f S i e n :
  fm_is F f [e] S → fm_at F e n → fm_is (fm_unlink F i n) f [e] S ∧ fm_at (fm_unlink F i n) e n.
Proof.
  intros (ls & lo & l & HR & Hf & Hlo) [Hd Hn]. destruct (one_loose _ _ _ _ _ _ HR Hlo) as (n' & -> & [Hd' Hn']).
  assert (n' = n) as -> by congruence. destruct (fm_unlink_loose_rep F ls l S i n HR) as [Hq HN].
  split; [|by split; rewrite HN]. exists ls, [n], l. rewrite HN. split; [|done]. destruct HR as [R1 R2 R3 R4 R5 R6].
  constructor; unfold fm_links; rewrite ?HN; try done. intros j.
  destruct (decide (j = i)) as [->|Hne]; [rewrite -Hq; apply R2|].
  assert (fm_queue (fm_unlink F i n) j = fm_queue F j) as ->; [|apply R2].
  unfold fm_unlink. rewrite fm_queue_store. by rewrite decide_False.
Qed.

(** Dropping an empty list. *)
Lemma fm_is_drop F f lx S i : fm_is F f lx S → d_head (fm_queue F i) = None → fm_is (fm_drop F i) f lx S.
Proof.
  intros (ls & lo & l & HR & Hf & Hlo) Hh. exists ls, lo, l. split; [|done]. destruct HR as [R1 R2 R3 R4 R5 R6].
  constructor; try done. intros j. unfold fm_queue, fm_drop. cbn. destruct (decide (j = i)) as [->|Hne].
  - rewrite lookup_delete_eq. cbn. pose proof (rep_head _ _ _ (R2 i)) as Hd. rewrite Hh in Hd.
    destruct (ls i); [apply rep_nil|done].
  - rewrite lookup_delete_ne //. apply R2.
Qed.

Lemma fm_is_head F f lx S i :
  fm_is F f lx S →
  match d_head (fm_queue F i) with
  | Some n => ∃ e, head (f i) = Some e ∧ fm_at F e n
  | None => f i = []
  end.
Proof.
  intros (ls & lo & l & HR & Hf & _). rewrite (rep_head _ _ _ (fr_list _ _ _ _ _ HR i)) -Hf.
  destruct (fr_sub _ _ _ _ _ HR) as [_ Hs]. specialize (Hs i). destruct (ls i) as [|n l']; [done|]. cbn.
  destruct (owns_node _ _ _ (fr_owns _ _ _ _ _ HR) n (Hs n ltac:(left))) as (e & He & _ & Hd).
  exists e. by rewrite He.
Qed.

Lemma fm_is_tail F f lx S i :
  fm_is F f lx S →
  match d_tail (fm_queue F i) with
  | Some n => ∃ e, last (f i) = Some e ∧ fm_at F e n
  | None => f i = []
  end.
Proof.
  intros (ls & lo & l & HR & Hf & _). rewrite (rep_tail _ _ _ (fr_list _ _ _ _ _ HR i)) -Hf.
  destruct (fr_sub _ _ _ _ _ HR) as [_ Hs]. specialize (Hs i). destruct (ls i) as [|n l' _] using rev_ind; [done|].
  rewrite last_snoc ents_app.
  destruct (owns_node _ _ _ (fr_owns _ _ _ _ _ HR) n (Hs n ltac:(set_solver))) as (e & He & _ & Hd).
  exists e. cbn. rewrite He. by rewrite last_snoc.
Qed.

(** The second entry, from the first one's node. *)
Lemma fm_is_next F f lx S i e es n :
  fm_is F f lx S → f i = e :: es → fm_at F e n →
  match l_next (fm_links F) !! n with
  | Some n' => ∃ e', head es = Some e' ∧ fm_at F e' n'
  | None => es = []
  end.
Proof.
  intros (ls & lo & l & HR & Hf & _) He [Hd Hn]. destruct (fr_sub _ _ _ _ _ HR) as [_ Hs]. specialize (Hs i).
  rewrite -Hf in He. pose proof (fr_list _ _ _ _ _ HR i) as HL. destruct (ls i) as [|x l'] eqn:El; [done|].
  destruct (owns_node _ _ _ (fr_owns _ _ _ _ _ HR) x (Hs x ltac:(left))) as (e1 & He1 & _ & Hd1).
  cbn in He. rewrite He1 in He. injection He as -> He. assert (x = n) as -> by congruence.
  destruct (rep_node _ _ [] n l' HL) as [_ ->]. destruct l' as [|y l']; cbn in He |- *; [by rewrite -He|].
  destruct (owns_node _ _ _ (fr_owns _ _ _ _ _ HR) y (Hs y ltac:(right; left))) as (e2 & He2 & _ & Hd2).
  exists e2. rewrite He2 in He. rewrite -He. done.
Qed.

Lemma NoDup_ents_part N l S l0 : owns (K := K) N l S → (∀ x, x ∈ l0 → x ∈ l) → NoDup l0 → NoDup (ents N l0).
Proof.
  intros HO Hsub. unfold ents. induction l0 as [|x l0 IH]; [constructor|]. intros [Hx Hn]%NoDup_cons.
  destruct (owns_node _ _ _ HO x (Hsub x ltac:(left))) as (e & He & _ & Hd). cbn. rewrite He /=.
  constructor; [|apply IH; [intros y Hy; apply Hsub; by right|done]]. rewrite list_elem_of_omap. intros (y & Hy & Hye).
  destruct (owns_node _ _ _ HO y (Hsub y ltac:(by right))) as (e' & He' & _ & Hd'). assert (x = y) as -> by congruence. done.
Qed.

Lemma fm_is_nodup F f lx S i : fm_is F f lx S → NoDup (f i).
Proof.
  intros (ls & lo & l & HR & Hf & _). rewrite -Hf. destruct (fr_sub _ _ _ _ _ HR) as [_ Hs].
  eapply NoDup_ents_part; [apply HR|apply Hs|]. exact (rep_nodup _ _ _ (fr_list _ _ _ _ _ HR i)).
Qed.

Lemma fm_is_size F f lx S i : fm_is F f lx S → d_size (fm_queue F i) = Z.of_nat (length (f i)).
Proof.
  intros (ls & lo & l & HR & Hf & _). rewrite (rep_size _ _ _ (fr_list _ _ _ _ _ HR i)) -Hf.
  destruct (fr_sub _ _ _ _ _ HR) as [_ Hs]. by rewrite (ents_len _ _ _ _ (fr_owns _ _ _ _ _ HR) (Hs i)).
Qed.

Lemma fm_is_ents F f lx S i : fm_is F f lx S → fm_ents F i = f i.
Proof.
  intros (ls & lo & l & HR & Hf & _). unfold fm_ents, fm_seq. by rewrite (dll_walk_rep _ _ _ (fr_list _ _ _ _ _ HR i)).
Qed.

Lemma fm_is_empty N t : fm_is (Family N t ∅) (λ _, []) [] ∅.
Proof.
  exists (λ _, []), [], []. split; [|done]. constructor; [apply owns_nil|intros i; apply rep_nil|by intros x ?%elem_of_nil|
    by intros x i ?%elem_of_nil|by intros x i ?%elem_of_nil|].
  intros x. split; [by intros ?%elem_of_nil|intros [Hx|[i Hx]]; by apply elem_of_nil in Hx].
Qed.
End family.
