(* ===== verification/Lfu.v ===== *)
(** * Lfu: the LFU eviction policy ([lfu.go])

    One list per access count; an access moves an entry to the tail of the
    next list, and the victim is the head of the lowest non-empty list, but
    not the entry inserted last while there is another.  The file shows that
    this is least-frequently-used with ties broken by recency
    ([lfu_refines]) and that the policy satisfies [PolicyLaws].

    Counts are unbounded here; the code's 64-bit counters would wrap after
    2^64 accesses to one entry. *)

From S2P Require Import Prelude Dll Policy Duo Family.

#[local] Open Scope Z_scope.

Section lfu.
Context {K : Type} `{Countable K}.

(** The [freq] field of a node is its tag. *)
Record lfuPolicy := Lfu {
  lf_F : family Z K;
  lf_minFreq : Z;
  lf_size : Z;
  lf_recent : option loc
}.

Implicit Types (p : lfuPolicy) (e : eref K) (n : loc) (F : family Z K).

Definition newLFU : lfuPolicy := Lfu fm_empty 0 0 None.

Definition freqAt F n : Z := default 0 (fm_tag F !! n).

Definition bucketEmpty F (freq : Z) : bool := bool_decide (d_head (fm_queue F freq) = None).

(** [if p.bucketEmpty(freq) { delete(p.buckets, freq) }] *)
Definition dropEmpty F (freq : Z) : family Z K := if bucketEmpty F freq then fm_drop F freq else F.

Definition lf_OnInsert p e : lfuPolicy :=
  let n := nd_fresh (fm_nodes (lf_F p)) in
  Lfu (fm_pushTail (fm_alloc (lf_F p) e) 1 n) 1 (lf_size p + 1) (Some n).

Definition lf_OnAccess p e : lfuPolicy :=
  match nd_data (fm_nodes (lf_F p)) !! e.1 with
  | None => p
  | Some n =>
      let old := freqAt (lf_F p) n in
      let F := fm_unlink (lf_F p) old n in
      let minFreq := if bucketEmpty F old && bool_decide (lf_minFreq p = old) then old + 1 else lf_minFreq p in
      Lfu (fm_pushTail (dropEmpty F old) (old + 1) n) minFreq (lf_size p) (lf_recent p)
  end.

Definition lf_OnUpdate p e : lfuPolicy := lf_OnAccess p e.

Definition lf_OnRemove p e : lfuPolicy :=
  match nd_data (fm_nodes (lf_F p)) !! e.1 with
  | None => p
  | Some n =>
      let freq := freqAt (lf_F p) n in
      let linked := bool_decide (is_Some (l_next (fm_links (lf_F p)) !! n)) ||
        bool_decide (is_Some (l_prev (fm_links (lf_F p)) !! n)) ||
        bool_decide (d_head (fm_queue (lf_F p) freq) = Some n) in
      let F := if bool_decide (is_Some (fm_lists (lf_F p) !! freq)) && linked
               then dropEmpty (fm_unlink (lf_F p) freq n) freq else lf_F p in
      Lfu (fm_release F n e) (lf_minFreq p) (lf_size p - 1)
        (if decide (lf_recent p = Some n) then None else lf_recent p)
  end.

(** The smallest non-empty bucket above [from]. *)
Definition nextNonEmpty F (from : Z) : option Z :=
  foldl (λ best '(freq, list),
    if bool_decide (freq <= from) || bool_decide (d_head list = None) then best
    else match best with
         | None => Some freq
         | Some b => if bool_decide (freq < b) then Some freq else Some b
         end) None (map_to_list (fm_lists F)).

(** The loop of [pick] goes around at most once: it then stands on a
    non-empty bucket. *)
Fixpoint pick (fuel : nat) p : option loc * lfuPolicy :=
  match fuel with
  | O => (None, p)
  | S fuel =>
      if bool_decide (lf_size p <= 0) then (None, p)
      else
        match d_head (fm_queue (lf_F p) (lf_minFreq p)) with
        | None =>
            match nextNonEmpty (lf_F p) (lf_minFreq p) with
            | None => (None, p)
            | Some next => pick fuel (Lfu (lf_F p) next (lf_size p) (lf_recent p))
            end
        | Some n =>
            if bool_decide (lf_recent p ≠ Some n) then (Some n, p)
            else
              match l_next (fm_links (lf_F p)) !! n with
              | Some n' => (Some n', p)
              | None =>
                  match nextNonEmpty (lf_F p) (lf_minFreq p) with
                  | Some next => (d_head (fm_queue (lf_F p) next), p)
                  | None => (Some n, p)
                  end
              end
        end
  end.

Definition lf_Victim p : option (eref K) * lfuPolicy :=
  match pick 2 p with
  | (None, p) => (None, p)
  | (Some n, p) =>
      let freq := freqAt (lf_F p) n in
      let F := match fm_lists (lf_F p) !! freq with
               | Some _ => fm_unlink (lf_F p) freq n
               | None => lf_F p
               end in
      (nd_entry (fm_nodes (lf_F p)) !! n, Lfu (dropEmpty F freq) (lf_minFreq p) (lf_size p) (lf_recent p))
  end.

Definition lf_Len p : Z := lf_size p.

Definition lf_SetBudget p (_ : Z) : lfuPolicy := p.

Definition lf_Reset p : lfuPolicy :=
  Lfu (fm_reset (lf_F p) (map_to_list (fm_lists (lf_F p))).*1) 0 0 None.

Definition lf_Snapshot p : policyDetail := PolicyDetailLFU (lf_size p) (Z.of_nat (size (fm_lists (lf_F p)))).

Definition lf_PromotionNeeded p e : bool := true.

#[export] Instance lf_policy : EvictionPolicy K lfuPolicy := {
  OnInsert := lf_OnInsert;
  OnAccess := lf_OnAccess;
  OnUpdate := lf_OnUpdate;
  OnRemove := lf_OnRemove;
  Victim := lf_Victim;
  Len := lf_Len;
  Reset := lf_Reset;
  SetBudget := lf_SetBudget;
  Snapshot := lf_Snapshot;
  PromotionNeeded := lf_PromotionNeeded;
  shed p _ := (None, p)
}.

(** ** Least frequently used, on a list *)

(** Entries with their access counts, in order of their last access, oldest
    first, and the entry inserted last. *)
Record lfu := LfuState { counts : list (eref K * Z); latest : option (eref K) }.

Definition strip e (es : list (eref K * Z)) : list (eref K * Z) := filter (λ x, x.1 ≠ e) es.

Definition count_of (es : list (eref K * Z)) e : option Z := snd <$> head (filter (λ x, x.1 = e) es).

(** The first of the entries with the lowest count. *)
Fixpoint least (es : list (eref K * Z)) : option (eref K * Z) :=
  match es with
  | [] => None
  | x :: es =>
      match least es with
      | Some y => if bool_decide (x.2 <= y.2) then Some x else Some y
      | None => Some x
      end
  end.

Definition lfu_victim (s : lfu) : option (eref K) :=
  let others := match latest s with Some r => strip r (counts s) | None => counts s end in
  fst <$> least (match others with [] => counts s | _ => others end).

Definition lfu_forget (s : lfu) e : lfu :=
  LfuState (strip e (counts s)) (if decide (latest s = Some e) then None else latest s).

Definition lfu_spec (s : lfu) (o : pop K) : lfu :=
  match o with
  | PInsert e => LfuState (counts s ++ [(e, 1)]) (Some e)
  | PAccess e | PUpdate e =>
      match count_of (counts s) e with
      | Some c => LfuState (strip e (counts s) ++ [(e, c + 1)]) (latest s)
      | None => s
      end
  | PRemove e => lfu_forget s e
  | PEvict => match lfu_victim s with Some e => lfu_forget s e | None => s end
  | PReset => LfuState [] None
  end.

(** The entries with one count. *)
Definition level (es : list (eref K * Z)) (c : Z) : list (eref K) := (filter (λ x, x.2 = c) es).*1.

Lemma level_app es es' c : level (es ++ es') c = level es c ++ level es' c.
Proof. unfold level. by rewrite filter_app fmap_app. Qed.

Lemma level_cons x es c : level (x :: es) c = if decide (x.2 = c) then x.1 :: level es c else level es c.
Proof. unfold level. rewrite filter_cons. by case_decide. Qed.

Lemma elem_of_level es c e : e ∈ level es c ↔ (e, c) ∈ es.
Proof.
  unfold level. rewrite list_elem_of_fmap. split.
  - intros ([e' c'] & -> & Hf). apply list_elem_of_filter in Hf as [Hc Hin]. cbn in Hc. by subst.
  - intros Hin. exists (e, c). split; [done|]. by apply list_elem_of_filter.
Qed.

Lemma level_strip es e c : level (strip e es) c = without e (level es c).
Proof.
  unfold strip, without. induction es as [|x es IH]; [done|]. rewrite filter_cons !level_cons.
  destruct (decide (x.1 ≠ e)) as [Hx|Hx].
  - rewrite level_cons. destruct (decide (x.2 = c)); [|done]. rewrite filter_cons decide_True // IH //.
  - destruct (decide (x.2 = c)); [|done]. rewrite filter_cons decide_False //.
Qed.

Lemma least_elem es x : least es = Some x → x ∈ es.
Proof.
  revert x. induction es as [|y es IH]; intros x; cbn; [done|]. destruct (least es) as [z|].
  - case_bool_decide; intros [= ->]; [left|right; by apply IH].
  - intros [= ->]. left.
Qed.

(** The head of the lowest non-empty level is the first with the least
    count. *)
Lemma least_level es i e :
  head (level es i) = Some e → (∀ j, j < i → level es j = []) → least es = Some (e, i).
Proof.
  induction es as [|[x c] es IH]; [done|]. intros Hh Hlow. cbn [least].
  assert (i <= c) as Hic.
  { destruct (decide (c < i)) as [Hc|]; [|lia]. specialize (Hlow c Hc). rewrite level_cons decide_True // in Hlow. }
  assert (∀ j, j < i → level es j = []) as Hlow'.
  { intros j Hj. specialize (Hlow j Hj). rewrite level_cons in Hlow. cbn in Hlow. by rewrite decide_False in Hlow; [|lia]. }
  rewrite level_cons in Hh. cbn [fst snd] in Hh. destruct (decide (c = i)) as [->|Hne].
  - injection Hh as ->. destruct (least es) as [[y d]|] eqn:Hl; [|done]. cbn.
    rewrite bool_decide_true //. apply least_elem in Hl.
    destruct (decide (d < i)) as [Hd|]; [|lia]. exfalso.
    assert (y ∈ level es d) as Hy by by apply elem_of_level. rewrite Hlow' // in Hy. by apply elem_of_nil in Hy.
  - rewrite (IH Hh Hlow'). cbn. rewrite bool_decide_false //. lia.
Qed.

Lemma count_of_elem es e c : NoDup es.*1 → (e, c) ∈ es → count_of es e = Some c.
Proof.
  intros Hn Hin. unfold count_of. induction es as [|[x d] es IH]; [by apply elem_of_nil in Hin|].
  cbn in Hn. apply NoDup_cons in Hn as [Hx Hn]. rewrite filter_cons. cbn [fst].
  apply elem_of_cons in Hin as [[= <- <-]|Hin]; [by rewrite decide_True|].
  destruct (decide (x = e)) as [->|]; [|by apply IH]. destruct Hx. apply list_elem_of_fmap. by exists (e, c).
Qed.

(** ** The invariant *)

Definition lf_newest p (S : gset (eref K)) (o : option (eref K)) : Prop :=
  match lf_recent p, o with
  | Some n, Some e => fm_at (lf_F p) e n ∧ e ∈ S
  | None, None => True
  | _, _ => False
  end.

Record lf_ok p (s : lfu) (lx : list (eref K)) (S : gset (eref K)) : Prop := LfOk {
  lo_F : fm_is (lf_F p) (level (counts s)) lx S;
  lo_size : lf_size p = Z.of_nat (size S);
  lo_min : ∀ c, level (counts s) c ≠ [] → lf_minFreq p <= c;
  lo_newest : lf_newest p S (latest s);
  lo_nodup : NoDup (counts s).*1;
  lo_pos : ∀ c, level (counts s) c ≠ [] → 1 <= c
}.

Definition lf_tracks p (S : gset (eref K)) : Prop := ∃ s, lf_ok p s [] S.

Lemma lf_newest_iff p S o e n :
  lf_newest p S o → fm_at (lf_F p) e n → lf_recent p = Some n ↔ o = Some e.
Proof.
  unfold lf_newest. intros Ho [Hd He]. destruct (lf_recent p) as [m|], o as [e'|]; try done.
  destruct Ho as [[Hd' He'] _]. split; [intros [= ->]|intros [= ->]]; congruence.
Qed.

Lemma dropEmpty_is F f lx S c : fm_is F f lx S → fm_is (dropEmpty F c) f lx S.
Proof.
  intros HF. unfold dropEmpty, bucketEmpty. case_bool_decide; [|done]. by apply fm_is_drop.
Qed.

Lemma dropEmpty_nodes F c : fm_nodes (dropEmpty F c) = fm_nodes F ∧ fm_tag (dropEmpty F c) = fm_tag F.
Proof. unfold dropEmpty. by destruct (bucketEmpty F c). Qed.

Lemma freqAt_level p s lx S e c n :
  lf_ok p s lx S → e ∈ level (counts s) c → fm_at (lf_F p) e n → freqAt (lf_F p) n = c.
Proof.
  intros HP He Hat. destruct (fm_is_node _ _ _ _ _ _ (lo_F _ _ _ _ HP) He) as (n' & [Hd _] & Ht).
  unfold freqAt. assert (n' = n) as -> by (destruct Hat; congruence). by rewrite Ht.
Qed.

Lemma strip_nodup e es : NoDup es.*1 → NoDup (strip e es).*1.
Proof. intros Hn. unfold strip. eapply sublist_NoDup; [exact Hn|apply fmap_sublist, sublist_filter]. Qed.

Lemma strip_elem e x es : x ∈ (strip e es).*1 ↔ x ∈ es.*1 ∧ x ≠ e.
Proof.
  unfold strip. rewrite !list_elem_of_fmap. split.
  - intros (y & -> & Hy). apply list_elem_of_filter in Hy as [? ?]. split; [by exists y|done].
  - intros [(y & -> & Hy) Hne]. exists y. split; [done|]. by apply list_elem_of_filter.
Qed.

(** ** Victims *)

Definition next_of (F : family Z K) (from : Z) (o : option Z) : Prop :=
  match o with
  | Some b => from < b ∧ d_head (fm_queue F b) ≠ None ∧ ∀ c, from < c → c < b → d_head (fm_queue F c) = None
  | None => ∀ c, from < c → d_head (fm_queue F c) = None
  end.

Lemma nextNonEmpty_ok F from : next_of F from (nextNonEmpty F from).
Proof.
  unfold nextNonEmpty.
  assert (∀ l o, (∀ c q, (c, q) ∈ l → fm_lists F !! c = Some q) →
    match o with Some b => from < b ∧ d_head (fm_queue F b) ≠ None | None => True end →
    let r := foldl (λ best '(freq, list), if bool_decide (freq <= from) || bool_decide (d_head list = None) then best
      else match best with None => Some freq | Some b => if bool_decide (freq < b) then Some freq else Some b end) o l in
    match r with Some b => from < b ∧ d_head (fm_queue F b) ≠ None | None => True end ∧
    (∀ b, o = Some b → ∃ b', r = Some b' ∧ b' <= b) ∧
    (∀ c q, (c, q) ∈ l → from < c → d_head q ≠ None → ∃ b', r = Some b' ∧ b' <= c)) as Hfold.
  { induction l as [|[c q] l IH]; intros o Hl Ho; cbv zeta.
    - split; [done|]. split; [intros b ->; by exists b|by intros c q ?%elem_of_nil].
    - cbn [foldl]. assert (fm_queue F c = q) as Hq by (unfold fm_queue; by rewrite (Hl c q ltac:(left))).
      set (o' := if _ || _ then o else _).
      assert (match o' with Some b => from < b ∧ d_head (fm_queue F b) ≠ None | None => True end) as Ho'.
      { subst o'. repeat case_bool_decide; cbn; [done..|]. destruct o as [b|]; [|split; [lia|by rewrite Hq]].
        case_bool_decide; [split; [lia|by rewrite Hq]|done]. }
      destruct (IH o' (λ c' q' Hin, Hl c' q' (list_elem_of_further _ _ _ Hin)) Ho') as (I1 & I2 & I3). split; [done|].
      assert (∀ b, o = Some b → ∃ b', o' = Some b' ∧ b' <= b) as Hmono.
      { intros b ->. subst o'. repeat case_bool_decide; cbn; eexists; (split; [done|lia]). }
      split.
      + intros b (b1 & E1 & ?)%Hmono. destruct (I2 b1 E1) as (b2 & E2 & ?). exists b2. split; [done|lia].
      + intros c' q' [[= -> ->]|Hin]%elem_of_cons Hc Hh; [|by eapply I3].
        assert (∃ b', o' = Some b' ∧ b' <= c) as (b1 & E1 & ?).
        { subst o'. rewrite bool_decide_false; [|lia]. rewrite bool_decide_false //. cbn [orb].
          destruct o as [b|]; [|exists c; split; [done|lia]]. destruct (bool_decide_reflect (c < b)); eexists; (split; [done|lia]). }
        destruct (I2 b1 E1) as (b2 & E2 & ?). exists b2. split; [done|lia]. }
  destruct (Hfold (map_to_list (fm_lists F)) None) as (R1 & _ & R3); [|done|].
  { intros c q Hin. by apply elem_of_map_to_list in Hin. }
  set (r := foldl _ None _) in *.
  assert (∀ c, from < c → d_head (fm_queue F c) ≠ None → ∃ b', r = Some b' ∧ b' <= c) as Hc.
  { intros c Hc Hh. unfold fm_queue in Hh. destruct (fm_lists F !! c) as [q|] eqn:Hq; [|done].
    apply (R3 c q); [|done|done]. by apply elem_of_map_to_list. }
  assert (∀ c, {d_head (fm_queue F c) = None} + {d_head (fm_queue F c) ≠ None}) as Hdec by (intros c; apply decide, _).
  unfold next_of. destruct r as [b|].
  - destruct R1 as [? ?]. split_and!; [done..|]. intros c G1 G2. destruct (Hdec c) as [|Hn]; [done|].
    destruct (Hc c G1 Hn) as (b' & [= <-] & ?). lia.
  - intros c H1. destruct (Hdec c) as [|Hn]; [done|]. by destruct (Hc c H1 Hn) as (b' & ? & _).
Qed.

Lemma head_None_level p s lx S c : lf_ok p s lx S → d_head (fm_queue (lf_F p) c) = None ↔ level (counts s) c = [].
Proof.
  intros HP. pose proof (fm_is_head _ _ _ _ c (lo_F _ _ _ _ HP)) as Hh. destruct (d_head _); [|done].
  destruct Hh as (e & He & _). split; [done|]. intros E. by rewrite E in He.
Qed.

(** The others, by levels. *)
Lemma others_level s r c :
  latest s = Some r → level (match latest s with Some r => strip r (counts s) | None => counts s end) c =
    without r (level (counts s) c).
Proof. intros ->. apply level_strip. Qed.

Lemma victim_from_level s i e :
  let others := match latest s with Some r => strip r (counts s) | None => counts s end in
  head (level others i) = Some e → (∀ j, j < i → level others j = []) → lfu_victim s = Some e.
Proof.
  cbv zeta. unfold lfu_victim. generalize (match latest s with Some r => strip r (counts s) | None => counts s end).
  intros [|x l] Hh Hlow; [done|]. by rewrite (least_level _ i e Hh Hlow).
Qed.

Lemma lf_step_head p s S :
  lf_ok p s [] S → d_head (fm_queue (lf_F p) (lf_minFreq p)) ≠ None → 0 < lf_size p →
  ∃ n e, pick 1 p = (Some n, p) ∧ fm_at (lf_F p) e n ∧ lfu_victim s = Some e ∧ (∃ c, e ∈ level (counts s) c).
Proof.
  intros HP Hh Hsz. pose proof HP as [H1 H2 H3 H4 H5 H6]. cbn [pick]. rewrite bool_decide_false; [|lia].
  set (m := lf_minFreq p) in *. pose proof (fm_is_head _ _ _ _ m H1) as Hd.
  destruct (d_head (fm_queue (lf_F p) m)) as [n|]; [|done]. destruct Hd as (e & He & Hat).
  assert (∀ j, j < m → level (counts s) j = []) as Hlow.
  { intros j Hj. destruct (level (counts s) j) eqn:El; [done|]. assert (level (counts s) j ≠ []) as Hne%H3 by by rewrite El. lia. }
  pose proof (lf_newest_iff _ _ _ _ _ H4 Hat) as Hnew. pose proof (fm_is_nodup _ _ _ _ m H1) as Hnd.
  assert (e ∈ level (counts s) m) as Hem by by apply head_Some_elem_of.
  case_bool_decide as Hr.
  - exists n, e. split_and!; [done|done| |by exists m]. apply (victim_from_level s m).
    + destruct (latest s) as [r|] eqn:Hl; [|done]. rewrite level_strip. destruct (level (counts s) m) as [|x l]; [done|].
      cbn in He. injection He as ->. unfold without. rewrite filter_cons_True; [done|]. intros ->. by apply Hr, Hnew.
    + intros j Hj. destruct (latest s); [rewrite level_strip|]; rewrite Hlow //.
  - apply Hnew in Hr as Hl.
    destruct (level (counts s) m) as [|x l] eqn:Elm; [done|]. cbn in He. injection He as ->.
    assert (e ∉ l) as Hel by by apply NoDup_cons in Hnd as [? _].
    assert (∀ j, j ≠ m → e ∉ level (counts s) j) as Hout.
    { intros j Hj Hin. apply Hj. destruct (fm_is_node _ _ _ _ _ _ H1 Hin) as (n' & [Hd' _] & Ht').
      assert (e ∈ level (counts s) m) as Hin' by (rewrite Elm; left).
      destruct (fm_is_node _ _ _ _ _ _ H1 Hin') as (n2 & [Hd2 _] & Ht2). congruence. }
    pose proof (fm_is_next _ _ _ _ m e l n H1 Elm Hat) as Hnx.
    destruct (l_next (fm_links (lf_F p)) !! n) as [n'|].
    + destruct Hnx as (e' & He' & Hat'). exists n', e'. split_and!; [done|done| |].
      * apply (victim_from_level s m); [|intros j Hj]; rewrite (others_level s e _ Hl).
        -- rewrite Elm without_cons_eq //.
        -- rewrite Hlow //.
      * exists m. rewrite Elm. right. by apply head_Some_elem_of.
    + subst l. pose proof (nextNonEmpty_ok (lf_F p) m) as Hnn. destruct (nextNonEmpty (lf_F p) m) as [b|].
      * destruct Hnn as (Hb1 & Hb2 & Hb3). pose proof (fm_is_head _ _ _ _ b H1) as Hdb.
        destruct (d_head (fm_queue (lf_F p) b)) as [n'|]; [|done]. destruct Hdb as (e' & He' & Hat').
        exists n', e'. split_and!; [done|done| |exists b; by apply head_Some_elem_of].
        apply (victim_from_level s b); [|intros j Hj]; rewrite (others_level s e _ Hl).
        -- rewrite without_notin //. apply Hout. lia.
        -- destruct (decide (j = m)) as [->|]; [by rewrite Elm without_cons_eq; [|by intros ?%elem_of_nil]|].
           rewrite without_notin; [|by apply Hout]. destruct (decide (j < m)); [by apply Hlow|].
           apply (head_None_level p s [] S); [done|]. apply Hb3; lia.
      * exists n, e. split_and!; [done|done| |exists m; rewrite Elm; left].
        assert (∀ j, level (strip e (counts s)) j = []) as Hall.
        { intros j. rewrite level_strip. destruct (decide (j = m)) as [->|]; [by rewrite Elm without_cons_eq; [|by intros ?%elem_of_nil]|].
          destruct (decide (j < m)); [by rewrite Hlow|].
          assert (level (counts s) j = []) as ->; [|done]. apply (head_None_level p s [] S); [done|]. apply Hnn. lia. }
        unfold lfu_victim. rewrite Hl. destruct (strip e (counts s)) as [|[x c] es] eqn:Es.
        -- by rewrite (least_level (counts s) m e); [|rewrite Elm|].
        -- specialize (Hall c). rewrite level_cons decide_True // in Hall.
Qed.

Lemma lf_ok_min p s lx S m :
  lf_ok p s lx S → (∀ c, level (counts s) c ≠ [] → m <= c) → lf_ok (Lfu (lf_F p) m (lf_size p) (lf_recent p)) s lx S.
Proof. intros [H1 H2 H3 H4 H5 H6] Hm. by constructor. Qed.

Lemma lf_pick_ok p s S :
  lf_ok p s [] S →
  let '(o, p') := pick 2 p in
  lf_F p' = lf_F p ∧ lf_ok p' s [] S ∧
  match o with
  | Some n => ∃ e, fm_at (lf_F p) e n ∧ lfu_victim s = Some e ∧ (∃ c, e ∈ level (counts s) c)
  | None => S = ∅ ∧ lfu_victim s = None
  end.
Proof.
  intros HP. pose proof HP as [H1 H2 H3 H4 H5 H6].
  assert (∀ q fuel, lf_F q = lf_F p → lf_ok q s [] S → d_head (fm_queue (lf_F q) (lf_minFreq q)) ≠ None → 0 < lf_size q →
    pick (Datatypes.S fuel) q = pick 1 q) as Hone.
  { intros q fuel _ _ Hh Hs. cbn [pick]. rewrite bool_decide_false; [|lia]. by destruct (d_head _). }
  destruct (decide (lf_size p <= 0)) as [Hz|Hz].
  - cbn [pick]. rewrite bool_decide_true //. assert (S = ∅) as HS.
    { apply leibniz_equiv, size_empty_inv. lia. }
    split_and!; [done|done|done|]. unfold lfu_victim. destruct (counts s) as [|[x c] es] eqn:Ec.
    + destruct (latest s); done.
    + assert (x ∈ level (counts s) c) as Hx by (rewrite Ec elem_of_level; left).
      rewrite Ec in Hx. apply (fm_is_elem _ _ _ _ _ _ H1) in Hx. set_solver.
  - destruct (d_head (fm_queue (lf_F p) (lf_minFreq p))) as [n0|] eqn:Hd.
    + rewrite Hone; [|done|done|by rewrite Hd|lia].
      destruct (lf_step_head p s S HP) as (n & e & -> & ?); [by rewrite Hd|lia|]. split_and!; [done|done|by exists e].
    + change (pick 2 p) with (if bool_decide (lf_size p <= 0) then (None, p) else
        match d_head (fm_queue (lf_F p) (lf_minFreq p)) with
        | None => match nextNonEmpty (lf_F p) (lf_minFreq p) with
                  | None => (None, p) | Some next => pick 1 (Lfu (lf_F p) next (lf_size p) (lf_recent p)) end
        | Some n => if bool_decide (lf_recent p ≠ Some n) then (Some n, p)
            else match l_next (fm_links (lf_F p)) !! n with Some n' => (Some n', p)
              | None => match nextNonEmpty (lf_F p) (lf_minFreq p) with
                  | Some next => (d_head (fm_queue (lf_F p) next), p) | None => (Some n, p) end end end).
      rewrite bool_decide_false; [|lia]. rewrite Hd. pose proof (nextNonEmpty_ok (lf_F p) (lf_minFreq p)) as Hn.
      destruct (nextNonEmpty (lf_F p) (lf_minFreq p)) as [b|].
      * destruct Hn as (B1 & B2 & B3).
        assert (lf_ok (Lfu (lf_F p) b (lf_size p) (lf_recent p)) s [] S) as HP'.
        { apply lf_ok_min; [done|]. intros c Hc. pose proof (H3 c Hc). destruct (decide (c = lf_minFreq p)) as [->|].
          - by apply (head_None_level p s [] S) in Hd.
          - destruct (decide (c < b)); [|lia]. destruct Hc. apply (head_None_level p s [] S); [done|]. apply B3; lia. }
        destruct (lf_step_head _ s S HP') as (n & e & -> & ?); [done|cbn; lia|]. split_and!; [done|done|by exists e].
      * assert (∀ c, level (counts s) c = []) as Hall.
        { intros c. apply (head_None_level p s [] S); [done|]. destruct (decide (lf_minFreq p < c)); [by apply Hn|].
          destruct (decide (c = lf_minFreq p)) as [->|]; [done|]. apply (head_None_level p s [] S); [done|].
          destruct (level (counts s) c) eqn:El; [done|]. assert (level (counts s) c ≠ []) as Hx%H3 by by rewrite El. lia. }
        exfalso. assert (S = ∅) as HS.
        { apply set_eq. intros e. split; [|set_solver]. intros He. destruct (fm_is_cover _ _ _ _ H1 He) as [c Hc].
          rewrite Hall in Hc. by apply elem_of_nil in Hc. }
        rewrite HS size_empty in H2. lia.
Qed.

Lemma lf_forget_at p S o e n F :
  lf_newest p S o → fm_at (lf_F p) e n →
  nd_entry (fm_nodes F) = nd_entry (fm_nodes (lf_F p)) → nd_data (fm_nodes F) = nd_data (fm_nodes (lf_F p)) →
  lf_newest (Lfu (fm_release F n e) (lf_minFreq p) (lf_size p - 1)
    (if decide (lf_recent p = Some n) then None else lf_recent p)) (S ∖ {[e]})
    (if decide (o = Some e) then None else o).
Proof.
  intros Ho Hat HE HD. pose proof (lf_newest_iff _ _ _ _ _ Ho Hat) as Hnew. unfold lf_newest in *. cbn.
  destruct (decide (lf_recent p = Some n)) as [Hr|Hr].
  - by rewrite decide_True; [|apply Hnew].
  - rewrite decide_False; [|by rewrite -Hnew]. destruct (lf_recent p) as [m|]; [|done].
    destruct o as [e'|]; [|done]. destruct Ho as [[Hd' He'] HeS].
    assert (e' ≠ e) as Hne. { intros ->. apply Hr. f_equal. destruct Hat. congruence. }
    split; [|set_solver]. assert (e'.1 ≠ e.1).
    { intros Heq. destruct Hat as [Hd He]. rewrite Heq Hd in Hd'. congruence. }
    split; cbn; rewrite ?HE ?HD lookup_delete_ne //. intros ->. destruct Hat. congruence.
Qed.

Lemma size_remove (S : gset (eref K)) e : e ∈ S → Z.of_nat (size (S ∖ {[e]})) = Z.of_nat (size S) - 1.
Proof.
  intros He. rewrite size_difference; [|set_solver]. rewrite size_singleton.
  assert (size S ≠ 0)%nat by (intros E%size_empty_inv; set_solver). lia.
Qed.

(** The end of [OnRemove]: the node of [e] is on no list. *)
Lemma lf_released p s S e n c F :
  lf_ok p s [] S → e ∈ level (counts s) c → fm_at (lf_F p) e n →
  fm_is F (setf (level (counts s)) c (without e (level (counts s) c))) [e] S →
  nd_entry (fm_nodes F) = nd_entry (fm_nodes (lf_F p)) → nd_data (fm_nodes F) = nd_data (fm_nodes (lf_F p)) →
  lf_ok (Lfu (fm_release F n e) (lf_minFreq p) (lf_size p - 1)
    (if decide (lf_recent p = Some n) then None else lf_recent p)) (lfu_forget s e) [] (S ∖ {[e]}).
Proof.
  intros [H1 H2 H3 H4 H5 H6] Hc Hat HU HE HD. assert (e ∈ S) by (eapply fm_is_elem; [exact H1|exact Hc]).
  constructor; cbn [lf_F lf_size lf_minFreq lf_recent counts latest lfu_forget].
  - eapply fm_is_ext; [|apply fm_is_release; [exact HU|unfold fm_at; rewrite HE HD; exact Hat]].
    intros j. rewrite level_strip. unfold setf. destruct (decide (j = c)) as [->|Hne]; [done|].
    apply without_notin. intros Hin. apply Hne.
    destruct (fm_is_node _ _ _ _ _ _ H1 Hin) as (n1 & [D1 _] & T1).
    destruct (fm_is_node _ _ _ _ _ _ H1 Hc) as (n2 & [D2 _] & T2). congruence.
  - rewrite H2 size_remove //.
  - intros j. rewrite level_strip. intros Hj. apply H3. intros E. by rewrite E in Hj.
  - by apply lf_forget_at.
  - by apply strip_nodup.
  - intros j. rewrite level_strip. intros Hj. apply H6. intros E. by rewrite E in Hj.
Qed.

(** The victim has been unlinked, and [OnRemove] follows. *)
Lemma lf_evict_ok p s S :
  lf_ok p s [] S →
  let '(o, p') := lf_Victim p in
  o = lfu_victim s ∧
  match o with
  | Some e => e ∈ S ∧ lf_ok (lf_OnRemove p' e) (lfu_forget s e) [] (S ∖ {[e]})
  | None => lf_ok p' s [] S ∧ S = ∅
  end.
Proof.
  intros HP. pose proof (lf_pick_ok p s S HP) as Hp. unfold lf_Victim.
  destruct (pick 2 p) as [[n|] q]; destruct Hp as (HF & HQ & Hv); [|destruct Hv; by split_and!].
  destruct Hv as (e & Hat & Hvic & [c Hc]). rewrite -HF in Hat. pose proof HQ as [H1 H2 H3 H4 H5 H6].
  rewrite (proj2 Hat) (freqAt_level q s [] S e c n HQ Hc Hat). split; [by rewrite Hvic|].
  assert (e ∈ S) as HeS by by eapply fm_is_elem. split; [done|].
  assert (∃ fl, fm_lists (lf_F q) !! c = Some fl) as [fl Hfl].
  { destruct (fm_lists (lf_F q) !! c) eqn:E; [eauto|]. pose proof (fm_is_head _ _ _ _ c H1) as Hh.
    unfold fm_queue in Hh. rewrite E in Hh. cbn in Hh. rewrite Hh in Hc. by apply elem_of_nil in Hc. }
  rewrite Hfl. set (F := dropEmpty (fm_unlink (lf_F q) c n) c).
  assert (fm_is F (setf (level (counts s)) c (without e (level (counts s) c))) [e] S) as HU.
  { apply dropEmpty_is. by apply fm_is_unlink. }
  assert (fm_nodes F = fm_nodes (fm_unlink (lf_F q) c n)) as HN by apply dropEmpty_nodes.
  assert (fm_at F e n) as HatF by (unfold fm_at; rewrite HN; done).
  unfold lf_OnRemove. cbn [lf_F]. rewrite (proj1 HatF).
  match goal with |- lf_ok (Lfu (fm_release ?G n e) _ _ _) _ _ _ => set (F' := G) end.
  assert (fm_is F' (setf (level (counts s)) c (without e (level (counts s) c))) [e] S ∧ fm_nodes F' = fm_nodes F) as [HU' HN'].
  { subst F'. destruct (_ && _); [|done]. destruct (fm_is_unlink_loose _ _ _ (freqAt F n) _ _ HU HatF) as [HL _].
    split; [by apply dropEmpty_is|]. rewrite (proj1 (dropEmpty_nodes _ _)).
    destruct HU as (ls & lo & l & HR & _ & Hlo). destruct (one_loose _ _ _ _ _ _ HR Hlo) as (n' & -> & [Hd' _]).
    assert (n' = n) as -> by (destruct HatF; congruence). by eapply fm_unlink_loose_rep. }
  apply (lf_released q s S e n c F'); [done..|by rewrite HN' HN|by rewrite HN' HN].
Qed.

Lemma lf_remove_ok p s S e :
  lf_ok p s [] S → e ∈ S → lf_ok (lf_OnRemove p e) (lfu_forget s e) [] (S ∖ {[e]}).
Proof.
  intros HP HeS. pose proof HP as [H1 H2 H3 H4 H5 H6]. destruct (fm_is_cover _ _ _ _ H1 HeS) as [c Hc].
  destruct (fm_is_node _ _ _ _ _ _ H1 Hc) as (n & Hat & Ht). unfold lf_OnRemove. rewrite (proj1 Hat).
  rewrite (freqAt_level p s [] S e c n HP Hc Hat).
  assert (bool_decide (is_Some (fm_lists (lf_F p) !! c)) &&
    (bool_decide (is_Some (l_next (fm_links (lf_F p)) !! n)) || bool_decide (is_Some (l_prev (fm_links (lf_F p)) !! n)) ||
     bool_decide (d_head (fm_queue (lf_F p) c) = Some n)) = true) as ->.
  { destruct H1 as (ls & lo & l & HR & Hf & _). pose proof (fr_list _ _ _ _ _ HR c) as HL.
    assert (n ∈ ls c) as Hn.
    { rewrite -Hf in Hc. destruct (fr_sub _ _ _ _ _ HR) as [_ Hs].
      destruct (ents_elem_node _ _ _ _ _ (fr_owns _ _ _ _ _ HR) (Hs c) Hc) as (n' & ? & _ & ?). destruct Hat. congruence. }
    apply andb_true_intro. split.
    - apply bool_decide_eq_true. destruct (fm_lists (lf_F p) !! c) eqn:E; [done|]. exfalso.
      pose proof (rep_head _ _ _ HL) as Hh. unfold fm_queue in Hh. rewrite E in Hh. cbn in Hh.
      by destruct (ls c); [apply elem_of_nil in Hn|].
    - rewrite !orb_true_iff !bool_decide_eq_true. destruct (list_elem_of_split _ _ Hn) as (l1 & l2 & El).
      rewrite El in HL. destruct (rep_node _ _ _ _ _ HL) as [-> _]. destruct l1 as [|y l1].
      + right. rewrite (rep_head _ _ _ HL). done.
      + left. right. by apply last_is_Some_cons. }
  set (F := dropEmpty (fm_unlink (lf_F p) c n) c).
  assert (fm_is F (setf (level (counts s)) c (without e (level (counts s) c))) [e] S) as HU.
  { apply dropEmpty_is. by apply fm_is_unlink. }
  assert (fm_nodes F = fm_nodes (fm_unlink (lf_F p) c n)) as HN by apply dropEmpty_nodes.
  apply (lf_released p s S e n c F); [done..|by rewrite HN|by rewrite HN].
Qed.

Lemma lf_insert_ok p s S e :
  lf_ok p s [] S → (∀ e', e' ∈ S → e'.1 ≠ e.1) →
  lf_ok (lf_OnInsert p e) (lfu_spec s (PInsert e)) [] ({[e]} ∪ S).
Proof.
  intros [H1 H2 H3 H4 H5 H6] Hid. destruct (fm_is_alloc _ _ _ _ H1 Hid) as [HA Hat].
  assert (e ∉ S) as HeS by (intros He; by apply (Hid e He)).
  assert (∀ c, level (counts s ++ [(e, 1)]) c ≠ [] → 1 <= c) as Hpos.
  { intros c. rewrite level_app level_cons. cbn [fst snd]. destruct (decide (1 = c)); [lia|]. rewrite app_nil_r. apply H6. }
  constructor; cbn [lf_OnInsert lfu_spec lf_F lf_size lf_minFreq lf_recent counts latest]; [| |done| | |done].
  - eapply fm_is_ext; [|by apply fm_is_pushTail]. intros j. rewrite level_app level_cons. unfold setf. cbn [fst snd level].
    destruct (decide (j = 1)) as [->|Hne]; [done|]. rewrite decide_False; [|lia]. by rewrite app_nil_r.
  - rewrite H2 size_union; [|set_solver]. rewrite size_singleton. lia.
  - split; [done|set_solver].
  - rewrite fmap_app. apply NoDup_app. split; [done|]. split; [|by apply NoDup_singleton].
    cbn. intros x Hx ->%list_elem_of_singleton. apply HeS. apply list_elem_of_fmap in Hx as ([e' c] & -> & Hx).
    cbn. eapply (fm_is_elem _ _ _ _ _ c H1). by apply elem_of_level.
Qed.

Lemma lf_access_ok p s S e :
  lf_ok p s [] S → e ∈ S → lf_ok (lf_OnAccess p e) (lfu_spec s (PAccess e)) [] S.
Proof.
  intros HP HeS. pose proof HP as [H1 H2 H3 H4 H5 H6]. destruct (fm_is_cover _ _ _ _ H1 HeS) as [c Hc].
  destruct (fm_is_node _ _ _ _ _ _ H1 Hc) as (n & Hat & Ht). unfold lf_OnAccess. rewrite (proj1 Hat).
  rewrite (freqAt_level p s [] S e c n HP Hc Hat). cbn [lfu_spec].
  rewrite (count_of_elem _ e c H5); [|by apply elem_of_level].
  set (F := fm_unlink (lf_F p) c n).
  pose proof (fm_is_unlink _ _ _ _ _ _ _ H1 Hc Hat) as HU. fold F in HU.
  assert (∀ j, level (strip e (counts s)) j = setf (level (counts s)) c (without e (level (counts s) c)) j) as Hlev.
  { intros j. rewrite level_strip. unfold setf. destruct (decide (j = c)) as [->|Hne]; [done|].
    apply without_notin. intros Hin. apply Hne. destruct (fm_is_node _ _ _ _ _ _ H1 Hin) as (n1 & [D1 _] & T1).
    destruct (fm_is_node _ _ _ _ _ _ H1 Hc) as (n2 & [D2 _] & T2). congruence. }
  assert (∀ j, level (strip e (counts s) ++ [(e, c + 1)]) j ≠ [] → j = c + 1 ∨ level (counts s) j ≠ []) as Hne.
  { intros j. rewrite level_app level_cons level_strip. cbn [fst snd]. destruct (decide (c + 1 = j)); [by left|].
    rewrite app_nil_r. intros Hj. right. intros E. by rewrite E in Hj. }
  assert (1 <= c /\ lf_minFreq p <= c) as [Hc1 Hcm].
  { split; [apply H6|apply H3]; intros E; rewrite E in Hc; by apply elem_of_nil in Hc. }
  constructor; cbn [lf_F lf_size lf_minFreq lf_recent counts latest]; [|done| | | |].
  - eapply fm_is_ext; [|apply fm_is_pushTail; [apply dropEmpty_is; eapply fm_is_ext; [exact Hlev|exact HU]|]].
    + intros j. rewrite level_app level_cons. cbn [fst snd]. unfold setf at 1. destruct (decide (j = c + 1)) as [->|Hj].
      * by rewrite decide_True.
      * rewrite decide_False; [by rewrite app_nil_r|lia].
    + unfold fm_at. rewrite (proj1 (dropEmpty_nodes F c)). exact Hat.
  - intros j Hj. destruct (bool_decide_reflect (lf_minFreq p = c)) as [Hm|Hm]; [|rewrite andb_false_r].
    + rewrite andb_true_r. destruct (bucketEmpty F c) eqn:Hb.
      * rewrite Hm in H3. destruct (Hne j Hj) as [->|Hj']; [lia|]. specialize (H3 j Hj').
        destruct (decide (j = c)) as [->|]; [|lia]. exfalso. apply Hj. rewrite level_app level_cons. cbn [fst snd].
        rewrite decide_False; [|lia]. rewrite app_nil_r. pose proof (fm_is_head _ _ _ _ c HU) as Hh.
        unfold bucketEmpty in Hb. apply bool_decide_eq_true in Hb. rewrite Hb in Hh. by rewrite Hlev.
      * destruct (Hne j Hj) as [->|Hj'%H3]; lia.
    + destruct (Hne j Hj) as [->|Hj'%H3]; lia.
  - revert H4. unfold lf_newest. cbn. destruct (lf_recent p), (latest s); try done.
    unfold fm_at. cbn. by rewrite (proj1 (dropEmpty_nodes F c)).
  - rewrite fmap_app. apply NoDup_app. split; [by apply strip_nodup|]. split; [|by apply NoDup_singleton].
    cbn. by intros x [_ ?]%strip_elem ->%list_elem_of_singleton.
  - intros j Hj. destruct (Hne j Hj) as [->|Hj'%H6]; lia.
Qed.

Lemma lf_reset_ok p : lf_ok (lf_Reset p) (LfuState [] None) [] ∅.
Proof. constructor; cbn; try done; [by apply fm_is_empty|by apply NoDup_nil]. Qed.

Lemma lf_new_ok : lf_ok newLFU (LfuState [] None) [] ∅.
Proof. constructor; cbn; try done; [by apply fm_is_empty|by apply NoDup_nil]. Qed.

Lemma lf_ok_held p s S e : lf_ok p s [] S → e ∈ (counts s).*1 ↔ e ∈ S.
Proof.
  intros [H1 _ _ _ _ _]. split.
  - intros ([e' c] & -> & Hx)%list_elem_of_fmap. eapply (fm_is_elem _ _ _ _ _ c H1). by apply elem_of_level.
  - intros He. destruct (fm_is_cover _ _ _ _ H1 He) as [c Hc%elem_of_level]. apply list_elem_of_fmap. by exists (e, c).
Qed.

#[export] Program Instance lf_laws : PolicyLaws K lfuPolicy := { tracks := lf_tracks }.
Next Obligation. intros p S e [s HP] Hid. eexists. by apply lf_insert_ok. Qed.
Next Obligation. intros p S e [s HP] He. eexists. by apply lf_access_ok. Qed.
Next Obligation. intros p S e [s HP] He. eexists. by apply lf_access_ok. Qed.
Next Obligation. intros p S e [s HP] He. eexists. by apply lf_remove_ok. Qed.
Next Obligation.
  intros p S [s HP]. pose proof (lf_evict_ok p s S HP) as Hv. change (Victim p) with (lf_Victim p).
  destruct (lf_Victim p) as [[e|] p']; destruct Hv as [_ Hv]; cbn.
  - destruct Hv as [He HP']. split; [done|]. by eexists.
  - exists s. apply Hv.
Qed.
Next Obligation. done. Qed.
Next Obligation.
  intros p S b [s HP] Hs. unfold shedVictim. pose proof (lf_evict_ok p s S HP) as Hv. change (Victim p) with (lf_Victim p).
  destruct (lf_Victim p) as [[e|] p']; [done|]. destruct Hv as (_ & _ & ->). rewrite size_empty in Hs. destruct b; lia.
Qed.
Next Obligation. intros p S [s HP]. exact (lo_size _ _ _ _ HP). Qed.
Next Obligation. intros p S _. eexists. by apply lf_reset_ok. Qed.
Next Obligation. done. Qed.
Next Obligation. done. Qed.

Lemma lf_step_ok p s S o :
  lf_ok p s [] S → pop_ok (counts s).*1 o → ∃ S', lf_ok (pol_step p o) (lfu_spec s o) [] S'.
Proof.
  intros HP Ho. destruct o as [e|e|e|e| |]; cbn in Ho.
  - eexists. apply lf_insert_ok; [done|]. intros e' He'%(lf_ok_held p s S e' HP) Heq. apply Ho. rewrite -Heq.
    by apply list_elem_of_fmap_2.
  - eexists. apply lf_access_ok; [done|]. by apply (lf_ok_held p s S e HP).
  - eexists. apply (lf_access_ok p s S e); [done|]. by apply (lf_ok_held p s S e HP).
  - eexists. apply lf_remove_ok; [done|]. by apply (lf_ok_held p s S e HP).
  - pose proof (lf_evict_ok p s S HP) as Hv. cbn [pol_step lfu_spec]. change (Victim p) with (lf_Victim p).
    destruct (lf_Victim p) as [o p']. destruct Hv as [<- Hv]. destruct o as [e|]; [|eexists; apply Hv].
    eexists. apply Hv.
  - eexists. apply lf_reset_ok.
Qed.

(** C31: driven by any sequence of calls a shard can make, the linked buckets
    implement least-frequently-used on a list of access counts: at every
    count the bucket lists the entries with that many accesses in the order
    they reached it, and what [Victim] gives up is the first entry with the
    lowest count, the one inserted last passed over while another is left. *)
Theorem lfu_refines os :
  calls_ok (λ s, (counts s).*1) lfu_spec (LfuState [] None) os →
  let p := foldl pol_step newLFU os in
  let s := foldl lfu_spec (LfuState [] None) os in
  (∀ c, fm_ents (lf_F p) c = level (counts s) c) ∧ (lf_Victim p).1 = lfu_victim s.
Proof.
  pose proof lf_new_ok as HP. revert HP. generalize newLFU, (LfuState [] None), (∅ : gset (eref K)).
  induction os as [|o os IH]; intros p s S HP Hok; cbn [foldl].
  - split; [intros c; exact (fm_is_ents _ _ _ _ _ (lo_F _ _ _ _ HP))|].
    pose proof (lf_evict_ok p s S HP) as Hv. by destruct (lf_Victim p) as [o p'], Hv as [-> _].
  - destruct Hok as [Ho Hok]. destruct (lf_step_ok p s S o HP Ho) as [S' HP']. by eapply IH.
Qed.
End lfu.
Arguments lfuPolicy : clear implicits.

Lemma lfu_refines_witness :
  let e (n : positive) : eref Z := (n, Z.pos n) in
  let p := foldl pol_step newLFU [PInsert (e 1%positive); PInsert (e 2%positive); PAccess (e 1%positive); PInsert (e 3%positive)] in
  fm_ents (lf_F p) 1 = [e 2%positive; e 3%positive] ∧ fm_ents (lf_F p) 2 = [e 1%positive] ∧ (lf_Victim p).1 = Some (e 2%positive).
Proof.
  cbv zeta. match goal with |- fm_ents (lf_F (foldl _ _ ?os)) _ = _ ∧ _ => destruct (lfu_refines os) as [HL HV] end.
  - vm_compute. repeat split; set_solver.
  - rewrite !HL HV. split_and!; reflexivity.
Defined.
