(* ===== verification/Sketch.v ===== *)
(** * Sketch: hashing and the probabilistic filters ([internal/sketch])

    SipHash-2-4 and the splitmix64 mixer ([hash.go]), the bloom filter
    ([bloom.go]) and the 4-bit count-min sketch ([cms.go]).  A [uint64] is a
    [Z] kept in range by [u64]; the rows and bit arrays are lists.

    Shown here: the mixer is injective, so distinct integer keys never
    collide; the bloom filter has no false negatives; the estimate of the
    sketch is at least the true count (up to the saturation at 15), and
    [Reset] halves every counter. *)

From S2P Require Import Prelude.

#[local] Open Scope Z_scope.

(** ** [hash.go] *)

Definition rotl (x n : Z) : Z := Z.lor (u64 (Z.shiftl x n)) (Z.shiftr x (64 - n)).

Definition sipRound (v : Z * Z * Z * Z) : Z * Z * Z * Z :=
  let '(v0, v1, v2, v3) := v in
  let v0 := u64 (v0 + v1) in
  let v1 := rotl v1 13 in
  let v1 := Z.lxor v1 v0 in
  let v0 := rotl v0 32 in
  let v2 := u64 (v2 + v3) in
  let v3 := rotl v3 16 in
  let v3 := Z.lxor v3 v2 in
  let v0 := u64 (v0 + v3) in
  let v3 := rotl v3 21 in
  let v3 := Z.lxor v3 v0 in
  let v2 := u64 (v2 + v1) in
  let v1 := rotl v1 17 in
  let v1 := Z.lxor v1 v2 in
  let v2 := rotl v2 32 in
  (v0, v1, v2, v3).

(** [binary.LittleEndian.Uint64] of up to eight bytes. *)
Fixpoint le_bytes (bs : list Z) : Z :=
  match bs with [] => 0 | b :: bs => Z.lor b (Z.shiftl (le_bytes bs) 8) end.

(** One block of the loop, and of the last block. *)
Definition sip_block (v : Z * Z * Z * Z) (m : Z) : Z * Z * Z * Z :=
  let '(v0, v1, v2, v3) := v in
  let '(v0, v1, v2, v3) := sipRound (sipRound (v0, v1, v2, Z.lxor v3 m)) in
  (Z.lxor v0 m, v1, v2, v3).

Fixpoint sip_blocks (n : nat) (v : Z * Z * Z * Z) (data : list Z) : (Z * Z * Z * Z) * list Z :=
  match n with
  | O => (v, data)
  | S n => sip_blocks n (sip_block v (le_bytes (take 8 data))) (drop 8 data)
  end.

Definition SipHash24 (k0 k1 : Z) (data : list Z) : Z :=
  let v := (Z.lxor k0 0x736f6d6570736575, Z.lxor k1 0x646f72616e646f6d,
            Z.lxor k0 0x6c7967656e657261, Z.lxor k1 0x7465646279746573) in
  let n := length data in
  let '(v, rest) := sip_blocks (n / 8)%nat v data in
  let b := Z.lor (u64 (Z.shiftl (Z.of_nat n) 56)) (le_bytes rest) in
  let '(v0, v1, v2, v3) := sip_block v b in
  let '(v0, v1, v2, v3) := sipRound (sipRound (sipRound (sipRound (v0, v1, Z.lxor v2 0xff, v3)))) in
  Z.lxor (Z.lxor (Z.lxor v0 v1) v2) v3.

Definition MixUint64 (x : Z) : Z :=
  let x := Z.lxor x (Z.shiftr x 30) in
  let x := u64 (x * 0xbf58476d1ce4e5b9) in
  let x := Z.lxor x (Z.shiftr x 27) in
  let x := u64 (x * 0x94d049bb133111eb) in
  Z.lxor x (Z.shiftr x 31).

(** ** [bloom.go] *)

Record Bloom := MkBloom { bl_bits : list Z; bl_mask : Z; bl_seeds : list Z }.

Implicit Types (b : Bloom) (h : Z).

(** [bits <<= 1] while [bits < target]; 56 doublings of 64 reach [2^62]. *)
Fixpoint grow (fuel : nat) (bits target : Z) : Z :=
  match fuel with
  | O => bits
  | S fuel => if bool_decide (bits < target) then grow fuel (i64 (Z.shiftl bits 1)) target else bits
  end.

Definition NewBloom (expected : Z) (seeds : list Z) : Bloom :=
  let seeds := if bool_decide (Z.of_nat (length seeds) < 4)
               then (λ i : nat, MixUint64 (u64 (0x6a09e667f3bcc908 + Z.of_nat i))) <$> seq 0 4
               else seeds in
  let target := Z.max (i64 (expected * 8)) 64 in
  let bits := grow 57 64 target in
  MkBloom (replicate (Z.to_nat (bits / 64)) 0) (bits - 1) (take 4 seeds).

(** The bit of [h] under seed [s]. *)
Definition bit_of b h (s : Z) : Z := Z.land (MixUint64 (Z.lxor h s)) (bl_mask b).

Definition word_of (bit : Z) : nat := Z.to_nat (Z.shiftr bit 6).
Definition bit_mask (bit : Z) : Z := u64 (Z.shiftl 1 (Z.land bit 63)).

Definition bl_Test b h : bool :=
  forallb (λ s, let bit := bit_of b h s in
                negb (bool_decide (Z.land (bl_bits b !!! word_of bit) (bit_mask bit) = 0)))
    (bl_seeds b).

Definition set_bit (bits : list Z) (bit : Z) : list Z :=
  <[word_of bit := Z.lor (bits !!! word_of bit) (bit_mask bit)]> bits.

Definition bl_Set b h : Bloom :=
  MkBloom (foldl (λ bits s, set_bit bits (bit_of b h s)) (bl_bits b) (bl_seeds b)) (bl_mask b) (bl_seeds b).

Definition bl_TestAndSet b h : bool * Bloom :=
  let '(seen, bits) := foldl (λ '(seen, bits) s,
      let bit := bit_of b h s in
      (if bool_decide (Z.land (bits !!! word_of bit) (bit_mask bit) = 0) then false else seen,
       set_bit bits bit)) (true, bl_bits b) (bl_seeds b) in
  (seen, MkBloom bits (bl_mask b) (bl_seeds b)).

Definition bl_Reset b : Bloom := MkBloom (replicate (length (bl_bits b)) 0) (bl_mask b) (bl_seeds b).

(** ** [cms.go] *)

Record CountMinSketch := CMS { cm_rows : list (list Z); cm_mask : Z; cm_depth : nat; cm_seeds : list Z }.

Implicit Types (c : CountMinSketch).

Definition cms_New (expected : Z) (seeds : list Z) : CountMinSketch :=
  let seeds := if bool_decide (Z.of_nat (length seeds) < 4)
               then (λ i : nat, MixUint64 (u64 (0xa3f7c1d2e8b95406 + Z.of_nat i))) <$> seq 0 4
               else seeds in
  let w := grow 57 64 (Z.max (i64 (expected * 10)) 64) in
  CMS (replicate 4 (replicate (Z.to_nat (w / 2)) 0)) (w - 1) 4 (take 4 seeds).

Definition cm_read c (row : nat) (col : Z) : Z :=
  let b := (cm_rows c !!! row) !!! Z.to_nat (col / 2) in
  if bool_decide (Z.land col 1 = 0) then Z.land b 0x0f else Z.land (Z.shiftr b 4) 0x0f.

Definition cm_write c (row : nat) (col v : Z) : CountMinSketch :=
  let v := Z.land v 0x0f in
  let off := Z.to_nat (col / 2) in
  let b := (cm_rows c !!! row) !!! off in
  let b := if bool_decide (Z.land col 1 = 0) then Z.lor (Z.land b 0xf0) v
           else Z.lor (Z.land b 0x0f) (Z.shiftl v 4) in
  CMS (<[row := <[off := b]> (cm_rows c !!! row)]> (cm_rows c)) (cm_mask c) (cm_depth c) (cm_seeds c).

Definition col_of c h (i : nat) : Z := Z.land (MixUint64 (Z.lxor h (cm_seeds c !!! i))) (cm_mask c).

(** The lowest counter of [h], at most 15. *)
Definition cm_Estimate c h : Z :=
  foldl (λ lowest i, let v := cm_read c i (col_of c h i) in
                     if bool_decide (v < lowest) then v else lowest) 15 (seq 0 (cm_depth c)).

Definition cm_Increment c h : CountMinSketch :=
  let lowest := cm_Estimate c h in
  let cols := col_of c h in
  if bool_decide (15 <= lowest) then c
  else foldl (λ c i, let col := cols i in
                     let v := cm_read c i col in
                     if bool_decide (v = lowest) then cm_write c i col (v + 1) else c)
         c (seq 0 (cm_depth c)).

Definition halve_byte (b : Z) : Z :=
  let low := Z.shiftr (Z.land b 0x0f) 1 in
  let high := Z.land (Z.shiftr (Z.land b 0xf0) 1) 0xf0 in
  Z.lor high low.

Definition cm_Reset c : CountMinSketch :=
  CMS (map (map halve_byte) (cm_rows c)) (cm_mask c) (cm_depth c) (cm_seeds c).

#[global] Arguments MixUint64 : simpl never.
#[global] Arguments bl_Test : simpl never.
#[global] Arguments bl_TestAndSet : simpl never.

(** ** The mixer is injective *)

Lemma xorshift_inj x y n :
  0 <= x → 0 <= y → 0 < n → Z.lxor x (Z.shiftr x n) = Z.lxor y (Z.shiftr y n) → x = y.
Proof.
  intros Hx Hy Hn He. apply Z.lxor_eq. set (d := Z.lxor x y).
  assert (0 <= d) as Hd by (apply Z.lxor_nonneg; tauto).
  assert (d = Z.shiftr d n) as Hs.
  { apply Z.lxor_eq. unfold d. rewrite Z.shiftr_lxor. apply Z.bits_inj_0. intros i.
    apply (f_equal (λ z, Z.testbit z i)) in He. rewrite !Z.lxor_spec in He |- *.
    by destruct (Z.testbit x i), (Z.testbit y i), (Z.testbit (Z.shiftr x n) i), (Z.testbit (Z.shiftr y n) i). }
  rewrite Z.shiftr_div_pow2 in Hs; [|lia]. destruct (decide (d = 0)) as [|Hz]; [done|].
  pose proof (Z.div_lt d (2 ^ n) ltac:(lia)) as Hl. assert (1 < 2 ^ n) by (apply Z.pow_gt_1; lia). lia.
Qed.

Lemma mul_inj x y k k' :
  is_u64 x → is_u64 y → u64 (k * k') = 1 → u64 (x * k) = u64 (y * k) → x = y.
Proof.
  intros Hx Hy Hk He. unfold u64 in *.
  assert (∀ z, is_u64 z → ((z * k) `mod` 2 ^ 64 * k') `mod` 2 ^ 64 = z) as Hi.
  { intros z Hz. rewrite Zmult_mod_idemp_l -Z.mul_assoc -Zmult_mod_idemp_r Hk Z.mul_1_r.
    by apply Z.mod_small. }
  rewrite -(Hi x) // -(Hi y) // He //.
Qed.

Lemma xorshift_range x n : is_u64 x → 0 <= n → is_u64 (Z.lxor x (Z.shiftr x n)).
Proof.
  intros Hx Hn. unfold is_u64 in *. assert (0 <= Z.shiftr x n) by (apply Z.shiftr_nonneg; lia).
  assert (0 <= Z.lxor x (Z.shiftr x n)) as H0 by (apply Z.lxor_nonneg; lia). split; [done|].
  rewrite -(Z.mod_small x (2 ^ 64)) // -Z.land_ones //.
  assert (Z.shiftr (Z.land x (Z.ones 64)) n = Z.land (Z.shiftr x n) (Z.ones 64)) as ->.
  { rewrite !Z.land_ones // Z.mod_small // Z.mod_small //. split; [done|]. rewrite Z.shiftr_div_pow2 //.
    pose proof (Z.div_le_upper_bound x (2 ^ n) x ltac:(lia) ltac:(nia)). lia. }
  replace (Z.lxor _ _) with (Z.land (Z.lxor x (Z.shiftr x n)) (Z.ones 64)).
  - rewrite Z.land_ones //. by apply Z.mod_pos_bound.
  - apply Z.bits_inj'. intros i Hi. rewrite !Z.land_spec !Z.lxor_spec !Z.land_spec.
    by destruct (Z.testbit x i), (Z.testbit (Z.shiftr x n) i), (Z.testbit (Z.ones 64) i).
Qed.

Lemma Mix_inj x y : is_u64 x → is_u64 y → MixUint64 x = MixUint64 y → x = y.
Proof.
  intros Hx Hy. unfold MixUint64. cbv zeta. intros He.
  apply xorshift_inj in He; [|apply u64_range..|done].
  apply (mul_inj _ _ _ 0x319642b2d24d8ec3) in He; [|by apply xorshift_range; [apply u64_range|]..|done].
  apply xorshift_inj in He; [|apply u64_range..|done].
  apply (mul_inj _ _ _ 0x96de1b173f119089) in He; [|by apply xorshift_range..|done].
  apply xorshift_inj in He; [done|apply Hx|apply Hy|done].
Qed.

(** ** The bloom filter *)

(** The bit is set. *)
Definition has_bit (bits : list Z) (bit : Z) : Prop := Z.land (bits !!! word_of bit) (bit_mask bit) ≠ 0.

(** [mask + 1] bits, a power of two. *)
Definition bloom_wf b : Prop :=
  ∃ k : Z, 6 <= k ∧ bl_mask b = 2 ^ k - 1 ∧ Z.of_nat (length (bl_bits b)) = 2 ^ (k - 6).

Lemma land_mask_range x k : 0 <= k → 0 <= Z.land x (2 ^ k - 1) < 2 ^ k.
Proof.
  intros Hk. replace (2 ^ k - 1) with (Z.ones k) by (rewrite Z.ones_equiv; lia).
  rewrite Z.land_ones //. apply Z.mod_pos_bound. lia.
Qed.

Lemma bit_word_lt b h s : bloom_wf b → (word_of (bit_of b h s) < length (bl_bits b))%nat.
Proof.
  intros (k & Hk & Hm & Hl). unfold word_of, bit_of. rewrite Hm.
  pose proof (land_mask_range (MixUint64 (Z.lxor h s)) k ltac:(lia)) as [H0 H1].
  rewrite Z.shiftr_div_pow2 //. assert (2 ^ k = 2 ^ (k - 6) * 2 ^ 6) as Hp by (rewrite -Z.pow_add_r; [f_equal; lia|lia..]).
  pose proof (Z.div_lt_upper_bound (Z.land (MixUint64 (Z.lxor h s)) (2 ^ k - 1)) (2 ^ 6) (2 ^ (k - 6)) ltac:(lia) ltac:(lia)).
  assert (0 <= Z.land (MixUint64 (Z.lxor h s)) (2 ^ k - 1) / 2 ^ 6) by (apply Z.div_pos; lia). lia.
Qed.

Lemma bit_mask_pow bit : bit_mask bit = 2 ^ Z.land bit 63.
Proof.
  unfold bit_mask. pose proof (land_mask_range bit 6 ltac:(lia)) as Hr. change (2 ^ 6 - 1) with 63 in Hr.
  rewrite Z.shiftl_1_l u64_id //. split; [lia|]. apply Z.pow_lt_mono_r; lia.
Qed.

Lemma set_bit_has bits bit : (word_of bit < length bits)%nat → has_bit (set_bit bits bit) bit.
Proof.
  intros Hl. unfold has_bit, set_bit. rewrite list_lookup_total_insert_eq //.
  rewrite Z.land_lor_distr_l Z.land_diag Z.lor_eq_0_iff bit_mask_pow.
  pose proof (land_mask_range bit 6 ltac:(lia)) as Hr. change (2 ^ 6 - 1) with 63 in Hr. intros [_ Hz]. lia.
Qed.

Lemma set_bit_mono bits bit bit' : has_bit bits bit → has_bit (set_bit bits bit') bit.
Proof.
  unfold has_bit, set_bit. intros Hb. destruct (decide (word_of bit' = word_of bit)) as [He|He].
  - rewrite He. destruct (decide (word_of bit < length bits)%nat) as [Hl|Hl].
    + rewrite list_lookup_total_insert_eq // Z.land_lor_distr_l Z.lor_eq_0_iff. tauto.
    + by rewrite list_insert_ge; [|lia].
  - by rewrite list_lookup_total_insert_ne.
Qed.

Lemma length_set_bit bits bit : length (set_bit bits bit) = length bits.
Proof. apply length_insert. Qed.

Lemma Test_has b h : bl_Test b h = true ↔ ∀ s, s ∈ bl_seeds b → has_bit (bl_bits b) (bit_of b h s).
Proof.
  unfold bl_Test, has_bit. rewrite forallb_forall. setoid_rewrite negb_true_iff.
  setoid_rewrite bool_decide_eq_false. by setoid_rewrite list_elem_of_In.
Qed.

(** The bits after the loop of [Set]: all of [h]'s and the ones before. *)
Lemma Set_bits b h (l : list Z) bits :
  bloom_wf b → length bits = length (bl_bits b) →
  let bits' := foldl (λ bits s, set_bit bits (bit_of b h s)) bits l in
  length bits' = length (bl_bits b) ∧ (∀ s, s ∈ l → has_bit bits' (bit_of b h s)) ∧
  (∀ x, has_bit bits x → has_bit bits' x).
Proof.
  intros Hwf. revert bits. induction l as [|s l IH]; intros bits Hl; cbn; [by split_and!; [|set_solver|]|].
  destruct (IH (set_bit bits (bit_of b h s))) as (I1 & I2 & I3); [by rewrite length_set_bit|].
  split_and!; [done| |intros; by apply I3, set_bit_mono].
  intros s' [->|Hs]%elem_of_cons; [|by apply I2]. apply I3, set_bit_has. rewrite Hl. by apply bit_word_lt.
Qed.

Lemma Set_wf b h : bloom_wf b → bloom_wf (bl_Set b h).
Proof.
  intros Hwf. destruct (Set_bits b h (bl_seeds b) (bl_bits b) Hwf eq_refl) as (L & _).
  destruct Hwf as (k & ? & ? & ?). exists k. cbn. by rewrite L.
Qed.

(** A key that was set tests true, whatever was set since. *)
Lemma Test_after b h hs :
  bloom_wf b → h ∈ hs ∨ bl_Test b h = true → bl_Test (foldl bl_Set b hs) h = true.
Proof.
  revert b. induction hs as [|h' hs IH]; intros b Hwf; cbn; [by intros [?%elem_of_nil|]|].
  intros Hor. apply IH; [by apply Set_wf|].
  destruct (Set_bits b h' (bl_seeds b) (bl_bits b) Hwf eq_refl) as (_ & S1 & S2).
  rewrite !Test_has in Hor |- *. destruct Hor as [[->|Hin]%elem_of_cons|Ht]; [right; by apply S1|by left|right].
  intros s Hs. by apply S2, Ht.
Qed.

(** Setting a bit that is set changes nothing. *)
Lemma set_bit_id bits bit : has_bit bits bit → set_bit bits bit = bits.
Proof.
  unfold has_bit, set_bit. rewrite bit_mask_pow. set (w := bits !!! word_of bit). set (e := Z.land bit 63). intros Hb.
  assert (0 <= e) as He by apply (land_mask_range bit 6 ltac:(lia)).
  assert (Z.testbit w e = true) as Ht.
  { destruct (Z.testbit w e) eqn:Ht; [done|]. exfalso. apply Hb, Z.bits_inj'. intros i Hi.
    rewrite Z.land_spec Z.pow2_bits_eqb // Z.bits_0. destruct (Z.eqb_spec e i) as [<-|]; [by rewrite Ht|apply andb_false_r]. }
  assert (Z.lor w (2 ^ e) = w) as ->.
  { apply Z.bits_inj'. intros i Hi. rewrite Z.lor_spec Z.pow2_bits_eqb //.
    destruct (Z.eqb_spec e i) as [<-|]; [by rewrite Ht|apply orb_false_r]. }
  destruct (decide (word_of bit < length bits)%nat) as [Hl|Hl]; [|by apply list_insert_ge; lia].
  apply list_insert_id. subst w. by apply list_lookup_lookup_total_lt.
Qed.

(** The loop of [TestAndSet] tests against the bits set so far, which makes
    no difference. *)
Lemma TestAndSet_eq b h : bl_TestAndSet b h = (bl_Test b h, bl_Set b h).
Proof.
  unfold bl_TestAndSet, bl_Set, bl_Test.
  assert (∀ l seen bits, foldl (λ '(seen, bits) s,
      let bit := bit_of b h s in
      (if bool_decide (Z.land (bits !!! word_of bit) (bit_mask bit) = 0) then false else seen,
       set_bit bits bit)) (seen, bits) l =
    (seen && forallb (λ s, negb (bool_decide (Z.land (bits !!! word_of (bit_of b h s)) (bit_mask (bit_of b h s)) = 0))) l,
     foldl (λ bits s, set_bit bits (bit_of b h s)) bits l)) as Hf.
  { induction l as [|s l IH]; intros seen bits; cbn; [by rewrite andb_true_r|]. rewrite IH.
    case_bool_decide as Hb; cbn; [by rewrite andb_false_r|]. by rewrite (set_bit_id bits). }
  by rewrite Hf.
Qed.

Lemma Reset_wf b : bloom_wf b → bloom_wf (bl_Reset b).
Proof. intros (k & ? & ? & ?). exists k. cbn. by rewrite length_replicate. Qed.

Lemma Reset_Test b h : bloom_wf b → bl_seeds b ≠ [] → bl_Test (bl_Reset b) h = false.
Proof.
  intros Hwf Hs. destruct (bl_Test (bl_Reset b) h) eqn:Ht; [|done]. exfalso. rewrite Test_has in Ht.
  destruct (bl_seeds b) as [|s l] eqn:E; [done|]. apply (Ht s); [cbn; rewrite E; left|].
  pose proof (bit_word_lt (bl_Reset b) h s (Reset_wf b Hwf)) as Hl. cbn in Hl |- *. rewrite length_replicate in Hl.
  by rewrite lookup_total_replicate_2.
Qed.

(** [grow] doubles until the target is reached. *)
Lemma grow_spec fuel (j : nat) target :
  (j + fuel = 57)%nat → target <= 2 ^ 62 →
  ∃ j' : nat, (j' <= 57)%nat ∧ (j <= j')%nat ∧ grow fuel (2 ^ (6 + Z.of_nat j)) target = 2 ^ (6 + Z.of_nat j') ∧
    target <= 2 ^ (6 + Z.of_nat j').
Proof.
  intros Hj Ht. revert j Hj. induction fuel as [|fuel IH]; intros j Hj; cbn.
  - exists j. split_and!; [lia|lia|done|]. assert (j = 57%nat) as -> by lia. lia.
  - case_bool_decide as Hb; [|exists j; split_and!; [lia|lia|done|lia]].
    assert (2 ^ (6 + Z.of_nat j) < 2 ^ 62) as Hp by lia. apply Z.pow_lt_mono_r_iff in Hp; [|lia..].
    rewrite Z.shiftl_mul_pow2 // -Z.pow_add_r; [|lia..]. replace (6 + Z.of_nat j + 1) with (6 + Z.of_nat (S j)) by lia.
    rewrite i64_id.
    + destruct (IH (S j)) as (j' & J1 & J2 & J3 & J4); [lia|]. exists j'. split_and!; [lia|lia|done|done].
    + split; [lia|]. apply Z.pow_lt_mono_r; lia.
Qed.

Lemma pow_split (k : Z) : 6 <= k → 2 ^ k / 64 = 2 ^ (k - 6).
Proof. intros Hk. change 64 with (2 ^ 6). by rewrite -Z.pow_sub_r; [|lia..]. Qed.

Lemma NewBloom_wf expected seeds :
  0 <= expected <= 2 ^ 59 → bloom_wf (NewBloom expected seeds) ∧ bl_seeds (NewBloom expected seeds) ≠ [].
Proof.
  intros He. unfold NewBloom.
  destruct (grow_spec 57 0 (Z.max (i64 (expected * 8)) 64)) as (j & J1 & _ & Hg & _);
    [done|rewrite i64_id; [lia|unfold is_i64; lia]|].
  change (2 ^ (6 + Z.of_nat 0)) with 64 in Hg. rewrite Hg. split.
  - exists (6 + Z.of_nat j). cbn. split_and!; [lia|done|]. rewrite length_replicate pow_split; [|lia].
    rewrite Z2Nat.id; [f_equal; lia|apply Z.pow_nonneg; lia].
  - cbn. case_bool_decide as Hs; [done|]. destruct seeds as [|? ?]; [cbn in Hs; lia|done].
Qed.

(** ** The count-min sketch *)

(** [depth] rows of [mask + 1] counters, two to a byte. *)
Definition cms_wf c : Prop :=
  length (cm_rows c) = cm_depth c ∧
  ∃ k : Z, 1 <= k ∧ cm_mask c = 2 ^ k - 1 ∧ ∀ r, r ∈ cm_rows c → Z.of_nat (length r) = 2 ^ (k - 1).

(** A counter of the sketch. *)
Definition cell c (i : nat) (col : Z) : Prop := (i < cm_depth c)%nat ∧ 0 <= col <= cm_mask c.

Lemma col_cell c h i : cms_wf c → (i < cm_depth c)%nat → cell c i (col_of c h i).
Proof.
  intros (_ & k & Hk & Hm & _) Hi. split; [done|]. unfold col_of. rewrite Hm.
  pose proof (land_mask_range (MixUint64 (Z.lxor h (cm_seeds c !!! i))) k ltac:(lia)). lia.
Qed.

Lemma nibble x : Z.land (Z.land x 0x0f) 0x0f = Z.land x 0x0f.
Proof. by rewrite -Z.land_assoc. Qed.

Lemma nibble_range x : 0 <= Z.land x 0x0f <= 15.
Proof. pose proof (land_mask_range x 4 ltac:(lia)) as Hr. change (2 ^ 4 - 1) with 0x0f in Hr. lia. Qed.

Lemma nibble_small v : 0 <= v <= 15 → Z.land v 0x0f = v ∧ Z.shiftr v 4 = 0.
Proof.
  intros Hv. change 0x0f with (Z.ones 4). rewrite Z.land_ones // Z.mod_small //; [|lia]. split; [done|].
  rewrite Z.shiftr_div_pow2 // Z.div_small //. lia.
Qed.

(** Writing one half of a byte. *)
Lemma low_write x v : 0 <= v <= 15 →
  Z.land (Z.lor (Z.land x 0xf0) v) 0x0f = v ∧
  Z.land (Z.shiftr (Z.lor (Z.land x 0xf0) v) 4) 0x0f = Z.land (Z.shiftr x 4) 0x0f.
Proof.
  intros Hv. destruct (nibble_small v Hv) as [V1 V2]. split.
  - rewrite Z.land_lor_distr_l -Z.land_assoc V1. by rewrite Z.land_0_r Z.lor_0_l.
  - rewrite Z.shiftr_lor Z.shiftr_land V2 Z.lor_0_r. change (Z.shiftr 0xf0 4) with 0x0f. apply nibble.
Qed.

Lemma high_write x v : 0 <= v <= 15 →
  Z.land (Z.shiftr (Z.lor (Z.land x 0x0f) (Z.shiftl v 4)) 4) 0x0f = v ∧
  Z.land (Z.lor (Z.land x 0x0f) (Z.shiftl v 4)) 0x0f = Z.land x 0x0f.
Proof.
  intros Hv. destruct (nibble_small v Hv) as [V1 V2]. split.
  - rewrite Z.shiftr_lor Z.shiftr_land Z.shiftr_shiftl_l // Z.sub_diag Z.shiftl_0_r.
    change (Z.shiftr 0x0f 4) with 0. by rewrite Z.land_0_r Z.lor_0_l.
  - rewrite Z.land_lor_distr_l nibble. replace (Z.land (Z.shiftl v 4) 0x0f) with 0; [by rewrite Z.lor_0_r|].
    symmetry. change 0x0f with (Z.ones 4). rewrite Z.land_ones // Z.shiftl_mul_pow2 //. by apply Z_mod_mult.
Qed.

Lemma cm_write_wf c i col v : cms_wf c → cms_wf (cm_write c i col v).
Proof.
  intros (Hl & k & Hk & Hm & Hr). split; [cbn; by rewrite length_insert|]. exists k. split_and!; [done..|].
  cbn. intros r Hin. apply list_elem_of_lookup in Hin as [j Hj]. apply list_lookup_insert_Some in Hj.
  destruct Hj as [(-> & <- & Hlt)|[_ Hj]]; [|by apply Hr; eapply list_elem_of_lookup_2].
  rewrite length_insert. apply Hr. eapply list_elem_of_lookup_2, list_lookup_lookup_total_lt. done.
Qed.

Lemma cell_offset c i col :
  cms_wf c → cell c i col → (i < length (cm_rows c))%nat ∧ (Z.to_nat (col / 2) < length (cm_rows c !!! i))%nat.
Proof.
  intros (Hl & k & Hk & Hm & Hr) [Hi Hc]. assert (i < length (cm_rows c))%nat as Hi' by lia. split; [done|].
  assert (Z.of_nat (length (cm_rows c !!! i)) = 2 ^ (k - 1)) as Hlen.
  { apply Hr. eapply list_elem_of_lookup_2, list_lookup_lookup_total_lt. done. }
  assert (2 ^ k = 2 * 2 ^ (k - 1)) as Hp by (rewrite -Z.pow_succ_r; [f_equal; lia|lia]).
  assert (0 <= col / 2 < 2 ^ (k - 1)) by (split; [apply Z.div_pos; lia|apply Z.div_lt_upper_bound; lia]). lia.
Qed.

Lemma odd_col col : Z.land col 1 = 0 ↔ col = 2 * (col / 2).
Proof.
  change 1 with (Z.ones 1) at 1. rewrite Z.land_ones //. pose proof (Z.div_mod col 2 ltac:(lia)). change (2 ^ 1) with 2. lia.
Qed.

(** The counters are independent. *)
Lemma read_write c i col v i' col' :
  cms_wf c → cell c i col → cell c i' col' → 0 <= v <= 15 →
  cm_read (cm_write c i col v) i' col' = if decide (i' = i ∧ col' = col) then v else cm_read c i' col'.
Proof.
  intros Hwf Hc Hc' Hv. destruct (cell_offset c i col Hwf Hc) as [L1 L2].
  destruct (nibble_small v Hv) as [V1 _]. unfold cm_read, cm_write. cbn. rewrite V1.
  destruct (decide (i' = i)) as [->|Hi].
  2:{ rewrite list_lookup_total_insert_ne //. rewrite decide_False //. by intros [? _]. }
  rewrite list_lookup_total_insert_eq //. set (row := cm_rows c !!! i) in *.
  destruct (decide (Z.to_nat (col' / 2) = Z.to_nat (col / 2))) as [Ho|Ho].
  2:{ rewrite list_lookup_total_insert_ne //. rewrite decide_False //. intros [_ ->]. done. }
  rewrite Ho list_lookup_total_insert_eq //. set (x := row !!! _).
  assert (col' / 2 = col / 2) as Hd.
  { destruct Hc as [_ ?], Hc' as [_ ?]. apply Z2Nat.inj; [apply Z.div_pos; lia..|done]. }
  pose proof (low_write x v Hv) as [W1 W2]. pose proof (high_write x v Hv) as [W3 W4].
  pose proof (odd_col col) as O1. pose proof (odd_col col') as O2. rewrite Hd in O2.
  case_bool_decide as B1; case_bool_decide as B2.
  - rewrite decide_True; [done|]. split; [done|]. apply O1 in B2. apply O2 in B1. lia.
  - rewrite decide_False //. intros [_ ->]. done.
  - rewrite decide_False //. intros [_ ->]. done.
  - rewrite decide_True; [done|]. split; [done|].
    pose proof (Z.div_mod col 2 ltac:(lia)). pose proof (Z.div_mod col' 2 ltac:(lia)).
    pose proof (Z.mod_pos_bound col 2 ltac:(lia)). pose proof (Z.mod_pos_bound col' 2 ltac:(lia)). lia.
Qed.

Lemma read_range c i col : 0 <= cm_read c i col <= 15.
Proof. unfold cm_read. case_bool_decide; apply nibble_range. Qed.

Definition lower (f : nat → Z) (lowest : Z) (i : nat) : Z := if bool_decide (f i < lowest) then f i else lowest.

Lemma lower_fold f l lowest :
  let r := foldl (lower f) lowest l in
  r <= lowest ∧ (∀ i, i ∈ l → r <= f i) ∧ (∀ x, x <= lowest → (∀ i, i ∈ l → x <= f i) → x <= r).
Proof.
  revert lowest. induction l as [|i l IH]; intros lowest; cbn; [by split_and!; [|set_solver|]|].
  destruct (IH (lower f lowest i)) as (I1 & I2 & I3). cbn in *.
  assert (lower f lowest i <= lowest ∧ lower f lowest i <= f i) as [L1 L2] by (unfold lower; case_bool_decide; lia).
  split_and!; [lia|intros j [->|Hj]%elem_of_cons; [lia|by apply I2]|].
  intros x Hx Hl. apply I3; [|intros j Hj; apply Hl; set_solver].
  assert (x <= f i) by (apply Hl; set_solver). unfold lower. case_bool_decide; lia.
Qed.

Lemma Estimate_spec c h :
  cm_Estimate c h <= 15 ∧ (∀ i, (i < cm_depth c)%nat → cm_Estimate c h <= cm_read c i (col_of c h i)) ∧
  (∀ x, x <= 15 → (∀ i, (i < cm_depth c)%nat → x <= cm_read c i (col_of c h i)) → x <= cm_Estimate c h).
Proof.
  destruct (lower_fold (λ i, cm_read c i (col_of c h i)) (seq 0 (cm_depth c)) 15) as (I1 & I2 & I3).
  split_and!; [done| |]; intros; [apply I2, elem_of_seq; lia|].
  apply I3; [done|]. intros i Hi%elem_of_seq. auto with lia.
Qed.

(** The second loop of [Increment] over the rows [l]: the counter of row [i]
    goes up by one exactly when it was the lowest. *)
Lemma bump_fold (cols : nat → Z) lowest l c :
  cms_wf c → NoDup l → (∀ i, i ∈ l → cell c i (cols i)) → 0 <= lowest < 15 →
  let c' := foldl (λ c i, let v := cm_read c i (cols i) in
                          if bool_decide (v = lowest) then cm_write c i (cols i) (v + 1) else c) c l in
  cms_wf c' ∧ cm_depth c' = cm_depth c ∧ cm_mask c' = cm_mask c ∧ cm_seeds c' = cm_seeds c ∧
  ∀ i col, cell c i col →
    cm_read c' i col = if decide (i ∈ l ∧ col = cols i ∧ cm_read c i col = lowest) then lowest + 1 else cm_read c i col.
Proof.
  revert c. induction l as [|j l IH]; intros c Hwf Hnd Hl Hlow; cbn.
  { by split_and!. }
  apply NoDup_cons in Hnd as [Hj Hnd].
  assert (cell c j (cols j)) as Hcj by (apply Hl; set_solver).
  set (c1 := if bool_decide _ then _ else c).
  assert (cms_wf c1 ∧ cm_depth c1 = cm_depth c ∧ cm_mask c1 = cm_mask c ∧ cm_seeds c1 = cm_seeds c ∧
    ∀ i col, cell c i col → cm_read c1 i col =
      if decide (i = j ∧ col = cols j ∧ cm_read c i col = lowest) then lowest + 1 else cm_read c i col)
    as (W1 & W2 & W3 & W4 & W5).
  { subst c1. case_bool_decide as Hb; split_and!; try done.
    - by apply cm_write_wf.
    - intros i col Hc. rewrite read_write //; [|lia].
      destruct (decide (i = j ∧ col = cols j)) as [[-> ->]|Hn]; [rewrite decide_True //; lia|].
      rewrite decide_False; [done|tauto].
    - intros i col Hc. rewrite decide_False //. intros (-> & -> & ?). done. }
  destruct (IH c1) as (I1 & I2 & I3 & I4 & I5); [done..| |done|].
  { intros i Hi. destruct (Hl i) as [? ?]; [set_solver|]. split; [by rewrite W2|by rewrite W3]. }
  split_and!; [exact I1|by etrans; [exact I2|]|by etrans; [exact I3|]|by etrans; [exact I4|]|]. intros i col Hc.
  etrans; [apply I5; by destruct Hc; split; [rewrite W2|rewrite W3]|]. rewrite W5 //.
  destruct (decide (i = j)) as [->|Hij].
  - destruct (decide (j = j ∧ col = cols j ∧ cm_read c j col = lowest)) as [(_ & E1 & E2)|Hn].
    + rewrite (decide_True (P := j ∈ j :: l ∧ _)); [|set_solver]. rewrite decide_False //. naive_solver.
    + rewrite decide_False; [|naive_solver]. rewrite decide_False //. naive_solver.
  - rewrite (decide_False (P := i = j ∧ _)); [|naive_solver].
    destruct (decide (i ∈ l ∧ col = cols i ∧ cm_read c i col = lowest)) as [Hd|Hd].
    + rewrite decide_True //. set_solver.
    + rewrite decide_False //. set_solver.
Qed.

Lemma Increment_read c h :
  cms_wf c →
  let c' := cm_Increment c h in
  cms_wf c' ∧ cm_depth c' = cm_depth c ∧ cm_mask c' = cm_mask c ∧ cm_seeds c' = cm_seeds c ∧
  ∀ i col, cell c i col →
    cm_read c' i col = if decide (col = col_of c h i ∧ cm_read c i col = cm_Estimate c h ∧ cm_Estimate c h < 15)
                       then cm_read c i col + 1 else cm_read c i col.
Proof.
  intros Hwf. unfold cm_Increment. case_bool_decide as Hb.
  { split_and!; [done..|]. intros i col _. rewrite decide_False; [done|lia]. }
  destruct (Estimate_spec c h) as (E1 & E2 & E3).
  assert (0 <= cm_Estimate c h) as E4 by (apply E3; [done|]; intros; apply read_range).
  destruct (bump_fold (col_of c h) (cm_Estimate c h) (seq 0 (cm_depth c)) c) as (B1 & B2 & B3 & B4 & B5);
    [done|apply NoDup_seq|intros i Hi%elem_of_seq; apply col_cell; [done|lia]|lia|].
  split_and!; [done..|]. intros i col Hc. rewrite B5 //.
  destruct (decide (col = col_of c h i ∧ cm_read c i col = cm_Estimate c h ∧ cm_Estimate c h < 15)) as [(D1 & D2 & D3)|Hn].
  - rewrite decide_True; [lia|]. split_and!; [|done..]. apply elem_of_seq. destruct Hc. lia.
  - rewrite decide_False //. intros (? & ? & ?). apply Hn. split_and!; [done..|lia].
Qed.

Lemma Increment_col c h h' i : col_of (cm_Increment c h) h' i = col_of c h' i.
Proof.
  unfold cm_Increment. case_bool_decide; [done|]. generalize (seq 0 (cm_depth c)) as l. intros l.
  assert (∀ c', cm_mask c' = cm_mask c → cm_seeds c' = cm_seeds c → col_of c' h' i = col_of c h' i) as Hc
    by (unfold col_of; by intros c' -> ->).
  set (F := λ c0 i0, _). assert (∀ c', cm_mask c' = cm_mask c → cm_seeds c' = cm_seeds c →
    cm_mask (foldl F c' l) = cm_mask c ∧ cm_seeds (foldl F c' l) = cm_seeds c) as Hf.
  { induction l as [|j l IH]; intros c' H1 H2; [done|]. apply IH; unfold F; by case_bool_decide. }
  by apply Hc; apply Hf.
Qed.

(** How often [h] occurs. *)
Definition occurrences h (hs : list Z) : Z := Z.of_nat (length (filter (.= h) hs)).

(** Every counter of [h] is at least [n], up to saturation. *)
Definition counted c h (n : Z) : Prop :=
  ∀ i, (i < cm_depth c)%nat → Z.min n 15 <= cm_read c i (col_of c h i).

Lemma Increment_counted c h h' n :
  cms_wf c → counted c h n → counted (cm_Increment c h') h (if decide (h' = h) then n + 1 else n).
Proof.
  intros Hwf Hn i Hi. destruct (Increment_read c h' Hwf) as (_ & D1 & _ & _ & R). rewrite D1 in Hi.
  rewrite Increment_col R; [|by apply col_cell].
  pose proof (read_range c i (col_of c h i)) as Hr. pose proof (Hn i Hi) as Hni.
  destruct (decide (col_of c h i = _ ∧ _)) as [Hd|Hd]; [destruct (decide (h' = h)); lia|].
  destruct (decide (h' = h)) as [->|Hh]; [|lia].
  destruct (Estimate_spec c h) as (E1 & E2 & E3). specialize (E2 i Hi). specialize (E3 (Z.min n 15) ltac:(lia) Hn).
  lia.
Qed.

Lemma Increments_counted c h n hs :
  cms_wf c → counted c h n → counted (foldl cm_Increment c hs) h (n + occurrences h hs) ∧ cms_wf (foldl cm_Increment c hs).
Proof.
  revert c n. induction hs as [|h' hs IH]; intros c n Hwf Hn; cbn.
  { unfold occurrences. cbn. by rewrite Z.add_0_r. }
  destruct (Increment_read c h' Hwf) as (W & _).
  pose proof (Increment_counted c h h' n Hwf Hn) as Hn'. destruct (IH _ _ W Hn') as [I1 I2]. split; [|done].
  unfold occurrences in *. destruct (decide (h' = h)) as [->|Hne].
  - rewrite filter_cons_True //=. by replace (n + Z.of_nat (S (length (filter (.= h) hs))))
      with (n + 1 + Z.of_nat (length (filter (.= h) hs))) by lia.
  - by rewrite filter_cons_False.
Qed.

Lemma cms_New_wf expected seeds : 0 <= expected <= 2 ^ 58 → cms_wf (cms_New expected seeds).
Proof.
  intros He. unfold cms_New.
  destruct (grow_spec 57 0 (Z.max (i64 (expected * 10)) 64)) as (j & J1 & _ & Hg & _);
    [done|rewrite i64_id; [lia|unfold is_i64; lia]|].
  change (2 ^ (6 + Z.of_nat 0)) with 64 in Hg. rewrite Hg. split; [done|].
  exists (6 + Z.of_nat j). split_and!; [lia|done|]. cbn -[replicate]. intros r [-> _]%elem_of_replicate.
  rewrite length_replicate Z2Nat.id; [|apply Z.div_pos; lia]. change 2 with (2 ^ 1) at 2.
  by rewrite -Z.pow_sub_r; [|lia..].
Qed.

(** ** [Reset] *)

Lemma halve_low x : Z.land (halve_byte x) 0x0f = Z.land x 0x0f / 2.
Proof.
  unfold halve_byte. rewrite Z.land_lor_distr_l -Z.land_assoc Z.land_0_r Z.lor_0_l.
  rewrite Z.shiftr_div_pow2 //. change (2 ^ 1) with 2. pose proof (nibble_range x).
  apply nibble_small. split; [apply Z.div_pos; lia|]. pose proof (Z.div_lt_upper_bound (Z.land x 15) 2 16). lia.
Qed.

Lemma halve_high x : Z.land (Z.shiftr (halve_byte x) 4) 0x0f = Z.land (Z.shiftr x 4) 0x0f / 2.
Proof.
  unfold halve_byte. change 2 with (2 ^ 1). rewrite -Z.shiftr_div_pow2 //.
  rewrite !Z.shiftr_lor !Z.shiftr_land. rewrite !Z.shiftr_shiftr //. cbn [Z.add].
  change (Z.shiftr 15 (1 + 4)) with 0. rewrite Z.land_0_r Z.lor_0_r. change (Z.shiftr 240 (1 + 4)) with 7.
  change (Z.shiftr 240 4) with 15. change (Z.shiftr 15 1) with 7. rewrite -!Z.land_assoc. done.
Qed.

Lemma Reset_read c i col :
  cms_wf c → cell c i col → cm_read (cm_Reset c) i col = cm_read c i col / 2.
Proof.
  intros Hwf Hc. destruct (cell_offset c i col Hwf Hc) as [L1 L2]. unfold cm_read, cm_Reset. cbn.
  rewrite (list_lookup_total_fmap (map halve_byte)) // (list_lookup_total_fmap halve_byte) //.
  case_bool_decide; [apply halve_low|apply halve_high].
Qed.

(** ** Properties *)

(** [SipHash24] agrees with the reference vectors of its authors (key
    00..0f, messages of 0, 8 and 15 bytes). *)
Theorem siphash_reference :
  let k0 := le_bytes [0; 1; 2; 3; 4; 5; 6; 7] in
  let k1 := le_bytes [8; 9; 10; 11; 12; 13; 14; 15] in
  SipHash24 k0 k1 [] = 0x726fdb47dd0e0e31 ∧
  SipHash24 k0 k1 [0; 1; 2; 3; 4; 5; 6; 7] = 0x93f5f5799a932462 ∧
  SipHash24 k0 k1 [0; 1; 2; 3; 4; 5; 6; 7; 8; 9; 10; 11; 12; 13; 14] = 0xa129ca6149be45e5.
Proof. vm_compute. done. Qed.

(** The mixer that hashes integer keys is injective on 64-bit words, also
    under a secret seed: distinct integer keys have distinct hashes. *)
Theorem mix_injective x y k0 :
  is_u64 x → is_u64 y → is_u64 k0 → MixUint64 (Z.lxor x k0) = MixUint64 (Z.lxor y k0) → x = y.
Proof.
  assert (∀ a b : Z, is_u64 a → is_u64 b → is_u64 (Z.lxor a b)) as Hr.
  { intros a b Ha Hb. unfold is_u64 in *. assert (0 <= Z.lxor a b) by (apply Z.lxor_nonneg; lia). split; [done|].
    destruct (decide (Z.lxor a b = 0)) as [->|Hz]; [lia|]. apply Z.log2_lt_pow2; [lia|].
    pose proof (Z.log2_lxor a b ltac:(lia) ltac:(lia)).
    assert (∀ z, 0 <= z < 2 ^ 64 → Z.log2 z < 64) as Hl.
    { intros z Hz'. destruct (decide (z = 0)) as [->|]; [done|]. apply Z.log2_lt_pow2; lia. }
    pose proof (Hl a Ha). pose proof (Hl b Hb). lia. }
  intros Hx Hy Hk He%Mix_inj; [|by apply Hr..].
  apply (f_equal (λ z, Z.lxor z k0)) in He. by rewrite !Z.lxor_assoc Z.lxor_nilpotent !Z.lxor_0_r in He.
Qed.

Lemma mix_injective_witness : MixUint64 (Z.lxor 7 42) ≠ MixUint64 (Z.lxor 9 42).
Proof.
  intros He. assert (∀ z, 0 <= z < 100 → is_u64 z) as Hr by (unfold is_u64; lia).
  discriminate (mix_injective 7 9 42 (Hr 7 ltac:(lia)) (Hr 9 ltac:(lia)) (Hr 42 ltac:(lia)) He).
Defined.

(** The bloom filter has no false negatives: a key that was set tests
    true after any further sets, until the filter is reset; a fresh or reset
    filter tests false for every key. *)
Theorem bloom_no_false_negatives expected seeds h hs :
  0 <= expected <= 2 ^ 59 → h ∈ hs →
  bl_Test (foldl bl_Set (NewBloom expected seeds) hs) h = true ∧
  ∀ h', bl_Test (bl_Reset (foldl bl_Set (NewBloom expected seeds) hs)) h' = false.
Proof.
  intros He Hin. destruct (NewBloom_wf expected seeds He) as [Hwf Hs]. split; [by apply Test_after; [|left]|].
  intros h'. assert (∀ b, bloom_wf b → bl_seeds b ≠ [] →
    bloom_wf (foldl bl_Set b hs) ∧ bl_seeds (foldl bl_Set b hs) ≠ []) as Hf.
  { clear. induction hs as [|x hs IH]; intros b Hb Hs; [done|]. apply IH; [by apply Set_wf|done]. }
  destruct (Hf _ Hwf Hs) as [F1 F2]. by apply Reset_Test.
Qed.

Lemma bloom_no_false_negatives_witness :
  bl_Test (foldl bl_Set (NewBloom 10 []) [3; 5; 8]) 5 = true ∧ bl_Test (foldl bl_Set (NewBloom 10 []) [3; 5; 8]) 6 = false.
Proof.
  split; [|vm_compute; done].
  refine (proj1 (bloom_no_false_negatives 10 [] 5 [3; 5; 8] _ _)); [lia|]. right. left.
Defined.

(** The frequency estimate of the count-min sketch is never below the true
    count of a key, up to the saturation of the counters at 15, whatever other
    keys were counted. *)
Theorem cms_never_undercounts expected seeds h hs :
  0 <= expected <= 2 ^ 58 →
  Z.min (occurrences h hs) 15 <= cm_Estimate (foldl cm_Increment (cms_New expected seeds) hs) h <= 15.
Proof.
  intros He. pose proof (cms_New_wf expected seeds He) as Hwf.
  destruct (Increments_counted (cms_New expected seeds) h 0 hs Hwf) as [Hc _].
  { intros i Hi. pose proof (read_range (cms_New expected seeds) i (col_of (cms_New expected seeds) h i)). lia. }
  destruct (Estimate_spec (foldl cm_Increment (cms_New expected seeds) hs) h) as (E1 & _ & E3).
  split; [|done]. apply E3; [lia|]. exact Hc.
Qed.

Lemma cms_never_undercounts_witness :
  cm_Estimate (foldl cm_Increment (cms_New 1 []) [7; 8; 7; 9; 7]) 7 = 3 ∧
  3 <= cm_Estimate (foldl cm_Increment (cms_New 1 []) [7; 8; 7; 9; 7]) 7 <= 15.
Proof.
  split; [vm_compute; done|].
  exact (cms_never_undercounts 1 [] 7 [7; 8; 7; 9; 7] ltac:(lia)).
Defined.

(** [Reset] of the sketch halves every counter, both halves of every byte
    independently. *)
Theorem cms_reset_halves c i col :
  cms_wf c → cell c i col → cm_read (cm_Reset c) i col = cm_read c i col / 2.
Proof. apply Reset_read. Qed.

Lemma cms_reset_halves_witness :
  let c := foldl cm_Increment (cms_New 1 []) [7; 8; 7; 9; 7] in
  cm_read (cm_Reset c) 0 (col_of c 7 0) = 1.
Proof.
  cbv zeta. set (c := foldl cm_Increment (cms_New 1 []) [7; 8; 7; 9; 7]).
  assert (cms_wf c) as Hwf.
  { apply (Increments_counted (cms_New 1 []) 7 0); [by apply cms_New_wf|]. intros i Hi.
    pose proof (read_range (cms_New 1 []) i (col_of (cms_New 1 []) 7 i)). lia. }
  rewrite (cms_reset_halves c 0 (col_of c 7 0) Hwf); [vm_compute; done|]. apply col_cell; [exact Hwf|]. vm_compute. lia.
Defined.
