(* ===== verification/TinyLfu.v ===== *)
(** * TinyLfu: the W-TinyLFU eviction policy ([tinylfu.go])

    A window, a probationary and a protected segment, each in order of last
    use, and a count-min sketch that counts uses by key hash.  An entry that
    falls out of the window competes with the last probationary entry: the
    one the sketch has seen less often is evicted.  The file shows that the
    linked segments implement this on lists ([tinylfu_refines]), that the loop
    of [Victim] always ends within its bound ([tinylfu_terminates]), and that the
    policy satisfies [PolicyLaws].

    The constructor always makes the sketch, so the tests of the code for a
    nil sketch are not taken and not modelled. *)

From S2P Require Import Prelude Dll Policy Duo Family Sketch.

#[local] Open Scope Z_scope.

Inductive tinyLFURegion := regionWindow | regionProtected | regionProbationary.

#[export] Instance region_eq_dec : EqDecision tinyLFURegion.
Proof. solve_decision. Defined.

#[export] Instance region_countable : Countable tinyLFURegion.
Proof.
  refine (inj_countable' (λ r, match r with regionWindow => 0 | regionProtected => 1 | regionProbationary => 2 end%nat)
    (λ n, match n with 0 => regionWindow | 1 => regionProtected | _ => regionProbationary end%nat) _).
  by intros [].
Defined.

(** Window, protected, probationary. *)
Definition tinyLFUSplitBudget (budget : Z) : Z * Z * Z :=
  if bool_decide (budget <= 0) then (0, 0, 0)
  else
    let window := Z.max (budget `quot` 100) 1 in
    let window := if bool_decide (budget <= window) then 1 else window in
    let main := Z.max (budget - window) 1 in
    let protected := Z.max (i64 (main * 80) `quot` 100) 1 in
    let protected := if bool_decide (main <= protected) then Z.max (main - 1) 1 else protected in
    (window, protected, Z.max (main - protected) 1).

Definition tinyLFUAgeThreshold (budget : Z) : Z :=
  let t := u64 (2 * budget) in if bool_decide (t = 0) then 128 else t.

Section tinylfu.
Context {K : Type} `{Countable K}.

Record tinyLFUPolicy := TinyLfu {
  tl_F : family tinyLFURegion K;
  tl_windowBudget : Z;
  tl_protectedBudget : Z;
  tl_probationaryBudget : Z;
  tl_sketch : CountMinSketch;
  tl_hasher : option (K → Z);
  tl_ops : Z;
  tl_ageThreshold : Z
}.

Implicit Types (p : tinyLFUPolicy) (e : eref K) (n : loc) (r : tinyLFURegion) (F : family tinyLFURegion K).

Definition newTinyLFU (budget : Z) (hasher : option (K → Z)) : tinyLFUPolicy :=
  let '(window, protected, probationary) := tinyLFUSplitBudget budget in
  TinyLfu fm_empty window protected probationary (cms_New (Z.max budget 64) []) hasher 0 (tinyLFUAgeThreshold budget).

Definition tl_SetBudget p (budget : Z) : tinyLFUPolicy :=
  let '(window, protected, probationary) := tinyLFUSplitBudget budget in
  TinyLfu (tl_F p) window protected probationary (tl_sketch p) (tl_hasher p) (tl_ops p) (tinyLFUAgeThreshold budget).

Definition tl_with p F : tinyLFUPolicy :=
  TinyLfu F (tl_windowBudget p) (tl_protectedBudget p) (tl_probationaryBudget p) (tl_sketch p) (tl_hasher p)
    (tl_ops p) (tl_ageThreshold p).

Definition regionOf F n : tinyLFURegion := default regionWindow (fm_tag F !! n).

Definition tl_pushHead F n r : family tinyLFURegion K := fm_pushHead F r n.

Definition tl_unlink F n : family tinyLFURegion K := fm_unlink F (regionOf F n) n.

(** [unlink(n); pushHead(n, r)] *)
Definition tl_move F n r : family tinyLFURegion K := tl_pushHead (tl_unlink F n) n r.

Definition hashKey p (key : K) : Z := match tl_hasher p with Some h => h key | None => 0 end.

Definition estimate p (key : K) : Z := cm_Estimate (tl_sketch p) (hashKey p key).

(** The sketch and the operation counter after one more use of a hash. *)
Definition aged (threshold : Z) (sk : CountMinSketch) (ops h : Z) : CountMinSketch * Z :=
  let sk := cm_Increment sk h in
  let ops := u64 (ops + 1) in
  if bool_decide (threshold <= ops) then (cm_Reset sk, 0) else (sk, ops).

Definition observe p (key : K) : tinyLFUPolicy :=
  let '(sk, ops) := aged (tl_ageThreshold p) (tl_sketch p) (tl_ops p) (hashKey p key) in
  TinyLfu (tl_F p) (tl_windowBudget p) (tl_protectedBudget p) (tl_probationaryBudget p) sk (tl_hasher p) ops (tl_ageThreshold p).

Definition tl_OnInsert p e : tinyLFUPolicy :=
  let n := nd_fresh (fm_nodes (tl_F p)) in
  observe (tl_with p (tl_pushHead (fm_alloc (tl_F p) e) n regionWindow)) e.2.

Definition headOf F r : option loc := d_head (fm_queue F r).
Definition tailOf F r : option loc := d_tail (fm_queue F r).
Definition sizeOf F r : Z := d_size (fm_queue F r).

(** The loop of [OnAccess] that demotes protected tails; the size of the
    segment bounds its turns. *)
Fixpoint demote (fuel : nat) (budget : Z) F : family tinyLFURegion K :=
  match fuel with
  | O => F
  | S fuel =>
      if bool_decide (budget < sizeOf F regionProtected) then
        match tailOf F regionProtected with
        | Some n => demote fuel budget (tl_move F n regionProbationary)
        | None => F
        end
      else F
  end.

Definition tl_touch p n : family tinyLFURegion K :=
  let F := tl_F p in
  match regionOf F n with
  | regionProbationary =>
      let F := tl_move F n regionProtected in
      demote (Z.to_nat (sizeOf F regionProtected)) (tl_protectedBudget p) F
  | r => if bool_decide (headOf F r = Some n) then F else tl_move F n r
  end.

Definition tl_OnAccess p e : tinyLFUPolicy :=
  match nd_data (fm_nodes (tl_F p)) !! e.1 with
  | None => p
  | Some n => observe (tl_with p (tl_touch p n)) e.2
  end.

Definition tl_OnUpdate p e : tinyLFUPolicy := tl_OnAccess p e.

Definition tl_OnRemove p e : tinyLFUPolicy :=
  match nd_data (fm_nodes (tl_F p)) !! e.1 with
  | None => p
  | Some n => tl_with p (fm_release (tl_unlink (tl_F p) n) n e)
  end.

(** The [entry] field of a node. *)
Definition entryAt F n : option (eref K) := nd_entry (fm_nodes F) !! n.

(** [unlink(n); return n.entry] *)
Definition tl_take p n : option (eref K) * tinyLFUPolicy :=
  (entryAt (tl_F p) n, tl_with p (tl_unlink (tl_F p) n)).

(** [estimate(n.entry.key)] *)
Definition estimateAt p n : Z := match entryAt (tl_F p) n with Some e => estimate p e.2 | None => 0 end.

Definition handleWindowDemotion p (candidate : loc) : option (eref K) * tinyLFUPolicy :=
  if bool_decide (sizeOf (tl_F p) regionProbationary < tl_probationaryBudget p)
  then (None, tl_with p (tl_move (tl_F p) candidate regionProbationary))
  else
    match tailOf (tl_F p) regionProbationary with
    | None => tl_take p candidate
    | Some victim =>
        if bool_decide (estimateAt p victim < estimateAt p candidate) then
          (entryAt (tl_F p) victim,
           tl_with p (tl_pushHead (tl_unlink (tl_unlink (tl_F p) candidate) victim) candidate regionProbationary))
        else tl_take p candidate
    end.

(** The tail of a segment that is over its budget. *)
Definition overTail p r (budget : Z) : option loc :=
  if bool_decide (budget < sizeOf (tl_F p) r) then tailOf (tl_F p) r else None.

(** One turn of the loop of [Victim]: [inl] returns, [inr] goes on. *)
Definition tl_turn p : (option (eref K) * tinyLFUPolicy) + tinyLFUPolicy :=
  match overTail p regionWindow (tl_windowBudget p) with
  | Some candidate =>
      match handleWindowDemotion p candidate with
      | (Some v, p) => inl (Some v, p)
      | (None, p) => inr p
      end
  | None =>
      match overTail p regionProbationary (tl_probationaryBudget p) with
      | Some n => inl (tl_take p n)
      | None =>
          match overTail p regionProtected (tl_protectedBudget p) with
          | Some n => inr (tl_with p (tl_move (tl_F p) n regionProbationary))
          | None => inl (None, p)
          end
      end
  end.

(** [inr]: the loop ran out of turns. *)
Fixpoint tl_loop (turns : nat) p : (option (eref K) * tinyLFUPolicy) + tinyLFUPolicy :=
  match turns with
  | O => inr p
  | S turns => match tl_turn p with inl r => inl r | inr p => tl_loop turns p end
  end.

Definition tl_Len p : Z :=
  sizeOf (tl_F p) regionWindow + sizeOf (tl_F p) regionProtected + sizeOf (tl_F p) regionProbationary.

Definition tl_shed p : option (eref K) * tinyLFUPolicy :=
  match tailOf (tl_F p) regionProbationary, tailOf (tl_F p) regionWindow, tailOf (tl_F p) regionProtected with
  | Some n, _, _ | None, Some n, _ | None, None, Some n => tl_take p n
  | None, None, None => (None, p)
  end.

(** The fallback after the loop is the code of [shed]. *)
Definition tl_Victim p : option (eref K) * tinyLFUPolicy :=
  match tl_loop (Z.to_nat (tl_Len p + 1)) p with
  | inl r => r
  | inr p => tl_shed p
  end.

Definition tl_Reset p : tinyLFUPolicy :=
  TinyLfu (fm_reset (tl_F p) [regionWindow; regionProtected; regionProbationary]) (tl_windowBudget p)
    (tl_protectedBudget p) (tl_probationaryBudget p) (cm_Reset (tl_sketch p)) (tl_hasher p) 0 (tl_ageThreshold p).

Definition tl_Snapshot p : policyDetail :=
  PolicyDetailTinyLFU (sizeOf (tl_F p) regionWindow)
    (sizeOf (tl_F p) regionProtected + sizeOf (tl_F p) regionProbationary) (tl_ops p).

Definition tl_PromotionNeeded p e : bool := true.

#[export] Instance tl_policy : EvictionPolicy K tinyLFUPolicy := {
  OnInsert := tl_OnInsert;
  OnAccess := tl_OnAccess;
  OnUpdate := tl_OnUpdate;
  OnRemove := tl_OnRemove;
  Victim := tl_Victim;
  Len := tl_Len;
  Reset := tl_Reset;
  SetBudget := tl_SetBudget;
  Snapshot := tl_Snapshot;
  PromotionNeeded := tl_PromotionNeeded;
  shed p _ := tl_shed p
}.

(** ** W-TinyLFU on lists *)

(** The segments, most recently used first, the sketch and its clock. *)
Record tinylfu := TState {
  win : list (eref K);
  prot : list (eref K);
  prob : list (eref K);
  sk : CountMinSketch;
  tick : Z
}.

(** The settings: segment budgets, age threshold and hash. *)
Record settings := Settings { c_win : Z; c_prot : Z; c_prob : Z; c_age : Z; c_hash : K → Z }.

Implicit Types (s : tinylfu) (c : settings).

Definition seg s r : list (eref K) :=
  match r with regionWindow => win s | regionProtected => prot s | regionProbationary => prob s end.

Definition with_segs s (w t b : list (eref K)) : tinylfu := TState w t b (sk s) (tick s).

Definition used c s (key : K) : tinylfu :=
  let '(k, t) := aged (c_age c) (sk s) (tick s) (c_hash c key) in TState (win s) (prot s) (prob s) k t.

Definition frequency c s e : Z := cm_Estimate (sk s) (c_hash c e.2).

Definition len {A} (l : list A) : Z := Z.of_nat (length l).

(** The list without its last [k] elements, and those. *)
Definition keepn {A} (k : nat) (l : list A) : list A := take (length l - k) l.
Definition lastn {A} (k : nat) (l : list A) : list A := drop (length l - k) l.

(** The window's overflow moves to the front of the probationary segment as
    far as that has room. *)
Definition fill c s : tinylfu :=
  let k := Z.to_nat (Z.min (len (win s) - c_win c) (c_prob c - len (prob s))) in
  with_segs s (keepn k (win s)) (prot s) (lastn k (win s) ++ prob s).

(** The protected overflow follows, at most one entry past the room. *)
Definition spill c (room : Z) s : tinylfu :=
  let k := Z.to_nat (Z.min (len (prot s) - c_prot c) room) in
  with_segs s (win s) (keepn k (prot s)) (lastn k (prot s) ++ prob s).

(** The oldest of the window against the oldest probationary entry. *)
Definition duel c s (cand : eref K) : option (eref K) * tinylfu :=
  match last (prob s) with
  | Some v =>
      if bool_decide (frequency c s v < frequency c s cand)
      then (Some v, with_segs s (without cand (win s)) (prot s) (cand :: without v (prob s)))
      else (Some cand, with_segs s (without cand (win s)) (prot s) (prob s))
  | None => (Some cand, with_segs s (without cand (win s)) (prot s) (prob s))
  end.

Definition tinylfu_evict c s : option (eref K) * tinylfu :=
  let s := fill c s in
  if bool_decide (c_win c < len (win s)) then
    match last (win s) with Some cand => duel c s cand | None => (None, s) end
  else
    let s := spill c (c_prob c + 1 - len (prob s)) s in
    if bool_decide (c_prob c < len (prob s)) then
      match last (prob s) with
      | Some v => (Some v, with_segs s (win s) (prot s) (without v (prob s)))
      | None => (None, s)
      end
    else (None, s).

Definition tinylfu_touch c s e : tinylfu :=
  if decide (e ∈ prob s) then
    let s := with_segs s (win s) (e :: prot s) (without e (prob s)) in
    spill c (len (prot s)) s
  else if decide (e ∈ win s) then with_segs s (e :: without e (win s)) (prot s) (prob s)
  else with_segs s (win s) (e :: without e (prot s)) (prob s).

Definition tinylfu_forget s e : tinylfu :=
  with_segs s (without e (win s)) (without e (prot s)) (without e (prob s)).

Definition tinylfu_spec c s (o : pop K) : tinylfu :=
  match o with
  | PInsert e => used c (with_segs s (e :: win s) (prot s) (prob s)) e.2
  | PAccess e | PUpdate e => used c (tinylfu_touch c s e) e.2
  | PRemove e => tinylfu_forget s e
  | PEvict => (tinylfu_evict c s).2
  | PReset => TState [] [] [] (cm_Reset (sk s)) 0
  end.

Lemma keepn_snoc {A} k (l : list A) x : keepn (S k) (l ++ [x]) = keepn k l.
Proof.
  unfold keepn. rewrite length_app. cbn. replace (length l + 1 - S k)%nat with (length l - k)%nat by lia.
  rewrite take_app_le //. lia.
Qed.

Lemma lastn_snoc {A} k (l : list A) x : lastn (S k) (l ++ [x]) = lastn k l ++ [x].
Proof.
  unfold lastn. rewrite length_app. cbn. replace (length l + 1 - S k)%nat with (length l - k)%nat by lia.
  rewrite drop_app_le //. lia.
Qed.

Lemma keepn_0 {A} (l : list A) : keepn 0 l = l.
Proof. unfold keepn. rewrite Nat.sub_0_r. apply take_ge. lia. Qed.

Lemma lastn_0 {A} (l : list A) : lastn 0 l = [].
Proof. unfold lastn. rewrite Nat.sub_0_r. apply drop_ge. lia. Qed.

(** Nothing moves when there is no overflow or no room. *)
Lemma fill_idle c s : len (win s) <= c_win c ∨ c_prob c <= len (prob s) → fill c s = s.
Proof.
  intros Hc. unfold fill. replace (Z.to_nat _) with 0%nat by lia. rewrite keepn_0 lastn_0. by destruct s.
Qed.

Lemma spill_idle c room s : len (prot s) <= c_prot c ∨ room <= 0 → spill c room s = s.
Proof.
  intros Hc. unfold spill. replace (Z.to_nat _) with 0%nat by lia. rewrite keepn_0 lastn_0. by destruct s.
Qed.

(** One entry at a time is the same. *)
Lemma evict_fill c s w x :
  win s = w ++ [x] → c_win c < len (win s) → len (prob s) < c_prob c →
  tinylfu_evict c (with_segs s w (prot s) (x :: prob s)) = tinylfu_evict c s.
Proof.
  intros Hw H1 H2. unfold tinylfu_evict. assert (fill c (with_segs s w (prot s) (x :: prob s)) = fill c s) as ->; [|done].
  unfold fill. cbn. rewrite Hw in H1 |- *. unfold len in *. rewrite length_app in H1 |- *. cbn in *.
  assert (∃ k, Z.to_nat (Z.min (Z.of_nat (length w + 1) - c_win c) (c_prob c - Z.of_nat (length (prob s)))) = S k) as [k Hk]
    by (eexists; symmetry; apply Nat.succ_pred; lia).
  rewrite Hk keepn_snoc lastn_snoc -app_assoc. replace (Z.to_nat _) with k by lia. done.
Qed.

Lemma evict_spill c s t x :
  len (win s) <= c_win c → len (prob s) <= c_prob c → prot s = t ++ [x] → c_prot c < len (prot s) →
  tinylfu_evict c (with_segs s (win s) t (x :: prob s)) = tinylfu_evict c s.
Proof.
  intros Hw Hb Ht Hp. unfold tinylfu_evict. rewrite !fill_idle; [|by left|cbn; by left]. cbn [win with_segs].
  rewrite bool_decide_false; [|lia].
  assert (spill c (c_prob c + 1 - len (x :: prob s)) (with_segs s (win s) t (x :: prob s)) =
    spill c (c_prob c + 1 - len (prob s)) s) as E; [|cbn [prob with_segs]; by rewrite E].
  unfold spill. cbn. rewrite Ht in Hp |- *. unfold len in *. rewrite length_app in Hp |- *. cbn in *.
  assert (∃ k, Z.to_nat (Z.min (Z.of_nat (length t + 1) - c_prot c) (c_prob c + 1 - Z.of_nat (length (prob s)))) = S k) as [k Hk]
    by (eexists; symmetry; apply Nat.succ_pred; lia).
  rewrite Hk keepn_snoc lastn_snoc -app_assoc. replace (Z.to_nat _) with k by lia. done.
Qed.

(** Above the three budgets together there is a victim. *)
Lemma len_moved {A} (k : nat) (l b : list A) :
  (k <= length l)%nat → len (keepn k l) = len l - Z.of_nat k ∧ len (lastn k l ++ b) = len b + Z.of_nat k.
Proof. intros Hk. unfold len, keepn, lastn. rewrite length_app length_take length_drop. lia. Qed.

Lemma last_some {A} (l : list A) : 0 < len l → is_Some (last l).
Proof. destruct l; [done|]. intros _. apply last_is_Some_cons. Qed.

Lemma evict_some c s :
  0 <= c_win c → 0 <= c_prot c → 0 <= c_prob c →
  c_win c + c_prot c + c_prob c < len (win s) + len (prot s) + len (prob s) → is_Some (tinylfu_evict c s).1.
Proof.
  intros B1 B2 B3 Hs. unfold tinylfu_evict, fill. cbn [win prob with_segs].
  set (k := Z.to_nat (Z.min (len (win s) - _) _)).
  destruct (len_moved k (win s) (prob s)) as [L1 L2]; [unfold k, len; lia|].
  case_bool_decide as Hw.
  { destruct (last_some (keepn k (win s))) as [x ->]; [lia|]. unfold duel. case_match; [by case_bool_decide|done]. }
  unfold spill. cbn [win prot prob with_segs]. set (k' := Z.to_nat (Z.min (len (prot s) - _) _)).
  destruct (len_moved k' (prot s) (lastn k (win s) ++ prob s)) as [L3 L4]; [unfold k', len in *; lia|].
  case_bool_decide as Hb; cbn [prob with_segs] in Hb.
  - cbn [prob with_segs]. destruct (last_some (lastn k' (prot s) ++ lastn k (win s) ++ prob s)) as [x ->]; [lia|done].
  - exfalso. unfold k', k in *. clear k k'. rewrite L4 in Hb. rewrite L1 in Hw. rewrite L2 in Hb. lia.
Qed.

(** ** The invariant *)

Definition conf p : settings :=
  Settings (tl_windowBudget p) (tl_protectedBudget p) (tl_probationaryBudget p) (tl_ageThreshold p) (hashKey p).

Definition conf_ok c : Prop := 0 <= c_win c ∧ 0 <= c_prot c ∧ 0 <= c_prob c.

Record tl_ok p s (lx : list (eref K)) (S : gset (eref K)) : Prop := TlOk {
  to_F : fm_is (tl_F p) (seg s) lx S;
  to_sk : tl_sketch p = sk s;
  to_tick : tl_ops p = tick s;
  to_conf : conf_ok (conf p)
}.

Definition tl_tracks p (S : gset (eref K)) : Prop := ∃ s, tl_ok p s [] S.

Lemma conf_with p F : conf (tl_with p F) = conf p.
Proof. done. Qed.

Lemma tl_ok_with p s s' lx lx' S S' F :
  tl_ok p s lx S → sk s' = sk s → tick s' = tick s → fm_is F (seg s') lx' S' → tl_ok (tl_with p F) s' lx' S'.
Proof. intros [H1 H2 H3 H4] Hk Ht HF. constructor; cbn; [done|by rewrite Hk|by rewrite Ht|done]. Qed.

Lemma regionOf_is F s lx S e r n :
  fm_is F (seg s) lx S → e ∈ seg s r → fm_at F e n → regionOf F n = r.
Proof.
  intros HF He Hat. destruct (fm_is_node _ _ _ _ _ _ HF He) as (n' & [Hd _] & Ht). unfold regionOf.
  assert (n' = n) as -> by (destruct Hat; congruence). by rewrite Ht.
Qed.

(** An entry is in one segment. *)
Lemma seg_one F s lx S e r r' : fm_is F (seg s) lx S → e ∈ seg s r → e ∈ seg s r' → r = r'.
Proof.
  intros HF He He'. destruct (fm_is_node _ _ _ _ _ _ HF He) as (n & Hat & Ht).
  by eapply eq_sym, fm_is_tag.
Qed.

Lemma tl_unlink_is F s lx S e r n s' :
  fm_is F (seg s) lx S → e ∈ seg s r → fm_at F e n →
  (∀ r', seg s' r' = setf (seg s) r (without e (seg s r)) r') → fm_is (tl_unlink F n) (seg s') (e :: lx) S.
Proof.
  intros HF He Hat Hs. unfold tl_unlink. rewrite (regionOf_is F s lx S e r n) //.
  eapply fm_is_ext; [exact Hs|by apply fm_is_unlink].
Qed.

(** Moving an entry to the front of a segment. *)
Lemma tl_move_is F s S e r r' n s' :
  fm_is F (seg s) [] S → e ∈ seg s r → fm_at F e n →
  (∀ j, seg s' j = setf (setf (seg s) r (without e (seg s r))) r' (e :: setf (seg s) r (without e (seg s r)) r') j) →
  fm_is (tl_move F n r') (seg s') [] S ∧ (∀ e' n', fm_at F e' n' → fm_at (tl_move F n r') e' n').
Proof.
  intros HF He Hat Hs. unfold tl_move, tl_unlink. rewrite (regionOf_is F s [] S e r n) //. split; [|done].
  eapply fm_is_ext; [exact Hs|]. apply fm_is_pushHead; [by apply fm_is_unlink|apply not_elem_of_nil|exact Hat].
Qed.

Lemma tailOf_is F s lx S r :
  fm_is F (seg s) lx S →
  match tailOf F r with
  | Some n => ∃ e l, seg s r = l ++ [e] ∧ e ∉ l ∧ fm_at F e n
  | None => seg s r = []
  end.
Proof.
  intros HF. pose proof (fm_is_tail _ _ _ _ r HF) as Ht. pose proof (fm_is_nodup _ _ _ _ r HF) as Hn.
  unfold tailOf. destruct (d_tail _) as [n|]; [|done]. destruct Ht as (e & Hl & Hat).
  apply last_Some in Hl as [l Hl]. exists e, l. rewrite Hl in Hn. apply NoDup_app in Hn as (_ & Hn & _).
  split_and!; [done| |done]. intros Hin. apply (Hn e Hin). left.
Qed.

Lemma sizeOf_is F s lx S r : fm_is F (seg s) lx S → sizeOf F r = len (seg s r).
Proof. apply fm_is_size. Qed.

Lemma overTail_is p s lx S r b :
  fm_is (tl_F p) (seg s) lx S → 0 <= b →
  match overTail p r b with
  | Some n => b < len (seg s r) ∧ ∃ e l, seg s r = l ++ [e] ∧ e ∉ l ∧ fm_at (tl_F p) e n
  | None => len (seg s r) <= b
  end.
Proof.
  intros HF Hb. unfold overTail. rewrite (sizeOf_is _ _ _ _ _ HF). pose proof (tailOf_is _ _ _ _ r HF) as Ht.
  destruct (bool_decide_reflect (b < len (seg s r))) as [Ho|Ho]; [|lia].
  destruct (tailOf (tl_F p) r) as [n|]; [done|]. rewrite Ht. done.
Qed.

Lemma without_snoc (l : list (eref K)) e : e ∉ l → without e (l ++ [e]) = l.
Proof. intros He. rewrite without_app (without_notin _ _ He) without_cons_eq ?app_nil_r //. apply not_elem_of_nil. Qed.

Lemma observe_ok p s lx S key : tl_ok p s lx S → tl_ok (observe p key) (used (conf p) s key) lx S ∧ conf (observe p key) = conf p.
Proof.
  intros [H1 H2 H3 H4]. unfold observe, used, conf. cbn. rewrite -H2 -H3. destruct (aged _ _ _ _) as [k t].
  split; [|done]. constructor; cbn; [|done..]. eapply fm_is_ext; [|exact H1]. by intros [].
Qed.

(** ** The operations *)

Lemma tl_take_ok p s S e r n s' :
  tl_ok p s [] S → e ∈ seg s r → fm_at (tl_F p) e n → sk s' = sk s → tick s' = tick s →
  (∀ r', seg s' r' = setf (seg s) r (without e (seg s r)) r') →
  (tl_take p n).1 = Some e ∧ tl_ok (tl_take p n).2 s' [e] S.
Proof.
  intros HP He Hat Hk Ht Hs. unfold tl_take, entryAt. split; [apply Hat|]. cbn.
  eapply tl_ok_with; [exact HP|done|done|]. eapply tl_unlink_is; [apply HP|exact He|done|done].
Qed.

Lemma tl_insert_ok p s S e :
  tl_ok p s [] S → (∀ e', e' ∈ S → e'.1 ≠ e.1) →
  tl_ok (tl_OnInsert p e) (tinylfu_spec (conf p) s (PInsert e)) [] ({[e]} ∪ S).
Proof.
  intros HP Hid. pose proof HP as [H1 H2 H3 H4]. destruct (fm_is_alloc _ _ _ _ H1 Hid) as [HA Hat].
  unfold tl_OnInsert. eapply (observe_ok (tl_with p _)). eapply tl_ok_with; [exact HP|done|done|].
  eapply fm_is_ext; [|apply fm_is_pushHead; [exact HA|apply not_elem_of_nil|exact Hat]]. by intros [].
Qed.

Lemma tl_remove_ok p s S e :
  tl_ok p s [] S → e ∈ S → tl_ok (tl_OnRemove p e) (tinylfu_forget s e) [] (S ∖ {[e]}).
Proof.
  intros HP He. pose proof HP as [H1 H2 H3 H4]. destruct (fm_is_cover _ _ _ _ H1 He) as [r Hr].
  destruct (fm_is_node _ _ _ _ _ _ H1 Hr) as (n & Hat & _). unfold tl_OnRemove. rewrite (proj1 Hat).
  eapply tl_ok_with; [exact HP|done|done|]. apply fm_is_release; [|exact Hat].
  eapply tl_unlink_is; [exact H1|exact Hr|exact Hat|]. intros r'.
  assert (∀ j, j ≠ r → without e (seg s j) = seg s j) as Hj.
  { intros j Hj. apply without_notin. intros Hin. apply Hj. by eapply seg_one. }
  unfold setf. destruct (decide (r' = r)) as [->|Hne]; [by destruct r|]. rewrite -(Hj r' Hne). by destruct r'.
Qed.

(** [OnRemove] after [Victim]. *)
Lemma tl_remove_taken p s S e : tl_ok p s [e] S → tl_ok (tl_OnRemove p e) s [] (S ∖ {[e]}).
Proof.
  intros HP. pose proof HP as [H1 H2 H3 H4]. pose proof H1 as (ls & lo & l & HR & _ & Hlo).
  destruct (one_loose _ _ _ _ _ _ HR Hlo) as (n & _ & Hat). unfold tl_OnRemove. rewrite (proj1 Hat).
  destruct (fm_is_unlink_loose _ _ _ (regionOf (tl_F p) n) _ _ H1 Hat) as [HU HatU].
  eapply tl_ok_with; [exact HP|done|done|]. by apply fm_is_release.
Qed.

Lemma demote_ok fuel b F s S c :
  fm_is F (seg s) [] S → 0 <= b → c_prot c = b → (length (prot s) <= fuel)%nat →
  fm_is (demote fuel b F) (seg (spill c (len (prot s)) s)) [] S.
Proof.
  intros HF Hb Hc. revert F s HF. induction fuel as [|fuel IH]; intros F s HF Hl; cbn [demote].
  { rewrite spill_idle; [done|]. left. unfold len. lia. }
  rewrite (sizeOf_is _ _ _ _ _ HF). cbn [seg]. destruct (bool_decide_reflect (b < len (prot s))) as [Ho|Ho].
  - pose proof (tailOf_is _ _ _ _ regionProtected HF) as Ht. cbn in Ht. destruct (tailOf F regionProtected) as [n|];
      [|exfalso; rewrite Ht in Ho; unfold len in Ho; cbn in Ho; lia].
    destruct Ht as (e & l & El & Hel & Hat). set (s' := with_segs s (win s) l (e :: prob s)).
    assert (fm_is (tl_move F n regionProbationary) (seg s') [] S) as HM.
    { eapply (tl_move_is F s S e regionProtected); [done|cbn; rewrite El; set_solver|done|].
      intros []; cbn; [done| |done]. rewrite El. symmetry. by apply without_snoc. }
    rewrite El length_app in Hl. cbn in Hl. specialize (IH _ _ HM ltac:(cbn; lia)).
    eapply fm_is_ext; [|exact IH]. unfold spill, s'. rewrite El in Ho |- *. unfold len in *. cbn in *. rewrite length_app in Ho |- *. cbn in *.
    replace (Z.to_nat (Z.min (Z.of_nat (length l + 1) - c_prot c) (Z.of_nat (length l + 1))))
      with (Datatypes.S (Z.to_nat (Z.min (Z.of_nat (length l) - c_prot c) (Z.of_nat (length l))))) by lia.
    intros []; cbn; [done|by rewrite keepn_snoc|by rewrite lastn_snoc -app_assoc].
  - rewrite spill_idle; [done|]. left. lia.
Qed.

Lemma without_head (l : list (eref K)) e : NoDup l → head l = Some e → e :: without e l = l.
Proof.
  destruct l as [|x l]; [done|]. intros [Hx _]%NoDup_cons [= ->]. by rewrite without_cons_eq.
Qed.

Lemma tl_touch_ok p s S e n :
  tl_ok p s [] S → e ∈ S → fm_at (tl_F p) e n → fm_is (tl_touch p n) (seg (tinylfu_touch (conf p) s e)) [] S.
Proof.
  intros [H1 H2 H3 H4] He Hat. destruct (fm_is_cover _ _ _ _ H1 He) as [r Hr].
  unfold tl_touch. rewrite (regionOf_is _ _ _ _ _ _ _ H1 Hr Hat). unfold tinylfu_touch.
  assert (∀ r', e ∈ seg s r' ↔ r' = r) as Hone.
  { intros r'. split; [|by intros ->]. intros He'. by eapply seg_one. }
  assert (∀ r, e ∈ seg s r → ∀ s', (∀ j, seg s' j = setf (seg s) r (e :: without e (seg s r)) j) →
    fm_is (if bool_decide (headOf (tl_F p) r = Some n) then tl_F p else tl_move (tl_F p) n r) (seg s') [] S) as Hmove.
  { intros r0 Hr0 s' Hs'. case_bool_decide as Hh.
    - eapply fm_is_ext; [|exact H1]. intros j. rewrite Hs'. pose proof (fm_is_head _ _ _ _ r0 H1) as Hd.
      unfold headOf in Hh. rewrite Hh in Hd. destruct Hd as (e' & Hd & [_ He']).
      assert (e' = e) as -> by (destruct Hat; congruence).
      unfold setf. destruct (decide (j = r0)) as [->|]; [|done]. rewrite without_head //. eapply fm_is_nodup, H1.
    - eapply (tl_move_is _ s S e r0); [done..|]. intros j. rewrite Hs' setf_eq. unfold setf. by destruct (decide (j = r0)). }
  destruct r; cbn in Hr.
  - rewrite decide_False; [|by intros ?%(Hone regionProbationary)]. rewrite decide_True //. apply (Hmove regionWindow); [done|]. by intros [].
  - rewrite decide_False; [|by intros ?%(Hone regionProbationary)]. rewrite decide_False; [|by intros ?%(Hone regionWindow)].
    apply (Hmove regionProtected); [done|]. by intros [].
  - rewrite decide_True //. set (s' := with_segs s (win s) (e :: prot s) (without e (prob s))).
    assert (fm_is (tl_move (tl_F p) n regionProtected) (seg s') [] S) as HM.
    { eapply (tl_move_is _ s S e regionProbationary); [done|done|done|]. by intros []. }
    apply demote_ok; [done|apply H4|done|]. rewrite (sizeOf_is _ _ _ _ _ HM). unfold len. cbn. lia.
Qed.

Lemma tl_access_ok p s S e :
  tl_ok p s [] S → e ∈ S → tl_ok (tl_OnAccess p e) (tinylfu_spec (conf p) s (PAccess e)) [] S.
Proof.
  intros HP He. pose proof HP as [H1 H2 H3 H4]. destruct (fm_is_cover _ _ _ _ H1 He) as [r Hr].
  destruct (fm_is_node _ _ _ _ _ _ H1 Hr) as (n & Hat & _). unfold tl_OnAccess. rewrite (proj1 Hat).
  eapply (observe_ok (tl_with p _)). eapply tl_ok_with; [exact HP| | |by apply tl_touch_ok].
  all: unfold tinylfu_touch; by repeat case_decide.
Qed.

(** ** Victims *)

(** A result of [Victim]: the victim is loose. *)
Definition tl_gives p S (x : option (eref K) * tinylfu) (y : option (eref K) * tinyLFUPolicy) : Prop :=
  y.1 = x.1 ∧ conf y.2 = conf p ∧ tl_ok y.2 x.2 (option_list x.1) S.

Lemma tl_gives_take p s S e r n s' :
  tl_ok p s [] S → e ∈ seg s r → fm_at (tl_F p) e n → sk s' = sk s → tick s' = tick s →
  (∀ r', seg s' r' = setf (seg s) r (without e (seg s r)) r') → tl_gives p S (Some e, s') (tl_take p n).
Proof. intros HP He Hat Hk Ht Hs. destruct (tl_take_ok p s S e r n s') as [E1 E2]; [done..|]. by split_and!. Qed.

Lemma estimateAt_is p s lx S e n : tl_ok p s lx S → fm_at (tl_F p) e n → estimateAt p n = frequency (conf p) s e.
Proof. intros [_ H2 _ _] [_ Hat]. unfold estimateAt, entryAt, estimate, frequency. by rewrite Hat H2. Qed.

(** The window's last entry when the probationary segment is full. *)
Lemma tl_duel_ok p s S e l n :
  tl_ok p s [] S → win s = l ++ [e] → e ∉ l → fm_at (tl_F p) e n → c_prob (conf p) <= len (prob s) →
  tl_gives p S (duel (conf p) s e) (handleWindowDemotion p n) ∧ is_Some (duel (conf p) s e).1.
Proof.
  intros HP Hw Hel Hat Hfull. pose proof HP as [H1 H2 H3 H4]. unfold handleWindowDemotion, duel.
  rewrite (sizeOf_is _ _ _ _ _ H1). cbn [seg]. rewrite bool_decide_false; [|cbn in Hfull; lia].
  assert (e ∈ win s) as He by (rewrite Hw; set_solver).
  pose proof (tailOf_is _ _ _ _ regionProbationary H1) as Ht. cbn in Ht.
  assert (tl_gives p S (Some e, with_segs s (without e (win s)) (prot s) (prob s)) (tl_take p n)) as Htake.
  { eapply (tl_gives_take p s S e regionWindow n); [done..|]. by intros []. }
  destruct (tailOf (tl_F p) regionProbationary) as [m|]; [|assert (last (prob s) = None) as -> by (by rewrite Ht); by split].
  destruct Ht as (v & lv & Hv & Hvl & Hatv). rewrite Hv last_snoc -Hv.
  rewrite (estimateAt_is p s [] S v m HP Hatv) (estimateAt_is p s [] S e n HP Hat).
  case_bool_decide as Hf; [|done]. split; [|done].
  assert (v ∈ prob s) as Hvp by (rewrite Hv; set_solver).
  assert (e ≠ v) as Hev. { intros ->. by pose proof (seg_one _ _ _ _ v regionWindow regionProbationary H1 He Hvp). }
  split_and!; [exact (proj2 Hatv)|done|]. cbn. eapply tl_ok_with; [exact HP|done|done|].
  set (s1 := with_segs s (without e (win s)) (prot s) (prob s)).
  assert (fm_is (tl_unlink (tl_F p) n) (seg s1) [e] S) as U1 by by eapply (tl_unlink_is _ s [] S e regionWindow); [exact H1|exact He|exact Hat|intros []].
  set (s2 := with_segs s (without e (win s)) (prot s) (without v (prob s))).
  assert (fm_is (tl_unlink (tl_unlink (tl_F p) n) m) (seg s2) [v; e] S) as U2
    by by eapply (tl_unlink_is _ s1 [e] S v regionProbationary); [exact U1|exact Hvp|exact Hatv|intros []].
  eapply fm_is_ext; [|apply fm_is_pushHead; [by apply fm_is_swap|set_solver|exact Hat]]. by intros [].
Qed.

Definition load s : nat := (length (win s) + length (prot s))%nat.

Lemma tl_turn_ok p s S :
  tl_ok p s [] S →
  match tl_turn p with
  | inl r => tl_gives p S (tinylfu_evict (conf p) s) r
  | inr p' => conf p' = conf p ∧ ∃ s', tl_ok p' s' [] S ∧ tinylfu_evict (conf p) s' = tinylfu_evict (conf p) s ∧ (load s' < load s)%nat
  end.
Proof.
  intros HP. pose proof HP as [H1 H2 H3 (B1 & B2 & B3)]. unfold tl_turn.
  pose proof (overTail_is p s [] S regionWindow (tl_windowBudget p) H1 B1) as Hw. cbn in Hw.
  destruct (overTail p regionWindow _) as [n|].
  { destruct Hw as (Ho & e & l & El & Hel & Hat). destruct (decide (len (prob s) < tl_probationaryBudget p)) as [Hr|Hr].
    - unfold handleWindowDemotion. rewrite (sizeOf_is _ _ _ _ _ H1) bool_decide_true //. split; [done|].
      exists (with_segs s l (prot s) (e :: prob s)). split_and!.
      + eapply tl_ok_with; [exact HP|done|done|]. eapply (tl_move_is _ s S e regionWindow); [done|cbn; rewrite El; set_solver|done|].
        intros []; cbn; [|done..]. rewrite El. symmetry. by apply without_snoc.
      + by apply evict_fill.
      + unfold load. cbn. rewrite El length_app. cbn. lia.
    - destruct (tl_duel_ok p s S e l n HP El Hel Hat) as [Hg [v Hv]]; [cbn; lia|]. unfold tinylfu_evict.
      rewrite fill_idle; [|right; cbn; lia]. rewrite bool_decide_true // El last_snoc.
      destruct Hg as (G1 & G2 & G3). destruct (handleWindowDemotion p n) as [[v'|] p']; cbn in G1; [|congruence].
      by split_and!. }
  pose proof (overTail_is p s [] S regionProbationary (tl_probationaryBudget p) H1 B3) as Hb. cbn in Hb.
  destruct (overTail p regionProbationary _) as [n|].
  { destruct Hb as (Ho & e & l & El & Hel & Hat). unfold tinylfu_evict. rewrite fill_idle; [|by left].
    rewrite bool_decide_false; [|cbn; lia]. rewrite spill_idle; [|right; cbn; lia]. rewrite bool_decide_true // El last_snoc -El.
    eapply (tl_gives_take p s S e regionProbationary n); [done|cbn; rewrite El; set_solver|done..|]. by intros []. }
  pose proof (overTail_is p s [] S regionProtected (tl_protectedBudget p) H1 B2) as Ht. cbn in Ht.
  destruct (overTail p regionProtected _) as [n|].
  - destruct Ht as (Ho & e & l & El & Hel & Hat). split; [done|].
    exists (with_segs s (win s) l (e :: prob s)). split_and!.
    + eapply tl_ok_with; [exact HP|done|done|]. eapply (tl_move_is _ s S e regionProtected); [done|cbn; rewrite El; set_solver|done|].
      intros []; cbn; [done| |done]. rewrite El. symmetry. by apply without_snoc.
    + by apply evict_spill.
    + unfold load. cbn. rewrite El length_app. cbn. lia.
  - unfold tinylfu_evict. rewrite fill_idle; [|by left]. rewrite bool_decide_false; [|cbn; lia].
    rewrite spill_idle; [|by left]. rewrite bool_decide_false; [|cbn; lia]. by split_and!.
Qed.

Lemma tl_loop_ok turns p s S :
  tl_ok p s [] S → (load s < turns)%nat →
  ∃ y, tl_loop turns p = inl y ∧ tl_gives p S (tinylfu_evict (conf p) s) y.
Proof.
  revert p s. induction turns as [|turns IH]; intros p s HP Ht; [lia|]. cbn [tl_loop].
  pose proof (tl_turn_ok p s S HP) as Hs. destruct (tl_turn p) as [y|p']; [by eexists|].
  destruct Hs as (Hc & s' & HP' & He & Hl). destruct (IH p' s' HP' ltac:(lia)) as (y & Hy & G1 & G2 & G3).
  rewrite Hc He in G1, G2, G3. exists y. split; [done|]. split_and!; [done|congruence|done].
Qed.

Lemma tl_Len_is p s lx S : tl_ok p s lx S → tl_Len p = len (win s) + len (prot s) + len (prob s).
Proof. intros [H1 _ _ _]. unfold tl_Len. by rewrite !(sizeOf_is _ _ _ _ _ H1). Qed.

Lemma tl_bound p s S : tl_ok p s [] S → (load s < Z.to_nat (tl_Len p + 1))%nat.
Proof. intros HP. rewrite (tl_Len_is p s [] S HP). unfold load, len. lia. Qed.

Lemma tl_Victim_ok p s S : tl_ok p s [] S → tl_gives p S (tinylfu_evict (conf p) s) (tl_Victim p).
Proof.
  intros HP. unfold tl_Victim. by destruct (tl_loop_ok _ p s S HP (tl_bound p s S HP)) as (y & -> & Hy).
Qed.

Lemma tl_shed_ok p s S :
  tl_ok p s [] S → evicted tl_tracks S (tl_shed p) ∧ (S ≠ ∅ → is_Some (tl_shed p).1).
Proof.
  intros HP. pose proof HP as [H1 _ _ _].
  assert (∀ r n, tailOf (tl_F p) r = Some n → evicted tl_tracks S (tl_take p n) ∧ is_Some (tl_take p n).1) as Hr.
  { intros r n Hn. pose proof (tailOf_is _ _ _ _ r H1) as Ht. rewrite Hn in Ht. destruct Ht as (e & l & El & _ & Hat).
    assert (e ∈ seg s r) as He by (rewrite El; set_solver).
    set (s' := TState (setf (seg s) r (without e (seg s r)) regionWindow) (setf (seg s) r (without e (seg s r)) regionProtected)
      (setf (seg s) r (without e (seg s r)) regionProbationary) (sk s) (tick s)).
    destruct (tl_take_ok p s S e r n s') as [E1 E2]; [done..|by intros []|].
    destruct (tl_take p n) as [o p']. cbn in E1, E2. subst o. split; [|done]. split; [by eapply fm_is_elem|].
    eexists. by apply tl_remove_taken. }
  unfold tl_shed. destruct (tailOf _ regionProbationary) eqn:T1; [by destruct (Hr _ _ T1)|].
  destruct (tailOf _ regionWindow) eqn:T2; [by destruct (Hr _ _ T2)|].
  destruct (tailOf _ regionProtected) eqn:T3; [by destruct (Hr _ _ T3)|]. split; [by eexists|]. intros HS. exfalso.
  apply HS. apply set_eq. intros e. split; [|set_solver]. intros He. destruct (fm_is_cover _ _ _ _ H1 He) as [r Her].
  pose proof (tailOf_is _ _ _ _ r H1) as Ht. destruct r; rewrite ?T1 ?T2 ?T3 in Ht; rewrite Ht in Her; by apply elem_of_nil in Her.
Qed.

Lemma split_nonneg budget : let '(w, t, b) := tinyLFUSplitBudget budget in 0 <= w ∧ 0 <= t ∧ 0 <= b.
Proof. unfold tinyLFUSplitBudget. repeat case_bool_decide; lia. Qed.

Lemma tl_new_ok budget hasher : tl_ok (newTinyLFU budget hasher) (TState [] [] [] (cms_New (Z.max budget 64) []) 0) [] ∅.
Proof.
  unfold newTinyLFU. pose proof (split_nonneg budget) as Hs. destruct (tinyLFUSplitBudget budget) as [[w t] b].
  constructor; [|done|done|done]. cbn. eapply fm_is_ext; [|apply fm_is_empty]. by intros [].
Qed.

Lemma tl_reset_ok p s lx S : tl_ok p s lx S → tl_ok (tl_Reset p) (tinylfu_spec (conf p) s PReset) [] ∅.
Proof.
  intros [H1 H2 H3 H4]. constructor; cbn; [|by rewrite H2|done|done].
  eapply fm_is_ext; [|apply fm_is_empty]. by intros [].
Qed.

Lemma tl_held p s S e : tl_ok p s [] S → e ∈ win s ++ prot s ++ prob s ↔ e ∈ S.
Proof.
  intros [H1 _ _ _]. rewrite !elem_of_app. split.
  - intros [He|[He|He]]; [by apply (fm_is_elem _ _ _ _ e regionWindow H1)|by apply (fm_is_elem _ _ _ _ e regionProtected H1)|].
    by apply (fm_is_elem _ _ _ _ e regionProbationary H1).
  - intros He. destruct (fm_is_cover _ _ _ _ H1 He) as [[] Hr]; tauto.
Qed.

Lemma tl_held_nodup p s S : tl_ok p s [] S → NoDup (win s ++ prot s ++ prob s).
Proof.
  intros [H1 _ _ _]. assert (∀ r, NoDup (seg s r)) as Hn by (intros r; by eapply fm_is_nodup).
  assert (∀ r r' e, r ≠ r' → e ∈ seg s r → e ∉ seg s r') as Ho by (intros r r' e Hne ??; by eapply Hne, seg_one).
  apply NoDup_app. split; [exact (Hn regionWindow)|]. split.
  - intros e He [Hp|Hp]%elem_of_app; [by apply (Ho regionWindow regionProtected e)|by apply (Ho regionWindow regionProbationary e)].
  - apply NoDup_app. split; [exact (Hn regionProtected)|]. split; [|exact (Hn regionProbationary)].
    intros e He. by apply (Ho regionProtected regionProbationary).
Qed.

#[export] Program Instance tl_laws : PolicyLaws K tinyLFUPolicy := { tracks := tl_tracks }.
Next Obligation. intros p S e [s HP] Hid. eexists. by apply tl_insert_ok. Qed.
Next Obligation. intros p S e [s HP] He. eexists. by apply tl_access_ok. Qed.
Next Obligation. intros p S e [s HP] He. eexists. by apply tl_access_ok. Qed.
Next Obligation. intros p S e [s HP] He. eexists. by apply tl_remove_ok. Qed.
Next Obligation.
  intros p S [s HP]. destruct (tl_Victim_ok p s S HP) as (E1 & _ & E3). change (Victim p) with (tl_Victim p).
  destruct (tl_Victim p) as [o p'], (tinylfu_evict (conf p) s) as [o' s']. cbn in E1, E3. subst o'.
  destruct o as [e|]; cbn in *; [|by eexists]. pose proof (to_F _ _ _ _ E3) as (ls & lo & l & HR & _ & Hlo).
  destruct (one_loose _ _ _ _ _ _ HR Hlo) as (n & -> & [_ Hn]). split; [|eexists; by apply tl_remove_taken].
  eapply owns_elem; [apply HR| |exact Hn]. apply (fr_all _ _ _ _ _ HR). left. left.
Qed.
Next Obligation. intros p S b [s HP]. exact (proj1 (tl_shed_ok p s S HP)). Qed.
Next Obligation.
  intros p S b [s HP] Hs. unfold shedVictim. destruct (tl_Victim_ok p s S HP) as (E1 & _ & E3).
  change (Victim p) with (tl_Victim p). destruct (tl_Victim p) as [[e|] p']; [done|]. cbn in E1. rewrite -E1 in E3.
  apply (tl_shed_ok p' _ S E3). intros ->. rewrite size_empty in Hs. destruct b; lia.
Qed.
Next Obligation.
  intros p S [s HP]. change (Len p) with (tl_Len p). rewrite (tl_Len_is p s [] S HP). unfold len.
  rewrite -!Nat2Z.inj_add -Nat.add_assoc -!length_app. f_equal. pose proof (tl_held_nodup p s S HP) as Hn.
  rewrite -(size_list_to_set (C := gset (eref K)) _ Hn). f_equal. apply set_eq. intros e.
  rewrite elem_of_list_to_set. by apply tl_held with p.
Qed.
Next Obligation. intros p S [s HP]. eexists. by eapply tl_reset_ok. Qed.
Next Obligation.
  intros p S b [s [H1 H2 H3 H4]]. exists s. change (SetBudget p b) with (tl_SetBudget p b). unfold tl_SetBudget.
  pose proof (split_nonneg b) as Hb. destruct (tinyLFUSplitBudget b) as [[w t] q]. by constructor.
Qed.
Next Obligation. done. Qed.

(** ** Runs *)

Lemma tl_conf_steps p s S o :
  tl_ok p s [] S → pop_ok (win s ++ prot s ++ prob s) o →
  conf (pol_step p o) = conf p ∧ ∃ S', tl_ok (pol_step p o) (tinylfu_spec (conf p) s o) [] S'.
Proof.
  intros HP Ho. pose proof (λ e, tl_held p s S e HP) as Hh.
  assert (∀ q key, conf (observe q key) = conf q) as Hobs.
  { intros q key. unfold observe. by destruct (aged _ _ _ _). }
  destruct o as [e|e|e|e| |]; cbn [pol_step].
  - change (OnInsert p e) with (tl_OnInsert p e). split; [by unfold tl_OnInsert; rewrite Hobs|]. eexists. apply tl_insert_ok; [done|].
    intros e' He' Heq. apply Ho. rewrite -Heq. apply list_elem_of_fmap_2. by apply Hh.
  - change (OnAccess p e) with (tl_OnAccess p e). split; [unfold tl_OnAccess; case_match; [by rewrite Hobs|done]|].
    eexists. apply tl_access_ok; [done|]. by apply Hh.
  - change (OnUpdate p e) with (tl_OnAccess p e). split; [unfold tl_OnAccess; case_match; [by rewrite Hobs|done]|].
    eexists. apply (tl_access_ok p s S e); [done|]. by apply Hh.
  - change (OnRemove p e) with (tl_OnRemove p e). split; [unfold tl_OnRemove; by case_match|].
    eexists. apply tl_remove_ok; [done|]. by apply Hh.
  - change (Victim p) with (tl_Victim p). destruct (tl_Victim_ok p s S HP) as (E1 & E2 & E3). cbn [tinylfu_spec].
    destruct (tl_Victim p) as [o p'], (tinylfu_evict (conf p) s) as [o' s']. cbn in E1, E2, E3 |- *. subst o'.
    destruct o as [e|]; [|by eauto]. change (OnRemove p' e) with (tl_OnRemove p' e).
    split; [rewrite -E2; unfold tl_OnRemove; by case_match|]. eexists. by apply tl_remove_taken.
  - split; [done|]. eexists. by eapply tl_reset_ok.
Qed.

Definition tinylfu_new budget : tinylfu := TState [] [] [] (cms_New (Z.max budget 64) []) 0.

Lemma tl_run_ok budget hasher os :
  let p := newTinyLFU budget hasher in
  calls_ok (λ s, win s ++ prot s ++ prob s) (tinylfu_spec (conf p)) (tinylfu_new budget) os →
  conf (foldl pol_step p os) = conf p ∧
  ∃ S, tl_ok (foldl pol_step p os) (foldl (tinylfu_spec (conf p)) (tinylfu_new budget) os) [] S.
Proof.
  cbv zeta. set (c := conf (newTinyLFU budget hasher)). assert (conf (newTinyLFU budget hasher) = c) as Hc by done.
  pose proof (tl_new_ok budget hasher) as HP. fold (tinylfu_new budget) in HP. clearbody c. revert HP Hc.
  generalize (newTinyLFU budget hasher), (tinylfu_new budget), (∅ : gset (eref K)).
  induction os as [|o os IH]; intros p s S HP Hc Hok; [by eauto|].
  destruct Hok as [Ho Hok]. cbn [foldl]. destruct (tl_conf_steps p s S o HP Ho) as [Hc' [S' HP']].
  rewrite Hc in HP', Hc'. by eapply IH.
Qed.

(** C32: driven by any sequence of calls a shard can make, the linked segments
    implement W-TinyLFU on lists: the window, protected and probationary
    segments hold the same entries in the same order as the list
    specification, the sketch has counted the same uses, and the next victim
    is the one the specification names (window overflow first fills the
    probationary segment, then its oldest entry competes by frequency with
    the oldest probationary one, then the oldest probationary entry goes). *)
Theorem tinylfu_refines budget hasher os :
  let p := newTinyLFU budget hasher in
  calls_ok (λ s, win s ++ prot s ++ prob s) (tinylfu_spec (conf p)) (tinylfu_new budget) os →
  let q := foldl pol_step p os in
  let s := foldl (tinylfu_spec (conf p)) (tinylfu_new budget) os in
  (∀ r, fm_ents (tl_F q) r = seg s r) ∧ tl_sketch q = sk s ∧ (tl_Victim q).1 = (tinylfu_evict (conf p) s).1.
Proof.
  cbv zeta. intros Hok. destruct (tl_run_ok budget hasher os Hok) as (Hc & S & HP). pose proof HP as [H1 H2 _ _].
  split_and!; [intros r; by eapply fm_is_ents|done|].
  rewrite (proj1 (tl_Victim_ok _ _ S HP)). by rewrite Hc.
Qed.

(** C33: the loop of [Victim] always ends by a return within its bound of one
    turn more than the number of entries, so the fallback after it is never
    reached; and [Victim] finds a victim whenever the policy holds more
    entries than the three budgets together. *)
Theorem tinylfu_terminates p S :
  tl_tracks p S →
  (∃ y, tl_loop (Z.to_nat (tl_Len p + 1)) p = inl y ∧ tl_Victim p = y) ∧
  (tl_windowBudget p + tl_protectedBudget p + tl_probationaryBudget p < tl_Len p → is_Some (tl_Victim p).1).
Proof.
  intros [s HP]. pose proof (tl_bound p s S HP) as Hb. destruct (tl_loop_ok _ p s S HP Hb) as (y & Hy & G1 & _ & _).
  unfold tl_Victim. rewrite Hy. split; [by eexists|]. rewrite (tl_Len_is p s [] S HP) G1. apply (evict_some (conf p) s); apply HP.
Qed.
End tinylfu.
Arguments tinyLFUPolicy : clear implicits.

Lemma tinylfu_refines_witness :
  let e (n : positive) : eref Z := (n, Z.pos n) in
  let os := [PInsert (e 1%positive); PAccess (e 1%positive); PInsert (e 2%positive); PEvict; PInsert (e 3%positive); PEvict;
             PInsert (e 4%positive)] in
  let q := foldl pol_step (newTinyLFU 2 (Some id)) os in
  fm_ents (tl_F q) regionWindow = [e 4%positive; e 3%positive] ∧ fm_ents (tl_F q) regionProbationary = [e 1%positive].
Proof.
  cbv zeta. match goal with |- fm_ents (tl_F (foldl _ _ ?os)) _ = _ ∧ _ => destruct (tinylfu_refines 2 (Some id) os) as [HL _] end.
  - vm_compute. repeat split; set_solver.
  - rewrite !HL. split; vm_compute; reflexivity.
Defined.

Lemma tinylfu_terminates_witness :
  is_Some (tl_Victim (foldl pol_step (newTinyLFU 2 (Some id))
    [PInsert (1%positive, 1); PInsert (2%positive, 2); PInsert (3%positive, 3); PInsert (4%positive, 4)])).1.
Proof.
  destruct (tl_run_ok 2 (Some id) [PInsert (1%positive, 1); PInsert (2%positive, 2); PInsert (3%positive, 3); PInsert (4%positive, 4)])
    as (_ & S & HP); [vm_compute; repeat split; set_solver|].
  apply (tinylfu_terminates _ S); [eexists; exact HP|vm_compute; reflexivity].
Defined.
