(* ===== verification/Fifo.v ===== *)
(** * Fifo: the FIFO eviction policy ([fifo.go])

    Entries leave in the order they arrived.  [fifo_entries] reads the
    entries off the linked list, oldest first; the theorems say what each
    operation does to that sequence, and the instance of [PolicyLaws] is what
    the shard relies on. *)

From S2P Require Import Prelude Dll Policy.

Section fifo.
Context {K : Type} `{Countable K}.

Record fifoPolicy := FifoPolicy { fifo_nodes : nodes K; fifo_list : dll }.

Definition newFIFO : fifoPolicy := FifoPolicy nodes_empty dll_nil.

Definition fifo_OnInsert (p : fifoPolicy) (e : eref K) : fifoPolicy :=
  let n := nd_fresh (fifo_nodes p) in
  let N := alloc (fifo_nodes p) e in
  let L := nd_links N in
  let q := fifo_list p in
  match d_tail q with
  | None => FifoPolicy N (Dll (Some n) (Some n) (d_size q + 1))
  | Some t =>
      let L := set_prev L n (Some t) in
      let L := set_next L t (Some n) in
      FifoPolicy (with_links N L) (Dll (d_head q) (Some n) (d_size q + 1))
  end.

Definition fifo_OnAccess (p : fifoPolicy) (e : eref K) : fifoPolicy := p.

Definition fifo_OnUpdate (p : fifoPolicy) (e : eref K) : fifoPolicy := p.

Definition fifo_OnRemove (p : fifoPolicy) (e : eref K) : fifoPolicy :=
  let N := fifo_nodes p in
  let q := fifo_list p in
  match nd_data N !! e.1 with
  | None => p
  | Some n =>
      let L := nd_links N in
      let '(L, h) :=
        match l_prev L !! n with
        | Some pr => (set_next L pr (l_next L !! n), d_head q)
        | None => (L, l_next L !! n)
        end in
      let '(L, t) :=
        match l_next L !! n with
        | Some nx => (set_prev L nx (l_prev L !! n), d_tail q)
        | None => (L, l_prev L !! n)
        end in
      FifoPolicy (release (with_links N L) n e) (Dll h t (d_size q - 1))
  end.

Definition fifo_Victim (p : fifoPolicy) : option (eref K) * fifoPolicy :=
  (match d_head (fifo_list p) with
   | None => None
   | Some n => nd_entry (fifo_nodes p) !! n
   end, p).

Definition fifo_Len (p : fifoPolicy) : Z := d_size (fifo_list p).

Definition fifo_SetBudget (p : fifoPolicy) (budget : Z) : fifoPolicy := p.

(** The nodes on the list, oldest first. *)
Definition fifo_seq (p : fifoPolicy) : list loc :=
  dll_walk (nd_links (fifo_nodes p)) (d_head (fifo_list p)) (Z.to_nat (d_size (fifo_list p))).

Definition fifo_Reset (p : fifoPolicy) : fifoPolicy :=
  FifoPolicy (reset_nodes (fifo_nodes p) (fifo_seq p)) dll_nil.

Definition fifo_Snapshot (p : fifoPolicy) : policyDetail := PolicyDetailFIFO (d_size (fifo_list p)).

Definition fifo_PromotionNeeded (p : fifoPolicy) (e : eref K) : bool := false.

Arguments fifo_OnInsert : simpl never.
Arguments fifo_OnRemove : simpl never.
Arguments fifo_Victim : simpl never.

#[export] Instance fifo_policy : EvictionPolicy K fifoPolicy := {
  OnInsert := fifo_OnInsert;
  OnAccess := fifo_OnAccess;
  OnUpdate := fifo_OnUpdate;
  OnRemove := fifo_OnRemove;
  Victim := fifo_Victim;
  Len := fifo_Len;
  Reset := fifo_Reset;
  SetBudget := fifo_SetBudget;
  Snapshot := fifo_Snapshot;
  PromotionNeeded := fifo_PromotionNeeded;
  shed p _ := (None, p)
}.

(** ** The order of the entries *)

(** The tracked entries, oldest first. *)
Definition fifo_entries (p : fifoPolicy) : list (eref K) := ents (fifo_nodes p) (fifo_seq p).

(** [p] is well-formed and tracks [S]. *)
Definition fifo_tracks (p : fifoPolicy) (S : gset (eref K)) : Prop :=
  dll_rep (nd_links (fifo_nodes p)) (fifo_list p) (fifo_seq p) ∧
  owns (fifo_nodes p) (fifo_seq p) S.

Lemma fifo_tracks_intro p l S :
  dll_rep (nd_links (fifo_nodes p)) (fifo_list p) l → owns (fifo_nodes p) l S →
  fifo_tracks p S ∧ fifo_seq p = l.
Proof.
  intros Hrep HO. assert (fifo_seq p = l) as El by by apply dll_walk_rep.
  by rewrite /fifo_tracks El.
Qed.

(** On the freshly allocated node the code of [OnInsert] is [dll_pushTail]. *)
Lemma fifo_OnInsert_push p e :
  let N := alloc (fifo_nodes p) e in
  let r := dll_pushTail (nd_links N) (fifo_list p) (nd_fresh (fifo_nodes p)) in
  fifo_OnInsert p e = FifoPolicy (with_links N r.1) r.2.
Proof.
  unfold fifo_OnInsert, dll_pushTail. destruct (d_tail (fifo_list p)); cbn;
    by rewrite /set_next /set_prev /alloc /with_links /= !upd_upd.
Qed.

(** On a node of the list the code of [OnRemove] is [dll_unlink]. *)
Lemma fifo_OnRemove_unlink p S e n :
  fifo_tracks p S → nd_data (fifo_nodes p) !! e.1 = Some n → n ∈ fifo_seq p →
  let r := dll_unlink (nd_links (fifo_nodes p)) (fifo_list p) n in
  fifo_OnRemove p e = FifoPolicy (release (with_links (fifo_nodes p) r.1) n e) r.2.
Proof.
  intros [Hrep _] Hd (l1 & l2 & El)%list_elem_of_split. rewrite El in Hrep. cbv zeta.
  rewrite (unlink_spliced _ _ _ _ _ Hrep). unfold fifo_OnRemove, spliced. rewrite Hd.
  destruct (rep_node _ _ _ _ _ Hrep) as [Hp Hx].
  rewrite Hp Hx (unlink_head _ _ _ _ _ Hrep) (unlink_tail _ _ _ _ _ Hrep).
  rewrite head_app_split last_app_split.
  destruct (last l1) as [pr|] eqn:Ep; cbn.
  - pose proof (unlink_next_x_kept _ _ _ _ _ Hrep pr Ep). rewrite lookup_upd_ne // Hx.
    destruct (head l2); cbn; by rewrite ?Hp /release /set_next /set_prev /with_links /= !upd_upd.
  - rewrite Hx. destruct (head l2); cbn;
      by rewrite ?Hp /release /set_next /set_prev /with_links /= !upd_upd.
Qed.

Lemma fifo_insert_spec p S e :
  fifo_tracks p S → (∀ e', e' ∈ S → e'.1 ≠ e.1) →
  fifo_tracks (fifo_OnInsert p e) ({[e]} ∪ S) ∧
  fifo_entries (fifo_OnInsert p e) = fifo_entries p ++ [e].
Proof.
  intros [Hrep HO] Hid. rewrite fifo_OnInsert_push.
  destruct (owns_alloc _ _ _ _ HO Hid) as [Hf HO'].
  pose proof (pushTail_rep _ _ _ _ (rep_alloc _ _ _ e Hf Hrep) Hf) as Hpush.
  destruct (dll_pushTail _ _ _) as [L q] eqn:Eq; cbn in Hpush |- *. destruct Hpush as [Hpush _].
  edestruct (fifo_tracks_intro (FifoPolicy (with_links (alloc (fifo_nodes p) e) L) q))
    as [HT Hs]; [exact Hpush| |].
  { eapply owns_links; [exact HO'|]. by rewrite (Permutation_app_comm (fifo_seq p)). }
  split; [exact HT|]. unfold fifo_entries at 1. rewrite Hs. cbn [fifo_nodes].
  rewrite (ents_ext (alloc (fifo_nodes p) e)) // ents_app ents_alloc // ents_alloc_new //.
Qed.

Lemma fifo_remove_spec p S e :
  fifo_tracks p S → e ∈ S →
  fifo_tracks (fifo_OnRemove p e) (S ∖ {[e]}) ∧
  fifo_entries (fifo_OnRemove p e) = without e (fifo_entries p).
Proof.
  intros HT He. pose proof HT as [Hrep HO].
  destruct (owns_lookup _ _ _ _ HO He) as (n & Hd & Hn & Hne).
  rewrite (fifo_OnRemove_unlink _ _ _ _ HT Hd Hn).
  pose proof (unlink_rep _ _ _ _ Hrep Hn) as Hu.
  destruct (dll_unlink _ _ _) as [L q]; cbn in Hu |- *. destruct Hu as (Hu & _ & _).
  edestruct (fifo_tracks_intro (FifoPolicy (release (with_links (fifo_nodes p) L) n e) q)
    (without n (fifo_seq p)) (S ∖ {[e]})) as [HT' Hs].
  - apply rep_release; [|done]. rewrite elem_of_without. tauto.
  - eapply owns_release; [exact HO|done..|by left|done].
  - split; [exact HT'|]. unfold fifo_entries at 1. rewrite Hs.
    by eapply ents_release.
Qed.

Lemma fifo_victim_spec p S :
  fifo_tracks p S → fifo_Victim p = (head (fifo_entries p), p).
Proof.
  intros [Hrep HO]. unfold fifo_Victim, fifo_entries.
  rewrite (ents_head _ _ _ HO) (rep_head _ _ _ Hrep). by destruct (head (fifo_seq p)).
Qed.

Lemma fifo_reset_spec p : fifo_tracks (fifo_Reset p) ∅ ∧ fifo_entries (fifo_Reset p) = [].
Proof. split; [|done]. split; [apply rep_nil|apply owns_nil]. Qed.

#[export] Program Instance fifo_laws : PolicyLaws K fifoPolicy := { tracks := fifo_tracks }.
Next Obligation. intros. by apply fifo_insert_spec. Qed.
Next Obligation. done. Qed.
Next Obligation. done. Qed.
Next Obligation. intros. by apply fifo_remove_spec. Qed.
Next Obligation.
  intros p S HT. change (Victim p) with (fifo_Victim p).
  rewrite (fifo_victim_spec _ _ HT) /evicted.
  destruct (head (fifo_entries p)) as [e|] eqn:Hh; [|done].
  assert (e ∈ S) by (eapply elem_of_ents; [apply HT|by apply head_Some_elem_of]).
  split; [done|]. by apply fifo_remove_spec.
Qed.
Next Obligation. done. Qed.
Next Obligation.
  intros p S b HT Hs. unfold shedVictim. change (Victim p) with (fifo_Victim p).
  rewrite (fifo_victim_spec _ _ HT).
  destruct (fifo_entries p) eqn:Hh; [|done]. exfalso. destruct HT as [Hrep HO].
  pose proof (ents_length _ _ _ HO) as Hl. unfold fifo_entries in Hh. rewrite Hh in Hl.
  pose proof (owns_size _ _ _ HO). destruct b; cbn in *; lia.
Qed.
Next Obligation. intros p S [Hrep HO]. cbn. by rewrite (owns_size _ _ _ HO) -(rep_size _ _ _ Hrep). Qed.
Next Obligation. intros p S HT. apply fifo_reset_spec. Qed.
Next Obligation. done. Qed.
Next Obligation. done. Qed.

(** The specification: a queue, oldest entry first. *)
Definition fifo_spec (es : list (eref K)) (o : pop K) : list (eref K) :=
  match o with
  | PInsert e => es ++ [e]
  | PAccess _ | PUpdate _ => es
  | PRemove e => without e es
  | PEvict => tail es
  | PReset => []
  end.

Lemma fifo_step_spec p S o :
  fifo_tracks p S → pop_ok (fifo_entries p) o →
  fifo_entries (pol_step p o) = fifo_spec (fifo_entries p) o ∧
  ∃ S', fifo_tracks (pol_step p o) S'.
Proof.
  intros HT Ho. pose proof HT as [Hrep HO].
  pose proof (λ e, elem_of_ents _ _ _ e HO) as HE.
  destruct o as [e|e|e|e| |]; cbn in Ho |- *.
  - destruct (fifo_insert_spec p S e HT) as [? ?]; [by eapply ents_ids|eauto].
  - eauto.
  - eauto.
  - destruct (fifo_remove_spec p S e HT) as [? ?]; [by apply HE|eauto].
  - change (Victim p) with (fifo_Victim p). rewrite (fifo_victim_spec _ _ HT).
    pose proof (NoDup_ents _ _ _ HO) as Hn. fold (fifo_entries p) in Hn, HE.
    destruct (fifo_entries p) as [|e es] eqn:Hes; cbn; [eauto|].
    destruct (fifo_remove_spec p S e HT) as [? Hr]; [by apply HE; left|].
    rewrite Hr Hes without_cons_eq; [eauto|by apply NoDup_cons in Hn as [? _]].
  - destruct (fifo_reset_spec p). eauto.
Qed.

(** Started empty and driven by any sequence of calls a shard can make,
    the linked-list code of the FIFO policy holds exactly the entries of a
    queue in arrival order: inserts append, accesses and updates change
    nothing, an eviction removes the oldest entry and no other. *)
Theorem fifo_refines_queue os :
  pops_ok fifo_spec [] os →
  fifo_entries (foldl pol_step newFIFO os) = foldl fifo_spec [] os.
Proof.
  assert (fifo_tracks newFIFO ∅) as HT by (split; [apply rep_nil|apply owns_nil]).
  change [] with (fifo_entries newFIFO). revert HT.
  generalize newFIFO, (∅ : gset (eref K)).
  induction os as [|o os IH]; intros p S HT Hok; [done|]. destruct Hok as [Ho Hok]. cbn.
  destruct (fifo_step_spec p S o HT Ho) as [Hs [S' HT']].
  rewrite -Hs in Hok |- *. by eapply IH.
Qed.
End fifo.

Lemma fifo_refines_queue_witness :
  fifo_entries (foldl pol_step newFIFO
    [PInsert (1%positive, 10%Z); PInsert (2%positive, 20%Z); PAccess (1%positive, 10%Z); PEvict])
  = [(2%positive, 20%Z)].
Proof.
  refine (eq_trans (fifo_refines_queue _ _) _); [|reflexivity].
  cbn. repeat split; set_solver.
Defined.
