(* ===== verification/Lru.v ===== *)
(** * Lru: the LRU eviction policy ([lru.go])

    The list runs from the most to the least recently used entry.
    [lru_entries] reads the entries off the linked list in that order; the
    refinement theorem says that the pointer code keeps exactly the recency
    order of the calls made. *)

From S2P Require Import Prelude Dll Policy.

Section lru.
Context {K : Type} `{Countable K}.

Record lruPolicy := LruPolicy { lru_nodes : nodes K; lru_list : dll }.

Definition newLRU : lruPolicy := LruPolicy nodes_empty dll_nil.

Definition lru_pushFront (p : lruPolicy) (n : loc) : lruPolicy :=
  let q := lru_list p in
  let L := nd_links (lru_nodes p) in
  let L := set_prev L n None in
  let L := set_next L n (d_head q) in
  let L := match d_head q with Some h => set_prev L h (Some n) | None => L end in
  let t := match d_tail q with None => Some n | Some t => Some t end in
  LruPolicy (with_links (lru_nodes p) L) (Dll (Some n) t (d_size q)).

Definition lru_unlink (p : lruPolicy) (n : loc) : lruPolicy :=
  let q := lru_list p in
  let L := nd_links (lru_nodes p) in
  let '(L, h) :=
    match l_prev L !! n with
    | Some pr => (set_next L pr (l_next L !! n), d_head q)
    | None => (L, if decide (d_head q = Some n) then l_next L !! n else d_head q)
    end in
  let '(L, t) :=
    match l_next L !! n with
    | Some nx => (set_prev L nx (l_prev L !! n), d_tail q)
    | None => (L, if decide (d_tail q = Some n) then l_prev L !! n else d_tail q)
    end in
  let L := set_next L n None in
  let L := set_prev L n None in
  LruPolicy (with_links (lru_nodes p) L) (Dll h t (d_size q)).

(** [p.size += d] *)
Definition lru_count (p : lruPolicy) (d : Z) : lruPolicy :=
  LruPolicy (lru_nodes p)
    (Dll (d_head (lru_list p)) (d_tail (lru_list p)) (d_size (lru_list p) + d)).

Definition lru_OnInsert (p : lruPolicy) (e : eref K) : lruPolicy :=
  let n := nd_fresh (lru_nodes p) in
  lru_count (lru_pushFront (LruPolicy (alloc (lru_nodes p) e) (lru_list p)) n) 1.

Definition lru_OnAccess (p : lruPolicy) (e : eref K) : lruPolicy :=
  match nd_data (lru_nodes p) !! e.1 with
  | None => p
  | Some n =>
      if decide (d_head (lru_list p) = Some n) then p
      else lru_pushFront (lru_unlink p n) n
  end.

Definition lru_OnUpdate (p : lruPolicy) (e : eref K) : lruPolicy := lru_OnAccess p e.

Definition lru_OnRemove (p : lruPolicy) (e : eref K) : lruPolicy :=
  match nd_data (lru_nodes p) !! e.1 with
  | None => p
  | Some n =>
      let p := lru_unlink p n in
      let N := lru_nodes p in
      lru_count (LruPolicy (Nodes (nd_links N) (delete n (nd_entry N))
                              (delete e.1 (nd_data N)) (nd_fresh N)) (lru_list p)) (-1)
  end.

Definition lru_Victim (p : lruPolicy) : option (eref K) * lruPolicy :=
  (match d_tail (lru_list p) with
   | None => None
   | Some n => nd_entry (lru_nodes p) !! n
   end, p).

Definition lru_Len (p : lruPolicy) : Z := d_size (lru_list p).

Definition lru_SetBudget (p : lruPolicy) (budget : Z) : lruPolicy := p.

(** The nodes on the list, most recently used first. *)
Definition lru_seq (p : lruPolicy) : list loc :=
  dll_walk (nd_links (lru_nodes p)) (d_head (lru_list p)) (Z.to_nat (d_size (lru_list p))).

Definition lru_Reset (p : lruPolicy) : lruPolicy :=
  LruPolicy (reset_nodes (lru_nodes p) (lru_seq p)) dll_nil.

Definition lru_Snapshot (p : lruPolicy) : policyDetail := PolicyDetailLRU (d_size (lru_list p)).

Definition lru_PromotionNeeded (p : lruPolicy) (e : eref K) : bool := true.

Arguments lru_Victim : simpl never.
Arguments lru_OnInsert : simpl never.
Arguments lru_OnAccess : simpl never.
Arguments lru_OnRemove : simpl never.

#[export] Instance lru_policy : EvictionPolicy K lruPolicy := {
  OnInsert := lru_OnInsert;
  OnAccess := lru_OnAccess;
  OnUpdate := lru_OnUpdate;
  OnRemove := lru_OnRemove;
  Victim := lru_Victim;
  Len := lru_Len;
  Reset := lru_Reset;
  SetBudget := lru_SetBudget;
  Snapshot := lru_Snapshot;
  PromotionNeeded := lru_PromotionNeeded;
  shed p _ := (None, p)
}.

(** ** The recency order *)

Definition lru_entries (p : lruPolicy) : list (eref K) := ents (lru_nodes p) (lru_seq p).

(** The pointers of [p] represent the nodes [l]; the [size] field is off by
    [d], which is not 0 between the two halves of an operation. *)
Definition lru_rep (p : lruPolicy) (l : list loc) (d : Z) : Prop :=
  dll_rep (nd_links (lru_nodes p)) (lru_list (lru_count p d)) l.

Definition lru_tracks (p : lruPolicy) (S : gset (eref K)) : Prop :=
  lru_rep p (lru_seq p) 0 ∧ owns (lru_nodes p) (lru_seq p) S.

Lemma lru_count_count p d d' : lru_count (lru_count p d) d' = lru_count p (d + d').
Proof. unfold lru_count. cbn. do 2 f_equal. lia. Qed.

Lemma lru_tracks_intro p l S :
  lru_rep p l 0 → owns (lru_nodes p) l S → lru_tracks p S ∧ lru_seq p = l.
Proof.
  intros Hrep HO. assert (lru_seq p = l) as El.
  { rewrite /lru_seq -(dll_walk_rep _ _ _ Hrep) /= Z.add_0_r //. }
  by rewrite /lru_tracks El.
Qed.

Lemma lru_pushFront_rep p l n d :
  lru_rep p l d → n ∉ l → lru_rep (lru_pushFront p n) (n :: l) (d + 1).
Proof.
  intros Hrep Hn. pose proof (pushHead_rep _ _ _ _ Hrep Hn) as Hp.
  unfold lru_rep, lru_pushFront, lru_count, dll_pushHead in *. cbn in *.
  pose proof (rep_head _ _ _ Hrep) as Hh. pose proof (rep_tail _ _ _ Hrep) as Ht. cbn in Hh, Ht.
  destruct (d_head (lru_list p)) as [h|].
  - destruct l as [|y l]; [done|]. destruct (last_is_Some_cons y l) as [t Et].
    rewrite Ht Et in Hp |- *. rewrite Z.add_assoc. by destruct Hp.
  - destruct l as [|y l]; [|done]. rewrite Ht in Hp |- *. rewrite Z.add_assoc. by destruct Hp.
Qed.

Lemma lru_unlink_rep p l n d :
  lru_rep p l d → n ∈ l → lru_rep (lru_unlink p n) (without n l) (d - 1).
Proof.
  intros Hrep Hn. pose proof (unlinkIf_rep _ _ _ _ Hrep Hn) as Hp.
  unfold lru_rep, lru_unlink, lru_count, dll_unlinkIf in *. cbn in *.
  destruct (l_prev _ !! n); cbn in *; destruct (_ !! n); cbn in *; rewrite Z.add_sub_assoc; by destruct Hp.
Qed.

Lemma lru_unlink_nodes p n :
  nd_entry (lru_nodes (lru_unlink p n)) = nd_entry (lru_nodes p) ∧
  nd_data (lru_nodes (lru_unlink p n)) = nd_data (lru_nodes p) ∧
  nd_fresh (lru_nodes (lru_unlink p n)) = nd_fresh (lru_nodes p).
Proof. unfold lru_unlink. by repeat case_match. Qed.

Lemma lru_insert_spec p S e :
  lru_tracks p S → (∀ e', e' ∈ S → e'.1 ≠ e.1) →
  lru_tracks (lru_OnInsert p e) ({[e]} ∪ S) ∧
  lru_entries (lru_OnInsert p e) = e :: lru_entries p.
Proof.
  intros [Hrep HO] Hid. destruct (owns_alloc _ _ _ _ HO Hid) as [Hf HO'].
  pose proof (rep_alloc _ _ _ e Hf Hrep) as Hr. pose proof Hf as Hp.
  apply (lru_pushFront_rep (LruPolicy (alloc (lru_nodes p) e) (lru_list p)) _ _ 0 Hr) in Hp.
  edestruct (lru_tracks_intro (lru_OnInsert p e)) as [HT Hs].
  - unfold lru_rep, lru_OnInsert. rewrite lru_count_count. exact Hp.
  - eapply owns_ext; [| | | |exact HO']; done.
  - split; [exact HT|]. unfold lru_entries at 1. rewrite Hs.
    rewrite (ents_ext (alloc (lru_nodes p) e)) //.
    rewrite (ents_app _ [_] (lru_seq p)) ents_alloc_new ents_alloc //.
Qed.

Lemma lru_access_spec p S e :
  lru_tracks p S → e ∈ S →
  lru_tracks (lru_OnAccess p e) S ∧
  lru_entries (lru_OnAccess p e) = e :: without e (lru_entries p).
Proof.
  intros HT He. pose proof HT as [Hrep HO].
  destruct (owns_lookup _ _ _ _ HO He) as (n & Hd & Hn & Hne).
  pose proof (owns_nodup _ _ _ HO) as Hnd. unfold lru_OnAccess. rewrite Hd. case_decide as Hh.
  - split; [done|]. pose proof (NoDup_ents _ _ _ HO) as HN.
    pose proof (rep_head _ _ _ Hrep) as Hr. cbn in Hr. rewrite Hh in Hr.
    unfold lru_entries in *. destruct (lru_seq p) as [|y l]; [done|]. cbn in Hr. injection Hr as <-.
    cbn in HN |- *. rewrite Hne in HN |- *. apply NoDup_cons in HN as [? ?].
    by rewrite without_cons_eq.
  - destruct (lru_unlink_nodes p n) as (E1 & E2 & E3).
    assert (lru_seq p ≡ₚ n :: without n (lru_seq p)) as HP.
    { destruct (list_elem_of_split _ _ Hn) as (l1 & l2 & El). rewrite El in Hnd |- *.
      rewrite without_split //. by rewrite Permutation_middle. }
    destruct (lru_tracks_intro (lru_pushFront (lru_unlink p n) n)
      (n :: without n (lru_seq p)) S) as [HT' Hs].
    + apply (lru_pushFront_rep _ _ _ (-1)); [by apply (lru_unlink_rep _ _ _ 0)|].
      rewrite elem_of_without. tauto.
    + eapply owns_ext; [exact HP|by cbn..|exact HO].
    + split; [done|]. unfold lru_entries at 1. rewrite Hs.
      rewrite (ents_ext (lru_nodes p)) // (ents_app _ [n]).
      rewrite {1}/ents /= Hne /=. f_equal.
      by apply (ents_without _ _ S).
Qed.

Lemma lru_remove_spec p S e :
  lru_tracks p S → e ∈ S →
  lru_tracks (lru_OnRemove p e) (S ∖ {[e]}) ∧
  lru_entries (lru_OnRemove p e) = without e (lru_entries p).
Proof.
  intros HT He. pose proof HT as [Hrep HO].
  destruct (owns_lookup _ _ _ _ HO He) as (n & Hd & Hn & Hne).
  unfold lru_OnRemove. rewrite Hd. destruct (lru_unlink_nodes p n) as (E1 & E2 & E3).
  match goal with |- lru_tracks ?x _ ∧ _ =>
    edestruct (lru_tracks_intro x (without n (lru_seq p)) (S ∖ {[e]})) as [HT' Hs] end.
  - pose proof (lru_unlink_rep _ _ _ _ Hrep Hn) as Hu.
    unfold lru_rep in *. rewrite lru_count_count. exact Hu.
  - eapply owns_release; [exact HO|done|exact Hd|by cbn; f_equal|by left; cbn; f_equal|by cbn].
  - split; [exact HT'|]. unfold lru_entries at 1. rewrite Hs.
    eapply ents_release; [done..|]. by cbn; f_equal.
Qed.

Lemma lru_victim_spec p S :
  lru_tracks p S → lru_Victim p = (last (lru_entries p), p).
Proof.
  intros [Hrep HO]. unfold lru_Victim, lru_entries.
  rewrite (ents_last _ _ _ HO). pose proof (rep_tail _ _ _ Hrep) as Ht. cbn in Ht. rewrite Ht.
  by destruct (last (lru_seq p)).
Qed.

Lemma lru_reset_spec p : lru_tracks (lru_Reset p) ∅ ∧ lru_entries (lru_Reset p) = [].
Proof. split; [|done]. split; [apply rep_nil|apply owns_nil]. Qed.

#[export] Program Instance lru_laws : PolicyLaws K lruPolicy := { tracks := lru_tracks }.
Next Obligation. intros. by apply lru_insert_spec. Qed.
Next Obligation. intros. by apply lru_access_spec. Qed.
Next Obligation. intros. by apply lru_access_spec. Qed.
Next Obligation. intros. by apply lru_remove_spec. Qed.
Next Obligation.
  intros p S HT. change (Victim p) with (lru_Victim p).
  rewrite (lru_victim_spec _ _ HT) /evicted.
  destruct (last (lru_entries p)) as [e|] eqn:Hh; [|done].
  assert (e ∈ S) by (eapply elem_of_ents; [apply HT|by apply last_Some_elem_of]).
  split; [done|]. by apply lru_remove_spec.
Qed.
Next Obligation. done. Qed.
Next Obligation.
  intros p S b HT Hs. unfold shedVictim. change (Victim p) with (lru_Victim p).
  rewrite (lru_victim_spec _ _ HT).
  destruct (last (lru_entries p)) eqn:Hh; [done|]. exfalso. destruct HT as [Hrep HO].
  apply last_None in Hh. pose proof (ents_length _ _ _ HO) as Hl.
  unfold lru_entries in Hh. rewrite Hh in Hl.
  pose proof (owns_size _ _ _ HO). destruct b; cbn in *; lia.
Qed.
Next Obligation.
  intros p S [Hrep HO]. pose proof (rep_size _ _ _ Hrep) as Hs. cbn in Hs |- *.
  rewrite (owns_size _ _ _ HO) -Hs /lru_Len. lia.
Qed.
Next Obligation. intros p S HT. apply lru_reset_spec. Qed.
Next Obligation. done. Qed.
Next Obligation. done. Qed.

(** The specification: entries in order of recency, the latest first. *)
Definition lru_spec (es : list (eref K)) (o : pop K) : list (eref K) :=
  match o with
  | PInsert e => e :: es
  | PAccess e | PUpdate e => e :: without e es
  | PRemove e => without e es
  | PEvict => removelast es
  | PReset => []
  end.

Lemma without_last e (es : list (eref K)) :
  NoDup es → last es = Some e → without e es = removelast es.
Proof.
  destruct es as [|x es _] using rev_ind; [done|]. rewrite last_snoc. intros Hn [= ->].
  rewrite without_split // removelast_last app_nil_r //.
Qed.

Lemma lru_step_spec p S o :
  lru_tracks p S → pop_ok (lru_entries p) o →
  lru_entries (pol_step p o) = lru_spec (lru_entries p) o ∧
  ∃ S', lru_tracks (pol_step p o) S'.
Proof.
  intros HT Ho. pose proof HT as [Hrep HO].
  pose proof (λ e, elem_of_ents _ _ _ e HO) as HE.
  destruct o as [e|e|e|e| |]; cbn in Ho |- *.
  - destruct (lru_insert_spec p S e HT) as [? ?]; [by eapply ents_ids|eauto].
  - destruct (lru_access_spec p S e HT) as [? ?]; [by apply HE|eauto].
  - destruct (lru_access_spec p S e HT) as [? ?]; [by apply HE|eauto].
  - destruct (lru_remove_spec p S e HT) as [? ?]; [by apply HE|eauto].
  - change (Victim p) with (lru_Victim p). rewrite (lru_victim_spec _ _ HT).
    destruct (last (lru_entries p)) as [e|] eqn:Hes.
    + destruct (lru_remove_spec p S e HT) as [? Hr]; [by apply HE, last_Some_elem_of|].
      rewrite -(without_last e) //; [eauto|]. by apply (NoDup_ents _ _ _ HO).
    + apply last_None in Hes. rewrite Hes. eauto.
  - destruct (lru_reset_spec p). eauto.
Qed.

(** C40: started empty and driven by any sequence of calls a shard can make,
    the linked-list code of the LRU policy keeps the tracked entries in
    order of their last insert, access or update, and an eviction removes
    the least recently used entry and no other. *)
Theorem lru_refines_recency os :
  pops_ok lru_spec [] os →
  lru_entries (foldl pol_step newLRU os) = foldl lru_spec [] os.
Proof.
  assert (lru_tracks newLRU ∅) as HT by (split; [apply rep_nil|apply owns_nil]).
  change [] with (lru_entries newLRU). revert HT.
  generalize newLRU, (∅ : gset (eref K)).
  induction os as [|o os IH]; intros p S HT Hok; [done|]. destruct Hok as [Ho Hok]. cbn.
  destruct (lru_step_spec p S o HT Ho) as [Hs [S' HT']].
  rewrite -Hs in Hok |- *. by eapply IH.
Qed.
End lru.

Lemma lru_refines_recency_witness :
  lru_entries (foldl pol_step newLRU
    [PInsert (1%positive, 10%Z); PInsert (2%positive, 20%Z); PAccess (1%positive, 10%Z); PEvict])
  = [(1%positive, 10%Z)].
Proof.
  refine (eq_trans (lru_refines_recency _ _) _); [|reflexivity].
  cbn. repeat split; set_solver.
Defined.
