(* ===== verification/Policies.v ===== *)
(** * Policies: the policy a shard runs ([newPolicy], [types.go])

    A shard holds a value of the [evictionPolicy] interface; here it is a sum
    with one constructor per implementation, on which every method dispatches.
    Each implementation satisfies [PolicyLaws], hence so does the sum: what is
    proved of shards and caches against the interface holds for every
    [Policy] a cache can be configured with. *)

From S2P Require Import Prelude Dll Policy Duo S3fifo TwoQ Arc Family Lfu Sketch TinyLfu Fifo Lru.

#[local] Open Scope Z_scope.

(** [Policy] is a [uint8]: any other value is [PolicyOther]. *)
Inductive Policy :=
| PolicyS3FIFO | PolicyLRU | PolicyLFU | PolicyTinyLFU | PolicyFIFO | PolicyARC | Policy2Q
| PolicyOther (n : Z).

Section policies.
Context {K : Type} `{Countable K}.

Inductive anyPolicy :=
| AnyLRU (p : lruPolicy (K := K))
| AnyFIFO (p : fifoPolicy (K := K))
| AnyS3FIFO (p : s3fifoPolicy K)
| AnyLFU (p : lfuPolicy K)
| AnyTinyLFU (p : tinyLFUPolicy K)
| Any2Q (p : twoQPolicy K)
| AnyARC (p : arcPolicy K).

Record policyConfig := PolicyConfig { cfg_budget : Z; cfg_hasher : option (K → Z); cfg_lockFreeRead : bool }.

Definition newPolicy (p : Policy) (cfg : policyConfig) : anyPolicy :=
  match p with
  | PolicyLRU => AnyLRU newLRU
  | PolicyFIFO => AnyFIFO newFIFO
  | PolicyS3FIFO => AnyS3FIFO (newS3FIFO (cfg_budget cfg) (cfg_lockFreeRead cfg))
  | PolicyLFU => AnyLFU newLFU
  | PolicyTinyLFU => AnyTinyLFU (newTinyLFU (cfg_budget cfg) (cfg_hasher cfg))
  | Policy2Q => Any2Q (newTwoQ (cfg_budget cfg))
  | PolicyARC => AnyARC (newARC (cfg_budget cfg))
  | PolicyOther _ => AnyLRU newLRU
  end.

(** A method on the value an interface holds, and one that changes it. *)
Definition call {R} (f : ∀ P, EvictionPolicy K P → P → R) (x : anyPolicy) : R :=
  match x with
  | AnyLRU p => f _ _ p
  | AnyFIFO p => f _ _ p
  | AnyS3FIFO p => f _ _ p
  | AnyLFU p => f _ _ p
  | AnyTinyLFU p => f _ _ p
  | Any2Q p => f _ _ p
  | AnyARC p => f _ _ p
  end.

Definition call_mut {R} (f : ∀ P, EvictionPolicy K P → P → R * P) (x : anyPolicy) : R * anyPolicy :=
  match x with
  | AnyLRU p => prod_map id AnyLRU (f _ _ p)
  | AnyFIFO p => prod_map id AnyFIFO (f _ _ p)
  | AnyS3FIFO p => prod_map id AnyS3FIFO (f _ _ p)
  | AnyLFU p => prod_map id AnyLFU (f _ _ p)
  | AnyTinyLFU p => prod_map id AnyTinyLFU (f _ _ p)
  | Any2Q p => prod_map id Any2Q (f _ _ p)
  | AnyARC p => prod_map id AnyARC (f _ _ p)
  end.

Definition call_upd (f : ∀ P, EvictionPolicy K P → P → P) (x : anyPolicy) : anyPolicy :=
  (call_mut (λ P i p, (tt, f P i p)) x).2.

#[export] Instance any_policy : EvictionPolicy K anyPolicy := {
  OnInsert x e := call_upd (λ P _ p, OnInsert p e) x;
  OnAccess x e := call_upd (λ P _ p, OnAccess p e) x;
  OnUpdate x e := call_upd (λ P _ p, OnUpdate p e) x;
  OnRemove x e := call_upd (λ P _ p, OnRemove p e) x;
  Victim x := call_mut (λ P _ p, Victim p) x;
  Len x := call (λ P _ p, Len p) x;
  Reset x := call_upd (λ P _ p, Reset p) x;
  SetBudget x b := call_upd (λ P _ p, SetBudget p b) x;
  Snapshot x := call (λ P _ p, Snapshot p) x;
  PromotionNeeded x e := call (λ P _ p, PromotionNeeded p e) x;
  shed x keepRecent := call_mut (λ P _ p, shed p keepRecent) x
}.

Definition any_tracks (x : anyPolicy) (S : gset (eref K)) : Prop :=
  match x with
  | AnyLRU p => tracks p S
  | AnyFIFO p => tracks p S
  | AnyS3FIFO p => tracks p S
  | AnyLFU p => tracks p S
  | AnyTinyLFU p => tracks p S
  | Any2Q p => tracks p S
  | AnyARC p => tracks p S
  end.

#[export] Program Instance any_laws : PolicyLaws K anyPolicy := { tracks := any_tracks }.
Next Obligation. intros [p|p|p|p|p|p|p] S e HT Hid; exact (tracks_insert p S e HT Hid). Qed.
Next Obligation. intros [p|p|p|p|p|p|p] S e HT He; exact (tracks_access p S e HT He). Qed.
Next Obligation. intros [p|p|p|p|p|p|p] S e HT He; exact (tracks_update p S e HT He). Qed.
Next Obligation. intros [p|p|p|p|p|p|p] S e HT He; exact (tracks_remove p S e HT He). Qed.
Next Obligation.
  intros [p|p|p|p|p|p|p] S HT; pose proof (tracks_victim p S HT) as Hlaw; unfold Victim at 1; cbn [any_policy call_mut];
    destruct (Victim p) as [[e|] p']; exact Hlaw.
Qed.
Next Obligation.
  intros [p|p|p|p|p|p|p] S b HT; pose proof (tracks_shed p S b HT) as Hlaw; unfold shed at 1; cbn [any_policy call_mut];
    destruct (shed p b) as [[e|] p']; exact Hlaw.
Qed.
Next Obligation.
  intros [p|p|p|p|p|p|p] S b HT Hs; pose proof (shed_progress p S b HT Hs) as Hlaw; unfold shedVictim in *;
    unfold Victim at 1; cbn [any_policy call_mut]; destruct (Victim p) as [[e|] p']; try exact Hlaw;
    unfold shed; cbn [any_policy call_mut prod_map]; by destruct (shed p' b).
Qed.
Next Obligation. intros [p|p|p|p|p|p|p] S HT; exact (tracks_len p S HT). Qed.
Next Obligation. intros [p|p|p|p|p|p|p] S HT; exact (tracks_reset p S HT). Qed.
Next Obligation. intros [p|p|p|p|p|p|p] S b HT; exact (tracks_set_budget p S b HT). Qed.
Next Obligation. intros [p|p|p|p|p|p|p] S e HT He Hp; exact (f_equal _ (promotion_skip p S e HT He Hp)). Qed.

Lemma newPolicy_tracks p cfg : tracks (newPolicy p cfg) (∅ : gset (eref K)).
Proof.
  destruct p; cbn.
  - apply s3_new_ok.
  - split; [apply rep_nil|apply owns_nil].
  - eexists. apply lf_new_ok.
  - eexists. apply tl_new_ok.
  - split; [apply rep_nil|apply owns_nil].
  - eexists. apply ar_new_ok.
  - eexists. apply tq_new_ok.
  - split; [apply rep_nil|apply owns_nil].
Qed.

(** ** A policy and the entries of its shard *)

(** The calls a shard makes that change its policy: those of [pop],
    [shedVictim] with the removal of the entry it returned, and the new budget
    of a [Resize]. *)
Inductive shardCall :=
| CPop (o : pop K)
| CShed (keepRecent : bool)
| CSetBudget (budget : Z).

(** The entry a victim call returned leaves the shard. *)
Definition drop_victim (v : option (eref K) * anyPolicy) (S : gset (eref K)) : anyPolicy * gset (eref K) :=
  match v with
  | (Some e, x) => (OnRemove x e, S ∖ {[e]})
  | (None, x) => (x, S)
  end.

(** A call of the shard, on the policy and on the set of entries the shard
    then holds. *)
Definition held_step (xS : anyPolicy * gset (eref K)) (c : shardCall) : anyPolicy * gset (eref K) :=
  let x := xS.1 in
  let S := xS.2 in
  match c with
  | CPop (PInsert e) => (OnInsert x e, {[e]} ∪ S)
  | CPop (PAccess e) => (OnAccess x e, S)
  | CPop (PUpdate e) => (OnUpdate x e, S)
  | CPop (PRemove e) => (OnRemove x e, S ∖ {[e]})
  | CPop PEvict => drop_victim (Victim x) S
  | CPop PReset => (Reset x, ∅)
  | CShed keepRecent => drop_victim (shedVictim x keepRecent) S
  | CSetBudget budget => (SetBudget x budget, S)
  end.

Definition call_allowed (S : gset (eref K)) (c : shardCall) : Prop :=
  match c with
  | CPop (PInsert e) => set_Forall (λ e', e'.1 ≠ e.1) S
  | CPop (PAccess e) | CPop (PUpdate e) | CPop (PRemove e) => e ∈ S
  | _ => True
  end.

Fixpoint calls_allowed (xS : anyPolicy * gset (eref K)) (cs : list shardCall) : Prop :=
  match cs with
  | [] => True
  | c :: cs => call_allowed xS.2 c ∧ calls_allowed (held_step xS c) cs
  end.

#[export] Instance call_allowed_dec S c : Decision (call_allowed S c).
Proof. destruct c as [[]| |]; cbn; apply _. Defined.

#[export] Instance calls_allowed_dec xS cs : Decision (calls_allowed xS cs).
Proof. revert xS. induction cs as [|c cs IH]; intros xS; cbn; [apply _|]. apply and_dec; [apply _|apply IH]. Defined.

Lemma drop_victim_tracks v S : evicted tracks S v → tracks (drop_victim v S).1 (drop_victim v S).2.
Proof. destruct v as [[e|] x]; [by intros []|done]. Qed.

Lemma evicted_held S v e : evicted (P := anyPolicy) tracks S v → v.1 = Some e → e ∈ S.
Proof. destruct v as [o x]. intros Hv E. cbn in E. subst o. by destruct Hv. Qed.

Lemma held_step_tracks x S c :
  tracks x S → call_allowed S c → tracks (held_step (x, S) c).1 (held_step (x, S) c).2.
Proof.
  intros HT Hc. destruct c as [[e|e|e|e| |]|keepRecent|budget]; cbn [held_step fst snd].
  - by apply tracks_insert.
  - by apply tracks_access.
  - by apply tracks_update.
  - by apply tracks_remove.
  - by apply drop_victim_tracks, tracks_victim.
  - by eapply tracks_reset.
  - by apply drop_victim_tracks, tracks_shedVictim.
  - by apply tracks_set_budget.
Qed.

(** C27: whichever policy a cache is configured with (an unknown value falls
    back to LRU), after any sequence of the calls with which a shard changes
    it (insertions of entries it does not hold, accesses, updates and removals
    of entries it holds, evictions through [Victim] or [shedVictim] with the
    removal of the victim, new budgets, resets) it tracks exactly the entries
    the shard holds: [Len] is their number, a victim of either kind is one of
    them, and a shard that must shed an entry gets one whenever it holds one
    besides the entry inserted last. *)
Theorem policies_track p cfg cs :
  calls_allowed (newPolicy p cfg, ∅) cs →
  let x := (foldl held_step (newPolicy p cfg, ∅) cs).1 in
  let held := (foldl held_step (newPolicy p cfg, ∅) cs).2 in
  Len x = Z.of_nat (size held) ∧ (∀ e, (Victim x).1 = Some e → e ∈ held) ∧
  (∀ keepRecent e, (shedVictim x keepRecent).1 = Some e → e ∈ held) ∧
  ((2 <= size held)%nat → is_Some (shedVictim x true).1) ∧ ((1 <= size held)%nat → is_Some (shedVictim x false).1).
Proof.
  pose proof (newPolicy_tracks p cfg) as HT. revert HT. generalize (newPolicy p cfg), (∅ : gset (eref K)).
  induction cs as [|c cs IH]; intros x S HT Hok.
  - cbn [foldl fst snd]. split_and!; [by apply tracks_len|..|by apply (shed_progress x S true)|by apply (shed_progress x S false)].
    + intros e He. by apply (evicted_held S (Victim x)); [apply tracks_victim|].
    + intros keepRecent e He. by apply (evicted_held S (shedVictim x keepRecent)); [apply tracks_shedVictim|].
  - destruct Hok as [Hc Hok]. cbn [foldl]. pose proof (held_step_tracks x S c HT Hc) as HT'.
    destruct (held_step (x, S) c) as [x' S'] eqn:E. apply IH; [exact HT'|exact Hok].
Qed.
End policies.
Arguments anyPolicy K {_ _}.
Arguments policyConfig : clear implicits.

Arguments shardCall : clear implicits.

Lemma policies_track_witness :
  let cs : list (shardCall Z) :=
    [CPop (PInsert (1%positive, 1)); CPop (PInsert (2%positive, 2)); CPop (PAccess (1%positive, 1)); CPop (PInsert (3%positive, 3));
     CPop PEvict; CSetBudget 8; CPop (PInsert (4%positive, 4)); CShed true] in
  let cfg := PolicyConfig 2 (Some id) false in
  Len (foldl held_step (newPolicy PolicyARC cfg, ∅) cs).1 = 2 ∧ Len (foldl held_step (newPolicy (PolicyOther 9) cfg, ∅) cs).1 = 2.
Proof.
  cbv zeta. split; (refine (eq_trans (proj1 (policies_track _ _ _ _)) _); [apply (bool_decide_unpack _); vm_compute; exact I|]).
  all: vm_compute; reflexivity.
Defined.
