(* ===== verification/Storage.v ===== *)
(** * Storage: the entry table of a shard ([shardstore.go])

    A shard looks its entries up through the Go interface [shardStore]; here
    it is the class [ShardStore], and [StoreLaws] is what the shard relies on:
    the table is a finite map from keys to entry pointers.  [mapStore], the
    default implementation, is an instance; the open-addressing [flatStore]
    has a file of its own. *)

From S2P Require Import Prelude.

Class ShardStore (K St : Type) := {
  st_get : St → K → option loc;
  st_set : St → K → loc → St;
  st_del : St → K → bool * St;
  st_length : St → Z;
  st_clearAll : St → St;
  (** The entries [each] visits, in its order. *)
  st_each : St → list loc;
  st_compactions : St → Z
}.

(** The pointers of a table, as a multiset. *)
Definition addrs {K} `{Countable K} (m : gmap K loc) : list loc := (map_to_list m).*2.

Class StoreLaws (K St : Type) `{Countable K} `{ShardStore K St} := {
  st_rep : St → gmap K loc → Prop;
  st_rep_get s m k : st_rep s m → st_get s k = m !! k;
  st_rep_set s m k a : st_rep s m → st_rep (st_set s k a) (<[k := a]> m);
  st_rep_del s m k :
    st_rep s m → (st_del s k).1 = bool_decide (is_Some (m !! k)) ∧
    st_rep (st_del s k).2 (delete k m);
  st_rep_length s m : st_rep s m → st_length s = Z.of_nat (size m);
  st_rep_clearAll s m : st_rep s m → st_rep (st_clearAll s) ∅;
  st_rep_each s m : st_rep s m → st_each s ≡ₚ addrs m
}.

(** ** [mapStore] *)

Section mapStore.
Context {K : Type} `{Countable K}.

Record mapStore := MapStore { ms_m : gmap K loc }.

Definition newMapStore : mapStore := MapStore ∅.

Definition ms_get (s : mapStore) (key : K) : option loc := ms_m s !! key.

Definition ms_set (s : mapStore) (key : K) (e : loc) : mapStore :=
  MapStore (<[key := e]> (ms_m s)).

Definition ms_del (s : mapStore) (key : K) : bool * mapStore :=
  match ms_m s !! key with
  | None => (false, s)
  | Some _ => (true, MapStore (delete key (ms_m s)))
  end.

Definition ms_length (s : mapStore) : Z := Z.of_nat (size (ms_m s)).

Definition ms_clearAll (s : mapStore) : mapStore := MapStore ∅.

Definition ms_each (s : mapStore) : list loc := addrs (ms_m s).

#[export] Instance mapStore_store : ShardStore K mapStore := {
  st_get := ms_get; st_set := ms_set; st_del := ms_del; st_length := ms_length;
  st_clearAll := ms_clearAll; st_each := ms_each; st_compactions _ := 0%Z
}.

#[export] Program Instance mapStore_laws : StoreLaws K mapStore :=
  { st_rep s m := ms_m s = m }.
Next Obligation. by intros s m k <-. Qed.
Next Obligation. by intros s m k a <-. Qed.
Next Obligation.
  intros s m k <-. cbn. unfold ms_del. destruct (ms_m s !! k) eqn:E; cbn; [done|].
  by rewrite delete_id.
Qed.
Next Obligation. by intros s m <-. Qed.
Next Obligation. done. Qed.
Next Obligation. by intros s m <-. Qed.
End mapStore.
Arguments mapStore K {_ _}.
