(* ===== verification/FlatStore.v ===== *)
(** * FlatStore: the open-addressing table of a shard ([flatstore.go])

    One array of slots, probed linearly from a slot the hash picks; deleting
    leaves a tombstone, and the array is rebuilt when it fills up or when
    tombstones make up half of it.  The file shows that whatever is inserted,
    deleted and rebuilt the table is the finite map the shard asks for
    ([StoreLaws], [flat_is_map]), and that a probe always ends at an empty
    slot before it has gone around. *)

From Stdlib Require Import Permutation.
From S2P Require Import Prelude Storage.

#[local] Open Scope Z_scope.

Definition flatStoreInitialCap : Z := 16.

(** [math/bits.LeadingZeros64] *)
Definition LeadingZeros64 (x : Z) : Z := Z.max 0 (64 - (if bool_decide (x <= 0) then 0 else Z.log2 x + 1)).

Section flat.
Context {K : Type} `{Countable K}.

(** [key] and [value] are zero in an empty slot and in a tombstone. *)
Inductive flatSlot :=
| flatSlotEmpty
| flatSlotOccupied (key : K) (value : loc)
| flatSlotTombstone.

#[export] Instance flatSlot_eq_dec : EqDecision flatSlot.
Proof. solve_decision. Defined.

Record flatStore := FlatStore {
  fs_hasher : K → Z;
  fs_slots : list flatSlot;
  fs_occupied : Z;
  fs_tombstones : Z;
  fs_compactCount : Z
}.

Implicit Types (s : flatStore) (k : K) (v : loc) (sl : list flatSlot).

Definition fs_with s sl (occupied tombstones compactCount : Z) : flatStore :=
  FlatStore (fs_hasher s) sl occupied tombstones compactCount.

Definition newFlatStore (hasher : K → Z) (initialCap : Z) : flatStore :=
  let initialCap := if bool_decide (initialCap < flatStoreInitialCap) then flatStoreInitialCap else initialCap in
  FlatStore hasher (replicate (Z.to_nat (nextPowerOfTwo initialCap)) flatSlotEmpty) 0 0 0.

(** Where the probe for a key starts. *)
Definition fs_start (hasher : K → Z) (n : nat) k : nat :=
  let mask := Z.of_nat n - 1 in
  Z.to_nat (Z.shiftr (u64 (hasher k * 0x9E3779B97F4A7C15)) (LeadingZeros64 mask)).

(** The loop of [probe]; [None] for the index [-1].  The array length bounds
    its turns, and the index stays in range. *)
Fixpoint probe_loop (fuel : nat) sl (start i : nat) (insertIdx : option nat) k : option nat * bool :=
  match fuel with
  | O => (insertIdx, false)
  | S fuel =>
      let here := match insertIdx with None => Some i | Some j => Some j end in
      let next ins :=
        let i := Z.to_nat (Z.land (Z.of_nat i + 1) (Z.of_nat (length sl) - 1)) in
        if decide (i = start) then (ins, false) else probe_loop fuel sl start i ins k in
      match sl !! i with
      | Some flatSlotEmpty => (here, false)
      | Some flatSlotTombstone => next here
      | Some (flatSlotOccupied k' _) => if decide (k' = k) then (Some i, true) else next insertIdx
      | None => (insertIdx, false)
      end
  end.

Definition probe (hasher : K → Z) sl k : option nat * bool :=
  let start := fs_start hasher (length sl) k in
  probe_loop (length sl) sl start start None k.

Definition fs_get s k : option loc :=
  match probe (fs_hasher s) (fs_slots s) k with
  | (Some i, true) => match fs_slots s !! i with Some (flatSlotOccupied _ v) => Some v | _ => None end
  | _ => None
  end.

Definition shouldGrowBeforeInsert s : bool :=
  let inUse := fs_occupied s + fs_tombstones s in
  bool_decide (3 * Z.of_nat (length (fs_slots s)) <= inUse * 4).

Definition shouldCompactAfterDelete s : bool :=
  if bool_decide (fs_tombstones s = 0) then false
  else bool_decide (1 * Z.of_nat (length (fs_slots s)) <= fs_tombstones s * 2).

Definition nextRebuildCap s : nat :=
  let cur := length (fs_slots s) in
  if bool_decide (3 * Z.of_nat cur <= fs_occupied s * 4) then (cur * 2)%nat else cur.

(** One turn of the loop of [rebuild]. *)
Definition reinsert (hasher : K → Z) (acc : list flatSlot * Z) (x : flatSlot) : list flatSlot * Z :=
  match x with
  | flatSlotOccupied k v =>
      match (probe hasher acc.1 k).1 with
      | Some i => (<[i := flatSlotOccupied k v]> acc.1, acc.2 + 1)
      | None => acc
      end
  | _ => acc
  end.

Definition rebuild s (newCap : nat) : flatStore :=
  let '(sl, occupied) := foldl (reinsert (fs_hasher s)) (replicate newCap flatSlotEmpty, 0) (fs_slots s) in
  fs_with s sl occupied 0 (u64 (fs_compactCount s + 1)).

(** The end of [set]: fill slot [i]. *)
Definition fill s (i : nat) k v : flatStore :=
  let sl := <[i := flatSlotOccupied k v]> (fs_slots s) in
  match fs_slots s !! i with
  | Some flatSlotEmpty => fs_with s sl (fs_occupied s + 1) (fs_tombstones s) (fs_compactCount s)
  | Some flatSlotTombstone => fs_with s sl (fs_occupied s + 1) (fs_tombstones s - 1) (fs_compactCount s)
  | Some (flatSlotOccupied k' _) =>
      fs_with s (<[i := flatSlotOccupied k' v]> (fs_slots s)) (fs_occupied s) (fs_tombstones s) (fs_compactCount s)
  | None => s
  end.

Definition fs_set s k v : flatStore :=
  match probe (fs_hasher s) (fs_slots s) k with
  | (Some i, true) =>
      fs_with s (<[i := flatSlotOccupied k v]> (fs_slots s)) (fs_occupied s) (fs_tombstones s) (fs_compactCount s)
  | (o, _) =>
      if bool_decide (o = None) || shouldGrowBeforeInsert s then
        let s := rebuild s (nextRebuildCap s) in
        match (probe (fs_hasher s) (fs_slots s) k).1 with Some i => fill s i k v | None => s end
      else match o with Some i => fill s i k v | None => s end
  end.

Definition fs_del s k : bool * flatStore :=
  match probe (fs_hasher s) (fs_slots s) k with
  | (Some i, true) =>
      let s := fs_with s (<[i := flatSlotTombstone]> (fs_slots s)) (fs_occupied s - 1) (fs_tombstones s + 1) (fs_compactCount s) in
      (true, if shouldCompactAfterDelete s then rebuild s (nextRebuildCap s) else s)
  | _ => (false, s)
  end.

Definition fs_length s : Z := fs_occupied s.

Definition fs_clearAll s : flatStore :=
  fs_with s (replicate (length (fs_slots s)) flatSlotEmpty) 0 0 (fs_compactCount s).

Definition slot_entry (x : flatSlot) : option (K * loc) :=
  match x with flatSlotOccupied k v => Some (k, v) | _ => None end.

(** The pairs a table holds, in slot order. *)
Definition fs_entries sl : list (K * loc) := omap slot_entry sl.

Definition fs_each s : list loc := (fs_entries (fs_slots s)).*2.

#[export] Instance flatStore_store : ShardStore K flatStore := {
  st_get := fs_get; st_set := fs_set; st_del := fs_del; st_length := fs_length;
  st_clearAll := fs_clearAll; st_each := fs_each; st_compactions := fs_compactCount
}.

(** ** Probing *)

(** The slots are [2^j] many. *)
Definition pow_len sl (j : nat) : Prop := length sl = (2 ^ j)%nat ∧ (4 <= j)%nat.

(** The [d]-th slot a probe from [start] looks at. *)
Definition at_dist sl (start d : nat) : nat := ((start + d) mod length sl)%nat.

Lemma pow_pos sl j : pow_len sl j → (16 <= length sl)%nat.
Proof. intros [-> Hj]. change 16%nat with (2 ^ 4)%nat. apply Nat.pow_le_mono_r; lia. Qed.

Lemma start_lt hasher sl j k : pow_len sl j → (fs_start hasher (length sl) k < length sl)%nat.
Proof.
  intros [Hl Hj]. unfold fs_start. set (x := u64 _). pose proof (u64_range (hasher k * 0x9E3779B97F4A7C15)) as Hx. fold x in Hx.
  rewrite Hl. assert (Z.of_nat (2 ^ j) = 2 ^ Z.of_nat j) as Hp by (by rewrite Nat2Z.inj_pow).
  assert (16 <= 2 ^ Z.of_nat j) by (change 16 with (2 ^ 4); apply Z.pow_le_mono_r; lia).
  unfold LeadingZeros64. rewrite bool_decide_false; [|lia]. rewrite Hp.
  change (2 ^ Z.of_nat j - 1) with (Z.pred (2 ^ Z.of_nat j)). rewrite Z.log2_pred_pow2; [|lia].
  set (lz := Z.max 0 _). rewrite Z.shiftr_div_pow2; [|unfold lz; lia].
  assert (x / 2 ^ lz < 2 ^ Z.of_nat j); [|apply Nat2Z.inj_lt; rewrite Hp Z2Nat.id; [done|]; apply Z.div_pos; [apply Hx|lia]].
  apply Z.div_lt_upper_bound; [lia|]. rewrite -Z.pow_add_r; [|unfold lz; lia|lia]. unfold is_u64 in Hx.
  eapply Z.lt_le_trans; [apply Hx|]. apply Z.pow_le_mono_r; unfold lz; lia.
Qed.

Lemma next_index sl j start d :
  pow_len sl j →
  Z.to_nat (Z.land (Z.of_nat (at_dist sl start d) + 1) (Z.of_nat (length sl) - 1)) = at_dist sl start (S d).
Proof.
  intros Hj. pose proof (pow_pos sl j Hj) as Hpos. destruct Hj as [Hl Hj]. unfold at_dist. rewrite Hl in Hpos |- *.
  assert (Z.of_nat (2 ^ j) = 2 ^ Z.of_nat j) as Hp by (by rewrite Nat2Z.inj_pow).
  rewrite Hp. replace (2 ^ Z.of_nat j - 1) with (Z.ones (Z.of_nat j)) by (rewrite Z.ones_equiv; lia). rewrite Z.land_ones; [|lia].
  rewrite -Hp. rewrite Nat2Z.inj_mod. apply Nat2Z.inj. rewrite Z2Nat.id; [|apply Z.mod_pos_bound; lia].
  rewrite Z.add_mod_idemp_l; [|lia]. rewrite Nat2Z.inj_mod. f_equal. lia.
Qed.

Lemma at_dist_start sl start d : (start < length sl)%nat → (d < length sl)%nat → at_dist sl start (S d) = start ↔ S d = length sl.
Proof.
  intros Hs Hd. unfold at_dist. split.
  - intros He. destruct (decide (S d = length sl)) as [|Hne]; [done|]. exfalso.
    destruct (decide (start + S d < length sl)%nat).
    + rewrite Nat.mod_small in He; lia.
    + rewrite -(Nat.mod_unique (start + S d) (length sl) 1 (start + S d - length sl)) in He; lia.
  - intros ->. rewrite -(Nat.mod_unique (start + length sl) (length sl) 1 start); lia.
Qed.

Lemma at_dist_lt sl start d : (0 < length sl)%nat → (at_dist sl start d < length sl)%nat.
Proof. intros. apply Nat.mod_upper_bound. lia. Qed.

Lemma dist_exists sl start i :
  (start < length sl)%nat → (i < length sl)%nat → ∃ d, (d < length sl)%nat ∧ at_dist sl start d = i.
Proof.
  intros Hs Hi. unfold at_dist. destruct (decide (start <= i)%nat).
  - exists (i - start)%nat. split; [lia|]. rewrite Nat.mod_small; lia.
  - exists (i + length sl - start)%nat. split; [lia|]. symmetry. apply (Nat.mod_unique _ _ 1); lia.
Qed.

(** A probe from [start] goes on past the first [d] slots. *)
Definition passes sl (start d : nat) : Prop := ∀ d', (d' < d)%nat → sl !! at_dist sl start d' ≠ Some flatSlotEmpty.

(** A slot where a key probed from [start] may go. *)
Definition free_for sl (start i : nat) : Prop :=
  (sl !! i = Some flatSlotEmpty ∨ sl !! i = Some flatSlotTombstone) ∧
  ∃ d, (d < length sl)%nat ∧ at_dist sl start d = i ∧ passes sl start d.

Lemma passes_S sl start d : passes sl start d → sl !! at_dist sl start d ≠ Some flatSlotEmpty → passes sl start (S d).
Proof. intros Hp Hd d' Hd'. destruct (decide (d' = d)) as [->|]; [done|]. apply Hp. lia. Qed.

Lemma probe_loop_found fuel sl j start k d d0 ins v :
  pow_len sl j → (start < length sl)%nat → (d + fuel = length sl)%nat → (d <= d0 < length sl)%nat →
  sl !! at_dist sl start d0 = Some (flatSlotOccupied k v) → passes sl start d0 →
  ∃ i v', probe_loop fuel sl start (at_dist sl start d) ins k = (Some i, true) ∧ sl !! i = Some (flatSlotOccupied k v').
Proof.
  intros Hj Hs. revert d ins. induction fuel as [|fuel IH]; intros d ins Hf Hd Hk Hp; [lia|]. cbn [probe_loop].
  rewrite (next_index sl j) //.
  assert (∀ ins, d ≠ d0 → ∃ i v', (if decide (at_dist sl start (S d) = start) then (ins, false)
    else probe_loop fuel sl start (at_dist sl start (S d)) ins k) = (Some i, true) ∧ sl !! i = Some (flatSlotOccupied k v')) as Hnext.
  { intros ins' Hne. rewrite decide_False; [|rewrite at_dist_start //; lia]. apply IH; [lia|lia|done|done]. }
  destruct (sl !! at_dist sl start d) as [[|k' v'|]|] eqn:Hx.
  - exfalso. destruct (decide (d = d0)) as [->|]; [congruence|]. apply (Hp d); [lia|done].
  - destruct (decide (k' = k)) as [->|Hne]; [by eauto|]. apply Hnext. intros ->. congruence.
  - apply Hnext. intros ->. congruence.
  - apply lookup_ge_None in Hx. pose proof (at_dist_lt sl start d). lia.
Qed.

Lemma probe_loop_missing fuel sl j start k d e ins :
  pow_len sl j → (start < length sl)%nat → (d + fuel = length sl)%nat → (d <= e < length sl)%nat →
  sl !! at_dist sl start e = Some flatSlotEmpty → (∀ i v, sl !! i ≠ Some (flatSlotOccupied k v)) →
  passes sl start d → (∀ i, ins = Some i → free_for sl start i) →
  ∃ i, probe_loop fuel sl start (at_dist sl start d) ins k = (Some i, false) ∧ free_for sl start i.
Proof.
  intros Hj Hs. revert d ins. induction fuel as [|fuel IH]; intros d ins Hf Hd He Hk Hp Hi; [lia|]. cbn [probe_loop].
  rewrite (next_index sl j) //. set (x := at_dist sl start d).
  assert (∀ ins', sl !! x ≠ Some flatSlotEmpty → (∀ i, ins' = Some i → free_for sl start i) →
    ∃ i, (if decide (at_dist sl start (S d) = start) then (ins', false)
    else probe_loop fuel sl start (at_dist sl start (S d)) ins' k) = (Some i, false) ∧ free_for sl start i) as Hnext.
  { intros ins' Hne Hi'. assert (d ≠ e) by (intros ->; done). rewrite decide_False; [|rewrite at_dist_start //; lia].
    apply IH; [lia|lia|done|done|by apply passes_S|done]. }
  assert ((sl !! x = Some flatSlotEmpty ∨ sl !! x = Some flatSlotTombstone) →
    ∃ i, match ins with None => Some x | Some i => Some i end = Some i ∧ free_for sl start i) as Hhere.
  { intros Hx. destruct ins as [i|]; [by eauto|]. exists x. split; [done|]. split; [done|]. exists d. split_and!; [lia|done|done]. }
  destruct (sl !! x) as [[|k' v'|]|] eqn:Hx.
  - destruct Hhere as (i & -> & ?); [by left|]. eauto.
  - rewrite decide_False; [by apply Hnext|]. intros ->. by apply (Hk x v').
  - apply Hnext; [done|]. destruct Hhere as (i & -> & ?); [by right|]. by intros i' [= <-].
  - apply lookup_ge_None in Hx. pose proof (at_dist_lt sl start d). subst x. lia.
Qed.

(** ** What the slots hold *)

Definition is_tomb (x : flatSlot) : option unit := match x with flatSlotTombstone => Some tt | _ => None end.
Definition fs_tombs sl : list unit := omap is_tomb sl.

(** Every pair can be reached from the slot its probe starts at. *)
Definition reachable_slots (hasher : K → Z) sl : Prop :=
  ∀ i k v, sl !! i = Some (flatSlotOccupied k v) →
    ∃ d, (d < length sl)%nat ∧ at_dist sl (fs_start hasher (length sl) k) d = i ∧ passes sl (fs_start hasher (length sl) k) d.

Record slots_rep (hasher : K → Z) sl (m : gmap K loc) : Prop := SlotsRep {
  sr_pow : ∃ j, pow_len sl j;
  sr_reach : reachable_slots hasher sl;
  sr_entries : fs_entries sl ≡ₚ map_to_list m;
  sr_room : (length (fs_entries sl) + length (fs_tombs sl) < length sl)%nat
}.

Lemma elem_of_entries sl k v : (k, v) ∈ fs_entries sl ↔ ∃ i, sl !! i = Some (flatSlotOccupied k v).
Proof.
  unfold fs_entries. rewrite list_elem_of_omap. split.
  - intros (x & Hx & He). destruct x; try done. injection He as -> ->. by apply list_elem_of_lookup_1.
  - intros [i Hi]. eexists. split; [by eapply list_elem_of_lookup_2|done].
Qed.

Lemma sr_lookup hasher sl m k v : slots_rep hasher sl m → m !! k = Some v ↔ ∃ i, sl !! i = Some (flatSlotOccupied k v).
Proof. intros [_ _ He _]. by rewrite -elem_of_entries He elem_of_map_to_list. Qed.

Lemma empty_exists sl : (length (fs_entries sl) + length (fs_tombs sl) < length sl)%nat → ∃ i, sl !! i = Some flatSlotEmpty.
Proof.
  unfold fs_entries, fs_tombs. induction sl as [|x sl IH]; cbn; [lia|]. destruct x; cbn.
  - by exists 0%nat.
  - intros Hl. destruct IH as [i Hi]; [lia|]. by exists (S i).
  - intros Hl. destruct IH as [i Hi]; [lia|]. by exists (S i).
Qed.

Lemma probe_ok hasher sl m k :
  slots_rep hasher sl m →
  match m !! k with
  | Some v => ∃ i, probe hasher sl k = (Some i, true) ∧ sl !! i = Some (flatSlotOccupied k v)
  | None => ∃ i, probe hasher sl k = (Some i, false) ∧ free_for sl (fs_start hasher (length sl) k) i
  end.
Proof.
  intros HR. pose proof HR as [[j Hj] Hre He Hroom]. pose proof (start_lt hasher sl j k Hj) as Hs.
  set (st := fs_start hasher (length sl) k) in *.
  assert (st = at_dist sl st 0) as E0 by (unfold at_dist; rewrite Nat.add_0_r Nat.mod_small //).
  assert (probe hasher sl k = probe_loop (length sl) sl st (at_dist sl st 0) None k) as -> by (by rewrite -E0).
  destruct (m !! k) as [v|] eqn:Hk.
  - apply (sr_lookup hasher sl m k v HR) in Hk as Hi. destruct Hi as [i Hi]. destruct (Hre i k v Hi) as (d & Hd & <- & Hp). fold st in Hi, Hp.
    destruct (probe_loop_found (length sl) sl j st k 0 d None v) as (i & v' & -> & Hi'); [done|done|lia|lia|done|done|].
    exists i. split; [done|]. assert (m !! k = Some v') by (apply (sr_lookup hasher sl m k v' HR); eauto). by simplify_eq.
  - destruct (empty_exists sl Hroom) as [i Hi]. destruct (dist_exists sl st i Hs) as (d & Hd & Ed); [by eapply lookup_lt_Some|].
    apply (probe_loop_missing (length sl) sl j st k 0 d None); [done|done|lia|lia|by rewrite Ed| |intros d' ?; lia|done].
    intros i' v Hi'. assert (m !! k = Some v) by (apply (sr_lookup hasher sl m k v HR); eauto). congruence.
Qed.

(** ** Writing one slot *)

Lemma omap_insert {A} (f : flatSlot → option A) sl i x y :
  sl !! i = Some x →
  ∃ E1 E2, omap f sl = E1 ++ option_list (f x) ++ E2 ∧ omap f (<[i := y]> sl) = E1 ++ option_list (f y) ++ E2.
Proof.
  intros Hi. apply list_elem_of_split_length in Hi as (l1 & l2 & -> & ->). exists (omap f l1), (omap f l2).
  rewrite insert_app_r_alt // Nat.sub_diag. cbn. rewrite !omap_app. cbn. by destruct (f x), (f y).
Qed.

Lemma at_dist_insert sl i y start d : at_dist (<[i := y]> sl) start d = at_dist sl start d.
Proof. unfold at_dist. by rewrite length_insert. Qed.

Lemma passes_insert sl i y start d : y ≠ flatSlotEmpty → passes sl start d → passes (<[i := y]> sl) start d.
Proof.
  intros Hy Hp d' Hd'. rewrite at_dist_insert. destruct (decide (at_dist sl start d' = i)) as [<-|Hne].
  - intros He. apply list_lookup_insert_Some in He as [(_ & ? & _)|(? & _)]; [done|done].
  - rewrite list_lookup_insert_ne //. by apply Hp.
Qed.

Lemma reach_insert hasher sl i x y :
  reachable_slots hasher sl → sl !! i = Some x → y ≠ flatSlotEmpty →
  (∀ k v, y = flatSlotOccupied k v → ∃ d, (d < length sl)%nat ∧ at_dist sl (fs_start hasher (length sl) k) d = i ∧
     passes sl (fs_start hasher (length sl) k) d) →
  reachable_slots hasher (<[i := y]> sl).
Proof.
  intros Hre Hi Hy Hnew i' k v. rewrite length_insert. intros Hi'.
  assert (∃ d, (d < length sl)%nat ∧ at_dist sl (fs_start hasher (length sl) k) d = i' ∧ passes sl (fs_start hasher (length sl) k) d)
    as (d & H1 & H2 & H3).
  { apply list_lookup_insert_Some in Hi' as [(<- & -> & _)|(Hne & Hi')]; [by eapply Hnew|by eapply Hre]. }
  exists d. rewrite at_dist_insert. split_and!; [done|done|by apply passes_insert].
Qed.

Lemma insert_slot hasher sl m i k v :
  slots_rep hasher sl m → m !! k = None → free_for sl (fs_start hasher (length sl) k) i →
  (length (fs_entries sl) + length (fs_tombs sl) + 1 < length sl)%nat →
  slots_rep hasher (<[i := flatSlotOccupied k v]> sl) (<[k := v]> m) ∧
  length (fs_entries (<[i := flatSlotOccupied k v]> sl)) = S (length (fs_entries sl)) ∧
  (length (fs_tombs (<[i := flatSlotOccupied k v]> sl)) + (if decide (sl !! i = Some flatSlotTombstone) then 1 else 0) =
   length (fs_tombs sl))%nat.
Proof.
  intros [[j Hj] Hre He Hroom] Hk [Hi (d & Hd & Ed & Hp)] Hl.
  assert (∃ x, sl !! i = Some x ∧ slot_entry x = None ∧ (x = flatSlotEmpty ∨ x = flatSlotTombstone)) as (x & Hx & Hsx & Hxx)
    by (destruct Hi; eauto).
  destruct (omap_insert slot_entry sl i x (flatSlotOccupied k v) Hx) as (E1 & E2 & EO & EN).
  destruct (omap_insert is_tomb sl i x (flatSlotOccupied k v) Hx) as (T1 & T2 & TO & TN).
  unfold fs_entries, fs_tombs in *. rewrite Hsx in EO. cbn in EO, EN, TN.
  assert (length (omap slot_entry (<[i := flatSlotOccupied k v]> sl)) = S (length (omap slot_entry sl))) as HEl.
  { rewrite EN EO !length_app. cbn. lia. }
  assert ((length (omap is_tomb (<[i := flatSlotOccupied k v]> sl)) + (if decide (sl !! i = Some flatSlotTombstone) then 1 else 0) =
    length (omap is_tomb sl))%nat) as HTl.
  { rewrite TN TO !length_app. rewrite Hx. destruct Hxx as [-> | ->]; destruct (decide _) as [|Hne]; try done; cbn; lia. }
  split_and!; [|done|done]. constructor.
  - exists j. by rewrite /pow_len length_insert.
  - eapply reach_insert; [done|done|done|]. intros k0 v0 [= <- <-]. eauto.
  - unfold fs_entries. rewrite EN map_to_list_insert // -He EO. solve_Permutation.
  - unfold fs_entries, fs_tombs. rewrite length_insert HEl. lia.
Qed.

(** Another value for a key, or a tombstone in its place. *)
Lemma update_slot hasher sl m i k v v' :
  slots_rep hasher sl m → sl !! i = Some (flatSlotOccupied k v) → slots_rep hasher (<[i := flatSlotOccupied k v']> sl) (<[k := v']> m) ∧
  length (fs_entries (<[i := flatSlotOccupied k v']> sl)) = length (fs_entries sl) ∧
  length (fs_tombs (<[i := flatSlotOccupied k v']> sl)) = length (fs_tombs sl).
Proof.
  intros HR Hi. pose proof HR as [[j Hj] Hre He Hroom].
  destruct (omap_insert slot_entry sl i _ (flatSlotOccupied k v') Hi) as (E1 & E2 & EO & EN).
  destruct (omap_insert is_tomb sl i _ (flatSlotOccupied k v') Hi) as (T1 & T2 & TO & TN).
  unfold fs_entries, fs_tombs in *. cbn in EO, EN, TO, TN.
  assert (length (omap slot_entry (<[i := flatSlotOccupied k v']> sl)) = length (omap slot_entry sl)) as HEl by (rewrite EN EO !length_app //).
  assert (length (omap is_tomb (<[i := flatSlotOccupied k v']> sl)) = length (omap is_tomb sl)) as HTl by (rewrite TN TO //).
  assert (m !! k = Some v) as Hk by (apply (sr_lookup hasher sl m k v HR); eauto).
  split_and!; [|done|done]. constructor.
  - exists j. by rewrite /pow_len length_insert.
  - eapply reach_insert; [done|done|done|]. intros k0 v0 [= <- <-]. by eapply Hre.
  - unfold fs_entries. rewrite EN -(insert_delete_eq m k v') map_to_list_insert ?lookup_delete_eq //.
    assert ((k, v) :: E1 ++ E2 ≡ₚ (k, v) :: map_to_list (delete k m)) as HP%Permutation_cons_inv.
    { rewrite map_to_list_delete // -He EO. solve_Permutation. }
    rewrite -HP. solve_Permutation.
  - unfold fs_entries, fs_tombs. by rewrite length_insert HEl HTl.
Qed.

Lemma delete_slot hasher sl m i k v :
  slots_rep hasher sl m → sl !! i = Some (flatSlotOccupied k v) → slots_rep hasher (<[i := flatSlotTombstone]> sl) (delete k m) ∧
  S (length (fs_entries (<[i := flatSlotTombstone]> sl))) = length (fs_entries sl) ∧
  length (fs_tombs (<[i := flatSlotTombstone]> sl)) = S (length (fs_tombs sl)).
Proof.
  intros HR Hi. pose proof HR as [[j Hj] Hre He Hroom].
  destruct (omap_insert slot_entry sl i _ flatSlotTombstone Hi) as (E1 & E2 & EO & EN).
  destruct (omap_insert is_tomb sl i _ flatSlotTombstone Hi) as (T1 & T2 & TO & TN).
  unfold fs_entries, fs_tombs in *. cbn in EO, EN, TO, TN.
  assert (S (length (omap slot_entry (<[i := flatSlotTombstone]> sl))) = length (omap slot_entry sl)) as HEl by (rewrite EN EO !length_app /=; lia).
  assert (length (omap is_tomb (<[i := flatSlotTombstone]> sl)) = S (length (omap is_tomb sl))) as HTl by (rewrite TN TO !length_app /=; lia).
  assert (m !! k = Some v) as Hk by (apply (sr_lookup hasher sl m k v HR); eauto).
  split_and!; [|done|done]. constructor.
  - exists j. by rewrite /pow_len length_insert.
  - by eapply reach_insert.
  - unfold fs_entries. rewrite EN. apply (Permutation_cons_inv (a := (k, v))).
    rewrite map_to_list_delete // -He EO. solve_Permutation.
  - unfold fs_entries, fs_tombs. rewrite length_insert. lia.
Qed.

(** ** Rebuilding *)

Lemma blank : (∀ n, fs_entries (replicate n flatSlotEmpty) = []) ∧ ∀ n, fs_tombs (replicate n flatSlotEmpty) = [].
Proof. split; intros n; by induction n. Qed.

Lemma empty_slots hasher n j : n = (2 ^ j)%nat → (4 <= j)%nat → slots_rep hasher (replicate n flatSlotEmpty) ∅.
Proof.
  intros -> Hj. destruct blank as [HE HT].
  constructor.
  - exists j. by rewrite /pow_len length_replicate.
  - intros i k v [? _]%lookup_replicate. done.
  - by rewrite HE map_to_list_empty.
  - rewrite HE HT length_replicate. cbn. pose proof (Nat.pow_nonzero 2 j). lia.
Qed.

(** The pairs go into the new array one by one. *)
Lemma reinsert_all hasher old sl m :
  slots_rep hasher sl m → fs_tombs sl = [] → NoDup (fs_entries old).*1 → (∀ k, k ∈ (fs_entries old).*1 → m !! k = None) →
  (length (fs_entries sl) + length (fs_entries old) + 1 < length sl)%nat →
  let '(sl', n) := foldl (reinsert hasher) (sl, Z.of_nat (length (fs_entries sl))) old in
  slots_rep hasher sl' (list_to_map (fs_entries old) ∪ m) ∧ fs_tombs sl' = [] ∧ length sl' = length sl ∧ n = Z.of_nat (length (fs_entries sl')).
Proof.
  revert sl m. induction old as [|x old IH]; intros sl m HR HT Hn Hk Hl; cbn [foldl].
  { cbn. rewrite (left_id_L ∅ (∪)). done. }
  destruct x as [|k v|]; cbn [reinsert]; [by apply IH| |by apply IH].
  change (fs_entries (flatSlotOccupied k v :: old)) with ((k, v) :: fs_entries old) in *. cbn in Hn. apply NoDup_cons in Hn as [Hkn Hn].
  assert (m !! k = None) as Hmk by (apply Hk; left). pose proof (probe_ok hasher sl m k HR) as Hp. rewrite Hmk in Hp. cbn [fst].
  destruct Hp as (i & -> & Hfree). cbn [fst snd]. cbn [length] in Hl.
  destruct (insert_slot hasher sl m i k v HR Hmk Hfree) as (HR' & HE' & HT'); [rewrite HT; cbn; lia|].
  rewrite HT in HT'. cbn in HT'. set (sl' := <[i := _]> sl) in *. assert (fs_tombs sl' = []) as HT2 by (destruct (fs_tombs sl'); [done|cbn in HT'; lia]).
  specialize (IH sl' (<[k := v]> m) HR' HT2 Hn). rewrite HE' in IH. replace (Z.of_nat (length (fs_entries sl)) + 1) with (Z.of_nat (S (length (fs_entries sl)))) by lia.
  assert (length sl' = length sl) as Hlen by apply length_insert.
  destruct (foldl _ _ old) as [sl2 n]. destruct IH as (I1 & I2 & I3 & I4).
  - intros k' Hk'. rewrite lookup_insert_ne; [apply Hk; by right|]. intros <-. done.
  - rewrite Hlen. lia.
  - split_and!; [|done|congruence|done]. cbn. rewrite -insert_union_l insert_union_r; [done|].
    by apply not_elem_of_list_to_map_1.
Qed.

(** ** The table *)

Record flat_rep s (m : gmap K loc) : Prop := FlatRep {
  fl_slots : slots_rep (fs_hasher s) (fs_slots s) m;
  fl_occ : fs_occupied s = Z.of_nat (length (fs_entries (fs_slots s)));
  fl_tomb : fs_tombstones s = Z.of_nat (length (fs_tombs (fs_slots s)))
}.

Lemma sr_16 hasher sl m : slots_rep hasher sl m → (16 <= length sl)%nat.
Proof. intros [[j Hj] _ _ _]. by eapply pow_pos. Qed.

Lemma sr_keys hasher sl m : slots_rep hasher sl m → NoDup (fs_entries sl).*1 ∧ list_to_map (fs_entries sl) = m.
Proof.
  intros [_ _ He _]. assert (NoDup (fs_entries sl).*1) as Hn by (rewrite He; apply NoDup_fst_map_to_list).
  split; [done|]. rewrite -(list_to_map_to_list m). by apply list_to_map_proper.
Qed.

Lemma rebuild_ok s m :
  flat_rep s m →
  let s' := rebuild s (nextRebuildCap s) in
  flat_rep s' m ∧ fs_hasher s' = fs_hasher s ∧ fs_tombs (fs_slots s') = [] ∧
  (length (fs_entries (fs_slots s')) + 1 < length (fs_slots s'))%nat.
Proof.
  intros [HR Ho Ht]. cbv zeta. pose proof (sr_16 _ _ _ HR) as H16. pose proof (sr_room _ _ _ HR) as Hroom.
  destruct (sr_keys _ _ _ HR) as [Hn Hm]. destruct (sr_pow _ _ _ HR) as (j & Hl & Hj).
  assert (∃ j', nextRebuildCap s = (2 ^ j')%nat ∧ (4 <= j')%nat ∧
    (4 * (length (fs_entries (fs_slots s)) + 1) < 4 * nextRebuildCap s)%nat) as (j' & Hc & Hj' & Hlt).
  { unfold nextRebuildCap. rewrite Ho. case_bool_decide as Hb.
    - exists (S j). rewrite Hl Nat.pow_succ_r'. split_and!; [lia|lia|]. lia.
    - exists j. split_and!; [done|done|]. lia. }
  unfold rebuild. set (cap := nextRebuildCap s) in *.
  pose proof (reinsert_all (fs_hasher s) (fs_slots s) (replicate cap flatSlotEmpty) ∅ (empty_slots _ cap j' Hc Hj')) as HI.
  destruct blank as [HE HT].
  rewrite HE in HI. change (Z.of_nat (length [])) with 0 in HI.
  specialize (HI (HT cap) Hn (λ k _, lookup_empty k)). rewrite length_replicate in HI. specialize (HI ltac:(cbn; lia)).
  destruct (foldl _ _ _) as [sl n]. destruct HI as (I1 & I2 & I3 & I4). rewrite Hm (right_id_L ∅ (∪)) in I1.
  split_and!; [constructor; [done|done|change (0 = Z.of_nat (length (fs_tombs sl))); by rewrite I2]|done|done|].
  change (length (fs_entries sl) + 1 < length sl)%nat.
  assert (length (fs_entries sl) = length (fs_entries (fs_slots s))) as ->; [|lia].
  apply Permutation_length. by rewrite (sr_entries _ _ _ I1) (sr_entries _ _ _ HR).
Qed.

Lemma fill_ok s m i k v :
  flat_rep s m → m !! k = None → free_for (fs_slots s) (fs_start (fs_hasher s) (length (fs_slots s)) k) i →
  (length (fs_entries (fs_slots s)) + length (fs_tombs (fs_slots s)) + 1 < length (fs_slots s))%nat →
  flat_rep (fill s i k v) (<[k := v]> m).
Proof.
  intros [HR Ho Ht] Hk Hf Hl. destruct (insert_slot _ _ _ i k v HR Hk Hf Hl) as (HR' & HE & HT). unfold fill.
  destruct (decide (fs_slots s !! i = Some flatSlotTombstone)) as [E|E].
  - rewrite E. constructor; cbn [fs_with fs_occupied fs_slots fs_tombstones fs_hasher]; [done|lia|lia].
  - destruct Hf as [[Hi|Hi] _]; [|done]. rewrite Hi. constructor; cbn [fs_with fs_occupied fs_slots fs_tombstones fs_hasher]; [done|lia|lia].
Qed.

Lemma fs_get_ok s m k : flat_rep s m → fs_get s k = m !! k.
Proof.
  intros [HR _ _]. unfold fs_get. pose proof (probe_ok _ _ _ k HR) as Hp. destruct (m !! k) as [v|].
  - by destruct Hp as (i & -> & ->).
  - by destruct Hp as (i & -> & _).
Qed.

Lemma fs_set_ok s m k v : flat_rep s m → flat_rep (fs_set s k v) (<[k := v]> m).
Proof.
  intros HF. pose proof HF as [HR Ho Ht]. unfold fs_set. pose proof (probe_ok _ _ _ k HR) as Hp.
  destruct (m !! k) as [v0|] eqn:Hk; destruct Hp as (i & -> & Hi).
  - destruct (update_slot _ _ _ i k v0 v HR Hi) as (HR' & HE & HT). constructor; cbn; [done|by rewrite HE|by rewrite HT].
  - rewrite bool_decide_false //. cbn [orb]. destruct (shouldGrowBeforeInsert s) eqn:Hg.
    + destruct (rebuild_ok s m HF) as (HF' & Hh & HT & Hl). cbv zeta in *. set (s' := rebuild s _) in *.
      pose proof (probe_ok _ _ _ k (fl_slots _ _ HF')) as Hp. rewrite Hk in Hp. destruct Hp as (i' & -> & Hi'). cbn [fst].
      apply fill_ok; [done|done|done|]. rewrite HT. cbn. lia.
    + apply fill_ok; [done|done|done|]. unfold shouldGrowBeforeInsert in Hg. apply bool_decide_eq_false in Hg. rewrite Ho Ht in Hg.
      pose proof (sr_16 _ _ _ HR). lia.
Qed.

Lemma fs_del_ok s m k :
  flat_rep s m → (fs_del s k).1 = bool_decide (is_Some (m !! k)) ∧ flat_rep (fs_del s k).2 (delete k m).
Proof.
  intros HF. pose proof HF as [HR Ho Ht]. unfold fs_del. pose proof (probe_ok _ _ _ k HR) as Hp.
  destruct (m !! k) as [v0|] eqn:Hk; destruct Hp as (i & -> & Hi); cbn [fst snd].
  - split; [by rewrite bool_decide_true|]. destruct (delete_slot _ _ _ i k v0 HR Hi) as (HR' & HE & HT).
    set (s' := fs_with s _ _ _ _). assert (flat_rep s' (delete k m)) as HF' by (unfold s'; constructor; cbn [fs_with fs_occupied fs_slots fs_tombstones fs_hasher]; [done|lia|lia]).
    destruct (shouldCompactAfterDelete s'); [|done]. by apply rebuild_ok.
  - split; [by rewrite bool_decide_false; [|intros []]|]. by rewrite delete_id.
Qed.

#[export] Program Instance flatStore_laws : StoreLaws K flatStore := { st_rep := flat_rep }.
Next Obligation. intros s m k HF. by apply fs_get_ok. Qed.
Next Obligation. intros s m k a HF. by apply fs_set_ok. Qed.
Next Obligation. intros s m k HF. by apply fs_del_ok. Qed.
Next Obligation.
  intros s m [HR Ho _]. cbn. unfold fs_length. rewrite Ho. f_equal. rewrite (Permutation_length (sr_entries _ _ _ HR)).
  by rewrite length_map_to_list.
Qed.
Next Obligation.
  intros s m [HR _ _]. destruct (sr_pow _ _ _ HR) as (j & Hl & Hj).
  destruct blank as [HE HT].
  constructor; cbn [fs_clearAll fs_with fs_hasher fs_slots fs_occupied fs_tombstones]; [by eapply empty_slots|by rewrite HE|by rewrite HT].
Qed.
Next Obligation. intros s m [HR _ _]. cbn. unfold fs_each, addrs. by rewrite (sr_entries _ _ _ HR). Qed.

Lemma flat_new hasher cap : cap <= 2 ^ 62 → flat_rep (newFlatStore hasher cap) ∅.
Proof.
  intros Hc. unfold newFlatStore. set (c := if bool_decide _ then _ else _).
  assert (16 <= c <= 2 ^ 62) as Hc' by (unfold c, flatStoreInitialCap; case_bool_decide; lia).
  destruct (nextPowerOfTwo_spec c) as (j & Hj & -> & Hle & _); [lia|].
  assert (Z.to_nat (2 ^ Z.of_nat j) = (2 ^ j)%nat) as -> by (rewrite -(Nat2Z.id (2 ^ j)) Nat2Z.inj_pow //).
  destruct blank as [HE HT].
  constructor; cbn [fs_hasher fs_slots fs_occupied fs_tombstones]; [|by rewrite HE|by rewrite HT]. apply (empty_slots _ _ j); [done|].
  destruct (decide (4 <= j)%nat); [done|]. exfalso.
  assert (2 ^ Z.of_nat j <= 2 ^ 3) by (apply Z.pow_le_mono_r; lia). lia.
Qed.

(** ** Sequences of operations *)

Inductive flat_op := FSet (k : K) (v : loc) | FDel (k : K) | FClear.

Definition flat_step s (o : flat_op) : flatStore :=
  match o with FSet k v => fs_set s k v | FDel k => (fs_del s k).2 | FClear => fs_clearAll s end.

(** The same on a finite map. *)
Definition map_step (m : gmap K loc) (o : flat_op) : gmap K loc :=
  match o with FSet k v => <[k := v]> m | FDel k => delete k m | FClear => ∅ end.

Lemma flat_run os s m : flat_rep s m → flat_rep (foldl flat_step s os) (foldl map_step m os).
Proof.
  revert s m. induction os as [|o os IH]; intros s m HF; [done|]. cbn. apply IH. destruct o; cbn.
  - by apply fs_set_ok.
  - by apply fs_del_ok.
  - exact (st_rep_clearAll _ _ HF).
Qed.

(** C34: after any sequence of inserts, updates, deletes and clears, through
    every rebuild and past every tombstone, whatever the hash function, the
    open-addressing table answers lookups like a finite map and counts its
    entries; and it always keeps an empty slot, so a probe ends before it
    has gone around. *)
Theorem flat_is_map hasher cap os :
  cap <= 2 ^ 62 →
  let s := foldl flat_step (newFlatStore hasher cap) os in
  let m := foldl map_step ∅ os in
  (∀ k, fs_get s k = m !! k) ∧ fs_length s = Z.of_nat (size m) ∧ fs_each s ≡ₚ addrs m ∧
  (∃ i, fs_slots s !! i = Some flatSlotEmpty) ∧ fs_occupied s + fs_tombstones s < Z.of_nat (length (fs_slots s)).
Proof.
  intros Hc. cbv zeta. pose proof (flat_run os _ _ (flat_new hasher cap Hc)) as HF.
  set (s := foldl flat_step _ _) in *. set (m := foldl map_step _ _) in *. pose proof HF as [HR Ho Ht]. split_and!.
  - intros k. by apply fs_get_ok.
  - exact (st_rep_length _ _ HF).
  - exact (st_rep_each _ _ HF).
  - apply empty_exists, HR.
  - pose proof (sr_room _ _ _ HR). lia.
Qed.
End flat.
Arguments flatStore : clear implicits.

Lemma flat_is_map_witness :
  let os := (λ i : nat, FSet (Z.of_nat i) (Pos.of_succ_nat i)) <$> seq 0 40 in
  let s := foldl flat_step (newFlatStore (λ _ : Z, 7) 16) (os ++ [FDel 3; FSet 5 99%positive]) in
  fs_get s 3 = None ∧ fs_get s 5 = Some 99%positive ∧ fs_get s 39 = Some 40%positive ∧ fs_compactCount s = 2.
Proof.
  cbv zeta. match goal with |- fs_get (foldl _ (newFlatStore ?h _) ?os) _ = _ ∧ _ => destruct (flat_is_map h 16 os ltac:(lia)) as [HG _] end.
  rewrite !HG. split_and!; vm_compute; reflexivity.
Defined.
