(* ===== verification/Ttl.v ===== *)
(** * Ttl: the interface between a shard and its TTL backend ([ttlbackend.go])

    The Go interface [ttlBackend] is the class [TtlBackend]; [TtlLaws] states
    what a shard relies on.  A backend reads the [expireAt] field of the
    entries it is handed, so every operation takes the current fields as a
    function [x] from addresses to times. *)

From S2P Require Import Prelude.

Class TtlBackend (T : Type) := {
  ttl_Add : (loc → Z) → T → loc → T;
  ttl_Remove : (loc → Z) → T → loc → T;
  ttl_Fix : (loc → Z) → T → loc → T;
  ttl_Sweep : (loc → Z) → T → Z → list loc * T;
  ttl_Len : T → Z;
  ttl_Reset : T → T;
  (** [e.heapIndex = -1], which [entry.reset] and [entryPool.get] do. *)
  ttl_unindex : T → loc → T
}.

(** [D'] is [D] after [a] was handed to the backend with expiry [t]: an entry
    with a TTL is tracked, one without is not, no other entry moves. *)
Definition retracked (t : Z) (a : loc) (D D' : gset loc) : Prop :=
  D' ∖ {[a]} = D ∖ {[a]} ∧ ((0 < t)%Z → a ∈ D') ∧ (a ∈ D' → t ≠ 0%Z).

Class TtlLaws (T : Type) `{TtlBackend T} := {
  (** The backend knows the entries [L] and tracks those of [D]. *)
  ttl_rep : (loc → Z) → T → gset loc → gset loc → Prop;
  ttl_rep_sub x t L D : ttl_rep x t L D → D ⊆ L;
  ttl_rep_ext x x' t L D : ttl_rep x t L D → (∀ a, a ∈ D → x' a = x a) → ttl_rep x' t L D;
  ttl_rep_add x t L D a :
    ttl_rep x t L D → a ∉ L →
    ∃ D', ttl_rep x (ttl_Add x t a) ({[a]} ∪ L) D' ∧ retracked (x a) a D D';
  ttl_rep_remove x t L D a :
    ttl_rep x t L D → a ∈ L → ttl_rep x (ttl_Remove x t a) (L ∖ {[a]}) (D ∖ {[a]});
  (** [Fix] runs after the [expireAt] of [a], and of no other entry, changed. *)
  ttl_rep_fix x x' t L D a :
    ttl_rep x t L D → a ∈ L → (∀ b, b ∈ D → b ≠ a → x' b = x b) →
    ∃ D', ttl_rep x' (ttl_Fix x' t a) L D' ∧ retracked (x' a) a D D';
  (** The field is an [int64], which a backend may rely on. *)
  ttl_rep_sweep x t L D now :
    ttl_rep x t L D →
    let '(l, t') := ttl_Sweep x t now in
    NoDup l ∧ (∀ a, a ∈ l → a ∈ D ∧ (is_i64 (x a) → (x a ≤ now)%Z)) ∧ ttl_rep x t' L (D ∖ list_to_set l);
  ttl_rep_len x t L D : ttl_rep x t L D → ttl_Len t = Z.of_nat (size D);
  ttl_rep_unindex x t L D a :
    ttl_rep x t L D → a ∉ L → ttl_rep x (ttl_unindex t a) L D;
  (** [Reset], also when entries it knows were recycled just before. *)
  ttl_rep_reset x x' t L D l :
    ttl_rep x t L D → ttl_rep x' (ttl_Reset (foldl ttl_unindex t l)) ∅ ∅
}.
