(* ===== verification/Heap.v ===== *)
(** * Heap: the default TTL backend ([expiry.go], [ttlbackend.go])

    [expiryHeapBackend] is a binary min-heap of entries ordered by [expireAt],
    with the position of every entry cached in its [heapIndex] field; Go's
    [container/heap] drives it.  The slice is a list of addresses, the
    [heapIndex] fields a finite map (an absent key is -1).  The file shows
    that the indices stay exact, that the order is kept, hence that [Sweep]
    returns exactly the expired entries, and that the backend satisfies
    [TtlLaws]. *)

From Stdlib Require Import Sorted.
From S2P Require Import Prelude Ttl.

#[local] Open Scope nat_scope.

Record expiryHeapBackend := HeapB { hp : list loc; hi : gmap loc nat }.

Implicit Types (h : expiryHeapBackend) (l : list loc) (x : loc → Z) (a : loc).

Definition newExpiryHeapBackend : expiryHeapBackend := HeapB [] ∅.

(** ** [heap.Interface] *)

Definition h_Less x h (i j : nat) : bool := bool_decide (x (hp h !!! i) < x (hp h !!! j))%Z.

Definition swap l (i j : nat) : list loc := <[i := l !!! j]> (<[j := l !!! i]> l).

Definition h_Swap h (i j : nat) : expiryHeapBackend :=
  let l := swap (hp h) i j in
  HeapB l (<[l !!! j := j]> (<[l !!! i := i]> (hi h))).

Definition h_Push h a : expiryHeapBackend := HeapB (hp h ++ [a]) (<[a := length (hp h)]> (hi h)).

Definition h_Pop h : loc * expiryHeapBackend :=
  let n := length (hp h) in
  let a := hp h !!! (n - 1) in
  (a, HeapB (take (n - 1) (hp h)) (delete a (hi h))).

(** ** [container/heap] *)

(** [(j - 1) / 2], which Go truncates to 0 for [j = 0]. *)
Definition parent (j : nat) : nat := (j - 1) / 2.

#[global] Arguments parent : simpl never.

(** [j] shrinks every turn. *)
Fixpoint up_loop (fuel : nat) x h (j : nat) : expiryHeapBackend :=
  match fuel with
  | O => h
  | S fuel =>
      let i := parent j in
      if decide (i = j) then h
      else if negb (h_Less x h j i) then h
      else up_loop fuel x (h_Swap h i j) i
  end.

Definition up x h (j : nat) : expiryHeapBackend := up_loop (S j) x h j.

(** [i] grows every turn and stays below [n]. *)
Fixpoint down_loop (fuel : nat) x h (i n : nat) : expiryHeapBackend * nat :=
  match fuel with
  | O => (h, i)
  | S fuel =>
      let j1 := 2 * i + 1 in
      if decide (n <= j1) then (h, i)
      else
        let j2 := j1 + 1 in
        let j := if bool_decide (j2 < n) && h_Less x h j2 j1 then j2 else j1 in
        if negb (h_Less x h j i) then (h, i)
        else down_loop fuel x (h_Swap h i j) j n
  end.

Definition down x h (i0 n : nat) : expiryHeapBackend * bool :=
  let '(h, i) := down_loop (S n) x h i0 n in (h, bool_decide (i0 < i)).

Definition heap_Push x h a : expiryHeapBackend :=
  let h := h_Push h a in up x h (length (hp h) - 1).

Definition heap_Pop x h : loc * expiryHeapBackend :=
  let n := length (hp h) - 1 in
  let h := h_Swap h 0 n in
  let '(h, _) := down x h 0 n in
  h_Pop h.

Definition heap_Remove x h (i : nat) : loc * expiryHeapBackend :=
  let n := length (hp h) - 1 in
  let h := if decide (n = i) then h
           else
             let h := h_Swap h i n in
             let '(h, moved) := down x h i n in
             if moved then h else up x h i in
  h_Pop h.

Definition heap_Fix x h (i : nat) : expiryHeapBackend :=
  let '(h, moved) := down x h i (length (hp h)) in
  if moved then h else up x h i.

#[global] Arguments heap_Push : simpl never.
#[global] Arguments heap_Pop : simpl never.
#[global] Arguments heap_Remove : simpl never.
#[global] Arguments heap_Fix : simpl never.

(** ** [expiryHeapBackend] *)

Definition hb_Add x h a : expiryHeapBackend :=
  if decide (x a = 0%Z) then HeapB (hp h) (delete a (hi h)) else heap_Push x h a.

Definition hb_Remove x h a : expiryHeapBackend :=
  match hi h !! a with
  | None => h
  | Some i => if decide (length (hp h) <= i) then h else (heap_Remove x h i).2
  end.

Definition hb_Fix x h a : expiryHeapBackend :=
  let exp := x a in
  match hi h !! a with
  | None => if bool_decide (0 < exp)%Z then heap_Push x h a else h
  | Some i => if decide (exp = 0%Z) then (heap_Remove x h i).2 else heap_Fix x h i
  end.

(** Every turn pops an entry. *)
Fixpoint sweep_loop (fuel : nat) x h (now : Z) : list loc * expiryHeapBackend :=
  match fuel with
  | O => ([], h)
  | S fuel =>
      if bool_decide (0 < length (hp h)) && bool_decide (x (hp h !!! 0%nat) <= now)%Z then
        let '(a, h) := heap_Pop x h in
        let '(out, h) := sweep_loop fuel x h now in
        (a :: out, h)
      else ([], h)
  end.

Definition hb_Sweep x h (now : Z) : list loc * expiryHeapBackend :=
  sweep_loop (length (hp h)) x h now.

Definition hb_Len h : Z := Z.of_nat (length (hp h)).

Definition hb_Reset h : expiryHeapBackend :=
  HeapB [] (foldl (λ m a, delete a m) (hi h) (hp h)).

Definition hb_unindex h a : expiryHeapBackend := HeapB (hp h) (delete a (hi h)).

#[export] Instance heap_backend : TtlBackend expiryHeapBackend := {
  ttl_Add := hb_Add; ttl_Remove := hb_Remove; ttl_Fix := hb_Fix; ttl_Sweep := hb_Sweep;
  ttl_Len := hb_Len; ttl_Reset := hb_Reset; ttl_unindex := hb_unindex
}.

(** ** The indices *)

(** [heapIndex] is the position, for the tracked entries and no other. *)
Record indexed h : Prop := Indexed {
  ix_pos : ∀ i, i < length (hp h) → hi h !! (hp h !!! i) = Some i;
  ix_back : ∀ a i, hi h !! a = Some i → i < length (hp h) ∧ hp h !!! i = a
}.

Lemma indexed_inj h i j :
  indexed h → i < length (hp h) → j < length (hp h) → hp h !!! i = hp h !!! j → i = j.
Proof. intros [H1 _] Hi Hj He. apply H1 in Hi, Hj. congruence. Qed.

Lemma length_swap l i j : length (swap l i j) = length l.
Proof. unfold swap. by rewrite !length_insert. Qed.

Lemma lookup_swap l i j c :
  i < length l → j < length l →
  swap l i j !!! c = if decide (c = i) then l !!! j else if decide (c = j) then l !!! i else l !!! c.
Proof.
  intros Hi Hj. unfold swap.
  destruct (decide (c = i)) as [->|Hci]; [by rewrite list_lookup_total_insert_eq; [|rewrite length_insert]|].
  rewrite list_lookup_total_insert_ne //.
  destruct (decide (c = j)) as [->|Hcj]; [by rewrite list_lookup_total_insert_eq|].
  by rewrite list_lookup_total_insert_ne.
Qed.

Lemma swap_indexed h i j :
  indexed h → i < length (hp h) → j < length (hp h) →
  indexed (h_Swap h i j) ∧ dom (hi (h_Swap h i j)) = dom (hi h).
Proof.
  intros Hx Hi Hj. pose proof Hx as [H1 H2].
  assert (swap (hp h) i j !!! i = hp h !!! j) as Ei by (rewrite lookup_swap // decide_True //).
  assert (swap (hp h) i j !!! j = hp h !!! i) as Ej.
  { rewrite lookup_swap //. by repeat case_decide; subst. }
  unfold h_Swap. rewrite Ei Ej. split; [constructor; cbn|cbn].
  - intros c. rewrite length_swap lookup_swap //. intros Hc.
    destruct (decide (c = j)) as [->|Hcj].
    { case_decide; subst; by rewrite lookup_insert_eq. }
    destruct (decide (c = i)) as [->|Hci].
    + rewrite lookup_insert_ne; [by rewrite lookup_insert_eq|]. by intros ?%indexed_inj.
    + rewrite !lookup_insert_ne; [by apply H1|by intros ?%indexed_inj..].
  - intros a c. rewrite length_swap !lookup_insert_Some.
    intros [[<- <-]|[Ha [[<- <-]|[Ha' Hc]]]]; [done..|].
    apply H2 in Hc as [Hc <-]. split; [done|]. rewrite lookup_swap //. repeat case_decide; congruence.
  - rewrite !dom_insert_L. pose proof (H1 _ Hi). pose proof (H1 _ Hj).
    assert (hp h !!! i ∈ dom (hi h) ∧ hp h !!! j ∈ dom (hi h)) as [? ?] by (rewrite !elem_of_dom; eauto).
    set_solver.
Qed.

(** ** The order *)

(** The edge above position [c] is in order. *)
Definition edge x l (c : nat) : Prop := (x (l !!! parent c) <= x (l !!! c))%Z.

Definition heap_ordered x l (n : nat) : Prop := ∀ c, 0 < c < n → edge x l c.

(** All edges but the one above [j], which any child of [j] may jump over. *)
Definition up_pre x l (n j : nat) : Prop :=
  (∀ c, 0 < c < n → c ≠ j → edge x l c) ∧
  (∀ c, 0 < c < n → parent c = j → 0 < j → (x (l !!! parent j) <= x (l !!! c))%Z).

Lemma parent_lt j : 0 < j → parent j < j.
Proof. intros. unfold parent. pose proof (Nat.Div0.div_le_upper_bound (j - 1) 2 (j - 1)). lia. Qed.

Lemma parent_S j : 0 < j → j = 2 * parent j + 1 ∨ j = 2 * parent j + 2.
Proof.
  intros. unfold parent. pose proof (Nat.div_mod_eq (j - 1) 2).
  pose proof (Nat.mod_upper_bound (j - 1) 2). lia.
Qed.

Lemma up_loop_spec x fuel h n j :
  indexed h → n <= length (hp h) → j < n → j < fuel → up_pre x (hp h) n j →
  let h' := up_loop fuel x h j in
  indexed h' ∧ dom (hi h') = dom (hi h) ∧ length (hp h') = length (hp h) ∧
  heap_ordered x (hp h') n ∧ (∀ c, n <= c → hp h' !!! c = hp h !!! c).
Proof.
  revert h j. induction fuel as [|fuel IH]; intros h j Hx Hn Hj Hf [P1 P2]; [lia|]. cbn.
  destruct (decide (parent j = j)) as [Hpj|Hpj].
  { assert (j = 0) by (destruct j; [done|]; pose proof (parent_lt (S j)); lia).
    split_and!; try done. intros c Hc. apply P1; [done|lia]. }
  assert (0 < j) as Hj0 by (destruct j; [done|lia]). pose proof (parent_lt j Hj0) as Hpl.
  unfold h_Less. case_bool_decide as Hl; cbn.
  2:{ split_and!; try done. intros c Hc. destruct (decide (c = j)) as [->|]; [unfold edge; lia|by apply P1]. }
  destruct (swap_indexed h (parent j) j Hx) as [Hx' Hd']; [lia..|].
  specialize (IH (h_Swap h (parent j) j) (parent j) Hx').
  destruct IH as (I1 & I2 & I3 & I4 & I5); [cbn; rewrite length_swap; lia|lia|lia| |].
  - split; cbn.
    + intros c Hc Hne. unfold edge. rewrite !lookup_swap; [|lia..].
      destruct (decide (c = parent j)) as [|_]; [done|]. destruct (decide (c = j)) as [->|Hcj].
      * rewrite decide_True //. lia.
      * destruct (decide (parent c = parent j)) as [Hpc|Hpc].
        { specialize (P1 c Hc Hcj). unfold edge in P1. rewrite Hpc in P1. lia. }
        destruct (decide (parent c = j)) as [Hpc'|Hpc']; [by apply P2; [..|lia]|]. by apply P1.
    + intros c Hc Hpc Hp0. rewrite !lookup_swap; [|lia..].
      pose proof (parent_lt (parent j) Hp0). pose proof (parent_lt c ltac:(lia)).
      rewrite (decide_False (P := parent (parent j) = parent j)); [|lia].
      rewrite (decide_False (P := parent (parent j) = j)); [|lia].
      rewrite (decide_False (P := c = parent j)); [|lia].
      assert (edge x (hp h) (parent j)) as Hpe by (apply P1; lia). unfold edge in Hpe.
      case_decide as Hcj; [done|]. specialize (P1 c Hc Hcj). unfold edge in P1. rewrite Hpc in P1. lia.
  - cbn in I3. rewrite length_swap in I3. split_and!; [done|congruence|done|done|].
    intros c Hc. rewrite I5 //. cbn. rewrite lookup_swap; [|lia..]. by repeat case_decide; try lia.
Qed.

(** The edges but those around [i]; a child of [i] may move up to [i]. *)
Definition down_pre x l (n i : nat) : Prop :=
  (∀ c, 0 < c < n → parent c ≠ i → c ≠ i → edge x l c) ∧
  (∀ c, 0 < c < n → parent c = i → 0 < i → (x (l !!! parent i) <= x (l !!! c))%Z).

Lemma child_cases c i : 0 < c → parent c = i → c = 2 * i + 1 ∨ c = 2 * i + 2.
Proof. intros Hc <-. by apply parent_S. Qed.

Lemma parent_child i : parent (2 * i + 1) = i ∧ parent (2 * i + 2) = i.
Proof.
  unfold parent. replace (2 * i + 1 - 1) with (i * 2) by lia. replace (2 * i + 2 - 1) with (i * 2 + 1) by lia.
  rewrite Nat.div_mul // Nat.div_add_l //.
Qed.

(** The smaller child. *)
Lemma smaller_child x l (n i : nat) (lt : nat → nat → bool) :
  (∀ p q, lt p q = bool_decide (x (l !!! p) < x (l !!! q))%Z) → 2 * i + 1 < n →
  let j := if bool_decide (2 * i + 1 + 1 < n) && lt (2 * i + 1 + 1) (2 * i + 1) then 2 * i + 1 + 1 else 2 * i + 1 in
  i < j < n ∧ parent j = i ∧ ∀ c, 0 < c < n → parent c = i → (x (l !!! j) <= x (l !!! c))%Z.
Proof.
  intros Hlt Hn j. pose proof (parent_child i) as [Pa Pb]. replace (2 * i + 2) with (2 * i + 1 + 1) in Pb by lia.
  assert (∀ c, 0 < c < n → parent c = i → c = 2 * i + 1 ∨ c = 2 * i + 1 + 1) as Hc.
  { intros c Hc [->| ->]%child_cases; lia. }
  subst j. case_bool_decide; cbn [andb]; [rewrite Hlt; case_bool_decide|]; (split; [lia|]); (split; [done|]);
    intros c Hcn Hp; destruct (Hc c Hcn Hp) as [->| ->]; lia.
Qed.

Lemma down_loop_spec x fuel h n i :
  indexed h → n <= length (hp h) → i < n → n < fuel + i → down_pre x (hp h) n i →
  let '(h', i') := down_loop fuel x h i n in
  indexed h' ∧ dom (hi h') = dom (hi h) ∧ length (hp h') = length (hp h) ∧
  (∀ c, n <= c → hp h' !!! c = hp h !!! c) ∧
  ((i' = i ∧ h' = h ∧ ∀ c, 0 < c < n → c ≠ i → edge x (hp h) c) ∨ (i < i' ∧ heap_ordered x (hp h') n)).
Proof.
  revert h i. induction fuel as [|fuel IH]; intros h i Hx Hn Hi Hf [P1 P2]; [lia|]. cbn [down_loop].
  assert (∀ c, 0 < c < n → c ≠ i → parent c ≠ i → edge x (hp h) c) as P1' by auto.
  destruct (decide (n <= 2 * i + 1)) as [Hl|Hl].
  { split_and!; try done. left. split_and!; try done. intros c Hc Hne. apply P1; [done| |done].
    intros [->| ->]%child_cases; lia. }
  destruct (smaller_child x (hp h) n i (h_Less x h)) as (Hj & Hpj & Hmin); [done|lia|].
  set (j := if _ && _ then _ else _) in *. unfold h_Less. case_bool_decide as Hlt; cbn -[down_loop].
  2:{ split_and!; try done. left. split_and!; try done. intros c Hc Hne.
      destruct (decide (parent c = i)) as [Hp|Hp]; [|by apply P1']. unfold edge. rewrite Hp.
      specialize (Hmin c Hc Hp). lia. }
  destruct (swap_indexed h i j Hx) as [Hx' Hd']; [lia..|].
  assert (∀ c, swap (hp h) i j !!! c = if decide (c = i) then hp h !!! j else
    if decide (c = j) then hp h !!! i else hp h !!! c) as HS by (intros; apply lookup_swap; lia).
  assert (down_pre x (swap (hp h) i j) n j) as Hpre.
  { split.
    - intros c Hc Hp Hne. unfold edge. rewrite !HS. destruct (decide (c = i)) as [->|Hci].
      + pose proof (parent_lt i ltac:(lia)). rewrite (decide_False (P := parent i = i)); [|lia].
        rewrite decide_False; [|lia]. by apply P2; [lia| |lia].
      + rewrite (decide_False (P := c = j)) //. destruct (decide (parent c = i)) as [Hpc|Hpc]; [by apply Hmin|].
        rewrite decide_False //. by apply P1'.
    - intros c Hc Hp H0. rewrite Hpj !HS decide_True //. pose proof (parent_lt c ltac:(lia)).
      rewrite (decide_False (P := c = i)); [|lia]. rewrite (decide_False (P := c = j)); [|lia].
      rewrite -Hp. apply P1'; lia. }
  specialize (IH (h_Swap h i j) j Hx'). destruct (down_loop fuel x (h_Swap h i j) j n) as [h' i'].
  destruct IH as (I1 & I2 & I3 & I4 & I5); [cbn; rewrite length_swap; lia|lia|lia|done|].
  cbn in I3, I4, I5. rewrite length_swap in I3. split_and!; [done|congruence|done| |].
  - intros c Hc. rewrite I4 // HS. by repeat case_decide; try lia.
  - right. destruct I5 as [(-> & -> & I5)|[? I5]]; [|by split; [lia|]]. split; [lia|]. intros c Hc. cbn.
    destruct (decide (c = j)) as [->|Hcj]; [|by apply I5].
    unfold edge. rewrite Hpj !HS decide_True // (decide_False (P := j = i)); [|lia]. rewrite decide_True //. lia.
Qed.

(** ** The operations *)

(** [h'] holds the entries of [h], the first [n] of them in heap order. *)
Record sifted x (n : nat) h h' : Prop := Sifted {
  sf_ix : indexed h';
  sf_dom : dom (hi h') = dom (hi h);
  sf_len : length (hp h') = length (hp h);
  sf_ord : heap_ordered x (hp h') n;
  sf_tail : ∀ c, n <= c → hp h' !!! c = hp h !!! c
}.

(** [if !down(h, i, n) { up(h, i) }] *)
Definition sift x h (i n : nat) : expiryHeapBackend :=
  let '(h, moved) := down x h i n in if moved then h else up x h i.

Lemma sift_spec x h n i :
  indexed h → n <= length (hp h) → i < n → down_pre x (hp h) n i → sifted x n h (sift x h i n).
Proof.
  intros Hx Hn Hi Hp. unfold sift, down.
  pose proof (down_loop_spec x (S n) h n i Hx Hn Hi ltac:(lia) Hp) as Hd.
  destruct (down_loop (S n) x h i n) as [h' i']. destruct Hd as (D1 & D2 & D3 & D4 & D5).
  destruct D5 as [(-> & -> & D5)|[Hlt D5]].
  - rewrite bool_decide_false; [|lia]. unfold up.
    destruct (up_loop_spec x (S i) h n i Hx Hn Hi ltac:(lia)) as (U1 & U2 & U3 & U4 & U5); [|by constructor].
    split; [done|]. apply Hp.
  - rewrite bool_decide_true; [|lia]. by constructor.
Qed.

Lemma push_sifted x h a :
  indexed h → a ∉ dom (hi h) → heap_ordered x (hp h) (length (hp h)) →
  sifted x (S (length (hp h))) (h_Push h a) (heap_Push x h a).
Proof.
  intros [X1 X2] Ha Ho. unfold heap_Push, up. cbn. rewrite length_app /=.
  replace (length (hp h) + 1 - 1) with (length (hp h)) by lia. set (n := length (hp h)) in *.
  assert (hi h !! a = None) as Hna by by apply not_elem_of_dom.
  assert (∀ c, c < n → (hp h ++ [a]) !!! c = hp h !!! c) as Hl by (intros; by apply lookup_total_app_l).
  assert ((hp h ++ [a]) !!! n = a) as Hla by (unfold n; by rewrite list_lookup_total_middle).
  assert (indexed (h_Push h a)) as Hx.
  { constructor; cbn; rewrite length_app /=.
    - intros c Hc. destruct (decide (c = n)) as [->|]; [by rewrite Hla lookup_insert_eq|].
      rewrite Hl; [|lia]. rewrite lookup_insert_ne; [apply X1; fold n; lia|]. intros ->.
      rewrite X1 in Hna; [done|fold n; lia].
    - intros b c. rewrite lookup_insert_Some. fold n. intros [[<- <-]|[Hb Hc]]; [split; [lia|done]|].
      apply X2 in Hc as [Hc <-]. fold n in Hc. split; [lia|by apply Hl]. }
  destruct (up_loop_spec x (S n) (h_Push h a) (S n) n Hx) as (U1 & U2 & U3 & U4 & U5);
    [cbn; rewrite length_app /=; fold n; lia|lia..| |by constructor].
  split; cbn.
  - intros c Hc Hne. unfold edge. pose proof (parent_lt c ltac:(lia)). rewrite !Hl; [apply Ho; lia|lia..].
  - intros c Hc Hp H0. pose proof (parent_lt c ltac:(lia)). lia.
Qed.

Lemma pop_spec x h :
  indexed h → 0 < length (hp h) → heap_ordered x (hp h) (length (hp h) - 1) →
  let '(a, h') := h_Pop h in
  a = hp h !!! (length (hp h) - 1) ∧ indexed h' ∧ dom (hi h') = dom (hi h) ∖ {[a]} ∧
  length (hp h') = length (hp h) - 1 ∧ heap_ordered x (hp h') (length (hp h')).
Proof.
  intros Hx Hn Ho. pose proof Hx as [X1 X2]. unfold h_Pop. set (n := length (hp h)) in *. cbn.
  assert (length (take (n - 1) (hp h)) = n - 1) as Hlen by (rewrite length_take; fold n; lia).
  assert (∀ c, c < n - 1 → take (n - 1) (hp h) !!! c = hp h !!! c) as Hl by (intros; by apply lookup_total_take_lt).
  split_and!; [done| |by rewrite dom_delete_L|done|].
  - constructor; cbn; rewrite Hlen.
    + intros c Hc. rewrite Hl // lookup_delete_ne; [apply X1; fold n; lia|].
      intros He%indexed_inj; [lia|done|fold n; lia..].
    + intros b c. rewrite lookup_delete_Some. intros [Hb Hc]. apply X2 in Hc as [Hc <-]. fold n in Hc.
      assert (c ≠ n - 1) by by intros ->. rewrite Hl; [split; [lia|done]|lia].
  - intros c. rewrite Hlen. intros Hc. unfold edge. pose proof (parent_lt c ltac:(lia)).
    rewrite !Hl; [by apply Ho|lia..].
Qed.

(** Swapping the last entry to [i] breaks only the order around [i]. *)
Lemma swap_last_pre x h i :
  heap_ordered x (hp h) (length (hp h)) → i < length (hp h) - 1 →
  down_pre x (swap (hp h) i (length (hp h) - 1)) (length (hp h) - 1) i.
Proof.
  set (n := length (hp h) - 1). intros Ho Hi.
  assert (∀ c, c ≠ i → c < n → swap (hp h) i n !!! c = hp h !!! c) as HS.
  { intros c Hc Hcn. rewrite lookup_swap; [|lia..]. by repeat case_decide; try lia. }
  split.
  - intros c Hc Hp Hne. unfold edge. pose proof (parent_lt c ltac:(lia)). rewrite !HS; [apply Ho; lia|lia..].
  - intros c Hc <- H0. pose proof (parent_lt c ltac:(lia)). pose proof (parent_lt (parent c) H0).
    rewrite !HS; [|lia..]. pose proof (Ho c ltac:(lia)). pose proof (Ho (parent c) ltac:(lia)).
    unfold edge in *. lia.
Qed.

(** [a] is gone from [h], the rest is in order. *)
Definition popped x h a h' : Prop :=
  indexed h' ∧ dom (hi h') = dom (hi h) ∖ {[a]} ∧ length (hp h') = length (hp h) - 1 ∧
  heap_ordered x (hp h') (length (hp h')).

Lemma down_pre_ext x x' l n i :
  (∀ c, c < n → x' (l !!! c) = x (l !!! c)) → down_pre x l n i → i < n → down_pre x' l n i.
Proof.
  intros He [P1 P2] Hi. split.
  - intros c Hc Hp Hne. unfold edge. pose proof (parent_lt c ltac:(lia)). rewrite !He; [by apply P1|lia..].
  - intros c Hc Hp H0. pose proof (parent_lt i H0). rewrite !He; [by apply P2|lia..].
Qed.

(** [x'] is [x] but for the entry at [i], which may be out of place. *)
Definition off_by x x' h (i : nat) : Prop :=
  ∀ c, c < length (hp h) → c ≠ i → x' (hp h !!! c) = x (hp h !!! c).

Lemma remove_popped x x' h i :
  indexed h → heap_ordered x (hp h) (length (hp h)) → i < length (hp h) → off_by x x' h i →
  (heap_Remove x' h i).1 = hp h !!! i ∧ popped x' h (hp h !!! i) (heap_Remove x' h i).2.
Proof.
  intros Hx Ho Hi He. unfold heap_Remove, popped. case_decide as Hn.
  - pose proof (pop_spec x' h Hx ltac:(lia)) as Hp. destruct (h_Pop h) as [a h']. cbn.
    destruct Hp as (-> & P1 & P2 & P3 & P4); [|by rewrite -Hn; split_and!].
    intros c Hc. unfold edge. pose proof (parent_lt c ltac:(lia)). rewrite !He; [apply Ho; lia|lia..].
  - fold (sift x' (h_Swap h i (length (hp h) - 1)) i (length (hp h) - 1)).
    destruct (swap_indexed h i (length (hp h) - 1) Hx) as [S1 S2]; [lia..|].
    destruct (sift_spec x' (h_Swap h i (length (hp h) - 1)) (length (hp h) - 1) i S1) as [F1 F2 F3 F4 F5];
      [cbn; rewrite length_swap; lia|lia|apply (down_pre_ext x); [intros c Hc|by apply swap_last_pre; [|lia]|lia]|].
    { cbn. rewrite lookup_swap; [|lia..]. by repeat case_decide; apply He; lia. }
    set (h1 := sift _ _ _ _) in *. cbn in F3. rewrite length_swap in F3.
    pose proof (pop_spec x' h1 F1 ltac:(lia)) as Hp. destruct (h_Pop h1) as [a h']. cbn.
    assert (hp h1 !!! (length (hp h1) - 1) = hp h !!! i) as Hlast.
    { rewrite F3 F5 //. cbn. rewrite lookup_swap; [|lia..]. rewrite decide_False; [|lia]. by rewrite decide_True. }
    destruct Hp as (-> & P1 & P2 & P3 & P4); [by rewrite F3|]. rewrite Hlast in P2 |- *.
    split_and!; [done..|congruence|congruence|done].
Qed.

Lemma pop_popped x h :
  indexed h → heap_ordered x (hp h) (length (hp h)) → 0 < length (hp h) →
  (heap_Pop x h).1 = hp h !!! 0 ∧ popped x h (hp h !!! 0) (heap_Pop x h).2.
Proof.
  intros Hx Ho Hl. unfold heap_Pop, popped. set (n := length (hp h) - 1).
  destruct (swap_indexed h 0 n Hx) as [S1 S2]; [lia..|]. set (h0 := h_Swap h 0 n) in *.
  assert (length (hp h0) = length (hp h)) as Hl0 by (cbn; by rewrite length_swap).
  assert (∃ h1 b, down x h0 0 n = (h1, b) ∧ sifted x n h0 h1) as (h1 & b & -> & [F1 F2 F3 F4 F5]).
  { unfold down. destruct (decide (n = 0)) as [Hz|Hz].
    - rewrite Hz. cbn. eexists _, _. split; [done|]. constructor; try done. intros c Hc. lia.
    - pose proof (down_loop_spec x (S n) h0 n 0 S1 ltac:(lia) ltac:(lia) ltac:(lia)) as Hd.
      destruct (down_loop (S n) x h0 0 n) as [h' i'].
      destruct Hd as (D1 & D2 & D3 & D4 & D5); [by apply swap_last_pre; [|lia]|].
      eexists _, _. split; [done|]. constructor; try done.
      destruct D5 as [(_ & -> & D5)|[_ D5]]; [|done]. intros c Hc. apply D5; lia. }
  pose proof (pop_spec x h1 F1 ltac:(lia)) as Hp. destruct (h_Pop h1) as [a h']. cbn.
  assert (hp h1 !!! (length (hp h1) - 1) = hp h !!! 0) as Hlast.
  { rewrite F3 Hl0 F5 //. cbn. rewrite lookup_swap; [|lia..]. fold n. rewrite (decide_True (P := n = n)) //.
    case_decide as Hz; [by rewrite Hz|done]. }
  destruct Hp as (-> & P1 & P2 & P3 & P4); [by rewrite F3 Hl0|]. rewrite Hlast in P2 |- *.
  split_and!; [done..|rewrite P2 F2 S2 //|lia|done].
Qed.

(** ** The interface *)

Definition heap_rep x h (L D : gset loc) : Prop :=
  indexed h ∧ heap_ordered x (hp h) (length (hp h)) ∧ D = dom (hi h) ∧ D ⊆ L.

Lemma elem_of_heap h a : indexed h → a ∈ dom (hi h) ↔ ∃ i, i < length (hp h) ∧ hp h !!! i = a.
Proof.
  intros [X1 X2]. rewrite elem_of_dom. split.
  - intros [i Hi]. exists i. by apply X2.
  - intros (i & Hi & <-). rewrite X1 //.
Qed.

(** Order depends on the tracked entries only. *)
Lemma ordered_ext x x' h n :
  indexed h → n <= length (hp h) → (∀ a, a ∈ dom (hi h) → x' a = x a) →
  heap_ordered x (hp h) n → heap_ordered x' (hp h) n.
Proof.
  intros Hx Hn He Ho c Hc. unfold edge. pose proof (parent_lt c ltac:(lia)).
  rewrite !He; [by apply Ho|apply elem_of_heap; [done|]; eexists; split; [|done]; lia..].
Qed.

(** The root is the entry that expires first. *)
Lemma root_min x h i :
  heap_ordered x (hp h) (length (hp h)) → i < length (hp h) → (x (hp h !!! 0%nat) <= x (hp h !!! i))%Z.
Proof.
  intros Ho. induction (lt_wf i) as [i _ IH]. intros Hi. destruct (decide (i = 0)) as [->|Hz]; [done|].
  pose proof (parent_lt i ltac:(lia)). specialize (IH (parent i) ltac:(lia) ltac:(lia)).
  pose proof (Ho i ltac:(lia)). unfold edge in *. lia.
Qed.

Lemma size_heap h : indexed h → size (dom (hi h)) = length (hp h).
Proof.
  intros Hx. assert (NoDup (hp h)) as Hn.
  { apply NoDup_alt. intros i j a Hi Hj. pose proof (lookup_lt_Some _ _ _ Hi). pose proof (lookup_lt_Some _ _ _ Hj).
    apply list_lookup_total_correct in Hi, Hj. apply (indexed_inj h); [done..|congruence]. }
  rewrite -(size_list_to_set (C := gset loc) (hp h)) //. f_equal. apply set_eq. intros a.
  rewrite elem_of_heap // elem_of_list_to_set list_elem_of_lookup. split.
  - intros (i & Hi & <-). exists i. by apply list_lookup_lookup_total_lt.
  - intros (i & Hi). exists i. split; [by eapply lookup_lt_Some|by apply list_lookup_total_correct].
Qed.

Lemma push_rep x h L D a :
  heap_rep x h L D → a ∉ D → a ∈ L → heap_rep x (heap_Push x h a) L ({[a]} ∪ D).
Proof.
  intros (Hx & Ho & -> & Hs) Ha HL.
  destruct (push_sifted x h a Hx Ha Ho) as [F1 F2 F3 F4 _]. cbn in F2, F3. rewrite length_app /= in F3.
  split_and!; [done| |by rewrite F2 dom_insert_L|set_solver].
  by rewrite F3 Nat.add_1_r.
Qed.

Lemma rep_off_by x x' h L D a i :
  heap_rep x h L D → hi h !! a = Some i → (∀ b, b ∈ D → b ≠ a → x' b = x b) → off_by x x' h i.
Proof.
  intros (Hx & _ & -> & _) Hi He c Hc Hne. destruct (ix_back _ Hx _ _ Hi) as [Hl <-].
  apply He; [apply elem_of_heap; eauto|]. by intros ?%indexed_inj.
Qed.

Lemma remove_rep x x' h L D a i :
  heap_rep x h L D → hi h !! a = Some i → (∀ b, b ∈ D → b ≠ a → x' b = x b) →
  heap_rep x' (heap_Remove x' h i).2 L (D ∖ {[a]}).
Proof.
  intros Hr Hi He. pose proof (rep_off_by _ _ _ _ _ _ _ Hr Hi He) as Hoff.
  destruct Hr as (Hx & Ho & -> & Hs). destruct (ix_back _ Hx _ _ Hi) as [Hl <-].
  destruct (remove_popped x x' h i Hx Ho Hl Hoff) as [_ (P1 & P2 & P3 & P4)].
  split_and!; [done..|set_solver].
Qed.

(** Fixing an entry whose expiry changed. *)
Lemma fix_rep x x' h L D a i :
  heap_rep x h L D → hi h !! a = Some i → (∀ b, b ∈ D → b ≠ a → x' b = x b) →
  heap_rep x' (heap_Fix x' h i) L D.
Proof.
  intros Hr Hi He. pose proof (rep_off_by _ _ _ _ _ _ _ Hr Hi He) as Hc.
  destruct Hr as (Hx & Ho & -> & Hs). destruct (ix_back _ Hx _ _ Hi) as [Hl Ha].
  destruct (sift_spec x' h (length (hp h)) i Hx) as [F1 F2 F3 F4 _]; [lia|done| |].
  - split.
    + intros c Hcn Hp Hne. unfold edge. pose proof (parent_lt c ltac:(lia)).
      rewrite !Hc; [by apply Ho|lia|done|lia|done].
    + intros c Hcn <- H0. pose proof (parent_lt c ltac:(lia)). pose proof (parent_lt (parent c) H0).
      rewrite !Hc; [|lia..]. pose proof (Ho c Hcn). pose proof (Ho (parent c) ltac:(lia)). unfold edge in *. lia.
  - unfold heap_Fix. fold (sift x' h i (length (hp h))). split_and!; [done|by rewrite F3|done|done].
Qed.

Lemma sweep_loop_spec x fuel h L D now :
  heap_rep x h L D → length (hp h) <= fuel →
  let '(l, h') := sweep_loop fuel x h now in
  NoDup l ∧ (∀ a, a ∈ l ↔ a ∈ D ∧ (x a <= now)%Z) ∧ heap_rep x h' L (D ∖ list_to_set l) ∧
  StronglySorted (λ a b, x a <= x b)%Z l.
Proof.
  revert h D. induction fuel as [|fuel IH]; intros h D Hr Hf; pose proof Hr as (Hx & Ho & HD & Hs); cbn.
  { assert (hp h = []) as Hn by (destruct (hp h); [done|cbn in Hf; lia]).
    assert (D = ∅) as ->. { apply leibniz_equiv, size_empty_inv. rewrite HD size_heap // Hn //. }
    split_and!; [constructor|set_solver| |constructor]. cbn. by rewrite difference_empty_L. }
  case_bool_decide as Hl; cbn [andb].
  2:{ assert (hp h = []) as Hn by (destruct (hp h); [done|cbn in Hl; lia]).
      assert (D = ∅) as ->. { apply leibniz_equiv, size_empty_inv. rewrite HD size_heap // Hn //. }
      split_and!; [constructor|set_solver| |constructor]. cbn. by rewrite difference_empty_L. }
  assert (∀ a, a ∈ D → (x (hp h !!! 0%nat) <= x a)%Z) as Hmin.
  { intros a. rewrite HD elem_of_heap //. intros (i & Hi & <-). by apply root_min. }
  case_bool_decide as Hn.
  2:{ split_and!; [constructor| | |constructor].
      - intros a. split; [set_solver|]. intros [Ha%Hmin ?]. lia.
      - cbn. by rewrite difference_empty_L. }
  destruct (pop_popped x h Hx Ho Hl) as [Ha (P1 & P2 & P3 & P4)].
  destruct (heap_Pop x h) as [a h1]. cbn in Ha, P1, P2, P3, P4. subst a. set (a := hp h !!! 0%nat) in *.
  specialize (IH h1 (D ∖ {[a]})). destruct (sweep_loop fuel x h1 now) as [l h'].
  assert (a ∈ D) as HaD by (rewrite HD elem_of_heap //; eauto).
  destruct IH as (I1 & I2 & I3 & I4); [|lia|].
  { split_and!; [done|done|by rewrite P2 HD|set_solver]. }
  split_and!.
  - constructor; [|done]. rewrite I2. set_solver.
  - intros b. rewrite elem_of_cons I2 elem_of_difference elem_of_singleton. split; [naive_solver|].
    intros [Hb ?]. destruct (decide (b = a)); naive_solver.
  - cbn. by replace (D ∖ ({[a]} ∪ list_to_set l)) with (D ∖ {[a]} ∖ list_to_set l) by set_solver.
  - constructor; [done|]. apply Forall_forall. intros b Hb. apply Hmin. apply I2 in Hb. set_solver.
Qed.

Lemma foldl_delete (l : list loc) (m : gmap loc nat) a :
  foldl (λ m a, delete a m) m l !! a = if decide (a ∈ l) then None else m !! a.
Proof.
  revert m. induction l as [|b l IH]; intros m; cbn; [by case_decide; [set_solver|]|].
  rewrite IH. repeat case_decide; try set_solver.
  - assert (a = b) as -> by set_solver. by rewrite lookup_delete_eq.
  - rewrite lookup_delete_ne; [done|set_solver].
Qed.

#[export] Program Instance heap_laws : TtlLaws expiryHeapBackend := { ttl_rep := heap_rep }.
Next Obligation. by intros x t L D (_ & _ & _ & ?). Qed.
Next Obligation.
  intros x x' h L D (Hx & Ho & -> & Hs) He. split_and!; [done| |done|done]. by eapply ordered_ext.
Qed.
Next Obligation.
  intros x h L D a Hr Ha. pose proof Hr as (Hx & Ho & HD & Hs). cbn. unfold hb_Add.
  assert (a ∉ D) as HaD by set_solver. case_decide as Hz.
  - exists D. unfold retracked. split_and!; [|done|lia|set_solver].
    rewrite delete_id; [|apply not_elem_of_dom; set_solver]. destruct h. split_and!; [done..|set_solver].
  - exists ({[a]} ∪ D). unfold retracked. split_and!; [|set_solver|set_solver|done].
    apply push_rep; [|done|set_solver]. split_and!; [done..|set_solver].
Qed.
Next Obligation.
  intros x h L D a Hr Ha. pose proof Hr as (Hx & Ho & HD & Hs). cbn. unfold hb_Remove.
  destruct (hi h !! a) as [i|] eqn:Hi.
  - rewrite decide_False; [|apply (ix_back _ Hx) in Hi; lia].
    destruct (remove_rep x x h L D a i Hr Hi) as (R1 & R2 & R3 & R4); [done|]. split_and!; [done..|set_solver].
  - assert (a ∉ D) by (rewrite HD; by apply not_elem_of_dom).
    split_and!; [done|done|set_solver|set_solver].
Qed.
Next Obligation.
  intros x x' h L D a Hr Ha He. pose proof Hr as (Hx & Ho & HD & Hs). cbn. unfold hb_Fix.
  unfold retracked. destruct (hi h !! a) as [i|] eqn:Hi.
  - assert (a ∈ D) by (rewrite HD elem_of_dom; eauto). case_decide as Hz.
    + exists (D ∖ {[a]}). split_and!; [by eapply remove_rep|set_solver|lia|set_solver].
    + exists D. split_and!; [by eapply fix_rep|done..].
  - assert (a ∉ D) as Hn by (rewrite HD; by apply not_elem_of_dom).
    assert (heap_rep x' h L D) as Hr'.
    { split_and!; [done| |done|done]. apply (ordered_ext x); [done|done| |done]. rewrite -HD.
      intros b Hb. apply He; set_solver. }
    case_bool_decide; [|by exists D; split_and!; [done|done|lia|set_solver]].
    exists ({[a]} ∪ D). split_and!; [by apply push_rep|set_solver|set_solver|lia].
Qed.
Next Obligation.
  intros x h L D now Hr. cbn. unfold hb_Sweep.
  pose proof (sweep_loop_spec x _ h L D now Hr (le_n _)) as Hs. destruct (sweep_loop _ _ _ _) as [l h'].
  destruct Hs as (S1 & S2 & S3 & _). split_and!; [done| |done]. intros a [? ?]%S2. done.
Qed.
Next Obligation. intros x h L D (Hx & _ & -> & _). cbn. unfold hb_Len. by rewrite size_heap. Qed.
Next Obligation.
  intros x h L D a (Hx & Ho & HD & Hs) Ha. cbn. unfold hb_unindex.
  rewrite delete_id; [|apply not_elem_of_dom; set_solver]. by destruct h; split_and!.
Qed.
Next Obligation.
  intros x x' h L D l (Hx & Ho & HD & Hs). cbn.
  assert (hp (foldl hb_unindex h l) = hp h ∧ ∀ a i, hi (foldl hb_unindex h l) !! a = Some i → hi h !! a = Some i)
    as [E1 E2].
  { clear. revert h. induction l as [|b l IH]; intros h; cbn; [done|]. destruct (IH (hb_unindex h b)) as [E1 E2].
    split; [by rewrite E1|]. intros a i He%E2. cbn in He. by apply lookup_delete_Some in He as [_ ?]. }
  unfold hb_Reset. rewrite E1. set (m := foldl _ _ _). assert (m = ∅) as ->.
  { apply map_empty. intros a. subst m. rewrite foldl_delete. case_decide as Ha; [done|].
    destruct (hi (foldl hb_unindex h l) !! a) as [i|] eqn:Hi; [|done]. apply E2, (ix_back _ Hx) in Hi as [Hi <-].
    exfalso. apply Ha. apply list_elem_of_lookup. exists i. by apply list_lookup_lookup_total_lt. }
  split_and!; [|intros c Hc; cbn in Hc; lia|by rewrite dom_empty_L|done].
  constructor; cbn; [lia|]. intros a i. by rewrite lookup_empty.
Qed.

(** [Sweep] of the expiry heap returns exactly the tracked entries whose
    [expireAt] has passed, each once and in the order they expire, and keeps
    tracking all the others. *)
Theorem heap_sweep_exact x h L D now :
  heap_rep x h L D →
  let '(out, h') := hb_Sweep x h now in
  NoDup out ∧ (∀ a, a ∈ out ↔ a ∈ D ∧ (x a <= now)%Z) ∧
  StronglySorted (λ a b, x a <= x b)%Z out ∧ heap_rep x h' L (D ∖ list_to_set out).
Proof.
  intros Hr. unfold hb_Sweep. pose proof (sweep_loop_spec x _ h L D now Hr (le_n _)) as Hs.
  destruct (sweep_loop _ _ _ _) as [out h']. destruct Hs as (S1 & S2 & S3 & S4). by split_and!.
Qed.

(** Three entries, expiring at 30, 10 and 20. *)
Definition sample_times (a : loc) : Z := match a with 1%positive => 30 | 2%positive => 10 | _ => 20 end.

Definition sample_heap : expiryHeapBackend :=
  foldl (hb_Add sample_times) newExpiryHeapBackend [1; 2; 3]%positive.

Lemma empty_rep x : heap_rep x newExpiryHeapBackend ∅ ∅.
Proof.
  split_and!; [|intros c Hc; cbn in Hc; lia|done|done]. constructor; cbn; [lia|]. intros a i. by rewrite lookup_empty.
Qed.

Lemma sample_rep : heap_rep sample_times sample_heap {[1; 2; 3]}%positive {[1; 2; 3]}%positive.
Proof.
  assert (length (hp sample_heap) = 3) as Hlen by by vm_compute.
  assert (hi sample_heap = list_to_map [(1%positive, 1); (2%positive, 0); (3%positive, 2)]) as Hh by by vm_compute.
  split_and!; [constructor| |by vm_compute|done].
  - rewrite Hlen. intros i Hi. do 3 (destruct i as [|i]; [by vm_compute|]). lia.
  - rewrite Hlen. intros a i Hi. rewrite Hh in Hi. apply elem_of_list_to_map_2 in Hi.
    repeat (apply elem_of_cons in Hi as [[= -> ->]|Hi]; [by split; [lia|vm_compute]|]). by apply elem_of_nil in Hi.
  - rewrite Hlen. intros c Hc. unfold edge. destruct c as [|[|[|c]]]; [lia|by vm_compute..|lia].
Qed.

Lemma heap_sweep_exact_witness :
  (hb_Sweep sample_times sample_heap 20).1 = [2; 3]%positive ∧
  heap_rep sample_times (hb_Sweep sample_times sample_heap 20).2 {[1; 2; 3]}%positive {[1]}%positive.
Proof.
  split; [by vm_compute|].
  pose proof (heap_sweep_exact sample_times sample_heap _ _ 20 sample_rep) as Hs.
  assert ((hb_Sweep sample_times sample_heap 20).1 = [2; 3]%positive) as Ho by by vm_compute.
  destruct (hb_Sweep sample_times sample_heap 20) as [out h']. cbn in Ho |- *. subst out. destruct Hs as (_ & _ & _ & Hr).
  replace ({[1]} : gset loc)%positive with ({[1; 2; 3]} ∖ list_to_set [2; 3] : gset loc)%positive; [exact Hr|by vm_compute].
Defined.
