(* ===== verification/Wheel.v ===== *)
(** * Wheel: the timing-wheel TTL backend ([internal/wheel/wheel.go],
      [wheel_ttl.go])

    Entries with an expiry hang on the list of the slot their time falls
    into, with a count of the full turns still to go.  [AdvanceTo] moves the
    cursor tick by tick, or by whole turns at once, and returns what fell due.

    The file shows that after any number of ticks exactly the entries due by
    then have been returned, whether the cursor moved by whole turns or slot
    by slot ([advance_exact]), that an entry is never returned before its time
    and at most one tick late ([wheel_timely]), and that the backend
    satisfies [TtlLaws].

    The cursor time never passes the [now] handed to [AdvanceTo], so its sums
    do not overflow; [ExpireAtNs - cursorAtNs] can, and wraps here too. *)

From S2P Require Import Prelude Dll Ttl.

#[local] Open Scope Z_scope.

(** [Entry]; [next] and [prev] live in the links. *)
Record wentry := WEntry { Payload : loc; ExpireAtNs : Z; revolutions : Z; slot : Z }.

Record wheel := Wheel {
  w_links : links;
  w_ents : gmap loc wentry;
  w_slots : list (option loc);
  w_slotCount : Z;
  w_tickNs : Z;
  w_cursor : Z;
  w_cursorAtNs : Z;
  w_originNs : Z;
  w_total : Z;
  w_fresh : loc
}.

Implicit Types (w : wheel) (n x a : loc) (en : wentry).

Definition w_New (slotCount tickNs originNs : Z) : wheel :=
  let slotCount := if bool_decide (slotCount <= 0) then 1 else slotCount in
  let tickNs := if bool_decide (tickNs <= 0) then 1 else tickNs in
  Wheel no_links ∅ (replicate (Z.to_nat slotCount) None) slotCount tickNs 0 originNs originNs 0 1%positive.

Definition w_Len w : Z := w_total w.

Definition w_set w (L : links) (m : gmap loc wentry) (s : list (option loc)) (total : Z) : wheel :=
  Wheel L m s (w_slotCount w) (w_tickNs w) (w_cursor w) (w_cursorAtNs w) (w_originNs w) total (w_fresh w).

Definition w_move w (cursor cursorAt : Z) : wheel :=
  Wheel (w_links w) (w_ents w) (w_slots w) (w_slotCount w) (w_tickNs w) cursor cursorAt (w_originNs w) (w_total w) (w_fresh w).

(** [w.slots[i]]; the code indexes in range only. *)
Definition slotHead w (i : Z) : option loc := w_slots w !!! Z.to_nat i.

(** A new [Entry] with its zero fields. *)
Definition w_alloc w (payload : loc) (exp : Z) : loc * wheel :=
  let n := w_fresh w in
  (n, Wheel (set_prev (set_next (w_links w) n None) n None) (<[n := WEntry payload exp 0 0]> (w_ents w)) (w_slots w)
        (w_slotCount w) (w_tickNs w) (w_cursor w) (w_cursorAtNs w) (w_originNs w) (w_total w) (Pos.succ n)).

Definition linkHead w (i : Z) n : wheel :=
  let head := slotHead w i in
  let L := set_prev (w_links w) n None in
  let L := set_next L n head in
  let L := match head with Some h => set_prev L h (Some n) | None => L end in
  w_set w L (w_ents w) (<[Z.to_nat i := Some n]> (w_slots w)) (w_total w).

Definition w_unlink w n : wheel :=
  match w_ents w !! n with
  | None => w
  | Some en =>
      let L := w_links w in
      let '(L, slots) :=
        match l_prev L !! n with
        | Some p => (set_next L p (l_next L !! n), w_slots w)
        | None =>
            if bool_decide (0 <= slot en) && bool_decide (slot en < Z.of_nat (length (w_slots w))) &&
               bool_decide (slotHead w (slot en) = Some n)
            then (L, <[Z.to_nat (slot en) := l_next L !! n]> (w_slots w))
            else (L, w_slots w)
        end in
      let L := match l_next L !! n with Some y => set_prev L y (l_prev L !! n) | None => L end in
      let L := set_prev (set_next L n None) n None in
      w_set w L (<[n := WEntry (Payload en) (ExpireAtNs en) (revolutions en) (-1)]> (w_ents w)) slots (w_total w)
  end.

(** The ticks until an entry falls due. *)
Definition ticksAhead w (exp : Z) : Z :=
  let delta := i64 (exp - w_cursorAtNs w) in
  let ticks :=
    if bool_decide (0 < delta) then
      let t := delta `quot` w_tickNs w in
      if bool_decide (delta `rem` w_tickNs w ≠ 0) then t + 1 else t
    else 0 in
  if bool_decide (ticks < 1) then 1 else ticks.

Definition w_Add w n : wheel :=
  match w_ents w !! n with
  | None => w
  | Some en =>
      let ticks := ticksAhead w (ExpireAtNs en) in
      let revolutions := (ticks - 1) `quot` w_slotCount w in
      let slot := (w_cursor w + ticks `rem` w_slotCount w) `rem` w_slotCount w in
      let w := w_set w (w_links w) (<[n := WEntry (Payload en) (ExpireAtNs en) revolutions slot]> (w_ents w)) (w_slots w) (w_total w) in
      let w := linkHead w slot n in
      w_set w (w_links w) (w_ents w) (w_slots w) (w_total w + 1)
  end.

Definition w_Remove w n : wheel :=
  match w_ents w !! n with
  | None => w
  | Some en =>
      if bool_decide (slot en < 0) then w
      else let w := w_unlink w n in w_set w (w_links w) (w_ents w) (w_slots w) (w_total w - 1)
  end.

(** The walk over one list that [processSlot] and [decrementAllRevolutions]
    share: an entry whose count [dies] is unlinked and returned, another has
    [by] subtracted. *)
Fixpoint visit (dies : Z → bool) (dec : Z) (fuel : nat) w (e : option loc) : list loc * wheel :=
  match fuel, e with
  | S fuel, Some n =>
      let next := l_next (w_links w) !! n in
      match w_ents w !! n with
      | None => ([], w)
      | Some en =>
          if dies (revolutions en) then
            let w := w_unlink w n in
            let w := w_set w (w_links w) (w_ents w) (w_slots w) (w_total w - 1) in
            let '(expired, w) := visit dies dec fuel w next in (n :: expired, w)
          else
            let m := <[n := WEntry (Payload en) (ExpireAtNs en) (revolutions en - dec) (slot en)]> (w_ents w) in
            visit dies dec fuel (w_set w (w_links w) m (w_slots w) (w_total w)) next
      end
  | _, _ => ([], w)
  end.

(** A list is no longer than the entries are many. *)
Definition visitSlot (dies : Z → bool) (dec : Z) w (i : Z) : list loc * wheel :=
  visit dies dec (Z.to_nat (w_total w)) w (slotHead w i).

Definition processSlot w (i : Z) : list loc * wheel := visitSlot (λ r, bool_decide (r = 0)) 1 w i.

Definition decrementAllRevolutions w (k : Z) : list loc * wheel :=
  foldl (λ '(expired, w) (i : nat), let '(es, w) := visitSlot (λ r, negb (bool_decide (k <= r))) k w (Z.of_nat i) in (expired ++ es, w))
    ([], w) (seq 0 (length (w_slots w))).

Definition advanceSlots w (partial : nat) : list loc * wheel :=
  foldl (λ '(expired, w) (_ : nat),
      let w := w_move w ((w_cursor w + 1) `rem` w_slotCount w) (w_cursorAtNs w) in
      let '(es, w) := processSlot w (w_cursor w) in (expired ++ es, w))
    ([], w) (seq 0 partial).

Definition AdvanceTo w (nowNs : Z) : list loc * wheel :=
  if bool_decide (nowNs <= w_cursorAtNs w) then ([], w)
  else
    let stepsTotal := (nowNs - w_cursorAtNs w) `quot` w_tickNs w in
    if bool_decide (stepsTotal <= 0) then ([], w)
    else
      let fullRevs := stepsTotal `quot` w_slotCount w in
      let partial := stepsTotal `rem` w_slotCount w in
      let '(es, w) := if bool_decide (0 < fullRevs) then decrementAllRevolutions w fullRevs else ([], w) in
      let '(es', w) := advanceSlots w (Z.to_nat partial) in
      (es ++ es', w_move w (w_cursor w) (w_cursorAtNs w + stepsTotal * w_tickNs w)).

Definition w_Reset w : wheel :=
  Wheel (w_links w) (w_ents w) (replicate (length (w_slots w)) None) (w_slotCount w) (w_tickNs w) 0 (w_originNs w)
    (w_originNs w) 0 (w_fresh w).

(** ** [wheel_ttl.go] *)

(** The [wheelHandle] fields of the entries are a finite map. *)
Record wheelBackend := WheelB { wb : wheel; wh : gmap loc loc }.

Implicit Types (b : wheelBackend).

Definition newWheelBackend (slotCount slotTickNs originNs : Z) : wheelBackend :=
  WheelB (w_New slotCount slotTickNs originNs) ∅.

Definition wb_Add (t : loc → Z) b a : wheelBackend :=
  if bool_decide (t a = 0) then WheelB (wb b) (delete a (wh b))
  else
    let '(n, w) := w_alloc (wb b) a (t a) in
    WheelB (w_Add w n) (<[a := n]> (wh b)).

Definition wb_Remove (t : loc → Z) b a : wheelBackend :=
  match wh b !! a with
  | None => b
  | Some n => WheelB (w_Remove (wb b) n) (delete a (wh b))
  end.

Definition wb_Fix (t : loc → Z) b a : wheelBackend := wb_Add t (wb_Remove t b a) a.

Definition payloadOf w n : loc := match w_ents w !! n with Some en => Payload en | None => n end.

Definition wb_Sweep (t : loc → Z) b (now : Z) : list loc * wheelBackend :=
  let '(expired, w) := AdvanceTo (wb b) now in
  let out := payloadOf w <$> expired in
  (out, WheelB w (foldl (λ m a, delete a m) (wh b) out)).

Definition wb_Len b : Z := w_Len (wb b).

Definition wb_Reset b : wheelBackend := WheelB (w_Reset (wb b)) (wh b).

(** [entry.reset] leaves [wheelHandle] alone. *)
#[export] Instance wheel_backend : TtlBackend wheelBackend := {
  ttl_Add := wb_Add;
  ttl_Remove := wb_Remove;
  ttl_Fix := wb_Fix;
  ttl_Sweep := wb_Sweep;
  ttl_Len := wb_Len;
  ttl_Reset := wb_Reset;
  ttl_unindex b _ := b
}.

(** ** The lists of the wheel *)

(** The header of a list without a tail pointer. *)
Definition hq (h : option loc) (l : list loc) : dll := Dll h (last l) (Z.of_nat (length l)).

(** The slots hold the lists [vs]. *)
Record w_rep w (vs : list (list loc)) : Prop := WRep {
  wr_count : w_slotCount w = Z.of_nat (length vs);
  wr_slots : length (w_slots w) = length vs;
  wr_some : (0 < length vs)%nat;
  wr_list : ∀ i l, vs !! i = Some l → dll_rep (w_links w) (hq (w_slots w !!! i) l) l;
  wr_ent : ∀ i l x, vs !! i = Some l → x ∈ l → ∃ en, w_ents w !! x = Some en ∧ slot en = Z.of_nat i;
  wr_nodup : NoDup (concat vs);
  wr_total : w_total w = Z.of_nat (length (concat vs));
  wr_fresh : ∀ x, is_Some (w_ents w !! x) → (x < w_fresh w)%positive
}.

(** The settings and the clock. *)
Definition w_same w w' : Prop :=
  w_slotCount w' = w_slotCount w ∧ w_tickNs w' = w_tickNs w ∧ w_cursor w' = w_cursor w ∧
  w_cursorAtNs w' = w_cursorAtNs w ∧ w_originNs w' = w_originNs w ∧ w_fresh w' = w_fresh w.

Lemma w_same_trans w1 w2 w3 : w_same w1 w2 → w_same w2 w3 → w_same w1 w3.
Proof. intros (? & ? & ? & ? & ? & ?) (? & ? & ? & ? & ? & ?). split_and!; congruence. Qed.

Lemma hq_rep L q l : dll_rep L q l → dll_rep L (hq (d_head q) l) l.
Proof. intros [? ? ? ? ?]. by constructor. Qed.

(** Lists at different slots are apart. *)
Lemma wr_apart (vs : list (list loc)) i j l l' (x : loc) :
  NoDup (concat vs) → vs !! i = Some l → vs !! j = Some l' → x ∈ l → x ∈ l' → i = j.
Proof.
  revert i j. induction vs as [|v vs IH]; intros i j Hn; [done|]. cbn in Hn. apply NoDup_app in Hn as (_ & Hd & Hn).
  assert (∀ k l0, vs !! k = Some l0 → x ∈ l0 → x ∈ concat vs) as Hc.
  { intros k l0 Hk Hx. apply list_elem_of_In, in_concat. exists l0.
    split; apply list_elem_of_In; [by eapply list_elem_of_lookup_2|done]. }
  destruct i as [|i], j as [|j]; cbn; [done|..].
  - intros [= ->] Hj Hx Hx'. exfalso. eapply Hd; eauto.
  - intros Hi [= ->] Hx Hx'. exfalso. eapply Hd; eauto.
  - intros. f_equal. by eapply IH.
Qed.

Lemma elem_of_concat (vs : list (list loc)) x : x ∈ concat vs ↔ ∃ i l, vs !! i = Some l ∧ x ∈ l.
Proof.
  rewrite list_elem_of_In in_concat. split.
  - intros (l & Hl%list_elem_of_In & Hx%list_elem_of_In). apply list_elem_of_lookup_1 in Hl as [i Hi]. eauto.
  - intros (i & l & Hi & Hx). exists l. split; apply list_elem_of_In; [by eapply list_elem_of_lookup_2|done].
Qed.

Lemma lookup_mid {A} (v1 v2 : list A) l i m :
  (v1 ++ l :: v2) !! i = Some m ↔ i = length v1 ∧ m = l ∨ i ≠ length v1 ∧ ∀ l', (v1 ++ l' :: v2) !! i = Some m.
Proof.
  destruct (decide (i = length v1)) as [->|Hne].
  - rewrite lookup_app_r // Nat.sub_diag. cbn. naive_solver.
  - assert (∀ l', (v1 ++ l' :: v2) !! i = (v1 ++ l :: v2) !! i) as He.
    { intros l'. destruct (decide (i < length v1)%nat); [by rewrite !lookup_app_l|].
      rewrite !lookup_app_r; [|lia..]. by destruct (i - length v1)%nat eqn:E; [lia|]. }
    split; [intros Hm; right; split; [done|]; intros l'; by rewrite He|].
    intros [[? _]|[_ Hm]]; [done|]. apply Hm.
Qed.

(** One list of the wheel changes. *)
Lemma w_rep_at w w' v1 l l' v2 :
  w_rep w (v1 ++ l :: v2) → w_same w w' →
  dll_rep (w_links w') (hq (w_slots w' !!! length v1) l') l' →
  (∀ y, y ∉ l → y ∉ l' → same_at (w_links w) (w_links w') y) →
  length (w_slots w') = length (w_slots w) →
  (∀ i, i ≠ length v1 → w_slots w' !!! i = w_slots w !!! i) →
  (∀ x, x ∈ l' → ∃ en, w_ents w' !! x = Some en ∧ slot en = Z.of_nat (length v1)) →
  (∀ x, x ∉ l → x ∉ l' → w_ents w' !! x = w_ents w !! x) →
  NoDup (concat (v1 ++ l' :: v2)) → w_total w' = Z.of_nat (length (concat (v1 ++ l' :: v2))) →
  (∀ x, is_Some (w_ents w' !! x) → is_Some (w_ents w !! x)) →
  w_rep w' (v1 ++ l' :: v2).
Proof.
  intros [R1 R2 R3 R4 R5 R6 R7 R8] (S1 & S2 & S3 & S4 & S5 & S6) Hl Hs Hlen Hhd He Heo Hn Ht Hf.
  assert (length (v1 ++ l' :: v2) = length (v1 ++ l :: v2)) as Hlen' by (rewrite !length_app //).
  assert (∀ i m x, i ≠ length v1 → (∀ l0, (v1 ++ l0 :: v2) !! i = Some m) → x ∈ m → x ∉ l ∧ x ∉ l') as Hout.
  { intros i m x Hi Hm Hx. split; intros Hx'.
    - apply Hi. eapply (wr_apart (v1 ++ l :: v2)); [done|apply Hm|by apply list_lookup_middle|done|done].
    - apply Hi. eapply (wr_apart (v1 ++ l' :: v2)); [done|apply Hm|by apply list_lookup_middle|done|done]. }
  constructor; [congruence|congruence|by rewrite Hlen'| | |done|done|intros x Hx; rewrite S6; auto].
  - intros i m [[-> ->]|[Hi Hm]]%lookup_mid; [done|]. rewrite Hhd //.
    eapply rep_frame; [|by apply R4]. intros x Hx. destruct (Hout i m x Hi Hm Hx). by apply Hs.
  - intros i m x [[-> ->]|[Hi Hm]]%lookup_mid Hx; [by apply He|]. destruct (Hout i m x Hi Hm Hx).
    rewrite Heo //. by eapply R5.
Qed.

Definition unlinked en : wentry := WEntry (Payload en) (ExpireAtNs en) (revolutions en) (-1).

Lemma w_unlink_rep w v1 l v2 x en :
  w_rep w (v1 ++ l :: v2) → x ∈ l → w_ents w !! x = Some en →
  let w' := w_unlink w x in
  let w' := w_set w' (w_links w') (w_ents w') (w_slots w') (w_total w' - 1) in
  w_rep w' (v1 ++ without x l :: v2) ∧ w_same w w' ∧ w_ents w' = <[x := unlinked en]> (w_ents w).
Proof.
  intros HR Hx Hen. pose proof (wr_list _ _ HR (length v1) l (list_lookup_middle _ _ _ _ eq_refl)) as HL.
  destruct (wr_ent _ _ HR (length v1) l x (list_lookup_middle _ _ _ _ eq_refl) Hx) as (en' & Hen' & Hsl).
  rewrite Hen in Hen'. injection Hen' as <-.
  assert ((length v1 < length (w_slots w))%nat) as Hlt by (rewrite (wr_slots _ _ HR) length_app /=; lia).
  cbv zeta. match goal with |- w_rep ?W _ ∧ _ => set (w' := W) end.
  assert (w_links w' = (dll_unlink (w_links w) (hq (w_slots w !!! length v1) l) x).1 ∧
    w_slots w' = <[length v1 := d_head (dll_unlink (w_links w) (hq (w_slots w !!! length v1) l) x).2]> (w_slots w) ∧
    w_ents w' = <[x := unlinked en]> (w_ents w) ∧ w_total w' = w_total w - 1 ∧ w_same w w') as (EL & ES & EE & ET & Esame).
  { unfold w', w_unlink. rewrite Hen. unfold dll_unlink. cbn [d_head hq].
    assert (<[length v1 := w_slots w !!! length v1]> (w_slots w) = w_slots w) as Hid.
    { apply list_insert_id. rewrite list_lookup_lookup_total_lt //. }
    destruct (l_prev (w_links w) !! x) as [p|] eqn:Hp.
    - destruct (l_next _ !! x) as [y|] eqn:Hnx; cbn -[Z.of_nat]; rewrite ?Hnx; cbn -[Z.of_nat]; rewrite Hid; by split_and!.
    - assert (w_slots w !!! length v1 = Some x) as Hh.
      { pose proof (rep_head _ _ _ HL) as Hh. cbn in Hh. rewrite Hh. destruct (list_elem_of_split _ _ Hx) as (l1 & l2 & ->).
        destruct (rep_node _ _ _ _ _ HL) as [Hp' _]. rewrite Hp' in Hp. apply last_None in Hp. by subst l1. }
      unfold slotHead. rewrite Hsl Nat2Z.id. rewrite (bool_decide_true (0 <= _)); [|lia].
      rewrite (bool_decide_true (Z.of_nat (length v1) < _)); [|lia]. rewrite bool_decide_true // decide_True //. cbn [andb].
      destruct (l_next _ !! x) as [y|] eqn:Hnx; cbn -[Z.of_nat]; rewrite ?Hnx ?Nat2Z.id; by split_and!. }
  pose proof (unlink_rep _ _ _ _ HL Hx) as HU. destruct (dll_unlink _ _ x) as [L' q'] eqn:Eu. cbn in EL, ES.
  destruct HU as (U1 & U2 & U3). split_and!; [|done|done].
  assert (concat (v1 ++ l :: v2) ≡ₚ x :: concat (v1 ++ without x l :: v2)) as Hperm.
  { rewrite !concat_app. cbn. destruct (list_elem_of_split _ _ Hx) as (l1 & l2 & ->).
    rewrite (without_split x l1 l2); [|exact (rep_nodup _ _ _ HL)]. solve_Permutation. }
  assert (NoDup (x :: concat (v1 ++ without x l :: v2))) as Hnd by (rewrite -Hperm; apply HR).
  eapply w_rep_at; [exact HR|done|..].
  - rewrite EL ES list_lookup_total_insert_eq //. by apply hq_rep.
  - intros y Hy _. rewrite EL. by apply U3.
  - by rewrite ES length_insert.
  - intros i Hi. rewrite ES list_lookup_total_insert_ne //.
  - intros y [Hyx Hy]%elem_of_without. rewrite EE lookup_insert_ne //.
    by eapply (wr_ent _ _ HR (length v1)); [by apply list_lookup_middle|].
  - intros y Hy _. rewrite EE lookup_insert_ne //. by intros ->.
  - by apply NoDup_cons in Hnd as [_ ?].
  - rewrite ET (wr_total _ _ HR) Hperm. cbn. lia.
  - intros y. rewrite EE. destruct (decide (y = x)) as [->|]; [by rewrite Hen|by rewrite lookup_insert_ne].
Qed.

(** ** Walks *)

Section walk.
Context (dies : Z → bool) (dec : Z).

Definition visited en : wentry :=
  if dies (revolutions en) then unlinked en
  else WEntry (Payload en) (ExpireAtNs en) (revolutions en - dec) (slot en).

Definition doomed w x : bool := match w_ents w !! x with Some en => dies (revolutions en) | None => true end.

Definition dead w (l : list loc) : list loc := filter (λ x, doomed w x = true) l.
Definition alive w (l : list loc) : list loc := filter (λ x, doomed w x = false) l.

(** The entries of [xs] were visited. *)
Definition ents_visited w w' (xs : list loc) : Prop :=
  (∀ x, x ∈ xs → w_ents w' !! x = visited <$> (w_ents w !! x)) ∧ (∀ x, x ∉ xs → w_ents w' !! x = w_ents w !! x).

Lemma ents_visited_nil w : ents_visited w w [].
Proof. split; [by intros x ?%elem_of_nil|done]. Qed.

(** One entry, then the others. *)
Lemma ents_visited_cons w w1 w' n en l :
  n ∉ l → w_ents w !! n = Some en → w_ents w1 = <[n := visited en]> (w_ents w) →
  ents_visited w1 w' l → ents_visited w w' (n :: l).
Proof.
  intros Hn Hen He [V1 V2]. split; intros x.
  - intros [->|Hx]%elem_of_cons; [by rewrite V2 // He lookup_insert_eq Hen|].
    rewrite V1 // He lookup_insert_ne //. by intros ->.
  - intros [Hne Hx]%not_elem_of_cons. rewrite V2 // He lookup_insert_ne //.
Qed.

Lemma dead_ext w w' l : (∀ x, x ∈ l → w_ents w' !! x = w_ents w !! x) → dead w' l = dead w l ∧ alive w' l = alive w l.
Proof.
  unfold dead, alive. induction l as [|x l IH]; intros He; [done|].
  destruct IH as [IH1 IH2]; [intros y Hy; apply He; by right|].
  assert (doomed w' x = doomed w x) as Hx by (unfold doomed; rewrite He //; by left).
  rewrite !filter_cons Hx IH1 IH2. done.
Qed.

Lemma w_rep_ents w v1 l v2 m x en :
  w_rep w (v1 ++ l :: v2) → x ∈ l → m = <[x := en]> (w_ents w) → slot en = Z.of_nat (length v1) →
  w_rep (w_set w (w_links w) m (w_slots w) (w_total w)) (v1 ++ l :: v2).
Proof.
  intros HR Hx -> Hs. pose proof HR as [R1 R2 R3 R4 R5 R6 R7 R8].
  destruct (R5 (length v1) l x (list_lookup_middle _ _ _ _ eq_refl) Hx) as (en0 & Hen0 & _).
  constructor; cbn; [done..| |done|done|].
  - intros i l' y Hi Hy. destruct (decide (y = x)) as [->|Hne]; [|rewrite lookup_insert_ne //; by eapply R5].
    rewrite lookup_insert_eq. exists en. split; [done|]. rewrite Hs. f_equal.
    eapply (wr_apart (v1 ++ l :: v2)); [done|by apply list_lookup_middle|done|done|done].
  - intros y Hy. apply R8. destruct (decide (y = x)) as [->|Hne]; [by rewrite Hen0|by rewrite lookup_insert_ne in Hy].
Qed.

Lemma visit_ok fuel w v1 l1 l2 v2 :
  w_rep w (v1 ++ (l1 ++ l2) :: v2) → (length l2 <= fuel)%nat →
  let '(es, w') := visit dies dec fuel w (head l2) in
  es = dead w l2 ∧ w_rep w' (v1 ++ (l1 ++ alive w l2) :: v2) ∧ w_same w w' ∧ ents_visited w w' l2.
Proof.
  revert w l1 l2. induction fuel as [|fuel IH]; intros w l1 l2 HR Hl.
  { destruct l2; [|cbn in Hl; lia]. split_and!; [done|done|by split_and!|apply ents_visited_nil]. }
  destruct l2 as [|n l2]; cbn [head hd_error visit].
  { split_and!; [done|done|by split_and!|apply ents_visited_nil]. }
  pose proof (wr_list _ _ HR (length v1) _ (list_lookup_middle _ _ _ _ eq_refl)) as HL.
  destruct (rep_node _ _ _ _ _ HL) as [_ ->].
  assert (n ∈ l1 ++ n :: l2) as Hn by set_solver.
  destruct (wr_ent _ _ HR (length v1) _ n (list_lookup_middle _ _ _ _ eq_refl) Hn) as (en & Hen & Hsl). rewrite Hen.
  pose proof (rep_nodup _ _ _ HL) as Hnd. assert (n ∉ l2) as Hnl by (by apply NoDup_app in Hnd as (_ & _ & [? _]%NoDup_cons)).
  destruct (dies (revolutions en)) eqn:Hd.
  - destruct (w_unlink_rep w v1 _ v2 n en HR Hn Hen) as (HR' & Hs' & He'). cbv zeta in *.
    set (w1 := w_set (w_unlink w n) _ _ _ _) in *. rewrite without_split // in HR'. specialize (IH w1 l1 l2 HR' ltac:(cbn in Hl; lia)).
    destruct (visit dies dec fuel w1 (head l2)) as [es w'].
    destruct IH as (-> & I2 & I3 & I4).
    destruct (dead_ext w w1 l2) as [-> Ea]; [intros x Hx; rewrite He' lookup_insert_ne //; by intros ->|]. rewrite Ea in I2.
    assert (doomed w n = true) as Hdn by by rewrite /doomed Hen.
    split_and!.
    + by rewrite /dead filter_cons_True.
    + rewrite /alive filter_cons_False //. congruence.
    + by eapply w_same_trans.
    + eapply (ents_visited_cons w w1); [exact Hnl|exact Hen|by rewrite He' /visited Hd|exact I4].
  - set (m := <[n := _]> (w_ents w)). set (w1 := w_set w (w_links w) m (w_slots w) (w_total w)).
    assert (w_rep w1 (v1 ++ ((l1 ++ [n]) ++ l2) :: v2)) as HR'.
    { rewrite -app_assoc. by eapply w_rep_ents; [exact HR|exact Hn|done|]. }
    specialize (IH w1 (l1 ++ [n]) l2 HR' ltac:(cbn in Hl; lia)).
    destruct (visit dies dec fuel w1 (head l2)) as [es w'].
    destruct IH as (-> & I2 & I3 & I4).
    destruct (dead_ext w w1 l2) as [-> Ea]; [intros x Hx; cbn; unfold m; rewrite lookup_insert_ne //; by intros ->|]. rewrite Ea in I2.
    assert (doomed w n = false) as Hdn by by rewrite /doomed Hen.
    split_and!.
    + rewrite /dead filter_cons_False //. congruence.
    + rewrite /alive filter_cons_True //. by rewrite -app_assoc in I2.
    + done.
    + eapply (ents_visited_cons w w1); [exact Hnl|exact Hen|by rewrite /visited Hd|exact I4].
Qed.

Lemma visitSlot_ok w v1 l v2 :
  w_rep w (v1 ++ l :: v2) →
  let '(es, w') := visitSlot dies dec w (Z.of_nat (length v1)) in
  es = dead w l ∧ w_rep w' (v1 ++ alive w l :: v2) ∧ w_same w w' ∧ ents_visited w w' l.
Proof.
  intros HR. unfold visitSlot, slotHead. rewrite Nat2Z.id.
  pose proof (wr_list _ _ HR (length v1) _ (list_lookup_middle _ _ _ _ eq_refl)) as HL.
  pose proof (rep_head _ _ _ HL) as Hh. cbn in Hh. rewrite Hh. apply (visit_ok _ w v1 [] l v2); [done|].
  rewrite (wr_total _ _ HR) concat_app length_app. cbn. rewrite length_app. lia.
Qed.

(** All slots in turn. *)
Lemma visitAll_ok w v1 v2 acc :
  w_rep w (v1 ++ v2) →
  let '(es, w') := foldl (λ '(expired, w) (i : nat), let '(es, w) := visitSlot dies dec w (Z.of_nat i) in (expired ++ es, w))
    (acc, w) (seq (length v1) (length v2)) in
  es = acc ++ concat (dead w <$> v2) ∧ w_rep w' (v1 ++ (alive w <$> v2)) ∧ w_same w w' ∧ ents_visited w w' (concat v2).
Proof.
  revert w v1 acc. induction v2 as [|l v2 IH]; intros w v1 acc HR; cbn [seq length foldl].
  { cbn. rewrite app_nil_r. split_and!; [done|done|by split_and!|apply ents_visited_nil]. }
  pose proof (visitSlot_ok w v1 l v2 HR) as Hv. destruct (visitSlot dies dec w _) as [es w1].
  destruct Hv as (-> & H1 & H2 & H3). rewrite (cons_middle _ v1 v2) app_assoc in H1.
  specialize (IH w1 (v1 ++ [alive w l]) (acc ++ dead w l) H1). rewrite length_app Nat.add_1_r in IH.
  destruct (foldl _ _ _) as [es w']. destruct IH as (-> & I2 & I3 & I4).
  pose proof (wr_nodup _ _ HR) as Hn. rewrite concat_app in Hn. apply NoDup_app in Hn as (_ & _ & Hn).
  cbn in Hn. apply NoDup_app in Hn as (_ & Hn & _).
  assert (∀ x, x ∈ concat v2 → w_ents w1 !! x = w_ents w !! x) as Hsame.
  { intros x Hx. apply H3. intros Hxl. by apply (Hn x). }
  assert (∀ l', l' ∈ v2 → dead w1 l' = dead w l' ∧ alive w1 l' = alive w l') as Hext.
  { intros l' Hl'. apply dead_ext. intros x Hx. apply Hsame, elem_of_concat. apply list_elem_of_lookup_1 in Hl' as [i Hi]. eauto. }
  assert (dead w1 <$> v2 = dead w <$> v2 ∧ alive w1 <$> v2 = alive w <$> v2) as [Ed Ea].
  { split; apply list_fmap_ext; intros i l' Hl'%list_elem_of_lookup_2; by apply Hext. }
  rewrite Ed. rewrite Ea in I2. split_and!.
  - cbn. by rewrite app_assoc.
  - cbn. by rewrite -app_assoc in I2.
  - by eapply w_same_trans.
  - destruct H3 as [V1 V2], I4 as [W1 W2]. split; intros x; cbn; rewrite elem_of_app.
    + destruct (decide (x ∈ concat v2)) as [Hx|Hx]; [by rewrite W1 // Hsame|]. intros [Hl|?]; [|done]. rewrite W2 // V1 //.
    + intros Hx. rewrite W2; [|tauto]. apply V2. tauto.
Qed.
End walk.

(** ** Ticks *)

(** The ticks until the cursor reaches an entry with no turns to go. *)
Definition remaining w en : Z :=
  revolutions en * w_slotCount w + (slot en - w_cursor w - 1) `mod` w_slotCount w + 1.

Definition rem_at w x : Z := match w_ents w !! x with Some en => remaining w en | None => 0 end.

Record w_inv w (vs : list (list loc)) : Prop := WInv {
  wi_rep : w_rep w vs;
  wi_cursor : 0 <= w_cursor w < w_slotCount w;
  wi_tick : 0 < w_tickNs w;
  wi_rev : ∀ x en, x ∈ concat vs → w_ents w !! x = Some en → 0 <= revolutions en
}.

(** The fields that never change. *)
Definition what en : loc * Z := (Payload en, ExpireAtNs en).

(** [s] ticks later: [es] fell due, and the others are [s] ticks closer. *)
Record advanced (s : Z) w vs (es : list loc) w' vs' : Prop := Advanced {
  ad_inv : w_inv w' vs';
  ad_conf : w_slotCount w' = w_slotCount w ∧ w_tickNs w' = w_tickNs w ∧ w_cursorAtNs w' = w_cursorAtNs w ∧
            w_originNs w' = w_originNs w ∧ w_fresh w' = w_fresh w;
  ad_nodup : NoDup es;
  ad_out : ∀ x, x ∈ es ↔ x ∈ concat vs ∧ rem_at w x <= s;
  ad_left : ∀ x, x ∈ concat vs' ↔ x ∈ concat vs ∧ s < rem_at w x;
  ad_rem : ∀ x, x ∈ concat vs' → rem_at w' x = rem_at w x - s;
  ad_what : ∀ x, what <$> (w_ents w' !! x) = what <$> (w_ents w !! x)
}.

Lemma wr_on w vs x :
  w_rep w vs → x ∈ concat vs →
  ∃ i l en, vs !! i = Some l ∧ x ∈ l ∧ w_ents w !! x = Some en ∧ slot en = Z.of_nat i ∧ 0 <= slot en < w_slotCount w.
Proof.
  intros HR (i & l & Hi & Hx)%elem_of_concat. destruct (wr_ent _ _ HR i l x Hi Hx) as (en & He & Hs).
  exists i, l, en. split_and!; [done..|lia|]. rewrite (wr_count _ _ HR) Hs. apply lookup_lt_Some in Hi. lia.
Qed.

Lemma rem_pos w vs x : w_inv w vs → x ∈ concat vs → 1 <= rem_at w x.
Proof.
  intros [HR Hc _ Hr] Hx. destruct (wr_on w vs x HR Hx) as (i & l & en & _ & _ & He & _ & _). unfold rem_at, remaining. rewrite He.
  specialize (Hr x en Hx He). pose proof (Z.mod_pos_bound (slot en - w_cursor w - 1) (w_slotCount w) ltac:(lia)). nia.
Qed.

Lemma advanced_0 w vs : w_inv w vs → advanced 0 w vs [] w vs.
Proof.
  intros HI. constructor; [done|by split_and!|by apply NoDup_nil| | |intros; lia|done].
  - intros x. rewrite elem_of_nil. split; [done|]. intros [Hx ?]. pose proof (rem_pos w vs x HI Hx). lia.
  - intros x. split; [|by intros []]. intros Hx. pose proof (rem_pos w vs x HI Hx). split; [done|lia].
Qed.

Lemma advanced_app s1 s2 w vs es1 w1 vs1 es2 w2 vs2 :
  0 <= s1 → 0 <= s2 → advanced s1 w vs es1 w1 vs1 → advanced s2 w1 vs1 es2 w2 vs2 →
  advanced (s1 + s2) w vs (es1 ++ es2) w2 vs2.
Proof.
  intros P1 P2 [A1 A2 A3 A4 A5 A6 A7] [B1 B2 B3 B4 B5 B6 B7].
  assert (∀ x, x ∈ es2 ↔ x ∈ concat vs ∧ s1 < rem_at w x <= s1 + s2) as Hes2.
  { intros x. rewrite B4. split.
    - intros [Hx Hr]. rewrite A6 // in Hr. apply A5 in Hx as [? ?]. split; [done|lia].
    - intros [Hx Hr]. assert (x ∈ concat vs1) as Hx1 by (apply A5; split; [done|lia]). split; [done|]. rewrite A6 //. lia. }
  constructor; [done| | | | | |intros x; by rewrite B7].
  - destruct A2 as (? & ? & ? & ? & ?), B2 as (? & ? & ? & ? & ?). split_and!; congruence.
  - apply NoDup_app. split_and!; [done| |done]. intros x [_ ?]%A4 [_ ?]%Hes2. lia.
  - intros x. rewrite elem_of_app A4 Hes2. split; [intros [[? ?]|[? ?]]; (split; [done|lia])|].
    intros [? ?]. destruct (decide (rem_at w x <= s1)); [by left|right; split; [done|lia]].
  - intros x. rewrite B5. split.
    + intros [Hx Hr]. rewrite A6 // in Hr. apply A5 in Hx as [? ?]. split; [done|lia].
    + intros [Hx Hr]. assert (x ∈ concat vs1) as Hx1 by (apply A5; split; [done|lia]). split; [done|]. rewrite A6 //. lia.
  - intros x Hx. rewrite B6 //. apply B5 in Hx as [Hx _]. rewrite A6 //. lia.
Qed.

Lemma filter_concat (f : loc → Prop) `{∀ x, Decision (f x)} (vs : list (list loc)) :
  concat (filter f <$> vs) = filter f (concat vs).
Proof. induction vs as [|v vs IH]; [done|]. cbn. by rewrite IH filter_app. Qed.

(** The distance from the cursor, and one tick later. *)
Lemma gap_eq (n c i : Z) : 0 <= c < n → 0 <= i < n →
  (i - c - 1) `mod` n = if bool_decide (i <= c) then i - c - 1 + n else i - c - 1.
Proof.
  intros Hc Hi. case_bool_decide; [|by rewrite Z.mod_small; lia].
  symmetry. apply (Z.mod_unique_pos _ _ (-1)); lia.
Qed.

Lemma next_slot (n c : Z) : 0 <= c < n → (c + 1) `rem` n = if bool_decide (c + 1 = n) then 0 else c + 1.
Proof.
  intros Hc. rewrite Z.rem_mod_nonneg; [|lia..]. case_bool_decide as E; [rewrite E Z.mod_same //; lia|]. apply Z.mod_small. lia.
Qed.

(** The entries [xs] of the wheel were visited. *)
Record walked (dies : Z → bool) (dec : Z) w vs (xs es : list loc) w' vs' : Prop := Walked {
  wk_rep : w_rep w' vs';
  wk_same : w_same w w';
  wk_ents : ents_visited dies dec w w' xs;
  wk_nodup : NoDup es;
  wk_out : ∀ x, x ∈ es ↔ x ∈ concat vs ∧ x ∈ xs ∧ doomed dies w x = true;
  wk_left : ∀ x, x ∈ concat vs' ↔ x ∈ concat vs ∧ (x ∈ xs → doomed dies w x = false)
}.

Lemma visitSlot_walked dies dec w vs i l :
  w_rep w vs → vs !! i = Some l →
  let '(es, w') := visitSlot dies dec w (Z.of_nat i) in ∃ vs', walked dies dec w vs l es w' vs'.
Proof.
  intros HR Hi. apply list_elem_of_split_length in Hi as (v1 & v2 & -> & ->).
  pose proof (visitSlot_ok dies dec w v1 l v2 HR) as Hv. destruct (visitSlot _ _ _ _) as [es w'].
  destruct Hv as (-> & HR' & Hs & Hv). exists (v1 ++ alive dies w l :: v2).
  pose proof (wr_nodup _ _ HR) as Hnd. rewrite concat_app in Hnd. cbn in Hnd. apply NoDup_app in Hnd as (_ & N1 & N2).
  apply NoDup_app in N2 as (N3 & N2 & _). constructor; [done..| | |].
  - by apply NoDup_filter.
  - intros x. unfold dead. rewrite list_elem_of_filter concat_app /= !elem_of_app. tauto.
  - intros x. rewrite !concat_app /= !elem_of_app. unfold alive. rewrite list_elem_of_filter.
    specialize (N1 x). specialize (N2 x). rewrite !elem_of_app in N1. tauto.
Qed.

Lemma visitAll_walked dies dec w vs :
  w_rep w vs →
  let '(es, w') := foldl (λ '(expired, w) (i : nat), let '(es, w) := visitSlot dies dec w (Z.of_nat i) in (expired ++ es, w))
    ([], w) (seq 0 (length vs)) in
  ∃ vs', walked dies dec w vs (concat vs) es w' vs'.
Proof.
  intros HR. pose proof (visitAll_ok dies dec w [] vs [] HR) as Hv. cbn [length] in Hv.
  destruct (foldl _ _ _) as [es w']. destruct Hv as (-> & HR' & Hs & Hv). exists (alive dies w <$> vs).
  unfold dead, alive in *. cbn [app]. rewrite !filter_concat. constructor; [done..| | |].
  - apply NoDup_filter, HR.
  - intros x. rewrite list_elem_of_filter. tauto.
  - intros x. rewrite filter_concat list_elem_of_filter. tauto.
Qed.

(** What a walk has to do to every entry of the wheel to be [s] ticks. *)
Definition turns (dies : Z → bool) (dec s : Z) w (c' : Z) (inxs : Prop) en : Prop :=
  let n := w_slotCount w in
  (inxs ∧ dies (revolutions en) = true ↔ remaining w en <= s) ∧
  (inxs → dies (revolutions en) = false →
     0 <= revolutions en - dec ∧ (revolutions en - dec) * n + (slot en - c' - 1) `mod` n + 1 = remaining w en - s) ∧
  (¬ inxs → revolutions en * n + (slot en - c' - 1) `mod` n + 1 = remaining w en - s).

Lemma walked_advanced dies dec s w vs c' xs es w' vs' :
  w_inv w vs → 0 <= c' < w_slotCount w → walked dies dec (w_move w c' (w_cursorAtNs w)) vs xs es w' vs' →
  (∀ x en, x ∈ concat vs → w_ents w !! x = Some en → 0 <= revolutions en → 0 <= slot en < w_slotCount w →
     (∀ i l, vs !! i = Some l → x ∈ l → slot en = Z.of_nat i) → turns dies dec s w c' (x ∈ xs) en) →
  advanced s w vs es w' vs'.
Proof.
  intros [HR Hc Ht Hr] Hc' [K1 (S1 & S2 & S3 & S4 & S5 & S6) [V1 V2] K4 K5 K6] Hturn. cbn in *.
  assert (∀ x, x ∈ concat vs → ∃ en, w_ents w !! x = Some en ∧ turns dies dec s w c' (x ∈ xs) en ∧ 0 <= revolutions en ∧
    rem_at w x = remaining w en ∧ doomed dies (w_move w c' (w_cursorAtNs w)) x = dies (revolutions en)) as Hen.
  { intros x Hx. destruct (wr_on w vs x HR Hx) as (i & l & en & Hi & Hxl & He & Hs & Hrange). exists en.
    split_and!; [done| |by eapply Hr|by rewrite /rem_at He|by rewrite /doomed /= He].
    apply Hturn; [done|done|by eapply Hr|done|]. intros j l' Hj Hx'. rewrite Hs. f_equal.
    eapply (wr_apart vs); [apply HR|done|done|done|done]. }
  assert (∀ x, x ∈ concat vs' → ∃ en en', w_ents w !! x = Some en ∧ w_ents w' !! x = Some en' ∧
    0 <= revolutions en' ∧ remaining w' en' = remaining w en - s) as Hen'.
  { intros x [Hx Hd]%K6. destruct (Hen x Hx) as (en & He & (_ & T2 & T3) & Hrev & _ & Hdm). rewrite Hdm in Hd.
    exists en. unfold remaining in *. rewrite S1 S3. destruct (decide (x ∈ xs)) as [Hxs|Hxs].
    - rewrite V1 // He. cbn. unfold visited. rewrite Hd //. eexists. split_and!; [done..| |]; cbn; by apply T2; [|apply Hd].
    - rewrite V2 // He. eexists. split_and!; [done..|]. by apply T3. }
  constructor; [|by split_and!|done| | | |].
  - constructor; [done|by rewrite S1 S3|by rewrite S2|]. intros x en' Hx He'.
    destruct (Hen' x Hx) as (en & en2 & _ & He2 & ? & _). rewrite He' in He2. by injection He2 as ->.
  - intros x. rewrite K5. split; intros [Hx Hd]; (split; [done|]);
      destruct (Hen x Hx) as (en & _ & (T1 & _ & _) & _ & Hrm & Hdm); [rewrite Hrm|rewrite Hdm]; apply T1; [by rewrite -Hdm|by rewrite -Hrm].
  - intros x. rewrite K6. split; intros [Hx Hd]; (split; [done|]);
      destruct (Hen x Hx) as (en & _ & (T1 & _ & _) & _ & Hrm & Hdm).
    + rewrite Hrm. destruct (decide (remaining w en <= s)) as [[Hxs E]%T1|]; [|lia]. rewrite Hdm E in Hd. by specialize (Hd Hxs).
    + intros Hxs. rewrite Hdm. destruct (dies (revolutions en)) eqn:E; [|done]. rewrite Hrm in Hd.
      assert (remaining w en <= s) by (by apply T1). lia.
  - intros x Hx. destruct (Hen' x Hx) as (en & en' & He & He' & _ & E). by rewrite /rem_at He He' E.
  - intros x. destruct (decide (x ∈ xs)) as [Hxl|Hxl]; [rewrite V1 //|by rewrite V2].
    destruct (w_ents w !! x); [|done]. cbn. unfold visited. by case_match.
Qed.

(** Turning the cursor by one slot. *)
Lemma tick_ok w vs :
  w_inv w vs →
  let w1 := w_move w ((w_cursor w + 1) `rem` w_slotCount w) (w_cursorAtNs w) in
  let '(es, w') := processSlot w1 (w_cursor w1) in ∃ vs', advanced 1 w vs es w' vs'.
Proof.
  intros HI. pose proof HI as [HR Hc Ht Hr]. cbv zeta.
  rewrite (next_slot _ _ Hc). set (c' := if bool_decide _ then 0 else _). cbn [w_cursor w_move].
  assert (0 <= c' < w_slotCount w) as Hc' by (unfold c'; case_bool_decide; lia).
  set (w1 := w_move w c' (w_cursorAtNs w)). assert (w_rep w1 vs) as HR1 by (destruct HR; by constructor).
  destruct (lookup_lt_is_Some_2 vs (Z.to_nat c')) as [l Hl]; [pose proof (wr_count _ _ HR); lia|].
  unfold processSlot. assert (c' = Z.of_nat (Z.to_nat c')) as Ec by lia.
  pose proof (visitSlot_walked (λ r, bool_decide (r = 0)) 1 w1 vs _ l HR1 Hl) as Hv. rewrite -Ec in Hv.
  destruct (visitSlot _ 1 w1 c') as [es w']. destruct Hv as [vs' Hv]. exists vs'. eapply walked_advanced; [done|exact Hc'|exact Hv|].
  intros x en Hx He Hrev Hs Hslot. unfold turns. unfold remaining. set (n := w_slotCount w) in *. set (c := w_cursor w) in *.
  assert (x ∈ l ↔ slot en = c') as Hxl.
  { split; [intros Hxl; rewrite (Hslot _ _ Hl Hxl); lia|]. intros E. apply elem_of_concat in Hx as (i & l' & Hi & Hx).
    rewrite (Hslot i l' Hi Hx) in E. assert (i = Z.to_nat c') as -> by lia. congruence. }
  rewrite Hxl bool_decide_eq_true bool_decide_eq_false (gap_eq n c (slot en)) // (gap_eq n c' (slot en)) //.
  unfold c' in *. split_and!; repeat case_bool_decide; try nia; intros; split_and?; nia.
Qed.

(** Whole turns at once. *)
Lemma turns_ok w vs k :
  w_inv w vs → 1 <= k →
  let '(es, w') := decrementAllRevolutions w k in ∃ vs', advanced (k * w_slotCount w) w vs es w' vs'.
Proof.
  intros HI Hk. pose proof HI as [HR Hc Ht Hr]. unfold decrementAllRevolutions. rewrite (wr_slots _ _ HR).
  pose proof (visitAll_walked (λ r, negb (bool_decide (k <= r))) k w vs HR) as Hv.
  destruct (foldl _ _ _) as [es w']. destruct Hv as [vs' Hv]. exists vs'.
  eapply (walked_advanced _ _ _ w vs (w_cursor w)); [done|done| |].
  { replace (w_move w (w_cursor w) (w_cursorAtNs w)) with w by by destruct w. exact Hv. }
  intros x en Hx He Hrev Hs _. unfold turns, remaining.
  pose proof (Z.mod_pos_bound (slot en - w_cursor w - 1) (w_slotCount w) ltac:(lia)).
  rewrite negb_true_iff negb_false_iff bool_decide_eq_true bool_decide_eq_false.
  split_and!; [split; [intros [_ ?]|intros ?; split; [done|]]; nia|intros _ ?; split; nia|done].
Qed.

Lemma slots_ok w vs partial :
  w_inv w vs → let '(es, w') := advanceSlots w partial in ∃ vs', advanced (Z.of_nat partial) w vs es w' vs'.
Proof.
  intros HI. unfold advanceSlots. induction partial as [|k IH]; [exists vs; by apply advanced_0|].
  rewrite seq_S foldl_app. destruct (foldl _ _ (seq 0 k)) as [es w1]. destruct IH as [vs1 H1]. cbn [foldl].
  pose proof (tick_ok w1 vs1 (ad_inv _ _ _ _ _ _ H1)) as Ht. cbv zeta in Ht.
  destruct (processSlot _ _) as [es' w2]. destruct Ht as [vs2 H2]. exists vs2.
  rewrite Nat2Z.inj_succ -Z.add_1_r. by eapply advanced_app; [lia|lia|exact H1|exact H2].
Qed.

Definition steps w (now : Z) : Z := Z.max 0 ((now - w_cursorAtNs w) / w_tickNs w).

(** The clock moves, the schedule does not. *)
Lemma w_inv_clock w vs t : w_inv w vs → w_inv (w_move w (w_cursor w) t) vs ∧ ∀ x, rem_at (w_move w (w_cursor w) t) x = rem_at w x.
Proof. intros [[R1 R2 R3 R4 R5 R6 R7 R8] H1 H2 H3]. split; [|done]. constructor; [by constructor|done|done|done]. Qed.

Lemma AdvanceTo_ok w vs now :
  w_inv w vs →
  let '(es, w') := AdvanceTo w now in
  ∃ w1 vs', advanced (steps w now) w vs es w1 vs' ∧ w' = w_move w1 (w_cursor w1) (w_cursorAtNs w + steps w now * w_tickNs w).
Proof.
  intros HI. pose proof HI as [HR Hc Ht _]. unfold AdvanceTo, steps.
  assert (∀ x : Z, x = 0 → ∃ w1 vs', advanced x w vs [] w1 vs' ∧ w = w_move w1 (w_cursor w1) (w_cursorAtNs w + x * w_tickNs w)) as H0.
  { intros x ->. exists w, vs. split; [by apply advanced_0|]. rewrite Z.mul_0_l Z.add_0_r. by destruct w. }
  case_bool_decide as Hn.
  { apply H0. assert ((now - w_cursorAtNs w) / w_tickNs w <= 0) by (apply Z.div_le_upper_bound; lia). lia. }
  rewrite Z.quot_div_nonneg; [|lia..]. set (st := (now - w_cursorAtNs w) / w_tickNs w). case_bool_decide as Hs; [apply H0; lia|].
  rewrite Z.quot_div_nonneg; [|lia..]. rewrite Z.rem_mod_nonneg; [|lia..]. rewrite Z.max_r; [|lia].
  set (n := w_slotCount w) in *. pose proof (Z.div_mod st n ltac:(lia)) as Hdm. pose proof (Z.mod_pos_bound st n ltac:(lia)) as Hmb.
  pose proof (Z.div_pos st n ltac:(lia) ltac:(lia)) as Hdp.
  assert (let '(es, w1) := if bool_decide (0 < st / n) then decrementAllRevolutions w (st / n) else ([], w) in
    ∃ vs1, advanced (st / n * n) w vs es w1 vs1) as Hfull.
  { case_bool_decide as Hf; [apply turns_ok; [done|lia]|]. exists vs. replace (st / n) with 0 by lia. by apply advanced_0. }
  destruct (if bool_decide (0 < st / n) then _ else _) as [es1 w1]. destruct Hfull as [vs1 H1].
  pose proof (slots_ok w1 vs1 (Z.to_nat (st `mod` n)) (ad_inv _ _ _ _ _ _ H1)) as H2.
  destruct (advanceSlots w1 _) as [es2 w2]. destruct H2 as [vs2 H2]. exists w2, vs2.
  destruct (ad_conf _ _ _ _ _ _ H1) as (_ & E2 & E3 & _), (ad_conf _ _ _ _ _ _ H2) as (_ & F2 & F3 & _).
  split; [|by rewrite F2 F3 E2 E3]. replace st with (st / n * n + Z.of_nat (Z.to_nat (st `mod` n))) at 1 by lia.
  eapply advanced_app; [nia|lia|exact H1|exact H2].
Qed.

(** ** The schedule *)

(** An entry with [R] ticks to go at cursor time [c] is due no earlier than
    its expiry, and within a tick of it unless that had passed already. *)
Definition scheduled (tick c R exp : Z) : Prop :=
  (is_i64 exp → exp <= c + R * tick) ∧ (is_i64 exp → 0 <= exp → c < 2 ^ 63 → R <= 1 ∨ c + R * tick < exp + tick).

Lemma i64_wraps_up z : z < 2 ^ 63 → z <= i64 z.
Proof.
  intros Hz. destruct (decide (- 2 ^ 63 <= z)) as [Hl|Hl]; [rewrite i64_id; unfold is_i64; lia|].
  pose proof (i64_range z). unfold is_i64 in *. lia.
Qed.

Lemma ticksAhead_ok w exp :
  0 < w_tickNs w → 0 <= w_cursorAtNs w → scheduled (w_tickNs w) (w_cursorAtNs w) (ticksAhead w exp) exp.
Proof.
  intros Ht Hc. unfold ticksAhead, scheduled.
  assert (is_i64 exp → exp - w_cursorAtNs w <= i64 (exp - w_cursorAtNs w)) as Hd1.
  { intros He. apply i64_wraps_up. unfold is_i64 in He. lia. }
  assert (is_i64 exp → 0 <= exp → w_cursorAtNs w < 2 ^ 63 → i64 (exp - w_cursorAtNs w) = exp - w_cursorAtNs w) as Hd2.
  { intros He Hp Hu. apply i64_id. unfold is_i64 in *. lia. }
  set (d := i64 (exp - w_cursorAtNs w)) in *.
  destruct (bool_decide_reflect (0 < d)) as [Hpos|Hpos].
  - rewrite Z.quot_div_nonneg; [|lia..]. rewrite Z.rem_mod_nonneg; [|lia..].
    pose proof (Z.div_mod d (w_tickNs w) ltac:(lia)). pose proof (Z.mod_pos_bound d (w_tickNs w) ltac:(lia)).
    pose proof (Z.div_pos d (w_tickNs w) ltac:(lia) ltac:(lia)).
    repeat case_bool_decide; (split; [intros He; specialize (Hd1 He); nia|intros He Hp Hu; specialize (Hd2 He Hp Hu); try nia]).
  - rewrite bool_decide_true; [|lia]. split; [intros He; specialize (Hd1 He); lia|intros; by left].
Qed.

(** ** Adding and removing *)

Lemma w_inv_rem w w' x : w_ents w' !! x = w_ents w !! x → w_same w w' → rem_at w' x = rem_at w x.
Proof. intros He (S1 & _ & S3 & _). unfold rem_at, remaining. by rewrite He S1 S3. Qed.

Lemma w_remove_ok w vs x :
  w_inv w vs → x ∈ concat vs →
  ∃ vs', w_inv (w_Remove w x) vs' ∧ w_same w (w_Remove w x) ∧
    (∀ y, y ∈ concat vs' ↔ y ∈ concat vs ∧ y ≠ x) ∧ (∀ y, y ≠ x → w_ents (w_Remove w x) !! y = w_ents w !! y).
Proof.
  intros [HR Hc Ht Hr] Hx. destruct (wr_on w vs x HR Hx) as (i & l & en & Hi & Hxl & He & Hs & Hrange).
  unfold w_Remove. rewrite He bool_decide_false; [|lia]. apply list_elem_of_split_length in Hi as (v1 & v2 & -> & ->).
  destruct (w_unlink_rep w v1 l v2 x en HR Hxl He) as (HR' & Hsame & Hents). cbv zeta in *.
  set (w' := w_set (w_unlink w x) _ _ _ _) in *. exists (v1 ++ without x l :: v2).
  pose proof (wr_nodup _ _ HR) as Hnd. rewrite concat_app in Hnd. cbn in Hnd. apply NoDup_app in Hnd as (_ & N1 & N2).
  apply NoDup_app in N2 as (N3 & N2 & _).
  assert (∀ y, y ∈ concat (v1 ++ without x l :: v2) ↔ y ∈ concat (v1 ++ l :: v2) ∧ y ≠ x) as Hin.
  { intros y. rewrite !concat_app /= !elem_of_app elem_of_without. specialize (N1 x). specialize (N2 x). rewrite !elem_of_app in N1.
    destruct (decide (y = x)) as [->|]; tauto. }
  assert (∀ y, y ≠ x → w_ents w' !! y = w_ents w !! y) as Hne by (intros y Hy; by rewrite Hents lookup_insert_ne).
  split_and!; [|done|done|done]. pose proof Hsame as (S1 & S2 & S3 & _). constructor; [done|by rewrite S1 S3|by rewrite S2|].
  intros y en' [Hy Hyx]%Hin Hen'. rewrite Hne // in Hen'. by eapply Hr.
Qed.

Lemma linkHead_rep w v1 l v2 n en :
  w_rep w (v1 ++ l :: v2) → n ∉ concat (v1 ++ l :: v2) → w_ents w !! n = Some en → slot en = Z.of_nat (length v1) →
  let w' := linkHead w (slot en) n in
  w_rep (w_set w' (w_links w') (w_ents w') (w_slots w') (w_total w' + 1)) (v1 ++ (n :: l) :: v2).
Proof.
  intros HR Hn He Hs. cbv zeta. rewrite Hs. unfold linkHead, slotHead. rewrite Nat2Z.id.
  pose proof (wr_list _ _ HR (length v1) l (list_lookup_middle _ _ _ _ eq_refl)) as HL.
  assert ((length v1 < length (w_slots w))%nat) as Hlt by (rewrite (wr_slots _ _ HR) length_app /=; lia).
  assert (n ∉ l) as Hnl. { rewrite concat_app /= !elem_of_app in Hn. tauto. }
  pose proof (pushHead_rep _ _ _ n HL Hnl) as HP. unfold dll_pushHead in HP. cbn [d_head hq d_tail d_size] in HP.
  set (h := w_slots w !!! length v1) in *.
  set (L := match h with Some h0 => set_prev (set_next (set_prev (w_links w) n None) n h) h0 (Some n) | None => set_next (set_prev (w_links w) n None) n h end).
  assert (dll_rep L (hq (Some n) (n :: l)) (n :: l) ∧ (∀ y, y ≠ n → y ∉ l → same_at (w_links w) L y)) as [HP1 HP2].
  { unfold L. destruct h; destruct HP as [HP1 HP2]; (split; [exact (hq_rep _ _ _ HP1)|exact HP2]). }
  eapply w_rep_at; [exact HR|by split_and!|..]; cbn -[concat].
  - rewrite list_lookup_total_insert_eq //.
  - intros y Hy Hy'. apply HP2; [|done]. intros ->. apply Hy'. left.
  - by rewrite length_insert.
  - intros i Hi. rewrite list_lookup_total_insert_ne //.
  - intros y [->|Hy]%elem_of_cons; [by exists en|]. by eapply (wr_ent _ _ HR (length v1)); [by apply list_lookup_middle|].
  - done.
  - assert (concat (v1 ++ (n :: l) :: v2) ≡ₚ n :: concat (v1 ++ l :: v2)) as -> by (rewrite !concat_app; cbn; solve_Permutation).
    apply NoDup_cons. split; [done|apply HR].
  - rewrite (wr_total _ _ HR) !concat_app !length_app. cbn. lia.
  - done.
Qed.

(** The arithmetic of [Add]. *)
Lemma add_slot (n c t : Z) : 0 <= c < n → 1 <= t →
  let s := (c + t `rem` n) `rem` n in 0 <= s < n ∧ 0 <= (t - 1) `quot` n ∧ (t - 1) `quot` n * n + (s - c - 1) `mod` n + 1 = t.
Proof.
  intros Hc Ht. cbv zeta. rewrite Z.quot_div_nonneg; [|lia..]. pose proof (Z.mod_pos_bound t n ltac:(lia)) as Hm.
  rewrite (Z.rem_mod_nonneg t); [|lia..]. rewrite Z.rem_mod_nonneg; [|lia..].
  pose proof (Z.mod_pos_bound (c + t `mod` n) n ltac:(lia)). split; [done|].
  pose proof (Z.div_pos (t - 1) n ltac:(lia) ltac:(lia)). split; [done|].
  replace (((c + t `mod` n) `mod` n - c - 1) `mod` n) with ((t - 1) `mod` n).
  - pose proof (Z.div_mod (t - 1) n ltac:(lia)). lia.
  - rewrite Z.add_mod_idemp_r; [|lia]. rewrite -!Z.sub_add_distr. rewrite Zminus_mod_idemp_l. f_equal. lia.
Qed.

Lemma ticksAhead_pos w exp : 1 <= ticksAhead w exp.
Proof. unfold ticksAhead. repeat case_bool_decide; lia. Qed.

(** A fresh node does not disturb the lists. *)
Lemma w_alloc_rep w vs a exp : w_rep w vs → w_rep (w_alloc w a exp).2 vs ∧ w_fresh w ∉ concat vs.
Proof.
  intros HR. assert (w_fresh w ∉ concat vs) as Hn.
  { intros Hx. destruct (wr_on w vs _ HR Hx) as (_ & _ & en & _ & _ & He & _).
    pose proof (wr_fresh _ _ HR (w_fresh w) (mk_is_Some _ _ He)). lia. }
  split; [|done]. destruct HR as [R1 R2 R3 R4 R5 R6 R7 R8].
  assert (∀ i l x, vs !! i = Some l → x ∈ l → x ≠ w_fresh w) as Hne.
  { intros i l x Hi Hx ->. apply Hn, elem_of_concat. eauto. }
  constructor; cbn; [done..| | |done|done|].
  - intros i l Hi. eapply rep_frame; [|by apply R4]. intros x Hx. specialize (Hne i l x Hi Hx).
    split; cbn; by rewrite lookup_upd_ne.
  - intros i l x Hi Hx. specialize (Hne i l x Hi Hx). rewrite lookup_insert_ne //. by eapply R5.
  - intros x. destruct (decide (x = w_fresh w)) as [->|]; [lia|]. rewrite lookup_insert_ne // => /R8. lia.
Qed.

Lemma w_add_ok w vs a exp :
  w_inv w vs →
  let n := w_fresh w in
  let w' := w_Add (w_alloc w a exp).2 n in
  ∃ vs' en, w_inv w' vs' ∧ n ∉ concat vs ∧ (∀ y, y ∈ concat vs' ↔ y = n ∨ y ∈ concat vs) ∧
    w_ents w' !! n = Some en ∧ what en = (a, exp) ∧ rem_at w' n = ticksAhead w exp ∧
    (∀ y, y ≠ n → w_ents w' !! y = w_ents w !! y ∧ rem_at w' y = rem_at w y) ∧
    w_tickNs w' = w_tickNs w ∧ w_cursorAtNs w' = w_cursorAtNs w ∧ w_originNs w' = w_originNs w.
Proof.
  intros [HR Hc Ht Hr]. cbv zeta. destruct (w_alloc_rep w vs a exp HR) as [HA Hn].
  unfold w_Add. cbn [w_alloc w_ents snd]. rewrite lookup_insert_eq. set (w1 := (w_alloc w a exp).2) in *.
  change (ticksAhead _ _) with (ticksAhead w exp). pose proof (ticksAhead_pos w exp) as Hta.
  destruct (add_slot (w_slotCount w) (w_cursor w) (ticksAhead w exp) Hc Hta) as (B1 & B2 & B3). cbv zeta in B1, B3.
  cbn [Payload ExpireAtNs w_slotCount w_cursor w1 w_alloc snd]. set (t := ticksAhead w exp) in *.
  set (sl := (w_cursor w + t `rem` w_slotCount w) `rem` w_slotCount w) in *.
  set (en := WEntry a exp ((t - 1) `quot` w_slotCount w) sl).
  assert (∃ v1 l v2, vs = v1 ++ l :: v2 ∧ Z.to_nat sl = length v1) as (v1 & l & v2 & -> & Hl1).
  { destruct (lookup_lt_is_Some_2 vs (Z.to_nat sl)) as [l Hl]; [pose proof (wr_count _ _ HR); lia|].
    apply list_elem_of_split_length in Hl as (v1 & v2 & -> & Hl). by exists v1, l, v2. }
  set (w2 := w_set w1 (w_links w1) (<[w_fresh w := en]> (w_ents w1)) (w_slots w1) (w_total w1)).
  assert (w_rep w2 (v1 ++ l :: v2)) as H2.
  { destruct HA as [R1 R2 R3 R4 R5 R6 R7 R8]. constructor; cbn -[concat]; [done..| |done|done|].
    - intros i l' x Hi Hx. rewrite lookup_insert_ne; [by eapply R5|]. intros <-. apply Hn, elem_of_concat. eauto.
    - intros x Hx. destruct (decide (x = w_fresh w)) as [->|]; [lia|]. rewrite lookup_insert_ne // in Hx. by apply R8. }
  pose proof (linkHead_rep w2 v1 l v2 (w_fresh w) en H2 Hn ltac:(cbn; by rewrite lookup_insert_eq) ltac:(cbn; lia)) as H3.
  cbv zeta in H3. change (slot en) with sl in H3.
  exists (v1 ++ (w_fresh w :: l) :: v2), en.
  assert (∀ y, y ∈ concat (v1 ++ (w_fresh w :: l) :: v2) ↔ y = w_fresh w ∨ y ∈ concat (v1 ++ l :: v2)) as Hin.
  { intros y. rewrite !concat_app /= !elem_of_app elem_of_cons !elem_of_app. tauto. }
  assert (∀ y, y ≠ w_fresh w → <[w_fresh w := en]> (w_ents w1) !! y = w_ents w !! y) as Hne.
  { intros y Hy. rewrite lookup_insert_ne //. cbn. by rewrite lookup_insert_ne. }
  split_and!; [|done|done|cbn; by rewrite lookup_insert_eq|done| | |done|done|done].
  - constructor; [exact H3|done|done|]. intros x en' [->|Hx]%Hin He'; cbn in He'.
    + rewrite lookup_insert_eq in He'. by injection He' as <-.
    + rewrite Hne in He'; [|by intros ->]. by eapply Hr.
  - unfold rem_at. cbn. rewrite lookup_insert_eq. exact B3.
  - intros y Hy. cbn. unfold rem_at. cbn. rewrite Hne //.
Qed.

(** ** The backend *)

Record wheel_rep (t : loc → Z) b (L D : gset loc) (vs : list (list loc)) : Prop := WheelRep {
  wp_inv : w_inv (wb b) vs;
  wp_clock : 0 <= w_cursorAtNs (wb b) ∧ 0 <= w_originNs (wb b);
  wp_sub : D ⊆ L;
  wp_handle : ∀ a, a ∈ L → match wh b !! a with
    | Some n => a ∈ D ∧ n ∈ concat vs ∧ (what <$> (w_ents (wb b) !! n)) = Some (a, t a)
    | None => a ∉ D
    end;
  wp_node : ∀ n, n ∈ concat vs → ∃ a, a ∈ D ∧ wh b !! a = Some n;
  wp_when : ∀ n en, n ∈ concat vs → w_ents (wb b) !! n = Some en →
    scheduled (w_tickNs (wb b)) (w_cursorAtNs (wb b)) (rem_at (wb b) n) (ExpireAtNs en)
}.

Definition wheel_tracks (t : loc → Z) b (L D : gset loc) : Prop := ∃ vs, wheel_rep t b L D vs.

(** The node and the entry of a tracked address. *)
Lemma wp_lookup t b L D vs a :
  wheel_rep t b L D vs → a ∈ D →
  ∃ n en, wh b !! a = Some n ∧ n ∈ concat vs ∧ w_ents (wb b) !! n = Some en ∧ Payload en = a ∧ ExpireAtNs en = t a.
Proof.
  intros [_ _ P3 P4 _ _] Ha. specialize (P4 a (P3 a Ha)). destruct (wh b !! a) as [n|]; [|done].
  destruct P4 as (_ & Hn & He). destruct (w_ents (wb b) !! n) as [en|] eqn:Hen; [|done]. unfold what in He. injection He as E1 E2. exists n, en. by split_and!.
Qed.

Lemma wp_payload t b L D vs n :
  wheel_rep t b L D vs → n ∈ concat vs → payloadOf (wb b) n ∈ D ∧ wh b !! payloadOf (wb b) n = Some n.
Proof.
  intros HP Hn. destruct (wp_node _ _ _ _ _ HP n Hn) as (a & Ha & Hh).
  destruct (wp_lookup t b L D vs a HP Ha) as (n' & en & Hh' & _ & He & <- & _). rewrite Hh in Hh'. injection Hh' as <-.
  unfold payloadOf. by rewrite He.
Qed.

Lemma wb_remove_rep t t' b L D vs a :
  wheel_rep t b L D vs → a ∈ L → (∀ x, x ∈ D → x ≠ a → t' x = t x) →
  ∃ vs', wheel_rep t' (wb_Remove t' b a) (L ∖ {[a]}) (D ∖ {[a]}) vs'.
Proof.
  intros HP Ha Ht. pose proof HP as [P1 P2 P3 P4 P5 P6]. unfold wb_Remove. pose proof (P4 a Ha) as Hh.
  destruct (wh b !! a) as [n|] eqn:Hn.
  - destruct Hh as (HaD & Hnv & Hw). destruct (w_remove_ok (wb b) vs n P1 Hnv) as (vs' & R1 & R2 & R3 & R4). exists vs'.
    pose proof R2 as (S1 & S2 & S3 & S4 & S5 & S6).
    constructor; cbn; [done|by rewrite S4 S5|set_solver| | |].
    + intros x Hx. assert (x ≠ a) as Hxa by set_solver. rewrite lookup_delete_ne //. specialize (P4 x ltac:(set_solver)).
      destruct (wh b !! x) as [m|] eqn:Hm; [|set_solver]. destruct P4 as (HxD & Hmv & Hmw).
      assert (m ≠ n) as Hmn. { intros ->. rewrite Hw in Hmw. injection Hmw. congruence. }
      split_and!; [set_solver|by apply R3|]. rewrite R4 // Ht //.
    + intros m [Hm Hmn]%R3. destruct (P5 m Hm) as (x & Hx & Hhx). assert (x ≠ a) by (intros ->; congruence).
      exists x. split; [set_solver|]. by rewrite lookup_delete_ne.
    + intros m en [Hm Hmn]%R3 He. rewrite R4 // in He. rewrite (w_inv_rem (wb b)); [|by rewrite R4|done]. rewrite S2 S4. by apply P6.
  - exists vs. constructor; [done|done|set_solver| | |done].
    + intros x Hx. assert (x ≠ a) by set_solver. specialize (P4 x ltac:(set_solver)). destruct (wh b !! x) as [m|]; [|set_solver].
      destruct P4 as (HxD & ? & ?). split_and!; [set_solver|done|]. by rewrite Ht.
    + intros m Hm. destruct (P5 m Hm) as (x & Hx & Hhx). exists x. split; [|done]. assert (x ≠ a) by (intros ->; congruence). set_solver.
Qed.

Lemma wb_add_rep t b L D vs a :
  wheel_rep t b L D vs → a ∉ L →
  ∃ vs' D', wheel_rep t (wb_Add t b a) ({[a]} ∪ L) D' vs' ∧ retracked (t a) a D D'.
Proof.
  intros [P1 P2 P3 P4 P5 P6] Ha. unfold wb_Add. case_bool_decide as Hz.
  - exists vs, D. split; [|split_and!; [done|lia|set_solver]]. constructor; cbn; [done|done|set_solver| | |done].
    + intros x Hx. destruct (decide (x = a)) as [->|]; [rewrite lookup_delete_eq; set_solver|].
      rewrite lookup_delete_ne //. apply P4. set_solver.
    + intros n Hn. destruct (P5 n Hn) as (x & Hx & Hh). exists x. split; [done|]. rewrite lookup_delete_ne //. set_solver.
  - destruct (w_add_ok (wb b) vs a (t a) P1) as (vs' & en & R1 & R2 & R3 & R4 & R5 & R6 & R7 & R8 & R9 & R10).
    cbn [w_alloc]. set (n := w_fresh (wb b)) in *. set (w' := w_Add _ n) in *. exists vs', ({[a]} ∪ D).
    split; [|split_and!; [set_solver|set_solver|done]]. constructor; cbn; [done|by rewrite R9 R10|set_solver| | |].
    + intros x Hx. destruct (decide (x = a)) as [->|Hxa].
      * rewrite lookup_insert_eq. split_and!; [set_solver|apply R3; by left|]. by rewrite R4 /= R5.
      * rewrite lookup_insert_ne //. specialize (P4 x ltac:(set_solver)). destruct (wh b !! x) as [m|]; [|set_solver].
        destruct P4 as (? & Hm & Hw). assert (m ≠ n) as Hmn by (intros ->; done).
        split_and!; [set_solver|apply R3; by right|]. by rewrite (proj1 (R7 m Hmn)).
    + intros m [->|Hm]%R3; [exists a; rewrite lookup_insert_eq; split; [set_solver|done]|].
      destruct (P5 m Hm) as (x & Hx & Hh). exists x. rewrite lookup_insert_ne; [split; [set_solver|done]|]. set_solver.
    + intros m em Hm Hem. rewrite R8 R9. apply R3 in Hm as [->|Hm].
      * rewrite R4 in Hem. injection Hem as <-. rewrite R6. unfold what in R5. injection R5 as _ ->.
        apply ticksAhead_ok; [apply P1|apply P2].
      * assert (m ≠ n) as Hmn by (intros ->; done). destruct (R7 m Hmn) as [E1 E2]. rewrite E1 in Hem. rewrite E2. by apply P6.
Qed.

Lemma foldl_delete_lookup (l : list loc) (m : gmap loc loc) a :
  foldl (λ m a, delete a m) m l !! a = if bool_decide (a ∈ l) then None else m !! a.
Proof.
  revert m. induction l as [|x l IH]; intros m; cbn; [by rewrite bool_decide_false; [|apply not_elem_of_nil]|].
  rewrite IH. destruct (decide (a = x)) as [->|Hne].
  - rewrite lookup_delete_eq (bool_decide_true (x ∈ x :: l)); [|left]. by case_bool_decide.
  - rewrite lookup_delete_ne //. repeat case_bool_decide; set_solver.
Qed.

(** [s] ticks later the schedule is as it was. *)
Lemma scheduled_later tick c R exp s :
  0 < tick → 0 <= s < R → scheduled tick c R exp → scheduled tick (c + s * tick) (R - s) exp.
Proof.
  intros Ht Hs [S1 S2]. replace (c + s * tick + (R - s) * tick) with (c + R * tick) by lia.
  split; [intros He; specialize (S1 He); lia|].
  intros He Hp Hu. destruct (S2 He Hp ltac:(nia)); [left; lia|right; lia].
Qed.

Lemma wb_sweep_ok t b L D vs now :
  wheel_rep t b L D vs →
  let '(l, b') := wb_Sweep t b now in
  NoDup l ∧
  (∀ a, a ∈ l ↔ a ∈ D ∧ ∃ n, wh b !! a = Some n ∧ rem_at (wb b) n <= steps (wb b) now) ∧
  (∃ vs', wheel_rep t b' L (D ∖ list_to_set l) vs') ∧
  w_cursorAtNs (wb b') = w_cursorAtNs (wb b) + steps (wb b) now * w_tickNs (wb b).
Proof.
  intros HP. pose proof HP as [P1 P2 P3 P4 P5 P6]. unfold wb_Sweep. pose proof (AdvanceTo_ok (wb b) vs now P1) as HA.
  destruct (AdvanceTo (wb b) now) as [es w']. destruct HA as (w1 & vs' & [A1 A2 A3 A4 A5 A6 A7] & ->).
  destruct A2 as (E1 & E2 & E3 & E4 & E5). set (w' := w_move _ _ _). set (s := steps (wb b) now) in *.
  assert (0 <= s) as Hs0 by (unfold s, steps; lia).
  assert (payloadOf w' <$> es = payloadOf (wb b) <$> es) as ->.
  { apply list_fmap_ext. intros i x _. unfold payloadOf. specialize (A7 x). change (w_ents w') with (w_ents w1).
    destruct (w_ents w1 !! x), (w_ents (wb b) !! x); try done. cbn in A7. unfold what in A7. by injection A7. }
  assert (∀ a, a ∈ payloadOf (wb b) <$> es ↔ a ∈ D ∧ ∃ n, wh b !! a = Some n ∧ rem_at (wb b) n <= s) as Hmem.
  { intros a. rewrite list_elem_of_fmap. split.
    - intros (n & -> & [Hn Hr]%A4). destruct (wp_payload t b L D vs n HP Hn) as [? ?]. eauto.
    - intros (HaD & n & Hn & Hr). destruct (wp_lookup t b L D vs a HP HaD) as (n' & en & Hn' & Hv & He & Hp & _).
      rewrite Hn in Hn'. injection Hn' as <-. exists n. split; [by rewrite /payloadOf He|]. by apply A4. }
  split_and!; [|done| |done].
  { apply NoDup_fmap_2_strong; [|done]. intros x y [Hx _]%A4 [Hy _]%A4 Heq.
    destruct (wp_payload t b L D vs x HP Hx) as [_ Ex], (wp_payload t b L D vs y HP Hy) as [_ Ey]. congruence. }
  exists vs'. destruct (w_inv_clock w1 vs' (w_cursorAtNs (wb b) + s * w_tickNs (wb b)) A1) as [HI Hrem].
  assert (0 < w_tickNs (wb b)) as Htk by apply P1.
  constructor; cbn [wb wh]; [exact HI|split; cbn; [nia|rewrite E4; apply P2]|set_solver| | |].
  - intros a Ha. rewrite foldl_delete_lookup. destruct (bool_decide_reflect (a ∈ payloadOf (wb b) <$> es)) as [Hin|Hin].
    { set_solver. }
    specialize (P4 a Ha). destruct (wh b !! a) as [n|] eqn:Hn; [|set_solver]. destruct P4 as (HaD & Hv & Hw).
    split_and!; [set_solver| |by rewrite /= A7]. apply A5. split; [done|].
    destruct (decide (rem_at (wb b) n <= s)); [|lia]. exfalso. apply Hin, Hmem. eauto.
  - intros n [Hn Hr]%A5. destruct (P5 n Hn) as (a & HaD & Hh). exists a. rewrite foldl_delete_lookup.
    assert (a ∉ payloadOf (wb b) <$> es) as Hni.
    { intros (_ & n' & Hn' & Hr')%Hmem. rewrite Hh in Hn'. injection Hn' as <-. lia. }
    split; [set_solver|]. by rewrite bool_decide_false.
  - intros n en Hn He. rewrite Hrem A6 //. cbn [w_tickNs w_cursorAtNs w' w_move] in *. rewrite E2. apply A5 in Hn as [Hn Hr].
    specialize (A7 n). cbn in He. rewrite He in A7. destruct (w_ents (wb b) !! n) as [en0|] eqn:He0; [|done].
    cbn in A7. unfold what in A7. injection A7 as _ ->. apply scheduled_later; [done|lia|by apply P6].
Qed.

Lemma wb_sweep_due t b L D vs a n now :
  wheel_rep t b L D vs → a ∈ D → wh b !! a = Some n → is_i64 (t a) → rem_at (wb b) n <= steps (wb b) now → t a <= now.
Proof.
  intros HP Ha Hn Hi Hr. destruct (wp_lookup t b L D vs a HP Ha) as (n' & en & Hn' & Hv & He & _ & Het).
  rewrite Hn in Hn'. injection Hn' as <-. pose proof HP as [P1 P2 _ _ _ P6]. destruct (P6 n en Hv He) as [Hs _]. rewrite Het in Hs.
  specialize (Hs Hi). pose proof (rem_pos (wb b) vs n P1 Hv). pose proof (wi_tick _ _ P1). unfold steps in Hr.
  set (q := (now - w_cursorAtNs (wb b)) / w_tickNs (wb b)) in *.
  assert (w_tickNs (wb b) * q <= now - w_cursorAtNs (wb b)) by (apply Z.mul_div_le; lia). nia.
Qed.

Lemma wheel_new_rep t slots tick origin : 0 <= origin → wheel_tracks t (newWheelBackend slots tick origin) ∅ ∅.
Proof.
  intros Ho. unfold newWheelBackend, w_New. set (n := if bool_decide (slots <= 0) then 1 else slots).
  set (tk := if bool_decide (tick <= 0) then 1 else tick).
  assert (0 < n) by (unfold n; case_bool_decide; lia). assert (0 < tk) by (unfold tk; case_bool_decide; lia).
  exists (replicate (Z.to_nat n) []).
  assert (concat (replicate (Z.to_nat n) []) = ([] : list loc)) as Hc.
  { clear. induction (Z.to_nat n) as [|k IH]; [done|exact IH]. }
  constructor; cbn -[concat]; [|done|done|by intros a ?%elem_of_empty|rewrite Hc; by intros n0 ?%elem_of_nil|rewrite Hc; by intros n0 en ?%elem_of_nil].
  constructor; cbn -[concat]; [|lia|done|rewrite Hc; by intros x en ?%elem_of_nil].
  constructor; cbn -[concat]; rewrite ?Hc ?length_replicate; [lia|done|lia| | |by apply NoDup_nil|done|by intros x [? ?]].
  - intros i l [-> Hi]%lookup_replicate. rewrite lookup_total_replicate_2 //. apply rep_nil.
  - intros i l x [-> Hi]%lookup_replicate Hx. by apply elem_of_nil in Hx.
Qed.

#[export] Program Instance wheel_laws : TtlLaws wheelBackend := { ttl_rep := wheel_tracks }.
Next Obligation. intros t b L D [vs HP]. apply HP. Qed.
Next Obligation.
  intros t t' b L D [vs [P1 P2 P3 P4 P5 P6]] Ht. exists vs. constructor; [done..| |done|done].
  intros a Ha. specialize (P4 a Ha). destruct (wh b !! a); [|done]. destruct P4 as (HaD & ? & ?). split_and!; [done..|]. by rewrite Ht.
Qed.
Next Obligation.
  intros t b L D a [vs HP] Ha. destruct (wb_add_rep t b L D vs a HP Ha) as (vs' & D' & HP' & HD). exists D'. split; [by exists vs'|done].
Qed.
Next Obligation. intros t b L D a [vs HP] Ha. by apply (wb_remove_rep t t b L D vs a). Qed.
Next Obligation.
  intros t t' b L D a [vs HP] Ha Ht. destruct (wb_remove_rep t t' b L D vs a HP Ha Ht) as [vs1 H1].
  destruct (wb_add_rep t' _ _ _ vs1 a H1) as (vs' & D' & HP' & R1 & R2 & R3); [set_solver|]. exists D'. split.
  - exists vs'. by replace L with ({[a]} ∪ L ∖ {[a]}) by (apply set_eq; intros x; destruct (decide (x = a)); set_solver).
  - split_and!; [set_solver|done|done].
Qed.
Next Obligation.
  intros t b L D now [vs HP]. pose proof (wb_sweep_ok t b L D vs now HP) as Hs. cbn. destruct (wb_Sweep t b now) as [l b'].
  destruct Hs as (S1 & S2 & S3 & _). split_and!; [done| |done]. intros a (Ha & n & Hn & Hr)%S2. split; [done|].
  intros Hi. by eapply wb_sweep_due.
Qed.
Next Obligation.
  intros t b L D [vs HP]. pose proof HP as [P1 _ _ _ _ _]. cbn. unfold wb_Len, w_Len. rewrite (wr_total _ _ (wi_rep _ _ P1)). f_equal.
  pose proof (wr_nodup _ _ (wi_rep _ _ P1)) as Hn. rewrite -(length_fmap (payloadOf (wb b))).
  assert (NoDup (payloadOf (wb b) <$> concat vs)) as Hn'.
  { apply NoDup_fmap_2_strong; [|done]. intros x y Hx Hy Heq.
    destruct (wp_payload t b L D vs x HP Hx) as [_ Ex], (wp_payload t b L D vs y HP Hy) as [_ Ey]. congruence. }
  rewrite -(size_list_to_set (C := gset loc) _ Hn'). f_equal. apply set_eq. intros a.
  rewrite elem_of_list_to_set list_elem_of_fmap. split.
  - intros (n & -> & Hx). by apply (wp_payload t b L D vs n HP).
  - intros Ha. destruct (wp_lookup t b L D vs a HP Ha) as (n & en & _ & Hv & He & <- & _). exists n. by rewrite /payloadOf He.
Qed.
Next Obligation. done. Qed.
Next Obligation.
  intros t t' b L D l [vs [P1 P2 P3 P4 P5 P6]]. cbn. replace (foldl (λ b _, b) b l) with b by (by induction l).
  exists (replicate (length vs) []). pose proof P1 as [[R1 R2 R3 R4 R5 R6 R7 R8] ? ? ?].
  assert (concat (replicate (length vs) []) = ([] : list loc)) as Hc by (clear; by induction (length vs)).
  constructor; cbn -[concat]; [|tauto|done|by intros a ?%elem_of_empty|rewrite Hc; by intros n0 ?%elem_of_nil|rewrite Hc; by intros n0 en ?%elem_of_nil].
  constructor; cbn -[concat]; [|lia|done|rewrite Hc; by intros x en ?%elem_of_nil].
  constructor; cbn -[concat]; rewrite ?Hc ?length_replicate ?R2; [done|done|done| | |by apply NoDup_nil|done|done].
  - intros i l' [-> Hi]%lookup_replicate. rewrite lookup_total_replicate_2 //. apply rep_nil.
  - intros i l' x [-> Hi]%lookup_replicate Hx. by apply elem_of_nil in Hx.
Qed.

(** [AdvanceTo] is exact.  However far the clock jumps, by whole turns
    of the wheel and single slots, it returns precisely the entries due
    within the ticks that passed, each once, and every other entry stays
    with that many fewer ticks to go. *)
Theorem advance_exact w vs now :
  w_inv w vs →
  let '(es, w') := AdvanceTo w now in
  NoDup es ∧ (∀ x, x ∈ es ↔ x ∈ concat vs ∧ rem_at w x <= steps w now) ∧
  ∃ vs', w_inv w' vs' ∧ ∀ x, (x ∈ concat vs' ↔ x ∈ concat vs ∧ steps w now < rem_at w x) ∧
    (x ∈ concat vs' → rem_at w' x = rem_at w x - steps w now).
Proof.
  intros HI. pose proof (AdvanceTo_ok w vs now HI) as HA. destruct (AdvanceTo w now) as [es w'].
  destruct HA as (w1 & vs' & [A1 A2 A3 A4 A5 A6 A7] & ->). split_and!; [done|done|]. exists vs'.
  destruct (w_inv_clock w1 vs' (w_cursorAtNs w + steps w now * w_tickNs w) A1) as [HI' Hr].
  split; [done|]. intros x. split; [done|]. intros Hx. by rewrite Hr A6.
Qed.

(** C35: a sweep of the timing wheel returns only tracked entries whose expiry
    has come, and, once a tick has passed since the sweep before, every one
    whose expiry lies a tick or more in the past. *)
Theorem wheel_timely t b L D now :
  wheel_tracks t b L D → (∀ a, a ∈ D → 0 <= t a < 2 ^ 63) → w_cursorAtNs (wb b) + w_tickNs (wb b) <= now < 2 ^ 63 →
  let '(l, _) := wb_Sweep t b now in
  (∀ a, a ∈ l → a ∈ D ∧ t a <= now) ∧ (∀ a, a ∈ D → t a + w_tickNs (wb b) <= now → a ∈ l).
Proof.
  intros [vs HP] Ht Hnow. pose proof (wb_sweep_ok t b L D vs now HP) as Hs. destruct (wb_Sweep t b now) as [l b'].
  destruct Hs as (_ & S2 & _). assert (∀ a, a ∈ D → is_i64 (t a)) as Hi by (intros a Ha; specialize (Ht a Ha); unfold is_i64; lia).
  split.
  - intros a (Ha & n & Hn & Hr)%S2. split; [done|]. eapply wb_sweep_due; [exact HP|done|exact Hn|by apply Hi|done].
  - intros a Ha Hlate. apply S2. split; [done|]. destruct (wp_lookup t b L D vs a HP Ha) as (n & en & Hn & Hv & He & _ & Het).
    exists n. split; [done|]. pose proof HP as [P1 P2 _ _ _ P6]. destruct (P6 n en Hv He) as [_ Hs]. rewrite Het in Hs.
    pose proof (wi_tick _ _ P1) as Htk. specialize (Hs (Hi a Ha) ltac:(by apply Ht) ltac:(lia)). unfold steps.
    apply Z.max_le_iff. right. apply Z.div_le_lower_bound; [done|]. destruct Hs; nia.
Qed.

(** [Remove] is documented as a no-op on an entry that was never added,
    but the zero [slot] field passes for slot 0: the wheel's count goes to
    minus one. *)
Theorem wheel_remove_unadded :
  let '(n, w) := w_alloc (w_New 4 10 0) 1%positive 25 in w_Len (w_Remove w n) = -1.
Proof. reflexivity. Qed.

(** Entries 1, 2 and 3 expire at 30, 10 and 95 on a wheel of four slots of
    ten. *)
Definition wheel_times a : Z := match a with 1%positive => 30 | 2%positive => 10 | _ => 95 end.

Definition sample_wheel : wheelBackend :=
  foldl (wb_Add wheel_times) (newWheelBackend 4 10 0) [1; 2; 3]%positive.

Lemma sample_wheel_tracks : wheel_tracks wheel_times sample_wheel {[1; 2; 3]}%positive {[1; 2; 3]}%positive.
Proof.
  assert (∀ b L D a, ttl_rep wheel_times b L D → a ∉ L → L = D → ttl_rep wheel_times (ttl_Add wheel_times b a) ({[a]} ∪ L) ({[a]} ∪ D)) as Hadd.
  { intros b L D a Hr Ha ->. destruct (ttl_rep_add _ _ _ _ a Hr Ha) as (D' & Hr' & R1 & R2 & R3).
    assert (0 < wheel_times a) as Hp by (unfold wheel_times; repeat case_match; lia).
    specialize (R2 Hp). replace ({[a]} ∪ D) with D' at 2; [done|]. apply set_eq. intros x.
    destruct (decide (x = a)); set_solver. }
  replace ({[1; 2; 3]}%positive : gset loc) with ({[3%positive]} ∪ ({[2%positive]} ∪ ({[1%positive]} ∪ ∅)) : gset loc) by set_solver.
  pose proof (wheel_new_rep wheel_times 4 10 0 ltac:(lia)) as H0. change wheel_tracks with (@ttl_rep wheelBackend _ _) in *.
  apply Hadd; [apply Hadd; [apply Hadd; [exact H0|..]|..]|..]; set_solver.
Qed.

Lemma advance_exact_witness : ∃ es w', AdvanceTo (wb sample_wheel) 57 = (es, w') ∧ NoDup es ∧ length es = 2%nat.
Proof.
  destruct sample_wheel_tracks as [vs HP]. pose proof (advance_exact (wb sample_wheel) vs 57 (wp_inv _ _ _ _ _ HP)) as HA.
  destruct (AdvanceTo (wb sample_wheel) 57) as [es w'] eqn:E. exists es, w'. split_and!; [done|apply HA|].
  vm_compute in E. by injection E as <- _.
Defined.

Lemma wheel_timely_witness : (wb_Sweep wheel_times sample_wheel 57).1 = [2; 1]%positive ∧ 1%positive ∈ (wb_Sweep wheel_times sample_wheel 57).1.
Proof.
  split; [vm_compute; reflexivity|].
  pose proof (wheel_timely wheel_times sample_wheel _ _ 57 sample_wheel_tracks) as HT.
  destruct (wb_Sweep wheel_times sample_wheel 57) as [l b']. apply HT; [|vm_compute; split; [discriminate|reflexivity]|set_solver|vm_compute; discriminate].
  intros a _. unfold wheel_times. repeat case_match; lia.
Defined.
