(* ===== verification/Backends.v ===== *)
(** * Backends: the table and the TTL backend a shard runs
      ([newShardStore] of [shardstore.go], [newTTLBackend] of [ttlbackend.go])

    As with the policies, the value behind an interface is a sum over its
    implementations, and the laws of the interface hold for whichever was
    configured. *)

From S2P Require Import Prelude Storage FlatStore Ttl Heap Dll Wheel.

#[local] Open Scope Z_scope.

(** ** Tables *)

Section stores.
Context {K : Type} `{Countable K}.

Inductive anyStore :=
| MapSt (s : mapStore K)
| FlatSt (s : flatStore K).

Definition newShardStore (flatStorage : bool) (hasher : K → Z) : anyStore :=
  if flatStorage then FlatSt (newFlatStore hasher flatStoreInitialCap) else MapSt newMapStore.

#[export] Instance any_store : ShardStore K anyStore := {
  st_get x k := match x with MapSt s => st_get s k | FlatSt s => st_get s k end;
  st_set x k a := match x with MapSt s => MapSt (st_set s k a) | FlatSt s => FlatSt (st_set s k a) end;
  st_del x k := match x with
    | MapSt s => let '(b, s) := st_del s k in (b, MapSt s)
    | FlatSt s => let '(b, s) := st_del s k in (b, FlatSt s)
    end;
  st_length x := match x with MapSt s => st_length s | FlatSt s => st_length s end;
  st_clearAll x := match x with MapSt s => MapSt (st_clearAll s) | FlatSt s => FlatSt (st_clearAll s) end;
  st_each x := match x with MapSt s => st_each s | FlatSt s => st_each s end;
  st_compactions x := match x with MapSt s => st_compactions s | FlatSt s => st_compactions s end
}.

Definition any_store_rep (x : anyStore) (m : gmap K loc) : Prop :=
  match x with MapSt s => st_rep s m | FlatSt s => st_rep s m end.

#[export] Program Instance any_store_laws : StoreLaws K anyStore := { st_rep := any_store_rep }.
Next Obligation. intros [s|s] m k HR; exact (st_rep_get s m k HR). Qed.
Next Obligation. intros [s|s] m k a HR; exact (st_rep_set s m k a HR). Qed.
Next Obligation.
  intros [s|s] m k HR; pose proof (st_rep_del s m k HR) as Hd; unfold st_del at 1 2; cbn [any_store];
    destruct (st_del s k) as [b s']; exact Hd.
Qed.
Next Obligation. intros [s|s] m HR; exact (st_rep_length s m HR). Qed.
Next Obligation. intros [s|s] m HR; exact (st_rep_clearAll s m HR). Qed.
Next Obligation. intros [s|s] m HR; exact (st_rep_each s m HR). Qed.

Lemma newShardStore_rep flat hasher : st_rep (newShardStore flat hasher) ∅.
Proof. destruct flat; [|done]. apply flat_new. done. Qed.
End stores.
Arguments anyStore K {_ _}.

(** ** TTL backends *)

Inductive anyTtl :=
| HeapTtl (h : expiryHeapBackend)
| WheelTtl (b : wheelBackend).

(** [ttlBuckets], [ttlBucketsTickPerBucket], [janitorInterval] and the time
    at construction, 0 without a clock. *)
Definition newTTLBackend (ttlBuckets tickPerBucket janitorInterval origin : Z) : anyTtl :=
  if bool_decide (0 < ttlBuckets) then
    let ticks := if bool_decide (tickPerBucket <= 0) then 1 else tickPerBucket in
    let base := if bool_decide (janitorInterval <= 0) then 30000000000 else janitorInterval in
    WheelTtl (newWheelBackend ttlBuckets (Z.max (base `quot` ticks) 1) origin)
  else HeapTtl newExpiryHeapBackend.

#[export] Instance any_ttl : TtlBackend anyTtl := {
  ttl_Add x t a := match t with HeapTtl h => HeapTtl (ttl_Add x h a) | WheelTtl b => WheelTtl (ttl_Add x b a) end;
  ttl_Remove x t a := match t with HeapTtl h => HeapTtl (ttl_Remove x h a) | WheelTtl b => WheelTtl (ttl_Remove x b a) end;
  ttl_Fix x t a := match t with HeapTtl h => HeapTtl (ttl_Fix x h a) | WheelTtl b => WheelTtl (ttl_Fix x b a) end;
  ttl_Sweep x t now := match t with
    | HeapTtl h => let '(l, h) := ttl_Sweep x h now in (l, HeapTtl h)
    | WheelTtl b => let '(l, b) := ttl_Sweep x b now in (l, WheelTtl b)
    end;
  ttl_Len t := match t with HeapTtl h => ttl_Len h | WheelTtl b => ttl_Len b end;
  ttl_Reset t := match t with HeapTtl h => HeapTtl (ttl_Reset h) | WheelTtl b => WheelTtl (ttl_Reset b) end;
  ttl_unindex t a := match t with HeapTtl h => HeapTtl (ttl_unindex h a) | WheelTtl b => WheelTtl (ttl_unindex b a) end
}.

Definition any_ttl_rep (x : loc → Z) (t : anyTtl) (L D : gset loc) : Prop :=
  match t with HeapTtl h => ttl_rep x h L D | WheelTtl b => ttl_rep x b L D end.

Lemma any_unindex (t : anyTtl) l :
  foldl ttl_unindex t l =
  match t with HeapTtl h => HeapTtl (foldl ttl_unindex h l) | WheelTtl b => WheelTtl (foldl ttl_unindex b l) end.
Proof. revert t. induction l as [|a l IH]; intros [h|b]; [done|done|apply (IH (HeapTtl _))|apply (IH (WheelTtl _))]. Qed.

#[export] Program Instance any_ttl_laws : TtlLaws anyTtl := { ttl_rep := any_ttl_rep }.
Next Obligation. intros x [t|t] L D HR; exact (ttl_rep_sub x t L D HR). Qed.
Next Obligation. intros x x' [t|t] L D HR Hx; exact (ttl_rep_ext x x' t L D HR Hx). Qed.
Next Obligation. intros x [t|t] L D a HR Ha; exact (ttl_rep_add x t L D a HR Ha). Qed.
Next Obligation. intros x [t|t] L D a HR Ha; exact (ttl_rep_remove x t L D a HR Ha). Qed.
Next Obligation. intros x x' [t|t] L D a HR Ha Hx; exact (ttl_rep_fix x x' t L D a HR Ha Hx). Qed.
Next Obligation.
  intros x [t|t] L D now HR; pose proof (ttl_rep_sweep x t L D now HR) as Hs; unfold ttl_Sweep at 1; cbn [any_ttl];
    destruct (ttl_Sweep x t now) as [l t']; exact Hs.
Qed.
Next Obligation. intros x [t|t] L D HR; exact (ttl_rep_len x t L D HR). Qed.
Next Obligation. intros x [t|t] L D a HR Ha; exact (ttl_rep_unindex x t L D a HR Ha). Qed.
Next Obligation. intros x x' [t|t] L D l HR; rewrite any_unindex; exact (ttl_rep_reset x x' t L D l HR). Qed.

Lemma newTTLBackend_rep x buckets ticks janitor origin :
  0 <= origin → ttl_rep x (newTTLBackend buckets ticks janitor origin) ∅ ∅.
Proof.
  intros Ho. unfold newTTLBackend. case_bool_decide; [by apply wheel_new_rep|apply empty_rep].
Qed.
