(* ===== verification/Codec.v ===== *)
(** * Codec: how snapshots turn keys and values into bytes ([codec.go],
      [codec_compress.go], [codec_encrypt.go], the codec part of
      [snapshot.go])

    A codec is a base codec (gob, JSON, raw or the user's) under any number of
    compression and encryption layers.  A byte is a [Z] from 0 to 255.  The
    base codecs other than [RawCodec], gzip and AES-GCM are parameters; what
    a round trip needs of them are the hypotheses [gunzip_gzip] and
    [open_seal], and that the base codec decodes what it encoded.

    Shown here: decoding inverts encoding through every stack of layers and
    charges the decompression budget exactly as encoding did
    ([codec_roundtrip]), and the varint form of raw keys is invertible for
    every integer width ([raw_key_roundtrip]). *)

From stdpp Require Import strings.
From S2P Require Import Prelude.

#[local] Open Scope Z_scope.

Abbreviation bytes := (list Z).

Definition blen (b : bytes) : Z := Z.of_nat (length b).

(** The errors a snapshot can end with, by what [errors.Is] finds. *)
Inductive serr :=
| ErrCodec                 (* a [*CodecError] *)
| ErrSnapshotTooLarge
| ErrSnapshotCorrupt
| ErrSnapshotIncompatible
| errEncryptedLegacy
| errFieldTooBig
| errTooManyTags
| errUnexpectedEOF
| ErrClosed.

Abbreviation res A := (sum serr A).

#[export] Instance res_ret : MRet (sum serr) := λ A a, inr a.
#[export] Instance res_bind : MBind (sum serr) := λ A B f r, match r with inl e => inl e | inr a => f a end.

(** ** Varints ([encoding/binary]) *)

(** The loop of [AppendUvarint]: seven bits at a time, low ones first; ten
    groups hold a [uint64]. *)
Fixpoint uvarint_groups (fuel : nat) (x : Z) : bytes :=
  match fuel with
  | O => []
  | S fuel =>
      if bool_decide (0x80 <= x) then Z.lor (Z.land x 0xff) 0x80 :: uvarint_groups fuel (Z.shiftr x 7) else [x]
  end.

Definition AppendUvarint (x : Z) : bytes := uvarint_groups 10 x.

(** [^x] on a [uint64]. *)
Definition unot (x : Z) : Z := Z.lxor x (2 ^ 64 - 1).

Definition AppendVarint (x : Z) : bytes :=
  let ux := u64 (Z.shiftl (u64 x) 1) in
  AppendUvarint (if bool_decide (x < 0) then unot ux else ux).

(** The value and the number of bytes read, 0 when they run out and negative
    on overflow; [i] bytes were read and [s] bits filled. *)
Fixpoint Uvarint_loop (b : bytes) (i x s : Z) : Z * Z :=
  match b with
  | [] => (0, 0)
  | c :: b =>
      if bool_decide (i = 10) then (0, - (i + 1))
      else if bool_decide (c < 0x80) then
        if bool_decide (i = 9) && bool_decide (1 < c) then (0, - (i + 1))
        else (Z.lor x (u64 (Z.shiftl c s)), i + 1)
      else Uvarint_loop b (i + 1) (Z.lor x (u64 (Z.shiftl (Z.land c 0x7f) s))) (s + 7)
  end.

Definition Uvarint (b : bytes) : Z * Z := Uvarint_loop b 0 0 0.

Definition Varint (b : bytes) : Z * Z :=
  let '(ux, n) := Uvarint b in
  let x := i64 (Z.shiftr ux 1) in
  (if bool_decide (Z.land ux 1 ≠ 0) then -1 - x else x, n).

(** ** Keys under a raw codec *)

(** A key by its [reflect.Kind]; [bits] is the width of the integer type. *)
Inductive goKey :=
| KString (s : bytes)
| KInt (bits n : Z)
| KUint (bits n : Z)
| KOther.

Inductive goKind := KindString | KindInt (bits : Z) | KindUint (bits : Z) | KindOther.

Definition rawKeyBytes (key : goKey) : res bytes :=
  match key with
  | KString s => inr s
  | KInt _ n => inr (AppendVarint n)
  | KUint _ n => inr (AppendUvarint n)
  | KOther => inl ErrCodec
  end.

(** [rv.OverflowInt] and [rv.OverflowUint] *)
Definition OverflowInt (bits n : Z) : bool := negb (bool_decide (- 2 ^ (bits - 1) <= n) && bool_decide (n < 2 ^ (bits - 1))).
Definition OverflowUint (bits n : Z) : bool := negb (bool_decide (n < 2 ^ bits)).

Definition setRawKey (b : bytes) (dst : goKind) : res goKey :=
  match dst with
  | KindString => inr (KString b)
  | KindInt bits =>
      let '(n, size) := Varint b in
      if bool_decide (size <= 0) || bool_decide (size ≠ blen b) || OverflowInt bits n then inl ErrCodec else inr (KInt bits n)
  | KindUint bits =>
      let '(n, size) := Uvarint b in
      if bool_decide (size <= 0) || bool_decide (size ≠ blen b) || OverflowUint bits n then inl ErrCodec else inr (KUint bits n)
  | KindOther => inl ErrCodec
  end.

Definition kind_of (key : goKey) : goKind :=
  match key with
  | KString _ => KindString
  | KInt bits _ => KindInt bits
  | KUint bits _ => KindUint bits
  | KOther => KindOther
  end.

(** The values a key of that kind can have. *)
Definition goKey_ok (key : goKey) : Prop :=
  match key with
  | KString _ => True
  | KInt bits n => 1 <= bits <= 64 ∧ - 2 ^ (bits - 1) <= n < 2 ^ (bits - 1)
  | KUint bits n => 1 <= bits <= 64 ∧ 0 <= n < 2 ^ bits
  | KOther => False
  end.

(** ** Lemmas on varints *)

Lemma high_bit a s i : 0 <= a < 2 ^ s → 0 <= s <= i → Z.testbit a i = false.
Proof. intros Ha Hs. rewrite -(Z.mod_small a (2 ^ s)) //. apply Z.mod_pow2_bits_high. lia. Qed.

Lemma lor_above a b s : 0 <= s → 0 <= a < 2 ^ s → Z.lor a (Z.shiftl b s) = a + b * 2 ^ s.
Proof.
  intros Hs Ha. rewrite Z.shiftl_mul_pow2 //. assert (Z.land a (b * 2 ^ s) = 0) as Hl.
  { apply Z.bits_inj'. intros i Hi. rewrite Z.land_spec Z.bits_0. destruct (decide (i < s)).
    - rewrite Z.mul_pow2_bits_low; [|done]. apply andb_false_r.
    - rewrite (high_bit a s); [done|done|lia]. }
  rewrite -Z.lxor_lor // -Z.add_nocarry_lxor //.
Qed.

Lemma group_low x : 0 <= x → Z.lor (Z.land x 0xff) 0x80 = x `mod` 128 + 128.
Proof.
  intros Hx. assert (Z.lor (Z.land x 0xff) 0x80 = Z.lor (x `mod` 2 ^ 7) (Z.shiftl 1 7)) as ->.
  { apply Z.bits_inj'. intros i Hi. rewrite !Z.lor_spec Z.land_spec. change 0xff with (Z.ones 8). change 0x80 with (Z.shiftl 1 7).
    destruct (decide (i < 7)).
    - rewrite Z.ones_spec_low; [|lia]. rewrite Z.mod_pow2_bits_low; [|lia]. by rewrite andb_true_r.
    - rewrite Z.mod_pow2_bits_high; [|lia]. destruct (decide (i = 7)) as [->|]; [by rewrite orb_true_r|].
      rewrite Z.ones_spec_high; [|lia]. by rewrite andb_false_r. }
  rewrite lor_above; [|lia|apply Z.mod_pos_bound; lia]. done.
Qed.

Lemma group_back x : 0 <= x → Z.land (Z.lor (Z.land x 0xff) 0x80) 0x7f = x `mod` 128.
Proof.
  intros Hx. rewrite group_low //. change 0x7f with (Z.ones 7). rewrite Z.land_ones; [|lia].
  change (2 ^ 7) with 128. replace (x `mod` 128 + 128) with (x `mod` 128 + 1 * 128) by lia.
  rewrite Z.mod_add; [|lia]. by rewrite Z.mod_mod; [|lia].
Qed.

Lemma Uvarint_groups fuel x a (i : nat) :
  (i + fuel = 10)%nat → 0 <= a < 2 ^ (7 * Z.of_nat i) → 0 <= x < 2 ^ (64 - 7 * Z.of_nat i) →
  Uvarint_loop (uvarint_groups fuel x) (Z.of_nat i) a (7 * Z.of_nat i) =
    (a + x * 2 ^ (7 * Z.of_nat i), Z.of_nat i + blen (uvarint_groups fuel x)).
Proof.
  revert x a i. induction fuel as [|fuel IH]; intros x a i Hi Ha Hx.
  { assert (i = 10%nat) as -> by lia. change (64 - 7 * Z.of_nat 10) with (-6) in Hx. cbn in Hx. lia. }
  cbn [uvarint_groups]. assert (Z.of_nat i ≠ 10) by lia.
  assert (2 ^ (64 - 7 * Z.of_nat i) * 2 ^ (7 * Z.of_nat i) = 2 ^ 64) as Hp by (rewrite -Z.pow_add_r; [f_equal; lia|lia|lia]).
  case_bool_decide as Hb.
  - cbn [Uvarint_loop]. rewrite bool_decide_false; [|done]. rewrite group_back; [|lia].
    rewrite bool_decide_false; [|rewrite group_low; [pose proof (Z.mod_pos_bound x 128)|]; lia].
    assert (i ≠ 9%nat) as Hi9. { intros ->. change (64 - 7 * Z.of_nat 9) with 1 in Hx. lia. }
    pose proof (Z.mod_pos_bound x 128 ltac:(lia)) as Hm. pose proof (Z.div_mod x 128 ltac:(lia)) as Hdm.
    assert (x `mod` 128 * 2 ^ (7 * Z.of_nat i) < 2 ^ 64) as Hlt by nia.
    rewrite u64_id; [|rewrite Z.shiftl_mul_pow2; [unfold is_u64; nia|lia]]. rewrite lor_above; [|lia|done].
    assert (2 ^ (7 * Z.of_nat (S i)) = 128 * 2 ^ (7 * Z.of_nat i)) as Hs.
    { replace (7 * Z.of_nat (S i)) with (7 + 7 * Z.of_nat i) by lia. rewrite Z.pow_add_r; lia. }
    assert (2 ^ (64 - 7 * Z.of_nat i) = 128 * 2 ^ (64 - 7 * Z.of_nat (S i))) as Hs'.
    { replace (64 - 7 * Z.of_nat i) with (7 + (64 - 7 * Z.of_nat (S i))) by lia. rewrite Z.pow_add_r; lia. }
    replace (Z.of_nat i + 1) with (Z.of_nat (S i)) by lia. replace (7 * Z.of_nat i + 7) with (7 * Z.of_nat (S i)) by lia.
    rewrite Z.shiftr_div_pow2; [|lia]. change (2 ^ 7) with 128.
    rewrite IH; [|lia|rewrite Hs; nia|split; [apply Z.div_pos; lia|apply Z.div_lt_upper_bound; lia]].
    f_equal; [rewrite Hs; nia|]. unfold blen. cbn [length]. lia.
  - cbn [Uvarint_loop]. rewrite bool_decide_false; [|done]. rewrite (bool_decide_true (x < 0x80)); [|lia].
    assert (bool_decide (Z.of_nat i = 9) && bool_decide (1 < x) = false) as ->.
    { destruct (decide (i = 9%nat)) as [->|].
      - rewrite (bool_decide_false (1 < x)) ?andb_false_r //. change (64 - 7 * Z.of_nat 9) with 1 in Hx. lia.
      - rewrite bool_decide_false //. lia. }
    rewrite u64_id; [|rewrite Z.shiftl_mul_pow2; [unfold is_u64; nia|lia]]. rewrite lor_above; [done|lia|done].
Qed.

Lemma Uvarint_spec x : is_u64 x → Uvarint (AppendUvarint x) = (x, blen (AppendUvarint x)).
Proof.
  intros Hx. unfold Uvarint, AppendUvarint. unfold is_u64 in Hx.
  rewrite (Uvarint_groups 10 x 0 0); [f_equal; cbn; lia|done|done|done].
Qed.

Lemma uvarint_nonempty x : 0 < blen (AppendUvarint x).
Proof. unfold blen, AppendUvarint. cbn [uvarint_groups]. case_bool_decide; cbn [length]; lia. Qed.

Lemma unot_spec x : is_u64 x → unot x = 2 ^ 64 - 1 - x.
Proof.
  intros Hx. unfold unot. change (2 ^ 64 - 1) with (Z.ones 64).
  assert (Z.lxor x (Z.ones 64) = Z.ldiff (Z.ones 64) x) as ->.
  { apply Z.bits_inj'. intros i Hi. rewrite Z.lxor_spec Z.ldiff_spec. destruct (decide (i < 64)).
    - rewrite Z.ones_spec_low; [|lia]. by destruct (Z.testbit x i).
    - rewrite Z.ones_spec_high; [|lia]. rewrite xorb_false_r. cbn. unfold is_u64 in Hx.
      by rewrite (high_bit x 64); [|lia|lia]. }
  symmetry. apply Z.sub_nocarry_ldiff. apply Z.bits_inj'. intros i Hi. rewrite Z.ldiff_spec Z.bits_0.
  destruct (decide (i < 64)); [rewrite Z.ones_spec_low ?andb_false_r //; lia|]. unfold is_u64 in Hx.
  by rewrite (high_bit x 64); [|lia|lia].
Qed.

Lemma Varint_spec x : is_i64 x → Varint (AppendVarint x) = (x, blen (AppendVarint x)).
Proof.
  intros Hx. unfold is_i64 in Hx. unfold Varint, AppendVarint.
  set (ux := if bool_decide (x < 0) then _ else _).
  assert (ux = if bool_decide (x < 0) then -2 * x - 1 else 2 * x) as Hux.
  { unfold ux. rewrite Z.shiftl_mul_pow2 //. change (2 ^ 1) with 2. case_bool_decide.
    - assert (u64 x = x + 2 ^ 64) as -> by (unfold u64; symmetry; apply (Z.mod_unique_pos _ _ (-1)); lia).
      assert (u64 ((x + 2 ^ 64) * 2) = 2 * x + 2 ^ 64) as -> by (unfold u64; symmetry; apply (Z.mod_unique_pos _ _ 1); lia).
      rewrite unot_spec; [lia|unfold is_u64; lia].
    - rewrite (u64_id x); [|unfold is_u64; lia]. rewrite u64_id; [lia|unfold is_u64; lia]. }
  rewrite Uvarint_spec; [|rewrite Hux; unfold is_u64; case_bool_decide; lia].
  assert (Z.land ux 1 = ux `mod` 2) as -> by (change 1 with (Z.ones 1); by rewrite Z.land_ones).
  rewrite Z.shiftr_div_pow2 //. change (2 ^ 1) with 2. rewrite Hux.
  destruct (bool_decide_reflect (x < 0)) as [Hneg|Hneg].
  - replace (-2 * x - 1) with (1 + (- x - 1) * 2) by lia. rewrite Z.mod_add // Z.div_add //.
    rewrite bool_decide_true; [|done]. change (1 / 2) with 0. rewrite i64_id; [|unfold is_i64; lia]. f_equal. lia.
  - rewrite Z.mul_comm Z.mod_mul // Z.div_mul //. rewrite i64_id; [|unfold is_i64; lia]. done.
Qed.

Lemma raw_key_bytes key :
  goKey_ok key → ∃ b, rawKeyBytes key = inr b ∧ setRawKey b (kind_of key) = inr key.
Proof.
  intros Hk. destruct key as [s|bits n|bits n|]; cbn in *; [by eauto| | |done].
  - destruct Hk as [Hb Hn]. assert (2 ^ (bits - 1) <= 2 ^ 63) by (apply Z.pow_le_mono_r; lia).
    eexists. split; [done|]. rewrite Varint_spec; [|unfold is_i64; lia]. unfold OverflowInt.
    rewrite (bool_decide_true (_ <= n)); [|lia]. rewrite (bool_decide_true (n < 2 ^ (bits - 1))); [|lia]. cbn [andb negb].
    rewrite orb_false_r. rewrite (bool_decide_false (blen _ ≠ _)); [|by intros []]. rewrite orb_false_r bool_decide_false //.
    pose proof (uvarint_nonempty (if bool_decide (n < 0) then unot (u64 (Z.shiftl (u64 n) 1)) else u64 (Z.shiftl (u64 n) 1))).
    unfold AppendVarint. lia.
  - destruct Hk as [Hb Hn]. assert (2 ^ bits <= 2 ^ 64) by (apply Z.pow_le_mono_r; lia).
    eexists. split; [done|]. rewrite Uvarint_spec; [|unfold is_u64; lia]. unfold OverflowUint.
    rewrite (bool_decide_true (n < _)); [|lia]. cbn [negb].
    rewrite orb_false_r. rewrite (bool_decide_false (blen _ ≠ _)); [|by intros []]. rewrite orb_false_r bool_decide_false //.
    pose proof (uvarint_nonempty n). lia.
Qed.

(** The bytes of a raw key decode to that key: strings as they are,
    signed and unsigned integers of every width through the zig-zag and
    varint coding of [encoding/binary]. *)
Theorem raw_key_roundtrip key :
  goKey_ok key → ∃ b, rawKeyBytes key = inr b ∧ setRawKey b (kind_of key) = inr key.
Proof. exact (raw_key_bytes key). Qed.

Lemma raw_key_roundtrip_witness :
  ∃ b, rawKeyBytes (KInt 32 (-300)) = inr b ∧ setRawKey b (KindInt 32) = inr (KInt 32 (-300)).
Proof. apply (raw_key_roundtrip (KInt 32 (-300))). cbn. lia. Defined.

(** ** Codecs *)

(** The arguments of [gzip] and [AES-GCM]: [gzip level raw] is the compressed
    form; [gunzip data lim] what [io.ReadAll] gives for the stream of
    [gzip.NewReader(data)], through an [io.LimitReader] of [n] when [lim] is
    [Some n]; [gcmSeal] and [gcmOpen] take the key, the nonce, the text and
    the associated data; [rand i] is the [i]-th nonce [rand.Reader] gives,
    [None] when it fails. *)
Record codecEnv := CodecEnv {
  gzip : Z → bytes → res bytes;
  gunzip : bytes → option Z → res bytes;
  gcmSeal : bytes → bytes → bytes → bytes → bytes;
  gcmOpen : bytes → bytes → bytes → bytes → option bytes;
  rand : nat → option bytes
}.

(** The nonce size of AES-GCM and the bytes its tag adds. *)
Definition nonceSize : nat := 12.
Definition gcmOverhead : Z := 16.

(** What an [io.LimitReader] lets through: nothing when [n] is not positive. *)
Definition limited (lim : option Z) (raw : bytes) : bytes :=
  match lim with Some n => take (Z.to_nat n) raw | None => raw end.

(** What the libraries document. *)
Record codecEnv_ok (L : codecEnv) : Prop := {
  gunzip_gzip : ∀ level raw out lim, gzip L level raw = inr out → gunzip L out lim = inr (limited lim raw);
  open_seal : ∀ key n plain ad, length n = nonceSize → gcmOpen L key n (gcmSeal L key n plain ad) ad = Some plain;
  rand_size : ∀ i n, rand L i = Some n → length n = nonceSize
}.

(** [saveState], with the number of nonces drawn so far. *)
Record saveState := SaveState { ss_inflateLeft : Z; ss_drawn : nat }.

Definition compress (L : codecEnv) (level : Z) (raw : bytes) : res bytes :=
  (* [gzip.HuffmanOnly] is -2, [gzip.BestCompression] 9, [gzip.DefaultCompression] -1 *)
  let level := if bool_decide (level < -2) || bool_decide (9 < level) then -1 else level in
  gzip L level raw.

(** [max(limit, 0)+1] wraps around for the largest limit. *)
Definition inflate (L : codecEnv) (data : bytes) (limit : Z) : res bytes :=
  match gunzip L data (Some (i64 (Z.max limit 0 + 1))) with
  | inl e => inl e
  | inr raw => if bool_decide (limit < blen raw) then inl ErrSnapshotTooLarge else inr raw
  end.

Definition maxGCMPlaintext : Z := (2 ^ 32 - 2) * 16.
Definition maxInt : Z := 2 ^ 63 - 1.

Definition seal (L : codecEnv) (key : bytes) (i : nat) (plain ad : bytes) : res (bytes * nat) :=
  if bool_decide (maxGCMPlaintext < blen plain) || bool_decide (maxInt - Z.of_nat nonceSize - gcmOverhead < blen plain) then inl ErrCodec
  else match rand L i with
       | None => inl ErrCodec
       | Some nonce => inr (nonce ++ gcmSeal L key nonce plain ad, S i)
       end.

Definition openSealed (L : codecEnv) (key data ad : bytes) : res bytes :=
  if bool_decide (length data < nonceSize)%nat then inl ErrCodec
  else match gcmOpen L key (take nonceSize data) (drop nonceSize data) ad with Some p => inr p | None => inl ErrCodec end.

Section codec.
Context {K V : Type} (L : codecEnv).

(** What is handed to a codec, and what a destination pointer points to. *)
Inductive dyn := DKey (k : K) | DVal (v : V) | DBytes (b : bytes).
Inductive dest := ToKey | ToVal | ToBytes.

(** A codec that is neither [CompressedCodec] nor [EncryptedCodec]: [gob],
    [json], [RawCodec], or the user's. *)
Record baseCodec := BaseCodec {
  bc_Name : string;
  bc_raw : bool;
  bc_Marshal : dyn → res bytes;
  bc_Unmarshal : bytes → dest → res dyn
}.

(** [asBytes] and [ofBytes] are the type assertions on [V]: defined when [V]
    is [[]byte]. *)
Definition RawCodec (asBytes : V → option bytes) (ofBytes : bytes → option V) : baseCodec :=
  BaseCodec "raw" true
    (λ d, match d with
          | DBytes b => inr b
          | DVal v => match asBytes v with Some b => inr b | None => inl ErrCodec end
          | DKey _ => inl ErrCodec
          end)
    (λ b dst, match dst with
              | ToBytes => inr (DBytes b)
              | ToVal => match ofBytes b with Some v => inr (DVal v) | None => inl ErrCodec end
              | ToKey => inl ErrCodec
              end).

Inductive Codec :=
| CBase (b : baseCodec)
| CompressedCodec (base : Codec) (level : Z)
| EncryptedCodec (base : Codec) (key : bytes).

(** Any key but one of 32 bytes is refused. *)
Definition NewEncryptedCodec (base : Codec) (key : bytes) : res Codec :=
  if bool_decide (length key ≠ 32%nat) then inl ErrCodec else inr (EncryptedCodec base key).

Fixpoint codec_Name (c : Codec) : string :=
  match c with
  | CBase b => bc_Name b
  | CompressedCodec base _ => (codec_Name base +:+ "+gzip")%string
  | EncryptedCodec base _ => (codec_Name base +:+ "+aes-256-gcm")%string
  end.

Fixpoint isRawCodec (c : Codec) : bool :=
  match c with
  | CBase b => bc_raw b
  | CompressedCodec base _ => isRawCodec base
  | EncryptedCodec base _ => isRawCodec base
  end.

(** [Codec.Marshal], with the number of nonces drawn. *)
Fixpoint codec_Marshal (c : Codec) (i : nat) (v : dyn) : res (bytes * nat) :=
  match c with
  | CBase b => out ← bc_Marshal b v; mret (out, i)
  | CompressedCodec base level => '(raw, i) ← codec_Marshal base i v; out ← compress L level raw; mret (out, i)
  | EncryptedCodec base key => '(plain, i) ← codec_Marshal base i v; seal L key i plain []
  end.

(** [Codec.Unmarshal] *)
Fixpoint codec_Unmarshal (c : Codec) (data : bytes) (dst : dest) : res dyn :=
  match c with
  | CBase b => bc_Unmarshal b data dst
  | CompressedCodec base _ => raw ← gunzip L data None; codec_Unmarshal base raw dst
  | EncryptedCodec base key => plain ← openSealed L key data []; codec_Unmarshal base plain dst
  end.

(** [saveState.encode] and [encodeCompressed] *)
Fixpoint encode (c : Codec) (ss : saveState) (v : dyn) : res (bytes * saveState) :=
  match c with
  | CompressedCodec base level =>
      '(raw, ss) ← encode base ss v;
      let left := ss_inflateLeft ss - blen raw in
      if bool_decide (left < 0) then inl ErrSnapshotTooLarge
      else out ← compress L level raw; mret (out, SaveState left (ss_drawn ss))
  | EncryptedCodec base key =>
      '(plain, ss) ← encode base ss v;
      '(out, i) ← seal L key (ss_drawn ss) plain []; mret (out, SaveState (ss_inflateLeft ss) i)
  | CBase b => out ← bc_Marshal b v; mret (out, ss)
  end.

(** [loadState.decode] and [decodeCompressed]: the value and what is left of
    the decompression budget. *)
Fixpoint decode (c : Codec) (inflateLeft : Z) (data : bytes) (dst : dest) : res (dyn * Z) :=
  match c with
  | CompressedCodec base _ =>
      raw ← inflate L data inflateLeft;
      decode base (inflateLeft - blen raw) raw dst
  | EncryptedCodec base key => plain ← openSealed L key data []; decode base inflateLeft plain dst
  | CBase b => v ← bc_Unmarshal b data dst; mret (v, inflateLeft)
  end.

(** The codec without its outermost encryption layer, and that layer's key. *)
Fixpoint splitEncryption (c : Codec) : Codec * option bytes :=
  match c with
  | EncryptedCodec base key => (base, Some key)
  | CompressedCodec base level =>
      match splitEncryption base with
      | (base', Some key) => (CompressedCodec base' level, Some key)
      | (_, None) => (c, None)
      end
  | CBase _ => (c, None)
  end.

(** *** Round trips *)

Context (HL : codecEnv_ok L).

(** The base codec of a stack decodes [v] from what it encoded. *)
Fixpoint base_ok (c : Codec) (v : dyn) (dst : dest) : Prop :=
  match c with
  | CBase b => ∀ out, bc_Marshal b v = inr out → bc_Unmarshal b out dst = inr v
  | CompressedCodec base _ | EncryptedCodec base _ => base_ok base v dst
  end.

Lemma open_sealed key i plain ad out i' : seal L key i plain ad = inr (out, i') → openSealed L key out ad = inr plain.
Proof using HL.
  unfold seal, openSealed. destruct (_ || _); [done|]. destruct (rand L i) as [n|] eqn:En; [|done]. intros [= <- <-].
  pose proof (rand_size L HL i n En) as Hn. rewrite bool_decide_false; [|rewrite length_app Hn; lia].
  rewrite -{1 2}Hn take_app_length drop_app_length. by rewrite (open_seal L HL).
Qed.

Lemma inflate_compress level raw out left :
  compress L level raw = inr out → blen raw <= left < maxInt → inflate L out left = inr raw.
Proof using HL.
  unfold compress, inflate. intros Hc [Hl Hm]. rewrite (gunzip_gzip L HL _ _ _ _ Hc). cbn.
  rewrite i64_id; [|unfold is_i64, maxInt, blen in *; lia].
  rewrite take_ge; [|unfold blen in *; lia]. rewrite bool_decide_false; [done|lia].
Qed.

Lemma encode_spends c ss v out ss' : encode c ss v = inr (out, ss') → ss_inflateLeft ss' <= ss_inflateLeft ss.
Proof using Type.
  revert out ss'. induction c as [b|c IH level|c IH key]; intros out ss'; cbn.
  - destruct (bc_Marshal b v); [done|]. cbn. by intros [= _ <-].
  - destruct (encode c ss v) as [|[raw s1]] eqn:E; [done|]. cbn. case_bool_decide; [done|].
    destruct (compress L level raw); [done|]. cbn. intros [= _ <-]. specialize (IH _ _ eq_refl). cbn. unfold blen. lia.
  - destruct (encode c ss v) as [|[raw s1]] eqn:E; [done|]. cbn. destruct (seal _ _ _ _ _) as [|[]]; [done|].
    cbn. intros [= _ <-]. exact (IH _ _ eq_refl).
Qed.

Lemma decode_encode c ss v dst out ss' spent :
  base_ok c v dst → encode c ss v = inr (out, ss') →
  0 <= spent <= ss_inflateLeft ss' → ss_inflateLeft ss < maxInt →
  decode c (ss_inflateLeft ss - spent) out dst = inr (v, ss_inflateLeft ss' - spent).
Proof using HL.
  revert out ss' spent. induction c as [b|c IH level|c IH key]; intros out ss' spent Hb; cbn.
  - destruct (bc_Marshal b v) as [|o] eqn:E; [done|]. cbn. intros [= <- <-] _ _. by rewrite (Hb o).
  - destruct (encode c ss v) as [|[raw s1]] eqn:E; [done|]. cbn. case_bool_decide as Hl; [done|].
    destruct (compress L level raw) as [|o] eqn:Eg; [done|]. cbn. intros [= <- <-] H1 H2. cbn in H1.
    pose proof (encode_spends _ _ _ _ _ E). rewrite (inflate_compress level raw); [|done|lia]. cbn.
    replace (ss_inflateLeft ss - spent - blen raw) with (ss_inflateLeft ss - (spent + blen raw)) by lia.
    cbn. replace (ss_inflateLeft s1 - blen raw - spent) with (ss_inflateLeft s1 - (spent + blen raw)) by lia.
    apply IH; [done|done|unfold blen in *; lia|done].
  - destruct (encode c ss v) as [|[raw s1]] eqn:E; [done|]. cbn. destruct (seal _ _ _ _ _) as [|[o i']] eqn:Es; [done|].
    cbn. intros [= <- <-] H1 H2. rewrite (open_sealed _ _ _ _ _ _ Es). cbn. by apply IH.
Qed.

Lemma encode_left c ss v out ss' :
  encode c ss v = inr (out, ss') → 0 <= ss_inflateLeft ss → 0 <= ss_inflateLeft ss'.
Proof using Type.
  revert out ss'. induction c as [b|c IH level|c IH key]; intros out ss'; cbn.
  - destruct (bc_Marshal b v); [done|]. cbn. by intros [= _ <-].
  - destruct (encode c ss v) as [|[raw s1]]; [done|]. cbn. case_bool_decide; [done|].
    destruct (compress L level raw); [done|]. cbn. intros [= _ <-] _. cbn. lia.
  - destruct (encode c ss v) as [|[raw s1]]; [done|]. cbn. destruct (seal _ _ _ _ _) as [|[]]; [done|].
    cbn. intros [= _ <-]. exact (IH _ _ eq_refl).
Qed.

(** Without the budget, [encode] is [Marshal]. *)
Lemma encode_Marshal c ss v out ss' :
  encode c ss v = inr (out, ss') → codec_Marshal c (ss_drawn ss) v = inr (out, ss_drawn ss').
Proof using Type.
  revert out ss'. induction c as [b|c IH level|c IH key]; intros out ss'; cbn.
  - destruct (bc_Marshal b v); [done|]. cbn. by intros [= -> ->].
  - destruct (encode c ss v) as [|[raw s1]]; [done|]. cbn. rewrite (IH _ _ eq_refl). cbn. case_bool_decide; [done|].
    destruct (compress L level raw); [done|]. cbn. by intros [= -> <-].
  - destruct (encode c ss v) as [|[raw s1]]; [done|]. cbn. rewrite (IH _ _ eq_refl). cbn.
    destruct (seal _ _ _ _ _) as [|[]]; [done|]. cbn. by intros [= -> <-].
Qed.

Lemma Unmarshal_Marshal c i v dst out i' :
  base_ok c v dst → codec_Marshal c i v = inr (out, i') → codec_Unmarshal c out dst = inr v.
Proof using HL.
  revert out i'. induction c as [b|c IH level|c IH key]; intros out i' Hb; cbn.
  - destruct (bc_Marshal b v) as [|o] eqn:E; [done|]. cbn. intros [= <- <-]. by apply Hb.
  - destruct (codec_Marshal c i v) as [|[raw j]]; [done|]. cbn. unfold compress.
    destruct (gzip L _ raw) as [|o] eqn:Eg; [done|]. cbn. intros [= <- <-].
    rewrite (gunzip_gzip L HL _ _ _ None Eg). cbn. by eapply IH.
  - destruct (codec_Marshal c i v) as [|[raw j]]; [done|]. cbn. intros Es. rewrite (open_sealed _ _ _ _ _ _ Es). cbn. by eapply IH.
Qed.

(** Through every stack of compression and encryption layers, decoding
    what was encoded gives the value back and charges the decompression
    budget exactly what encoding charged, so a load never runs out of a
    budget with which the save succeeded; and the plain [Marshal] and
    [Unmarshal] of the stack agree with the budgeted ones.  The budget must
    be below the largest [int64] (see [inflate_wraps]). *)
Theorem codec_roundtrip c ss v dst out ss' :
  base_ok c v dst → encode c ss v = inr (out, ss') → 0 <= ss_inflateLeft ss < maxInt →
  decode c (ss_inflateLeft ss) out dst = inr (v, ss_inflateLeft ss') ∧ 0 <= ss_inflateLeft ss' ∧
  codec_Marshal c (ss_drawn ss) v = inr (out, ss_drawn ss') ∧ codec_Unmarshal c out dst = inr v.
Proof using HL.
  intros Hb He Hl. pose proof (encode_left _ _ _ _ _ He). pose proof (encode_Marshal _ _ _ _ _ He) as Hm.
  split; [|split; [lia|split; [done|by eapply Unmarshal_Marshal]]].
  pose proof (decode_encode c ss v dst out ss' 0 Hb He) as H'. rewrite !Z.sub_0_r in H'. apply H'; lia.
Qed.

End codec.

Arguments dyn : clear implicits.
Arguments baseCodec : clear implicits.
Arguments Codec : clear implicits.

(** *** A concrete library to evaluate with *)

(** Stored, not deflated, with a tag byte in front; the "cipher" appends the
    associated data it then checks. *)
Definition toyEnv : codecEnv :=
  CodecEnv (λ _ raw, inr (31 :: raw))
    (λ data lim, match data with 31 :: raw => inr (limited lim raw) | _ => inl ErrCodec end)
    (λ key _ plain ad, blen ad :: ad ++ blen key :: key ++ plain)
    (λ key _ data ad,
      let pre := blen ad :: ad ++ blen key :: key in
      if bool_decide (take (length pre) data = pre) then Some (drop (length pre) data) else None)
    (λ i, Some (replicate nonceSize (Z.of_nat i `mod` 256))).

Lemma toyEnv_ok : codecEnv_ok toyEnv.
Proof.
  split.
  - intros level raw out lim [= <-]. done.
  - intros key n plain ad _. unfold toyEnv, gcmSeal, gcmOpen.
    set (pre := blen ad :: ad ++ blen key :: key).
    assert (blen ad :: ad ++ blen key :: key ++ plain = pre ++ plain) as ->.
    { unfold pre. cbn. by rewrite -assoc. }
    rewrite bool_decide_true; [|by rewrite take_app_length]. by rewrite drop_app_length.
  - intros i n [= <-]. done.
Qed.

(** The raw codec for values that are byte strings. *)
Definition rawBytes : baseCodec goKey bytes := RawCodec Some Some.

Definition toyStack : Codec goKey bytes :=
  CompressedCodec (EncryptedCodec (CompressedCodec (CBase rawBytes) 6) (replicate 32 7)) 42.

Lemma codec_roundtrip_witness :
  ∃ out ss', encode toyEnv toyStack (SaveState 1000 0) (DVal [1; 2; 3]) = inr (out, ss') ∧
    decode toyEnv toyStack 1000 out ToVal = inr (DVal [1; 2; 3], ss_inflateLeft ss').
Proof.
  destruct (encode toyEnv toyStack (SaveState 1000 0) (DVal [1; 2; 3])) as [e|[out ss']] eqn:E; [vm_compute in E; discriminate E|].
  exists out, ss'. split; [done|].
  refine (proj1 (codec_roundtrip toyEnv toyEnv_ok toyStack (SaveState 1000 0) _ _ out ss' _ E _)).
  - intros o [= <-]. done.
  - unfold maxInt. cbn. lia.
Defined.

(** With the largest budget, which every limit above a sixteenth of the
    largest [int64] has, [inflate] reads nothing: [limit+1] wraps around to a
    negative number, the reader stops at once, and the result is the empty
    string without an error. *)
Theorem inflate_wraps L level raw out :
  codecEnv_ok L → compress L level raw = inr out → inflate L out maxInt = inr [].
Proof.
  intros HL Hc. unfold inflate. rewrite (gunzip_gzip L HL _ _ _ _ Hc). done.
Qed.

Lemma inflate_wraps_witness : inflate toyEnv [31; 1; 2; 3] maxInt = inr [].
Proof. exact (inflate_wraps toyEnv 6 [1; 2; 3] _ toyEnv_ok eq_refl). Defined.
