(* ===== verification/Snapshot.v ===== *)
(** * Snapshot: the snapshot file format ([snapshot.go])

    Saving writes a header, the records and a CRC through a size limit; with
    an encryption layer the records go out as one sealed block bound to the
    header.  Loading reads, decodes and checks all of it before the cache is
    touched.  Both sides are programs of one state and error monad: the writer
    state is the output with what is left of the limit, the running CRC and
    the [saveState]; the reader state is the rest of the input with what is
    left of the limit, the running CRC, the captured header and the
    decompression budget of the [loadState].  A string is its bytes.  Offsets
    and messages of errors are left out: an error is the sentinel that
    [errors.Is] finds.

    Shown here: what a save with a limit wrote, a load with that limit reads
    back ([snapshot_roundtrip]); the header can be inspected without the key
    ([inspect_saved]); what a load accepts is followed by its own CRC
    ([load_checks_crc]), and the CRC tells apart any two inputs that differ in
    one byte ([crc_detects_byte]). *)

From stdpp Require Import strings gmap list sorting.
From S2P Require Import Prelude Codec.

#[local] Open Scope Z_scope.

(** ** Little-endian integers ([encoding/binary]) *)

Fixpoint le (n : nat) (x : Z) : bytes :=
  match n with O => [] | S n => x `mod` 256 :: le n (x / 256) end.

Fixpoint unle (b : bytes) : Z := match b with [] => 0 | x :: b => x + 256 * unle b end.

Lemma unle_le n x : 0 <= x < 256 ^ Z.of_nat n → unle (le n x) = x.
Proof.
  revert x. induction n as [|n IH]; intros x Hx; cbn [le unle].
  - change (256 ^ Z.of_nat 0) with 1 in Hx. lia.
  - rewrite Nat2Z.inj_succ Z.pow_succ_r in Hx; [|lia]. rewrite IH.
    + pose proof (Z.div_mod x 256). lia.
    + split; [apply Z.div_pos; lia|]. apply Z.div_lt_upper_bound; lia.
Qed.

Lemma length_le n x : length (le n x) = n.
Proof. revert x. induction n; cbn; auto. Qed.

(** ** CRC-32 with Castagnoli's polynomial ([hash/crc32]) *)

Definition castagnoli : Z := 0x82f63b78.

Fixpoint crc_bits (n : nat) (c : Z) : Z :=
  match n with
  | O => c
  | S n => crc_bits n (if Z.testbit c 0 then Z.lxor (Z.shiftr c 1) castagnoli else Z.shiftr c 1)
  end.

(** An entry of [crc32.MakeTable(crc32.Castagnoli)]. *)
Definition crcTable (i : Z) : Z := crc_bits 8 i.

(** [tab[byte(crc)^v] ^ (crc >> 8)] *)
Definition crc_byte (c v : Z) : Z := Z.lxor (crcTable (Z.land (Z.lxor c v) 0xff)) (Z.shiftr c 8).

Definition crcMask : Z := 0xffffffff.

(** [crc32.Update]; a new digest is 0. *)
Definition crcUpdate (crc : Z) (p : bytes) : Z := Z.lxor (foldl crc_byte (Z.lxor crc crcMask) p) crcMask.

Example crc_check : crcUpdate 0 [49; 50; 51; 52; 53; 54; 55; 56; 57] = 0xe3069283.
Proof. vm_compute. reflexivity. Qed.

Lemma lxor_cancel a b : Z.lxor (Z.lxor a b) b = a.
Proof. by rewrite Z.lxor_assoc Z.lxor_nilpotent Z.lxor_0_r. Qed.

Lemma crcUpdate_app c a b : crcUpdate c (a ++ b) = crcUpdate (crcUpdate c a) b.
Proof. unfold crcUpdate. by rewrite foldl_app lxor_cancel. Qed.

Lemma crcUpdate_nil c : crcUpdate c [] = c.
Proof. unfold crcUpdate. cbn [foldl]. apply lxor_cancel. Qed.

(** A 32-bit register, as the digest is. *)
Definition is_u32 (x : Z) : Prop := 0 <= x < 2 ^ 32.

Lemma u32_land x : is_u32 x ↔ Z.land x crcMask = x.
Proof.
  change crcMask with (Z.ones 32). rewrite Z.land_ones //. unfold is_u32. split.
  - apply Z.mod_small.
  - intros <-. by apply Z.mod_pos_bound.
Qed.

Lemma u32_lxor x y : is_u32 x → is_u32 y → is_u32 (Z.lxor x y).
Proof.
  rewrite !u32_land. intros Hx Hy. rewrite -{2}Hx -{2}Hy. apply Z.bits_inj'. intros n _.
  rewrite !Z.land_spec !Z.lxor_spec !Z.land_spec. by destruct (Z.testbit x n), (Z.testbit y n), (Z.testbit crcMask n).
Qed.

Lemma crcTable_u32 i : 0 <= i < 256 → is_u32 (crcTable i).
Proof.
  intros Hi. assert (Forall (λ i, is_u32 (crcTable i)) (seqZ 0 256)) as H.
  { apply (bool_decide_unpack _). vm_compute. exact I. }
  rewrite Forall_forall in H. apply H, elem_of_seqZ. lia.
Qed.

Lemma byte_range c : 0 <= Z.land c 0xff < 256.
Proof. change 0xff with (Z.ones 8). rewrite Z.land_ones //. by apply Z.mod_pos_bound. Qed.

Lemma shiftr8_range c : is_u32 c → 0 <= Z.shiftr c 8 < 2 ^ 24.
Proof.
  intros [??]. rewrite Z.shiftr_div_pow2 //. split; [apply Z.div_pos; lia|]. apply Z.div_lt_upper_bound; lia.
Qed.

Lemma crc_byte_u32 c v : is_u32 c → is_u32 (crc_byte c v).
Proof.
  intros Hc. apply u32_lxor; [apply crcTable_u32, byte_range|]. pose proof (shiftr8_range c Hc). unfold is_u32. lia.
Qed.

(** The top byte of a table entry tells its index. *)
Lemma crcTable_top i j :
  0 <= i < 256 → 0 <= j < 256 → Z.shiftr (crcTable i) 24 = Z.shiftr (crcTable j) 24 → i = j.
Proof.
  intros Hi Hj E. assert (NoDup ((λ i, Z.shiftr (crcTable i) 24) <$> seqZ 0 256)) as Hn.
  { apply (bool_decide_unpack _). vm_compute. exact I. }
  assert (∀ k, 0 <= k < 256 → seqZ 0 256 !! Z.to_nat k = Some k) as Hl by (intros k Hk; apply lookup_seqZ; lia).
  apply Z2Nat.inj; [lia..|]. eapply (NoDup_lookup _ _ _ _ Hn); rewrite list_lookup_fmap Hl //. cbn. by rewrite E.
Qed.

(** Equal registers after a byte had equal high parts and took equal table
    entries. *)
Lemma crc_byte_inj c1 c2 v1 v2 :
  is_u32 c1 → is_u32 c2 → crc_byte c1 v1 = crc_byte c2 v2 →
  Z.shiftr c1 8 = Z.shiftr c2 8 ∧ Z.land (Z.lxor c1 v1) 0xff = Z.land (Z.lxor c2 v2) 0xff.
Proof.
  intros H1 H2 E. assert (∀ c v, is_u32 c → Z.shiftr (crc_byte c v) 24 = Z.shiftr (crcTable (Z.land (Z.lxor c v) 0xff)) 24) as Ht.
  { intros c v Hc. unfold crc_byte. rewrite Z.shiftr_lxor. pose proof (shiftr8_range c Hc).
    rewrite (Z.shiftr_div_pow2 (Z.shiftr c 8)) // (Z.div_small (Z.shiftr c 8)) // Z.lxor_0_r //. }
  assert (Z.land (Z.lxor c1 v1) 0xff = Z.land (Z.lxor c2 v2) 0xff) as Hi.
  { apply crcTable_top; [apply byte_range..|]. by rewrite -!Ht // E. }
  split; [|done]. revert E. unfold crc_byte. rewrite Hi !(Z.lxor_comm (crcTable _)). intros E.
  by rewrite -(lxor_cancel (Z.shiftr c1 8) (crcTable (Z.land (Z.lxor c2 v2) 0xff))) E lxor_cancel.
Qed.

Lemma land_lxor_l c a b : Z.land (Z.lxor c a) 0xff = Z.land (Z.lxor c b) 0xff → Z.land a 0xff = Z.land b 0xff.
Proof.
  intros E. apply Z.bits_inj'. intros n Hn. apply (f_equal (λ z, Z.testbit z n)) in E. revert E.
  rewrite !Z.land_spec !Z.lxor_spec. by destruct (Z.testbit c n), (Z.testbit a n), (Z.testbit b n), (Z.testbit 0xff n).
Qed.

Lemma crc_byte_state c1 c2 v : is_u32 c1 → is_u32 c2 → crc_byte c1 v = crc_byte c2 v → c1 = c2.
Proof.
  intros H1 H2 E. destruct (crc_byte_inj _ _ _ _ H1 H2 E) as [Hs Hl]. rewrite !(Z.lxor_comm _ v) in Hl.
  apply land_lxor_l in Hl. change 0xff with (Z.ones 8) in Hl. rewrite !Z.land_ones // in Hl.
  rewrite !Z.shiftr_div_pow2 // in Hs. rewrite (Z.div_mod c1 (2 ^ 8)) // (Z.div_mod c2 (2 ^ 8)) //. by rewrite Hs Hl.
Qed.

Lemma crc_fold_state c1 c2 p : is_u32 c1 → is_u32 c2 → foldl crc_byte c1 p = foldl crc_byte c2 p → c1 = c2.
Proof.
  revert c1 c2. induction p as [|v p IH]; intros c1 c2 H1 H2; cbn; [done|]. intros E.
  apply IH in E; [|by apply crc_byte_u32..]. by eapply crc_byte_state.
Qed.

Lemma crc_fold_u32 c p : is_u32 c → is_u32 (foldl crc_byte c p).
Proof. revert c. induction p as [|v p IH]; intros c Hc; cbn; [done|]. by apply IH, crc_byte_u32. Qed.

(** A changed byte changes the CRC, wherever it is. *)
Lemma crc_one_byte a x y b :
  0 <= x < 256 → 0 <= y < 256 → crcUpdate 0 (a ++ x :: b) = crcUpdate 0 (a ++ y :: b) → x = y.
Proof.
  intros Hx Hy E. unfold crcUpdate in E. apply (f_equal (λ z, Z.lxor z crcMask)) in E. rewrite !lxor_cancel !foldl_app in E. cbn [foldl] in E.
  set (c := foldl crc_byte _ a) in E. assert (is_u32 c) as Hc by (by apply crc_fold_u32).
  apply crc_fold_state in E; [|by apply crc_byte_u32..]. destruct (crc_byte_inj _ _ _ _ Hc Hc E) as [_ Hl].
  apply land_lxor_l in Hl. change 0xff with (Z.ones 8) in Hl. rewrite !Z.land_ones // !Z.mod_small // in Hl.
Qed.

Lemma crcUpdate_u32 c p : is_u32 c → is_u32 (crcUpdate c p).
Proof.
  intros Hc. assert (is_u32 crcMask) by done. apply u32_lxor; [|done].
  by apply crc_fold_u32, u32_lxor.
Qed.

(** ** The monad *)

(** A program that reads and changes an [S] and may fail. *)
Definition prog (S A : Type) : Type := S → res (A * S).

#[export] Instance prog_ret S : MRet (prog S) := λ A a s, inr (a, s).
#[export] Instance prog_bind S : MBind (prog S) :=
  λ A B f p s, match p s with inl e => inl e | inr (a, s) => f a s end.

Definition throw {S A} (e : serr) : prog S A := λ _, inl e.
Definition lift {S A} (r : res A) : prog S A := λ s, match r with inl e => inl e | inr a => inr (a, s) end.

(** ** Writing *)

(** The writer ([limitWriter] over the output, with the CRC of a
    [MultiWriter] when there is one; no limit for a [bytes.Buffer]) and the
    [saveState]. *)
Record wstate := WState { w_out : bytes; w_left : option Z; w_crc : option Z; w_ss : saveState }.

Definition Write (p : bytes) : prog wstate unit := λ w,
  let put lf := inr ((), WState (w_out w ++ p) lf ((λ h, crcUpdate h p) <$> w_crc w) (w_ss w)) in
  match w_left w with
  | Some n => if bool_decide (n < blen p) then inl ErrSnapshotTooLarge else put (Some (n - blen p))
  | None => put None
  end.

(** [writeBytes] and [writeString] *)
Definition writeBytes (b : bytes) : prog wstate unit :=
  if bool_decide (2 ^ 31 - 1 < blen b) then throw errFieldTooBig
  else _ ← Write (le 4 (blen b)); match b with [] => mret () | _ => Write b end.

Fixpoint writeAll {A} (f : A → prog wstate unit) (l : list A) : prog wstate unit :=
  match l with [] => mret () | a :: l => _ ← f a; writeAll f l end.

(** The order of Go's strings. *)
Fixpoint str_gt (a b : bytes) : bool :=
  match a, b with
  | [], _ => false
  | _ :: _, [] => true
  | x :: a, y :: b => bool_decide (y < x) || (bool_decide (x = y) && str_gt a b)
  end.

(** The inner loop of [sortStrings]: [a[j]] moves left over the sorted part,
    which is kept last string first. *)
Fixpoint sift (sorted : list bytes) (x : bytes) : list bytes :=
  match sorted with
  | [] => [x]
  | p :: sorted => if str_gt p x then p :: sift sorted x else x :: p :: sorted
  end.

Definition sortStrings (a : list bytes) : list bytes := rev (foldl sift [] a).

(** [keys] are the keys of the map in the order [range] gives them. *)
Definition writeMetadata (meta : gmap bytes bytes) (keys : list bytes) : prog wstate unit :=
  if bool_decide (65535 < Z.of_nat (size meta)) then throw errFieldTooBig
  else
    _ ← Write (le 2 (Z.of_nat (size meta)));
    if bool_decide (size meta = 0%nat) then mret ()
    else writeAll (λ k, _ ← writeBytes k; writeBytes (default [] (meta !! k))) (sortStrings keys).

(** ** Reading *)

(** The [snapReader] and the decompression budget of the [loadState]. *)
Record rstate := RState { r_in : bytes; r_h : option Z; r_capture : option bytes; r_left : Z; r_inflate : Z }.

(** [r] after reading [p]; [rest] is what follows it. *)
Definition r_advance (r : rstate) (p rest : bytes) : rstate :=
  RState rest ((λ h, crcUpdate h p) <$> r_h r) ((λ c, c ++ p) <$> r_capture r) (r_left r - blen p) (r_inflate r).

(** A field that runs past the limit is [errFieldPastEnd], which [fail] turns
    into [ErrSnapshotCorrupt]; one that runs past the input is an end of file
    from [io.ReadFull]. *)
Definition r_read (n : Z) : prog rstate bytes := λ r,
  if bool_decide (r_left r < n) then inl ErrSnapshotCorrupt
  else if bool_decide (blen (r_in r) < n) then inl errUnexpectedEOF
  else inr (take (Z.to_nat n) (r_in r), r_advance r (take (Z.to_nat n) (r_in r)) (drop (Z.to_nat n) (r_in r))).

Definition r_take (n : Z) : prog rstate bytes := λ r,
  if bool_decide (u64 (r_left r) < n) then inl ErrSnapshotCorrupt else r_read n r.

Definition r_u8 : prog rstate Z := b ← r_read 1; mret (unle b).
Definition r_u16 : prog rstate Z := b ← r_read 2; mret (unle b).
Definition r_u32 : prog rstate Z := b ← r_read 4; mret (unle b).
Definition r_u64 : prog rstate Z := b ← r_read 8; mret (unle b).
Definition r_i64 : prog rstate Z := v ← r_u64; mret (i64 v).

(** [snapReader.bytes] and [str] *)
Definition r_bytes : prog rstate bytes :=
  n ← r_u32; if bool_decide (n = 0) then mret [] else r_take n.

Fixpoint readAll {A} (n : nat) (f : prog rstate A) : prog rstate (list A) :=
  match n with O => mret [] | S n => a ← f; l ← readAll n f; mret (a :: l) end.

(** The pairs in the order read; a later pair overwrites an earlier one. *)
Fixpoint readPairs (n : nat) (out : gmap bytes bytes) : prog rstate (gmap bytes bytes) :=
  match n with O => mret out | S n => k ← r_bytes; v ← r_bytes; readPairs n (<[k := v]> out) end.

Definition readMetadata : prog rstate (gmap bytes bytes) := n ← r_u16; readPairs (Z.to_nat n) ∅.

(** ** The header *)

Definition snapshotMagic : bytes := [82; 84; 78; 73].   (* "RTNI" *)
Definition snapshotVersion : Z := 3.
Definition snapshotVersionV2 : Z := 2.
Definition defaultMaxSnapshotBytes : Z := Z.shiftl 256 20.
Definition snapshotInflateFactor : Z := 16.
Definition inflateLimit (limit : Z) : Z :=
  if bool_decide (maxInt `quot` snapshotInflateFactor < limit) then maxInt else limit * snapshotInflateFactor.

(** ["__memcache_schema_version"] *)
Definition snapshotSchemaVersionKey : bytes :=
  [95; 95; 109; 101; 109; 99; 97; 99; 104; 101; 95; 115; 99; 104; 101; 109; 97; 95; 118; 101; 114; 115; 105; 111; 110].

(** [SnapshotInfo]; [SaveTime] is in nanoseconds, 0 the zero time. *)
Record SnapshotInfo := Info {
  si_Version : Z; si_Codec : bytes; si_Name : bytes; si_Metadata : gmap bytes bytes; si_SaveTime : Z; si_Count : Z }.

Definition readSnapshotHeader : prog rstate SnapshotInfo :=
  magic ← r_take (blen snapshotMagic);
  if bool_decide (magic ≠ snapshotMagic) then throw ErrSnapshotIncompatible else
  version ← r_u8;
  if bool_decide (version ≠ snapshotVersion) && bool_decide (version ≠ snapshotVersionV2) then throw ErrSnapshotIncompatible else
  codec ← r_bytes;
  name ← r_bytes;
  metadata ← readMetadata;
  saveTime ← r_i64;
  count ← r_i64;
  if bool_decide (count < 0) then throw ErrSnapshotCorrupt else
  mret (Info version codec name metadata saveTime count).

(** The bytes of a [string] constant. *)
Definition str_bytes (s : string) : bytes := (λ a, Z.of_nat (Ascii.nat_of_ascii a)) <$> String.list_ascii_of_string s.

(** ** Records *)

Record entrySnapshot {K V : Type} := Snap {
  sn_key : K; sn_value : V; sn_expireAt : Z; sn_weight : Z; sn_inserted : Z; sn_hits : Z; sn_flags : Z;
  sn_slidingTTL : Z; sn_tags : list bytes }.
Arguments entrySnapshot : clear implicits.

(** What [reflect] sees of a key, and how a key is set through it; the hooks
    of the value type ([SnapshotMarshaler] and [SnapshotUnmarshaler], when
    [V] has them) and the filter its struct tags ask for; the fingerprint of
    a versioned type, empty for others. *)
Record snapTypes {K V : Type} := SnapTypes {
  reflectKey : K → goKey;
  kindK : goKind;
  setKey : goKey → option K;
  applySnapshotFilter : V → V;
  snapshotMarshal : option (V → res bytes);
  snapshotUnmarshal : option (bytes → res V);
  schemaVersion : bytes
}.
Arguments snapTypes : clear implicits.

(** The part of [config] that snapshots use. *)
Record snapConfig {K V : Type} := SnapConfig {
  sc_codec : Codec K V; sc_name : bytes; sc_metadata : gmap bytes bytes; sc_maxSnapshotBytes : Z }.
Arguments snapConfig : clear implicits.

Section snap.
Context {K V : Type} (L : codecEnv) (T : snapTypes K V).

Definition ss_encode (c : Codec K V) (v : dyn K V) : prog wstate bytes := λ w,
  match encode L c (w_ss w) v with
  | inl e => inl e
  | inr (out, ss) => inr (out, WState (w_out w) (w_left w) (w_crc w) ss)
  end.

Definition ls_decode (c : Codec K V) (data : bytes) (dst : dest) : prog rstate (dyn K V) := λ r,
  match decode L c (r_inflate r) data dst with
  | inl e => inl e
  | inr (v, n) => inr (v, RState (r_in r) (r_h r) (r_capture r) (r_left r) n)
  end.

Definition marshalKey (c : Codec K V) (key : K) : prog wstate bytes :=
  if negb (isRawCodec c) then ss_encode c (DKey key)
  else b ← lift (rawKeyBytes (reflectKey T key)); ss_encode c (DBytes b).

(** A destination of one type receives a value of that type, so the other
    branches are dead. *)
Definition unmarshalKey (c : Codec K V) (data : bytes) : prog rstate K :=
  if negb (isRawCodec c) then
    d ← ls_decode c data ToKey; match d with DKey k => mret k | _ => throw ErrCodec end
  else
    d ← ls_decode c data ToBytes;
    match d with
    | DBytes b =>
        k ← lift (setRawKey b (kindK T)); match setKey T k with Some k => mret k | None => throw ErrCodec end
    | _ => throw ErrCodec
    end.

Definition marshalValue (c : Codec K V) (value : V) : prog wstate bytes :=
  let value := applySnapshotFilter T value in
  match snapshotMarshal T with Some m => lift (m value) | None => ss_encode c (DVal value) end.

Definition unmarshalValue (c : Codec K V) (b : bytes) : prog rstate V :=
  match snapshotUnmarshal T with
  | Some u => lift (u b)
  | None => d ← ls_decode c b ToVal; match d with DVal v => mret v | _ => throw ErrCodec end
  end.

(** The fields of a record after its key and value. *)
Definition writeFields (snap : entrySnapshot K V) : prog wstate unit :=
  _ ← Write (le 8 (u64 (sn_expireAt snap)));
  _ ← Write (le 8 (u64 (sn_weight snap)));
  _ ← Write (le 8 (u64 (sn_inserted snap)));
  _ ← Write (le 4 (sn_hits snap));
  _ ← Write (le 2 (sn_flags snap));
  _ ← Write (le 8 (u64 (sn_slidingTTL snap)));
  if bool_decide (255 < Z.of_nat (length (sn_tags snap))) then throw errTooManyTags
  else
    _ ← Write (le 1 (Z.of_nat (length (sn_tags snap))));
    writeAll writeBytes (sn_tags snap).

Definition writeRecord (c : Codec K V) (snap : entrySnapshot K V) : prog wstate unit :=
  keyBytes ← marshalKey c (sn_key snap);
  valBytes ← marshalValue c (sn_value snap);
  _ ← writeBytes keyBytes;
  _ ← writeBytes valBytes;
  writeFields snap.

(** [flagSliding] is 1, so [flags &^ flagSliding] clears bit 0; the cast to
    the 8-bit [entryFlags] keeps the low byte. *)
Definition checkRecord (version : Z) (snap : entrySnapshot K V) : res (entrySnapshot K V) :=
  let flags8 := Z.land (sn_flags snap) 0xff in
  if bool_decide (sn_weight snap < 1) then inl ErrSnapshotCorrupt
  else if bool_decide (Z.ldiff flags8 1 ≠ 0) || bool_decide (255 < sn_flags snap) then inl ErrSnapshotCorrupt
  else if Z.testbit flags8 0 then
    if bool_decide (version < snapshotVersion) then
      inr (Snap K V (sn_key snap) (sn_value snap) (sn_expireAt snap) (sn_weight snap) (sn_inserted snap) (sn_hits snap) 0
             (sn_slidingTTL snap) (sn_tags snap))
    else if bool_decide (sn_slidingTTL snap <= 0) then inl ErrSnapshotCorrupt
    else inr snap
  else inr snap.

Definition readFields (version : Z) (key : K) (value : V) : prog rstate (entrySnapshot K V) :=
  expireAt ← r_i64;
  weight ← r_i64;
  inserted ← r_i64;
  hits ← r_u32;
  flags ← r_u16;
  slidingTTL ← (if bool_decide (snapshotVersion <= version) then r_i64 else mret 0);
  tagCount ← r_u8;
  tags ← readAll (Z.to_nat tagCount) r_bytes;
  lift (checkRecord version (Snap K V key value expireAt weight inserted hits flags slidingTTL tags)).

Definition readRecord (c : Codec K V) (version : Z) : prog rstate (entrySnapshot K V) :=
  keyBytes ← r_bytes;
  valBytes ← r_bytes;
  key ← unmarshalKey c keyBytes;
  value ← unmarshalValue c valBytes;
  readFields version key value.

Definition readRecords (c : Codec K V) (version : Z) (count : Z) : prog rstate (list (entrySnapshot K V)) :=
  readAll (Z.to_nat count) (readRecord c version).

(** ** Whole snapshots *)

Context (cfg : snapConfig K V).

Definition effectiveSnapshotMetadata : gmap bytes bytes :=
  if bool_decide (schemaVersion T = []) then sc_metadata cfg
  else <[snapshotSchemaVersionKey := schemaVersion T]> (sc_metadata cfg).

(** [range] visits the keys of a map in any order; [map_to_list] is one. *)
Definition writeHeader (now count : Z) : prog wstate unit :=
  let meta := effectiveSnapshotMetadata in
  _ ← Write snapshotMagic;
  _ ← Write (le 1 snapshotVersion);
  _ ← writeBytes (str_bytes (codec_Name (sc_codec cfg)));
  _ ← writeBytes (sc_name cfg);
  _ ← writeMetadata meta (map_to_list meta).*1;
  _ ← Write (le 8 (u64 now));
  Write (le 8 (u64 count)).

(** The header is built in a buffer first; it does not touch the
    [saveState]. *)
Definition headerBytes (now count : Z) : res bytes :=
  match writeHeader now count (WState [] None None (SaveState 0 0)) with
  | inl e => inl e
  | inr (_, w) => inr (w_out w)
  end.

(** The records: one after the other, or as one sealed block behind its
    length. *)
Definition writeBody (recCodec : Codec K V) (enc : option bytes) (header : bytes) (staged : list (entrySnapshot K V)) (limit : Z)
    : prog wstate unit := λ w,
  match enc with
  | None => writeAll (writeRecord recCodec) staged w
  | Some key =>
      '(_, body) ← writeAll (writeRecord recCodec) staged (WState [] (Some limit) None (w_ss w));
      '(sealed, _) ← seal L key (ss_drawn (w_ss body)) (w_out body) header;
      (_ ← Write (le 8 (blen sealed)); Write sealed) w
  end.

Definition saveTo (now : Z) (staged : list (entrySnapshot K V)) (limit : Z) : res bytes :=
  let '(recCodec, enc) := splitEncryption (sc_codec cfg) in
  header ← headerBytes now (Z.of_nat (length staged));
  let limit := if bool_decide (limit <= 0) then maxInt else limit in
  let ss := SaveState (inflateLimit limit) 0 in
  '(_, w) ← Write header (WState [] (Some limit) (Some 0) ss);
  '(_, w) ← writeBody recCodec enc header staged limit w;
  (* the CRC goes to the limited writer only *)
  '(_, w) ← Write (le 4 (default 0 (w_crc w))) w;
  mret (w_out w).

Definition Save (now : Z) (staged : list (entrySnapshot K V)) (closed : bool) : res bytes :=
  if closed then inl ErrClosed else saveTo now staged (sc_maxSnapshotBytes cfg).

Definition snapshotLimit : Z :=
  if bool_decide (0 < sc_maxSnapshotBytes cfg) then sc_maxSnapshotBytes cfg else defaultMaxSnapshotBytes.

(** The block is opened; the records come from its plain text, on a reader
    of their own with the same budget, and use it up. *)
Definition openRecords (c : Codec K V) (version : Z) (key header : bytes) (count : Z) (sealed : bytes) :
    prog rstate (list (entrySnapshot K V)) := λ r,
  match openSealed L key sealed header with
  | inl _ => inl ErrSnapshotCorrupt
  | inr plain =>
      match readRecords c version count (RState plain None None (blen plain) (r_inflate r)) with
      | inl e => inl e
      | inr (staged, inner) =>
          if bool_decide (r_left inner ≠ 0) then inl ErrSnapshotCorrupt
          else inr (staged, RState (r_in r) (r_h r) (r_capture r) (r_left r) (r_inflate inner))
      end
  end.

Definition readSealedRecords (c : Codec K V) (version : Z) (key header : bytes) (count : Z) : prog rstate (list (entrySnapshot K V)) :=
  n ← r_u64;
  sealed ← r_take n;
  openRecords c version key header count sealed.

(** [sr.capture = nil]: the bytes captured, and no more. *)
Definition endCapture : prog rstate bytes := λ r,
  inr (default [] (r_capture r), RState (r_in r) (r_h r) None (r_left r) (r_inflate r)).

(** [sr.h = nil]: the CRC of the bytes read, and no more. *)
Definition endHash : prog rstate Z := λ r,
  inr (default 0 (r_h r), RState (r_in r) None (r_capture r) (r_left r) (r_inflate r)).

Definition readBody : prog rstate (list (entrySnapshot K V)) :=
  info ← readSnapshotHeader;
  header ← endCapture;
  if bool_decide (si_Codec info ≠ str_bytes (codec_Name (sc_codec cfg))) then throw ErrSnapshotIncompatible else
  let want := schemaVersion T in
  let got := default [] (si_Metadata info !! snapshotSchemaVersionKey) in
  if bool_decide (want ≠ []) && bool_decide (got ≠ []) && bool_decide (got ≠ want) then throw ErrSnapshotIncompatible else
  let '(recCodec, enc) := splitEncryption (sc_codec cfg) in
  let version := si_Version info in
  if bool_decide (version < snapshotVersion) then
    match enc with
    | Some _ => throw errEncryptedLegacy
    | None => readRecords (sc_codec cfg) version (si_Count info)
    end
  else
    match enc with
    | None => readRecords recCodec version (si_Count info)
    | Some key => readSealedRecords recCodec version key header (si_Count info)
    end.

Definition readFile : prog rstate (list (entrySnapshot K V)) :=
  staged ← readBody;
  crc ← endHash;
  stored ← r_u32;
  if bool_decide (stored ≠ crc) then throw ErrSnapshotCorrupt else mret staged.

Definition readSnapshot (input : bytes) : res (list (entrySnapshot K V)) :=
  let limit := snapshotLimit in
  match readFile (RState input (Some 0) (Some []) limit (inflateLimit limit)) with
  | inl e => inl e
  | inr (staged, _) => inr staged
  end.

End snap.

(** [InspectSnapshot] on the contents of a file. *)
Definition InspectSnapshot (file : bytes) : res SnapshotInfo :=
  match readSnapshotHeader (RState file None None (blen file) 0) with
  | inl e => inl e
  | inr (info, _) => inr info
  end.

(** ** Writing and reading invert each other *)

Lemma blen_app a b : blen (a ++ b) = blen a + blen b.
Proof. unfold blen. rewrite length_app. lia. Qed.

Lemma blen_le n x : blen (le n x) = Z.of_nat n.
Proof. unfold blen. by rewrite length_le. Qed.

Lemma prog_bind_inv {S A B} (p : prog S A) (f : A → prog S B) s b s' :
  (p ≫= f) s = inr (b, s') → ∃ a s1, p s = inr (a, s1) ∧ f a s1 = inr (b, s').
Proof. unfold mbind, prog_bind. destruct (p s) as [|[a s1]]; [done|]. eauto. Qed.

(** [w] after [bs] was written and the [saveState] became [ss]. *)
Definition wput (bs : bytes) (ss : saveState) (w : wstate) : wstate :=
  WState (w_out w ++ bs) ((λ n, n - blen bs) <$> w_left w) ((λ h, crcUpdate h bs) <$> w_crc w) ss.

Definition fits (bs : bytes) (w : wstate) : Prop := ∀ n, w_left w = Some n → 0 <= n → blen bs <= n.

Lemma wput_nil w : wput [] (w_ss w) w = w.
Proof.
  destruct w as [o l h ss]. unfold wput. cbn. rewrite app_nil_r. f_equal.
  - destruct l; cbn; [by rewrite Z.sub_0_r|done].
  - destruct h; cbn; [by rewrite crcUpdate_nil|done].
Qed.

Lemma wput_wput b1 b2 s1 s2 w : wput b2 s2 (wput b1 s1 w) = wput (b1 ++ b2) s2 w.
Proof.
  destruct w as [o l h ss]. unfold wput. cbn. rewrite -assoc blen_app. f_equal.
  - destruct l; cbn; [f_equal; lia|done].
  - destruct h; cbn; [by rewrite crcUpdate_app|done].
Qed.

Lemma fits_app b1 b2 s1 w : fits b1 w → fits b2 (wput b1 s1 w) → fits (b1 ++ b2) w.
Proof.
  intros H1 H2 n Hn H0. specialize (H1 _ Hn H0). specialize (H2 (n - blen b1)).
  cbn in H2. rewrite Hn in H2. specialize (H2 eq_refl). rewrite blen_app. lia.
Qed.

(** [r] after reading [p], with the budget at [i]. *)
Definition r_after (r : rstate) (p rest : bytes) (i : Z) : rstate :=
  RState rest ((λ h, crcUpdate h p) <$> r_h r) ((λ c, c ++ p) <$> r_capture r) (r_left r - blen p) i.

(** [Q] reads [bs] as [a], taking the decompression budget from [i] to [i']. *)
Definition reads {A} (i i' : Z) (Q : prog rstate A) (bs : bytes) (a : A) : Prop :=
  ∀ r rest, r_inflate r = i → r_in r = bs ++ rest → blen bs <= r_left r < 2 ^ 63 → Q r = inr (a, r_after r bs rest i').

Lemma r_after_nil r rest i : r_after r [] rest i = RState rest (r_h r) (r_capture r) (r_left r) i.
Proof.
  destruct r as [n h c l j]. unfold r_after. cbn. rewrite Z.sub_0_r. f_equal.
  - destruct h; cbn; [by rewrite crcUpdate_nil|done].
  - destruct c; cbn; [by rewrite app_nil_r|done].
Qed.

Lemma reads_ret {A} i (a : A) : reads i i (mret a) [] a.
Proof. intros r rest Hi Hr Hl. rewrite r_after_nil -Hi. cbn in Hr. rewrite -Hr. by destruct r. Qed.

Lemma r_after_after r b1 b2 rest1 rest2 i1 i2 : r_after (r_after r b1 rest1 i1) b2 rest2 i2 = r_after r (b1 ++ b2) rest2 i2.
Proof.
  destruct r as [n h c l j]. unfold r_after. cbn. rewrite blen_app. f_equal; [| |lia].
  - destruct h; cbn; [by rewrite crcUpdate_app|done].
  - destruct c; cbn; [by rewrite assoc|done].
Qed.

Lemma reads_bind {A B} i j k (Q : prog rstate A) (f : A → prog rstate B) b1 b2 a b :
  reads i j Q b1 a → reads j k (f a) b2 b → reads i k (Q ≫= f) (b1 ++ b2) b.
Proof.
  intros H1 H2 r rest Hi Hr Hl. rewrite blen_app in Hl. assert (0 <= blen b1 ∧ 0 <= blen b2) as [??] by (unfold blen; lia).
  unfold mbind, prog_bind. rewrite -assoc in Hr. rewrite (H1 r (b2 ++ rest) Hi Hr); [|lia].
  rewrite (H2 _ rest); [|done|done|cbn; lia]. by rewrite r_after_after.
Qed.

Lemma reads_then {A B} i j k (Q : prog rstate A) (f : A → prog rstate B) bs a b :
  reads i j Q bs a → reads j k (f a) [] b → reads i k (Q ≫= f) bs b.
Proof. intros H1 H2. rewrite -(app_nil_r bs). by eapply reads_bind. Qed.

Lemma reads_lift {A} i (x : res A) a : x = inr a → reads i i (lift x) [] a.
Proof. intros ->. apply reads_ret. Qed.

Lemma reads_read i bs : reads i i (r_read (blen bs)) bs bs.
Proof.
  intros [n h c l j] rest Hi Hr Hl. cbn in *. subst. unfold r_read. cbn.
  rewrite bool_decide_false; [|lia]. rewrite bool_decide_false; [|rewrite blen_app; unfold blen; lia].
  unfold blen at 1 2 3. rewrite Nat2Z.id take_app_length drop_app_length. done.
Qed.

Lemma reads_take i bs : reads i i (r_take (blen bs)) bs bs.
Proof.
  intros r rest Hi Hr Hl. unfold r_take. rewrite bool_decide_false; [by apply reads_read|].
  rewrite u64_id; [lia|]. unfold is_u64. pose proof (Zle_0_nat (length bs)). unfold blen in Hl. lia.
Qed.

Lemma reads_le i n m x :
  m = Z.of_nat n → 0 <= x < 256 ^ Z.of_nat n → reads i i (b ← r_read m; mret (unle b)) (le n x) x.
Proof.
  intros -> Hx. rewrite -(blen_le n x). eapply reads_then; [apply reads_read|].
  rewrite unle_le //. apply reads_ret.
Qed.

Lemma reads_u32 i x : is_u32 x → reads i i r_u32 (le 4 x) x.
Proof. intros Hx. by apply reads_le. Qed.

Lemma reads_i64 i x : is_i64 x → reads i i r_i64 (le 8 (u64 x)) x.
Proof.
  intros Hx. eapply reads_then.
  - apply reads_le; [done|]. pose proof (u64_range x) as Hr. unfold is_u64 in Hr. change (256 ^ Z.of_nat 8) with (2 ^ 64). lia.
  - assert (i64 (u64 x) = x) as ->; [|apply reads_ret]. unfold u64, i64. unfold is_i64 in Hx.
    rewrite Zplus_mod_idemp_l. rewrite Z.mod_small; lia.
Qed.

(** [P] writes [bs] and leaves the [saveState]; [Q] reads that as [a]. *)
Definition inverts {A} (P : prog wstate unit) (bs : bytes) (Q : prog rstate A) (a : A) : Prop :=
  ∀ w u w', P w = inr (u, w') → w' = wput bs (w_ss w) w ∧ fits bs w ∧ ∀ i, reads i i Q bs a.

Lemma inverts_ret {A} (a : A) : inverts (mret ()) [] (mret a) a.
Proof.
  intros w u w' [= _ <-]. split; [by rewrite wput_nil|]. split; [|intros; apply reads_ret].
  by intros n _ Hn.
Qed.

Lemma inverts_bind {A B} P P' b1 b2 (Q : prog rstate A) (f : A → prog rstate B) a b :
  inverts P b1 Q a → inverts P' b2 (f a) b → inverts (_ ← P; P') (b1 ++ b2) (Q ≫= f) b.
Proof.
  intros H1 H2 w u w' (u1 & w1 & E1 & E2)%prog_bind_inv. destruct (H1 _ _ _ E1) as (-> & Hf & Hr).
  destruct (H2 _ _ _ E2) as (-> & Hf' & Hr'). rewrite wput_wput. split; [done|]. split; [by eapply fits_app|].
  intros i. by eapply reads_bind.
Qed.

Lemma inverts_assoc {A} (P P' P'' : prog wstate unit) bs (Q : prog rstate A) a :
  inverts (P ≫= λ _, P' ≫= λ _, P'') bs Q a → inverts ((P ≫= λ _, P') ≫= λ _, P'') bs Q a.
Proof.
  intros H w u w' E. apply (H w u w'). revert E. unfold mbind, prog_bind. by destruct (P w) as [|[? w1]].
Qed.

Lemma inverts_throw {A} e bs (Q : prog rstate A) a : inverts (throw e) bs Q a.
Proof. done. Qed.

Lemma Write_inv bs w u w' : Write bs w = inr (u, w') → w' = wput bs (w_ss w) w ∧ fits bs w.
Proof.
  destruct w as [o [n|] h ss]; unfold Write, wput, fits; cbn.
  - case_bool_decide; [done|]. intros [= _ <-]. split; [done|]. intros ? [= <-] _. lia.
  - intros [= _ <-]. split; [done|]. done.
Qed.

Lemma inverts_Write {A} bs (Q : prog rstate A) a : (∀ i, reads i i Q bs a) → inverts (Write bs) bs Q a.
Proof. intros Hr w u w' [-> Hf]%Write_inv. done. Qed.

Lemma inverts_le n m x :
  m = Z.of_nat n → 0 <= x < 256 ^ Z.of_nat n → inverts (Write (le n x)) (le n x) (b ← r_read m; mret (unle b)) x.
Proof. intros. apply inverts_Write. intros i. by apply reads_le. Qed.

Lemma inverts_i64 x : is_i64 x → inverts (Write (le 8 (u64 x))) (le 8 (u64 x)) r_i64 x.
Proof. intros. apply inverts_Write. intros i. by apply reads_i64. Qed.

(** A length-prefixed field. *)
Definition field (b : bytes) : bytes := le 4 (blen b) ++ b.

Lemma inverts_bytes b : inverts (writeBytes b) (field b) r_bytes b.
Proof.
  unfold writeBytes. case_bool_decide as Hb; [apply inverts_throw|]. unfold field, r_bytes.
  assert (0 <= blen b) by (unfold blen; lia).
  eapply inverts_bind; [apply inverts_le; [done|]; change (256 ^ Z.of_nat 4) with (2 ^ 32); lia|].
  destruct b as [|x b].
  - rewrite bool_decide_true; [apply inverts_ret|done].
  - rewrite bool_decide_false; [|unfold blen; cbn [length]; lia]. apply inverts_Write. intros i. apply reads_take.
Qed.

Lemma inverts_all {A B} (f : A → prog wstate unit) (g : A → bytes) (Q : prog rstate B) (h : A → B) l :
  (∀ a, a ∈ l → inverts (f a) (g a) Q (h a)) →
  inverts (writeAll f l) (concat (g <$> l)) (readAll (length l) Q) (h <$> l).
Proof.
  induction l as [|a l IH]; intros Hl; cbn; [apply inverts_ret|].
  eapply inverts_bind; [apply Hl; left|].
  intros w u w' E. destruct (IH (λ a' H, Hl a' (list_elem_of_further _ _ _ H)) _ _ _ E) as (-> & Hf & Hr).
  split; [done|]. split; [done|]. intros i. eapply reads_then; [apply Hr|apply reads_ret].
Qed.

(** *** The metadata *)

Lemma sift_perm l x : sift l x ≡ₚ x :: l.
Proof. induction l as [|p l IH]; cbn; [done|]. destruct (str_gt p x); [|done]. rewrite IH. apply Permutation_swap. Qed.

Lemma sorts_perm a acc : foldl sift acc a ≡ₚ a ++ acc.
Proof.
  revert acc. induction a as [|x a IH]; intros acc; cbn; [done|]. rewrite IH sift_perm. by rewrite Permutation_middle.
Qed.

Lemma sortStrings_perm a : sortStrings a ≡ₚ a.
Proof. unfold sortStrings. rewrite -Permutation_rev sorts_perm. by rewrite app_nil_r. Qed.

(** [a] is not below [b]. *)
Definition str_ge (a b : bytes) : Prop := str_gt b a = false.

Lemma str_gt_trans a b c : str_gt a b = true → str_gt b c = true → str_gt a c = true.
Proof.
  revert b c. induction a as [|x a IH]; intros [|y b] [|z c]; cbn; try done.
  rewrite !orb_true_iff !andb_true_iff !bool_decide_eq_true. intros [?|[-> ?]] [?|[<- ?]]; eauto with lia.
Qed.

Lemma str_gt_total a b : str_gt a b = false → str_gt b a = false → a = b.
Proof.
  revert b. induction a as [|x a IH]; intros [|y b]; cbn; try done.
  rewrite !orb_false_iff !andb_false_iff !bool_decide_eq_false. intros [? [?|Ha]] [? [?|Hb]]; try (exfalso; lia).
  f_equal; [lia|]. by apply IH.
Qed.

Lemma str_gt_irrefl a : str_gt a a = false.
Proof. induction a as [|x a IH]; cbn; [done|]. rewrite IH andb_false_r orb_false_r bool_decide_false; [done|lia]. Qed.

#[local] Instance str_ge_antisymm : AntiSymm (=) str_ge.
Proof. intros a b Ha Hb. by apply str_gt_total. Qed.

Lemma str_gt_ge a b : str_gt a b = true → str_ge a b.
Proof.
  intros Ha. unfold str_ge. destruct (str_gt b a) eqn:E; [|done].
  pose proof (str_gt_trans _ _ _ Ha E) as Hc. by rewrite str_gt_irrefl in Hc.
Qed.

#[local] Instance str_ge_trans : Transitive str_ge.
Proof.
  intros a b c Ha Hb. unfold str_ge in *. destruct (str_gt c a) eqn:E; [|done].
  destruct (str_gt c b) eqn:E2; [done|]. destruct (str_gt b c) eqn:E3.
  - by rewrite (str_gt_trans _ _ _ E3 E) in Ha.
  - rewrite (str_gt_total _ _ E2 E3) in E. congruence.
Qed.

Lemma sift_sorted l x : StronglySorted str_ge l → StronglySorted str_ge (sift l x).
Proof.
  induction 1 as [|p l Hl IH Hp]; cbn; [by repeat constructor|]. destruct (str_gt p x) eqn:E.
  - constructor; [done|]. rewrite sift_perm. constructor; [by apply str_gt_ge|done].
  - constructor; [by constructor|]. constructor; [done|]. eapply Forall_impl; [done|]. intros y Hy. by etrans.
Qed.

(** The file does not depend on the order in which [range] visits the map. *)
Lemma sortStrings_unique a b : a ≡ₚ b → sortStrings a = sortStrings b.
Proof.
  intros Hab. unfold sortStrings. f_equal.
  assert (∀ l acc, StronglySorted str_ge acc → StronglySorted str_ge (foldl sift acc l)) as Hs.
  { induction l as [|x l IH]; intros acc Ha; cbn; [done|]. by apply IH, sift_sorted. }
  apply (StronglySorted_unique str_ge); [apply Hs; constructor..|]. by rewrite !sorts_perm Hab.
Qed.

Definition pairField (meta : gmap bytes bytes) (k : bytes) : bytes := field k ++ field (default [] (meta !! k)).

Lemma inverts_pairs meta ks out :
  inverts (writeAll (λ k, _ ← writeBytes k; writeBytes (default [] (meta !! k))) ks)
    (concat (pairField meta <$> ks)) (readPairs (length ks) out)
    (foldl (λ m k, <[k := default [] (meta !! k)]> m) out ks).
Proof.
  revert out. induction ks as [|k ks IH]; intros out; cbn; [apply inverts_ret|].
  unfold pairField at 1. rewrite -app_assoc. apply inverts_assoc.
  apply (inverts_bind _ _ (field k) _ _ _ k); [apply inverts_bytes|].
  apply (inverts_bind _ _ (field (default [] (meta !! k))) _ _ _ (default [] (meta !! k))); [apply inverts_bytes|]. apply IH.
Qed.

Lemma pairs_all (meta m : gmap bytes bytes) ks k :
  (∀ k, k ∈ ks → is_Some (meta !! k)) →
  foldl (λ m k, <[k := default [] (meta !! k)]> m) m ks !! k = if decide (k ∈ ks) then meta !! k else m !! k.
Proof.
  revert m. induction ks as [|x ks IH]; intros m Hk; cbn; [done|]. rewrite IH; [|intros; apply Hk; by right].
  destruct (decide (k ∈ ks)); [by rewrite decide_True; [|by right]|].
  destruct (decide (x = k)) as [->|Hx].
  - rewrite lookup_insert_eq decide_True; [|left]. destruct (Hk k) as [v Hv]; [left|]. by rewrite Hv.
  - rewrite lookup_insert_ne // decide_False //. intros [|]%elem_of_cons; congruence.
Qed.

Definition metaField (meta : gmap bytes bytes) : bytes :=
  le 2 (Z.of_nat (size meta)) ++ concat (pairField meta <$> sortStrings (map_to_list meta).*1).

Lemma inverts_metadata meta : inverts (writeMetadata meta (map_to_list meta).*1) (metaField meta) readMetadata meta.
Proof.
  unfold writeMetadata, metaField, readMetadata. case_bool_decide as Hs; [apply inverts_throw|].
  set (ks := sortStrings _).
  assert (ks ≡ₚ (map_to_list meta).*1) as Hks by apply sortStrings_perm.
  assert (length ks = size meta) as Hlen by (rewrite Hks length_fmap; apply length_map_to_list).
  eapply inverts_bind; [apply inverts_le; [done|]; change (256 ^ Z.of_nat 2) with 65536; lia|].
  rewrite Nat2Z.id.
  assert (foldl (λ m k, <[k := default [] (meta !! k)]> m) ∅ ks = meta) as Hm.
  { apply map_eq. intros k. rewrite pairs_all.
    - destruct (decide (k ∈ ks)) as [|Hk]; [done|]. rewrite lookup_empty. symmetry. apply eq_None_not_Some. intros [v Hv].
      apply Hk. rewrite Hks. apply list_elem_of_fmap. exists (k, v). split; [done|]. by apply elem_of_map_to_list.
    - intros k'. rewrite Hks. intros ([? v] & -> & Hv%elem_of_map_to_list)%list_elem_of_fmap. eauto. }
  pose proof (inverts_pairs meta ks ∅) as Hp. rewrite Hm Hlen in Hp.
  case_bool_decide as H0; [|exact Hp].
  destruct ks; [|by rewrite H0 in Hlen]. rewrite H0 in Hp |- *. apply Hp.
Qed.

(** *** The header and the records *)

Section snap_inverts.
Context {K V : Type} (L : codecEnv) (T : snapTypes K V) (HL : codecEnv_ok L).

(** What a header says. *)
Definition headerInfo (cfg : snapConfig K V) (now count : Z) : SnapshotInfo :=
  Info snapshotVersion (str_bytes (codec_Name (sc_codec cfg))) (sc_name cfg) (effectiveSnapshotMetadata T cfg) now count.

Definition headerField (cfg : snapConfig K V) (now count : Z) : bytes :=
  snapshotMagic ++ le 1 snapshotVersion ++ field (str_bytes (codec_Name (sc_codec cfg))) ++ field (sc_name cfg) ++
  metaField (effectiveSnapshotMetadata T cfg) ++ le 8 (u64 now) ++ le 8 (u64 count).

Lemma inverts_header cfg now count :
  is_i64 now → 0 <= count < 2 ^ 63 →
  inverts (writeHeader T cfg now count) (headerField cfg now count) readSnapshotHeader (headerInfo cfg now count).
Proof using Type.
  intros Hn Hc. unfold writeHeader, headerField, readSnapshotHeader.
  eapply inverts_bind; [apply inverts_Write; intros i; apply reads_take|]. rewrite bool_decide_false; [|by intros []].
  eapply inverts_bind; [by apply inverts_le|]. cbn [bool_decide andb].
  rewrite (bool_decide_false (snapshotVersion ≠ snapshotVersion)); [|by intros []]. cbn [andb].
  apply (inverts_bind _ _ (field _) _ _ _ (str_bytes (codec_Name (sc_codec cfg)))); [apply inverts_bytes|].
  apply (inverts_bind _ _ (field _) _ _ _ (sc_name cfg)); [apply inverts_bytes|].
  apply (inverts_bind _ _ (metaField _) _ _ _ (effectiveSnapshotMetadata T cfg)); [apply inverts_metadata|].
  apply (inverts_bind _ _ (le 8 _) _ _ _ now); [by apply inverts_i64|].
  apply inverts_Write. intros i. apply (reads_then _ i _ _ _ _ count).
  - apply reads_i64. unfold is_i64. lia.
  - rewrite bool_decide_false; [|lia]. apply reads_ret.
Qed.

(** A key and a value whose own encoding round-trips. *)
Definition key_ok (c : Codec K V) (k : K) : Prop :=
  if isRawCodec c then
    goKey_ok (reflectKey T k) ∧ kind_of (reflectKey T k) = kindK T ∧ setKey T (reflectKey T k) = Some k ∧
    ∀ b, base_ok c (DBytes b) ToBytes
  else base_ok c (DKey k) ToKey.

Definition value_ok (c : Codec K V) (v : V) : Prop :=
  match snapshotMarshal T, snapshotUnmarshal T with
  | Some m, Some u => ∀ b, m v = inr b → u b = inr v
  | None, None => base_ok c (DVal v) ToVal
  | _, _ => False
  end.

(** The budget a save and a load share. *)
Definition budget (ss : saveState) : Prop := 0 <= ss_inflateLeft ss < maxInt.

Lemma encode_reads (c : Codec K V) w v dst out w' :
  base_ok c v dst → budget (w_ss w) → ss_encode L c v w = inr (out, w') →
  w' = wput [] (w_ss w') w ∧ budget (w_ss w') ∧
  reads (ss_inflateLeft (w_ss w)) (ss_inflateLeft (w_ss w')) (ls_decode L c out dst) [] v.
Proof using HL.
  intros Hb Hs. unfold ss_encode. destruct (encode L c (w_ss w) v) as [|[o ss]] eqn:E; [done|]. intros [= <- <-]. cbn.
  split; [|split].
  - pose proof (wput_nil w) as Hw. destruct w as [o' l h s']. unfold wput in *. cbn in *. by injection Hw as -> -> ->.
  - pose proof (encode_spends _ _ _ _ _ _ E). pose proof (encode_left _ _ _ _ _ _ E). unfold budget in *. lia.
  - intros r rest Hi Hr Hl. unfold ls_decode. rewrite Hi.
    pose proof (decode_encode L HL c (w_ss w) v dst o ss 0 Hb E) as H. rewrite !Z.sub_0_r in H.
    pose proof (encode_left _ _ _ _ _ _ E). rewrite H; [|unfold budget in Hs; lia..].
    by rewrite r_after_nil Hr.
Qed.

Lemma marshalKey_reads c k w out w' :
  key_ok c k → budget (w_ss w) → marshalKey L T c k w = inr (out, w') →
  w' = wput [] (w_ss w') w ∧ budget (w_ss w') ∧
  reads (ss_inflateLeft (w_ss w)) (ss_inflateLeft (w_ss w')) (unmarshalKey L T c out) [] k.
Proof using HL.
  unfold key_ok, marshalKey, unmarshalKey. destruct (isRawCodec c); cbn [negb].
  - intros (Hk & Hkind & Hset & Hb) Hs (b & w1 & E1 & E2)%prog_bind_inv.
    destruct (raw_key_bytes _ Hk) as (b' & Eb & Er). rewrite Eb in E1. injection E1 as <- <-.
    destruct (encode_reads _ _ _ _ _ _ (Hb b') Hs E2) as (Hw & Hs' & Hr). split; [done|]. split; [done|].
    eapply (reads_bind _ _ _ _ _ [] []); [exact Hr|]. cbn. eapply (reads_bind _ _ _ _ _ [] []).
    + apply reads_lift. rewrite -Hkind. exact Er.
    + cbn. rewrite Hset. apply reads_ret.
  - intros Hb Hs E. destruct (encode_reads _ _ _ _ _ _ Hb Hs E) as (Hw & Hs' & Hr). split; [done|]. split; [done|].
    eapply (reads_bind _ _ _ _ _ [] []); [exact Hr|]. apply reads_ret.
Qed.

Lemma marshalValue_reads c v w out w' :
  value_ok c (applySnapshotFilter T v) → budget (w_ss w) → marshalValue L T c v w = inr (out, w') →
  w' = wput [] (w_ss w') w ∧ budget (w_ss w') ∧
  reads (ss_inflateLeft (w_ss w)) (ss_inflateLeft (w_ss w')) (unmarshalValue L T c out) [] (applySnapshotFilter T v).
Proof using HL.
  unfold value_ok, marshalValue, unmarshalValue.
  destruct (snapshotMarshal T) as [m|], (snapshotUnmarshal T) as [u|]; try done.
  - intros Hm Hs. unfold lift. destruct (m _) as [|b] eqn:Em; [done|]. intros [= <- <-].
    split; [by rewrite wput_nil|]. split; [done|]. apply reads_lift. by apply Hm.
  - intros Hb Hs E. destruct (encode_reads _ _ _ _ _ _ Hb Hs E) as (Hw & Hs' & Hr). split; [done|]. split; [done|].
    eapply (reads_bind _ _ _ _ _ [] []); [exact Hr|]. apply reads_ret.
Qed.

(** A record as [snapshotEntries] makes them. *)
Definition record_ok (c : Codec K V) (snap : entrySnapshot K V) : Prop :=
  key_ok c (sn_key snap) ∧ value_ok c (applySnapshotFilter T (sn_value snap)) ∧
  is_i64 (sn_expireAt snap) ∧ 1 <= sn_weight snap < 2 ^ 63 ∧ is_i64 (sn_inserted snap) ∧
  0 <= sn_hits snap < 2 ^ 32 ∧ is_i64 (sn_slidingTTL snap) ∧
  (sn_flags snap = 0 ∨ sn_flags snap = 1 ∧ 0 < sn_slidingTTL snap).

(** The record as it comes back: its value filtered. *)
Definition loaded (snap : entrySnapshot K V) : entrySnapshot K V :=
  Snap K V (sn_key snap) (applySnapshotFilter T (sn_value snap)) (sn_expireAt snap) (sn_weight snap) (sn_inserted snap)
    (sn_hits snap) (sn_flags snap) (sn_slidingTTL snap) (sn_tags snap).

Lemma checkRecord_loaded c snap : record_ok c snap → checkRecord snapshotVersion (loaded snap) = inr (loaded snap).
Proof using Type.
  intros (_ & _ & _ & Hw & _ & _ & _ & Hf). unfold checkRecord. cbn. rewrite bool_decide_false; [|lia].
  destruct Hf as [->|[-> Ht]]; cbn; [done|].
  by rewrite (bool_decide_false (sn_slidingTTL snap <= 0)); [|lia].
Qed.

(** The bytes of a record after its key and value. *)
Definition recordTail (snap : entrySnapshot K V) : bytes :=
  le 8 (u64 (sn_expireAt snap)) ++ le 8 (u64 (sn_weight snap)) ++ le 8 (u64 (sn_inserted snap)) ++ le 4 (sn_hits snap) ++
  le 2 (sn_flags snap) ++ le 8 (u64 (sn_slidingTTL snap)) ++ le 1 (Z.of_nat (length (sn_tags snap))) ++
  concat (field <$> sn_tags snap).

Lemma inverts_fields c snap :
  record_ok c snap →
  inverts (writeFields snap) (recordTail snap)
    (readFields snapshotVersion (sn_key snap) (applySnapshotFilter T (sn_value snap))) (loaded snap).
Proof using Type.
  intros Hok. pose proof Hok as (_ & _ & H1 & H2 & H3 & H4 & H5 & H6). unfold writeFields, recordTail, readFields.
  eapply inverts_bind; [by apply inverts_i64|].
  eapply inverts_bind; [apply inverts_i64; unfold is_i64; lia|].
  eapply inverts_bind; [by apply inverts_i64|].
  eapply inverts_bind; [apply inverts_le; [done|]; change (256 ^ Z.of_nat 4) with (2 ^ 32); lia|].
  eapply inverts_bind; [apply inverts_le; [done|]; change (256 ^ Z.of_nat 2) with 65536; lia|].
  rewrite (bool_decide_true (snapshotVersion <= snapshotVersion)); [|done].
  eapply inverts_bind; [by apply inverts_i64|].
  case_bool_decide as Ht; [apply inverts_throw|].
  eapply inverts_bind; [apply inverts_le; [done|]; change (256 ^ Z.of_nat 1) with 256; lia|].
  rewrite Nat2Z.id. pose proof (inverts_all writeBytes field r_bytes id (sn_tags snap) (λ a _, inverts_bytes a)) as Ha.
  rewrite list_fmap_id in Ha. intros w u w' E. destruct (Ha _ _ _ E) as (-> & Hf & Hr). split; [done|]. split; [done|].
  intros i. eapply reads_then; [apply Hr|].
  apply reads_lift. apply (checkRecord_loaded c snap Hok).
Qed.

Lemma record_inverts c snap w u w' :
  record_ok c snap → budget (w_ss w) → writeRecord L T c snap w = inr (u, w') →
  ∃ bs, w' = wput bs (w_ss w') w ∧ fits bs w ∧ budget (w_ss w') ∧
    reads (ss_inflateLeft (w_ss w)) (ss_inflateLeft (w_ss w')) (readRecord L T c snapshotVersion) bs (loaded snap).
Proof using HL.
  intros Hok Hs (kb & w1 & E1 & (vb & w2 & E2 & E3)%prog_bind_inv)%prog_bind_inv. pose proof Hok as (Hk & Hv & _).
  destruct (marshalKey_reads _ _ _ _ _ Hk Hs E1) as (Hw1 & Hs1 & R1).
  destruct (marshalValue_reads _ _ _ _ _ Hv Hs1 E2) as (Hw2 & Hs2 & R2).
  apply prog_bind_inv in E3 as (u3 & w3 & E3 & E4). destruct (inverts_bytes kb _ _ _ E3) as (Hw3 & F3 & R3).
  apply prog_bind_inv in E4 as (u4 & w4 & E4 & E5). destruct (inverts_bytes vb _ _ _ E4) as (Hw4 & F4 & R4).
  destruct (inverts_fields c snap Hok _ _ _ E5) as (Hw5 & F5 & R5).
  remember (w_ss w2) as s2 eqn:Es2. remember (w_ss w1) as s1 eqn:Es1.
  assert (w_ss w' = s2) as -> by (subst w3 w4 w'; done).
  exists (field kb ++ field vb ++ recordTail snap). split; [|split; [|split; [done|]]].
  - subst w3 w4 w'. rewrite Hw2 Hw1. cbn [w_ss wput]. by rewrite !wput_wput.
  - apply (fits_app [] _ s1); [by intros ???|]. rewrite -Hw1. apply (fits_app [] _ s2); [by intros ???|]. rewrite -Hw2.
    apply (fits_app (field kb) _ s2); [done|]. rewrite -Hw3. apply (fits_app (field vb) _ (w_ss w3)); [done|]. rewrite -Hw4. done.
  - unfold readRecord. eapply reads_bind; [apply R3|]. eapply reads_bind; [apply R4|].
    eapply (reads_bind _ _ _ _ _ []); [exact R1|]. eapply (reads_bind _ _ _ _ _ []); [exact R2|]. apply R5.
Qed.

Lemma records_inverts c l w u w' :
  Forall (record_ok c) l → budget (w_ss w) → writeAll (writeRecord L T c) l w = inr (u, w') →
  ∃ bs, w' = wput bs (w_ss w') w ∧ fits bs w ∧
    reads (ss_inflateLeft (w_ss w)) (ss_inflateLeft (w_ss w')) (readAll (length l) (readRecord L T c snapshotVersion)) bs (loaded <$> l).
Proof using HL.
  revert w. induction l as [|a l IH]; intros w; cbn.
  - intros _ _ [= _ <-]. exists []. rewrite wput_nil. split; [done|]. split; [by intros ???|]. apply reads_ret.
  - intros [Ha Hl]%Forall_cons Hs (u1 & w1 & E1 & E2)%prog_bind_inv.
    destruct (record_inverts _ _ _ _ _ Ha Hs E1) as (b1 & Hw1 & F1 & Hs1 & R1).
    destruct (IH _ Hl Hs1 E2) as (b2 & Hw2 & F2 & R2). exists (b1 ++ b2). split; [|split].
    + rewrite {1}Hw2 Hw1. apply wput_wput.
    + apply (fits_app b1 _ (w_ss w1)); [done|]. rewrite -Hw1. done.
    + eapply reads_bind; [exact R1|]. eapply reads_then; [exact R2|]. apply reads_ret.
Qed.

(** Taking out the encryption layer leaves the base codec. *)
Lemma split_base c rec enc v dst : splitEncryption c = (rec, enc) → base_ok c v dst → base_ok (K:=K) (V:=V) rec v dst.
Proof using Type.
  revert rec enc. induction c as [b|c IH level|c IH key]; intros rec enc; cbn.
  - by intros [= <- _].
  - destruct (splitEncryption c) as [base' [k|]]; intros [= <- <-]; [|done]. cbn. by apply (IH _ (Some k)).
  - by intros [= <- _].
Qed.

Lemma split_raw c rec enc : splitEncryption c = (rec, enc) → isRawCodec (K:=K) (V:=V) rec = isRawCodec c.
Proof using Type.
  revert rec enc. induction c as [b|c IH level|c IH key]; intros rec enc; cbn.
  - by intros [= <- _].
  - destruct (splitEncryption c) as [base' [k|]]; intros [= <- <-]; [|done]. cbn. by apply (IH _ (Some k)).
  - by intros [= <- _].
Qed.

Lemma split_record c rec enc snap : splitEncryption c = (rec, enc) → record_ok c snap → record_ok rec snap.
Proof using Type.
  intros Hsp (Hk & Hv & Hrest). split; [|split; [|done]].
  - revert Hk. unfold key_ok. rewrite (split_raw _ _ _ Hsp). case_match; [|by eapply split_base].
    intros (? & ? & ? & Hb). split_and!; [done..|]. intros b. by eapply split_base.
  - revert Hv. unfold value_ok. repeat case_match; try done. by eapply split_base.
Qed.

Lemma body_inverts rec enc header staged limit w u w' :
  Forall (record_ok rec) staged → budget (w_ss w) → (∃ n, w_left w = Some n ∧ 0 <= n < 2 ^ 63) →
  writeBody L T rec enc header staged limit w = inr (u, w') →
  ∃ bs i ss, w' = wput bs ss w ∧ fits bs w ∧
    reads (ss_inflateLeft (w_ss w)) i
      (match enc with
       | None => readRecords L T rec snapshotVersion (Z.of_nat (length staged))
       | Some key => readSealedRecords L T rec snapshotVersion key header (Z.of_nat (length staged))
       end) bs (loaded <$> staged).
Proof using HL.
  intros Hok Hs (n0 & Hn0 & Hpos & Hlt). unfold writeBody. destruct enc as [key|].
  - unfold mbind at 1, res_bind.
    destruct (writeAll _ _ _) as [|[u1 body]] eqn:E1; [done|]. unfold mbind at 1, res_bind.
    destruct (seal _ _ _ _ _) as [|[sealed i']] eqn:E2; [done|]. intros (u3 & w3 & [-> F3]%Write_inv & [-> F4]%Write_inv)%prog_bind_inv.
    destruct (records_inverts rec staged (WState [] (Some limit) None (w_ss w)) u1 body Hok Hs E1) as (bs & Hb & _ & R).
    rewrite Hb in E2. cbn in E2.
    assert (blen (le 8 (blen sealed) ++ sealed) <= n0) as Hfit by (eapply fits_app; eauto).
    exists (le 8 (blen sealed) ++ sealed), (ss_inflateLeft (w_ss body)), (w_ss w). rewrite wput_wput. split; [done|].
    split; [by eapply fits_app|]. rewrite blen_app in Hfit.
    assert (0 <= blen sealed ∧ 0 <= blen (le 8 (blen sealed))) as [??] by (unfold blen; lia).
    eapply reads_bind; [apply reads_le; [done|change (256 ^ Z.of_nat 8) with (2 ^ 64); lia]|].
    eapply reads_then; [apply reads_take|].
    intros r rest Hi Hr Hl. unfold openRecords. rewrite (open_sealed L HL _ _ _ _ _ _ E2).
    unfold readRecords. rewrite Nat2Z.id. assert (blen bs < 2 ^ 63) by (unfold seal in E2; revert E2; rewrite orb_comm;
      destruct (bool_decide_reflect (maxInt - Z.of_nat nonceSize - gcmOverhead < blen bs)); [done|]; unfold maxInt, gcmOverhead in *; lia).
    rewrite (R _ []); cbn; [|done|by rewrite app_nil_r|lia].
    rewrite bool_decide_false; [|lia]. by rewrite r_after_nil Hr.
  - intros E. destruct (records_inverts _ _ _ _ _ Hok Hs E) as (bs & Hb & Hf & R).
    exists bs, (ss_inflateLeft (w_ss w')), (w_ss w'). split; [done|]. split; [done|]. unfold readRecords. by rewrite Nat2Z.id.
Qed.

Lemma inflateLimit_budget limit i : 0 < limit <= maxInt `quot` snapshotInflateFactor → budget (SaveState (inflateLimit limit) i).
Proof using Type.
  intros Hl. unfold inflateLimit, budget. rewrite bool_decide_false; [|lia]. cbn.
  change (maxInt `quot` snapshotInflateFactor) with 576460752303423487 in Hl. unfold snapshotInflateFactor, maxInt. lia.
Qed.

End snap_inverts.

(** ** The theorems *)

Section snap_theorems.
Context {K V : Type} (L : codecEnv) (T : snapTypes K V) (cfg : snapConfig K V).
Context (now : Z) (staged : list (entrySnapshot K V)) (out : bytes).

(** A save under a limit, of records that can be saved, that succeeded. *)
Definition saved : Prop :=
  codecEnv_ok L ∧ Forall (record_ok T (sc_codec cfg)) staged ∧ is_i64 now ∧ Z.of_nat (length staged) < 2 ^ 63 ∧
  0 < sc_maxSnapshotBytes cfg <= maxInt `quot` snapshotInflateFactor ∧
  Save L T cfg now staged false = inr out.

(** The parts of the file, and how they are read. *)
Lemma saved_parts :
  saved →
  let '(rec, enc) := splitEncryption (sc_codec cfg) in
  let count := Z.of_nat (length staged) in
  let hdr := headerField T cfg now count in
  ∃ bs i, out = hdr ++ bs ++ le 4 (crcUpdate 0 (hdr ++ bs)) ∧ blen out <= sc_maxSnapshotBytes cfg < 2 ^ 63 ∧
    (∀ i, reads i i readSnapshotHeader hdr (headerInfo T cfg now count)) ∧
    reads (inflateLimit (sc_maxSnapshotBytes cfg)) i
      (match enc with
       | None => readRecords L T rec snapshotVersion count
       | Some key => readSealedRecords L T rec snapshotVersion key hdr count
       end) bs (loaded T <$> staged).
Proof.
  intros (HL & Hok & Hnow & Hcount & Hlim & Hsave). revert Hsave. unfold Save, saveTo.
  destruct (splitEncryption (sc_codec cfg)) as [rec enc] eqn:Esp. set (limit := sc_maxSnapshotBytes cfg) in *.
  rewrite (bool_decide_false (limit <= 0)); [|lia].
  assert (limit < 2 ^ 63) by (change (maxInt `quot` snapshotInflateFactor) with 576460752303423487 in Hlim; lia).
  assert (Forall (record_ok T rec) staged) as Hok' by (eapply Forall_impl; [done|]; intros; by eapply split_record).
  unfold headerBytes. destruct (writeHeader _ _ _ _ _) as [|[u0 wh]] eqn:Eh; [done|].
  destruct (inverts_header T cfg now (Z.of_nat (length staged)) Hnow (conj (Zle_0_nat _) Hcount) _ _ _ Eh) as (Hwh & _ & Rh).
  set (hdr := headerField T cfg now (Z.of_nat (length staged))) in *. rewrite Hwh. cbn [w_out wput app].
  clearbody hdr. unfold mbind at 1, res_bind. unfold mbind at 1, res_bind.
  destruct (Write hdr _) as [|[u1 w1]] eqn:E1; [done|]. apply Write_inv in E1 as [-> F1]. cbn [w_ss] in *.
  unfold mbind at 1, res_bind. destruct (writeBody _ _ _ _ _ _ _ _) as [|[u2 w2]] eqn:E2; [done|].
  specialize (F1 limit eq_refl (Z.lt_le_incl _ _ (proj1 Hlim))).
  eapply body_inverts in E2 as (bs & i & ss & -> & F2 & R); [|done|done|by apply inflateLimit_budget|].
  2:{ exists (limit - blen hdr). split; [done|]. assert (0 <= blen hdr) by (unfold blen; lia). lia. }
  specialize (F2 (limit - blen hdr) eq_refl). rewrite wput_wput.
  unfold mbind at 1, res_bind. destruct (Write _ _) as [|[u3 w3]] eqn:E3; [done|]. apply Write_inv in E3 as [-> F3].
  intros Hout. assert (out = hdr ++ bs ++ le 4 (crcUpdate 0 (hdr ++ bs))) as ->.
  { injection Hout as <-. cbn [app]. rewrite -app_assoc. done. }
  specialize (F3 (limit - blen (hdr ++ bs)) eq_refl). exists bs, i. cbn [w_crc wput default fmap option_fmap option_map] in F3.
  rewrite !blen_app in F3 |- *. split; [done|]. split; [|done].
  unfold id in F3. assert (0 <= blen hdr) by (unfold blen; lia). lia.
Qed.

(** The snapshot codec and schema of the header are those of the cache. *)
Lemma header_passes count :
  let got := default [] (si_Metadata (headerInfo T cfg now count) !! snapshotSchemaVersionKey) in
  bool_decide (schemaVersion T ≠ []) && bool_decide (got ≠ []) && bool_decide (got ≠ schemaVersion T) = false.
Proof.
  cbn. unfold effectiveSnapshotMetadata. destruct (decide (schemaVersion T = [])) as [E|E].
  - by rewrite (bool_decide_false (schemaVersion T ≠ [])); [|by intros []].
  - rewrite (bool_decide_false (schemaVersion T = [])) // lookup_insert_eq. cbn.
    rewrite (bool_decide_false (schemaVersion T ≠ schemaVersion T)); [|by intros []]. by rewrite andb_false_r.
Qed.

Lemma saved_loads rest : saved → readSnapshot L T cfg (out ++ rest) = inr (loaded T <$> staged).
Proof.
  intros Hs. pose proof (saved_parts Hs) as Hp. destruct Hs as (_ & _ & _ & _ & Hlim & _).
  unfold readSnapshot, snapshotLimit. rewrite (bool_decide_true (0 < _)); [|lia].
  set (limit := sc_maxSnapshotBytes cfg) in *. unfold readFile, readBody.
  destruct (splitEncryption (sc_codec cfg)) as [rec enc]. set (count := Z.of_nat (length staged)) in *.
  destruct Hp as (bs & i & Hout & Hl & Rh & Rb). set (hdr := headerField T cfg now count) in *. clearbody hdr.
  assert (blen (hdr ++ bs ++ le 4 (crcUpdate 0 (hdr ++ bs))) <= limit) as Hfit by (rewrite -Hout; lia).
  rewrite !blen_app in Hfit. assert (0 <= blen hdr ∧ 0 <= blen bs) as [??] by (unfold blen; lia).
  rewrite Hout -!app_assoc. unfold mbind, prog_bind.
  rewrite (Rh (inflateLimit limit) (RState _ _ _ limit _) (bs ++ le 4 (crcUpdate 0 (hdr ++ bs)) ++ rest) eq_refl eq_refl); [|cbn [r_left]; unfold blen in *; lia]. cbn [endCapture].
  rewrite (bool_decide_false (si_Codec _ ≠ _)); [|by intros []].
  rewrite (header_passes count). cbn [si_Version headerInfo si_Count si_Metadata].
  rewrite (bool_decide_false (snapshotVersion < snapshotVersion)); [|done].
  cbn [r_after r_in r_h r_capture r_left r_inflate fmap option_fmap option_map default app]. unfold id.
  rewrite (Rb (RState _ (Some (crcUpdate 0 hdr)) None (limit - blen hdr) _) (le 4 (crcUpdate 0 (hdr ++ bs)) ++ rest) eq_refl eq_refl);
    [|cbn [r_left]; unfold blen in *; lia].
  cbn [endHash r_after r_in r_h r_capture r_left r_inflate fmap option_fmap option_map default]. unfold id. rewrite -crcUpdate_app.
  pose proof (crcUpdate_u32 0 (hdr ++ bs)) as Hu. set (crc := crcUpdate 0 (hdr ++ bs)) in *. clearbody crc.
  assert (is_u32 crc) as Hr by (by apply Hu).
  rewrite (reads_u32 i crc Hr (RState _ None None (limit - blen hdr - blen bs) i) rest eq_refl eq_refl);
    [|cbn [r_left]; unfold blen in *; lia].
  by rewrite (bool_decide_false (crc ≠ crc)); [|intros []].
Qed.

(** C38: a save that succeeded under a positive size limit of at most
    MaxInt64/16 wrote at most that many bytes, and a load with the same limit
    reads its records back, in order and with nothing lost but what the value
    filter drops: through the header, the metadata, the length prefixes, the
    sealed block when the codec encrypts, the decompression budget and the
    CRC. *)
Theorem snapshot_roundtrip rest :
  saved → blen out <= sc_maxSnapshotBytes cfg ∧ readSnapshot L T cfg (out ++ rest) = inr (loaded T <$> staged).
Proof.
  intros Hs. split; [|by apply saved_loads]. pose proof (saved_parts Hs) as Hp.
  destruct (splitEncryption (sc_codec cfg)). destruct Hp as (bs & i & _ & Hl & _). lia.
Qed.

(** The header of a saved file, encrypted or not, can be inspected
    without decoding a record or knowing the key: it names the codec and the
    cache, the time and number of records of the save, and its metadata. *)
Theorem inspect_saved :
  saved → InspectSnapshot out = inr (headerInfo T cfg now (Z.of_nat (length staged))).
Proof.
  intros Hs. pose proof (saved_parts Hs) as Hp. destruct (splitEncryption (sc_codec cfg)) as [rec enc].
  destruct Hp as (bs & i & Hout & Hl & Rh & _). set (hdr := headerField _ _ _ _) in *. clearbody hdr. unfold InspectSnapshot.
  rewrite (Rh 0 (RState out None None (blen out) 0) (bs ++ le 4 (crcUpdate 0 (hdr ++ bs))) eq_refl Hout); [done|].
  cbn [r_left]. split; [rewrite Hout blen_app; unfold blen; lia|lia].
Qed.

End snap_theorems.

(** *** What a load accepts *)

(** [Q] reads from the front and feeds the CRC what it reads. *)
Definition consumes {A} (Q : prog rstate A) : Prop :=
  ∀ r a r', Q r = inr (a, r') → ∃ bs, r_in r = bs ++ r_in r' ∧ r_h r' = (λ h, crcUpdate h bs) <$> r_h r.

Create HintDb consumes.

Lemma consumes_keeps {A} (Q : prog rstate A) :
  (∀ r a r', Q r = inr (a, r') → r_in r' = r_in r ∧ r_h r' = r_h r) → consumes Q.
Proof.
  intros H r a r' E. destruct (H _ _ _ E) as [-> ->]. exists []. split; [done|].
  destruct (r_h r); cbn; [by rewrite crcUpdate_nil|done].
Qed.

Lemma consumes_ret {A} (a : A) : consumes (mret a).
Proof. apply consumes_keeps. by intros r ? ? [= _ <-]. Qed.

Lemma consumes_lift {A} (x : res A) : consumes (lift x).
Proof. apply consumes_keeps. unfold lift. destruct x; [done|]. by intros r ? ? [= _ <-]. Qed.

Lemma consumes_throw {A} e : consumes (throw (A:=A) e).
Proof. done. Qed.

Lemma consumes_bind {A B} (Q : prog rstate A) (f : A → prog rstate B) :
  consumes Q → (∀ a, consumes (f a)) → consumes (Q ≫= f).
Proof.
  intros H1 H2 r b r' (a & r1 & E1 & E2)%prog_bind_inv.
  destruct (H1 _ _ _ E1) as (b1 & Hr1 & Hh1). destruct (H2 _ _ _ _ E2) as (b2 & Hr2 & Hh2).
  exists (b1 ++ b2). rewrite Hr1 Hr2 Hh2 Hh1 assoc. split; [done|]. destruct (r_h r); cbn; [by rewrite crcUpdate_app|done].
Qed.

Lemma consumes_read n : consumes (r_read n).
Proof.
  intros r a r'. unfold r_read. do 2 (case_bool_decide; [done|]). intros [= <- <-].
  eexists. cbn. split; [symmetry; apply take_drop|done].
Qed.

Lemma consumes_take n : consumes (r_take n).
Proof. intros r a r'. unfold r_take. case_bool_decide; [done|]. apply consumes_read. Qed.

#[export] Hint Resolve consumes_ret consumes_lift consumes_throw consumes_bind consumes_read consumes_take : consumes.
#[export] Hint Extern 1 (consumes (if ?b then _ else _)) => destruct b : consumes.
#[export] Hint Extern 1 (consumes (match ?x with _ => _ end)) => destruct x : consumes.

Lemma consumes_u8 : consumes r_u8. Proof. unfold r_u8. eauto with consumes. Qed.
Lemma consumes_u16 : consumes r_u16. Proof. unfold r_u16. eauto with consumes. Qed.
Lemma consumes_u32 : consumes r_u32. Proof. unfold r_u32. eauto with consumes. Qed.
Lemma consumes_u64 : consumes r_u64. Proof. unfold r_u64. eauto with consumes. Qed.
#[export] Hint Resolve consumes_u8 consumes_u16 consumes_u32 consumes_u64 : consumes.
Lemma consumes_i64 : consumes r_i64. Proof. unfold r_i64. eauto with consumes. Qed.
Lemma consumes_bytes : consumes r_bytes. Proof. unfold r_bytes. eauto with consumes. Qed.
#[export] Hint Resolve consumes_i64 consumes_bytes : consumes.

Lemma consumes_all {A} n (f : prog rstate A) : consumes f → consumes (readAll n f).
Proof. intros Hf. induction n as [|n IH]; cbn; eauto with consumes. Qed.

Lemma consumes_pairs n out : consumes (readPairs n out).
Proof. revert out. induction n as [|n IH]; intros out; cbn; eauto 6 with consumes. Qed.
#[export] Hint Resolve consumes_all consumes_pairs : consumes.

(** Step through a reading program. *)
Ltac consume := repeat (intros; first [apply consumes_bind | solve [eauto with consumes] | case_match]).

Lemma consumes_header : consumes readSnapshotHeader.
Proof. unfold readSnapshotHeader, readMetadata. consume. Qed.

Section accepts.
Context {K V : Type} (L : codecEnv) (T : snapTypes K V) (cfg : snapConfig K V).

Lemma consumes_decode (c : Codec K V) data dst : consumes (ls_decode L c data dst).
Proof. apply consumes_keeps. intros r a r'. unfold ls_decode. destruct (decode _ _ _ _ _) as [|[]]; [done|]. by intros [= _ <-]. Qed.
#[local] Hint Resolve consumes_decode : consumes.

Lemma consumes_record c version : consumes (readRecord L T c version).
Proof. unfold readRecord, unmarshalKey, unmarshalValue, readFields. consume. Qed.
#[local] Hint Resolve consumes_record : consumes.

Lemma consumes_openRecords c version key header count sealed : consumes (openRecords L T c version key header count sealed).
Proof.
  apply consumes_keeps. intros r a r'. unfold openRecords. destruct (openSealed _ _ _ _) as [|plain]; [done|].
  destruct (readRecords _ _ _ _ _ _) as [|[st inner]]; [done|]. case_bool_decide; [done|]. by intros [= _ <-].
Qed.
#[local] Hint Resolve consumes_openRecords : consumes.

Lemma consumes_endCapture : consumes endCapture.
Proof. apply consumes_keeps. by intros r a r' [= _ <-]. Qed.
#[local] Hint Resolve consumes_header consumes_endCapture : consumes.

Lemma consumes_body : consumes (readBody L T cfg).
Proof. unfold readBody, readRecords, readSealedRecords. consume. Qed.

Lemma accepted_crc input staged :
  readSnapshot L T cfg input = inr staged →
  ∃ body crc rest, input = body ++ crc ++ rest ∧ length crc = 4%nat ∧ unle crc = crcUpdate 0 body.
Proof.
  unfold readSnapshot. set (r0 := RState _ _ _ _ _). destruct (readFile L T cfg r0) as [|[st r1]] eqn:E; [done|]. intros _.
  apply prog_bind_inv in E as (x & r2 & E1 & (h & r3 & E2 & (v & r4 & E3 & E4)%prog_bind_inv)%prog_bind_inv).
  destruct (consumes_body _ _ _ E1) as (body & Hin & Hh). injection E2 as <- <-. rewrite Hh in E4. cbn in E4, Hin. unfold id in E4.
  unfold r_u32 in E3. apply prog_bind_inv in E3 as (b & r5 & E3 & [= <- <-]). unfold r_read in E3. cbn in E3.
  case_bool_decide as Hcrc; [done|]. case_bool_decide; [done|]. case_bool_decide as Hlen; [done|].
  change (Z.to_nat 4) with 4%nat in E3. assert (b = take 4 (r_in r2)) as -> by congruence.
  exists body, (take 4 (r_in r2)), (drop 4 (r_in r2)). rewrite take_drop. split; [done|]. split; [|done].
  rewrite length_take. unfold blen in Hlen. lia.
Qed.

End accepts.

(** C39: whatever a load accepts, of any origin and with any codec, is a body
    followed by the CRC of that body; and a file that differs from it in one
    byte of the body does not carry the CRC of its body. *)
Theorem load_checks_crc {K V} (L : codecEnv) (T : snapTypes K V) cfg input staged :
  readSnapshot L T cfg input = inr staged →
  ∃ body crc rest, input = body ++ crc ++ rest ∧ length crc = 4%nat ∧ unle crc = crcUpdate 0 body ∧
    ∀ a x y b, body = a ++ x :: b → 0 <= x < 256 → 0 <= y < 256 → x ≠ y → unle crc ≠ crcUpdate 0 (a ++ y :: b).
Proof.
  intros (body & crc & rest & Hin & Hlen & Hcrc)%accepted_crc. exists body, crc, rest. split_and!; [done..|].
  intros a x y b -> Hx Hy Hxy E. apply Hxy. apply (crc_one_byte a x y b); [done..|]. congruence.
Qed.

(** *** Evaluation *)

(** String keys, byte-string values, no hooks and no filter. *)
Definition zTypes : snapTypes goKey bytes :=
  SnapTypes _ _ id KindString Some id None None [].

Definition zMeta : gmap bytes bytes := <[[98]:=[1; 2]]> {[ [97] := [] ]}.

Definition zSnapCfg (codec : Codec goKey bytes) (limit : Z) : snapConfig goKey bytes := SnapConfig _ _ codec [109; 99] zMeta limit.

Definition zStaged : list (entrySnapshot goKey bytes) :=
  [ Snap _ _ (KString [107; 49]) [1; 2; 3] 0 1 5 2 0 0 [[116]; []];
    Snap _ _ (KString [107; 50]) [] 900 7 (-3) 0 1 400 [] ].

Lemma zStaged_ok codec :
  isRawCodec codec = true → (∀ b, base_ok codec (DBytes b) ToBytes) → (∀ b, base_ok codec (DVal b) ToVal) →
  Forall (record_ok zTypes codec) zStaged.
Proof.
  intros Hr Hb Hv.
  assert (∀ s, key_ok zTypes codec (KString s)) as Hk by (intros s; unfold key_ok; rewrite Hr; by split_and!).
  apply Forall_cons. split; [|apply Forall_singleton]; unfold record_ok; split_and!; try apply Hk; try apply Hv;
    unfold is_i64; cbn; lia.
Qed.

(** The evaluated example: saved encrypted and compressed under 1000 bytes. *)
Definition zSaved : bytes := match Save toyEnv zTypes (zSnapCfg toyStack 1000) 77 zStaged false with inr out => out | inl _ => [] end.

Lemma zSaved_saved : saved toyEnv zTypes (zSnapCfg toyStack 1000) 77 zStaged zSaved.
Proof.
  split; [apply toyEnv_ok|]. split; [apply zStaged_ok; [done|intros b o [= <-]; done..]|].
  split; [by unfold is_i64|]. split; [done|]. split; [by vm_compute|]. vm_compute. reflexivity.
Qed.

Lemma snapshot_roundtrip_witness :
  blen zSaved <= 1000 ∧ readSnapshot toyEnv zTypes (zSnapCfg toyStack 1000) (zSaved ++ [0]) = inr (loaded zTypes <$> zStaged).
Proof. exact (snapshot_roundtrip toyEnv zTypes (zSnapCfg toyStack 1000) 77 zStaged zSaved [0] zSaved_saved). Defined.

Lemma inspect_saved_witness : InspectSnapshot zSaved = inr (headerInfo zTypes (zSnapCfg toyStack 1000) 77 2).
Proof. exact (inspect_saved toyEnv zTypes (zSnapCfg toyStack 1000) 77 zStaged zSaved zSaved_saved). Defined.

Lemma load_checks_crc_witness :
  ∃ body crc rest, zSaved = body ++ crc ++ rest ∧ length crc = 4%nat ∧ unle crc = crcUpdate 0 body.
Proof.
  destruct (load_checks_crc toyEnv zTypes (zSnapCfg toyStack 1000) zSaved zStaged) as (b & c & r & H1 & H2 & H3 & _).
  - vm_compute. reflexivity.
  - exists b, c, r. exact (conj H1 (conj H2 H3)).
Defined.

(** A limit above a sixteenth of the largest [int64] makes the budget the
    largest [int64]: the save succeeds, and a load with the same limit
    succeeds too, but every compressed key and value comes back empty. *)
Definition zUnlimited : snapConfig goKey bytes := zSnapCfg (CompressedCodec (CBase rawBytes) 6) maxInt.

Example unlimited_load_empties :
  match Save toyEnv zTypes zUnlimited 77 [Snap _ _ (KString [107; 49]) [1; 2; 3] 0 1 5 2 0 0 []] false with
  | inr out => readSnapshot toyEnv zTypes zUnlimited out
  | inl e => inl e
  end = inr [Snap _ _ (KString []) [] 0 1 5 2 0 0 []].
Proof. vm_compute. reflexivity. Qed.
