(* ===== verification/Events.v ===== *)
(** * Events: the fan-out of cache events to subscribers ([events.go])

    A subscriber has a buffered channel; [publish] offers an event to every
    channel whose kinds it matches and drops it where the buffer is full.
    Sending on a closed channel and closing one twice panic in Go, so both are
    recorded ([b_panicked]) and shown not to happen however the goroutines
    interleave.

    A [step] is one critical section under the write lock or one atomic
    operation: [subscribe] checks the mark and takes an id ([Subscribe]), then
    registers under the lock ([Register]); [unsubscribe] forgets the
    registration under the lock ([Forget]) and then closes the channel
    ([CloseForgotten]); [close] sets the mark ([MarkClosed]) and then closes
    all channels under the lock ([CloseAll]). [publish] holds the lock for
    reading only, so calls of it overlap with each other and with everything
    that does not take the write lock: [Publish] is the test for subscribers,
    [RLock] takes the read lock, [Offer] is one turn of the loop and [RUnlock]
    ends the call. *)

From S2P Require Import Prelude.

#[local] Open Scope Z_scope.

(** ** Kinds ([eventKindMask], a [uint32]) *)

Definition kindBit (k : Z) : Z := Z.shiftl 1 k `mod` 2 ^ 32.

Definition mask_has (m k : Z) : bool := if bool_decide (m = 0) then true else bool_decide (Z.land m (kindBit k) ≠ 0).

Definition kindMask (kinds : list Z) : Z := foldl (λ m k, Z.lor m (kindBit k)) 0 kinds.

Lemma filter_agree {X} (f g : X → bool) (l : list X) : (∀ x, x ∈ l → f x = g x) → filter f l = filter g l.
Proof.
  induction l as [|x l IH]; intros Hfg; [done|]. rewrite !filter_cons (Hfg x); [|left]. by rewrite IH; [|intros; apply Hfg; right].
Qed.

Section events.
Context {Event : Type} (ev_Kind : Event → Z).

(** A channel: [ch_taken] is what its reader has received. An event carries
    the number of the [publish] that sent it, which no code reads. *)
Record chan := Chan { ch_cap : nat; ch_kinds : Z; ch_buf : list (nat * Event); ch_taken : list (nat * Event); ch_open : bool }.

(** Everything that was ever put into the channel. *)
Definition log (ch : chan) : list (nat * Event) := ch_taken ch ++ ch_buf ch.

(** A call of [publishEvent] that saw subscribers: the event and, once it has
    the read lock, the subscriptions its loop has not come to. *)
Record publisher := Publisher { p_event : Event; p_todo : option (gmap Z Z) }.

(** [b_subs] maps an id to the address of the subscription's channel.
    [b_pending] and [b_forgotten] are the local variables of [subscribe] and
    [unsubscribe] between their sections, [b_pubs] the calls of [publish] that
    have not returned, by number. [b_missed] lists which call met a full
    buffer where; like the numbers it is there to be reasoned about. *)
Record bus := Bus {
  b_chans : gmap Z chan;
  b_subs : gmap Z Z;
  b_nextID : Z;
  b_closed : bool;
  b_count : Z;
  b_dropped : Z;                            (* [Stats.EventsDropped] *)
  b_panicked : bool;
  b_pending : gmap Z Z;
  b_forgotten : list Z;
  b_closing : bool;                         (* [close] is past its mark *)
  b_fresh : Z;                              (* addresses of channels *)
  b_pubs : gmap nat publisher;
  b_nextPub : nat;
  b_missed : list (nat * Z)
}.

Implicit Types (b : bus) (ch : chan) (e : Event) (a id : Z) (p : nat).

Definition newEventBus : bus := Bus ∅ ∅ 0 false 0 0 false ∅ [] false 0 ∅ 0 [].

(** [active] *)
Definition active b : bool := bool_decide (0 < b_count b).

Definition set_chan b a ch : bus :=
  Bus (<[a := ch]> (b_chans b)) (b_subs b) (b_nextID b) (b_closed b) (b_count b) (b_dropped b) (b_panicked b)
    (b_pending b) (b_forgotten b) (b_closing b) (b_fresh b) (b_pubs b) (b_nextPub b) (b_missed b).

Definition panics b : bus :=
  Bus (b_chans b) (b_subs b) (b_nextID b) (b_closed b) (b_count b) (b_dropped b) true
    (b_pending b) (b_forgotten b) (b_closing b) (b_fresh b) (b_pubs b) (b_nextPub b) (b_missed b).

Definition drop_event b p a : bus :=
  Bus (b_chans b) (b_subs b) (b_nextID b) (b_closed b) (b_count b) (b_dropped b + 1) (b_panicked b)
    (b_pending b) (b_forgotten b) (b_closing b) (b_fresh b) (b_pubs b) (b_nextPub b) (b_missed b ++ [(p, a)]).

Definition set_subs b (subs : gmap Z Z) (pending : gmap Z Z) (forgotten : list Z) : bus :=
  Bus (b_chans b) subs (b_nextID b) (b_closed b) (Z.of_nat (size subs)) (b_dropped b) (b_panicked b)
    pending forgotten (b_closing b) (b_fresh b) (b_pubs b) (b_nextPub b) (b_missed b).

Definition set_pubs b (pubs : gmap nat publisher) (next : nat) : bus :=
  Bus (b_chans b) (b_subs b) (b_nextID b) (b_closed b) (b_count b) (b_dropped b) (b_panicked b)
    (b_pending b) (b_forgotten b) (b_closing b) (b_fresh b) pubs next (b_missed b).

(** [close(ch)] *)
Definition close_chan b a : bus :=
  match b_chans b !! a with
  | Some ch => if ch_open ch then set_chan b a (Chan (ch_cap ch) (ch_kinds ch) (ch_buf ch) (ch_taken ch) false)
               else panics b
  | None => b
  end.

(** The body of the loop of [publish], on one subscription. *)
Definition offer p e b a : bus :=
  match b_chans b !! a with
  | Some ch =>
      if negb (mask_has (ch_kinds ch) (ev_Kind e)) then b
      else if negb (ch_open ch) then panics b
      else if bool_decide (length (ch_buf ch) < ch_cap ch)%nat
      then set_chan b a (Chan (ch_cap ch) (ch_kinds ch) (ch_buf ch ++ [(p, e)]) (ch_taken ch) true)
      else drop_event b p a
  | None => b
  end.

(** [publishEvent] up to the lock: without subscribers it returns. *)
Definition Publish b e : bus :=
  set_pubs b (if active b then <[b_nextPub b := Publisher e None]> (b_pubs b) else b_pubs b) (S (b_nextPub b)).

(** [b.mu.RLock()]: any number of readers hold it at a time. *)
Definition RLock b p : bus :=
  match b_pubs b !! p with
  | Some (Publisher e None) => set_pubs b (<[p := Publisher e (Some (b_subs b))]> (b_pubs b)) (b_nextPub b)
  | _ => b
  end.

(** A turn of the loop of [publish]: the language leaves open which of the
    subscriptions that are left comes next. *)
Definition Offer b p id : bus :=
  match b_pubs b !! p with
  | Some (Publisher e (Some todo)) =>
      match todo !! id with
      | Some a => set_pubs (offer p e b a) (<[p := Publisher e (Some (delete id todo))]> (b_pubs b)) (b_nextPub b)
      | None => b
      end
  | _ => b
  end.

(** The end of the loop, [b.mu.RUnlock()]. *)
Definition RUnlock b p : bus :=
  match b_pubs b !! p with
  | Some (Publisher e (Some todo)) =>
      if bool_decide (todo = ∅) then set_pubs b (delete p (b_pubs b)) (b_nextPub b) else b
  | _ => b
  end.

(** [b.mu.Lock()] waits while a reader has the lock. *)
Definition lockable b : bool := bool_decide (map_Forall (λ _ q, p_todo q = None) (b_pubs b)).

(** [Cache.Subscribe] with [default], the buffer that is configured, up to
    the lock of [subscribe]. *)
Definition bufferSize (buf default : Z) : Z :=
  if bool_decide (buf <= 0) then if bool_decide (default <= 0) then 64 else default else buf.

Definition Subscribe b (buf default : Z) (kinds : list Z) : bus :=
  let a := b_fresh b + 1 in
  let ch := Chan (Z.to_nat (bufferSize buf default)) (kindMask kinds) [] [] (negb (b_closed b)) in
  let id := if b_closed b then b_nextID b else b_nextID b + 1 in
  Bus (<[a := ch]> (b_chans b)) (b_subs b) id (b_closed b) (b_count b) (b_dropped b) (b_panicked b)
    (if b_closed b then b_pending b else <[id := a]> (b_pending b)) (b_forgotten b) (b_closing b) a
    (b_pubs b) (b_nextPub b) (b_missed b).

Definition Register b id : bus :=
  if lockable b then
    match b_pending b !! id with
    | Some a => set_subs b (<[id := a]> (b_subs b)) (delete id (b_pending b)) (b_forgotten b)
    | None => b
    end
  else b.

(** [unsubscribe]; a subscription that was refused has the id 0. *)
Definition Forget b id : bus :=
  if bool_decide (id = 0) || negb (lockable b) then b
  else match b_subs b !! id with
       | Some a => set_subs b (delete id (b_subs b)) (b_pending b) (a :: b_forgotten b)
       | None => set_subs b (b_subs b) (b_pending b) (b_forgotten b)
       end.

Definition CloseForgotten b : bus :=
  match b_forgotten b with
  | [] => b
  | a :: l =>
      close_chan (Bus (b_chans b) (b_subs b) (b_nextID b) (b_closed b) (b_count b) (b_dropped b) (b_panicked b)
                    (b_pending b) l (b_closing b) (b_fresh b) (b_pubs b) (b_nextPub b) (b_missed b)) a
  end.

Definition MarkClosed b : bus :=
  if b_closed b then b
  else Bus (b_chans b) (b_subs b) (b_nextID b) true (b_count b) (b_dropped b) (b_panicked b)
         (b_pending b) (b_forgotten b) true (b_fresh b) (b_pubs b) (b_nextPub b) (b_missed b).

Definition CloseAll b : bus :=
  if b_closing b && lockable b then
    let b' := foldl close_chan b (map_to_list (b_subs b)).*2 in
    Bus (b_chans b') ∅ (b_nextID b') (b_closed b') 0 (b_dropped b') (b_panicked b') (b_pending b') (b_forgotten b') false
      (b_fresh b') (b_pubs b') (b_nextPub b') (b_missed b')
  else b.

(** The reader takes the oldest event off its channel. *)
Definition Receive b a : bus :=
  match b_chans b !! a with
  | Some (Chan cap kinds (e :: buf) taken op) => set_chan b a (Chan cap kinds buf (taken ++ [e]) op)
  | _ => b
  end.

Inductive step :=
| SSubscribe (buf default : Z) (kinds : list Z)
| SRegister (id : Z)
| SForget (id : Z)
| SCloseForgotten
| SPublish (e : Event)
| SRLock (p : nat)
| SOffer (p : nat) (id : Z)
| SRUnlock (p : nat)
| SReceive (a : Z)
| SMarkClosed
| SCloseAll.

Definition bus_run b (s : step) : bus :=
  match s with
  | SSubscribe buf default kinds => Subscribe b buf default kinds
  | SRegister id => Register b id
  | SForget id => Forget b id
  | SCloseForgotten => CloseForgotten b
  | SPublish e => Publish b e
  | SRLock p => RLock b p
  | SOffer p id => Offer b p id
  | SRUnlock p => RUnlock b p
  | SReceive a => Receive b a
  | SMarkClosed => MarkClosed b
  | SCloseAll => CloseAll b
  end.

Definition bus_run_all b (ss : list step) : bus := foldl bus_run b ss.

(** ** No panic *)

(** The channels that somebody will close. *)
Definition owned b : list Z := (map_to_list (b_subs b)).*2 ++ (map_to_list (b_pending b)).*2 ++ b_forgotten b.

Definition open_at b a : Prop := ∃ ch, b_chans b !! a = Some ch ∧ ch_open ch = true.

Record bus_ok b : Prop := BusOk {
  bk_panicked : b_panicked b = false;
  bk_nodup : NoDup (owned b);
  bk_open : Forall (open_at b) (owned b);
  bk_fresh : ∀ a, is_Some (b_chans b !! a) → a <= b_fresh b;
  bk_ids : ∀ id, is_Some (b_pending b !! id) ∨ is_Some (b_subs b !! id) → id <= b_nextID b;
  bk_apart : ∀ id, is_Some (b_pending b !! id) → b_subs b !! id = None;
  bk_count : b_count b = Z.of_nat (size (b_subs b));
  bk_pubs : ∀ p, is_Some (b_pubs b !! p) → (p < b_nextPub b)%nat;
  bk_todo : ∀ p e todo, b_pubs b !! p = Some (Publisher e (Some todo)) → todo ⊆ b_subs b
}.

(** What offers and closes leave alone. *)
Definition same_book b b' : Prop :=
  b_subs b' = b_subs b ∧ b_pending b' = b_pending b ∧ b_forgotten b' = b_forgotten b ∧ b_nextID b' = b_nextID b ∧
  b_count b' = b_count b ∧ b_closed b' = b_closed b ∧ b_closing b' = b_closing b ∧ b_fresh b' = b_fresh b ∧
  b_pubs b' = b_pubs b ∧ b_nextPub b' = b_nextPub b.

Lemma book_ok b b' :
  bus_ok b → same_book b b' → b_panicked b' = false →
  (∀ a, is_Some (b_chans b' !! a) ↔ is_Some (b_chans b !! a)) →
  (∀ a, open_at b a → open_at b' a) → bus_ok b'.
Proof.
  intros [O1 O2 O3 O4 O5 O6 O7 O8 O9] (E1 & E2 & E3 & E4 & E5 & E6 & E7 & E8 & E9 & E10) Hp Hd Ho.
  assert (owned b' = owned b) as Eo by (unfold owned; congruence).
  constructor; rewrite ?Eo ?E1 ?E2 ?E4 ?E5 ?E8 ?E9 ?E10 //.
  - eapply Forall_impl; [done|]. auto.
  - intros a [? ?]%Hd. by apply O4.
Qed.

(** The subscriber at [a], if there is room. *)
Definition accept p e ch : chan :=
  if mask_has (ch_kinds ch) (ev_Kind e) && bool_decide (length (ch_buf ch) < ch_cap ch)%nat
  then Chan (ch_cap ch) (ch_kinds ch) (ch_buf ch ++ [(p, e)]) (ch_taken ch) (ch_open ch) else ch.

(** The subscriber misses [e]. *)
Definition misses e ch : bool := mask_has (ch_kinds ch) (ev_Kind e) && bool_decide (ch_cap ch <= length (ch_buf ch))%nat.

Lemma offer_spec p e b a ch :
  b_chans b !! a = Some ch → ch_open ch = true →
  same_book b (offer p e b a) ∧ b_panicked (offer p e b a) = b_panicked b ∧
  b_chans (offer p e b a) = <[a := accept p e ch]> (b_chans b) ∧
  b_dropped (offer p e b a) = b_dropped b + (if misses e ch then 1 else 0) ∧
  b_missed (offer p e b a) = b_missed b ++ (if misses e ch then [(p, a)] else []).
Proof.
  intros Hch Hop. unfold offer, accept, misses. rewrite Hch Hop. destruct (mask_has _ _); cbn.
  - repeat case_bool_decide; try lia; cbn; rewrite ?app_nil_r ?Z.add_0_r; split_and!; try done. by rewrite insert_id.
  - rewrite app_nil_r Z.add_0_r insert_id //.
Qed.

Lemma same_book_trans b1 b2 b3 : same_book b1 b2 → same_book b2 b3 → same_book b1 b3.
Proof. unfold same_book. intuition congruence. Qed.

(** Closing channels that are open, each once. *)
Lemma close_all b l :
  NoDup l → Forall (open_at b) l →
  let b' := foldl close_chan b l in
  same_book b b' ∧ b_panicked b' = b_panicked b ∧ (b_dropped b' = b_dropped b ∧ b_missed b' = b_missed b) ∧
  ∀ a, b_chans b' !! a = (λ ch, if decide (a ∈ l) then Chan (ch_cap ch) (ch_kinds ch) (ch_buf ch) (ch_taken ch) false else ch) <$> b_chans b !! a.
Proof.
  revert b. induction l as [|a l IH]; intros b Hnd Ho; cbn.
  { split_and!; [done..|]. intros a. by destruct (b_chans b !! a). }
  apply NoDup_cons in Hnd as [Ha Hnd]. apply Forall_cons in Ho as [(ch & Hch & Hop) Ho].
  set (ch' := Chan (ch_cap ch) (ch_kinds ch) (ch_buf ch) (ch_taken ch) false).
  assert (close_chan b a = set_chan b a ch') as -> by (unfold close_chan; by rewrite Hch Hop).
  destruct (IH (set_chan b a ch') Hnd) as (I1 & I2 & I3 & I4).
  { rewrite Forall_forall in Ho. apply Forall_forall. intros x Hx. destruct (Ho x Hx) as (cx & Hcx & Hox). exists cx. split; [|done]. cbn.
    rewrite lookup_insert_ne; [done|]. by intros ->. }
  split; [by eapply same_book_trans; [|exact I1]|]. split; [done|]. split; [done|]. intros a'. rewrite I4. cbn.
  destruct (decide (a' = a)) as [->|Hne].
  - rewrite lookup_insert_eq Hch. cbn. rewrite decide_False // decide_True //. by left.
  - rewrite lookup_insert_ne //. destruct (b_chans b !! a') as [cx|]; [|done]. cbn. destruct (decide (a' ∈ l)).
    + rewrite decide_True //. by right.
    + rewrite decide_False //. by intros [?|?]%elem_of_cons.
Qed.

Lemma subs_owned b : bus_ok b → NoDup (map_to_list (b_subs b)).*2 ∧ Forall (open_at b) (map_to_list (b_subs b)).*2.
Proof.
  intros Hok. pose proof (bk_nodup b Hok) as Hn. pose proof (bk_open b Hok) as Ho. unfold owned in *.
  apply NoDup_app in Hn as (? & _). by apply Forall_app in Ho as [? _].
Qed.

(** Publishers come and go; what they hold back is what is registered. *)
Lemma pubs_ok b pubs next :
  bus_ok b → (∀ p, is_Some (pubs !! p) → (p < next)%nat) →
  (∀ p e todo, pubs !! p = Some (Publisher e (Some todo)) → todo ⊆ b_subs b) → bus_ok (set_pubs b pubs next).
Proof. intros [O1 O2 O3 O4 O5 O6 O7 O8 O9] H1 H2. by constructor. Qed.

Lemma Publish_ok b e : bus_ok b → bus_ok (Publish b e).
Proof.
  intros Hok. apply pubs_ok; [done|..].
  - intros p. destruct (active b); [|intros ?%(bk_pubs b Hok); lia].
    destruct (decide (b_nextPub b = p)) as [<-|]; [lia|]. rewrite lookup_insert_ne //. intros ?%(bk_pubs b Hok). lia.
  - intros p e' todo. destruct (active b); [|apply (bk_todo b Hok)].
    destruct (decide (b_nextPub b = p)) as [<-|]; [by rewrite lookup_insert_eq|]. rewrite lookup_insert_ne //. apply (bk_todo b Hok).
Qed.

Lemma RLock_ok b p : bus_ok b → bus_ok (RLock b p).
Proof.
  intros Hok. unfold RLock. destruct (b_pubs b !! p) as [[e [todo|]]|] eqn:Hp; [done| |done]. apply pubs_ok; [done|..]; intros q.
  - destruct (decide (p = q)) as [<-|]; [intros _; apply (bk_pubs b Hok); by rewrite Hp|]. rewrite lookup_insert_ne //. apply Hok.
  - intros e' todo. destruct (decide (p = q)) as [<-|]; [rewrite lookup_insert_eq; by intros [= <- <-]|].
    rewrite lookup_insert_ne //. apply (bk_todo b Hok).
Qed.

Lemma RUnlock_ok b p : bus_ok b → bus_ok (RUnlock b p).
Proof.
  intros Hok. unfold RUnlock. destruct (b_pubs b !! p) as [[e [todo|]]|] eqn:Hp; try done. case_bool_decide; [|done].
  apply pubs_ok; [done|..]; intros q.
  - intros [? [_ Hq]%lookup_delete_Some]. apply (bk_pubs b Hok). by rewrite Hq.
  - intros e' todo' [_ Hq]%lookup_delete_Some. by eapply (bk_todo b Hok).
Qed.

(** The channel of a turn is open: it is registered, and nobody can forget it
    before the loop ends. *)
Lemma todo_open b p e todo id a :
  bus_ok b → b_pubs b !! p = Some (Publisher e (Some todo)) → todo !! id = Some a →
  b_subs b !! id = Some a ∧ ∃ ch, b_chans b !! a = Some ch ∧ ch_open ch = true.
Proof.
  intros Hok Hp Hid. assert (b_subs b !! id = Some a) as Hs by (eapply lookup_weaken; [done|by eapply (bk_todo b Hok)]).
  split; [done|]. destruct (subs_owned b Hok) as [_ Ho]. rewrite Forall_forall in Ho. apply Ho, list_elem_of_fmap.
  exists (id, a). split; [done|]. by apply elem_of_map_to_list.
Qed.

Lemma Offer_ok b p id : bus_ok b → bus_ok (Offer b p id).
Proof.
  intros Hok. unfold Offer. destruct (b_pubs b !! p) as [[e [todo|]]|] eqn:Hp; try done. destruct (todo !! id) as [a|] eqn:Hid; [|done].
  destruct (todo_open b p e todo id a Hok Hp Hid) as (Hs & ch & Hch & Hop).
  destruct (offer_spec p e b a ch Hch Hop) as (S1 & S2 & S3 & _). apply pubs_ok.
  - apply (book_ok b); [done|done|rewrite S2; apply Hok|..]; intros a'; rewrite ?S3.
    + destruct (decide (a = a')) as [<-|]; [rewrite lookup_insert_eq Hch; naive_solver|by rewrite lookup_insert_ne].
    + intros (ch' & H1 & H2). unfold open_at. rewrite S3. destruct (decide (a = a')) as [<-|]; [|rewrite lookup_insert_ne //; eauto].
      rewrite lookup_insert_eq. eexists. split; [done|]. unfold accept. by destruct (_ && _).
  - intros q. destruct (decide (p = q)) as [<-|]; [intros _; apply (bk_pubs b Hok); by rewrite Hp|]. rewrite lookup_insert_ne //. apply Hok.
  - destruct S1 as (-> & _). intros q e' todo'. destruct (decide (p = q)) as [<-|].
    + rewrite lookup_insert_eq. intros [= <- <-]. etrans; [apply delete_subseteq|]. by eapply (bk_todo b Hok).
    + rewrite lookup_insert_ne //. apply (bk_todo b Hok).
Qed.

(** Nobody holds the lock for reading when a writer has it. *)
Lemma lockable_todo b p e todo : lockable b = true → b_pubs b !! p ≠ Some (Publisher e (Some todo)).
Proof. unfold lockable. intros H%bool_decide_eq_true Hp. by specialize (H p _ Hp). Qed.

Lemma owned_perm b b' : owned b' ≡ₚ owned b → b_chans b' = b_chans b → bus_ok b →
  NoDup (owned b') ∧ Forall (open_at b') (owned b').
Proof.
  intros Hp Hc [_ O2 O3 _ _ _ _ _ _]. rewrite Hp. split; [done|]. eapply Forall_impl; [done|].
  intros a (ch & ? & ?). exists ch. by rewrite Hc.
Qed.

Lemma Register_ok b id : bus_ok b → bus_ok (Register b id).
Proof.
  intros Hok. unfold Register. destruct (lockable b) eqn:Hl; [|done]. destruct (b_pending b !! id) as [a|] eqn:Hp; [|done].
  pose proof Hok as [O1 O2 O3 O4 O5 O6 O7 O8 O9]. assert (b_subs b !! id = None) as Hs by (apply O6; by rewrite Hp).
  destruct (owned_perm b (set_subs b (<[id := a]> (b_subs b)) (delete id (b_pending b)) (b_forgotten b))) as [N1 N2]; [|done|done|].
  { unfold owned. cbn. rewrite map_to_list_insert //. rewrite -{2}(insert_delete_id (b_pending b) id a) //.
    rewrite (map_to_list_insert (delete id (b_pending b))); [|apply lookup_delete_eq]. cbn. by rewrite -Permutation_middle. }
  constructor; try done; cbn.
  - intros id' Hi. apply O5. destruct (decide (id = id')) as [<-|Hne]; [left; by rewrite Hp|].
    rewrite lookup_delete_ne // lookup_insert_ne // in Hi.
  - intros id'. destruct (decide (id = id')) as [<-|Hne]; [rewrite lookup_delete_eq; by intros []|].
    rewrite lookup_delete_ne // lookup_insert_ne //. apply O6.
  - intros q e todo Hq. by apply (lockable_todo b q e todo) in Hl.
Qed.

Lemma Forget_ok b id : bus_ok b → bus_ok (Forget b id).
Proof.
  intros Hok. unfold Forget. case_bool_decide; [done|]. destruct (lockable b) eqn:Hl; [|done]. cbn.
  pose proof Hok as [O1 O2 O3 O4 O5 O6 O7 O8 O9].
  destruct (b_subs b !! id) as [a|] eqn:Hs; [|by constructor].
  destruct (owned_perm b (set_subs b (delete id (b_subs b)) (b_pending b) (a :: b_forgotten b))) as [N1 N2]; [|done|done|].
  { unfold owned. cbn. rewrite -{2}(insert_delete_id (b_subs b) id a) //.
    rewrite (map_to_list_insert (delete id (b_subs b))); [|apply lookup_delete_eq]. cbn.
    by rewrite -!Permutation_middle. }
  constructor; try done; cbn.
  - intros id' Hi. apply O5. destruct Hi as [?|Hi]; [by left|right]. apply lookup_delete_is_Some in Hi. by destruct Hi.
  - intros id' Hi. apply O6 in Hi. by rewrite lookup_delete_None; right.
  - intros q e todo Hq. by apply (lockable_todo b q e todo) in Hl.
Qed.

Lemma CloseForgotten_ok b : bus_ok b → bus_ok (CloseForgotten b).
Proof.
  intros [O1 O2 O3 O4 O5 O6 O7 O8 O9]. unfold CloseForgotten. destruct (b_forgotten b) as [|a l] eqn:Hf; [by constructor|].
  unfold owned in O2, O3. rewrite Hf in O2, O3. rewrite !app_assoc in O2, O3. set (L := (map_to_list (b_subs b)).*2 ++ (map_to_list (b_pending b)).*2) in *.
  rewrite -Permutation_middle in O2. rewrite -Permutation_middle in O3.
  apply NoDup_cons in O2 as [Ha O2]. apply Forall_cons in O3 as [(ch & Hch & Hop) O3].
  unfold close_chan. cbn. rewrite Hch Hop. constructor; cbn; try done.
  - unfold owned. cbn. by rewrite app_assoc.
  - unfold owned. cbn. rewrite app_assoc. rewrite Forall_forall in O3. apply Forall_forall. intros x Hx.
    destruct (O3 x Hx) as (cx & Hcx & Hox). exists cx. split; [|done]. cbn. rewrite lookup_insert_ne; [done|]. by intros ->.
  - intros x. destruct (decide (a = x)) as [<-|Hne]; [intros _; apply O4; by rewrite Hch|]. rewrite lookup_insert_ne //. apply O4.
Qed.

Lemma CloseAll_ok b : bus_ok b → bus_ok (CloseAll b).
Proof.
  intros Hok. unfold CloseAll. destruct (b_closing b && lockable b) eqn:Hl; [|done]. apply andb_prop in Hl as [_ Hl].
  destruct (subs_owned b Hok) as [Hn Ho].
  destruct (close_all b _ Hn Ho) as ((E1 & E2 & E3 & E4 & E5 & E6 & E7 & E8 & E9 & E10) & C2 & C3 & C4). cbv zeta.
  set (b' := foldl close_chan b _) in *. destruct Hok as [O1 O2 O3 O4 O5 O6 O7 O8 O9]. unfold owned in O2, O3.
  apply NoDup_app in O2 as (N1 & N2 & N3). apply Forall_app in O3 as [P1 P2].
  constructor; unfold owned; cbn; rewrite ?map_to_list_empty ?E2 ?E3 ?E4 ?E8 ?E9 ?E10 //.
  - by rewrite C2.
  - rewrite Forall_forall in P2. apply Forall_forall. intros x Hx. destruct (P2 x Hx) as (cx & Hcx & Hox).
    exists cx. cbn. rewrite C4 Hcx. cbn. rewrite decide_False //. intros Hin. by eapply N2.
  - intros a. rewrite C4 fmap_is_Some. apply O4.
  - intros id [Hi|[? Hi]]; [by apply O5; left|done].
  - intros p e todo Hp. by apply (lockable_todo b p e todo) in Hl.
Qed.

Lemma Subscribe_ok b buf default kinds : bus_ok b → bus_ok (Subscribe b buf default kinds).
Proof.
  intros [O1 O2 O3 O4 O5 O6 O7 O8 O9].
  assert (∀ a, open_at b a → a ≠ b_fresh b + 1) as Hne by (intros a (ch & Hch & _) ->; opose proof (O4 (b_fresh b + 1) _); [by rewrite Hch|lia]).
  rewrite Forall_forall in O3. assert (b_fresh b + 1 ∉ owned b) as Hfr by (intros Hin; by apply (Hne _ (O3 _ Hin))).
  assert (b_pending b !! (b_nextID b + 1) = None) as Hnew.
  { destruct (b_pending b !! _) eqn:E; [|done]. opose proof (O5 (b_nextID b + 1) _); [left; by rewrite E|lia]. }
  unfold Subscribe. destruct (b_closed b) eqn:Hc; cbn.
  - constructor; unfold owned in *; cbn; try done.
    + apply Forall_forall. intros x Hx. destruct (O3 x Hx) as (cx & Hcx & Hox). exists cx. cbn. rewrite lookup_insert_ne //.
      intros E. eapply Hne; [by exists cx|done].
    + intros a. destruct (decide (b_fresh b + 1 = a)) as [<-|]; [done|]. rewrite lookup_insert_ne //. intros ?%O4. lia.
  - assert (owned (Subscribe b buf default kinds) ≡ₚ b_fresh b + 1 :: owned b) as Hp.
    { unfold owned, Subscribe. cbn. rewrite Hc. rewrite map_to_list_insert //. cbn. by rewrite -Permutation_middle. }
    unfold Subscribe in Hp. cbn in Hp. rewrite Hc in Hp. cbn in Hp. constructor; try done; rewrite ?Hp.
    + by constructor.
    + constructor; [eexists; cbn; by rewrite lookup_insert_eq|]. apply Forall_forall. intros x Hx.
      destruct (O3 x Hx) as (cx & Hcx & Hox). exists cx. cbn. rewrite lookup_insert_ne //.
      intros E. eapply Hne; [by exists cx|done].
    + cbn. intros a. destruct (decide (b_fresh b + 1 = a)) as [<-|]; [done|]. rewrite lookup_insert_ne //. intros ?%O4. lia.
    + cbn. intros id [Hi|Hi]; [|opose proof (O5 id _); [by right|lia]].
      destruct (decide (b_nextID b + 1 = id)) as [<-|]; [done|]. rewrite lookup_insert_ne // in Hi. opose proof (O5 id _); [by left|lia].
    + cbn. intros id. destruct (decide (b_nextID b + 1 = id)) as [<-|]; [|rewrite lookup_insert_ne //; apply O6].
      intros _. destruct (b_subs b !! _) eqn:E; [|done]. opose proof (O5 (b_nextID b + 1) _); [right; by rewrite E|lia].
Qed.

Lemma Receive_ok b a : bus_ok b → bus_ok (Receive b a).
Proof.
  intros Hok. unfold Receive. destruct (b_chans b !! a) as [[cap kinds [|e buf] taken op]|] eqn:Hch; try done.
  apply (book_ok b); try done; [apply Hok|..]; cbn.
  - intros a'. destruct (decide (a = a')) as [<-|]; [rewrite lookup_insert_eq Hch; naive_solver|by rewrite lookup_insert_ne].
  - intros a' (ch & H1 & H2). unfold open_at. cbn. destruct (decide (a = a')) as [<-|].
    + rewrite lookup_insert_eq. eexists. split; [done|]. rewrite Hch in H1. by injection H1 as <-.
    + rewrite lookup_insert_ne //. eauto.
Qed.

Lemma run_ok b s : bus_ok b → bus_ok (bus_run b s).
Proof.
  destruct s; cbn; auto using Subscribe_ok, Register_ok, Forget_ok, CloseForgotten_ok, Publish_ok, RLock_ok, Offer_ok, RUnlock_ok, Receive_ok, CloseAll_ok.
  intros Hok. unfold MarkClosed. destruct (b_closed b); [done|]. by destruct Hok.
Qed.

Lemma new_ok : bus_ok newEventBus.
Proof.
  constructor; unfold owned; cbn; rewrite ?map_to_list_empty //=; [constructor|..].
  - intros a. rewrite lookup_empty. by intros [].
  - intros id. rewrite !lookup_empty. by intros [[]|[]].
  - intros p. rewrite lookup_empty. by intros [].
Qed.

Lemma reachable_ok ss : bus_ok (bus_run_all newEventBus ss).
Proof.
  unfold bus_run_all. generalize new_ok. generalize newEventBus.
  induction ss as [|s ss IH]; intros b Hok; [done|]. cbn. by apply IH, run_ok.
Qed.

(** ** What subscribers receive *)

(** The events of a run; the n-th call of [publish] has the number n. *)
Definition published (ss : list step) : list Event := omap (λ s, match s with SPublish e => Some e | _ => None end) ss.

(** The call [p] has returned. *)
Definition returned b p : Prop := (p < b_nextPub b)%nat ∧ b_pubs b !! p = None.

(** The call [p] may still offer its event to the channel at [a]. *)
Definition to_come b p a : Prop :=
  (b_nextPub b <= p)%nat ∨ ∃ e todo, b_pubs b !! p = Some (Publisher e todo) ∧ ∀ m, todo = Some m → ∃ id, m !! id = Some a.

(** A step adds to a channel at most the event of one call that is at its
    turn. *)
Definition added b (s : step) a : list (nat * Event) :=
  match s with
  | SOffer p id =>
      match b_pubs b !! p with
      | Some (Publisher e (Some todo)) =>
          if bool_decide (todo !! id = Some a) then
            match b_chans b !! a with
            | Some ch => if mask_has (ch_kinds ch) (ev_Kind e) && bool_decide (length (ch_buf ch) < ch_cap ch)%nat then [(p, e)] else []
            | None => []
            end
          else []
      | _ => []
      end
  | _ => []
  end.

(** The same for the list of misses. *)
Definition missing b (s : step) : list (nat * Z) :=
  match s with
  | SOffer p id =>
      match b_pubs b !! p with
      | Some (Publisher e (Some todo)) =>
          match todo !! id with
          | Some a => if from_option (misses e) false (b_chans b !! a) then [(p, a)] else []
          | None => []
          end
      | _ => []
      end
  | _ => []
  end.

Lemma log_accept p e ch :
  log (accept p e ch) = log ch ++ (if mask_has (ch_kinds ch) (ev_Kind e) && bool_decide (length (ch_buf ch) < ch_cap ch)%nat then [(p, e)] else []).
Proof. unfold accept, log. destruct (_ && _); cbn; by rewrite ?app_assoc ?app_nil_r. Qed.

Lemma accept_kinds p e ch : ch_kinds (accept p e ch) = ch_kinds ch.
Proof. unfold accept. by destruct (_ && _). Qed.

(** What a step makes of a channel: a new one is empty, an old one keeps its
    kinds and gains what the step adds. *)
Lemma run_chan b s a ch' :
  bus_ok b → b_chans (bus_run b s) !! a = Some ch' →
  match b_chans b !! a with
  | Some ch => ch_kinds ch' = ch_kinds ch ∧ log ch' = log ch ++ added b s a
  | None => log ch' = []
  end.
Proof.
  intros Hok.
  assert (∀ b', b_chans b' = b_chans b → b_chans b' !! a = Some ch' →
    match b_chans b !! a with Some ch => ch_kinds ch' = ch_kinds ch ∧ log ch' = log ch ++ [] | None => log ch' = [] end) as Hsame.
  { intros b' -> ->. by rewrite app_nil_r. }
  destruct s as [buf default kinds|id|id| |e|p|p id|p|x| |]; cbn [bus_run].
  - unfold Subscribe. cbn. destruct (decide (b_fresh b + 1 = a)) as [<-|]; [|rewrite lookup_insert_ne //; by apply (Hsame b)].
    rewrite lookup_insert_eq. intros [= <-]. destruct (b_chans b !! _) eqn:E; [|done].
    opose proof (bk_fresh b Hok (b_fresh b + 1) _); [by rewrite E|lia].
  - apply Hsame. unfold Register. by repeat case_match.
  - apply Hsame. unfold Forget. by repeat case_match.
  - cbn [added]. unfold CloseForgotten, close_chan. destruct (b_forgotten b) as [|x l]; [by apply Hsame|]. cbn.
    destruct (b_chans b !! x) as [ch|] eqn:Hch; [|by apply Hsame]. destruct (ch_open ch); [|by apply Hsame]. cbn.
    destruct (decide (x = a)) as [<-|]; [rewrite lookup_insert_eq Hch|rewrite lookup_insert_ne //; by apply Hsame].
    intros [= <-]. by rewrite app_nil_r.
  - by apply Hsame.
  - apply Hsame. unfold RLock. by repeat case_match.
  - unfold Offer. cbn [added]. destruct (b_pubs b !! p) as [[e [todo|]]|] eqn:Hp; try by apply Hsame.
    destruct (todo !! id) as [x|] eqn:Hid; [|rewrite bool_decide_eq_false_2 //; by apply Hsame].
    destruct (todo_open b p e todo id x Hok Hp Hid) as (Hs & ch & Hch & Hop).
    destruct (offer_spec p e b x ch Hch Hop) as (_ & _ & S3 & _). cbn. rewrite S3.
    destruct (decide (x = a)) as [<-|Hne].
    + rewrite lookup_insert_eq Hch. intros [= <-]. by rewrite bool_decide_eq_true_2 // log_accept accept_kinds.
    + rewrite lookup_insert_ne // bool_decide_eq_false_2; [|congruence]. by apply Hsame.
  - apply Hsame. unfold RUnlock. by repeat case_match.
  - cbn [added]. unfold Receive. destruct (b_chans b !! x) as [[cap kinds [|pe buf] taken op]|] eqn:Hch; try by apply Hsame. cbn.
    destruct (decide (x = a)) as [<-|]; [|rewrite lookup_insert_ne //; by apply Hsame].
    rewrite lookup_insert_eq Hch. intros [= <-]. unfold log. cbn. by rewrite -app_assoc app_nil_r.
  - apply Hsame. unfold MarkClosed. by destruct (b_closed b).
  - cbn [added]. unfold CloseAll. destruct (_ && _); [|by apply Hsame]. destruct (subs_owned b Hok) as [Hn Ho].
    destruct (close_all b _ Hn Ho) as (_ & _ & _ & C4). cbn. rewrite C4.
    destruct (b_chans b !! a) as [ch|] eqn:Hch; [|done]. intros [= <-]. rewrite app_nil_r. by destruct (decide _).
Qed.

Lemma added_inv b s a p e :
  (p, e) ∈ added b s a →
  ∃ id todo ch, s = SOffer p id ∧ b_pubs b !! p = Some (Publisher e (Some todo)) ∧ todo !! id = Some a ∧
    b_chans b !! a = Some ch ∧ mask_has (ch_kinds ch) (ev_Kind e) = true ∧ misses e ch = false.
Proof.
  destruct s as [| | | | | |q id| | | |]; cbn; try by intros ?%not_elem_of_nil.
  destruct (b_pubs b !! q) as [[e' [todo|]]|] eqn:Hq; try by intros ?%not_elem_of_nil.
  case_bool_decide as Hid; [|by intros ?%not_elem_of_nil]. destruct (b_chans b !! a) as [ch|]; [|by intros ?%not_elem_of_nil].
  destruct (mask_has _ _) eqn:Hm; cbn; [|by intros ?%not_elem_of_nil]. case_bool_decide; [|by intros ?%not_elem_of_nil].
  intros [= -> ->]%list_elem_of_singleton. exists id, todo, ch. split_and!; try done. unfold misses. rewrite Hm bool_decide_eq_false_2 //; cbn; lia.
Qed.

Lemma missing_inv b s p a :
  (p, a) ∈ missing b s →
  ∃ id e todo ch, s = SOffer p id ∧ b_pubs b !! p = Some (Publisher e (Some todo)) ∧ todo !! id = Some a ∧
    b_chans b !! a = Some ch ∧ misses e ch = true.
Proof.
  destruct s as [| | | | | |q id| | | |]; cbn; try by intros ?%not_elem_of_nil.
  destruct (b_pubs b !! q) as [[e' [todo|]]|] eqn:Hq; try by intros ?%not_elem_of_nil.
  destruct (todo !! id) as [x|] eqn:Hid; [|by intros ?%not_elem_of_nil]. destruct (b_chans b !! x) as [ch|] eqn:Hch; [|by intros ?%not_elem_of_nil].
  cbn. destruct (misses e' ch) eqn:Hm; [|by intros ?%not_elem_of_nil]. intros [= -> ->]%list_elem_of_singleton. naive_solver.
Qed.

Lemma added_length b s a : (length (added b s a) <= 1)%nat.
Proof. unfold added. repeat case_match; cbn; lia. Qed.

Lemma missing_length b s : (length (missing b s) <= 1)%nat.
Proof. unfold missing. repeat case_match; cbn; lia. Qed.

(** The books of a step: what it misses, and which calls it leaves. *)
Lemma run_missed b s :
  bus_ok b → b_missed (bus_run b s) = b_missed b ++ missing b s ∧
  b_dropped (bus_run b s) = b_dropped b + Z.of_nat (length (missing b s)).
Proof.
  intros Hok. assert (∀ b', b_missed b' = b_missed b → b_dropped b' = b_dropped b →
    b_missed b' = b_missed b ++ [] ∧ b_dropped b' = b_dropped b + Z.of_nat 0) as Hsame by (intros b' -> ->; rewrite app_nil_r; split; [done|lia]).
  destruct s as [buf default kinds|id|id| |e|p|p id|p|x| |]; cbn [bus_run missing length]; try by apply Hsame.
  - unfold Register. repeat case_match; by apply Hsame.
  - unfold Forget. repeat case_match; by apply Hsame.
  - unfold CloseForgotten, close_chan. repeat case_match; by apply Hsame.
  - unfold RLock. repeat case_match; by apply Hsame.
  - unfold Offer. destruct (b_pubs b !! p) as [[e [todo|]]|] eqn:Hp; try by apply Hsame.
    destruct (todo !! id) as [x|] eqn:Hid; [|by apply Hsame].
    destruct (todo_open b p e todo id x Hok Hp Hid) as (Hs & ch & Hch & Hop). rewrite Hch. cbn.
    destruct (offer_spec p e b x ch Hch Hop) as (_ & _ & _ & -> & ->). by destruct (misses e ch).
  - unfold RUnlock. repeat case_match; by apply Hsame.
  - unfold Receive. repeat case_match; by apply Hsame.
  - unfold MarkClosed. destruct (b_closed b); by apply Hsame.
  - unfold CloseAll. destruct (_ && _); [|by apply Hsame]. destruct (subs_owned b Hok) as [Hn Ho].
    destruct (close_all b _ Hn Ho) as (_ & _ & [C1 C2] & _). by apply Hsame.
Qed.

Lemma run_pubs b s :
  bus_ok b →
  b_nextPub (bus_run b s) = (b_nextPub b + length (published [s]))%nat ∧
  ∀ p, b_pubs (bus_run b s) !! p =
    match s with
    | SPublish e => if bool_decide (p = b_nextPub b) && active b then Some (Publisher e None) else b_pubs b !! p
    | SRLock q => if bool_decide (p = q) then (λ u, Publisher (p_event u) (Some (default (b_subs b) (p_todo u)))) <$> b_pubs b !! p else b_pubs b !! p
    | SOffer q id => if bool_decide (p = q) then (λ u, Publisher (p_event u) (delete id <$> p_todo u)) <$> b_pubs b !! p else b_pubs b !! p
    | SRUnlock q => if bool_decide (p = q ∧ (p_todo <$> b_pubs b !! p) = Some (Some ∅)) then None else b_pubs b !! p
    | _ => b_pubs b !! p
    end.
Proof.
  intros Hok. assert (∀ b', b_nextPub b' = b_nextPub b → b_pubs b' = b_pubs b →
    b_nextPub b' = (b_nextPub b + 0)%nat ∧ ∀ p, b_pubs b' !! p = b_pubs b !! p) as Hsame by (intros b' -> ->; split; [lia|done]).
  destruct s as [buf default kinds|id|id| |e|q|q id|q|x| |]; cbn [bus_run published omap list_omap length]; try by apply Hsame.
  - unfold Register. repeat case_match; by apply Hsame.
  - unfold Forget. repeat case_match; by apply Hsame.
  - unfold CloseForgotten, close_chan. repeat case_match; by apply Hsame.
  - unfold Publish. cbn. split; [lia|]. intros p. destruct (active b); [|by rewrite andb_false_r].
    case_bool_decide as E; [subst; by rewrite lookup_insert_eq|by rewrite lookup_insert_ne].
  - unfold RLock. split; [repeat case_match; cbn; lia|]. intros p. case_bool_decide as E.
    + subst q. destruct (b_pubs b !! p) as [[e [todo|]]|] eqn:Hp; cbn; [done|by rewrite lookup_insert_eq|done].
    + repeat case_match; cbn; try done. by rewrite lookup_insert_ne.
  - unfold Offer. split.
    { repeat case_match; cbn; lia. }
    intros p. case_bool_decide as E.
    + subst q. destruct (b_pubs b !! p) as [[e [todo|]]|] eqn:Hp; cbn; [|done..].
      destruct (todo !! id) as [a|] eqn:Hid; cbn; [by rewrite lookup_insert_eq|]. rewrite Hp delete_id //.
    + destruct (b_pubs b !! q) as [[e [todo|]]|] eqn:Hp; cbn; [|done..].
      destruct (todo !! id) as [a|] eqn:Hid; cbn; [by rewrite lookup_insert_ne|done].
  - unfold RUnlock. split; [repeat case_match; cbn; lia|]. intros p. case_bool_decide as E.
    + destruct E as [<- E]. destruct (b_pubs b !! p) as [[e todo]|]; [|done]. injection E as [= ->].
      rewrite bool_decide_eq_true_2 //. apply lookup_delete_eq.
    + destruct (b_pubs b !! q) as [[e [todo|]]|] eqn:Hp; cbn; try done. case_bool_decide as Ht; [|done]. cbn.
      rewrite lookup_delete_ne //. intros <-. apply E. by rewrite Hp Ht.
  - unfold Receive. repeat case_match; by apply Hsame.
  - unfold MarkClosed. destruct (b_closed b); by apply Hsame.
  - unfold CloseAll. destruct (_ && _); [|by apply Hsame]. destruct (subs_owned b Hok) as [Hn Ho].
    destruct (close_all b _ Hn Ho) as ((_ & _ & _ & _ & _ & _ & _ & _ & E9 & E10) & _). by apply Hsame.
Qed.

(** Two registrations do not share a channel. *)
Lemma subs_inj b id1 id2 a : bus_ok b → b_subs b !! id1 = Some a → b_subs b !! id2 = Some a → id1 = id2.
Proof.
  intros Hok H1 H2. destruct (subs_owned b Hok) as [Hn _]. destruct (decide (id1 = id2)) as [|Hne]; [done|exfalso].
  rewrite -(insert_delete_id (b_subs b) id1 a) // in Hn. rewrite map_to_list_insert in Hn; [|apply lookup_delete_eq].
  apply NoDup_cons in Hn as [Hn _]. apply Hn, list_elem_of_fmap. exists (id2, a). split; [done|].
  apply elem_of_map_to_list. by rewrite lookup_delete_ne.
Qed.

Lemma turn_to_come b p e todo id a : b_pubs b !! p = Some (Publisher e (Some todo)) → todo !! id = Some a → to_come b p a.
Proof. intros Hp Hid. right. exists e, (Some todo). split; [done|]. intros m [= <-]. by exists id. Qed.

(** Every turn is taken once. *)
Lemma run_to_come b s p a :
  bus_ok b → to_come (bus_run b s) p a → to_come b p a ∧ p ∉ (added b s a).*1 ∧ (p, a) ∉ missing b s.
Proof.
  intros Hok Hc. destruct (run_pubs b s Hok) as [R1 R2].
  assert (to_come b p a) as Hc'.
  { destruct Hc as [Hc|(e & todo & Hp & Ht)]; [left; lia|]. rewrite R2 in Hp.
    destruct s as [| | | |e'|q|q id|q| | |]; try by (right; exists e, todo).
    - destruct (bool_decide _ && active b) eqn:E; [|right; by exists e, todo]. apply andb_prop in E as [->%bool_decide_eq_true _]. by left.
    - case_bool_decide; [|right; by exists e, todo]. destruct (b_pubs b !! p) as [[e' t]|] eqn:Hq; [|done].
      right. exists e', t. split; [done|]. intros m ->. injection Hp as <- <-. by apply Ht.
    - case_bool_decide; [|right; by exists e, todo]. destruct (b_pubs b !! p) as [[e' t]|] eqn:Hq; [|done].
      right. exists e', t. split; [done|]. intros m ->. injection Hp as <- <-. destruct (Ht _ eq_refl) as [i [_ Hi]%lookup_delete_Some]. eauto.
    - case_bool_decide; [done|]. right. by exists e, todo. }
  split; [done|].
  assert (∀ id e todo, s = SOffer p id → b_pubs b !! p = Some (Publisher e (Some todo)) → todo !! id = Some a → False) as Hturn.
  { intros id e todo -> Hp Hid. destruct Hc as [Hc|(e' & todo' & Hp' & Ht)].
    - opose proof (bk_pubs b Hok p _); [by rewrite Hp|]. rewrite R1 in Hc. cbn in Hc. lia.
    - rewrite R2 Hp bool_decide_eq_true_2 // in Hp'. injection Hp' as <- <-. destruct (Ht _ eq_refl) as [i [Hne Hi]%lookup_delete_Some].
      apply Hne. destruct (todo_open b p e todo id a Hok Hp Hid) as [H1 _]. destruct (todo_open b p e todo i a Hok Hp Hi) as [H2 _].
      by eapply subs_inj. }
  split.
  - intros ([q e] & E & (id & todo & ch & -> & Hp & Hid & _)%added_inv)%list_elem_of_fmap. cbn in E. subst q. by eapply Hturn.
  - intros (id & e & todo & ch & -> & Hp & Hid & _)%missing_inv. by eapply Hturn.
Qed.

(** What holds of the channels after the events [es]. *)
Record delivered b (es : list Event) : Prop := Delivered {
  dv_next : b_nextPub b = length es;
  dv_pubs : ∀ p q, b_pubs b !! p = Some q → es !! p = Some (p_event q);
  dv_nodup : ∀ a ch, b_chans b !! a = Some ch → NoDup (log ch).*1;
  dv_log : ∀ a ch p e, b_chans b !! a = Some ch → (p, e) ∈ log ch → es !! p = Some e ∧ mask_has (ch_kinds ch) (ev_Kind e) = true;
  dv_come : ∀ p a, to_come b p a → (∀ ch, b_chans b !! a = Some ch → p ∉ (log ch).*1) ∧ (p, a) ∉ b_missed b;
  dv_missed : ∀ p a ch, (p, a) ∈ b_missed b → b_chans b !! a = Some ch → p ∉ (log ch).*1;
  dv_once : NoDup (b_missed b);
  dv_dropped : b_dropped b = Z.of_nat (length (b_missed b))
}.

Lemma NoDup_snoc_le1 {X} (l l' : list X) : NoDup l → (length l' <= 1)%nat → (∀ x, x ∈ l' → x ∉ l) → NoDup (l ++ l').
Proof.
  intros H1 H2 H3. apply NoDup_app. split; [done|]. split; [intros x Hx Hx'; by eapply H3|].
  destruct l' as [|x [|y l']]; [constructor|apply NoDup_singleton|cbn in H2; lia].
Qed.

Lemma published_snoc ss s : published (ss ++ [s]) = published ss ++ published [s].
Proof. unfold published. by rewrite omap_app. Qed.

(** The event of a turn goes to one of two places, once. *)
Lemma run_log b s es a ch' :
  bus_ok b → delivered b es → b_chans (bus_run b s) !! a = Some ch' →
  NoDup (log ch').*1 ∧ (∀ p e, (p, e) ∈ log ch' → es !! p = Some e ∧ mask_has (ch_kinds ch') (ev_Kind e) = true) ∧
  ∀ p, (p, a) ∈ b_missed b ++ missing b s → p ∉ (log ch').*1.
Proof.
  intros Hok Hd Hch'. pose proof (run_chan b s a ch' Hok Hch') as Hr. destruct (b_chans b !! a) as [ch|] eqn:Hch.
  2:{ rewrite Hr. split_and!; [constructor|by intros ?? ?%not_elem_of_nil|by intros ?? ?%not_elem_of_nil]. }
  destruct Hr as [Hk Hl].
  assert (∀ p, p ∈ (added b s a).*1 → p ∉ (log ch).*1 ∧ (p, a) ∉ b_missed b ∧ (p, a) ∉ missing b s) as Hnew.
  { intros p ([q e] & E & Hin)%list_elem_of_fmap. cbn in E. subst q. apply added_inv in Hin as (id & todo & ch1 & -> & Hp & Hid & Hch1 & _ & Hm).
    destruct (dv_come b es Hd p a) as [D1 D2]; [by eapply turn_to_come|]. split_and!; [by apply D1|done|].
    intros (id' & e' & todo' & ch2 & [= ->] & Hp' & Hid' & Hch2 & Hm')%missing_inv. congruence. }
  rewrite Hl fmap_app Hk. split_and!.
  - apply NoDup_snoc_le1; [by eapply dv_nodup|rewrite length_fmap; apply added_length|]. intros p Hp. by apply Hnew.
  - intros p e [Hin|Hin]%elem_of_app; [by eapply dv_log|].
    apply added_inv in Hin as (id & todo & ch1 & -> & Hp & Hid & Hch1 & Hm & _). split; [by apply (dv_pubs b es Hd p _ Hp)|]. by simplify_eq.
  - intros p Hin [Hp|Hp]%elem_of_app; [|apply Hnew in Hp; rewrite elem_of_app in Hin; naive_solver].
    apply elem_of_app in Hin as [Hin|Hin]; [by eapply (dv_missed b es Hd)|].
    apply missing_inv in Hin as (id & e & todo & ch1 & -> & Hq & Hid & _). destruct (dv_come b es Hd p a) as [D1 _]; [by eapply turn_to_come|].
    by eapply D1.
Qed.

Lemma run_delivered b s es : bus_ok b → delivered b es → delivered (bus_run b s) (es ++ published [s]).
Proof.
  intros Hok Hd. destruct (run_pubs b s Hok) as [R1 R2]. destruct (run_missed b s Hok) as [R3 R4].
  assert (∀ p e, es !! p = Some e → (es ++ published [s]) !! p = Some e) as Hes by (intros p e; apply lookup_app_l_Some).
  constructor.
  - rewrite R1 length_app (dv_next b es Hd) //.
  - intros p q. rewrite R2. pose proof (dv_pubs b es Hd p) as D.
    destruct s as [| | | |e'|q'|q' id|q'| | |]; try by (intros Hq; apply Hes, D).
    + destruct (bool_decide _ && active b) eqn:E; [|by intros Hq; apply Hes, D]. apply andb_prop in E as [->%bool_decide_eq_true _].
      intros [= <-]. rewrite (dv_next b es Hd). cbn. by rewrite lookup_app_r // Nat.sub_diag.
    + case_bool_decide; [|by intros Hq; apply Hes, D]. destruct (b_pubs b !! p) as [u|]; [|done]. intros [= <-]. by apply Hes, (D u).
    + case_bool_decide; [|by intros Hq; apply Hes, D]. destruct (b_pubs b !! p) as [u|]; [|done]. intros [= <-]. by apply Hes, (D u).
    + case_bool_decide; [done|]. intros Hq. by apply Hes, D.
  - intros a ch Hch. by eapply run_log.
  - intros a ch p e Hch Hin. destruct (run_log b s es a ch Hok Hd Hch) as (_ & L & _). destruct (L p e Hin). auto.
  - intros p a Hc. destruct (run_to_come b s p a Hok Hc) as (Hc' & Hc1 & Hc2). destruct (dv_come b es Hd p a Hc') as [D1 D2]. split.
    + intros ch' Hch'. pose proof (run_chan b s a ch' Hok Hch') as Hr. destruct (b_chans b !! a) as [ch|] eqn:Hch.
      * destruct Hr as [_ ->]. rewrite fmap_app not_elem_of_app. auto.
      * rewrite Hr. apply not_elem_of_nil.
    + rewrite R3 not_elem_of_app //.
  - intros p a ch. rewrite R3. intros Hin Hch. destruct (run_log b s es a ch Hok Hd Hch) as (_ & _ & L). by apply L.
  - rewrite R3. apply NoDup_snoc_le1; [by eapply dv_once|apply missing_length|].
    intros [p a] (id & e & todo & ch & -> & Hq & Hid & _)%missing_inv. eapply (dv_come b es Hd). by eapply turn_to_come.
  - rewrite R3 R4 length_app (dv_dropped b es Hd). lia.
Qed.

Lemma reachable_delivered ss : delivered (bus_run_all newEventBus ss) (published ss).
Proof.
  induction ss as [|s ss IH] using rev_ind.
  - constructor; cbn; try done; try (by intros; simplify_map_eq); constructor; [|apply not_elem_of_nil]. intros ?. by rewrite lookup_empty.
  - unfold bus_run_all. rewrite foldl_snoc published_snoc. apply run_delivered; [apply reachable_ok|done].
Qed.

(** ** Order and completeness *)

Lemma returned_stable b s p : bus_ok b → returned b p → returned (bus_run b s) p.
Proof.
  intros Hok [H1 H2]. destruct (run_pubs b s Hok) as [R1 R2]. split; [lia|]. rewrite R2.
  destruct s as [| | | |e'|q'|q' id|q'| | |]; try done; rewrite ?H2; repeat case_bool_decide; try done. lia.
Qed.

Lemma run_all_app b ss1 ss2 : bus_run_all b (ss1 ++ ss2) = bus_run_all (bus_run_all b ss1) ss2.
Proof. apply foldl_app. Qed.

Lemma run_all_ok b ss : bus_ok b → bus_ok (bus_run_all b ss).
Proof. revert b. induction ss as [|s ss IH]; intros b Hok; [done|]. by apply IH, run_ok. Qed.

Lemma returned_stable_all b ss p : bus_ok b → returned b p → returned (bus_run_all b ss) p.
Proof. revert b. induction ss as [|s ss IH]; intros b Hok Hr; [done|]. apply IH; [by apply run_ok|by apply returned_stable]. Qed.

(** A call that returned before another one began comes first in every
    channel that has both. *)
Lemma calls_in_order ss1 ss2 a ch i j p q :
  let b1 := bus_run_all newEventBus ss1 in
  b_chans (bus_run_all b1 ss2) !! a = Some ch → (log ch).*1 !! i = Some p → (log ch).*1 !! j = Some q →
  returned b1 p → (b_nextPub b1 <= q)%nat → (i < j)%nat.
Proof.
  cbv zeta. pose proof (reachable_ok ss1) as Hok. pose proof (reachable_delivered ss1) as Hd.
  set (b1 := bus_run_all newEventBus ss1) in *. intros Hch Hi Hj Hp Hq. revert ch i j Hch Hi Hj.
  induction ss2 as [|s ss2 IH] using rev_ind; intros ch' i j Hch' Hi Hj.
  { exfalso. destruct (dv_come b1 _ Hd q a) as [D _]; [by left|]. by eapply D, list_elem_of_lookup_2. }
  rewrite run_all_app in Hch'. pose proof (run_all_ok b1 ss2 Hok) as Hok2. pose proof (returned_stable_all b1 ss2 p Hok Hp) as [_ Hp2].
  set (b2 := bus_run_all b1 ss2) in *. pose proof (run_chan b2 s a ch' Hok2 Hch') as Hr.
  destruct (b_chans b2 !! a) as [ch|] eqn:Hch; [|by rewrite Hr in Hi]. destruct Hr as [_ Hl]. rewrite Hl fmap_app in Hi, Hj.
  assert ((log ch).*1 !! i = Some p) as Hi'.
  { apply lookup_app_Some in Hi as [|[_ Hi]]; [done|]. exfalso. apply list_elem_of_lookup_2, list_elem_of_fmap in Hi as ([p' e] & -> & Hin).
    apply added_inv in Hin as (id & todo & ? & _ & Hq' & _). cbn in Hp2. by rewrite Hp2 in Hq'. }
  apply lookup_app_Some in Hj as [Hj|[Hj _]]; [by eapply IH|]. apply lookup_lt_Some in Hi'. lia.
Qed.

(** The channel at [a] has had its offer from the call [p]. *)
Definition served b p e a : Prop :=
  ∃ ch, b_chans b !! a = Some ch ∧ (mask_has (ch_kinds ch) (ev_Kind e) = true → (p, e) ∈ log ch ∨ (p, a) ∈ b_missed b).

Lemma run_chan_keeps b s a ch :
  bus_ok b → b_chans b !! a = Some ch →
  ∃ ch', b_chans (bus_run b s) !! a = Some ch' ∧ ch_kinds ch' = ch_kinds ch ∧ log ch' = log ch ++ added b s a.
Proof.
  intros Hok Hch. assert (is_Some (b_chans (bus_run b s) !! a)) as [ch' Hch'].
  { destruct s as [buf default kinds|id|id| |e|p|p id|p|x| |]; cbn [bus_run]; unfold Register, Forget, RLock, RUnlock, MarkClosed;
      try by (repeat case_match; cbn; rewrite Hch).
    - unfold Subscribe. cbn. apply lookup_insert_is_Some'. rewrite Hch. eauto.
    - unfold CloseForgotten, close_chan. repeat case_match; cbn; rewrite ?Hch //; apply lookup_insert_is_Some'; rewrite Hch; eauto.
    - unfold Offer, offer. repeat case_match; cbn; rewrite ?Hch //; apply lookup_insert_is_Some'; rewrite Hch; eauto.
    - unfold Receive. repeat case_match; cbn; rewrite ?Hch //; apply lookup_insert_is_Some'; rewrite Hch; eauto.
    - unfold CloseAll. destruct (_ && _); [|by rewrite Hch]. destruct (subs_owned b Hok) as [Hn Ho].
      destruct (close_all b _ Hn Ho) as (_ & _ & _ & C4). cbn. by rewrite C4 Hch. }
  exists ch'. split; [done|]. pose proof (run_chan b s a ch' Hok Hch') as Hr. by rewrite Hch in Hr.
Qed.

Lemma served_stable b s p e a : bus_ok b → served b p e a → served (bus_run b s) p e a.
Proof.
  intros Hok (ch & Hch & Hs). destruct (run_chan_keeps b s a ch Hok Hch) as (ch' & Hch' & Hk & Hl). exists ch'. split; [done|].
  rewrite Hk Hl (proj1 (run_missed b s Hok)). intros [?|?]%Hs; [left|right]; apply elem_of_app; by left.
Qed.

(** A turn serves its channel. *)
Lemma turn_serves b p id e todo a :
  bus_ok b → b_pubs b !! p = Some (Publisher e (Some todo)) → todo !! id = Some a → served (bus_run b (SOffer p id)) p e a.
Proof.
  intros Hok Hp Hid. destruct (todo_open b p e todo id a Hok Hp Hid) as (Hs & ch & Hch & Hop).
  destruct (run_chan_keeps b (SOffer p id) a ch Hok Hch) as (ch' & Hch' & Hk & Hl). exists ch'. split; [done|]. rewrite Hk.
  intros Hm. rewrite Hl (proj1 (run_missed b _ Hok)) !elem_of_app. cbn. rewrite Hp Hid bool_decide_eq_true_2 // Hch Hm. cbn.
  unfold misses. rewrite Hm. cbn. repeat case_bool_decide; try lia; rewrite ?list_elem_of_singleton; auto.
Qed.

(** While the call lasts, a subscription it found is served or still to come. *)
Definition in_hand b p e id a : Prop := ∃ todo, b_pubs b !! p = Some (Publisher e (Some todo)) ∧ todo !! id = Some a.

Lemma run_in_hand b s p e id a : bus_ok b → in_hand b p e id a → in_hand (bus_run b s) p e id a ∨ served (bus_run b s) p e a.
Proof.
  intros Hok (todo & Hp & Hid). destruct (run_pubs b s Hok) as [_ R2]. specialize (R2 p). unfold in_hand.
  destruct s as [| | | |e'|q|q id'|q| | |]; rewrite ?R2; try by (left; exists todo).
  - destruct (bool_decide _) eqn:E; [|left; by exists todo]. apply bool_decide_eq_true in E as ->.
    opose proof (bk_pubs b Hok (b_nextPub b) _); [by rewrite Hp|lia].
  - case_bool_decide; left; exists todo; [by rewrite Hp|done].
  - case_bool_decide as E; [subst q|left; by exists todo]. destruct (decide (id' = id)) as [->|Hne]; [right; by eapply turn_serves|].
    left. exists (delete id' todo). rewrite Hp lookup_delete_ne //.
  - case_bool_decide as E; [|left; by exists todo]. destruct E as [_ E]. rewrite Hp in E. injection E as [= ->]. done.
Qed.

Lemma run_served b ss p e id a :
  bus_ok b → in_hand b p e id a ∨ served b p e a → b_pubs (bus_run_all b ss) !! p = None → served (bus_run_all b ss) p e a.
Proof.
  revert b. induction ss as [|s ss IH]; intros b Hok Hs; cbn.
  - intros Hp. destruct Hs as [(todo & Hq & _)|]; [congruence|done].
  - apply IH; [by apply run_ok|]. destruct Hs as [Hs|Hs]; [by apply run_in_hand|right; by apply served_stable].
Qed.

(** C18: however subscriptions, cancellations, any number of calls of
    [publish] that overlap, reads and the close of the bus interleave, no
    goroutine sends on a closed channel or closes one twice. A channel has the
    event of a call at most once, and only events of its kinds that were
    published; a call that returned before another one began comes first in
    every channel that has both. A call that has returned gave its event to
    every subscriber of the kind that was registered when it took the lock, or
    counted a miss there; misses are counted once each, and only where the
    buffer is full when its turn comes. *)
Theorem events_delivered ss1 ss2 :
  let b1 := bus_run_all newEventBus ss1 in
  let b2 := bus_run_all b1 ss2 in
  b_panicked b2 = false ∧
  (∀ a ch, b_chans b2 !! a = Some ch → NoDup (log ch).*1 ∧
     ∀ p e, (p, e) ∈ log ch → published (ss1 ++ ss2) !! p = Some e ∧ mask_has (ch_kinds ch) (ev_Kind e) = true) ∧
  (∀ a ch i j p q, b_chans b2 !! a = Some ch → (log ch).*1 !! i = Some p → (log ch).*1 !! j = Some q →
     returned b1 p → (b_nextPub b1 <= q)%nat → (i < j)%nat) ∧
  (∀ p e id a, b_pubs b1 !! p = Some (Publisher e None) → b_subs b1 !! id = Some a →
     let b3 := bus_run_all (RLock b1 p) ss2 in b_pubs b3 !! p = None → served b3 p e a) ∧
  (b_dropped b2 = Z.of_nat (length (b_missed b2)) ∧ NoDup (b_missed b2) ∧
   ∀ p a ch, (p, a) ∈ b_missed b2 → b_chans b2 !! a = Some ch → p ∉ (log ch).*1) ∧
  (∀ p e todo id a, b_pubs b2 !! p = Some (Publisher e (Some todo)) → todo !! id = Some a →
     let b3 := Offer b2 p id in
     ∃ ch, b_chans b2 !! a = Some ch ∧ ch_open ch = true ∧ b_panicked b3 = false ∧
       b_chans b3 = <[a := accept p e ch]> (b_chans b2) ∧ b_missed b3 = b_missed b2 ++ (if misses e ch then [(p, a)] else [])).
Proof.
  cbv zeta. pose proof (reachable_ok (ss1 ++ ss2)) as Hok. pose proof (reachable_delivered (ss1 ++ ss2)) as Hd.
  rewrite run_all_app in Hok, Hd. pose proof (reachable_ok ss1) as Hok1. set (b1 := bus_run_all newEventBus ss1) in *.
  set (b2 := bus_run_all b1 ss2) in *. split_and!.
  - apply Hok.
  - intros a ch Hch. split; [by eapply dv_nodup|]. intros p e. by eapply dv_log.
  - intros a ch i j p q. apply calls_in_order.
  - intros p e id a Hp Hs Hr. eapply run_served; [by apply RLock_ok| |done]. left. exists (b_subs b1). split; [|done].
    unfold RLock. rewrite Hp. apply lookup_insert_eq.
  - by eapply dv_dropped.
  - by eapply dv_once.
  - by eapply dv_missed.
  - intros p e todo id a Hp Hid. destruct (todo_open b2 p e todo id a Hok Hp Hid) as (Hs & ch & Hch & Hop).
    destruct (offer_spec p e b2 a ch Hch Hop) as (_ & S2 & S3 & _ & S5). exists ch. split_and!; [done..|apply Offer_ok, Hok| |];
      unfold Offer; by rewrite Hp Hid.
Qed.

End events.
Arguments chan : clear implicits.
Arguments bus : clear implicits.
Arguments step : clear implicits.
