(* ===== verification/Cachetag.v ===== *)
(** * Cachetag: struct tags ([cachetag.go], [cacheable.go])

    What the [cache] tags of a struct type say, how a snapshot blanks the
    fields marked [secret] or [-], how tag templates are expanded, and the
    fingerprint of a versioned schema.

    A struct type is a name that [decls] declares, so that types may refer to
    themselves.  Values live in a heap, since a snapshot filter copies the
    value it is given and an embedded pointer in the copy still leads to the
    original.  [sha256] and the formatting of [fmt] are parameters. *)

From Stdlib Require Import Ascii.
From stdpp Require Import strings sorting.
From S2P Require Import Prelude.

#[local] Open Scope string_scope.

(** ** Strings *)

(** [strings.IndexByte] and the slices around it: what is before the first [c]
    and what is after it. *)
Fixpoint cut (c : Ascii.ascii) (s : string) : option (string * string) :=
  match s with
  | EmptyString => None
  | String x s =>
      if decide (x = c) then Some ("", s)
      else '(a, b) ← cut c s; Some (String x a, b)
  end.

(** [strings.Split]; the fuel is the length of the string. *)
Fixpoint split_loop (fuel : nat) (c : Ascii.ascii) (s : string) : list string :=
  match fuel with
  | O => [s]
  | S fuel => match cut c s with None => [s] | Some (a, b) => a :: split_loop fuel c b end
  end.

Definition Split (s : string) (c : Ascii.ascii) : list string := split_loop (String.length s) c s.

Definition TrimPrefix (p s : string) : string := if String.prefix p s then String.substring (String.length p) (String.length s) s else s.

Definition comma : Ascii.ascii := ","%char.
Definition openBrace : Ascii.ascii := "{"%char.
Definition closeBrace : Ascii.ascii := "}"%char.

(** ** Tags *)

Record cacheTagOptions := TagOptions {
  to_skip : bool; to_secret : bool; to_omitempty : bool; to_versioned : bool; to_tagTemplate : string }.

Definition noOptions : cacheTagOptions := TagOptions false false false false "".

Definition parseOption (o : cacheTagOptions) (part : string) : cacheTagOptions :=
  if decide (part = "secret") then TagOptions (to_skip o) true (to_omitempty o) (to_versioned o) (to_tagTemplate o)
  else if decide (part = "omitempty") then TagOptions (to_skip o) (to_secret o) true (to_versioned o) (to_tagTemplate o)
  else if decide (part = "versioned") then TagOptions (to_skip o) (to_secret o) (to_omitempty o) true (to_tagTemplate o)
  else if String.prefix "tag=" part
  then TagOptions (to_skip o) (to_secret o) (to_omitempty o) (to_versioned o) (TrimPrefix "tag=" part)
  else o.

Definition parseCacheTag (tag : string) : cacheTagOptions :=
  if decide (tag = "") then noOptions
  else match Split tag comma with
       | [] => noOptions
       | first :: parts =>
           let o := if decide (first = "-") then TagOptions true false false false "" else noOptions in
           foldl parseOption o parts
       end.

(** ** Types *)

Inductive goType := TBasic (name : string) | TPtr (t : goType) | TNamed (name : string).

Record field := Field { f_name : string; f_tag : string; f_anonymous : bool; f_exported : bool; f_type : goType }.

(** The struct types of the program. *)
Definition decls := gmap string (list field).

(** The name of the struct type behind any number of pointers. *)
Fixpoint elemStruct (t : goType) : option string :=
  match t with TBasic _ => None | TPtr t => elemStruct t | TNamed n => Some n end.

(** A call of [visit]: the index path, the field and its options. *)
Record visited := Visited { vi_path : list nat; vi_field : field; vi_opts : cacheTagOptions }.

(** [walkStructFields]; None when the fuel is spent. *)
Fixpoint walkStructFields (fuel : nat) (D : decls) (n : string) (prefix : list nat) : option (list visited) :=
  match fuel with
  | O => None
  | S fuel =>
      (fix fields (i : nat) (fs : list field) : option (list visited) :=
         match fs with
         | [] => Some []
         | f :: fs =>
             let path := (prefix ++ [i])%list in
             inner ← (if f_anonymous f then
                        match elemStruct (f_type f) with Some n' => walkStructFields fuel D n' path | None => Some [] end
                      else Some []);
             rest ← fields (S i) fs;
             Some (Visited path f (parseCacheTag (f_tag f)) :: (inner ++ rest)%list)
         end) 0%nat (default [] (D !! n))
  end.

Record fieldFilter := FieldFilter { ff_path : list nat; ff_zero : bool; ff_omitempty : bool; ff_canSet : bool }.

Record cacheTypeMeta := TypeMeta {
  tm_filters : list fieldFilter; tm_versioned : bool; tm_versionHash : string; tm_templates : list string;
  tm_fields : gmap string (list nat) }.

Definition filterOf (v : visited) : option fieldFilter :=
  let o := vi_opts v in
  if to_skip o || to_secret o then Some (FieldFilter (vi_path v) true false (f_exported (vi_field v)))
  else if to_omitempty o then Some (FieldFilter (vi_path v) false true (f_exported (vi_field v)))
  else None.

Definition templateOf (v : visited) : option string :=
  let t := to_tagTemplate (vi_opts v) in if decide (t = "") then None else Some t.

(** A later field of the same name replaces an earlier one. *)
Definition fieldsByName (vs : list visited) : gmap string (list nat) :=
  foldl (λ m v, <[f_name (vi_field v) := vi_path v]> m) ∅ vs.

(** ** The fingerprint *)

(** One turn of the outer loop of the insertion sort: [x] moves down past what
    is greater.  The sorted part is kept from the back. *)
Fixpoint sink (sorted : list string) (x : string) : list string :=
  match sorted with
  | [] => [x]
  | y :: sorted => if String.ltb x y then y :: sink sorted x else x :: y :: sorted
  end.

Definition sortLines (lines : list string) : list string := rev (foldl sink [] lines).

(** [sha256] is the hash in hexadecimal, [signature] is [typeSignature]: the
    type that [FieldByName] finds, by the name of the field. *)
Section fingerprint.
Context (sha256 : string → string) (signature : string → string).

Definition computeVersionHash (vs : list visited) : string :=
  let lines := map (λ v, f_name (vi_field v) +:+ ":" +:+ signature (f_name (vi_field v))) vs in
  sha256 (String.concat (String (Ascii.ascii_of_nat 10) "") (sortLines lines)).


Definition buildMeta (vs : list visited) : cacheTypeMeta :=
  let versioned := existsb (λ v, to_versioned (vi_opts v)) vs in
  TypeMeta (omap filterOf vs) versioned (if versioned then computeVersionHash vs else "") (omap templateOf vs)
           (fieldsByName vs).
End fingerprint.

(** ** Values *)

Inductive value := VBasic (z : Z) | VPtr (l : option positive) | VStruct (fs : list value).

Abbreviation heap := (gmap positive value).

(** [reflect.Zero] of the type of a value. *)
Fixpoint zeroOf (v : value) : value :=
  match v with VBasic _ => VBasic 0 | VPtr _ => VPtr None | VStruct fs => VStruct (map zeroOf fs) end.

(** [FieldByIndexErr] and [Set] to zero; None for the error of a nil embedded
    pointer.  A write through a pointer goes to the heap. *)
Fixpoint zeroAt (h : heap) (v : value) (path : list nat) : option (heap * value) :=
  match v, path with
  | VStruct fs, [i] => x ← fs !! i; Some (h, VStruct (<[i := zeroOf x]> fs))
  | VStruct fs, i :: path =>
      x ← fs !! i;
      match x with
      | VPtr None => None
      | VPtr (Some l) => w ← h !! l; '(h, w) ← zeroAt h w path; Some (<[l := w]> h, VStruct fs)
      | _ => '(h, x) ← zeroAt h x path; Some (h, VStruct (<[i := x]> fs))
      end
  | _, _ => None
  end.

Definition applyFilter (hv : heap * value) (f : fieldFilter) : heap * value :=
  if ff_canSet f && ff_zero f then default hv (zeroAt hv.1 hv.2 (ff_path f)) else hv.

Definition applyFilters (h : heap) (v : value) (fs : list fieldFilter) : heap * value := foldl applyFilter (h, v) fs.

(** [applySnapshotFilter] of a struct or of a pointer to one. *)
Definition applySnapshotFilter (m : cacheTypeMeta) (h : heap) (v : value) : heap * value :=
  match tm_filters m with
  | [] => (h, v)
  | _ =>
      match v with
      | VStruct _ => applyFilters h v (tm_filters m)
      | VPtr (Some l) =>
          match h !! l with
          | Some w =>
              let '(h, w) := applyFilters h w (tm_filters m) in
              let l' := fresh (dom h) in (<[l' := w]> h, VPtr (Some l'))
          | None => (h, v)
          end
      | _ => (h, v)
      end
  end.

(** ** Templates *)

(** [FieldByIndexErr]: None inside a nil embedded pointer. *)
Fixpoint fieldAt (h : heap) (v : value) (path : list nat) : option value :=
  match path with
  | [] => Some v
  | i :: path =>
      match v with
      | VStruct fs =>
          x ← fs !! i;
          match path, x with
          | [], _ => Some x
          | _, VPtr None => None
          | _, VPtr (Some l) => w ← h !! l; fieldAt h w path
          | _, _ => fieldAt h x path
          end
      | _ => None
      end
  end.

Section templates.
Context (Fprint : value → string) (fields : gmap string (list nat)) (h : heap) (v : value).

Definition placeholder (name : string) : string :=
  match fields !! name with
  | None => "{" +:+ name +:+ "}"
  | Some path => match fieldAt h v path with None => "<nil>" | Some x => Fprint x end
  end.

(** The loop; every turn but the last consumes a brace. *)
Fixpoint expand_loop (fuel : nat) (template : string) : option string :=
  match fuel with
  | O => None
  | S fuel =>
      match cut openBrace template with
      | None => Some template
      | Some (text, rest) =>
          match cut closeBrace rest with
          | None => Some (text +:+ "{" +:+ rest)
          | Some (name, rest) => out ← expand_loop fuel rest; Some (text +:+ placeholder name +:+ out)
          end
      end
  end.

Definition expandTemplate (template : string) : option string := expand_loop (S (String.length template)) template.
End templates.

(** [extractTemplateTags] of a struct or of a pointer to one. *)
Definition extractTemplateTags (Fprint : value → string) (m : cacheTypeMeta) (h : heap) (v : value) : list string :=
  match tm_templates m with
  | [] => []
  | ts =>
      match v with
      | VPtr None => []
      | VPtr (Some l) => match h !! l with
                         | Some w => omap (expandTemplate Fprint (tm_fields m) h w) ts
                         | None => []
                         end
      | VStruct _ => omap (expandTemplate Fprint (tm_fields m) h v) ts
      | VBasic _ => []
      end
  end.

(** [schemaVersion] *)
Definition schemaVersion (m : cacheTypeMeta) : string := tm_versionHash m.

(** [extractCacheableTags]; [tagger] is what [CacheTags] returns, when the
    value or a pointer to it has the method. *)
Definition extractCacheableTags (tagger : option (list string)) : list string := default [] tagger.

(** [deriveAutoTags]: the tags of a [CacheTagger] and those of the templates. *)
Definition deriveAutoTags (tagger : option (list string)) (templates : list string) : list string :=
  (extractCacheableTags tagger ++ templates)%list.

(** [extractCacheableTTL] *)
Definition extractCacheableTTL (ttler : option Z) (fallback : Z) : Z :=
  match ttler with Some ttl => if bool_decide (ttl < 0)%Z then fallback else ttl | None => fallback end.

(** [valueTraits]: which hooks a value of the cache's type can have, so that
    the others are not looked for. *)
Record valueTraits := ValueTraits { vt_dynamic : bool; vt_ttler : bool; vt_tagger : bool; vt_templates : bool }.

Definition valueTTL (t : valueTraits) (ttler : option Z) (fallback : Z) : Z :=
  if negb (vt_dynamic t) && negb (vt_ttler t) then fallback else extractCacheableTTL ttler fallback.

Definition autoTags (t : valueTraits) (tagger : option (list string)) (templates : list string) : list string :=
  if negb (vt_dynamic t) && negb (vt_tagger t) && negb (vt_templates t) then [] else deriveAutoTags tagger templates.

(** What the type rules out, its values do not have. *)
Definition traits_sound (t : valueTraits) (ttler : option Z) (tagger : option (list string)) (templates : list string) : Prop :=
  vt_dynamic t = true ∨
  (vt_ttler t = false → ttler = None) ∧ (vt_tagger t = false → tagger = None) ∧ (vt_templates t = false → templates = []).

(** Skipping the checks changes nothing. *)
Lemma traits_skip t ttler tagger templates fallback :
  traits_sound t ttler tagger templates →
  valueTTL t ttler fallback = extractCacheableTTL ttler fallback ∧ autoTags t tagger templates = deriveAutoTags tagger templates.
Proof.
  unfold valueTTL, autoTags, traits_sound. destruct t as [[] tt tg tp]; cbn; [done|]. intros [?|(H1 & H2 & H3)]; [done|]. split.
  - destruct tt; [done|]. by rewrite H1.
  - destruct tg; [done|]. destruct tp; [done|]. by rewrite H2 // H3.
Qed.

(** ** Templates are expanded piece by piece *)

(** A template as its author reads it: text and placeholders. *)
Inductive piece := Text (s : string) | Hole (name : string).

Fixpoint has_char (c : ascii) (s : string) : bool :=
  match s with EmptyString => false | String x s => bool_decide (x = c) || has_char c s end.

Definition piece_ok (p : piece) : Prop :=
  match p with Text s => has_char openBrace s = false | Hole name => has_char closeBrace name = false end.

Definition print_piece (p : piece) : string := match p with Text s => s | Hole name => "{" +:+ name +:+ "}" end.

Definition join (l : list string) : string := foldr String.append "" l.

Lemma append_cons x s t : String x s +:+ t = String x (s +:+ t).
Proof. done. Qed.

Lemma append_empty s : "" +:+ s = s.
Proof. done. Qed.

Lemma append_nil s : s +:+ "" = s.
Proof. induction s as [|x s IH]; [done|]. by rewrite append_cons IH. Qed.

Lemma append_assoc s1 s2 s3 : (s1 +:+ s2) +:+ s3 = s1 +:+ (s2 +:+ s3).
Proof. induction s1 as [|x s1 IH]; [done|]. by rewrite !append_cons IH. Qed.

Lemma cut_here c s rest : has_char c s = false → cut c (s +:+ String c rest) = Some (s, rest).
Proof.
  induction s as [|x s IH]; [rewrite append_empty /= decide_True //|]. rewrite append_cons. cbn. intros [Hx Hs]%orb_false_iff. rewrite IH //.
  apply bool_decide_eq_false in Hx. by rewrite decide_False.
Qed.

Lemma cut_none c s : has_char c s = false → cut c s = None.
Proof.
  induction s as [|x s IH]; cbn; [done|]. intros [Hx Hs]%orb_false_iff. rewrite IH //.
  apply bool_decide_eq_false in Hx. by rewrite decide_False.
Qed.

Lemma cut_length c s a b : cut c s = Some (a, b) → (String.length b < String.length s)%nat.
Proof.
  revert a b. induction s as [|x s IH]; intros a b; cbn; [done|]. case_decide; [intros [= _ <-]; lia|].
  destruct (cut c s) as [[a' b']|]; [|done]. cbn. intros [= _ <-]. specialize (IH _ _ eq_refl). lia.
Qed.

Section templates_ok.
Context (Fprint : value → string) (fields : gmap string (list nat)) (h : heap) (v : value).

Local Abbreviation expand_loop := (expand_loop Fprint fields h v).

Definition show_piece (p : piece) : string :=
  match p with Text s => s | Hole name => placeholder Fprint fields h v name end.

(** Enough fuel, and more of it changes nothing. *)
Lemma expand_total fuel s : (String.length s < fuel)%nat → ∃ out, expand_loop fuel s = Some out.
Proof.
  revert s. induction fuel as [|fuel IH]; intros s Hl; [lia|]. cbn.
  destruct (cut openBrace s) as [[text rest]|] eqn:E1; [|eauto]. apply cut_length in E1.
  destruct (cut closeBrace rest) as [[name rest']|] eqn:E2; [|eauto]. apply cut_length in E2.
  destruct (IH rest') as [out ->]; [lia|]. cbn. eauto.
Qed.

Lemma expand_more fuel fuel' s out : expand_loop fuel s = Some out → (fuel <= fuel')%nat → expand_loop fuel' s = Some out.
Proof.
  revert fuel' s out. induction fuel as [|fuel IH]; intros fuel' s out He Hf; [done|]. destruct fuel' as [|fuel']; [lia|].
  cbn in He |- *. destruct (cut openBrace s) as [[text rest]|]; [|done].
  destruct (cut closeBrace rest) as [[name rest']|]; [|done].
  destruct (expand_loop fuel rest') as [o|] eqn:Eo; [|done]. rewrite (IH fuel' rest' o) //. lia.
Qed.

(** Text before the next brace passes through. *)
Lemma expand_text fuel t s out :
  has_char openBrace t = false → expand_loop fuel s = Some out → expand_loop fuel (t +:+ s) = Some (t +:+ out).
Proof.
  intros Ht. destruct fuel as [|fuel]; [done|]. cbn.
  assert (cut openBrace (t +:+ s) = '(a, b) ← cut openBrace s; Some (t +:+ a, b)) as ->.
  { induction t as [|x t IH]; [rewrite append_empty; by destruct (cut openBrace s) as [[]|]|]. rewrite append_cons. cbn.
    apply orb_false_iff in Ht as [Hx Ht]. apply bool_decide_eq_false in Hx. rewrite decide_False // IH //.
    by destruct (cut openBrace s) as [[]|]. }
  destruct (cut openBrace s) as [[text rest]|]; cbn; [|by intros [= <-]].
  destruct (cut closeBrace rest) as [[name rest']|]; [|intros [= <-]; by rewrite append_assoc].
  destruct (expand_loop fuel rest') as [o|]; [|done]. cbn. intros [= <-]. by rewrite append_assoc.
Qed.

(** A template expands to its text with every placeholder replaced by the
    value of the field it names, by itself if no field has that name, and by
    "<nil>" inside a nil embedded pointer; the expansion always ends. *)
Theorem template_expands ps :
  Forall piece_ok ps →
  expandTemplate Fprint fields h v (join (map print_piece ps)) = Some (join (map show_piece ps)) ∧
  ∀ template, ∃ out, expandTemplate Fprint fields h v template = Some out.
Proof.
  intros Hok. split; [|intros template; apply expand_total; lia].
  assert (∃ fuel, expand_loop fuel (join (map print_piece ps)) = Some (join (map show_piece ps))) as [fuel He].
  { induction Hok as [|[t|name] ps Hp _ [fuel IH]]; cbn -[cut]; [by exists 1%nat| |].
    - exists fuel. by apply expand_text.
    - exists (S fuel). rewrite (append_assoc "{") (append_assoc name). cbn [Cachetag.expand_loop].
      rewrite (cut_here openBrace "" (name +:+ ("}" +:+ join (map print_piece ps)))) //.
      rewrite (cut_here closeBrace name (join (map print_piece ps))) //. by rewrite IH. }
  destruct (expand_total (S (String.length (join (map print_piece ps)))) (join (map print_piece ps))) as [out Ho]; [lia|].
  unfold expandTemplate. destruct (Nat.le_ge_cases fuel (S (String.length (join (map print_piece ps))))) as [Hf|Hf].
  - by eapply expand_more.
  - rewrite Ho. f_equal. eapply expand_more in Ho; [|exact Hf]. congruence.
Qed.
End templates_ok.

(** ** The fingerprint does not depend on the order of the fields *)

Lemma ltb_le x y : String.ltb x y = true → String.le x y.
Proof. unfold String.le, String.leb, String.ltb. by destruct (String.compare x y). Qed.

Lemma ltb_ge x y : String.ltb x y = false → String.le y x.
Proof.
  unfold String.le, String.leb, String.ltb. rewrite (String.compare_antisym x y). by destruct (String.compare y x).
Qed.

Lemma sink_perm l x : sink l x ≡ₚ x :: l.
Proof. induction l as [|y l IH]; cbn; [done|]. destruct (String.ltb x y); [|done]. rewrite IH. constructor. Qed.

Lemma sink_sorted l x : StronglySorted (flip String.le) l → StronglySorted (flip String.le) (sink l x).
Proof.
  induction 1 as [|y l Hs IH Hy]; cbn; [repeat constructor|]. destruct (String.ltb x y) eqn:E.
  - constructor; [done|]. rewrite sink_perm. constructor; [by apply ltb_le|done].
  - constructor; [by constructor|]. constructor; [by apply ltb_ge|]. eapply Forall_impl; [done|]. intros z Hz.
    cbn in *. etrans; [done|]. by apply ltb_ge.
Qed.

Lemma fold_sink l lines :
  StronglySorted (flip String.le) l → StronglySorted (flip String.le) (foldl sink l lines) ∧ foldl sink l lines ≡ₚ l ++ lines.
Proof.
  revert l. induction lines as [|x lines IH]; intros l Hl; cbn; [by rewrite app_nil_r|].
  destruct (IH (sink l x)) as [I1 I2]; [by apply sink_sorted|]. split; [done|]. rewrite I2 sink_perm. by rewrite -Permutation_middle.
Qed.

(** The lines are sorted, so that two types that declare the same fields in
    another order have the same fingerprint. *)
Theorem version_order sha256 signature vs vs' :
  vs ≡ₚ vs' → computeVersionHash sha256 signature vs = computeVersionHash sha256 signature vs'.
Proof.
  intros Hp. unfold computeVersionHash, sortLines. do 3 f_equal.
  set (f v := f_name (vi_field v) +:+ ":" +:+ signature (f_name (vi_field v))).
  destruct (fold_sink [] (map f vs)) as [S1 P1]; [constructor|]. destruct (fold_sink [] (map f vs')) as [S2 P2]; [constructor|].
  assert (AntiSymm (=) (flip String.le)) by (intros x y ??; by apply (anti_symm String.le)).
  apply (StronglySorted_unique (flip String.le)); [done|done|]. rewrite P1 P2. by rewrite /= Hp.
Qed.

(** ** Snapshots do not carry secrets *)

Section value_ind.
Context (Q : value → Prop) (Hb : ∀ z, Q (VBasic z)) (Hp : ∀ l, Q (VPtr l)) (Hs : ∀ fs, Forall Q fs → Q (VStruct fs)).

Fixpoint value_ind' (v : value) : Q v :=
  match v with
  | VBasic z => Hb z
  | VPtr l => Hp l
  | VStruct fs => Hs fs ((fix all fs : Forall Q fs :=
      match fs with [] => Forall_nil_2 _ | x :: fs => Forall_cons_2 _ _ _ (value_ind' x) (all fs) end) fs)
  end.
End value_ind.

Lemma zeroOf_idem v : zeroOf (zeroOf v) = zeroOf v.
Proof.
  induction v as [| |fs IH] using value_ind'; [done..|]. cbn. f_equal. rewrite map_map. apply map_ext_Forall. exact IH.
Qed.

(** The field at a path, and the struct with that field blanked. *)
Fixpoint get (v : value) (path : list nat) : option value :=
  match path with
  | [] => Some v
  | i :: path => match v with VStruct fs => fs !! i ≫= λ x, get x path | _ => None end
  end.

Fixpoint blank (v : value) (path : list nat) : value :=
  match path with
  | [] => zeroOf v
  | i :: path =>
      match v with
      | VStruct fs => match fs !! i with Some x => VStruct (<[i := blank x path]> fs) | None => v end
      | _ => v
      end
  end.

Lemma zeroOf_struct fs : zeroOf (VStruct fs) = VStruct (zeroOf <$> fs).
Proof. done. Qed.

Lemma get_zeroOf v q : get (zeroOf v) q = zeroOf <$> get v q.
Proof.
  revert v. induction q as [|i q IH]; intros v; [done|]. destruct v as [| |fs]; [done..|]. rewrite zeroOf_struct. cbn.
  rewrite list_lookup_fmap. destruct (fs !! i); cbn; [apply IH|done].
Qed.

Lemma zeroOf_blank v p : zeroOf (blank v p) = zeroOf v.
Proof.
  revert v. induction p as [|i p IH]; intros v; cbn; [apply zeroOf_idem|]. destruct v as [| |fs]; [done..|].
  destruct (fs !! i) as [x|] eqn:E; [|done]. rewrite !zeroOf_struct list_fmap_insert IH. f_equal.
  apply list_insert_id. by rewrite list_lookup_fmap E.
Qed.

Lemma blank_zeroOf v p : blank (zeroOf v) p = zeroOf v.
Proof.
  revert v. induction p as [|i p IH]; intros v; cbn; [apply zeroOf_idem|]. destruct v as [| |fs]; [done..|].
  rewrite zeroOf_struct list_lookup_fmap. destruct (fs !! i) as [x|] eqn:E; [|done]. cbn. rewrite IH. f_equal.
  apply list_insert_id. by rewrite list_lookup_fmap E.
Qed.

(** Blanking at [p] as seen at [q]: inside, above, and elsewhere. *)
Lemma get_blank_inside v p r : get (blank v p) (p ++ r) = zeroOf <$> get v (p ++ r).
Proof.
  revert v. induction p as [|i p IH]; intros v; cbn; [apply get_zeroOf|]. destruct v as [| |fs]; [done..|].
  destruct (fs !! i) as [x|] eqn:E; cbn; [|by rewrite E]. rewrite list_lookup_insert_eq; [|by eapply lookup_lt_Some].
  cbn. apply IH.
Qed.

Lemma get_blank_above v q r : get (blank v (q ++ r)) q = (λ x, blank x r) <$> get v q.
Proof.
  revert v. induction q as [|i q IH]; intros v; cbn; [done|]. destruct v as [| |fs]; [done..|].
  destruct (fs !! i) as [x|] eqn:E; cbn; [|by rewrite E]. rewrite list_lookup_insert_eq; [|by eapply lookup_lt_Some]. cbn. apply IH.
Qed.

Lemma get_blank_apart v p q : ¬ p `prefix_of` q → ¬ q `prefix_of` p → get (blank v p) q = get v q.
Proof.
  revert v q. induction p as [|i p IH]; intros v q Hp Hq; [by destruct Hp; eexists|].
  destruct q as [|j q]; [by destruct Hq; eexists|]. cbn. destruct v as [| |fs]; [done..|].
  destruct (fs !! i) as [x|] eqn:E; [|done]. cbn. destruct (decide (j = i)) as [->|Hne].
  - rewrite list_lookup_insert_eq; [|by eapply lookup_lt_Some]. rewrite E. cbn. apply IH.
    + intros Hx. apply Hp. by apply prefix_cons.
    + intros Hx. apply Hq. by apply prefix_cons.
  - by rewrite list_lookup_insert_ne.
Qed.

Lemma fold_zero v ps q : zeroOf <$> get (foldl blank v ps) q = zeroOf <$> get v q.
Proof.
  rewrite -!get_zeroOf. f_equal. revert v. induction ps as [|p ps IH]; intros v; [done|]. cbn. by rewrite IH zeroOf_blank.
Qed.

(** A field under a blanked path is blank, whatever else is blanked. *)
Lemma fold_blanked v ps p q : p ∈ ps → p `prefix_of` q → get (foldl blank v ps) q = zeroOf <$> get v q.
Proof.
  induction ps as [|p' ps IH] using rev_ind; [by intros ?%not_elem_of_nil|]. intros Hin Hpq. rewrite foldl_snoc.
  destruct (decide (p' `prefix_of` q)) as [[r ->]|Hnp].
  - rewrite get_blank_inside. apply fold_zero.
  - apply elem_of_app in Hin as [Hin|Hin]; [|by apply list_elem_of_singleton in Hin as ->].
    specialize (IH Hin Hpq). destruct (decide (q `prefix_of` p')) as [[r ->]|Hnq].
    + rewrite get_blank_above IH. destruct (get v q); cbn; [|done]. by rewrite blank_zeroOf.
    + by rewrite get_blank_apart.
Qed.

Lemma fold_apart v ps q : (∀ p, p ∈ ps → ¬ p `prefix_of` q ∧ ¬ q `prefix_of` p) → get (foldl blank v ps) q = get v q.
Proof.
  revert v. induction ps as [|p ps IH]; intros v Ha; cbn; [done|]. rewrite IH; [|intros; apply Ha; by right].
  destruct (Ha p); [by left|]. by apply get_blank_apart.
Qed.

(** The fields a struct type has, its own and those of the structs it embeds,
    with the way to them. *)
Inductive field_at (D : decls) : string → list nat → field → Prop :=
  | at_here n fs i f : D !! n = Some fs → fs !! i = Some f → field_at D n [i] f
  | at_under n fs i f n' p g :
      D !! n = Some fs → fs !! i = Some f → f_anonymous f = true → elemStruct (f_type f) = Some n' →
      field_at D n' p g → field_at D n (i :: p) g.

(** The values of a type. *)
Inductive typed (D : decls) : goType → value → Prop :=
  | typed_basic t z : typed D (TBasic t) (VBasic z)
  | typed_ptr t l : typed D (TPtr t) (VPtr l)
  | typed_struct n fs xs : D !! n = Some fs → Forall2 (typed D) (f_type <$> fs) xs → typed D (TNamed n) (VStruct xs).

(** Structs are embedded by value, which the language allows in no cycle: a
    struct ranks above what it embeds. *)
Record by_value (D : decls) (rank : string → nat) : Prop := ByValue {
  bv_struct n fs f n' : D !! n = Some fs → f ∈ fs → f_anonymous f = true → elemStruct (f_type f) = Some n' → f_type f = TNamed n';
  bv_rank n fs f n' : D !! n = Some fs → f ∈ fs → f_anonymous f = true → elemStruct (f_type f) = Some n' → (rank n' < rank n)%nat }.

Definition marked (f : field) : bool := let o := parseCacheTag (f_tag f) in to_skip o || to_secret o.

Section snapshots.
Context (D : decls) (rank : string → nat).

(** The inner loop of the walk, named. *)
Fixpoint walk_fields (fuel : nat) (prefix : list nat) (i : nat) (fs : list field) : option (list visited) :=
  match fs with
  | [] => Some []
  | f :: fs =>
      inner ← (if f_anonymous f then
                 match elemStruct (f_type f) with
                 | Some n' => walkStructFields fuel D n' (prefix ++ [i])
                 | None => Some []
                 end
               else Some []);
      rest ← walk_fields fuel prefix (S i) fs;
      Some (Visited (prefix ++ [i]) f (parseCacheTag (f_tag f)) :: (inner ++ rest)%list)
  end.

Lemma walk_step fuel n prefix : walkStructFields (S fuel) D n prefix = walk_fields fuel prefix 0 (default [] (D !! n)).
Proof. cbn. generalize 0%nat (default [] (D !! n)) => i fs. revert i. induction fs as [|f fs IH]; intros i; cbn; [done|]. by rewrite IH. Qed.

Lemma walk_ends fuel n prefix : by_value D rank → (rank n < fuel)%nat → is_Some (walkStructFields fuel D n prefix).
Proof.
  intros Hv. revert n prefix. induction fuel as [|fuel IH]; intros n prefix Hr; [lia|]. rewrite walk_step.
  destruct (D !! n) as [fs|] eqn:En; [|by eexists]. cbn.
  assert (∀ f, f ∈ fs → f ∈ fs) as Hin by done. revert Hin. generalize fs at 1 3 => gs. generalize 0%nat => i. revert i.
  induction gs as [|f gs IHg]; intros i Hin; cbn; [by eexists|].
  assert (is_Some (if f_anonymous f then
    match elemStruct (f_type f) with Some n' => walkStructFields fuel D n' (prefix ++ [i]) | None => Some [] end else Some [])) as [inner ->].
  { destruct (f_anonymous f) eqn:Ea; [|by eexists]. destruct (elemStruct (f_type f)) as [n'|] eqn:Es; [|by eexists].
    apply IH. assert (rank n' < rank n)%nat; [|lia]. eapply (bv_rank _ _ Hv); eauto. apply Hin. by left. }
  cbn. destruct (IHg (S i)) as [rest ->]; [intros; apply Hin; by right|]. by eexists.
Qed.

(** What the walk visits: the fields of the type, each with the way to it. *)
Definition visit_of (prefix p : list nat) (f : field) : visited := Visited (prefix ++ p) f (parseCacheTag (f_tag f)).

Definition visits (n : string) (prefix : list nat) (v : visited) : Prop :=
  ∃ p f, field_at D n p f ∧ v = visit_of prefix p f.

Definition walk_ok (fuel : nat) : Prop :=
  ∀ n prefix vs, walkStructFields fuel D n prefix = Some vs → ∀ v, v ∈ vs ↔ visits n prefix v.

Definition visits_field (prefix : list nat) (i : nat) (f : field) (v : visited) : Prop :=
  v = visit_of prefix [i] f ∨
  f_anonymous f = true ∧ ∃ n', elemStruct (f_type f) = Some n' ∧ visits n' (prefix ++ [i]) v.

Lemma walk_fields_spec fuel prefix i fs vs v :
  walk_ok fuel → walk_fields fuel prefix i fs = Some vs →
  v ∈ vs ↔ ∃ j f, fs !! j = Some f ∧ visits_field prefix (i + j) f v.
Proof.
  intros Hok. revert i vs. induction fs as [|f fs IH]; intros i vs; cbn.
  { intros [= <-]. split; [by intros ?%not_elem_of_nil|]. by intros (j & f & ? & _). }
  intros (inner & Hi & (rest & Hr & [= <-])%bind_Some)%bind_Some. specialize (IH _ _ Hr).
  assert (v ∈ inner ↔ f_anonymous f = true ∧ ∃ n', elemStruct (f_type f) = Some n' ∧ visits n' (prefix ++ [i]) v) as Hinner.
  { destruct (f_anonymous f); [|simplify_eq; split; [by intros ?%not_elem_of_nil|naive_solver]].
    destruct (elemStruct (f_type f)) as [n'|]; [rewrite (Hok _ _ _ Hi v); naive_solver|].
    simplify_eq. split; [by intros ?%not_elem_of_nil|naive_solver]. }
  rewrite elem_of_cons elem_of_app Hinner IH. split.
  - intros [->|[Hv|(j & g & Hj & Hv)]]; [exists 0%nat, f|exists 0%nat, f|exists (S j), g; rewrite Nat.add_succ_r];
      rewrite ?Nat.add_0_r; (split; [done|]); [by left|by right|done].
  - intros ([|j] & g & Hj & Hv); cbn in Hj; simplify_eq; [rewrite Nat.add_0_r in Hv; destruct Hv; tauto|].
    right; right. exists j, g. by rewrite Nat.add_succ_r in Hv.
Qed.

Lemma walk_spec fuel : walk_ok fuel.
Proof.
  induction fuel as [|fuel IH]; intros n prefix vs; [done|]. rewrite walk_step. intros Hw v.
  rewrite (walk_fields_spec _ _ _ _ _ v IH Hw). cbn. split.
  - intros (i & f & Hi & Hv). destruct (D !! n) as [fs|] eqn:En; [|done]. cbn in Hi.
    destruct Hv as [->|(Ha & n' & Hn' & p & g & Hp & ->)]; [by exists [i], f; split; [econstructor|]|].
    exists (i :: p), g. split; [by eapply at_under|]. unfold visit_of. by rewrite -app_assoc.
  - intros (p & f & Hf & ->). destruct Hf as [n fs i f Hn Hi|n fs i f n' p g Hn Hi Ha Hn' Hg]; rewrite Hn; cbn.
    + exists i, f. split; [done|]. by left.
    + exists i, f. split; [done|]. right. split; [done|]. exists n'. split; [done|]. exists p, g. split; [done|].
      unfold visit_of. by rewrite -app_assoc.
Qed.

(** Blanking keeps the type. *)
Lemma typed_zeroOf t v : typed D t (zeroOf v) ↔ typed D t v.
Proof.
  revert t. induction v as [z|l|xs IH] using value_ind'; intros t; cbn.
  - split; inversion 1; constructor.
  - split; inversion 1; constructor.
  - split; inversion 1 as [| |n fs ys Hn Hf]; subst; econstructor; eauto; clear Hn; revert Hf; generalize (f_type <$> fs) => ts.
    + clear -IH. revert ts. induction IH as [|x xs Hx _ IH]; intros ts; inversion 1; subst; constructor; [by apply Hx|by apply IH].
    + clear -IH. revert ts. induction IH as [|x xs Hx _ IH]; intros ts; inversion 1; subst; constructor; [by apply Hx|by apply IH].
Qed.

Lemma typed_blank t v p : typed D t v → typed D t (blank v p).
Proof. intros Hv. apply typed_zeroOf. rewrite zeroOf_blank. by apply typed_zeroOf. Qed.

(** A field of the type is a field of the value. *)
Lemma typed_field n v p f : by_value D rank → field_at D n p f → typed D (TNamed n) v →
  is_Some (get v p) ∧ ∀ h, zeroAt h v p = Some (h, blank v p).
Proof.
  intros Hv Hf. revert v. induction Hf as [n fs i f Hn Hi|n fs i f n' p g Hn Hi Ha Hn' Hg IH]; intros v Ht;
    inversion Ht as [| |? fs' xs ? Hxs]; simplify_eq;
    (destruct (Forall2_lookup_l _ _ _ i (f_type f) Hxs) as (x & Hx & Htx); [by rewrite list_lookup_fmap Hi|]).
  - cbn. rewrite Hx. split; [by eexists|done].
  - rewrite (bv_struct _ _ Hv n fs f n') in Htx; [|done|by eapply list_elem_of_lookup_2|done|done].
    destruct (IH _ Htx) as [I1 I2]. cbn [get blank]. rewrite Hx. split; [done|]. intros h.
    destruct p as [|j p]; [by inversion Hg|]. inversion Htx; subst. cbn [zeroAt]. rewrite Hx. cbn [mbind option_bind].
    specialize (I2 h). cbn [zeroAt] in I2. by rewrite I2.
Qed.

(** The paths the filters of a type blank. *)
Definition blanked (vs : list visited) : list (list nat) :=
  omap (λ v, if marked (vi_field v) && f_exported (vi_field v) then Some (vi_path v) else None) vs.

Lemma filters_blank n vs h v :
  by_value D rank → (∀ w, w ∈ vs → visits n [] w) → typed D (TNamed n) v →
  applyFilters h v (omap filterOf vs) = (h, foldl blank v (blanked vs)).
Proof.
  intros Hv. unfold applyFilters. revert v. induction vs as [|w vs IH]; intros v Hw Ht; [done|].
  destruct (Hw w) as (p & f & Hf & ->); [by left|].
  assert (∀ u, u ∈ vs → visits n [] u) as Hw' by (intros; apply Hw; by right). cbn [omap list_omap].
  destruct (filterOf (visit_of [] p f)) as [ff|] eqn:Ef; unfold filterOf, visit_of in Ef; cbn in Ef.
  - cbn. unfold applyFilter, marked. cbn.
    destruct (to_skip (parseCacheTag (f_tag f)) || to_secret (parseCacheTag (f_tag f))); simplify_eq; cbn.
    + destruct (f_exported f); cbn; [|by apply IH]. destruct (typed_field n v p f) as [_ ->]; [done..|]. cbn.
      apply IH; [done|by apply typed_blank].
    + destruct (to_omitempty (parseCacheTag (f_tag f))); simplify_eq; cbn. rewrite andb_false_r. by apply IH.
  - unfold blanked, marked. cbn.
    destruct (to_skip (parseCacheTag (f_tag f)) || to_secret (parseCacheTag (f_tag f))); [done|]. by apply IH.
Qed.
End snapshots.

(** What a snapshot of [v] may hold, when its type is [n] and the filtered
    value is [v']: every exported field marked [secret] or [-] is blank, and
    with it what it contains; a field neither inside a marked one nor around
    one is as it was; the type is the same. *)
Record filtered (D : decls) (n : string) (v v' : value) : Prop := Filtered {
  fi_typed : typed D (TNamed n) v';
  fi_blank p f : field_at D n p f → marked f = true → f_exported f = true →
    is_Some (get v p) ∧ ∀ r, get v' (p ++ r) = zeroOf <$> get v (p ++ r);
  fi_kept q : (∀ p f, field_at D n p f → marked f = true → f_exported f = true → ¬ p `prefix_of` q ∧ ¬ q `prefix_of` p) →
    get v' q = get v q }.

(** A struct is filtered where it is, a pointer to one by a filtered copy. *)
Lemma snapshot_struct m h xs : applySnapshotFilter m h (VStruct xs) = applyFilters h (VStruct xs) (tm_filters m).
Proof. unfold applySnapshotFilter. by destruct (tm_filters m). Qed.

Lemma snapshot_pointer m h l v v' :
  h !! l = Some v → applyFilters h v (tm_filters m) = (h, v') →
  ∃ h' l', applySnapshotFilter m h (VPtr (Some l)) = (h', VPtr (Some l')) ∧ h' !! l' = Some v' ∧ h ⊆ h'.
Proof.
  intros Hl Hf. unfold applySnapshotFilter. destruct (tm_filters m) as [|f fs]; [injection Hf as <-; by exists h, l|].
  rewrite Hl Hf. eexists _, _. split; [done|]. split; [by rewrite lookup_insert_eq|].
  apply insert_subseteq. apply not_elem_of_dom. apply is_fresh.
Qed.

(** C19: a snapshot carries no secrets: of a struct type that embeds by value,
    the filter blanks every exported field marked [secret] or [-], embedded
    ones too, leaves the other fields alone, and changes nothing the live
    value can see, whether the value is a struct or a pointer to one; the
    walk over the fields of the type ends. *)
Theorem secrets_blanked sha256 signature D rank n h v :
  by_value D rank → typed D (TNamed n) v →
  ∃ vs v',
    walkStructFields (S (rank n)) D n [] = Some vs ∧
    applySnapshotFilter (buildMeta sha256 signature vs) h v = (h, v') ∧
    (∀ l, h !! l = Some v → ∃ h' l',
      applySnapshotFilter (buildMeta sha256 signature vs) h (VPtr (Some l)) = (h', VPtr (Some l')) ∧ h' !! l' = Some v' ∧ h ⊆ h') ∧
    filtered D n v v'.
Proof.
  intros Hv Ht. destruct (walk_ends D rank (S (rank n)) n [] Hv) as [vs Hw]; [lia|].
  pose proof (walk_spec D rank _ _ _ _ Hw) as Hs. exists vs, (foldl blank v (blanked vs)).
  assert (Hf : applyFilters h v (omap filterOf vs) = (h, foldl blank v (blanked vs))).
  { eapply filters_blank; [done| |done]. intros w ?. by apply Hs. }
  assert (Hb : ∀ p, p ∈ blanked vs ↔ ∃ f, field_at D n p f ∧ marked f = true ∧ f_exported f = true).
  { intros p. unfold blanked. rewrite list_elem_of_omap. split.
    - intros (w & (q & f & Hq & ->)%Hs & Hp). cbn in Hp. destruct (marked f) eqn:E1, (f_exported f) eqn:E2; simplify_eq/=. eauto.
    - intros (f & Hp & E1 & E2). exists (visit_of [] p f). split; [apply Hs; by exists p, f|]. cbn. by rewrite E1 E2. }
  split; [done|]. split; [|split].
  - inversion Ht; subst. rewrite snapshot_struct. exact Hf.
  - intros l Hl. by eapply snapshot_pointer.
  - split.
    + clear Hf Hb Hs Hw. revert v Ht. induction (blanked vs) as [|p ps IH]; intros v Ht; cbn; [done|]. by apply IH, typed_blank.
    + intros p f Hp E1 E2. split; [by eapply typed_field|]. intros r.
      eapply fold_blanked; [apply Hb; eauto|by eexists].
    + intros q Hq. apply fold_apart. intros p (f & Hp & E1 & E2)%Hb. eauto.
Qed.

(** A user with a password, inside an account that embeds it. *)
Definition demoDecls : decls :=
  <["Account" := [Field "Balance" "" false true (TBasic "int"); Field "User" "" true true (TNamed "User");
                  Field "token" ",secret" false false (TBasic "string")]]>
  {["User" := [Field "Name" ",tag=user:{Name}" false true (TBasic "string"); Field "Password" "pw,secret" false true (TBasic "string")]]}.

Definition demoRank (n : string) : nat := if decide (n = "Account") then 1 else 0.

Definition demoAccount : value := VStruct [VBasic 10; VStruct [VBasic 5; VBasic 42]; VBasic 7].

Lemma demo_by_value : by_value demoDecls demoRank.
Proof.
  assert (∀ n fs f n', demoDecls !! n = Some fs → f ∈ fs → f_anonymous f = true → elemStruct (f_type f) = Some n' →
    n = "Account" ∧ f_type f = TNamed "User" ∧ n' = "User") as H.
  { intros n fs f n'. unfold demoDecls. rewrite lookup_insert_Some lookup_singleton_Some.
    intros [[<- <-]|[_ [<- <-]]] Hf; rewrite !elem_of_cons elem_of_nil in Hf;
      destruct_or!; subst; cbn; intros; simplify_eq; done. }
  split; intros n fs f n' H1 H2 H3 H4; destruct (H n fs f n') as (-> & E & ->); done || (cbv; lia).
Qed.

Lemma secrets_blanked_witness : ∃ vs v',
  walkStructFields 2 demoDecls "Account" [] = Some vs ∧
  applySnapshotFilter (buildMeta (λ s, s) (λ s, s) vs) ∅ demoAccount = (∅, v') ∧
  get v' [1%nat; 1%nat] = Some (VBasic 0) ∧ get v' [1%nat; 0%nat] = Some (VBasic 5) ∧ get v' [2%nat] = Some (VBasic 7).
Proof.
  destruct (secrets_blanked (λ s, s) (λ s, s) demoDecls demoRank "Account" ∅ demoAccount demo_by_value) as (vs & v' & H1 & H2 & _ & _).
  { repeat (econstructor; try reflexivity). }
  exists vs, v'. split; [exact H1|]. split; [exact H2|]. vm_compute in H1. injection H1 as <-. vm_compute in H2. injection H2 as <-. done.
Defined.

Lemma template_expands_witness :
  expandTemplate (λ _, "5") {["Name" := [1%nat; 0%nat]]} ∅ demoAccount "user:{Name}/{Nick}" = Some "user:5/{Nick}".
Proof.
  refine (proj1 (template_expands (λ _, "5") {["Name" := [1%nat; 0%nat]]} ∅ demoAccount
    [Text "user:"; Hole "Name"; Text "/"; Hole "Nick"] _)).
  repeat (constructor; [reflexivity|]). constructor.
Defined.
