(* ===== verification/Counters.v ===== *)
(** * Counters: sharded counters and the latency histogram

    [shardedCounter] ([sharded_counter.go]) spreads a counter over slots; the
    random number that picks a slot is an argument.  [Histogram]
    ([internal/tdigest/tdigest.go]) counts durations in fixed buckets and
    estimates quantiles.  Both are atomic word by word and used as single
    steps. *)

From S2P Require Import Prelude.

#[local] Open Scope Z_scope.

(** ** Sharded counters *)

Record shardedCounter := ShardedCounter { sc_slots : list Z; sc_mask : Z }.

Definition newShardedCounter (slots : Z) : shardedCounter :=
  let slots := if bool_decide (slots < 1) then 1 else slots in
  let n := nextPowerOfTwo slots in
  ShardedCounter (replicate (Z.to_nat n) 0) (u64 (n - 1)).

(** [rnd] is what [rand.Uint64] returned. *)
Definition sc_Add (c : shardedCounter) (rnd delta : Z) : shardedCounter :=
  ShardedCounter (alter (λ x, u64 (x + delta)) (Z.to_nat (Z.land rnd (sc_mask c))) (sc_slots c)) (sc_mask c).

Definition sc_Load (c : shardedCounter) : Z := foldl (λ sum x, u64 (sum + x)) 0 (sc_slots c).

Definition sc_share (n v : Z) (i : nat) : Z :=
  let share := Z.quot v n in
  let rem := v - share * n in
  if bool_decide (Z.of_nat i < rem) then share + 1 else share.

Definition sc_Store (c : shardedCounter) (v : Z) : shardedCounter :=
  let n := Z.of_nat (length (sc_slots c)) in
  ShardedCounter (if bool_decide (n = 1) then [v] else sc_share n v <$> seq 0 (length (sc_slots c))) (sc_mask c).

Definition shardedStatsSize (p : Z) : Z :=
  let p := if bool_decide (p <= 0) then 1 else p in
  let n := p * 4 in
  if bool_decide (256 < n) then 256 else n.

(** ** The latency histogram *)

Definition numBuckets : nat := 24.

Definition boundsNs : list Z :=
  [100; 200; 500; 1000; 2000; 5000; 10000; 20000; 50000; 100000; 200000; 500000;
   1000000; 2000000; 5000000; 10000000; 20000000; 50000000; 100000000; 200000000; 500000000;
   1000000000; 2000000000; 5000000000].

Definition bound (i : nat) : Z := default 0 (boundsNs !! i).

Record latencies := Latencies { la_counts : list Z; la_sumNs : Z; la_count : Z }.

Definition noLatencies : latencies := Latencies (replicate numBuckets 0) 0 0.

(** The binary search; the interval shrinks with every turn. *)
Fixpoint bucket_loop (fuel : nat) (ns : Z) (lo hi : nat) : nat :=
  match fuel with
  | O => lo
  | S fuel =>
      if bool_decide (lo < hi)%nat then
        let mid := ((lo + hi) / 2)%nat in
        if bool_decide (bound mid < ns) then bucket_loop fuel ns (S mid) hi else bucket_loop fuel ns lo mid
      else lo
  end.

Definition bucketFor (ns : Z) : nat := bucket_loop numBuckets ns 0 (numBuckets - 1).

Definition la_Record (h : latencies) (d : Z) : latencies :=
  if bool_decide (d < 0) then h
  else Latencies (alter (λ n, u64 (n + 1)) (bucketFor d) (la_counts h)) (i64 (la_sumNs h + d)) (u64 (la_count h + 1)).

Definition la_Reset (h : latencies) : latencies := noLatencies.

(** The walk of [quantile] from bucket [i] on. *)
Fixpoint quantile_loop (counts : list Z) (i : nat) (cum target : Z) : Z :=
  match counts with
  | [] => bound (numBuckets - 1)
  | n :: counts =>
      let cum := u64 (cum + n) in
      if bool_decide (target <= cum) then bound i else quantile_loop counts (S i) cum target
  end.

Definition quantile (h : latencies) (total pct : Z) : Z :=
  let target := Z.quot (u64 (total * pct)) 100 in
  let target := if bool_decide (target = 0) then 1 else target in
  quantile_loop (la_counts h) 0 0 target.

Record Snapshot := MkSnapshot { sn_Count : Z; sn_Mean : Z; sn_P50 : Z; sn_P99 : Z }.

Definition la_Snapshot (h : latencies) : Snapshot :=
  if bool_decide (la_count h = 0) then MkSnapshot 0 0 0 0
  else MkSnapshot (la_count h) (Z.quot (la_sumNs h) (i64 (la_count h))) (quantile h (la_count h) 50) (quantile h (la_count h) 99).

(** ** A sharded counter counts *)

Definition sumOf (l : list Z) : Z := foldr Z.add 0 l.

#[local] Arguments sumOf : simpl never.

Lemma sumOf_cons x l : sumOf (x :: l) = x + sumOf l.
Proof. done. Qed.

Lemma u64_add x y : u64 (u64 x + y) = u64 (x + y).
Proof. unfold u64. by rewrite Zplus_mod_idemp_l. Qed.

Lemma u64_add_r x y : u64 (x + u64 y) = u64 (x + y).
Proof. unfold u64. by rewrite Zplus_mod_idemp_r. Qed.

Lemma u64_idem x : u64 (u64 x) = u64 x.
Proof. unfold u64. by rewrite Zmod_mod. Qed.

Lemma Load_sum c : sc_Load c = u64 (sumOf (sc_slots c)).
Proof.
  unfold sc_Load. cut (∀ n, foldl (λ sum x, u64 (sum + x)) (u64 n) (sc_slots c) = u64 (n + sumOf (sc_slots c))).
  { intros H. change 0 with (u64 0) at 1. by rewrite H. }
  induction (sc_slots c) as [|x l IH]; intros n; cbn; [by rewrite Z.add_0_r|]. rewrite u64_add IH sumOf_cons. f_equal. lia.
Qed.

Lemma alter_sum (l : list Z) i d : (i < length l)%nat → u64 (sumOf (alter (λ x, u64 (x + d)) i l)) = u64 (sumOf l + d).
Proof.
  revert i. induction l as [|x l IH]; intros i Hi; cbn in *; [lia|]. destruct i as [|i]; cbn; rewrite !sumOf_cons.
  - rewrite u64_add. f_equal. lia.
  - rewrite -u64_add_r IH; [|lia]. rewrite u64_add_r. f_equal. lia.
Qed.

Lemma share_sum n v : 0 < n → 0 <= v → sumOf (sc_share n v <$> seq 0 (Z.to_nat n)) = v.
Proof.
  intros Hn Hv. rewrite /sc_share Z.quot_div_nonneg; [|lia..]. set (q := v / n). set (r := v - q * n).
  assert (0 <= r < n) as Hr by (unfold r, q; pose proof (Z.mod_pos_bound v n Hn); pose proof (Z.div_mod v n); lia).
  assert (∀ len start, sumOf ((λ i, if bool_decide (Z.of_nat i < r) then q + 1 else q) <$> seq start len) =
    Z.of_nat len * q + Z.max 0 (Z.min (Z.of_nat len) (r - Z.of_nat start))) as Hs.
  { induction len as [|len IH]; intros start; [unfold sumOf; cbn; lia|]. cbn [seq fmap list_fmap]. rewrite sumOf_cons IH.
    case_bool_decide; lia. }
  rewrite Hs. unfold r. lia.
Qed.

Inductive counterOp := CAdd (rnd delta : Z) | CStore (v : Z).

Definition sharded_step (c : shardedCounter) (o : counterOp) : shardedCounter :=
  match o with CAdd rnd delta => sc_Add c rnd delta | CStore v => sc_Store c v end.

(** The same on one [atomic.Uint64]. *)
Definition single_step (x : Z) (o : counterOp) : Z :=
  match o with CAdd _ delta => u64 (x + delta) | CStore v => v end.

Definition store_ok (o : counterOp) : Prop := match o with CAdd _ _ => True | CStore v => is_u64 v end.

Record sharded_ok (c : shardedCounter) (b : nat) : Prop := ShardedOk {
  so_bits : (b <= 62)%nat;
  so_slots : Z.of_nat (length (sc_slots c)) = 2 ^ Z.of_nat b;
  so_mask : sc_mask c = 2 ^ Z.of_nat b - 1 }.

Lemma new_sharded_ok slots : slots <= 2 ^ 62 → ∃ b, sharded_ok (newShardedCounter slots) b ∧ sc_Load (newShardedCounter slots) = 0.
Proof.
  intros Hs. unfold newShardedCounter. set (n := nextPowerOfTwo _).
  assert (∃ b : nat, (b <= 62)%nat ∧ n = 2 ^ Z.of_nat b) as (b & Hb & Hn).
  { destruct (nextPowerOfTwo_spec (if bool_decide (slots < 1) then 1 else slots)) as (b & B1 & B2 & _); [case_bool_decide; lia|]. eauto. }
  assert (0 < n) as Hp by (rewrite Hn; apply Z.pow_pos_nonneg; lia).
  assert (n <= 2 ^ 62) as Hm by (rewrite Hn; apply Z.pow_le_mono_r; lia).
  exists b. split; [split; cbn; [done|rewrite length_replicate; lia|rewrite u64_id; [lia|unfold is_u64; lia]]|].
  rewrite Load_sum. cbn. f_equal. induction (Z.to_nat n) as [|k IH]; [done|]. cbn. by rewrite sumOf_cons IH.
Qed.

Lemma sharded_step_ok c b o :
  sharded_ok c b → store_ok o →
  sharded_ok (sharded_step c o) b ∧ sc_Load (sharded_step c o) = single_step (sc_Load c) o.
Proof.
  intros [H1 H2 H3] Ho. destruct o as [rnd delta|v]; cbn [sharded_step single_step].
  - split; [split; cbn; [done|by rewrite length_alter|done]|]. rewrite !Load_sum. cbn [sc_Add sc_slots]. rewrite u64_add. apply alter_sum.
    rewrite H3. replace (2 ^ Z.of_nat b - 1) with (Z.ones (Z.of_nat b)) by (rewrite Z.ones_equiv; lia).
    rewrite Z.land_ones; [|lia]. pose proof (Z.mod_pos_bound rnd (2 ^ Z.of_nat b)). lia.
  - assert (0 < 2 ^ Z.of_nat b) as Hp by (apply Z.pow_pos_nonneg; lia). cbn in Ho.
    assert (sumOf (sc_slots (sc_Store c v)) = v ∧ length (sc_slots (sc_Store c v)) = length (sc_slots c)) as [Hs Hl].
    { cbn. case_bool_decide as E; [split; [unfold sumOf; cbn; lia|cbn; lia]|]. rewrite length_fmap length_seq. split; [|done].
      rewrite -{2}(Nat2Z.id (length (sc_slots c))). apply share_sum; [lia|apply Ho]. }
    split; [split; [done|by rewrite Hl|done]|]. rewrite Load_sum Hs. by apply u64_id.
Qed.

(** A sharded counter is a counter: whichever slots the random numbers pick,
    every sequence of [Add] and [Store] leaves [Load] with the value one
    64-bit word would have. *)
Theorem sharded_is_counter slots ops :
  slots <= 2 ^ 62 → Forall store_ok ops →
  sc_Load (foldl sharded_step (newShardedCounter slots) ops) = foldl single_step 0 ops.
Proof.
  intros Hs Ho. destruct (new_sharded_ok slots Hs) as (b & Hb & <-). revert Hb. generalize (newShardedCounter slots) => c.
  revert c. induction Ho as [|o ops Ho _ IH]; intros c Hb; [done|]. cbn. destruct (sharded_step_ok c b o Hb Ho) as [H1 H2].
  rewrite IH // H2. done.
Qed.

(** ** The histogram *)

Lemma bounds_mono i j : (i < j < numBuckets)%nat → bound i < bound j.
Proof.
  intros Hij. unfold numBuckets in Hij.
  assert (Forall (λ i, Forall (λ j, (i < j)%nat → bound i < bound j) (seq 0 24)) (seq 0 24)) as HF.
  { repeat (constructor; [repeat (constructor; [vm_compute; first [done|intros; lia]|]); constructor|]). constructor. }
  rewrite Forall_forall in HF. specialize (HF i). rewrite elem_of_seq Forall_forall in HF. apply HF; [lia| |lia]. apply elem_of_seq. lia.
Qed.

(** The search finds the first bucket that takes [ns], or the last one. *)
Lemma bucket_loop_spec fuel ns lo hi :
  (hi - lo <= fuel)%nat → (lo <= hi < numBuckets)%nat → (∀ j, (j < lo)%nat → bound j < ns) → hi = 23%nat ∨ ns <= bound hi →
  let r := bucket_loop fuel ns lo hi in (r < numBuckets)%nat ∧ (∀ j, (j < r)%nat → bound j < ns) ∧ (r = 23%nat ∨ ns <= bound r).
Proof.
  revert lo hi. induction fuel as [|fuel IH]; intros lo hi Hf Hlh Hlo Hhi; cbn [bucket_loop].
  { assert (lo = hi) as <- by lia. cbv zeta. split; [lia|by split]. }
  case_bool_decide as Hc; cbv zeta; [|assert (lo = hi) as <- by lia; split; [lia|by split]].
  assert (lo <= (lo + hi) / 2 < hi)%nat as Hm.
  { pose proof (Nat.div_mod (lo + hi) 2). pose proof (Nat.mod_upper_bound (lo + hi) 2). lia. }
  case_bool_decide as Hb.
  - apply IH; [lia|lia| |done]. intros j Hj. destruct (decide (j = (lo + hi) / 2)%nat) as [->|Hne]; [done|].
    assert (bound j < bound ((lo + hi) / 2)) by (apply bounds_mono; lia). lia.
  - apply IH; [lia|lia|done|right; lia].
Qed.

Lemma bucketFor_spec ns :
  (bucketFor ns < numBuckets)%nat ∧ (∀ j, (j < bucketFor ns)%nat → bound j < ns) ∧ (bucketFor ns = 23%nat ∨ ns <= bound (bucketFor ns)).
Proof. apply bucket_loop_spec; [unfold numBuckets; lia|unfold numBuckets; lia|intros; lia|by left]. Qed.

Lemma bucketFor_le ns i : (i < 23)%nat → (bucketFor ns <= i)%nat ↔ ns <= bound i.
Proof.
  intros Hi. destruct (bucketFor_spec ns) as (H1 & H2 & H3). revert H1 H2 H3. generalize (bucketFor ns) => b H1 H2 H3. split; intros Hb.
  - destruct H3 as [H3|H3]; [lia|]. destruct (decide (b = i)) as [->|Hne]; [done|].
    assert (bound b < bound i) by (apply bounds_mono; unfold numBuckets; lia). lia.
  - destruct (decide (b <= i)%nat) as [|Hn]; [done|]. assert (bound i < ns) by (apply H2; lia). lia.
Qed.

Lemma bucketFor_lt ns : (bucketFor ns < numBuckets)%nat.
Proof. apply bucketFor_spec. Qed.

Lemma bound_in i : (i < numBuckets)%nat → bound i ∈ boundsNs.
Proof.
  intros Hi. unfold bound. destruct (lookup_lt_is_Some_2 boundsNs i) as [x Hx]; [done|]. rewrite Hx. by eapply list_elem_of_lookup_2.
Qed.

#[local] Opaque bucketFor bound.

(** How many of [ds] satisfy [f]. *)
Definition how_many (f : Z → bool) (ds : list Z) : Z := Z.of_nat (length (filter (λ d, f d = true) ds)).

Lemma how_many_cons f d ds : how_many f (d :: ds) = (if f d then 1 else 0) + how_many f ds.
Proof. unfold how_many. rewrite filter_cons. destruct (f d); destruct (decide _); try done; cbn; lia. Qed.

Lemma how_many_bound f ds : 0 <= how_many f ds <= Z.of_nat (length ds).
Proof. induction ds as [|d ds IH]; [done|]. rewrite how_many_cons. cbn [length]. destruct (f d); lia. Qed.

Lemma how_many_mono f g ds : (∀ d, f d = true → g d = true) → how_many f ds <= how_many g ds.
Proof.
  intros H. induction ds as [|d ds IH]; [done|]. rewrite !how_many_cons. destruct (f d) eqn:E; [rewrite (H d E)|destruct (g d)]; lia.
Qed.

Lemma how_many_ext f g ds : (∀ d, f d = g d) → how_many f ds = how_many g ds.
Proof. intros H. induction ds as [|d ds IH]; [done|]. by rewrite !how_many_cons IH H. Qed.

Definition le_count (ds : list Z) (x : Z) : Z := how_many (λ d, bool_decide (d <= x)) ds.

(** The records in the buckets before [i], and in bucket [i]. *)
Definition below (ds : list Z) (i : nat) : Z := how_many (λ d, bool_decide (bucketFor d < i)%nat) ds.
Definition within (ds : list Z) (i : nat) : Z := how_many (λ d, bool_decide (bucketFor d = i)) ds.

Lemma below_0 ds : below ds 0 = 0.
Proof. unfold below. induction ds as [|d ds IH]; [done|]. rewrite how_many_cons IH bool_decide_eq_false_2 //. lia. Qed.

Lemma below_step ds i : below ds (S i) = below ds i + within ds i.
Proof.
  unfold below, within. induction ds as [|d ds IH]; [done|]. rewrite !how_many_cons IH.
  repeat case_bool_decide; lia.
Qed.

Lemma below_le ds i : (i < 23)%nat → below ds (S i) = le_count ds (bound i).
Proof.
  intros Hi. apply how_many_ext. intros d. apply bool_decide_ext. rewrite -(bucketFor_le d i Hi). lia.
Qed.

(** What the records leave. *)
Lemma record_all ds :
  Forall (λ d, 0 <= d) ds → Z.of_nat (length ds) < 2 ^ 64 →
  let h := foldl la_Record noLatencies ds in
  la_counts h = within ds <$> seq 0 numBuckets ∧ la_count h = Z.of_nat (length ds).
Proof.
  induction ds as [|d ds IH] using rev_ind; intros Hd Hl; [done|]. rewrite foldl_snoc. rewrite length_app in Hl. cbn in Hl.
  apply Forall_app in Hd as [Hd1 Hd2]. apply Forall_cons in Hd2 as [Hd2 _]. destruct IH as [I1 I2]; [done|lia|].
  unfold la_Record. rewrite bool_decide_eq_false_2; [|lia]. cbn [la_counts la_count]. rewrite I1 I2 length_app. cbn [length].
  split; [|rewrite u64_id; [lia|unfold is_u64; lia]].
  apply list_eq. intros i. rewrite list_lookup_fmap. pose proof (bucketFor_lt d) as Hb.
  assert (∀ j, within (ds ++ [d]) j = within ds j + if bool_decide (bucketFor d = j) then 1 else 0) as Hw.
  { intros j. unfold within, how_many. rewrite filter_app length_app Nat2Z.inj_add. f_equal. rewrite filter_cons.
    case_bool_decide; destruct (decide _); done. }
  destruct (decide (bucketFor d = i)) as [<-|Hne].
  - rewrite list_lookup_alter_eq list_lookup_fmap !lookup_seq_lt //=. rewrite Hw bool_decide_eq_true_2 //. f_equal. apply u64_id.
    pose proof (how_many_bound (λ x, bool_decide (bucketFor x = bucketFor d)) ds). unfold is_u64, within. lia.
  - rewrite list_lookup_alter_ne // list_lookup_fmap. destruct (seq 0 numBuckets !! i) as [j|] eqn:Ej; [|done]. cbn.
    apply lookup_seq in Ej as [-> _]. rewrite Hw bool_decide_eq_false_2 //. by rewrite Z.add_0_r.
Qed.

Lemma quantile_loop_spec ds len i target :
  (i + len = numBuckets)%nat → (0 < len)%nat → Z.of_nat (length ds) < 2 ^ 64 → below ds i < target →
  ∃ r, (r < numBuckets)%nat ∧ quantile_loop (within ds <$> seq i len) i (below ds i) target = bound r ∧
    (target <= below ds (S r) ∨ r = 23%nat) ∧ below ds r < target.
Proof.
  revert i. induction len as [|len IH]; intros i Hi H0' Hl Hb; [lia|]. cbn [seq fmap list_fmap quantile_loop].
  rewrite -below_step u64_id.
  2:{ pose proof (how_many_bound (λ d, bool_decide (bucketFor d < S i)%nat) ds). unfold is_u64, below. lia. }
  case_bool_decide as Ht; [exists i; split; [lia|]; split; [done|]; split; [by left|done]|].
  destruct len as [|len]; [|apply IH; [lia|lia|done|lia]].
  exists 23%nat. split; [unfold numBuckets; lia|]. split; [done|]. split; [by right|]. assert (i = 23%nat) as -> by (unfold numBuckets in Hi; lia). done.
Qed.

(** The latency quantiles: with [rank] the percentage of the number of
    records, rounded down and at least 1, [quantile] is the least bound that
    [rank] records do not exceed, or the last bound. *)
Theorem quantile_brackets ds pct :
  Forall (λ d, 0 <= d) ds → 100 * Z.of_nat (length ds) < 2 ^ 64 → 0 <= pct <= 100 →
  let h := foldl la_Record noLatencies ds in
  let q := quantile h (la_count h) pct in
  let rank := Z.max 1 (Z.of_nat (length ds) * pct / 100) in
  q ∈ boundsNs ∧ (rank <= le_count ds q ∨ q = bound 23) ∧ ∀ i, (i < numBuckets)%nat → bound i < q → le_count ds (bound i) < rank.
Proof.
  intros Hd Hl Hp. cbv zeta. destruct (record_all ds Hd) as [Hc Hn]; [lia|]. cbv zeta in Hc, Hn. unfold quantile. rewrite Hc Hn.
  rewrite u64_id; [|unfold is_u64; nia]. rewrite Z.quot_div_nonneg; [|nia|lia].
  set (n := Z.of_nat (length ds) * pct / 100). assert (0 <= n) as Hn0 by (apply Z.div_pos; [nia|lia]).
  assert ((if bool_decide (n = 0) then 1 else n) = Z.max 1 n) as -> by (case_bool_decide; lia).
  pose proof (below_0 ds) as E0.
  destruct (quantile_loop_spec ds numBuckets 0 (Z.max 1 n)) as (r & R1 & R2 & R3 & R4); [done|unfold numBuckets; lia|lia|lia|].
  rewrite E0 in R2. rewrite R2. split; [by apply bound_in|]. unfold numBuckets in R1. split.
  - destruct R3 as [R3|R3]; [|right; by rewrite R3]. destruct (decide (r = 23%nat)) as [->|Hne]; [by right|]. left. rewrite -below_le //. lia.
  - intros i Hi Hb. assert (i < r)%nat as Hir.
    { destruct (decide (i < r)%nat); [done|]. destruct (decide (i = r)) as [->|]; [lia|].
      assert (bound r < bound i) by (apply bounds_mono; lia). lia. }
    rewrite -below_le; [|lia]. eapply Z.le_lt_trans; [|exact R4]. apply how_many_mono. intros d. rewrite !bool_decide_eq_true. lia.
Qed.
