(* ===== verification/Sorting.v ===== *)
(** * Sorting: the [sort] package as the sources use it

    [sort.SliceStable] keeps the order of equal elements: it is the insertion
    sort below.  [sort.Slice] does not promise one: what its callers rely on is
    the class [GoSort], of which [sortStable] is an instance.  Every comparison
    of the sources is by an integer (a time, a count), the key. *)

From stdpp Require Import sorting.
From S2P Require Import Prelude.

#[local] Open Scope Z_scope.

Section stable.
Context {X : Type} (less : X → X → bool).

Fixpoint insertBy (x : X) (l : list X) : list X :=
  match l with
  | [] => [x]
  | y :: l => if less x y then x :: y :: l else y :: insertBy x l
  end.

Definition sortStable (l : list X) : list X := foldl (λ l x, insertBy x l) [] l.
End stable.

(** [less] compares by [key]. *)
Definition less_by {X} (less : X → X → bool) (key : X → Z) : Prop := ∀ a b, less a b = true ↔ key a < key b.

Abbreviation sorted_by key := (StronglySorted (λ a b, key a <= key b)).

(** [sort.Slice] *)
Class GoSort := {
  sort_Slice {X} : (X → X → bool) → list X → list X;
  sort_Slice_perm {X} (less : X → X → bool) l : sort_Slice less l ≡ₚ l;
  sort_Slice_sorted {X} (less : X → X → bool) key l : less_by less key → sorted_by key (sort_Slice less l) }.

Section facts.
Context {X : Type} (less : X → X → bool) (key : X → Z).

Lemma insertBy_perm x l : insertBy less x l ≡ₚ x :: l.
Proof. induction l as [|y l IH]; cbn; [done|]. destruct (less x y); [done|]. rewrite IH. constructor. Qed.

Lemma insertBy_sorted x l : less_by less key → sorted_by key l → sorted_by key (insertBy less x l).
Proof.
  intros Hk. induction 1 as [|y l Hs IH Hy]; cbn; [repeat constructor|]. destruct (less x y) eqn:E.
  - apply Hk in E. constructor; [by constructor|]. constructor; [lia|]. eapply Forall_impl; [done|]. cbn. lia.
  - assert (¬ key x < key y) by (intros ?%Hk; congruence). constructor; [done|]. rewrite insertBy_perm. constructor; [lia|done].
Qed.

Lemma fold_insertBy_perm acc l : foldl (λ l x, insertBy less x l) acc l ≡ₚ acc ++ l.
Proof.
  revert acc. induction l as [|x l IH]; intros acc; cbn; [by rewrite app_nil_r|]. rewrite IH insertBy_perm. by rewrite -Permutation_middle.
Qed.

Lemma sortStable_perm l : sortStable less l ≡ₚ l.
Proof. apply fold_insertBy_perm. Qed.

Lemma sortStable_sorted l : less_by less key → sorted_by key (sortStable less l).
Proof.
  intros Hk. unfold sortStable. assert (sorted_by key []) as Hn by constructor. revert Hn. generalize (@nil X).
  induction l as [|x l IH]; intros acc Ha; cbn; [done|]. by apply IH, insertBy_sorted.
Qed.

(** A sorted list stays sorted when elements are left out. *)
Lemma sorted_filter (f : X → bool) l : sorted_by key l → sorted_by key (filter (λ x, f x = true) l).
Proof.
  induction 1 as [|x l Hs IH Hx]; [constructor|]. rewrite filter_cons. destruct (decide _); [|done].
  constructor; [done|]. apply Forall_forall. intros y [_ Hy]%list_elem_of_filter. rewrite Forall_forall in Hx. by apply Hx.
Qed.
End facts.

#[export] Instance stable_sort : GoSort := {
  sort_Slice X := sortStable;
  sort_Slice_perm X := sortStable_perm;
  sort_Slice_sorted X := sortStable_sorted }.
