(* ===== verification/Clock.v ===== *)
(** * Clock: the controllable clock of tests ([clock.go])

    [FakeClock] and its timers.  A timer is a shared object, so the clock keeps
    them in a store and [timers] lists their names.  [Set] collects the due
    timers under the lock and runs their callbacks after it, when other calls
    (those of the callbacks too) may come in between: a step is one locked
    section or one callback.  [RealClock] only calls the [time] package. *)

From stdpp Require Import sorting.
From S2P Require Import Prelude Sorting.

#[local] Open Scope Z_scope.

(** ** The model *)

Record fakeTimer := FakeTimer { ft_deadline : Z; ft_active : bool; ft_inList : bool }.

(** [fc_running] holds the timers that [Set] has collected and not fired yet. *)
Record FakeClock := FakeClockMk {
  fc_now : Z; fc_timers : list positive; fc_store : gmap positive fakeTimer; fc_running : list positive }.

(** The zero [time.Time] is None. *)
Definition NewFakeClock (t : option Z) : FakeClock := FakeClockMk (default 0 t) [] ∅ [].

Definition deadlineOf (c : FakeClock) (i : positive) : Z := from_option ft_deadline 0 (fc_store c !! i).

(** The comparison that [collectDueLocked] sorts by. *)
Definition earlier (c : FakeClock) (i j : positive) : bool := bool_decide (deadlineOf c i < deadlineOf c j).

Definition off (ft : fakeTimer) : fakeTimer := FakeTimer (ft_deadline ft) false false.

(** The loop of [collectDueLocked]: what it keeps, what is due, the store. *)
Fixpoint collect (t : Z) (l : list positive) (st : gmap positive fakeTimer) : list positive * list positive * gmap positive fakeTimer :=
  match l with
  | [] => ([], [], st)
  | i :: l =>
      match st !! i with
      | None => collect t l st
      | Some ft =>
          if negb (ft_active ft) then collect t l (<[i := off ft]> st)
          else if bool_decide (ft_deadline ft <= t) then
            let '(keep, due, st) := collect t l (<[i := off ft]> st) in (keep, i :: due, st)
          else let '(keep, due, st) := collect t l st in (i :: keep, due, st)
      end
  end.

Definition collectDueLocked (c : FakeClock) (t : Z) : FakeClock * list positive :=
  let '(keep, due, st) := collect t (sortStable (earlier c) (fc_timers c)) (fc_store c) in
  (FakeClockMk (fc_now c) keep st (fc_running c), due).

(** [Set] up to the callbacks. *)
Definition Set_fc (c : FakeClock) (t : Z) : FakeClock * list positive :=
  if bool_decide (t < fc_now c) then (c, [])
  else
    let '(c, due) := collectDueLocked (FakeClockMk t (fc_timers c) (fc_store c) (fc_running c)) t in
    (FakeClockMk (fc_now c) (fc_timers c) (fc_store c) (fc_running c ++ due), due).

Definition Advance_fc (c : FakeClock) (d : Z) : FakeClock * list positive :=
  if bool_decide (d <= 0) then (c, []) else Set_fc c (fc_now c + d).

Definition AfterFunc (c : FakeClock) (d : Z) : FakeClock * positive :=
  let i := fresh (dom (fc_store c)) in
  (FakeClockMk (fc_now c) (fc_timers c ++ [i]) (<[i := FakeTimer (fc_now c + d) true true]> (fc_store c)) (fc_running c), i).

(** The next callback runs. *)
Definition fire (c : FakeClock) : FakeClock * option positive :=
  match fc_running c with
  | [] => (c, None)
  | i :: r => (FakeClockMk (fc_now c) (fc_timers c) (fc_store c) r, Some i)
  end.

Definition Stop_ft (c : FakeClock) (i : positive) : FakeClock * bool :=
  match fc_store c !! i with
  | None => (c, false)
  | Some ft =>
      (FakeClockMk (fc_now c) (fc_timers c) (<[i := FakeTimer (ft_deadline ft) false (ft_inList ft)]> (fc_store c)) (fc_running c),
       ft_active ft)
  end.

Definition Reset_ft (c : FakeClock) (i : positive) (d : Z) : FakeClock * bool :=
  match fc_store c !! i with
  | None => (c, false)
  | Some ft =>
      (FakeClockMk (fc_now c) (if ft_inList ft then fc_timers c else fc_timers c ++ [i])
         (<[i := FakeTimer (fc_now c + d) true true]> (fc_store c)) (fc_running c),
       ft_active ft)
  end.

(** ** Runs *)

Inductive clockOp := CSet (t : Z) | CAdvance (d : Z) | CAfter (d : Z) | CFire | CStop (i : positive) | CReset (i : positive) (d : Z).

(** What became of the armings of each timer, as its callers see it: armed by
    [AfterFunc] or [Reset], fired, cancelled by a [Stop] that returned true,
    replaced by a [Reset] that returned true. *)
Record ledger := Ledger { armed : positive → nat; fired : positive → nat; cancelled : positive → nat; replaced : positive → nat }.

Definition bump (f : positive → nat) (i : positive) (b : bool) : positive → nat :=
  λ j, if decide (i = j) then (f j + Nat.b2n b)%nat else f j.

Definition clock_step (cl : FakeClock * ledger) (o : clockOp) : FakeClock * ledger :=
  let '(c, l) := cl in
  match o with
  | CSet t => ((Set_fc c t).1, l)
  | CAdvance d => ((Advance_fc c d).1, l)
  | CAfter d => let '(c, i) := AfterFunc c d in (c, Ledger (bump (armed l) i true) (fired l) (cancelled l) (replaced l))
  | CFire =>
      let '(c, r) := fire c in
      (c, match r with Some i => Ledger (armed l) (bump (fired l) i true) (cancelled l) (replaced l) | None => l end)
  | CStop i => let '(c, b) := Stop_ft c i in (c, Ledger (armed l) (fired l) (bump (cancelled l) i b) (replaced l))
  | CReset i d =>
      let known := bool_decide (is_Some (fc_store c !! i)) in
      let '(c, b) := Reset_ft c i d in (c, Ledger (bump (armed l) i known) (fired l) (cancelled l) (bump (replaced l) i b))
  end.

Definition clock_run (t0 : option Z) (ops : list clockOp) : FakeClock * ledger :=
  foldl clock_step (NewFakeClock t0, Ledger (λ _, 0%nat) (λ _, 0%nat) (λ _, 0%nat) (λ _, 0%nat)) ops.

(** ** The invariant *)

(** [timers] lists a timer once, exactly when its mark says so, and every
    active timer is listed. *)
Record clock_ok (c : FakeClock) : Prop := ClockOk {
  ck_nodup : NoDup (fc_timers c);
  ck_listed i : i ∈ fc_timers c ↔ ∃ ft, fc_store c !! i = Some ft ∧ ft_inList ft = true;
  ck_active i ft : fc_store c !! i = Some ft → ft_active ft = true → ft_inList ft = true }.

(** Armed, and due at [t] or later than [t]. *)
Definition is_due (t : Z) (st : gmap positive fakeTimer) (i : positive) : bool :=
  from_option (λ ft, ft_active ft && bool_decide (ft_deadline ft <= t)) false (st !! i).

Definition is_late (t : Z) (st : gmap positive fakeTimer) (i : positive) : bool :=
  from_option (λ ft, ft_active ft && bool_decide (t < ft_deadline ft)) false (st !! i).

Lemma filter_same (f g : positive → bool) (l : list positive) :
  (∀ i, i ∈ l → f i = g i) → filter (λ i, f i = true) l = filter (λ i, g i = true) l.
Proof.
  induction l as [|i l IH]; intros H; [done|]. rewrite !filter_cons (H i); [|by left]. rewrite IH; [done|]. intros; apply H; by right.
Qed.

(** Switching a timer off that is not in the list is not seen in the list. *)
Lemma off_apart t st i ft (l : list positive) : i ∉ l →
  (∀ j, j ∈ l → is_late t (<[i:=ft]> st) j = is_late t st j) ∧ (∀ j, j ∈ l → is_due t (<[i:=ft]> st) j = is_due t st j).
Proof. intros Hi. split; intros j Hj; unfold is_late, is_due; rewrite lookup_insert_ne //; by intros ->. Qed.

(** The loop over a list without repetition: what it keeps, what is due, and
    the timers it leaves switched off. *)
Record collected (t : Z) (l : list positive) (st : gmap positive fakeTimer) (r : list positive * list positive * gmap positive fakeTimer) : Prop := Collected {
  co_keep : r.1.1 = filter (λ i, is_late t st i = true) l;
  co_due : r.1.2 = filter (λ i, is_due t st i = true) l;
  co_off i : i ∈ l → is_late t st i = false → r.2 !! i = off <$> st !! i;
  co_rest i : i ∉ l ∨ is_late t st i = true → r.2 !! i = st !! i }.

Lemma collected_off t i l st ft keep due st' :
  i ∉ l → st !! i = Some ft → is_late t st i = false →
  collected t l (<[i := off ft]> st) (keep, due, st') →
  collected t (i :: l) st (keep, if is_due t st i then i :: due else due, st').
Proof.
  intros Hi Hft Hlate [H1 H2 H3 H4]; cbn in *. destruct (off_apart t st i (off ft) l Hi) as [O1 O2].
  assert (∀ j, j ≠ i → is_late t (<[i:=off ft]> st) j = is_late t st j) as O3.
  { intros j Hj. unfold is_late. by rewrite lookup_insert_ne. }
  split; cbn; rewrite ?filter_cons.
  - rewrite decide_False; [|by rewrite Hlate]. rewrite H1. by apply filter_same.
  - rewrite H2 (filter_same _ _ _ O2). by destruct (is_due t st i).
  - intros j [->|Hj]%elem_of_cons Hl; [rewrite H4; [by rewrite lookup_insert_eq Hft|by left]|].
    assert (j ≠ i) by (by intros ->). rewrite H3 //; [by rewrite lookup_insert_ne|by rewrite O3].
  - intros j Hj. assert (j ≠ i) by (intros ->; destruct Hj as [Hj|Hj]; [by destruct Hj; left|congruence]).
    rewrite H4; [by rewrite lookup_insert_ne|]. rewrite O3 //. destruct Hj as [Hj|Hj]; [left; contradict Hj; by right|by right].
Qed.

Lemma collected_on t i l st keep due st' :
  i ∉ l → st !! i = None ∨ is_late t st i = true → collected t l st (keep, due, st') →
  collected t (i :: l) st (if is_late t st i then i :: keep else keep, due, st').
Proof.
  intros Hi Hs [H1 H2 H3 H4]; cbn in *. assert (is_due t st i = false) as Hd.
  { unfold is_due, is_late in *. destruct (st !! i) as [ft|]; cbn in *; [|done]. destruct Hs as [|[-> Hb%bool_decide_eq_true]%andb_true_iff]; [done|].
    apply bool_decide_eq_false. lia. }
  split; cbn; rewrite ?filter_cons.
  - rewrite H1. by destruct (is_late t st i).
  - by rewrite decide_False ?Hd.
  - intros j [->|Hj]%elem_of_cons Hl; [|by apply H3]. destruct Hs as [Hs|Hs]; [|congruence]. rewrite H4; [by rewrite Hs|by left].
  - intros j [Hj|Hj]; apply H4; [left; contradict Hj; by right|by right].
Qed.

Lemma collect_spec t l st : NoDup l → collected t l st (collect t l st).
Proof.
  intros Hl. revert st. induction Hl as [|i l Hi Hl IH]; intros st; cbn [collect].
  { split; cbn; [done|done|by intros i ?%not_elem_of_nil|done]. }
  destruct (st !! i) as [ft|] eqn:Hft.
  - assert (is_late t st i = ft_active ft && bool_decide (t < ft_deadline ft)) as Ea by (unfold is_late; by rewrite Hft).
    assert (is_due t st i = ft_active ft && bool_decide (ft_deadline ft <= t)) as Eb by (unfold is_due; by rewrite Hft).
    destruct (ft_active ft); cbn [negb andb] in *.
    + rewrite -Eb. destruct (is_due t st i) eqn:Ed; symmetry in Eb;
        [apply bool_decide_eq_true in Eb; rewrite bool_decide_eq_false_2 in Ea; [|lia]
        |apply bool_decide_eq_false in Eb; rewrite bool_decide_eq_true_2 in Ea; [|lia]].
      * specialize (IH (<[i:=off ft]> st)). destruct (collect t l (<[i:=off ft]> st)) as [[keep due] st'].
        apply (collected_off t i) in IH; [|done..]. by rewrite Ed in IH.
      * specialize (IH st). destruct (collect t l st) as [[keep due] st']. apply (collected_on t i) in IH; [|by auto..]. by rewrite Ea in IH.
    + specialize (IH (<[i:=off ft]> st)). destruct (collect t l (<[i:=off ft]> st)) as [[keep due] st'].
      apply (collected_off t i) in IH; [|done..]. by rewrite Eb in IH.
  - specialize (IH st). destruct (collect t l st) as [[keep due] st']. apply (collected_on t i) in IH; [|by auto..].
    unfold is_late in IH. by rewrite Hft in IH.
Qed.

Definition is_active (c : FakeClock) (i : positive) : bool := from_option ft_active false (fc_store c !! i).

Lemma active_split t c i : is_active c i = is_due t (fc_store c) i || is_late t (fc_store c) i.
Proof.
  unfold is_active, is_due, is_late. destruct (fc_store c !! i) as [ft|]; cbn; [|done]. destruct (ft_active ft); cbn; [|done].
  destruct (decide (ft_deadline ft <= t)); [rewrite bool_decide_eq_true_2 //|]. rewrite (bool_decide_eq_true_2 (t < _)); [by rewrite orb_true_r|lia].
Qed.

(** The invariant speaks of the list and the store only. *)
Lemma clock_ok_frame c now running : clock_ok c → clock_ok (FakeClockMk now (fc_timers c) (fc_store c) running).
Proof. by intros [H1 H2 H3]. Qed.

(** What [Set] does when time does not run backwards. *)
Record set_ok (c : FakeClock) (t : Z) (c' : FakeClock) (due : list positive) : Prop := SetOk {
  se_ok : clock_ok c';
  se_now : fc_now c' = t;
  se_nodup : NoDup due;
  se_due i : i ∈ due ↔ is_active c i = true ∧ deadlineOf c i <= t;
  se_sorted : sorted_by (deadlineOf c) due;
  se_active i : is_active c' i = is_active c i && bool_decide (t < deadlineOf c i);
  se_deadline i : deadlineOf c' i = deadlineOf c i;
  se_running : fc_running c' = fc_running c ++ due }.

Lemma is_due_spec t c i : is_due t (fc_store c) i = true ↔ is_active c i = true ∧ deadlineOf c i <= t.
Proof.
  unfold is_due, is_active, deadlineOf. destruct (fc_store c !! i) as [ft|]; cbn; [|naive_solver].
  by rewrite andb_true_iff bool_decide_eq_true.
Qed.

Lemma is_late_spec t c i : is_late t (fc_store c) i = is_active c i && bool_decide (t < deadlineOf c i).
Proof. unfold is_late, is_active, deadlineOf. by destruct (fc_store c !! i). Qed.

Lemma earlier_by c : less_by (earlier c) (deadlineOf c).
Proof. intros i j. apply bool_decide_eq_true. Qed.

Lemma Set_spec c t c' due : clock_ok c → fc_now c <= t → Set_fc c t = (c', due) → set_ok c t c' due.
Proof.
  intros [H1 H2 H3] Ht. unfold Set_fc, collectDueLocked. rewrite bool_decide_eq_false_2; [|lia]. cbn -[sortStable earlier].
  change (earlier {| fc_now := t; fc_timers := fc_timers c; fc_store := fc_store c; fc_running := fc_running c |}) with (earlier c).
  pose proof (sortStable_perm (earlier c) (fc_timers c)) as Sp.
  pose proof (sortStable_sorted (earlier c) (deadlineOf c) (fc_timers c) (earlier_by c)) as Ss. revert Sp Ss. generalize (sortStable (earlier c) (fc_timers c)) => l Sp Ss.
  assert (NoDup l) as Hl by (by rewrite Sp). pose proof (collect_spec t l (fc_store c) Hl) as Hc.
  destruct (collect t l (fc_store c)) as [[keep due'] st']. cbn. intros [= <- <-].
  destruct Hc as [E1 E2 C3 C4]. cbn in E1, E2, C3, C4. subst keep due'.
  assert (Hin : ∀ i, i ∈ l ↔ ∃ ft, fc_store c !! i = Some ft ∧ ft_inList ft = true) by (intros i; rewrite Sp; apply H2).
  assert (Hlate : ∀ i, is_late t (fc_store c) i = true → i ∈ l).
  { intros i Hi. apply Hin. unfold is_late in Hi. destruct (fc_store c !! i) as [ft|] eqn:E; [|done]. cbn in Hi.
    apply andb_true_iff in Hi as [Ha _]. exists ft. split; [done|]. by eapply H3. }
  assert (Hst : ∀ i, st' !! i = if is_late t (fc_store c) i then fc_store c !! i else if bool_decide (i ∈ l) then off <$> fc_store c !! i else fc_store c !! i).
  { intros i. destruct (is_late t (fc_store c) i) eqn:E; [apply C4; by right|]. case_bool_decide; [by apply C3|]. apply C4. by left. }
  assert (Hout : ∀ i ft, fc_store c !! i = Some ft → i ∉ l → ft_active ft = false ∧ ft_inList ft = false).
  { intros i ft Hi Hn. destruct (ft_inList ft) eqn:E; [destruct Hn; apply Hin; eauto|]. destruct (ft_active ft) eqn:E'; [|done].
    by rewrite (H3 i ft) in E. }
  split; cbn.
  - split; cbn; [by apply NoDup_filter| |].
    + intros i. rewrite list_elem_of_filter Hst. split.
      * intros [Hi Hil]. rewrite Hi. by apply Hin.
      * intros (ft & Hft & Hf). destruct (is_late t (fc_store c) i) eqn:E; [by auto|]. exfalso.
        case_bool_decide as Hil; [destruct (fc_store c !! i); cbn in Hft; [injection Hft as <-|]; done|].
        destruct (Hout i ft) as [_ ?]; [done..|congruence].
    + intros i ft. rewrite Hst. destruct (is_late t (fc_store c) i); [apply H3|]. case_bool_decide; [|apply H3].
      destruct (fc_store c !! i); cbn; intros [= <-]; done.
  - done.
  - by apply NoDup_filter.
  - intros i. rewrite list_elem_of_filter is_due_spec. split; [tauto|]. intros [Ha Hd]. split; [done|]. apply Hin.
    unfold is_active in Ha. destruct (fc_store c !! i) as [ft|] eqn:E; [|done]. exists ft. split; [done|]. by eapply H3.
  - by apply sorted_filter.
  - intros i. rewrite -is_late_spec. unfold is_active. cbn. rewrite Hst. destruct (is_late t (fc_store c) i) eqn:E.
    + unfold is_late in E. destruct (fc_store c !! i); cbn in *; [|done]. by apply andb_true_iff in E as [-> _].
    + case_bool_decide; [by destruct (fc_store c !! i)|]. destruct (fc_store c !! i) as [ft|] eqn:Ei; cbn; [|done]. by eapply Hout.
  - intros i. unfold deadlineOf. cbn. rewrite Hst. destruct (is_late t (fc_store c) i); [done|]. case_bool_decide; [|done].
    by destruct (fc_store c !! i).
  - done.
Qed.

(** ** The other operations *)

Lemma clock_ok_update c i ft ft' timers :
  clock_ok c → fc_store c !! i = Some ft → (ft_active ft' = true → ft_inList ft' = true) →
  timers = (if ft_inList ft' then if ft_inList ft then fc_timers c else fc_timers c ++ [i] else fc_timers c) →
  (ft_inList ft = true → ft_inList ft' = true) →
  clock_ok (FakeClockMk (fc_now c) timers (<[i := ft']> (fc_store c)) (fc_running c)).
Proof.
  intros [H1 H2 H3] Hi Ha -> Hl.
  assert (Hin : i ∈ fc_timers c ↔ ft_inList ft = true) by (rewrite H2; naive_solver).
  split; cbn.
  - destruct (ft_inList ft'), (ft_inList ft); try done. apply NoDup_app. split; [done|]. split; [|apply NoDup_singleton].
    intros j Hj ->%list_elem_of_singleton. by apply Hin in Hj.
  - intros j. destruct (decide (j = i)) as [->|Hj].
    + assert ((∃ x, <[i:=ft']> (fc_store c) !! i = Some x ∧ ft_inList x = true) ↔ ft_inList ft' = true) as ->.
      { rewrite lookup_insert_eq. split; [by intros (x & [= <-] & ?)|eauto]. }
      destruct (ft_inList ft'), (ft_inList ft); rewrite ?elem_of_app ?list_elem_of_singleton ?Hin; intuition.
    + rewrite lookup_insert_ne // -H2. destruct (ft_inList ft'), (ft_inList ft); rewrite ?elem_of_app ?list_elem_of_singleton; intuition.
  - intros j ftj. rewrite lookup_insert_Some. intros [[<- <-]|[_ Hj]]; [done|by eapply H3].
Qed.

Lemma AfterFunc_ok c d : clock_ok c → clock_ok (AfterFunc c d).1 ∧ fc_store c !! (AfterFunc c d).2 = None.
Proof.
  intros [H1 H2 H3]. cbn. set (i := fresh (dom (fc_store c))).
  assert (Hf : fc_store c !! i = None) by (apply not_elem_of_dom, is_fresh). split; [|done].
  assert (Hn : i ∉ fc_timers c) by (rewrite H2; naive_solver).
  split; cbn.
  - apply NoDup_app. split; [done|]. split; [|apply NoDup_singleton]. by intros j Hj ->%list_elem_of_singleton.
  - intros j. rewrite elem_of_app list_elem_of_singleton H2. destruct (decide (j = i)) as [->|Hj];
      [rewrite lookup_insert_eq; split; [by eexists|by right]|rewrite lookup_insert_ne //; intuition].
  - intros j ftj. rewrite lookup_insert_Some. intros [[<- <-]|[_ Hj]]; [done|by eapply H3].
Qed.

(** ** Every arming comes to one end *)

Definition count (l : list positive) (i : positive) : nat := length (filter (λ j, bool_decide (j = i) = true) l).

#[local] Arguments count : simpl never.

Lemma count_app l1 l2 i : count (l1 ++ l2) i = (count l1 i + count l2 i)%nat.
Proof. unfold count. by rewrite filter_app length_app. Qed.

Lemma count_cons j l i : count (j :: l) i = (Nat.b2n (bool_decide (j = i)) + count l i)%nat.
Proof. unfold count. rewrite filter_cons. by destruct (bool_decide (j = i)). Qed.

Lemma count_nodup l i : NoDup l → count l i = Nat.b2n (bool_decide (i ∈ l)).
Proof.
  induction 1 as [|j l Hj _ IH]; [done|]. rewrite count_cons IH. destruct (decide (j = i)) as [->|Hne].
  - rewrite (bool_decide_eq_true_2 (i = i)) // (bool_decide_eq_false_2 (i ∈ l)) // bool_decide_eq_true_2 //. by left.
  - rewrite (bool_decide_eq_false_2 (j = i)) //. cbn [Nat.b2n Nat.add]. f_equal. apply bool_decide_ext. rewrite elem_of_cons. naive_solver.
Qed.

Definition balanced (cl : FakeClock * ledger) : Prop :=
  ∀ i, armed cl.2 i = (fired cl.2 i + cancelled cl.2 i + replaced cl.2 i + Nat.b2n (is_active cl.1 i) + count (fc_running cl.1) i)%nat.

Lemma Set_balanced c l t : clock_ok c → balanced (c, l) → clock_ok (Set_fc c t).1 ∧ balanced ((Set_fc c t).1, l).
Proof.
  intros Hc Hb. destruct (Z.lt_ge_cases t (fc_now c)) as [Ht|Ht]; [unfold Set_fc; by rewrite bool_decide_eq_true_2|].
  destruct (Set_fc c t) as [c' due] eqn:E. destruct (Set_spec c t c' due Hc Ht E) as [S1 _ S3 S4 _ S6 _ S8]. split; [done|].
  intros i. cbn. rewrite S6 S8 count_app (count_nodup due) //. specialize (Hb i). cbn in Hb. rewrite Hb.
  destruct (is_active c i) eqn:Ea; cbn; [|rewrite bool_decide_eq_false_2; [cbn; lia|intros [? _]%S4; congruence]].
  case_bool_decide as E1; case_bool_decide as E2; cbn; try lia; rewrite S4 in E2; [lia|]. destruct E2. split; [done|lia].
Qed.

Lemma is_active_insert c i ft timers now running j :
  is_active (FakeClockMk now timers (<[i := ft]> (fc_store c)) running) j = if decide (i = j) then ft_active ft else is_active c j.
Proof. unfold is_active. cbn. destruct (decide (i = j)) as [->|Hj]; [by rewrite lookup_insert_eq|by rewrite lookup_insert_ne]. Qed.

Lemma clock_step_ok cl o : clock_ok cl.1 → balanced cl → clock_ok (clock_step cl o).1 ∧ balanced (clock_step cl o).
Proof.
  destruct cl as [c l]. cbn [fst]. intros Hc Hb. destruct o as [t|d|d| |i|i d]; cbn [clock_step].
  - by apply Set_balanced.
  - unfold Advance_fc. case_bool_decide; [done|]. by apply Set_balanced.
  - destruct (AfterFunc_ok c d Hc) as [H1 H2]. cbn in *. split; [done|]. intros j. specialize (Hb j). cbn in *.
    rewrite is_active_insert. unfold bump. destruct (decide (_ = j)) as [<-|]; [|done]. cbn. rewrite Hb.
    unfold is_active. rewrite H2. cbn. lia.
  - unfold fire. destruct (fc_running c) as [|i r] eqn:Er; [done|]. cbn. split; [by apply clock_ok_frame|]. intros j. specialize (Hb j).
    cbn in *. rewrite Hb Er count_cons. unfold bump, is_active. cbn. destruct (decide (i = j)) as [->|];
      [rewrite bool_decide_eq_true_2 //; cbn; lia|by rewrite bool_decide_eq_false_2].
  - unfold Stop_ft. destruct (fc_store c !! i) as [ft|] eqn:Ei; cbn.
    + split; [eapply clock_ok_update; [done..|by cbn| |done]; cbn; by destruct (ft_inList ft)|]. intros j. specialize (Hb j). cbn in *.
      rewrite is_active_insert Hb. unfold bump. destruct (decide (i = j)) as [->|]; [|done]. unfold is_active. rewrite Ei. cbn. lia.
    + split; [done|]. intros j. specialize (Hb j). cbn in *. unfold bump. destruct (decide (i = j)); cbn; lia.
  - unfold Reset_ft. destruct (fc_store c !! i) as [ft|] eqn:Ei; cbn.
    + split; [eapply clock_ok_update; [done..|by cbn| |done]; cbn; by destruct (ft_inList ft)|]. intros j. specialize (Hb j). cbn in *.
      rewrite is_active_insert. unfold bump. destruct (decide (i = j)) as [->|]; [|done]. rewrite Hb. unfold is_active. rewrite Ei. cbn. lia.
    + split; [done|]. intros j. specialize (Hb j). cbn in *. unfold bump. destruct (decide (i = j)); cbn; lia.
Qed.

(** C21: the fake clock after any interleaving of calls and callbacks: time
    never runs backwards; [Set] fires the timers that are armed and due, no
    other and each once, in the order of their deadlines; and every arming of
    a timer comes to one end: it fired, a [Stop] that returned true cancelled
    it, a [Reset] that returned true replaced it, it waits for its callback,
    or it is still armed. *)
Theorem fake_clock_fires t0 ops t :
  let '(c, l) := clock_run t0 ops in
  balanced (c, l) ∧
  let '(c', due) := Set_fc c t in
  if bool_decide (t < fc_now c) then c' = c ∧ due = [] else set_ok c t c' due.
Proof.
  assert (clock_ok (clock_run t0 ops).1 ∧ balanced (clock_run t0 ops)) as [Hc Hb].
  { unfold clock_run. induction ops as [|o ops IH] using rev_ind; [|rewrite foldl_snoc; destruct IH; by apply clock_step_ok].
    split; [split; cbn; [constructor| |done]|done]. intros i. rewrite elem_of_nil lookup_empty. naive_solver. }
  destruct (clock_run t0 ops) as [c l]. split; [done|]. destruct (Set_fc c t) as [c' due] eqn:E. case_bool_decide as Ht.
  - unfold Set_fc in E. rewrite bool_decide_eq_true_2 // in E. by injection E as <- <-.
  - apply Set_spec; [done|cbn in *; lia|done].
Qed.
