(* ===== verification/Store.v ===== *)
(** * Store: the backend behind a cache ([store.go])

    [Store] and [TTLStore] are Go interfaces: here the class [Store], whose
    [sto_TTL] is there when the backend is a [TTLStore], and [BackingLaws],
    what a cache relies on.  Contexts are left out: the cache calls with the
    background context, and an ended context shows as an error.

    [MemoryStore], the backend the package ships, is an instance.  Shown here:
    it is a map whose records hide themselves when they expire, and the sweep
    that [Set] runs now and then is invisible ([memory_store_refines]). *)

From S2P Require Import Prelude.

#[local] Open Scope Z_scope.

(** An error of a backend, by what [errors.Is] finds. *)
Inductive storeErr := StoreClosed | StoreFailed (code : Z).

Class Store (K V S : Type) := {
  sto_Get : S → K → (storeErr + option V) * S;
  sto_Set : S → K → V → Z → option storeErr * S;
  sto_Delete : S → K → (storeErr + bool) * S;
  (** [None] unless the backend is a [TTLStore]; a TTL of 0 is no expiry. *)
  sto_TTL : option (S → K → (storeErr + option Z) * S)
}.

(** Every record of [s'] is one of [s]. *)
Definition fewer {K V} (f' f : K → option V) : Prop := ∀ k v, f' k = Some v → f k = Some v.

#[export] Instance fewer_preorder {K V} : PreOrder (@fewer K V).
Proof. split; [by intros f k v|]. intros f g h H1 H2 k v Hk. by apply H2, H1. Qed.

(** [sto_val s k] is the record of [k], expired or not.  A record may vanish
    at any time, since records expire; a write that failed may or may not
    have taken effect. *)
Class BackingLaws (K V S : Type) `{Store K V S} := {
  sto_val : S → K → option V;
  sto_get_ok s k :
    let '(r, s') := sto_Get s k in
    fewer (sto_val s') (sto_val s) ∧ ∀ v, r = inr (Some v) → sto_val s k = Some v;
  sto_set_ok s k v ttl :
    let '(e, s') := sto_Set s k v ttl in
    (∀ k' v', sto_val s' k' = Some v' → k' ≠ k → sto_val s k' = Some v') ∧
    ∀ v', sto_val s' k = Some v' → v' = v ∨ (e ≠ None ∧ sto_val s k = Some v');
  sto_delete_ok s k :
    let '(r, s') := sto_Delete s k in
    fewer (sto_val s') (sto_val s) ∧ ∀ b, r = inr b → sto_val s' k = None;
  sto_ttl_ok f s k : sto_TTL = Some f → fewer (sto_val (f s k).2) (sto_val s)
}.

(** ** [MemoryStore] *)

Section memory.
Context {K V : Type} `{Countable K}.

Record storedEntry := StoredEntry { se_value : V; se_expireAt : Z (* 0 = no TTL *) }.

(** [mst_clock] is the clock it was built with, read [mst_tick] times. *)
Record MemoryStore := MkMemoryStore {
  mst_entries : gmap K storedEntry;
  mst_clock : nat → Z;
  mst_tick : nat;
  mst_closed : bool;
  mst_sets : Z
}.

Implicit Types (m : MemoryStore) (e : storedEntry) (k : K) (v : V).

Definition NewMemoryStore (clock : nat → Z) : MemoryStore := MkMemoryStore ∅ clock 0 false 0.

Definition mst_update m (entries : gmap K storedEntry) (sets : Z) : MemoryStore :=
  MkMemoryStore entries (mst_clock m) (mst_tick m) (mst_closed m) sets.

(** [m.clock.Now().UnixNano()] *)
Definition mst_now m : Z * MemoryStore :=
  (mst_clock m (mst_tick m), MkMemoryStore (mst_entries m) (mst_clock m) (S (mst_tick m)) (mst_closed m) (mst_sets m)).

Definition se_expired e (now : Z) : bool := bool_decide (se_expireAt e ≠ 0) && bool_decide (se_expireAt e <= now).

Definition mst_Get m k : (storeErr + option V) * MemoryStore :=
  if mst_closed m then (inl StoreClosed, m)
  else match mst_entries m !! k with
       | None => (inr None, m)
       | Some e =>
           if bool_decide (se_expireAt e ≠ 0) then
             let '(now, m) := mst_now m in
             (inr (if bool_decide (se_expireAt e <= now) then None else Some (se_value e)), m)
           else (inr (Some (se_value e)), m)
       end.

Definition mst_TTL m k : (storeErr + option Z) * MemoryStore :=
  if mst_closed m then (inl StoreClosed, m)
  else match mst_entries m !! k with
       | None => (inr None, m)
       | Some e =>
           if bool_decide (se_expireAt e = 0) then (inr (Some 0), m)
           else
             let '(now, m) := mst_now m in
             let left := i64 (se_expireAt e - now) in
             (inr (if bool_decide (left <= 0) then None else Some left), m)
       end.

(** The sweep drops what has expired. *)
Definition mst_sweep m : MemoryStore :=
  let '(now, m) := mst_now m in
  mst_update m (filter (λ ke, se_expired ke.2 now = false) (mst_entries m)) 0.

Definition mst_Set m k v (ttl : Z) : option storeErr * MemoryStore :=
  let '(expireAt, m) := if bool_decide (0 < ttl) then let '(now, m) := mst_now m in (i64 (now + ttl), m) else (0, m) in
  if mst_closed m then (Some StoreClosed, m)
  else
    let m := mst_update m (<[k := StoredEntry v expireAt]> (mst_entries m)) (mst_sets m + 1) in
    if bool_decide (Z.max (Z.of_nat (size (mst_entries m))) 64 <= mst_sets m) then (None, mst_sweep m) else (None, m).

Definition mst_Delete m k : (storeErr + bool) * MemoryStore :=
  if mst_closed m then (inl StoreClosed, m)
  else match mst_entries m !! k with
       | None => (inr false, m)
       | Some _ => (inr true, mst_update m (delete k (mst_entries m)) (mst_sets m))
       end.

(** The loop of [Iterate]; [fn] threads the caller's state. *)
Fixpoint iterate_loop {R} (fn : K → V → R → R * bool) (now : Z) (l : list (K * storedEntry)) (r : R) : R :=
  match l with
  | [] => r
  | (k, e) :: l =>
      if se_expired e now then iterate_loop fn now l r
      else let '(r, go) := fn k (se_value e) r in if go then iterate_loop fn now l r else r
  end.

Definition mst_Iterate {R} m (fn : K → V → R → R * bool) (r : R) : (storeErr + R) * MemoryStore :=
  if mst_closed m then (inl StoreClosed, m)
  else let '(now, m) := mst_now m in (inr (iterate_loop fn now (map_to_list (mst_entries m)) r), m).

Definition mst_Len m : (storeErr + Z) * MemoryStore :=
  if mst_closed m then (inl StoreClosed, m)
  else
    let '(now, m) := mst_now m in
    (inr (foldl (λ count (ke : K * storedEntry),
            if bool_decide (se_expireAt ke.2 = 0) || bool_decide (now < se_expireAt ke.2) then count + 1 else count)
          0 (map_to_list (mst_entries m))), m).

Definition mst_Close m : MemoryStore :=
  if mst_closed m then m else MkMemoryStore ∅ (mst_clock m) (mst_tick m) true (mst_sets m).

#[export] Instance MemoryStore_store : Store K V MemoryStore := {
  sto_Get := mst_Get; sto_Set := mst_Set; sto_Delete := mst_Delete; sto_TTL := Some mst_TTL }.

(** *** The backend as a map *)

Lemma sweep_entries m k e :
  mst_entries (mst_sweep m) !! k = Some e → mst_entries m !! k = Some e.
Proof. intros [? _]%map_lookup_filter_Some. done. Qed.

#[export] Program Instance MemoryStore_laws : BackingLaws K V MemoryStore :=
  { sto_val m k := se_value <$> mst_entries m !! k }.
Next Obligation.
  intros m k. cbn. unfold mst_Get. destruct (mst_closed m); [by split|].
  destruct (mst_entries m !! k) as [e|] eqn:E; [|by split].
  case_bool_decide; cbn; (split; [done|]); intros v; [case_bool_decide; [done|]|]; by intros [= <-].
Qed.
Next Obligation.
  intros m k v ttl. cbn. unfold mst_Set. set (x := if bool_decide (0 < ttl) then _ else _).
  assert (mst_entries x.2 = mst_entries m) as Hx by (subst x; by case_bool_decide).
  destruct x as [expireAt m0]. cbn in Hx. destruct (mst_closed m0).
  { rewrite Hx. split; [done|]. by right. }
  set (m1 := mst_update m0 _ _).
  assert (∀ m2 : MemoryStore, (∀ k e, mst_entries m2 !! k = Some e → mst_entries m1 !! k = Some e) →
    (∀ k' v', se_value <$> mst_entries m2 !! k' = Some v' → k' ≠ k → se_value <$> mst_entries m !! k' = Some v') ∧
    ∀ v', se_value <$> mst_entries m2 !! k = Some v' →
      v' = v ∨ ((None : option storeErr) ≠ None ∧ se_value <$> mst_entries m !! k = Some v')) as Hsub.
  { intros m2 Hs. split.
    - intros k' v' (e & He & ->)%fmap_Some Hne. apply Hs in He. cbn in He.
      rewrite Hx lookup_insert_ne // in He. by rewrite He.
    - intros v' (e & He & ->)%fmap_Some. apply Hs in He. cbn in He. rewrite lookup_insert_eq in He. injection He as <-. by left. }
  case_bool_decide; apply Hsub; [apply sweep_entries|done].
Qed.
Next Obligation.
  intros m k. cbn. unfold mst_Delete. destruct (mst_closed m); [by split|].
  destruct (mst_entries m !! k) as [e|] eqn:E; cbn; split.
  - intros k' v' (e' & He & ->)%fmap_Some. apply lookup_delete_Some in He as [_ He]. by rewrite He.
  - intros b _. by rewrite lookup_delete_eq.
  - done.
  - intros b _. by rewrite E.
Qed.
Next Obligation.
  intros f m k [= <-]. unfold mst_TTL. destruct (mst_closed m); [by intros ??|].
  destruct (mst_entries m !! k); [|by intros ??]. case_bool_decide; by intros ??.
Qed.

(** *** What a reader sees *)

(** The records that have not expired at [now]. *)
Definition mst_view m (now : Z) : gmap K V :=
  omap (λ e, if se_expired e now then None else Some (se_value e)) (mst_entries m).

Lemma view_lookup m now k :
  mst_view m now !! k = mst_entries m !! k ≫= λ e, if se_expired e now then None else Some (se_value e).
Proof. apply lookup_omap. Qed.

Lemma expired_mono e now now' : now <= now' → se_expired e now = true → se_expired e now' = true.
Proof. unfold se_expired. rewrite !andb_true_iff !bool_decide_eq_true. lia. Qed.

(** A sweep hides nothing from a reader that comes later. *)
Lemma sweep_view m now : mst_clock m (mst_tick m) <= now → mst_view (mst_sweep m) now = mst_view m now.
Proof.
  intros Hn. apply map_eq. intros k. rewrite !view_lookup. cbn. destruct (mst_entries m !! k) as [e|] eqn:E.
  - destruct (se_expired e (mst_clock m (mst_tick m))) eqn:Hx.
    + rewrite (map_lookup_filter_None_2 _ _ k); [|right; intros e' He' Hf; cbn in Hf; congruence].
      cbn. by rewrite (expired_mono e _ now Hn Hx).
    + rewrite (map_lookup_filter_Some_2 _ _ k e); [done|done|done].
  - rewrite map_lookup_filter_None_2 //. by left.
Qed.

(** The visits of [Iterate] with a function that never stops. *)
Lemma iterate_all {R} (fn : K → V → R → R) now (l : list (K * storedEntry)) r :
  iterate_loop (λ k v r, (fn k v r, true)) now l r =
  foldl (λ r kv, fn kv.1 kv.2 r) r (omap (λ ke, if se_expired ke.2 now then None else Some (ke.1, se_value ke.2)) l).
Proof. revert r. induction l as [|[k e] l IH]; intros r; cbn; [done|]. destruct (se_expired e now); cbn; apply IH. Qed.

Lemma view_list m now :
  map_to_list (mst_view m now) ≡ₚ
  omap (λ ke, if se_expired ke.2 now then None else Some (ke.1, se_value ke.2)) (map_to_list (mst_entries m)).
Proof.
  apply NoDup_Permutation; [apply NoDup_map_to_list| |].
  - assert (NoDup (map_to_list (mst_entries m)).*1) as Hnd by apply NoDup_fst_map_to_list.
    induction (map_to_list (mst_entries m)) as [|[k e] l IH]; cbn; [constructor|]. apply NoDup_cons in Hnd as [Hk Hnd].
    destruct (se_expired e now); [by apply IH|]. constructor; [|by apply IH].
    intros ([k' e'] & Hin & He)%list_elem_of_omap. cbn in He. destruct (se_expired e' now); [done|]. injection He as -> _.
    apply Hk. exact (list_elem_of_fmap_2 fst _ (k, e') Hin).
  - intros [k v]. rewrite elem_of_map_to_list view_lookup list_elem_of_omap. split.
    + intros (e & He & Hv)%bind_Some. exists (k, e). rewrite elem_of_map_to_list. split; [done|]. cbn.
      cbn in Hv. destruct (se_expired e now); [done|]. by injection Hv as <-.
    + intros ([k' e] & Hin & He). cbn in He. destruct (se_expired e now) eqn:Hx; [done|]. injection He as <- <-.
      rewrite elem_of_map_to_list in Hin. rewrite Hin. cbn. by rewrite Hx.
Qed.

Lemma len_fold now (l : list (K * storedEntry)) n :
  foldl (λ count (ke : K * storedEntry),
    if bool_decide (se_expireAt ke.2 = 0) || bool_decide (now < se_expireAt ke.2) then count + 1 else count) n l =
  n + Z.of_nat (length (omap (λ ke, if se_expired ke.2 now then None else Some (ke.1, se_value ke.2)) l)).
Proof.
  revert n. induction l as [|[k e] l IH]; intros n; cbn; [lia|]. rewrite IH. unfold se_expired.
  repeat case_bool_decide; cbn [orb andb length]; lia.
Qed.

(** The time of the next clock read. *)
Definition mst_time m : Z := mst_clock m (mst_tick m).

(** What a [Set] at time [t] does to the map a reader sees at [now]. *)
Definition view_set (M : gmap K V) k v (ttl t now : Z) : gmap K V :=
  if se_expired (StoredEntry v (if bool_decide (0 < ttl) then t + ttl else 0)) now then delete k M else <[k := v]> M.

Lemma view_insert m k e now sets :
  mst_view (mst_update m (<[k := e]> (mst_entries m)) sets) now =
  if se_expired e now then delete k (mst_view m now) else <[k := se_value e]> (mst_view m now).
Proof.
  apply map_eq. intros k'. rewrite view_lookup. cbn. destruct (decide (k' = k)) as [->|Hne].
  - rewrite lookup_insert_eq. cbn. destruct (se_expired e now); by rewrite ?lookup_delete_eq ?lookup_insert_eq.
  - rewrite lookup_insert_ne // -view_lookup. destruct (se_expired e now); by rewrite ?lookup_delete_ne ?lookup_insert_ne.
Qed.

Lemma set_view m k v ttl now :
  mst_closed m = false → is_i64 (mst_time m + ttl) → mst_time m <= now → mst_clock m (S (mst_tick m)) <= now →
  (mst_Set m k v ttl).1 = None ∧ mst_view (mst_Set m k v ttl).2 now = view_set (mst_view m now) k v ttl (mst_time m) now.
Proof.
  intros Hcl Hi Hn1 Hn2. unfold mst_Set, view_set. set (x := if bool_decide (0 < ttl) then _ else _).
  assert (∃ n, x.2 = MkMemoryStore (mst_entries m) (mst_clock m) n false (mst_sets m) ∧ mst_clock m n <= now ∧
    x.1 = if bool_decide (0 < ttl) then mst_time m + ttl else 0) as (n & Hx & Hn & Hexp).
  { subst x. destruct m as [es clk tk cl st]. unfold mst_time in *. cbn in *. subst cl. case_bool_decide; cbn.
    - exists (S tk). split_and!; [done|done|by apply i64_id].
    - exists tk. split_and!; done. }
  destruct x as [expireAt m0]. cbn in Hx, Hexp. subst m0. cbn [mst_closed]. rewrite Hexp.
  set (e := StoredEntry v _). set (m1 := MkMemoryStore _ _ n _ _).
  assert (mst_view m1 now = mst_view m now) as Hv by done. rewrite -Hv -(view_insert m1 k e now (mst_sets m1 + 1)).
  clear Hexp. match goal with |- context [if ?b then (None, mst_sweep _) else _] => destruct b end; (split; [done|]); [|done]. by apply sweep_view.
Qed.

(** C26: [MemoryStore] is a map whose records hide when they expire.  Until it
    is closed, a [Get] returns what the map shows at that time; a [Set] shows
    every later reader the new value until its TTL has passed and changes no
    other key, although it may sweep the map; a [Delete] removes the key and
    says whether there was a record; [Iterate] visits exactly the records on
    show, each once, and [Len] counts them; and a record is on show exactly
    for the time [TTL] reports. *)
Theorem memory_store_refines m k v ttl :
  mst_closed m = false → is_i64 (mst_time m + ttl) →
  (∀ e, mst_entries m !! k = Some e → is_i64 (se_expireAt e - mst_time m)) →
  let t := mst_time m in
  (mst_Get m k).1 = inr (mst_view m t !! k) ∧
  (∀ now, t <= now → mst_clock m (S (mst_tick m)) <= now →
    (mst_Set m k v ttl).1 = None ∧ mst_view (mst_Set m k v ttl).2 now = view_set (mst_view m now) k v ttl t now) ∧
  ((mst_Delete m k).1 = inr (bool_decide (is_Some (mst_entries m !! k))) ∧
    ∀ now, mst_view (mst_Delete m k).2 now = delete k (mst_view m now)) ∧
  (∃ l, (mst_Iterate m (λ k v r, (r ++ [(k, v)], true)) []).1 = inr l ∧ l ≡ₚ map_to_list (mst_view m t)) ∧
  (mst_Len m).1 = inr (Z.of_nat (size (mst_view m t))) ∧
  match (mst_TTL m k).1 with
  | inl _ => False
  | inr None => mst_view m t !! k = None
  | inr (Some lft) => ∀ now, t <= now → mst_view m now !! k = None ↔ 0 < lft ∧ t + lft <= now
  end.
Proof.
  intros Hcl Hi Hk t. split_and!.
  - unfold mst_Get. rewrite Hcl view_lookup. destruct (mst_entries m !! k) as [e|]; [|done]. cbn. unfold se_expired.
    fold (mst_time m). fold t. by repeat case_bool_decide.
  - intros now Hn1 Hn2. by apply set_view.
  - unfold mst_Delete. rewrite Hcl. by destruct (mst_entries m !! k).
  - intros now. apply map_eq. intros k'. rewrite view_lookup. unfold mst_Delete. rewrite Hcl.
    destruct (decide (k' = k)) as [->|Hne]; [rewrite lookup_delete_eq|rewrite lookup_delete_ne // view_lookup].
    + destruct (mst_entries m !! k) as [e|] eqn:E; cbn; by rewrite ?lookup_delete_eq ?E.
    + destruct (mst_entries m !! k) as [e|] eqn:E; cbn; by rewrite ?lookup_delete_ne.
  - unfold mst_Iterate. rewrite Hcl. cbn. rewrite iterate_all. eexists. split; [done|]. rewrite view_list.
    set (l := omap _ _). clearbody l.
    assert (∀ r : list (K * V), foldl (λ r kv, r ++ [(kv.1, kv.2)]) r l = r ++ l) as ->; [|done].
    induction l as [|[k0 v0] l IH]; intros r; cbn; [by rewrite app_nil_r|]. rewrite IH. by rewrite -assoc.
  - unfold mst_Len. rewrite Hcl. cbn. rewrite len_fold. do 2 f_equal. rewrite -length_map_to_list view_list. done.
  - unfold mst_TTL. rewrite Hcl view_lookup. destruct (mst_entries m !! k) as [e|] eqn:E; [|done]. specialize (Hk e eq_refl).
    case_bool_decide as H0; cbn.
    + intros now Hn. rewrite view_lookup E. cbn. unfold se_expired. rewrite bool_decide_false; [|lia]. cbn. split; [done|lia].
    + fold (mst_time m). rewrite i64_id //. fold t. case_bool_decide; cbn.
      * unfold se_expired. fold t. rewrite !bool_decide_true //; lia.
      * intros now Hn. rewrite view_lookup E. cbn. unfold se_expired. rewrite (bool_decide_true (_ ≠ 0)) //. cbn.
        fold t. case_bool_decide; (split; [|done || intros; lia]); intros; [lia|done].
Qed.
End memory.
Arguments MemoryStore K V {_ _}.
Arguments storedEntry : clear implicits.

(** ** Witness *)

(** A store on a clock that goes up by ten, with a record that expires. *)
Definition tens (n : nat) : Z := 10 * Z.of_nat n.
Definition mem1 : MemoryStore Z Z := (mst_Set (NewMemoryStore tens) 1 11 25).2.

Lemma memory_store_refines_witness :
  (mst_Get mem1 1).1 = inr (Some 11) ∧ (mst_Len mem1).1 = inr 1 ∧
  mst_view (mst_Set mem1 1 12 0).2 30 !! 1 = Some 12 ∧ mst_view mem1 25 !! 1 = None.
Proof.
  destruct (memory_store_refines mem1 1 12 0) as (R1 & R2 & _ & _ & R5 & R6).
  { done. } { split; vm_compute; done. } { intros e He. vm_compute in He. injection He as <-. split; vm_compute; done. }
  split; [rewrite R1; vm_compute; done|]. split; [rewrite R5; vm_compute; done|].
  split; [rewrite (proj2 (R2 30 ltac:(vm_compute; done) ltac:(vm_compute; done))); vm_compute; done|].
  assert ((mst_TTL mem1 1).1 = inr (Some 15)) as E by (vm_compute; done). rewrite E in R6.
  apply (R6 25); [vm_compute; done|]. split; vm_compute; done.
Defined.
