(* ===== verification/Entry.v ===== *)
(** * Entry: the record stored in a shard ([entry.go], [weigher.go], parts of
    [types.go])

    The fields that a policy or a TTL backend owns ([policyData],
    [heapIndex], [wheelHandle]) live in the state of that component; here are
    the fields the cache itself reads and writes. *)

From stdpp Require Export strings.
From S2P Require Import Prelude.

#[local] Open Scope Z_scope.

(** Why an entry was removed. *)
Inductive EvictionReason :=
| EvictReasonCapacity
| EvictReasonExpired
| EvictReasonExpireFunc
| EvictReasonReplaced
| EvictReasonDeleted
| EvictReasonDeletedPrefix
| EvictReasonDeletedWhere
| EvictReasonTag
| EvictReasonRemote
| EvictReasonResize
| EvictReasonComputed
| EvictReasonClear
| EvictReasonStoreRollback.

#[export] Instance EvictionReason_eq_dec : EqDecision EvictionReason.
Proof. solve_decision. Defined.

(** ** Flags *)

Definition flagSliding : Z := 1.
Definition flagNegative : Z := 2.

Definition flags_has (v f : Z) : bool := bool_decide (Z.land v f = f).
Definition flags_set (v f : Z) : Z := Z.lor v f.
Definition flags_clear (v f : Z) : Z := Z.ldiff v f.

#[global] Arguments flags_has : simpl never.
#[global] Arguments flags_set : simpl never.
#[global] Arguments flags_clear : simpl never.

(** ** Weights *)

Definition maxEntryWeight : Z := Z.shiftl 1 40.

Definition clampWeight (w : Z) : Z := Z.min (Z.max w 1) maxEntryWeight.

Definition u32 (x : Z) : Z := x `mod` 2 ^ 32.

Section entry.
Context {K V : Type} `{Countable K, Inhabited K, Inhabited V}.

Record entry := Entry {
  e_key : K;
  e_value : option V;          (* atomic.Pointer: nil in a recycled entry *)
  e_expireAt : Z;              (* unix nanos, 0 = no TTL *)
  e_lastAccess : Z;
  e_inserted : Z;
  e_hits : Z;
  e_weight : Z;
  e_slidingTTL : Z;
  e_tags : list string;
  e_flags : Z;
  e_invalidated : bool
}.

Record Metadata := MkMetadata {
  md_Expiry : option Z;        (* None is the zero time *)
  md_Inserted : Z;
  md_LastAccess : option Z;
  md_Hits : Z;
  md_Weight : Z;
  md_Tags : list string;
  md_Sliding : bool
}.

(** An entry as [sync.Pool]'s [New] makes it and as [reset] leaves it. *)
Definition entry_blank : entry := Entry inhabitant None 0 0 0 0 0 0 [] 0 false.

Definition e_has (e : entry) (f : Z) : bool := flags_has (e_flags e) f.

Definition entry_expired (e : entry) (now : Z) : bool :=
  bool_decide (e_expireAt e ≠ 0) && bool_decide (e_expireAt e <= now).

Definition loadValue (e : entry) : V :=
  match e_value e with None => inhabitant | Some v => v end.

Definition set_value (e : entry) (v : option V) : entry :=
  Entry (e_key e) v (e_expireAt e) (e_lastAccess e) (e_inserted e) (e_hits e) (e_weight e)
    (e_slidingTTL e) (e_tags e) (e_flags e) (e_invalidated e).

Definition storeValue (e : entry) (v : V) : entry := set_value e (Some v).

(** The stores of [expireAt] and [lastAccess]. *)
Definition set_times (e : entry) (expireAt lastAccess : Z) : entry :=
  Entry (e_key e) (e_value e) expireAt lastAccess (e_inserted e) (e_hits e) (e_weight e)
    (e_slidingTTL e) (e_tags e) (e_flags e) (e_invalidated e).

Definition set_hits (e : entry) (h : Z) : entry :=
  Entry (e_key e) (e_value e) (e_expireAt e) (e_lastAccess e) (e_inserted e) h (e_weight e)
    (e_slidingTTL e) (e_tags e) (e_flags e) (e_invalidated e).

(** [e.hits.Add(1)] on a [uint32]. *)
Definition addHit (e : entry) : entry := set_hits e (u32 (e_hits e + 1)).

Definition set_weight (e : entry) (w : Z) : entry :=
  Entry (e_key e) (e_value e) (e_expireAt e) (e_lastAccess e) (e_inserted e) (e_hits e) w
    (e_slidingTTL e) (e_tags e) (e_flags e) (e_invalidated e).

Definition set_sliding (e : entry) (flags slidingTTL : Z) : entry :=
  Entry (e_key e) (e_value e) (e_expireAt e) (e_lastAccess e) (e_inserted e) (e_hits e)
    (e_weight e) slidingTTL (e_tags e) flags (e_invalidated e).

Definition set_tags (e : entry) (tags : list string) : entry :=
  Entry (e_key e) (e_value e) (e_expireAt e) (e_lastAccess e) (e_inserted e) (e_hits e)
    (e_weight e) (e_slidingTTL e) tags (e_flags e) (e_invalidated e).

(** [e.key = key] and [e.inserted = now] of a new entry. *)
Definition set_identity (e : entry) (key : K) (inserted : Z) : entry :=
  Entry key (e_value e) (e_expireAt e) (e_lastAccess e) inserted (e_hits e)
    (e_weight e) (e_slidingTTL e) (e_tags e) (e_flags e) (e_invalidated e).

Definition markInvalidated (e : entry) : entry :=
  Entry (e_key e) (e_value e) (e_expireAt e) (e_lastAccess e) (e_inserted e) (e_hits e)
    (e_weight e) (e_slidingTTL e) (e_tags e) (e_flags e) true.

Definition touchAccess (e : entry) (nowNanos : Z) : entry * bool :=
  if negb (e_has e flagSliding) || bool_decide (e_slidingTTL e <= 0) then
    (set_times e (e_expireAt e) nowNanos, false)
  else
    let prev := e_lastAccess e in
    if bool_decide (i64 (nowNanos - prev) < Z.quot (e_slidingTTL e) 4) then (e, false)
    else (set_times e (i64 (nowNanos + e_slidingTTL e)) nowNanos, true).

Definition metadata (e : entry) : Metadata :=
  MkMetadata
    (if bool_decide (e_expireAt e ≠ 0) then Some (e_expireAt e) else None)
    (e_inserted e)
    (if bool_decide (e_lastAccess e ≠ 0) then Some (e_lastAccess e) else None)
    (e_hits e) (e_weight e) (e_tags e) (e_has e flagSliding).

(** [reset], but for the fields other components own. *)
Definition entry_reset (e : entry) : entry :=
  Entry inhabitant None 0 0 0 0 0 0 [] 0 false.
End entry.
Arguments entry : clear implicits.

Lemma clampWeight_bounds w : 1 <= clampWeight w <= maxEntryWeight.
Proof. unfold clampWeight. assert (1 <= maxEntryWeight) by done. lia. Qed.

(** Clearing a flag unsets it and no other. *)
Lemma flags_has_testbit v f n : 0 <= n → f = 2 ^ n → flags_has v f = Z.testbit v n.
Proof.
  intros Hn ->. unfold flags_has.
  destruct (Z.testbit v n) eqn:E.
  - apply bool_decide_eq_true_2. apply Z.bits_inj'. intros m Hm.
    rewrite Z.land_spec Z.pow2_bits_eqb //. destruct (Z.eqb_spec n m) as [->|];
      by rewrite ?E ?andb_false_r.
  - apply bool_decide_eq_false_2. intros Heq.
    assert (Z.testbit (Z.land v (2 ^ n)) n = true) as Hb by rewrite Heq Z.pow2_bits_true //.
    rewrite Z.land_spec E in Hb. done.
Qed.

Lemma has_sliding v : flags_has v flagSliding = Z.testbit v 0.
Proof. by apply flags_has_testbit. Qed.
Lemma has_negative v : flags_has v flagNegative = Z.testbit v 1.
Proof. by apply flags_has_testbit. Qed.

Lemma flags_clear_bit v f n m : 0 <= n → 0 <= m → f = 2 ^ n →
  Z.testbit (flags_clear v f) m = if bool_decide (n = m) then false else Z.testbit v m.
Proof.
  intros Hn Hm ->. unfold flags_clear. rewrite Z.ldiff_spec Z.pow2_bits_eqb //.
  destruct (Z.eqb_spec n m) as [->|Hne].
  - rewrite bool_decide_eq_true_2 // andb_false_r //.
  - rewrite bool_decide_eq_false_2 // andb_true_r //.
Qed.

Lemma flags_set_bit v f n m : 0 <= n → 0 <= m → f = 2 ^ n →
  Z.testbit (flags_set v f) m = if bool_decide (n = m) then true else Z.testbit v m.
Proof.
  intros Hn Hm ->. unfold flags_set. rewrite Z.lor_spec Z.pow2_bits_eqb //.
  destruct (Z.eqb_spec n m) as [->|Hne].
  - rewrite bool_decide_eq_true_2 // orb_true_r //.
  - rewrite bool_decide_eq_false_2 // orb_false_r //.
Qed.
