(* ===== verification/Tags.v ===== *)
(** * Tags: the inverted tag index ([tags.go])

    [tagged idx t k] is the index's claim that key [k] carries tag [t].  The
    lemmas say what [tag] and [untag] do to that relation, and that the
    index never keeps a tag with no keys. *)

From S2P Require Import Prelude Entry.

Section tagIndex.
Context {K : Type} `{Countable K}.

Record tagIndex := TagIndex { ti_keysByTag : gmap string (gset K) }.

Definition newTagIndex : tagIndex := TagIndex ∅.

(** The body of [tag]'s loop. *)
Definition tag_one (key : K) (m : gmap string (gset K)) (t : string) : gmap string (gset K) :=
  match m !! t with
  | Some set => <[t := {[key]} ∪ set]> m
  | None => <[t := {[key]}]> m
  end.

Definition ti_tag (idx : tagIndex) (key : K) (tags : list string) : tagIndex :=
  TagIndex (foldl (tag_one key) (ti_keysByTag idx) tags).

(** The body of [untag]'s loop. *)
Definition untag_one (key : K) (m : gmap string (gset K)) (t : string) : gmap string (gset K) :=
  match m !! t with
  | None => m
  | Some set =>
      let set := set ∖ {[key]} in
      if decide (size set = 0%nat) then delete t m else <[t := set]> m
  end.

Definition ti_untag (idx : tagIndex) (key : K) (tags : list string) : tagIndex :=
  TagIndex (foldl (untag_one key) (ti_keysByTag idx) tags).

Definition ti_snapshot (idx : tagIndex) (tag : string) : list K :=
  match ti_keysByTag idx !! tag with None => [] | Some set => elements set end.

Definition ti_distinctTagCount (idx : tagIndex) : Z := Z.of_nat (size (ti_keysByTag idx)).

Definition tagged (idx : tagIndex) (t : string) (k : K) : Prop :=
  ∃ set, ti_keysByTag idx !! t = Some set ∧ k ∈ set.

(** No tag is kept without a key. *)
Definition ti_wf (idx : tagIndex) : Prop :=
  ∀ t set, ti_keysByTag idx !! t = Some set → set ≠ ∅.

Lemma tagged_tag_one key m t t' k :
  tagged (TagIndex (tag_one key m t)) t' k ↔ (t' = t ∧ k = key) ∨ tagged (TagIndex m) t' k.
Proof.
  assert (∀ x : gset K, (∃ s, Some x = Some s ∧ k ∈ s) ↔ k ∈ x) as HS by naive_solver.
  unfold tagged, tag_one. cbn. destruct (m !! t) as [set|] eqn:E;
    (destruct (decide (t' = t)) as [->|Hne];
     [rewrite lookup_insert_eq E HS|rewrite lookup_insert_ne //]); [|naive_solver| |naive_solver].
  - rewrite HS elem_of_union elem_of_singleton. tauto.
  - rewrite elem_of_singleton. naive_solver.
Qed.

Lemma tagged_tag idx key tags t k :
  tagged (ti_tag idx key tags) t k ↔ (t ∈ tags ∧ k = key) ∨ tagged idx t k.
Proof.
  destruct idx as [m]. unfold ti_tag. cbn. revert m.
  induction tags as [|t' tags IH]; intros m; cbn; [set_solver|].
  rewrite IH tagged_tag_one elem_of_cons. naive_solver.
Qed.

Lemma tagged_untag_one key m t t' k :
  tagged (TagIndex (untag_one key m t)) t' k ↔ ¬ (t' = t ∧ k = key) ∧ tagged (TagIndex m) t' k.
Proof.
  unfold tagged, untag_one. cbn. destruct (m !! t) as [set|] eqn:E.
  - case_decide as Hs.
    + apply size_empty_inv in Hs. destruct (decide (t' = t)) as [->|Hne].
      * rewrite lookup_delete_eq E. split; [by intros (? & ? & _)|].
        intros (Hk & s & [= <-] & Hin). set_solver.
      * rewrite lookup_delete_ne //. naive_solver.
    + destruct (decide (t' = t)) as [->|Hne].
      * rewrite lookup_insert_eq E. split; [intros (s & [= <-] & Hin); set_solver|].
        intros (Hk & s & [= <-] & Hin). eexists. split; [done|]. set_solver.
      * rewrite lookup_insert_ne //. naive_solver.
  - split; [|naive_solver]. intros (s & Hs & Hin). split; [|eauto]. intros [-> _]. congruence.
Qed.

Lemma tagged_untag idx key tags t k :
  tagged (ti_untag idx key tags) t k ↔ ¬ (t ∈ tags ∧ k = key) ∧ tagged idx t k.
Proof.
  destruct idx as [m]. unfold ti_untag. cbn. revert m.
  induction tags as [|t' tags IH]; intros m; cbn; [set_solver|].
  rewrite IH tagged_untag_one elem_of_cons. naive_solver.
Qed.

Lemma elem_of_snapshot idx t k : k ∈ ti_snapshot idx t ↔ tagged idx t k.
Proof.
  unfold ti_snapshot, tagged. destruct (ti_keysByTag idx !! t) as [set|].
  - rewrite elem_of_elements. naive_solver.
  - set_solver.
Qed.

Lemma NoDup_snapshot idx t : NoDup (ti_snapshot idx t).
Proof. unfold ti_snapshot. case_match; [apply NoDup_elements|constructor]. Qed.

Lemma ti_wf_tag idx key tags : ti_wf idx → ti_wf (ti_tag idx key tags).
Proof.
  destruct idx as [m]. unfold ti_wf, ti_tag. cbn. revert m.
  induction tags as [|t tags IH]; intros m Hm; cbn; [done|]. apply IH. unfold tag_one.
  intros t' set'. destruct (m !! t) as [set|] eqn:E;
    (destruct (decide (t' = t)) as [->|];
     [rewrite lookup_insert_eq; intros [= <-]; set_solver|rewrite lookup_insert_ne //; apply Hm]).
Qed.

Lemma ti_wf_untag idx key tags : ti_wf idx → ti_wf (ti_untag idx key tags).
Proof.
  destruct idx as [m]. unfold ti_wf, ti_untag. cbn. revert m.
  induction tags as [|t tags IH]; intros m Hm; cbn; [done|]. apply IH. unfold untag_one.
  intros t' set'. destruct (m !! t) as [set|] eqn:E; [|apply Hm]. case_decide as Hs.
  - destruct (decide (t' = t)) as [->|]; [by rewrite lookup_delete_eq|].
    rewrite lookup_delete_ne //. apply Hm.
  - destruct (decide (t' = t)) as [->|]; [|rewrite lookup_insert_ne //; apply Hm].
    rewrite lookup_insert_eq. intros [= <-] Heq. apply Hs. rewrite Heq. done.
Qed.
End tagIndex.
Arguments tagIndex K {_ _}.
