(* ===== verification/Flights.v ===== *)
(** * Flights: loads in progress ([loader.go])

    A shard keeps, per key, the load in flight, the load whose waiters all
    gave up, and the watch of a copy in progress.  A write to the key marks
    all three superseded, which is what keeps a slow load from overwriting
    newer data.  Flight and watch structs are addresses; their [superseded]
    fields are the sets of addresses whose field is true. *)

From S2P Require Import Prelude Entry.

Section flights.
Context {K : Type} `{Countable K}.

Record flights := Flights {
  fl_inflight : gmap K loc;
  fl_orphans : gmap K loc;
  fl_watches : gmap K loc;
  fl_superseded : gset loc;
  fl_wsuperseded : gset loc
}.

Definition no_flights : flights := Flights ∅ ∅ ∅ ∅ ∅.

(** [f.superseded = true] for a pointer that may be absent. *)
Definition mark (o : option loc) (X : gset loc) : gset loc :=
  match o with Some f => {[f]} ∪ X | None => X end.

Definition supersedeFlight (F : flights) (key : K) : flights :=
  Flights (fl_inflight F) (delete key (fl_orphans F)) (delete key (fl_watches F))
    (mark (fl_orphans F !! key) (mark (fl_inflight F !! key) (fl_superseded F)))
    (mark (fl_watches F !! key) (fl_wsuperseded F)).

Definition supersedeAllFlights (F : flights) : flights :=
  Flights (fl_inflight F) ∅ ∅
    (map_img (fl_orphans F) ∪ (map_img (fl_inflight F) ∪ fl_superseded F))
    (map_img (fl_watches F) ∪ fl_wsuperseded F).

Definition orphanFlight (F : flights) (key : K) (flight : loc) : flights :=
  if decide (fl_inflight F !! key = Some flight) then
    Flights (delete key (fl_inflight F)) (<[key := flight]> (fl_orphans F)) (fl_watches F)
      (mark (fl_orphans F !! key) (fl_superseded F)) (fl_wsuperseded F)
  else F.

Definition startFlight (F : flights) (key : K) (flight : loc) : flights :=
  Flights (<[key := flight]> (fl_inflight F)) (delete key (fl_orphans F)) (fl_watches F)
    (mark (fl_orphans F !! key) (fl_superseded F)) (fl_wsuperseded F).

Definition leaveInflight (F : flights) (key : K) (flight : loc) : flights :=
  let infl := if decide (fl_inflight F !! key = Some flight)
              then delete key (fl_inflight F) else fl_inflight F in
  let orph := if decide (fl_orphans F !! key = Some flight)
              then delete key (fl_orphans F) else fl_orphans F in
  Flights infl orph (fl_watches F) (fl_superseded F) (fl_wsuperseded F).

Definition supersedesFlight (reason : EvictionReason) : bool :=
  match reason with
  | EvictReasonCapacity | EvictReasonExpired | EvictReasonExpireFunc | EvictReasonResize => false
  | _ => true
  end.

(** The loads for [key] that would still store their result. *)
Definition registered (F : flights) (key : K) (f : loc) : Prop :=
  fl_inflight F !! key = Some f ∨ fl_orphans F !! key = Some f.

Lemma elem_of_mark o X f : f ∈ mark o X ↔ o = Some f ∨ f ∈ X.
Proof. destruct o as [g|]; cbn; [|naive_solver]. rewrite elem_of_union elem_of_singleton. naive_solver. Qed.

Lemma supersedeFlight_all F key f :
  registered F key f → f ∈ fl_superseded (supersedeFlight F key).
Proof. cbn. rewrite !elem_of_mark. unfold registered. tauto. Qed.

Lemma supersedeFlight_mono F key f :
  f ∈ fl_superseded F → f ∈ fl_superseded (supersedeFlight F key).
Proof. cbn. rewrite !elem_of_mark. tauto. Qed.
End flights.
Arguments flights K {_ _}.
