(* ===== verification/Shard.v ===== *)
(** * Shard: the routines that run under one shard's lock

    [shard.go], the locked half of [cache.go], [readmap.go], the shard side of
    [expiry.go], [tags.go] and [tagcleanup.go], and [entryPool] of
    [entry.go].

    A routine that holds the lock of one shard touches that shard and the
    cache-wide state (counters, tag index, admission policy, clock), so it is
    a function from [globals * shard] to [globals * shard].  An [*entry] is
    an address into the shard's [sh_heap].  The components behind Go
    interfaces are the type parameters: the eviction policy [P], the entry
    table [St], the TTL backend [T] and the admission policy [A].

    Modelled configuration: [WithStore] and [WithAsyncWrites] are off, so
    [c.store] and [s.pending] are nil; StoreCache.v and Async.v build on these
    routines for caches with either.  [c.tags] and [c.tagCleanupQueue] are
    never nil after [New].  User hooks are recorded in [g_fx] in the order
    they run; they do not call back into the cache. *)

From S2P Require Import Prelude Policy Storage Ttl Entry Tags Flights.

#[local] Open Scope Z_scope.

(** [AdmissionPolicy] of [admission.go]. *)
Class AdmissionPolicy (K A : Type) := {
  Admit : A → K → bool;
  Observe : A → K → A;
  AdmReset : A → A
}.

(** ** Counters ([statsCounters] of [stats.go]) *)

Inductive counter :=
| hits | misses | inserts | updates | deletes | evictions | expirations
| evictionsByReason (r : EvictionReason)
| loadsTotal | loadHits | loadErrors | loadCoalesced | loadTimeouts | loadRateLimited
| loadCachedError | eventsDropped | hashCollisions | admissionRejects
| refreshAhead | staleWhileRevalidate | negativeHits | resizes | tagInvalidations.

#[export] Instance counter_eq_dec : EqDecision counter.
Proof. solve_decision. Defined.

Section shard.
Context {K V P St T A : Type} `{Countable K, Inhabited K, Inhabited V}.
Context `{EvictionPolicy K P, ShardStore K St, TtlBackend T, AdmissionPolicy K A}.

Local Abbreviation entry := (entry K V).

(** ** Configuration *)

(** What [New] fixed for the lifetime of the cache.  User code and the
    environment (clock, random numbers, which entry a [sync.Pool] hands
    out) are fields too. *)
Record config := Config {
  cf_hasher : K → Z;
  cf_shardMask : Z;
  cf_weigher : option (V → Z);
  cf_expireFunc : option (K → V → Metadata → option bool);  (* None: it panicked *)
  cf_autoTags : V → list string;
  cf_valueTTL : V → Z → Z;
  cf_copyOnGet : option (V → V);
  cf_keyLen : K → option Z;               (* len of a string or []byte key *)
  cf_maxBytes : Z;
  cf_maxKeySize : Z;
  cf_maxValueWeight : Z;
  cf_maxTagsPerEntry : Z;
  cf_maxTagsTotal : Z;
  cf_defaultTTL : Z;
  cf_slidingTTL : bool;
  cf_ttlJitter : option Z;                (* WithTTLJitter, when given *)
  cf_negativeTTL : Z;
  cf_errorTTL : Z;
  cf_janitorInterval : Z;
  cf_statsEnabled : bool;
  cf_lockFreeRead : bool;
  cf_loader : bool;                       (* a Loader is configured *)
  cf_refreshAhead : option (Z → Z);       (* int64(refreshAheadAt * float64(ttl)) *)
  cf_swrStaleFor : Z;
  cf_groups : gmap string Z;
  cf_onHit : bool; cf_onMiss : bool; cf_onEvict : bool; cf_onExpire : bool; cf_onLoad : bool;
  cf_publisher : bool;
  cf_events : bool;                       (* somebody subscribed *)
  cf_clock : nat → Z;                     (* result of the n-th clock read *)
  cf_rand : nat → Z → Z;                  (* n-th rand.Int64N *)
  cf_poolPick : list loc → option loc
}.

(** User-visible effects, in the order they happen. *)
Inductive fx :=
| FxHit (k : K) (v : V)
| FxMiss (k : K)
| FxOnExpire (k : K) (v : V)
| FxOnEvict (k : K) (v : V) (r : EvictionReason)
| FxEventExpire (k : K) (v : V) (r : EvictionReason) (at_ : Z) (tags : list string)
| FxEventEvict (k : K) (v : V) (r : EvictionReason) (at_ : Z) (tags : list string)
| FxEventInsert (k : K) (v : V) (at_ : Z) (tags : list string)
| FxEventUpdate (k : K) (v : V) (at_ : Z) (tags : list string)
| FxEventInvalidateTag (at_ : Z) (tags : list string)
| FxEventResize (at_ : Z)
| FxEventSnapshot (at_ : Z)
| FxEventLoadRateLimited (k : K) (at_ : Z)
| FxOnLoad (k : K) (r : option (V * Z))
| FxEventLoad (k : K) (v : V) (at_ : Z)
| FxEventLoadError (k : K) (at_ : Z)
| FxEventLoadTimeout (k : K) (at_ : Z)
| FxPublish (k : K) (r : EvictionReason).

(** A callback deferred by [removeLocked]. *)
Record callback := Callback {
  cb_key : K; cb_value : V; cb_reason : EvictionReason; cb_tags : list string; cb_at : Z
}.

(** ** State *)

Record globals := Globals {
  g_entries : Z;
  g_bytes : Z;
  g_counters : counter → Z;
  g_tags : tagIndex K;
  g_untagQueue : list (K * list string);   (* tagCleanupQueue *)
  g_tagOverflows : Z;
  g_admission : A;
  g_closed : bool;
  g_sealed : bool;
  g_maxEntries : Z;
  g_maxBytes : Z;
  g_shedNext : Z;
  g_tick : nat;                            (* clock reads so far *)
  g_rtick : nat;                           (* random draws so far *)
  g_fx : list fx
}.

Record readMap := ReadMap { rm_m : gmap K loc; rm_amended : bool }.

Record cachedError := CachedError { ce_expireAt : Z }.

Record shard := Shard {
  sh_storage : St;
  sh_policy : P;
  sh_ttl : T;
  sh_heap : gmap loc entry;
  sh_pool : list loc;
  sh_fresh : loc;
  sh_janitor : bool;                       (* janitor.running *)
  sh_flights : flights K;
  sh_nextFlight : loc;
  sh_errors : gmap K cachedError;
  sh_budget : Z;
  sh_hashIndex : option (gmap Z K);
  sh_read : option readMap;
  sh_readMisses : Z;
  sh_callbacks : list callback
}.

Implicit Types (c : config) (g : globals) (s : shard) (e : entry) (a : loc).

(** *** Field updates *)

Definition g_count g (i : counter) (n : Z) : globals :=
  Globals (g_entries g) (g_bytes g)
    (λ j, if decide (j = i) then u64 (g_counters g j + n) else g_counters g j)
    (g_tags g) (g_untagQueue g) (g_tagOverflows g) (g_admission g) (g_closed g) (g_sealed g)
    (g_maxEntries g) (g_maxBytes g) (g_shedNext g) (g_tick g) (g_rtick g) (g_fx g).

(** [entries.Add(n)], [bytes.Add(w)] *)
Definition g_live g (n w : Z) : globals :=
  Globals (g_entries g + n) (g_bytes g + w) (g_counters g)
    (g_tags g) (g_untagQueue g) (g_tagOverflows g) (g_admission g) (g_closed g) (g_sealed g)
    (g_maxEntries g) (g_maxBytes g) (g_shedNext g) (g_tick g) (g_rtick g) (g_fx g).

Definition g_set_tags g (idx : tagIndex K) (q : list (K * list string)) (ov : Z) : globals :=
  Globals (g_entries g) (g_bytes g) (g_counters g)
    idx q ov (g_admission g) (g_closed g) (g_sealed g)
    (g_maxEntries g) (g_maxBytes g) (g_shedNext g) (g_tick g) (g_rtick g) (g_fx g).

Definition g_set_admission g (ad : A) : globals :=
  Globals (g_entries g) (g_bytes g) (g_counters g)
    (g_tags g) (g_untagQueue g) (g_tagOverflows g) ad (g_closed g) (g_sealed g)
    (g_maxEntries g) (g_maxBytes g) (g_shedNext g) (g_tick g) (g_rtick g) (g_fx g).

Definition g_env g (tick rtick : nat) (fxs : list fx) : globals :=
  Globals (g_entries g) (g_bytes g) (g_counters g)
    (g_tags g) (g_untagQueue g) (g_tagOverflows g) (g_admission g) (g_closed g) (g_sealed g)
    (g_maxEntries g) (g_maxBytes g) (g_shedNext g) tick rtick fxs.

(** [maxEntries.Store], [maxBytes.Store], [shedNext.Add] *)
Definition g_set_bounds g (me mb next : Z) : globals :=
  Globals (g_entries g) (g_bytes g) (g_counters g)
    (g_tags g) (g_untagQueue g) (g_tagOverflows g) (g_admission g) (g_closed g) (g_sealed g)
    me mb next (g_tick g) (g_rtick g) (g_fx g).

Definition sh_set_storage s st : shard :=
  Shard st (sh_policy s) (sh_ttl s) (sh_heap s) (sh_pool s) (sh_fresh s) (sh_janitor s)
    (sh_flights s) (sh_nextFlight s) (sh_errors s) (sh_budget s) (sh_hashIndex s) (sh_read s)
    (sh_readMisses s) (sh_callbacks s).
Definition sh_set_policy s p : shard :=
  Shard (sh_storage s) p (sh_ttl s) (sh_heap s) (sh_pool s) (sh_fresh s) (sh_janitor s)
    (sh_flights s) (sh_nextFlight s) (sh_errors s) (sh_budget s) (sh_hashIndex s) (sh_read s)
    (sh_readMisses s) (sh_callbacks s).
Definition sh_set_ttl s t : shard :=
  Shard (sh_storage s) (sh_policy s) t (sh_heap s) (sh_pool s) (sh_fresh s) (sh_janitor s)
    (sh_flights s) (sh_nextFlight s) (sh_errors s) (sh_budget s) (sh_hashIndex s) (sh_read s)
    (sh_readMisses s) (sh_callbacks s).
Definition sh_set_heap s h (pl : list loc) (fr : loc) : shard :=
  Shard (sh_storage s) (sh_policy s) (sh_ttl s) h pl fr (sh_janitor s)
    (sh_flights s) (sh_nextFlight s) (sh_errors s) (sh_budget s) (sh_hashIndex s) (sh_read s)
    (sh_readMisses s) (sh_callbacks s).
Definition sh_set_janitor s b : shard :=
  Shard (sh_storage s) (sh_policy s) (sh_ttl s) (sh_heap s) (sh_pool s) (sh_fresh s) b
    (sh_flights s) (sh_nextFlight s) (sh_errors s) (sh_budget s) (sh_hashIndex s) (sh_read s)
    (sh_readMisses s) (sh_callbacks s).
Definition sh_set_flights s fl nf : shard :=
  Shard (sh_storage s) (sh_policy s) (sh_ttl s) (sh_heap s) (sh_pool s) (sh_fresh s)
    (sh_janitor s) fl nf (sh_errors s) (sh_budget s) (sh_hashIndex s) (sh_read s)
    (sh_readMisses s) (sh_callbacks s).
Definition sh_set_errors s er : shard :=
  Shard (sh_storage s) (sh_policy s) (sh_ttl s) (sh_heap s) (sh_pool s) (sh_fresh s)
    (sh_janitor s) (sh_flights s) (sh_nextFlight s) er (sh_budget s) (sh_hashIndex s) (sh_read s)
    (sh_readMisses s) (sh_callbacks s).
Definition sh_set_budget s b : shard :=
  Shard (sh_storage s) (sh_policy s) (sh_ttl s) (sh_heap s) (sh_pool s) (sh_fresh s)
    (sh_janitor s) (sh_flights s) (sh_nextFlight s) (sh_errors s) b (sh_hashIndex s) (sh_read s)
    (sh_readMisses s) (sh_callbacks s).
Definition sh_set_hashIndex s ix : shard :=
  Shard (sh_storage s) (sh_policy s) (sh_ttl s) (sh_heap s) (sh_pool s) (sh_fresh s)
    (sh_janitor s) (sh_flights s) (sh_nextFlight s) (sh_errors s) (sh_budget s) ix (sh_read s)
    (sh_readMisses s) (sh_callbacks s).
Definition sh_set_read s rm n : shard :=
  Shard (sh_storage s) (sh_policy s) (sh_ttl s) (sh_heap s) (sh_pool s) (sh_fresh s)
    (sh_janitor s) (sh_flights s) (sh_nextFlight s) (sh_errors s) (sh_budget s)
    (sh_hashIndex s) rm n (sh_callbacks s).
Definition sh_set_callbacks s cbs : shard :=
  Shard (sh_storage s) (sh_policy s) (sh_ttl s) (sh_heap s) (sh_pool s) (sh_fresh s)
    (sh_janitor s) (sh_flights s) (sh_nextFlight s) (sh_errors s) (sh_budget s)
    (sh_hashIndex s) (sh_read s) (sh_readMisses s) cbs.

(** Writes through an entry pointer. *)
Definition sh_write s a e : shard := sh_set_heap s (<[a := e]> (sh_heap s)) (sh_pool s) (sh_fresh s).

(** ** The environment *)

Definition clockNow c g : Z * globals :=
  (cf_clock c (g_tick g), g_env g (S (g_tick g)) (g_rtick g) (g_fx g)).

Definition emit g (l : list fx) : globals := g_env g (g_tick g) (g_rtick g) (g_fx g ++ l).

Definition stat c g (i : counter) : globals := if cf_statsEnabled c then g_count g i 1 else g.

(** ** [entryPool] *)

Definition pool_get c s : loc * shard :=
  match cf_poolPick c (sh_pool s) with
  | Some a =>
      if decide (a ∈ sh_pool s) then
        (a, sh_set_ttl (sh_set_heap s (sh_heap s) (without a (sh_pool s)) (sh_fresh s))
              (ttl_unindex (sh_ttl s) a))
      else
        (sh_fresh s, sh_set_heap s (<[sh_fresh s := entry_blank]> (sh_heap s)) (sh_pool s)
                       (Pos.succ (sh_fresh s)))
  | None =>
      (sh_fresh s, sh_set_heap s (<[sh_fresh s := entry_blank]> (sh_heap s)) (sh_pool s)
                     (Pos.succ (sh_fresh s)))
  end.

Definition pool_put s a : shard :=
  match sh_heap s !! a with
  | None => s
  | Some e =>
      sh_set_ttl (sh_set_heap s (<[a := entry_reset e]> (sh_heap s)) (a :: sh_pool s) (sh_fresh s))
        (ttl_unindex (sh_ttl s) a)
  end.

(** ** TTL backend delegation *)

(** The [expireAt] fields as the backend reads them. *)
Definition expiries (h : gmap loc entry) (a : loc) : Z :=
  match h !! a with Some e => e_expireAt e | None => 0 end.

Definition expiryAdd s a : shard := sh_set_ttl s (ttl_Add (expiries (sh_heap s)) (sh_ttl s) a).
Definition expiryRemove s a : shard :=
  sh_set_ttl s (ttl_Remove (expiries (sh_heap s)) (sh_ttl s) a).
Definition expiryFix s a : shard := sh_set_ttl s (ttl_Fix (expiries (sh_heap s)) (sh_ttl s) a).

(** The goroutine and its timer are not modelled, only that it runs. *)
Definition startJanitorLocked c g s : shard :=
  if bool_decide (cf_janitorInterval c <= 0) || g_sealed g then s
  else sh_set_janitor s true.

(** ** The read snapshot ([readmap.go]) *)

Definition readMissThreshold s : Z :=
  match sh_read s with
  | None => 8
  | Some rm => let n := Z.of_nat (size (rm_m rm)) in if bool_decide (n < 8) then 8 else n
  end.

Definition markAmended s : shard :=
  match sh_read s with
  | None => s
  | Some cur => if rm_amended cur then s
                else sh_set_read s (Some (ReadMap (rm_m cur) true)) (sh_readMisses s)
  end.

Definition snapshotHasKey s (key : K) : bool :=
  match sh_read s with
  | None => false
  | Some rm => bool_decide (is_Some (rm_m rm !! key))
  end.

(** [m[e.key] = e] for every entry of the table. *)
Definition read_snapshot s : gmap K loc :=
  foldl (λ m a, match sh_heap s !! a with Some e => <[e_key e := a]> m | None => m end)
    ∅ (st_each (sh_storage s)).

Definition promoteReadMapLocked s : shard :=
  match sh_read s with
  | None => s
  | Some cur =>
      if negb (rm_amended cur) && bool_decide (sh_readMisses s = 0) then s
      else sh_set_read s (Some (ReadMap (read_snapshot s) false)) 0
  end.

(** [s.readMisses.Add(1) >= s.readMissThreshold()], then promote. *)
Definition bumpReadMisses s : shard :=
  let s := sh_set_read s (sh_read s) (sh_readMisses s + 1) in
  if bool_decide (readMissThreshold s <= sh_readMisses s) then promoteReadMapLocked s else s.

Definition recordReadMiss s (snapshotHadKey : bool) : shard :=
  match sh_read s with
  | None => s
  | Some _ => if snapshotHadKey then s else bumpReadMisses s
  end.

Definition maybePromoteOnSlowHit c s (key : K) : shard :=
  if negb (cf_lockFreeRead c) then s
  else if snapshotHasKey s key then s
  else bumpReadMisses s.

(** ** Collision tracking *)

Definition recordHashCollisionLocked c g s (key : K) : globals * shard :=
  match sh_hashIndex s with
  | None => (g, s)
  | Some ix =>
      let h := cf_hasher c key in
      let g := match ix !! h with
               | Some pk => if decide (pk = key) then g else stat c g hashCollisions
               | None => g
               end in
      (g, sh_set_hashIndex s (Some (<[h := key]> ix)))
  end.

Definition forgetHashLocked c s (key : K) : shard :=
  match sh_hashIndex s with
  | None => s
  | Some ix =>
      let h := cf_hasher c key in
      match ix !! h with
      | Some pk => if decide (pk = key) then sh_set_hashIndex s (Some (delete h ix)) else s
      | None => s
      end
  end.

(** ** Tags *)

Definition retagLocked g (key : K) (oldTags newTags : list string) : globals :=
  let idx := g_tags g in
  let idx := match oldTags with [] => idx | _ => ti_untag idx key oldTags end in
  let idx := match newTags with [] => idx | _ => ti_tag idx key newTags end in
  g_set_tags g idx (g_untagQueue g) (g_tagOverflows g).

Definition tagCleanupBuffer : Z := 4096.

Definition enqueueUntag g (key : K) (tags : list string) : globals :=
  match tags with
  | [] => g
  | _ =>
      if bool_decide (Z.of_nat (length (g_untagQueue g)) < tagCleanupBuffer) then
        g_set_tags g (g_tags g) (g_untagQueue g ++ [(key, tags)]) (g_tagOverflows g)
      else
        g_set_tags g (ti_untag (g_tags g) key tags) (g_untagQueue g) (g_tagOverflows g + 1)
  end.

(** ** Expiry checks *)

Definition callExpireFunc (f : K → V → Metadata → option bool) e : bool * bool :=
  match f (e_key e) (loadValue e) (metadata e) with
  | Some b => (b, false)
  | None => (false, true)
  end.

Definition entryExpiredLockedReason c e (now : Z) : option EvictionReason :=
  if entry_expired e now then Some EvictReasonExpired
  else match cf_expireFunc c with
       | None => None
       | Some f => if (callExpireFunc f e).1 then Some EvictReasonExpireFunc else None
       end.

Definition entryExpiredLocked c e (now : Z) : bool :=
  bool_decide (is_Some (entryExpiredLockedReason c e now)).

Definition shouldRefreshAhead c e (now : Z) : bool :=
  if negb (cf_loader c) then false
  else match cf_refreshAhead c with
       | None => false
       | Some threshold =>
           if e_has e flagNegative then false
           else if bool_decide (e_expireAt e = 0) then false
           else
             let age := i64 (now - e_inserted e) in
             let ttl := i64 (e_expireAt e - e_inserted e) in
             if bool_decide (ttl <= 0) then false
             else bool_decide (threshold ttl <= age)
       end.

Definition shouldServeStale c e (now : Z) : bool :=
  if negb (cf_loader c) then false
  else if bool_decide (cf_swrStaleFor c <= 0) then false
  else if e_has e flagNegative then false
  else if bool_decide (e_expireAt e = 0) || bool_decide (now < e_expireAt e) then false
  else bool_decide (i64 (now - e_expireAt e) < cf_swrStaleFor c).

(** ** Removal *)

Definition removeCallbackFor c (cb : callback) : list fx :=
  let '(Callback key value reason tags at_) := cb in
  (match reason with
   | EvictReasonExpired | EvictReasonExpireFunc =>
       (if cf_onExpire c then [FxOnExpire key value] else []) ++
       (if cf_events c then [FxEventExpire key value reason at_ tags] else [])
   | _ =>
       (if cf_onEvict c then [FxOnEvict key value reason] else []) ++
       (if cf_events c then [FxEventEvict key value reason at_ tags] else [])
   end) ++
  (if bool_decide (reason ≠ EvictReasonRemote) && cf_publisher c
   then [FxPublish key reason] else []).

Definition removeLocked c g s a (reason : EvictionReason) : globals * shard :=
  match sh_heap s !! a with
  | None => (g, s)
  | Some e =>
      let key := e_key e in
      let value := loadValue e in
      let notify := negb (e_has e flagNegative) &&
                    (cf_onExpire c || cf_onEvict c || cf_publisher c || cf_events c) in
      let tagsCopy := if notify then e_tags e else [] in
      let s := if supersedesFlight reason
               then sh_set_flights s (supersedeFlight (sh_flights s) key) (sh_nextFlight s)
               else s in
      let s := sh_set_storage s (st_del (sh_storage s) key).2 in
      let s := forgetHashLocked c s key in
      let s := expiryRemove s a in
      let s := sh_set_policy s (OnRemove (sh_policy s) (a, key)) in
      let g := enqueueUntag g key (e_tags e) in
      let g := g_live g (-1) (- e_weight e) in
      let g := stat c g (evictionsByReason reason) in
      let s := if cf_lockFreeRead c
               then bumpReadMisses (sh_write s a (markInvalidated e))
               else pool_put s a in
      if negb notify then (g, s)
      else
        let '(at_, g) := clockNow c g in
        (g, sh_set_callbacks s (sh_callbacks s ++ [Callback key value reason tagsCopy at_]))
  end.

(** ** Eviction *)

Definition overBudget g : bool :=
  (bool_decide (0 < g_maxEntries g) && bool_decide (g_maxEntries g < g_entries g)) ||
  (bool_decide (0 < g_maxBytes g) && bool_decide (g_maxBytes g < g_bytes g)).

(** One turn of [evictOverBudgetLocked]'s loop up to the [victim == nil]
    test. *)
Definition pickVictim g s (keep : Z) : option (eref K) * shard :=
  let n := st_length (sh_storage s) in
  let overShard := bool_decide (0 < sh_budget s) && bool_decide (sh_budget s < n) in
  let overTotal := bool_decide (keep < n) && overBudget g in
  let '(victim, p) := if overShard then Victim (sh_policy s) else (None, sh_policy s) in
  let '(victim, p) := match victim with
                      | None => if overTotal then shedVictim p (bool_decide (0 < keep))
                                else (None, p)
                      | Some v => (Some v, p)
                      end in
  (victim, sh_set_policy s p).

Fixpoint evict_loop (fuel : nat) c g s (reason : EvictionReason) (keep count : Z)
    : globals * shard * Z :=
  match fuel with
  | O => (g, s, count)
  | S fuel =>
      match pickVictim g s keep with
      | (None, s) => (g, s, count)
      | (Some v, s) =>
          let '(g, s) := removeLocked c g s v.1 reason in
          let g := g_count g evictions 1 in
          evict_loop fuel c g s reason keep (count + 1)
      end
  end.

(** Every turn removes an entry, so one turn more than there are entries
    is enough ([evict_loop_done]). *)
Definition evictOverBudgetLocked c g s (reason : EvictionReason) (keep : Z)
    : globals * shard * Z :=
  evict_loop (S (Z.to_nat (st_length (sh_storage s)))) c g s reason keep 0.

Definition evictWhileOverBudgetLocked c g s : globals * shard :=
  (evictOverBudgetLocked c g s EvictReasonCapacity 1).1.

(** ** Weights and TTLs *)

Definition weighOf c (v : V) : Z :=
  clampWeight (match cf_weigher c with None => 1 | Some w => w v end).

Definition applyJitter c g (ttl j : Z) : Z * globals :=
  if bool_decide (j <= 0) then (ttl, g)
  else
    let j := if bool_decide (Z.quot ttl 4 < j) then Z.quot ttl 4 else j in
    if bool_decide (j <= 0) then (ttl, g)
    else
      let delta := cf_rand c (g_rtick g) (2 * j + 1) - j in
      (i64 (ttl + delta), g_env g (g_tick g) (S (g_rtick g)) (g_fx g)).

Definition resolveJitter c (ttl : Z) : Z :=
  match cf_ttlJitter c with Some j => j | None => Z.quot ttl 20 end.

Definition effectiveTTL c g (ttl : Z) : Z * globals :=
  if bool_decide (ttl <= 0) then (ttl, g) else applyJitter c g ttl (resolveJitter c ttl).

(** ** Insert or update *)

(** The field writes of the update branch of [upsertLocked]. *)
Definition entry_update e (value : V) (weight expireAt now : Z) (sliding : bool) (rawTTL : Z)
    (tags : list string) : entry :=
  let e := storeValue e value in
  let e := set_weight e weight in
  let e := set_times e expireAt now in
  let e := set_hits e 0 in
  let e := set_sliding e (flags_clear (e_flags e) flagNegative) (e_slidingTTL e) in
  let e := if sliding then set_sliding e (flags_set (e_flags e) flagSliding) rawTTL
           else set_sliding e (flags_clear (e_flags e) flagSliding) 0 in
  set_tags e tags.

(** The field writes of the insert branch, on a pooled entry. *)
Definition entry_insert e (key : K) (value : V) (weight expireAt now : Z) (sliding : bool)
    (rawTTL : Z) (tags : list string) : entry :=
  let e := set_identity e key now in
  let e := storeValue e value in
  let e := set_weight e weight in
  let e := set_times e expireAt now in
  let e := if sliding then set_sliding e (flags_set (e_flags e) flagSliding) rawTTL else e in
  match tags with [] => e | _ => set_tags e tags end.

(** [s.storage.set; s.markAmended; s.expiryAdd; s.policy.OnInsert] *)
Definition register s (key : K) a : shard :=
  let s := sh_set_storage s (st_set (sh_storage s) key a) in
  let s := markAmended s in
  let s := expiryAdd s a in
  sh_set_policy s (OnInsert (sh_policy s) (a, key)).

Definition upsertLocked c g s (key : K) (value : V) (weight effectiveTTL : Z) (sliding : bool)
    (rawTTL : Z) (tags : list string) : globals * shard :=
  let '(now, g) := clockNow c g in
  let expireAt := if bool_decide (0 < effectiveTTL) then i64 (now + effectiveTTL) else 0 in
  let s := sh_set_flights s (supersedeFlight (sh_flights s) key) (sh_nextFlight s) in
  if g_sealed g then (g, s)
  else
    match st_get (sh_storage s) key with
    | Some a =>
        match sh_heap s !! a with
        | None => (g, s)
        | Some existing =>
            let oldTags := e_tags existing in
            let g := g_live g 0 (- e_weight existing + weight) in
            let s := sh_write s a
                       (entry_update existing value weight expireAt now sliding rawTTL tags) in
            let g := retagLocked g key oldTags tags in
            let s := expiryFix s a in
            let s := sh_set_policy s (OnUpdate (sh_policy s) (a, key)) in
            let g := stat c g updates in
            let s := if bool_decide (0 < expireAt) then startJanitorLocked c g s else s in
            if cf_events c then
              let '(at_, g) := clockNow c g in (emit g [FxEventUpdate key value at_ tags], s)
            else (g, s)
        end
    | None =>
        let take := Admit (g_admission g) key in
        let g := g_set_admission g (Observe (g_admission g) key) in
        if negb take then (stat c g admissionRejects, s)
        else
          let '(g, s) := recordHashCollisionLocked c g s key in
          let '(a, s) := pool_get c s in
          match sh_heap s !! a with
          | None => (g, s)
          | Some e =>
              let s := sh_write s a
                         (entry_insert e key value weight expireAt now sliding rawTTL tags) in
              let s := register s key a in
              let g := retagLocked g key [] tags in
              let g := g_live g 1 weight in
              let g := stat c g inserts in
              let s := if bool_decide (0 < expireAt) then startJanitorLocked c g s else s in
              let '(g, s) := evictWhileOverBudgetLocked c g s in
              if cf_events c then
                let '(at_, g) := clockNow c g in (emit g [FxEventInsert key value at_ tags], s)
              else (g, s)
          end
    end.

(** [SetWithOptions] with [SetExpireAt]: [at_] is the absolute expiry, None
    the zero time.  This path does not consult the admission policy, record
    collisions or publish events. *)
Definition upsertWithAbsoluteExpiryLocked c g s (key : K) (value : V) (weight : Z)
    (at_ : option Z) (tags : list string) : globals * shard :=
  let '(now, g) := clockNow c g in
  let expireAt := match at_ with Some t => t | None => 0 end in
  let s := sh_set_flights s (supersedeFlight (sh_flights s) key) (sh_nextFlight s) in
  if g_sealed g then (g, s)
  else
    match st_get (sh_storage s) key with
    | Some a =>
        match sh_heap s !! a with
        | None => (g, s)
        | Some existing =>
            let oldTags := e_tags existing in
            let g := g_live g 0 (- e_weight existing + weight) in
            let e := storeValue existing value in
            let e := set_weight e weight in
            let e := set_times e expireAt now in
            let e := set_hits e 0 in
            let e := set_sliding e (flags_clear (e_flags e) (Z.lor flagSliding flagNegative)) 0 in
            let e := set_tags e tags in
            let s := sh_write s a e in
            let g := retagLocked g key oldTags tags in
            let s := expiryFix s a in
            let s := sh_set_policy s (OnUpdate (sh_policy s) (a, key)) in
            let g := stat c g updates in
            (g, if bool_decide (0 < expireAt) then startJanitorLocked c g s else s)
        end
    | None =>
        let '(a, s) := pool_get c s in
        match sh_heap s !! a with
        | None => (g, s)
        | Some e =>
            let s := sh_write s a (entry_insert e key value weight expireAt now false 0 tags) in
            let s := register s key a in
            let g := retagLocked g key [] tags in
            let g := g_live g 1 weight in
            let g := stat c g inserts in
            let s := if bool_decide (0 < expireAt) then startJanitorLocked c g s else s in
            evictWhileOverBudgetLocked c g s
        end
    end.

(** A negative-cache tombstone: the loader said the key does not exist. *)
Definition insertNegativeTombstoneLocked c g s (key : K) : globals * shard :=
  if g_sealed g then (g, s)
  else
    let '(now, g) := clockNow c g in
    let expireAt := i64 (now + cf_negativeTTL c) in
    match st_get (sh_storage s) key with
    | Some a =>
        match sh_heap s !! a with
        | None => (g, s)
        | Some existing =>
            let '(g, e) := match e_tags existing with
                           | [] => (g, existing)
                           | _ => (enqueueUntag g key (e_tags existing), set_tags existing [])
                           end in
            let e := storeValue e inhabitant in
            let e := set_weight e 1 in
            let e := set_times e expireAt now in
            let e := set_hits e 0 in
            let e := set_sliding e
                       (Z.lor (Z.ldiff (e_flags e) flagSliding) flagNegative) 0 in
            let s := sh_write s a e in
            let s := expiryFix s a in
            let s := sh_set_policy s (OnUpdate (sh_policy s) (a, key)) in
            let g := stat c g updates in
            (g, startJanitorLocked c g s)
        end
    | None =>
        let '(a, s) := pool_get c s in
        match sh_heap s !! a with
        | None => (g, s)
        | Some e =>
            let e := set_identity e key now in
            let e := set_weight e 1 in
            let e := set_times e expireAt now in
            let e := set_sliding e (flags_set (e_flags e) flagNegative) (e_slidingTTL e) in
            let s := sh_write s a e in
            let s := register s key a in
            let g := g_live g 1 1 in
            let g := stat c g inserts in
            let s := startJanitorLocked c g s in
            evictWhileOverBudgetLocked c g s
        end
    end.

(** ** Deletes, touches and sweeps *)

Definition removeKeyLocked c g s (key : K) (reason : EvictionReason) : globals * shard * bool :=
  let s := sh_set_flights s (supersedeFlight (sh_flights s) key) (sh_nextFlight s) in
  match st_get (sh_storage s) key with
  | None => (g, s, false)
  | Some a =>
      let '(g, s) := removeLocked c g s a reason in
      let g := if decide (reason ≠ EvictReasonDeletedWhere ∧ reason ≠ EvictReasonDeletedPrefix)
               then g_count g deletes 1 else g in
      (g, s, true)
  end.

Definition refreshExpiryLocked c g s a (now ttl : Z) : globals * shard :=
  match sh_heap s !! a with
  | None => (g, s)
  | Some e =>
      let '(expireAt, g) :=
        if bool_decide (0 < ttl) then
          let '(t, g) := effectiveTTL c g ttl in (i64 (now + t), g)
        else (0, g) in
      let s := sh_write s a (set_times e expireAt now) in
      let s := expiryFix s a in
      (g, if bool_decide (0 < expireAt) then startJanitorLocked c g s else s)
  end.

(** The loop over swept or doomed entries. *)
Fixpoint removeAll c g s (l : list loc) (reason : EvictionReason) : globals * shard :=
  match l with
  | [] => (g, s)
  | a :: l =>
      let '(g, s) := removeLocked c g s a reason in
      removeAll c (g_count g expirations 1) s l reason
  end.

Definition sweepExpiredLocked c g s (now : Z) : globals * shard * Z :=
  let '(expired, t) := ttl_Sweep (expiries (sh_heap s)) (sh_ttl s) now in
  let '(g, s) := removeAll c g (sh_set_ttl s t) expired EvictReasonExpired in
  (g, s, Z.of_nat (length expired)).

(** The body of [DeleteExpired]'s loop over the shards. *)
Definition deleteExpiredLocked c g s (now : Z) : globals * shard * Z :=
  let doomed := filter (λ a, match sh_heap s !! a with
                             | Some e => entry_expired e now
                             | None => false
                             end = true) (st_each (sh_storage s)) in
  let '(g, s) := removeAll c g s doomed EvictReasonExpired in
  (g, s, Z.of_nat (length doomed)).

(** ** Clear and Reset *)

(** [untagShardLocked]: every (key, tag) pair of the shard's entries. *)
Definition untagShardLocked g s : globals :=
  let idx := foldl (λ idx a, match sh_heap s !! a with
                             | Some e => ti_untag idx (e_key e) (e_tags e)
                             | None => idx
                             end) (g_tags g) (st_each (sh_storage s)) in
  g_set_tags g idx (g_untagQueue g) (g_tagOverflows g).

Definition recycleOrInvalidate c s a : shard :=
  if cf_lockFreeRead c then
    match sh_heap s !! a with Some e => sh_write s a (markInvalidated e) | None => s end
  else pool_put s a.

(** The visitor of the [each] loop of [Clear] ([clear] true, which counts
    removals) and [Reset]. *)
Definition dropEntry c (clear : bool) (gs : globals * shard) a : globals * shard :=
  let '(g, s) := gs in
  match sh_heap s !! a with
  | None => (g, s)
  | Some e =>
      let g := g_live g (-1) (- e_weight e) in
      let g := if clear then stat c g (evictionsByReason EvictReasonClear) else g in
      let s := sh_set_policy s (OnRemove (sh_policy s) (a, e_key e)) in
      (g, recycleOrInvalidate c s a)
  end.

(** What [Clear] and [Reset] do to one shard under its lock. *)
Definition clearShardLocked c (clear : bool) g s : globals * shard :=
  let g := untagShardLocked g s in
  let '(g, s) := foldl (dropEntry c clear) (g, s) (st_each (sh_storage s)) in
  let s := sh_set_storage s (st_clearAll (sh_storage s)) in
  let s := sh_set_flights s (supersedeAllFlights (sh_flights s)) (sh_nextFlight s) in
  let s := sh_set_policy s (Reset (sh_policy s)) in
  let s := sh_set_ttl s (ttl_Reset (sh_ttl s)) in
  let s := if cf_lockFreeRead c then sh_set_read s (Some (ReadMap ∅ false)) 0 else s in
  (g, s).

(** ** Reads *)

Definition recordHitObserve c g (key : K) : globals :=
  let g := stat c g hits in g_set_admission g (Observe (g_admission g) key).

Definition fireHit c g (key : K) (v : V) : globals :=
  if cf_onHit c then emit g [FxHit key v] else g.

Definition fireMiss c g (key : K) : globals :=
  if cf_onMiss c then emit g [FxMiss key] else g.

Definition returnValue c (v : V) : V :=
  match cf_copyOnGet c with Some f => f v | None => v end.

(** Result of a lock-free read: not terminal, or a terminal miss or hit. *)
Inductive lockFree := NotTerminal | TermMiss | TermHit (v : V).

Definition tryLockFreeGet c s (key : K) (now : Z) : lockFree * shard :=
  match sh_read s with
  | None => (NotTerminal, s)
  | Some rm =>
      match rm_m rm !! key with
      | None => (if rm_amended rm then NotTerminal else TermMiss, s)
      | Some a =>
          match sh_heap s !! a with
          | None => (NotTerminal, s)
          | Some e =>
              if e_invalidated e then (NotTerminal, s)
              else if entryExpiredLocked c e now then (NotTerminal, s)
              else if e_has e flagNegative || e_has e flagSliding then (NotTerminal, s)
              else if PromotionNeeded (sh_policy s) (a, key) || shouldRefreshAhead c e now
              then (NotTerminal, s)
              else (TermHit (loadValue e), sh_write s a (addHit e))
          end
      end
  end.

(** [triggerAsyncRefreshLocked]: registers a flight; the load itself
    finishes in [applyLoadResultLocked]. *)
Definition startRefreshLocked s (key : K) : shard :=
  match fl_inflight (sh_flights s) !! key with
  | Some _ => s
  | None => sh_set_flights s (startFlight (sh_flights s) key (sh_nextFlight s))
              (Pos.succ (sh_nextFlight s))
  end.

Definition triggerAsyncRefreshLocked c s (key : K) : shard :=
  if cf_loader c then startRefreshLocked s key else s.

(** ** Loads *)

(** How a [Loader] call ended. *)
Inductive loadResult :=
| LoadOk (v : V) (ttl : Z)
| LoadNotFound
| LoadCtxErr (deadline : bool)
| LoadErr.

(** [prepareLoaded]: None when the value is too large to cache. *)
Definition prepareLoaded c (v : V) : option (Z * list string) :=
  let weight := weighOf c v in
  if bool_decide (0 < cf_maxValueWeight c) && bool_decide (cf_maxValueWeight c < weight)
  then None else Some (weight, cf_autoTags c v).

Definition storeLoadedLocked c g s (key : K) (val : V) (ttl : Z)
    (lv : option (Z * list string)) : globals * shard :=
  match lv with
  | None => (g, s)
  | Some (weight, tags) =>
      let ttl := if bool_decide (ttl = 0) then cf_defaultTTL c else ttl in
      let tags := match tags, st_get (sh_storage s) key ≫= (sh_heap s !!.) with
                  | [], Some e => e_tags e
                  | _, _ => tags
                  end in
      let '(ettl, g) := effectiveTTL c g ttl in
      upsertLocked c g s key val weight ettl (cf_slidingTTL c) ttl tags
  end.

Definition errorCacheMinPerShard : Z := 64.

(** The second loop of [cacheErrorLocked]: drops arbitrary errors until
    one more fits. *)
Fixpoint dropErrors (m : gmap K cachedError) (ks : list K) (limit : Z) : gmap K cachedError :=
  match ks with
  | [] => m
  | k :: ks => if bool_decide (Z.of_nat (size m) < limit) then m
               else dropErrors (delete k m) ks limit
  end.

Definition cacheErrorLocked c g s (key : K) : globals * shard :=
  let '(now, g) := clockNow c g in
  let limit := Z.max (sh_budget s) errorCacheMinPerShard in
  let m := sh_errors s in
  let m := if bool_decide (m !! key = None) && bool_decide (limit <= Z.of_nat (size m)) then
             let m := filter (λ kc, now < ce_expireAt kc.2) m in
             dropErrors m (map_to_list m).*1 limit
           else m in
  (g, sh_set_errors s (<[key := CachedError (i64 (now + cf_errorTTL c))]> m)).

Definition applyLoadResultLocked c g s (key : K) (flight : loc) (r : loadResult)
    : globals * shard :=
  if bool_decide (flight ∈ fl_superseded (sh_flights s)) || g_closed g then (g, s)
  else
    match r with
    | LoadOk v ttl => storeLoadedLocked c g s key v ttl (prepareLoaded c v)
    | LoadNotFound =>
        if bool_decide (0 < cf_negativeTTL c) then insertNegativeTombstoneLocked c g s key
        else (g, s)
    | LoadCtxErr _ => (g, s)
    | LoadErr => if bool_decide (0 < cf_errorTTL c) then cacheErrorLocked c g s key else (g, s)
    end.
End shard.
Arguments config : clear implicits.
Arguments fx : clear implicits.
Arguments callback : clear implicits.
Arguments lockFree : clear implicits.
Arguments loadResult : clear implicits.
Arguments globals K V A {_ _}.
Arguments readMap K {_ _}.
Arguments shard K V P St T {_ _}.

#[global] Arguments upsertLocked : simpl never.
#[global] Arguments upsertWithAbsoluteExpiryLocked : simpl never.
#[global] Arguments insertNegativeTombstoneLocked : simpl never.
#[global] Arguments removeLocked : simpl never.
#[global] Arguments removeKeyLocked : simpl never.
#[global] Arguments evictOverBudgetLocked : simpl never.
#[global] Arguments evictWhileOverBudgetLocked : simpl never.
#[global] Arguments refreshExpiryLocked : simpl never.
#[global] Arguments sweepExpiredLocked : simpl never.
#[global] Arguments deleteExpiredLocked : simpl never.
#[global] Arguments clearShardLocked : simpl never.
#[global] Arguments effectiveTTL : simpl never.
#[global] Arguments applyLoadResultLocked : simpl never.
#[global] Arguments tryLockFreeGet : simpl never.
