(* ===== verification/Admission.v ===== *)
(** * Admission: the admission policies ([admission.go])

    [AdmitAlways] and the bloom-filter [Doorkeeper], as instances of the
    class a shard consults ([AdmissionPolicy] of [Shard]). *)

From S2P Require Import Prelude Sketch Policy Storage Ttl Entry Tags Flights Shard.

#[local] Open Scope Z_scope.

Section admission.
Context {K : Type}.

(** ** [AdmitAlways] *)

Inductive AdmitAlways := MkAdmitAlways.

#[export] Instance admit_always : AdmissionPolicy K AdmitAlways := {
  Admit _ _ := true; Observe d _ := d; AdmReset d := d
}.

(** ** [Doorkeeper] *)

Context (hasher : K → Z).

Record Doorkeeper := MkDoorkeeper { dk_bloom : Bloom; dk_expected : Z; dk_added : Z }.

Implicit Types (d : Doorkeeper) (k : K).

Definition NewDoorkeeper (expected : Z) : Doorkeeper :=
  MkDoorkeeper (NewBloom expected [0xC0DECAFE; 0xBEEFFACE; 0xDEADBEEF; 0xFEEDFACE]) (Z.max expected 1) 0.

Definition dk_Admit d k : bool := bl_Test (dk_bloom d) (hasher k).

Definition dk_Observe d k : Doorkeeper :=
  let h := hasher k in
  if bl_Test (dk_bloom d) h then d
  else
    let '(bloom, added) := if bool_decide (dk_expected d <= dk_added d)
                           then (bl_Reset (dk_bloom d), 0)
                           else (dk_bloom d, dk_added d) in
    MkDoorkeeper (bl_Set bloom h) (dk_expected d) (added + 1).

Definition dk_Reset d : Doorkeeper := MkDoorkeeper (bl_Reset (dk_bloom d)) (dk_expected d) 0.

#[local] Instance doorkeeper_policy : AdmissionPolicy K Doorkeeper := {
  Admit := dk_Admit; Observe := dk_Observe; AdmReset := dk_Reset
}.

(** [resolveAdmissionPolicy]'s choice when no policy is configured. *)
Definition doorkeeperSize (maxEntries : Z) : Z := if bool_decide (maxEntries <= 0) then 1024 else maxEntries.

Record dk_wf d : Prop := DkWf {
  dw_bloom : bloom_wf (dk_bloom d);
  dw_seeds : bl_seeds (dk_bloom d) ≠ [];
  dw_added : 0 <= dk_added d <= dk_expected d;
  dw_expected : 1 <= dk_expected d
}.

Lemma Observe_wf d k : dk_wf d → dk_wf (dk_Observe d k).
Proof.
  intros [W1 W2 W3 W4]. unfold dk_Observe. destruct (bl_Test _ _); [by constructor|].
  case_bool_decide; constructor; cbn; try done; try lia; [apply Set_wf, Reset_wf|apply Set_wf]; done.
Qed.

Lemma Observe_admits d k : dk_wf d → dk_Admit (dk_Observe d k) k = true.
Proof.
  intros [W1 W2 W3 W4]. unfold dk_Observe, dk_Admit.
  destruct (bl_Test (dk_bloom d) (hasher k)) eqn:Ht; [done|].
  assert (∀ b, bloom_wf b → bl_Test (bl_Set b (hasher k)) (hasher k) = true) as HS.
  { intros b Hb. apply (Test_after b (hasher k) [hasher k] Hb). left. set_solver. }
  case_bool_decide; cbn [dk_bloom]; apply HS; [by apply Reset_wf|done].
Qed.

(** An observed key stays admitted while the filter does not fill up. *)
Lemma Observe_keeps d k k' :
  dk_wf d → dk_Admit d k = true → dk_added d < dk_expected d →
  dk_Admit (dk_Observe d k') k = true ∧ dk_added (dk_Observe d k') <= dk_added d + 1 ∧
  dk_expected (dk_Observe d k') = dk_expected d.
Proof.
  intros [W1 W2 W3 W4] Ha Hl. unfold dk_Observe. destruct (bl_Test (dk_bloom d) (hasher k')) eqn:Ht; [by split_and!; [|lia|]|].
  rewrite bool_decide_false; [|lia]. cbn. split_and!; [|done|done].
  apply (Test_after (dk_bloom d) (hasher k) [hasher k'] W1). by right.
Qed.

Lemma Observes_keep d k ks :
  dk_wf d → dk_Admit d k = true → dk_added d + Z.of_nat (length ks) <= dk_expected d →
  dk_Admit (foldl dk_Observe d ks) k = true.
Proof.
  revert d. induction ks as [|k' ks IH]; intros d Hw Ha Hl; cbn in *; [done|].
  destruct (Observe_keeps d k k' Hw Ha ltac:(lia)) as (O1 & O2 & O3).
  apply IH; [by apply Observe_wf|done|]. rewrite O3. lia.
Qed.
End admission.
Arguments AdmitAlways : clear implicits.

(** The doorkeeper is a seen-twice filter: a new one turns every key down,
    a key it has observed is admitted, and stays so while fewer keys than the
    expected number have been recorded since it last cleared itself. *)
Theorem doorkeeper_seen_twice {K} (hasher : K → Z) expected k ks :
  1 <= expected <= 2 ^ 59 → Z.of_nat (length ks) < expected →
  dk_Admit hasher (NewDoorkeeper expected) k = false ∧
  dk_Admit hasher (foldl (dk_Observe hasher) (dk_Observe hasher (NewDoorkeeper expected) k) ks) k = true.
Proof.
  intros He Hl. destruct (NewBloom_wf expected [0xC0DECAFE; 0xBEEFFACE; 0xDEADBEEF; 0xFEEDFACE] ltac:(lia)) as [B1 B2].
  assert (dk_wf (NewDoorkeeper expected)) as Hw by (constructor; cbn [dk_bloom dk_added dk_expected NewDoorkeeper]; done || lia).
  assert (dk_Admit hasher (NewDoorkeeper expected) k = false) as Hf.
  { unfold dk_Admit. cbn [dk_bloom NewDoorkeeper]. rewrite -(Reset_Test _ (hasher k) B1 B2). f_equal.
    unfold bl_Reset, NewBloom. cbn [bl_bits bl_mask bl_seeds]. by rewrite length_replicate. }
  split; [done|]. apply Observes_keep; [by apply Observe_wf|by apply Observe_admits|].
  unfold dk_Admit in Hf. unfold dk_Observe. rewrite Hf. rewrite bool_decide_false; [|cbn [dk_expected dk_added NewDoorkeeper]; lia].
  cbn [dk_expected dk_added NewDoorkeeper]. lia.
Qed.

Lemma doorkeeper_seen_twice_witness :
  dk_Admit u64 (foldl (dk_Observe u64) (dk_Observe u64 (NewDoorkeeper 4) 10) [11; 12]) 10 = true ∧
  dk_Admit u64 (foldl (dk_Observe u64) (dk_Observe u64 (NewDoorkeeper 4) 10) [11; 12; 13; 14]) 10 = false.
Proof.
  split; [|vm_compute; done]. refine (proj2 (doorkeeper_seen_twice u64 4 10 [11; 12] _ _)); [lia|cbn; lia].
Defined.
