(* ===== verification/Cache.v ===== *)
(** * Cache: the public operations ([cache.go], [tags.go], [tagcleanup.go])

    A cache is its shards and the cache-wide state.  Each operation is the
    sequence of locked shard routines the code runs, with the unlocks that
    fire the deferred callbacks and shed entries over the bounds.  Operations
    run one after the other, so [shedding] and [shedRetry] are never
    contended; the walks are in Bulk.v, the loads in Loads.v, and the list of
    operations in Run.v. *)

From S2P Require Import Prelude Policy Storage Ttl Entry Tags Flights Shard.

#[local] Open Scope Z_scope.

(** The errors an operation returns. *)
Inductive error :=
| ErrClosed
| ErrInvalidTTL
| ErrKeyTooLarge
| ErrValueTooLarge
| ErrTooManyTags.

Definition perShardBudget (maxEntries shardCount : Z) : Z :=
  if bool_decide (maxEntries <= 0) || bool_decide (shardCount <= 0) then 0
  else
    let per := i64 (i64 (maxEntries + shardCount) - 1) `quot` shardCount in
    let slop := Z.max (i64 (per * 10) `quot` 100) 1 in
    i64 (per + slop).

Section cache.
Context {K V P St T A : Type} `{Countable K, Inhabited K, Inhabited V}.
Context `{EvictionPolicy K P, ShardStore K St, TtlBackend T, AdmissionPolicy K A}.

Local Abbreviation entry := (entry K V).
Local Abbreviation config := (config K V).
Local Abbreviation globals := (globals K V A).
Local Abbreviation shard := (shard K V P St T).

Record cache := Cache { c_g : globals; c_shards : list shard }.

Implicit Types (c : config) (C : cache) (g : globals) (s : shard).

(** ** Construction *)

(** [newShard], and the empty snapshot of [maybeInitReadSnapshot]. *)
Definition newShard c (p : P) (budget : Z) (trackCollisions : bool) (ttl : T) (storage : St)
    : shard :=
  Shard storage p ttl ∅ [] 1%positive false no_flights 1%positive ∅ budget
    (if trackCollisions then Some ∅ else None)
    (if cf_lockFreeRead c then Some (ReadMap ∅ false) else None) 0 [].

(** The cache [build] returns: [initShards] with the components' constructors
    as arguments. *)
Definition newCache c (maxEntries shards : Z) (collisionTracking : bool)
    (newPolicy : Z → P) (newTTL : T) (newStore : St) (adm : A) : cache :=
  let shardCount := nextPowerOfTwo (Z.max shards 1) in
  let perShard := perShardBudget maxEntries shardCount in
  Cache (Globals 0 0 (λ _, 0) newTagIndex [] 0 adm false false maxEntries (cf_maxBytes c)
           0 0 0 [])
    (replicate (Z.to_nat shardCount)
       (newShard c (newPolicy perShard) perShard collisionTracking newTTL newStore)).

Definition shardFor c (key : K) : nat := Z.to_nat (Z.land (cf_hasher c key) (cf_shardMask c)).

Definition set_g C g : cache := Cache g (c_shards C).

(** Runs [f] on shard [i] under its lock. *)
Definition locked {R} C (i : nat) (f : globals → shard → globals * shard * R) (d : R)
    : cache * R :=
  match c_shards C !! i with
  | None => (C, d)
  | Some s =>
      let '(g, s, r) := f (c_g C) s in
      (Cache g (<[i := s]> (c_shards C)), r)
  end.

(** [f] with no result. *)
Definition locked_ C (i : nat) (f : globals → shard → globals * shard) : cache :=
  (locked C i (λ g s, (f g s, tt)) tt).1.

(** ** Unlocking *)

(** The callbacks a routine deferred, fired after the unlock. *)
Definition releaseShard c C (i : nat) : cache :=
  locked_ C i (λ g s,
    (emit g (concat (map (removeCallbackFor c) (sh_callbacks s))), sh_set_callbacks s [])).

(** The visitor of [shedPass]: false when the cache is within bounds. *)
Definition shed_shard c C (i : nat) (reason : EvictionReason) : cache * option Z :=
  if overBudget (c_g C) then
    let '(C, n) := locked C i (λ g s, evictOverBudgetLocked c g s reason 0) 0 in
    (releaseShard c C i, Some n)
  else (C, None).

(** The loop over the shards from [start], [last] skipped. *)
Fixpoint shed_loop c C (reason : EvictionReason) (last : option nat) (idxs : list nat)
    (count : Z) : cache * Z * bool :=
  match idxs with
  | [] => (C, count, true)
  | i :: idxs =>
      if decide (last = Some i) then shed_loop c C reason last idxs count
      else match shed_shard c C i reason with
           | (C, None) => (C, count, false)
           | (C, Some n) => shed_loop c C reason last idxs (count + n)
           end
  end.

Definition shedPass c C (reason : EvictionReason) (last : option nat) : cache * Z :=
  let g := c_g C in
  let start := u64 (g_shedNext g + 1) in
  let C := set_g C (g_set_bounds g (g_maxEntries g) (g_maxBytes g) start) in
  let idxs := map (λ i, Z.to_nat (Z.land (u64 (start + Z.of_nat i)) (cf_shardMask c)))
                (seq 0 (length (c_shards C))) in
  let '(C, count, go) := shed_loop c C reason last idxs 0 in
  if negb go then (C, count)
  else match last with
       | None => (C, count)
       | Some i => match shed_shard c C i reason with
                   | (C, None) => (C, count)
                   | (C, Some n) => (C, count + n)
                   end
       end.

Fixpoint shed_passes (fuel : nat) c C (reason : EvictionReason) (last : option nat) (count : Z)
    : cache * Z :=
  match fuel with
  | O => (C, count)
  | S fuel =>
      if overBudget (c_g C) then
        let '(C, n) := shedPass c C reason last in
        if bool_decide (n = 0) then (C, count)
        else shed_passes fuel c C reason last (count + n)
      else (C, count)
  end.

(** The entries the tables hold. *)
Definition total_entries C : Z :=
  foldr (λ s n, st_length (sh_storage s) + n) 0 (c_shards C).

(** Every pass but the last evicts, so one more pass than there are entries
    is enough ([shed_passes_done]). *)
Definition shedOverBudget c C (reason : EvictionReason) (last : option nat) : cache * Z :=
  shed_passes (S (Z.to_nat (total_entries C))) c C reason last 0.

Definition flushAndUnlock c C (i : nat) : cache :=
  (shedOverBudget c (releaseShard c C i) EvictReasonCapacity (Some i)).1.

(** ** Validation *)

Definition checkKeySize c (key : K) : option error :=
  if bool_decide (cf_maxKeySize c <= 0) then None
  else match cf_keyLen c key with
       | None => None
       | Some n => if bool_decide (n <= cf_maxKeySize c) then None else Some ErrKeyTooLarge
       end.

Definition computeWeight c (value : V) : error + Z :=
  let weight := weighOf c value in
  if bool_decide (0 < cf_maxValueWeight c) && bool_decide (cf_maxValueWeight c < weight)
  then inl ErrValueTooLarge else inr weight.

(** [validateTagLimits] and the wrapping of its error by
    [checkTagLimits]. *)
Definition checkTagLimits c g (tags : list string) : option error :=
  let distinct := remove_dups tags in
  if bool_decide (0 < cf_maxTagsPerEntry c) &&
     bool_decide (cf_maxTagsPerEntry c < Z.of_nat (length distinct))
  then Some ErrTooManyTags
  else if bool_decide (0 < cf_maxTagsTotal c) then
    let current := ti_distinctTagCount (g_tags g) in
    let newDistinct := Z.of_nat (length (filter (λ t, ti_keysByTag (g_tags g) !! t = None) distinct)) in
    if bool_decide (cf_maxTagsTotal c < current + newDistinct) then Some ErrTooManyTags else None
  else None.

(** ** Groups *)

Definition shard_get c C (key : K) : option entry :=
  s ← c_shards C !! shardFor c key; a ← st_get (sh_storage s) key; sh_heap s !! a.

Definition countLiveMembers c C (members : list K) : Z :=
  Z.of_nat (length (filter (λ k, is_Some (shard_get c C k)) members)).

Definition findOldestMember c C (members : list K) : option K :=
  fst <$> foldl (λ (best : option (K * Z)) k,
    match shard_get c C k with
    | None => best
    | Some e => match best with
                | None => Some (k, e_inserted e)
                | Some (_, t) => if bool_decide (e_inserted e < t)
                                 then Some (k, e_inserted e) else best
                end
    end) None members.

(** [removeLocked] of the entry of a key, and the unlock. *)
Definition removeKey c C (key : K) (reason : EvictionReason) : cache * bool :=
  let i := shardFor c key in
  let '(C, removed) := locked C i (λ g s,
    match st_get (sh_storage s) key with
    | Some a => (removeLocked c g s a reason, true)
    | None => (g, s, false)
    end) false in
  (flushAndUnlock c C i, removed).

Fixpoint shrink_loop (fuel : nat) c C (tag : string) (capacity : Z) : cache :=
  match fuel with
  | O => C
  | S fuel =>
      let members := ti_snapshot (g_tags (c_g C)) tag in
      if bool_decide (countLiveMembers c C members <= capacity) then C
      else match findOldestMember c C members with
           | None => C
           | Some k => shrink_loop fuel c (removeKey c C k EvictReasonTag).1 tag capacity
           end
  end.

(** Each turn removes a live member. *)
Definition shrinkGroup c C (tag : string) (capacity : Z) : cache :=
  shrink_loop (S (Z.to_nat (countLiveMembers c C (ti_snapshot (g_tags (c_g C)) tag))))
    c C tag capacity.

Definition enforceGroupBudgets c C (tags : list string) : cache :=
  foldl (λ C tag, match cf_groups c !! tag with
                  | Some capacity => shrinkGroup c C tag capacity
                  | None => C
                  end) C tags.

(** ** Set *)

(** [setLockedInto], the unlock and the callbacks. *)
Definition setLockedInto c C (key : K) (value : V) (ttl : Z) (sliding : bool)
    (tags : list string) : cache * option error :=
  if g_closed (c_g C) then (C, Some ErrClosed)
  else match checkKeySize c key with
       | Some e => (C, Some e)
       | None =>
           match computeWeight c value with
           | inl e => (C, Some e)
           | inr weight =>
               match checkTagLimits c (c_g C) tags with
               | Some e => (C, Some e)
               | None =>
                   let C := locked_ C (shardFor c key) (λ g s,
                     let '(ettl, g) := effectiveTTL c g ttl in
                     upsertLocked c g s key value weight ettl sliding ttl tags) in
                   (C, None)
               end
           end
       end.

(** [setAndStore] without a Store: [settle] runs on every path. *)
Definition setAndStore c C (key : K) (value : V) (ttl : Z) (sliding : bool)
    (tags : list string) : cache * option error :=
  let '(C, err) := setLockedInto c C key value ttl sliding tags in
  (flushAndUnlock c C (shardFor c key), err).

Definition setTTLCtx c C (key : K) (value : V) (ttl : Z) : cache * option error :=
  let tags := cf_autoTags c value in
  match setAndStore c C key value ttl (cf_slidingTTL c) tags with
  | (C, Some e) => (C, Some e)
  | (C, None) => (enforceGroupBudgets c C tags, None)
  end.

Definition Set_ c C (key : K) (value : V) : cache * option error :=
  setTTLCtx c C key value (cf_valueTTL c value (cf_defaultTTL c)).

Definition SetWithTTL c C (key : K) (value : V) (ttl : Z) : cache * option error :=
  if bool_decide (ttl < 0) then (C, Some ErrInvalidTTL) else setTTLCtx c C key value ttl.

(** [setConfig]; None means the option was not given. *)
Record setConfig := SetConfig {
  sc_ttl : option Z;
  sc_weight : option Z;
  sc_tags : option (list string);
  sc_expireAt : option (option Z);
  sc_sliding : option bool
}.

(** The checks of [setWithOptions]: the tags and the weight of the entry. *)
Definition prepareOptions c C (key : K) (value : V) (sc : setConfig) : error + list string * Z :=
  if g_closed (c_g C) then inl ErrClosed
  else if bool_decide (is_Some (sc_ttl sc)) && bool_decide (default (cf_defaultTTL c) (sc_ttl sc) < 0)
  then inl ErrInvalidTTL
  else
    match checkKeySize c key with
    | Some e => inl e
    | None =>
        let tags := match sc_tags sc with Some t => t | None => cf_autoTags c value end in
        match checkTagLimits c (c_g C) tags with
        | Some e => inl e
        | None =>
            let weight := match sc_weight sc with
                          | Some w =>
                              let w := clampWeight w in
                              if bool_decide (0 < cf_maxValueWeight c) &&
                                 bool_decide (cf_maxValueWeight c < w)
                              then inl ErrValueTooLarge else inr w
                          | None => computeWeight c value
                          end in
            match weight with
            | inl e => inl e
            | inr weight => inr (tags, weight)
            end
        end
    end.

(** The write of [setOptionsAndStore] under the shard lock. *)
Definition upsertOptions c g s (key : K) (value : V) (sc : setConfig) (tags : list string) (weight : Z)
    : globals * shard :=
  match sc_expireAt sc with
  | Some at_ => upsertWithAbsoluteExpiryLocked c g s key value weight at_ tags
  | None =>
      let ttl := default (cf_defaultTTL c) (sc_ttl sc) in
      let '(ettl, g) := effectiveTTL c g ttl in
      upsertLocked c g s key value weight ettl (default (cf_slidingTTL c) (sc_sliding sc)) ttl tags
  end.

Definition setWithOptions c C (key : K) (value : V) (sc : setConfig) : cache * option error :=
  match prepareOptions c C key value sc with
  | inl e => (C, Some e)
  | inr (tags, weight) =>
      let i := shardFor c key in
      let C := locked_ C i (λ g s, upsertOptions c g s key value sc tags weight) in
      let C := flushAndUnlock c C i in
      (enforceGroupBudgets c C tags, None)
  end.

(** ** Delete *)

Definition deleteKey c C (key : K) (reason : EvictionReason) : cache * bool :=
  if g_closed (c_g C) then (C, false)
  else
    let i := shardFor c key in
    let '(C, removed) := locked C i (λ g s, removeKeyLocked c g s key reason) false in
    (flushAndUnlock c C i, removed).

Definition Delete c C (key : K) : cache * bool := deleteKey c C key EvictReasonDeleted.

(** ** Get *)

(** How a lookup in memory ended: a hit, a miss that a Store may still turn
    into a hit, or a miss that is final. *)
Inductive slow := SlowHit (v : V) | SlowMiss | FinalMiss.

(** The hit bookkeeping shared by the slow path of [getCtx],
    [GetWithExpiry] and [GetOrSet]: [hits.Add(1)], [touchAccess],
    [expiryFix], [OnAccess]. *)
Definition touchLocked s (key : K) (a : loc) (e : entry) (now : Z) : shard :=
  let '(e, shifted) := touchAccess (addHit e) now in
  let s := sh_write s a e in
  let s := if shifted then expiryFix s a else s in
  sh_set_policy s (OnAccess (sh_policy s) (a, key)).

(** The slow path of [getCtx] under the write lock.  Where the code unlocks and
    returns [missOrReadThrough] this ends with [SlowMiss]: what follows the
    unlock is [missResult] in a cache without a Store ([Get]) and
    [missOrReadThrough] in one with a Store ([Get_st]). *)
Definition slowGetLocked c g s (key : K) (now : Z) : globals * shard * slow :=
  match st_get (sh_storage s) key with
  | None => (g, s, SlowMiss)
  | Some a =>
      match sh_heap s !! a with
      | None => (g, s, SlowMiss)
      | Some e =>
          match entryExpiredLockedReason c e now with
          | Some reason =>
              if negb (e_has e flagNegative) && shouldServeStale c e now then
                let s := triggerAsyncRefreshLocked c s key in
                let g := g_count g staleWhileRevalidate 1 in
                let s := sh_write s a (addHit e) in
                let s := sh_set_policy s (OnAccess (sh_policy s) (a, key)) in
                (g, s, SlowHit (loadValue e))
              else
                let '(g, s) := removeLocked c g s a reason in
                (g_count g expirations 1, s, SlowMiss)
          | None =>
              if e_has e flagNegative then (g_count g negativeHits 1, s, FinalMiss)
              else
                let s := touchLocked s key a e now in
                let e' := (touchAccess (addHit e) now).1 in
                let '(g, s) :=
                  if shouldRefreshAhead c e' now
                  then (g_count g refreshAhead 1, triggerAsyncRefreshLocked c s key)
                  else (g, s) in
                let s := maybePromoteOnSlowHit c s key in
                (g, s, SlowHit (loadValue e'))
          end
      end
  end.

(** The test of the fast path under the read lock. *)
Definition fastHit c s (key : K) (a : loc) (e : entry) (now : Z) : bool :=
  negb (entryExpiredLocked c e now) && negb (e_has e flagNegative) &&
  negb (e_has e flagSliding) && negb (PromotionNeeded (sh_policy s) (a, key)) &&
  negb (shouldRefreshAhead c e now).

Definition hitResult c C (key : K) (v : V) : cache * option V :=
  let g := recordHitObserve c (c_g C) key in
  (set_g C (fireHit c g key v), Some (returnValue c v)).

(** Without a Store, [missOrReadThrough] records the miss. *)
Definition missResult c C (key : K) : cache * option V :=
  let g := stat c (c_g C) misses in
  (set_g C (fireMiss c g key), None).

(** Reads the clock unless [haveNow]. *)
Definition needNow c C (haveNow : option Z) : Z * cache :=
  match haveNow with
  | Some now => (now, C)
  | None => let '(now, g) := clockNow c (c_g C) in (now, set_g C g)
  end.

Definition slowGet c C (key : K) (haveNow : option Z) : cache * slow :=
  let i := shardFor c key in
  let '(now, C) := needNow c C haveNow in
  let '(C, r) := locked C i (λ g s, slowGetLocked c g s key now) SlowMiss in
  (flushAndUnlock c C i, r).

Definition lockedGet c C (key : K) (haveNow : option Z) : cache * slow :=
  let i := shardFor c key in
  match c_shards C !! i with
  | None => (C, SlowMiss)
  | Some s =>
      match st_get (sh_storage s) key ≫= λ a, e ← sh_heap s !! a; Some (a, e) with
      | None => slowGet c C key haveNow
      | Some (a, e) =>
          let '(now, C, haveNow) :=
            if bool_decide (haveNow = None) && bool_decide (e_expireAt e ≠ 0) then
              let '(now, C) := needNow c C None in (now, C, Some now)
            else (default 0 haveNow, C, haveNow) in
          if fastHit c s key a e now then
            let s := sh_write s a (addHit e) in
            let s := if cf_lockFreeRead c then recordReadMiss s (snapshotHasKey s key) else s in
            (Cache (c_g C) (<[i := s]> (c_shards C)), SlowHit (loadValue e))
          else slowGet c C key haveNow
      end
  end.

(** The lookup of [getCtx] in memory, up to the statistics and hooks.  A miss
    in a snapshot that is not amended is final. *)
Definition snapshotGet c C (key : K) (now : Z) : cache * slow :=
  let i := shardFor c key in
  let '(C, r) := locked C i (λ g s, let '(r, s) := tryLockFreeGet c s key now in (g, s, r))
                   NotTerminal in
  match r with
  | TermHit v => (C, SlowHit v)
  | TermMiss => (C, FinalMiss)
  | NotTerminal => lockedGet c C key (Some now)
  end.

Definition getMem c C (key : K) : cache * slow :=
  if cf_lockFreeRead c then let '(now, C) := needNow c C None in snapshotGet c C key now
  else lockedGet c C key None.

(** Without a Store both misses end in [recordMiss] and [fireMiss]. *)
Definition Get c C (key : K) : cache * option V :=
  if g_closed (c_g C) then (C, None)
  else match getMem c C key with
       | (C, SlowHit v) => hitResult c C key v
       | (C, _) => missResult c C key
       end.

(** ** Reads that do not promote *)

(** The entry a [Peek]-like reader sees at [now]. *)
Definition freshAt c (now : Z) (o : option entry) : option entry :=
  match o with
  | Some e => if entryExpiredLocked c e now || e_has e flagNegative then None else Some e
  | None => None
  end.

Definition Peek c C (key : K) : cache * option V :=
  if g_closed (c_g C) then (C, None)
  else
    let '(now, g) := clockNow c (c_g C) in
    (set_g C g, (λ e, returnValue c (loadValue e)) <$> freshAt c now (shard_get c C key)).

Definition Has c C (key : K) : cache * bool :=
  if g_closed (c_g C) then (C, false)
  else
    let '(now, g) := clockNow c (c_g C) in
    (set_g C g, bool_decide (is_Some (freshAt c now (shard_get c C key)))).

(** None is (0, false); [Some 0] an entry without TTL. *)
Definition ttlAt c C (key : K) (now : Z) : option Z :=
  match freshAt c now (shard_get c C key) with
  | None => None
  | Some e =>
      if bool_decide (e_expireAt e = 0) then Some 0
      else let remaining := i64 (e_expireAt e - now) in
           if bool_decide (remaining < 0) then None else Some remaining
  end.

Definition TTL c C (key : K) : cache * option Z :=
  if g_closed (c_g C) then (C, None)
  else let '(now, g) := clockNow c (c_g C) in (set_g C g, ttlAt c C key now).

(** ** Touch *)

Definition touchKeyLocked c g s (key : K) (ttlOf : entry → Z) (now : Z) : globals * shard * bool :=
  match st_get (sh_storage s) key with
  | None => (g, s, false)
  | Some a =>
      match freshAt c now (sh_heap s !! a) with
      | None => (g, s, false)
      | Some e => (refreshExpiryLocked c g s a now (ttlOf e), true)
      end
  end.

Definition touchKey c C (key : K) (ttlOf : entry → Z) : cache * bool :=
  let i := shardFor c key in
  let '(now, g) := clockNow c (c_g C) in
  let '(C, b) := locked (set_g C g) i (λ g s, touchKeyLocked c g s key ttlOf now) false in
  (flushAndUnlock c C i, b).

(** The TTL [Touch] gives an entry. *)
Definition touchTTL c (e : entry) : Z :=
  if e_has e flagSliding && bool_decide (0 < e_slidingTTL e) then e_slidingTTL e else cf_defaultTTL c.

Definition Touch c C (key : K) : cache * bool :=
  if g_closed (c_g C) then (C, false) else touchKey c C key (touchTTL c).

Definition TouchWithTTL c C (key : K) (ttl : Z) : cache * bool :=
  if g_closed (c_g C) || bool_decide (ttl < 0) then (C, false)
  else touchKey c C key (λ _, ttl).

(** ** Conditional writes *)

(** [freshEntryLocked]: the clock is read only past the negative test. *)
Definition freshEntryLocked c g s (key : K) : globals * option (loc * entry) :=
  match st_get (sh_storage s) key ≫= λ a, e ← sh_heap s !! a; Some (a, e) with
  | None => (g, None)
  | Some (a, e) =>
      if e_has e flagNegative then (g, None)
      else let '(now, g) := clockNow c g in
           (g, if entryExpiredLocked c e now then None else Some (a, e))
  end.

(** The checks [SetIfAbsent], [SetIfPresent], [GetOrSet] and [PeekOrAdd]
    make before they lock. *)
Definition checkWrite c C (key : K) (value : V) : error + Z :=
  if g_closed (c_g C) then inl ErrClosed
  else match checkKeySize c key with
       | Some e => inl e
       | None => match computeWeight c value with
                 | inl e => inl e
                 | inr w => match checkTagLimits c (c_g C) (cf_autoTags c value) with
                            | Some e => inl e
                            | None => inr w
                            end
                 end
       end.

(** The [upsertLocked] call of the same four methods. *)
Definition upsertDefault c g s (key : K) (value : V) (weight : Z) : globals * shard :=
  let '(ettl, g) := effectiveTTL c g (cf_defaultTTL c) in
  upsertLocked c g s key value weight ettl (cf_slidingTTL c) (cf_defaultTTL c) (cf_autoTags c value).

(** What the four methods do under the shard lock. *)
Definition setIfAbsentLocked c (key : K) (value : V) (weight : Z) g s : globals * shard * bool :=
  match freshEntryLocked c g s key with
  | (g, Some _) => (g, s, false)
  | (g, None) => (upsertDefault c g s key value weight, true)
  end.

Definition setIfPresentLocked c (key : K) (value : V) (weight : Z) g s : globals * shard * bool :=
  match freshEntryLocked c g s key with
  | (g, None) => (g, s, false)
  | (g, Some _) => (upsertDefault c g s key value weight, true)
  end.

Definition getOrSetLocked c (key : K) (value : V) (weight : Z) g s : globals * shard * (V * bool) :=
  match freshEntryLocked c g s key with
  | (g, Some (a, e)) =>
      let '(now, g) := clockNow c g in
      (stat c g hits, touchLocked s key a e now, (returnValue c (loadValue e), true))
  | (g, None) => (upsertDefault c g s key value weight, (value, false))
  end.

Definition peekOrAddLocked c (key : K) (value : V) (weight : Z) g s : globals * shard * (V * bool) :=
  match freshEntryLocked c g s key with
  | (g, Some (a, e)) => (g, s, (returnValue c (loadValue e), true))
  | (g, None) => (upsertDefault c g s key value weight, (value, false))
  end.

Definition SetIfAbsent c C (key : K) (value : V) : cache * (error + bool) :=
  match checkWrite c C key value with
  | inl e => (C, inl e)
  | inr weight =>
      let i := shardFor c key in
      let '(C, stored) := locked C i (setIfAbsentLocked c key value weight) false in
      (flushAndUnlock c C i, inr stored)
  end.

Definition SetIfPresent c C (key : K) (value : V) : cache * (error + bool) :=
  match checkWrite c C key value with
  | inl e => (C, inl e)
  | inr weight =>
      let i := shardFor c key in
      let '(C, updated) := locked C i (setIfPresentLocked c key value weight) false in
      (flushAndUnlock c C i, inr updated)
  end.

Definition GetOrSet c C (key : K) (value : V) : cache * (error + V * bool) :=
  match checkWrite c C key value with
  | inl e => (C, inl e)
  | inr weight =>
      let i := shardFor c key in
      let '(C, r) := locked C i (getOrSetLocked c key value weight) (value, false) in
      (flushAndUnlock c C i, inr r)
  end.

Definition PeekOrAdd c C (key : K) (value : V) : cache * (error + V * bool) :=
  match checkWrite c C key value with
  | inl e => (C, inl e)
  | inr weight =>
      let i := shardFor c key in
      let '(C, r) := locked C i (peekOrAddLocked c key value weight) (value, false) in
      (flushAndUnlock c C i, inr r)
  end.

Definition deleteIfLocked c g s (key : K) (pred : V → bool) (now : Z) : globals * shard * bool :=
  match st_get (sh_storage s) key with
  | None => (g, s, false)
  | Some a =>
      match freshAt c now (sh_heap s !! a) with
      | None => (g, s, false)
      | Some e =>
          if negb (pred (returnValue c (loadValue e))) then (g, s, false)
          else let '(g, s) := removeLocked c g s a EvictReasonDeleted in
               (g_count g deletes 1, s, true)
      end
  end.

Definition DeleteIf c C (key : K) (pred : V → bool) : cache * bool :=
  if g_closed (c_g C) then (C, false)
  else
    let i := shardFor c key in
    let '(now, g) := clockNow c (c_g C) in
    let '(C, b) := locked (set_g C g) i (λ g s, deleteIfLocked c g s key pred now) false in
    (flushAndUnlock c C i, b).

(** ** Whole-cache operations *)

(** [for _, s := range c.shards] over the shards' indices. *)
Definition eachShard {R} C (f : cache → nat → R → cache * R) (r : R) : cache * R :=
  foldl (λ '(C, r) i, f C i r) (C, r) (seq 0 (length (c_shards C))).

Definition clearAll c (clear : bool) C : cache :=
  (eachShard C (λ C i _, (flushAndUnlock c (locked_ C i (clearShardLocked c clear)) i, tt)) tt).1.

(** [WithPurgeVisitor] is not configured; what its visitor sees is in Close.v. *)
Definition Clear c C : cache := if g_closed (c_g C) then C else clearAll c true C.

Definition Reset_ c C : cache :=
  clearAll c false (set_g C (g_set_admission (c_g C) (AdmReset (g_admission (c_g C))))).

Definition DeleteExpired c C : cache * Z :=
  if g_closed (c_g C) then (C, 0)
  else
    let '(now, g) := clockNow c (c_g C) in
    eachShard (set_g C g) (λ C i count,
      let '(C, n) := locked C i (λ g s, deleteExpiredLocked c g s now) 0 in
      (flushAndUnlock c C i, count + n)) 0.

(** A janitor tick of shard [i] (the body of [runJanitor]'s loop, the
    re-arming of the timer left out). *)
Definition janitorTick c C (i : nat) : cache :=
  let '(now, g) := clockNow c (c_g C) in
  let '(C, _) := locked (set_g C g) i (λ g s, sweepExpiredLocked c g s now) 0 in
  flushAndUnlock c C i.

Definition maxInt : Z := 2 ^ 63 - 1.

Definition Resize c C (newSize : Z) : cache * Z :=
  if g_closed (c_g C) || bool_decide (newSize <= 0) then (C, 0)
  else
    let g := g_count (c_g C) resizes 1 in
    let g := if bool_decide (0 < cf_maxBytes c)
             then g_set_bounds g (g_maxEntries g) newSize (g_shedNext g)
             else g_set_bounds g newSize (g_maxBytes g) (g_shedNext g) in
    let perShard := perShardBudget (g_maxEntries g) (Z.of_nat (length (c_shards C))) in
    let '(C, evicted) := eachShard (set_g C g) (λ C i n,
      let '(C, k) := locked C i (λ g s,
        let s := sh_set_budget s perShard in
        let s := sh_set_policy s (SetBudget (sh_policy s) perShard) in
        evictOverBudgetLocked c g s EvictReasonResize maxInt) 0 in
      (releaseShard c C i, n + k)) 0 in
    let '(C, n) := shedOverBudget c C EvictReasonResize None in
    let '(at_, g) := clockNow c (c_g C) in
    (set_g C (if cf_events c then emit g [FxEventResize at_] else g), evicted + n).

(** ** Tags *)

(** The loop of [InvalidateTag] and [InvalidateTags] over the doomed keys. *)
Definition removeKeys c C (keys : list K) (reason : EvictionReason) : cache * Z :=
  foldl (λ '(C, n) k, let '(C, b) := removeKey c C k reason in (C, if b : bool then n + 1 else n))
    (C, 0) keys.

Definition finishInvalidate c (r : cache * Z) (tags : list string) : cache * Z :=
  let '(C, count) := r in
  if bool_decide (0 < count) then
    let '(at_, g) := clockNow c (c_g C) in
    (set_g C (if cf_events c then emit g [FxEventInvalidateTag at_ tags] else g), count)
  else (C, count).

Definition InvalidateTag c C (tag : string) : cache * Z :=
  if g_closed (c_g C) then (C, 0)
  else
    let C := set_g C (g_count (c_g C) tagInvalidations 1) in
    finishInvalidate c (removeKeys c C (ti_snapshot (g_tags (c_g C)) tag) EvictReasonTag) [tag].

Definition InvalidateTags c C (tags : list string) : cache * Z :=
  if g_closed (c_g C) || bool_decide (tags = []) then (C, 0)
  else
    let C := set_g C (g_count (c_g C) tagInvalidations 1) in
    let doomed : gset K := list_to_set (concat (map (ti_snapshot (g_tags (c_g C))) tags)) in
    finishInvalidate c (removeKeys c C (elements doomed) EvictReasonTag) tags.

(** One queued [untagOp]: the body of the loop of [applyUntagBatch]. *)
Definition applyUntag c C (op : K * list string) : cache :=
  let '(key, tags) := op in
  let current := match shard_get c C key with Some e => e_tags e | None => [] end in
  let g := c_g C in
  let idx := foldl (λ idx t, if decide (t ∈ current) then idx else ti_untag idx key [t])
               (g_tags g) tags in
  set_g C (g_set_tags g idx (g_untagQueue g) (g_tagOverflows g)).

(** The drainer takes the oldest op off the queue and applies it. *)
Definition drainUntag c C : cache :=
  match g_untagQueue (c_g C) with
  | [] => C
  | op :: q =>
      applyUntag c (set_g C (g_set_tags (c_g C) (g_tags (c_g C)) q (g_tagOverflows (c_g C)))) op
  end.

(** ** Loads *)

Definition load_ok (r : loadResult V) : bool := match r with LoadOk _ _ => true | _ => false end.

(** A load of [key] finishes: the part of [runLoader] after the call, up to
    the unlock. *)
Definition finishLoad c C (key : K) (flight : loc) (r : loadResult V) : cache :=
  let i := shardFor c key in
  let C := locked_ C i (λ g s,
    let s := sh_set_flights s (leaveInflight (sh_flights s) key flight) (sh_nextFlight s) in
    let g := stat c g loadsTotal in
    let g := stat c g (if load_ok r then loadHits else loadErrors) in
    applyLoadResultLocked c g s key flight r) in
  flushAndUnlock c C i.

End cache.
Arguments cache K V P St T A {_ _}.
