(* ===== verification/Bulk.v ===== *)
(** * Bulk: iterators and operations on many keys ([cache.go])

    [GetWithExpiry] and [Expiry], the walks over every entry ([Range],
    [Keys]), the multi-key variants of [Get], [Set] and [Delete], and the
    conditional deletes [DeletePrefix] and [DeleteWhere]. *)

From S2P Require Import Prelude Policy Storage Ttl Entry Tags Flights Shard Cache.


#[local] Open Scope Z_scope.

Section bulk.
Context {K V P St T A : Type} `{Countable K, Inhabited K, Inhabited V}.
Context `{EvictionPolicy K P, ShardStore K St, TtlBackend T, AdmissionPolicy K A}.

Local Abbreviation entry := (entry K V).
Local Abbreviation config := (config K V).
Local Abbreviation globals := (globals K V A).
Local Abbreviation shard := (shard K V P St T).
Local Abbreviation cache := (cache K V P St T A).
Implicit Types (c : config) (C : cache) (g : globals) (s : shard).

(** ** Sizes *)

Definition Len C : Z := g_entries (c_g C).

Definition Bytes C : Z := g_bytes (c_g C).

Definition Capacity C : Z :=
  if bool_decide (0 < g_maxEntries (c_g C)) then g_maxEntries (c_g C) else g_maxBytes (c_g C).

(** ** Expiry times

    A [time.Time] is [Some] of its nanoseconds; None is the zero time. *)

Definition timeOf (expNanos : Z) : option Z :=
  if bool_decide (expNanos = 0) then None else Some expNanos.

Definition getWithExpiryLocked c g s (key : K) (now : Z)
    : globals * shard * option (V * option Z) :=
  match st_get (sh_storage s) key ≫= λ a, e ← sh_heap s !! a; Some (a, e) with
  | None => (stat c g misses, s, None)
  | Some (a, e) =>
      match entryExpiredLockedReason c e now with
      | Some reason =>
          let '(g, s) := removeLocked c g s a reason in
          (stat c (g_count g expirations 1) misses, s, None)
      | None =>
          if e_has e flagNegative then (stat c g misses, s, None)
          else
            let s := touchLocked s key a e now in
            let e := (touchAccess (addHit e) now).1 in
            (stat c g hits, s, Some (returnValue c (loadValue e), timeOf (e_expireAt e)))
      end
  end.

Definition GetWithExpiry c C (key : K) : cache * option (V * option Z) :=
  if g_closed (c_g C) then (C, None)
  else
    let i := shardFor c key in
    let '(now, g) := clockNow c (c_g C) in
    let '(C, r) := locked (set_g C g) i (λ g s, getWithExpiryLocked c g s key now) None in
    (flushAndUnlock c C i, r).

Definition Expiry c C (key : K) : cache * option (option Z) :=
  if g_closed (c_g C) then (C, None)
  else
    let '(now, g) := clockNow c (c_g C) in
    (set_g C g, (λ e, timeOf (e_expireAt e)) <$> freshAt c now (shard_get c C key)).

(** [Tags] of [tags.go]: the tags the entry holds, fresh or not. *)
Definition TagsOf c C (key : K) : list string :=
  if g_closed (c_g C) then []
  else match shard_get c C key with Some e => e_tags e | None => [] end.

(** ** Walks *)

Definition copyShard c s (now : Z) (buf : list (K * V)) : list (K * V) :=
  buf ++ omap (λ a, (λ e, (e_key e, loadValue e)) <$> freshAt c now (sh_heap s !! a))
           (st_each (sh_storage s)).

(** What the walk of shard [i] copies out. *)
Definition copyAt c C (now : Z) (i : nat) : list (K * V) :=
  match c_shards C !! i with Some s => copyShard c s now [] | None => [] end.

(** The calls of [fn] on the copied pairs.  [fn] may call into the cache and
    has a state of its own; false stops the walk. *)
Fixpoint visit {R} c (fn : K → V → cache * R → cache * R * bool) (buf : list (K * V))
    (st : cache * R) : cache * R * bool :=
  match buf with
  | [] => (st, true)
  | (k, v) :: buf =>
      match fn k (returnValue c v) st with
      | (st, true) => visit c fn buf st
      | (st, false) => (st, false)
      end
  end.

Fixpoint range_loop {R} c (fn : K → V → cache * R → cache * R * bool) (now : Z)
    (idxs : list nat) (st : cache * R) : cache * R :=
  match idxs with
  | [] => st
  | i :: idxs =>
      match visit c fn (copyAt c st.1 now i) st with
      | (st, true) => range_loop c fn now idxs st
      | (st, false) => st
      end
  end.

(** [fn] is None for a nil function. *)
Definition Range {R} c C (fn : option (K → V → cache * R → cache * R * bool)) (r : R) : cache * R :=
  match fn with
  | None => (C, r)
  | Some fn =>
      if g_closed (c_g C) then (C, r)
      else
        let '(now, g) := clockNow c (c_g C) in
        range_loop c fn now (seq 0 (length (c_shards C))) (set_g C g, r)
  end.

Definition Keys c C : cache * list K :=
  if g_closed (c_g C) then (C, [])
  else
    let '(now, g) := clockNow c (c_g C) in
    eachShard (set_g C g) (λ C i keys, (C, keys ++ (copyAt c C now i).*1)) [].

(** ** Many keys at once *)

Definition GetMulti c C (keys : list K) : cache * gmap K V :=
  if g_closed (c_g C) || bool_decide (keys = []) then (C, ∅)
  else foldl (λ '(C, out) k, match Get c C k with
                             | (C, Some v) => (C, <[k := v]> out)
                             | (C, None) => (C, out)
                             end) (C, ∅) keys.

Fixpoint setAll c C (items : list (K * V)) : cache * option error :=
  match items with
  | [] => (C, None)
  | (k, v) :: items =>
      match Set_ c C k v with
      | (C, Some err) => (C, Some err)
      | (C, None) => setAll c C items
      end
  end.

(** The items in the order in which the iteration over the map meets them. *)
Definition SetMulti c C (items : list (K * V)) : cache * option error :=
  if g_closed (c_g C) then (C, Some ErrClosed) else setAll c C items.

Definition DeleteMulti c C (keys : list K) : cache * Z :=
  if g_closed (c_g C) || bool_decide (keys = []) then (C, 0)
  else foldl (λ '(C, count) k, match Delete c C k with
                               | (C, true) => (C, count + 1)
                               | (C, false) => (C, count)
                               end) (C, 0) keys.

(** ** Conditional deletes *)

(** [k] is a string, a [Prefixer], or neither (None). *)
Definition prefixMatcher (hasPrefix : option (K → string → bool)) (prefix : string)
    : option (K → bool) :=
  (λ f k, f k prefix) <$> hasPrefix.

(** The loads of the matching keys are marked, and they alone: the two loops
    at the head of [deletePrefixShard]. *)
Definition supersedeMatching (F : flights K) (matcher : K → bool) : flights K :=
  Flights (fl_inflight F) (fl_orphans F) (fl_watches F)
    (map_img (filter (λ kf, matcher kf.1 = true) (fl_orphans F)) ∪
     (map_img (filter (λ kf, matcher kf.1 = true) (fl_inflight F)) ∪ fl_superseded F))
    (fl_wsuperseded F).

Definition removeEntries c (reason : EvictionReason) (l : list loc) (gs : globals * shard)
    : globals * shard :=
  foldl (λ '(g, s) a, removeLocked c g s a reason) gs l.

Definition deletePrefixShard c (matcher : K → bool) g s : globals * shard * Z :=
  let s := sh_set_flights s (supersedeMatching (sh_flights s) matcher) (sh_nextFlight s) in
  let doomed := filter (λ a, match sh_heap s !! a with
                             | Some e => matcher (e_key e)
                             | None => false
                             end = true) (st_each (sh_storage s)) in
  (removeEntries c EvictReasonDeletedPrefix doomed (g, s), Z.of_nat (length doomed)).

Definition DeletePrefix c C (hasPrefix : option (K → string → bool)) (prefix : string) : cache * Z :=
  if g_closed (c_g C) then (C, 0)
  else match prefixMatcher hasPrefix prefix with
       | None => (C, 0)
       | Some matcher =>
           eachShard C (λ C i count,
             let '(C, n) := locked C i (deletePrefixShard c matcher) 0 in
             (flushAndUnlock c C i, count + n)) 0
       end.

(** The second half of a turn of [DeleteWhere], under the lock again. *)
Definition removeDoomed c (reason : EvictionReason) (doomed : list K) g s : globals * shard * Z :=
  foldl (λ '(g, s, n) k, match st_get (sh_storage s) k with
                         | Some a => (removeLocked c g s a reason, n + 1)
                         | None => (g, s, n)
                         end) (g, s, 0) doomed.

(** The keys of shard [i] whose value satisfies [pred]. *)
Definition doomedAt c C (now : Z) (pred : K → V → bool) (i : nat) : list K :=
  (filter (λ kv, pred kv.1 (returnValue c kv.2) = true) (copyAt c C now i)).*1.

Definition deleteWhereShard c (now : Z) (pred : K → V → bool) C (i : nat) (count : Z) : cache * Z :=
  match doomedAt c C now pred i with
  | [] => (C, count)
  | doomed =>
      let '(C, n) := locked C i (removeDoomed c EvictReasonDeletedWhere doomed) 0 in
      (flushAndUnlock c C i, count + n)
  end.

Definition DeleteWhere c C (pred : option (K → V → bool)) : cache * Z :=
  match pred with
  | None => (C, 0)
  | Some pred =>
      if g_closed (c_g C) then (C, 0)
      else
        let '(now, g) := clockNow c (c_g C) in
        eachShard (set_g C g) (deleteWhereShard c now pred) 0
  end.
End bulk.
