(* ===== verification/Loads.v ===== *)
(** * Loads: reads that call the loader on a miss ([cache.go], [loader.go])

    [GetOrLoad] runs in two locked sections: the one that serves a hit or
    registers the caller with the load in flight ([loadOrJoin]), and, when the
    loader has returned, the one that stores its result ([finishLoad]).  In
    between the caller waits, and may give up ([waitOrLeave]).  The loader
    runs outside the locks, so that other operations come between the two.
    The limiter's verdict and the end of a context are inputs. *)

From S2P Require Import Prelude Policy Storage Ttl Entry Tags Flights Shard Cache Bulk.

#[local] Open Scope Z_scope.

(** The errors of a caller whose load never started. *)
Inductive loadError := LoadClosed | LoadNoLoader | LoadCtxDone.

Section loads.
Context {K V P St T A : Type} `{Countable K, Inhabited K, Inhabited V}.
Context `{EvictionPolicy K P, ShardStore K St, TtlBackend T, AdmissionPolicy K A}.

Local Abbreviation entry := (entry K V).
Local Abbreviation config := (config K V).
Local Abbreviation globals := (globals K V A).
Local Abbreviation shard := (shard K V P St T).
Local Abbreviation cache := (cache K V P St T A).
Implicit Types (c : config) (C : cache) (g : globals) (s : shard) (key : K).

(** How the first section of [loadOrJoin] ends: with a result, with a flight
    to wait for, which the caller joined or leads, or with a refusal. *)
Inductive loadStart :=
| StartHit (v : V)
| StartNegative
| StartCachedError
| StartJoined (flight : loc)
| StartLimited
| StartLead (flight : loc).

(** A fresh, non-negative entry, or a stale one that may still be served.
    Nothing between [touchAccess] and [hits.Add(1)] reads the hit counter,
    so both are in [touchLocked]. *)
Definition serveLoadHitLocked c g s key (now : Z) : globals * shard * option V :=
  match st_get (sh_storage s) key ≫= λ a, e ← sh_heap s !! a; Some (a, e) with
  | None => (g, s, None)
  | Some (a, e) =>
      if e_has e flagNegative then (g, s, None)
      else if negb (entryExpiredLocked c e now) then
        let s := touchLocked s key a e now in
        if shouldRefreshAhead c (touchAccess (addHit e) now).1 now
        then (g_count g refreshAhead 1, startRefreshLocked s key, Some (loadValue e))
        else (g, s, Some (loadValue e))
      else if shouldServeStale c e now then
        let s := startRefreshLocked s key in
        let s := sh_write s a (addHit e) in
        (g_count g staleWhileRevalidate 1,
         sh_set_policy s (OnAccess (sh_policy s) (a, key)), Some (loadValue e))
      else (g, s, None)
  end.

(** The negative tombstone of [key], while it lives. *)
Definition negativeHit c s key (now : Z) : bool :=
  match st_get (sh_storage s) key ≫= (sh_heap s !!.) with
  | Some e => e_has e flagNegative && negb (entryExpiredLocked c e now)
  | None => false
  end.

(** The cached error of [key]: an expired one is dropped. *)
Definition cachedErrorLocked c s key (now : Z) : shard * bool :=
  if bool_decide (0 < cf_errorTTL c) then
    match sh_errors s !! key with
    | Some ce => if bool_decide (now < ce_expireAt ce) then (s, true)
                 else (sh_set_errors s (delete key (sh_errors s)), false)
    | None => (s, false)
    end
  else (s, false).

(** [loadOrJoin] under the shard lock; [allowed] is what
    [loaderLimiter.Allow] answers if it is asked. *)
Definition loadOrJoinLocked c g s key (allowed : bool) : globals * shard * loadStart :=
  let '(now, g) := clockNow c g in
  match serveLoadHitLocked c g s key now with
  | (g, s, Some v) => (g, s, StartHit v)
  | (g, s, None) =>
      if negativeHit c s key now then (g, s, StartNegative)
      else
        match cachedErrorLocked c s key now with
        | (s, true) => (g, s, StartCachedError)
        | (s, false) =>
            let g := stat c g misses in
            match fl_inflight (sh_flights s) !! key with
            | Some flight => (g, s, StartJoined flight)
            | None =>
                if negb allowed then (g, s, StartLimited)
                else
                  let flight := sh_nextFlight s in
                  (g, sh_set_flights s (startFlight (sh_flights s) key flight) (Pos.succ flight),
                   StartLead flight)
            end
        end
  end.

(** [publishEvent], which does nothing while nobody has subscribed; the event
    takes the time of its publication. *)
Definition publishEvent c g (event : Z → fx K V) : globals :=
  let '(at_, g) := clockNow c g in if cf_events c then emit g [event at_] else g.

(** What [loadOrJoin] counts once the shard is unlocked. *)
Definition startStats c g key (r : loadStart) : globals :=
  match r with
  | StartHit _ => stat c g hits
  | StartNegative => stat c g misses
  | StartCachedError => stat c (g_count g loadCachedError 1) misses
  | StartJoined _ => stat c g loadCoalesced
  | StartLimited =>
      let g := stat c (stat c g loadErrors) loadRateLimited in
      publishEvent c g (FxEventLoadRateLimited key)
  | StartLead _ => g
  end.

Definition loadOrJoin c C key (allowed : bool) : cache * loadStart :=
  let i := shardFor c key in
  let '(C, r) := locked C i (λ g s, loadOrJoinLocked c g s key allowed) StartLimited in
  let C := flushAndUnlock c C i in
  (set_g C (startStats c (c_g C) key r),
   match r with StartHit v => StartHit (returnValue c v) | r => r end).

(** [GetOrLoad], and [GetOrLoadFn] with [loader] whether its function is not
    nil; [ctxDone] is [ctx.Err() != nil]. *)
Definition GetOrLoadFn c C key (loader ctxDone allowed : bool) : cache * (loadError + loadStart) :=
  if g_closed (c_g C) then (C, inl LoadClosed)
  else if negb loader then (C, inl LoadNoLoader)
  else if ctxDone then (C, inl LoadCtxDone)
  else let '(C, r) := loadOrJoin c C key allowed in (C, inr r).

Definition GetOrLoad c C key (ctxDone allowed : bool) : cache * (loadError + loadStart) :=
  GetOrLoadFn c C key (cf_loader c) ctxDone allowed.

(** ** Refreshes *)

Definition triggerAsyncRefresh c C key : cache :=
  if cf_loader c then
    let i := shardFor c key in
    flushAndUnlock c (locked_ C i (λ g s, (g, triggerAsyncRefreshLocked c s key))) i
  else C.

Definition Refresh c C key (ctxDone : bool) : cache * option loadError :=
  if g_closed (c_g C) then (C, Some LoadClosed)
  else if negb (cf_loader c) then (C, Some LoadNoLoader)
  else if ctxDone then (C, Some LoadCtxDone)
  else (triggerAsyncRefresh c C key, None).

(** The body of the loop of [RefreshAll]. *)
Definition refreshKey c C key : cache * bool :=
  let i := shardFor c key in
  let '(C, started) := locked C i (λ g s,
    match fl_inflight (sh_flights s) !! key with
    | Some _ => (g, s, false)
    | None => (g, triggerAsyncRefreshLocked c s key, true)
    end) false in
  (flushAndUnlock c C i, started).

Definition RefreshAll c C (ctxDone : bool) : cache * Z :=
  if g_closed (c_g C) || negb (cf_loader c) || ctxDone then (C, 0)
  else
    let '(C, keys) := Keys c C in
    foldl (λ '(C, count) k, match refreshKey c C k with
                            | (C, true) => (C, count + 1)
                            | (C, false) => (C, count)
                            end) (C, 0) keys.

(** ** Waiting *)

(** What a waiter gets when the load ends: the value, or the [LoadError]
    that wraps the loader's error. *)
Definition waitResult c (r : loadResult V) : loadResult V + V :=
  match r with LoadOk v _ => inr (returnValue c v) | r => inl r end.

(** A waiter gives up: the branch of [waitOrLeave] on the end of its context,
    with the waiters left, itself not counted.  The last one orphans the
    flight, whose loader is told to stop. *)
Definition leaveFlight c C key (flight : loc) (left : Z) : cache :=
  let i := shardFor c key in
  flushAndUnlock c (locked_ C i (λ g s,
    (g, if bool_decide (left = 0)
        then sh_set_flights s (orphanFlight (sh_flights s) key flight) (sh_nextFlight s)
        else s))) i.

(** What [runLoader] tells the outside about the load once the shard is
    unlocked: the hook [OnLoad], then the event. *)
Definition announceLoad c g key (r : loadResult V) : globals :=
  let g := if cf_onLoad c
           then emit g [FxOnLoad key (match r with LoadOk v ttl => Some (v, ttl) | _ => None end)] else g in
  match r with
  | LoadOk v _ => publishEvent c g (FxEventLoad key v)
  | LoadCtxErr true => publishEvent c (stat c g loadTimeouts) (FxEventLoadTimeout key)
  | _ => publishEvent c g (FxEventLoadError key)
  end.

Definition AnnounceLoad c C key (r : loadResult V) : cache := set_g C (announceLoad c (c_g C) key r).

(** A load that waited for a slot until its context ended stores nothing
    ([runLoader] under [WithMaxConcurrentLoads]). *)
Definition abandonLoad c C key (flight : loc) : cache :=
  let i := shardFor c key in
  let C := flushAndUnlock c (locked_ C i (λ g s,
    (stat c (stat c g loadsTotal) loadErrors,
     sh_set_flights s (leaveInflight (sh_flights s) key flight) (sh_nextFlight s)))) i in
  set_g C (publishEvent c (c_g C) (FxEventLoadError key)).
End loads.
Arguments loadStart : clear implicits.
