(* ===== verification/Run.v ===== *)
(** * Run: sequences of operations

    [cop] lists the operations of the cache and the steps of its background
    goroutines, [run] runs one. *)

From S2P Require Import Prelude Policy Storage Ttl Entry Tags Flights Shard Cache Bulk Loads.

#[local] Open Scope Z_scope.

Section run.
Context {K V P St T A : Type} `{Countable K, Inhabited K, Inhabited V}.
Context `{EvictionPolicy K P, ShardStore K St, TtlBackend T, AdmissionPolicy K A}.

Local Abbreviation config := (config K V).
Local Abbreviation cache := (cache K V P St T A).
Implicit Types (c : config) (C : cache).

(** The operations that change the cache, and the steps of its background
    goroutines. *)
Inductive cop :=
| OpSet (k : K) (v : V)
| OpSetWithTTL (k : K) (v : V) (ttl : Z)
| OpSetWithOptions (k : K) (v : V) (sc : setConfig)
| OpSetIfAbsent (k : K) (v : V)
| OpSetIfPresent (k : K) (v : V)
| OpGetOrSet (k : K) (v : V)
| OpPeekOrAdd (k : K) (v : V)
| OpDelete (k : K)
| OpDeleteIf (k : K) (pred : V → bool)
| OpGet (k : K)
| OpPeek (k : K)
| OpTouch (k : K)
| OpTouchWithTTL (k : K) (ttl : Z)
| OpClear
| OpReset
| OpDeleteExpired
| OpInvalidateTag (tag : string)
| OpInvalidateTags (tags : list string)
| OpJanitor (i : nat)
| OpDrain
| OpFinishLoad (k : K) (flight : loc) (r : loadResult V)
| OpGetWithExpiry (k : K)
| OpDeletePrefix (hasPrefix : option (K → string → bool)) (prefix : string)
| OpDeleteWhere (pred : option (K → V → bool))
| OpGetOrLoad (k : K) (ctxDone allowed : bool)
| OpRefresh (k : K)
| OpRefreshAll
| OpLeave (k : K) (flight : loc) (left : Z)
| OpAbandon (k : K) (flight : loc)
| OpAnnounce (k : K) (r : loadResult V).

Definition run c C (o : cop) : cache :=
  match o with
  | OpSet k v => (Set_ c C k v).1
  | OpSetWithTTL k v ttl => (SetWithTTL c C k v ttl).1
  | OpSetWithOptions k v sc => (setWithOptions c C k v sc).1
  | OpSetIfAbsent k v => (SetIfAbsent c C k v).1
  | OpSetIfPresent k v => (SetIfPresent c C k v).1
  | OpGetOrSet k v => (GetOrSet c C k v).1
  | OpPeekOrAdd k v => (PeekOrAdd c C k v).1
  | OpDelete k => (Delete c C k).1
  | OpDeleteIf k pred => (DeleteIf c C k pred).1
  | OpGet k => (Get c C k).1
  | OpPeek k => (Peek c C k).1
  | OpTouch k => (Touch c C k).1
  | OpTouchWithTTL k ttl => (TouchWithTTL c C k ttl).1
  | OpClear => Clear c C
  | OpReset => Reset_ c C
  | OpDeleteExpired => (DeleteExpired c C).1
  | OpInvalidateTag t => (InvalidateTag c C t).1
  | OpInvalidateTags ts => (InvalidateTags c C ts).1
  | OpJanitor i => janitorTick c C i
  | OpDrain => drainUntag c C
  | OpFinishLoad k f r => finishLoad c C k f r
  | OpGetWithExpiry k => (GetWithExpiry c C k).1
  | OpDeletePrefix hp p => (DeletePrefix c C hp p).1
  | OpDeleteWhere pred => (DeleteWhere c C pred).1
  | OpGetOrLoad k d al => (GetOrLoad c C k d al).1
  | OpRefresh k => (Refresh c C k false).1
  | OpRefreshAll => (RefreshAll c C false).1
  | OpLeave k f n => leaveFlight c C k f n
  | OpAbandon k f => abandonLoad c C k f
  | OpAnnounce k r => AnnounceLoad c C k r
  end.
End run.
