(* ===== verification/StoreCache.v ===== *)
(** * StoreCache: a cache in front of a Store ([cache_store.go])

    The [_st] operations are the methods of a cache built with [WithStore];
    without one ([w_store] is None) they are those of [Cache].  A read that
    misses in memory falls through to the Store and may be promoted; a write
    goes to memory and then, under the key's lock, to the Store.

    Every operation is atomic here except a read of the Store, which is three
    steps ([beginRead], [fetchRead], [endRead]) that any operation may come
    between: the watch that [beginRead] sets is what keeps such a read from
    promoting a value a later write has replaced.  Contexts are never
    cancelled, and [WithAsyncWrites] is off, so no operation is pending. *)

From S2P Require Import Prelude Policy Storage Ttl Entry Tags Flights Shard Store Cache.

#[local] Open Scope Z_scope.

(** The error of an operation. *)
Inductive cerr :=
| CacheErr (e : error)
| StoreErr (e : storeErr)
| ErrNotFound
| ErrNilComputeFn
| ErrUnknownComputeAction (action : Z)
| FnErr (code : Z).

(** Why a Store value can not be promoted. *)
Inductive promoErr := StoreRecordGone | PromoLimit (e : error).

(** [storeExpireAt]'s result for a record that is gone. *)
Definition storeRecordGone : Z := -2.

(** [a.Sub(b)] of two times saturates. *)
Definition timeSub (a b : Z) : Z := Z.max (- 2 ^ 63) (Z.min (a - b) (2 ^ 63 - 1)).

Section storecache.
Context {K V P St T A B : Type} `{Countable K, Inhabited K, Inhabited V}.
Context `{EvictionPolicy K P, ShardStore K St, TtlBackend T, AdmissionPolicy K A, Store K V B}.

Local Abbreviation entry := (entry K V).
Local Abbreviation config := (config K V).
Local Abbreviation globals := (globals K V A).
Local Abbreviation shard := (shard K V P St T).
Local Abbreviation cache := (cache K V P St T A).

Record promotion := Promotion {
  pr_value : V;
  pr_weight : Z;
  pr_tags : list string;
  pr_err : option promoErr;
  pr_expireAt : Z
}.

(** A Store read in flight; [sr_result] is there once the Store answered,
    with the promotion of a hit. *)
Record storeRead := StoreRead {
  sr_key : K;
  sr_watch : loc;
  sr_result : option ((storeErr + option V) * option promotion)
}.

(** The memory, the Store, the reads in flight, the read of each key new
    readers join ([shard.storeReads]) and the reference counts of the watch
    tokens.  A read's address is that of the token it embeds. *)
Record world := World {
  w_mem : cache;
  w_store : option B;
  w_reads : gmap loc storeRead;
  w_leads : gmap K loc;
  w_refs : gmap loc Z;
  w_next : loc
}.

Implicit Types (c : config) (C : cache) (g : globals) (s : shard) (w : world) (b : B) (key : K).

Definition set_mem w C : world := World C (w_store w) (w_reads w) (w_leads w) (w_refs w) (w_next w).
Definition set_store w b : world := World (w_mem w) (Some b) (w_reads w) (w_leads w) (w_refs w) (w_next w).
Definition set_reads w C reads leads refs next : world := World C (w_store w) reads leads refs next.

(** A cache as [New] builds it. *)
Definition newWorld C (store : option B) : world := World C store ∅ ∅ ∅ 1%positive.

(** Runs [f] on the shard of [key] under its lock. *)
Definition lockedW {R} c w key (f : globals → shard → globals * shard * R) (d : R) : world * R :=
  let '(C, r) := locked (w_mem w) (shardFor c key) f d in (set_mem w C, r).

(** Releases the shard of [key], fires the callbacks and sheds. *)
Definition settle c w key : world := set_mem w (flushAndUnlock c (w_mem w) (shardFor c key)).

(** ** Reading the Store *)

Definition storeExpireAt c g b key : Z * globals * B :=
  match sto_TTL with
  | None => (-1, g, b)
  | Some ttlOf =>
      match ttlOf b key with
      | (inl _, b) => (-1, g, b)
      | (inr None, b) => (storeRecordGone, g, b)
      | (inr (Some ttl), b) =>
          if bool_decide (0 < ttl) then let '(now, g) := clockNow c g in (i64 (now + ttl), g, b)
          else (0, g, b)
      end
  end.

(** A hit carries the record's expiry. *)
Definition storeGet c g b key : (storeErr + option (V * Z)) * globals * B :=
  match sto_Get b key with
  | (inl err, b) => (inl err, g, b)
  | (inr None, b) => (inr None, g, b)
  | (inr (Some v), b) => let '(x, g, b) := storeExpireAt c g b key in (inr (Some (v, x)), g, b)
  end.

Definition preparePromotion c g key (value : V) (expireAt : Z) : promotion :=
  if bool_decide (expireAt = storeRecordGone) then Promotion value 0 [] (Some StoreRecordGone) (-1)
  else
    let tags := cf_autoTags c value in
    match checkKeySize c key with
    | Some e => Promotion value 0 tags (Some (PromoLimit e)) expireAt
    | None =>
        match computeWeight c value with
        | inl e => Promotion value 0 tags (Some (PromoLimit e)) expireAt
        | inr weight => Promotion value weight tags (PromoLimit <$> checkTagLimits c g tags) expireAt
        end
    end.

Definition fl_set_watches (F : flights K) (ws : gmap K loc) : flights K :=
  Flights (fl_inflight F) (fl_orphans F) ws (fl_superseded F) (fl_wsuperseded F).

Definition sh_set_watches s (ws : gmap K loc) : shard :=
  sh_set_flights s (fl_set_watches (sh_flights s) ws) (sh_nextFlight s).

(** The key's watch is taken away during the upsert, so it is not marked. *)
Definition promoteLocked c g s key (p : promotion) : globals * shard :=
  if bool_decide (is_Some (pr_err p)) || g_closed g then (g, s)
  else
    let watch := fl_watches (sh_flights s) !! key in
    let s := sh_set_watches s (delete key (fl_watches (sh_flights s))) in
    let '(now, g) := clockNow c g in
    let left := i64 (pr_expireAt p - now) in
    let '(g, s) :=
      if bool_decide (0 < pr_expireAt p) &&
         (bool_decide (cf_defaultTTL c <= 0) || bool_decide (left < cf_defaultTTL c)) then
        let left := Z.max left 1 in
        upsertLocked c g s key (pr_value p) (pr_weight p) left false left (pr_tags p)
      else
        let '(ettl, g) := effectiveTTL c g (cf_defaultTTL c) in
        upsertLocked c g s key (pr_value p) (pr_weight p) ettl (cf_slidingTTL c) (cf_defaultTTL c) (pr_tags p) in
    (g, match watch with
        | Some x => sh_set_watches s (<[key := x]> (fl_watches (sh_flights s)))
        | None => s
        end).

(** ** Watches *)

Definition watchLockedSpare s key (spare : loc) : shard * loc :=
  match fl_watches (sh_flights s) !! key with
  | Some x => (s, x)
  | None => (sh_set_watches s (<[key := spare]> (fl_watches (sh_flights s))), spare)
  end.

(** [refs] is the token's count after the decrement. *)
Definition unwatchLocked s key (x : loc) (refs : Z) : shard :=
  if bool_decide (refs = 0) && bool_decide (fl_watches (sh_flights s) !! key = Some x)
  then sh_set_watches s (delete key (fl_watches (sh_flights s))) else s.

Definition refs_of w (x : loc) : Z := default 0 (w_refs w !! x).

(** [x.superseded], under the lock of the shard of [key]. *)
Definition superseded c C key (x : loc) : bool :=
  match c_shards C !! shardFor c key with
  | Some s => bool_decide (x ∈ fl_wsuperseded (sh_flights s))
  | None => false
  end.

(** ** Read-through *)

(** Registers a new read of the key, which watches it. *)
Definition leadRead c w key : world * loc :=
  let id := w_next w in
  let '(C, x) := locked (w_mem w) (shardFor c key) (λ g s, let '(s, x) := watchLockedSpare s key id in (g, s, x)) id in
  (set_reads w C (<[id := StoreRead key x None]> (w_reads w)) (<[key := id]> (w_leads w))
     (<[x := refs_of w x + 1]> (w_refs w)) (Pos.succ id), id).

(** A reader joins the key's read unless it was superseded, and leads a new
    one otherwise. *)
Definition beginRead c w key : world * loc :=
  match w_leads w !! key ≫= λ id, r ← w_reads w !! id; Some (id, r) with
  | None => leadRead c w key
  | Some (id, r) => if superseded c (w_mem w) key (sr_watch r) then leadRead c w key else (w, id)
  end.

(** The leader's call of the Store, off the shard lock. *)
Definition fetchRead c w (id : loc) : world :=
  match w_reads w !! id, w_store w with
  | Some r, Some b =>
      match sr_result r with
      | Some _ => w
      | None =>
          let '(res, g, b) := storeGet c (c_g (w_mem w)) b (sr_key r) in
          let '(res, p) := match res with
                           | inl err => (inl err, None)
                           | inr None => (inr None, None)
                           | inr (Some (v, x)) => (inr (Some v), Some (preparePromotion c g (sr_key r) v x))
                           end in
          set_store (set_reads w (set_g (w_mem w) g) (<[id := StoreRead (sr_key r) (sr_watch r) (Some (res, p))]> (w_reads w))
                       (w_leads w) (w_refs w) (w_next w)) b
      end
  | _, _ => w
  end.

(** [endStoreReadLocked] *)
Definition endStoreRead c w (id : loc) (r : storeRead) : world :=
  let key := sr_key r in
  let n := refs_of w (sr_watch r) - 1 in
  let C := locked_ (w_mem w) (shardFor c key) (λ g s, (g, unwatchLocked s key (sr_watch r) n)) in
  set_reads w C (delete id (w_reads w))
    (if decide (w_leads w !! key = Some id) then delete key (w_leads w) else w_leads w)
    (<[sr_watch r := n]> (w_refs w)) (w_next w).

(** The leader's last step: a hit that no write overtook is promoted. *)
Definition endRead c w (id : loc) : world * (storeErr + option V) :=
  match w_reads w !! id with
  | None => (w, inr None)
  | Some r =>
      match sr_result r with
      | None => (w, inr None)
      | Some (res, p) =>
          let key := sr_key r in
          let C := locked_ (w_mem w) (shardFor c key) (λ g s,
            match p with
            | Some p =>
                if bool_decide (sr_watch r ∈ fl_wsuperseded (sh_flights s)) then (g, s)
                else match freshEntryLocked c g s key with
                     | (g, Some _) => (g, s)
                     | (g, None) => promoteLocked c g s key p
                     end
            | None => (g, s)
            end) in
          let w := endStoreRead c (set_mem w C) id r in
          (settle c w key, match res with
                           | inl err => inl err
                           | inr o => inr (returnValue c <$> o)
                           end)
      end
  end.

(** The Store's [Get] panicked. *)
Definition abortRead c w (id : loc) : world :=
  match w_reads w !! id with
  | None => w
  | Some r => endStoreRead c w id r
  end.

(** All three steps; a reader that joined returns when its leader's read
    ends. *)
Definition readThroughStore c w key : world * (storeErr + option V) :=
  match w_store w with
  | None => (w, inr None)
  | Some _ => let '(w, id) := beginRead c w key in endRead c (fetchRead c w id) id
  end.

Definition missOrReadThrough c w key : world * (storeErr + option V) :=
  match readThroughStore c w key with
  | (w, inl err) => (w, inl err)
  | (w, inr (Some v)) =>
      let g := recordHitObserve c (c_g (w_mem w)) key in
      (set_mem w (set_g (w_mem w) (fireHit c g key v)), inr (Some v))
  | (w, inr None) => let '(C, o) := missResult c (w_mem w) key in (set_mem w C, inr o)
  end.

(** [getCtx]; [Get] drops the error. *)
Definition Get_st c w key : world * (storeErr + option V) :=
  if g_closed (c_g (w_mem w)) then (w, inr None)
  else match getMem c (w_mem w) key with
       | (C, SlowHit v) => let '(C, o) := hitResult c C key v in (set_mem w C, inr o)
       | (C, FinalMiss) => let '(C, o) := missResult c C key in (set_mem w C, inr o)
       | (C, SlowMiss) => missOrReadThrough c (set_mem w C) key
       end.

Definition Has_st c w key : world * bool :=
  if g_closed (c_g (w_mem w)) then (w, false)
  else
    let '(C, b) := Has c (w_mem w) key in
    let w := set_mem w C in
    if b : bool then (w, true)
    else match readThroughStore c w key with
         | (w, inr (Some _)) => (w, true)
         | (w, _) => (w, false)
         end.

(** ** Writing the Store *)

Definition rollbackInMemory c w key : world :=
  set_mem w (locked_ (w_mem w) (shardFor c key) (λ g s,
    match st_get (sh_storage s) key with
    | Some a => removeLocked c g s a EvictReasonStoreRollback
    | None => (g, s)
    end)).

Definition writeThroughStore w key (value : V) (ttl : Z) : world * option storeErr :=
  match w_store w with
  | None => (w, None)
  | Some b => let '(err, b) := sto_Set b key value ttl in (set_store w b, err)
  end.

Definition deleteThroughStore w key : world * option storeErr :=
  match w_store w with
  | None => (w, None)
  | Some b => match sto_Delete b key with
              | (inl err, b) => (set_store w b, Some err)
              | (inr _, b) => (set_store w b, None)
              end
  end.

(** An expiry already reached deletes the key from the Store. *)
Definition writeThroughStoreUntil c w key (value : V) (expireAt : Z) : world * option storeErr :=
  match w_store w with
  | None => (w, None)
  | Some _ =>
      let '(now, g) := clockNow c (c_g (w_mem w)) in
      let w := set_mem w (set_g (w_mem w) g) in
      let ttl := timeSub expireAt now in
      if bool_decide (ttl <= 0) then deleteThroughStore w key else writeThroughStore w key value ttl
  end.

(** A failed Store write rolls memory back. *)
Definition orRollback c (r : world * option storeErr) key : world * option storeErr :=
  match r with
  | (w, Some err) => (rollbackInMemory c w key, Some err)
  | (w, None) => (w, None)
  end.

Definition propagateSetToStore c w key (value : V) (ttl : Z) : world * option storeErr :=
  orRollback c (writeThroughStore w key value ttl) key.

(** [setAndStore] with nothing between its steps; [startSet] and [proceed] of
    [StoreOps] are the steps one by one. *)
Definition setAndStore_st c w key (value : V) (ttl : Z) (sliding : bool) (tags : list string) : world * option cerr :=
  let '(C, err) := setLockedInto c (w_mem w) key value ttl sliding tags in
  let w := set_mem w C in
  let '(w, err) := match err with
                   | Some err => (w, Some (CacheErr err))
                   | None => let '(w, err) := propagateSetToStore c w key value ttl in (w, StoreErr <$> err)
                   end in
  (settle c w key, err).

(** [settleGroups] *)
Definition settleGroups c w (tags : list string) : world := set_mem w (enforceGroupBudgets c (w_mem w) tags).

(** [setTTLCtx] in a cache without queued writes; with [WithAsyncWrites] the
    call is [asyncSet] of [Async], whose queue reaches no modelled Store. *)
Definition setTTLCtx_st c w key (value : V) (ttl : Z) : world * option cerr :=
  let tags := cf_autoTags c value in
  match setAndStore_st c w key value ttl (cf_slidingTTL c) tags with
  | (w, Some err) => (w, Some err)
  | (w, None) => (settleGroups c w tags, None)
  end.

Definition Set_st c w key (value : V) : world * option cerr :=
  setTTLCtx_st c w key value (cf_valueTTL c value (cf_defaultTTL c)).

Definition SetWithTTL_st c w key (value : V) (ttl : Z) : world * option cerr :=
  if bool_decide (ttl < 0) then (w, Some (CacheErr ErrInvalidTTL)) else setTTLCtx_st c w key value ttl.

(** The Store write of [setOptionsAndStore]. *)
Definition storeOptions c w key (value : V) (sc : setConfig) : world * option storeErr :=
  match sc_expireAt sc with
  | Some (Some at_) => orRollback c (writeThroughStoreUntil c w key value at_) key
  | _ => propagateSetToStore c w key value (default (cf_defaultTTL c) (sc_ttl sc))
  end.

Definition SetWithOptions_st c w key (value : V) (sc : setConfig) : world * option cerr :=
  match prepareOptions c (w_mem w) key value sc with
  | inl err => (w, Some (CacheErr err))
  | inr (tags, weight) =>
      let w := set_mem w (locked_ (w_mem w) (shardFor c key) (λ g s, upsertOptions c g s key value sc tags weight)) in
      let '(w, err) := storeOptions c w key value sc in
      let w := settle c w key in
      match err with
      | Some err => (w, Some (StoreErr err))
      | None => (settleGroups c w tags, None)
      end
  end.

(** The Store first, then memory. *)
Definition deleteKey_st c w key (reason : EvictionReason) : world * (bool * option storeErr) :=
  if g_closed (c_g (w_mem w)) then (w, (false, None))
  else
    let '(w, err) := deleteThroughStore w key in
    let '(w, removed) := lockedW c w key (λ g s, removeKeyLocked c g s key reason) false in
    (settle c w key, (removed, err)).

(** [DeleteCtx]; [Delete] drops the error. *)
Definition Delete_st c w key : world * (bool * option storeErr) := deleteKey_st c w key EvictReasonDeleted.

(** ** Read, modify, write *)

(** What a call has to write to the Store: [sm_set] is the value and its TTL,
    when [set] is true. *)
Record storeMirror := StoreMirror {
  sm_set : option (V * Z);
  sm_del : bool;
  sm_fromStore : bool;
  sm_storeExpireAt : Z;
  sm_keepStoreTTL : bool
}.

Implicit Types sm : storeMirror.

Definition noMirror : storeMirror := StoreMirror None false false 0 false.

Definition hasStore w : bool := bool_decide (is_Some (w_store w)).
Definition hasTTLStore w : bool := hasStore w && match @sto_TTL K V B _ with Some _ => true | None => false end.

Definition noteStoreSetLocked c g s sm (store : bool) key (value : V) : globals * storeMirror :=
  if store then
    let '(ttl, g) :=
      match st_get (sh_storage s) key ≫= (sh_heap s !!.) with
      | None => (cf_defaultTTL c, g)
      | Some e =>
          if bool_decide (0 < e_expireAt e)
          then let '(now, g) := clockNow c g in (Z.max (i64 (e_expireAt e - now)) 1, g)
          else (0, g)
      end in
    (g, StoreMirror (Some (value, ttl)) (sm_del sm) (sm_fromStore sm) (sm_storeExpireAt sm) (sm_keepStoreTTL sm))
  else (g, sm).

Definition noteStoreKeepLocked c g s sm (store ttlStore : bool) key (value : V) : globals * storeMirror :=
  if negb (sm_fromStore sm) || bool_decide (sm_storeExpireAt sm < 0) then
    let '(g, sm) := noteStoreSetLocked c g s sm store key value in
    (g, StoreMirror (sm_set sm) (sm_del sm) (sm_fromStore sm) (sm_storeExpireAt sm)
          (negb (sm_fromStore sm) && ttlStore))
  else
    let '(ttl, g) :=
      if bool_decide (0 < sm_storeExpireAt sm)
      then let '(now, g) := clockNow c g in (Z.max (i64 (sm_storeExpireAt sm - now)) 1, g)
      else (0, g) in
    (g, StoreMirror (Some (value, ttl)) (sm_del sm) (sm_fromStore sm) (sm_storeExpireAt sm) (sm_keepStoreTTL sm)).

(** A missing record or a failed lookup keeps the in-memory TTL. *)
Definition keepTTL w key (keep : bool) (ttl : Z) : world * Z :=
  match keep, @sto_TTL K V B _, w_store w with
  | true, Some ttlOf, Some b =>
      match ttlOf b key with
      | (inr (Some t), b) => (set_store w b, t)
      | (_, b) => (set_store w b, ttl)
      end
  | _, _, _ => (w, ttl)
  end.

Definition mirrorToStore c w sm key : world * option storeErr :=
  match sm_set sm with
  | Some (value, ttl) =>
      let '(w, ttl) := keepTTL w key (sm_keepStoreTTL sm) ttl in propagateSetToStore c w key value ttl
  | None => if sm_del sm then deleteThroughStore w key else (w, None)
  end.

(** The deferred calls of the methods below: the Store write, whose error
    shows when the call itself had none, and the callbacks. *)
Definition mirrored {R} c w sm key (onErr : R → R) (r : R * option cerr) : world * (R * option cerr) :=
  let '(w, merr) := mirrorToStore c w sm key in
  (settle c w key, match merr, r with
                   | Some err, (x, None) => (onErr x, Some (StoreErr err))
                   | _, _ => r
                   end).

(** The key's entry in memory; [storage.get]. *)
Definition entryLocked s key : option (loc * entry) :=
  a ← st_get (sh_storage s) key; e ← sh_heap s !! a; Some (a, e).

(** The value a call acts on, with the entry that holds it in memory. *)
Definition currentLocked c w key : world * storeMirror * (storeErr + option (V * option (loc * entry))) :=
  let fresh w := lockedW c w key (λ g s, let '(g, o) := freshEntryLocked c g s key in (g, s, o)) None in
  let '(w, o) := fresh w in
  match o with
  | Some (a, e) => (w, noMirror, inr (Some (loadValue e, Some (a, e))))
  | None =>
      match w_store w with
      | None => (w, noMirror, inr None)
      | Some b =>
          let '(res, g, b) := storeGet c (c_g (w_mem w)) b key in
          let p := match res with inr (Some (v, x)) => Some (preparePromotion c g key v x) | _ => None end in
          let w := set_mem (set_store w b) (set_g (w_mem w) g) in
          let '(w, o) := fresh w in
          match o with
          | Some (a, e) => (w, noMirror, inr (Some (loadValue e, Some (a, e))))
          | None =>
              match res, p with
              | inl err, _ => (w, noMirror, inl err)
              | inr (Some (value, x)), Some p =>
                  let '(w, e) := lockedW c w key (λ g s,
                    let '(g, s) := promoteLocked c g s key p in (g, s, entryLocked s key)) None in
                  (w, StoreMirror None false true x false, inr (Some (value, e)))
              | _, _ => (w, noMirror, inr None)
              end
          end
      end
  end.

(** The write of [SetIfAbsent], [SetIfPresent], [GetOrSet] and
    [PeekOrAdd]. *)
Definition setCurrent c w sm key (value : V) (weight : Z) : world * storeMirror :=
  lockedW c w key (λ g s,
    let '(g, s) := upsertDefault c g s key value weight in
    let '(g, sm) := noteStoreSetLocked c g s sm (hasStore w) key value in (g, s, sm)) sm.

(** Each of these methods is a section in memory, with the Store read of
    [currentLocked], that notes what the Store is to get ([_locked]), and the
    deferred Store call ([mirrored]). *)
Definition SetIfAbsent_locked c w key (value : V) (weight : Z) : world * storeMirror * (bool * option cerr) :=
  let '(w, sm, cur) := currentLocked c w key in
  match cur with
  | inl err => (w, sm, (false, Some (StoreErr err)))
  | inr (Some _) => (w, sm, (false, None))
  | inr None => (setCurrent c w sm key value weight, (true, None))
  end.

Definition SetIfAbsent_st c w key (value : V) : world * (bool * option cerr) :=
  match checkWrite c (w_mem w) key value with
  | inl err => (w, (false, Some (CacheErr err)))
  | inr weight => let '(w, sm, r) := SetIfAbsent_locked c w key value weight in mirrored c w sm key (λ _, false) r
  end.

Definition SetIfPresent_locked c w key (value : V) (weight : Z) : world * storeMirror * (bool * option cerr) :=
  let '(w, sm, cur) := currentLocked c w key in
  match cur with
  | inl err => (w, sm, (false, Some (StoreErr err)))
  | inr None => (w, sm, (false, None))
  | inr (Some _) => (setCurrent c w sm key value weight, (true, None))
  end.

Definition SetIfPresent_st c w key (value : V) : world * (bool * option cerr) :=
  match checkWrite c (w_mem w) key value with
  | inl err => (w, (false, Some (CacheErr err)))
  | inr weight => let '(w, sm, r) := SetIfPresent_locked c w key value weight in mirrored c w sm key (λ _, false) r
  end.

Definition GetOrSet_locked c w key (value : V) (weight : Z) : world * storeMirror * (V * bool * option cerr) :=
  let '(w, sm, cur) := currentLocked c w key in
  match cur with
  | inl err => (w, sm, (inhabitant, false, Some (StoreErr err)))
  | inr (Some (current, o)) =>
      let '(w, _) := lockedW c w key (λ g s,
        let '(g, s) := match o with
                       | Some (a, e) => let '(now, g) := clockNow c g in (g, touchLocked s key a e now)
                       | None => (g, s)
                       end in
        (stat c g hits, s, tt)) tt in
      (w, sm, (returnValue c current, true, None))
  | inr None => (setCurrent c w sm key value weight, (value, false, None))
  end.

Definition GetOrSet_st c w key (value : V) : world * (V * bool * option cerr) :=
  match checkWrite c (w_mem w) key value with
  | inl err => (w, (inhabitant, false, Some (CacheErr err)))
  | inr weight => let '(w, sm, r) := GetOrSet_locked c w key value weight in mirrored c w sm key id r
  end.

Definition PeekOrAdd_locked c w key (value : V) (weight : Z) : world * storeMirror * (V * bool * option cerr) :=
  let '(w, sm, cur) := currentLocked c w key in
  match cur with
  | inl err => (w, sm, (inhabitant, false, Some (StoreErr err)))
  | inr (Some (current, _)) => (w, sm, (returnValue c current, true, None))
  | inr None => (setCurrent c w sm key value weight, (value, false, None))
  end.

Definition PeekOrAdd_st c w key (value : V) : world * (V * bool * option cerr) :=
  match checkWrite c (w_mem w) key value with
  | inl err => (w, (inhabitant, false, Some (CacheErr err)))
  | inr weight => let '(w, sm, r) := PeekOrAdd_locked c w key value weight in mirrored c w sm key id r
  end.

(** [deleteIfThroughStore]; without a Store, [DeleteIf] of [Cache]. *)
Definition DeleteIf_st c w key (pred : V → bool) : world * bool :=
  if g_closed (c_g (w_mem w)) then (w, false)
  else if hasStore w then
    let '(w, _, cur) := currentLocked c w key in
    match cur with
    | inr (Some (current, _)) =>
        if pred (returnValue c current) then
          let '(w, _) := deleteThroughStore w key in
          let '(w, _) := lockedW c w key (λ g s,
            let '(g, s, removed) := removeKeyLocked c g s key EvictReasonDeleted in
            (if removed : bool then g else g_count g deletes 1, s, tt)) tt in
          (settle c w key, true)
        else (settle c w key, false)
    | _ => (settle c w key, false)
    end
  else let '(C, b) := DeleteIf c (w_mem w) key pred in (set_mem w C, b).
End storecache.
Arguments storeMirror : clear implicits.
Arguments promotion : clear implicits.
Arguments storeRead : clear implicits.
Arguments world K V P St T A B {_ _}.
