(* ===== verification/Tiered.v ===== *)
(** * Tiered: two caches as a hierarchy ([tiered.go])

    A tiered cache reads its fast tier L1 and then its slow tier L2, copying
    what it finds in L2 into L1; it writes to both.  A copy ([getAndPromote])
    takes several locked sections, and writes and deletes may come between
    them: it watches the key in both tiers from before it reads, and writes
    L1 only when neither tier saw a change.  Here each section is a step on
    the state [tiered], which holds the copies in progress, and [Get] is their
    sequence.

    The tiers are two caches without a Store; they share nothing, so that
    deferring the hooks of a write of L1 until L2 is written ([Tiered.write])
    is not visible in the state of either.  Two tiers that are one and the
    same cache are not modelled. *)

From S2P Require Import Prelude Policy Storage Ttl Entry Tags Flights Shard Store Cache Bulk StoreCache.

#[local] Open Scope Z_scope.

(** Why a guarded write stored nothing. *)
Inductive guardErr := WriteSuperseded | WriteRefused (e : error).

Section tiered.
Context {K V P St T A : Type} `{Countable K, Inhabited K, Inhabited V}.
Context `{EvictionPolicy K P, ShardStore K St, TtlBackend T, AdmissionPolicy K A}.

Local Abbreviation config := (config K V).
Local Abbreviation globals := (globals K V A).
Local Abbreviation shard := (shard K V P St T).
Local Abbreviation cache := (cache K V P St T A).

(** Where a copy of an L2 hit is: watching, with what L2 answered, with what
    [promote] will write, or given up. *)
Inductive stage :=
| Watching
| Missed
| Found (v : V)
| Prepared (v : V) (sc : setConfig)
| Refused.

(** A call of [getAndPromote]: its key and its tokens in L1 and L2. *)
Record copy := Copy { cp_key : K; cp_w1 : loc; cp_w2 : loc; cp_stage : stage }.

Record tiered := Tiered {
  t_l1 : cache;
  t_l2 : cache;
  t_l1Hits : Z;
  t_l2Hits : Z;
  t_misses : Z;
  t_promotions : Z;
  t_closed : bool;
  t_copies : gmap loc copy;
  t_refs1 : gmap loc Z;     (* [watchToken.refs] of the tokens of L1 *)
  t_refs2 : gmap loc Z;
  t_next : loc
}.

Implicit Types (c : config) (C : cache) (g : globals) (s : shard) (t : tiered) (key : K).

Definition NewTiered (l1 l2 : cache) : tiered := Tiered l1 l2 0 0 0 0 false ∅ ∅ ∅ 1%positive.

Definition t_set_tiers t (l1 l2 : cache) : tiered :=
  Tiered l1 l2 (t_l1Hits t) (t_l2Hits t) (t_misses t) (t_promotions t) (t_closed t) (t_copies t)
    (t_refs1 t) (t_refs2 t) (t_next t).
Definition t_count t (h1 h2 m p : Z) : tiered :=
  Tiered (t_l1 t) (t_l2 t) (u64 (t_l1Hits t + h1)) (u64 (t_l2Hits t + h2)) (u64 (t_misses t + m))
    (u64 (t_promotions t + p)) (t_closed t) (t_copies t) (t_refs1 t) (t_refs2 t) (t_next t).
Definition t_set_copies t (cps : gmap loc copy) : tiered :=
  Tiered (t_l1 t) (t_l2 t) (t_l1Hits t) (t_l2Hits t) (t_misses t) (t_promotions t) (t_closed t) cps
    (t_refs1 t) (t_refs2 t) (t_next t).

(** ** Watches *)

Definition watchKey c C (refs : gmap loc Z) key (spare : loc) : cache * gmap loc Z * loc :=
  let '(C, x) := locked C (shardFor c key) (λ g s,
    let '(s, x) := watchLockedSpare s key spare in (g, s, x)) spare in
  (C, <[x := default 0 (refs !! x) + 1]> refs, x).

Definition unwatchKey c C (refs : gmap loc Z) key (x : loc) : cache * gmap loc Z :=
  let n := default 0 (refs !! x) - 1 in
  (locked_ C (shardFor c key) (λ g s, (g, unwatchLocked s key x n)), <[x := n]> refs).

Definition watchCurrent c C key (x : loc) : bool := negb (superseded c C key x).

(** ** Guarded writes *)

(** [SetWithOptions] with [setGuard]: [guard] runs under the shard lock. *)
Definition setGuarded c C key (value : V) (sc : setConfig) (guard : shard → bool)
    : cache * option guardErr :=
  match prepareOptions c C key value sc with
  | inl e => (C, Some (WriteRefused e))
  | inr (tags, weight) =>
      let i := shardFor c key in
      let '(C, written) := locked C i (λ g s,
        if guard s then (upsertOptions c g s key value sc tags weight, true) else (g, s, false)) false in
      let C := flushAndUnlock c C i in
      if written : bool then (enforceGroupBudgets c C tags, None) else (C, Some WriteSuperseded)
  end.

(** ** Copies *)

(** The first section of [getAndPromote]: both tiers watch the key. *)
Definition beginCopy c1 c2 t key : tiered * loc :=
  let id := t_next t in
  let '(l1, refs1, w1) := watchKey c1 (t_l1 t) (t_refs1 t) key id in
  let '(l2, refs2, w2) := watchKey c2 (t_l2 t) (t_refs2 t) key id in
  (Tiered l1 l2 (t_l1Hits t) (t_l2Hits t) (t_misses t) (t_promotions t) (t_closed t)
     (<[id := Copy key w1 w2 Watching]> (t_copies t)) refs1 refs2 (Pos.succ id), id).

Definition setStage t (id : loc) (cp : copy) (st : stage) : tiered :=
  t_set_copies t (<[id := Copy (cp_key cp) (cp_w1 cp) (cp_w2 cp) st]> (t_copies t)).

(** [get]: L2 answers. *)
Definition readCopy c2 t (id : loc) : tiered * option V :=
  match t_copies t !! id with
  | Some cp =>
      match cp_stage cp with
      | Watching =>
          let '(l2, r) := Get c2 (t_l2 t) (cp_key cp) in
          let t := t_set_tiers t (t_l1 t) l2 in
          match r with
          | Some v => (setStage (t_count t 0 1 0 0) id cp (Found v), Some v)
          | None => (setStage t id cp Missed, None)
          end
      | _ => (t, None)
      end
  | None => (t, None)
  end.

(** The expiry of the L1 copy: that of the L2 entry, or L1's default TTL if
    that is sooner. *)
Definition copyExpiry c1 C (exp : Z) : Z * cache :=
  if bool_decide (0 < cf_defaultTTL c1) then
    let '(now, g) := clockNow c1 (c_g C) in
    let l1Exp := i64 (now + cf_defaultTTL c1) in
    (if bool_decide (l1Exp < exp) then l1Exp else exp, set_g C g)
  else (exp, C).

(** The first half of [promote]: what to write to L1. *)
Definition prepareCopy c1 c2 t (id : loc) : tiered :=
  match t_copies t !! id with
  | Some cp =>
      match cp_stage cp with
      | Found v =>
          match Expiry c2 (t_l2 t) (cp_key cp) with
          | (l2, None) => setStage (t_set_tiers t (t_l1 t) l2) id cp Refused
          | (l2, Some exp) =>
              let tags := TagsOf c2 l2 (cp_key cp) in
              let '(at_, l1) := match exp with
                                | Some x => let '(x, l1) := copyExpiry c1 (t_l1 t) x in (Some (Some x), l1)
                                | None => (None, t_l1 t)
                                end in
              setStage (t_set_tiers t l1 l2) id cp
                (Prepared v (SetConfig None None (match tags with [] => None | _ => Some tags end) at_ None))
          end
      | _ => t
      end
  | None => t
  end.

(** The second half of [promote], and the two [unwatchKey]s. *)
Definition endCopy c1 c2 t (id : loc) : tiered :=
  match t_copies t !! id with
  | Some cp =>
      let key := cp_key cp in
      let t := match cp_stage cp with
               | Prepared v sc =>
                   let guard := λ s, bool_decide (cp_w1 cp ∉ fl_wsuperseded (sh_flights s)) &&
                                     watchCurrent c2 (t_l2 t) key (cp_w2 cp) in
                   let '(l1, err) := setGuarded c1 (t_l1 t) key v sc guard in
                   let t := t_set_tiers t l1 (t_l2 t) in
                   match err with None => t_count t 0 0 0 1 | Some _ => t end
               | _ => t
               end in
      let '(l2, refs2) := unwatchKey c2 (t_l2 t) (t_refs2 t) key (cp_w2 cp) in
      let '(l1, refs1) := unwatchKey c1 (t_l1 t) (t_refs1 t) key (cp_w1 cp) in
      Tiered l1 l2 (t_l1Hits t) (t_l2Hits t) (t_misses t) (t_promotions t) (t_closed t)
        (delete id (t_copies t)) refs1 refs2 (t_next t)
  | None => t
  end.

(** ** Operations *)

(** [Get]: the sections of a copy one after the other. *)
Definition Get_ti c1 c2 t key : tiered * option V :=
  if t_closed t then (t, None)
  else
    match Get c1 (t_l1 t) key with
    | (l1, Some v) => (t_count (t_set_tiers t l1 (t_l2 t)) 1 0 0 0, Some v)
    | (l1, None) =>
        let '(t, id) := beginCopy c1 c2 (t_set_tiers t l1 (t_l2 t)) key in
        let '(t, r) := readCopy c2 t id in
        let t := endCopy c1 c2 (prepareCopy c1 c2 t id) id in
        match r with
        | Some v => (t, Some v)
        | None => (t_count t 0 0 1 0, None)
        end
    end.

(** The two halves of [Tiered.write].  The key's Tiered lock, held across both,
    keeps other Tiered writes and deletes of the key out, not reads: the steps
    of copies come between the halves. *)
Definition writeL1 t (set : cache → cache * option error) : tiered * option error :=
  let '(l1, err) := set (t_l1 t) in (t_set_tiers t l1 (t_l2 t), err).

Definition writeL2 t (set : cache → cache * option error) : tiered * option error :=
  let '(l2, err) := set (t_l2 t) in (t_set_tiers t (t_l1 t) l2, err).

(** [Tiered.write] with nothing between its halves: L1, then L2 unless L1
    refused. *)
Definition write_ti t (set1 set2 : cache → cache * option error) : tiered * option error :=
  if t_closed t then (t, Some ErrClosed)
  else match writeL1 t set1 with
       | (t, Some err) => (t, Some err)
       | (t, None) => writeL2 t set2
       end.

Definition Set_ti c1 c2 t key (value : V) : tiered * option error :=
  write_ti t (λ C, Set_ c1 C key value) (λ C, Set_ c2 C key value).

Definition SetWithTTL_ti c1 c2 t key (value : V) (ttl : Z) : tiered * option error :=
  write_ti t (λ C, SetWithTTL c1 C key value ttl) (λ C, SetWithTTL c2 C key value ttl).

Definition SetWithOptions_ti c1 c2 t key (value : V) (sc : setConfig) : tiered * option error :=
  write_ti t (λ C, setWithOptions c1 C key value sc) (λ C, setWithOptions c2 C key value sc).

(** The two halves of [Delete], L2 first. *)
Definition delete2 c2 t key : tiered * bool :=
  let '(l2, d2) := Delete c2 (t_l2 t) key in (t_set_tiers t (t_l1 t) l2, d2).

Definition delete1 c1 t key : tiered * bool :=
  let '(l1, d1) := Delete c1 (t_l1 t) key in (t_set_tiers t l1 (t_l2 t), d1).

Definition Delete_ti c1 c2 t key : tiered * bool :=
  if t_closed t then (t, false)
  else let '(t, d2) := delete2 c2 t key in
       let '(t, d1) := delete1 c1 t key in (t, d1 || d2).

Definition Has_ti c1 c2 t key : tiered * bool :=
  if t_closed t then (t, false)
  else match Has c1 (t_l1 t) key with
       | (l1, true) => (t_set_tiers t l1 (t_l2 t), true)
       | (l1, false) => let '(l2, b) := Has c2 (t_l2 t) key in (t_set_tiers t l1 l2, b)
       end.

Definition InvalidateTag_ti c1 c2 t (tag : string) : tiered * Z :=
  if t_closed t then (t, 0)
  else let '(l2, n) := InvalidateTag c2 (t_l2 t) tag in
       let '(l1, m) := InvalidateTag c1 (t_l1 t) tag in (t_set_tiers t l1 l2, n + m).

Definition InvalidateTags_ti c1 c2 t (tags : list string) : tiered * Z :=
  if t_closed t then (t, 0)
  else let '(l2, n) := InvalidateTags c2 (t_l2 t) tags in
       let '(l1, m) := InvalidateTags c1 (t_l1 t) tags in (t_set_tiers t l1 l2, n + m).

Definition Len_ti t : Z := if t_closed t then 0 else Len (t_l2 t).

(** The counters of [Stats]. *)
Definition TieredStats t : Z * Z * Z * Z := (t_l1Hits t, t_l2Hits t, t_misses t, t_promotions t).
End tiered.
Arguments stage : clear implicits.
Arguments copy : clear implicits.
Arguments tiered K V P St T A {_ _}.
