(* ===== verification/Async.v ===== *)
(** * Async: queued writes ([asyncwrites.go])

    With [WithAsyncWrites], [Set] and [Delete] check their arguments and queue
    an operation; a goroutine applies the queue.  A second operation on a key
    replaces the first.  Reads consult the queue before the table ([Get],
    [Has], [Peek]); the other methods apply what is queued for their key, or
    everything, before they work on the table.

    The code keeps one queue per shard, a map from keys; the key determines
    the shard, so that here the queues are one map.  The order in which a
    drain meets the operations of a shard is an argument, as Go leaves it
    open.  The cache has no Store. *)

From S2P Require Import Prelude Policy Storage Ttl Entry Tags Flights Shard Cache Bulk Loads StoreCache Tiered.

#[local] Open Scope Z_scope.

Section async.
Context {K V P St T A : Type} `{Countable K, Inhabited K, Inhabited V}.
Context `{EvictionPolicy K P, ShardStore K St, TtlBackend T, AdmissionPolicy K A}.

Local Abbreviation entry := (entry K V).
Local Abbreviation config := (config K V).
Local Abbreviation globals := (globals K V A).
Local Abbreviation shard := (shard K V P St T).
Local Abbreviation cache := (cache K V P St T A).

(** [pendingOp], without the key, which is that of the map; [stored] is of use
    with a Store only. *)
Inductive pendingOp :=
| PendingSet (value : V) (weight effectiveTTL rawTTL : Z) (sliding : bool) (expireAt : Z) (tags : list string)
| PendingDelete.

(** [a_backlog] is [asyncWrites.inflight]. *)
Record acache := ACache { a_mem : cache; a_pending : gmap K pendingOp; a_backlog : Z }.

Implicit Types (c : config) (C : cache) (g : globals) (s : shard) (B : acache) (key : K) (op : pendingOp).

Definition newAsyncWrites C : acache := ACache C ∅ 0.

Definition a_set B C : acache := ACache C (a_pending B) (a_backlog B).

Definition a_open B : bool := negb (g_closed (c_g (a_mem B))).

(** ** Queueing *)

(** [guard] is what the guard of the write answers under the lock. *)
Definition enqueuePending B key op (guard : bool) : acache * option guardErr :=
  if g_closed (c_g (a_mem B)) then (B, Some (WriteRefused ErrClosed))
  else if negb guard then (B, Some WriteSuperseded)
  else (ACache (a_mem B) (<[key := op]> (a_pending B))
          (match a_pending B !! key with None => i64 (a_backlog B + 1) | Some _ => a_backlog B end), None).

(** [asyncSet] and [enqueueAsyncSet]: the weight is that of the value. *)
Definition asyncSet c B key (value : V) (ttl : Z) (sliding : bool) (tags : list string) (guard : bool)
    : acache * option guardErr :=
  let C := a_mem B in
  if g_closed (c_g C) then (B, Some (WriteRefused ErrClosed))
  else match checkKeySize c key with
       | Some e => (B, Some (WriteRefused e))
       | None =>
           match computeWeight c value with
           | inl e => (B, Some (WriteRefused e))
           | inr weight =>
               match checkTagLimits c (c_g C) tags with
               | Some e => (B, Some (WriteRefused e))
               | None =>
                   let '(ettl, g) := effectiveTTL c (c_g C) ttl in
                   enqueuePending (a_set B (set_g C g)) key
                     (PendingSet value weight ettl ttl sliding 0 tags) guard
               end
           end
       end.

(** [at_] is None for the zero time. *)
Definition asyncSetWithExpiry c B key (value : V) (weight : Z) (at_ : option Z) (sliding : bool) (ttl : Z)
    (tags : list string) (guard : bool) : acache * option guardErr :=
  let C := a_mem B in
  if g_closed (c_g C) then (B, Some (WriteRefused ErrClosed))
  else match checkKeySize c key with
       | Some e => (B, Some (WriteRefused e))
       | None =>
           match checkTagLimits c (c_g C) tags with
           | Some e => (B, Some (WriteRefused e))
           | None => enqueuePending B key (PendingSet value weight 0 ttl sliding (default 0 at_) tags) guard
           end
       end.

Definition setTTLCtx_as c B key (value : V) (ttl : Z) : acache * option guardErr :=
  asyncSet c B key value ttl (cf_slidingTTL c) (cf_autoTags c value) true.

Definition Set_as c B key (value : V) : acache * option guardErr :=
  setTTLCtx_as c B key value (cf_valueTTL c value (cf_defaultTTL c)).

Definition SetWithTTL_as c B key (value : V) (ttl : Z) : acache * option guardErr :=
  if bool_decide (ttl < 0) then (B, Some (WriteRefused ErrInvalidTTL)) else setTTLCtx_as c B key value ttl.

Definition SetWithOptions_as c B key (value : V) (sc : setConfig) (guard : bool) : acache * option guardErr :=
  match prepareOptions c (a_mem B) key value sc with
  | inl e => (B, Some (WriteRefused e))
  | inr (tags, weight) =>
      let ttl := default (cf_defaultTTL c) (sc_ttl sc) in
      let sliding := default (cf_slidingTTL c) (sc_sliding sc) in
      match sc_expireAt sc with
      | Some at_ => asyncSetWithExpiry c B key value weight at_ sliding ttl tags guard
      | None => asyncSet c B key value ttl sliding tags guard
      end
  end.

(** [Delete] answers true whether or not there was an entry. *)
Definition asyncDelete B key : acache * bool :=
  if g_closed (c_g (a_mem B)) then (B, false)
  else match enqueuePending B key PendingDelete true with
       | (B, Some _) => (B, false)
       | (B, None) => (a_set B (set_g (a_mem B) (g_count (c_g (a_mem B)) deletes 1)), true)
       end.

(** ** Applying *)

(** The branch of a queued delete is that of [removeKeyLocked]. *)
Definition applyPendingOpLocked c key op g s : globals * shard :=
  match op with
  | PendingSet value weight ettl raw sliding expireAt tags =>
      if bool_decide (0 < expireAt)
      then upsertWithAbsoluteExpiryLocked c g s key value weight (Some expireAt) tags
      else upsertLocked c g s key value weight ettl sliding raw tags
  | PendingDelete => (removeKeyLocked c g s key EvictReasonDeleted).1
  end.

Definition applyAsyncSideEffects c C op : cache :=
  match op with
  | PendingSet _ _ _ _ _ _ tags => enforceGroupBudgets c C tags
  | PendingDelete => C
  end.

(** The queue of shard [i], in an order that starts with [order]. *)
Definition pendingOf c (pend : gmap K pendingOp) (i : nat) (order : list K) : list (K * pendingOp) :=
  let here := filter (λ ko, shardFor c ko.1 = i) (map_to_list pend) in
  let first := omap (λ k, (k,.) <$> (if bool_decide (shardFor c k = i) then pend !! k else None)) (remove_dups order) in
  first ++ filter (λ ko, ko.1 ∉ order) here.

Definition drainShard c B (i : nat) (order : list K) : acache * Z :=
  match pendingOf c (a_pending B) i order with
  | [] => (B, 0)
  | ops =>
      let C := locked_ (a_mem B) i (λ g s,
        foldl (λ '(g, s) '(k, op), applyPendingOpLocked c k op g s) (g, s) ops) in
      let C := flushAndUnlock c C i in
      let C := foldl (λ C ko, applyAsyncSideEffects c C ko.2) C ops in
      let n := Z.of_nat (length ops) in
      (ACache C (filter (λ ko, shardFor c ko.1 ≠ i) (a_pending B)) (i64 (a_backlog B - n)), n)
  end.

Definition drainAllShards c B (order : list K) : acache * Z :=
  foldl (λ '(B, n) i, let '(B, k) := drainShard c B i order in (B, n + k)) (B, 0)
    (seq 0 (length (c_shards (a_mem B)))).

(** Takes the callbacks a locked routine deferred off the shard. *)
Definition takeCallbacks C (i : nat) : cache * list (callback K V) :=
  locked C i (λ g s, (g, sh_set_callbacks s [], sh_callbacks s)) [].

Definition runCallbacks c C (cbs : list (callback K V)) : cache :=
  set_g C (emit (c_g C) (concat (map (removeCallbackFor c) cbs))).

(** [applyPendingKeyLocked] at the head of the locked section [body] of a
    method: the hooks of the queued operation fire, and its groups are
    shrunk, before the hooks of the method itself. *)
Definition pendingSection {R} c B key (body : globals → shard → globals * shard * R) (d : R) : acache * R :=
  let i := shardFor c key in
  match a_pending B !! key with
  | None => let '(C, r) := locked (a_mem B) i body d in (a_set B (flushAndUnlock c C i), r)
  | Some op =>
      let '(C, hooks) := takeCallbacks (locked_ (a_mem B) i (applyPendingOpLocked c key op)) i in
      let '(C, r) := locked C i body d in
      let '(C, cbs) := takeCallbacks C i in
      let C := applyAsyncSideEffects c (runCallbacks c C hooks) op in
      let C := runCallbacks c C cbs in
      let C := (shedOverBudget c C EvictReasonCapacity (Some i)).1 in
      (ACache C (delete key (a_pending B)) (i64 (a_backlog B - 1)), r)
  end.

Definition applyPendingKey c B key : acache := (pendingSection c B key (λ g s, (g, s, tt)) tt).1.

Definition applyAllPending c B (order : list K) : acache := (drainAllShards c B order).1.

(** ** Reads *)

(** [Some None] is a queued delete, or a queued write that has expired. *)
Definition asyncReadHit B key (now : Z) : option (option V) :=
  match a_pending B !! key with
  | None => None
  | Some PendingDelete => Some None
  | Some (PendingSet value _ _ _ _ expireAt _) =>
      if bool_decide (0 < expireAt) && bool_decide (expireAt <= now) then Some None else Some (Some value)
  end.

Definition Get_as c B key : acache * option V :=
  if negb (a_open B) then (B, None)
  else
    let '(now, C) := needNow c (a_mem B) None in
    match asyncReadHit B key now with
    | Some (Some v) => let '(C, r) := hitResult c C key v in (a_set B C, r)
    | Some None => let '(C, r) := missResult c C key in (a_set B C, r)
    | None =>
        match (if cf_lockFreeRead c then snapshotGet c C key now else lockedGet c C key (Some now)) with
        | (C, SlowHit v) => let '(C, r) := hitResult c C key v in (a_set B C, r)
        | (C, _) => let '(C, r) := missResult c C key in (a_set B C, r)
        end
    end.

(** The value [Has] and [Peek] find. *)
Definition peekAt c B key (now : Z) : option V :=
  match asyncReadHit B key now with
  | Some r => r
  | None => loadValue <$> freshAt c now (shard_get c (a_mem B) key)
  end.

Definition Has_as c B key : acache * bool :=
  if negb (a_open B) then (B, false)
  else let '(now, C) := needNow c (a_mem B) None in
       (a_set B C, bool_decide (is_Some (peekAt c B key now))).

Definition Peek_as c B key : acache * option V :=
  if negb (a_open B) then (B, None)
  else let '(now, C) := needNow c (a_mem B) None in (a_set B C, returnValue c <$> peekAt c B key now).

(** ** Methods that apply the queued operation of their key

    They read the clock before they apply it. *)

Definition afterPending {R} c B key (f : Z → cache → cache * R) : acache * R :=
  let '(now, C) := needNow c (a_mem B) None in
  let B := applyPendingKey c (a_set B C) key in
  let '(C, r) := f now (a_mem B) in (a_set B C, r).

(** A locked section of the shard of [key], and the unlock. *)
Definition sectionOf {R} c C key (body : globals → shard → globals * shard * R) (d : R) : cache * R :=
  let i := shardFor c key in
  let '(C, r) := locked C i body d in (flushAndUnlock c C i, r).

Definition GetWithExpiry_as c B key : acache * option (V * option Z) :=
  if negb (a_open B) then (B, None)
  else afterPending c B key (λ now C, sectionOf c C key (λ g s, getWithExpiryLocked c g s key now) None).

Definition TTL_as c B key : acache * option Z :=
  if negb (a_open B) then (B, None) else afterPending c B key (λ now C, (C, ttlAt c C key now)).

Definition Expiry_as c B key : acache * option (option Z) :=
  if negb (a_open B) then (B, None)
  else afterPending c B key (λ now C, (C, (λ e, timeOf (e_expireAt e)) <$> freshAt c now (shard_get c C key))).

Definition touchKey_as c B key (ttlOf : entry → Z) : acache * bool :=
  afterPending c B key (λ now C, sectionOf c C key (λ g s, touchKeyLocked c g s key ttlOf now) false).

Definition Touch_as c B key : acache * bool :=
  if negb (a_open B) then (B, false) else touchKey_as c B key (touchTTL c).

Definition TouchWithTTL_as c B key (ttl : Z) : acache * bool :=
  if negb (a_open B) || bool_decide (ttl < 0) then (B, false) else touchKey_as c B key (λ _, ttl).

Definition DeleteIf_as c B key (pred : V → bool) : acache * bool :=
  if negb (a_open B) then (B, false)
  else afterPending c B key (λ now C, sectionOf c C key (λ g s, deleteIfLocked c g s key pred now) false).

Definition Tags_as c B key : acache * list string :=
  if negb (a_open B) then (B, [])
  else let B := applyPendingKey c B key in (B, TagsOf c (a_mem B) key).

(** [loadOrJoin] applies the queue before it locks. *)
Definition GetOrLoad_as c B key (ctxDone allowed : bool) : acache * (loadError + loadStart V) :=
  if negb (a_open B) then (B, inl LoadClosed)
  else if negb (cf_loader c) then (B, inl LoadNoLoader)
  else if ctxDone then (B, inl LoadCtxDone)
  else let B := applyPendingKey c B key in
       let '(C, r) := loadOrJoin c (a_mem B) key allowed in (a_set B C, inr r).

(** [deleteKey] from memory alone, as a remote invalidation does
    ([deleteWithReason]). *)
Definition deleteWithReason c B key (reason : EvictionReason) : acache * bool :=
  if negb (a_open B) then (B, false)
  else pendingSection c B key (λ g s, removeKeyLocked c g s key reason) false.

Definition conditional_as {R} c B key (value : V) (body : Z → globals → shard → globals * shard * R) (d : R)
    : acache * (error + R) :=
  match checkWrite c (a_mem B) key value with
  | inl e => (B, inl e)
  | inr weight => let '(B, r) := pendingSection c B key (body weight) d in (B, inr r)
  end.

Definition SetIfAbsent_as c B key (value : V) : acache * (error + bool) :=
  conditional_as c B key value (setIfAbsentLocked c key value) false.

Definition SetIfPresent_as c B key (value : V) : acache * (error + bool) :=
  conditional_as c B key value (setIfPresentLocked c key value) false.

Definition GetOrSet_as c B key (value : V) : acache * (error + V * bool) :=
  conditional_as c B key value (getOrSetLocked c key value) (value, false).

Definition PeekOrAdd_as c B key (value : V) : acache * (error + V * bool) :=
  conditional_as c B key value (peekOrAddLocked c key value) (value, false).

(** ** Methods that apply the whole queue *)

Definition afterAll {R} c B (order : list K) (f : cache → cache * R) : acache * R :=
  let B := applyAllPending c B order in
  let '(C, r) := f (a_mem B) in (a_set B C, r).

Definition Clear_as c B (order : list K) : acache :=
  if negb (a_open B) then B else (afterAll c B order (λ C, (Clear c C, tt))).1.

Definition Reset_as c B (order : list K) : acache := (afterAll c B order (λ C, (Reset_ c C, tt))).1.

Definition DeletePrefix_as c B (order : list K) (hasPrefix : option (K → string → bool)) (prefix : string)
    : acache * Z :=
  if negb (a_open B) then (B, 0) else afterAll c B order (λ C, DeletePrefix c C hasPrefix prefix).

Definition DeleteWhere_as c B (order : list K) (pred : option (K → V → bool)) : acache * Z :=
  match pred with
  | None => (B, 0)
  | Some _ => if negb (a_open B) then (B, 0) else afterAll c B order (λ C, DeleteWhere c C pred)
  end.

Definition InvalidateTag_as c B (order : list K) (tag : string) : acache * Z :=
  if negb (a_open B) then (B, 0) else afterAll c B order (λ C, InvalidateTag c C tag).

Definition InvalidateTags_as c B (order : list K) (tags : list string) : acache * Z :=
  if negb (a_open B) || bool_decide (tags = []) then (B, 0) else afterAll c B order (λ C, InvalidateTags c C tags).

(** ** Sync and Close *)

Definition asyncBacklog B : Z := a_backlog B.

(** One turn of the loop of [Sync] outside the hooks: nothing is left of the
    queue nor of the tag cleanup. *)
Definition settled B : bool :=
  bool_decide (Z.of_nat (length (g_untagQueue (c_g (a_mem B)))) = 0) && bool_decide (asyncBacklog B = 0).
End async.
Arguments pendingOp : clear implicits.
Arguments acache K V P St T A {_ _}.
