(* ===== verification/Compute.v ===== *)
(** * Compute: read-modify-write of one key ([compute.go])

    [Compute] and its variants read a key's value, in memory or through the
    Store, apply a function to it and write the result back, all under the
    key's lock.  The user's functions are Rocq functions: they neither panic
    nor call the cache, so the re-entrancy guard [enterCompute] never fires.
    A nil function is None. *)

From S2P Require Import Prelude Policy Storage Ttl Entry Tags Flights Shard Store Cache StoreCache.

#[local] Open Scope Z_scope.

(** [ComputeOther] is a value of the type that is none of the constants. *)
Inductive ComputeAction := ComputeStore | ComputeDelete | ComputeNoOp | ComputeOther (n : Z).

(** The constraint [Number]. *)
Class Number (V : Type) := {
  num_zero : V;
  num_one : V;
  num_add : V → V → V;
  num_sub : V → V → V
}.

(** Go's [int64] and [uint64]. *)
Definition int64_number : Number Z := {|
  num_zero := 0; num_one := 1; num_add x y := i64 (x + y); num_sub x y := i64 (x - y) |}.

Definition uint64_number : Number Z := {|
  num_zero := 0; num_one := 1; num_add x y := u64 (x + y); num_sub x y := u64 (x - y) |}.

Section compute.
Context {K V P St T A B : Type} `{Countable K, Inhabited K, Inhabited V}.
Context `{EvictionPolicy K P, ShardStore K St, TtlBackend T, AdmissionPolicy K A, Store K V B}.

Local Abbreviation entry := (entry K V).
Local Abbreviation config := (config K V).
Local Abbreviation globals := (globals K V A).
Local Abbreviation shard := (shard K V P St T).
Local Abbreviation world := (world K V P St T A B).
Local Abbreviation storeMirror := (storeMirror V).
Implicit Types (c : config) (g : globals) (s : shard) (w : world) (sm : storeMirror) (key : K).

(** The zero value of [V]. *)
Local Abbreviation zero := (inhabitant : V).

(** The field writes of [replaceValueLocked]. *)
Definition entry_replace (e : entry) (value : V) (weight now : Z) : entry :=
  set_hits (set_times (set_weight (storeValue e value) weight) (e_expireAt e) now) 0.

Definition replaceValueLocked c g s (a : loc) (e : entry) (value : V) (weight : Z) : globals * shard :=
  let s := sh_set_flights s (supersedeFlight (sh_flights s) (e_key e)) (sh_nextFlight s) in
  let g := g_live g 0 (weight - e_weight e) in
  let '(now, g) := clockNow c g in
  let s := sh_write s a (entry_replace e value weight now) in
  let s := sh_set_policy s (OnUpdate (sh_policy s) (a, e_key e)) in
  let g := stat c g updates in
  if cf_events c then
    let '(at_, g) := clockNow c g in (emit g [FxEventUpdate (e_key e) value at_ (e_tags e)], s)
  else (g, s).

Definition storeComputedLocked c g s key (value : V) (weight : Z) : globals * shard :=
  match freshEntryLocked c g s key with
  | (g, Some (a, e)) => replaceValueLocked c g s a e value weight
  | (g, None) =>
      let '(ettl, g) := effectiveTTL c g (cf_defaultTTL c) in
      upsertLocked c g s key value weight ettl (cf_slidingTTL c) (cf_defaultTTL c) []
  end.

Definition replaceOrStoreLocked c g s (o : option (loc * entry)) key (value : V) (weight : Z) : globals * shard :=
  match o with
  | Some (a, e) => replaceValueLocked c g s a e value weight
  | None => storeComputedLocked c g s key value weight
  end.

(** [replaceOrStoreLocked] and [noteStoreKeepLocked]. *)
Definition storeCurrent c w sm key (o : option (loc * entry)) (value : V) (weight : Z) : world * storeMirror :=
  lockedW c w key (λ g s,
    let '(g, s) := replaceOrStoreLocked c g s o key value weight in
    let '(g, sm) := noteStoreKeepLocked c g s sm (hasStore w) (hasTTLStore w) key value in (g, s, sm)) sm.

Definition set_del sm (del : bool) : storeMirror :=
  StoreMirror (sm_set sm) del (sm_fromStore sm) (sm_storeExpireAt sm) (sm_keepStoreTTL sm).

(** The [ComputeDelete] branch for a key that is present. *)
Definition deleteCurrent c w sm key (o : option (loc * entry)) : world * storeMirror :=
  let '(w, _) := match o with
                 | Some (a, _) => lockedW c w key (λ g s, (removeLocked c g s a EvictReasonComputed, tt)) tt
                 | None => (w, tt)
                 end in
  (w, set_del sm (hasStore w)).

(** The switch of [Compute] and [ComputeIfPresent] on what the function
    returned; [present] is whether it saw a value. *)
Definition applyAction c w sm key (cur : option (V * option (loc * entry))) (r : Z + V * ComputeAction)
    : world * storeMirror * (V * option cerr) :=
  match r with
  | inl code => (w, sm, (zero, Some (FnErr code)))
  | inr (newValue, ComputeStore) =>
      match computeWeight c newValue with
      | inl err => (w, sm, (zero, Some (CacheErr err)))
      | inr weight => (storeCurrent c w sm key (cur ≫= snd) newValue weight, (newValue, None))
      end
  | inr (_, ComputeDelete) =>
      match cur with
      | None => (w, sm, (zero, None))
      | Some (_, o) => (deleteCurrent c w sm key o, (zero, None))
      end
  | inr (_, ComputeNoOp) => (w, sm, (match cur with Some (current, _) => current | None => zero end, None))
  | inr (_, ComputeOther n) => (w, sm, (zero, Some (ErrUnknownComputeAction n)))
  end.

(** Each method is a section in memory that notes what the Store is to get
    ([_locked]) and the deferred Store call ([mirrored]). *)
Definition Compute_locked c w key (fn : V → bool → Z + V * ComputeAction) : world * storeMirror * (V * option cerr) :=
  let '(w, sm, cur) := currentLocked c w key in
  match cur with
  | inl err => (w, sm, (zero, Some (StoreErr err)))
  | inr cur =>
      let current := match cur with Some (current, _) => current | None => zero end in
      applyAction c w sm key cur (fn current (bool_decide (is_Some cur)))
  end.

Definition Compute c w key (fn : option (V → bool → Z + V * ComputeAction)) : world * (V * option cerr) :=
  if g_closed (c_g (w_mem w)) then (w, (zero, Some (CacheErr ErrClosed)))
  else match fn with
       | None => (w, (zero, Some ErrNilComputeFn))
       | Some fn => let '(w, sm, r) := Compute_locked c w key fn in mirrored c w sm key id r
       end.

(** The insert of [ComputeIfAbsent]. *)
Definition addCurrent c w sm key (value : V) (weight ttl : Z) : world * storeMirror :=
  lockedW c w key (λ g s,
    let '(g, s) := (let '(ettl, g) := effectiveTTL c g ttl in
                    upsertLocked c g s key value weight ettl (cf_slidingTTL c) ttl []) in
    let '(g, sm) := noteStoreSetLocked c g s sm (hasStore w) key value in (g, s, sm)) sm.

Definition ComputeIfAbsent_locked c w key (fn : unit → Z + V * Z) : world * storeMirror * (V * bool * option cerr) :=
  let '(w, sm, cur) := currentLocked c w key in
  match cur with
  | inl err => (w, sm, (zero, false, Some (StoreErr err)))
  | inr (Some (current, _)) => (w, sm, (current, false, None))
  | inr None =>
      match fn tt with
      | inl code => (w, sm, (zero, false, Some (FnErr code)))
      | inr (v, ttl) =>
          if bool_decide (ttl < 0) then (w, sm, (zero, false, Some (CacheErr ErrInvalidTTL)))
          else match computeWeight c v with
               | inl err => (w, sm, (zero, false, Some (CacheErr err)))
               | inr weight =>
                   let ttl := if bool_decide (ttl = 0) then cf_defaultTTL c else ttl in
                   (addCurrent c w sm key v weight ttl, (v, true, None))
               end
      end
  end.

Definition ComputeIfAbsent c w key (fn : option (unit → Z + V * Z)) : world * (V * bool * option cerr) :=
  if g_closed (c_g (w_mem w)) then (w, (zero, false, Some (CacheErr ErrClosed)))
  else match fn with
       | None => (w, (zero, false, Some ErrNilComputeFn))
       | Some fn => let '(w, sm, r) := ComputeIfAbsent_locked c w key fn in mirrored c w sm key id r
       end.

Definition ComputeIfPresent_locked c w key (fn : V → Z + V * ComputeAction) : world * storeMirror * (V * option cerr) :=
  let '(w, sm, cur) := currentLocked c w key in
  match cur with
  | inl err => (w, sm, (zero, Some (StoreErr err)))
  | inr None => (w, sm, (zero, None))
  | inr (Some (current, o)) => applyAction c w sm key (Some (current, o)) (fn current)
  end.

Definition ComputeIfPresent c w key (fn : option (V → Z + V * ComputeAction)) : world * (V * option cerr) :=
  if g_closed (c_g (w_mem w)) then (w, (zero, Some (CacheErr ErrClosed)))
  else match fn with
       | None => (w, (zero, Some ErrNilComputeFn))
       | Some fn => let '(w, sm, r) := ComputeIfPresent_locked c w key fn in mirrored c w sm key id r
       end.

(** The end of [Update] and [CompareAndSwap]: the weight, the write. *)
Definition swapCurrent c w sm key (o : option (loc * entry)) (newValue : V) : world * storeMirror * option error :=
  match computeWeight c newValue with
  | inl err => (w, sm, Some err)
  | inr weight => (storeCurrent c w sm key o newValue weight, None)
  end.

Definition Update_locked c w key (fn : V → V) : world * storeMirror * (V * option cerr) :=
  let '(w, sm, cur) := currentLocked c w key in
  match cur with
  | inl err => (w, sm, (zero, Some (StoreErr err)))
  | inr None => (w, sm, (zero, Some ErrNotFound))
  | inr (Some (current, o)) =>
      match swapCurrent c w sm key o (fn current) with
      | (w, sm, Some err) => (w, sm, (zero, Some (CacheErr err)))
      | (w, sm, None) => (w, sm, (fn current, None))
      end
  end.

Definition Update c w key (fn : option (V → V)) : world * (V * option cerr) :=
  match fn with
  | None => (w, (zero, Some ErrNilComputeFn))
  | Some fn =>
      if g_closed (c_g (w_mem w)) then (w, (zero, Some (CacheErr ErrClosed)))
      else let '(w, sm, r) := Update_locked c w key fn in mirrored c w sm key id r
  end.

(** [deepEqual] is [reflect.DeepEqual] at [V]. *)
Definition CompareAndSwap_locked c (deepEqual : V → V → bool) w key (old newValue : V) : world * storeMirror * bool :=
  let '(w, sm, cur) := currentLocked c w key in
  match cur with
  | inr (Some (current, o)) =>
      if deepEqual current old then
        match swapCurrent c w sm key o newValue with
        | (w, sm, Some _) => (w, sm, false)
        | (w, sm, None) => (w, sm, true)
        end
      else (w, sm, false)
  | _ => (w, sm, false)
  end.

Definition CompareAndSwap c (deepEqual : V → V → bool) w key (old newValue : V) : world * bool :=
  if g_closed (c_g (w_mem w)) then (w, false)
  else
    let '(w, sm, swapped) := CompareAndSwap_locked c deepEqual w key old newValue in
    let '(w, (swapped, _)) := mirrored c w sm key (λ _, false) (swapped, None) in
    (w, swapped).

(** ** Counters *)

Context `{Number V}.

(** A nil cache is not modelled. *)
Definition IncrementBy c w key (delta : V) : world * (V * option cerr) :=
  Compute c w key (Some (λ cur _, inr (num_add cur delta, ComputeStore))).

Definition Increment c w key : world * (V * option cerr) := IncrementBy c w key num_one.

Definition decrementDelta : V := num_sub num_zero num_one.

Definition Decrement c w key : world * (V * option cerr) := IncrementBy c w key decrementDelta.
End compute.
