(* ===== verification/ShardInv.v ===== *)
(** * ShardInv: the invariant of a shard and the routines that preserve it

    [shard_wf c s m D] says that the entry table of shard [s] is the map [m],
    and that every other component agrees with it: the policy tracks exactly
    the entries of [m], the TTL backend knows them and tracks in [D] those
    with a TTL, every entry of [m] carries its own key, recycled entries are
    blank and apart from the live ones, and the lock-free read snapshot can
    be trusted.  Everything is proved against the laws of the components. *)

From S2P Require Import Prelude Policy Storage Ttl Entry Tags Flights Shard.

#[local] Open Scope Z_scope.

Section erefs.
Context {K : Type} `{Countable K}.

(** The entries of a table, as the policy sees them. *)
Definition erefs (m : gmap K loc) : gset (eref K) := map_to_set (λ k a, (a, k)) m.

Lemma elem_of_erefs m a k : (a, k) ∈ erefs m ↔ m !! k = Some a.
Proof.
  unfold erefs. rewrite elem_of_map_to_set. split; [|eauto].
  by intros (k' & a' & ? & [= -> ->]).
Qed.

Lemma erefs_insert m k a : m !! k = None → erefs (<[k := a]> m) = {[(a, k)]} ∪ erefs m.
Proof.
  intros Hk. apply set_eq. intros [a' k'].
  rewrite elem_of_union elem_of_singleton !elem_of_erefs lookup_insert_Some. naive_solver.
Qed.

Lemma erefs_delete m k a : m !! k = Some a → erefs (delete k m) = erefs m ∖ {[(a, k)]}.
Proof.
  intros Hk. apply set_eq. intros [a' k'].
  rewrite elem_of_difference elem_of_singleton !elem_of_erefs lookup_delete_Some. naive_solver.
Qed.

Lemma erefs_size m : size (erefs m) = size m.
Proof.
  unfold erefs. induction m as [|k a m Hk IH] using map_ind; [done|].
  change (map_to_set _ _) with (erefs (<[k := a]> m)).
  rewrite erefs_insert // size_union; [|].
  - rewrite size_singleton map_size_insert_None // IH. done.
  - apply disjoint_singleton_l. rewrite elem_of_erefs. congruence.
Qed.

Lemma elem_of_addrs (m : gmap K loc) a : a ∈ addrs m ↔ ∃ k, m !! k = Some a.
Proof.
  unfold addrs. rewrite list_elem_of_fmap. split.
  - intros ([k a'] & -> & Hin). exists k. by apply elem_of_map_to_list.
  - intros [k Hk]. exists (k, a). split; [done|]. by apply elem_of_map_to_list.
Qed.
End erefs.

Section wf.
Context {K V P St T A : Type} `{Countable K, Inhabited K, Inhabited V}.
Context `{EvictionPolicy K P, ShardStore K St, TtlBackend T, AdmissionPolicy K A}.
Context `{!PolicyLaws K P, !StoreLaws K St, !TtlLaws T}.
(** Entries that may be missing from the TTL backend: empty except in the
    middle of a sweep. *)
Context {E : gset loc}.

Local Abbreviation entry := (entry K V).
Local Abbreviation config := (config K V).
Local Abbreviation globals := (globals K V A).
Local Abbreviation shard := (shard K V P St T).
Implicit Types (c : config) (g : globals) (s : shard) (e : entry) (m : gmap K loc)
  (h : gmap loc entry) (a : loc) (k : K) (D : gset loc).

(** A live entry under key [k]. *)
Definition entry_ok k e : Prop :=
  e_key e = k ∧ 1 <= e_weight e ∧ e_invalidated e = false.

(** A key the snapshot has under an address that was not invalidated is
    live under that address, and a snapshot that is not amended misses no
    live key. *)
Definition read_ok c s m : Prop :=
  match sh_read s with
  | None => cf_lockFreeRead c = false
  | Some rm =>
      cf_lockFreeRead c = true ∧ sh_pool s = [] ∧
      (∀ k a, rm_m rm !! k = Some a →
         ∃ e, sh_heap s !! a = Some e ∧ e_key e = k ∧
              (e_invalidated e = false → m !! k = Some a)) ∧
      (rm_amended rm = false → ∀ k a, m !! k = Some a → rm_m rm !! k = Some a)
  end.

Record shard_wf c s m D : Prop := ShardWf {
  wf_storage : st_rep (sh_storage s) m;
  wf_entry : ∀ k a, m !! k = Some a → ∃ e, sh_heap s !! a = Some e ∧ entry_ok k e;
  wf_policy : tracks (sh_policy s) (erefs m);
  wf_ttl : ttl_rep (expiries (sh_heap s)) (sh_ttl s) (map_img m) D;
  wf_ttl_all : ∀ a, a ∈ (map_img m : gset loc) → a ∉ E →
    0 < expiries (sh_heap s) a → a ∈ D;
  wf_pool : ∀ a, a ∈ sh_pool s → sh_heap s !! a = Some entry_blank ∧ a ∉ (map_img m : gset loc);
  wf_pool_nodup : NoDup (sh_pool s);
  wf_fresh : ∀ a, is_Some (sh_heap s !! a) → (a < sh_fresh s)%positive;
  wf_read : read_ok c s m
}.

(** The entries of [m] are the same in both heaps. *)
Definition same_on m h h' : Prop := ∀ k a, m !! k = Some a → h' !! a = h !! a.

Lemma elem_of_img m a : a ∈ (map_img m : gset loc) ↔ ∃ k, m !! k = Some a.
Proof. apply elem_of_map_img. Qed.

Lemma img_insert m k a : m !! k = None → map_img (<[k := a]> m) = ({[a]} ∪ map_img m : gset loc).
Proof. intros. rewrite map_img_insert_notin_L //. Qed.

Lemma wf_inj c s m D k k' a : shard_wf c s m D → m !! k = Some a → m !! k' = Some a → k = k'.
Proof.
  intros Hwf Hk Hk'. destruct (wf_entry _ _ _ _ Hwf _ _ Hk) as (e & He & Hok & _).
  destruct (wf_entry _ _ _ _ Hwf _ _ Hk') as (e' & He' & Hok' & _). congruence.
Qed.

Lemma img_delete c s m D k a :
  shard_wf c s m D → m !! k = Some a → map_img (delete k m) = (map_img m ∖ {[a]} : gset loc).
Proof.
  intros Hwf Hk. apply set_eq. intros b.
  rewrite elem_of_difference elem_of_singleton !elem_of_img. split.
  - intros [k' [Hne Hk']%lookup_delete_Some]. split; [eauto|]. intros ->.
    apply Hne. by eapply wf_inj.
  - intros [[k' Hk'] Hne]. exists k'. apply lookup_delete_Some. split; [|done]. congruence.
Qed.

Lemma wf_get c s m D k : shard_wf c s m D → st_get (sh_storage s) k = m !! k.
Proof. intros Hwf. apply st_rep_get, Hwf. Qed.

Lemma wf_length c s m D : shard_wf c s m D → st_length (sh_storage s) = Z.of_nat (size m).
Proof. intros Hwf. apply st_rep_length, Hwf. Qed.

Lemma expiries_eq h h' a : h' !! a = h !! a → expiries h' a = expiries h a.
Proof. unfold expiries. by intros ->. Qed.

Lemma wf_dom c s m D a : shard_wf c s m D → a ∈ D → ∃ k, m !! k = Some a.
Proof. intros Hwf Ha. apply elem_of_img. by apply (ttl_rep_sub _ _ _ _ (wf_ttl _ _ _ _ Hwf)). Qed.

(** Only the fields [shard_wf] mentions matter. *)
Lemma wf_ext c s s' m D :
  sh_storage s' = sh_storage s → sh_policy s' = sh_policy s → sh_ttl s' = sh_ttl s →
  sh_heap s' = sh_heap s → sh_pool s' = sh_pool s → sh_fresh s' = sh_fresh s →
  sh_read s' = sh_read s → shard_wf c s m D → shard_wf c s' m D.
Proof.
  intros E1 E2 E3 E4 E5 E6 E7 [H1' H2' H3' H4' H5' H6' H7' H8' H9'].
  constructor; rewrite ?E1 ?E2 ?E3 ?E4 ?E5 ?E6 //.
  unfold read_ok. rewrite E7 E4 E5. exact H9'.
Qed.

(** ** The read snapshot *)

Lemma snap_sub h l m0 k a :
  foldl (λ m a, match h !! a with Some e => <[e_key e := a]> m | None => m end) m0 l !! k = Some a →
  m0 !! k = Some a ∨ (a ∈ l ∧ ∃ e, h !! a = Some e ∧ e_key e = k).
Proof.
  revert m0. induction l as [|b l IH]; intros m0; cbn; [by left|].
  intros [Hm|[? ?]]%IH; [|set_solver]. destruct (h !! b) as [e|] eqn:Eb; [|by left].
  apply lookup_insert_Some in Hm as [[<- <-]|[_ ?]]; [right|by left]. split; [set_solver|eauto].
Qed.

Lemma snap_dom h l m0 k a e :
  a ∈ l → h !! a = Some e → e_key e = k →
  is_Some (foldl (λ m a, match h !! a with Some e => <[e_key e := a]> m | None => m end) m0 l !! k).
Proof.
  intros Ha He Hk.
  assert (∀ l m0, is_Some (m0 !! k) → is_Some
    (foldl (λ m a, match h !! a with Some e => <[e_key e := a]> m | None => m end) m0 l !! k)) as Hmono.
  { clear. induction l as [|b l IH]; intros m0 Hm; [done|]. cbn. apply IH.
    destruct (h !! b) as [e|]; [|done]. rewrite lookup_insert. case_decide; naive_solver. }
  revert m0. induction l as [|b l IH]; intros m0; [set_solver|]. cbn.
  apply elem_of_cons in Ha as [<-|Ha]; [|by apply IH]. apply Hmono. rewrite He Hk lookup_insert_eq. eauto.
Qed.

(** A promotion publishes exactly the live table. *)
Lemma read_snapshot_live c s m D : shard_wf c s m D → read_snapshot s = m.
Proof.
  intros Hwf. pose proof (st_rep_each _ _ (wf_storage _ _ _ _ Hwf)) as Hp.
  assert (∀ k a, read_snapshot s !! k = Some a → m !! k = Some a) as Hsub.
  { intros k a Hr. apply snap_sub in Hr as [Hr|(Ha & e & He & Hk)]; [by rewrite lookup_empty in Hr|].
    rewrite Hp elem_of_addrs in Ha. destruct Ha as [k' Hk'].
    destruct (wf_entry _ _ _ _ Hwf _ _ Hk') as (e' & He' & Hok & _). congruence. }
  apply map_eq. intros k. destruct (m !! k) as [a|] eqn:Hk.
  - destruct (wf_entry _ _ _ _ Hwf _ _ Hk) as (e & He & Hok & _).
    assert (a ∈ st_each (sh_storage s)) as Ha by (rewrite Hp elem_of_addrs; eauto).
    destruct (snap_dom _ _ ∅ k a e Ha He Hok) as [b Hb].
    change (read_snapshot s !! k = Some b) in Hb. rewrite Hb. apply Hsub in Hb. congruence.
  - destruct (read_snapshot s !! k) as [a|] eqn:Hr; [|done]. apply Hsub in Hr. congruence.
Qed.

Lemma promote_wf c s m D : shard_wf c s m D → shard_wf c (promoteReadMapLocked s) m D.
Proof.
  intros Hwf. unfold promoteReadMapLocked. destruct (sh_read s) as [cur|] eqn:Er; [|done].
  case_match; [done|]. pose proof (wf_read _ _ _ _ Hwf) as Hr. unfold read_ok in Hr.
  rewrite Er in Hr. destruct Hr as (Hl & Hpl & Hr1 & Hr2).
  destruct Hwf as [H1' H2' H3' H4' H5' H6' H7' H8' H9']. constructor; cbn; try done.
  unfold read_ok. cbn. split_and!; [done|done| |]; erewrite (read_snapshot_live c s m D); try done.
  intros k a Hk. destruct (H2' _ _ Hk) as (e & ? & ? & ?). eauto.
Qed.

Lemma bumpReadMisses_wf c s m D : shard_wf c s m D → shard_wf c (bumpReadMisses s) m D.
Proof.
  intros Hwf. unfold bumpReadMisses.
  assert (shard_wf c (sh_set_read s (sh_read s) (sh_readMisses s + 1)) m D) as Hw
    by by apply (wf_ext c s).
  cbv zeta. case_bool_decide; [by apply promote_wf|done].
Qed.

Lemma read_ok_no_lf c s m : read_ok c s m → cf_lockFreeRead c = false → sh_read s = None.
Proof. unfold read_ok. destruct (sh_read s); [|done]. intros [? _] ?. congruence. Qed.

Lemma read_ok_lf c s m : read_ok c s m → cf_lockFreeRead c = true → sh_pool s = [].
Proof. unfold read_ok. destruct (sh_read s); [by intros (? & ? & _)|]. congruence. Qed.

(** ** The pool *)

(** [pool_get] hands out a blank entry no live entry and no snapshot
    shares, whatever the pool picks. *)
Lemma pool_get_wf c s m D :
  shard_wf c s m D →
  let '(a, s') := pool_get c s in
  shard_wf c s' m D ∧ sh_heap s' !! a = Some entry_blank ∧
  a ∉ (map_img m : gset loc) ∧ a ∉ sh_pool s' ∧
  (∀ rm k, sh_read s' = Some rm → rm_m rm !! k ≠ Some a) ∧
  (∀ b, b ≠ a → sh_heap s' !! b = sh_heap s !! b).
Proof.
  intros Hwf. pose proof Hwf as [H1' H2' H3' H4' H5' H6' H7' H8' H9'].
  assert (Hfr : sh_heap s !! sh_fresh s = None).
  { destruct (sh_heap s !! sh_fresh s) as [e|] eqn:Eh; [|done].
    assert (sh_fresh s < sh_fresh s)%positive by eauto. lia. }
  assert (Hfresh : let s' := sh_set_heap s (<[sh_fresh s := entry_blank]> (sh_heap s)) (sh_pool s)
                     (Pos.succ (sh_fresh s)) in
    shard_wf c s' m D ∧ sh_heap s' !! sh_fresh s = Some entry_blank ∧
    sh_fresh s ∉ (map_img m : gset loc) ∧ sh_fresh s ∉ sh_pool s' ∧
    (∀ rm k, sh_read s' = Some rm → rm_m rm !! k ≠ Some (sh_fresh s)) ∧
    (∀ b, b ≠ sh_fresh s → sh_heap s' !! b = sh_heap s !! b)).
  { assert (∀ b, is_Some (sh_heap s !! b) →
      <[sh_fresh s := entry_blank]> (sh_heap s) !! b = sh_heap s !! b) as Hsame.
    { intros b [e Hb]. rewrite lookup_insert_ne //. congruence. }
    assert (∀ b, b ∈ (map_img m : gset loc) → is_Some (sh_heap s !! b)) as Himg.
    { intros b [k Hk]%elem_of_img. destruct (H2' _ _ Hk) as (e & -> & _). done. }
    assert (sh_fresh s ∉ (map_img m : gset loc)) as Hni.
    { intros [e He]%Himg. congruence. }
    split_and!.
    - constructor; cbn; try done.
      + intros k a Hk. destruct (H2' _ _ Hk) as (e & He & Hok). exists e. rewrite Hsame //.
      + eapply ttl_rep_ext; [exact H4'|]. intros b Hb. apply expiries_eq. symmetry.
        symmetry. apply Hsame, Himg. by apply (ttl_rep_sub _ _ _ _ H4').
      + intros b Hb HE. rewrite (expiries_eq (sh_heap s)); [by apply H5'|]. by apply Hsame, Himg.
      + intros b Hb. destruct (H6' _ Hb) as [Hb' ?]. rewrite Hsame; eauto.
      + intros b [e [[<- _]|[_ Hb]]%lookup_insert_Some]; [lia|].
        assert (b < sh_fresh s)%positive by eauto. lia.
      + unfold read_ok in *. cbn. destruct (sh_read s) as [rm|]; [|done].
        destruct H9' as (Hl & Hpl & Hr1 & Hr2). split_and!; [done..| |done].
        intros k a Hk. destruct (Hr1 _ _ Hk) as (e & He & ?). exists e. rewrite Hsame //.
    - cbn. by rewrite lookup_insert_eq.
    - done.
    - cbn. intros [Hb _]%H6'. congruence.
    - cbn. intros rm k Hrm Hk. unfold read_ok in H9'. rewrite Hrm in H9'.
      destruct H9' as (_ & _ & Hr1 & _). destruct (Hr1 _ _ Hk) as (e & He & _). congruence.
    - intros b Hb. cbn. by rewrite lookup_insert_ne. }
  unfold pool_get. destruct (cf_poolPick c (sh_pool s)) as [a|]; [|exact Hfresh].
  case_decide as Ha; [|exact Hfresh]. clear Hfresh Hfr.
  destruct (H6' _ Ha) as [Hb Hni]. split_and!; cbn; try done.
  - constructor; cbn; try done.
    + by apply ttl_rep_unindex.
    + intros b [_ Hb']%elem_of_without. by apply H6'.
    + by apply NoDup_without.
    + unfold read_ok in *. cbn. destruct (sh_read s) as [rm|]; [|done].
      destruct H9' as (Hl & Hpl & ?). rewrite Hpl in Ha. set_solver.
  - rewrite elem_of_without. tauto.
  - intros rm k Hrm. unfold read_ok in H9'. rewrite Hrm in H9'. destruct H9' as (_ & Hpl & _).
    rewrite Hpl in Ha. set_solver.
Qed.

(** ** Inserting *)

(** The fields of a registered shard, by cases on the read snapshot. *)
Ltac register_cases :=
  unfold register, markAmended, expiryAdd; cbn; repeat case_match; cbn.

Lemma read_ok_insert c s m k a e' :
  read_ok c s m → (∀ rm k', sh_read s = Some rm → rm_m rm !! k' ≠ Some a) →
  m !! k = None → read_ok c (register (sh_write s a e') k a) (<[k := a]> m).
Proof.
  intros Hr Hna Hk. unfold register, markAmended, expiryAdd. cbn. unfold read_ok in *.
  destruct (sh_read s) as [rm|] eqn:Er; cbn; [|by rewrite Er].
  destruct Hr as (Hl & Hpl & Hr1 & Hr2).
  assert (∀ k' b, rm_m rm !! k' = Some b → ∃ e, <[a:=e']> (sh_heap s) !! b = Some e ∧
    e_key e = k' ∧ (e_invalidated e = false → <[k:=a]> m !! k' = Some b)) as Hg.
  { intros k' b Hb. destruct (Hr1 _ _ Hb) as (e & He & Hek & Hi). exists e.
    rewrite lookup_insert_ne; [|intros ->; by apply (Hna _ k' eq_refl)].
    split_and!; [done..|]. intros Hni. rewrite lookup_insert_ne; [by apply Hi|].
    intros ->. specialize (Hi Hni). congruence. }
  destruct (rm_amended rm) eqn:Ea; cbn; rewrite ?Er; split_and!; try done. congruence.
Qed.

Lemma register_wf c s m D k a e' :
  shard_wf c s m D → m !! k = None → a ∉ (map_img m : gset loc) → a ∉ sh_pool s →
  is_Some (sh_heap s !! a) →
  (∀ rm k', sh_read s = Some rm → rm_m rm !! k' ≠ Some a) → entry_ok k e' →
  ∃ D', shard_wf c (register (sh_write s a e') k a) (<[k := a]> m) D'.
Proof.
  intros Hwf Hk Ha Hpl Hin Hrm Hok. pose proof Hwf as [H1' H2' H3' H4' H5' H6' H7' H8' H9'].
  set (h' := <[a := e']> (sh_heap s)).
  assert (∀ b, b ≠ a → h' !! b = sh_heap s !! b) as Hsame
    by (intros; by rewrite /h' lookup_insert_ne).
  assert (∀ b, b ∈ (map_img m : gset loc) → b ≠ a) as Hne by (intros b ? ->; done).
  assert (ttl_rep (expiries h') (sh_ttl s) (map_img m) D) as Httl.
  { eapply ttl_rep_ext; [exact H4'|]. intros b Hb. apply expiries_eq, Hsame, Hne.
    by apply (ttl_rep_sub _ _ _ _ H4'). }
  destruct (ttl_rep_add _ _ _ _ a Httl Ha) as (D' & HD' & Hsub & Hadd & _). exists D'.
  constructor.
  - register_cases; by apply st_rep_set.
  - intros k' b. rewrite /register /markAmended /expiryAdd /=.
    rewrite lookup_insert_Some. intros [[<- <-]|[Hkk Hb]].
    + exists e'. repeat case_match; cbn; by rewrite lookup_insert_eq.
    + destruct (H2' _ _ Hb) as (e & He & Hoke). exists e.
      assert (b ≠ a) by (apply Hne, elem_of_img; eauto).
      repeat case_match; cbn; by rewrite lookup_insert_ne.
  - rewrite erefs_insert //. register_cases; (apply tracks_insert; [done|]);
      intros [b k'] Hb; cbn; apply Hne, elem_of_img; exists k'; by apply elem_of_erefs.
  - rewrite img_insert //. register_cases; exact HD'.
  - intros b Hb HE. assert (0 < expiries h' b → b ∈ D') as Hgoal.
    { rewrite img_insert // in Hb. apply elem_of_union in Hb as [->%elem_of_singleton|Hb]; [done|].
      rewrite (expiries_eq (sh_heap s)); [|by apply Hsame, Hne]. intros Hx.
      assert (b ∈ D ∖ {[a]}) as HD; [|rewrite -Hsub in HD; set_solver].
      specialize (H5' _ Hb HE Hx). specialize (Hne _ Hb). set_solver. }
    by register_cases.
  - intros b Hb. assert (b ∈ sh_pool s) as Hb'.
    { revert Hb. by register_cases. }
    destruct (H6' _ Hb') as [Hbl Hnb]. assert (b ≠ a) as Hba by by intros ->.
    rewrite img_insert // not_elem_of_union not_elem_of_singleton. split; [|done].
    register_cases; by rewrite lookup_insert_ne.
  - by register_cases.
  - intros b Hb. assert (is_Some (sh_heap s !! b)) as Hb'.
    { destruct (decide (b = a)) as [->|Hba]; [done|].
      revert Hb. register_cases; by rewrite lookup_insert_ne. }
    apply H8' in Hb'. by register_cases.
  - by apply read_ok_insert.
Qed.

Lemma register_heap s k a e' b :
  b ≠ a → sh_heap (register (sh_write s a e') k a) !! b = sh_heap s !! b.
Proof.
  intros Hb. register_cases; by rewrite lookup_insert_ne.
Qed.

Lemma register_heap_eq s k a e' : sh_heap (register (sh_write s a e') k a) !! a = Some e'.
Proof.
  register_cases; by rewrite lookup_insert_eq.
Qed.

(** ** Updating in place *)

Lemma read_ok_write c s m k a e e' :
  read_ok c s m → sh_heap s !! a = Some e → m !! k = Some a →
  e_key e' = e_key e → e_invalidated e' = e_invalidated e →
  read_ok c (sh_write s a e') m.
Proof.
  intros Hr He Hk Hkey Hinv. unfold read_ok in *. cbn. destruct (sh_read s) as [rm|]; [|done].
  destruct Hr as (Hl & Hpl & Hr1 & Hr2). split_and!; [done..| |done].
  intros k' b Hb. destruct (Hr1 _ _ Hb) as (eb & Heb & Hek & Hi).
  destruct (decide (b = a)) as [->|Hne].
  - rewrite lookup_insert_eq. exists e'. split; [done|]. rewrite Hkey Hinv. naive_solver.
  - rewrite lookup_insert_ne //. eauto.
Qed.

(** Writing a live entry whose expiry does not change. *)
Lemma write_wf c s m D k a e e' :
  shard_wf c s m D → m !! k = Some a → sh_heap s !! a = Some e →
  e_key e' = e_key e → e_invalidated e' = e_invalidated e → 1 <= e_weight e' →
  e_expireAt e' = e_expireAt e → shard_wf c (sh_write s a e') m D.
Proof.
  intros Hwf Hk He Hkey Hinv Hw Hexp. pose proof Hwf as [H1' H2' H3' H4' H5' H6' H7' H8' H9'].
  assert (∀ b, expiries (<[a := e']> (sh_heap s)) b = expiries (sh_heap s) b) as Hx.
  { intros b. unfold expiries. rewrite lookup_insert. case_decide; subst; [by rewrite He|done]. }
  constructor; cbn; try done.
  - intros k' b Hb. destruct (decide (b = a)) as [->|Hne].
    + destruct (H2' _ _ Hb) as (e0 & He0 & Hek & _ & Hi). exists e'. rewrite lookup_insert_eq.
      split; [done|]. repeat split; congruence.
    + rewrite lookup_insert_ne //. by apply H2'.
  - eapply ttl_rep_ext; [exact H4'|]. intros b _. apply Hx.
  - intros b. rewrite Hx. apply H5'.
  - intros b Hb. destruct (H6' _ Hb) as [Hbl Hnb]. rewrite lookup_insert_ne //.
    intros <-. apply Hnb, elem_of_img. eauto.
  - intros b Hb. apply H8'. destruct (decide (b = a)) as [->|Hne]; [by rewrite He|].
    by rewrite lookup_insert_ne // in Hb.
  - by eapply read_ok_write.
Qed.

(** Writing a live entry and repositioning it in the TTL backend. *)
Lemma write_fix_wf c s m D k a e e' :
  shard_wf c s m D → m !! k = Some a → sh_heap s !! a = Some e →
  e_key e' = e_key e → e_invalidated e' = e_invalidated e → 1 <= e_weight e' →
  ∃ D', shard_wf c (expiryFix (sh_write s a e') a) m D'.
Proof.
  intros Hwf Hk He Hkey Hinv Hw. pose proof Hwf as [H1' H2' H3' H4' H5' H6' H7' H8' H9'].
  set (h' := <[a := e']> (sh_heap s)).
  assert (∀ b, b ≠ a → h' !! b = sh_heap s !! b) as Hsame
    by (intros; by rewrite /h' lookup_insert_ne).
  assert (a ∈ (map_img m : gset loc)) as Ha by (apply elem_of_img; eauto).
  destruct (ttl_rep_fix (expiries (sh_heap s)) (expiries h') _ _ _ a H4' Ha)
    as (D' & HD' & Hsub & Hadd & _).
  { intros b _ Hb. by apply expiries_eq, Hsame. }
  exists D'. constructor; cbn; try done.
  - intros k' b Hb. destruct (decide (b = a)) as [->|Hne].
    + destruct (H2' _ _ Hb) as (e0 & He0 & Hek & _ & Hi). exists e'. rewrite lookup_insert_eq.
      split; [done|]. repeat split; congruence.
    + fold h'. rewrite Hsame //. by apply H2'.
  - intros b Hb HE Hx. destruct (decide (b = a)) as [->|Hne]; [by apply Hadd|].
    fold h' in Hx. rewrite (expiries_eq (sh_heap s)) in Hx; [|by apply Hsame].
    assert (b ∈ D ∖ {[a]}) as HD; [|rewrite -Hsub in HD; set_solver].
    specialize (H5' _ Hb HE Hx). set_solver.
  - intros b Hb. destruct (H6' _ Hb) as [Hbl Hnb]. rewrite lookup_insert_ne //.
    intros <-. done.
  - intros b Hb. apply H8'. destruct (decide (b = a)) as [->|Hne]; [by rewrite He|].
    fold h' in Hb. by rewrite Hsame // in Hb.
  - by eapply (read_ok_write _ _ _ _ _ _ e').
Qed.

Lemma set_policy_wf c s m D p :
  shard_wf c s m D → tracks p (erefs m) → shard_wf c (sh_set_policy s p) m D.
Proof. intros [] Hp. by constructor. Qed.

(** ** Removing *)

(** [s0] is [s] after the table and the TTL backend forgot the entry [a] of
    key [k]. *)
Record forgot s s0 k a : Prop := Forgot {
  fg_storage : sh_storage s0 = (st_del (sh_storage s) k).2;
  fg_ttl : sh_ttl s0 = ttl_Remove (expiries (sh_heap s)) (sh_ttl s) a;
  fg_heap : sh_heap s0 = sh_heap s;
  fg_pool : sh_pool s0 = sh_pool s;
  fg_fresh : sh_fresh s0 = sh_fresh s;
  fg_read : sh_read s0 = sh_read s
}.

Lemma delete_others c s m D k a k' b :
  shard_wf c s m D → m !! k = Some a → delete k m !! k' = Some b → b ≠ a ∧ m !! k' = Some b.
Proof.
  intros Hwf Hk [Hne Hb]%lookup_delete_Some. split; [|done]. intros ->.
  apply Hne. by eapply wf_inj.
Qed.

(** What the forgotten entry's memory may become: a blank entry in the
    pool, or an invalidated entry that only snapshots still reach. *)
Definition disposed c s e e' (pl : list loc) a : Prop :=
  if cf_lockFreeRead c then e' = markInvalidated e ∧ pl = sh_pool s
  else e' = entry_blank ∧ pl = a :: sh_pool s.

Lemma read_ok_dispose c s s0 m k a e e' pl t :
  (∀ k' b, delete k m !! k' = Some b → b ≠ a ∧ m !! k' = Some b) →
  read_ok c s m → forgot s s0 k a → m !! k = Some a → sh_heap s !! a = Some e →
  disposed c s e e' pl a →
  read_ok c (sh_set_ttl (sh_set_heap s0 (<[a := e']> (sh_heap s0)) pl (sh_fresh s0)) t) (delete k m).
Proof.
  intros Hdel Hr HF Hk He Hd. unfold read_ok, disposed in *. cbn.
  rewrite (fg_read _ _ _ _ HF) (fg_heap _ _ _ _ HF). destruct (sh_read s) as [rm|]; [|done].
  destruct Hr as (Hl & Hpl & Hr1 & Hr2). rewrite Hl in Hd. destruct Hd as [-> ->].
  split_and!; [done..| |].
  - intros k' b Hb. destruct (Hr1 _ _ Hb) as (eb & Heb & Hek & Hi).
    destruct (decide (b = a)) as [->|Hne].
    + rewrite lookup_insert_eq. eexists. split; [done|]. cbn. split; [congruence|done].
    + rewrite lookup_insert_ne //. exists eb. split_and!; [done..|]. intros Hni.
      apply lookup_delete_Some. split; [|by apply Hi]. intros ->.
      specialize (Hi Hni). congruence.
  - intros Ham k' b [_ Hb]%Hdel. by apply Hr2.
Qed.

Lemma dispose_wf c s s0 m D k a e e' pl t :
  shard_wf c s m D → forgot s s0 k a → m !! k = Some a → sh_heap s !! a = Some e →
  disposed c s e e' pl a → tracks (sh_policy s0) (erefs m ∖ {[(a, k)]}) →
  ttl_rep (expiries (sh_heap s)) t (map_img m ∖ {[a]}) (D ∖ {[a]}) →
  shard_wf c (sh_set_ttl (sh_set_heap s0 (<[a := e']> (sh_heap s0)) pl (sh_fresh s0)) t)
    (delete k m) (D ∖ {[a]}).
Proof.
  intros Hwf HF Hk He Hd Hpol Htt. pose proof Hwf as [H1' H2' H3' H4' H5' H6' H7' H8' H9'].
  pose proof (λ k' b, delete_others _ _ _ _ k a k' b Hwf Hk) as Hdel.
  pose proof (img_delete _ _ _ _ _ _ Hwf Hk) as Himg.
  pose proof (read_ok_dispose _ _ _ _ _ _ _ _ _ t Hdel H9' HF Hk He Hd) as Hro.
  rewrite (fg_heap _ _ _ _ HF) (fg_fresh _ _ _ _ HF) in Hro.
  constructor; cbn; rewrite ?(fg_storage _ _ _ _ HF)
    ?(fg_heap _ _ _ _ HF) ?(fg_fresh _ _ _ _ HF).
  - by apply st_rep_del.
  - intros k' b [Hb Hb']%Hdel. rewrite lookup_insert_ne //. by apply H2'.
  - by rewrite (erefs_delete _ _ a).
  - rewrite Himg. eapply ttl_rep_ext; [exact Htt|]. intros b Hb. apply expiries_eq.
    rewrite lookup_insert_ne //. set_solver.
  - intros b Hb HE. rewrite Himg in Hb. rewrite (expiries_eq (sh_heap s)).
    + intros Hx. specialize (H5' b). set_solver.
    + rewrite lookup_insert_ne //. set_solver.
  - assert (∀ b, b ∈ sh_pool s → <[a:=e']> (sh_heap s) !! b = Some entry_blank ∧
      b ∉ (map_img (delete k m) : gset loc)) as Hold.
    { intros b Hb. destruct (H6' _ Hb) as [Hbl Hnb]. rewrite lookup_insert_ne.
      - rewrite Himg. set_solver.
      - intros <-. apply Hnb, elem_of_img. eauto. }
    unfold disposed in Hd. destruct (cf_lockFreeRead c); destruct Hd as [-> ->]; [done|].
    intros b [->|Hb]%elem_of_cons; [|by apply Hold].
    rewrite lookup_insert_eq Himg. set_solver.
  - unfold disposed in Hd. destruct (cf_lockFreeRead c); destruct Hd as [-> ->]; [done|].
    constructor; [|done]. intros [_ Hb]%H6'. apply Hb, elem_of_img. eauto.
  - intros b Hb. apply H8'. destruct (decide (b = a)) as [->|Hne]; [by rewrite He|].
    by rewrite lookup_insert_ne // in Hb.
  - exact Hro.
Qed.

(** The disposal at the end of [removeLocked]. *)
Definition dispose c s a e : shard :=
  if cf_lockFreeRead c then bumpReadMisses (sh_write s a (markInvalidated e)) else pool_put s a.

Lemma forgot_dispose_wf c s s0 m D k a e :
  shard_wf c s m D → forgot s s0 k a → m !! k = Some a → sh_heap s !! a = Some e →
  tracks (sh_policy s0) (erefs m ∖ {[(a, k)]}) →
  shard_wf c (dispose c s0 a e) (delete k m) (D ∖ {[a]}) ∧
  (∀ b, b ≠ a → sh_heap (dispose c s0 a e) !! b = sh_heap s !! b).
Proof.
  intros Hwf HF Hk He Hpol.
  assert (a ∈ (map_img m : gset loc)) as Ha by (apply elem_of_img; eauto).
  pose proof (ttl_rep_remove _ _ _ _ a (wf_ttl _ _ _ _ Hwf) Ha) as Hrem.
  unfold dispose. destruct (cf_lockFreeRead c) eqn:Hlf.
  - split.
    + apply bumpReadMisses_wf.
      refine (wf_ext _ _ _ _ _ _ _ _ _ _ _ _
        (dispose_wf _ _ _ _ _ _ _ e (markInvalidated e) (sh_pool s) _ Hwf HF Hk He _ Hpol Hrem)); cbn; try done.
      * apply (fg_ttl _ _ _ _ HF).
      * apply (fg_pool _ _ _ _ HF).
      * unfold disposed. by rewrite Hlf.
    + intros b Hb. unfold bumpReadMisses, promoteReadMapLocked. cbn.
      repeat case_match; cbn; by rewrite (fg_heap _ _ _ _ HF) lookup_insert_ne.
  - unfold pool_put. rewrite {1 3}(fg_heap _ _ _ _ HF) He (fg_pool _ _ _ _ HF). split.
    + eapply dispose_wf; [done..| |done|].
      * unfold disposed. by rewrite Hlf.
      * rewrite (fg_ttl _ _ _ _ HF). apply ttl_rep_unindex; [done|set_solver].
    + intros b Hb. cbn. by rewrite (fg_heap _ _ _ _ HF) lookup_insert_ne.
Qed.

(** [removeLocked], up to the deferred callback: the shard forgets the entry
    and disposes of it. *)
Lemma removeLocked_shape c g s a r e :
  sh_heap s !! a = Some e →
  ∃ s0 cbs, forgot s s0 (e_key e) a ∧ sh_policy s0 = OnRemove (sh_policy s) (a, e_key e) ∧
    (removeLocked c g s a r).2 = sh_set_callbacks (dispose c s0 a e) cbs ∧
    sh_budget s0 = sh_budget s ∧ sh_janitor s0 = sh_janitor s.
Proof.
  intros He. unfold removeLocked. rewrite He. cbv zeta.
  set (s1 := sh_set_storage _ _).
  assert (forgetHashLocked c s1 (e_key e) =
    sh_set_hashIndex s1 (sh_hashIndex (forgetHashLocked c s1 (e_key e)))) as Hfh.
  { unfold forgetHashLocked. repeat case_match; by destruct s1. }
  rewrite Hfh. set (s0 := sh_set_policy _ _).
  assert (forgot s s0 (e_key e) a ∧ sh_policy s0 = OnRemove (sh_policy s) (a, e_key e) ∧
    sh_budget s0 = sh_budget s ∧ sh_janitor s0 = sh_janitor s) as (HF & Hp & Hb & Hj).
  { subst s0 s1. destruct (supersedesFlight r); cbn; by repeat split. }
  exists s0. fold (dispose c s0 a e). case_match.
  - exists (sh_callbacks (dispose c s0 a e)). split_and!; [done|done| |done..].
    cbn. by destruct (dispose _ _ _ _).
  - eexists. split_and!; [done..| |done|done]. reflexivity.
Qed.

(** Removing a victim: [p] is the policy after it chose the victim, which
    it may already have taken off its lists. *)
Lemma removeLocked_victim_wf c g s m D k a r p :
  shard_wf c s m D → m !! k = Some a → tracks (OnRemove p (a, k)) (erefs m ∖ {[(a, k)]}) →
  shard_wf c (removeLocked c g (sh_set_policy s p) a r).2 (delete k m) (D ∖ {[a]}) ∧
  (∀ b, b ≠ a → sh_heap (removeLocked c g (sh_set_policy s p) a r).2 !! b = sh_heap s !! b).
Proof.
  intros Hwf Hk Hpol. destruct (wf_entry _ _ _ _ Hwf _ _ Hk) as (e & He & Hkey & _).
  destruct (removeLocked_shape c g (sh_set_policy s p) a r e He) as (s0 & cbs & HF & Hp & -> & _).
  rewrite Hkey in HF, Hp. assert (forgot s s0 k a) as HF' by by destruct HF.
  cbn in Hp. rewrite -Hp in Hpol.
  destruct (forgot_dispose_wf _ _ _ _ _ _ _ _ Hwf HF' Hk He Hpol) as [Hw Hs].
  split; [|exact Hs]. eapply wf_ext; [..|exact Hw]; done.
Qed.

Lemma removeLocked_wf c g s m D k a r :
  shard_wf c s m D → m !! k = Some a →
  shard_wf c (removeLocked c g s a r).2 (delete k m) (D ∖ {[a]}) ∧
  (∀ b, b ≠ a → sh_heap (removeLocked c g s a r).2 !! b = sh_heap s !! b).
Proof.
  intros Hwf Hk. assert (sh_set_policy s (sh_policy s) = s) as Es by by destruct s.
  pose proof (removeLocked_victim_wf c g s m D k a r (sh_policy s) Hwf Hk) as Hr.
  rewrite Es in Hr. apply Hr, tracks_remove; [apply Hwf|]. by apply elem_of_erefs.
Qed.
End wf.
