(* ===== verification/ShardOps.v ===== *)
(** * ShardOps: what the locked routines do to a shard

    [ok_step c X g s m g' s' m'] collects what every locked routine
    guarantees.  The shard stays well-formed; the entry and byte counters move
    with the table; the tag index still covers every live entry; and the only
    visible change is that entries may be gone and, when [X] is [(k, e)],
    that [k] now shows [e].  Routines compose with [ok_trans]. *)

From S2P Require Import Prelude Policy Storage Ttl Entry Tags Flights Shard ShardInv.

#[local] Open Scope Z_scope.

Section weights.
Context {K V : Type} `{Countable K}.
Implicit Types (h : gmap loc (entry K V)) (m : gmap K loc).

Definition weight_at h (a : loc) : Z := match h !! a with Some e => e_weight e | None => 0 end.

(** Total weight of a table. *)
Definition mweight h m : Z := map_fold (λ _ a w, weight_at h a + w) 0 m.

Lemma mweight_empty h : mweight h ∅ = 0.
Proof. apply map_fold_empty. Qed.

Lemma mweight_insert h m k a :
  m !! k = None → mweight h (<[k := a]> m) = weight_at h a + mweight h m.
Proof. intros. unfold mweight. rewrite map_fold_insert_L //. intros. lia. Qed.

Lemma mweight_delete h m k a :
  m !! k = Some a → mweight h (delete k m) = mweight h m - weight_at h a.
Proof.
  intros Hk. rewrite -{2}(insert_delete_id m k a) // mweight_insert; [lia|].
  apply lookup_delete_eq.
Qed.

Lemma mweight_ext h h' m :
  (∀ k a, m !! k = Some a → weight_at h' a = weight_at h a) → mweight h' m = mweight h m.
Proof.
  induction m as [|k a m Hk IH] using map_ind; intros Hs; [by rewrite !mweight_empty|].
  rewrite !mweight_insert // (Hs k); [|by rewrite lookup_insert_eq]. f_equal. apply IH.
  intros k' b Hb. apply (Hs k'). rewrite lookup_insert_ne //. congruence.
Qed.

(** Rewriting the entry of one key. *)
Lemma mweight_update h m k a e :
  (∀ k', m !! k' = Some a → k' = k) → m !! k = Some a →
  mweight (<[a := e]> h) m = mweight h m - weight_at h a + e_weight e.
Proof.
  intros Hinj Hk. rewrite -(insert_delete_id m k a) // !mweight_insert; [|apply lookup_delete_eq..].
  rewrite (mweight_ext h); [unfold weight_at at 1; rewrite lookup_insert_eq; lia|].
  intros k' b [Hne Hb]%lookup_delete_Some. unfold weight_at. rewrite lookup_insert_ne //.
  intros <-. by apply Hne, symmetry, Hinj.
Qed.
End weights.

Section ops.
Context {K V P St T A : Type} `{Countable K, Inhabited K, Inhabited V}.
Context `{EvictionPolicy K P, ShardStore K St, TtlBackend T, AdmissionPolicy K A}.
Context `{!PolicyLaws K P, !StoreLaws K St, !TtlLaws T}.
Context {E : gset loc}.

Local Abbreviation shard_wf := (shard_wf (E := E)).
Local Abbreviation entry := (entry K V).
Local Abbreviation config := (config K V).
Local Abbreviation globals := (globals K V A).
Local Abbreviation shard := (shard K V P St T).
Implicit Types (c : config) (g : globals) (s : shard) (e : entry) (m : gmap K loc)
  (h : gmap loc entry) (a : loc) (k : K) (D : gset loc) (X : option (K * entry)).

(** The entry of a key. *)
Definition sh_lookup s k : option entry := st_get (sh_storage s) k ≫= (sh_heap s !!.).

(** The tag index covers the live entries of the shard. *)
Definition tags_ok g s : Prop :=
  ∀ k e t, sh_lookup s k = Some e → t ∈ e_tags e → tagged (g_tags g) t k.

Definition same_fixed g g' : Prop :=
  g_maxEntries g' = g_maxEntries g ∧ g_maxBytes g' = g_maxBytes g ∧
  g_closed g' = g_closed g ∧ g_sealed g' = g_sealed g ∧ g_shedNext g' = g_shedNext g.

(** What a reader of the shard may notice. *)
Definition effect X s s' : Prop :=
  ∀ k e, sh_lookup s' k = Some e →
    match X with
    | Some (k0, e0) => if decide (k = k0) then e = e0 else sh_lookup s k = Some e
    | None => sh_lookup s k = Some e
    end.

Definition writes X k : Prop := fst <$> X = Some k.

Record ok_step c X g s m g' s' m' : Prop := OkStep {
  os_wf : ∃ D, shard_wf c s' m' D;
  os_dom : ∀ k, is_Some (m' !! k) → is_Some (m !! k) ∨ writes X k;
  os_effect : effect X s s';
  os_entries : g_entries g' - Z.of_nat (size m') = g_entries g - Z.of_nat (size m);
  os_bytes : g_bytes g' - mweight (sh_heap s') m' = g_bytes g - mweight (sh_heap s) m;
  os_fixed : same_fixed g g';
  os_tags : tags_ok g s → tags_ok g' s';
  os_others : ∀ k t, m !! k = None → ¬ writes X k →
    tagged (g_tags g) t k → tagged (g_tags g') t k
}.

Lemma wf_lookup c s m D k : shard_wf c s m D → sh_lookup s k = m !! k ≫= (sh_heap s !!.).
Proof. intros Hwf. unfold sh_lookup. by rewrite (wf_get _ _ _ _ _ Hwf). Qed.

Lemma ok_refl c g s m D : shard_wf c s m D → ok_step c None g s m g s m.
Proof. intros Hwf. constructor; [by exists D|auto|by intros ??|done..]. Qed.

(** A step that writes nothing after one that writes [X], or before. *)
Lemma ok_trans c X Y g1 s1 m1 g2 s2 m2 g3 s3 m3 :
  ok_step c X g1 s1 m1 g2 s2 m2 → ok_step c Y g2 s2 m2 g3 s3 m3 →
  (X = None ∨ Y = None) →
  ok_step c (match X with None => Y | _ => X end) g1 s1 m1 g3 s3 m3.
Proof.
  intros [HA1 HA2 HA3 HA4 HA5 HA6 HA7 HA8] [HB1 HB2 HB3 HB4 HB5 HB6 HB7 HB8] HXY.
  assert (∀ k, ¬ writes (match X with None => Y | _ => X end) k → ¬ writes X k ∧ ¬ writes Y k) as HW.
  { unfold writes. intros k. destruct HXY as [-> | ->]; [|destruct X]; cbn; naive_solver. }
  constructor; [done| | |lia|lia| |by auto|].
  - intros k Hk. destruct (HB2 _ Hk) as [Hk'|]; [destruct (HA2 _ Hk')|]; [by left|right..].
    + by destruct X.
    + destruct HXY as [-> | ->]; [done|]. by destruct X.
  - intros k e He. specialize (HB3 _ _ He). destruct HXY as [-> | ->].
    + destruct Y as [[k0 e0]|]; [case_decide; [done|]|]; by apply HA3.
    + specialize (HA3 _ _ HB3). by destruct X.
  - unfold same_fixed in *. naive_solver congruence.
  - intros k t Hk [HX HY]%HW Ht. apply HB8; [|done|by apply HA8].
    apply eq_None_not_Some. intros Hk'. destruct (HA2 _ Hk') as [Hk2|]; [|done].
    rewrite Hk in Hk2. by destruct Hk2.
Qed.

(** Steps that change neither the table nor the entries. *)
Lemma ok_frame c X g s m g' s' m' g2 s2 :
  ok_step c X g s m g' s' m' →
  sh_storage s2 = sh_storage s' → sh_policy s2 = sh_policy s' → sh_ttl s2 = sh_ttl s' →
  sh_heap s2 = sh_heap s' → sh_pool s2 = sh_pool s' → sh_fresh s2 = sh_fresh s' →
  sh_read s2 = sh_read s' →
  g_entries g2 = g_entries g' → g_bytes g2 = g_bytes g' → same_fixed g' g2 →
  g_tags g2 = g_tags g' → ok_step c X g s m g2 s2 m'.
Proof.
  intros [[D H1'] H2' H3' H4' H5' H6' H7' H8'] E1 E2 E3 E4 E5 E6 E7 E8 E9 E10 E11.
  assert (∀ k, sh_lookup s2 k = sh_lookup s' k) as HL by (intros; by rewrite /sh_lookup E1 E4).
  constructor; try done.
  - exists D. by eapply wf_ext.
  - intros k e. rewrite HL. apply H3'.
  - by rewrite E8.
  - by rewrite E9 E4.
  - unfold same_fixed in *. naive_solver congruence.
  - intros Ht k e t. rewrite HL E11. by apply H7'.
  - intros k t. rewrite E11. apply H8'.
Qed.

(** ** Removal *)

Lemma enqueueUntag_spec g k ts :
  let g' := enqueueUntag g k ts in
  g_entries g' = g_entries g ∧ g_bytes g' = g_bytes g ∧ same_fixed g g' ∧
  g_counters g' = g_counters g ∧
  (∀ k' t, k' ≠ k → tagged (g_tags g) t k' → tagged (g_tags g') t k').
Proof.
  unfold enqueueUntag, same_fixed. destruct ts as [|t0 ts]; [done|].
  case_bool_decide; cbn; [done|]. split_and!; try done. intros k' t Hk Ht.
  apply tagged_untag. split; [|done]. intros [_ ->]. done.
Qed.

Lemma removeLocked_globals c g s a r e :
  sh_heap s !! a = Some e →
  let g' := (removeLocked c g s a r).1 in
  g_entries g' = g_entries g - 1 ∧ g_bytes g' = g_bytes g - e_weight e ∧ same_fixed g g' ∧
  (∀ k' t, k' ≠ e_key e → tagged (g_tags g) t k' → tagged (g_tags g') t k').
Proof.
  intros He. unfold removeLocked. rewrite He. cbv zeta.
  destruct (enqueueUntag_spec g (e_key e) (e_tags e)) as (E1 & E2 & E3 & _ & E5).
  unfold stat. destruct (cf_statsEnabled c); case_match; cbn;
    (split_and!; [lia|lia|by unfold same_fixed in *|exact E5]).
Qed.

Lemma lookup_after_delete c s m D s' D' k a k' :
  shard_wf c s m D → shard_wf c s' (delete k m) D' → m !! k = Some a →
  (∀ b, b ≠ a → sh_heap s' !! b = sh_heap s !! b) →
  sh_lookup s' k' = if decide (k' = k) then None else sh_lookup s k'.
Proof.
  intros Hwf Hwf' Hk Hs. rewrite (wf_lookup _ _ _ _ _ Hwf') (wf_lookup _ _ _ _ _ Hwf).
  case_decide as Hd; [by rewrite Hd lookup_delete_eq|]. rewrite lookup_delete_ne //.
  destruct (m !! k') as [b|] eqn:Hb; [|done]. cbn. apply Hs. intros ->.
  apply Hd. by eapply (wf_inj c s m D).
Qed.

Lemma remove_ok_gen c g s m D k a r p :
  shard_wf c s m D → m !! k = Some a → tracks (OnRemove p (a, k)) (erefs m ∖ {[(a, k)]}) →
  let '(g', s') := removeLocked c g (sh_set_policy s p) a r in
  ok_step c None g s m g' s' (delete k m).
Proof.
  intros Hwf Hk Hpol. destruct (wf_entry _ _ _ _ Hwf _ _ Hk) as (e & He & Hkey & _).
  pose proof (removeLocked_victim_wf c g s m D k a r p Hwf Hk Hpol) as [Hw Hs].
  pose proof (removeLocked_globals c g (sh_set_policy s p) a r e He) as (G1 & G2 & G3 & G4).
  rewrite Hkey in G4.
  destruct (removeLocked c g _ a r) as [g' s']. cbn in *.
  pose proof (λ k', lookup_after_delete _ _ _ _ _ _ _ _ k' Hwf Hw Hk Hs) as HL.
  pose proof (size_delete_S _ _ _ Hk) as Hsz.
  constructor; [eauto| | | | |done| |].
  - intros k' Hk'. left. destruct Hk' as [b [_ ?]%lookup_delete_Some]. eauto.
  - intros k' e'. rewrite HL. by case_decide.
  - lia.
  - rewrite G2 (mweight_ext (sh_heap s)).
    + rewrite (mweight_delete _ _ _ a) //. unfold weight_at. rewrite He. lia.
    + intros k' b Hb. destruct (delete_others _ _ _ _ _ _ _ _ Hwf Hk Hb). unfold weight_at.
      by rewrite Hs.
  - intros Ht k' e' t. rewrite HL. case_decide as Hd; [done|]. intros Hl Hin.
    apply G4; [done|]. by eapply Ht.
  - intros k' t Hk' _. apply G4. congruence.
Qed.

Lemma remove_ok c g s m D k a r :
  shard_wf c s m D → m !! k = Some a →
  let '(g', s') := removeLocked c g s a r in
  ok_step c None g s m g' s' (delete k m).
Proof.
  intros Hwf Hk. assert (sh_set_policy s (sh_policy s) = s) as Es by by destruct s.
  pose proof (remove_ok_gen c g s m D k a r (sh_policy s) Hwf Hk) as Hr.
  rewrite Es in Hr. apply Hr, tracks_remove; [apply Hwf|]. by apply elem_of_erefs.
Qed.

(** ** Eviction *)

(** The victim is a live entry; without one, the cache is within bounds or
    the shard is down to [keep] entries. *)
Lemma pickVictim_ok g c s m D keep :
  shard_wf c s m D → 0 <= keep →
  match pickVictim g s keep with
  | (Some (a, k), s') => m !! k = Some a ∧
      ∃ p, s' = sh_set_policy s p ∧ tracks (OnRemove p (a, k)) (erefs m ∖ {[(a, k)]})
  | (None, s') => (∃ p, s' = sh_set_policy s p ∧ tracks p (erefs m)) ∧
      (keep < Z.of_nat (size m) → overBudget g = false)
  end.
Proof.
  intros Hwf Hkeep. pose proof (wf_policy _ _ _ _ Hwf) as Hpol. unfold pickVictim.
  rewrite (wf_length _ _ _ _ Hwf).
  set (overShard := bool_decide _ && _). cbv zeta.
  assert (evicted tracks (erefs m)
    (if overShard then Victim (sh_policy s) else (None, sh_policy s))) as He1.
  { destruct overShard; [by apply tracks_victim|exact Hpol]. }
  destruct (if overShard then _ else _) as [[[a k]|] p]; cbn in He1.
  - destruct He1 as [Ha Hp]. apply elem_of_erefs in Ha. eauto.
  - case_bool_decide as Hn; cbn; [|split; [eauto|lia]].
    destruct (overBudget g) eqn:Ho; [|split; [eauto|done]].
    pose proof (tracks_shedVictim p _ (bool_decide (0 < keep)) He1) as He2.
    pose proof (shed_progress p _ (bool_decide (0 < keep)) He1) as Hsp.
    rewrite erefs_size in Hsp.
    destruct (shedVictim p (bool_decide (0 < keep))) as [[[a k]|] p']; cbn in He2.
    + destruct He2 as [Ha Hp]. apply elem_of_erefs in Ha. eauto.
    + case_bool_decide; (destruct Hsp as [? ?]; [lia|done]).
Qed.

Lemma ok_count c X g s m g' s' m' i n :
  ok_step c X g s m g' s' m' → ok_step c X g s m (g_count g' i n) s' m'.
Proof. intros Hok. by eapply ok_frame. Qed.

Lemma ok_size c g s m g' s' m' : ok_step c None g s m g' s' m' → (size m' <= size m)%nat.
Proof.
  intros Hok. rewrite -!(size_dom (D := gset K)). apply subseteq_size. intros k.
  rewrite !elem_of_dom. intros Hk. by destruct (os_dom _ _ _ _ _ _ _ _ Hok _ Hk).
Qed.

(** The eviction loop: a removal per turn; with fuel for every entry it ends
    by its own test, and then the cache is within its bounds unless the
    shard is down to [keep] entries. *)
Lemma evict_loop_ok c r keep fuel g s m D count :
  shard_wf c s m D → 0 <= keep →
  let '(g', s', n) := evict_loop fuel c g s r keep count in
  ∃ m', ok_step c None g s m g' s' m' ∧
    n = count + (Z.of_nat (size m) - Z.of_nat (size m')) ∧
    ((size m < fuel)%nat → keep < Z.of_nat (size m') → overBudget g' = false).
Proof.
  intros Hwf Hkeep. revert g s m D count Hwf.
  induction fuel as [|fuel IH]; intros g s m D count Hwf; cbn.
  { exists m. split_and!; [by eapply ok_refl|lia|lia]. }
  pose proof (pickVictim_ok g c s m D keep Hwf Hkeep) as Hv.
  destruct (pickVictim g s keep) as [[[a k]|] s1].
  - destruct Hv as (Hk & p & -> & Hpol). cbn.
    pose proof (remove_ok_gen c g s m D k a r p Hwf Hk Hpol) as Hrm.
    destruct (removeLocked c g _ a r) as [g2 s2].
    pose proof (ok_count _ _ _ _ _ _ _ _ evictions 1 Hrm) as Hrm'.
    destruct (os_wf _ _ _ _ _ _ _ _ Hrm) as [D2 Hw2].
    specialize (IH (g_count g2 evictions 1) s2 (delete k m) D2 (count + 1) Hw2).
    destruct (evict_loop fuel c _ s2 r keep (count + 1)) as [[g3 s3] n].
    destruct IH as (m' & Hok & Hn & Hdone). exists m'.
    pose proof (size_delete_S _ _ _ Hk) as Hsz.
    split_and!; [|lia|intros; apply Hdone; lia].
    exact (ok_trans _ _ _ _ _ _ _ _ _ _ _ _ Hrm' Hok (or_introl eq_refl)).
  - destruct Hv as [(p & -> & Hpol) Hdone]. exists m. split_and!; [|lia|auto].
    pose proof (set_policy_wf _ _ _ _ _ Hwf Hpol) as Hw'.
    constructor; try done; eauto. by intros ??.
Qed.

Lemma evictOverBudget_ok c r keep g s m D :
  shard_wf c s m D → 0 <= keep →
  let '(g', s', n) := evictOverBudgetLocked c g s r keep in
  ∃ m', ok_step c None g s m g' s' m' ∧
    n = Z.of_nat (size m) - Z.of_nat (size m') ∧
    (keep < Z.of_nat (size m') → overBudget g' = false).
Proof.
  intros Hwf Hkeep. unfold evictOverBudgetLocked.
  pose proof (evict_loop_ok c r keep (S (Z.to_nat (st_length (sh_storage s)))) g s m D 0 Hwf Hkeep)
    as Hl. destruct (evict_loop _ _ _ _ _ _ _) as [[g' s'] n].
  destruct Hl as (m' & Hok & Hn & Hd). exists m'. split_and!; [done|lia|].
  apply Hd. rewrite (wf_length _ _ _ _ Hwf). lia.
Qed.

(** ** Updates in place *)

Lemma lookup_write s k a e' :
  st_get (sh_storage s) k = Some a → sh_lookup (sh_write s a e') k = Some e'.
Proof. intros Hk. unfold sh_lookup. cbn. rewrite Hk. cbn. by rewrite lookup_insert_eq. Qed.

Lemma retag_spec g k old new :
  let g' := retagLocked g k old new in
  g_entries g' = g_entries g ∧ g_bytes g' = g_bytes g ∧ same_fixed g g' ∧
  (∀ k' t, k' ≠ k → tagged (g_tags g) t k' → tagged (g_tags g') t k') ∧
  (∀ t, t ∈ new → tagged (g_tags g') t k).
Proof.
  unfold retagLocked, same_fixed. cbn. split_and!; try done.
  - intros k' t Hne Ht. destruct new; [|apply tagged_tag; right];
      (destruct old; [done|apply tagged_untag; split; [|done]; by intros [_ ->]]).
  - intros t Ht. destruct new; [set_solver|]. apply tagged_tag. by left.
Qed.

(** A routine that rewrites the entry of [k] to [e']: [s'] is the shard after
    the write, the repositioning in the TTL backend and the policy call. *)
Lemma update_ok c g s m D k a e e' g' s' D' :
  shard_wf c s m D → m !! k = Some a → sh_heap s !! a = Some e →
  shard_wf c s' m D' → sh_storage s' = sh_storage s → sh_heap s' = <[a := e']> (sh_heap s) →
  g_entries g' = g_entries g → g_bytes g' = g_bytes g - e_weight e + e_weight e' →
  same_fixed g g' →
  (∀ k' t, k' ≠ k → tagged (g_tags g) t k' → tagged (g_tags g') t k') →
  (tags_ok g s → ∀ t, t ∈ e_tags e' → tagged (g_tags g') t k) →
  ok_step c (Some (k, e')) g s m g' s' m.
Proof.
  intros Hwf Hk He Hwf' Est Ehp G1 G2 G3 G4 G5.
  assert (∀ k', sh_lookup s' k' = if decide (k' = k) then Some e' else sh_lookup s k') as HL.
  { intros k'. rewrite (wf_lookup _ _ _ _ _ Hwf') (wf_lookup _ _ _ _ _ Hwf) Ehp.
    case_decide as Hd; [rewrite Hd Hk /= lookup_insert_eq //|].
    destruct (m !! k') as [b|] eqn:Hb; [|done]. cbn. rewrite lookup_insert_ne //.
    intros <-. apply Hd. by eapply (wf_inj c s m D). }
  constructor; [by exists D'|by left| |lia| |done| |].
  - intros k' e0. rewrite HL. case_decide; [by intros [= ->]|done].
  - rewrite G2 Ehp (mweight_update _ _ k) //.
    + unfold weight_at. rewrite He. lia.
    + intros k' Hk'. by eapply (wf_inj c s m D).
  - intros Ht k' e0 t. rewrite HL. case_decide as Hd.
    + intros [= <-] Hin. subst. by apply G5.
    + intros Hl Hin. apply G4; [done|]. by eapply Ht.
  - intros k' t Hk' Hw Ht. apply G4; [|done]. congruence.
Qed.

(** ** Insert or update *)

Lemma insert_ok c g s m D k e' g' :
  shard_wf c s m D → m !! k = None → entry_ok k e' →
  g_entries g' = g_entries g + 1 → g_bytes g' = g_bytes g + e_weight e' → same_fixed g g' →
  (∀ k' t, k' ≠ k → tagged (g_tags g) t k' → tagged (g_tags g') t k') →
  (∀ t, t ∈ e_tags e' → tagged (g_tags g') t k) →
  let '(a, s1) := pool_get c s in
  ok_step c (Some (k, e')) g s m g' (register (sh_write s1 a e') k a) (<[k := a]> m).
Proof.
  intros Hwf Hk Hok G1 G2 G3 G4 G5. pose proof (pool_get_wf c s m D Hwf) as Hp.
  destruct (pool_get c s) as [a s1]. destruct Hp as (Hw1 & Hbl & Ha & Hpl & Hrm & Hs1).
  destruct (register_wf c s1 m D k a e' Hw1 Hk Ha Hpl) as [D' Hw2]; [by rewrite Hbl|done..|].
  set (s2 := register (sh_write s1 a e') k a) in *.
  assert (∀ b, b ≠ a → sh_heap s2 !! b = sh_heap s !! b) as Hs2.
  { intros b Hb. rewrite /s2 register_heap // Hs1 //. }
  assert (sh_heap s2 !! a = Some e') as Ha2 by apply register_heap_eq.
  assert (∀ k' b, m !! k' = Some b → b ≠ a) as Hne.
  { intros k' b Hb ->. apply Ha, elem_of_img. eauto. }
  assert (∀ k', sh_lookup s2 k' = if decide (k' = k) then Some e' else sh_lookup s k') as HL.
  { intros k'. rewrite (wf_lookup _ _ _ _ _ Hw2) (wf_lookup _ _ _ _ _ Hwf).
    case_decide as Hd; [by rewrite Hd lookup_insert_eq|]. rewrite lookup_insert_ne //.
    destruct (m !! k') as [b|] eqn:Hb; [|done]. cbn. apply Hs2. by eapply Hne. }
  constructor; [by exists D'| | | | |done| |].
  - intros k' Hk'. destruct (decide (k' = k)) as [->|Hd]; [by right|left].
    by rewrite lookup_insert_ne // in Hk'.
  - intros k' e0. rewrite HL. case_decide; [by intros [= ->]|done].
  - rewrite map_size_insert_None // G1. lia.
  - rewrite mweight_insert // G2 (mweight_ext (sh_heap s)).
    + unfold weight_at. rewrite Ha2. lia.
    + intros k' b Hb. unfold weight_at. rewrite Hs2 //. by eapply Hne.
  - intros Ht k' e0 t. rewrite HL. case_decide as Hd.
    + intros [= <-] Hin. subst. by apply G5.
    + intros Hl Hin. apply G4; [done|]. by eapply Ht.
  - intros k' t Hk' Hw Ht. apply G4; [|done]. intros ->. by apply Hw.
Qed.

(** What a successful write leaves under the key. *)
Record written k (v : V) (w x : Z) (sliding : bool) (ts : list string) e : Prop := Written {
  wr_key : e_key e = k;
  wr_value : e_value e = Some v;
  wr_weight : e_weight e = w;
  wr_expireAt : e_expireAt e = x;
  wr_negative : e_has e flagNegative = false;
  wr_sliding : e_has e flagSliding = sliding;
  wr_tags : e_tags e = ts;
  wr_hits : e_hits e = 0
}.

Lemma entry_update_written e v w x now sliding raw ts :
  written (e_key e) v w x sliding ts (entry_update e v w x now sliding raw ts).
Proof.
  unfold entry_update. constructor; try (by destruct sliding); unfold e_has;
    rewrite ?has_negative ?has_sliding; destruct sliding; cbn -[Z.testbit].
  - by rewrite (flags_set_bit _ _ 0) // (flags_clear_bit _ _ 1).
  - by rewrite (flags_clear_bit _ _ 0) // (flags_clear_bit _ _ 1).
  - by rewrite (flags_set_bit _ _ 0).
  - by rewrite (flags_clear_bit _ _ 0).
Qed.

Lemma entry_insert_written k v w x now sliding raw ts :
  written k v w x sliding ts (entry_insert entry_blank k v w x now sliding raw ts).
Proof. unfold entry_insert. constructor; by destruct sliding, ts. Qed.

Lemma flags_clear_both v :
  flags_clear v (Z.lor flagSliding flagNegative) = flags_clear (flags_clear v flagNegative) flagSliding.
Proof. unfold flags_clear. by rewrite Z.ldiff_ldiff_l (Z.lor_comm flagNegative). Qed.

Lemma supersede_ok c s m D fl nf : shard_wf c s m D → shard_wf c (sh_set_flights s fl nf) m D.
Proof. by apply wf_ext. Qed.

Lemma collision_frame c g s k :
  let '(g', s') := recordHashCollisionLocked c g s k in
  g_entries g' = g_entries g ∧ g_bytes g' = g_bytes g ∧ same_fixed g g' ∧
  g_tags g' = g_tags g ∧ ∃ ix, s' = sh_set_hashIndex s ix.
Proof.
  unfold recordHashCollisionLocked, stat, same_fixed.
  destruct (sh_hashIndex s) as [ix|] eqn:Eix; [repeat case_match; cbn; eauto 10|].
  split_and!; try done. exists (sh_hashIndex s). by destruct s.
Qed.

Lemma startJanitor_frame c g s : startJanitorLocked c g s = sh_set_janitor s (sh_janitor (startJanitorLocked c g s)).
Proof. unfold startJanitorLocked. case_match; by destruct s. Qed.

Lemma maybe_janitor_frame c g s (b : bool) :
  ∃ j, (if b then startJanitorLocked c g s else s) = sh_set_janitor s j.
Proof.
  destruct b; [eexists; apply startJanitor_frame|]. exists (sh_janitor s). by destruct s.
Qed.

(** There is room for one more entry of weight [w]. *)
Definition fits g s m (w : Z) : Prop :=
  (sh_budget s <= 0 ∨ Z.of_nat (size m) < sh_budget s) ∧
  (g_maxEntries g <= 0 ∨ g_entries g < g_maxEntries g) ∧
  (g_maxBytes g <= 0 ∨ g_bytes g + w <= g_maxBytes g).

(** Within its bounds a shard evicts nothing. *)
Lemma evict_noop c g s r keep :
  sh_budget s <= 0 ∨ st_length (sh_storage s) <= sh_budget s → overBudget g = false →
  evictOverBudgetLocked c g s r keep = (g, s, 0).
Proof.
  intros Hb Ho. unfold evictOverBudgetLocked. cbn [evict_loop]. unfold pickVictim.
  assert (bool_decide (0 < sh_budget s) && bool_decide (sh_budget s < st_length (sh_storage s)) = false) as ->.
  { repeat case_bool_decide; try done; lia. }
  rewrite Ho andb_false_r. by destruct s.
Qed.

Lemma pool_get_budget c s a s1 : pool_get c s = (a, s1) → sh_budget s1 = sh_budget s.
Proof. unfold pool_get. intros Hp. repeat case_match; by simplify_eq/=. Qed.

(** The part of an insert after the fields are written. *)
Lemma insert_evict_ok c g s m D k e' g' :
  shard_wf c s m D → m !! k = None → entry_ok k e' →
  g_entries g' = g_entries g + 1 → g_bytes g' = g_bytes g + e_weight e' → same_fixed g g' →
  (∀ k' t, k' ≠ k → tagged (g_tags g) t k' → tagged (g_tags g') t k') →
  (∀ t, t ∈ e_tags e' → tagged (g_tags g') t k) →
  ∀ a s1 j, pool_get c s = (a, s1) →
  let '(g2, s2) := evictWhileOverBudgetLocked c g'
                     (sh_set_janitor (register (sh_write s1 a e') k a) j) in
  ∃ m', ok_step c (Some (k, e')) g s m g2 s2 m' ∧ 
    (fits g s m (e_weight e') → size m' = S (size m) ∧ g_bytes g2 = g_bytes g').
Proof.
  intros Hwf Hk Hok G1 G2 G3 G4 G5 a s1 j Hpg.
  pose proof (insert_ok c g s m D k e' g' Hwf Hk Hok G1 G2 G3 G4 G5) as Hins. rewrite Hpg in Hins.
  set (s2 := register _ _ _) in *.
  assert (ok_step c (Some (k, e')) g s m g' (sh_set_janitor s2 j) (<[k:=a]> m)) as Hins'
    by by eapply ok_frame.
  destruct (os_wf _ _ _ _ _ _ _ _ Hins') as [D2 Hw2].
  unfold evictWhileOverBudgetLocked.
  assert (size (<[k:=a]> m) = S (size m)) as Hsz by by apply map_size_insert_None.
  assert (fits g s m (e_weight e') →
    evictOverBudgetLocked c g' (sh_set_janitor s2 j) EvictReasonCapacity 1 = (g', sh_set_janitor s2 j, 0)) as Hnoop.
  { intros (F1 & F2 & F3). destruct G3 as (M1 & M2 & _). rewrite evict_noop //.
    - rewrite (wf_length _ _ _ _ Hw2) Hsz. rewrite -(pool_get_budget _ _ _ _ Hpg) in F1.
      replace (sh_budget _) with (sh_budget s1); [lia|].
      subst s2. unfold register, markAmended. cbn. by repeat case_match.
    - unfold overBudget. rewrite M1 M2. repeat case_bool_decide; cbn; try done; lia. }
  pose proof (evictOverBudget_ok c EvictReasonCapacity 1 g' _ _ _ Hw2) as Hev.
  destruct (evictOverBudgetLocked _ _ _ _ _) as [[g3 s3] n].
  destruct Hev as (m' & Hev & Hn & _); [lia|]. exists m'.
  split; [exact (ok_trans _ _ _ _ _ _ _ _ _ _ _ _ Hins' Hev (or_intror eq_refl))|].
  intros Hfit. injection (Hnoop Hfit) as -> _ ->. split; [lia|done].
Qed.

(** A write of [v] under [k] that went through. *)
Definition put_some c g s m k (v : V) (w x : Z) (sliding : bool) (ts : list string) g' s' : Prop :=
  ∃ e m', ok_step c (Some (k, e)) g s m g' s' m' ∧ written k v w x sliding ts e ∧
    (fits g s m w → size m' = size (<[k := 1%positive]> m) ∧ g_bytes g' <= g_bytes g + w).

Lemma put_some_frame c g s m k v w x sl ts g' s' g2 s2 :
  put_some c g s m k v w x sl ts g' s' →
  sh_storage s2 = sh_storage s' → sh_policy s2 = sh_policy s' → sh_ttl s2 = sh_ttl s' →
  sh_heap s2 = sh_heap s' → sh_pool s2 = sh_pool s' → sh_fresh s2 = sh_fresh s' →
  sh_read s2 = sh_read s' →
  g_entries g2 = g_entries g' → g_bytes g2 = g_bytes g' → same_fixed g' g2 →
  g_tags g2 = g_tags g' → put_some c g s m k v w x sl ts g2 s2.
Proof.
  intros (e & m' & Hok & Hw & Hf) *. exists e, m'. split; [by eapply ok_frame|]. split; [done|].
  intros Hfit. destruct (Hf Hfit). split; [done|lia].
Qed.

(** The result of a write of [v] under [k]: the new entry, or nothing when
    the cache is sealed or the admission policy turned the key down. *)
Definition put_ok c g s m k (v : V) (w x : Z) (sliding : bool) (ts : list string) g' s' : Prop :=
  ∃ X m', ok_step c X g s m g' s' m' ∧
    match X with
    | Some (k', e) => k' = k ∧ written k v w x sliding ts e ∧ g_sealed g = false ∧
                     (fits g s m w → size m' = size (<[k := 1%positive]> m) ∧ g_bytes g' <= g_bytes g + w)
    | None => g_sealed g = true ∨ (m !! k = None ∧ Admit (g_admission g) k = false)
    end.

Lemma put_some_ok c g s m k v w x sl ts g' s' :
  put_some c g s m k v w x sl ts g' s' → g_sealed g = false → put_ok c g s m k v w x sl ts g' s'.
Proof. intros (e & m' & Hok & Hw & Hf) Hs. by exists (Some (k, e)), m'. Qed.

(** The update branch shared by both upserts. *)
Lemma put_update c g g1 s s1 m D k a e e' v w x sl ts j :
  shard_wf c s m D → m !! k = Some a → sh_heap s !! a = Some e →
  (∃ fl nf, s1 = sh_set_flights s fl nf) → written k v w x sl ts e' → 1 <= w →
  e_invalidated e' = e_invalidated e →
  g_entries g1 = g_entries g → g_bytes g1 = g_bytes g - e_weight e + w → same_fixed g g1 →
  g_tags g1 = g_tags g →
  put_some c g s m k v w x sl ts (stat c (retagLocked g1 k (e_tags e) ts) updates)
    (sh_set_janitor (sh_set_policy (expiryFix (sh_write s1 a e') a)
       (OnUpdate (sh_policy (expiryFix (sh_write s1 a e') a)) (a, k))) j).
Proof.
  intros Hwf Hk He (fl & nf & ->) Hwr Hw Hinv G1 G2 G3 G4.
  pose proof Hwr as [E1 E2 E3 E4 E5 E6 E7 E8].
  destruct (wf_entry _ _ _ _ Hwf _ _ Hk) as (e0 & He0 & Hkey & Hwt0 & _).
  assert (e0 = e) as -> by congruence.
  pose proof (supersede_ok _ _ _ _ fl nf Hwf) as Hw1.
  destruct (write_fix_wf c _ m D k a e e' Hw1 Hk He) as [D' Hfix]; [congruence|done|lia|].
  destruct (retag_spec g1 k (e_tags e) ts) as (R1 & R2 & R3 & R4 & R5). rewrite G4 in R4.
  exists e', m. split; [|split; [done|]].
  2:{ intros _. rewrite map_size_insert_Some; [|by eexists]. split; [done|].
      replace (g_bytes (stat c _ updates)) with (g_bytes (retagLocked g1 k (e_tags e) ts));
        [lia|unfold stat; by destruct (cf_statsEnabled c)]. }
  assert (same_fixed g (retagLocked g1 k (e_tags e) ts)) as Hfx
    by (unfold same_fixed in *; naive_solver congruence).
  assert (ok_step c (Some (k, e')) g s m (retagLocked g1 k (e_tags e) ts)
    (sh_set_policy (expiryFix (sh_write (sh_set_flights s fl nf) a e') a)
       (OnUpdate (sh_policy s) (a, k))) m) as Hok.
  { eapply (update_ok c g s m D k a e e' _ _ D'); try done.
    - apply set_policy_wf; [exact Hfix|]. apply tracks_update; [apply Hwf|]. by apply elem_of_erefs.
    - rewrite R2 G2 E3. lia.
    - intros _ t Ht. apply R5. by rewrite -E7. }
  unfold stat. destruct (cf_statsEnabled c); by eapply ok_frame.
Qed.

(** The insert branch shared by both upserts. *)
Lemma put_insert c g g1 s s1 m D k v w x now sl raw ts :
  shard_wf c s m D → m !! k = None →
  (∃ fl nf ix, s1 = sh_set_hashIndex (sh_set_flights s fl nf) ix) → 1 <= w →
  g_entries g1 = g_entries g → g_bytes g1 = g_bytes g → same_fixed g g1 → g_tags g1 = g_tags g →
  let '(a, s2) := pool_get c s1 in
  sh_heap s2 !! a = Some entry_blank ∧
  ∀ j, let '(g3, s3) := evictWhileOverBudgetLocked c (stat c (g_live (retagLocked g1 k [] ts) 1 w) inserts)
           (sh_set_janitor (register (sh_write s2 a
              (entry_insert entry_blank k v w x now sl raw ts)) k a) j) in
  put_some c g s m k v w x sl ts g3 s3.
Proof.
  intros Hwf Hk (fl & nf & ix & ->) Hw G1 G2 G3 G4.
  set (s1 := sh_set_hashIndex _ _) in *. assert (shard_wf c s1 m D) as Hw1 by by apply (wf_ext c s).
  pose proof (entry_insert_written k v w x now sl raw ts) as Hwr.
  set (e' := entry_insert _ _ _ _ _ _ _ _ _) in *.
  destruct (retag_spec g1 k [] ts) as (R1 & R2 & R3 & R4 & R5). rewrite G4 in R4.
  pose proof (pool_get_wf c s1 m D Hw1) as Hp. destruct (pool_get c s1) as [a s2] eqn:Hpg.
  split; [by apply Hp|]. intros j.
  assert (entry_ok k e') as Hok.
  { split_and!; [apply Hwr|rewrite (wr_weight _ _ _ _ _ _ _ Hwr) //|]. unfold e', entry_insert.
    by destruct sl, ts. }
  set (g2 := stat c _ inserts).
  assert (g_entries g2 = g_entries g + 1 ∧ g_bytes g2 = g_bytes g + w ∧ same_fixed g g2 ∧
    g_tags g2 = g_tags (retagLocked g1 k [] ts)) as (F1 & F2 & F3 & F4).
  { unfold g2, stat, same_fixed in *. destruct (cf_statsEnabled c); cbn in *;
      naive_solver (lia || congruence). }
  pose proof (insert_evict_ok c g s1 m D k e' g2 Hw1 Hk Hok F1) as Hev.
  rewrite (wr_weight _ _ _ _ _ _ _ Hwr) (wr_tags _ _ _ _ _ _ _ Hwr) F4 in Hev.
  specialize (Hev F2 F3 R4 R5 a s2 j Hpg).
  destruct (evictWhileOverBudgetLocked _ _ _) as [g3 s3]. destruct Hev as (m' & Hev & Hfit).
  exists e', m'. split; [|split; [done|]; intros [-> ->]%Hfit; rewrite map_size_insert_None //; lia].
  destruct Hev as [A1 A2 A3 A4 A5 A6 A7 A8]. by constructor.
Qed.

Lemma upsert_ok c g s m D k v w ettl sl raw ts :
  shard_wf c s m D → 1 <= w →
  let now := cf_clock c (g_tick g) in
  let x := if bool_decide (0 < ettl) then i64 (now + ettl) else 0 in
  let '(g', s') := upsertLocked c g s k v w ettl sl raw ts in
  put_ok c g s m k v w x sl ts g' s'.
Proof.
  intros Hwf Hw. cbv zeta. unfold upsertLocked. cbn.
  set (now := cf_clock c (g_tick g)). set (x := if bool_decide (0 < ettl) then _ else _).
  destruct (g_sealed g) eqn:Hsl.
  { exists None, m. split; [|by left]. eapply ok_frame; [by eapply ok_refl|done..]. }
  rewrite (wf_get _ _ _ _ _ Hwf). destruct (m !! k) as [a|] eqn:Hk.
  - destruct (wf_entry _ _ _ _ Hwf _ _ Hk) as (e & He & Hkey & _). rewrite He.
    set (s1 := sh_set_flights s _ _). set (g1 := g_live _ 0 _).
    pose proof (entry_update_written e v w x now sl raw ts) as Hwr. rewrite Hkey in Hwr.
    match goal with |- context [if bool_decide (0 < x) then startJanitorLocked c ?gg ?ss else _] =>
      destruct (maybe_janitor_frame c gg ss (bool_decide (0 < x))) as [j Hj] end.
    assert (put_some c g s m k v w x sl ts (stat c (retagLocked g1 k (e_tags e) ts) updates)
      (sh_set_janitor (sh_set_policy (expiryFix (sh_write s1 a (entry_update e v w x now sl raw ts)) a)
         (OnUpdate (sh_policy s1) (a, k))) j)) as Hput.
    { eapply (put_update c g g1 s s1 m D k a e); try done; [by eexists _, _|by destruct sl| |];
        cbn; lia. }
    cbv zeta. rewrite Hj.
    destruct (cf_events c); (apply put_some_ok; [|done]); [|exact Hput]. by eapply put_some_frame.
  - destruct (Admit (g_admission g) k) eqn:Had; cbn.
    2:{ exists None, m. split; [|by right]. unfold stat.
        destruct (cf_statsEnabled c); (eapply ok_frame; [by eapply ok_refl|done..]). }
    set (s1 := sh_set_flights s _ _). set (g0 := g_set_admission _ _).
    pose proof (collision_frame c g0 s1 k) as Hc.
    destruct (recordHashCollisionLocked c g0 s1 k) as [g1 s2].
    destruct Hc as (C1 & C2 & C3 & C4 & ix & ->).
    pose proof (put_insert c g g1 s (sh_set_hashIndex s1 ix) m D k v w x now sl raw ts Hwf Hk)
      as Hins. destruct (pool_get c _) as [a s3].
    destruct Hins as [Hbl Hins]; [by eexists _, _, _|done..|]. rewrite Hbl.
    match goal with |- context [if bool_decide (0 < x) then startJanitorLocked c ?gg ?ss else _] =>
      destruct (maybe_janitor_frame c gg ss (bool_decide (0 < x))) as [j Hj] end.
    rewrite Hj. specialize (Hins j).
    destruct (evictWhileOverBudgetLocked _ _ _) as [g4 s4].
    destruct (cf_events c); (apply put_some_ok; [|done]); [|exact Hins]. by eapply put_some_frame.
Qed.

(** As [put_ok], for the path that does not ask the admission policy. *)
Lemma upsertAbs_ok c g s m D k v w at_ ts :
  shard_wf c s m D → 1 <= w → g_sealed g = false →
  let '(g', s') := upsertWithAbsoluteExpiryLocked c g s k v w at_ ts in
  put_some c g s m k v w (default 0 at_) false ts g' s'.
Proof.
  intros Hwf Hw Hsl. unfold upsertWithAbsoluteExpiryLocked. cbn -[evictWhileOverBudgetLocked].
  set (now := cf_clock c (g_tick g)).
  change (match at_ with Some t => t | None => 0 end) with (default 0 at_).
  set (x := default 0 at_). rewrite Hsl (wf_get _ _ _ _ _ Hwf).
  destruct (m !! k) as [a|] eqn:Hk.
  - destruct (wf_entry _ _ _ _ Hwf _ _ Hk) as (e & He & Hkey & _). rewrite He.
    set (s1 := sh_set_flights s _ _). set (g1 := g_live _ 0 _).
    set (e' := set_tags (set_sliding _ _ 0) ts).
    assert (written k v w x false ts e') as Hwr.
    { rewrite -Hkey. pose proof (entry_update_written e v w x now false 0 ts) as [].
      unfold e'. constructor; try done; unfold e_has in *; cbn in *; rewrite flags_clear_both; done. }
    match goal with |- context [if bool_decide (0 < x) then startJanitorLocked c ?gg ?ss else _] =>
      destruct (maybe_janitor_frame c gg ss (bool_decide (0 < x))) as [j Hj] end.
    rewrite Hj. eapply (put_update c g g1 s s1 m D k a e); try done; [by eexists _, _|cbn; lia..].
  - pose proof (put_insert c g (clockNow c g).2 s
      (sh_set_flights s (supersedeFlight (sh_flights s) k) (sh_nextFlight s)) m D k v w x now false 0 ts
      Hwf Hk) as Hins. cbn -[evictWhileOverBudgetLocked] in Hins.
    destruct (pool_get c _) as [a s3].
    destruct Hins as [Hbl Hins]; [by exists (supersedeFlight (sh_flights s) k), (sh_nextFlight s), (sh_hashIndex s)|done..|]. rewrite Hbl.
    match goal with |- context [if bool_decide (0 < x) then startJanitorLocked c ?gg ?ss else _] =>
      destruct (maybe_janitor_frame c gg ss (bool_decide (0 < x))) as [j Hj] end.
    rewrite Hj. exact (Hins j).
Qed.

(** ** Negative tombstones *)

Record tombstone k (x : Z) e : Prop := Tombstone {
  tb_key : e_key e = k;
  tb_weight : e_weight e = 1;
  tb_negative : e_has e flagNegative = true;
  tb_sliding : e_has e flagSliding = false;
  tb_expireAt : e_expireAt e = x;
  tb_tags : e_tags e = []
}.

Lemma tombstone_flags v :
  flags_has (Z.lor (Z.ldiff v flagSliding) flagNegative) flagNegative = true ∧
  flags_has (Z.lor (Z.ldiff v flagSliding) flagNegative) flagSliding = false.
Proof.
  change (Z.lor (Z.ldiff v flagSliding) flagNegative)
    with (flags_set (flags_clear v flagSliding) flagNegative).
  rewrite has_negative has_sliding. split; [by rewrite (flags_set_bit _ _ 1)|].
  by rewrite (flags_set_bit _ _ 1) // (flags_clear_bit _ _ 0).
Qed.

(** Over a missing key the tombstone is an ordinary insert. *)
Lemma tombstone_insert_ok c g s m D k :
  shard_wf c s m D → g_sealed g = false → m !! k = None →
  let '(g', s') := insertNegativeTombstoneLocked c g s k in
  ∃ e m', ok_step c (Some (k, e)) g s m g' s' m' ∧
    tombstone k (i64 (cf_clock c (g_tick g) + cf_negativeTTL c)) e.
Proof.
  intros Hwf Hsl Hk. unfold insertNegativeTombstoneLocked.
  rewrite Hsl (wf_get _ _ _ _ _ Hwf) Hk. cbn -[evictWhileOverBudgetLocked].
  set (now := cf_clock c (g_tick g)). set (x := i64 _).
  pose proof (pool_get_wf c s m D Hwf) as Hp. destruct (pool_get c s) as [a s1] eqn:Hpg.
  destruct Hp as (_ & Hbl & _). rewrite Hbl.
  set (e' := set_sliding _ _ _). set (g1 := stat c _ _).
  assert (tombstone k x e') as Ht by by constructor.
  rewrite startJanitor_frame.
  pose proof (insert_evict_ok c g s m D k e' g1 Hwf Hk) as Hev.
  assert (g_entries g1 = g_entries g + 1 ∧ g_bytes g1 = g_bytes g + 1 ∧ same_fixed g g1 ∧
    g_tags g1 = g_tags g) as (F1 & F2 & F3 & F4).
  { unfold g1, stat, same_fixed. by destruct (cf_statsEnabled c). }
  match goal with |- context [sh_set_janitor _ ?j] =>
    specialize (Hev (conj eq_refl (conj (Z.le_refl 1) eq_refl)) F1 F2 F3) end.
  rewrite F4 in Hev. match goal with |- context [sh_set_janitor _ ?j] =>
    specialize (Hev (λ _ _ _ Ht, Ht) (λ t Hin, False_ind _ (not_elem_of_nil t Hin)) a s1 j Hpg) end.
  destruct (evictWhileOverBudgetLocked _ _ _) as [g3 s3]. destruct Hev as (m' & Hev & Hfit).
  by exists e', m'.
Qed.

(** Over a live entry it rewrites the entry, but the byte counter is left as
    it was: the state would be right had it been moved by [1 - weight]. *)
Lemma tombstone_update_ok c g s m D k a e0 :
  shard_wf c s m D → g_sealed g = false → m !! k = Some a → sh_heap s !! a = Some e0 →
  let '(g', s') := insertNegativeTombstoneLocked c g s k in
  g_bytes g' = g_bytes g ∧
  ∃ e, ok_step c (Some (k, e)) g s m (g_live g' 0 (1 - e_weight e0)) s' m ∧
    tombstone k (i64 (cf_clock c (g_tick g) + cf_negativeTTL c)) e.
Proof.
  intros Hwf Hsl Hk He. unfold insertNegativeTombstoneLocked.
  rewrite Hsl (wf_get _ _ _ _ _ Hwf) Hk. cbn. rewrite He.
  set (now := cf_clock c (g_tick g)). set (x := i64 _).
  destruct (wf_entry _ _ _ _ Hwf _ _ Hk) as (e1 & He1 & Hkey & _).
  assert (e1 = e0) as -> by congruence.
  set (g0 := g_env _ _ _ _).
  assert (∃ g1 e2, (match e_tags e0 with [] => (g0, e0)
      | _ :: _ => (enqueueUntag g0 k (e_tags e0), set_tags e0 []) end) = (g1, e2) ∧
    e_tags e2 = [] ∧ e_key e2 = k ∧ e_invalidated e2 = e_invalidated e0 ∧
    g_entries g1 = g_entries g ∧ g_bytes g1 = g_bytes g ∧ same_fixed g g1 ∧
    (∀ k' t, k' ≠ k → tagged (g_tags g) t k' → tagged (g_tags g1) t k'))
    as (g1 & e2 & -> & T1 & T2 & T3 & T4 & T5 & T6 & T7).
  { destruct (enqueueUntag_spec g0 k (e_tags e0)) as (Q1 & Q2 & Q3 & _ & Q4).
    destruct (e_tags e0) eqn:Ets; by eexists _, _. }
  set (e' := set_sliding _ _ 0). set (s1 := expiryFix _ _).
  assert (tombstone k x e') as Ht.
  { constructor; try done; apply tombstone_flags. }
  destruct (write_fix_wf c s m D k a e0 e' Hwf Hk He) as [D' Hfix]; [cbn; congruence|done|done|].
  rewrite startJanitor_frame.
  assert (ok_step c (Some (k, e')) g s m (g_live g1 0 (1 - e_weight e0))
    (sh_set_policy s1 (OnUpdate (sh_policy s1) (a, k))) m) as Hok.
  { eapply (update_ok c g s m D k a e0 e' _ _ D'); try done; [| |cbn; lia|].
    - apply set_policy_wf; [exact Hfix|]. apply tracks_update; [apply Hwf|]. by apply elem_of_erefs.
    - cbn. lia.
    - intros _ t. rewrite (tb_tags _ _ _ Ht). set_solver. }
  split; [unfold stat; by destruct (cf_statsEnabled c)|]. exists e'. split; [|done].
  unfold stat. destruct (cf_statsEnabled c); by eapply ok_frame.
Qed.

(** ** Deletes, touches and sweeps *)

Lemma removeKey_ok c g s m D k r :
  shard_wf c s m D →
  let '(g', s', b) := removeKeyLocked c g s k r in
  ok_step c None g s m g' s' (delete k m) ∧ b = bool_decide (is_Some (m !! k)).
Proof.
  intros Hwf. unfold removeKeyLocked.
  set (s1 := sh_set_flights s _ _). assert (shard_wf c s1 m D) as Hw1 by by apply (wf_ext c s).
  rewrite (wf_get _ _ _ _ _ Hw1). destruct (m !! k) as [a|] eqn:Hk.
  - pose proof (remove_ok c g s1 m D k a r Hw1 Hk) as Hrm.
    destruct (removeLocked c g s1 a r) as [g2 s2]. split; [|done].
    assert (ok_step c None g s m g2 s2 (delete k m)) as Hok.
    { destruct Hrm as [A1 A2 A3 A4 A5 A6 A7 A8]. by constructor. }
    case_decide; [|done]. by apply ok_count.
  - split; [|done]. rewrite delete_id //. eapply ok_frame; [by eapply ok_refl|done..].
Qed.

Lemma effectiveTTL_frame c g ttl :
  ∃ rt, (effectiveTTL c g ttl).2 = g_env g (g_tick g) rt (g_fx g).
Proof.
  assert (g = g_env g (g_tick g) (g_rtick g) (g_fx g)) as Hg by by destruct g.
  unfold effectiveTTL, applyJitter. repeat case_match; cbn; eauto.
Qed.

Lemma refreshExpiry_ok c g s m D k a e now ttl :
  shard_wf c s m D → m !! k = Some a → sh_heap s !! a = Some e →
  let '(g', s') := refreshExpiryLocked c g s a now ttl in
  ∃ x, ok_step c (Some (k, set_times e x now)) g s m g' s' m ∧
    (ttl <= 0 → x = 0) ∧ (0 < ttl → x = i64 (now + (effectiveTTL c g ttl).1)).
Proof.
  intros Hwf Hk He. unfold refreshExpiryLocked. rewrite He.
  assert (∃ x rt, (if bool_decide (0 < ttl) then let '(t, g0) := effectiveTTL c g ttl in (i64 (now + t), g0)
      else (0, g)) = (x, g_env g (g_tick g) rt (g_fx g)) ∧
    (ttl <= 0 → x = 0) ∧ (0 < ttl → x = i64 (now + (effectiveTTL c g ttl).1)))
    as (x & rt & -> & Hx).
  { case_bool_decide; [|exists 0, (g_rtick g); by destruct g; split_and!].
    destruct (effectiveTTL_frame c g ttl) as [rt Hrt]. destruct (effectiveTTL c g ttl) as [t g0].
    cbn in Hrt. rewrite Hrt. eexists _, _. split_and!; [done|lia|done]. }
  destruct (wf_entry _ _ _ _ Hwf _ _ Hk) as (e1 & He1 & Hkey & Hwt & Hinv).
  assert (e1 = e) as -> by congruence.
  destruct (write_fix_wf c s m D k a e (set_times e x now) Hwf Hk He) as [D' Hfix]; [done..|].
  match goal with |- context [if bool_decide (0 < x) then startJanitorLocked c ?gg ?ss else _] =>
    destruct (maybe_janitor_frame c gg ss (bool_decide (0 < x))) as [j ->] end.
  exists x. split; [|done].
  eapply (update_ok c g s m D k a e); try done;
    [by eapply wf_ext; last exact Hfix|cbn; lia|].
  intros Ht t Hin. apply (Ht k e); [|exact Hin]. rewrite (wf_lookup _ _ _ _ _ Hwf) Hk. exact He.
Qed.

(** A list of live entries is removed, each once. *)
Lemma removeAll_ok c r l g s m D :
  shard_wf c s m D → NoDup l → (∀ a, a ∈ l → ∃ k, m !! k = Some a) →
  let '(g', s') := removeAll c g s l r in
  ∃ m', ok_step c None g s m g' s' m' ∧ (size m = size m' + length l)%nat ∧
    (∀ k a, m' !! k = Some a ↔ m !! k = Some a ∧ a ∉ l).
Proof.
  revert g s m D. induction l as [|a l IH]; intros g s m D Hwf Hnd Hl; cbn.
  { exists m. split_and!; [by eapply ok_refl|lia|set_solver]. }
  apply NoDup_cons in Hnd as [Ha Hnd]. destruct (Hl a) as [k Hk]; [set_solver|].
  pose proof (remove_ok c g s m D k a r Hwf Hk) as Hrm.
  destruct (removeLocked c g s a r) as [g2 s2].
  pose proof (ok_count _ _ _ _ _ _ _ _ expirations 1 Hrm) as Hrm'.
  destruct (os_wf _ _ _ _ _ _ _ _ Hrm) as [D2 Hw2].
  specialize (IH (g_count g2 expirations 1) s2 (delete k m) D2 Hw2 Hnd).
  assert (∀ k' b, delete k m !! k' = Some b ↔ m !! k' = Some b ∧ b ≠ a) as Hdel.
  { intros k' b. split; [intros Hb; destruct (delete_others _ _ _ _ _ _ _ _ Hwf Hk Hb); done|].
    intros [Hb Hne]. apply lookup_delete_Some. split; [congruence|done]. }
  destruct (removeAll c _ s2 l r) as [g3 s3].
  destruct IH as (m' & Hok & Hsz & Hm').
  { intros b Hb. destruct (Hl b) as [k' Hk']; [set_solver|]. exists k'. apply Hdel. set_solver. }
  exists m'. split_and!.
  - exact (ok_trans _ _ _ _ _ _ _ _ _ _ _ _ Hrm' Hok (or_introl eq_refl)).
  - pose proof (size_delete_S _ _ _ Hk). cbn. lia.
  - intros k' b. rewrite Hm' Hdel. set_solver.
Qed.
End ops.
