(* ===== verification/ShardBulk.v ===== *)
(** * ShardBulk: sweeps, clears and reads of one shard

    The routines that walk a whole shard ([sweepExpiredLocked], the bodies of
    [DeleteExpired], [Clear] and [Reset]) and the read paths, locked and
    lock-free. *)

From S2P Require Import Prelude Policy Storage Ttl Entry Tags Flights Shard ShardInv ShardOps.

#[local] Open Scope Z_scope.

Section bulk.
Context {K V P St T A : Type} `{Countable K, Inhabited K, Inhabited V}.
Context `{EvictionPolicy K P, ShardStore K St, TtlBackend T, AdmissionPolicy K A}.
Context `{!PolicyLaws K P, !StoreLaws K St, !TtlLaws T}.

Local Abbreviation shard_wf := (shard_wf (E := ∅)).
Local Abbreviation ok_step := (ok_step (E := ∅)).
Local Abbreviation entry := (entry K V).
Local Abbreviation config := (config K V).
Local Abbreviation globals := (globals K V A).
Local Abbreviation shard := (shard K V P St T).
Implicit Types (c : config) (g : globals) (s : shard) (e : entry) (m : gmap K loc)
  (h : gmap loc entry) (a : loc) (k : K) (D : gset loc) (l : list loc).

(** ** Sweeps *)

(** Once the exempted entries are gone, nothing is exempted. *)
Lemma wf_exempt (E : gset loc) c s m D :
  ShardInv.shard_wf (E := E) c s m D → (∀ k a, m !! k = Some a → a ∉ E) → shard_wf c s m D.
Proof.
  intros [H1' H2' H3' H4' H5' H6' H7' H8' H9'] HE. constructor; try done.
  intros a Ha _. apply H5'; [done|]. apply elem_of_img in Ha as [k Hk]. by eapply HE.
Qed.

(** A sweep removes entries, all of them past their expiry, each once. *)
Lemma sweep_ok c g s m D now :
  shard_wf c s m D →
  let '(g', s', n) := sweepExpiredLocked c g s now in
  ∃ m', ok_step c None g s m g' s' m' ∧ n = Z.of_nat (size m) - Z.of_nat (size m') ∧
    (∀ k e, sh_lookup s k = Some e → sh_lookup s' k = None → is_i64 (e_expireAt e) → e_expireAt e <= now).
Proof.
  intros Hwf. unfold sweepExpiredLocked.
  pose proof (ttl_rep_sweep _ _ _ _ now (wf_ttl _ _ _ _ Hwf)) as Hsw.
  destruct (ttl_Sweep _ _ now) as [l t]. destruct Hsw as (Hnd & Hl & Htt).
  assert (ShardInv.shard_wf (E := list_to_set l) c (sh_set_ttl s t) m (D ∖ list_to_set l)) as Hw1.
  { destruct Hwf as [H1' H2' H3' H4' H5' H6' H7' H8' H9']. constructor; try done.
    intros a Ha HE Hx. specialize (H5' a Ha). set_solver. }
  pose proof (removeAll_ok c EvictReasonExpired l g _ _ _ Hw1 Hnd) as Hrm.
  destruct (removeAll _ _ _ _ _) as [g' s'].
  destruct Hrm as (m' & Hok & Hsz & Hm').
  { intros a [Ha _]%Hl. by apply (wf_dom _ _ _ _ _ Hwf). }
  destruct Hok as [[D' A1] A2 A3 A4 A5 A6 A7 A8].
  assert (shard_wf c s' m' D') as Hw'.
  { eapply wf_exempt; [exact A1|]. intros k a [_ Ha]%Hm'. set_solver. }
  exists m'. split_and!; [|lia|].
  - constructor; try done. eauto.
  - intros k e. rewrite (wf_lookup _ _ _ _ _ Hwf) (wf_lookup _ _ _ _ _ Hw').
    destruct (m !! k) as [a|] eqn:Hk; [|done]. cbn. intros He Hn.
    destruct (decide (a ∈ l)) as [Ha|Ha].
    + apply Hl in Ha as [_ Ha]. unfold expiries in Ha. by rewrite He in Ha.
    + assert (m' !! k = Some a) as Hk' by by apply Hm'. rewrite Hk' /= in Hn.
      destruct (wf_entry _ _ _ _ Hw' _ _ Hk') as (e' & ? & _). congruence.
Qed.

Lemma NoDup_addrs c s m D : shard_wf c s m D → NoDup (addrs m).
Proof.
  intros Hwf. unfold addrs. apply NoDup_fmap_2_strong; [|apply NoDup_map_to_list].
  intros [k a] [k' a'] Hk Hk' [= <-]. apply elem_of_map_to_list in Hk, Hk'.
  f_equal. by eapply wf_inj.
Qed.

(** [DeleteExpired] removes the entries past their expiry and no others. *)
Lemma deleteExpired_ok c g s m D now :
  shard_wf c s m D →
  let '(g', s', n) := deleteExpiredLocked c g s now in
  ∃ m', ok_step c None g s m g' s' m' ∧ n = Z.of_nat (size m) - Z.of_nat (size m') ∧
    (∀ k e, sh_lookup s k = Some e →
       (sh_lookup s' k = Some e ↔ entry_expired e now = false) ∧
       (sh_lookup s' k = None ↔ entry_expired e now = true)).
Proof.
  intros Hwf. unfold deleteExpiredLocked.
  pose proof (st_rep_each _ _ (wf_storage _ _ _ _ Hwf)) as Hp.
  set (l := filter _ _).
  assert (∀ a, a ∈ l ↔ (∃ k, m !! k = Some a) ∧
    match sh_heap s !! a with Some e => entry_expired e now | None => false end = true) as Hl.
  { intros a. unfold l. rewrite list_elem_of_filter Hp elem_of_addrs. tauto. }
  assert (NoDup l) as Hnd. { apply NoDup_filter. rewrite Hp. by eapply NoDup_addrs. }
  pose proof (removeAll_ok c EvictReasonExpired l g _ _ _ Hwf Hnd) as Hrm.
  destruct (removeAll _ _ _ _ _) as [g' s'].
  destruct Hrm as (m' & Hok & Hsz & Hm'); [intros a [? _]%Hl; done|].
  exists m'. split_and!; [done|lia|]. intros k e.
  destruct (os_wf _ _ _ _ _ _ _ _ Hok) as [D' Hw']. pose proof (os_effect _ _ _ _ _ _ _ _ Hok k) as Hef.
  rewrite (wf_lookup _ _ _ _ _ Hwf) in Hef |- *. rewrite (wf_lookup _ _ _ _ _ Hw') in Hef |- *.
  destruct (m !! k) as [a|] eqn:Hk; [|done]. cbn in Hef |- *. intros He.
  assert (a ∈ l ↔ entry_expired e now = true) as Ha.
  { rewrite Hl He. naive_solver. }
  destruct (m' !! k) as [b|] eqn:Hk'.
  - pose proof Hk' as [Hb Hnl]%Hm'. assert (b = a) as -> by congruence.
    destruct (wf_entry _ _ _ _ Hw' _ _ Hk') as (e' & He' & _). cbn in Hef |- *.
    rewrite He' in Hef |- *. specialize (Hef e' eq_refl).
    destruct (entry_expired e now); naive_solver.
  - cbn. destruct (decide (a ∈ l)) as [Hin|Hin]; [apply Ha in Hin; rewrite Hin; naive_solver|].
    assert (m' !! k = Some a) by by apply Hm'. congruence.
Qed.

(** ** Clearing *)

Definition key_at h a : K := match h !! a with Some e => e_key e | None => inhabitant end.

(** The state in the middle of the loop of [Clear]: [l] is still to visit. *)
Record dropping c l s : Prop := Dropping {
  dr_nodup : NoDup l;
  dr_live : ∀ a, a ∈ l → is_Some (sh_heap s !! a);
  dr_policy : tracks (sh_policy s) (list_to_set ((λ a, (a, key_at (sh_heap s) a)) <$> l));
  dr_pool : ∀ a, a ∈ sh_pool s → sh_heap s !! a = Some entry_blank ∧ a ∉ l;
  dr_pool_nodup : NoDup (sh_pool s);
  dr_fresh : ∀ a, is_Some (sh_heap s !! a) → (a < sh_fresh s)%positive;
  dr_lf : cf_lockFreeRead c = true → sh_pool s = []
}.

Lemma key_at_ne h a b e : a ≠ b → key_at (<[b := e]> h) a = key_at h a.
Proof. intros. unfold key_at. by rewrite lookup_insert_ne. Qed.

Lemma dropEntry_shape c clear g s a e :
  sh_heap s !! a = Some e →
  let '(g', s') := dropEntry c clear (g, s) a in
  g_entries g' = g_entries g - 1 ∧ g_bytes g' = g_bytes g - e_weight e ∧
  same_fixed g g' ∧ g_tags g' = g_tags g ∧
  sh_storage s' = sh_storage s ∧ sh_policy s' = OnRemove (sh_policy s) (a, e_key e) ∧
  sh_fresh s' = sh_fresh s ∧ sh_read s' = sh_read s ∧
  if cf_lockFreeRead c
  then sh_heap s' = <[a := markInvalidated e]> (sh_heap s) ∧ sh_pool s' = sh_pool s ∧
       sh_ttl s' = sh_ttl s
  else sh_heap s' = <[a := entry_blank]> (sh_heap s) ∧ sh_pool s' = a :: sh_pool s ∧
       sh_ttl s' = ttl_unindex (sh_ttl s) a.
Proof.
  intros He. unfold dropEntry, recycleOrInvalidate, pool_put, stat, same_fixed. rewrite He. cbn.
  destruct clear, (cf_statsEnabled c), (cf_lockFreeRead c); cbn; rewrite ?He; done.
Qed.

Lemma dropEntry_dropping c clear g s a l :
  dropping c (a :: l) s → dropping c l (dropEntry c clear (g, s) a).2.
Proof.
  intros [H1' H2' H3' H4' H5' H6' H7']. apply NoDup_cons in H1' as [Ha Hnd].
  destruct (H2' a) as [e He]; [set_solver|].
  pose proof (dropEntry_shape c clear g s a e He) as Hs.
  destruct (dropEntry c clear (g, s) a) as [g' s']. cbn.
  destruct Hs as (_ & _ & _ & _ & _ & E2 & E3 & _ & E5).
  assert (∃ e', sh_heap s' = <[a := e']> (sh_heap s)) as [e' E6]
    by (destruct (cf_lockFreeRead c); destruct E5 as [-> _]; eauto).
  assert (key_at (sh_heap s) a = e_key e) as Hka by by rewrite /key_at He.
  constructor; [done| | | | | |].
  - intros b Hb. rewrite E6 lookup_insert_ne; [apply H2'; set_solver|by intros ->].
  - rewrite E2. cbn in H3'. rewrite Hka in H3'.
    assert ((λ b, (b, key_at (sh_heap s') b)) <$> l = (λ b, (b, key_at (sh_heap s) b)) <$> l) as ->.
    { apply list_fmap_ext. intros i b Hb%list_elem_of_lookup_2. rewrite E6 key_at_ne //. by intros ->. }
    eapply (tracks_remove _ _ (a, e_key e)) in H3'; [|set_solver].
    replace (list_to_set ((λ b, (b, key_at (sh_heap s) b)) <$> l) : gset (eref K))
      with (({[(a, e_key e)]} ∪ list_to_set ((λ b, (b, key_at (sh_heap s) b)) <$> l)) ∖ {[(a, e_key e)]} : gset (eref K)); [done|].
    apply set_eq. intros [b k]. rewrite elem_of_difference elem_of_union !elem_of_singleton
      elem_of_list_to_set list_elem_of_fmap.
    split; [naive_solver|]. intros (b' & [= -> ->] & Hb). split; [right; eauto|].
    intros [= -> _]. done.
  - intros b Hb. destruct (cf_lockFreeRead c).
    + destruct E5 as (E51 & E52 & _). rewrite E52 H7' // in Hb. set_solver.
    + destruct E5 as (E51 & E52 & _). rewrite E51. rewrite E52 in Hb.
      apply elem_of_cons in Hb as [->|Hb]; [by rewrite lookup_insert_eq|].
      destruct (H4' _ Hb) as [? Hn]. rewrite lookup_insert_ne; [set_solver|set_solver].
  - destruct (cf_lockFreeRead c); destruct E5 as (_ & -> & _); [done|]. constructor; [|done].
    intros [_ Hn]%H4'. set_solver.
  - intros b Hb. rewrite E3. apply H6'. rewrite E6 in Hb.
    destruct (decide (b = a)) as [->|]; [by rewrite He|]. by rewrite lookup_insert_ne // in Hb.
  - intros Hlf. rewrite Hlf in E5. destruct E5 as (_ & -> & _). by apply H7'.
Qed.

Definition lsum h l : Z := foldr (λ a w, weight_at h a + w) 0 l.

Lemma lsum_perm h l l' : l ≡ₚ l' → lsum h l = lsum h l'.
Proof. unfold lsum. induction 1; cbn; lia. Qed.

Lemma lsum_ext h h' l : (∀ a, a ∈ l → weight_at h' a = weight_at h a) → lsum h' l = lsum h l.
Proof.
  unfold lsum. induction l as [|a l IH]; intros Hs; [done|]. cbn. rewrite Hs; [|set_solver].
  f_equal. apply IH. set_solver.
Qed.

Lemma mweight_lsum h m : mweight h m = lsum h (addrs m).
Proof.
  unfold mweight, lsum, addrs. rewrite map_fold_foldr. induction (map_to_list m) as [|[k a] l IH]; [done|].
  cbn. by rewrite IH.
Qed.

Lemma drop_fold c clear l g s :
  dropping c l s →
  let '(g', s') := foldl (dropEntry c clear) (g, s) l in
  dropping c [] s' ∧ g_entries g' = g_entries g - Z.of_nat (length l) ∧
  g_bytes g' = g_bytes g - lsum (sh_heap s) l ∧ same_fixed g g' ∧ g_tags g' = g_tags g ∧
  sh_storage s' = sh_storage s ∧ sh_read s' = sh_read s ∧
  ∃ l', sh_ttl s' = foldl ttl_unindex (sh_ttl s) l'.
Proof.
  revert g s. induction l as [|a l IH]; intros g s HD; cbn [foldl].
  { split_and!; try done; [cbn; lia..|by exists []]. }
  destruct (dr_live _ _ _ HD a) as [e He]; [set_solver|].
  pose proof (dropEntry_dropping c clear g s a l HD) as HD'.
  pose proof (dropEntry_shape c clear g s a e He) as Hs.
  destruct (dropEntry c clear (g, s) a) as [g1 s1]. cbn in HD'.
  destruct Hs as (G1 & G2 & G3 & G4 & S1 & _ & _ & S4 & S5).
  specialize (IH g1 s1 HD'). destruct (foldl _ (g1, s1) l) as [g2 s2].
  destruct IH as (I1 & I2 & I3 & I4 & I5 & I6 & I7 & l' & I8).
  pose proof (dr_nodup _ _ _ HD) as [Ha _]%NoDup_cons.
  assert (lsum (sh_heap s1) l = lsum (sh_heap s) l) as Hsum.
  { apply lsum_ext. intros b Hb. unfold weight_at.
    destruct (cf_lockFreeRead c); destruct S5 as [-> _]; rewrite lookup_insert_ne //; by intros <-. }
  split_and!; [done|cbn; lia| |unfold same_fixed in *; naive_solver congruence|congruence..|].
  - cbn [lsum foldr]. fold (lsum (sh_heap s) l). unfold weight_at. rewrite He. lia.
  - destruct (cf_lockFreeRead c); destruct S5 as (_ & _ & Et); [exists l'|exists (a :: l')]; cbn; congruence.
Qed.

Lemma untagShard_spec g s m :
  (∀ a, a ∈ st_each (sh_storage s) → ∃ k e, m !! k = Some a ∧ sh_heap s !! a = Some e ∧ e_key e = k) →
  ∀ k t, m !! k = None → tagged (g_tags g) t k → tagged (g_tags (untagShardLocked g s)) t k.
Proof.
  intros Hl k t Hk Ht. unfold untagShardLocked. cbn. revert Hl Ht. generalize (g_tags g).
  induction (st_each (sh_storage s)) as [|a l IH]; intros idx Hl Ht; [done|]. cbn. apply IH; [set_solver|].
  destruct (Hl a) as (k' & e & Hk' & -> & Hek); [set_solver|]. apply tagged_untag. split; [|done].
  intros [_ ->]. congruence.
Qed.

(** A shard whose components are all empty. *)
Lemma cleared_wf c s s2 p0 S0 :
  st_rep (sh_storage s) ∅ → tracks p0 S0 → sh_policy s = Reset p0 →
  ttl_rep (expiries (sh_heap s)) (sh_ttl s) ∅ ∅ → dropping c [] s2 →
  sh_heap s = sh_heap s2 → sh_pool s = sh_pool s2 → sh_fresh s = sh_fresh s2 →
  (if cf_lockFreeRead c then sh_read s = Some (ReadMap ∅ false) else sh_read s = None) →
  shard_wf c s ∅ ∅.
Proof.
  intros Hst Hp Ep Ht [Q1 Q2 Q3 Q4 Q5 Q6 Q7] E1 E2 E3 Hr.
  constructor; rewrite ?E1 ?E2 ?E3 ?map_img_empty_L //.
  - rewrite Ep. replace (erefs (∅ : gmap K loc)) with (∅ : gset (eref K)) by done.
    by eapply tracks_reset.
  - by rewrite -E1.
  - intros a Ha. destruct (Q4 a Ha) as [? _]. split; [done|set_solver].
  - unfold read_ok. destruct (cf_lockFreeRead c) eqn:Hlf; rewrite Hr ?E2; [|done].
    cbn. split_and!; [done|by apply Q7| |done]. intros k a. by rewrite lookup_empty.
Qed.

(** [Clear] and [Reset] leave an empty, well-formed shard. *)
Lemma clearShard_ok c clear g s m D :
  shard_wf c s m D →
  let '(g', s') := clearShardLocked c clear g s in
  ok_step c None g s m g' s' ∅.
Proof.
  intros Hwf. pose proof Hwf as [H1' H2' H3' H4' H5' H6' H7' H8' H9'].
  pose proof (st_rep_each _ _ H1') as Hp. unfold clearShardLocked.
  set (l := st_each (sh_storage s)) in *. set (g1 := untagShardLocked g s).
  assert (∀ a, a ∈ l → ∃ k e, m !! k = Some a ∧ sh_heap s !! a = Some e ∧ e_key e = k) as Hl.
  { intros a. rewrite Hp elem_of_addrs. intros [k Hk]. destruct (H2' _ _ Hk) as (e & ? & ? & _). eauto. }
  assert (dropping c l s) as HD.
  { constructor; try done.
    - rewrite Hp. by eapply NoDup_addrs.
    - intros a (k & e & _ & -> & _)%Hl. done.
    - replace (list_to_set _ : gset (eref K)) with (erefs m); [done|]. apply set_eq. intros [a k].
      rewrite elem_of_erefs elem_of_list_to_set list_elem_of_fmap. split.
      + intros Hk. destruct (H2' _ _ Hk) as (e & He & Hek & _). exists a. unfold key_at. rewrite He Hek.
        split; [done|]. rewrite Hp elem_of_addrs. eauto.
      + intros (b & [= -> ->] & Hb). destruct (Hl _ Hb) as (k' & e & Hk' & He & Hek).
        unfold key_at. rewrite He. congruence.
    - intros a Ha. destruct (H6' _ Ha) as [? Hn]. split; [done|]. rewrite Hp elem_of_addrs -elem_of_img //.
    - by apply (read_ok_lf _ s m). }
  pose proof (drop_fold c clear l g1 s HD) as Hf. destruct (foldl _ (g1, s) l) as [g2 s2].
  destruct Hf as (HD2 & G1 & G2 & G3 & G4 & S1 & S2 & l' & S3).
  pose proof (length_fmap snd (map_to_list m)) as Hlen. fold (addrs m) in Hlen. rewrite -Hp in Hlen.
  assert (st_rep (st_clearAll (sh_storage s2)) ∅) as Hcl by (rewrite S1; by eapply st_rep_clearAll).
  constructor.
  - exists ∅. eapply (cleared_wf c _ s2 (sh_policy s2)); [|apply HD2| | |exact HD2|..];
      destruct (cf_lockFreeRead c) eqn:Hlf; cbn; try done.
    1,2: by rewrite S3; eapply ttl_rep_reset.
    by rewrite S2 (read_ok_no_lf _ _ _ H9' Hlf).
  - intros k. rewrite lookup_empty. by intros [? ?].
  - intros k e He. exfalso. revert He. unfold sh_lookup.
    destruct (cf_lockFreeRead c); cbn; by rewrite (st_rep_get _ _ _ Hcl).
  - rewrite G1 map_size_empty -(length_map_to_list m) -Hlen. cbn. lia.
  - rewrite G2 mweight_empty mweight_lsum -(lsum_perm _ _ _ Hp). cbn. lia.
  - unfold same_fixed in *. cbn in G3. exact G3.
  - intros _ k e t He. exfalso. revert He. unfold sh_lookup.
    destruct (cf_lockFreeRead c); cbn; by rewrite (st_rep_get _ _ _ Hcl).
  - intros k t Hk _ Ht. rewrite G4. by apply (untagShard_spec _ _ m).
Qed.
End bulk.
