(* ===== verification/CacheInv.v ===== *)
(** * CacheInv: the invariant of the cache and the bounds it keeps

    [cache_wf c d C] says that every shard is well-formed, every key sits in
    the shard its hash selects, the entry counter is the number of entries,
    the byte counter is their total weight plus a drift [d], and the tag
    index covers every entry.  [d] is 0 in every reachable state but those
    after a negative tombstone replaced a live entry.

    [cstep c d X C C'] is [ok_step] for the whole cache.  The file shows it for
    the unlock routines, and that they leave the cache within its bounds. *)

From S2P Require Import Prelude Policy Storage Ttl Entry Tags Flights Shard ShardInv ShardOps ShardBulk.
From S2P Require Import Cache.

#[local] Open Scope Z_scope.

(** ** Sums over the shards *)

Definition sumZ (l : list Z) : Z := foldr Z.add 0 l.

#[global] Arguments sumZ : simpl never.

Lemma sumZ_cons x l : sumZ (x :: l) = x + sumZ l.
Proof. done. Qed.

Lemma sumZ_insert (l : list Z) i x y : l !! i = Some x → sumZ (<[i := y]> l) = sumZ l - x + y.
Proof.
  revert i. induction l as [|z l IH]; intros [|i]; cbn; rewrite ?sumZ_cons;
    [done..|intros [= ->]; lia|]. intros Hi. rewrite IH //. lia.
Qed.

Lemma sumZ_zero (l : list Z) : (∀ x, x ∈ l → x = 0) → sumZ l = 0.
Proof. induction l as [|x l IH]; intros Hl; [done|]. rewrite sumZ_cons (Hl x); [|left]. apply IH. set_solver. Qed.

Section cache_wf.
Context {K V P St T A : Type} `{Countable K, Inhabited K, Inhabited V}.
Context `{EvictionPolicy K P, ShardStore K St, TtlBackend T, AdmissionPolicy K A}.
Context `{!PolicyLaws K P, !StoreLaws K St, !TtlLaws T}.

Local Abbreviation shard_wf := (shard_wf (E := ∅)).
Local Abbreviation ok_step := (ok_step (E := ∅)).
Local Abbreviation entry := (entry K V).
Local Abbreviation config := (config K V).
Local Abbreviation globals := (globals K V A).
Local Abbreviation shard := (shard K V P St T).
Local Abbreviation cache := (cache K V P St T A).
Implicit Types (c : config) (C : cache) (g : globals) (s : shard) (e : entry) (m : gmap K loc)
  (k : K) (X : option (K * entry)) (ms : list (gmap K loc)) (d : Z).

(** The shard count is a power of two and the mask selects a shard. *)
Definition shards_ok c (n : nat) : Prop :=
  ∃ b : nat, (b <= 32)%nat ∧ Z.of_nat n = 2 ^ Z.of_nat b ∧ cf_shardMask c = 2 ^ Z.of_nat b - 1.

(** The weight of every table, in order. *)
Definition weights C ms : list Z := zip_with (λ s m, mweight (sh_heap s) m) (c_shards C) ms.
Definition sizes ms : list Z := (λ m, Z.of_nat (size m)) <$> ms.

Record cache_inv c d C ms : Prop := CacheInv {
  ci_shards : shards_ok c (length (c_shards C));
  ci_hash : ∀ k, is_u64 (cf_hasher c k);
  ci_len : length ms = length (c_shards C);
  ci_wf : ∀ i s m, c_shards C !! i = Some s → ms !! i = Some m → ∃ D, shard_wf c s m D;
  ci_home : ∀ i m k, ms !! i = Some m → is_Some (m !! k) → shardFor c k = i;
  ci_entries : g_entries (c_g C) = sumZ (sizes ms);
  ci_bytes : g_bytes (c_g C) = sumZ (weights C ms) + d;
  ci_tags : ∀ i s, c_shards C !! i = Some s → tags_ok (c_g C) s
}.

Definition cache_wf c d C : Prop := ∃ ms, cache_inv c d C ms.

Lemma shardFor_lt c n k : shards_ok c n → is_u64 (cf_hasher c k) → (shardFor c k < n)%nat.
Proof.
  intros (b & Hb & Hn & Hm) Hk. unfold shardFor. rewrite Hm.
  replace (2 ^ Z.of_nat b - 1) with (Z.ones (Z.of_nat b)) by (rewrite Z.ones_equiv; lia).
  rewrite Z.land_ones; [|lia].
  pose proof (Z.mod_pos_bound (cf_hasher c k) (2 ^ Z.of_nat b)). lia.
Qed.

(** What a reader of the cache may notice. *)
Definition ceffect c X C C' : Prop :=
  ∀ k e, shard_get c C' k = Some e →
    match X with
    | Some (k0, e0) => if decide (k = k0) then e = e0 else shard_get c C k = Some e
    | None => shard_get c C k = Some e
    end.

Record cstep c d X C C' : Prop := CStep {
  cs_wf : cache_wf c d C';
  cs_effect : ceffect c X C C';
  cs_len : length (c_shards C') = length (c_shards C);
  cs_bounds : g_maxEntries (c_g C') = g_maxEntries (c_g C) ∧ g_maxBytes (c_g C') = g_maxBytes (c_g C);
  cs_closed : g_closed (c_g C') = g_closed (c_g C) ∧ g_sealed (c_g C') = g_sealed (c_g C)
}.

Lemma cstep_refl c d C : cache_wf c d C → cstep c d None C C.
Proof. intros Hwf. constructor; try done. by intros ??. Qed.

Lemma cstep_trans c d X Y C1 C2 C3 :
  cstep c d X C1 C2 → cstep c d Y C2 C3 → (X = None ∨ Y = None) →
  cstep c d (match X with None => Y | _ => X end) C1 C3.
Proof.
  intros [A1 A2 A3 A4 A5] [B1 B2 B3 B4 B5] HXY. constructor; [done| |congruence|naive_solver congruence..].
  intros k e He. specialize (B2 _ _ He). destruct HXY as [-> | ->].
  - destruct Y as [[k0 e0]|]; [case_decide; [done|]|]; by apply A2.
  - specialize (A2 _ _ B2). by destruct X.
Qed.

Lemma shard_get_lookup c C k s :
  c_shards C !! shardFor c k = Some s → shard_get c C k = sh_lookup s k.
Proof. intros Hs. unfold shard_get, sh_lookup. by rewrite Hs. Qed.

Lemma inv_shard c d C ms i s :
  cache_inv c d C ms → c_shards C !! i = Some s →
  ∃ m D, ms !! i = Some m ∧ shard_wf c s m D.
Proof.
  intros HI Hs. destruct (lookup_lt_is_Some_2 ms i) as [m Hm].
  { rewrite (ci_len _ _ _ _ HI). by eapply lookup_lt_Some. }
  destruct (ci_wf _ _ _ _ HI _ _ _ Hs Hm) as [D HD]. eauto.
Qed.

(** Changes of the cache-wide state that no part of the invariant reads. *)
Lemma set_g_cstep c d C g :
  cache_wf c d C → g_entries g = g_entries (c_g C) → g_bytes g = g_bytes (c_g C) →
  g_tags g = g_tags (c_g C) → g_maxEntries g = g_maxEntries (c_g C) →
  g_maxBytes g = g_maxBytes (c_g C) → g_closed g = g_closed (c_g C) →
  g_sealed g = g_sealed (c_g C) → cstep c d None C (set_g C g).
Proof.
  intros [ms [H1' H2' H3' H4' H5' H6' H7' H8']] E1 E2 E3 E4 E5 E6 E7.
  constructor; [|by intros ??|done..]. exists ms. constructor; cbn; try done; [by rewrite E1|by rewrite E2|].
  intros i s Hs k e t. rewrite E3. by eapply H8'.
Qed.

(** A locked routine on shard [i] that may write only keys of that shard. *)
Lemma locked_cstep c d X C ms i s m g' s' m' :
  cache_inv c d C ms → c_shards C !! i = Some s → ms !! i = Some m →
  ok_step c X (c_g C) s m g' s' m' → (∀ k, writes X k → shardFor c k = i) →
  cstep c d X C (Cache g' (<[i := s']> (c_shards C))).
Proof.
  intros HI Hs Hm Hok HX. pose proof HI as [H1' H2' H3' H4' H5' H6' H7' H8'].
  pose proof Hok as [[D A1] A2 A3 A4 A5 A6 A7 A8].
  assert (i < length (c_shards C))%nat as Hi by by eapply lookup_lt_Some.
  assert (∀ k, is_Some (m' !! k) → shardFor c k = i) as Hhome.
  { intros k [Hk|Hk]%A2; [by eapply H5'|by apply HX]. }
  destruct A6 as (F1 & F2 & F3 & F4 & F5). constructor; cbn; [|  |by rewrite length_insert|done..].
  - exists (<[i := m']> ms). constructor; cbn; rewrite ?length_insert //.
    + intros j s0 m0. destruct (decide (j = i)) as [->|Hj].
      * rewrite !list_lookup_insert_eq; [|lia..]. intros [= <-] [= <-]. eauto.
      * rewrite !list_lookup_insert_ne //. apply H4'.
    + intros j m0 k. destruct (decide (j = i)) as [->|Hj].
      * rewrite list_lookup_insert_eq; [|lia]. intros [= <-]. apply Hhome.
      * rewrite list_lookup_insert_ne //. apply H5'.
    + unfold sizes. rewrite list_fmap_insert (sumZ_insert _ _ (Z.of_nat (size m))).
      * fold (sizes ms). lia.
      * by rewrite list_lookup_fmap Hm.
    + unfold weights. cbn. rewrite -insert_zip_with (sumZ_insert _ _ (mweight (sh_heap s) m)).
      * fold (weights C ms). lia.
      * rewrite lookup_zip_with Hs Hm //.
    + intros j s0. destruct (decide (j = i)) as [->|Hj].
      * rewrite list_lookup_insert_eq //. intros [= <-]. by eapply A7, H8'.
      * rewrite list_lookup_insert_ne //. intros Hs0 k e t He Ht.
        destruct (inv_shard _ _ _ _ _ _ HI Hs0) as (m0 & D0 & Hm0 & Hw0).
        assert (shardFor c k = j) as Hk.
        { eapply H5'; [exact Hm0|]. rewrite (wf_lookup _ _ _ _ _ Hw0) in He. by destruct (m0 !! k). }
        apply A8; [|by intros ?%HX; congruence|by eapply H8'].
        apply eq_None_not_Some. intros Hk'. eapply H5' in Hk'; [|exact Hm]. congruence.
  - intros k e He. destruct (decide (shardFor c k = i)) as [Hk|Hk].
    + rewrite (shard_get_lookup _ _ _ s') in He; [|by cbn; rewrite Hk list_lookup_insert_eq].
      rewrite (shard_get_lookup _ _ _ s); [|by rewrite Hk]. by apply A3.
    + assert (shard_get c C k = Some e) as He'.
      { revert He. unfold shard_get. cbn. by rewrite list_lookup_insert_ne. }
      destruct X as [[k0 e0]|]; [|done]. rewrite decide_False; [done|].
      intros ->. apply Hk. by apply HX.
Qed.

(** ** Unlocking *)

Lemma emit_frame g l :
  g_entries (emit g l) = g_entries g ∧ g_bytes (emit g l) = g_bytes g ∧ g_tags (emit g l) = g_tags g ∧
  same_fixed g (emit g l).
Proof. done. Qed.

Lemma releaseShard_cstep c d C i : cache_wf c d C → cstep c d None C (releaseShard c C i).
Proof.
  intros [ms HI]. unfold releaseShard, locked_, locked.
  destruct (c_shards C !! i) as [s|] eqn:Hs; [|by apply cstep_refl; exists ms].
  destruct (inv_shard _ _ _ _ _ _ HI Hs) as (m & D & Hm & Hw). cbn.
  eapply locked_cstep; [exact HI|exact Hs|exact Hm| |done].
  eapply ok_frame; [by eapply ok_refl|done..].
Qed.

Lemma releaseShard_over c C i :
  overBudget (c_g (releaseShard c C i)) = overBudget (c_g C).
Proof. unfold releaseShard, locked_, locked. by destruct (c_shards C !! i). Qed.

(** Shard [i] holds nothing. *)
Definition empty_shard C i : Prop := ∀ s, c_shards C !! i = Some s → st_length (sh_storage s) = 0.

Lemma releaseShard_empty c C i j : empty_shard C j → empty_shard (releaseShard c C i) j.
Proof.
  intros He. unfold releaseShard, locked_, locked. destruct (c_shards C !! i) as [s|] eqn:Hs; [|done].
  cbn. intros s'. cbn. rewrite list_lookup_insert_Some. intros [(-> & <- & _)|[_ Hs']]; [|by apply He].
  cbn. by apply He.
Qed.

(** Shedding from one shard leaves the cache within bounds or the shard
    empty. *)
Lemma shed_shard_ok c d C i r :
  cache_wf c d C →
  let '(C', o) := shed_shard c C i r in
  cstep c d None C C' ∧ (∀ j, empty_shard C j → empty_shard C' j) ∧
  match o with
  | None => C' = C ∧ overBudget (c_g C) = false
  | Some _ => overBudget (c_g C) = true ∧ (overBudget (c_g C') = false ∨ empty_shard C' i)
  end.
Proof.
  intros Hwf. unfold shed_shard. destruct (overBudget (c_g C)) eqn:Ho; [|by split_and!; [apply cstep_refl|..]].
  pose proof Hwf as [ms HI]. unfold locked. destruct (c_shards C !! i) as [s|] eqn:Hs.
  2:{ split_and!; [by apply releaseShard_cstep|intros j; apply releaseShard_empty|done|right].
      apply releaseShard_empty. intros s Hs'. congruence. }
  destruct (inv_shard _ _ _ _ _ _ HI Hs) as (m & D & Hm & Hw).
  pose proof (evictOverBudget_ok c r 0 (c_g C) s m D Hw (Z.le_refl 0)) as Hev.
  destruct (evictOverBudgetLocked c (c_g C) s r 0) as [[g' s'] n].
  destruct Hev as (m' & Hok & _ & Hd).
  assert (cstep c d None C (Cache g' (<[i:=s']> (c_shards C)))) as Hst by by eapply locked_cstep.
  destruct (os_wf _ _ _ _ _ _ _ _ Hok) as [D' Hw'].
  assert (i < length (c_shards C))%nat as Hi by by eapply lookup_lt_Some.
  set (C1 := Cache g' _) in *.
  assert (∀ j, empty_shard C j → empty_shard C1 j) as Hem.
  { intros j Hj s0. cbn. rewrite list_lookup_insert_Some. intros [(-> & <- & _)|[_ Hs0]]; [|by apply Hj].
    rewrite (wf_length _ _ _ _ Hw'). pose proof (ok_size _ _ _ _ _ _ _ Hok).
    specialize (Hj _ Hs). rewrite (wf_length _ _ _ _ Hw) in Hj. lia. }
  split_and!.
  - refine (cstep_trans _ _ _ _ _ _ _ Hst (releaseShard_cstep _ _ _ _ _) (or_introl eq_refl)). apply Hst.
  - intros j Hj. by apply releaseShard_empty, Hem.
  - done.
  - rewrite releaseShard_over. cbn. destruct (decide (size m' = 0%nat)) as [Hz|Hz].
    + right. apply releaseShard_empty. intros s0. cbn. rewrite list_lookup_insert_eq //. intros [= <-].
      rewrite (wf_length _ _ _ _ Hw'). lia.
    + left. apply Hd. lia.
Qed.

Lemma shed_loop_ok c d r last idxs C count :
  cache_wf c d C →
  let '(C', n, go) := shed_loop c C r last idxs count in
  cstep c d None C C' ∧ (∀ j, empty_shard C j → empty_shard C' j) ∧
  (overBudget (c_g C) = false → overBudget (c_g C') = false) ∧
  (go = false → overBudget (c_g C') = false) ∧
  (overBudget (c_g C') = false ∨ ∀ i, i ∈ idxs → last ≠ Some i → empty_shard C' i).
Proof.
  revert C count. induction idxs as [|i idxs IH]; intros C count Hwf; cbn.
  { split_and!; [by apply cstep_refl|done..|right; set_solver]. }
  case_decide as Hl.
  { specialize (IH C count Hwf). destruct (shed_loop _ _ _ _ _ _) as [[C' n] go].
    destruct IH as (I1 & I2 & I3 & I4 & I5). split_and!; [done..|].
    destruct I5 as [?|I5]; [by left|right]. intros j [->|Hj]%elem_of_cons Hne; [done|by apply I5]. }
  pose proof (shed_shard_ok c d C i r Hwf) as Hs.
  destruct (shed_shard c C i r) as [C1 [n|]].
  2:{ destruct Hs as (S1 & S2 & -> & S3). split_and!; [done..|by left]. }
  destruct Hs as (S1 & S2 & S3 & S4). specialize (IH C1 (count + n) (cs_wf _ _ _ _ _ S1)).
  destruct (shed_loop _ _ _ _ _ _) as [[C' n'] go]. destruct IH as (I1 & I2 & I3 & I4 & I5).
  split_and!; [by apply (cstep_trans _ _ _ _ _ _ _ S1 I1); left|by auto|congruence|done|].
  destruct S4 as [S4|S4]; [left; auto|]. destruct I5 as [?|I5]; [by left|right].
  intros j [->|Hj]%elem_of_cons Hne; [by apply I2|by apply I5].
Qed.

(** [(start+i)&shardMask] visits every shard. *)
Lemma shed_order c n start j :
  shards_ok c n → (j < n)%nat →
  j ∈ map (λ i, Z.to_nat (Z.land (u64 (start + Z.of_nat i)) (cf_shardMask c))) (seq 0 n).
Proof.
  intros (b & Hb & Hn & Hm) Hj. apply list_elem_of_In, in_map_iff.
  set (N := 2 ^ Z.of_nat b) in *. assert (0 < N) by (subst N; lia).
  exists (Z.to_nat ((Z.of_nat j - start) `mod` N)).
  pose proof (Z.mod_pos_bound (Z.of_nat j - start) N) as Hi.
  split; [|apply in_seq; lia]. rewrite Z2Nat.id; [|lia]. rewrite Hm.
  replace (N - 1) with (Z.ones (Z.of_nat b)) by (rewrite Z.ones_equiv; subst N; lia).
  rewrite Z.land_ones; [|lia]. fold N. unfold u64.
  assert (∃ q, 2 ^ 64 = q * N) as [q Hq].
  { exists (2 ^ (64 - Z.of_nat b)). subst N. rewrite -Z.pow_add_r; [f_equal; lia|lia..]. }
  rewrite (Z.mod_mod_divide _ _ N); [|exists q; lia].
  rewrite Zplus_mod_idemp_r. replace (start + (Z.of_nat j - start)) with (Z.of_nat j) by lia.
  rewrite Z.mod_small; lia.
Qed.

(** With every shard empty the cache is within any bound. *)
Lemma all_empty_within c d C :
  cache_wf c d C → d <= 0 → (∀ i, (i < length (c_shards C))%nat → empty_shard C i) →
  overBudget (c_g C) = false.
Proof.
  intros [ms HI] Hd He.
  assert (∀ i m, ms !! i = Some m → m = ∅) as Hm.
  { intros i m Hm. destruct (lookup_lt_is_Some_2 (c_shards C) i) as [s Hs].
    { rewrite -(ci_len _ _ _ _ HI). by eapply lookup_lt_Some. }
    destruct (ci_wf _ _ _ _ HI _ _ _ Hs Hm) as [D Hw].
    specialize (He i (lookup_lt_Some _ _ _ Hs) s Hs). rewrite (wf_length _ _ _ _ Hw) in He.
    apply map_size_empty_inv. lia. }
  assert (g_entries (c_g C) = 0) as He0.
  { rewrite (ci_entries _ _ _ _ HI). apply sumZ_zero. intros x.
    rewrite /sizes list_elem_of_fmap. intros (m & -> & [i Hi]%list_elem_of_lookup_1).
    by rewrite (Hm _ _ Hi). }
  assert (g_bytes (c_g C) <= 0) as Hb0.
  { rewrite (ci_bytes _ _ _ _ HI) sumZ_zero; [lia|]. intros x [i Hi]%list_elem_of_lookup_1.
    unfold weights in Hi. apply lookup_zip_with_Some in Hi as (s & m & -> & _ & Hmi).
    rewrite (Hm _ _ Hmi). apply mweight_empty. }
  unfold overBudget. rewrite He0. repeat case_bool_decide; cbn; try done; lia.
Qed.

Lemma shedPass_ok c d r last C :
  cache_wf c d C → d <= 0 →
  let '(C', n) := shedPass c C r last in
  cstep c d None C C' ∧ overBudget (c_g C') = false.
Proof.
  intros Hwf Hd. unfold shedPass.
  set (g0 := g_set_bounds _ _ _ _). set (C0 := set_g C g0). set (idxs := map _ _).
  assert (cstep c d None C C0) as Hc0 by by apply set_g_cstep.
  pose proof (shed_loop_ok c d r last idxs C0 0 (cs_wf _ _ _ _ _ Hc0)) as Hl.
  assert (∀ j, (j < length (c_shards C))%nat → j ∈ idxs) as Hidx.
  { intros j Hj. destruct Hwf as [ms HI]. apply shed_order; [apply HI|done]. }
  destruct (shed_loop _ _ _ _ _ _) as [[C1 n] go].
  destruct Hl as (L1 & L2 & L3 & L4 & L5).
  pose proof (cstep_trans _ _ _ _ _ _ _ Hc0 L1 (or_introl eq_refl)) as H1'.
  destruct go; cbn; [|by split; [|apply L4]].
  assert (∀ C2, cstep c d None C1 C2 → overBudget (c_g C2) = false ∨ (∀ i, i ∈ idxs → empty_shard C2 i) →
    cstep c d None C C2 ∧ overBudget (c_g C2) = false) as Hfin.
  { intros C2 H2' Ho. assert (cstep c d None C C2) as H3'
      by exact (cstep_trans _ _ _ _ _ _ _ H1' H2' (or_introl eq_refl)).
    split; [done|]. destruct Ho as [|Ho]; [done|].
    apply (all_empty_within c d); [apply H3'|done|]. rewrite (cs_len _ _ _ _ _ H3'). auto. }
  destruct last as [i|].
  - pose proof (shed_shard_ok c d C1 i r (cs_wf _ _ _ _ _ L1)) as Hs.
    destruct (shed_shard c C1 i r) as [C2 [k|]]; destruct Hs as (S1 & S2 & S3).
    + apply Hfin; [done|]. destruct S3 as [S3 [?|S4]]; [by left|]. destruct L5 as [L5|L5]; [congruence|].
      right. intros j Hj. destruct (decide (j = i)) as [->|Hji]; [done|]. apply S2, L5; [done|congruence].
    + destruct S3 as [-> S3]. by apply Hfin; [|left].
  - apply Hfin; [apply cstep_refl, L1|]. destruct L5 as [|L5]; [by left|right]. intros j Hj. by apply L5.
Qed.

(** The shedding loop ends, and leaves the cache within its bounds. *)
Lemma shedOverBudget_ok c d r last C :
  cache_wf c d C → d <= 0 →
  cstep c d None C (shedOverBudget c C r last).1 ∧
  overBudget (c_g (shedOverBudget c C r last).1) = false.
Proof.
  intros Hwf Hd. unfold shedOverBudget. cbn [shed_passes].
  destruct (overBudget (c_g C)) eqn:Ho; [|split; [by apply cstep_refl|done]].
  pose proof (shedPass_ok c d r last C Hwf Hd) as Hp.
  destruct (shedPass c C r last) as [C1 n]. destruct Hp as [P1 P2].
  case_bool_decide; [by split|].
  destruct (Z.to_nat (total_entries C)) as [|fuel]; cbn; [by split|]. by rewrite P2.
Qed.

Lemma flush_ok c d C i :
  cache_wf c d C → d <= 0 →
  cstep c d None C (flushAndUnlock c C i) ∧ overBudget (c_g (flushAndUnlock c C i)) = false.
Proof.
  intros Hwf Hd. unfold flushAndUnlock.
  pose proof (releaseShard_cstep c d C i Hwf) as Hr.
  destruct (shedOverBudget_ok c d EvictReasonCapacity (Some i) _ (cs_wf _ _ _ _ _ Hr) Hd) as [S1 S2].
  split; [|done]. exact (cstep_trans _ _ _ _ _ _ _ Hr S1 (or_introl eq_refl)).
Qed.

(** A locked routine followed by the unlock. *)
Lemma locked_flush_ok c d X C C1 i :
  cstep c d X C C1 → d <= 0 →
  cstep c d X C (flushAndUnlock c C1 i) ∧ overBudget (c_g (flushAndUnlock c C1 i)) = false.
Proof.
  intros H1' Hd. destruct (flush_ok c d C1 i (cs_wf _ _ _ _ _ H1') Hd) as [S1 S2].
  split; [|done]. pose proof (cstep_trans _ _ _ _ _ _ _ H1' S1 (or_intror eq_refl)) as Ht.
  by destruct X.
Qed.
End cache_wf.
