(* ===== verification/CacheOps.v ===== *)
(** * CacheOps: what the public operations do

    Each operation is shown to keep [cache_wf], to leave the cache within its
    bounds, and to make visible only what it says it does. *)

From S2P Require Import Prelude Policy Storage Ttl Entry Tags Flights Shard ShardInv ShardOps ShardBulk.
From S2P Require Import Cache CacheInv.

#[local] Open Scope Z_scope.

Section ops.
Context {K V P St T A : Type} `{Countable K, Inhabited K, Inhabited V}.
Context `{EvictionPolicy K P, ShardStore K St, TtlBackend T, AdmissionPolicy K A}.
Context `{!PolicyLaws K P, !StoreLaws K St, !TtlLaws T}.

Local Abbreviation shard_wf := (shard_wf (E := ∅)).
Local Abbreviation ok_step := (ok_step (E := ∅)).
Local Abbreviation entry := (entry K V).
Local Abbreviation config := (config K V).
Local Abbreviation globals := (globals K V A).
Local Abbreviation shard := (shard K V P St T).
Local Abbreviation cache := (cache K V P St T A).
Implicit Types (c : config) (C : cache) (g : globals) (s : shard) (e : entry) (m : gmap K loc)
  (k : K) (v : V) (X : option (K * entry)) (ms : list (gmap K loc)) (d : Z).

(** ** Running a routine on the shard of a key *)

Lemma locked_spec {R} c d C ms i (f : globals → shard → globals * shard * R) dflt
    (Q : cache → R → Prop) :
  cache_inv c d C ms → (i < length (c_shards C))%nat →
  (∀ s m D, c_shards C !! i = Some s → ms !! i = Some m → shard_wf c s m D →
     let '(g', s', r) := f (c_g C) s in Q (Cache g' (<[i := s']> (c_shards C))) r) →
  let '(C', r) := locked C i f dflt in Q C' r.
Proof.
  intros HI Hi Hf. destruct (lookup_lt_is_Some_2 _ _ Hi) as [s Hs].
  destruct (inv_shard _ _ _ _ _ _ HI Hs) as (m & D & Hm & Hw). specialize (Hf _ _ _ Hs Hm Hw).
  unfold locked. rewrite Hs. by destruct (f (c_g C) s) as [[g' s'] r].
Qed.

Lemma home_lt c d C ms k : cache_inv c d C ms → (shardFor c k < length (c_shards C))%nat.
Proof. intros HI. apply shardFor_lt; apply HI. Qed.

(** The globals before a step only matter through a few fields. *)
Lemma ok_pre c X g1 g s m g' s' m' :
  ok_step c X g1 s m g' s' m' → g_entries g1 = g_entries g → g_bytes g1 = g_bytes g →
  same_fixed g g1 → g_tags g1 = g_tags g → ok_step c X g s m g' s' m'.
Proof.
  intros [A1 A2 A3 A4 A5 A6 A7 A8] E1 E2 E3 E4. constructor; try done; [lia..| | |].
  - unfold same_fixed in *. naive_solver congruence.
  - intros Ht. apply A7. intros k e t. rewrite E4. apply Ht.
  - rewrite -E4. exact A8.
Qed.

(** [X] is a write of [v] under [k] that took effect, or none because the
    cache is sealed or the key was absent and not admitted. *)
Definition wrote c C X k v : Prop :=
  match X with
  | Some (k', e) => k' = k ∧ e_value e = Some v ∧ e_has e flagNegative = false
  | None => g_sealed (c_g C) = true ∨
            (shard_get c C k = None ∧ Admit (g_admission (c_g C)) k = false)
  end.

Lemma put_cstep c d C ms s m D k v w x sl ts g1 g' s' :
  cache_inv c d C ms → c_shards C !! shardFor c k = Some s → ms !! shardFor c k = Some m →
  shard_wf c s m D → put_ok (E := ∅) c g1 s m k v w x sl ts g' s' →
  g_entries g1 = g_entries (c_g C) → g_bytes g1 = g_bytes (c_g C) →
  same_fixed (c_g C) g1 → g_tags g1 = g_tags (c_g C) → g_admission g1 = g_admission (c_g C) →
  ∃ X, cstep c d X C (Cache g' (<[shardFor c k := s']> (c_shards C))) ∧ wrote c C X k v ∧
    (∀ e, X = Some (k, e) → written k v w x sl ts e).
Proof.
  intros HI Hs Hm Hw (X & m' & Hok & HX) E1 E2 E3 E4 E5. exists X.
  assert (g_sealed g1 = g_sealed (c_g C)) as E6 by apply E3.
  split_and!.
  - eapply locked_cstep; [exact HI|exact Hs|exact Hm|by eapply ok_pre|].
    intros k'. unfold writes. destruct X as [[k0 e]|]; [|done]. destruct HX as [-> _].
    by intros [= ->].
  - destruct X as [[k0 e]|]; cbn in *.
    + destruct HX as (-> & Hwr & _). split_and!; [done|by eapply wr_value|by eapply wr_negative].
    + rewrite E5 E6 in HX. destruct HX as [?|[HX ?]]; [by left|right]. split; [|done].
      rewrite (shard_get_lookup _ _ _ s) // (wf_lookup _ _ _ _ _ Hw) HX //.
  - intros e ->. by destruct HX as (_ & ? & _).
Qed.

Lemma upsert_cstep c d C ms k v w ttl sl raw ts :
  cache_inv c d C ms → 1 <= w →
  ∃ X, cstep c d X C (locked_ C (shardFor c k) (λ g s,
    let '(ettl, g) := effectiveTTL c g ttl in upsertLocked c g s k v w ettl sl raw ts)) ∧
    wrote c C X k v ∧
    (∀ e, X = Some (k, e) → written k v w
      (let ettl := (effectiveTTL c (c_g C) ttl).1 in
       if bool_decide (0 < ettl) then i64 (cf_clock c (g_tick (c_g C)) + ettl) else 0) sl ts e).
Proof.
  intros HI Hw. unfold locked_.
  match goal with |- context [locked C ?i ?f tt] =>
    pose proof (locked_spec c d C ms i f tt (λ C' _, ∃ X, cstep c d X C C' ∧ wrote c C X k v ∧
      (∀ e, X = Some (k, e) → written k v w
      (let ettl := (effectiveTTL c (c_g C) ttl).1 in
       if bool_decide (0 < ettl) then i64 (cf_clock c (g_tick (c_g C)) + ettl) else 0) sl ts e)) HI) as HL;
    destruct (locked C i f tt) as [C' []]; apply HL end; [by eapply home_lt|].
  intros s m D Hs Hm Hwf. destruct (effectiveTTL_frame c (c_g C) ttl) as [rt Hrt].
  destruct (effectiveTTL c (c_g C) ttl) as [ettl g1]. cbn in Hrt |- *. subst g1.
  pose proof (upsert_ok c (g_env (c_g C) (g_tick (c_g C)) rt (g_fx (c_g C))) s m D k v w ettl sl raw ts
    Hwf Hw) as Hu. destruct (upsertLocked _ _ _ _ _ _ _ _ _ _) as [g' s'].
  by eapply put_cstep.
Qed.

(** ** Removing keys *)

Lemma removeKey_cstep c d C k r :
  cache_wf c d C → d <= 0 →
  let '(C', b) := removeKey c C k r in
  cstep c d None C C' ∧ shard_get c C' k = None ∧ overBudget (c_g C') = false ∧
  (b = bool_decide (is_Some (shard_get c C k))).
Proof.
  intros [ms HI] Hd. unfold removeKey.
  match goal with |- context [locked C ?i ?f false] =>
    pose proof (locked_spec c d C ms i f false (λ C' b, cstep c d None C C' ∧ shard_get c C' k = None ∧
      b = bool_decide (is_Some (shard_get c C k))) HI) as HL;
    destruct (locked C i f false) as [C1 b] end.
  destruct HL as (H1' & H2' & H3'); [by eapply home_lt| |].
  - intros s m D Hs Hm Hw. rewrite (wf_get _ _ _ _ _ Hw) (shard_get_lookup _ _ _ _ Hs).
    rewrite (wf_lookup _ _ _ _ _ Hw). destruct (m !! k) as [a|] eqn:Hk.
    + pose proof (remove_ok c (c_g C) s m D k a r Hw Hk) as Hrm.
      destruct (removeLocked c (c_g C) s a r) as [g' s'].
      assert (cstep c d None C (Cache g' (<[shardFor c k:=s']> (c_shards C)))) as Hst
        by by eapply locked_cstep.
      destruct (wf_entry _ _ _ _ Hw _ _ Hk) as (e & He & _).
      split_and!; [done| |by cbn; rewrite He].
      destruct (os_wf _ _ _ _ _ _ _ _ Hrm) as [D' Hw'].
      rewrite (shard_get_lookup _ _ _ s').
      * rewrite (wf_lookup _ _ _ _ _ Hw') lookup_delete_eq //.
      * cbn. rewrite list_lookup_insert_eq //. by eapply lookup_lt_Some.
    + rewrite list_insert_id // /=. destruct C as [g ss]. split_and!; [apply cstep_refl; by exists ms| |done].
      rewrite (shard_get_lookup _ _ _ s) // (wf_lookup _ _ _ _ _ Hw) Hk //.
  - destruct (locked_flush_ok c d None C C1 (shardFor c k) H1' Hd) as [S1 S2].
    destruct (flush_ok c d C1 (shardFor c k) (cs_wf _ _ _ _ _ H1') Hd) as [F1 _].
    split_and!; try done. destruct (shard_get c (flushAndUnlock c C1 (shardFor c k)) k) as [e|] eqn:He; [|done].
    apply F1 in He. congruence.
Qed.

(** ** Values *)

(** A reader can be given [v] for [k]. *)
Definition visible c C k v : Prop :=
  ∃ e, shard_get c C k = Some e ∧ e_has e flagNegative = false ∧ loadValue e = v.

(** The cache stays well-formed and, when it was, within bounds; a key now
    shows the value of [W], if [W] is about it, or one it showed before. *)
Record vstep c d (W : option (K * V)) C C' : Prop := VStep {
  vs_wf : cache_wf c d C';
  vs_visible : ∀ k v, visible c C' k v →
    match W with
    | Some (k0, v0) => if decide (k = k0) then v = v0 else visible c C k v
    | None => visible c C k v
    end;
  vs_len : length (c_shards C') = length (c_shards C);
  vs_bounds : g_maxEntries (c_g C') = g_maxEntries (c_g C) ∧ g_maxBytes (c_g C') = g_maxBytes (c_g C);
  vs_closed : g_closed (c_g C') = g_closed (c_g C) ∧ g_sealed (c_g C') = g_sealed (c_g C);
  vs_over : overBudget (c_g C) = false → overBudget (c_g C') = false
}.

Lemma vstep_refl c d C : cache_wf c d C → vstep c d None C C.
Proof. intros. by constructor. Qed.

Lemma vstep_trans c d W W' C1 C2 C3 :
  vstep c d W C1 C2 → vstep c d W' C2 C3 → (W = None ∨ W' = None) →
  vstep c d (match W with None => W' | _ => W end) C1 C3.
Proof.
  intros [A1 A2 A3 A4 A5 A6] [B1 B2 B3 B4 B5 B6] HW.
  constructor; [done| |congruence|naive_solver congruence..|auto].
  intros k v Hv. specialize (B2 _ _ Hv). destruct HW as [-> | ->].
  - destruct W' as [[k0 v0]|]; [case_decide; [done|]|]; by apply A2.
  - specialize (A2 _ _ B2). by destruct W.
Qed.

Lemma vstep_none c d C C' :
  cstep c d None C C' → (overBudget (c_g C) = false → overBudget (c_g C') = false) →
  vstep c d None C C'.
Proof.
  intros [A1 A2 A3 A4 A5] Ho. constructor; try done.
  intros k v (e & He & ?). exists e. split; [|done]. by apply A2.
Qed.

(** Rewriting an entry without changing what it shows. *)
Lemma vstep_same c d k e e' C C' :
  cstep c d (Some (k, e')) C C' → shard_get c C k = Some e → e_value e' = e_value e →
  e_flags e' = e_flags e → (overBudget (c_g C) = false → overBudget (c_g C') = false) →
  vstep c d None C C'.
Proof.
  intros [A1 A2 A3 A4 A5] He Hv Hf Ho. constructor; try done.
  intros k' v (e0 & He0 & Hn & Hl). apply A2 in He0. case_decide as Hd; [|by exists e0].
  subst. exists e. split; [done|]. unfold e_has, loadValue in *. by rewrite -Hf -Hv.
Qed.

Lemma wrote_visible c d X k v C C' :
  cstep c d X C C' → wrote c C X k v → g_sealed (c_g C) = false →
  ∀ k' v', visible c C' k' v' → if decide (k' = k) then v' = v else visible c C k' v'.
Proof.
  intros [A1 A2 A3 A4 A5] HX Hsl k' v' (e0 & He0 & Hn & Hl). apply A2 in He0. destruct X as [[k0 e]|]; cbn in HX.
  - destruct HX as (-> & Hv & _). case_decide; [|by exists e0]. subst. unfold loadValue. by rewrite Hv.
  - case_decide as Hd; [|by exists e0]. destruct HX as [?|[HX _]]; congruence.
Qed.

Lemma vstep_wrote c d X k v C C' :
  cstep c d X C C' → wrote c C X k v → g_sealed (c_g C) = false →
  (overBudget (c_g C) = false → overBudget (c_g C') = false) →
  vstep c d (Some (k, v)) C C'.
Proof. intros Hst HX Hsl Ho. pose proof Hst as [A1 A2 A3 A4 A5]. constructor; try done. by eapply wrote_visible. Qed.

Lemma flush_vstep c d W C C1 i :
  vstep c d W C C1 → d <= 0 →
  vstep c d W C (flushAndUnlock c C1 i) ∧ overBudget (c_g (flushAndUnlock c C1 i)) = false.
Proof.
  intros Hv Hd. destruct (flush_ok c d C1 i (vs_wf _ _ _ _ _ Hv) Hd) as [S1 S2]. split; [|done].
  assert (vstep c d None C1 (flushAndUnlock c C1 i)) as Hn by by apply vstep_none.
  pose proof (vstep_trans _ _ _ _ _ _ _ Hv Hn (or_intror eq_refl)) as Ht. by destruct W.
Qed.

(** ** Writes *)

Lemma weighOf_ge c v : 1 <= weighOf c v.
Proof. apply clampWeight_bounds. Qed.

Lemma computeWeight_ge c v w : computeWeight c v = inr w → 1 <= w.
Proof. unfold computeWeight. case_match; [done|]. intros [= <-]. apply weighOf_ge. Qed.

Lemma shrink_loop_vstep c d fuel tag capacity C :
  cache_wf c d C → d <= 0 → vstep c d None C (shrink_loop fuel c C tag capacity).
Proof.
  intros Hwf Hd. revert C Hwf. induction fuel as [|fuel IH]; intros C Hwf; cbn; [by apply vstep_refl|].
  case_bool_decide; [by apply vstep_refl|]. destruct (findOldestMember _ _ _) as [k|]; [|by apply vstep_refl].
  pose proof (removeKey_cstep c d C k EvictReasonTag Hwf Hd) as Hr.
  destruct (removeKey c C k EvictReasonTag) as [C1 b]. destruct Hr as (R1 & _ & R3 & _). cbn.
  assert (vstep c d None C C1) as Hv by by apply vstep_none.
  exact (vstep_trans _ _ _ _ _ _ _ Hv (IH C1 (cs_wf _ _ _ _ _ R1)) (or_introl eq_refl)).
Qed.

Lemma groups_vstep c d tags C :
  cache_wf c d C → d <= 0 → vstep c d None C (enforceGroupBudgets c C tags).
Proof.
  unfold enforceGroupBudgets. revert C. induction tags as [|t tags IH]; intros C Hwf Hd; cbn;
    [by apply vstep_refl|].
  destruct (cf_groups c !! t) as [cap|]; [|by apply IH].
  pose proof (shrink_loop_vstep c d (S (Z.to_nat (countLiveMembers c C (ti_snapshot (g_tags (c_g C)) t))))
    t cap C Hwf Hd) as Hs.
  exact (vstep_trans _ _ _ _ _ _ _ Hs (IH _ (vs_wf _ _ _ _ _ Hs) Hd) (or_introl eq_refl)).
Qed.

(** The outcome of a write: on success the new value, on error nothing. *)
Definition set_outcome c d k v C (r : cache * option error) : Prop :=
  match r.2 with
  | None => vstep c d (Some (k, v)) C r.1 ∧ overBudget (c_g r.1) = false
  | Some _ => vstep c d None C r.1
  end.

Lemma setLocked_outcome c d C k v ttl sl ts :
  cache_wf c d C → g_sealed (c_g C) = false →
  let '(C', err) := setLockedInto c C k v ttl sl ts in
  ∃ X, cstep c d X C C' ∧ (err = None → wrote c C X k v) ∧ (err ≠ None → X = None ∧ C' = C).
Proof.
  intros Hwf Hsl. pose proof Hwf as [ms HI]. unfold setLockedInto.
  assert (∀ o, o ≠ None → ∃ X, cstep c d X C C ∧ (o = None → wrote c C X k v) ∧
    (o ≠ (None : option error) → X = None ∧ C = C)) as Herr.
  { intros o Ho. exists None. split_and!; [by apply cstep_refl|done|done]. }
  destruct (g_closed (c_g C)); [by apply Herr|]. destruct (checkKeySize c k); [by apply Herr|].
  destruct (computeWeight c v) as [?|w] eqn:Hw; [by apply Herr|].
  destruct (checkTagLimits c (c_g C) ts); [by apply Herr|].
  destruct (upsert_cstep c d C ms k v w ttl sl ttl ts HI) as (X & HX & Hwr & _);
    [by eapply computeWeight_ge|]. by exists X.
Qed.

Lemma setTTLCtx_outcome c d C k v ttl :
  cache_wf c d C → d <= 0 → g_sealed (c_g C) = false →
  set_outcome c d k v C (setTTLCtx c C k v ttl).
Proof.
  intros Hwf Hd Hsl. unfold setTTLCtx, setAndStore.
  pose proof (setLocked_outcome c d C k v ttl (cf_slidingTTL c) (cf_autoTags c v) Hwf Hsl) as Hs.
  destruct (setLockedInto _ _ _ _ _ _ _) as [C1 err]. destruct Hs as (X & HX & Hok & Herr).
  destruct (locked_flush_ok c d X C C1 (shardFor c k) HX Hd) as [F1 F2].
  destruct err as [err|]; unfold set_outcome; cbn.
  - destruct (Herr ltac:(done)) as [-> _]. by apply vstep_none.
  - assert (vstep c d (Some (k, v)) C (flushAndUnlock c C1 (shardFor c k))) as Hv
      by by eapply vstep_wrote; [exact F1|apply Hok|..].
    pose proof (groups_vstep c d (cf_autoTags c v) _ (vs_wf _ _ _ _ _ Hv) Hd) as Hg.
    split; [|by apply (vs_over _ _ _ _ _ Hg)].
    exact (vstep_trans _ _ _ _ _ _ _ Hv Hg (or_intror eq_refl)).
Qed.

Lemma SetWithTTL_outcome c d C k v ttl :
  cache_wf c d C → d <= 0 → g_sealed (c_g C) = false →
  set_outcome c d k v C (SetWithTTL c C k v ttl).
Proof.
  intros. unfold SetWithTTL. case_bool_decide; [by apply vstep_refl|]. by apply setTTLCtx_outcome.
Qed.

Lemma upsertAbs_cstep c d C ms k v w at_ ts :
  cache_inv c d C ms → 1 <= w → g_sealed (c_g C) = false →
  ∃ X, cstep c d X C (locked_ C (shardFor c k) (λ g s,
    upsertWithAbsoluteExpiryLocked c g s k v w at_ ts)) ∧ wrote c C X k v.
Proof.
  intros HI Hw Hsl. unfold locked_.
  match goal with |- context [locked C ?i ?f tt] =>
    pose proof (locked_spec c d C ms i f tt (λ C' _, ∃ X, cstep c d X C C' ∧ wrote c C X k v) HI) as HL;
    destruct (locked C i f tt) as [C' []]; apply HL end; [by eapply home_lt|].
  intros s m D Hs Hm Hwf. pose proof (upsertAbs_ok c (c_g C) s m D k v w at_ ts Hwf Hw Hsl) as Hu.
  destruct (upsertWithAbsoluteExpiryLocked _ _ _ _ _ _ _ _) as [g' s'].
  apply put_some_ok in Hu; [|done].
  destruct (put_cstep c d C ms s m D k v w (default 0 at_) false ts (c_g C) g' s' HI Hs Hm Hwf Hu)
    as (X & HX & Hwr & _); try done. eauto.
Qed.

Lemma prepareOptions_ge c C k v sc ts w : prepareOptions c C k v sc = inr (ts, w) → 1 <= w.
Proof.
  unfold prepareOptions. destruct (g_closed (c_g C)); [done|]. destruct (_ && _); [done|].
  destruct (checkKeySize c k); [done|]. destruct (checkTagLimits c (c_g C) _); [done|].
  destruct (sc_weight sc) as [w0|].
  - case (_ && _); [done|]. intros [= _ <-]. apply clampWeight_bounds.
  - destruct (computeWeight c v) as [|w1] eqn:Hw; [done|]. intros [= _ <-]. by eapply computeWeight_ge.
Qed.

Lemma upsertOptions_cstep c d C ms k v sc ts w :
  cache_inv c d C ms → 1 <= w → g_sealed (c_g C) = false →
  ∃ X, cstep c d X C (locked_ C (shardFor c k) (λ g s, upsertOptions c g s k v sc ts w)) ∧ wrote c C X k v.
Proof.
  intros HI Hw Hsl. unfold upsertOptions. destruct (sc_expireAt sc) as [at_|]; [by eapply upsertAbs_cstep|].
  destruct (upsert_cstep c d C ms k v w (default (cf_defaultTTL c) (sc_ttl sc))
    (default (cf_slidingTTL c) (sc_sliding sc)) (default (cf_defaultTTL c) (sc_ttl sc)) ts HI Hw)
    as (X & HX & Hwr & _). eauto.
Qed.

Lemma setWithOptions_outcome c d C k v sc :
  cache_wf c d C → d <= 0 → g_sealed (c_g C) = false →
  set_outcome c d k v C (setWithOptions c C k v sc).
Proof.
  intros Hwf Hd Hsl. pose proof Hwf as [ms HI]. unfold setWithOptions.
  destruct (prepareOptions c C k v sc) as [er|[ts w]] eqn:Hp; [by apply vstep_refl|].
  destruct (upsertOptions_cstep c d C ms k v sc ts w HI (prepareOptions_ge _ _ _ _ _ _ _ Hp) Hsl) as (X & HX & Hwr).
  destruct (locked_flush_ok c d X C _ (shardFor c k) HX Hd) as [F1 F2].
  set (C1 := flushAndUnlock c _ _) in *. unfold set_outcome. cbn.
  assert (vstep c d (Some (k, v)) C C1) as Hv by by eapply vstep_wrote.
  pose proof (groups_vstep c d ts _ (vs_wf _ _ _ _ _ Hv) Hd) as Hg.
  split; [|by apply (vs_over _ _ _ _ _ Hg)].
  exact (vstep_trans _ _ _ _ _ _ _ Hv Hg (or_intror eq_refl)).
Qed.
End ops.
