(* ===== verification/CacheReads.v ===== *)
(** * CacheReads: Get, locked and lock-free, and the other readers

    A value [Get] returns is that of the live entry of the key, which is not
    a tombstone and has not expired at the time the call read, or may be
    served stale; a lock-free answer is the one the locked path would give. *)

From S2P Require Import Prelude Policy Storage Ttl Entry Tags Flights Shard ShardInv ShardOps ShardBulk.
From S2P Require Import Cache CacheInv CacheOps.

#[local] Open Scope Z_scope.

Section reads.
Context {K V P St T A : Type} `{Countable K, Inhabited K, Inhabited V}.
Context `{EvictionPolicy K P, ShardStore K St, TtlBackend T, AdmissionPolicy K A}.
Context `{!PolicyLaws K P, !StoreLaws K St, !TtlLaws T}.

Local Abbreviation shard_wf := (shard_wf (E := ∅)).
Local Abbreviation ok_step := (ok_step (E := ∅)).
Local Abbreviation entry := (entry K V).
Local Abbreviation config := (config K V).
Local Abbreviation globals := (globals K V A).
Local Abbreviation shard := (shard K V P St T).
Local Abbreviation cache := (cache K V P St T A).
Implicit Types (c : config) (C : cache) (g : globals) (s : shard) (e : entry) (m : gmap K loc)
  (k : K) (v : V) (X : option (K * entry)) (ms : list (gmap K loc)) (d : Z).

(** [e'] shows what [e] shows. *)
Definition same_view e e' : Prop := e_value e' = e_value e ∧ e_flags e' = e_flags e.

Lemma touchAccess_frame e now :
  let e' := (touchAccess e now).1 in
  e_key e' = e_key e ∧ same_view e e' ∧ e_weight e' = e_weight e ∧ e_tags e' = e_tags e ∧
  e_invalidated e' = e_invalidated e ∧
  ((touchAccess e now).2 = false → e_expireAt e' = e_expireAt e).
Proof. unfold touchAccess, same_view. repeat case_match; cbn; by split_and!. Qed.

Lemma touch_ok c g s m D k a e now :
  shard_wf c s m D → m !! k = Some a → sh_heap s !! a = Some e →
  ok_step c (Some (k, (touchAccess (addHit e) now).1)) g s m g (touchLocked s k a e now) m.
Proof.
  intros Hwf Hk He. unfold touchLocked.
  pose proof (touchAccess_frame (addHit e) now) as Hf.
  destruct (touchAccess (addHit e) now) as [e' sh]. cbn in Hf |- *.
  destruct Hf as (F1 & F2 & F3 & F4 & F5 & F6).
  destruct (wf_entry _ _ _ _ Hwf _ _ Hk) as (e1 & He1 & Hkey & Hwt & Hinv).
  assert (e1 = e) as -> by congruence.
  set (s1 := if sh then _ else _).
  assert (∃ D', shard_wf c s1 m D') as [D' Hw1].
  { subst s1. destruct sh.
    - eapply write_fix_wf; [exact Hwf|done..|congruence].
    - exists D. eapply write_wf; [exact Hwf|done..|congruence|by apply F6]. }
  assert (sh_storage s1 = sh_storage s ∧ sh_heap s1 = <[a := e']> (sh_heap s) ∧ sh_policy s1 = sh_policy s)
    as (E1 & E2 & E3) by (subst s1; by destruct sh).
  eapply (update_ok c g s m D k a e e' g _ D'); try done.
  - apply set_policy_wf; [done|]. rewrite E3. apply tracks_access; [apply Hwf|]. by apply elem_of_erefs.
  - lia.
  - intros Ht t Hin. apply (Ht k e); [|by rewrite F4 in Hin]. rewrite (wf_lookup _ _ _ _ _ Hwf) Hk //.
Qed.

Lemma refresh_frame c s k :
  ∃ fl nf, triggerAsyncRefreshLocked c s k = sh_set_flights s fl nf.
Proof.
  unfold triggerAsyncRefreshLocked, startRefreshLocked. assert (s = sh_set_flights s (sh_flights s) (sh_nextFlight s))
    as Hs by by destruct s. repeat case_match; eauto.
Qed.

(** Promotions of the snapshot change nothing a locked reader sees. *)
Lemma bump_ok c X g s m g' s' m' :
  ok_step c X g s m g' s' m' → ok_step c X g s m g' (bumpReadMisses s') m'.
Proof.
  intros [[D A1] A2 A3 A4 A5 A6 A7 A8].
  assert (sh_storage (bumpReadMisses s') = sh_storage s' ∧ sh_heap (bumpReadMisses s') = sh_heap s')
    as [E1 E2].
  { unfold bumpReadMisses, promoteReadMapLocked. cbn. by repeat case_match. }
  assert (∀ k, sh_lookup (bumpReadMisses s') k = sh_lookup s' k) as HL
    by (intros; by rewrite /sh_lookup E1 E2).
  constructor; try done.
  - exists D. by apply bumpReadMisses_wf.
  - intros k e. rewrite HL. apply A3.
  - by rewrite E2.
  - intros Ht k e t. rewrite HL. by apply A7.
Qed.

(** What a hit must be. *)
Definition servable c e (now : Z) : Prop :=
  e_has e flagNegative = false ∧
  (entryExpiredLocked c e now = false ∨ shouldServeStale c e now = true).

Lemma slowGet_ok c g s m D k now :
  shard_wf c s m D →
  let '(g', s', r) := slowGetLocked c g s k now in
  ∃ X m', ok_step c X g s m g' s' m' ∧
    (∀ k' e', X = Some (k', e') → k' = k ∧ ∃ e, sh_lookup s k = Some e ∧ same_view e e') ∧
    match r with
    | SlowHit v => ∃ e, sh_lookup s k = Some e ∧ servable c e now ∧ loadValue e = v
    | SlowMiss => ∀ e, sh_lookup s k = Some e →
        entryExpiredLocked c e now = true ∧ (e_has e flagNegative = true ∨ shouldServeStale c e now = false)
    | FinalMiss => ∃ e, sh_lookup s k = Some e ∧ e_has e flagNegative = true
    end.
Proof.
  intros Hwf. pose proof (wf_lookup _ _ _ _ k Hwf) as HL. unfold slowGetLocked.
  rewrite (wf_get _ _ _ _ _ Hwf). destruct (m !! k) as [a|] eqn:Hk; cbn in HL.
  2:{ exists None, m. split_and!; [by eapply ok_refl|done|]. intros e. rewrite HL. done. }
  destruct (wf_entry _ _ _ _ Hwf _ _ Hk) as (e & He & Hkey & Hwt & Hinv). rewrite He in HL |- *.
  assert (∀ e0 r0, entryExpiredLockedReason c e0 now = r0 → entryExpiredLocked c e0 now = bool_decide (is_Some r0))
    as Hex by (intros e0 r0 <-; done).
  destruct (entryExpiredLockedReason c e now) as [reason|] eqn:Hr.
  - destruct (negb (e_has e flagNegative) && shouldServeStale c e now) eqn:Hst.
    + apply andb_true_iff in Hst as [Hn%negb_true_iff Hst].
      destruct (refresh_frame c s k) as (fl & nf & Hrf). rewrite Hrf.
      exists (Some (k, addHit e)), m. split_and!.
      * assert (shard_wf c (sh_write (sh_set_flights s fl nf) a (addHit e)) m D) as Hw1.
        { eapply write_wf; [by apply supersede_ok|done..]. }
        eapply (update_ok c g s m D k a e (addHit e) _ _ D); try done.
        -- apply set_policy_wf; [done|]. apply tracks_access; [apply Hwf|]. by apply elem_of_erefs.
        -- cbn. lia.
        -- intros Ht t Hin. by apply (Ht k e).
      * intros k' e' [= <- <-]. split; [done|]. by exists e.
      * exists e. split; [done|]. split; [|done]. split; [done|by right].
    + pose proof (remove_ok c g s m D k a reason Hwf Hk) as Hrm.
      destruct (removeLocked c g s a reason) as [g1 s1]. exists None, (delete k m).
      split_and!; [by apply ok_count|done|]. intros e0. rewrite HL. intros [= <-].
      split; [by rewrite (Hex _ _ Hr)|]. by apply andb_false_iff in Hst as [Hst%negb_false_iff|Hst]; [left|right].
  - destruct (e_has e flagNegative) eqn:Hn.
    + exists None, m. split_and!; [|done|by exists e].
      apply ok_count. by eapply ok_refl.
    + set (e' := (touchAccess (addHit e) now).1).
      pose proof (touch_ok c g s m D k a e now Hwf Hk He) as Ht. fold e' in Ht.
      set (s1 := touchLocked s k a e now) in *.
      assert (∃ g2 s2, (if shouldRefreshAhead c e' now
        then (g_count g refreshAhead 1, triggerAsyncRefreshLocked c s1 k) else (g, s1)) = (g2, s2) ∧
        ok_step c (Some (k, e')) g s m g2 s2 m) as (g2 & s2 & -> & Hok).
      { destruct (refresh_frame c s1 k) as (fl & nf & ->).
        destruct (shouldRefreshAhead c e' now); eexists _, _; (split; [done|]); [|done]. by eapply ok_frame. }
      exists (Some (k, e')), m. split_and!.
      * unfold maybePromoteOnSlowHit. repeat case_match; [done..|]. by apply bump_ok.
      * intros k' e0 [= <- <-]. split; [done|]. exists e. split; [done|].
        apply (touchAccess_frame (addHit e) now).
      * exists e. split; [done|]. split; [split; [done|by left; rewrite (Hex _ _ Hr)]|].
        unfold loadValue. by rewrite (proj1 (proj1 (proj2 (touchAccess_frame (addHit e) now)))).
Qed.

(** ** The lock-free path *)

Lemma lockFree_ok c g s m D k now :
  shard_wf c s m D →
  let '(r, s') := tryLockFreeGet c s k now in
  ∃ X, ok_step c X g s m g s' m ∧
    (∀ k' e', X = Some (k', e') → k' = k ∧ ∃ e, sh_lookup s k = Some e ∧ same_view e e') ∧
    match r with
    | TermHit v => ∃ e, sh_lookup s k = Some e ∧ servable c e now ∧ loadValue e = v
    | TermMiss => sh_lookup s k = None
    | NotTerminal => s' = s
    end.
Proof.
  intros Hwf. pose proof (wf_read _ _ _ _ Hwf) as Hr. unfold read_ok in Hr. unfold tryLockFreeGet.
  assert (∃ X, ok_step c X g s m g s m ∧ (∀ k' e', X = Some (k', e') → k' = k ∧
    ∃ e, sh_lookup s k = Some e ∧ same_view e e')) as (X0 & HX0 & HX0').
  { exists None. split; [by eapply ok_refl|done]. }
  destruct (sh_read s) as [rm|]; [|by exists X0].
  destruct Hr as (_ & _ & Hr1 & Hr2).
  destruct (rm_m rm !! k) as [a|] eqn:Hk.
  2:{ exists X0. split_and!; [done..|]. destruct (rm_amended rm) eqn:Ham; [done|].
      rewrite (wf_lookup _ _ _ _ _ Hwf). destruct (m !! k) as [a|] eqn:Hmk; [|done].
      specialize (Hr2 eq_refl _ _ Hmk). congruence. }
  destruct (Hr1 _ _ Hk) as (e & He & Hek & Hi). rewrite He.
  destruct (e_invalidated e) eqn:Hinv; [by exists X0|].
  specialize (Hi eq_refl). assert (sh_lookup s k = Some e) as HL.
  { rewrite (wf_lookup _ _ _ _ _ Hwf) Hi //. }
  destruct (entryExpiredLocked c e now) eqn:Hex; [by exists X0|].
  destruct (e_has e flagNegative || e_has e flagSliding) eqn:Hfl; [by exists X0|].
  apply orb_false_iff in Hfl as [Hn _].
  destruct (PromotionNeeded _ _ || shouldRefreshAhead _ _ _); [by exists X0|].
  destruct (wf_entry _ _ _ _ Hwf _ _ Hi) as (e1 & He1 & _ & Hwt & _).
  assert (e1 = e) as -> by congruence.
  exists (Some (k, addHit e)). split_and!.
  - assert (shard_wf c (sh_write s a (addHit e)) m D) as Hw1 by by eapply write_wf.
    eapply (update_ok c g s m D k a e (addHit e) _ _ D); try done; [cbn; lia|].
    intros Ht t Hin. by apply (Ht k e).
  - intros k' e' [= <- <-]. split; [done|]. by exists e.
  - exists e. split; [done|]. split; [|done]. split; [done|by left].
Qed.

(** ** Get *)

Definition view_only X k s : Prop :=
  ∀ k' e', X = Some (k', e') → k' = k ∧ ∃ e, sh_lookup s k = Some e ∧ same_view e e'.

Lemma view_vstep c d X C C' k s :
  cstep c d X C C' → c_shards C !! shardFor c k = Some s → view_only X k s →
  (overBudget (c_g C) = false → overBudget (c_g C') = false) → vstep c d None C C'.
Proof.
  intros Hst Hs HX Ho. destruct X as [[k' e']|]; [|by apply vstep_none].
  destruct (HX _ _ eq_refl) as (-> & e & He & Hv & Hf).
  eapply vstep_same; [exact Hst|rewrite (shard_get_lookup _ _ _ _ Hs); exact He|done..].
Qed.

Lemma view_writes X k s k' : view_only X k s → writes X k' → k' = k.
Proof.
  unfold writes. destruct X as [[k0 e0]|]; [|done]. intros HX Hk'.
  destruct (HX _ _ eq_refl) as [-> _]. by injection Hk'.
Qed.

(** What [Get] answers: a servable value, or a miss that is one. *)
Definition answers c C k (now : Z) (r : option V) : Prop :=
  match r with
  | Some v => ∃ e, shard_get c C k = Some e ∧ servable c e now ∧ returnValue c (loadValue e) = v
  | None => ∀ e, shard_get c C k = Some e → ¬ servable c e now
  end.

(** The same of the lookup in memory; a final miss comes from a tombstone or
    from the lock-free path. *)
Definition found c C k (now : Z) (r : slow) : Prop :=
  match r with
  | SlowHit v => ∃ e, shard_get c C k = Some e ∧ servable c e now ∧ loadValue e = v
  | SlowMiss => ∀ e, shard_get c C k = Some e → ¬ servable c e now
  | FinalMiss => (∀ e, shard_get c C k = Some e → ¬ servable c e now) ∧
      (cf_lockFreeRead c = true ∨ ∃ e, shard_get c C k = Some e ∧ e_has e flagNegative = true)
  end.

Lemma not_servable c e now :
  entryExpiredLocked c e now = true → e_has e flagNegative = true ∨ shouldServeStale c e now = false →
  ¬ servable c e now.
Proof. intros Hx Hst [Hn [?|?]]; destruct Hst; congruence. Qed.

(** Reads of the clock, statistics and hooks. *)
Lemma env_vstep c d C C' g :
  vstep c d None C C' → g_entries g = g_entries (c_g C') → g_bytes g = g_bytes (c_g C') →
  g_tags g = g_tags (c_g C') → same_fixed (c_g C') g → vstep c d None C (set_g C' g).
Proof.
  intros Hv E1 E2 E3 (E4 & E5 & E6 & E7 & E8).
  assert (cstep c d None C' (set_g C' g)) as Hst by (apply set_g_cstep; [apply Hv|done..]).
  assert (vstep c d None C' (set_g C' g)) as Hv'.
  { apply vstep_none; [done|]. unfold overBudget. cbn. by rewrite E1 E2 E4 E5. }
  exact (vstep_trans _ _ _ _ _ _ _ Hv Hv' (or_introl eq_refl)).
Qed.

Lemma hit_frame c g k v :
  let g' := fireHit c (recordHitObserve c g k) k v in
  g_entries g' = g_entries g ∧ g_bytes g' = g_bytes g ∧ g_tags g' = g_tags g ∧ same_fixed g g'.
Proof. unfold fireHit, recordHitObserve, stat. by repeat case_match. Qed.

Lemma miss_frame c g k :
  let g' := fireMiss c (stat c g misses) k in
  g_entries g' = g_entries g ∧ g_bytes g' = g_bytes g ∧ g_tags g' = g_tags g ∧ same_fixed g g'.
Proof. unfold fireMiss, stat. by repeat case_match. Qed.

Lemma hitResult_vstep c d C C' k v : vstep c d None C C' → vstep c d None C (hitResult c C' k v).1.
Proof. intros Hv. destruct (hit_frame c (c_g C') k v) as (? & ? & ? & ?). by apply env_vstep. Qed.

Lemma missResult_vstep c d C C' k : vstep c d None C C' → vstep c d None C (missResult c C' k).1.
Proof. intros Hv. destruct (miss_frame c (c_g C') k) as (? & ? & ? & ?). by apply env_vstep. Qed.

Lemma clock_vstep c d C : cache_wf c d C → vstep c d None C (set_g C (clockNow c (c_g C)).2).
Proof. intros Hwf. apply env_vstep; [by apply vstep_refl|done..]. Qed.

Lemma slowGet_get c d C k haveNow :
  cache_wf c d C → d <= 0 →
  let '(C', r) := slowGet c C k haveNow in
  vstep c d None C C' ∧ found c C k (default (cf_clock c (g_tick (c_g C))) haveNow) r.
Proof.
  intros Hwf Hd. unfold slowGet.
  assert (vstep c d None C (needNow c C haveNow).2 ∧ c_shards (needNow c C haveNow).2 = c_shards C ∧
    (needNow c C haveNow).1 = default (cf_clock c (g_tick (c_g C))) haveNow) as (Hv & Hsh & Hnow).
  { destruct haveNow; [by split_and!; [apply vstep_refl|..]|by split_and!; [apply clock_vstep|..]]. }
  destruct (needNow c C haveNow) as [now C1]. cbn in Hv, Hsh, Hnow. subst now.
  set (now := default _ _). destruct (vs_wf _ _ _ _ _ Hv) as [ms HI].
  match goal with |- context [locked C1 ?i ?f ?dflt] =>
    pose proof (locked_spec c d C1 ms i f dflt (λ C' r, ∃ X s, cstep c d X C1 C' ∧
      c_shards C1 !! i = Some s ∧ view_only X k s ∧
      match r with
      | SlowHit v => ∃ e, sh_lookup s k = Some e ∧ servable c e now ∧ loadValue e = v
      | SlowMiss => ∀ e, sh_lookup s k = Some e → ¬ servable c e now
      | FinalMiss => ∃ e, sh_lookup s k = Some e ∧ e_has e flagNegative = true
      end) HI) as HL; destruct (locked C1 i f dflt) as [C2 r] end.
  destruct HL as (X & s & Hst & Hs & HX & Hr); [by eapply home_lt| |].
  - intros s m D Hs Hm Hw. pose proof (slowGet_ok c (c_g C1) s m D k now Hw) as Ho.
    destruct (slowGetLocked c (c_g C1) s k now) as [[g' s'] r'].
    destruct Ho as (X & m' & Hok & HX & Hr). exists X, s. split_and!; [|done|done|].
    + eapply locked_cstep; [exact HI|exact Hs|exact Hm|exact Hok|]. intros k' Hk'.
      by rewrite (view_writes _ _ _ _ HX Hk').
    + destruct r'; [done| |done]. intros e He. destruct (Hr e He). by apply not_servable.
  - destruct (locked_flush_ok c d X C1 C2 (shardFor c k) Hst Hd) as [F1 F2].
    assert (vstep c d None C1 (flushAndUnlock c C2 (shardFor c k))) as Hv2 by by eapply view_vstep.
    pose proof (vstep_trans _ _ _ _ _ _ _ Hv Hv2 (or_introl eq_refl)) as Hv3. rewrite Hsh in Hs.
    split; [done|]. unfold found. rewrite (shard_get_lookup _ _ _ _ Hs). destruct r as [v| |]; [done|done|].
    destruct Hr as (e & He & Hn). split; [|right; by exists e].
    intros e' He' [Hn' _]. assert (e' = e) as -> by congruence. congruence.
Qed.

Lemma bump_frame s :
  sh_storage (bumpReadMisses s) = sh_storage s ∧ sh_heap (bumpReadMisses s) = sh_heap s.
Proof. unfold bumpReadMisses, promoteReadMapLocked. cbn. by repeat case_match. Qed.

(** An entry without a TTL expires at no time. *)
Lemma no_ttl_time c e now now' :
  e_expireAt e = 0 → entryExpiredLocked c e now = entryExpiredLocked c e now'.
Proof. intros He. unfold entryExpiredLocked, entryExpiredLockedReason, entry_expired. by rewrite He. Qed.

Lemma fastHit_servable c s k a e now :
  fastHit c s k a e now = true → entryExpiredLocked c e now = false ∧ e_has e flagNegative = false.
Proof. unfold fastHit. rewrite !andb_true_iff !negb_true_iff. tauto. Qed.

Lemma lockedGet_get c d C k haveNow :
  cache_wf c d C → d <= 0 →
  let '(C', r) := lockedGet c C k haveNow in
  vstep c d None C C' ∧ found c C k (default (cf_clock c (g_tick (c_g C))) haveNow) r.
Proof.
  intros Hwf Hd. pose proof Hwf as [ms HI]. unfold lockedGet. set (i := shardFor c k).
  destruct (lookup_lt_is_Some_2 _ _ (home_lt _ _ _ _ k HI)) as [s Hs]. fold i in Hs. rewrite Hs.
  destruct (inv_shard _ _ _ _ _ _ HI Hs) as (m & D & Hm & Hw).
  rewrite (wf_get _ _ _ _ _ Hw). destruct (m !! k) as [a|] eqn:Hk; cbn; [|by apply slowGet_get].
  destruct (wf_entry _ _ _ _ Hw _ _ Hk) as (e & He & Hkey & Hwt & Hinv). rewrite He. cbn.
  set (b := bool_decide (haveNow = None) && _).
  set (C1 := if b then (needNow c C None).2 else C).
  set (h1 := if b then Some (needNow c C None).1 else haveNow).
  assert ((if b then let '(now, C0) := needNow c C None in (now, C0, Some now)
    else (default 0 haveNow, C, haveNow)) = (default 0 h1, C1, h1)) as Hb by (subst h1 C1; by destruct b).
  rewrite Hb.
  assert (vstep c d None C C1 ∧ c_shards C1 = c_shards C) as [Hv1 Hsh].
  { subst C1. destruct b; [by split; [apply clock_vstep|]|by split; [apply vstep_refl|]]. }
  set (now := default (cf_clock c (g_tick (c_g C))) haveNow).
  assert (shard_get c C k = Some e) as Hge.
  { by rewrite (shard_get_lookup _ _ _ _ Hs) (wf_lookup _ _ _ _ _ Hw) Hk. }
  destruct (fastHit c s k a e (default 0 h1)) eqn:Hf.
  - apply fastHit_servable in Hf as [Hx Hn]. split.
    2:{ exists e. split; [done|]. split; [|done]. split; [done|left]. rewrite -Hx.
        subst h1 b now. destruct haveNow as [n|]; cbn; [done|].
        destruct (decide (e_expireAt e = 0)) as [Hz|Hz]; [by apply no_ttl_time|].
        by rewrite bool_decide_true. }
    set (s1 := if cf_lockFreeRead c then _ else _).
    assert (ok_step c (Some (k, addHit e)) (c_g C1) s m (c_g C1) (sh_write s a (addHit e)) m) as Hok0.
    { assert (shard_wf c (sh_write s a (addHit e)) m D) as Hw1 by by eapply write_wf.
      eapply (update_ok c _ s m D k a e (addHit e) _ _ D); try done; [cbn; lia|].
      intros Ht t Hin. apply (Ht k e); [|done]. by rewrite -(shard_get_lookup c C). }
    assert (ok_step c (Some (k, addHit e)) (c_g C1) s m (c_g C1) s1 m) as Hok.
    { subst s1. destruct (cf_lockFreeRead c); [|done]. unfold recordReadMiss.
      destruct (sh_read _); [|done]. destruct (snapshotHasKey _ _); [done|by apply bump_ok]. }
    destruct (vs_wf _ _ _ _ _ Hv1) as [ms1 HI1].
    assert (c_shards C1 !! i = Some s) as Hs1 by by rewrite Hsh.
    destruct (inv_shard _ _ _ _ _ _ HI1 Hs1) as (m1 & D1 & Hm1 & Hw1).
    assert (m1 = m) as ->.
    { apply map_eq. intros k'. by rewrite -(wf_get _ _ _ _ _ Hw1) (wf_get _ _ _ _ _ Hw). }
    assert (cstep c d (Some (k, addHit e)) C1 (Cache (c_g C1) (<[i := s1]> (c_shards C1)))) as Hst.
    { eapply locked_cstep; [exact HI1|exact Hs1|exact Hm1|exact Hok|].
      by intros k' [= ->]. }
    eapply (vstep_trans _ _ _ _ _ _ _ Hv1 (view_vstep _ _ _ _ _ k s Hst Hs1 _ _) (or_introl eq_refl)).
    Unshelve.
    + intros k' e' [= <- <-]. split; [done|]. exists e. by rewrite -(shard_get_lookup c C).
    + done.
  - pose proof (slowGet_get c d C1 k h1 (vs_wf _ _ _ _ _ Hv1) Hd) as Hsl.
    destruct (slowGet c C1 k h1) as [C2 r]. destruct Hsl as [Hv2 Ha].
    split; [exact (vstep_trans _ _ _ _ _ _ _ Hv1 Hv2 (or_introl eq_refl))|].
    assert (default (cf_clock c (g_tick (c_g C1))) h1 = now) as Hn.
    { subst h1 C1 b now. destruct haveNow; cbn; [done|]. by destruct (bool_decide (e_expireAt e ≠ 0)). }
    rewrite Hn in Ha. unfold found, shard_get in *. by rewrite -Hsh.
Qed.

Lemma snapshotGet_get c d C k now :
  cache_wf c d C → d <= 0 → cf_lockFreeRead c = true →
  let '(C', r) := snapshotGet c C k now in vstep c d None C C' ∧ found c C k now r.
Proof.
  intros Hwf Hd Hlf. unfold snapshotGet. pose proof Hwf as [ms HI].
  match goal with |- context [locked C ?i ?f ?dflt] =>
    pose proof (locked_spec c d C ms i f dflt (λ C' r, vstep c d None C C' ∧ ∃ s,
      c_shards C !! i = Some s ∧
      match r with
      | TermHit v => ∃ e, sh_lookup s k = Some e ∧ servable c e now ∧ loadValue e = v
      | TermMiss => sh_lookup s k = None
      | NotTerminal => c_shards C' = c_shards C
      end) HI) as HL; destruct (locked C i f dflt) as [C2 r] end.
  destruct HL as (Hv2 & s & Hs & Hr); [by eapply home_lt| |].
  - intros s m D Hs Hm Hw. pose proof (lockFree_ok c (c_g C) s m D k now Hw) as Ho.
    destruct (tryLockFreeGet c s k now) as [r' s']. destruct Ho as (X & Hok & HX & Hr). split.
    + refine (view_vstep _ _ _ _ _ k s _ Hs HX _); [|done].
      eapply locked_cstep; [exact HI|exact Hs|exact Hm|exact Hok|]. intros k' Hk'. by rewrite (view_writes _ _ _ _ HX Hk').
    + exists s. split; [done|]. destruct r'; [|done..]. cbn. rewrite Hr. by apply list_insert_id.
  - destruct r as [| |v].
    + pose proof (lockedGet_get c d C2 k (Some now) (vs_wf _ _ _ _ _ Hv2) Hd) as Hl.
      destruct (lockedGet c C2 k (Some now)) as [C3 r]. destruct Hl as [Hv3 Ha].
      split; [exact (vstep_trans _ _ _ _ _ _ _ Hv2 Hv3 (or_introl eq_refl))|].
      cbn in Ha. unfold found, shard_get in *. by rewrite Hr in Ha.
    + split; [done|]. split; [|by left]. intros e. rewrite (shard_get_lookup _ _ _ _ Hs) Hr //.
    + split; [done|]. destruct Hr as (e & He & Hsv & <-). exists e. by rewrite (shard_get_lookup _ _ _ _ Hs).
Qed.

Lemma getMem_get c d C k :
  cache_wf c d C → d <= 0 →
  let '(C', r) := getMem c C k in
  vstep c d None C C' ∧ found c C k (cf_clock c (g_tick (c_g C))) r.
Proof.
  intros Hwf Hd. unfold getMem. destruct (cf_lockFreeRead c) eqn:Hlf; [|by apply lockedGet_get]. cbn [needNow clockNow].
  set (now := cf_clock c _). set (C1 := set_g C _). assert (vstep c d None C C1) as Hv1 by by apply clock_vstep.
  pose proof (snapshotGet_get c d C1 k now (vs_wf _ _ _ _ _ Hv1) Hd Hlf) as Hg.
  destruct (snapshotGet c C1 k now) as [C2 r]. destruct Hg as [Hv2 Hr].
  split; [exact (vstep_trans _ _ _ _ _ _ _ Hv1 Hv2 (or_introl eq_refl))|done].
Qed.

Lemma Get_get c d C k :
  cache_wf c d C → d <= 0 →
  let '(C', r) := Get c C k in
  vstep c d None C C' ∧
  if g_closed (c_g C) then r = None else answers c C k (cf_clock c (g_tick (c_g C))) r.
Proof.
  intros Hwf Hd. unfold Get. destruct (g_closed (c_g C)); [by split; [apply vstep_refl|]|].
  pose proof (getMem_get c d C k Hwf Hd) as Hg. destruct (getMem c C k) as [C1 r]. destruct Hg as [Hv Hr].
  destruct r as [v| |]; cbn [found] in Hr.
  - split; [by apply hitResult_vstep|]. destruct Hr as (e & He & Hsv & <-). by exists e.
  - split; [by apply missResult_vstep|]. exact Hr.
  - split; [by apply missResult_vstep|]. exact (proj1 Hr).
Qed.
End reads.
