(* ===== verification/CacheRun.v ===== *)
(** * CacheRun: every operation keeps the invariant

    Each of the remaining operations is shown to be a [vstep]: it keeps the
    cache well-formed and within its bounds, and shows a reader no value but
    the one it says it writes. *)

From S2P Require Import Prelude Policy Storage Ttl Entry Tags Flights Shard ShardInv ShardOps ShardBulk.
From S2P Require Import Cache CacheInv CacheOps CacheReads.

#[local] Open Scope Z_scope.

Section run.
Context {K V P St T A : Type} `{Countable K, Inhabited K, Inhabited V}.
Context `{EvictionPolicy K P, ShardStore K St, TtlBackend T, AdmissionPolicy K A}.
Context `{!PolicyLaws K P, !StoreLaws K St, !TtlLaws T}.

Local Abbreviation shard_wf := (shard_wf (E := ∅)).
Local Abbreviation ok_step := (ok_step (E := ∅)).
Local Abbreviation entry := (entry K V).
Local Abbreviation config := (config K V).
Local Abbreviation globals := (globals K V A).
Local Abbreviation shard := (shard K V P St T).
Local Abbreviation cache := (cache K V P St T A).
Implicit Types (c : config) (C : cache) (g : globals) (s : shard) (e : entry) (m : gmap K loc)
  (k : K) (v : V) (X : option (K * entry)) (W : option (K * V)) (d : Z).

(** ** One key *)

(** A step that writes [X] makes [W] the value of [k]: the key shows what it
    showed, or the new value, or nothing. *)
Definition shows X W k s : Prop :=
  match W with
  | None => ∀ k' e', X = Some (k', e') → k' = k ∧
              (e_has e' flagNegative = true ∨ ∃ e, sh_lookup s k = Some e ∧ same_view e e')
  | Some (k0, v0) => k0 = k ∧ match X with
                              | Some (k', e') => k' = k ∧ e_value e' = Some v0
                              | None => sh_lookup s k = None
                              end
  end.

Lemma shows_writes X W k s k' : shows X W k s → writes X k' → k' = k.
Proof.
  unfold shows, writes. destruct X as [[k1 e1]|]; [|done]. intros HX [= <-].
  destruct W as [[k0 v0]|]; [by destruct HX as (_ & -> & _)|]. by destruct (HX _ _ eq_refl).
Qed.

Lemma shows_visible c d X W C C' k s :
  cstep c d X C C' → c_shards C !! shardFor c k = Some s → shows X W k s →
  ∀ k' v', visible c C' k' v' →
    match W with
    | Some (k0, v0) => if decide (k' = k0) then v' = v0 else visible c C k' v'
    | None => visible c C k' v'
    end.
Proof.
  intros [A1 A2 A3 A4 A5] Hs HX k' v' (e0 & He0 & Hn & Hl). apply A2 in He0. destruct W as [[k0 v0]|].
  2:{ destruct X as [[k1 e1]|]; [|by exists e0]. case_decide; [|by exists e0]. subst.
      destruct (HX _ _ eq_refl) as [-> [|(e & He & Hv & Hf)]]; [congruence|].
      exists e. rewrite (shard_get_lookup _ _ _ _ Hs). unfold e_has, loadValue in *. by rewrite -Hf -Hv. }
  destruct HX as [-> HX]. destruct X as [[k1 e1]|].
  - destruct HX as (-> & Hv). case_decide; [|by exists e0]. subst. unfold loadValue. by rewrite Hv.
  - case_decide as Hd; [|by exists e0]. subst. rewrite (shard_get_lookup _ _ _ _ Hs) in He0. congruence.
Qed.

Lemma shows_vstep c d X W C C' k s :
  cstep c d X C C' → c_shards C !! shardFor c k = Some s → shows X W k s →
  (overBudget (c_g C) = false → overBudget (c_g C') = false) → vstep c d W C C'.
Proof. intros Hst Hs HX Ho. pose proof Hst as [A1 A2 A3 A4 A5]. constructor; try done. by eapply shows_visible. Qed.

Lemma shows_None W k s : W = None → shows None W k s.
Proof. by intros ->. Qed.

Lemma idle_shows c g s m D k :
  shard_wf c s m D → ∃ X m', ok_step c X g s m g s m' ∧ shows X None k s.
Proof. intros Hw. exists None, m. split; [by eapply ok_refl|by apply shows_None]. Qed.

(** A locked routine on the shard of [k], and the unlock. *)
Lemma key_vstep {R} c d C k (f : globals → shard → globals * shard * R) dflt
    (W : R → option (K * V)) (Q : shard → R → Prop) :
  cache_wf c d C → d <= 0 →
  (∀ s m D, shard_wf c s m D →
     let '(g', s', r) := f (c_g C) s in
     (∃ X m', ok_step c X (c_g C) s m g' s' m' ∧ shows X (W r) k s) ∧ Q s r) →
  let '(C', r) := locked C (shardFor c k) f dflt in
  vstep c d (W r) C (flushAndUnlock c C' (shardFor c k)) ∧
  overBudget (c_g (flushAndUnlock c C' (shardFor c k))) = false ∧
  ∃ s, c_shards C !! shardFor c k = Some s ∧ Q s r.
Proof.
  intros [ms HI] Hd Hf. set (i := shardFor c k).
  pose proof (locked_spec c d C ms i f dflt (λ C' r, ∃ X s, cstep c d X C C' ∧
    c_shards C !! i = Some s ∧ shows X (W r) k s ∧ Q s r) HI (home_lt _ _ _ _ k HI)) as HL.
  destruct (locked C i f dflt) as [C' r]. destruct HL as (X & s & Hst & Hs & HX & HQ).
  - intros s m D Hs Hm Hw. specialize (Hf s m D Hw). destruct (f (c_g C) s) as [[g' s'] r'].
    destruct Hf as [(X & m' & Hok & HX) HQ]. exists X, s. split_and!; try done.
    eapply locked_cstep; [exact HI|exact Hs|exact Hm|exact Hok|].
    intros k' Hk'. by rewrite (shows_writes _ _ _ _ _ HX Hk').
  - destruct (locked_flush_ok c d X C C' i Hst Hd) as [F1 F2].
    split_and!; [by eapply shows_vstep|done|]. by exists s.
Qed.

Lemma Delete_vstep c d C k :
  cache_wf c d C → d <= 0 →
  let '(C', b) := Delete c C k in
  vstep c d None C C' ∧
  (g_closed (c_g C) = false →
     shard_get c C' k = None ∧ b = bool_decide (is_Some (shard_get c C k))).
Proof.
  intros Hwf Hd. unfold Delete, deleteKey.
  destruct (g_closed (c_g C)); [by split; [apply vstep_refl|]|].
  destruct Hwf as [ms HI]. set (i := shardFor c k).
  match goal with |- context [locked C i ?f ?dflt] =>
    pose proof (locked_spec c d C ms i f dflt (λ C' b, cstep c d None C C' ∧ shard_get c C' k = None ∧
      b = bool_decide (is_Some (shard_get c C k))) HI (home_lt _ _ _ _ k HI)) as HL;
    destruct (locked C i f dflt) as [C' b] end.
  destruct HL as (H1' & H2' & H3').
  - intros s m D Hs Hm Hw. pose proof (removeKey_ok c (c_g C) s m D k EvictReasonDeleted Hw) as Hr.
    destruct (removeKeyLocked _ _ _ _ _) as [[g' s'] b']. destruct Hr as [Hok ->].
    destruct (os_wf _ _ _ _ _ _ _ _ Hok) as [D' Hw'].
    assert (cstep c d None C (Cache g' (<[i:=s']> (c_shards C)))) as Hst by by eapply locked_cstep.
    split_and!; [done| |].
    + rewrite (shard_get_lookup _ _ _ s'); [|by cbn; rewrite list_lookup_insert_eq; [|by eapply lookup_lt_Some]].
      rewrite (wf_lookup _ _ _ _ _ Hw') lookup_delete_eq //.
    + rewrite (shard_get_lookup _ _ _ _ Hs) (wf_lookup _ _ _ _ _ Hw). apply bool_decide_ext.
      destruct (m !! k) as [a|] eqn:Hk; cbn; [|done].
      destruct (wf_entry _ _ _ _ Hw _ _ Hk) as (e & -> & _). by split.
  - destruct (locked_flush_ok c d None C C' i H1' Hd) as [F1 F2].
    split; [by apply vstep_none|]. intros _. split; [|done].
    destruct (flush_ok c d C' i (cs_wf _ _ _ _ _ H1') Hd) as [G1 _].
    destruct (shard_get c (flushAndUnlock c C' i) k) as [e|] eqn:He; [|done].
    apply G1 in He. congruence.
Qed.

Lemma deleteIf_shows c g s m D k pred now :
  shard_wf c s m D →
  let '(g', s', b) := deleteIfLocked c g s k pred now in
  ∃ X m', ok_step c X g s m g' s' m' ∧ shows X None k s.
Proof.
  intros Hw. unfold deleteIfLocked. rewrite (wf_get _ _ _ _ _ Hw).
  pose proof (idle_shows c g s m D k Hw) as Hno.
  destruct (m !! k) as [a|] eqn:Hk; [|done].
  destruct (freshAt _ _ _) as [e|]; [|done]. destruct (negb _); [done|].
  pose proof (remove_ok c g s m D k a EvictReasonDeleted Hw Hk) as Hr.
  destruct (removeLocked _ _ _ _ _) as [g' s']. exists None, (delete k m).
  split; [by apply ok_count|by apply shows_None].
Qed.

Lemma DeleteIf_vstep c d C k pred :
  cache_wf c d C → d <= 0 → vstep c d None C (DeleteIf c C k pred).1.
Proof.
  intros Hwf Hd. unfold DeleteIf. destruct (g_closed (c_g C)); [by apply vstep_refl|].
  pose proof (clock_vstep c d C Hwf) as Hv. cbn in Hv |- *. set (now := cf_clock c _).
  set (C1 := set_g C _) in *.
  match goal with |- context [locked C1 _ ?f ?dflt] =>
    pose proof (key_vstep c d C1 k f dflt (λ _, None) (λ _ _, True) (vs_wf _ _ _ _ _ Hv) Hd) as HL;
    destruct (locked C1 _ f dflt) as [C' b] end.
  cbn. refine (vstep_trans _ _ _ _ _ _ _ Hv (proj1 (HL _)) (or_introl eq_refl)).
  intros s m D Hw. pose proof (deleteIf_shows c (c_g C1) s m D k pred now Hw) as Hs.
  by destruct (deleteIfLocked _ _ _ _ _ _) as [[g' s'] b'].
Qed.

Lemma touchKey_shows c g s m D k ttlOf now :
  shard_wf c s m D →
  let '(g', s', b) := touchKeyLocked c g s k ttlOf now in
  ∃ X m', ok_step c X g s m g' s' m' ∧ shows X None k s.
Proof.
  intros Hw. unfold touchKeyLocked. rewrite (wf_get _ _ _ _ _ Hw).
  pose proof (idle_shows c g s m D k Hw) as Hno.
  destruct (m !! k) as [a|] eqn:Hk; [|done].
  destruct (wf_entry _ _ _ _ Hw _ _ Hk) as (e & He & _). rewrite He.
  destruct (freshAt _ _ _) as [e1|]; [|done].
  pose proof (refreshExpiry_ok c g s m D k a e now (ttlOf e1) Hw Hk He) as Hr.
  destruct (refreshExpiryLocked _ _ _ _ _ _) as [g' s']. destruct Hr as (x & Hok & _).
  exists (Some (k, set_times e x now)), m. split; [done|].
  intros k' e' [= <- <-]. split; [done|]. right. exists e. split; [|done].
  by rewrite (wf_lookup _ _ _ _ _ Hw) Hk.
Qed.

Lemma touchKey_vstep c d C k ttlOf :
  cache_wf c d C → d <= 0 → vstep c d None C (touchKey c C k ttlOf).1.
Proof.
  intros Hwf Hd. unfold touchKey.
  pose proof (clock_vstep c d C Hwf) as Hv. cbn in Hv |- *. set (now := cf_clock c _).
  set (C1 := set_g C _) in *.
  match goal with |- context [locked C1 _ ?f ?dflt] =>
    pose proof (key_vstep c d C1 k f dflt (λ _, None) (λ _ _, True) (vs_wf _ _ _ _ _ Hv) Hd) as HL;
    destruct (locked C1 _ f dflt) as [C' b] end.
  cbn. refine (vstep_trans _ _ _ _ _ _ _ Hv (proj1 (HL _)) (or_introl eq_refl)).
  intros s m D Hw. pose proof (touchKey_shows c (c_g C1) s m D k ttlOf now Hw) as Hs.
  by destruct (touchKeyLocked _ _ _ _ _ _) as [[g' s'] b'].
Qed.

(** ** Conditional writes *)

Lemma freshEntry_frame c g s m D k :
  shard_wf c s m D →
  let '(g', o) := freshEntryLocked c g s k in
  (∃ t, g' = g_env g t (g_rtick g) (g_fx g)) ∧
  match o with
  | Some (a, e) => m !! k = Some a ∧ sh_heap s !! a = Some e ∧ servable c e (cf_clock c (g_tick g))
  | None => ∀ e, sh_lookup s k = Some e →
      e_has e flagNegative = true ∨ entryExpiredLocked c e (cf_clock c (g_tick g)) = true
  end.
Proof.
  intros Hw. assert (∃ t, g = g_env g t (g_rtick g) (g_fx g)) as Hg by (exists (g_tick g); by destruct g).
  unfold freshEntryLocked. rewrite (wf_get _ _ _ _ _ Hw).
  destruct (m !! k) as [a|] eqn:Hk; cbn.
  2:{ split; [done|]. intros e. rewrite (wf_lookup _ _ _ _ _ Hw) Hk //. }
  destruct (wf_entry _ _ _ _ Hw _ _ Hk) as (e & He & _). rewrite He. cbn.
  assert (sh_lookup s k = Some e) as HL by by rewrite (wf_lookup _ _ _ _ _ Hw) Hk.
  destruct (e_has e flagNegative) eqn:Hn.
  { split; [done|]. intros e'. rewrite HL. intros [= <-]. by left. }
  split; [by eexists|]. destruct (entryExpiredLocked c e _) eqn:Hx.
  - intros e'. rewrite HL. intros [= <-]. by right.
  - split_and!; [done..|]. split; [done|by left].
Qed.

Lemma upsertDefault_shows c g g1 s m D k v w :
  shard_wf c s m D → 1 <= w → g_sealed g = false → (∃ t, g1 = g_env g t (g_rtick g) (g_fx g)) →
  let '(g', s') := upsertDefault c g1 s k v w in
  ∃ X m', ok_step c X g s m g' s' m' ∧ shows X (Some (k, v)) k s.
Proof.
  intros Hw Hwt Hsl [t ->]. unfold upsertDefault.
  destruct (effectiveTTL_frame c (g_env g t (g_rtick g) (g_fx g)) (cf_defaultTTL c)) as [rt Hrt].
  destruct (effectiveTTL _ _ _) as [ettl g1]. cbn in Hrt. subst g1.
  pose proof (upsert_ok c (g_env g t rt (g_fx g)) s m D k v w ettl (cf_slidingTTL c) (cf_defaultTTL c)
    (cf_autoTags c v) Hw Hwt) as Hu.
  destruct (upsertLocked _ _ _ _ _ _ _ _ _ _) as [g' s']. destruct Hu as (X & m' & Hok & HX).
  exists X, m'. split; [by eapply ok_pre|]. split; [done|]. destruct X as [[k' e]|].
  - destruct HX as (-> & Hwr & _). split; [done|]. apply Hwr.
  - destruct HX as [HX|[HX _]]; [cbn in HX; congruence|]. rewrite (wf_lookup _ _ _ _ _ Hw) HX //.
Qed.

Lemma checkWrite_ge c C k v w : checkWrite c C k v = inr w → 1 <= w.
Proof.
  unfold checkWrite. destruct (g_closed _); [done|]. destruct (checkKeySize c k); [done|].
  destruct (computeWeight c v) as [|w'] eqn:Hw; [done|]. destruct (checkTagLimits _ _ _); [done|].
  intros [= <-]. by eapply computeWeight_ge.
Qed.

(** What the four methods share: [f] runs on the shard of the key once the
    checks passed. *)
Lemma conditional_vstep {R} c d C k (f : globals → shard → globals * shard * R) dflt
    (W : R → option (K * V)) :
  cache_wf c d C → d <= 0 →
  (∀ s m D, shard_wf c s m D →
     let '(g', s', r) := f (c_g C) s in
     ∃ X m', ok_step c X (c_g C) s m g' s' m' ∧ shows X (W r) k s) →
  let '(C', r) := locked C (shardFor c k) f dflt in
  vstep c d (W r) C (flushAndUnlock c C' (shardFor c k)).
Proof.
  intros Hwf Hd Hf. pose proof (key_vstep c d C k f dflt W (λ _ _, True) Hwf Hd) as HL.
  destruct (locked C _ f dflt) as [C' r]. apply HL. intros s m D Hw. specialize (Hf s m D Hw).
  by destruct (f (c_g C) s) as [[g' s'] r'].
Qed.

(** The value a conditional write that answered [b] wrote. *)
Definition wroteIf (b : bool) k v : option (K * V) := if b then Some (k, v) else None.

Lemma setIfAbsent_shows c g s m D k v w :
  shard_wf c s m D → 1 <= w → g_sealed g = false →
  let '(g', s', b) := setIfAbsentLocked c k v w g s in
  ∃ X m', ok_step c X g s m g' s' m' ∧ shows X (wroteIf b k v) k s.
Proof.
  intros Hw Hge Hsl. unfold setIfAbsentLocked. pose proof (freshEntry_frame c g s m D k Hw) as Hfr.
  destruct (freshEntryLocked c g s k) as [g1 [[a e]|]]; destruct Hfr as [[t ->] _].
  - exists None, m. split; [|by apply shows_None]. eapply ok_frame; [by eapply ok_refl|done..].
  - pose proof (upsertDefault_shows c g _ s m D k v w Hw Hge Hsl (ex_intro _ t eq_refl)) as Hu.
    by destruct (upsertDefault _ _ _ _ _ _) as [g' s'].
Qed.

Lemma setIfPresent_shows c g s m D k v w :
  shard_wf c s m D → 1 <= w → g_sealed g = false →
  let '(g', s', b) := setIfPresentLocked c k v w g s in
  ∃ X m', ok_step c X g s m g' s' m' ∧ shows X (wroteIf b k v) k s.
Proof.
  intros Hw Hge Hsl. unfold setIfPresentLocked. pose proof (freshEntry_frame c g s m D k Hw) as Hfr.
  destruct (freshEntryLocked c g s k) as [g1 [[a e]|]]; destruct Hfr as [[t ->] _].
  - pose proof (upsertDefault_shows c g _ s m D k v w Hw Hge Hsl (ex_intro _ t eq_refl)) as Hu.
    by destruct (upsertDefault _ _ _ _ _ _) as [g' s'].
  - exists None, m. split; [|by apply shows_None]. eapply ok_frame; [by eapply ok_refl|done..].
Qed.

Lemma getOrSet_shows c g s m D k v w :
  shard_wf c s m D → 1 <= w → g_sealed g = false →
  let '(g', s', r) := getOrSetLocked c k v w g s in
  ∃ X m', ok_step c X g s m g' s' m' ∧ shows X (wroteIf (negb r.2) k v) k s.
Proof.
  intros Hw Hge Hsl. unfold getOrSetLocked. pose proof (freshEntry_frame c g s m D k Hw) as Hfr.
  destruct (freshEntryLocked c g s k) as [g1 [[a e]|]]; destruct Hfr as [[t ->] Hr].
  - destruct Hr as (Hk & He & _). cbn. set (now := cf_clock c t).
    exists (Some (k, (touchAccess (addHit e) now).1)), m. split.
    + eapply ok_frame; [by eapply (touch_ok c g s m D k a e now)|done..| | | |];
        unfold stat; by destruct (cf_statsEnabled c).
    + intros k' e' [= <- <-]. split; [done|]. right. exists e.
      rewrite (wf_lookup _ _ _ _ _ Hw) Hk. split; [done|]. apply (touchAccess_frame (addHit e) now).
  - pose proof (upsertDefault_shows c g _ s m D k v w Hw Hge Hsl (ex_intro _ t eq_refl)) as Hu.
    by destruct (upsertDefault _ _ _ _ _ _) as [g' s'].
Qed.

Lemma peekOrAdd_shows c g s m D k v w :
  shard_wf c s m D → 1 <= w → g_sealed g = false →
  let '(g', s', r) := peekOrAddLocked c k v w g s in
  ∃ X m', ok_step c X g s m g' s' m' ∧ shows X (wroteIf (negb r.2) k v) k s.
Proof.
  intros Hw Hge Hsl. unfold peekOrAddLocked. pose proof (freshEntry_frame c g s m D k Hw) as Hfr.
  destruct (freshEntryLocked c g s k) as [g1 [[a e]|]]; destruct Hfr as [[t ->] Hr].
  - exists None, m. split; [|by apply shows_None]. eapply ok_frame; [by eapply ok_refl|done..].
  - pose proof (upsertDefault_shows c g _ s m D k v w Hw Hge Hsl (ex_intro _ t eq_refl)) as Hu.
    by destruct (upsertDefault _ _ _ _ _ _) as [g' s'].
Qed.

Lemma SetIfAbsent_vstep c d C k v :
  cache_wf c d C → d <= 0 → g_sealed (c_g C) = false →
  let '(C', r) := SetIfAbsent c C k v in
  vstep c d (match r with inr b => wroteIf b k v | inl _ => None end) C C'.
Proof.
  intros Hwf Hd Hsl. unfold SetIfAbsent. destruct (checkWrite c C k v) as [er|w] eqn:Hck; [by apply vstep_refl|].
  pose proof (conditional_vstep c d C k (setIfAbsentLocked c k v w) false (λ b, wroteIf b k v) Hwf Hd) as HL.
  destruct (locked C _ _ _) as [C' b]. apply HL. intros s m D Hw.
  apply (setIfAbsent_shows c (c_g C) s m D k v w Hw); [by eapply checkWrite_ge|done].
Qed.

Lemma SetIfPresent_vstep c d C k v :
  cache_wf c d C → d <= 0 → g_sealed (c_g C) = false →
  let '(C', r) := SetIfPresent c C k v in
  vstep c d (match r with inr b => wroteIf b k v | inl _ => None end) C C'.
Proof.
  intros Hwf Hd Hsl. unfold SetIfPresent. destruct (checkWrite c C k v) as [er|w] eqn:Hck; [by apply vstep_refl|].
  pose proof (conditional_vstep c d C k (setIfPresentLocked c k v w) false (λ b, wroteIf b k v) Hwf Hd) as HL.
  destruct (locked C _ _ _) as [C' b]. apply HL. intros s m D Hw.
  apply (setIfPresent_shows c (c_g C) s m D k v w Hw); [by eapply checkWrite_ge|done].
Qed.

Lemma GetOrSet_vstep c d C k v :
  cache_wf c d C → d <= 0 → g_sealed (c_g C) = false →
  let '(C', r) := GetOrSet c C k v in
  vstep c d (match r with inr (_, b) => wroteIf (negb b) k v | inl _ => None end) C C'.
Proof.
  intros Hwf Hd Hsl. unfold GetOrSet. destruct (checkWrite c C k v) as [er|w] eqn:Hck; [by apply vstep_refl|].
  pose proof (conditional_vstep c d C k (getOrSetLocked c k v w) (v, false) (λ r, wroteIf (negb r.2) k v) Hwf Hd) as HL.
  destruct (locked C _ _ _) as [C' [v' b]]. apply HL. intros s m D Hw.
  apply (getOrSet_shows c (c_g C) s m D k v w Hw); [by eapply checkWrite_ge|done].
Qed.

Lemma PeekOrAdd_vstep c d C k v :
  cache_wf c d C → d <= 0 → g_sealed (c_g C) = false →
  let '(C', r) := PeekOrAdd c C k v in
  vstep c d (match r with inr (_, b) => wroteIf (negb b) k v | inl _ => None end) C C'.
Proof.
  intros Hwf Hd Hsl. unfold PeekOrAdd. destruct (checkWrite c C k v) as [er|w] eqn:Hck; [by apply vstep_refl|].
  pose proof (conditional_vstep c d C k (peekOrAddLocked c k v w) (v, false) (λ r, wroteIf (negb r.2) k v) Hwf Hd) as HL.
  destruct (locked C _ _ _) as [C' [v' b]]. apply HL. intros s m D Hw.
  apply (peekOrAdd_shows c (c_g C) s m D k v w Hw); [by eapply checkWrite_ge|done].
Qed.

(** ** Loops over the shards *)

Lemma each_vstep {R} c d C (f : cache → nat → R → cache * R) r :
  cache_wf c d C → (∀ C0 i r0, cache_wf c d C0 → vstep c d None C0 (f C0 i r0).1) →
  vstep c d None C (eachShard C f r).1.
Proof.
  intros Hwf Hf. unfold eachShard. generalize (seq 0 (length (c_shards C))) as l. intros l.
  revert C r Hwf. induction l as [|i l IH]; intros C r Hwf; cbn; [by apply vstep_refl|].
  specialize (Hf C i r Hwf) as Hv. destruct (f C i r) as [C1 r1]. cbn in Hv.
  exact (vstep_trans _ _ _ _ _ _ _ Hv (IH C1 r1 (vs_wf _ _ _ _ _ Hv)) (or_introl eq_refl)).
Qed.

(** A locked routine on any shard that writes nothing, and the unlock. *)
Lemma shard_vstep {R} c d C i (f : globals → shard → globals * shard * R) dflt :
  cache_wf c d C → d <= 0 →
  (∀ s m D, shard_wf c s m D →
     let '(g', s', r) := f (c_g C) s in ∃ m', ok_step c None (c_g C) s m g' s' m') →
  vstep c d None C (flushAndUnlock c (locked C i f dflt).1 i).
Proof.
  intros Hwf Hd Hf. pose proof Hwf as [ms HI]. unfold locked.
  assert (∀ C', cstep c d None C C' → vstep c d None C (flushAndUnlock c C' i)) as Hfin.
  { intros C' Hst. destruct (locked_flush_ok c d None C C' i Hst Hd) as [F1 F2]. by apply vstep_none. }
  destruct (c_shards C !! i) as [s|] eqn:Hs; [|by apply Hfin, cstep_refl].
  destruct (inv_shard _ _ _ _ _ _ HI Hs) as (m & D & Hm & Hw). specialize (Hf s m D Hw).
  destruct (f (c_g C) s) as [[g' s'] r]. destruct Hf as [m' Hok]. apply Hfin. by eapply locked_cstep.
Qed.

Lemma clearAll_vstep c d C b : cache_wf c d C → d <= 0 → vstep c d None C (clearAll c b C).
Proof.
  intros Hwf Hd. apply each_vstep; [done|]. intros C0 i _ Hwf0. cbn. apply shard_vstep; [done..|].
  intros s m D Hw. pose proof (clearShard_ok c b (c_g C0) s m D Hw) as Hc.
  destruct (clearShardLocked _ _ _ _) as [g' s']. by exists ∅.
Qed.

Lemma Clear_vstep c d C : cache_wf c d C → d <= 0 → vstep c d None C (Clear c C).
Proof.
  intros. unfold Clear. destruct (g_closed (c_g C)); [by apply vstep_refl|by apply clearAll_vstep].
Qed.

Lemma Reset_vstep c d C : cache_wf c d C → d <= 0 → vstep c d None C (Reset_ c C).
Proof.
  intros Hwf Hd. unfold Reset_. set (C1 := set_g C _).
  assert (vstep c d None C C1) as Hv by (apply env_vstep; [by apply vstep_refl|done..]).
  pose proof (clearAll_vstep c d C1 false (vs_wf _ _ _ _ _ Hv) Hd) as Hv'.
  exact (vstep_trans _ _ _ _ _ _ _ Hv Hv' (or_introl eq_refl)).
Qed.

Lemma DeleteExpired_vstep c d C : cache_wf c d C → d <= 0 → vstep c d None C (DeleteExpired c C).1.
Proof.
  intros Hwf Hd. unfold DeleteExpired. destruct (g_closed (c_g C)); [by apply vstep_refl|].
  pose proof (clock_vstep c d C Hwf) as Hv. cbn in Hv |- *. set (now := cf_clock c _). set (C1 := set_g C _) in *.
  refine (vstep_trans _ _ _ _ _ _ _ Hv (each_vstep _ _ _ _ _ (vs_wf _ _ _ _ _ Hv) _) (or_introl eq_refl)).
  intros C0 i n Hwf0. match goal with |- context [locked C0 i ?f ?dflt] =>
    pose proof (shard_vstep c d C0 i f dflt Hwf0 Hd) as HL; destruct (locked C0 i f dflt) as [C' k] end.
  apply HL. intros s m D Hw. pose proof (deleteExpired_ok c (c_g C0) s m D now Hw) as Ho.
  destruct (deleteExpiredLocked _ _ _ _) as [[g' s'] r]. destruct Ho as (m' & Hok & _). by exists m'.
Qed.

Lemma janitor_vstep c d C i : cache_wf c d C → d <= 0 → vstep c d None C (janitorTick c C i).
Proof.
  intros Hwf Hd. unfold janitorTick.
  pose proof (clock_vstep c d C Hwf) as Hv. cbn in Hv |- *. set (now := cf_clock c _). set (C1 := set_g C _) in *.
  match goal with |- context [locked C1 i ?f ?dflt] =>
    pose proof (shard_vstep c d C1 i f dflt (vs_wf _ _ _ _ _ Hv) Hd) as HL;
    destruct (locked C1 i f dflt) as [C' k] end.
  refine (vstep_trans _ _ _ _ _ _ _ Hv (HL _) (or_introl eq_refl)).
  intros s m D Hw. pose proof (sweep_ok c (c_g C1) s m D now Hw) as Ho.
  destruct (sweepExpiredLocked _ _ _ _) as [[g' s'] r]. destruct Ho as (m' & Hok & _). by exists m'.
Qed.

(** ** Tags *)

Lemma removeKeys_vstep c d C ks r :
  cache_wf c d C → d <= 0 →
  let '(C', n) := removeKeys c C ks r in
  vstep c d None C C' ∧ (∀ k, k ∈ ks → shard_get c C' k = None) ∧
  (∀ k e, shard_get c C' k = Some e → shard_get c C k = Some e).
Proof.
  intros Hwf Hd. unfold removeKeys. generalize 0 as n. revert C Hwf.
  induction ks as [|k ks IH]; intros C Hwf n; cbn.
  { split_and!; [by apply vstep_refl|set_solver|done]. }
  pose proof (removeKey_cstep c d C k r Hwf Hd) as Hr.
  destruct (removeKey c C k r) as [C1 b]. destruct Hr as (R1 & R2 & R3 & _).
  specialize (IH C1 (cs_wf _ _ _ _ _ R1) (if b then n + 1 else n)).
  destruct (foldl _ _ _) as [C' n']. destruct IH as (I1 & I2 & I3).
  assert (∀ k' e, shard_get c C' k' = Some e → shard_get c C k' = Some e) as Hsub.
  { intros k' e He. by apply (cs_effect _ _ _ _ _ R1), I3. }
  split_and!; [|intros k' [->|Hk']%elem_of_cons; [|by apply I2]|done].
  - assert (vstep c d None C C1) as Hv by by apply vstep_none.
    exact (vstep_trans _ _ _ _ _ _ _ Hv I1 (or_introl eq_refl)).
  - destruct (shard_get c C' k) as [e|] eqn:He; [|done]. apply I3 in He. congruence.
Qed.

Lemma finishInvalidate_vstep c d C (C' : cache) n tags :
  vstep c d None C C' → vstep c d None C (finishInvalidate c (C', n) tags).1.
Proof.
  intros Hv. unfold finishInvalidate. case_bool_decide; [|done]. cbn.
  apply env_vstep; [done|by destruct (cf_events c)..].
Qed.

Lemma finishInvalidate_get c (C' : cache) n tags k :
  shard_get c (finishInvalidate c (C', n) tags).1 k = shard_get c C' k.
Proof. unfold finishInvalidate. by case_bool_decide. Qed.

Lemma InvalidateTag_vstep c d C t : cache_wf c d C → d <= 0 → vstep c d None C (InvalidateTag c C t).1.
Proof.
  intros Hwf Hd. unfold InvalidateTag. destruct (g_closed (c_g C)); [by apply vstep_refl|].
  set (C1 := set_g C _).
  assert (vstep c d None C C1) as Hv by (apply env_vstep; [by apply vstep_refl|done..]).
  pose proof (removeKeys_vstep c d C1 (ti_snapshot (g_tags (c_g C1)) t) EvictReasonTag
    (vs_wf _ _ _ _ _ Hv) Hd) as Hr. destruct (removeKeys _ _ _ _) as [C2 n]. destruct Hr as (R1 & _).
  apply finishInvalidate_vstep. exact (vstep_trans _ _ _ _ _ _ _ Hv R1 (or_introl eq_refl)).
Qed.

Lemma InvalidateTags_vstep c d C ts : cache_wf c d C → d <= 0 → vstep c d None C (InvalidateTags c C ts).1.
Proof.
  intros Hwf Hd. unfold InvalidateTags. destruct (g_closed (c_g C) || _); [by apply vstep_refl|].
  set (C1 := set_g C _).
  assert (vstep c d None C C1) as Hv by (apply env_vstep; [by apply vstep_refl|done..]).
  match goal with |- context [removeKeys c C1 ?ks ?r] =>
    pose proof (removeKeys_vstep c d C1 ks r (vs_wf _ _ _ _ _ Hv) Hd) as Hr;
    destruct (removeKeys c C1 ks r) as [C2 n] end. destruct Hr as (R1 & _).
  apply finishInvalidate_vstep. exact (vstep_trans _ _ _ _ _ _ _ Hv R1 (or_introl eq_refl)).
Qed.

(** The index still covers an entry after the untag of tags it does not
    carry. *)
Lemma untag_fold (idx : tagIndex K) k (cur tags : list string) t k' :
  tagged idx t k' → (k' = k → t ∈ cur) →
  tagged (foldl (λ idx t, if decide (t ∈ cur) then idx else ti_untag idx k [t]) idx tags) t k'.
Proof.
  intros Ht Hcur. revert idx Ht. induction tags as [|t0 tags IH]; intros idx Ht; cbn; [done|].
  apply IH. case_decide; [done|]. apply tagged_untag. split; [|done]. set_solver.
Qed.

Lemma applyUntag_vstep c d C op : cache_wf c d C → vstep c d None C (applyUntag c C op).
Proof.
  intros [ms HI]. destruct op as [k tags]. unfold applyUntag. 
  set (cur := match shard_get c C k with Some e => e_tags e | None => [] end).
  set (g' := g_set_tags _ _ _ _). pose proof HI as [I1 I2 I3 I4 I5 I6 I7 I8].
  apply vstep_none; [|done]. constructor; [|by intros ??|done..]. exists ms. constructor; try done.
  intros i s Hs k' e t He Hin. cbn. apply untag_fold; [by eapply (I8 i s)|]. intros ->.
  destruct (inv_shard _ _ _ _ _ _ HI Hs) as (m & D & Hm & Hw).
  assert (shardFor c k = i) as Hi.
  { eapply I5; [exact Hm|]. rewrite (wf_lookup _ _ _ _ _ Hw) in He. by destruct (m !! k). }
  unfold cur. rewrite (shard_get_lookup _ _ _ s); [|by rewrite Hi]. by rewrite He.
Qed.

Lemma drain_vstep c d C : cache_wf c d C → vstep c d None C (drainUntag c C).
Proof.
  intros Hwf. unfold drainUntag. destruct (g_untagQueue (c_g C)) as [|op q]; [by apply vstep_refl|].
  set (C1 := set_g C _).
  assert (vstep c d None C C1) as Hv by (apply env_vstep; [by apply vstep_refl|done..]).
  exact (vstep_trans _ _ _ _ _ _ _ Hv (applyUntag_vstep _ _ _ op (vs_wf _ _ _ _ _ Hv)) (or_introl eq_refl)).
Qed.

(** ** Loads *)

(** What a load may write under [k]. *)
Definition load_writes k (r : loadResult V) W : Prop :=
  W = None ∨ ∃ v ttl, r = LoadOk v ttl ∧ W = Some (k, v).

Lemma prepareLoaded_ge c v w ts : prepareLoaded c v = Some (w, ts) → 1 <= w.
Proof. unfold prepareLoaded. case_match; [done|]. intros [= <- _]. apply weighOf_ge. Qed.

Lemma storeLoaded_shows c g s m D k v ttl :
  shard_wf c s m D → g_sealed g = false →
  let '(g', s') := storeLoadedLocked c g s k v ttl (prepareLoaded c v) in
  ∃ X m' W, ok_step c X g s m g' s' m' ∧ shows X W k s ∧ (W = None ∨ W = Some (k, v)).
Proof.
  intros Hw Hsl. unfold storeLoadedLocked. destruct (prepareLoaded c v) as [[w ts]|] eqn:Hp.
  2:{ exists None, m, None. split_and!; [by eapply ok_refl|by apply shows_None|by left]. }
  set (ttl' := if bool_decide _ then _ else _). set (tags := match ts with [] => _ | _ => _ end).
  destruct (effectiveTTL_frame c g ttl') as [rt Hrt].
  destruct (effectiveTTL c g ttl') as [ettl g1]. cbn in Hrt. subst g1.
  pose proof (upsert_ok c (g_env g (g_tick g) rt (g_fx g)) s m D k v w ettl (cf_slidingTTL c) ttl'
    tags Hw (prepareLoaded_ge _ _ _ _ Hp)) as Hu.
  destruct (upsertLocked _ _ _ _ _ _ _ _ _ _) as [g' s']. destruct Hu as (X & m' & Hok & HX).
  exists X, m', (Some (k, v)). split; [by eapply ok_pre|]. split; [|by right]. split; [done|].
  destruct X as [[k' e]|].
  - destruct HX as (-> & Hwr & _). split; [done|]. apply Hwr.
  - destruct HX as [HX|[HX _]]; [cbn in HX; congruence|]. rewrite (wf_lookup _ _ _ _ _ Hw) HX //.
Qed.

(** A load stores at most the value it loaded; a tombstone over a live
    entry is excluded. *)
Lemma applyLoad_shows c g s m D k f r :
  shard_wf c s m D → g_sealed g = false →
  (r = LoadNotFound → cf_negativeTTL c <= 0 ∨ m !! k = None) →
  let '(g', s') := applyLoadResultLocked c g s k f r in
  ∃ X m' W, ok_step c X g s m g' s' m' ∧ shows X W k s ∧ load_writes k r W.
Proof.
  intros Hw Hsl Hneg. unfold applyLoadResultLocked.
  assert (∃ X m' W, ok_step c X g s m g s m' ∧ shows X W k s ∧ load_writes k r W) as Hno.
  { exists None, m, None. split_and!; [by eapply ok_refl|by apply shows_None|by left]. }
  destruct (bool_decide _ || g_closed g); [done|]. destruct r as [v ttl| | |]; [| |done|].
  - pose proof (storeLoaded_shows c g s m D k v ttl Hw Hsl) as Hs.
    destruct (storeLoadedLocked _ _ _ _ _ _ _) as [g' s']. destruct Hs as (X & m' & W & H1' & H2' & H3').
    exists X, m', W. split_and!; [done..|]. destruct H3'; [by left|right]. by exists v, ttl.
  - case_bool_decide; [|done]. destruct (Hneg eq_refl) as [?|Hk]; [lia|].
    pose proof (tombstone_insert_ok c g s m D k Hw Hsl Hk) as Ht.
    destruct (insertNegativeTombstoneLocked _ _ _ _) as [g' s']. destruct Ht as (e & m' & Hok & Htb).
    exists (Some (k, e)), m', None. split_and!; [done| |by left].
    intros k' e' [= <- <-]. split; [done|]. left. apply Htb.
  - case_bool_decide; [|done]. unfold cacheErrorLocked. cbn. exists None, m, None.
    split_and!; [|by apply shows_None|by left]. eapply ok_frame; [by eapply ok_refl|done..].
Qed.

Lemma finishLoad_vstep c d C k f r :
  cache_wf c d C → d <= 0 → g_sealed (c_g C) = false →
  (r = LoadNotFound → cf_negativeTTL c <= 0 ∨ shard_get c C k = None) →
  ∃ W, vstep c d W C (finishLoad c C k f r) ∧ load_writes k r W.
Proof.
  intros Hwf Hd Hsl Hneg. pose proof Hwf as [ms HI]. unfold finishLoad, locked_.
  match goal with |- context [locked C ?i ?f ?dflt] =>
    pose proof (locked_spec c d C ms i f dflt (λ C' _, ∃ X s W, cstep c d X C C' ∧
      c_shards C !! i = Some s ∧ shows X W k s ∧ load_writes k r W) HI (home_lt _ _ _ _ k HI)) as HL;
    destruct (locked C i f dflt) as [C' u] end. cbn.
  destruct HL as (X & s & W & Hst & Hs & HX & HW).
  - intros s m D Hs Hm Hw. set (s1 := sh_set_flights s _ _).
    set (g1 := stat c (stat c (c_g C) loadsTotal) _).
    assert (g_entries g1 = g_entries (c_g C) ∧ g_bytes g1 = g_bytes (c_g C) ∧ same_fixed (c_g C) g1 ∧
      g_tags g1 = g_tags (c_g C) ∧ g_sealed g1 = false) as (G1 & G2 & G3 & G4 & G5).
    { subst g1. unfold stat. by destruct (cf_statsEnabled c). }
    pose proof (applyLoad_shows c g1 s1 m D k f r) as Ha.
    destruct (applyLoadResultLocked c g1 s1 k f r) as [g' s'].
    destruct Ha as (X & m' & W & Hok & HX & HW); [by apply supersede_ok|done| |].
    { intros Hr. destruct (Hneg Hr) as [|Hk]; [by left|right].
      rewrite (shard_get_lookup _ _ _ _ Hs) (wf_lookup _ _ _ _ _ Hw) in Hk.
      destruct (m !! k) as [a|] eqn:Hka; [|done].
      destruct (wf_entry _ _ _ _ Hw _ _ Hka) as (e & He & _). cbn in Hk. congruence. }
    exists X, s, W. split_and!; [|done..].
    eapply locked_cstep; [exact HI|exact Hs|exact Hm| |intros k' Hk'; by rewrite (shows_writes _ _ _ _ _ HX Hk')].
    eapply ok_pre; [|done..]. destruct Hok as [A1 A2 A3 A4 A5 A6 A7 A8]. by constructor.
  - destruct (locked_flush_ok c d X C C' (shardFor c k) Hst Hd) as [F1 F2].
    exists W. split; [by eapply shows_vstep|done].
Qed.

(** ** Any operation *)
End run.
