(* ===== verification/CacheKeep.v ===== *)
(** * CacheKeep: a write is kept

    The other files bound what the cache may show; this one says what it
    must show.  When the bounds have room for the entry and the admission
    policy takes it, a Set leaves the new value readable and every other key
    as it was; a Get of a live entry is a hit. *)

From S2P Require Import Prelude Policy Storage Ttl Entry Tags Flights Shard ShardInv ShardOps ShardBulk.
From S2P Require Import Cache CacheInv CacheOps CacheReads.

#[local] Open Scope Z_scope.

Section keep.
Context {K V P St T A : Type} `{Countable K, Inhabited K, Inhabited V}.
Context `{EvictionPolicy K P, ShardStore K St, TtlBackend T, AdmissionPolicy K A}.
Context `{!PolicyLaws K P, !StoreLaws K St, !TtlLaws T}.

Local Abbreviation shard_wf := (shard_wf (E := ∅)).
Local Abbreviation ok_step := (ok_step (E := ∅)).
Local Abbreviation entry := (entry K V).
Local Abbreviation config := (config K V).
Local Abbreviation globals := (globals K V A).
Local Abbreviation shard := (shard K V P St T).
Local Abbreviation cache := (cache K V P St T A).
Implicit Types (c : config) (C : cache) (g : globals) (s : shard) (e : entry) (m : gmap K loc)
  (k : K) (v : V) (X : option (K * entry)) (ms : list (gmap K loc)) (d : Z).

(** A step that lost no key changed nothing but what it wrote. *)
Lemma ok_exact c g s m D k e g' s' m' :
  shard_wf c s m D → ok_step c (Some (k, e)) g s m g' s' m' →
  size m' = size (<[k := 1%positive]> m) →
  sh_lookup s' k = Some e ∧ ∀ k', k' ≠ k → sh_lookup s' k' = sh_lookup s k'.
Proof.
  intros Hw [[D' A1] A2 A3 A4 A5 A6 A7 A8] Hsz.
  assert (dom m' = dom (<[k := 1%positive]> m)) as Hdom.
  { apply set_subseteq_size_eq; [|by rewrite !size_dom Hsz].
    intros k'. rewrite !elem_of_dom. intros [Hk|Hk]%A2.
    - by apply lookup_insert_is_Some'; right.
    - injection Hk as <-. by rewrite lookup_insert_eq. }
  assert (∀ k', is_Some (m' !! k') ↔ k' = k ∨ is_Some (m !! k')) as Hin.
  { intros k'. rewrite -!elem_of_dom Hdom dom_insert_L. set_solver. }
  assert (∀ k', is_Some (m' !! k') → ∃ e', sh_lookup s' k' = Some e') as Hget.
  { intros k' [a Ha]. destruct (wf_entry _ _ _ _ A1 _ _ Ha) as (e' & He' & _). exists e'.
    by rewrite (wf_lookup _ _ _ _ _ A1) Ha. }
  split.
  - destruct (Hget k) as [e' He']; [apply Hin; auto|]. rewrite He'. apply A3 in He'.
    rewrite decide_True // in He'. by subst.
  - intros k' Hne. destruct (m !! k') as [a|] eqn:Hk.
    + destruct (Hget k') as [e' He']; [apply Hin; right; by rewrite Hk|]. rewrite He'. apply A3 in He'.
      by rewrite decide_False // in He'.
    + rewrite (wf_lookup _ _ _ _ _ A1) (wf_lookup _ _ _ _ _ Hw) Hk.
      destruct (m' !! k') eqn:Hk'; [|done]. destruct (proj1 (Hin k')) as [|[? ?]]; [by rewrite Hk'|done|congruence].
Qed.

(** Room for one more entry of weight [w] in the shard of [k]. *)
Definition room c C k (w : Z) : Prop :=
  (∀ s, c_shards C !! shardFor c k = Some s →
     sh_budget s <= 0 ∨ st_length (sh_storage s) < sh_budget s) ∧
  (g_maxEntries (c_g C) <= 0 ∨ g_entries (c_g C) < g_maxEntries (c_g C)) ∧
  (g_maxBytes (c_g C) <= 0 ∨ g_bytes (c_g C) + w <= g_maxBytes (c_g C)).

(** The key is there, or the admission policy takes it. *)
Definition admitted c C k : Prop :=
  is_Some (shard_get c C k) ∨ Admit (g_admission (c_g C)) k = true.

(** Within the bounds the unlock only fires the callbacks. *)
Lemma flush_get c C i k :
  overBudget (c_g C) = false → shard_get c (flushAndUnlock c C i) k = shard_get c C k.
Proof.
  intros Ho. unfold flushAndUnlock, shedOverBudget. cbn [shed_passes]. rewrite releaseShard_over Ho. cbn.
  unfold releaseShard, locked_, locked, shard_get. destruct (c_shards C !! i) as [s|] eqn:Hs; [|done].
  cbn. destruct (decide (shardFor c k = i)) as [->|Hk]; [|by rewrite list_lookup_insert_ne].
  rewrite list_lookup_insert_eq; [|by eapply lookup_lt_Some]. by rewrite Hs.
Qed.

Lemma flush_entries c C i :
  overBudget (c_g C) = false → g_entries (c_g (flushAndUnlock c C i)) = g_entries (c_g C).
Proof.
  intros Ho. unfold flushAndUnlock, shedOverBudget. cbn [shed_passes]. rewrite releaseShard_over Ho. cbn.
  unfold releaseShard, locked_, locked. by destruct (c_shards C !! i).
Qed.

(** The locked part of a write that has room. *)
Lemma upsert_keeps c d C k v w ttl sl raw ts :
  cache_wf c d C → 1 <= w → g_sealed (c_g C) = false → admitted c C k → room c C k w →
  let C' := locked_ C (shardFor c k) (λ g s,
    let '(ettl, g) := effectiveTTL c g ttl in upsertLocked c g s k v w ettl sl raw ts) in
  overBudget (c_g C') = false ∧
  (∃ e, shard_get c C' k = Some e ∧ written k v w
      (let ettl := (effectiveTTL c (c_g C) ttl).1 in
       if bool_decide (0 < ettl) then i64 (cf_clock c (g_tick (c_g C)) + ettl) else 0) sl ts e) ∧
  ∀ k', k' ≠ k → shard_get c C' k' = shard_get c C k'.
Proof.
  intros [ms HI] Hw Hsl Had Hroom. set (i := shardFor c k).
  destruct (lookup_lt_is_Some_2 _ _ (home_lt _ _ _ _ k HI)) as [s Hs]. fold i in Hs.
  destruct (inv_shard _ _ _ _ _ _ HI Hs) as (m & D & Hm & Hwf).
  unfold locked_, locked. rewrite Hs. destruct (effectiveTTL_frame c (c_g C) ttl) as [rt Hrt].
  destruct (effectiveTTL c (c_g C) ttl) as [ettl g1]. cbn in Hrt |- *. subst g1.
  set (g1 := g_env _ _ _ _).
  pose proof (upsert_ok c g1 s m D k v w ettl sl raw ts Hwf Hw) as Hu.
  destruct (upsertLocked _ _ _ _ _ _ _ _ _ _) as [g' s']. destruct Hu as (X & m' & Hok & HX). cbn.
  destruct Hroom as (R1 & R2 & R3). specialize (R1 s Hs). rewrite (wf_length _ _ _ _ Hwf) in R1.
  destruct X as [[k' e]|].
  2:{ exfalso. destruct HX as [HX|[Hk HX]]; [cbn in HX; congruence|]. destruct Had as [[e He]|Had].
      - rewrite (shard_get_lookup _ _ _ _ Hs) (wf_lookup _ _ _ _ _ Hwf) Hk in He. done.
      - cbn in HX. congruence. }
  destruct HX as (-> & Hwr & _ & Hfit). destruct Hfit as [Hsz Hby]; [by split_and!|].
  destruct (ok_exact _ _ _ _ _ _ _ _ _ _ Hwf Hok Hsz) as [X1 X2].
  assert (i < length (c_shards C))%nat as Hi by by eapply lookup_lt_Some.
  split_and!.
  - pose proof (os_entries _ _ _ _ _ _ _ _ Hok) as He. cbn in He, Hby.
    destruct (os_fixed _ _ _ _ _ _ _ _ Hok) as (M1 & M2 & _). cbn in M1, M2.
    assert (size m' <= S (size m))%nat by (rewrite Hsz map_size_insert; destruct (m !! k); cbn; lia).
    unfold overBudget. rewrite M1 M2. repeat case_bool_decide; cbn; try done; lia.
  - exists e. split; [|done]. rewrite (shard_get_lookup _ _ _ s') //. cbn. by rewrite list_lookup_insert_eq.
  - intros k' Hne. destruct (decide (shardFor c k' = i)) as [Hk'|Hk'].
    + rewrite (shard_get_lookup _ _ _ s'); [|by cbn; rewrite Hk' list_lookup_insert_eq].
      rewrite (shard_get_lookup _ _ _ s); [|by rewrite Hk']. by apply X2.
    + unfold shard_get. cbn. by rewrite list_lookup_insert_ne.
Qed.
End keep.
