(* ===== verification/CacheBulk.v ===== *)
(** * CacheBulk: what the whole-cache operations remove

    [Clear] empties the cache, [DeleteExpired] removes exactly the expired
    entries, [InvalidateTag] every entry that carries the tag. *)

From S2P Require Import Prelude Policy Storage Ttl Entry Tags Flights Shard ShardInv ShardOps ShardBulk.
From S2P Require Import Cache CacheInv CacheOps CacheReads CacheRun CacheKeep.

#[local] Open Scope Z_scope.

Section bulk.
Context {K V P St T A : Type} `{Countable K, Inhabited K, Inhabited V}.
Context `{EvictionPolicy K P, ShardStore K St, TtlBackend T, AdmissionPolicy K A}.
Context `{!PolicyLaws K P, !StoreLaws K St, !TtlLaws T}.

Local Abbreviation shard_wf := (shard_wf (E := ∅)).
Local Abbreviation ok_step := (ok_step (E := ∅)).
Local Abbreviation entry := (entry K V).
Local Abbreviation config := (config K V).
Local Abbreviation globals := (globals K V A).
Local Abbreviation shard := (shard K V P St T).
Local Abbreviation cache := (cache K V P St T A).
Implicit Types (c : config) (C : cache) (g : globals) (s : shard) (e : entry) (m : gmap K loc) (k : K) (d : Z).

Lemma mweight_sub (h h' : gmap loc entry) m m' :
  (∀ k a', m' !! k = Some a' → ∃ a, m !! k = Some a ∧ weight_at h' a' = weight_at h a) →
  (∀ k a, m !! k = Some a → 0 <= weight_at h a) → mweight h' m' <= mweight h m.
Proof.
  revert m. induction m' as [|k a' m' Hk IH] using map_ind; intros m Hs Hp.
  - rewrite mweight_empty. clear Hs. induction m as [|k a m Hk IH] using map_ind; [by rewrite mweight_empty|].
    rewrite mweight_insert //. assert (0 <= weight_at h a) by (apply (Hp k); by rewrite lookup_insert_eq).
    assert (0 <= mweight h m); [|lia]. apply IH. intros k' b Hb. apply (Hp k').
    rewrite lookup_insert_ne //. congruence.
  - destruct (Hs k a') as (a & Ha & Hwt); [by rewrite lookup_insert_eq|].
    rewrite mweight_insert // Hwt. assert (mweight h' m' <= mweight h (delete k m)); [|rewrite (mweight_delete _ _ _ a) // in H6; lia].
    apply IH.
    + intros k' b' Hb'. assert (k ≠ k') as Hne by congruence. destruct (Hs k' b') as (b & Hb & ?); [by rewrite lookup_insert_ne|].
      exists b. by rewrite lookup_delete_ne.
    + intros k' b [_ Hb]%lookup_delete_Some. by apply (Hp k').
Qed.

Lemma ok_weight c g s m D g' s' m' :
  shard_wf c s m D → ok_step c None g s m g' s' m' → mweight (sh_heap s') m' <= mweight (sh_heap s) m.
Proof.
  intros Hw Hok. pose proof Hok as [[D' A1] A2 A3 _ _ _ _ _]. apply mweight_sub.
  - intros k a' Ha'. destruct (wf_entry _ _ _ _ A1 _ _ Ha') as (e & He & _).
    assert (sh_lookup s k = Some e) as HL by (apply A3; rewrite (wf_lookup _ _ _ _ _ A1) Ha' //).
    rewrite (wf_lookup _ _ _ _ _ Hw) in HL. destruct (m !! k) as [a|] eqn:Ha; [|done]. exists a. split; [done|].
    unfold weight_at. cbn in HL. by rewrite He HL.
  - intros k a Ha. destruct (wf_entry _ _ _ _ Hw _ _ Ha) as (e & He & _ & Hwt & _). unfold weight_at. rewrite He. lia.
Qed.

(** One turn of a loop over the shards that filters shard [i]: entries of
    other shards stay, those of shard [i] stay when [Q] holds. *)
Definition filtered c (Q : entry → bool) (i : nat) C C' : Prop :=
  ∀ k, shard_get c C' k = if decide (shardFor c k = i)
                          then (shard_get c C k ≫= λ e, if Q e then Some e else None)
                          else shard_get c C k.

Lemma filter_turn {R} c d C i (f : globals → shard → globals * shard * R) dflt (Q : entry → bool) :
  cache_wf c d C → d <= 0 → overBudget (c_g C) = false →
  (∀ s m D, c_shards C !! i = Some s → shard_wf c s m D →
     let '(g', s', r) := f (c_g C) s in
     (∃ m', ok_step c None (c_g C) s m g' s' m') ∧
     ∀ k, sh_lookup s' k = sh_lookup s k ≫= λ e, if Q e then Some e else None) →
  (i < length (c_shards C))%nat →
  let C' := flushAndUnlock c (locked C i f dflt).1 i in
  vstep c d None C C' ∧ overBudget (c_g C') = false ∧ filtered c Q i C C' ∧
  g_entries (c_g C') = g_entries (c_g (locked C i f dflt).1).
Proof.
  intros Hwf Hd Ho Hf Hi. pose proof Hwf as [ms HI]. unfold locked.
  destruct (lookup_lt_is_Some_2 _ _ Hi) as [s Hs]. rewrite Hs.
  destruct (inv_shard _ _ _ _ _ _ HI Hs) as (m & D & Hm & Hw). specialize (Hf s m D Hs Hw).
  destruct (f (c_g C) s) as [[g' s'] r]. destruct Hf as [[m' Hok] HQ]. cbn.
  set (C1 := Cache g' _). assert (cstep c d None C C1) as Hst by by eapply locked_cstep.
  destruct (locked_flush_ok c d None C C1 i Hst Hd) as [F1 F2].
  assert (overBudget (c_g C1) = false) as Ho1.
  { destruct (os_fixed _ _ _ _ _ _ _ _ Hok) as (M1 & M2 & _).
    pose proof (os_entries _ _ _ _ _ _ _ _ Hok) as E1. pose proof (os_bytes _ _ _ _ _ _ _ _ Hok) as E2.
    pose proof (ok_size _ _ _ _ _ _ _ Hok) as E3. pose proof (ok_weight _ _ _ _ _ _ _ _ Hw Hok) as E4.
    unfold overBudget in *. cbn. rewrite M1 M2. repeat case_bool_decide; cbn in *; try done; lia. }
  split_and!; [by apply vstep_none|done| |by apply flush_entries]. intros k. rewrite flush_get //.
  case_decide as Hk.
  - rewrite (shard_get_lookup _ _ _ s'); [|by cbn; rewrite Hk list_lookup_insert_eq].
    rewrite (shard_get_lookup _ _ _ s); [|by rewrite Hk]. apply HQ.
  - unfold shard_get. cbn. by rewrite list_lookup_insert_ne.
Qed.

(** The whole loop: every entry is filtered once, and the result keeps the
    relation [I] to the cache. *)
Lemma filter_walk {R} c d C (F : cache → nat → R → cache * R) r0 (Q : entry → bool) (I : cache → R → Prop) :
  cache_wf c d C → overBudget (c_g C) = false → I C r0 →
  (∀ C0 i r, cache_wf c d C0 → overBudget (c_g C0) = false → (i < length (c_shards C0))%nat → I C0 r →
     let '(C1, r1) := F C0 i r in
     vstep c d None C0 C1 ∧ overBudget (c_g C1) = false ∧ filtered c Q i C0 C1 ∧ I C1 r1) →
  let '(C', r') := eachShard C F r0 in
  I C' r' ∧ ∀ k, shard_get c C' k = shard_get c C k ≫= λ e, if Q e then Some e else None.
Proof.
  intros Hwf Ho HI HF. unfold eachShard. set (n := length (c_shards C)).
  assert (∀ l C0 r, cache_wf c d C0 → overBudget (c_g C0) = false → length (c_shards C0) = n → I C0 r →
    NoDup l → (∀ i, i ∈ l → (i < n)%nat) →
    let '(C', r') := foldl (λ '(C, r) i, F C i r) (C0, r) l in
    I C' r' ∧ ∀ k, shard_get c C' k = if decide (shardFor c k ∈ l)
      then (shard_get c C0 k ≫= λ e, if Q e then Some e else None) else shard_get c C0 k) as HL.
  { induction l as [|i l IH]; intros C0 r Hwf0 Ho0 Hn HI0 Hnd Hl; [done|]. cbn [foldl].
    apply NoDup_cons in Hnd as [Hi Hnd].
    assert (i < length (c_shards C0))%nat as Hlt by (rewrite Hn; apply Hl; left).
    specialize (HF C0 i r Hwf0 Ho0 Hlt HI0). destruct (F C0 i r) as [C1 r1]. destruct HF as (T1 & T2 & T3 & T4).
    specialize (IH C1 r1). destruct (foldl _ (C1, r1) l) as [C2 r2]. destruct IH as [I1 I2]; try done.
    { by apply T1. } { by rewrite (vs_len _ _ _ _ _ T1). } { intros j Hj. apply Hl. by right. }
    split; [done|]. intros k. rewrite I2 T3. destruct (decide (shardFor c k = i)) as [<-|Hne].
    - rewrite decide_False //. rewrite decide_True //. left.
    - destruct (decide (shardFor c k ∈ l)) as [Hin|Hin].
      + rewrite decide_True //. by right.
      + rewrite decide_False //. by intros [?|?]%elem_of_cons. }
  specialize (HL (seq 0 n) C r0 Hwf Ho eq_refl HI (NoDup_seq _ _)).
  destruct (foldl _ (C, r0) (seq 0 n)) as [C' r']. destruct HL as [L1 L2]; [intros i Hi%elem_of_seq; lia|].
  split; [done|]. intros k. rewrite L2 decide_True //. apply elem_of_seq. destruct Hwf as [ms HI'].
  pose proof (home_lt _ _ _ _ k HI'). unfold n. lia.
Qed.

Lemma filter_loop {R} c d C (f : globals → shard → globals * shard * R) dflt (upd : R → R → R) r0 (Q : entry → bool) :
  cache_wf c d C → d <= 0 → overBudget (c_g C) = false →
  (∀ g s m D, shard_wf c s m D →
     let '(g', s', r) := f g s in
     (∃ m', ok_step c None g s m g' s' m') ∧
     ∀ k, sh_lookup s' k = sh_lookup s k ≫= λ e, if Q e then Some e else None) →
  let C' := (eachShard C (λ C i r, let '(C, n) := locked C i f dflt in (flushAndUnlock c C i, upd r n)) r0).1 in
  ∀ k, shard_get c C' k = shard_get c C k ≫= λ e, if Q e then Some e else None.
Proof.
  intros Hwf Hd Ho Hf. cbv zeta. set (F := λ C i r, _).
  pose proof (filter_walk c d C F r0 Q (λ _ _, True) Hwf Ho I) as HL.
  destruct (eachShard C F r0) as [C' r']. apply HL. intros C0 i r Hwf0 Ho0 Hi _. unfold F.
  destruct (filter_turn c d C0 i f dflt Q Hwf0 Hd Ho0) as (T1 & T2 & T3 & _); [|done|].
  { intros s m D _ Hw. exact (Hf (c_g C0) s m D Hw). }
  by destruct (locked C0 i f dflt) as [C1 x].
Qed.

(** The number of entries a turn removed. *)
Lemma locked_count {R} c d C i (f : globals → shard → globals * shard * R) dflt (n : R → Z) :
  cache_wf c d C → (i < length (c_shards C))%nat →
  (∀ s m D, c_shards C !! i = Some s → shard_wf c s m D →
     let '(g', s', r) := f (c_g C) s in
     ∃ m', ok_step c None (c_g C) s m g' s' m' ∧ n r = Z.of_nat (size m) - Z.of_nat (size m')) →
  n (locked C i f dflt).2 = g_entries (c_g C) - g_entries (c_g (locked C i f dflt).1).
Proof.
  intros [ms HI] Hi Hf. unfold locked. destruct (lookup_lt_is_Some_2 _ _ Hi) as [s Hs]. rewrite Hs.
  destruct (inv_shard _ _ _ _ _ _ HI Hs) as (m & D & Hm & Hw). specialize (Hf s m D Hs Hw).
  destruct (f (c_g C) s) as [[g' s'] r]. destruct Hf as (m' & Hok & Hn). cbn.
  pose proof (os_entries _ _ _ _ _ _ _ _ Hok). lia.
Qed.

Lemma clearAll_get c b C k :
  cache_wf c 0 C → overBudget (c_g C) = false → shard_get c (clearAll c b C) k = None.
Proof.
  intros Hwf Ho. unfold clearAll.
  pose proof (filter_loop c 0 C (λ g s, (clearShardLocked c b g s, tt)) tt (λ _ _, tt) tt (λ _, false)
    Hwf (Z.le_refl 0) Ho) as HL. cbv zeta in HL. unfold locked_.
  transitivity (shard_get c C k ≫= (λ _, None) : option entry); [|by destruct (shard_get c C k)]. rewrite -HL.
  - f_equal. unfold eachShard. f_equal. generalize (seq 0 (length (c_shards C))) as l. intros l.
    generalize (C, tt) as p. induction l as [|i l IH]; intros [C0 []]; cbn; [done|]. rewrite IH. f_equal.
    by destruct (locked C0 i _ tt).
  - intros g s m D Hw. pose proof (clearShard_ok c b g s m D Hw) as Hc.
    destruct (clearShardLocked c b g s) as [g' s']. split; [by exists ∅|]. intros k'.
    destruct (os_wf _ _ _ _ _ _ _ _ Hc) as [D' Hw']. rewrite (wf_lookup _ _ _ _ _ Hw') lookup_empty.
    by destruct (sh_lookup s k').
Qed.

Lemma Clear_get c C k :
  cache_wf c 0 C → overBudget (c_g C) = false → g_closed (c_g C) = false → shard_get c (Clear c C) k = None.
Proof. intros Hwf Ho Hcl. unfold Clear. rewrite Hcl. by apply clearAll_get. Qed.

Lemma Reset_get c C k : cache_wf c 0 C → overBudget (c_g C) = false → shard_get c (Reset_ c C) k = None.
Proof.
  intros Hwf Ho. unfold Reset_. set (C1 := set_g C _).
  assert (vstep c 0 None C C1) as Hv by (apply env_vstep; [by apply vstep_refl|done..]).
  apply clearAll_get; [apply Hv|done].
Qed.

Lemma DeleteExpired_get c C k :
  cache_wf c 0 C → overBudget (c_g C) = false → g_closed (c_g C) = false →
  shard_get c (DeleteExpired c C).1 k =
    shard_get c C k ≫= λ e, if negb (entry_expired e (cf_clock c (g_tick (c_g C)))) then Some e else None.
Proof.
  intros Hwf Ho Hcl. unfold DeleteExpired. rewrite Hcl.
  pose proof (clock_vstep c 0 C Hwf) as Hv. cbn -[eachShard] in Hv |- *. set (now := cf_clock c _).
  set (C1 := set_g C _) in *.
  rewrite (filter_loop c 0 C1 (λ g s, deleteExpiredLocked c g s now) 0 Z.add 0
    (λ e, negb (entry_expired e now)) (vs_wf _ _ _ _ _ Hv) (Z.le_refl 0)); [done..|].
  intros g s m D Hw. pose proof (deleteExpired_ok c g s m D now Hw) as Hc.
  destruct (deleteExpiredLocked c g s now) as [[g' s'] n]. destruct Hc as (m' & Hok & _ & Hx).
  split; [by exists m'|]. intros k'. destruct (sh_lookup s k') as [e|] eqn:He; cbn.
  - destruct (Hx k' e He) as [X1 X2]. destruct (entry_expired e now); cbn; [by apply X2|by apply X1].
  - destruct (sh_lookup s' k') as [e|] eqn:He'; [|done]. apply (os_effect _ _ _ _ _ _ _ _ Hok) in He'. congruence.
Qed.

(** The index covers the entries, so every tagged entry goes. *)
Lemma InvalidateTag_get c C t k e :
  cache_wf c 0 C → g_closed (c_g C) = false →
  shard_get c (InvalidateTag c C t).1 k = Some e → shard_get c C k = Some e ∧ t ∉ e_tags e.
Proof.
  intros Hwf Hcl. unfold InvalidateTag. rewrite Hcl. set (C1 := set_g C _).
  assert (vstep c 0 None C C1) as Hv by (apply env_vstep; [by apply vstep_refl|done..]).
  pose proof (removeKeys_vstep c 0 C1 (ti_snapshot (g_tags (c_g C1)) t) EvictReasonTag
    (vs_wf _ _ _ _ _ Hv) (Z.le_refl 0)) as Hr. destruct (removeKeys _ _ _ _) as [C2 n]. destruct Hr as (_ & R2 & R3).
  rewrite finishInvalidate_get. intros He. pose proof (R3 _ _ He) as He'. split; [done|]. intros Ht.
  assert (shard_get c C2 k = None) as Hn; [|congruence]. apply R2, elem_of_snapshot.
  destruct Hwf as [ms HI]. destruct (lookup_lt_is_Some_2 _ _ (home_lt _ _ _ _ k HI)) as [s Hs].
  apply (ci_tags _ _ _ _ HI _ _ Hs k e); [|done]. by rewrite -(shard_get_lookup _ _ _ _ Hs).
Qed.

(** A cache that shows nothing holds nothing. *)
Lemma empty_counters c d C ms :
  cache_inv c d C ms → (∀ k, shard_get c C k = None) → g_entries (c_g C) = 0 ∧ g_bytes (c_g C) = d.
Proof.
  intros HI Hn. assert (∀ i m, ms !! i = Some m → m = ∅) as Hm.
  { intros i m Hm. apply map_empty. intros k. destruct (m !! k) as [a|] eqn:Hk; [|done]. exfalso.
    destruct (lookup_lt_is_Some_2 (c_shards C) i) as [s Hs].
    { rewrite -(ci_len _ _ _ _ HI). by eapply lookup_lt_Some. }
    destruct (ci_wf _ _ _ _ HI _ _ _ Hs Hm) as [D Hw].
    assert (shardFor c k = i) as Hi by (eapply ci_home; [exact HI|exact Hm|by rewrite Hk]).
    destruct (wf_entry _ _ _ _ Hw _ _ Hk) as (e & He & _). specialize (Hn k).
    rewrite (shard_get_lookup _ _ _ s) in Hn; [|by rewrite Hi].
    rewrite (wf_lookup _ _ _ _ _ Hw) Hk in Hn. cbn in Hn. congruence. }
  rewrite (ci_entries _ _ _ _ HI) (ci_bytes _ _ _ _ HI). split.
  - apply sumZ_zero. intros x. rewrite /sizes list_elem_of_fmap. intros (m & -> & [i Hi]%list_elem_of_lookup_1).
    by rewrite (Hm _ _ Hi).
  - rewrite sumZ_zero //. intros x [i Hi]%list_elem_of_lookup_1. unfold weights in Hi.
    apply lookup_zip_with_Some in Hi as (s & m & -> & _ & Hmi). rewrite (Hm _ _ Hmi). apply mweight_empty.
Qed.
End bulk.
