(* ===== verification/BulkInv.v ===== *)
(** * BulkInv: what the walks visit and the conditional deletes remove

    [Range] and [Keys] meet every live entry once; [DeleteWhere] and
    [DeletePrefix] remove precisely the entries that satisfy their condition
    and count them; the multi-key operations are sequences of single ones. *)

From S2P Require Import Prelude Policy Storage Ttl Entry Tags Flights Shard ShardInv ShardOps ShardBulk.
From S2P Require Import Cache Bulk Loads Run CacheInv CacheOps CacheReads CacheRun CacheKeep CacheBulk.

#[local] Open Scope Z_scope.

Section bulk.
Context {K V P St T A : Type} `{Countable K, Inhabited K, Inhabited V}.
Context `{EvictionPolicy K P, ShardStore K St, TtlBackend T, AdmissionPolicy K A}.
Context `{!PolicyLaws K P, !StoreLaws K St, !TtlLaws T}.

Local Abbreviation shard_wf := (shard_wf (E := ∅)).
Local Abbreviation ok_step := (ok_step (E := ∅)).
Local Abbreviation entry := (entry K V).
Local Abbreviation config := (config K V).
Local Abbreviation globals := (globals K V A).
Local Abbreviation shard := (shard K V P St T).
Local Abbreviation cache := (cache K V P St T A).
Implicit Types (c : config) (C : cache) (g : globals) (s : shard) (e : entry) (m : gmap K loc) (k : K) (v : V) (d : Z).

(** ** Reading with the expiry *)

Lemma freshAt_Some c now (o : option entry) e : freshAt c now o = Some e ↔
  o = Some e ∧ entryExpiredLocked c e now = false ∧ e_has e flagNegative = false.
Proof.
  destruct o as [e'|]; cbn; [|by split; [|intros [? _]]].
  destruct (entryExpiredLocked c e' now || e_has e' flagNegative) eqn:E.
  - split; [done|]. intros ([= ->] & E1 & E2). by rewrite E1 E2 in E.
  - apply orb_false_iff in E as [E1 E2]. split; [by intros [= <-]|by intros [-> _]].
Qed.

(** The value of a live entry; the expiry of a sliding one may have moved. *)
Definition getWithExpiry_answer c (o : option entry) (now : Z) (r : option (V * option Z)) : Prop :=
  match freshAt c now o with
  | Some e => r = Some (returnValue c (loadValue e), timeOf (e_expireAt (touchAccess (addHit e) now).1))
  | None => r = None
  end.

Lemma getWithExpiry_ok c g s m D k now :
  shard_wf c s m D →
  let '(g', s', r) := getWithExpiryLocked c g s k now in
  (∃ X m', ok_step c X g s m g' s' m' ∧ shows X None k s) ∧
  getWithExpiry_answer c (sh_lookup s k) now r.
Proof.
  intros Hw. unfold getWithExpiryLocked, getWithExpiry_answer.
  pose proof (wf_lookup _ _ _ _ k Hw) as HL. rewrite (wf_get _ _ _ _ _ Hw) HL.
  assert (∀ g1 s1 X m1 i, ok_step c X g s m g1 s1 m1 → ok_step c X g s m (stat c g1 i) s1 m1) as Hst.
  { intros g1 s1 X m1 i Hok. unfold stat. destruct (cf_statsEnabled c); [by apply ok_count|done]. }
  destruct (m !! k) as [a|] eqn:Hk; cbn -[freshAt] in HL |- *.
  2:{ split; [|done]. exists None, m. split; [apply Hst; by eapply ok_refl|done]. }
  destruct (wf_entry _ _ _ _ Hw _ _ Hk) as (e & He & _). rewrite He in HL |- *. cbn.
  assert (entryExpiredLocked c e now = bool_decide (is_Some (entryExpiredLockedReason c e now))) as -> by done.
  destruct (entryExpiredLockedReason c e now) as [reason|].
  - pose proof (remove_ok c g s m D k a reason Hw Hk) as Hrm.
    destruct (removeLocked c g s a reason) as [g1 s1]. split; [|done]. exists None, (delete k m).
    split; [by apply Hst, ok_count|done].
  - destruct (e_has e flagNegative) eqn:Hn; cbn.
    + split; [|done]. exists None, m. split; [apply Hst; by eapply ok_refl|done].
    + pose proof (touch_ok c g s m D k a e now Hw Hk He) as Ht.
      pose proof (touchAccess_frame (addHit e) now) as (_ & [Hv Hf] & _). split.
      * eexists _, m. split; [by apply Hst|]. intros k' e' [= <- <-]. split; [done|]. right. by exists e.
      * unfold loadValue. by rewrite Hv.
Qed.

Lemma GetWithExpiry_vstep c d C k :
  cache_wf c d C → d <= 0 →
  let '(C', r) := GetWithExpiry c C k in
  vstep c d None C C' ∧
  (g_closed (c_g C) = false →
     getWithExpiry_answer c (shard_get c C k) (cf_clock c (g_tick (c_g C))) r).
Proof.
  intros Hwf Hd. unfold GetWithExpiry. destruct (g_closed (c_g C)) eqn:Hcl; [by split; [apply vstep_refl|]|].
  pose proof (clock_vstep c d C Hwf) as Hv. cbn in Hv |- *. set (now := cf_clock c _). set (C1 := set_g C _) in *.
  pose proof (key_vstep c d C1 k (λ g s, getWithExpiryLocked c g s k now) None (λ _, None)
    (λ s r, getWithExpiry_answer c (sh_lookup s k) now r) (vs_wf _ _ _ _ _ Hv) Hd) as HL.
  destruct (locked C1 _ _ None) as [C2 r]. destruct HL as (L1 & _ & s & Hs & L3).
  { intros s m D Hw. pose proof (getWithExpiry_ok c (c_g C1) s m D k now Hw) as Hg.
    by destruct (getWithExpiryLocked c _ s k now) as [[g' s'] r']. }
  split; [exact (vstep_trans _ _ _ _ _ _ _ Hv L1 (or_introl eq_refl))|]. intros _.
  by rewrite (shard_get_lookup c C k s).
Qed.

(** ** What a walk meets *)

Lemma copyShard_perm c s m D now :
  shard_wf c s m D →
  copyShard c s now [] ≡ₚ omap (λ ka, (λ e, (ka.1, loadValue e)) <$> freshAt c now (sh_heap s !! ka.2)) (map_to_list m).
Proof.
  intros Hw. unfold copyShard. cbn. rewrite (st_rep_each _ _ (wf_storage _ _ _ _ Hw)). unfold addrs.
  assert (∀ ka, ka ∈ map_to_list m → m !! ka.1 = Some ka.2) as Hm.
  { intros [k a]. apply elem_of_map_to_list. }
  revert Hm. generalize (map_to_list m) as l. induction l as [|[k a] l IH]; intros Hm; [done|]. cbn -[freshAt].
  assert (∀ ka, ka ∈ l → m !! ka.1 = Some ka.2) as Hm' by (intros ka Hin; apply Hm; by right).
  destruct (wf_entry _ _ _ _ Hw k a) as (e & He & Hkey & _); [by apply (Hm (k, a)); left|]. rewrite He.
  destruct (freshAt c now (Some e)) as [e'|] eqn:Hf; cbn; [|by apply IH].
  apply freshAt_Some in Hf as [[= <-] _]. rewrite Hkey. by apply Permutation_skip, IH.
Qed.

Lemma elem_of_copyShard c s m D now k v :
  shard_wf c s m D →
  (k, v) ∈ copyShard c s now [] ↔ ∃ e, freshAt c now (sh_lookup s k) = Some e ∧ loadValue e = v.
Proof.
  intros Hw. rewrite (copyShard_perm c s m D now Hw) list_elem_of_omap (wf_lookup _ _ _ _ k Hw). split.
  - intros ([k' a] & Hin%elem_of_map_to_list & (e & Hf & [= -> ->])%fmap_Some). cbn in Hf. exists e. by rewrite Hin.
  - intros (e & Hf & <-). destruct (m !! k) as [a|] eqn:Hk; [|done]. exists (k, a). split; [by apply elem_of_map_to_list|].
    cbn in Hf |- *. by rewrite Hf.
Qed.

Lemma NoDup_copyShard c s m D now : shard_wf c s m D → NoDup (copyShard c s now []).*1.
Proof.
  intros Hw. rewrite (copyShard_perm c s m D now Hw). generalize (NoDup_fst_map_to_list m).
  generalize (map_to_list m) as l. induction l as [|[k a] l IH]; [done|]. cbn -[freshAt].
  intros [Hk Hnd]%NoDup_cons. destruct (freshAt c now (sh_heap s !! a)) as [e|]; cbn; [|by apply IH].
  apply NoDup_cons. split; [|by apply IH]. intros ([k1 v] & -> & ([k2 a'] & Hin & (e' & _ & [= -> ->])%fmap_Some)%list_elem_of_omap)%list_elem_of_fmap.
  apply Hk, list_elem_of_fmap. by exists (k2, a').
Qed.

Lemma elem_of_copyAt c d C now i k v :
  cache_wf c d C → (i < length (c_shards C))%nat →
  (k, v) ∈ copyAt c C now i ↔
    shardFor c k = i ∧ ∃ e, freshAt c now (shard_get c C k) = Some e ∧ loadValue e = v.
Proof.
  intros [ms HI] Hi. unfold copyAt. destruct (lookup_lt_is_Some_2 _ _ Hi) as [s Hs]. rewrite Hs.
  destruct (inv_shard _ _ _ _ _ _ HI Hs) as (m & D & Hm & Hw). rewrite (elem_of_copyShard c s m D now k v Hw). split.
  - intros (e & Hf & <-). assert (shardFor c k = i) as Hk.
    { apply (ci_home _ _ _ _ HI i m k Hm). rewrite (wf_lookup _ _ _ _ k Hw) in Hf. by destruct (m !! k). }
    split; [done|]. exists e. rewrite (shard_get_lookup c C k s) //. by rewrite Hk.
  - intros (<- & e & Hf & <-). exists e. by rewrite (shard_get_lookup c C k s) in Hf.
Qed.

Lemma NoDup_copyAt c d C now i : cache_wf c d C → NoDup (copyAt c C now i).*1.
Proof.
  intros [ms HI]. unfold copyAt. destruct (c_shards C !! i) as [s|] eqn:Hs; [|constructor].
  destruct (inv_shard _ _ _ _ _ _ HI Hs) as (m & D & Hm & Hw). by eapply NoDup_copyShard.
Qed.
(** ** Removing many entries *)

Lemma removeDoomed_ok c r ks g s m D :
  shard_wf c s m D →
  let '(g', s', n) := removeDoomed c r ks g s in
  ∃ m', ok_step c None g s m g' s' m' ∧ n = Z.of_nat (size m) - Z.of_nat (size m') ∧
    ∀ k, m' !! k = if decide (k ∈ ks) then None else m !! k.
Proof.
  intros Hw. unfold removeDoomed. set (F := λ '(g, s, n) k, _).
  assert (∀ ks g1 s1 n1 m1 D1, shard_wf c s1 m1 D1 → ok_step c None g s m g1 s1 m1 →
    n1 = Z.of_nat (size m) - Z.of_nat (size m1) →
    let '(g', s', n) := foldl F (g1, s1, n1) ks in
    ∃ m', ok_step c None g s m g' s' m' ∧ n = Z.of_nat (size m) - Z.of_nat (size m') ∧
      ∀ k, m' !! k = if decide (k ∈ ks) then None else m1 !! k) as HL.
  2:{ apply (HL ks g s 0 m D Hw); [by eapply ok_refl|lia]. }
  clear ks. induction ks as [|k ks IH]; intros g1 s1 n1 m1 D1 Hw1 Hok Hn; cbn [foldl].
  { by exists m1. }
  change (F (g1, s1, n1) k) with (match st_get (sh_storage s1) k with
    | Some a => (removeLocked c g1 s1 a r, n1 + 1) | None => (g1, s1, n1) end).
  rewrite (wf_get _ _ _ _ _ Hw1). destruct (m1 !! k) as [a|] eqn:Hk.
  - pose proof (remove_ok c g1 s1 m1 D1 k a r Hw1 Hk) as Hrm.
    destruct (removeLocked c g1 s1 a r) as [g2 s2]. destruct (os_wf _ _ _ _ _ _ _ _ Hrm) as [D2 Hw2].
    specialize (IH g2 s2 (n1 + 1) (delete k m1) D2 Hw2 (ok_trans _ _ _ _ _ _ _ _ _ _ _ _ Hok Hrm (or_introl eq_refl))).
    pose proof (size_delete_S _ _ _ Hk). destruct (foldl F (g2, s2, n1 + 1) ks) as [[g3 s3] n3].
    destruct IH as (m' & I1 & I2 & I3); [lia|]. exists m'. split_and!; [done..|]. intros k'. rewrite I3.
    destruct (decide (k' = k)) as [->|Hne].
    + rewrite lookup_delete_eq (decide_True (P := k ∈ k :: ks)); [by case_decide|left].
    + rewrite lookup_delete_ne //. destruct (decide (k' ∈ ks)) as [Hin|Hin].
      * rewrite decide_True //. by right.
      * rewrite decide_False //. by intros [?|?]%elem_of_cons.
  - specialize (IH g1 s1 n1 m1 D1 Hw1 Hok Hn). destruct (foldl F (g1, s1, n1) ks) as [[g3 s3] n3].
    destruct IH as (m' & I1 & I2 & I3). exists m'. split_and!; [done..|]. intros k'. rewrite I3.
    destruct (decide (k' = k)) as [->|Hne].
    + rewrite Hk (decide_True (P := k ∈ k :: ks)); [by case_decide|left].
    + destruct (decide (k' ∈ ks)) as [Hin|Hin].
      * rewrite decide_True //. by right.
      * rewrite decide_False //. by intros [?|?]%elem_of_cons.
Qed.

Lemma removeEntries_ok c r l g s m D :
  shard_wf c s m D → NoDup l → (∀ a, a ∈ l → ∃ k, m !! k = Some a) →
  let '(g', s') := removeEntries c r l (g, s) in
  ∃ m', ok_step c None g s m g' s' m' ∧ Z.of_nat (length l) = Z.of_nat (size m) - Z.of_nat (size m') ∧
    ∀ k a, m' !! k = Some a ↔ m !! k = Some a ∧ a ∉ l.
Proof.
  unfold removeEntries. set (F := λ '(g, s) a, _). revert g s m D.
  induction l as [|a l IH]; intros g s m D Hw Hnd Hl; cbn [foldl].
  { exists m. split_and!; [by eapply ok_refl|cbn; lia|set_solver]. }
  apply NoDup_cons in Hnd as [Ha Hnd]. destruct (Hl a) as [k Hk]; [set_solver|].
  change (F (g, s) a) with (removeLocked c g s a r).
  pose proof (remove_ok c g s m D k a r Hw Hk) as Hrm.
  destruct (removeLocked c g s a r) as [g2 s2]. destruct (os_wf _ _ _ _ _ _ _ _ Hrm) as [D2 Hw2].
  assert (∀ k' b, delete k m !! k' = Some b ↔ m !! k' = Some b ∧ b ≠ a) as Hdel.
  { intros k' b. split; [intros Hb; destruct (delete_others _ _ _ _ _ _ _ _ Hw Hk Hb); done|].
    intros [Hb Hne]. apply lookup_delete_Some. split; [congruence|done]. }
  specialize (IH g2 s2 (delete k m) D2 Hw2 Hnd). destruct (foldl F (g2, s2) l) as [g3 s3].
  destruct IH as (m' & I1 & I2 & I3).
  { intros b Hb. destruct (Hl b) as [k' Hk']; [set_solver|]. exists k'. apply Hdel. set_solver. }
  exists m'. split_and!; [exact (ok_trans _ _ _ _ _ _ _ _ _ _ _ _ Hrm I1 (or_introl eq_refl))| |].
  - pose proof (size_delete_S _ _ _ Hk). cbn. lia.
  - intros k' b. rewrite I3 Hdel. set_solver.
Qed.

(** What is left of a shard that lost the entries failing [Q]. *)
Lemma filtered_lookup c g s m D g' s' m' (Q : entry → bool) :
  shard_wf c s m D → ok_step c None g s m g' s' m' →
  (∀ k a e, m !! k = Some a → sh_heap s !! a = Some e → is_Some (m' !! k) ↔ Q e = true) →
  ∀ k, sh_lookup s' k = sh_lookup s k ≫= λ e, if Q e then Some e else None.
Proof.
  intros Hw Hok HQ k. destruct (os_wf _ _ _ _ _ _ _ _ Hok) as [D' Hw'].
  pose proof (os_effect _ _ _ _ _ _ _ _ Hok k) as Hef. cbn in Hef.
  destruct (sh_lookup s' k) as [e'|] eqn:He'.
  - rewrite (Hef e' eq_refl). cbn. pose proof (Hef e' eq_refl) as He.
    rewrite (wf_lookup _ _ _ _ k Hw) in He. rewrite (wf_lookup _ _ _ _ k Hw') in He'.
    destruct (m !! k) as [a|] eqn:Hk; [|done]. destruct (m' !! k) as [b|] eqn:Hk'; [|done].
    rewrite (proj1 (HQ k a e' Hk He)) // Hk'.
  - rewrite (wf_lookup _ _ _ _ k Hw). destruct (m !! k) as [a|] eqn:Hk; [|done]. cbn.
    destruct (wf_entry _ _ _ _ Hw _ _ Hk) as (e & He & _). rewrite He. cbn.
    destruct (Q e) eqn:HQe; [|done]. exfalso. destruct (proj2 (HQ k a e Hk He) HQe) as [b Hb].
    destruct (wf_entry _ _ _ _ Hw' _ _ Hb) as (e' & He1 & _). by rewrite (wf_lookup _ _ _ _ k Hw') Hb /= He1 in He'.
Qed.

Lemma deletePrefixShard_ok c f g s m D :
  shard_wf c s m D →
  let '(g', s', n) := deletePrefixShard c f g s in
  ∃ m', ok_step c None g s m g' s' m' ∧ n = Z.of_nat (size m) - Z.of_nat (size m') ∧
    ∀ k, m' !! k = if f k then None else m !! k.
Proof.
  intros Hw0. unfold deletePrefixShard. set (s1 := sh_set_flights s _ _).
  assert (shard_wf c s1 m D) as Hw by by apply (wf_ext c s).
  pose proof (st_rep_each _ _ (wf_storage _ _ _ _ Hw)) as Hp. set (l := filter _ _).
  assert (∀ k a, m !! k = Some a → a ∈ l ↔ f k = true) as Hl.
  { intros k a Hk. unfold l. rewrite list_elem_of_filter Hp elem_of_addrs.
    destruct (wf_entry _ _ _ _ Hw _ _ Hk) as (e & He & Hkey & _). rewrite He Hkey. naive_solver. }
  pose proof (removeEntries_ok c EvictReasonDeletedPrefix l g s1 m D Hw) as Hrm.
  destruct (removeEntries c _ l (g, s1)) as [g' s']. destruct Hrm as (m' & R1 & R2 & R3).
  { apply NoDup_filter. rewrite Hp. by eapply NoDup_addrs. }
  { intros a [_ Ha]%list_elem_of_filter. rewrite Hp in Ha. by apply elem_of_addrs. }
  exists m'. split_and!; [by destruct R1; constructor|done|]. intros k. apply option_eq. intros a. rewrite R3.
  destruct (f k) eqn:Hf; [|].
  - split; [|done]. intros [Hk Hn]. destruct Hn. by apply (Hl k).
  - split; [by intros [? _]|]. intros Hk. split; [done|]. rewrite (Hl k a Hk). by rewrite Hf.
Qed.

Lemma DeletePrefix_vstep c d C hp p :
  cache_wf c d C → d <= 0 → vstep c d None C (DeletePrefix c C hp p).1.
Proof.
  intros Hwf Hd. unfold DeletePrefix. destruct (g_closed (c_g C)); [by apply vstep_refl|].
  destruct (prefixMatcher hp p) as [f|]; [|by apply vstep_refl]. apply each_vstep; [done|].
  intros C0 i r0 Hwf0. pose proof (shard_vstep c d C0 i (deletePrefixShard c f) 0 Hwf0 Hd) as HL.
  destruct (locked C0 i _ 0) as [C1 n]. apply HL. intros s m D Hw.
  pose proof (deletePrefixShard_ok c f (c_g C0) s m D Hw) as Hr.
  destruct (deletePrefixShard c f (c_g C0) s) as [[g' s'] n']. destruct Hr as (m' & Hok & _). by exists m'.
Qed.

Lemma DeleteWhere_vstep c d C pred :
  cache_wf c d C → d <= 0 → vstep c d None C (DeleteWhere c C pred).1.
Proof.
  intros Hwf Hd. unfold DeleteWhere. destruct pred as [pred|]; [|by apply vstep_refl].
  destruct (g_closed (c_g C)); [by apply vstep_refl|]. pose proof (clock_vstep c d C Hwf) as Hv.
  cbn in Hv |- *. set (C1 := set_g C _) in *.
  refine (vstep_trans _ _ _ _ _ _ _ Hv (each_vstep _ _ _ _ _ (vs_wf _ _ _ _ _ Hv) _) (or_introl eq_refl)).
  intros C0 i r0 Hwf0. unfold deleteWhereShard. destruct (doomedAt _ _ _ _ _) as [|k ks]; [by apply vstep_refl|].
  pose proof (shard_vstep c d C0 i (removeDoomed c EvictReasonDeletedWhere (k :: ks)) 0 Hwf0 Hd) as HL.
  destruct (locked C0 i _ 0) as [C2 n]. apply HL. intros s m D Hw.
  pose proof (removeDoomed_ok c EvictReasonDeletedWhere (k :: ks) (c_g C0) s m D Hw) as Hr.
  destruct (removeDoomed c _ _ (c_g C0) s) as [[g' s'] n']. destruct Hr as (m' & Hok & _). by exists m'.
Qed.
End bulk.
