(* ===== verification/LoadsInv.v ===== *)
(** * LoadsInv: starting, joining and leaving loads

    [loadOrJoin] serves what [Get] would serve and otherwise registers the
    caller with the one load of the key; it and the other load operations
    keep the invariant and change nothing a reader sees. *)

From S2P Require Import Prelude Policy Storage Ttl Entry Tags Flights Shard ShardInv ShardOps ShardBulk.
From S2P Require Import Cache Bulk Loads Run CacheInv CacheOps CacheReads CacheRun CacheKeep CacheBulk BulkInv.

#[local] Open Scope Z_scope.

Section loads.
Context {K V P St T A : Type} `{Countable K, Inhabited K, Inhabited V}.
Context `{EvictionPolicy K P, ShardStore K St, TtlBackend T, AdmissionPolicy K A}.
Context `{!PolicyLaws K P, !StoreLaws K St, !TtlLaws T}.

Local Abbreviation shard_wf := (shard_wf (E := ∅)).
Local Abbreviation ok_step := (ok_step (E := ∅)).
Local Abbreviation entry := (entry K V).
Local Abbreviation config := (config K V).
Local Abbreviation globals := (globals K V A).
Local Abbreviation shard := (shard K V P St T).
Local Abbreviation cache := (cache K V P St T A).
Implicit Types (c : config) (C : cache) (g : globals) (s : shard) (e : entry) (m : gmap K loc) (k : K) (v : V) (d : Z).

Lemma startRefresh_frame s k : ∃ fl nf, startRefreshLocked s k = sh_set_flights s fl nf.
Proof.
  unfold startRefreshLocked. destruct (fl_inflight _ !! k); [|by eexists _, _].
  exists (sh_flights s), (sh_nextFlight s). by destruct s.
Qed.

Lemma serveLoadHit_ok c g s m D k now :
  shard_wf c s m D →
  let '(g', s', r) := serveLoadHitLocked c g s k now in
  (∃ X m', ok_step c X g s m g' s' m' ∧ shows X None k s) ∧
  match r with
  | Some v => ∃ e, sh_lookup s k = Some e ∧ servable c e now ∧ loadValue e = v
  | None => g' = g ∧ s' = s ∧ ∀ e, sh_lookup s k = Some e → ¬ servable c e now
  end.
Proof.
  intros Hw. unfold serveLoadHitLocked. pose proof (wf_lookup _ _ _ _ k Hw) as HL.
  rewrite (wf_get _ _ _ _ _ Hw) HL.
  assert (∃ X m', ok_step c X g s m g s m' ∧ shows X None k s) as Hidle by by eapply idle_shows.
  destruct (m !! k) as [a|] eqn:Hk; cbn [mbind option_bind]; [|by split_and!].
  destruct (wf_entry _ _ _ _ Hw _ _ Hk) as (e & He & Hkey & Hwt & Hinv). rewrite He. cbn [mbind option_bind].
  destruct (e_has e flagNegative) eqn:Hn.
  { split_and!; [done..|]. intros e0 [= <-] [? _]. congruence. }
  destruct (entryExpiredLocked c e now) eqn:Hx; cbn [negb].
  - destruct (shouldServeStale c e now) eqn:Hst.
    + destruct (startRefresh_frame s k) as (fl & nf & ->). split; [|by exists e; split_and!; [|split; [|right]|]].
      exists (Some (k, addHit e)), m. split.
      * assert (shard_wf c (sh_write (sh_set_flights s fl nf) a (addHit e)) m D) as Hw1.
        { eapply write_wf; [by apply supersede_ok|done..]. }
        eapply ok_count, (update_ok c g s m D k a e (addHit e) _ _ D); try done.
        -- apply set_policy_wf; [done|]. apply tracks_access; [apply Hw|]. by apply elem_of_erefs.
        -- cbn. lia.
        -- intros Ht t Hin. apply (Ht k e); [|done]. by rewrite HL /= He.
      * intros k' e' [= <- <-]. split; [done|]. right. exists e. by rewrite HL /= He.
    + split_and!; [done..|]. intros e0 [= <-] [_ [?|?]]; congruence.
  - pose proof (touch_ok c g s m D k a e now Hw Hk He) as Ht.
    assert (shows (Some (k, (touchAccess (addHit e) now).1)) None k s) as Hsh.
    { intros k' e' [= <- <-]. split; [done|]. right. exists e. rewrite HL /= He. split; [done|].
      apply (touchAccess_frame (addHit e) now). }
    destruct (startRefresh_frame (touchLocked s k a e now) k) as (fl & nf & ->).
    destruct (shouldRefreshAhead c _ now); (split; [eexists _, m; split; [|exact Hsh]|by exists e; split_and!; [|split; [|left]|]]).
    + apply ok_count. by eapply ok_frame.
    + done.
Qed.

(** How [loadOrJoin] answers from shard [s], and which load it leaves in
    flight in [s']. *)
Definition start_answer c s s' k (now : Z) (allowed : bool) (r : loadStart V) : Prop :=
  match r with
  | StartHit v => ∃ e, sh_lookup s k = Some e ∧ servable c e now ∧ loadValue e = v
  | StartNegative => ∃ e, sh_lookup s k = Some e ∧ e_has e flagNegative = true ∧ entryExpiredLocked c e now = false
  | r => (∀ e, sh_lookup s k = Some e → ¬ servable c e now) ∧
      match r with
      | StartCachedError => ∃ ce, sh_errors s !! k = Some ce ∧ now < ce_expireAt ce
      | StartJoined f => fl_inflight (sh_flights s) !! k = Some f ∧ sh_flights s' = sh_flights s
      | StartLimited => allowed = false ∧ fl_inflight (sh_flights s) !! k = None
      | StartLead f => allowed = true ∧ fl_inflight (sh_flights s) !! k = None ∧
                       fl_inflight (sh_flights s') = <[k := f]> (fl_inflight (sh_flights s)) ∧
                       f = sh_nextFlight s
      | _ => False
      end
  end.

Lemma loadOrJoinLocked_ok c g s m D k allowed :
  shard_wf c s m D →
  let '(g', s', r) := loadOrJoinLocked c g s k allowed in
  (∃ X m', ok_step c X g s m g' s' m' ∧ shows X None k s) ∧
  start_answer c s s' k (cf_clock c (g_tick g)) allowed r.
Proof.
  intros Hw. unfold loadOrJoinLocked. cbn [clockNow]. set (now := cf_clock c _). set (g1 := g_env _ _ _ _).
  pose proof (serveLoadHit_ok c g1 s m D k now Hw) as Hs.
  destruct (serveLoadHitLocked c g1 s k now) as [[g2 s2] [v|]]; destruct Hs as [(X & m' & Hok & Hsh) Hr].
  { split; [|done]. exists X, m'. split; [by destruct Hok; constructor|done]. }
  destruct Hr as (-> & -> & Hns). clear X m' Hok Hsh.
  assert (∀ g' s', sh_storage s' = sh_storage s → sh_policy s' = sh_policy s → sh_ttl s' = sh_ttl s →
    sh_heap s' = sh_heap s → sh_pool s' = sh_pool s → sh_fresh s' = sh_fresh s → sh_read s' = sh_read s →
    g_entries g' = g_entries g → g_bytes g' = g_bytes g → same_fixed g g' → g_tags g' = g_tags g →
    ∃ X m', ok_step c X g s m g' s' m' ∧ shows X None k s) as Hfr.
  { intros. exists None, m. split; [|by apply shows_None]. eapply ok_frame; [by eapply ok_refl|done..]. }
  assert (g_entries (stat c g1 misses) = g_entries g ∧ g_bytes (stat c g1 misses) = g_bytes g ∧
    same_fixed g (stat c g1 misses) ∧ g_tags (stat c g1 misses) = g_tags g) as (G1 & G2 & G3 & G4).
  { unfold stat. by destruct (cf_statsEnabled c). }
  destruct (negativeHit c s k now) eqn:Hneg.
  { split; [by apply Hfr|]. unfold negativeHit in Hneg. fold (sh_lookup s k) in Hneg. cbn.
    destruct (sh_lookup s k) as [e|]; [|done]. apply andb_true_iff in Hneg as [Hn Hx%negb_true_iff]. by exists e. }
  assert (∃ er b, cachedErrorLocked c s k now = (sh_set_errors s er, b) ∧
    (b = true → ∃ ce, sh_errors s !! k = Some ce ∧ now < ce_expireAt ce)) as (er & b & -> & Hce).
  { assert (s = sh_set_errors s (sh_errors s)) as Es by by destruct s.
    unfold cachedErrorLocked. case_bool_decide; [|by exists (sh_errors s), false; rewrite -Es].
    destruct (sh_errors s !! k) as [ce|]; [case_bool_decide|].
    - exists (sh_errors s), true. rewrite -Es. eauto.
    - by exists (delete k (sh_errors s)), false.
    - by exists (sh_errors s), false; rewrite -Es. }
  destruct b; [split; [by apply Hfr|]; cbn; auto|]. cbn [sh_flights sh_set_errors].
  destruct (fl_inflight (sh_flights s) !! k) as [f|] eqn:Hf; [by split; [apply Hfr|]|].
  destruct allowed; cbn [negb]; (split; [by apply Hfr|done]).
Qed.

Lemma startStats_frame c g k r :
  let g' := startStats c g k r in
  g_entries g' = g_entries g ∧ g_bytes g' = g_bytes g ∧ g_tags g' = g_tags g ∧ same_fixed g g'.
Proof.
  unfold startStats, stat. destruct r; cbn; try done; try (by destruct (cf_statsEnabled c)).
  by destruct (cf_statsEnabled c), (cf_events c).
Qed.

Lemma loadOrJoin_vstep c d C k allowed :
  cache_wf c d C → d <= 0 →
  let '(C', r) := loadOrJoin c C k allowed in
  vstep c d None C C' ∧
  ∃ s s', c_shards C !! shardFor c k = Some s ∧
    ∃ r0, start_answer c s s' k (cf_clock c (g_tick (c_g C))) allowed r0 ∧
      r = match r0 with StartHit v => StartHit (returnValue c v) | r => r end.
Proof.
  intros Hwf Hd. unfold loadOrJoin.
  pose proof (key_vstep c d C k (λ g s, loadOrJoinLocked c g s k allowed) StartLimited (λ _, None)
    (λ s r, ∃ s', start_answer c s s' k (cf_clock c (g_tick (c_g C))) allowed r) Hwf Hd) as HL.
  destruct (locked C _ _ StartLimited) as [C1 r]. destruct HL as (L1 & _ & s & Hs & s' & L3).
  { intros s m D Hw. pose proof (loadOrJoinLocked_ok c (c_g C) s m D k allowed Hw) as Hg.
    destruct (loadOrJoinLocked c _ s k allowed) as [[g' s'] r']. destruct Hg. eauto. }
  split; [|by eauto 10]. pose proof (startStats_frame c (c_g (flushAndUnlock c C1 (shardFor c k))) k r) as (F1 & F2 & F3 & F4).
  by apply env_vstep.
Qed.

Lemma GetOrLoadFn_vstep c d C k l cd al :
  cache_wf c d C → d <= 0 → vstep c d None C (GetOrLoadFn c C k l cd al).1.
Proof.
  intros Hwf Hd. unfold GetOrLoadFn.
  destruct (g_closed (c_g C)), l, cd; cbn [negb]; try by apply vstep_refl.
  pose proof (loadOrJoin_vstep c d C k al Hwf Hd) as HL. destruct (loadOrJoin c C k al). by destruct HL.
Qed.

(** Steps that only change the flights and the counters. *)
Lemma flights_vstep {R} c d C k (f : globals → shard → globals * shard * R) dflt :
  cache_wf c d C → d <= 0 →
  (∀ g s, ∃ fl nf r, (f g s).1.2 = sh_set_flights s fl nf ∧ (f g s).2 = r ∧
     g_entries (f g s).1.1 = g_entries g ∧ g_bytes (f g s).1.1 = g_bytes g ∧
     same_fixed g (f g s).1.1 ∧ g_tags (f g s).1.1 = g_tags g) →
  vstep c d None C (flushAndUnlock c (locked C (shardFor c k) f dflt).1 (shardFor c k)).
Proof.
  intros Hwf Hd Hf. apply shard_vstep; [done..|]. intros s m D Hw. specialize (Hf (c_g C) s).
  destruct (f (c_g C) s) as [[g' s'] r]. cbn in Hf. destruct Hf as (fl & nf & r' & -> & _ & F1 & F2 & F3 & F4).
  exists m. eapply ok_frame; [by eapply ok_refl|done..].
Qed.

Lemma triggerAsyncRefresh_vstep c d C k :
  cache_wf c d C → d <= 0 → vstep c d None C (triggerAsyncRefresh c C k).
Proof.
  intros Hwf Hd. unfold triggerAsyncRefresh. destruct (cf_loader c); [|by apply vstep_refl].
  apply flights_vstep; [done..|]. intros g s. cbn. destruct (refresh_frame c s k) as (fl & nf & ->).
  by eexists fl, nf, tt.
Qed.

Lemma refreshKey_vstep c d C k : cache_wf c d C → d <= 0 → vstep c d None C (refreshKey c C k).1.
Proof.
  intros Hwf Hd. unfold refreshKey.
  match goal with |- context [locked C ?i ?f ?dflt] =>
    pose proof (flights_vstep c d C k f dflt Hwf Hd) as HL; destruct (locked C i f dflt) as [C1 b] end.
  apply HL. intros g s. destruct (fl_inflight _ !! k); cbn.
  - exists (sh_flights s), (sh_nextFlight s), false. split; [by destruct s|done].
  - destruct (refresh_frame c s k) as (fl & nf & ->). by eexists fl, nf, true.
Qed.

Lemma Keys_vstep c d C : cache_wf c d C → vstep c d None C (Keys c C).1.
Proof.
  intros Hwf. unfold Keys. destruct (g_closed (c_g C)); [by apply vstep_refl|].
  pose proof (clock_vstep c d C Hwf) as Hv. cbn in Hv |- *.
  refine (vstep_trans _ _ _ _ _ _ _ Hv (each_vstep _ _ _ _ _ (vs_wf _ _ _ _ _ Hv) _) (or_introl eq_refl)).
  intros C0 i r Hwf0. by apply vstep_refl.
Qed.

Lemma RefreshAll_vstep c d C cd : cache_wf c d C → d <= 0 → vstep c d None C (RefreshAll c C cd).1.
Proof.
  intros Hwf Hd. unfold RefreshAll. case_match; [by apply vstep_refl|].
  pose proof (Keys_vstep c d C Hwf) as Hk. destruct (Keys c C) as [C1 ks]. cbn in Hk.
  generalize 0 as n. revert C1 Hk. induction ks as [|k ks IH]; intros C1 Hk n; [done|]. cbn [foldl].
  pose proof (refreshKey_vstep c d C1 k (vs_wf _ _ _ _ _ Hk) Hd) as Hr.
  destruct (refreshKey c C1 k) as [C2 b]. cbn in Hr.
  pose proof (vstep_trans _ _ _ _ _ _ _ Hk Hr (or_introl eq_refl)) as Ht. destruct b; by apply IH.
Qed.

Lemma leaveFlight_vstep c d C k f n : cache_wf c d C → d <= 0 → vstep c d None C (leaveFlight c C k f n).
Proof.
  intros Hwf Hd. unfold leaveFlight. apply flights_vstep; [done..|]. intros g s. cbn. case_bool_decide.
  - by eexists _, _, tt.
  - exists (sh_flights s), (sh_nextFlight s), tt. split; [by destruct s|done].
Qed.

Lemma publishEvent_vstep c d C C' g ev :
  vstep c d None C C' →
  g_entries g = g_entries (c_g C') ∧ g_bytes g = g_bytes (c_g C') ∧ g_tags g = g_tags (c_g C') ∧
    same_fixed (c_g C') g →
  vstep c d None C (set_g C' (publishEvent c g ev)).
Proof. intros Hv (? & ? & ? & ?). unfold publishEvent. cbn. by apply env_vstep; [|destruct (cf_events c)..]. Qed.

Lemma AnnounceLoad_vstep c d C k r : cache_wf c d C → vstep c d None C (AnnounceLoad c C k r).
Proof.
  intros Hwf. unfold AnnounceLoad, announceLoad, stat. pose proof (vstep_refl _ _ _ Hwf).
  destruct r as [v ttl| |[]|]; apply publishEvent_vstep; try done;
    by destruct (cf_onLoad c), (cf_statsEnabled c).
Qed.

Lemma abandonLoad_vstep c d C k f : cache_wf c d C → d <= 0 → vstep c d None C (abandonLoad c C k f).
Proof.
  intros Hwf Hd. unfold abandonLoad. apply publishEvent_vstep; [|done]. apply flights_vstep; [done..|]. intros g s. cbn.
  eexists _, _, tt. split; [done|]. unfold stat. by destruct (cf_statsEnabled c).
Qed.
End loads.
