(* ===== verification/RunInv.v ===== *)
(** * RunInv: every operation keeps the invariant

    [run_vstep] collects the lemmas on the single operations: whatever [cop]
    runs, the cache stays well-formed and within its bounds and shows no value
    but the one the operation writes. *)

From S2P Require Import Prelude Policy Storage Ttl Entry Tags Flights Shard ShardInv ShardOps ShardBulk.
From S2P Require Import Cache Bulk Loads Run CacheInv CacheOps CacheReads CacheRun CacheKeep CacheBulk BulkInv LoadsInv.

#[local] Open Scope Z_scope.

Section run.
Context {K V P St T A : Type} `{Countable K, Inhabited K, Inhabited V}.
Context `{EvictionPolicy K P, ShardStore K St, TtlBackend T, AdmissionPolicy K A}.
Context `{!PolicyLaws K P, !StoreLaws K St, !TtlLaws T}.

Local Abbreviation config := (config K V).
Local Abbreviation cache := (cache K V P St T A).
Implicit Types (c : config) (C : cache) (k : K) (v : V) (W : option (K * V)) (d : Z).


(** The value an operation may make visible. *)
Definition op_writes (o : cop) : option (K * V) :=
  match o with
  | OpSet k v | OpSetWithTTL k v _ | OpSetWithOptions k v _ | OpSetIfAbsent k v
  | OpSetIfPresent k v | OpGetOrSet k v | OpPeekOrAdd k v | OpFinishLoad k _ (LoadOk v _) => Some (k, v)
  | _ => None
  end.

(** No negative tombstone replaces a live entry. *)
Definition no_drift c C (o : cop (K := K) (V := V)) : Prop :=
  match o with
  | OpFinishLoad k _ LoadNotFound => cf_negativeTTL c <= 0 ∨ shard_get c C k = None
  | _ => True
  end.

Lemma set_outcome_vstep c d k v C r :
  set_outcome c d k v C r → ∃ W, vstep c d W C r.1 ∧ (W = None ∨ W = Some (k, v)).
Proof.
  unfold set_outcome. destruct r as [C' [er|]]; cbn; [intros; exists None; auto|].
  intros [? _]. exists (Some (k, v)). auto.
Qed.

Lemma run_vstep c d C o :
  cache_wf c d C → d <= 0 → g_sealed (c_g C) = false → no_drift c C o →
  ∃ W, vstep c d W C (run c C o) ∧ (W = None ∨ W = op_writes o).
Proof.
  intros Hwf Hd Hsl Hnd.
  assert (∀ C', vstep c d None C C' → ∃ W, vstep c d W C C' ∧ (W = None ∨ W = op_writes o)) as Hnone
    by (intros; exists None; auto).
  destruct o as [k v|k v ttl|k v sc|k v|k v|k v|k v|k|k pred|k|k|k|k ttl| | | |t|ts|i| |k f r
    |k|hp p|pred|k cd al|k| |k f n|k f|k r]; cbn [run op_writes].
  - by apply set_outcome_vstep, setTTLCtx_outcome.
  - by apply set_outcome_vstep, SetWithTTL_outcome.
  - by apply set_outcome_vstep, setWithOptions_outcome.
  - pose proof (SetIfAbsent_vstep c d C k v Hwf Hd Hsl) as Hv.
    destruct (SetIfAbsent c C k v) as [C' [er|[|]]]; cbn in *; eauto.
  - pose proof (SetIfPresent_vstep c d C k v Hwf Hd Hsl) as Hv.
    destruct (SetIfPresent c C k v) as [C' [er|[|]]]; cbn in *; eauto.
  - pose proof (GetOrSet_vstep c d C k v Hwf Hd Hsl) as Hv.
    destruct (GetOrSet c C k v) as [C' [er|[? [|]]]]; cbn in *; eauto.
  - pose proof (PeekOrAdd_vstep c d C k v Hwf Hd Hsl) as Hv.
    destruct (PeekOrAdd c C k v) as [C' [er|[? [|]]]]; cbn in *; eauto.
  - apply Hnone. pose proof (Delete_vstep c d C k Hwf Hd) as Hv. destruct (Delete c C k) as [C' b]; apply Hv.
  - by apply Hnone, DeleteIf_vstep.
  - apply Hnone. pose proof (Get_get c d C k Hwf Hd) as Hv. destruct (Get c C k) as [C' b]; apply Hv.
  - apply Hnone. unfold Peek. destruct (g_closed (c_g C)); [by apply vstep_refl|by apply clock_vstep].
  - apply Hnone. unfold Touch. destruct (g_closed (c_g C)); [by apply vstep_refl|by apply touchKey_vstep].
  - apply Hnone. unfold TouchWithTTL. destruct (_ || _); [by apply vstep_refl|by apply touchKey_vstep].
  - by apply Hnone, Clear_vstep.
  - by apply Hnone, Reset_vstep.
  - by apply Hnone, DeleteExpired_vstep.
  - by apply Hnone, InvalidateTag_vstep.
  - by apply Hnone, InvalidateTags_vstep.
  - by apply Hnone, janitor_vstep.
  - by apply Hnone, drain_vstep.
  - destruct (finishLoad_vstep c d C k f r Hwf Hd Hsl) as (W & Hv & HW).
    { by intros ->. }
    exists W. split; [done|]. destruct HW as [?|(v & ttl & -> & ?)]; [by left|by right].
  - apply Hnone. pose proof (GetWithExpiry_vstep c d C k Hwf Hd) as Hv. destruct (GetWithExpiry c C k); apply Hv.
  - by apply Hnone, DeletePrefix_vstep.
  - by apply Hnone, DeleteWhere_vstep.
  - by apply Hnone, GetOrLoadFn_vstep.
  - apply Hnone. unfold Refresh. repeat case_match; by apply vstep_refl || by apply triggerAsyncRefresh_vstep.
  - by apply Hnone, RefreshAll_vstep.
  - by apply Hnone, leaveFlight_vstep.
  - by apply Hnone, abandonLoad_vstep.
  - by apply Hnone, AnnounceLoad_vstep.
Qed.
End run.
