(* ===== verification/Walk.v ===== *)
(** * Walk: visiting every entry of the cache

    Several methods walk the tables of all shards under their locks and
    collect something of each entry: the listings of [diagnose.go], the purge
    visitor, [Clone] and snapshots.  [gather] is such a walk, and the lemmas
    say what it finds. *)

From S2P Require Import Prelude Policy Storage Ttl Entry Tags Flights Shard ShardInv ShardOps ShardBulk.
From S2P Require Import Cache CacheInv CacheOps.

#[local] Open Scope Z_scope.

Lemma NoDup_omap {X Y} (f : X → option Y) (l : list X) :
  NoDup l → (∀ a b y, a ∈ l → b ∈ l → f a = Some y → f b = Some y → a = b) → NoDup (omap f l).
Proof.
  induction 1 as [|a l Ha Hnd IH]; intros Hf; cbn; [constructor|].
  assert (NoDup (omap f l)) as Hl by (apply IH; intros a1 b1 y1 ??; apply Hf; by right).
  destruct (f a) as [y|] eqn:E; [|done]. constructor; [|done].
  intros (b & Hb & Eb)%list_elem_of_omap. apply Ha. by rewrite (Hf a b y); [|left|right|..].
Qed.

Lemma elem_of_joined {X} (x : X) (ls : list (list X)) : x ∈ concat ls ↔ ∃ l, x ∈ l ∧ l ∈ ls.
Proof. rewrite list_elem_of_In in_concat. setoid_rewrite list_elem_of_In. naive_solver. Qed.

(** Lists whose keys tell them apart. *)
Lemma NoDup_concat {X Y} (f : X → Y) (home : Y → nat) (ls : list (list X)) (off : nat) :
  (∀ i l, ls !! i = Some l → NoDup (f <$> l) ∧ ∀ x, x ∈ l → home (f x) = (off + i)%nat) → NoDup (f <$> concat ls).
Proof.
  revert off. induction ls as [|l ls IH]; intros off Hl; cbn; [constructor|]. rewrite fmap_app.
  destruct (Hl 0%nat l eq_refl) as [Hnd Hh]. apply NoDup_app. split_and!; [done| |].
  - intros y (x & -> & Hx)%list_elem_of_fmap (x' & E & Hx')%list_elem_of_fmap.
    apply elem_of_joined in Hx' as (l' & Hx' & [i Hi]%list_elem_of_lookup).
    destruct (Hl (S i) l' Hi) as [_ Hh']. specialize (Hh x Hx). specialize (Hh' x' Hx'). rewrite E in Hh. lia.
  - apply (IH (S off)). intros i l' Hi. destruct (Hl (S i) l' Hi) as [? Hh']. split; [done|]. intros x Hx. rewrite Hh' //. lia.
Qed.

Section walk.
Context {K V P St T A : Type} `{Countable K, Inhabited K, Inhabited V}.
Context `{EvictionPolicy K P, ShardStore K St, TtlBackend T, AdmissionPolicy K A}.

Local Abbreviation entry := (entry K V).
Local Abbreviation shard := (shard K V P St T).
Local Abbreviation cache := (cache K V P St T A).
Implicit Types (c : config K V) (C : cache) (s : shard) (e : entry) (k : K).

(** [storage.each] over one shard, and over the shards in turn. *)
Definition gatherShard {X} (f : entry → option X) s : list X :=
  omap (λ a, sh_heap s !! a ≫= f) (st_each (sh_storage s)).

Definition gather {X} (f : entry → option X) C : list X := concat (gatherShard f <$> c_shards C).

Context `{!PolicyLaws K P, !StoreLaws K St, !TtlLaws T}.

Lemma gatherShard_in {X} (f : entry → option X) c s m D x :
  shard_wf (E := ∅) c s m D → x ∈ gatherShard f s ↔ ∃ k e, sh_lookup s k = Some e ∧ f e = Some x.
Proof.
  intros Hwf. unfold gatherShard. rewrite list_elem_of_omap. split.
  - intros (a & Ha & Hs). rewrite (st_rep_each _ _ (wf_storage _ _ _ _ Hwf)) elem_of_addrs in Ha. destruct Ha as [k Hk].
    apply bind_Some in Hs as (e & He & Hs). exists k, e. by rewrite (wf_lookup _ _ _ _ _ Hwf) Hk.
  - intros (k & e & He & Hf). rewrite (wf_lookup _ _ _ _ _ Hwf) in He. apply bind_Some in He as (a & Ha & He).
    exists a. split; [rewrite (st_rep_each _ _ (wf_storage _ _ _ _ Hwf)) elem_of_addrs; eauto|]. by rewrite He.
Qed.

Lemma gatherShard_nodup {X} (f : entry → option X) (key : X → K) c s m D :
  shard_wf (E := ∅) c s m D → (∀ e x, f e = Some x → key x = e_key e) → NoDup (key <$> gatherShard f s).
Proof.
  intros Hwf Hf. unfold gatherShard. rewrite list_fmap_omap. apply NoDup_omap.
  { rewrite (st_rep_each _ _ (wf_storage _ _ _ _ Hwf)). by eapply NoDup_addrs. }
  intros a b k Ha Hb Ea Eb.
  rewrite (st_rep_each _ _ (wf_storage _ _ _ _ Hwf)) elem_of_addrs in Ha. destruct Ha as [ka Ha].
  rewrite (st_rep_each _ _ (wf_storage _ _ _ _ Hwf)) elem_of_addrs in Hb. destruct Hb as [kb Hb].
  destruct (wf_entry _ _ _ _ Hwf _ _ Ha) as (ea & Hea & Ka & _). destruct (wf_entry _ _ _ _ Hwf _ _ Hb) as (eb & Heb & Kb & _).
  rewrite Hea in Ea. rewrite Heb in Eb. cbn in Ea, Eb. destruct (f ea) as [xa|] eqn:Fa; [|done].
  destruct (f eb) as [xb|] eqn:Fb; [|done]. cbn in Ea, Eb. apply Hf in Fa, Fb. congruence.
Qed.

Lemma entry_home c d C ms i s k e :
  cache_inv c d C ms → c_shards C !! i = Some s → sh_lookup s k = Some e → shardFor c k = i ∧ e_key e = k.
Proof.
  intros HI Hs He. destruct (inv_shard _ _ _ _ _ _ HI Hs) as (m & D & Hm & Hw).
  rewrite (wf_lookup _ _ _ _ _ Hw) in He. apply bind_Some in He as (a & Ha & He).
  split; [eapply (ci_home _ _ _ _ HI); eauto|]. destruct (wf_entry _ _ _ _ Hw _ _ Ha) as (e' & He' & Hk & _). congruence.
Qed.

Lemma lookup_home c d C k e : cache_wf c d C → shard_get c C k = Some e → e_key e = k.
Proof.
  intros [ms HI] He. unfold shard_get in He. apply bind_Some in He as (s & Hs & He). by eapply entry_home.
Qed.

(** A walk finds every entry once. *)
Lemma gather_in {X} (f : entry → option X) c d C x :
  cache_wf c d C → x ∈ gather f C ↔ ∃ k e, shard_get c C k = Some e ∧ f e = Some x.
Proof.
  intros [ms HI]. unfold gather. rewrite elem_of_joined. split.
  - intros (l & Hin & (s & -> & [i Hs]%list_elem_of_lookup)%list_elem_of_fmap).
    destruct (inv_shard _ _ _ _ _ _ HI Hs) as (m & D & Hm & Hw).
    apply (gatherShard_in _ _ _ _ _ _ Hw) in Hin as (k & e & He & Hx). exists k, e. split; [|done].
    destruct (entry_home _ _ _ _ _ _ _ _ HI Hs He) as [E _]. by rewrite (shard_get_lookup _ _ _ s) // E.
  - intros (k & e & He & Hx). unfold shard_get in He. apply bind_Some in He as (s & Hs & He).
    exists (gatherShard f s). destruct (inv_shard _ _ _ _ _ _ HI Hs) as (m & D & Hm & Hw). split.
    + apply (gatherShard_in _ _ _ _ _ _ Hw). by exists k, e.
    + apply list_elem_of_fmap_2. by eapply list_elem_of_lookup_2.
Qed.

Lemma gather_nodup {X} (f : entry → option X) (key : X → K) c d C :
  cache_wf c d C → (∀ e x, f e = Some x → key x = e_key e) → NoDup (key <$> gather f C).
Proof.
  intros [ms HI] Hf. apply (NoDup_concat key (shardFor c) _ 0). intros i l. rewrite list_lookup_fmap.
  destruct (c_shards C !! i) as [s|] eqn:Hs; [|done]. intros [= <-].
  destruct (inv_shard _ _ _ _ _ _ HI Hs) as (m & D & Hm & Hw). split; [by eapply gatherShard_nodup|].
  intros x (k & e & He & Hx)%(gatherShard_in _ _ _ _ _ _ Hw). destruct (entry_home _ _ _ _ _ _ _ _ HI Hs He) as [<- <-].
  by rewrite (Hf e x).
Qed.
End walk.
