(* ===== verification/Restore.v ===== *)
(** * Restore: snapshots of the cache (the cache side of [snapshot.go])

    [snapshotEntries] stages the live entries, shard by shard; [saveTo] of
    [Snapshot] writes them.  [loadInto] reads a whole snapshot first, then
    resets the cache (unless it merges) and inserts the records one by one
    through [admitSnapshotRecord] and [applySnapshot].

    Shown here: a load keeps the invariant and the bounds and shows nothing
    but what the file or the cache held ([loadStaged_ok]); records that fit
    the bounds are all kept ([fold_keeps]); what is staged are the live
    entries, each once ([staged_spec]).  [SaveLoad] puts these together. *)

From stdpp Require Import strings.
From S2P Require Import Prelude Codec Snapshot.
From S2P Require Import Policy Storage Ttl Entry Tags Flights Shard ShardInv ShardOps ShardBulk.
From S2P Require Import Cache CacheInv CacheOps CacheReads CacheRun CacheKeep CacheBulk Walk.

#[local] Open Scope Z_scope.

(** The [string] of bytes. *)
Definition bytes_str (b : bytes) : string := String.string_of_list_ascii ((λ z, Ascii.ascii_of_nat (Z.to_nat z)) <$> b).

Lemma bytes_str_bytes s : bytes_str (str_bytes s) = s.
Proof.
  unfold bytes_str, str_bytes. rewrite -list_fmap_compose.
  rewrite (list_fmap_ext _ id); [by rewrite list_fmap_id String.string_of_list_ascii_of_string|].
  intros i a _. cbn. by rewrite Nat2Z.id Ascii.ascii_nat_embedding.
Qed.

Section restore.
Context {K V P St T A : Type} `{Countable K, Inhabited K, Inhabited V}.
Context `{EvictionPolicy K P, ShardStore K St, TtlBackend T, AdmissionPolicy K A}.

Local Abbreviation entry := (entry K V).
Local Abbreviation config := (config K V).
Local Abbreviation globals := (globals K V A).
Local Abbreviation shard := (shard K V P St T).
Local Abbreviation cache := (cache K V P St T A).
Local Abbreviation record := (entrySnapshot K V).
Implicit Types (c : config) (C : cache) (g : globals) (s : shard) (e : entry) (m : gmap K loc)
  (k : K) (v : V) (ms : list (gmap K loc)) (d : Z) (snap : record).

(** ** Staging *)

(** Skipped by the visitor of [snapshotEntries]. *)
Definition staged_skips (now : Z) e : bool := entry_expired e now || e_has e flagNegative.

Definition snapOf e : record :=
  Snap K V (e_key e) (loadValue e) (e_expireAt e) (e_weight e) (e_inserted e) (e_hits e)
    (Z.land (e_flags e) flagSliding) (if e_has e flagSliding then e_slidingTTL e else 0) (str_bytes <$> e_tags e).

Definition stageShard (now : Z) s : list record :=
  omap (λ a, e ← sh_heap s !! a; if staged_skips now e then None else Some (snapOf e)) (st_each (sh_storage s)).

Definition snapshotEntries c C : list record * cache :=
  let '(now, g) := clockNow c (c_g C) in
  (concat (stageShard now <$> c_shards C), set_g C g).

(** ** Applying *)

Definition with_weight snap (w : Z) : record :=
  Snap K V (sn_key snap) (sn_value snap) (sn_expireAt snap) w (sn_inserted snap) (sn_hits snap)
    (sn_flags snap) (sn_slidingTTL snap) (sn_tags snap).

(** The record with the weight it is loaded with, when it may be loaded. *)
Definition admitSnapshotRecord c g snap : option record :=
  match checkKeySize c (sn_key snap) with
  | Some _ => None
  | None =>
      let weight := match cf_weigher c with
                    | Some _ => weighOf c (sn_value snap)
                    | None => clampWeight (sn_weight snap)
                    end in
      let tags := bytes_str <$> sn_tags snap in
      if bool_decide (0 < cf_maxValueWeight c) && bool_decide (cf_maxValueWeight c < weight) then None
      else if bool_decide (tags ≠ []) && bool_decide (is_Some (checkTagLimits c g tags)) then None
      else Some (with_weight snap weight)
  end.

(** The field writes of [applySnapshot], on a pooled entry. *)
Definition entry_restore e snap : entry :=
  let e := set_identity e (sn_key snap) (sn_inserted snap) in
  let e := storeValue e (sn_value snap) in
  let e := set_weight e (sn_weight snap) in
  let e := set_times e (sn_expireAt snap) (sn_inserted snap) in
  let e := set_hits e (sn_hits snap) in
  let e := if flags_has (Z.land (sn_flags snap) 0xff) flagSliding then set_sliding e flagSliding (sn_slidingTTL snap) else e in
  match sn_tags snap with [] => e | _ => set_tags e (bytes_str <$> sn_tags snap) end.

Fixpoint evictTotal_loop (fuel : nat) c g s : globals * shard :=
  match fuel with
  | O => (g, s)
  | S fuel =>
      let limit := g_maxEntries g in
      if bool_decide (0 < limit) && bool_decide (limit < g_entries g) && bool_decide (0 < st_length (sh_storage s)) then
        match shedVictim (sh_policy s) false with
        | (None, p) => (g, sh_set_policy s p)
        | (Some v, p) =>
            let '(g, s) := removeLocked c g (sh_set_policy s p) v.1 EvictReasonCapacity in
            evictTotal_loop fuel c (g_count g evictions 1) s
        end
      else (g, s)
  end.

(** Every turn removes an entry of the shard. *)
Definition evictOverTotalLocked c g s : globals * shard :=
  evictTotal_loop (S (Z.to_nat (st_length (sh_storage s)))) c g s.

Definition applySnapshotLocked c g s snap : globals * shard :=
  let key := sn_key snap in
  let s := sh_set_flights s (supersedeFlight (sh_flights s) key) (sh_nextFlight s) in
  if g_sealed g then (g, s)
  else
    let '(g, s) := match st_get (sh_storage s) key with
                   | Some a => removeLocked c g s a EvictReasonReplaced
                   | None => (g, s)
                   end in
    let '(a, s) := pool_get c s in
    match sh_heap s !! a with
    | None => (g, s)
    | Some e =>
        let s := sh_write s a (entry_restore e snap) in
        let s := register s key a in
        let g := retagLocked g key [] (bytes_str <$> sn_tags snap) in
        let g := g_live g 1 (sn_weight snap) in
        let s := if bool_decide (0 < sn_expireAt snap) then startJanitorLocked c g s else s in
        evictOverTotalLocked c g s
    end.

Definition applySnapshot c C snap : cache :=
  let i := shardFor c (sn_key snap) in
  flushAndUnlock c (locked_ C i (λ g s, applySnapshotLocked c g s snap)) i.

Definition record_expired (now : Z) snap : bool :=
  bool_decide (sn_expireAt snap ≠ 0) && bool_decide (sn_expireAt snap <= now).

(** The body of [loadInto]'s loop. *)
Definition loadRecord c (now : Z) (acc : cache * Z) snap : cache * Z :=
  let '(C, loaded) := acc in
  if record_expired now snap then (C, loaded)
  else match admitSnapshotRecord c (c_g C) snap with
       | None => (C, loaded)
       | Some snap => (applySnapshot c C snap, loaded + 1)
       end.

(** [stampSnapshot] and [publishEvent] each read the clock. *)
Definition publishSnapshot c C : cache :=
  let '(_, g) := clockNow c (c_g C) in
  let '(at_, g) := clockNow c g in
  set_g C (if cf_events c then emit g [FxEventSnapshot at_] else g).

Definition loadStaged c C (reset : bool) (staged : list record) : cache * Z :=
  let C := if reset then Reset_ c C else C in
  let '(now, g) := clockNow c (c_g C) in
  let '(C, loaded) := foldl (loadRecord c now) (set_g C g, 0) staged in
  (publishSnapshot c C, loaded).

Definition loadInto (L : codecEnv) (Y : snapTypes K V) (sc : snapConfig K V) c C (input : bytes) (reset : bool) : cache * res Z :=
  if g_closed (c_g C) then (C, inl Codec.ErrClosed)
  else match readSnapshot L Y sc input with
       | inl e => (C, inl e)
       | inr staged => let '(C, n) := loadStaged c C reset staged in (C, inr n)
       end.

Definition Load L Y sc c C input := loadInto L Y sc c C input true.
Definition Merge L Y sc c C input := loadInto L Y sc c C input false.

End restore.

Section restore_ok.
Context {K V P St T A : Type} `{Countable K, Inhabited K, Inhabited V}.
Context `{EvictionPolicy K P, ShardStore K St, TtlBackend T, AdmissionPolicy K A}.
Context `{!PolicyLaws K P, !StoreLaws K St, !TtlLaws T}.

Local Abbreviation shard_wf := (shard_wf (E := ∅)).
Local Abbreviation ok_step := (ok_step (E := ∅)).
Local Abbreviation entry := (entry K V).
Local Abbreviation config := (config K V).
Local Abbreviation globals := (globals K V A).
Local Abbreviation shard := (shard K V P St T).
Local Abbreviation cache := (cache K V P St T A).
Local Abbreviation record := (entrySnapshot K V).
Implicit Types (c : config) (C : cache) (g : globals) (s : shard) (e : entry) (m : gmap K loc)
  (k : K) (v : V) (ms : list (gmap K loc)) (d : Z) (snap : record).

(** ** One record *)

Lemma evictTotal_ok c fuel g s m D :
  shard_wf c s m D →
  let '(g', s') := evictTotal_loop fuel c g s in ∃ m', ok_step c None g s m g' s' m'.
Proof.
  revert g s m D. induction fuel as [|fuel IH]; intros g s m D Hwf; cbn; [exists m; by eapply ok_refl|].
  destruct (_ && _ && _); [|exists m; by eapply ok_refl].
  pose proof (tracks_shedVictim (sh_policy s) _ false (wf_policy _ _ _ _ Hwf)) as Hv.
  destruct (shedVictim (sh_policy s) false) as [[[a k]|] p]; cbn in Hv |- *.
  - destruct Hv as [Hk%elem_of_erefs Hp].
    pose proof (remove_ok_gen c g s m D k a EvictReasonCapacity p Hwf Hk Hp) as Hrm.
    destruct (removeLocked c g _ a EvictReasonCapacity) as [g2 s2].
    pose proof (ok_count _ _ _ _ _ _ _ _ evictions 1 Hrm) as Hrm'.
    destruct (os_wf _ _ _ _ _ _ _ _ Hrm) as [D2 Hw2].
    specialize (IH (g_count g2 evictions 1) s2 (delete k m) D2 Hw2).
    destruct (evictTotal_loop fuel c _ s2) as [g3 s3]. destruct IH as (m' & Hok). exists m'.
    exact (ok_trans _ _ _ _ _ _ _ _ _ _ _ _ Hrm' Hok (or_introl eq_refl)).
  - exists m. pose proof (set_policy_wf _ _ _ _ _ Hwf Hv) as Hw'. constructor; try done; eauto. by intros ??.
Qed.

Lemma restore_ok c snap : 1 <= sn_weight snap → entry_ok (sn_key snap) (entry_restore (entry_blank : entry) snap).
Proof. intros Hw. unfold entry_restore. split_and!; repeat case_match; done. Qed.

Lemma restore_weight snap : e_weight (entry_restore (entry_blank : entry) snap) = sn_weight snap.
Proof. unfold entry_restore. by repeat case_match. Qed.

Lemma restore_tags snap : e_tags (entry_restore (entry_blank : entry) snap) = bytes_str <$> sn_tags snap.
Proof. unfold entry_restore. destruct (sn_tags snap) eqn:E; by repeat case_match. Qed.

Lemma evictTotal_noop c fuel g s :
  g_maxEntries g <= 0 ∨ g_entries g <= g_maxEntries g → evictTotal_loop fuel c g s = (g, s).
Proof. intros Hb. destruct fuel; [done|]. cbn. repeat case_bool_decide; cbn; try done; lia. Qed.

(** The insertion half: the key is not in the table. *)
Lemma apply_insert c g s m D snap :
  shard_wf c s m D → m !! sn_key snap = None → 1 <= sn_weight snap →
  let '(a, s1) := pool_get c s in
  sh_heap s1 !! a = Some entry_blank ∧
  ∀ j, let g1 := g_live (retagLocked g (sn_key snap) [] (bytes_str <$> sn_tags snap)) 1 (sn_weight snap) in
    let s2 := sh_set_janitor (register (sh_write s1 a (entry_restore entry_blank snap)) (sn_key snap) a) j in
    ok_step c (Some (sn_key snap, entry_restore entry_blank snap)) g s m g1 s2 (<[sn_key snap := a]> m).
Proof.
  intros Hwf Hk Hw. set (k := sn_key snap) in *. set (e' := entry_restore entry_blank snap).
  destruct (retag_spec g k [] (bytes_str <$> sn_tags snap)) as (R1 & R2 & R3 & R4 & R5).
  set (g1 := g_live _ 1 _). pose proof (pool_get_wf c s m D Hwf) as Hp.
  pose proof (insert_ok c g s m D k e' g1 Hwf Hk (restore_ok c snap Hw)) as Hi.
  destruct (pool_get c s) as [a s1]. split; [by apply Hp|]. intros j. cbv zeta.
  eapply ok_frame; [apply Hi|done..]; cbn.
  - lia.
  - rewrite /e' restore_weight. lia.
  - exact R3.
  - exact R4.
  - rewrite /e' restore_tags. exact R5.
Qed.

Lemma apply_ok c g s m D snap :
  shard_wf c s m D → 1 <= sn_weight snap → g_sealed g = false →
  let '(g', s') := applySnapshotLocked c g s snap in
  ∃ m', ok_step c (Some (sn_key snap, entry_restore entry_blank snap)) g s m g' s' m' ∧
    (m !! sn_key snap = None → g_maxEntries g <= 0 ∨ g_entries g < g_maxEntries g →
     size m' = S (size m) ∧ g_bytes g' = g_bytes g + sn_weight snap ∧ g_entries g' = g_entries g + 1).
Proof.
  intros Hwf Hw Hsl. unfold applySnapshotLocked. rewrite Hsl. set (s0 := sh_set_flights s _ _).
  assert (shard_wf c s0 m D) as Hw0 by by apply (wf_ext c s). rewrite (wf_get _ _ _ _ _ Hw0).
  set (k := sn_key snap) in *.
  assert (∃ g1 s1 m1 D1, (match m !! k with Some a => removeLocked c g s0 a EvictReasonReplaced | None => (g, s0) end) = (g1, s1) ∧
    ok_step c None g s m g1 s1 m1 ∧ shard_wf c s1 m1 D1 ∧ m1 !! k = None ∧ (m !! k = None → g1 = g ∧ m1 = m))
    as (g1 & s1 & m1 & D1 & -> & Hok1 & Hw1 & Hk1 & Hsame).
  { assert (ok_step c None g s m g s0 m) as Hok0 by (eapply ok_frame; [by eapply ok_refl|done..]).
    destruct (m !! k) as [a|] eqn:Hk.
    - pose proof (remove_ok c g s0 m D k a EvictReasonReplaced Hw0 Hk) as Hrm.
      destruct (removeLocked c g s0 a EvictReasonReplaced) as [g1 s1].
      destruct (os_wf _ _ _ _ _ _ _ _ Hrm) as [D1 Hw1]. exists g1, s1, (delete k m), D1. split_and!; try done.
      + exact (ok_trans _ _ _ _ _ _ _ _ _ _ _ _ Hok0 Hrm (or_introl eq_refl)).
      + apply lookup_delete_eq.
    - by exists g, s0, m, D. }
  pose proof (apply_insert c g1 s1 m1 D1 snap Hw1 Hk1 Hw) as Hins. destruct (pool_get c s1) as [a s2].
  destruct Hins as [-> Hins]. cbn zeta beta iota.
  match goal with |- context [if bool_decide (0 < sn_expireAt snap) then startJanitorLocked c ?gg ?ss else _] =>
    destruct (maybe_janitor_frame c gg ss (bool_decide (0 < sn_expireAt snap))) as [j Hj] end.
  rewrite Hj. specialize (Hins j). cbv zeta in Hins. set (g2 := g_live _ 1 _) in *. set (s3 := sh_set_janitor _ j) in *.
  pose proof (ok_trans _ _ _ _ _ _ _ _ _ _ _ _ Hok1 Hins (or_introl eq_refl)) as Hok2. cbn in Hok2.
  destruct (os_wf _ _ _ _ _ _ _ _ Hok2) as [D3 Hw3]. unfold evictOverTotalLocked.
  pose proof (evictTotal_ok c (S (Z.to_nat (st_length (sh_storage s3)))) g2 s3 _ D3 Hw3) as Hev.
  pose proof (evictTotal_noop c (S (Z.to_nat (st_length (sh_storage s3)))) g2 s3) as Hno.
  destruct (evictTotal_loop _ c g2 s3) as [g4 s4]. destruct Hev as [m' Hev].
  exists m'. split; [exact (ok_trans _ _ _ _ _ _ _ _ _ _ _ _ Hok2 Hev (or_intror eq_refl))|].
  intros Hk Hroom. destruct (Hsame Hk) as [-> ->].
  destruct (retag_spec g k [] (bytes_str <$> sn_tags snap)) as (R1 & R2 & R3 & _ & _).
  assert (g_maxEntries g2 = g_maxEntries g) as HM by apply R3. assert (g_entries g2 = g_entries g + 1) as HE by (cbn; lia).
  assert (g_bytes g2 = g_bytes g + sn_weight snap) as HB by (cbn; lia).
  assert ((g4, s4) = (g2, s3)) as [= -> ->] by (apply Hno; lia). split_and!; [|done|done].
  pose proof (os_entries _ _ _ _ _ _ _ _ Hev). assert (size (<[k := a]> m) = S (size m)) by by apply map_size_insert_None. unfold k in *. lia.
Qed.

(** ** The loop *)

Lemma admit_weight c g snap snap' :
  admitSnapshotRecord c g snap = Some snap' → ∃ w, 1 <= w ∧ snap' = with_weight snap w.
Proof.
  unfold admitSnapshotRecord. destruct (checkKeySize c (sn_key snap)); [done|].
  destruct (bool_decide (0 < cf_maxValueWeight c) && _); [done|]. destruct (bool_decide (_ ≠ []) && _); [done|].
  intros [= <-]. eexists. split; [|done]. destruct (cf_weigher c); [apply weighOf_ge|apply clampWeight_bounds].
Qed.

(** A cache that can be written to. *)
Definition writable c C : Prop := cache_wf c 0 C ∧ overBudget (c_g C) = false ∧ g_sealed (c_g C) = false.

Lemma apply_cstep c C snap :
  writable c C → 1 <= sn_weight snap →
  cstep c 0 (Some (sn_key snap, entry_restore entry_blank snap)) C (applySnapshot c C snap) ∧ writable c (applySnapshot c C snap).
Proof.
  intros ([ms HI] & Ho & Hsl) Hw. unfold applySnapshot. set (i := shardFor c (sn_key snap)).
  assert (cstep c 0 (Some (sn_key snap, entry_restore entry_blank snap)) C
    (locked_ C i (λ g s, applySnapshotLocked c g s snap))) as Hst.
  { unfold locked_. match goal with |- context [locked C ?i ?f tt] =>
      pose proof (locked_spec c 0 C ms i f tt (λ C' _, cstep c 0 (Some (sn_key snap, entry_restore entry_blank snap)) C C') HI) as HL;
      destruct (locked C i f tt) as [C' []]; apply HL end; [by eapply home_lt|].
    intros s m D Hs Hm Hwf. pose proof (apply_ok c (c_g C) s m D snap Hwf Hw Hsl) as Hu.
    destruct (applySnapshotLocked c (c_g C) s snap) as [g' s']. destruct Hu as (m' & Hok & _).
    eapply locked_cstep; [exact HI|exact Hs|exact Hm|exact Hok|]. by intros k [= <-]. }
  destruct (locked_flush_ok c 0 _ C _ i Hst (Z.le_refl 0)) as [F1 F2]. split; [done|]. split_and!; [apply F1|done|].
  destruct (cs_closed _ _ _ _ _ F1). congruence.
Qed.

(** An entry that the file gave. *)
Definition restored (staged : list record) k e : Prop :=
  ∃ snap w, snap ∈ staged ∧ sn_key snap = k ∧ e = entry_restore entry_blank (with_weight snap w).

Lemma load_loop c now staged C n :
  writable c C →
  let C' := (foldl (loadRecord c now) (C, n) staged).1 in
  writable c C' ∧ ∀ k e, shard_get c C' k = Some e → shard_get c C k = Some e ∨ restored staged k e.
Proof.
  revert C n. induction staged as [|snap staged IH]; intros C n Hw; cbn; [by split; [|left]|].
  assert (∀ C1 n1, writable c C1 → (∀ k e, shard_get c C1 k = Some e → shard_get c C k = Some e ∨ restored [snap] k e) →
    let C' := (foldl (loadRecord c now) (C1, n1) staged).1 in
    writable c C' ∧ ∀ k e, shard_get c C' k = Some e → shard_get c C k = Some e ∨ restored (snap :: staged) k e) as Hgo.
  { intros C1 n1 Hw1 H1'. cbv zeta. destruct (IH C1 n1 Hw1) as [I1 I2]. split; [done|].
    intros k e [He|(sn & w & Hin & ?)]%I2; [apply H1' in He as [?|(sn & w & Hin & ?)]|]; [by left|right..];
      exists sn, w; set_solver. }
  unfold loadRecord at 2. destruct (record_expired now snap); [apply Hgo; [done|by left]|].
  destruct (admitSnapshotRecord c (c_g C) snap) as [snap'|] eqn:Ea; [|apply Hgo; [done|by left]].
  destruct (admit_weight _ _ _ _ Ea) as (w & Hw1 & ->). destruct (apply_cstep c C (with_weight snap w) Hw Hw1) as [A1 A2].
  apply Hgo; [done|]. intros k e He. apply (cs_effect _ _ _ _ _ A1) in He. cbn in He. case_decide as Hk; [|by left].
  right. exists snap, w. split; [set_solver|done].
Qed.

Lemma env_writable c C g :
  writable c C → g_entries g = g_entries (c_g C) → g_bytes g = g_bytes (c_g C) → g_tags g = g_tags (c_g C) →
  same_fixed (c_g C) g → writable c (set_g C g).
Proof.
  intros (Hwf & Ho & Hsl) E1 E2 E3 (E4 & E5 & E6 & E7 & _). split_and!.
  - by apply (set_g_cstep c 0 C g).
  - cbn. revert Ho. unfold overBudget. by rewrite E1 E2 E4 E5.
  - cbn. congruence.
Qed.

Lemma loadStaged_ok c C reset staged :
  writable c C →
  let C' := (loadStaged c C reset staged).1 in
  writable c C' ∧ ∀ k e, shard_get c C' k = Some e → (reset = false ∧ shard_get c C k = Some e) ∨ restored staged k e.
Proof.
  intros Hw. unfold loadStaged. set (C0 := if reset then Reset_ c C else C).
  assert (writable c C0 ∧ ∀ k e, shard_get c C0 k = Some e → reset = false ∧ shard_get c C k = Some e) as [Hw0 H0'].
  { unfold C0. destruct reset; [|by split]. destruct Hw as (Hwf & Ho & Hsl).
    pose proof (Reset_vstep c 0 C Hwf (Z.le_refl 0)) as Hv. split.
    - split_and!; [apply Hv|by apply (vs_over _ _ _ _ _ Hv)|]. destruct (vs_closed _ _ _ _ _ Hv). congruence.
    - intros k e. rewrite Reset_get //. }
  cbn. set (C1 := set_g C0 _). assert (writable c C1) as Hw1 by (by apply env_writable).
  destruct (load_loop c (cf_clock c (g_tick (c_g C0))) staged C1 0 Hw1) as [L1 L2].
  destruct (foldl _ _ staged) as [C2 n]. cbn in L1, L2 |- *. split.
  - apply env_writable; [done|by destruct (cf_events c)..].
  - intros k e He. destruct (L2 k e) as [?|?]; [done|left; by apply H0'|by right].
Qed.

(** The number of shards and the bounds. *)
Definition dims C : nat * Z * Z := (length (c_shards C), g_maxEntries (c_g C), g_maxBytes (c_g C)).

Lemma load_loop_dims c now staged C n :
  writable c C → dims (foldl (loadRecord c now) (C, n) staged).1 = dims C.
Proof.
  revert C n. induction staged as [|snap staged IH]; intros C n Hw; cbn [foldl]; [done|].
  unfold loadRecord at 2. destruct (record_expired now snap); [by apply IH|].
  destruct (admitSnapshotRecord c (c_g C) snap) as [snap'|] eqn:Ea; [|by apply IH].
  destruct (admit_weight _ _ _ _ Ea) as (w & Hw1 & ->).
  destruct (apply_cstep c C (with_weight snap w) Hw Hw1) as [A1 A2]. rewrite IH //.
  destruct (cs_bounds _ _ _ _ _ A1). unfold dims. rewrite (cs_len _ _ _ _ _ A1). congruence.
Qed.

Lemma loadStaged_dims c C reset staged : writable c C → dims (loadStaged c C reset staged).1 = dims C.
Proof.
  intros Hw. unfold loadStaged. set (C0 := if reset then Reset_ c C else C).
  assert (writable c C0 ∧ dims C0 = dims C) as [Hw0 <-].
  { unfold C0. destruct reset; [|done]. destruct Hw as (Hwf & Ho & Hsl).
    pose proof (Reset_vstep c 0 C Hwf (Z.le_refl 0)) as [V1 V2 V3 [V4 V5] [_ V6] V7].
    split; [split_and!; auto; congruence|]. unfold dims. rewrite V3 V4 V5 //. }
  cbn. set (C1 := set_g C0 _). assert (writable c C1) as Hw1 by (by apply env_writable).
  pose proof (load_loop_dims c (cf_clock c (g_tick (c_g C0))) staged C1 0 Hw1) as Hl.
  destruct (foldl _ _ staged) as [C2 n]. cbn in Hl |- *. change (dims C1) with (dims C0) in Hl. rewrite -Hl.
  unfold publishSnapshot, dims. cbn. by destruct (cf_events c).
Qed.

(** ** Records that fit are kept *)

(** Within the bounds the unlock leaves the counters alone. *)
Lemma flush_counters c C i :
  overBudget (c_g C) = false →
  g_entries (c_g (flushAndUnlock c C i)) = g_entries (c_g C) ∧ g_bytes (c_g (flushAndUnlock c C i)) = g_bytes (c_g C).
Proof.
  intros Ho. unfold flushAndUnlock, shedOverBudget. cbn [shed_passes]. rewrite releaseShard_over Ho. cbn.
  unfold releaseShard, locked_, locked. by destruct (c_shards C !! i).
Qed.

(** The bounds hold [n] more entries of total weight [w]. *)
Definition spare C (n w : Z) : Prop :=
  (g_maxEntries (c_g C) <= 0 ∨ g_entries (c_g C) + n <= g_maxEntries (c_g C)) ∧
  (g_maxBytes (c_g C) <= 0 ∨ g_bytes (c_g C) + w <= g_maxBytes (c_g C)).

Lemma apply_keeps c C snap :
  writable c C → 1 <= sn_weight snap → shard_get c C (sn_key snap) = None → spare C 1 (sn_weight snap) →
  let C' := applySnapshot c C snap in
  shard_get c C' (sn_key snap) = Some (entry_restore entry_blank snap) ∧
  (∀ k, k ≠ sn_key snap → shard_get c C' k = shard_get c C k) ∧
  g_entries (c_g C') = g_entries (c_g C) + 1 ∧ g_bytes (c_g C') = g_bytes (c_g C) + sn_weight snap.
Proof.
  intros ([ms HI] & Ho & Hsl) Hw Hnone [S1 S2]. unfold applySnapshot. set (k := sn_key snap) in *. set (i := shardFor c k).
  destruct (lookup_lt_is_Some_2 _ _ (home_lt _ _ _ _ k HI)) as [s Hs]. fold i in Hs.
  destruct (inv_shard _ _ _ _ _ _ HI Hs) as (m & D & Hm & Hwf). unfold locked_, locked. rewrite Hs.
  pose proof (apply_ok c (c_g C) s m D snap Hwf Hw Hsl) as Hu.
  destruct (applySnapshotLocked c (c_g C) s snap) as [g' s']. destruct Hu as (m' & Hok & Hfit). cbn.
  assert (m !! k = None) as Hk.
  { rewrite (shard_get_lookup _ _ _ _ Hs) (wf_lookup _ _ _ _ _ Hwf) in Hnone. destruct (m !! k) as [a|] eqn:Hk; [|done].
    destruct (wf_entry _ _ _ _ Hwf _ _ Hk) as (e & He & _). cbn in Hnone. congruence. }
  destruct Hfit as (Hsz & Hby & Hen); [done|lia|].
  destruct (ok_exact _ _ _ _ _ _ _ _ _ _ Hwf Hok) as [X1 X2]; [by rewrite map_size_insert_None|].
  set (C1 := Cache g' _). assert (overBudget (c_g C1) = false) as Ho1.
  { destruct (os_fixed _ _ _ _ _ _ _ _ Hok) as (M1 & M2 & _). unfold overBudget. cbn. rewrite M1 M2 Hen Hby.
    repeat case_bool_decide; cbn; try done; lia. }
  destruct (flush_counters c C1 i Ho1) as [-> ->]. assert (i < length (c_shards C))%nat as Hi by by eapply lookup_lt_Some.
  split_and!; [| |done|done].
  - rewrite flush_get // (shard_get_lookup _ _ _ s') //. cbn. by rewrite list_lookup_insert_eq.
  - intros k' Hne. rewrite flush_get //. destruct (decide (shardFor c k' = i)) as [Hk'|Hk'].
    + rewrite (shard_get_lookup _ _ _ s'); [|by cbn; rewrite Hk' list_lookup_insert_eq].
      rewrite (shard_get_lookup _ _ _ s); [|by rewrite Hk']. by apply X2.
    + unfold shard_get. cbn. by rewrite list_lookup_insert_ne.
Qed.

(** The weight a record is loaded with. *)
Definition loadWeight c snap : Z :=
  match cf_weigher c with Some _ => weighOf c (sn_value snap) | None => clampWeight (sn_weight snap) end.

(** The cache's limits take the record, whatever tags it holds by then. *)
Definition takes c snap : Prop :=
  checkKeySize c (sn_key snap) = None ∧ (cf_maxValueWeight c <= 0 ∨ loadWeight c snap <= cf_maxValueWeight c) ∧
  ∀ g, checkTagLimits c g (bytes_str <$> sn_tags snap) = None.

Lemma takes_record c g snap : takes c snap → admitSnapshotRecord c g snap = Some (with_weight snap (loadWeight c snap)).
Proof.
  intros (T1 & T2 & T3). unfold admitSnapshotRecord. rewrite T1. fold (loadWeight c snap). rewrite T3.
  rewrite (bool_decide_false (is_Some None)); [|by intros [??]]. rewrite andb_false_r.
  destruct (bool_decide (0 < _) && _) eqn:E; [|done]. apply andb_prop in E as [E1%bool_decide_eq_true E2%bool_decide_eq_true]. lia.
Qed.

Lemma loadWeight_ge c snap : 1 <= loadWeight c snap.
Proof. unfold loadWeight. destruct (cf_weigher c); [apply weighOf_ge|apply clampWeight_bounds]. Qed.

Lemma fold_keeps c now staged C n :
  writable c C → NoDup (sn_key <$> staged) → (∀ snap, snap ∈ staged → takes c snap ∧ shard_get c C (sn_key snap) = None) →
  spare C (Z.of_nat (length staged)) (sumZ (loadWeight c <$> staged)) →
  let '(C', n') := foldl (loadRecord c now) (C, n) staged in
  (∀ snap, snap ∈ staged → shard_get c C' (sn_key snap) =
     if record_expired now snap then None else Some (entry_restore entry_blank (with_weight snap (loadWeight c snap)))) ∧
  (∀ k, k ∉ (sn_key <$> staged) → shard_get c C' k = shard_get c C k) ∧
  g_entries (c_g C') - g_entries (c_g C) = n' - n.
Proof.
  revert C n. induction staged as [|snap l IH]; intros C n Hw Hnd Hin Hsp; cbn [foldl].
  { split_and!; [by intros ? ?%elem_of_nil|done|lia]. }
  cbn in Hnd. apply NoDup_cons in Hnd as [Hk Hnd]. destruct (Hin snap) as [Ht Hnone]; [left|].
  cbn [length fmap list_fmap] in Hsp. rewrite sumZ_cons in Hsp. destruct Hsp as [Sp1 Sp2].
  pose proof (loadWeight_ge c snap) as Hge.
  assert (0 <= sumZ (loadWeight c <$> l)) as Hpos.
  { clear. induction l as [|x l IHl]; [done|]. cbn. rewrite sumZ_cons. pose proof (loadWeight_ge c x). lia. }
  unfold loadRecord at 2. destruct (record_expired now snap) eqn:Ex.
  - specialize (IH C n Hw Hnd). destruct (foldl _ _ l) as [C' n'].
    destruct IH as (I1 & I2 & I3); [intros x Hx; apply Hin; by right|split; lia|]. split_and!; [| |done].
    + intros x [->|Hx]%elem_of_cons; [|by apply I1]. by rewrite Ex I2.
    + intros k [_ Hk']%not_elem_of_cons. by apply I2.
  - rewrite (takes_record _ _ _ Ht). set (w := with_weight _ _).
    destruct (apply_cstep c C w Hw Hge) as [A1 A2]. destruct (apply_keeps c C w Hw Hge Hnone) as (K1 & K2 & K3 & K4).
    { split; cbn; lia. }
    destruct (cs_bounds _ _ _ _ _ A1) as [M1 M2].
    specialize (IH (applySnapshot c C w) (n + 1) A2 Hnd). destruct (foldl _ _ l) as [C' n'].
    destruct IH as (I1 & I2 & I3).
    { intros x Hx. destruct (Hin x) as [? Hn]; [by right|]. split; [done|]. rewrite K2 //.
      intros E. apply Hk. cbn in E. rewrite -E. by apply list_elem_of_fmap_2. }
    { unfold spare. rewrite M1 M2 K3 K4. cbn. split; lia. }
    split_and!; [| |lia].
    + intros x [->|Hx]%elem_of_cons; [|by apply I1]. rewrite Ex I2 //.
    + intros k [Hne Hk']%not_elem_of_cons. rewrite I2 // K2 //.
Qed.

(** ** What is staged *)

Lemma staged_spec c d C :
  cache_wf c d C →
  let now := cf_clock c (g_tick (c_g C)) in
  NoDup (sn_key <$> (snapshotEntries c C).1) ∧
  ∀ snap, snap ∈ (snapshotEntries c C).1 ↔
    ∃ k e, shard_get c C k = Some e ∧ staged_skips now e = false ∧ snap = snapOf e.
Proof.
  intros Hwf now. set (f e := if staged_skips now e then None else Some (snapOf e)).
  assert ((snapshotEntries c C).1 = gather f C) as -> by done. split.
  - apply (gather_nodup _ _ c d); [done|]. unfold f. intros e x. destruct (staged_skips now e); [done|]. by intros [= <-].
  - intros snap. rewrite (gather_in _ c d) //. unfold f. split; intros (k & e & He & Hx); exists k, e; (split; [done|]).
    + destruct (staged_skips now e); [done|]. by injection Hx.
    + by destruct Hx as [-> ->].
Qed.

End restore_ok.
