(* ===== verification/Close.v ===== *)
(** * Close: shutting a cache down ([Close] of [cache.go])

    [Close] marks the cache closed, saves a last snapshot, seals it against
    writes that passed the check of the mark before it was set, stops the
    janitors, shows every entry to the purge visitor, empties the cache and
    settles the tag index.  Other goroutines run between these sections:
    [closeFlag], [closeSeal], [closePurge] and [closeEnd] are the sections, a
    [late] write is the locked section of a write that passed its checks
    earlier. *)

From S2P Require Import Prelude Codec Snapshot Policy Storage Ttl Entry Tags Flights Shard ShardInv ShardOps ShardBulk.
From S2P Require Import Cache Bulk Loads Run CacheInv CacheOps CacheReads CacheRun CacheKeep CacheBulk Walk Restore.

#[local] Open Scope Z_scope.

Section close.
Context {K V P St T A : Type} `{Countable K, Inhabited K, Inhabited V}.
Context `{EvictionPolicy K P, ShardStore K St, TtlBackend T, AdmissionPolicy K A}.

Local Abbreviation config := (config K V).
Local Abbreviation globals := (globals K V A).
Local Abbreviation cache := (cache K V P St T A).
Implicit Types (c : config) (C : cache) (g : globals).

Definition g_set_flags g (closed sealed : bool) : globals :=
  Globals (g_entries g) (g_bytes g) (g_counters g) (g_tags g) (g_untagQueue g) (g_tagOverflows g) (g_admission g)
    closed sealed (g_maxEntries g) (g_maxBytes g) (g_shedNext g) (g_tick g) (g_rtick g) (g_fx g).

Definition closeFlag C : cache := set_g C (g_set_flags (c_g C) true (g_sealed (c_g C))).

Definition stopAllJanitors C : cache := Cache (c_g C) ((λ s, sh_set_janitor s false) <$> c_shards C).

Definition closeSeal C : cache := stopAllJanitors (set_g C (g_set_flags (c_g C) (g_closed (c_g C)) true)).

(** [runPurgeVisitor]: what the visitor is shown. *)
Definition runPurgeVisitor c C : list (K * V) :=
  gather (λ e, if e_has e flagNegative then None else Some (e_key e, returnValue c (loadValue e))) C.

(** [stopTagCleanup]: the drainer applies what is queued ([drainRemaining]). *)
Definition stopTagCleanup c C : cache := Nat.iter (length (g_untagQueue (c_g C))) (drainUntag c) C.

Definition closeEnd c C : cache := stopTagCleanup c (Reset_ c C).

(** The whole of it, with nobody else around: the entries saved and those the
    visitor saw. *)
Definition Close c C (autoSave visitor : bool) : cache * list (entrySnapshot K V) * list (K * V) :=
  if g_closed (c_g C) then (C, [], [])
  else
    let C := closeFlag C in
    let '(saved, C) := if autoSave then snapshotEntries c C else ([], C) in
    let C := closeSeal C in
    let visited := if visitor then runPurgeVisitor c C else [] in
    (closeEnd c C, saved, visited).

(** ** The others *)

Inductive late :=
| LateSet (k : K) (v : V) (weight ettl : Z) (sliding : bool) (raw : Z) (tags : list string)
| LateSetUntil (k : K) (v : V) (weight : Z) (at_ : option Z) (tags : list string).

Definition runLate c C (w : late) : cache :=
  match w with
  | LateSet k v weight ettl sliding raw tags =>
      flushAndUnlock c (locked_ C (shardFor c k) (λ g s, upsertLocked c g s k v weight ettl sliding raw tags)) (shardFor c k)
  | LateSetUntil k v weight at_ tags =>
      flushAndUnlock c (locked_ C (shardFor c k) (λ g s, upsertWithAbsoluteExpiryLocked c g s k v weight at_ tags)) (shardFor c k)
  end.

Inductive happening := Called (o : cop (K := K) (V := V)) | Late (w : late).

Definition happen c C (h : happening) : cache :=
  match h with Called o => run c C o | Late w => runLate c C w end.

Definition happen_all c C (hs : list happening) : cache := foldl (happen c) C hs.
End close.
Arguments late : clear implicits.
Arguments happening : clear implicits.
