(* ===== verification/CacheNew.v ===== *)
(** * CacheNew: construction ([New] and its helpers)

    The sizing arithmetic of [New], and that a new cache is well-formed and
    empty. *)

From S2P Require Import Prelude Policy Storage Ttl Entry Tags Flights Shard ShardInv ShardOps ShardBulk.
From S2P Require Import Cache Bulk Loads Run CacheInv CacheOps CacheReads CacheRun RunInv CacheKeep.

#[local] Open Scope Z_scope.

Section new.
Context {K V P St T A : Type} `{Countable K, Inhabited K, Inhabited V}.
Context `{EvictionPolicy K P, ShardStore K St, TtlBackend T, AdmissionPolicy K A}.
Context `{!PolicyLaws K P, !StoreLaws K St, !TtlLaws T}.

Local Abbreviation shard_wf := (shard_wf (E := ∅)).
Local Abbreviation entry := (entry K V).
Local Abbreviation config := (config K V).
Local Abbreviation cache := (cache K V P St T A).
Implicit Types (c : config) (C : cache) (k : K) (v : V).

(** The components' constructors return empty components. *)
Definition fresh_parts (newPolicy : Z → P) (newTTL : T) (newStore : St) : Prop :=
  (∀ b, tracks (newPolicy b) (∅ : gset (eref K))) ∧ (∀ x, ttl_rep x newTTL ∅ ∅) ∧
  st_rep newStore (∅ : gmap K loc).

(** The configuration agrees with the shard count: [shardMask] is
    [shardCount - 1] and the hasher returns a [uint64]. *)
Definition config_ok c (shards : Z) : Prop :=
  shards <= 2 ^ 32 ∧ cf_shardMask c = nextPowerOfTwo (Z.max shards 1) - 1 ∧
  ∀ k, is_u64 (cf_hasher c k).

Lemma newShard_wf c newPolicy newTTL newStore b budget coll :
  fresh_parts newPolicy newTTL newStore →
  shard_wf c (newShard c (newPolicy b) budget coll newTTL newStore) ∅ ∅.
Proof.
  intros (F1 & F2 & F3). constructor; cbn; try done; try set_solver.
  - constructor.
  - intros a. rewrite lookup_empty. by intros [].
  - unfold read_ok. cbn. destruct (cf_lockFreeRead c); cbn; [|done]. by split_and!.
Qed.

Lemma newCache_wf c maxEntries shards coll newPolicy newTTL newStore (adm : A) :
  fresh_parts newPolicy newTTL newStore → config_ok c shards →
  let C := newCache c maxEntries shards coll newPolicy newTTL newStore adm in
  cache_wf c 0 C ∧ overBudget (c_g C) = false ∧ ∀ k, shard_get c C k = None.
Proof.
  intros HF (HS & HM & HH). cbv zeta. unfold newCache. set (n := nextPowerOfTwo (Z.max shards 1)) in *.
  destruct (nextPowerOfTwo_spec (Z.max shards 1)) as (b & B1 & B2 & B3 & B4); [lia|]. fold n in B2.
  assert (b <= 32)%nat as Hb.
  { destruct (decide (1 < shards)) as [H1'|H1'].
    - assert (2 ^ Z.of_nat b < 2 ^ 33) as Hlt by lia. apply Z.pow_lt_mono_r_iff in Hlt; lia.
    - assert (n = 1) as Hn1 by (subst n; unfold nextPowerOfTwo; rewrite bool_decide_true //; lia).
      assert (2 ^ Z.of_nat b < 2 ^ 1) as Hlt by lia. apply Z.pow_lt_mono_r_iff in Hlt; lia. }
  set (s0 := newShard _ _ _ _ _ _).
  assert (shard_wf c s0 ∅ ∅) as Hs0 by by apply newShard_wf.
  assert (∀ s k, s = s0 → sh_lookup s k = None) as HL.
  { intros s k ->. by rewrite (wf_lookup _ _ _ _ _ Hs0) lookup_empty. }
  split_and!.
  - exists (replicate (Z.to_nat n) ∅). constructor; cbn; try done.
    + rewrite length_replicate. exists b. split_and!; [done|lia|lia].
    + by rewrite !length_replicate.
    + intros i s m [-> _]%lookup_replicate [-> _]%lookup_replicate. by exists ∅.
    + intros i m k [-> _]%lookup_replicate. rewrite lookup_empty. by intros [].
    + unfold sizes. rewrite fmap_replicate. symmetry. apply sumZ_zero. intros x [-> _]%elem_of_replicate. done.
    + rewrite Z.add_0_r. symmetry. apply sumZ_zero. intros x [i Hi]%list_elem_of_lookup_1.
      unfold weights in Hi. apply lookup_zip_with_Some in Hi as (s & m & -> & _ & Hm).
      apply lookup_replicate in Hm as [-> _]. apply mweight_empty.
    + intros i s [-> _]%lookup_replicate k e t. rewrite HL //.
  - unfold overBudget. cbn. repeat case_bool_decide; cbn; try done; lia.
  - intros k. unfold shard_get. cbn. destruct (replicate _ _ !! _) as [s|] eqn:Hs; [|done]. cbn.
    apply lookup_replicate in Hs as [-> _]. by apply (HL s0).
Qed.

(** ** Reachable states *)

Definition run_all c C (os : list cop) : cache := foldl (run c) C os.

(** A state reached from a well-formed one, without negative caching. *)
Lemma run_all_vstep c C os :
  cache_wf c 0 C → g_sealed (c_g C) = false → overBudget (c_g C) = false → cf_negativeTTL c <= 0 →
  cache_wf c 0 (run_all c C os) ∧ overBudget (c_g (run_all c C os)) = false ∧
  g_sealed (c_g (run_all c C os)) = false ∧ g_maxEntries (c_g (run_all c C os)) = g_maxEntries (c_g C) ∧
  g_maxBytes (c_g (run_all c C os)) = g_maxBytes (c_g C) ∧
  (∀ k v, visible c (run_all c C os) k v →
     visible c C k v ∨ ∃ o, o ∈ os ∧ op_writes o = Some (k, v)).
Proof.
  intros Hwf Hsl Ho Hneg. revert C Hwf Hsl Ho. induction os as [|o os IH]; intros C Hwf Hsl Ho; cbn.
  { split_and!; try done. auto. }
  destruct (run_vstep c 0 C o Hwf (Z.le_refl 0) Hsl) as (W & [V1 V2 V3 V4 V5 V6] & HW).
  { unfold no_drift. repeat case_match; auto. }
  destruct (IH (run c C o)) as (I1 & I2 & I3 & I4 & I5 & I6); [done|by destruct V5; congruence|auto|].
  destruct V4 as [M1 M2]. fold (run_all c (run c C o) os). split_and!; [done..|congruence|congruence|].
  intros k v [Hv|(o' & Ho' & Hw)]%I6; [|right; exists o'; set_solver].
  apply V2 in Hv. destruct W as [[k0 v0]|]; [|by left]. case_decide as Hd; [|by left]. subst.
  right. exists o. split; [set_solver|]. destruct HW as [?|HW]; done.
Qed.
End new.
