(* ===== verification/CacheLoads.v ===== *)
(** * CacheLoads: a superseded load stores nothing

    A write to a key marks the loads in flight for it superseded.  No
    operation clears the mark, so however late such a load ends, its result is
    dropped: the cache never goes back to data older than the write. *)

From S2P Require Import Prelude Policy Storage Ttl Entry Tags Flights Shard ShardInv ShardOps ShardBulk.
From S2P Require Import Cache Bulk Loads Run CacheInv CacheOps CacheReads CacheRun RunInv CacheKeep CacheNew.

#[local] Open Scope Z_scope.

Section loads.
Context {K V P St T A : Type} `{Countable K, Inhabited K, Inhabited V}.
Context `{EvictionPolicy K P, ShardStore K St, TtlBackend T, AdmissionPolicy K A}.

Local Abbreviation entry := (entry K V).
Local Abbreviation config := (config K V).
Local Abbreviation globals := (globals K V A).
Local Abbreviation shard := (shard K V P St T).
Local Abbreviation cache := (cache K V P St T A).

(** A property of the flights that no operation of a cache loses: every
    change of the flights is one of these, or the end of a flight. *)
Class stable (Q : flights K → Prop) : Prop := {
  stable_one F k : Q F → Q (supersedeFlight F k);
  stable_all F : Q F → Q (supersedeAllFlights F);
  stable_matching F f : Q F → Q (supersedeMatching F f);
  stable_start F k f : fl_inflight F !! k = None → Q F → Q (startFlight F k f)
}.

(** The end of flight [f] of [k] keeps [Q], be it by its result or because its
    waiters gave up. *)
Definition survives_end (Q : flights K → Prop) (k : K) (f : loc) : Prop :=
  ∀ F, Q F → Q (leaveInflight F k f) ∧ Q (orphanFlight F k f).

(** An operation whose flight may end. *)
Definition lets (Q : flights K → Prop) (o : cop (K := K) (V := V)) : Prop :=
  match o with
  | OpFinishLoad k f _ | OpAbandon k f => survives_end Q k f
  | OpLeave k f n => n = 0 → survives_end Q k f
  | _ => True
  end.

Context (Q : flights K → Prop) `{!stable Q}.
Implicit Types (c : config) (C : cache) (g : globals) (s : shard) (e : entry) (k : K) (v : V).

(** ** The locked routines *)

Definition sup s : Prop := Q (sh_flights s).

Lemma sup_ext s s' : sh_flights s' = sh_flights s → sup s → sup s'.
Proof. unfold sup. by intros ->. Qed.

Lemma sup_supersede s k nf : sup s → sup (sh_set_flights s (supersedeFlight (sh_flights s) k) nf).
Proof. unfold sup. apply stable_one. Qed.

Lemma bump_flights s : sh_flights (bumpReadMisses s) = sh_flights s.
Proof. unfold bumpReadMisses, promoteReadMapLocked. cbn. by repeat case_match. Qed.

Lemma removeLocked_sup c g s a r : sup s → sup (removeLocked c g s a r).2.
Proof.
  intros Hs. unfold removeLocked. destruct (sh_heap s !! a) as [e|]; [|done].
  set (s0 := if supersedesFlight r then _ else _).
  assert (sup s0) as Hs0 by (subst s0; destruct (supersedesFlight r); [by apply sup_supersede|done]).
  set (s1 := if cf_lockFreeRead c then _ else _).
  assert (sh_flights s1 = sh_flights s0) as E1.
  { subst s1. unfold forgetHashLocked, pool_put. destruct (cf_lockFreeRead c); [rewrite bump_flights|]; cbn;
      repeat case_match; done. }
  destruct (negb _); cbn; by eapply sup_ext.
Qed.

Lemma evict_loop_sup fuel c g s r keep n : sup s → sup (evict_loop fuel c g s r keep n).1.2.
Proof.
  revert g s n. induction fuel as [|fuel IH]; intros g s n Hs; cbn; [done|].
  unfold pickVictim. destruct (if _ && _ then Victim (sh_policy s) else _) as [o p].
  destruct (match o with Some _ => _ | None => _ end) as [[x|] p2]; cbn; [|done].
  pose proof (removeLocked_sup c g (sh_set_policy s p2) x.1 r Hs) as Hr.
  destruct (removeLocked _ _ _ _ _) as [g1 s1]. by apply IH.
Qed.

Lemma evict_sup c g s : sup s → sup (evictWhileOverBudgetLocked c g s).2.
Proof. intros Hs. by apply evict_loop_sup. Qed.

Lemma register_flights s k a : sh_flights (register s k a) = sh_flights s.
Proof. unfold register, markAmended. cbn. by repeat case_match. Qed.

Lemma pool_get_flights c s : sh_flights (pool_get c s).2 = sh_flights s.
Proof. unfold pool_get. by repeat case_match. Qed.

Lemma janitor_flights c g s (b : bool) : sh_flights (if b then startJanitorLocked c g s else s) = sh_flights s.
Proof. unfold startJanitorLocked. by repeat case_match. Qed.

Lemma collision_flights c g s k : sh_flights (recordHashCollisionLocked c g s k).2 = sh_flights s.
Proof. unfold recordHashCollisionLocked. by repeat case_match. Qed.

(** The insert branch of the upserts and of the tombstone. *)
Lemma insert_sup c g s a e k (b : bool) g1 :
  sup s → sup (evictWhileOverBudgetLocked c g1
    (if b then startJanitorLocked c g (register (sh_write s a e) k a) else register (sh_write s a e) k a)).2.
Proof. intros Hs. apply evict_sup. eapply sup_ext; [|exact Hs]. by rewrite janitor_flights register_flights. Qed.

Lemma upsert_sup c g s k v w ettl sl raw ts : sup s → sup (upsertLocked c g s k v w ettl sl raw ts).2.
Proof.
  intros Hs. unfold upsertLocked. cbn -[evictWhileOverBudgetLocked].
  set (s0 := sh_set_flights s _ _). assert (sup s0) as Hs0 by by apply sup_supersede.
  destruct (g_sealed g); [done|]. destruct (st_get (sh_storage s) k) as [a|].
  - destruct (sh_heap s !! a) as [e|]; [|done]. cbv zeta.
    set (s1 := if bool_decide _ then startJanitorLocked _ _ _ else _).
    assert (sup s1) as Hs1 by (eapply sup_ext; [by rewrite /s1 janitor_flights|done]).
    by destruct (cf_events c).
  - destruct (negb _); [done|]. set (g0 := g_set_admission _ _).
    pose proof (collision_flights c g0 s0 k) as Hc. destruct (recordHashCollisionLocked c g0 s0 k) as [g1 s1].
    pose proof (pool_get_flights c s1) as Hp. destruct (pool_get c s1) as [a s2]. cbn in Hc, Hp.
    assert (sup s2) as Hs2 by (apply (sup_ext s0); [by rewrite Hp|done]).
    destruct (sh_heap s2 !! a) as [e|]; [|done].
    match goal with |- context [evictWhileOverBudgetLocked c ?g1 (if ?b then startJanitorLocked c ?g2 (register (sh_write s2 a ?e1) k a) else _)] =>
      pose proof (insert_sup c g2 s2 a e1 k b g1 Hs2) as Hi; destruct (evictWhileOverBudgetLocked c g1 _) as [g3 s3] end.
    by destruct (cf_events c).
Qed.

Lemma upsertAbs_sup c g s k v w at_ ts : sup s → sup (upsertWithAbsoluteExpiryLocked c g s k v w at_ ts).2.
Proof.
  intros Hs. unfold upsertWithAbsoluteExpiryLocked. cbn -[evictWhileOverBudgetLocked].
  set (s0 := sh_set_flights s _ _). assert (sup s0) as Hs0 by by apply sup_supersede.
  destruct (g_sealed g); [done|]. destruct (st_get (sh_storage s) k) as [a|].
  - destruct (sh_heap s !! a) as [e|]; [|done]. cbn. eapply sup_ext; [by rewrite janitor_flights|done].
  - pose proof (pool_get_flights c s0) as Hp. destruct (pool_get c s0) as [a s2]. cbn in Hp.
    assert (sup s2) as Hs2 by (apply (sup_ext s0); [by rewrite Hp|done]).
    destruct (sh_heap s2 !! a) as [e|]; [|done]. by apply insert_sup.
Qed.

Lemma supersede_twice s k nf :
  supersedeFlight (sh_flights (sh_set_flights s (supersedeFlight (sh_flights s) k) nf)) k =
  supersedeFlight (sh_flights s) k.
Proof.
  unfold supersedeFlight. cbn. rewrite !lookup_delete_eq !delete_delete_eq. cbn. f_equal.
  destruct (fl_inflight (sh_flights s) !! k), (fl_orphans (sh_flights s) !! k); cbn; set_solver.
Qed.

(** An upsert marks what a write of [k] marks. *)
Lemma upsert_sets c g s k v w ettl sl raw ts :
  Q (supersedeFlight (sh_flights s) k) → sup (upsertLocked c g s k v w ettl sl raw ts).2.
Proof.
  intros Hr. set (s0 := sh_set_flights s (supersedeFlight (sh_flights s) k) (sh_nextFlight s)).
  assert (upsertLocked c g s k v w ettl sl raw ts = upsertLocked c g s0 k v w ettl sl raw ts) as ->.
  { unfold upsertLocked. cbn -[evictWhileOverBudgetLocked]. by rewrite (supersede_twice s k (sh_nextFlight s)). }
  by apply upsert_sup.
Qed.

Lemma upsertAbs_sets c g s k v w at_ ts :
  Q (supersedeFlight (sh_flights s) k) → sup (upsertWithAbsoluteExpiryLocked c g s k v w at_ ts).2.
Proof.
  intros Hr. set (s0 := sh_set_flights s (supersedeFlight (sh_flights s) k) (sh_nextFlight s)).
  assert (upsertWithAbsoluteExpiryLocked c g s k v w at_ ts = upsertWithAbsoluteExpiryLocked c g s0 k v w at_ ts) as ->.
  { unfold upsertWithAbsoluteExpiryLocked. cbn -[evictWhileOverBudgetLocked]. by rewrite (supersede_twice s k (sh_nextFlight s)). }
  by apply upsertAbs_sup.
Qed.

Lemma tombstone_sup c g s k : sup s → sup (insertNegativeTombstoneLocked c g s k).2.
Proof.
  intros Hs. unfold insertNegativeTombstoneLocked. cbn -[evictWhileOverBudgetLocked].
  destruct (g_sealed g); [done|]. destruct (st_get (sh_storage s) k) as [a|].
  - destruct (sh_heap s !! a) as [e|]; [|done].
    destruct (e_tags e); cbn; (eapply sup_ext; [apply (janitor_flights c _ _ true)|done]).
  - pose proof (pool_get_flights c s) as Hp. destruct (pool_get c s) as [a s2]. cbn in Hp.
    assert (sup s2) as Hs2 by (apply (sup_ext s); [congruence|done]).
    destruct (sh_heap s2 !! a) as [e|]; [|done]. by apply (insert_sup c _ s2 a _ k true).
Qed.

Lemma removeKey_sup c g s k r : sup s → sup (removeKeyLocked c g s k r).1.2.
Proof.
  intros Hs. unfold removeKeyLocked. set (s0 := sh_set_flights s _ _).
  assert (sup s0) as Hs0 by by apply sup_supersede. destruct (st_get _ k) as [a|]; [|done].
  pose proof (removeLocked_sup c g s0 a r Hs0). by destruct (removeLocked c g s0 a r).
Qed.

Lemma refreshExpiry_sup c g s a now ttl : sup s → sup (refreshExpiryLocked c g s a now ttl).2.
Proof.
  intros Hs. unfold refreshExpiryLocked. destruct (sh_heap s !! a) as [e|]; [|done].
  destruct (if bool_decide (0 < ttl) then _ else _) as [x g1]. cbn. eapply sup_ext; [by rewrite janitor_flights|done].
Qed.

Lemma removeAll_sup c g s l r : sup s → sup (removeAll c g s l r).2.
Proof.
  revert g s. induction l as [|a l IH]; intros g s Hs; cbn; [done|].
  pose proof (removeLocked_sup c g s a r Hs). destruct (removeLocked c g s a r). by apply IH.
Qed.

Lemma sweep_sup c g s now : sup s → sup (sweepExpiredLocked c g s now).1.2.
Proof.
  intros Hs. unfold sweepExpiredLocked. destruct (ttl_Sweep _ _ _) as [l t].
  pose proof (removeAll_sup c g (sh_set_ttl s t) l EvictReasonExpired Hs). by destruct (removeAll _ _ _ _ _).
Qed.

Lemma deleteExpired_sup c g s now : sup s → sup (deleteExpiredLocked c g s now).1.2.
Proof.
  intros Hs. unfold deleteExpiredLocked. set (l := filter _ _).
  pose proof (removeAll_sup c g s l EvictReasonExpired Hs). by destruct (removeAll _ _ _ _ _).
Qed.

Lemma clearShard_sup c b g s : sup s → sup (clearShardLocked c b g s).2.
Proof.
  intros Hs. unfold clearShardLocked. set (l := st_each _). set (g0 := untagShardLocked g s).
  assert (∀ gs : globals * shard, sup gs.2 → sup (foldl (dropEntry c b) gs l).2) as Hd.
  { induction l as [|a l IH]; intros [g1 s1] Hs1; [done|]. apply IH. unfold dropEntry, recycleOrInvalidate, pool_put.
    destruct (sh_heap s1 !! a); [|done]. cbn. by repeat case_match. }
  specialize (Hd (g0, s) Hs). destruct (foldl _ _ l) as [g1 s1]. cbn.
  assert (sup (sh_set_flights s1 (supersedeAllFlights (sh_flights s1)) (sh_nextFlight s1))) as Hd'.
  { unfold sup in *. by apply stable_all. }
  by destruct (cf_lockFreeRead c).
Qed.

Lemma startRefresh_sup s k : sup s → sup (startRefreshLocked s k).
Proof.
  intros Hs. unfold startRefreshLocked. destruct (fl_inflight _ !! k) eqn:Hk; [done|].
  unfold sup in *. by apply stable_start.
Qed.

Lemma refresh_sup c s k : sup s → sup (triggerAsyncRefreshLocked c s k).
Proof.
  intros Hs. unfold triggerAsyncRefreshLocked. destruct (cf_loader c); [|done]. by apply startRefresh_sup.
Qed.

Lemma touch_flights s k a e now : sh_flights (touchLocked s k a e now) = sh_flights s.
Proof. unfold touchLocked. destruct (touchAccess _ _) as [e' []]; done. Qed.

Lemma slowGet_sup c g s k now : sup s → sup (slowGetLocked c g s k now).1.2.
Proof.
  intros Hs. unfold slowGetLocked. destruct (st_get _ k) as [a|]; [|done]. destruct (sh_heap s !! a) as [e|]; [|done].
  destruct (entryExpiredLockedReason c e now) as [r|].
  - destruct (_ && _); [cbn; by apply (refresh_sup c s k)|].
    pose proof (removeLocked_sup c g s a r Hs). by destruct (removeLocked c g s a r).
  - destruct (e_has e flagNegative); [done|]. set (s1 := touchLocked _ _ _ _ _).
    assert (sup s1) as Hs1 by (eapply sup_ext; [apply touch_flights|done]).
    set (r := if shouldRefreshAhead _ _ _ then _ else _).
    assert (sup r.2) as Hr by (subst r; destruct (shouldRefreshAhead _ _ _); [by apply refresh_sup|done]).
    destruct r as [g2 s2]. cbn. unfold maybePromoteOnSlowHit. repeat case_match; try done.
    by apply (sup_ext s2); [apply bump_flights|].
Qed.

Lemma lockFree_sup c s k now : sup s → sup (tryLockFreeGet c s k now).2.
Proof. intros Hs. unfold tryLockFreeGet. by repeat case_match. Qed.

Lemma applyLoad_sup c g s k f' r : sup s → sup (applyLoadResultLocked c g s k f' r).2.
Proof.
  intros Hs. unfold applyLoadResultLocked. destruct (bool_decide _ || g_closed g); [done|].
  destruct r as [v ttl| | |]; [| |done|].
  - unfold storeLoadedLocked. destruct (prepareLoaded c v) as [[w ts]|]; [|done].
    destruct (effectiveTTL _ _ _) as [ettl g1]. by apply upsert_sup.
  - case_bool_decide; [|done]. by apply tombstone_sup.
  - by case_bool_decide.
Qed.

(** ** The cache *)

(** Every copy of shard [i] has the mark. *)
Definition csup C (i : nat) : Prop := ∀ s, c_shards C !! i = Some s → sup s.

(** The step keeps the mark. *)
Definition keeps C C' : Prop := ∀ i, csup C i → csup C' i.

Lemma keeps_refl C : keeps C C.
Proof. by intros i. Qed.

Lemma keeps_trans C1 C2 C3 : keeps C1 C2 → keeps C2 C3 → keeps C1 C3.
Proof. intros H1' H2' i Hi. by apply H2', H1'. Qed.

Lemma locked_keeps {R} C i (F : globals → shard → globals * shard * R) d :
  (∀ g s, sup s → sup (F g s).1.2) → keeps C (locked C i F d).1.
Proof.
  intros HF j Hj. unfold locked. destruct (c_shards C !! i) as [s|] eqn:Hs; [|done].
  pose proof (HF (c_g C) s) as Hf. destruct (F (c_g C) s) as [[g' s'] r]. cbn in Hf |- *.
  intros s0. cbn. rewrite list_lookup_insert_Some. intros [(-> & <- & _)|[_ Hs0]]; [|by apply Hj].
  by apply Hf, Hj.
Qed.

Lemma locked__keeps C i (F : globals → shard → globals * shard) :
  (∀ g s, sup s → sup (F g s).2) → keeps C (locked_ C i F).
Proof. intros HF. apply locked_keeps. intros g s Hs. by apply HF. Qed.

Lemma set_g_keeps C g : keeps C (set_g C g).
Proof. by intros i. Qed.

Lemma release_keeps c C i : keeps C (releaseShard c C i).
Proof. by apply locked__keeps. Qed.

Lemma shed_shard_keeps c C i r : keeps C (shed_shard c C i r).1.
Proof.
  unfold shed_shard. destruct (overBudget (c_g C)); [|apply keeps_refl].
  match goal with |- context [locked C i ?F ?d] => pose proof (locked_keeps C i F d) as HL;
    destruct (locked C i F d) as [C1 n] end.
  cbn in *. eapply keeps_trans; [apply HL|apply release_keeps]. intros g s. by apply evict_loop_sup.
Qed.

Lemma shed_loop_keeps c C r last idxs n : keeps C (shed_loop c C r last idxs n).1.1.
Proof.
  revert C n. induction idxs as [|i idxs IH]; intros C n; cbn; [apply keeps_refl|].
  case_decide; [apply IH|]. pose proof (shed_shard_keeps c C i r) as Hs.
  destruct (shed_shard c C i r) as [C1 [k|]]; [|done]. eapply keeps_trans; [exact Hs|apply IH].
Qed.

Lemma shedPass_keeps c C r last : keeps C (shedPass c C r last).1.
Proof.
  unfold shedPass. match goal with |- context [shed_loop c ?C0 r last ?l 0] =>
    pose proof (shed_loop_keeps c C0 r last l 0) as HL; destruct (shed_loop c C0 r last l 0) as [[C1 n] go] end.
  cbn in HL. assert (keeps C C1) as H1' by exact HL. destruct go; cbn; [|done]. destruct last as [i|]; [|done].
  pose proof (shed_shard_keeps c C1 i r) as Hs. destruct (shed_shard c C1 i r) as [C2 [k|]]; cbn;
    by eapply keeps_trans.
Qed.

Lemma shed_passes_keeps fuel c C r last n : keeps C (shed_passes fuel c C r last n).1.
Proof.
  revert C n. induction fuel as [|fuel IH]; intros C n; cbn; [apply keeps_refl|].
  destruct (overBudget (c_g C)); [|apply keeps_refl].
  pose proof (shedPass_keeps c C r last) as Hs. destruct (shedPass c C r last) as [C1 k]. cbn in Hs.
  case_bool_decide; [done|]. eapply keeps_trans; [exact Hs|apply IH].
Qed.

Lemma flush_keeps c C i : keeps C (flushAndUnlock c C i).
Proof. eapply keeps_trans; [apply release_keeps|apply shed_passes_keeps]. Qed.

(** A locked routine, then the unlock. *)
Lemma locked_flush_keeps {R} c C i (F : globals → shard → globals * shard * R) d :
  (∀ g s, sup s → sup (F g s).1.2) → keeps C (flushAndUnlock c (locked C i F d).1 i).
Proof. intros HF. exact (keeps_trans _ _ _ (locked_keeps C i F d HF) (flush_keeps c _ i)). Qed.

Lemma removeKeyC_keeps c C k r : keeps C (removeKey c C k r).1.
Proof.
  unfold removeKey. match goal with |- context [locked C ?i ?F ?d] =>
    pose proof (locked_flush_keeps c C i F d) as HL; destruct (locked C i F d) as [C1 b] end.
  apply HL. intros g s Hs. destruct (st_get _ k) as [a|]; [|done].
  pose proof (removeLocked_sup c g s a r Hs). by destruct (removeLocked c g s a r).
Qed.

Lemma shrink_loop_keeps n c C t cap : keeps C (shrink_loop n c C t cap).
Proof.
  revert C. induction n as [|n IHn]; intros C; cbn; [apply keeps_refl|].
  case_bool_decide; [apply keeps_refl|]. destruct (findOldestMember _ _ _); [|apply keeps_refl].
  eapply keeps_trans; [apply removeKeyC_keeps|apply IHn].
Qed.

Lemma groups_keeps c C ts : keeps C (enforceGroupBudgets c C ts).
Proof.
  unfold enforceGroupBudgets. revert C. induction ts as [|t ts IH]; intros C; cbn [foldl]; [apply keeps_refl|].
  eapply keeps_trans; [|apply IH]. destruct (cf_groups c !! t) as [cap|]; [|apply keeps_refl].
  apply shrink_loop_keeps.
Qed.

Lemma setTTLCtx_keeps c C k v ttl : keeps C (setTTLCtx c C k v ttl).1.
Proof.
  unfold setTTLCtx, setAndStore.
  assert (keeps C (setLockedInto c C k v ttl (cf_slidingTTL c) (cf_autoTags c v)).1) as Hs.
  { unfold setLockedInto. repeat case_match; try apply keeps_refl. cbn. apply locked__keeps. intros g s Hs.
    destruct (effectiveTTL c g ttl). by apply upsert_sup. }
  destruct (setLockedInto _ _ _ _ _ _ _) as [C1 [er|]]; cbn in *.
  - eapply keeps_trans; [exact Hs|apply flush_keeps].
  - eapply keeps_trans; [eapply keeps_trans; [exact Hs|apply flush_keeps]|apply groups_keeps].
Qed.

Lemma upsertOptions_sup c g s k v sc ts w : sup s → sup (upsertOptions c g s k v sc ts w).2.
Proof.
  intros Hs. unfold upsertOptions. destruct (sc_expireAt sc); [by apply upsertAbs_sup|].
  destruct (effectiveTTL _ _ _). by apply upsert_sup.
Qed.

Lemma upsertOptions_sets c g s k v sc ts w :
  Q (supersedeFlight (sh_flights s) k) → sup (upsertOptions c g s k v sc ts w).2.
Proof.
  intros Hs. unfold upsertOptions. destruct (sc_expireAt sc); [by apply upsertAbs_sets|].
  destruct (effectiveTTL _ _ _) as [ettl g1] eqn:E. by apply upsert_sets.
Qed.

Lemma setWithOptions_keeps c C k v sc : keeps C (setWithOptions c C k v sc).1.
Proof.
  unfold setWithOptions. destruct (prepareOptions c C k v sc) as [|[ts w]]; [apply keeps_refl|].
  cbn. eapply keeps_trans; [|apply groups_keeps]. eapply keeps_trans; [|apply flush_keeps].
  apply locked__keeps. intros g s. apply upsertOptions_sup.
Qed.

Lemma upsertDefault_sup c g s k v w : sup s → sup (upsertDefault c g s k v w).2.
Proof. intros Hs. unfold upsertDefault. destruct (effectiveTTL _ _ _). by apply upsert_sup. Qed.

(** A locked routine that keeps the mark, then the unlock, in the shape the
    operations have. *)
Local Ltac locked_op c :=
  match goal with |- context [locked ?C ?i ?F ?d] =>
    pose proof (locked_flush_keeps c C i F d) as HL; destruct (locked C i F d) as [? ?]; cbn in HL |- *
  end.

Lemma conditional_keeps c C k v :
  keeps C (SetIfAbsent c C k v).1 ∧ keeps C (SetIfPresent c C k v).1 ∧
  keeps C (GetOrSet c C k v).1 ∧ keeps C (PeekOrAdd c C k v).1.
Proof.
  assert (∀ g s w, sup s → sup (upsertDefault c g s k v w).2) as Hu by (intros; by apply upsertDefault_sup).
  unfold SetIfAbsent, SetIfPresent, GetOrSet, PeekOrAdd.
  destruct (checkWrite c C k v) as [er|w]; [split_and!; apply keeps_refl|].
  split_and!; locked_op c; apply HL; intros g s Hs;
    unfold setIfAbsentLocked, setIfPresentLocked, getOrSetLocked, peekOrAddLocked;
    destruct (freshEntryLocked c g s k) as [g1 [[a e]|]];
    repeat match goal with |- context [upsertDefault c ?g s k v w] =>
      let Hx := fresh in pose proof (Hu g s w Hs) as Hx; destruct (upsertDefault c g s k v w) end; try done.
  cbn. eapply sup_ext; [apply touch_flights|done].
Qed.

Lemma getMem_keeps c C k : keeps C (getMem c C k).1.
Proof.
  assert (∀ C h, keeps C (slowGet c C k h).1) as Hslow.
  { clear C. intros C h. unfold slowGet. assert (keeps C (needNow c C h).2) as Hn by (destruct h; [apply keeps_refl|apply set_g_keeps]).
    destruct (needNow c C h) as [now C1]. cbn in Hn.
    match goal with |- context [locked C1 ?i ?F ?d] =>
      pose proof (locked_flush_keeps c C1 i F d) as HL; destruct (locked C1 i F d) as [C2 r] end.
    cbn in HL. apply (keeps_trans C C1); [done|]. apply HL; intros g s; apply slowGet_sup. }
  assert (∀ C h, keeps C (lockedGet c C k h).1) as Hlocked.
  { clear C. intros C h. unfold lockedGet. destruct (c_shards C !! shardFor c k) as [s|] eqn:Hs; [|apply keeps_refl].
    destruct (_ ≫= _) as [[a e]|]; [|apply Hslow].
    set (r := if _ && _ then _ else _). assert (c_shards r.1.2 = c_shards C) as Hr by (subst r; by case_match).
    destruct r as [[now C1] h1]. cbn in Hr. destruct (fastHit c s k a e now).
    - cbn. intros i Hi s0. cbn. rewrite Hr list_lookup_insert_Some. intros [(<- & <- & _)|[_ Hs0]]; [|by apply Hi].
      apply (sup_ext s); [|by apply Hi]. unfold recordReadMiss. repeat case_match; rewrite ?bump_flights //.
    - assert (keeps C C1) as Hk by (intros i Hi s0; rewrite Hr; apply Hi). by eapply keeps_trans. }
  unfold getMem. destruct (cf_lockFreeRead c); [|apply Hlocked].
  unfold snapshotGet. cbn. set (C1 := set_g C _). assert (keeps C C1) as H1' by apply set_g_keeps.
  match goal with |- context [locked C1 ?i ?F ?d] =>
    pose proof (locked_keeps C1 i F d) as HL; destruct (locked C1 i F d) as [C2 r] end. cbn in HL.
  apply (keeps_trans C C1); [done|]. apply (keeps_trans C1 C2).
  - apply HL. intros g s Hs. pose proof (lockFree_sup c s k (cf_clock c (g_tick (c_g C))) Hs) as Hl.
    by destruct (tryLockFreeGet _ _ _ _).
  - destruct r; [apply Hlocked|apply keeps_refl..].
Qed.

Lemma Get_keeps c C k : keeps C (Get c C k).1.
Proof.
  unfold Get. destruct (g_closed (c_g C)); [apply keeps_refl|]. pose proof (getMem_keeps c C k) as Hg.
  destruct (getMem c C k) as [C1 [v| |]]; (eapply keeps_trans; [exact Hg|apply set_g_keeps]).
Qed.

Lemma each_keeps {R} C (F : cache → nat → R → cache * R) r :
  (∀ C i r, keeps C (F C i r).1) → keeps C (eachShard C F r).1.
Proof.
  intros HF. unfold eachShard. generalize (seq 0 (length (c_shards C))) as l. intros l. revert C r.
  induction l as [|i l IH]; intros C r; cbn; [apply keeps_refl|]. pose proof (HF C i r) as H1'.
  destruct (F C i r) as [C1 r1]. by eapply keeps_trans.
Qed.

Lemma clearAll_keeps c b C : keeps C (clearAll c b C).
Proof.
  apply each_keeps. intros C0 i []. cbn. eapply keeps_trans; [|apply flush_keeps].
  apply locked__keeps. intros g s. apply clearShard_sup.
Qed.

Lemma removeKeys_keeps c C ks r : keeps C (removeKeys c C ks r).1.
Proof.
  unfold removeKeys. generalize 0 as n. revert C. induction ks as [|k ks IH]; intros C n; cbn; [apply keeps_refl|].
  pose proof (removeKeyC_keeps c C k r) as H1'. destruct (removeKey c C k r) as [C1 b]. by eapply keeps_trans.
Qed.

Lemma invalidate_keeps c C0 C (ks : list K) r ts :
  keeps C0 C → keeps C0 (finishInvalidate c (removeKeys c C ks r) ts).1.
Proof.
  intros H0'. pose proof (removeKeys_keeps c C ks r) as H1'. unfold finishInvalidate.
  destruct (removeKeys c C ks r) as [C1 n]. case_bool_decide; by eapply keeps_trans.
Qed.

Lemma touchKey_keeps c C k ttlOf : keeps C (touchKey c C k ttlOf).1.
Proof.
  unfold touchKey. cbn. apply (keeps_trans C (set_g C (clockNow c (c_g C)).2)); [apply set_g_keeps|]. locked_op c.
  apply HL. intros g s Hs. unfold touchKeyLocked. destruct (st_get _ k) as [a|]; [|done].
  destruct (freshAt _ _ _) as [e|]; [|done]. cbn. by apply refreshExpiry_sup.
Qed.

Lemma getWithExpiry_sup c g s k now : sup s → sup (getWithExpiryLocked c g s k now).1.2.
Proof.
  intros Hs. unfold getWithExpiryLocked. destruct (_ ≫= _) as [[a e]|]; [|done].
  destruct (entryExpiredLockedReason c e now) as [r|].
  - pose proof (removeLocked_sup c g s a r Hs). by destruct (removeLocked c g s a r).
  - destruct (e_has e flagNegative); [done|]. cbn. apply (sup_ext s); [apply touch_flights|done].
Qed.

Lemma removeEntries_sup c r l g s : sup s → sup (removeEntries c r l (g, s)).2.
Proof.
  unfold removeEntries. revert g s. induction l as [|a l IH]; intros g s Hs; [done|]. cbn.
  pose proof (removeLocked_sup c g s a r Hs). destruct (removeLocked c g s a r) as [g2 s2]. by apply IH.
Qed.

Lemma deletePrefix_sup c f g s : sup s → sup (deletePrefixShard c f g s).1.2.
Proof.
  intros Hs. unfold deletePrefixShard. cbn [fst snd]. apply removeEntries_sup. by apply stable_matching.
Qed.

Lemma removeDoomed_sup c r ks g s : sup s → sup (removeDoomed c r ks g s).1.2.
Proof.
  unfold removeDoomed. generalize 0 as n. revert g s. induction ks as [|k ks IH]; intros g s n Hs; [done|]. cbn.
  destruct (st_get (sh_storage s) k) as [a|]; [|by apply IH].
  pose proof (removeLocked_sup c g s a r Hs). destruct (removeLocked c g s a r) as [g2 s2]. by apply IH.
Qed.

Lemma DeleteWhere_keeps c C pred : keeps C (DeleteWhere c C pred).1.
Proof.
  unfold DeleteWhere. destruct pred as [pred|]; [|apply keeps_refl].
  destruct (g_closed (c_g C)); [apply keeps_refl|]. cbn -[eachShard].
  apply (keeps_trans C (set_g C (clockNow c (c_g C)).2)); [apply set_g_keeps|]. apply each_keeps. intros C0 i n.
  unfold deleteWhereShard. destruct (doomedAt _ _ _ _ _) as [|k ks]; [apply keeps_refl|].
  locked_op c. apply HL. intros g s. exact (removeDoomed_sup c EvictReasonDeletedWhere (k :: ks) g s).
Qed.

Lemma loadOrJoin_sup c g s k al : sup s → sup (loadOrJoinLocked c g s k al).1.2.
Proof.
  intros Hs. unfold loadOrJoinLocked. cbn [clockNow]. set (now := cf_clock c _). set (g1 := g_env _ _ _ _).
  assert (sup (serveLoadHitLocked c g1 s k now).1.2) as Hs1.
  { unfold serveLoadHitLocked. destruct (_ ≫= _) as [[a e]|]; [|done]. destruct (e_has e flagNegative); [done|].
    destruct (negb _).
    - assert (sup (touchLocked s k a e now)) by (apply (sup_ext s); [apply touch_flights|done]).
      destruct (shouldRefreshAhead _ _ _); [by apply startRefresh_sup|done].
    - destruct (shouldServeStale _ _ _); [|done]. apply (sup_ext (startRefreshLocked s k)); [done|by apply startRefresh_sup]. }
  destruct (serveLoadHitLocked c g1 s k now) as [[g2 s2] [v|]]; [done|]. destruct (negativeHit c s2 k now); [done|].
  assert (sup (cachedErrorLocked c s2 k now).1) as Hs3 by (unfold cachedErrorLocked; by repeat case_match).
  destruct (cachedErrorLocked c s2 k now) as [s3 []]; [done|]. destruct (fl_inflight _ !! k) eqn:Hk; [done|].
  destruct (negb al); [done|]. unfold sup in *. by apply stable_start.
Qed.

Lemma GetOrLoad_keeps c C k cd al : keeps C (GetOrLoad c C k cd al).1.
Proof.
  unfold GetOrLoad, GetOrLoadFn. destruct (g_closed (c_g C)), (cf_loader c), cd; cbn [negb]; try apply keeps_refl.
  unfold loadOrJoin.
  match goal with |- context [locked C ?i ?F ?d] =>
    pose proof (locked_flush_keeps c C i F d) as HL; destruct (locked C i F d) as [C1 r] end. cbn in HL |- *.
  eapply keeps_trans; [|apply set_g_keeps]. apply HL. intros g s. apply loadOrJoin_sup.
Qed.

Lemma triggerRefresh_keeps c C k : keeps C (triggerAsyncRefresh c C k).
Proof.
  unfold triggerAsyncRefresh, locked_. destruct (cf_loader c); [|apply keeps_refl]. locked_op c. apply HL.
  intros g s. apply refresh_sup.
Qed.

Lemma refreshKey_keeps c C k : keeps C (refreshKey c C k).1.
Proof.
  unfold refreshKey. locked_op c. apply HL. intros g s Hs. destruct (fl_inflight _ !! k); [done|]. by apply refresh_sup.
Qed.

Lemma RefreshAll_keeps c C cd : keeps C (RefreshAll c C cd).1.
Proof.
  unfold RefreshAll. case_match; [apply keeps_refl|].
  assert (keeps C (Keys c C).1) as Hk.
  { unfold Keys. destruct (g_closed (c_g C)); [apply keeps_refl|]. cbn -[eachShard].
    eapply keeps_trans; [apply set_g_keeps|]. apply each_keeps. intros. apply keeps_refl. }
  destruct (Keys c C) as [C1 ks]. cbn in Hk. eapply keeps_trans; [exact Hk|]. clear Hk. generalize 0 as n. revert C1.
  induction ks as [|k ks IH]; intros C1 n; [apply keeps_refl|]. cbn [foldl].
  pose proof (refreshKey_keeps c C1 k) as Hr. destruct (refreshKey c C1 k) as [C2 []]; (eapply keeps_trans; [exact Hr|apply IH]).
Qed.

Lemma run_keeps c C o : lets Q o → keeps C (run c C o).
Proof.
  intros Hl. destruct o as [k v|k v ttl|k v sc|k v|k v|k v|k v|k|k pred|k|k|k|k ttl| | | |t|ts|i| |k f' r
    |k|hp p|pred|k cd al|k| |k f' n|k f'|k r]; cbn [run].
  - apply setTTLCtx_keeps.
  - unfold SetWithTTL. case_bool_decide; [apply keeps_refl|apply setTTLCtx_keeps].
  - apply setWithOptions_keeps.
  - apply conditional_keeps.
  - apply conditional_keeps.
  - apply conditional_keeps.
  - apply conditional_keeps.
  - unfold Delete, deleteKey. destruct (g_closed (c_g C)); [apply keeps_refl|]. locked_op c. apply HL.
    intros g s. apply removeKey_sup.
  - unfold DeleteIf. destruct (g_closed (c_g C)); [apply keeps_refl|]. cbn.
    apply (keeps_trans C (set_g C (clockNow c (c_g C)).2)); [apply set_g_keeps|]. locked_op c. apply HL.
    intros g s Hs. unfold deleteIfLocked. destruct (st_get _ k) as [a|]; [|done]. destruct (freshAt _ _ _) as [e|]; [|done].
    destruct (negb _); [done|]. pose proof (removeLocked_sup c g s a EvictReasonDeleted Hs).
    by destruct (removeLocked _ _ _ _ _).
  - apply Get_keeps.
  - unfold Peek. destruct (g_closed (c_g C)); [apply keeps_refl|apply set_g_keeps].
  - unfold Touch. destruct (g_closed (c_g C)); [apply keeps_refl|apply touchKey_keeps].
  - unfold TouchWithTTL. destruct (_ || _); [apply keeps_refl|apply touchKey_keeps].
  - unfold Clear. destruct (g_closed (c_g C)); [apply keeps_refl|apply clearAll_keeps].
  - eapply keeps_trans; [|apply clearAll_keeps]. apply set_g_keeps.
  - unfold DeleteExpired. destruct (g_closed (c_g C)); [apply keeps_refl|]. cbn -[eachShard].
    apply (keeps_trans C (set_g C (clockNow c (c_g C)).2)); [apply set_g_keeps|]. apply each_keeps.
    intros C0 i n. locked_op c. apply HL. intros g s. apply deleteExpired_sup.
  - unfold InvalidateTag. destruct (g_closed (c_g C)); [apply keeps_refl|]. apply invalidate_keeps, set_g_keeps.
  - unfold InvalidateTags. destruct (_ || _); [apply keeps_refl|]. apply invalidate_keeps, set_g_keeps.
  - unfold janitorTick. cbn. apply (keeps_trans C (set_g C (clockNow c (c_g C)).2)); [apply set_g_keeps|].
    locked_op c. apply HL. intros g s. apply sweep_sup.
  - unfold drainUntag, applyUntag. repeat case_match; by intros i.
  - unfold finishLoad, locked_. locked_op c. apply HL. intros g s Hs. apply applyLoad_sup. by apply Hl.
  - unfold GetWithExpiry. destruct (g_closed (c_g C)); [apply keeps_refl|]. cbn.
    apply (keeps_trans C (set_g C (clockNow c (c_g C)).2)); [apply set_g_keeps|]. locked_op c. apply HL.
    intros g s. apply getWithExpiry_sup.
  - unfold DeletePrefix. destruct (g_closed (c_g C)); [apply keeps_refl|].
    destruct (prefixMatcher hp p) as [f|]; [|apply keeps_refl]. apply each_keeps. intros C0 i n.
    locked_op c. apply HL. intros g s. apply deletePrefix_sup.
  - apply DeleteWhere_keeps.
  - apply GetOrLoad_keeps.
  - unfold Refresh. repeat case_match; apply keeps_refl || apply triggerRefresh_keeps.
  - apply RefreshAll_keeps.
  - unfold leaveFlight, locked_. locked_op c. apply HL. intros g s Hs. cbn. case_bool_decide; [|done]. by apply (Hl H6).
  - unfold abandonLoad, locked_. eapply keeps_trans; [|apply set_g_keeps]. locked_op c. apply HL. intros g s Hs. by apply Hl.
  - apply set_g_keeps.
Qed.

Lemma run_all_keeps c C os : Forall (lets Q) os → keeps C (run_all c C os).
Proof.
  intros Hl. revert C. induction Hl as [|o os Ho Hl IH]; intros C; cbn; [apply keeps_refl|].
  eapply keeps_trans; [by apply run_keeps|apply IH].
Qed.

Lemma lets_all os : (∀ k f, survives_end Q k f) → Forall (lets Q) os.
Proof. intros He. apply Forall_forall. intros o _. destruct o; cbn; auto. Qed.

End loads.

(** ** Writes supersede *)

Section superseded.
Context {K V P St T A : Type} `{Countable K, Inhabited K, Inhabited V}.
Context `{EvictionPolicy K P, ShardStore K St, TtlBackend T, AdmissionPolicy K A}.

Local Abbreviation globals := (globals K V A).
Local Abbreviation shard := (shard K V P St T).
Local Abbreviation cache := (cache K V P St T A).

(** The load under consideration. *)
Context (f : loc).
Implicit Types (c : config K V) (C : cache) (g : globals) (s : shard) (k : K) (v : V).

(** The load is marked. *)
Definition marked (F : flights K) : Prop := f ∈ fl_superseded F.

#[export] Instance marked_stable : stable marked.
Proof.
  split; unfold marked; cbn; [intros; rewrite !elem_of_mark; tauto|set_solver|set_solver|intros; rewrite elem_of_mark; tauto].
Qed.

Lemma marked_end k f' : survives_end marked k f'.
Proof.
  intros F HF. split; [done|]. unfold marked, orphanFlight in *. case_decide; [|done]. cbn. rewrite elem_of_mark. by right.
Qed.

Local Abbreviation sup := (sup marked).
Local Abbreviation csup := (csup marked).

(** The load is registered for [k] in its shard. *)
Definition loading c C k : Prop := ∃ s, c_shards C !! shardFor c k = Some s ∧ registered (sh_flights s) k f.

Lemma removeKey_marks c g s k r : registered (sh_flights s) k f → sup (removeKeyLocked c g s k r).1.2.
Proof.
  intros Hr. unfold removeKeyLocked. set (s0 := sh_set_flights s _ _).
  assert (sup s0) as Hs0 by by apply supersedeFlight_all. destruct (st_get _ k) as [a|]; [|done].
  pose proof (removeLocked_sup marked c g s0 a r Hs0). by destruct (removeLocked c g s0 a r).
Qed.

Lemma upsert_marks c g s k v w ettl sl raw ts :
  registered (sh_flights s) k f → sup (upsertLocked c g s k v w ettl sl raw ts).2.
Proof. intros Hr. apply (upsert_sets marked). by apply supersedeFlight_all. Qed.

Lemma locked_marks {R} c C k (F : globals → shard → globals * shard * R) d :
  loading c C k → (∀ g s, registered (sh_flights s) k f → sup (F g s).1.2) →
  csup (locked C (shardFor c k) F d).1 (shardFor c k).
Proof.
  intros (s & Hs & Hr) HF. unfold locked. rewrite Hs. pose proof (HF (c_g C) s Hr) as Hf.
  destruct (F (c_g C) s) as [[g' s'] r]. cbn in Hf |- *. intros s0. cbn.
  rewrite list_lookup_insert_eq; [|by eapply lookup_lt_Some]. by intros [= <-].
Qed.

Lemma Delete_marks c C k :
  g_closed (c_g C) = false → loading c C k → csup (Delete c C k).1 (shardFor c k).
Proof.
  intros Hcl Hl. unfold Delete, deleteKey. rewrite Hcl.
  match goal with |- context [locked C ?i ?F ?d] => pose proof (locked_marks c C k F d Hl) as HL;
    destruct (locked C i F d) as [C1 b] end. cbn in HL |- *.
  apply (flush_keeps marked), HL. intros g s. apply removeKey_marks.
Qed.

Lemma SetWithTTL_marks c C k v ttl :
  (SetWithTTL c C k v ttl).2 = None → loading c C k → csup (SetWithTTL c C k v ttl).1 (shardFor c k).
Proof.
  unfold SetWithTTL. case_bool_decide; [done|]. unfold setTTLCtx, setAndStore, setLockedInto.
  destruct (g_closed (c_g C)); [done|]. destruct (checkKeySize c k); [done|].
  destruct (computeWeight c v) as [|w]; [done|]. destruct (checkTagLimits _ _ _); [done|].
  intros _ Hl. cbn -[enforceGroupBudgets flushAndUnlock]. apply (groups_keeps marked), (flush_keeps marked). unfold locked_.
  apply locked_marks; [done|]. intros g s Hr. cbn. destruct (effectiveTTL c g ttl). by apply upsert_marks.
Qed.

(** A superseded load changes no entry. *)
Lemma finishLoad_dropped c C k r k' :
  csup C (shardFor c k) → overBudget (c_g C) = false →
  shard_get c (finishLoad c C k f r) k' = shard_get c C k'.
Proof.
  intros Hsup Ho. unfold finishLoad, locked_, locked.
  destruct (c_shards C !! shardFor c k) as [s|] eqn:Hs; [|by rewrite flush_get].
  assert (∀ g F, fl_superseded F = fl_superseded (sh_flights s) →
    applyLoadResultLocked c g (sh_set_flights s F (sh_nextFlight s)) k f r = (g, sh_set_flights s F (sh_nextFlight s)))
    as Hdrop.
  { intros g F HF. unfold applyLoadResultLocked. rewrite bool_decide_true //. cbn. rewrite HF. by apply Hsup. }
  rewrite Hdrop //. cbn. rewrite flush_get.
  - unfold shard_get. cbn. destruct (decide (shardFor c k' = shardFor c k)) as [->|Hne];
      [|by rewrite list_lookup_insert_ne].
    rewrite list_lookup_insert_eq; [|by eapply lookup_lt_Some]. by rewrite Hs.
  - cbn. unfold stat. by destruct (cf_statsEnabled c).
Qed.
End superseded.
