(* ===== verification/StoreInv.v ===== *)
(** * StoreInv: memory and Store agree

    What the steps of a cache in front of a Store keep: a value that memory
    can serve is the Store's, unless the Store has none, and every Store read
    in flight was overtaken by a write or read what the Store still holds. *)

From S2P Require Import Prelude Policy Storage Ttl Entry Tags Flights Shard ShardInv ShardOps ShardBulk.
From S2P Require Import Store Cache StoreCache Compute CacheInv CacheOps CacheReads CacheRun CacheKeep CacheNew CacheLoads.

#[local] Open Scope Z_scope.

(** ** Watches *)

(** ** Holders of a token *)

Section holders.
Context {R : Type} (token : R → loc).
Implicit Types (rs : gmap loc R) (id x : loc) (r : R).

(** The readers that hold token [x]. *)
Definition holders rs x : gmap loc R := filter (λ ir, token ir.2 = x) rs.

Lemma holders_insert rs id r y :
  (size (holders (<[id := r]> rs) y) <= size (holders (delete id rs) y) + (if decide (token r = y) then 1 else 0))%nat.
Proof.
  unfold holders. case_decide as Hy.
  - rewrite map_filter_insert_True // map_size_insert map_filter_delete map_size_delete. destruct (_ !! id); cbn; lia.
  - rewrite map_filter_insert_False //. lia.
Qed.

Lemma holders_delete rs id r y :
  rs !! id = Some r →
  size (holders rs y) = (size (holders (delete id rs) y) + (if decide (token r = y) then 1 else 0))%nat.
Proof.
  intros Hr. unfold holders. rewrite map_filter_delete map_size_delete. case_decide as Hy.
  - assert (filter (λ ir, token ir.2 = y) rs !! id = Some r) as Hf by by apply map_lookup_filter_Some_2.
    rewrite Hf. assert (size (filter (λ ir, token ir.2 = y) rs) ≠ 0%nat); [|lia].
    intros Hz%map_size_empty_inv. by rewrite Hz lookup_empty in Hf.
  - rewrite map_lookup_filter_None_2; [cbn; lia|]. right. intros r' Hr'. cbn. congruence.
Qed.

Lemma holders_fewer rs id y : (size (holders (delete id rs) y) <= size (holders rs y))%nat.
Proof. unfold holders. rewrite map_filter_delete map_size_delete. destruct (_ !! id); cbn; lia. Qed.
End holders.

Section watches.
Context {K : Type} `{Countable K}.

(** The token is marked. *)
Definition overtaken (x : loc) (F : flights K) : Prop := x ∈ fl_wsuperseded F.

(** The token is marked, or the next write of [k] marks it. *)
Definition watched (k : K) (x : loc) (F : flights K) : Prop := overtaken x F ∨ fl_watches F !! k = Some x.

#[export] Instance overtaken_stable x : stable (overtaken x).
Proof. split; unfold overtaken; cbn; [intros; rewrite elem_of_mark; tauto|set_solver|done|done]. Qed.

#[export] Instance watched_stable k x : stable (watched k x).
Proof.
  split; unfold watched, overtaken; cbn; [|intros F [?|?]; left|done|done].
  - intros F k'. rewrite elem_of_mark. destruct (decide (k' = k)) as [->|Hne]; [tauto|].
    rewrite lookup_delete_ne //. tauto.
  - set_solver.
  - apply elem_of_union_l, elem_of_map_img. eauto.
Qed.

Lemma watched_superseded F k x : watched k x F → overtaken x (supersedeFlight F k).
Proof. unfold watched, overtaken. cbn. rewrite elem_of_mark. tauto. Qed.
End watches.

Section storeinv.
Context {K V P St T A B : Type} `{Countable K, Inhabited K, Inhabited V}.
Context `{EvictionPolicy K P, ShardStore K St, TtlBackend T, AdmissionPolicy K A}.
Context `{!PolicyLaws K P, !StoreLaws K St, !TtlLaws T}.
Context `{BackingLaws K V B}.

Local Abbreviation shard_wf := (shard_wf (E := ∅)).
Local Abbreviation ok_step := (ok_step (E := ∅)).
Local Abbreviation entry := (entry K V).
Local Abbreviation config := (config K V).
Local Abbreviation globals := (globals K V A).
Local Abbreviation shard := (shard K V P St T).
Local Abbreviation cache := (cache K V P St T A).
Local Abbreviation world := (world K V P St T A B).
Implicit Types (c : config) (C : cache) (g : globals) (s : shard) (e : entry) (w : world) (b : B) (m : gmap K loc)
  (k : K) (v : V) (x : loc) (X : option (K * entry)) (W : option (K * V)) (val : K → option V).

(** ** Steps of the memory *)

(** The watches keep what they have. *)
Definition skeeps s s' : Prop :=
  ∀ x, (sup (overtaken x) s → sup (overtaken x) s') ∧ ∀ k, sup (watched k x) s → sup (watched k x) s'.

Definition wkeeps C C' : Prop :=
  ∀ x, keeps (overtaken x) C C' ∧ ∀ k, keeps (watched k x) C C'.

Lemma skeeps_stable s s' : (∀ Q, stable Q → sup Q s → sup Q s') → skeeps s s'.
Proof. intros HQ x. split; [|intros k]; apply HQ; apply _. Qed.

Lemma wkeeps_stable C C' : (∀ Q, stable Q → keeps Q C C') → wkeeps C C'.
Proof. intros HQ x. split; [|intros k]; apply HQ; apply _. Qed.

Lemma wkeeps_refl C : wkeeps C C.
Proof. intros x. split; [|intros k]; apply keeps_refl. Qed.

Lemma wkeeps_trans C1 C2 C3 : wkeeps C1 C2 → wkeeps C2 C3 → wkeeps C1 C3.
Proof.
  intros W1 W2 x. destruct (W1 x) as [A1 B1], (W2 x) as [A2 B2].
  split; [|intros k]; eapply keeps_trans; eauto.
Qed.

Lemma locked_wkeeps {R} C i (f : globals → shard → globals * shard * R) d :
  (∀ g s, skeeps s (f g s).1.2) → wkeeps C (locked C i f d).1.
Proof.
  intros Hf x. split; [|intros k]; apply locked_keeps; intros g s; [apply (Hf g s x)|apply (proj2 (Hf g s x) k)].
Qed.

(** The memory stays well-formed; a key shows the value of [W], if [W] is
    about it, or one it showed before. *)
Record mstep c W C C' : Prop := MStep {
  ms_wf : cache_wf c 0 C';
  ms_vis : ∀ k v, visible c C' k v →
    match W with
    | Some (k0, v0) => if decide (k = k0) then v = v0 else visible c C k v
    | None => visible c C k v
    end;
  ms_closed : g_closed (c_g C') = g_closed (c_g C) ∧ g_sealed (c_g C') = g_sealed (c_g C)
}.

Lemma mstep_vstep c W C C' : vstep c 0 W C C' → mstep c W C C'.
Proof. by intros []. Qed.

Lemma mstep_refl c C : cache_wf c 0 C → mstep c None C C.
Proof. done. Qed.

(** A locked routine on the shard of [k]; [Wp] relates its result and what it
    writes. *)
Lemma key_mstep {R} c C k (f : globals → shard → globals * shard * R) dflt (Wp : R → option (K * V) → Prop) :
  cache_wf c 0 C →
  (∀ s m D, c_shards C !! shardFor c k = Some s → shard_wf c s m D →
     let '(g', s', r) := f (c_g C) s in ∃ X m' W, ok_step c X (c_g C) s m g' s' m' ∧ shows X W k s ∧ Wp r W) →
  ∃ s g' s' r W, c_shards C !! shardFor c k = Some s ∧ f (c_g C) s = (g', s', r) ∧
    locked C (shardFor c k) f dflt = (Cache g' (<[shardFor c k := s']> (c_shards C)), r) ∧
    mstep c W C (Cache g' (<[shardFor c k := s']> (c_shards C))) ∧ Wp r W.
Proof.
  intros [ms HI] Hf. destruct (lookup_lt_is_Some_2 _ _ (home_lt _ _ _ _ k HI)) as [s Hs].
  destruct (inv_shard _ _ _ _ _ _ HI Hs) as (m & D & Hm & Hw). specialize (Hf _ _ _ Hs Hw).
  unfold locked. rewrite Hs. destruct (f (c_g C) s) as [[g' s'] r] eqn:Hfe. destruct Hf as (X & m' & W & Hok & HX & HW).
  exists s, g', s', r, W. split_and!; try done.
  assert (cstep c 0 X C (Cache g' (<[shardFor c k:=s']> (c_shards C)))) as Hst.
  { eapply locked_cstep; [exact HI|exact Hs|exact Hm|exact Hok|]. intros k' Hk'. by rewrite (shows_writes _ _ _ _ _ HX Hk'). }
  constructor; [apply Hst|by eapply shows_visible|apply Hst].
Qed.

(** ** The invariant *)

(** A value that is not stale: the Store has it or has none. *)
Definition agrees val k v : Prop := ∀ v', val k = Some v' → v' = v.

(** [p] has the writes that are in memory and on their way to the Store: the
    key shows the value of its write, if anything. *)
Definition coherent c (p : gmap K V) C val : Prop :=
  ∀ k v, visible c C k v → match p !! k with Some v0 => v = v0 | None => agrees val k v end.

(** What the Store answered is still what it holds. *)
Definition answered val k (res : storeErr + option V) (pr : option (promotion V)) : Prop :=
  (∀ v, res = inr (Some v) → agrees val k v) ∧
  (∀ q, pr = Some q → agrees val k (pr_value q) ∧ (pr_err q = None → 1 <= pr_weight q)).

Definition read_ok c (p : gmap K V) C val (r : storeRead K V) : Prop :=
  let i := shardFor c (sr_key r) in
  csup (overtaken (sr_watch r)) C i ∨
  (p !! sr_key r = None ∧ csup (watched (sr_key r) (sr_watch r)) C i ∧
   ∀ res pr, sr_result r = Some (res, pr) → answered val (sr_key r) res pr).

(** The records of the Store, if there is one. *)
Definition store_val w : K → option V := match w_store w with Some b => sto_val b | None => λ _, None end.

Record good c (p : gmap K V) w : Prop := Good {
  gd_wf : cache_wf c 0 (w_mem w);
  gd_sealed : g_sealed (c_g (w_mem w)) = false;
  gd_coherent : coherent c p (w_mem w) (store_val w);
  gd_reads : ∀ id r, w_reads w !! id = Some r → read_ok c p (w_mem w) (store_val w) r;
  gd_refs : ∀ x, Z.of_nat (size (holders sr_watch (w_reads w) x)) <= refs_of w x;
  gd_leads : ∀ k id, w_leads w !! k = Some id →
    (id < w_next w)%positive ∧ ∀ r, w_reads w !! id = Some r → sr_key r = k
}.

Lemma read_ok_keeps c p C C' val r : wkeeps C C' → read_ok c p C val r → read_ok c p C' val r.
Proof.
  intros HW [Hr|(Hr & Hw & Ha)]; [left|right]; [by apply HW|]. split_and!; try done. by apply HW.
Qed.

(** A step of the memory that writes nothing new. *)
Lemma good_step c p w C' : good c p w → mstep c None (w_mem w) C' → wkeeps (w_mem w) C' → good c p (set_mem w C').
Proof.
  intros [G1 G2 G3 G4 G5 G6] [M1 M2 [M3 M4]] HW. constructor; cbn; [done|congruence| | |done|done].
  - intros k v Hv. apply G3. by apply M2.
  - intros id r Hr. eapply read_ok_keeps; [exact HW|]. by eapply G4.
Qed.

(** A step that shows a value the Store may have. *)
Lemma good_promote c p w C' k v :
  good c p w → p !! k = None → mstep c (Some (k, v)) (w_mem w) C' → wkeeps (w_mem w) C' →
  agrees (store_val w) k v → good c p (set_mem w C').
Proof.
  intros [G1 G2 G3 G4 G5 G6] Hp [M1 M2 [M3 M4]] HW Ha. constructor; cbn; [done|congruence| | |done|done].
  - intros k' v' Hv. specialize (M2 _ _ Hv). case_decide; [|by apply G3]. subst. rewrite Hp. by apply Ha.
  - intros id r Hr. eapply read_ok_keeps; [exact HW|]. by eapply G4.
Qed.

(** The step marks the watches of [k]. *)
Definition marks c k C C' : Prop :=
  ∀ x, csup (watched k x) C (shardFor c k) → csup (overtaken x) C' (shardFor c k).

Lemma good_write c p w C' k v :
  good c p w → mstep c (Some (k, v)) (w_mem w) C' → wkeeps (w_mem w) C' → marks c k (w_mem w) C' →
  good c (<[k := v]> p) (set_mem w C').
Proof.
  intros [G1 G2 G3 G4 G5 G6] [M1 M2 [M3 M4]] HW HM. constructor; cbn; [done|congruence| | |done|done].
  - intros k' v' Hv. specialize (M2 _ _ Hv). case_decide as E; [subst; by rewrite lookup_insert_eq|].
    rewrite lookup_insert_ne //. by apply G3.
  - intros id r Hr. destruct (G4 id r Hr) as [Ho|(Hn & Hw & Ha)]; [left; by apply HW|].
    destruct (decide (sr_key r = k)) as [E|Hne].
    + left. rewrite E in Hw |- *. by apply HM.
    + right. split_and!; [by rewrite lookup_insert_ne|by apply HW|done].
Qed.

(** ** Steps of the Store *)

Lemma answered_fewer val val' k res pr :
  (∀ v, val' k = Some v → val k = Some v) → answered val k res pr → answered val' k res pr.
Proof.
  intros Hf [A1 A2]. split.
  - intros v Hv v' Hv'. by apply (A1 v Hv), Hf.
  - intros q Hq. destruct (A2 q Hq) as [A3 A4]. split; [|done]. intros v' Hv'. by apply A3, Hf.
Qed.

(** The Store lost records, or gained one of a key that is being written. *)
Lemma good_store c p w b :
  good c p w → (∀ k v, sto_val b k = Some v → is_Some (p !! k) ∨ store_val w k = Some v) → good c p (set_store w b).
Proof.
  intros [G1 G2 G3 G4 G5 G6] Hf. constructor; cbn; try done.
  - intros k v Hv. specialize (G3 k v Hv). destruct (p !! k) as [v0|] eqn:Hp; [done|].
    intros v' Hv'. apply G3. destruct (Hf _ _ Hv') as [[? Hx]|]; [by rewrite Hp in Hx|done].
  - intros id r Hr. destruct (G4 id r Hr) as [|(Hne & Hw & Ha)]; [by left|right].
    split_and!; [done..|]. intros res pr Hpr. eapply answered_fewer; [|by eapply Ha].
    intros v' Hv'. destruct (Hf _ _ Hv') as [[? Hx]|]; [by rewrite Hne in Hx|done].
Qed.

Lemma good_fewer c p w b : good c p w → fewer (sto_val b) (store_val w) → good c p (set_store w b).
Proof. intros Hg Hf. eapply good_store; [done..|]. intros k v Hv. right. by apply Hf. Qed.

Lemma store_val_Some w b : w_store w = Some b → store_val w = sto_val b.
Proof. unfold store_val. by intros ->. Qed.

(** The Store has what was written, or nothing. *)
Lemma good_done c p w k v :
  good c (<[k := v]> p) w → p !! k = None → agrees (store_val w) k v → good c p w.
Proof.
  intros [G1 G2 G3 G4 G5 G6] Hp Ha. constructor; try done.
  - intros k' v' Hv. specialize (G3 k' v' Hv). destruct (decide (k' = k)) as [->|Hne].
    + rewrite lookup_insert_eq in G3. rewrite Hp. by subst.
    + by rewrite lookup_insert_ne // in G3.
  - intros id r Hr. destruct (G4 id r Hr) as [|(Hn & Hw & Hpr)]; [by left|right]. split_and!; [|done..].
    by apply lookup_insert_None in Hn as [? _].
Qed.

Lemma good_forget c p w k v C' :
  good c (<[k := v]> p) w → p !! k = None → mstep c None (w_mem w) C' → wkeeps (w_mem w) C' → (∀ v, ¬ visible c C' k v) →
  good c p (set_mem w C').
Proof.
  intros [G1 G2 G3 G4 G5 G6] Hp [M1 M2 [M3 M4]] HW Hn. constructor; cbn; [done|congruence| | |done|done].
  - intros k' v' Hv. pose proof (G3 k' v' (M2 _ _ Hv)) as Hc. destruct (decide (k' = k)) as [->|Hne]; [by destruct (Hn v')|].
    by rewrite lookup_insert_ne // in Hc.
  - intros id r Hr. destruct (G4 id r Hr) as [|(Hne & Hw & Hpr)]; [by left; apply HW|right].
    split_and!; [by apply lookup_insert_None in Hne as [? _]|by apply HW|done].
Qed.

Lemma set_spec c p w k v ttl :
  good c (<[k := v]> p) w → p !! k = None →
  let '(w', err) := writeThroughStore w k v ttl in
  match err with None => good c p w' | Some _ => good c (<[k := v]> p) w' end.
Proof.
  intros Hg Hp. unfold writeThroughStore. destruct (w_store w) as [b|] eqn:Hb.
  2:{ apply (good_done c p w k v Hg Hp). unfold store_val. by rewrite Hb. }
  pose proof (sto_set_ok b k v ttl) as Hs. destruct (sto_Set b k v ttl) as [err b']. destruct Hs as [Ho Hk].
  assert (good c (<[k := v]> p) (set_store w b')) as Hg'.
  { eapply good_store; [done..|]. intros k' v' Hv'. rewrite (store_val_Some _ _ Hb).
    destruct (decide (k' = k)) as [->|Hne]; [left; by rewrite lookup_insert_eq|right]. by eapply Ho. }
  destruct err; [done|]. apply (good_done c p _ k v Hg' Hp). intros v' Hv'.
  by destruct (Hk _ Hv') as [|[? _]].
Qed.

Lemma delete_spec c p w k :
  good c p w →
  let '(w', err) := deleteThroughStore w k in
  good c p w' ∧ w_mem w' = w_mem w ∧ (err = None → ∀ v, agrees (store_val w') k v).
Proof.
  intros Hg. unfold deleteThroughStore. destruct (w_store w) as [b|] eqn:Hb.
  2:{ split_and!; [done..|]. intros _ v. unfold store_val. by rewrite Hb. }
  pose proof (sto_delete_ok b k) as Hs. rewrite -(store_val_Some _ _ Hb) in Hs.
  destruct (sto_Delete b k) as [[err|removed] b']; destruct Hs as [Hf Hn].
  - split_and!; [by eapply good_fewer|done..].
  - split_and!; [by eapply good_fewer|done|]. intros _ v v' Hv'. cbn in Hv'. by rewrite (Hn _ eq_refl) in Hv'.
Qed.

Lemma rollback_mstep c C k :
  cache_wf c 0 C →
  let C' := locked_ C (shardFor c k) (λ g s, match st_get (sh_storage s) k with
    | Some a => removeLocked c g s a EvictReasonStoreRollback | None => (g, s) end) in
  mstep c None C C' ∧ wkeeps C C' ∧ ∀ v, ¬ visible c C' k v.
Proof.
  intros Hwf C'. subst C'. unfold locked_. set (f := λ g s, _).
  destruct (key_mstep c C k f tt (λ _ W, W = None) Hwf) as (s & g' & s' & r & W & Hs & Hf & -> & Hm & ->).
  { intros s m D Hs Hw. subst f. cbn. rewrite (wf_get _ _ _ _ _ Hw). destruct (m !! k) as [a|] eqn:Hk.
    - pose proof (remove_ok c (c_g C) s m D k a EvictReasonStoreRollback Hw Hk) as Hr.
      destruct (removeLocked _ _ _ _ _) as [g1 s1]. exists None. eexists _, None. by split_and!.
    - exists None, m, None. split_and!; [by eapply ok_refl|done..]. }
  split_and!; [done| |].
  - pose proof (locked_wkeeps C (shardFor c k) f tt) as HW. unfold locked in HW. rewrite Hs Hf in HW. apply HW.
    intros g0 s0. apply skeeps_stable. intros Q HQ Hsup. subst f. cbn.
    destruct (st_get (sh_storage s0) k); [by apply removeLocked_sup|done].
  - intros v (e & He & _). destruct Hwf as [ms HI]. destruct (inv_shard _ _ _ _ _ _ HI Hs) as (m & D & Hm' & Hw).
    rewrite (shard_get_lookup _ _ _ s') in He;
      [|by cbn; rewrite list_lookup_insert_eq; [|by eapply lookup_lt_Some]].
    subst f. cbn in Hf. rewrite (wf_get _ _ _ _ _ Hw) in Hf. destruct (m !! k) as [a|] eqn:Hk.
    + pose proof (remove_ok c (c_g C) s m D k a EvictReasonStoreRollback Hw Hk) as Hr.
      destruct (removeLocked _ _ _ _ _) as [g1 s1]. injection Hf as <- <- <-.
      destruct (os_wf _ _ _ _ _ _ _ _ Hr) as [D' Hw'].
      by rewrite (wf_lookup _ _ _ _ _ Hw') lookup_delete_eq in He.
    + injection Hf as <- <- <-. by rewrite (wf_lookup _ _ _ _ _ Hw) Hk in He.
Qed.

Lemma orRollback_good c p k v (r : world * option storeErr) :
  p !! k = None → (match r.2 with None => good c p r.1 | Some _ => good c (<[k := v]> p) r.1 end) →
  good c p (orRollback c r k).1.
Proof.
  intros Hp. destruct r as [w [err|]]; cbn; [|done]. intros Hg. destruct (rollback_mstep c (w_mem w) k (gd_wf _ _ _ Hg)) as (R1 & R2 & R3).
  by eapply good_forget.
Qed.

Lemma propagate_good c p w k v ttl :
  good c (<[k := v]> p) w → p !! k = None → good c p (propagateSetToStore c w k v ttl).1.
Proof.
  intros Hg Hp. apply (orRollback_good c p k v); [done|]. pose proof (set_spec c p w k v ttl Hg Hp) as Hs.
  by destruct (writeThroughStore w k v ttl) as [w' [err|]].
Qed.

Lemma settle_good c p w k : good c p w → good c p (settle c w k).
Proof.
  intros Hg. destruct (flush_ok c 0 (w_mem w) (shardFor c k) (gd_wf _ _ _ Hg) (Z.le_refl 0)) as [F1 F2].
  apply good_step; [done| |].
  - apply mstep_vstep. by apply vstep_none.
  - apply wkeeps_stable. intros Q HQ. apply flush_keeps. done.
Qed.

(** ** Locked routines *)

(** A routine that writes nothing, or a value the Store may have. *)
Definition harmless (p : gmap K V) w k W : Prop :=
  W = None ∨ p !! k = None ∧ ∃ v, W = Some (k, v) ∧ agrees (store_val w) k v.

Lemma lockedW_good {R} c p w k (f : globals → shard → globals * shard * R) dflt :
  good c p w →
  (∀ s m D, c_shards (w_mem w) !! shardFor c k = Some s → shard_wf c s m D →
     let '(g', s', r) := f (c_g (w_mem w)) s in
     ∃ X m' W, ok_step c X (c_g (w_mem w)) s m g' s' m' ∧ shows X W k s ∧ harmless p w k W) →
  (∀ g s, skeeps s (f g s).1.2) →
  ∃ s g' s' r, c_shards (w_mem w) !! shardFor c k = Some s ∧ f (c_g (w_mem w)) s = (g', s', r) ∧
    let w' := set_mem w (Cache g' (<[shardFor c k := s']> (c_shards (w_mem w)))) in
    lockedW c w k f dflt = (w', r) ∧ good c p w' ∧ g_closed g' = g_closed (c_g (w_mem w)).
Proof.
  intros Hg Hf Hk. destruct (key_mstep c (w_mem w) k f dflt (λ _ W, harmless p w k W) (gd_wf _ _ _ Hg) Hf)
    as (s & g' & s' & r & W & Hs & Hfe & HL & Hm & HW).
  exists s, g', s', r. split_and!; [done..|]. cbv zeta. unfold lockedW. rewrite HL. split_and!; [done| |apply Hm].
  assert (wkeeps (w_mem w) (Cache g' (<[shardFor c k:=s']> (c_shards (w_mem w))))) as HK.
  { pose proof (locked_wkeeps (w_mem w) (shardFor c k) f dflt Hk) as HK. by rewrite HL in HK. }
  destruct HW as [->|(Hp & v & -> & Ha)]; [by apply good_step|by eapply good_promote].
Qed.

(** A routine that writes [v]. *)
Lemma lockedW_write {R} c p w k v (f : globals → shard → globals * shard * R) dflt :
  good c p w →
  (∀ s m D, c_shards (w_mem w) !! shardFor c k = Some s → shard_wf c s m D →
     let '(g', s', r) := f (c_g (w_mem w)) s in
     ∃ X m', ok_step c X (c_g (w_mem w)) s m g' s' m' ∧ shows X (Some (k, v)) k s) →
  (∀ g s, skeeps s (f g s).1.2) →
  (∀ s m D x, c_shards (w_mem w) !! shardFor c k = Some s → shard_wf c s m D →
     sup (watched k x) s → sup (overtaken x) (f (c_g (w_mem w)) s).1.2) →
  ∃ s g' s' r, c_shards (w_mem w) !! shardFor c k = Some s ∧ f (c_g (w_mem w)) s = (g', s', r) ∧
    let w' := set_mem w (Cache g' (<[shardFor c k := s']> (c_shards (w_mem w)))) in
    lockedW c w k f dflt = (w', r) ∧ good c (<[k := v]> p) w' ∧ g_closed g' = g_closed (c_g (w_mem w)).
Proof.
  intros Hg Hf Hk HM. destruct (key_mstep c (w_mem w) k f dflt (λ _ W, W = Some (k, v)) (gd_wf _ _ _ Hg))
    as (s & g' & s' & r & W & Hs & Hfe & HL & Hm & ->).
  { intros s m D Hs Hw. specialize (Hf s m D Hs Hw). destruct (f (c_g (w_mem w)) s) as [[g' s'] r].
    destruct Hf as (X & m' & Hok & HX). by exists X, m', (Some (k, v)). }
  exists s, g', s', r. split_and!; [done..|]. cbv zeta. unfold lockedW. rewrite HL. split_and!; [done| |apply Hm].
  apply good_write; [done..| |].
  - pose proof (locked_wkeeps (w_mem w) (shardFor c k) f dflt Hk) as HK. by rewrite HL in HK.
  - intros x Hx s0. cbn. rewrite list_lookup_insert_eq; [|by eapply lookup_lt_Some]. intros [= <-].
    destruct (gd_wf _ _ _ Hg) as [ms HI]. destruct (inv_shard _ _ _ _ _ _ HI Hs) as (m & D & _ & Hw).
    specialize (HM s m D x Hs Hw (Hx s Hs)). by rewrite Hfe in HM.
Qed.

(** Reads of the clock, statistics and hooks. *)
Lemma set_g_good c p w g :
  good c p w → g_entries g = g_entries (c_g (w_mem w)) → g_bytes g = g_bytes (c_g (w_mem w)) →
  g_tags g = g_tags (c_g (w_mem w)) → same_fixed (c_g (w_mem w)) g → good c p (set_mem w (set_g (w_mem w) g)).
Proof.
  intros Hg E1 E2 E3 E4. apply good_step; [done| |].
  - apply mstep_vstep, env_vstep; [by apply vstep_refl; apply Hg|done..].
  - apply wkeeps_stable. intros Q HQ. apply set_g_keeps.
Qed.
End storeinv.
