(* ===== verification/StoreSteps.v ===== *)
(** * StoreSteps: every step keeps memory and Store in agreement

    The routines under the shard lock, the three steps of a Store read and
    [currentLocked], each shown to keep [good]. *)

From S2P Require Import Prelude Policy Storage Ttl Entry Tags Flights Shard ShardInv ShardOps ShardBulk.
From S2P Require Import Store Cache StoreCache Compute CacheInv CacheOps CacheReads CacheRun CacheKeep CacheNew CacheLoads.
From S2P Require Import StoreInv.

#[local] Open Scope Z_scope.

Section storesteps.
Context {K V P St T A B : Type} `{Countable K, Inhabited K, Inhabited V}.
Context `{EvictionPolicy K P, ShardStore K St, TtlBackend T, AdmissionPolicy K A}.
Context `{!PolicyLaws K P, !StoreLaws K St, !TtlLaws T}.
Context `{BackingLaws K V B}.

Local Abbreviation shard_wf := (shard_wf (E := ∅)).
Local Abbreviation ok_step := (ok_step (E := ∅)).
Local Abbreviation entry := (entry K V).
Local Abbreviation config := (config K V).
Local Abbreviation globals := (globals K V A).
Local Abbreviation shard := (shard K V P St T).
Local Abbreviation cache := (cache K V P St T A).
Local Abbreviation world := (world K V P St T A B).
Implicit Types (c : config) (C : cache) (g : globals) (s : shard) (e : entry) (w : world) (b : B) (m : gmap K loc)
  (k : K) (v : V) (x : loc) (X : option (K * entry)) (W : option (K * V)) (val : K → option V).

(** ** Routines under the lock *)

(** [g1] is [g] after reads of the clock and of the random source. *)
Definition env_of g g1 : Prop := ∃ t rt l, g1 = g_env g t rt l.

Lemma env_refl g : env_of g g.
Proof. exists (g_tick g), (g_rtick g), (g_fx g). by destruct g. Qed.

Lemma env_trans g1 g2 g3 : env_of g1 g2 → env_of g2 g3 → env_of g1 g3.
Proof. intros (t & rt & l & ->) (t' & rt' & l' & ->). by exists t', rt', l'. Qed.

Lemma env_effectiveTTL c g ttl : env_of g (effectiveTTL c g ttl).2.
Proof. destruct (effectiveTTL_frame c g ttl) as [rt ->]. by exists (g_tick g), rt, (g_fx g). Qed.

Lemma env_clock c g : env_of g (clockNow c g).2.
Proof. by exists (S (g_tick g)), (g_rtick g), (g_fx g). Qed.

Lemma upsert_shows c g g1 s m D k v wt ettl sl raw ts :
  shard_wf c s m D → 1 <= wt → g_sealed g = false → env_of g g1 →
  let '(g', s') := upsertLocked c g1 s k v wt ettl sl raw ts in
  ∃ X m', ok_step c X g s m g' s' m' ∧ shows X (Some (k, v)) k s.
Proof.
  intros Hw Hwt Hsl (t & rt & l & ->).
  pose proof (upsert_ok c (g_env g t rt l) s m D k v wt ettl sl raw ts Hw Hwt) as Hu.
  destruct (upsertLocked _ _ _ _ _ _ _ _ _ _) as [g' s']. destruct Hu as (X & m' & Hok & HX).
  exists X, m'. split; [by eapply ok_pre|]. split; [done|]. destruct X as [[k' e]|].
  - destruct HX as (-> & Hwr & _). split; [done|]. apply Hwr.
  - destruct HX as [HX|[HX _]]; [cbn in HX; congruence|]. rewrite (wf_lookup _ _ _ _ _ Hw) HX //.
Qed.

(** What a write marks. *)
Lemma skeeps_upsert c g s k v wt ettl sl raw ts : skeeps s (upsertLocked c g s k v wt ettl sl raw ts).2.
Proof. apply skeeps_stable. intros Q HQ. by apply upsert_sup. Qed.

Lemma upsert_overtakes c g s k v wt ettl sl raw ts x :
  sup (watched k x) s → sup (overtaken x) (upsertLocked c g s k v wt ettl sl raw ts).2.
Proof. intros Hw. apply upsert_sets; [apply _|]. by apply watched_superseded. Qed.

Lemma replace_shows c g g1 s m D k a e v wt :
  shard_wf c s m D → m !! k = Some a → sh_heap s !! a = Some e → 1 <= wt → env_of g g1 →
  let '(g', s') := replaceValueLocked c g1 s a e v wt in
  ∃ X m', ok_step c X g s m g' s' m' ∧ shows X (Some (k, v)) k s.
Proof.
  intros Hw Hk He Hwt (t & rt & l & ->). destruct (wf_entry _ _ _ _ Hw _ _ Hk) as (e0 & He0 & Hkey & _ & Hinv).
  assert (e0 = e) as -> by congruence. unfold replaceValueLocked. cbn. rewrite Hkey.
  set (s0 := sh_set_flights s _ _). set (e' := entry_replace e v wt _).
  set (s1 := sh_set_policy (sh_write s0 a e') _).
  assert (shard_wf c s0 m D) as Hw0 by by apply supersede_ok.
  assert (shard_wf c s1 m D) as Hw1.
  { apply set_policy_wf; [by eapply (write_wf c s0 m D k a e)|]. cbn.
    apply tracks_update; [apply Hw|]. by apply elem_of_erefs. }
  assert (∀ g2, g_entries g2 = g_entries g → g_bytes g2 = g_bytes g - e_weight e + wt → same_fixed g g2 →
    g_tags g2 = g_tags g → ok_step c (Some (k, e')) g s m g2 s1 m) as Hok.
  { intros g2 E1 E2 E3 E4. eapply (update_ok c g s m D k a e e'); [exact Hw|exact Hk|exact He|exact Hw1|done..| |].
    - intros k' tg _. by rewrite E4.
    - intros Ht tg Hin. rewrite E4. apply (Ht k e); [|done]. by rewrite (wf_lookup _ _ _ _ _ Hw) Hk. }
  unfold stat. destruct (cf_events c), (cf_statsEnabled c); cbn;
    (exists (Some (k, e')), m; split; [apply Hok; [cbn; lia..|done|done]|by split]).
Qed.

Lemma skeeps_replace c g s a e v wt : skeeps s (replaceValueLocked c g s a e v wt).2.
Proof.
  apply skeeps_stable. intros Q HQ Hs. unfold replaceValueLocked. cbn. destruct (cf_events c); cbn; by apply stable_one.
Qed.

Lemma replace_overtakes c g s a e v wt k x :
  e_key e = k → sup (watched k x) s → sup (overtaken x) (replaceValueLocked c g s a e v wt).2.
Proof.
  intros Hk Hs. unfold replaceValueLocked. cbn. rewrite Hk. destruct (cf_events c); cbn; by apply watched_superseded.
Qed.

(** ** Promotion *)

Lemma preparePromotion_ok c g k v y :
  let p := preparePromotion c g k v y in pr_value p = v ∧ (pr_err p = None → 1 <= pr_weight p).
Proof.
  unfold preparePromotion. case_bool_decide; [done|]. destruct (checkKeySize c k); [done|].
  destruct (computeWeight c v) as [|wt] eqn:Hw; [done|]. cbn. split; [done|]. intros _. by eapply computeWeight_ge.
Qed.

Lemma promote_shows c g g1 s m D k (p : promotion V) :
  shard_wf c s m D → (pr_err p = None → 1 <= pr_weight p) → g_sealed g = false → env_of g g1 →
  let '(g', s') := promoteLocked c g1 s k p in
  ∃ X m' W, ok_step c X g s m g' s' m' ∧ shows X W k s ∧ (W = None ∨ W = Some (k, pr_value p)).
Proof.
  intros Hw Hp Hsl Henv. unfold promoteLocked. case_bool_decide as Hperr; cbn [orb].
  { exists None, m, None. split_and!; [|done|by left]. destruct Henv as (t & rt & l & ->). eapply ok_frame; [by eapply ok_refl|done..]. }
  destruct (g_closed g1).
  { exists None, m, None. split_and!; [|done|by left]. destruct Henv as (t & rt & l & ->). eapply ok_frame; [by eapply ok_refl|done..]. }
  assert (1 <= pr_weight p) as Hwt by (apply Hp; destruct (pr_err p); [by destruct Hperr|done]).
  cbn. set (g2 := g_env _ _ _ _). set (s0 := sh_set_watches s _). assert (env_of g g2) as Henv2.
  { apply (env_trans _ _ _ Henv). apply (env_clock c g1). }
  assert (shard_wf c s0 m D) as Hw0 by by apply supersede_ok.
  set (r := if bool_decide (0 < pr_expireAt p) && _ then _ else _).
  assert (let '(g', s') := r in ∃ X m', ok_step c X g s0 m g' s' m' ∧ shows X (Some (k, pr_value p)) k s0) as Hr.
  { subst r. destruct (_ && _).
    - by eapply upsert_shows.
    - pose proof (env_effectiveTTL c g2 (cf_defaultTTL c)) as He. destruct (effectiveTTL _ _ _) as [ettl g3].
      eapply upsert_shows; [done..|]. by eapply env_trans. }
  destruct r as [g' s']. destruct Hr as (X & m' & Hok & HX). exists X, m', (Some (k, pr_value p)).
  assert (ok_step c X g s m g' s' m') as Hok' by by destruct Hok.
  split_and!; [|exact HX|by right]. destruct (fl_watches (sh_flights s) !! k); [|done].
  eapply ok_frame; [exact Hok'|done..].
Qed.

Lemma skeeps_promote c g s k (p : promotion V) : skeeps s (promoteLocked c g s k p).2.
Proof.
  unfold promoteLocked. destruct (_ || _); [by intros x|]. cbn.
  set (s0 := sh_set_watches s _). set (r := if bool_decide (0 < pr_expireAt p) && _ then _ else _).
  assert (skeeps s0 r.2) as Hr.
  { subst r. destruct (_ && _); [apply skeeps_upsert|]. destruct (effectiveTTL _ _ _). apply skeeps_upsert. }
  destruct r as [g' s']. cbn in Hr |- *. intros x. destruct (Hr x) as [Ho Hw]. split.
  - intros Hs. apply Ho in Hs. by destruct (fl_watches (sh_flights s) !! k).
  - intros k' [Hs|Hs].
    { left. apply Ho in Hs. by destruct (fl_watches (sh_flights s) !! k). }
    destruct (decide (k' = k)) as [->|Hne].
    { rewrite Hs. right. cbn. by rewrite lookup_insert_eq. }
    assert (sup (watched k' x) s') as Hw'.
    { apply Hw. right. cbn. by rewrite lookup_delete_ne. }
    destruct (fl_watches (sh_flights s) !! k); [|done]. destruct Hw' as [Hw'|Hw']; [by left|right].
    cbn. by rewrite lookup_insert_ne.
Qed.

Lemma storeGet_spec c g b k :
  let '(res, g', b') := storeGet c g b k in
  env_of g g' ∧ fewer (sto_val b') (sto_val b) ∧ ∀ v y, res = inr (Some (v, y)) → agrees (sto_val b') k v.
Proof.
  unfold storeGet. pose proof (sto_get_ok b k) as Hs. destruct (sto_Get b k) as [[err|[v|]] b1]; destruct Hs as [Hf Hv].
  1,3: split_and!; [apply env_refl|done|done].
  assert (let '(y, g', b') := storeExpireAt c g b1 k in env_of g g' ∧ fewer (sto_val b') (sto_val b1)) as Hx.
  { unfold storeExpireAt. destruct sto_TTL as [f|] eqn:Hf'; [|by split; [apply env_refl|]].
    pose proof (sto_ttl_ok f b1 k Hf') as Ht. destruct (f b1 k) as [[|[ttl|]] b2]; cbn in Ht.
    1,3: by split; [apply env_refl|]. case_bool_decide; (split; [|done]); [apply (env_clock c g)|apply env_refl]. }
  destruct (storeExpireAt c g b1 k) as [[y g'] b']. destruct Hx as [He Hf']. split_and!; [done|by etrans|].
  intros v0 y0 [= <- <-] v' Hv'. apply Hf', Hf in Hv'. rewrite (Hv v eq_refl) in Hv'. by injection Hv' as ->.
Qed.

(** ** The reads in flight *)

Lemma refs_of_insert w x n y :
  default 0 (<[x := n]> (w_refs w) !! y) = if decide (x = y) then n else refs_of w y.
Proof. unfold refs_of. rewrite lookup_insert. by case_decide. Qed.

(** A new read whose token is watched. *)
Lemma good_lead c p w k x :
  good c p w → p !! k = None → csup (watched k x) (w_mem w) (shardFor c k) →
  let id := w_next w in
  good c p (set_reads w (w_mem w) (<[id := StoreRead k x None]> (w_reads w)) (<[k := id]> (w_leads w))
                 (<[x := refs_of w x + 1]> (w_refs w)) (Pos.succ id)).
Proof.
  intros [G1 G2 G3 G4 G5 G6] Hp Hw id. constructor; cbn; try done.
  - intros id' r' [[<- <-]|[_ Hr]]%lookup_insert_Some; [|by eapply G4]. right. by split_and!.
  - intros y. unfold refs_of at 1. cbn. rewrite refs_of_insert. pose proof (holders_insert sr_watch (w_reads w) id (StoreRead k x None) y) as Hi.
    cbn in Hi. specialize (G5 y). pose proof (holders_fewer sr_watch (w_reads w) id y) as Hd.
    case_decide; subst; lia.
  - intros k' id' [[<- <-]|[_ Hl]]%lookup_insert_Some.
    + split; [lia|]. intros r. rewrite lookup_insert_eq. by intros [= <-].
    + destruct (G6 _ _ Hl) as [L1 L2]. split; [lia|]. intros r. rewrite lookup_insert_ne; [apply L2|]. subst id. lia.
Qed.

(** A routine that changes only the flights of the shard. *)
Lemma flights_ok c g s m D F nf : shard_wf c s m D → ok_step c None g s m g (sh_set_flights s F nf) m.
Proof. intros Hw. eapply ok_frame; [by eapply ok_refl|done..]. Qed.

Lemma leadRead_good c p w k : good c p w → p !! k = None → good c p (leadRead c w k).1.
Proof.
  intros Hg Hp. unfold leadRead. set (f := λ g s, _).
  destruct (lockedW_good c p w k f (w_next w) Hg) as (s & g' & s' & x & Hs & Hf & HL & Hg' & _).
  - intros s m D Hs Hw. subst f. cbn. unfold watchLockedSpare.
    destruct (fl_watches _ !! k); cbn; exists None, m, None; split_and!; try done; try (by left); [by eapply ok_refl|by eapply flights_ok].
  - intros g s x. subst f. cbn. unfold watchLockedSpare. destruct (fl_watches _ !! k) as [y|] eqn:Hy; [done|].
    split; [done|]. intros k' [Hs|Hs]; [by left|right]. cbn. rewrite lookup_insert_ne //. by intros ->; congruence.
  - unfold lockedW in HL. destruct (locked (w_mem w) (shardFor c k) f (w_next w)) as [C x'].
    injection HL as HC ->. cbn. set (w' := set_mem w C) in *.
    assert (good c p w') as Hgw by by (subst w'; rewrite HC).
    apply (good_lead c p w' k x Hgw Hp). cbn. rewrite HC. cbn. intros s0.
    rewrite list_lookup_insert_eq; [|by eapply lookup_lt_Some]. intros [= <-]. right.
    subst f. cbn in Hf. unfold watchLockedSpare in Hf.
    destruct (fl_watches (sh_flights s) !! k) as [y|] eqn:Hy; injection Hf as <- <- <-; cbn; [done|].
    by rewrite lookup_insert_eq.
Qed.

Lemma beginRead_good c p w k : good c p w → p !! k = None → good c p (beginRead c w k).1.
Proof.
  intros Hg Hp. pose proof (leadRead_good c p w k Hg Hp). unfold beginRead.
  destruct (_ ≫= _) as [[id r]|]; [|done]. by destruct (superseded _ _ _ _).
Qed.

Lemma env_frame g g1 :
  env_of g g1 → g_entries g1 = g_entries g ∧ g_bytes g1 = g_bytes g ∧ g_tags g1 = g_tags g ∧ same_fixed g g1.
Proof. by intros (t & rt & l & ->). Qed.

(** The answer of the Store is recorded. *)
Lemma good_answer c p w id r res (pr : option (promotion V)) :
  good c p w → w_reads w !! id = Some r →
  answered (store_val w) (sr_key r) res pr →
  good c p (set_reads w (w_mem w) (<[id := StoreRead (sr_key r) (sr_watch r) (Some (res, pr))]> (w_reads w))
                 (w_leads w) (w_refs w) (w_next w)).
Proof.
  intros [G1 G2 G3 G4 G5 G6] Hr Hp. constructor; cbn; try done.
  - intros id' r' [[<- <-]|[_ Hr']]%lookup_insert_Some; [|by eapply G4].
    destruct (G4 _ _ Hr) as [Ho|(Hn & Hw & _)]; [by left|right]. split_and!; [done..|].
    by intros res' p' [= <- <-].
  - intros y. specialize (G5 y). pose proof (holders_delete sr_watch _ _ _ y Hr).
    pose proof (holders_insert sr_watch (w_reads w) id (StoreRead (sr_key r) (sr_watch r) (Some (res, pr))) y). cbn in *. unfold refs_of in *. cbn. lia.
  - intros k' id' Hl. destruct (G6 _ _ Hl) as [L1 L2]. split; [done|]. intros r' [[-> <-]|[_ Hr']]%lookup_insert_Some; [|by apply L2].
    cbn. by apply L2.
Qed.

Lemma fetchRead_good c p w id : good c p w → good c p (fetchRead c w id).
Proof.
  intros Hg. unfold fetchRead. destruct (w_reads w !! id) as [r|] eqn:Hr; [|done]. destruct (w_store w) as [b|] eqn:Hb; [|done].
  destruct (sr_result r); [done|]. pose proof (storeGet_spec c (c_g (w_mem w)) b (sr_key r)) as Hs.
  destruct (storeGet c (c_g (w_mem w)) b (sr_key r)) as [[res g] b']. destruct Hs as (He & Hf & Hv).
  set (x := match res with inl _ => _ | inr _ => _ end).
  assert (answered (sto_val b') (sr_key r) x.1 x.2) as Hx.
  { subst x. destruct res as [|[[v y]|]]; cbn; [done| |done]. split.
    - intros v0 [= <-]. by eapply Hv.
    - intros q [= <-]. destruct (preparePromotion_ok c g (sr_key r) v y) as [-> Hp]. split; [by eapply Hv|done]. }
  destruct x as [res' pr]. cbn in Hx.
  set (w1 := set_mem (set_store w b') (set_g (w_mem w) g)).
  assert (good c p w1) as Hg1.
  { apply env_frame in He as (E1 & E2 & E3 & E4). apply (set_g_good c p (set_store w b') g); [|done..]. eapply good_fewer; [done|].
    by rewrite (store_val_Some _ _ Hb). }
  exact (good_answer c p w1 id r res' pr Hg1 Hr Hx).
Qed.

Lemma unwatch_keeps s k x n :
  (∀ y, sup (overtaken y) s → sup (overtaken y) (unwatchLocked s k x n)) ∧
  (∀ k' y, y ≠ x ∨ n ≠ 0 → sup (watched k' y) s → sup (watched k' y) (unwatchLocked s k x n)).
Proof.
  unfold unwatchLocked. destruct (bool_decide_reflect (n = 0)) as [->|Hn]; cbn [andb]; [|done].
  case_bool_decide as Hx; [|done]. split; [done|]. intros k' y [Hy|?] [Hs|Hs]; [by left| |done..]. right. cbn.
  rewrite lookup_delete_ne //. intros ->. congruence.
Qed.

Lemma endStoreRead_good c p w id r : good c p w → w_reads w !! id = Some r → good c p (endStoreRead c w id r).
Proof.
  intros [G1 G2 G3 G4 G5 G6] Hr. unfold endStoreRead, locked_. set (k := sr_key r). set (x := sr_watch r).
  set (n := refs_of w x - 1). set (f := λ g s, (g, unwatchLocked s k x n, tt)).
  destruct (key_mstep c (w_mem w) k f tt (λ _ W, W = None) G1) as (s & g' & s' & [] & W & Hs & Hf & HL & [M1 M2 [M3 M4]] & ->).
  { intros s m D Hs Hw. subst f. cbn. exists None, m, None. split_and!; [|done..].
    unfold unwatchLocked. destruct (_ && _); [by eapply flights_ok|by eapply ok_refl]. }
  assert (∀ y i, csup (overtaken y) (w_mem w) i → csup (overtaken y) (locked (w_mem w) (shardFor c k) f tt).1 i) as Ho.
  { intros y. apply locked_keeps. intros g0 s0. apply unwatch_keeps. }
  assert (∀ k' y i, y ≠ x ∨ n ≠ 0 → csup (watched k' y) (w_mem w) i →
    csup (watched k' y) (locked (w_mem w) (shardFor c k) f tt).1 i) as Hw.
  { intros k' y i Hy. apply locked_keeps. intros g0 s0. by apply unwatch_keeps. }
  constructor; cbn.
  - by rewrite HL.
  - rewrite HL. cbn in M4 |- *. congruence.
  - intros k' v' Hv. apply G3. rewrite HL in Hv. by apply M2.
  - intros id' r' [Hne Hr']%lookup_delete_Some. destruct (G4 _ _ Hr') as [Hr1|(Hr0 & Hr2 & Hr3)].
    + left. by apply Ho.
    + right. split_and!; [done| |done]. apply Hw; [|done].
      destruct (decide (sr_watch r' = x)) as [E|]; [right|by left]. specialize (G5 x).
      pose proof (holders_delete sr_watch _ _ _ x Hr) as H1'. rewrite decide_True // in H1'.
      assert (delete id (w_reads w) !! id' = Some r') as Hd by by apply lookup_delete_Some.
      pose proof (holders_delete sr_watch _ _ _ x Hd) as H2'. rewrite decide_True // in H2'. unfold n. lia.
  - intros y. unfold refs_of at 1. cbn. rewrite refs_of_insert. specialize (G5 y). pose proof (holders_delete sr_watch _ _ _ y Hr) as H1'.
    fold x in H1'. unfold n. case_decide; subst; lia.
  - intros k' id' Hl. assert (w_leads w !! k' = Some id') as Hl'.
    { revert Hl. case_decide; [|done]. by intros [_ ?]%lookup_delete_Some. }
    destruct (G6 _ _ Hl') as [L1 L2]. split; [done|]. intros r' [_ Hr']%lookup_delete_Some. by apply L2.
Qed.

Lemma abortRead_good c p w id : good c p w → good c p (abortRead c w id).
Proof. intros Hg. unfold abortRead. destruct (w_reads w !! id) eqn:Hr; [by apply endStoreRead_good|done]. Qed.

Lemma endRead_good c p w id : good c p w → good c p (endRead c w id).1.
Proof.
  intros Hg. unfold endRead. destruct (w_reads w !! id) as [r|] eqn:Hr; [|done].
  destruct (sr_result r) as [[res pr]|] eqn:Hres; [|done]. cbn. apply settle_good.
  apply endStoreRead_good; [|done]. unfold locked_. set (k := sr_key r).
  match goal with |- context [locked (w_mem w) _ ?f tt] => set (F := f) end.
  destruct (lockedW_good c p w k F tt Hg) as (s & g' & s' & [] & Hs & Hf & HL & Hg' & _).
  - intros s m D Hs Hw. subst F. cbn.
    assert (∃ X m' W, ok_step c X (c_g (w_mem w)) s m (c_g (w_mem w)) s m' ∧ shows X W k s ∧ harmless p w k W) as Hidle.
    { exists None, m, None. split_and!; [by eapply ok_refl|done|by left]. }
    destruct pr as [pr|]; [|done]. case_bool_decide as Hsup; [done|].
    pose proof (freshEntry_frame c (c_g (w_mem w)) s m D k Hw) as Hfr.
    destruct (freshEntryLocked c (c_g (w_mem w)) s k) as [g1 o]. destruct Hfr as [[t ->] _].
    destruct o as [o|].
    { exists None, m, None. split_and!; [|done|by left]. eapply ok_frame; [by eapply ok_refl|done..]. }
    assert (csup (overtaken (sr_watch r)) (w_mem w) (shardFor c k) → False) as Hno by (intros Ho; exact (Hsup (Ho s Hs))).
    assert (p !! k = None ∧ agrees (store_val w) k (pr_value pr) ∧ (pr_err pr = None → 1 <= pr_weight pr)) as (Hp0 & Hp1 & Hp2).
    { destruct (gd_reads _ _ _ Hg id r Hr) as [Ho|(Hn & _ & Ha)]; [by destruct Hno|]. split; [done|]. by apply (proj2 (Ha _ _ Hres)). }
    assert (env_of (c_g (w_mem w)) (g_env (c_g (w_mem w)) t (g_rtick (c_g (w_mem w))) (g_fx (c_g (w_mem w))))) as Henv by by eexists _, _, _.
    pose proof (promote_shows c (c_g (w_mem w)) _ s m D k pr Hw Hp2 (gd_sealed _ _ _ Hg) Henv) as Hpr.
    destruct (promoteLocked _ _ _ _ _) as [g2 s2]. destruct Hpr as (X & m' & W & Hok & HX & HW).
    exists X, m', W. split_and!; [done..|]. destruct HW as [->| ->]; [by left|right]. split; [done|]. by exists (pr_value pr).
  - intros g s. subst F. cbn. destruct pr as [pr|]; [|by intros x]. case_bool_decide; [by intros x|].
    destruct (freshEntryLocked c g s k) as [g1 [o|]]; [by intros x|apply skeeps_promote].
  - unfold lockedW in HL. destruct (locked (w_mem w) (shardFor c k) F tt) as [C []]. injection HL as HC. by rewrite -HC in Hg'.
Qed.

Lemma readThrough_good c p w k : good c p w → p !! k = None → good c p (readThroughStore c w k).1.
Proof.
  intros Hg Hp. unfold readThroughStore. destruct (w_store w); [|done]. pose proof (beginRead_good c p w k Hg Hp) as Hb.
  destruct (beginRead c w k) as [w1 id]. by apply endRead_good, fetchRead_good.
Qed.

(** ** The value a call acts on *)

(** Memory holds [e] at [a] for [k]. *)
Definition entry_at c w k a e : Prop :=
  ∃ s, c_shards (w_mem w) !! shardFor c k = Some s ∧ entryLocked s k = Some (a, e).

Lemma entryLocked_wf c s m D k a e :
  shard_wf c s m D → entryLocked s k = Some (a, e) → m !! k = Some a ∧ sh_heap s !! a = Some e ∧ e_key e = k.
Proof.
  intros Hw. unfold entryLocked. rewrite (wf_get _ _ _ _ _ Hw). intros (a' & Ha & (e' & He & [= <- <-])%bind_Some)%bind_Some.
  split_and!; [done..|]. destruct (wf_entry _ _ _ _ Hw _ _ Ha) as (e0 & He0 & Hk & _). congruence.
Qed.

Lemma fresh_good c p w k :
  good c p w → p !! k = None →
  let '(w', o) := lockedW c w k (λ g s, let '(g, o) := freshEntryLocked c g s k in (g, s, o)) None in
  good c p w' ∧ w_store w' = w_store w ∧
  match o with Some (a, e) => entry_at c w' k a e ∧ agrees (store_val w') k (loadValue e) | None => True end.
Proof.
  intros Hg Hp. set (f := λ g s, _). destruct (lockedW_good c p w k f None Hg) as (s & g' & s' & o & Hs & Hf & -> & Hg' & _).
  - intros s m D Hs Hw. subst f. cbn. pose proof (freshEntry_frame c (c_g (w_mem w)) s m D k Hw) as Hfr.
    destruct (freshEntryLocked _ _ _ _) as [g1 o]. destruct Hfr as [[t ->] _]. exists None, m, None.
    split_and!; [|done|by left]. eapply ok_frame; [by eapply ok_refl|done..].
  - intros g s x. subst f. cbn. by destruct (freshEntryLocked c g s k).
  - split_and!; [done..|]. destruct o as [[a e]|]; [|done]. destruct (gd_wf _ _ _ Hg) as [ms HI].
    destruct (inv_shard _ _ _ _ _ _ HI Hs) as (m & D & _ & Hw). subst f. cbn in Hf.
    pose proof (freshEntry_frame c (c_g (w_mem w)) s m D k Hw) as Hfr.
    destruct (freshEntryLocked _ _ _ _) as [g1 o]. injection Hf as -> <- ->. destruct Hfr as (_ & Hk & He & Hn & _).
    assert (entryLocked s k = Some (a, e)) as Hel by by rewrite /entryLocked (wf_get _ _ _ _ _ Hw) Hk /= He.
    split.
    + exists s. split; [|done]. cbn. rewrite list_lookup_insert_eq //. by eapply lookup_lt_Some.
    + opose proof (gd_coherent _ _ _ Hg k (loadValue e) _) as Hc; [|by rewrite Hp in Hc]. exists e. split_and!; [|done..].
      by rewrite (shard_get_lookup _ _ _ _ Hs) (wf_lookup _ _ _ _ _ Hw) Hk /= He.
Qed.

Lemma current_good c p w k :
  good c p w → p !! k = None →
  let '(w', sm, cur) := currentLocked c w k in
  good c p w' ∧ sm_set sm = None ∧ sm_del sm = false ∧
  match cur with
  | inr (Some (v, o)) => agrees (store_val w') k v ∧ ∀ a e, o = Some (a, e) → entry_at c w' k a e
  | _ => True
  end.
Proof.
  intros Hg Hp. unfold currentLocked. pose proof (fresh_good c p w k Hg Hp) as Hf.
  destruct (lockedW c w k _ None) as [w1 o]. destruct Hf as (Hg1 & _ & Ho).
  destruct o as [[a e]|]. { destruct Ho as [Ho1 Ho2]. split_and!; [done..|]. by intros a' e' [= <- <-]. }
  clear Ho. destruct (w_store w1) as [b|] eqn:Hb; [|done].
  pose proof (storeGet_spec c (c_g (w_mem w1)) b k) as Hs.
  destruct (storeGet c (c_g (w_mem w1)) b k) as [[res g] b']. destruct Hs as (He & Hf & Hv).
  set (w2 := set_mem (set_store w1 b') (set_g (w_mem w1) g)).
  assert (good c p w2) as Hg2.
  { apply env_frame in He as (E1 & E2 & E3 & E4). apply (set_g_good c p (set_store w1 b') g); [|done..].
    eapply good_fewer; [done|]. by rewrite (store_val_Some _ _ Hb). }
  pose proof (fresh_good c p w2 k Hg2 Hp) as Hf2. destruct (lockedW c w2 k _ None) as [w3 o].
  destruct Hf2 as (Hg3 & Hst & Ho).
  destruct o as [[a e]|]. { destruct Ho as [Ho1 Ho2]. split_and!; [done..|]. by intros a' e' [= <- <-]. }
  destruct res as [err|[[v y]|]]; [done| |done].
  set (pr := preparePromotion c g k v y). destruct (preparePromotion_ok c g k v y) as [Hp1 Hp2]. fold pr in Hp1, Hp2.
  assert (agrees (store_val w3) k v) as Ha by (unfold store_val; rewrite Hst; exact (Hv v y eq_refl)).
  match goal with |- context [lockedW c w3 k ?f0 None] => set (f := f0) end.
  destruct (lockedW_good c p w3 k f None Hg3) as (s & g' & s' & o & Hs & Hfe & -> & Hg' & _).
  - intros s m D Hs Hw. subst f. cbn.
    pose proof (promote_shows c (c_g (w_mem w3)) _ s m D k pr Hw Hp2 (gd_sealed _ _ _ Hg3) (env_refl _)) as Hpr.
    destruct (promoteLocked _ _ _ _ _) as [g2 s2]. destruct Hpr as (X & m' & W & Hok & HX & HW).
    exists X, m', W. split_and!; [done..|]. destruct HW as [->| ->]; [by left|right]. split; [done|]. exists (pr_value pr). by rewrite Hp1.
  - intros g0 s. subst f. cbn. pose proof (skeeps_promote c g0 s k pr). by destruct (promoteLocked _ _ _ _ _).
  - split_and!; [done..|]. intros a e ->. exists s'. split.
    + cbn. rewrite list_lookup_insert_eq //. by eapply lookup_lt_Some.
    + subst f. cbn in Hfe. destruct (promoteLocked _ _ _ _ _) as [g2 s2]. by injection Hfe as _ <- <-.
Qed.
End storesteps.
