(* ===== verification/StoreOps.v ===== *)
(** * StoreOps: every operation keeps memory and Store in agreement

    The operations of a cache with a Store, its maintenance, and the steps of
    the Store reads in flight, in any order. *)

From S2P Require Import Prelude Policy Storage Ttl Entry Tags Flights Shard ShardInv ShardOps ShardBulk.
From S2P Require Import Store Cache Bulk Loads Run StoreCache Compute CacheInv CacheOps CacheReads CacheRun RunInv CacheKeep CacheNew CacheLoads.
From S2P Require Import StoreInv StoreSteps.

#[local] Open Scope Z_scope.

Section storeops.
Context {K V P St T A B : Type} `{Countable K, Inhabited K, Inhabited V}.
Context `{EvictionPolicy K P, ShardStore K St, TtlBackend T, AdmissionPolicy K A}.
Context `{!PolicyLaws K P, !StoreLaws K St, !TtlLaws T}.
Context `{BackingLaws K V B}.

Local Abbreviation shard_wf := (shard_wf (E := ∅)).
Local Abbreviation ok_step := (ok_step (E := ∅)).
Local Abbreviation entry := (entry K V).
Local Abbreviation config := (config K V).
Local Abbreviation globals := (globals K V A).
Local Abbreviation shard := (shard K V P St T).
Local Abbreviation cache := (cache K V P St T A).
Local Abbreviation world := (world K V P St T A B).
Implicit Types (c : config) (C : cache) (g : globals) (s : shard) (e : entry) (w : world) (b : B) (m : gmap K loc)
  (k : K) (v : V) (x : loc) (X : option (K * entry)) (W : option (K * V)) (val : K → option V).

(** ** Reads *)

Lemma vstep_good c p w C' :
  good c p w → vstep c 0 None (w_mem w) C' → (∀ Q, stable Q → keeps Q (w_mem w) C') → good c p (set_mem w C').
Proof. intros Hg Hv Hk. apply good_step; [done|by apply mstep_vstep|by apply wkeeps_stable]. Qed.

Lemma hit_good c p w k v : good c p w → good c p (set_mem w (hitResult c (w_mem w) k v).1).
Proof.
  intros Hg. unfold hitResult. cbn. destruct (hit_frame c (c_g (w_mem w)) k v) as (? & ? & ? & ?). by apply set_g_good.
Qed.

Lemma miss_good c p w k : good c p w → good c p (set_mem w (missResult c (w_mem w) k).1).
Proof.
  intros Hg. unfold missResult. cbn. destruct (miss_frame c (c_g (w_mem w)) k) as (? & ? & ? & ?). by apply set_g_good.
Qed.

Lemma missOrReadThrough_good c p w k : good c p w → p !! k = None → good c p (missOrReadThrough c w k).1.
Proof.
  intros Hg Hp. unfold missOrReadThrough. pose proof (readThrough_good c p w k Hg Hp) as Hr.
  destruct (readThroughStore c w k) as [w1 [err|[v|]]]; [done| |].
  - exact (hit_good c p w1 k v Hr).
  - exact (miss_good c p w1 k Hr).
Qed.

(** Memory answers a [Get], or a [Has], of [k]. *)
Definition in_memory c w k : Prop := (getMem c (w_mem w) k).2 ≠ SlowMiss.
Definition has_in_memory c w k : Prop := (Has c (w_mem w) k).2 = true.

Lemma Get_good c p w k : good c p w → p !! k = None ∨ in_memory c w k → good c p (Get_st c w k).1.
Proof.
  intros Hg Hp. unfold Get_st, in_memory in *. destruct (g_closed (c_g (w_mem w))); [done|].
  pose proof (getMem_get c 0 (w_mem w) k (gd_wf _ _ _ Hg) (Z.le_refl 0)) as Hm.
  assert (∀ Q, stable Q → keeps Q (w_mem w) (getMem c (w_mem w) k).1) as Hk by (intros Q HQ; by apply getMem_keeps).
  destruct (getMem c (w_mem w) k) as [C r]. destruct Hm as [Hm _]. pose proof (vstep_good c p w C Hg Hm Hk) as Hg1.
  destruct r as [v| |].
  - exact (hit_good c p (set_mem w C) k v Hg1).
  - destruct Hp as [Hp|Hp]; [by apply missOrReadThrough_good|done].
  - exact (miss_good c p (set_mem w C) k Hg1).
Qed.

Lemma Has_good c p w k : good c p w → p !! k = None ∨ has_in_memory c w k → good c p (Has_st c w k).1.
Proof.
  intros Hg Hp. unfold Has_st, has_in_memory in *. destruct (g_closed (c_g (w_mem w))) eqn:Hcl; [done|]. unfold Has in *.
  rewrite Hcl in Hp |- *. cbn in Hp |- *. set (w1 := set_mem w _). assert (good c p w1) as Hg1.
  { subst w1. by apply set_g_good. }
  destruct (bool_decide _); [done|]. destruct Hp as [Hp|Hp]; [|done]. pose proof (readThrough_good c p w1 k Hg1 Hp) as Hr.
  by destruct (readThroughStore c w1 k) as [w2 [err|[v|]]].
Qed.

(** ** Writes *)

Lemma groups_good c p w ts : good c p w → good c p (settleGroups c w ts).
Proof.
  intros Hg. apply vstep_good; [done|apply groups_vstep; [apply Hg|lia]|]. intros Q HQ. by apply groups_keeps.
Qed.

(** The upserts that write [v]. *)
Lemma put_good c p w k v (put : globals → shard → globals * shard) :
  good c p w →
  (∀ s m D, c_shards (w_mem w) !! shardFor c k = Some s → shard_wf c s m D →
     let '(g', s') := put (c_g (w_mem w)) s in
     ∃ X m', ok_step c X (c_g (w_mem w)) s m g' s' m' ∧ shows X (Some (k, v)) k s) →
  (∀ g s, skeeps s (put g s).2) →
  (∀ s m D x, c_shards (w_mem w) !! shardFor c k = Some s → shard_wf c s m D →
     sup (watched k x) s → sup (overtaken x) (put (c_g (w_mem w)) s).2) →
  good c (<[k := v]> p) (set_mem w (locked_ (w_mem w) (shardFor c k) put)).
Proof.
  intros Hg H1' H2' H3'. unfold locked_. set (f := λ g s, (put g s, tt)).
  destruct (lockedW_write c p w k v f tt Hg) as (s & g' & s' & [] & Hs & Hf & HL & Hg' & _); subst f.
  - intros s m D Hs Hw. cbn. specialize (H1' s m D Hs Hw). by destruct (put (c_g (w_mem w)) s).
  - intros g s. cbn. apply H2'.
  - intros s m D x Hs Hw. cbn. by apply (H3' s m D).
  - unfold lockedW in HL. destruct (locked _ _ _ tt) as [C []]. injection HL as HC. by rewrite -HC in Hg'.
Qed.

Lemma ttl_upsert_good c p w k v wt ttl sl raw ts :
  good c p w → 1 <= wt →
  good c (<[k := v]> p) (set_mem w (locked_ (w_mem w) (shardFor c k) (λ g s,
    let '(ettl, g) := effectiveTTL c g ttl in upsertLocked c g s k v wt ettl sl raw ts))).
Proof.
  intros Hg Hwt. apply put_good; [done|..].
  - intros s m D Hs Hw. pose proof (env_effectiveTTL c (c_g (w_mem w)) ttl) as He. destruct (effectiveTTL _ _ _).
    eapply upsert_shows; [done..|apply Hg|done].
  - intros g s. destruct (effectiveTTL _ _ _). apply skeeps_upsert.
  - intros s m D x _ _. destruct (effectiveTTL _ _ _). apply upsert_overtakes.
Qed.

(** The memory half of [setAndStore]. *)
Lemma setLocked_good c p w k v ttl sl ts C :
  good c p w → setLockedInto c (w_mem w) k v ttl sl ts = (C, None) → good c (<[k := v]> p) (set_mem w C).
Proof.
  intros Hg. unfold setLockedInto. destruct (g_closed (c_g (w_mem w))); [done|]. destruct (checkKeySize c k); [done|].
  destruct (computeWeight c v) as [er|wt] eqn:Hwt; [done|]. destruct (checkTagLimits _ _ _); [done|]. intros [= <-].
  apply ttl_upsert_good; [done|]. by eapply computeWeight_ge.
Qed.

Lemma setLocked_refused c C k v ttl sl ts C' err : setLockedInto c C k v ttl sl ts = (C', Some err) → C' = C.
Proof. unfold setLockedInto. repeat case_match; by intros [= <- ?]. Qed.

Lemma setAndStore_good c p w k v ttl sl ts : good c p w → p !! k = None → good c p (setAndStore_st c w k v ttl sl ts).1.
Proof.
  intros Hg Hp. unfold setAndStore_st. destruct (setLockedInto c (w_mem w) k v ttl sl ts) as [C [er|]] eqn:Hs.
  - apply setLocked_refused in Hs as ->. cbn. apply settle_good. by destruct w.
  - apply (setLocked_good c p w) in Hs; [|done]. pose proof (propagate_good c p _ k v ttl Hs Hp) as Hr.
    destruct (propagateSetToStore c _ k v ttl) as [w2 err]. by apply settle_good.
Qed.

Lemma setTTLCtx_good c p w k v ttl : good c p w → p !! k = None → good c p (setTTLCtx_st c w k v ttl).1.
Proof.
  intros Hg Hp. unfold setTTLCtx_st. pose proof (setAndStore_good c p w k v ttl (cf_slidingTTL c) (cf_autoTags c v) Hg Hp) as Hs.
  destruct (setAndStore_st _ _ _ _ _ _ _) as [w1 [err|]]; [done|]. by apply groups_good.
Qed.

Lemma upsertOptions_shows c g s m D k v sc ts wt :
  shard_wf c s m D → 1 <= wt → g_sealed g = false →
  let '(g', s') := upsertOptions c g s k v sc ts wt in
  ∃ X m', ok_step c X g s m g' s' m' ∧ shows X (Some (k, v)) k s.
Proof.
  intros Hw Hwt Hsl. unfold upsertOptions. destruct (sc_expireAt sc) as [at_|].
  - pose proof (upsertAbs_ok c g s m D k v wt at_ ts Hw Hwt Hsl) as Hu.
    destruct (upsertWithAbsoluteExpiryLocked _ _ _ _ _ _ _ _) as [g' s']. destruct Hu as (e & m' & Hok & Hwr & _).
    exists (Some (k, e)), m'. split; [done|]. split; [done|]. split; [done|]. apply Hwr.
  - pose proof (env_effectiveTTL c g (default (cf_defaultTTL c) (sc_ttl sc))) as He. destruct (effectiveTTL _ _ _).
    by eapply upsert_shows.
Qed.

(** The Store call of [SetWithOptions]. *)
Lemma until_spec c p w k v at_ :
  good c (<[k := v]> p) w → p !! k = None →
  let '(w', err) := writeThroughStoreUntil c w k v at_ in
  match err with None => good c p w' | Some _ => good c (<[k := v]> p) w' end.
Proof.
  intros Hg Hp. unfold writeThroughStoreUntil. destruct (w_store w) as [b|] eqn:Hb.
  2:{ apply (good_done c p w k v Hg Hp). unfold store_val. by rewrite Hb. }
  cbn. set (w1 := set_mem w _). assert (good c (<[k := v]> p) w1) as Hg1 by by apply set_g_good.
  case_bool_decide; [|by apply set_spec].
  pose proof (delete_spec c _ w1 k Hg1) as Hd. destruct (deleteThroughStore w1 k) as [w2 [err|]]; destruct Hd as (D1 & _ & D2);
    [done|]. apply (good_done c p w2 k v D1 Hp), D2. done.
Qed.

Lemma storeOptions_good c p w k v sc : good c (<[k := v]> p) w → p !! k = None → good c p (storeOptions c w k v sc).1.
Proof.
  intros Hg Hp. unfold storeOptions. destruct (sc_expireAt sc) as [[at_|]|]; [|by apply propagate_good..].
  apply (orRollback_good c p k v); [done|]. pose proof (until_spec c p w k v at_ Hg Hp) as Hs.
  by destruct (writeThroughStoreUntil _ _ _ _ _) as [w' [err|]].
Qed.

(** The memory half of [SetWithOptions]. *)
Lemma options_put_good c p w k v sc ts wt :
  good c p w → prepareOptions c (w_mem w) k v sc = inr (ts, wt) →
  good c (<[k := v]> p) (set_mem w (locked_ (w_mem w) (shardFor c k) (λ g s, upsertOptions c g s k v sc ts wt))).
Proof.
  intros Hg Hp%prepareOptions_ge. apply put_good; [done|..].
  - intros s m D Hs Hw. eapply upsertOptions_shows; [done..|apply Hg].
  - intros g s. apply skeeps_stable. intros Q HQ. by apply upsertOptions_sup.
  - intros s m D x _ _ Hx. apply upsertOptions_sets; [apply _|]. by apply watched_superseded.
Qed.

Lemma SetWithOptions_good c p w k v sc : good c p w → p !! k = None → good c p (SetWithOptions_st c w k v sc).1.
Proof.
  intros Hg Hp. unfold SetWithOptions_st. destruct (prepareOptions c (w_mem w) k v sc) as [er|[ts wt]] eqn:Hpr; [done|].
  set (w1 := set_mem w _). assert (good c (<[k := v]> p) w1) as Hg1 by by apply options_put_good.
  pose proof (storeOptions_good c p w1 k v sc Hg1 Hp) as Hs. destruct (storeOptions c w1 k v sc) as [w2 [err|]].
  - by apply settle_good.
  - by apply groups_good, settle_good.
Qed.

(** ** Deletes *)

(** A routine that only removes the key. *)
Lemma remove_good {R} c p w k (f : globals → shard → globals * shard * R) d :
  good c p w →
  (∀ s m D, c_shards (w_mem w) !! shardFor c k = Some s → shard_wf c s m D →
     let '(g', s', r) := f (c_g (w_mem w)) s in ∃ m', ok_step c None (c_g (w_mem w)) s m g' s' m') →
  (∀ Q g s, stable Q → sup Q s → sup Q (f g s).1.2) →
  good c p (lockedW c w k f d).1.
Proof.
  intros Hg H1' H2'. destruct (lockedW_good c p w k f d Hg) as (s & g' & s' & r & Hs & Hf & -> & Hg' & _); [| |done].
  - intros s m D Hs Hw. specialize (H1' s m D Hs Hw). destruct (f (c_g (w_mem w)) s) as [[g' s'] r].
    destruct H1' as [m' Hok]. exists None, m', None. split_and!; [done..|by left].
  - intros g s. apply skeeps_stable. intros Q HQ. by apply H2'.
Qed.

(** The memory halves of [Delete] and [DeleteIf]. *)
Lemma removeKey_good c p w k r :
  good c p w → good c p (lockedW c w k (λ g s, removeKeyLocked c g s k r) false).1.
Proof.
  intros Hg. apply remove_good; [done|..].
  - intros s m D Hs Hw. pose proof (removeKey_ok c (c_g (w_mem w)) s m D k r Hw) as Hk.
    destruct (removeKeyLocked _ _ _ _ _) as [[g' s'] b']. destruct Hk as [Hk _]. by eexists.
  - intros Q g s HQ. by apply removeKey_sup.
Qed.

Lemma removeIf_good c p w k :
  good c p w →
  good c p (lockedW c w k (λ g s,
    let '(g, s, removed) := removeKeyLocked c g s k EvictReasonDeleted in
    (if removed : bool then g else g_count g deletes 1, s, tt)) tt).1.
Proof.
  intros Hg. apply remove_good; [done|..].
  - intros s m D Hs Hw. pose proof (removeKey_ok c (c_g (w_mem w)) s m D k EvictReasonDeleted Hw) as Hk.
    destruct (removeKeyLocked _ _ _ _ _) as [[g' s'] b']. destruct Hk as [Hk _]. eexists. destruct b'; [done|].
    by apply ok_count.
  - intros Q g s HQ Hs. pose proof (removeKey_sup Q c g s k EvictReasonDeleted Hs). by destruct (removeKeyLocked _ _ _ _ _) as [[? ?] ?].
Qed.

Lemma deleteKey_good c p w k r : good c p w → good c p (deleteKey_st c w k r).1.
Proof.
  intros Hg. unfold deleteKey_st. destruct (g_closed (c_g (w_mem w))); [done|].
  pose proof (delete_spec c p w k Hg) as Hd. destruct (deleteThroughStore w k) as [w1 err]. destruct Hd as (Hg1 & _ & _).
  pose proof (removeKey_good c p w1 k r Hg1) as Hr. destruct (lockedW c w1 k _ false) as [w2 removed]. by apply settle_good.
Qed.

Lemma DeleteIf_good c p w k pred : good c p w → p !! k = None → good c p (DeleteIf_st c w k pred).1.
Proof.
  intros Hg Hp. unfold DeleteIf_st. destruct (g_closed (c_g (w_mem w))); [done|]. destruct (hasStore w).
  - pose proof (current_good c p w k Hg Hp) as Hc. destruct (currentLocked c w k) as [[w1 sm] cur]. destruct Hc as (Hg1 & _).
    destruct cur as [err|[[v o]|]]; [by apply settle_good| |by apply settle_good].
    destruct (pred (returnValue c v)); [|by apply settle_good].
    pose proof (delete_spec c p w1 k Hg1) as Hd. destruct (deleteThroughStore w1 k) as [w2 err]. destruct Hd as (Hg2 & _ & _).
    pose proof (removeIf_good c p w2 k Hg2) as Hr. destruct (lockedW c w2 k _ tt) as [w3 []]. by apply settle_good.
  - pose proof (DeleteIf_vstep c 0 (w_mem w) k pred (gd_wf _ _ _ Hg) (Z.le_refl 0)) as Hv.
    assert (∀ Q, stable Q → keeps Q (w_mem w) (DeleteIf c (w_mem w) k pred).1) as Hk.
    { intros Q HQ. exact (run_keeps Q c (w_mem w) (OpDeleteIf k pred) I). }
    destruct (DeleteIf c (w_mem w) k pred) as [C b]. by apply vstep_good.
Qed.

(** ** Read, modify, write *)

Implicit Types sm : storeMirror V.

(** Memory has what the mirror says the Store is still to get. *)
Definition ready c (p : gmap K V) k (r : world * storeMirror V) : Prop :=
  match sm_set r.2 with
  | Some (v, _) => good c (<[k := v]> p) r.1
  | None => good c p r.1
  end.

Lemma keepTTL_good c p w k keep ttl : good c p w → good c p (keepTTL w k keep ttl).1.
Proof.
  intros Hg. unfold keepTTL. destruct keep; [|done]. destruct sto_TTL as [f|] eqn:Hf; [|done].
  destruct (w_store w) as [b|] eqn:Hb; [|done]. pose proof (sto_ttl_ok f b k Hf) as Ht.
  rewrite -(store_val_Some _ _ Hb) in Ht. destruct (f b k) as [r b']. cbn in Ht.
  assert (good c p (set_store w b')) by by apply good_fewer. by destruct r as [|[t|]].
Qed.

(** An operation that ends with the unlock. *)
Definition tidy c (p : gmap K V) w w' : Prop :=
  good c p w' ∧ (overBudget (c_g (w_mem w)) = false → overBudget (c_g (w_mem w')) = false).

Lemma tidy_same c p w : good c p w → tidy c p w w.
Proof. by split. Qed.

Lemma settle_tidy c p w0 w k : good c p w → tidy c p w0 (settle c w k).
Proof.
  intros Hg. split; [by apply settle_good|]. intros _. exact (proj2 (flush_ok c 0 (w_mem w) (shardFor c k) (gd_wf _ _ _ Hg) (Z.le_refl 0))).
Qed.

Lemma mirrored_good {R} c p w0 w sm k (onErr : R → R) r :
  ready c p k (w, sm) → p !! k = None → tidy c p w0 (mirrored c w sm k onErr r).1.
Proof.
  intros Hr Hp. unfold mirrored, mirrorToStore. unfold ready in Hr. cbn in Hr. destruct (sm_set sm) as [[v ttl]|].
  - pose proof (keepTTL_good c _ w k (sm_keepStoreTTL sm) ttl Hr) as Hk. destruct (keepTTL _ _ _ _) as [w1 ttl1].
    pose proof (propagate_good c p w1 k v ttl1 Hk Hp) as Hp'. destruct (propagateSetToStore _ _ _ _ _). by apply settle_tidy.
  - destruct (sm_del sm); [|by apply settle_tidy]. pose proof (delete_spec c p w k Hr) as Hd.
    destruct (deleteThroughStore w k) as [w1 err]. destruct Hd as [Hd _]. by apply settle_tidy.
Qed.

(** A write and the note of it. *)
Definition notes w v (note : globals → shard → globals * storeMirror V) : Prop :=
  ∀ g s, env_of g (note g s).1 ∧
    ((∃ ttl, sm_set (note g s).2 = Some (v, ttl)) ∨ (hasStore w = false ∧ sm_set (note g s).2 = None)).

Lemma no_store c p w k v : good c (<[k := v]> p) w → p !! k = None → hasStore w = false → good c p w.
Proof.
  intros Hg Hp Hs. apply (good_done c p w k v Hg Hp). unfold hasStore in Hs. unfold store_val.
  destruct (w_store w); [|done]. by apply bool_decide_eq_false in Hs; destruct Hs.
Qed.

Lemma write_ready c p w sm k v put note :
  good c p w → p !! k = None → notes w v note →
  (∀ s m D, c_shards (w_mem w) !! shardFor c k = Some s → shard_wf c s m D →
     let '(g', s') := put (c_g (w_mem w)) s in
     ∃ X m', ok_step c X (c_g (w_mem w)) s m g' s' m' ∧ shows X (Some (k, v)) k s) →
  (∀ g s, skeeps s (put g s).2) →
  (∀ s m D x, c_shards (w_mem w) !! shardFor c k = Some s → shard_wf c s m D →
     sup (watched k x) s → sup (overtaken x) (put (c_g (w_mem w)) s).2) →
  let r := lockedW c w k (λ g s, let '(g, s) := put g s in let '(g, sm) := note g s in (g, s, sm)) sm in
  ready c p k r ∧ ∀ v', visible c (w_mem r.1) k v' → v' = v.
Proof.
  intros Hg Hp Hn H1' H2' H3'. cbv zeta. set (f := λ g s, _).
  destruct (lockedW_write c p w k v f sm Hg) as (s & g' & s' & sm' & Hs & Hf & -> & Hg' & _); subst f; cbn.
  - intros s m D Hs Hw. specialize (H1' s m D Hs Hw). destruct (put (c_g (w_mem w)) s) as [g1 s1].
    destruct H1' as (X & m' & Hok & HX). destruct (Hn g1 s1) as [(t & rt & l & He) _].
    destruct (note g1 s1) as [g2 sm2]. cbn in He. subst g2. exists X, m'. split; [|done].
    eapply ok_frame; [exact Hok|done..].
  - intros g s. specialize (H2' g s). destruct (put g s) as [g1 s1]. by destruct (note g1 s1).
  - intros s m D x Hs Hw Hx. specialize (H3' s m D x Hs Hw Hx). destruct (put _ s) as [g1 s1]. by destruct (note g1 s1).
  - split.
    2:{ intros v' Hv'. pose proof (gd_coherent _ _ _ Hg' k v' Hv') as Hc. by rewrite lookup_insert_eq in Hc. }
    unfold ready. cbn [fst snd]. cbn in Hf. destruct (put _ s) as [g1 s1]. destruct (Hn g1 s1) as [_ Hn'].
    destruct (note g1 s1) as [g2 sm2]. injection Hf as <- <- <-. cbn in Hn'. destruct Hn' as [[ttl ->]|[Hno ->]]; [done|].
    by eapply no_store.
Qed.

Lemma noteSet_notes c w sm k v : sm_set sm = None → notes w v (λ g s, noteStoreSetLocked c g s sm (hasStore w) k v).
Proof.
  intros Hsm g s. unfold noteStoreSetLocked. destruct (hasStore w); [|split; [apply env_refl|by right]].
  destruct (_ ≫= _) as [e|]; [|split; [apply env_refl|left; by eexists]].
  case_bool_decide; (split; [|left; by eexists]); [apply (env_clock c g)|apply env_refl].
Qed.

Lemma noteKeep_notes c w sm k v :
  sm_set sm = None → notes w v (λ g s, noteStoreKeepLocked c g s sm (hasStore w) (hasTTLStore w) k v).
Proof.
  intros Hsm g s. unfold noteStoreKeepLocked. destruct (_ || _).
  - destruct (noteSet_notes c w sm k v Hsm g s) as [He Ho]. by destruct (noteStoreSetLocked _ _ _ _ _ _ _).
  - case_bool_decide; (split; [|left; by eexists]); [apply (env_clock c g)|apply env_refl].
Qed.

Lemma setCurrent_ready c p w sm k v wt :
  good c p w → p !! k = None → 1 <= wt → sm_set sm = None → ready c p k (setCurrent c w sm k v wt).
Proof.
  intros Hg Hp Hwt Hsm. unfold setCurrent. apply (write_ready c p w sm k v); [done|done|by apply noteSet_notes|..]; unfold upsertDefault.
  - intros s m D Hs Hw. pose proof (env_effectiveTTL c (c_g (w_mem w)) (cf_defaultTTL c)) as He. destruct (effectiveTTL _ _ _).
    eapply upsert_shows; [done..|apply Hg|done].
  - intros g s. destruct (effectiveTTL _ _ _). apply skeeps_upsert.
  - intros s m D x _ _. destruct (effectiveTTL _ _ _). apply upsert_overtakes.
Qed.

(** The entry, if any, that [currentLocked] returned. *)
Definition held c w k (o : option (loc * entry)) : Prop := ∀ a e, o = Some (a, e) → entry_at c w k a e.

Lemma entry_at_wf c w k a e s m D :
  entry_at c w k a e → c_shards (w_mem w) !! shardFor c k = Some s → shard_wf c s m D →
  m !! k = Some a ∧ sh_heap s !! a = Some e ∧ e_key e = k.
Proof. intros (s0 & Hs0 & He) Hs Hw. assert (s0 = s) as -> by congruence. by eapply entryLocked_wf. Qed.

Lemma storeCurrent_wrote c p w sm k o v wt :
  good c p w → p !! k = None → 1 <= wt → sm_set sm = None → held c w k o →
  ready c p k (storeCurrent c w sm k o v wt) ∧ ∀ v', visible c (w_mem (storeCurrent c w sm k o v wt).1) k v' → v' = v.
Proof.
  intros Hg Hp Hwt Hsm Ho. unfold storeCurrent. apply (write_ready c p w sm k v); [done|done|by apply noteKeep_notes|..].
  - intros s m D Hs Hw. destruct o as [[a e]|]; cbn.
    + destruct (entry_at_wf c w k a e s m D (Ho a e eq_refl) Hs Hw) as (Hk & He & _). by eapply replace_shows; [..|apply env_refl].
    + unfold storeComputedLocked. pose proof (freshEntry_frame c (c_g (w_mem w)) s m D k Hw) as Hfr.
      destruct (freshEntryLocked _ _ _ _) as [g1 [[a e]|]]; destruct Hfr as [[t ->] Hfr].
      * destruct Hfr as (Hk & He & _). eapply replace_shows; [done..|by eexists _, _, _].
      * pose proof (env_effectiveTTL c (g_env (c_g (w_mem w)) t (g_rtick (c_g (w_mem w))) (g_fx (c_g (w_mem w)))) (cf_defaultTTL c)) as He.
        destruct (effectiveTTL _ _ _). eapply upsert_shows; [done..|apply Hg|]. eapply env_trans; [|exact He]. by eexists _, _, _.
  - intros g s. destruct o as [[a e]|]; cbn; [apply skeeps_replace|]. unfold storeComputedLocked.
    destruct (freshEntryLocked c g s k) as [g1 [[a e]|]]; [apply skeeps_replace|]. destruct (effectiveTTL _ _ _). apply skeeps_upsert.
  - intros s m D x Hs Hw Hx. destruct o as [[a e]|]; cbn.
    + destruct (entry_at_wf c w k a e s m D (Ho a e eq_refl) Hs Hw) as (_ & _ & Hk). by apply (replace_overtakes _ _ _ _ _ _ _ k).
    + unfold storeComputedLocked. pose proof (freshEntry_frame c (c_g (w_mem w)) s m D k Hw) as Hfr.
      destruct (freshEntryLocked _ _ _ _) as [g1 [[a e]|]]; destruct Hfr as [_ Hfr].
      * destruct Hfr as (Hk & He & _). destruct (wf_entry _ _ _ _ Hw _ _ Hk) as (e0 & He0 & Hkey & _).
        apply (replace_overtakes _ _ _ _ _ _ _ k); [congruence|done].
      * destruct (effectiveTTL _ _ _). by apply upsert_overtakes.
Qed.

Lemma storeCurrent_ready c p w sm k o v wt :
  good c p w → p !! k = None → 1 <= wt → sm_set sm = None → held c w k o → ready c p k (storeCurrent c w sm k o v wt).
Proof. intros. by apply storeCurrent_wrote. Qed.

Lemma deleteCurrent_ready c p w sm k o :
  good c p w → sm_set sm = None → held c w k o → ready c p k (deleteCurrent c w sm k o).
Proof.
  intros Hg Hsm Ho. unfold deleteCurrent. destruct o as [[a e]|]; [|by rewrite /ready /= Hsm].
  set (f := λ g s, _). assert (good c p (lockedW c w k f tt).1) as Hr.
  { apply remove_good; [done|..]; subst f; cbn.
    - intros s m D Hs Hw. destruct (entry_at_wf c w k a e s m D (Ho a e eq_refl) Hs Hw) as (Hk & _).
      pose proof (remove_ok c (c_g (w_mem w)) s m D k a EvictReasonComputed Hw Hk) as Hr.
      destruct (removeLocked _ _ _ _ _). by eexists.
    - intros Q g s HQ. by apply removeLocked_sup. }
  destruct (lockedW c w k f tt) as [w1 []]. by rewrite /ready /= Hsm.
Qed.

(** The frame all these methods share: [act] says what happens to the current
    value. *)
Lemma rmw_ready {R} c p w k
    (act : world → storeMirror V → storeErr + option (V * option (loc * entry)) → world * storeMirror V * R) :
  good c p w → p !! k = None →
  (∀ w sm cur, good c p w → sm_set sm = None → sm_del sm = false →
     match cur with inr (Some (_, o)) => held c w k o | _ => True end → ready c p k (act w sm cur).1) →
  ready c p k (let '(w, sm, cur) := currentLocked c w k in act w sm cur).1.
Proof.
  intros Hg Hp Ha. pose proof (current_good c p w k Hg Hp) as Hc. destruct (currentLocked c w k) as [[w1 sm] cur].
  destruct Hc as (Hg1 & Hs1 & Hs2 & Hcur). apply (Ha w1 sm cur Hg1 Hs1 Hs2).
  destruct cur as [|[[v o]|]]; [done| |done]. exact (proj2 Hcur).
Qed.

(** The section in memory and the deferred Store call. *)
Lemma rmw_good {R} c p w k (onErr : R → R) (x : world * storeMirror V * (R * option cerr)) :
  ready c p k x.1 → p !! k = None → tidy c p w (let '(w, sm, r) := x in mirrored c w sm k onErr r).1.
Proof. destruct x as [[w1 sm] r]. apply mirrored_good. Qed.

Lemma idle_ready c p w sm k : good c p w → sm_set sm = None → ready c p k (w, sm).
Proof. intros Hg Hsm. by rewrite /ready /= Hsm. Qed.

Lemma applyAction_ready c p w sm k cur r :
  good c p w → p !! k = None → sm_set sm = None → (∀ v o, cur = Some (v, o) → held c w k o) →
  ready c p k (applyAction c w sm k cur r).1.
Proof.
  intros Hg Hp Hsm Ho. unfold applyAction. destruct r as [code|[nv a]]; [by apply idle_ready|].
  destruct a; [| |by apply idle_ready|by apply idle_ready].
  - destruct (computeWeight c nv) as [er|wt] eqn:Hw; [by apply idle_ready|]. cbn.
    apply storeCurrent_ready; [done|done|by eapply computeWeight_ge|done|]. destruct cur as [[v o]|]; [by eapply Ho|done].
  - destruct cur as [[v o]|]; [|by apply idle_ready]. apply deleteCurrent_ready; [done..|]. by eapply Ho.
Qed.

Lemma Compute_ready c p w k fn : good c p w → p !! k = None → ready c p k (Compute_locked c w k fn).1.
Proof.
  intros Hg Hp. apply rmw_ready; [done|done|]. clear w Hg. intros w sm [err|cur] Hg H1' _ Ho; [by apply idle_ready|].
  apply applyAction_ready; [done..|]. by intros v o ->.
Qed.

Lemma Compute_good c p w k fn : good c p w → p !! k = None → tidy c p w (Compute c w k fn).1.
Proof.
  intros Hg Hp. unfold Compute. destruct (g_closed (c_g (w_mem w))); [by apply tidy_same|]. destruct fn as [fn|]; [|by apply tidy_same].
  apply rmw_good; [by apply Compute_ready|done].
Qed.

Lemma ComputeIfPresent_ready c p w k fn : good c p w → p !! k = None → ready c p k (ComputeIfPresent_locked c w k fn).1.
Proof.
  intros Hg Hp. apply rmw_ready; [done|done|]. clear w Hg.
  intros w sm [err|[[v o]|]] Hg H1' _ Ho; [by apply idle_ready| |by apply idle_ready].
  apply applyAction_ready; [done..|]. by intros v' o' [= <- <-].
Qed.

Lemma ComputeIfPresent_good c p w k fn : good c p w → p !! k = None → tidy c p w (ComputeIfPresent c w k fn).1.
Proof.
  intros Hg Hp. unfold ComputeIfPresent. destruct (g_closed (c_g (w_mem w))); [by apply tidy_same|].
  destruct fn as [fn|]; [|by apply tidy_same]. apply rmw_good; [by apply ComputeIfPresent_ready|done].
Qed.

Lemma addCurrent_ready c p w sm k v wt ttl :
  good c p w → p !! k = None → 1 <= wt → sm_set sm = None → ready c p k (addCurrent c w sm k v wt ttl).
Proof.
  intros Hg Hp Hwt Hsm. unfold addCurrent. apply (write_ready c p w sm k v); [done|done|by apply noteSet_notes|..].
  - intros s m D Hs Hw. pose proof (env_effectiveTTL c (c_g (w_mem w)) ttl) as He. destruct (effectiveTTL _ _ _).
    eapply upsert_shows; [done..|apply Hg|done].
  - intros g s. destruct (effectiveTTL _ _ _). apply skeeps_upsert.
  - intros s m D x _ _. destruct (effectiveTTL _ _ _). apply upsert_overtakes.
Qed.

Lemma ComputeIfAbsent_ready c p w k fn : good c p w → p !! k = None → ready c p k (ComputeIfAbsent_locked c w k fn).1.
Proof.
  intros Hg Hp. apply rmw_ready; [done|done|]. clear w Hg. intros w sm [err|[[v o]|]] Hg H1' _ Ho; [by apply idle_ready..|].
  destruct (fn tt) as [code|[v ttl]]; [by apply idle_ready|]. case_bool_decide; [by apply idle_ready|].
  destruct (computeWeight c v) as [er|wt] eqn:Hw; [by apply idle_ready|].
  apply addCurrent_ready; [done|done|by eapply computeWeight_ge|done].
Qed.

Lemma ComputeIfAbsent_good c p w k fn : good c p w → p !! k = None → tidy c p w (ComputeIfAbsent c w k fn).1.
Proof.
  intros Hg Hp. unfold ComputeIfAbsent. destruct (g_closed (c_g (w_mem w))); [by apply tidy_same|].
  destruct fn as [fn|]; [|by apply tidy_same]. apply (rmw_good (R := V * bool)); [by apply ComputeIfAbsent_ready|done].
Qed.

Lemma swap_ready c p w sm k o nv :
  good c p w → p !! k = None → sm_set sm = None → held c w k o → ready c p k (swapCurrent c w sm k o nv).1.
Proof.
  intros Hg Hp Hsm Ho. unfold swapCurrent. destruct (computeWeight c nv) as [er|wt] eqn:Hw; [by apply idle_ready|].
  apply storeCurrent_ready; [done|done|by eapply computeWeight_ge|done..].
Qed.

Lemma Update_ready c p w k fn : good c p w → p !! k = None → ready c p k (Update_locked c w k fn).1.
Proof.
  intros Hg Hp. apply rmw_ready; [done|done|]. clear w Hg.
  intros w sm [err|[[v o]|]] Hg H1' _ Ho; [by apply idle_ready| |by apply idle_ready].
  pose proof (swap_ready c p w sm k o (fn v) Hg Hp H1' Ho) as Hs. by destruct (swapCurrent _ _ _ _ _ _) as [[? ?] [?|]].
Qed.

Lemma Update_good c p w k fn : good c p w → p !! k = None → tidy c p w (Update c w k fn).1.
Proof.
  intros Hg Hp. unfold Update. destruct fn as [fn|]; [|by apply tidy_same]. destruct (g_closed (c_g (w_mem w))); [by apply tidy_same|].
  apply rmw_good; [by apply Update_ready|done].
Qed.

Lemma CompareAndSwap_ready c p deq w k old nv :
  good c p w → p !! k = None → ready c p k (CompareAndSwap_locked c deq w k old nv).1.
Proof.
  intros Hg Hp. apply rmw_ready; [done|done|]. clear w Hg.
  intros w sm [err|[[v o]|]] Hg H1' _ Ho; [by apply idle_ready| |by apply idle_ready].
  destruct (deq v old); [|by apply idle_ready]. pose proof (swap_ready c p w sm k o nv Hg Hp H1' Ho) as Hs.
  by destruct (swapCurrent _ _ _ _ _ _) as [[? ?] [?|]].
Qed.

Lemma CompareAndSwap_good c p deq w k old nv : good c p w → p !! k = None → tidy c p w (CompareAndSwap c deq w k old nv).1.
Proof.
  intros Hg Hp. unfold CompareAndSwap. destruct (g_closed (c_g (w_mem w))); [by apply tidy_same|].
  pose proof (CompareAndSwap_ready c p deq w k old nv Hg Hp) as Hr. destruct (CompareAndSwap_locked _ _ _ _ _ _) as [[w2 sm2] sw].
  pose proof (mirrored_good c p w w2 sm2 k (λ _, false) (sw, None) Hr Hp) as Hm. by destruct (mirrored _ _ _ _ _ _) as [w3 [? ?]].
Qed.

Lemma checked_good {R} c p w k v (zero : R) (act : Z → world * (R * option cerr)) :
  good c p w → (∀ wt, 1 <= wt → tidy c p w (act wt).1) →
  tidy c p w (match checkWrite c (w_mem w) k v with
    | inl err => (w, (zero, Some (CacheErr err))) | inr wt => act wt end).1.
Proof.
  intros Hg Ha. destruct (checkWrite c (w_mem w) k v) as [er|wt] eqn:Hc; [by apply tidy_same|]. apply Ha. by eapply checkWrite_ge.
Qed.

Lemma SetIfAbsent_ready c p w k v wt : good c p w → p !! k = None → 1 <= wt → ready c p k (SetIfAbsent_locked c w k v wt).1.
Proof.
  intros Hg Hp Hwt. apply rmw_ready; [done|done|]. clear w Hg. intros w sm [err|[[v' o]|]] Hg H1' _ Ho; [by apply idle_ready..|].
  by apply setCurrent_ready.
Qed.

Lemma SetIfPresent_ready c p w k v wt : good c p w → p !! k = None → 1 <= wt → ready c p k (SetIfPresent_locked c w k v wt).1.
Proof.
  intros Hg Hp Hwt. apply rmw_ready; [done|done|]. clear w Hg.
  intros w sm [err|[[v' o]|]] Hg H1' _ Ho; [by apply idle_ready| |by apply idle_ready]. by apply setCurrent_ready.
Qed.

Lemma PeekOrAdd_ready c p w k v wt : good c p w → p !! k = None → 1 <= wt → ready c p k (PeekOrAdd_locked c w k v wt).1.
Proof.
  intros Hg Hp Hwt. apply rmw_ready; [done|done|]. clear w Hg. intros w sm [err|[[v' o]|]] Hg H1' _ Ho; [by apply idle_ready..|].
  by apply setCurrent_ready.
Qed.

(** A hit of [GetOrSet]. *)
Lemma touch_good c p w k o :
  good c p w → held c w k o →
  good c p (lockedW c w k (λ g s,
    let '(g, s) := match o with
                   | Some (a, e) => let '(now, g) := clockNow c g in (g, touchLocked s k a e now)
                   | None => (g, s)
                   end in
    (stat c g hits, s, tt)) tt).1.
Proof.
  intros Hg Ho. set (f := λ g s, _).
  destruct (lockedW_good c p w k f tt Hg) as (s & g' & s' & r & Hs & Hf & -> & Hg' & _); [| |done]; subst f; cbn.
  - intros s m D Hs Hw. destruct o as [[a e]|]; cbn.
    + destruct (entry_at_wf c w k a e s m D (Ho a e eq_refl) Hs Hw) as (Hk & He & _).
      set (now := cf_clock c _). set (g1 := g_env _ _ _ _).
      exists (Some (k, (touchAccess (addHit e) now).1)), m, None. split_and!; [| |by left].
      * eapply ok_frame; [by apply (touch_ok c (c_g (w_mem w)) s m D k a e now)|try done..]; unfold stat; by destruct (cf_statsEnabled c).
      * intros k' e' [= <- <-]. split; [done|]. right. exists e. split; [by rewrite (wf_lookup _ _ _ _ _ Hw) Hk|].
        pose proof (touchAccess_frame (addHit e) now) as (_ & Hv & _). done.
    + exists None, m, None. split_and!; [|done|by left]. eapply ok_frame; [by eapply ok_refl|try done..]; unfold stat; by destruct (cf_statsEnabled c).
  - intros g s. destruct o as [[a e]|]; cbn; [|by intros x]. apply skeeps_stable. intros Q HQ. apply sup_ext, touch_flights.
Qed.

Lemma GetOrSet_ready c p w k v wt : good c p w → p !! k = None → 1 <= wt → ready c p k (GetOrSet_locked c w k v wt).1.
Proof.
  intros Hg Hp Hwt. apply rmw_ready; [done|done|]. clear w Hg.
  intros w sm [err|[[v' o]|]] Hg H1' _ Ho; [by apply idle_ready| |by apply setCurrent_ready].
  pose proof (touch_good c p w k o Hg Ho) as Ht. destruct (lockedW c w k _ tt) as [w1 []]. by apply idle_ready.
Qed.

Lemma SetIfAbsent_good c p w k v : good c p w → p !! k = None → tidy c p w (SetIfAbsent_st c w k v).1.
Proof. intros Hg Hp. apply checked_good; [done|]. intros wt Hwt. apply rmw_good; [by apply SetIfAbsent_ready|done]. Qed.

Lemma SetIfPresent_good c p w k v : good c p w → p !! k = None → tidy c p w (SetIfPresent_st c w k v).1.
Proof. intros Hg Hp. apply checked_good; [done|]. intros wt Hwt. apply rmw_good; [by apply SetIfPresent_ready|done]. Qed.

Lemma GetOrSet_good c p w k v : good c p w → p !! k = None → tidy c p w (GetOrSet_st c w k v).1.
Proof.
  intros Hg Hp. apply (checked_good (R := V * bool)); [done|]. intros wt Hwt.
  apply (rmw_good (R := V * bool)); [by apply GetOrSet_ready|done].
Qed.

Lemma PeekOrAdd_good c p w k v : good c p w → p !! k = None → tidy c p w (PeekOrAdd_st c w k v).1.
Proof.
  intros Hg Hp. apply (checked_good (R := V * bool)); [done|]. intros wt Hwt.
  apply (rmw_good (R := V * bool)); [by apply PeekOrAdd_ready|done].
Qed.

(** ** Sequences of steps *)

(** The operations of a cache with a Store, the maintenance of its memory, and
    the steps of a Store read. *)
Inductive wop :=
| WGet (k : K) | WHas (k : K)
| WSet (k : K) (v : V) | WSetWithTTL (k : K) (v : V) (ttl : Z) | WSetWithOptions (k : K) (v : V) (sc : setConfig)
| WDelete (k : K) | WDeleteIf (k : K) (pred : V → bool)
| WSetIfAbsent (k : K) (v : V) | WSetIfPresent (k : K) (v : V) | WGetOrSet (k : K) (v : V) | WPeekOrAdd (k : K) (v : V)
| WCompute (k : K) (fn : option (V → bool → Z + V * ComputeAction))
| WComputeIfAbsent (k : K) (fn : option (unit → Z + V * Z))
| WComputeIfPresent (k : K) (fn : option (V → Z + V * ComputeAction))
| WUpdate (k : K) (fn : option (V → V))
| WCompareAndSwap (deepEqual : V → V → bool) (k : K) (old newValue : V)
| WTouch (k : K) | WTouchWithTTL (k : K) (ttl : Z)
| WClear | WReset | WDeleteExpired | WInvalidateTag (t : string) | WInvalidateTags (ts : list string)
| WJanitor (i : nat) | WDrain
| WBegin (k : K) | WFetch (id : loc) | WEnd (id : loc) | WAbort (id : loc).

(** The maintenance that only touches memory. *)
Definition mem_op (o : wop) : option (cop (K := K) (V := V)) :=
  match o with
  | WTouch k => Some (OpTouch k)
  | WTouchWithTTL k ttl => Some (OpTouchWithTTL k ttl)
  | WClear => Some OpClear
  | WReset => Some OpReset
  | WDeleteExpired => Some OpDeleteExpired
  | WInvalidateTag t => Some (OpInvalidateTag t)
  | WInvalidateTags ts => Some (OpInvalidateTags ts)
  | WJanitor i => Some (OpJanitor i)
  | WDrain => Some OpDrain
  | _ => None
  end.

Definition wrun c w (o : wop) : world :=
  match o with
  | WGet k => (Get_st c w k).1
  | WHas k => (Has_st c w k).1
  | WSet k v => (Set_st c w k v).1
  | WSetWithTTL k v ttl => (SetWithTTL_st c w k v ttl).1
  | WSetWithOptions k v sc => (SetWithOptions_st c w k v sc).1
  | WDelete k => (Delete_st c w k).1
  | WDeleteIf k pred => (DeleteIf_st c w k pred).1
  | WSetIfAbsent k v => (SetIfAbsent_st c w k v).1
  | WSetIfPresent k v => (SetIfPresent_st c w k v).1
  | WGetOrSet k v => (GetOrSet_st c w k v).1
  | WPeekOrAdd k v => (PeekOrAdd_st c w k v).1
  | WCompute k fn => (Compute c w k fn).1
  | WComputeIfAbsent k fn => (ComputeIfAbsent c w k fn).1
  | WComputeIfPresent k fn => (ComputeIfPresent c w k fn).1
  | WUpdate k fn => (Update c w k fn).1
  | WCompareAndSwap deq k old nv => (CompareAndSwap c deq w k old nv).1
  | WBegin k => (beginRead c w k).1
  | WFetch id => fetchRead c w id
  | WEnd id => (endRead c w id).1
  | WAbort id => abortRead c w id
  | _ => match mem_op o with Some o => set_mem w (run c (w_mem w) o) | None => w end
  end.

Definition wrun_all c w (os : list wop) : world := foldl (wrun c) w os.

Lemma mem_good c p w o o' : good c p w → mem_op o = Some o' → good c p (set_mem w (run c (w_mem w) o')).
Proof.
  intros Hg Ho. destruct (run_vstep c 0 (w_mem w) o' (gd_wf _ _ _ Hg) (Z.le_refl 0) (gd_sealed _ _ _ Hg)) as (W & Hv & HW).
  { destruct o; by simplify_eq/=. }
  assert (W = None) as -> by (destruct HW as [->| ->]; [done|]; destruct o; by simplify_eq/=).
  apply vstep_good; [done..|]. intros Q HQ. apply run_keeps; [done|]. destruct o; by simplify_eq/=.
Qed.

(** The key whose lock ([lockKey]) the operation holds from beginning to
    end. *)
Definition write_key (o : wop) : option K :=
  match o with
  | WSet k _ | WSetWithTTL k _ _ | WSetWithOptions k _ _ | WDelete k | WDeleteIf k _
  | WSetIfAbsent k _ | WSetIfPresent k _ | WGetOrSet k _ | WPeekOrAdd k _
  | WCompute k _ | WComputeIfAbsent k _ | WComputeIfPresent k _ | WUpdate k _ | WCompareAndSwap _ k _ _ => Some k
  | _ => None
  end.

(** No operation touches a key in [p] but reads that memory answers. *)
Definition steers_clear c (p : gmap K V) w (o : wop) : Prop :=
  match o with
  | WGet k => p !! k = None ∨ in_memory c w k
  | WHas k => p !! k = None ∨ has_in_memory c w k
  | WBegin k => p !! k = None
  | _ => match write_key o with Some k => p !! k = None | None => True end
  end.

Lemma wrun_good c p w o : good c p w → steers_clear c p w o → good c p (wrun c w o).
Proof.
  intros Hg Hc. destruct o; cbn [wrun mem_op steers_clear write_key] in *; try (by eapply (mem_good c p w _ _ Hg eq_refl)).
  - by apply Get_good.
  - by apply Has_good.
  - by apply setTTLCtx_good.
  - unfold SetWithTTL_st. case_bool_decide; [done|]. by apply setTTLCtx_good.
  - by apply SetWithOptions_good.
  - by apply deleteKey_good.
  - by apply DeleteIf_good.
  - by apply SetIfAbsent_good.
  - by apply SetIfPresent_good.
  - by apply GetOrSet_good.
  - by apply PeekOrAdd_good.
  - by apply Compute_good.
  - by apply ComputeIfAbsent_good.
  - by apply ComputeIfPresent_good.
  - by apply Update_good.
  - by apply CompareAndSwap_good.
  - by apply (mem_good c p w (WTouch k)).
  - by apply (mem_good c p w (WTouchWithTTL k ttl)).
  - by apply (mem_good c p w WClear).
  - by apply (mem_good c p w WReset).
  - by apply (mem_good c p w WDeleteExpired).
  - by apply (mem_good c p w (WInvalidateTag t)).
  - by apply (mem_good c p w (WInvalidateTags ts)).
  - by apply (mem_good c p w (WJanitor i)).
  - by apply (mem_good c p w WDrain).
  - by apply beginRead_good.
  - by apply fetchRead_good.
  - by apply endRead_good.
  - by apply abortRead_good.
Qed.

(** ** Write calls in their steps *)

(** A write call holds the lock of its key only; between its section in
    memory, its Store call and the rollback after a failed one, everything
    else runs.  A read of the Store by [currentLocked] is part of the section
    that follows it: the lock of the key keeps the record as it is in between,
    and memory is looked at again after the read.  What is left of a call: *)
Inductive storeCall := CallSet (ttl : Z) | CallUntil (at_ : Z) | CallMirror (keep : bool) (ttl : Z).

Inductive pendingCall :=
| PendingStore (v : V) (a : storeCall) (tags : list string)      (* memory has [v], the Store call is next *)
| PendingRollback (v : V)                                        (* the Store refused [v] *)
| PendingStoreDelete                                             (* a [ComputeDelete] done in memory *)
| PendingRemove (counted : bool).                                (* a delete that has done its Store call *)

Definition callStore c w key (v : V) (a : storeCall) : world * option storeErr :=
  match a with
  | CallSet ttl => writeThroughStore w key v ttl
  | CallUntil at_ => writeThroughStoreUntil c w key v at_
  | CallMirror keep ttl => let '(w, ttl) := keepTTL w key keep ttl in writeThroughStore w key v ttl
  end.

Definition proceed c w key (cl : pendingCall) : world * option pendingCall :=
  match cl with
  | PendingStore v a tags =>
      match callStore c w key v a with
      | (w, None) => (settleGroups c (settle c w key) tags, None)
      | (w, Some _) => (w, Some (PendingRollback v))
      end
  | PendingRollback _ => (settle c (rollbackInMemory c w key) key, None)
  | PendingStoreDelete => (settle c (deleteThroughStore w key).1 key, None)
  | PendingRemove counted =>
      let w := if counted
               then (lockedW c w key (λ g s,
                       let '(g, s, removed) := removeKeyLocked c g s key EvictReasonDeleted in
                       (if removed : bool then g else g_count g deletes 1, s, tt)) tt).1
               else (lockedW c w key (λ g s, removeKeyLocked c g s key EvictReasonDeleted) false).1 in
      (settle c w key, None)
  end.

(** The section in memory of [setAndStore]. *)
Definition startSet c w key (v : V) (ttl : Z) : world * option pendingCall :=
  let tags := cf_autoTags c v in
  match setLockedInto c (w_mem w) key v ttl (cf_slidingTTL c) tags with
  | (C, Some _) => (settle c (set_mem w C) key, None)
  | (C, None) => (set_mem w C, Some (PendingStore v (CallSet ttl) tags))
  end.

Definition startOptions c w key (v : V) (sc : setConfig) : world * option pendingCall :=
  match prepareOptions c (w_mem w) key v sc with
  | inl _ => (w, None)
  | inr (tags, weight) =>
      (set_mem w (locked_ (w_mem w) (shardFor c key) (λ g s, upsertOptions c g s key v sc tags weight)),
       Some (PendingStore v (match sc_expireAt sc with
                             | Some (Some at_) => CallUntil at_
                             | _ => CallSet (default (cf_defaultTTL c) (sc_ttl sc))
                             end) tags))
  end.

(** The others, with what they noted for the Store. *)
Definition startMirror {R} c key (x : world * storeMirror V * R) : world * option pendingCall :=
  let '(w, sm, _) := x in
  match sm_set sm with
  | Some (v, ttl) => (w, Some (PendingStore v (CallMirror (sm_keepStoreTTL sm) ttl) []))
  | None => if sm_del sm then (w, Some PendingStoreDelete) else (settle c w key, None)
  end.

Definition startChecked {R} c w key (v : V) (x : Z → world * storeMirror V * R) : world * option pendingCall :=
  match checkWrite c (w_mem w) key v with inl _ => (w, None) | inr weight => startMirror c key (x weight) end.

Definition startFn {F R} c w key (fn : option F) (x : F → world * storeMirror V * R) : world * option pendingCall :=
  if g_closed (c_g (w_mem w)) then (w, None)
  else match fn with None => (w, None) | Some fn => startMirror c key (x fn) end.

Definition start c w (o : wop) : world * option pendingCall :=
  match o with
  | WSet k v => startSet c w k v (cf_valueTTL c v (cf_defaultTTL c))
  | WSetWithTTL k v ttl => if bool_decide (ttl < 0) then (w, None) else startSet c w k v ttl
  | WSetWithOptions k v sc => startOptions c w k v sc
  | WDelete k => if g_closed (c_g (w_mem w)) then (w, None) else ((deleteThroughStore w k).1, Some (PendingRemove false))
  | WDeleteIf k pred =>
      if g_closed (c_g (w_mem w)) then (w, None)
      else if hasStore w then
        let '(w, _, cur) := currentLocked c w k in
        match cur with
        | inr (Some (current, _)) =>
            if pred (returnValue c current) then ((deleteThroughStore w k).1, Some (PendingRemove true)) else (settle c w k, None)
        | _ => (settle c w k, None)
        end
      else (set_mem w (DeleteIf c (w_mem w) k pred).1, None)
  | WSetIfAbsent k v => startChecked c w k v (SetIfAbsent_locked c w k v)
  | WSetIfPresent k v => startChecked c w k v (SetIfPresent_locked c w k v)
  | WGetOrSet k v => startChecked c w k v (GetOrSet_locked c w k v)
  | WPeekOrAdd k v => startChecked c w k v (PeekOrAdd_locked c w k v)
  | WCompute k fn => startFn c w k fn (Compute_locked c w k)
  | WComputeIfAbsent k fn => startFn c w k fn (ComputeIfAbsent_locked c w k)
  | WComputeIfPresent k fn => startFn c w k fn (ComputeIfPresent_locked c w k)
  | WUpdate k fn => startFn c w k fn (Update_locked c w k)
  | WCompareAndSwap deq k old nv => startFn c w k (Some tt) (λ _, CompareAndSwap_locked c deq w k old nv)
  | _ => (w, None)
  end.

(** What memory has and the Store is still to get. *)
Definition pend_value (cl : pendingCall) : option V :=
  match cl with PendingStore v _ _ | PendingRollback v => Some v | _ => None end.

(** The invariant with the call [r] of [k] in progress. *)
Definition good_with c (p : gmap K V) k (r : world * option pendingCall) : Prop :=
  match r.2 ≫= pend_value with Some v => good c (<[k := v]> p) r.1 | None => good c p r.1 end.

Lemma startMirror_good {R} c p k (x : world * storeMirror V * R) : ready c p k x.1 → good_with c p k (startMirror c k x).
Proof.
  destruct x as [[w sm] r]. unfold ready, good_with. cbn. destruct (sm_set sm) as [[v ttl]|]; [done|]. intros Hg.
  destruct (sm_del sm); [done|]. by apply settle_good.
Qed.

Lemma startChecked_good {R} c p w k v (x : Z → world * storeMirror V * R) :
  good c p w → (∀ wt, 1 <= wt → ready c p k (x wt).1) → good_with c p k (startChecked c w k v x).
Proof.
  intros Hg Hx. unfold startChecked. destruct (checkWrite c (w_mem w) k v) as [er|wt] eqn:Hc; [done|].
  apply startMirror_good, Hx. by eapply checkWrite_ge.
Qed.

Lemma startFn_good {F R} c p w k (fn : option F) (x : F → world * storeMirror V * R) :
  good c p w → (∀ fn, ready c p k (x fn).1) → good_with c p k (startFn c w k fn x).
Proof.
  intros Hg Hx. unfold startFn. destruct (g_closed _); [done|]. destruct fn as [fn|]; [|done]. by apply startMirror_good.
Qed.

Lemma startSet_good c p w k v ttl : good c p w → good_with c p k (startSet c w k v ttl).
Proof.
  intros Hg. unfold startSet. destruct (setLockedInto _ _ _ _ _ _ _) as [C [er|]] eqn:Hs.
  - apply setLocked_refused in Hs as ->. unfold good_with. cbn. apply settle_good. by destruct w.
  - unfold good_with. cbn. by eapply setLocked_good.
Qed.

Lemma delete_good c p w k : good c p w → good c p (deleteThroughStore w k).1.
Proof. intros Hg. pose proof (delete_spec c p w k Hg) as Hd. destruct (deleteThroughStore w k). apply Hd. Qed.

Lemma startDeleteIf_good c p w k pred : good c p w → p !! k = None → good_with c p k (start c w (WDeleteIf k pred)).
Proof.
  intros Hg Hp. cbn. unfold good_with. destruct (g_closed (c_g (w_mem w))) eqn:Hcl; [done|]. destruct (hasStore w) eqn:Hst.
  - pose proof (current_good c p w k Hg Hp) as Hc. destruct (currentLocked c w k) as [[w1 sm] cur]. destruct Hc as (Hg1 & _).
    destruct cur as [err|[[v o]|]]; [by apply settle_good| |by apply settle_good].
    destruct (pred (returnValue c v)); [by apply delete_good|by apply settle_good].
  - pose proof (DeleteIf_good c p w k pred Hg Hp) as Hd. unfold DeleteIf_st in Hd. rewrite Hcl Hst in Hd. cbn.
    by destruct (DeleteIf c (w_mem w) k pred).
Qed.

Lemma start_good c p w o k : good c p w → write_key o = Some k → p !! k = None → good_with c p k (start c w o).
Proof.
  intros Hg Ho Hp. destruct o; simplify_eq/=.
  - by apply startSet_good.
  - case_bool_decide; [done|]. by apply startSet_good.
  - unfold startOptions. destruct (prepareOptions c (w_mem w) k v sc) as [er|[ts wt]] eqn:Hpr; [done|]. unfold good_with. cbn. by apply options_put_good.
  - destruct (g_closed _); [done|]. unfold good_with. cbn. by apply delete_good.
  - by apply startDeleteIf_good.
  - apply startChecked_good; [done|]. intros. by apply SetIfAbsent_ready.
  - apply startChecked_good; [done|]. intros. by apply SetIfPresent_ready.
  - apply (startChecked_good (R := V * bool * option cerr)); [done|]. intros. by apply GetOrSet_ready.
  - apply (startChecked_good (R := V * bool * option cerr)); [done|]. intros. by apply PeekOrAdd_ready.
  - apply startFn_good; [done|]. intros. by apply Compute_ready.
  - apply (startFn_good (R := V * bool * option cerr)); [done|]. intros. by apply ComputeIfAbsent_ready.
  - apply startFn_good; [done|]. intros. by apply ComputeIfPresent_ready.
  - apply startFn_good; [done|]. intros. by apply Update_ready.
  - apply startFn_good; [done|]. intros. by apply CompareAndSwap_ready.
Qed.

Lemma callStore_spec c p w k v a :
  good c (<[k := v]> p) w → p !! k = None →
  let '(w', err) := callStore c w k v a in
  match err with None => good c p w' | Some _ => good c (<[k := v]> p) w' end.
Proof.
  intros Hg Hp. destruct a as [ttl|at_|keep ttl]; cbn.
  - by apply set_spec.
  - by apply until_spec.
  - pose proof (keepTTL_good c _ w k keep ttl Hg) as Hk. destruct (keepTTL _ _ _ _) as [w1 ttl1]. by apply set_spec.
Qed.

Lemma proceed_good c p w k cl : good_with c p k (w, Some cl) → p !! k = None → good_with c p k (proceed c w k cl).
Proof.
  unfold good_with. cbn. destruct cl as [v a tags|v| |counted]; cbn [pend_value proceed]; intros Hg Hp.
  - pose proof (callStore_spec c p w k v a Hg Hp) as Hs. destruct (callStore c w k v a) as [w1 [err|]]; [done|]. cbn.
    by apply groups_good, settle_good.
  - cbn. apply settle_good. destruct (rollback_mstep c (w_mem w) k (gd_wf _ _ _ Hg)) as (R1 & R2 & R3). by eapply good_forget.
  - cbn. by apply settle_good, delete_good.
  - cbn. apply settle_good. destruct counted; [by apply removeIf_good|by apply removeKey_good].
Qed.

(** A call whose steps follow one another is the operation. *)
Definition finish c k (r : world * option pendingCall) : world :=
  match r with
  | (w, None) => w
  | (w, Some cl) => match proceed c w k cl with
                    | (w, None) => w
                    | (w, Some cl) => (proceed c w k cl).1
                    end
  end.

Lemma settleGroups_nil c w : settleGroups c w [] = w.
Proof. by destruct w. Qed.

Lemma finish_store c w k v a tags :
  finish c k (w, Some (PendingStore v a tags)) =
  (let '(w, err) := orRollback c (callStore c w k v a) k in
   match err with Some _ => settle c w k | None => settleGroups c (settle c w k) tags end).
Proof. unfold finish, orRollback. cbn. by destruct (callStore c w k v a) as [w1 [err|]]. Qed.

Lemma finish_mirror {R R'} c w sm k (r : R') (onErr : R → R) (res : R * option cerr) :
  finish c k (startMirror c k (w, sm, r)) = (mirrored c w sm k onErr res).1.
Proof.
  unfold startMirror, mirrored, mirrorToStore. destruct (sm_set sm) as [[v ttl]|].
  - rewrite finish_store. unfold propagateSetToStore, callStore. destruct (keepTTL _ _ _ _) as [w1 ttl1].
    destruct (orRollback _ _ _) as [w2 [err|]]; cbn; by rewrite ?settleGroups_nil.
  - destruct (sm_del sm); [|done]. cbn. by destruct (deleteThroughStore w k).
Qed.

Lemma finish_set c w k v ttl : finish c k (startSet c w k v ttl) = (setTTLCtx_st c w k v ttl).1.
Proof.
  unfold startSet, setTTLCtx_st, setAndStore_st. destruct (setLockedInto _ _ _ _ _ _ _) as [C [er|]]; [done|].
  rewrite finish_store. unfold propagateSetToStore, callStore. by destruct (orRollback _ _ _) as [w2 [err|]].
Qed.

Lemma finish_options c w k v sc : finish c k (startOptions c w k v sc) = (SetWithOptions_st c w k v sc).1.
Proof.
  unfold startOptions, SetWithOptions_st. destruct (prepareOptions c (w_mem w) k v sc) as [er|[ts wt]]; [done|].
  rewrite finish_store. unfold storeOptions, propagateSetToStore, callStore.
  destruct (sc_expireAt sc) as [[at_|]|]; by destruct (orRollback _ _ _) as [w2 [err|]].
Qed.

(** The steps of a write call, one after the other, are the operation. *)
Lemma finish_start c w o k : write_key o = Some k → finish c k (start c w o) = wrun c w o.
Proof.
  intros Ho. destruct o; simplify_eq/=.
  - apply finish_set.
  - unfold SetWithTTL_st. case_bool_decide; [done|]. apply finish_set.
  - apply finish_options.
  - unfold Delete_st, deleteKey_st. destruct (g_closed _); [done|]. cbn. destruct (deleteThroughStore w k) as [w1 err]. cbn.
    by destruct (lockedW _ _ _ _ _).
  - unfold DeleteIf_st. destruct (g_closed _); [done|]. destruct (hasStore w); [|by destruct (DeleteIf _ _ _ _)].
    destruct (currentLocked c w k) as [[w1 sm] [err|[[v o]|]]]; [done| |done]. destruct (pred _); [|done]. cbn.
    destruct (deleteThroughStore w1 k) as [w2 err]. cbn. by destruct (lockedW _ _ _ _ _).
  - unfold startChecked, SetIfAbsent_st. destruct (checkWrite _ _ _ _) as [er|wt]; [done|].
    destruct (SetIfAbsent_locked _ _ _ _ _) as [[w1 sm] r]. apply finish_mirror.
  - unfold startChecked, SetIfPresent_st. destruct (checkWrite _ _ _ _) as [er|wt]; [done|].
    destruct (SetIfPresent_locked _ _ _ _ _) as [[w1 sm] r]. apply finish_mirror.
  - unfold startChecked, GetOrSet_st. destruct (checkWrite _ _ _ _) as [er|wt]; [done|].
    destruct (GetOrSet_locked _ _ _ _ _) as [[w1 sm] r]. apply (finish_mirror (R := V * bool)).
  - unfold startChecked, PeekOrAdd_st. destruct (checkWrite _ _ _ _) as [er|wt]; [done|].
    destruct (PeekOrAdd_locked _ _ _ _ _) as [[w1 sm] r]. apply (finish_mirror (R := V * bool)).
  - unfold startFn, Compute. destruct (g_closed _); [done|]. destruct fn as [fn|]; [|done].
    destruct (Compute_locked _ _ _ _) as [[w1 sm] r]. apply finish_mirror.
  - unfold startFn, ComputeIfAbsent. destruct (g_closed _); [done|]. destruct fn as [fn|]; [|done].
    destruct (ComputeIfAbsent_locked _ _ _ _) as [[w1 sm] r]. apply (finish_mirror (R := V * bool)).
  - unfold startFn, ComputeIfPresent. destruct (g_closed _); [done|]. destruct fn as [fn|]; [|done].
    destruct (ComputeIfPresent_locked _ _ _ _) as [[w1 sm] r]. apply finish_mirror.
  - unfold startFn, Update. destruct (g_closed _); [by destruct fn|]. destruct fn as [fn|]; [|done].
    destruct (Update_locked _ _ _ _) as [[w1 sm] r]. apply finish_mirror.
  - unfold startFn, CompareAndSwap. destruct (g_closed _); [done|].
    destruct (CompareAndSwap_locked _ _ _ _ _ _) as [[w1 sm] r].
    rewrite (finish_mirror c w1 sm k r (λ _, false) (r, None)). by destruct (mirrored _ _ _ _ _ _) as [w2 [? ?]].
Qed.

(** ** The cache with calls in progress *)

Record bstate := BState { bs_world : world; bs_calls : gmap K pendingCall }.

Implicit Types S : bstate.

Inductive bstep :=
| BRun (o : wop)          (* an operation whose steps follow one another *)
| BStart (o : wop)        (* the section in memory of a write call *)
| BNext (k : K).          (* the next step of the call that has the lock of [k] *)

Definition brun c S (st : bstep) : bstate :=
  match st with
  | BRun o => BState (wrun c (bs_world S) o) (bs_calls S)
  | BStart o =>
      match write_key o with
      | Some k => let '(w, r) := start c (bs_world S) o in BState w (partial_alter (λ _, r) k (bs_calls S))
      | None => S
      end
  | BNext k =>
      match bs_calls S !! k with
      | Some cl => let '(w, r) := proceed c (bs_world S) k cl in BState w (partial_alter (λ _, r) k (bs_calls S))
      | None => S
      end
  end.

Definition pending (calls : gmap K pendingCall) : gmap K V := omap pend_value calls.

(** A write call waits for the lock of its key.  A read of the Store does
    not; the steps considered have none that begins while a write of its key
    is in memory and not yet in the Store. *)
Definition ballowed c S (st : bstep) : Prop :=
  match st with
  | BRun o => steers_clear c (pending (bs_calls S)) (bs_world S) o ∧
              match write_key o with Some k => bs_calls S !! k = None | None => True end
  | BStart o => match write_key o with Some k => bs_calls S !! k = None | None => True end
  | BNext _ => True
  end.

Fixpoint brun_all c S (ss : list bstep) : bstate :=
  match ss with [] => S | st :: ss => brun_all c (brun c S st) ss end.

Fixpoint ballowed_all c S (ss : list bstep) : Prop :=
  match ss with [] => True | st :: ss => ballowed c S st ∧ ballowed_all c (brun c S st) ss end.

Lemma good_with_alter c calls k w (r : option pendingCall) :
  good_with c (delete k (pending calls)) k (w, r) → good c (pending (partial_alter (λ _, r) k calls)) w.
Proof.
  unfold good_with. cbn. intros Hg. destruct (r ≫= pend_value) as [v|] eqn:Hr.
  - replace (pending _) with (<[k := v]> (delete k (pending calls))); [done|]. apply map_eq. intros k'. unfold pending. rewrite lookup_omap.
    destruct (decide (k = k')) as [<-|Hne]; [by rewrite lookup_insert_eq lookup_partial_alter_eq|].
    by rewrite lookup_insert_ne // lookup_delete_ne // lookup_partial_alter_ne // lookup_omap.
  - replace (pending _) with (delete k (pending calls)); [done|]. apply map_eq. intros k'. unfold pending. rewrite lookup_omap.
    destruct (decide (k = k')) as [<-|Hne]; [by rewrite lookup_delete_eq lookup_partial_alter_eq|].
    by rewrite lookup_delete_ne // lookup_partial_alter_ne // lookup_omap.
Qed.

Lemma pending_None (calls : gmap K pendingCall) k : calls !! k = None → pending calls !! k = None.
Proof. intros Hk. unfold pending. by rewrite lookup_omap Hk. Qed.

Lemma brun_good c S st :
  good c (pending (bs_calls S)) (bs_world S) → ballowed c S st →
  good c (pending (bs_calls (brun c S st))) (bs_world (brun c S st)).
Proof.
  intros Hg Ha. destruct st as [o|o|k]; cbn in *.
  - destruct Ha as [Ha _]. by apply wrun_good.
  - destruct (write_key o) as [k|] eqn:Hk; [|done]. pose proof (pending_None _ _ Ha) as Hp.
    pose proof (start_good c _ _ o k Hg Hk Hp) as Hs. destruct (start c (bs_world S) o) as [w r]. cbn.
    apply good_with_alter. by rewrite delete_id.
  - destruct (bs_calls S !! k) as [cl|] eqn:Hk; [|done].
    assert (good_with c (delete k (pending (bs_calls S))) k (bs_world S, Some cl)) as Hw.
    { unfold good_with. cbn. assert (pending (bs_calls S) !! k = pend_value cl) as Hp by (unfold pending; by rewrite lookup_omap Hk).
      destruct (pend_value cl) as [v|]; [by rewrite insert_delete_id|by rewrite delete_id]. }
    pose proof (proceed_good c _ _ k cl Hw (lookup_delete_eq _ _)) as Hs. destruct (proceed c (bs_world S) k cl) as [w r]. cbn.
    by apply good_with_alter.
Qed.

Lemma brun_all_good c S ss :
  good c (pending (bs_calls S)) (bs_world S) → ballowed_all c S ss →
  good c (pending (bs_calls (brun_all c S ss))) (bs_world (brun_all c S ss)).
Proof.
  revert S. induction ss as [|st ss IH]; intros S Hg Ha; [done|]. destruct Ha as [Ha Hs]. apply IH; [by apply brun_good|done].
Qed.
End storeops.
Arguments wop : clear implicits.
Arguments pendingCall : clear implicits.
Arguments bstep : clear implicits.
