(* ===== verification/Concrete.v ===== *)
(** * Concrete: a cache to run

    The cache with integer keys and values, the LRU policy, the map table, the
    heap TTL backend and no admission filter: every parameter of the model is
    instantiated, so that the operations evaluate.  The witnesses of the
    properties are about these caches. *)

From S2P Require Import Prelude Policy Lru Storage Ttl Heap Entry Tags Flights Shard Admission ShardInv.
From S2P Require Import Cache CacheInv CacheRun CacheNew.

#[local] Open Scope Z_scope.

Abbreviation zcache := (cache Z Z (lruPolicy (K := Z)) (mapStore Z) expiryHeapBackend AdmitAlways).
Abbreviation zconfig := (config Z Z).

(** The default configuration with a few fields left open: what the values
    weigh, which tags they bring, the byte bound, the negative TTL, how
    long stale values are served, whether reads
    are lock-free and the clock. *)
Definition zconf (weigher : option (Z → Z)) (autoTags : Z → list string) (maxBytes negativeTTL staleFor : Z)
    (lockFree : bool) (clock : nat → Z) : zconfig :=
  Config (λ k, u64 k) 1 weigher None autoTags (λ _ ttl, ttl) None (λ _, None) maxBytes 0 0 0 0 0 false
    (Some 0) negativeTTL 0 0 true lockFree true None staleFor ∅ false false true false false false false clock (λ _ _, 0)
    (λ l, head l).

(** Time goes up by one with every read of the clock. *)
Definition tick (n : nat) : Z := 1000 + Z.of_nat n.

Definition plain : zconfig := zconf None (λ _, []) 0 0 0 false tick.

(** Two shards, at most [maxEntries] entries. *)
Definition znew (c : zconfig) (maxEntries : Z) : zcache :=
  newCache c maxEntries 2 false (λ _, newLRU) newExpiryHeapBackend newMapStore MkAdmitAlways.

Lemma z_fresh : fresh_parts (K := Z) (λ _ : Z, newLRU) newExpiryHeapBackend newMapStore.
Proof.
  split_and!; [|intros x|done].
  - intros _. split; [apply Dll.rep_nil|apply owns_nil].
  - split_and!; [|intros c Hc; cbn in Hc; lia|done|done]. constructor; cbn; [lia|]. intros a i. by rewrite lookup_empty.
Qed.

Lemma z_config w t b n sf l clk : config_ok (zconf w t b n sf l clk) 2.
Proof. split_and!; [done|done|]. intros k. apply u64_range. Qed.

Lemma znew_wf w t b n sf l clk maxEntries :
  let c := zconf w t b n sf l clk in
  cache_wf c 0 (znew c maxEntries) ∧ overBudget (c_g (znew c maxEntries)) = false ∧
  ∀ k, shard_get c (znew c maxEntries) k = None.
Proof. apply newCache_wf; [apply z_fresh|apply z_config]. Qed.
