(* ===== verification/StoreProps.v ===== *)
(** * StoreProps: what a cache with a Store promises

    Memory and Store agree in every state that operations, the steps of write
    calls and the steps of Store reads lead to; a write reaches the Store or
    leaves no trace in memory; without a Store the operations are those of
    [Cache]. *)

From S2P Require Import Prelude Policy Lru Storage Ttl Heap Entry Tags Flights Shard Admission ShardInv ShardOps ShardBulk.
From S2P Require Import Store Cache Bulk Loads Run StoreCache Compute CacheInv CacheOps CacheReads CacheRun RunInv CacheKeep CacheNew CacheLoads.
From S2P Require Import StoreInv StoreSteps StoreOps Concrete.

#[local] Open Scope Z_scope.

Section storeprops.
Context {K V P St T A B : Type} `{Countable K, Inhabited K, Inhabited V}.
Context `{EvictionPolicy K P, ShardStore K St, TtlBackend T, AdmissionPolicy K A}.
Context `{!PolicyLaws K P, !StoreLaws K St, !TtlLaws T}.
Context `{BackingLaws K V B}.

Local Abbreviation shard_wf := (shard_wf (E := ∅)).
Local Abbreviation ok_step := (ok_step (E := ∅)).
Local Abbreviation entry := (entry K V).
Local Abbreviation config := (config K V).
Local Abbreviation globals := (globals K V A).
Local Abbreviation shard := (shard K V P St T).
Local Abbreviation cache := (cache K V P St T A).
Local Abbreviation world := (world K V P St T A B).
Local Abbreviation bstate := (bstate (K := K) (V := V) (P := P) (St := St) (T := T) (A := A) (B := B)).
Implicit Types (c : config) (C : cache) (g : globals) (s : shard) (e : entry) (w : world) (b : B) (m : gmap K loc)
  (k : K) (v : V) (x : loc) (S : bstate) (val : K → option V).

(** ** What a read returns *)

(** The read a reader leads or joins. *)
Definition readable w id k : Prop :=
  ∃ r, w_reads w !! id = Some r ∧ sr_key r = k ∧
    ∀ res p, sr_result r = Some (res, p) → answered (store_val w) k res p.

Lemma beginRead_readable c (p : gmap K V) w k : good c p w → readable (beginRead c w k).1 (beginRead c w k).2 k.
Proof.
  intros Hg. assert (readable (leadRead c w k).1 (leadRead c w k).2 k) as Hl.
  { unfold leadRead. destruct (locked _ _ _ _) as [C x]. cbn. eexists. split; [apply lookup_insert_eq|]. by split. }
  unfold beginRead. destruct (w_leads w !! k) as [id|] eqn:Hid; [|done]. cbn.
  destruct (w_reads w !! id) as [r|] eqn:Hr; [|done]. cbn. destruct (superseded c (w_mem w) k (sr_watch r)) eqn:Hs; [done|].
  destruct (gd_leads _ _ _ Hg k id Hid) as [_ Hk]. specialize (Hk r Hr). exists r. split_and!; [done..|].
  destruct (gd_reads _ _ _ Hg id r Hr) as [Ho|(_ & _ & Ha)]; [|by rewrite Hk in Ha].
  exfalso. destruct (gd_wf _ _ _ Hg) as [ms HI]. destruct (lookup_lt_is_Some_2 _ _ (home_lt _ _ _ _ k HI)) as [s Hs'].
  unfold superseded in Hs. rewrite Hs' in Hs. apply bool_decide_eq_false in Hs. apply Hs. rewrite Hk in Ho. exact (Ho s Hs').
Qed.

Lemma fetchRead_readable c w id k : readable w id k → readable (fetchRead c w id) id k.
Proof.
  intros (r & Hr & Hk & Ha). unfold fetchRead. rewrite Hr. destruct (w_store w) as [b|] eqn:Hb; [|by exists r].
  destruct (sr_result r) eqn:Hres; [by exists r; rewrite Hres|]. rewrite Hk.
  pose proof (storeGet_spec c (c_g (w_mem w)) b k) as Hs.
  destruct (storeGet c (c_g (w_mem w)) b k) as [[res g] b']. destruct Hs as (He & Hf & Hv).
  destruct res as [err|[[v y]|]]; cbn; (eexists; split; [apply lookup_insert_eq|]; split; [done|]); intros res p [= <- <-];
    [done| |done]. split.
  - intros v0 [= <-]. by eapply Hv.
  - intros q [= <-]. destruct (preparePromotion_ok c g k v y) as [-> Hp]. split; [by eapply Hv|done].
Qed.

Lemma endRead_value c w id k u :
  readable w id k → (endRead c w id).2 = inr (Some u) →
  w_store (endRead c w id).1 = w_store w ∧ ∃ v, u = returnValue c v ∧ agrees (store_val w) k v.
Proof.
  intros (r & Hr & Hk & Ha). unfold endRead. rewrite Hr. destruct (sr_result r) as [[res p]|]; [|done]. cbn.
  destruct (Ha res p eq_refl) as [Hv _]. destruct res as [err|[v|]]; [done| |done]. intros [= <-]. split; [done|]. exists v. auto.
Qed.

Lemma readThrough_value c (p : gmap K V) w k u :
  good c p w → (readThroughStore c w k).2 = inr (Some u) →
  ∃ v, u = returnValue c v ∧ agrees (store_val (readThroughStore c w k).1) k v.
Proof.
  intros Hg. unfold readThroughStore. destruct (w_store w); [|done]. pose proof (beginRead_readable c p w k Hg) as Hb.
  destruct (beginRead c w k) as [w1 id]. cbn in Hb. intros Hu.
  destruct (endRead_value c _ id k u (fetchRead_readable c w1 id k Hb) Hu) as [Hst Hv].
  unfold store_val in *. by rewrite Hst.
Qed.

Lemma Get_value c (p : gmap K V) w k u :
  good c p w → p !! k = None ∨ in_memory c w k → (Get_st c w k).2 = inr (Some u) →
  ∃ v, u = returnValue c v ∧ match p !! k with Some v0 => v = v0 | None => agrees (store_val (Get_st c w k).1) k v end.
Proof.
  intros Hg Hp. unfold Get_st, in_memory in *. destruct (g_closed (c_g (w_mem w))); [done|].
  pose proof (getMem_get c 0 (w_mem w) k (gd_wf _ _ _ Hg) (Z.le_refl 0)) as Hm.
  assert (∀ Q, stable Q → keeps Q (w_mem w) (getMem c (w_mem w) k).1) as Hk by (intros Q HQ; by apply getMem_keeps).
  destruct (getMem c (w_mem w) k) as [C r]. destruct Hm as [Hm Hfound]. pose proof (vstep_good c p w C Hg Hm Hk) as Hg1.
  destruct r as [v| |]; cbn in Hp.
  - cbn. intros [= <-]. exists v. split; [done|]. destruct Hfound as (e & He & [Hn _] & Hv).
    apply (gd_coherent _ _ _ Hg). by exists e.
  - destruct Hp as [Hp|]; [|done]. rewrite Hp. unfold missOrReadThrough. pose proof (readThrough_value c p (set_mem w C) k) as Hr.
    destruct (readThroughStore c (set_mem w C) k) as [w1 [err|[v|]]]; [done| |done]. intros [= <-]. by apply (Hr v).
  - done.
Qed.

(** ** Memory and Store agree *)

(** The states that a new cache in front of any Store, the operations, the
    steps of write calls that wait for the locks of their keys, the cache's
    maintenance and the steps of Store reads lead to. *)
Definition backed c S : Prop :=
  ∃ maxEntries shards coll (newPolicy : Z → P) (newTTL : T) (newStore : St) (adm : A) (b : B) ss,
    let S0 := BState (newWorld (newCache c maxEntries shards coll newPolicy newTTL newStore adm) (Some b)) ∅ in
    fresh_parts newPolicy newTTL newStore ∧ config_ok c shards ∧ ballowed_all c S0 ss ∧ S = brun_all c S0 ss.

Lemma new_good c maxEntries shards coll (newPolicy : Z → P) (newTTL : T) (newStore : St) (adm : A) (store : option B) :
  fresh_parts newPolicy newTTL newStore → config_ok c shards →
  good c ∅ (newWorld (newCache c maxEntries shards coll newPolicy newTTL newStore adm) store).
Proof.
  intros HF HC. destruct (newCache_wf c maxEntries shards coll newPolicy newTTL newStore adm HF HC) as (W1 & W2 & W3).
  constructor; cbn; try done. intros k v (e & He & _). by rewrite W3 in He.
Qed.

Lemma backed_good c S : backed c S → good c (pending (bs_calls S)) (bs_world S).
Proof.
  intros (n & sh & coll & np & nt & ns & adm & b & ss & HF & HC & HA & ->). apply brun_all_good; [|done]. by apply new_good.
Qed.

(** C9: memory and Store agree.  A write call writes memory, then the Store,
    and rolls memory back when the Store refuses, holding only the lock of its
    key.  However the steps of such calls, whole operations, maintenance and
    the steps of Store reads follow one another, a value that memory can serve
    is the one in the Store's record of the key, if there is a record, or that
    of the write of the key in progress; a value that [Get] returns, from
    memory, from the Store or from the read of another caller, is (a copy of)
    that value; and the cache stays well-formed.  The one order left out is a
    read of the Store that begins while a write of the same key is in memory
    and not yet in the Store. *)
Theorem store_coherent c S b k :
  backed c S → w_store (bs_world S) = Some b →
  let w := bs_world S in
  let expected (val : K → option V) v := match pending (bs_calls S) !! k with Some v0 => v = v0 | None => agrees val k v end in
  cache_wf c 0 (w_mem w) ∧
  (∀ v, visible c (w_mem w) k v → expected (sto_val b) v) ∧
  (∀ u b', ballowed c S (BRun (WGet k)) → (Get_st c w k).2 = inr (Some u) → w_store (Get_st c w k).1 = Some b' →
     ∃ v, u = returnValue c v ∧ expected (sto_val b') v).
Proof.
  intros Hb%backed_good Hs w expected. subst expected. cbv beta. split_and!; [apply Hb| |].
  - intros v Hv. rewrite -(store_val_Some _ _ Hs). by apply (gd_coherent _ _ _ Hb).
  - intros u b' [Ha _] Hu Hs'. rewrite -(store_val_Some _ _ Hs'). by apply Get_value.
Qed.

(** ** Writes *)

Lemma settle_visible c w k k' v :
  cache_wf c 0 (w_mem w) → visible c (w_mem (settle c w k)) k' v → visible c (w_mem w) k' v.
Proof.
  intros Hwf Hv. destruct (flush_ok c 0 (w_mem w) (shardFor c k) Hwf (Z.le_refl 0)) as [F1 F2].
  apply (vs_visible _ _ _ _ _ (vstep_none _ _ _ _ F1 (λ _, F2))), Hv.
Qed.

Lemma groups_visible c w ts k v :
  cache_wf c 0 (w_mem w) → visible c (w_mem (settleGroups c w ts)) k v → visible c (w_mem w) k v.
Proof. intros Hwf. apply (vs_visible _ _ _ _ _ (groups_vstep c 0 ts (w_mem w) Hwf (Z.le_refl 0))). Qed.

(** C24: a write reaches the Store or leaves no trace.  In a cache without
    [WithAsyncWrites], a [SetWithTTL] that passes the checks and has the lock of
    its key hands the Store the value and the TTL once, and returns the Store's
    error; memory then serves nothing but the value, and after an error nothing
    at all. *)
Theorem write_through c S b k v ttl wt :
  let w := bs_world S in
  backed c S → bs_calls S !! k = None → w_store w = Some b → g_closed (c_g (w_mem w)) = false → 0 <= ttl →
  checkKeySize c k = None → computeWeight c v = inr wt → checkTagLimits c (c_g (w_mem w)) (cf_autoTags c v) = None →
  let '(err, b') := sto_Set b k v ttl in
  let '(w', r) := SetWithTTL_st c w k v ttl in
  w_store w' = Some b' ∧ r = StoreErr <$> err ∧ ∀ v', visible c (w_mem w') k v' → err = None ∧ v' = v.
Proof.
  intros w Hg%backed_good _ Hb Hcl Httl Hks Hwt Htl. unfold SetWithTTL_st. rewrite bool_decide_false; [|lia].
  unfold setTTLCtx_st, setAndStore_st, setLockedInto. rewrite Hcl Hks Hwt Htl. set (w1 := set_mem w _).
  assert (good c (<[k := v]> (pending (bs_calls S))) w1) as Hg1 by (apply ttl_upsert_good; [done|by eapply computeWeight_ge]).
  assert (∀ v', visible c (w_mem w1) k v' → v' = v) as Hvis.
  { intros v' Hv'. pose proof (gd_coherent _ _ _ Hg1 k v' Hv') as Hc. by rewrite lookup_insert_eq in Hc. }
  unfold propagateSetToStore, writeThroughStore. assert (w_store w1 = Some b) as -> by done.
  destruct (sto_Set b k v ttl) as [[err|] b']; cbn -[rollbackInMemory settle settleGroups].
  - set (w2 := rollbackInMemory c _ k). destruct (rollback_mstep c (w_mem w1) k (gd_wf _ _ _ Hg1)) as (R1 & _ & R3).
    split_and!; [done..|]. intros v' Hv'. exfalso. apply (R3 v'). change (visible c (w_mem w2) k v').
    apply (settle_visible c w2 k); [|done]. apply R1.
  - set (w2 := set_store w1 b'). assert (cache_wf c 0 (w_mem w2)) as Hwf by apply Hg1.
    assert (cache_wf c 0 (w_mem (settle c w2 k))) as Hwf'.
    { destruct (flush_ok c 0 (w_mem w2) (shardFor c k) Hwf (Z.le_refl 0)) as [F1 _]. apply F1. }
    split_and!; [done..|]. intros v' Hv'. split; [done|]. apply Hvis.
    apply (settle_visible c w2 k k v' Hwf). by eapply groups_visible.
Qed.

(** ** Without a Store *)

Lemma locked_once {R} C i s (f : globals → shard → globals * shard * R) d :
  c_shards C !! i = Some s → locked C i f d = (let '(g, s, r) := f (c_g C) s in (Cache g (<[i := s]> (c_shards C)), r)).
Proof. unfold locked. by intros ->. Qed.

Lemma mirrored_none {R} c w sm k (onErr : R → R) r :
  sm_set sm = None → sm_del sm = false → mirrored c w sm k onErr r = (settle c w k, r).
Proof. intros H1' H2'. unfold mirrored, mirrorToStore. by rewrite H1' H2'. Qed.

(** The result of a conditional write with the error made explicit. *)
Definition outcome {R} (zero : R) (r : error + R) : R * option cerr :=
  match r with inl e => (zero, Some (CacheErr e)) | inr x => (x, None) end.

Lemma current_storeless c w k s :
  w_store w = None → c_shards (w_mem w) !! shardFor c k = Some s →
  currentLocked c w k =
  (let '(g, o) := freshEntryLocked c (c_g (w_mem w)) s k in
   (set_mem w (set_g (w_mem w) g), noMirror, inr ((λ ae, (loadValue ae.2, Some ae)) <$> o))).
Proof.
  intros Hst Hs. unfold currentLocked, lockedW. rewrite (locked_once _ _ s) //.
  destruct (freshEntryLocked c (c_g (w_mem w)) s k) as [g o]. rewrite list_insert_id //. destruct o as [[a e]|]; cbn; [done|].
  by rewrite Hst.
Qed.

Lemma setCurrent_storeless c w sm k v wt s :
  w_store w = None → c_shards (w_mem w) !! shardFor c k = Some s →
  setCurrent c w sm k v wt =
  (let '(g, s) := upsertDefault c (c_g (w_mem w)) s k v wt in
   (set_mem w (Cache g (<[shardFor c k := s]> (c_shards (w_mem w)))), sm)).
Proof.
  intros Hst Hs. unfold setCurrent, lockedW, hasStore. rewrite (locked_once _ _ s) // Hst.
  rewrite bool_decide_false; [|by intros []]. by destruct (upsertDefault c (c_g (w_mem w)) s k v wt).
Qed.

Lemma propagate_storeless c w k v ttl : w_store w = None → propagateSetToStore c w k v ttl = (w, None).
Proof. intros Hst. unfold propagateSetToStore, writeThroughStore. by rewrite Hst. Qed.

Local Ltac storeless c w k s :=
  rewrite (current_storeless c w k s) // (locked_once _ _ s) //;
  destruct (freshEntryLocked c (c_g (w_mem w)) s k) as [g1 [[a e]|]] eqn:Hf; cbn -[setCurrent flushAndUnlock lockedW touchLocked mirrored];
  try (rewrite (setCurrent_storeless c _ _ _ _ _ s) //; cbn -[flushAndUnlock mirrored];
       match goal with |- context [upsertDefault ?c ?g ?s ?k ?v ?wt] => destruct (upsertDefault c g s k v wt) as [g2 s2] end);
  try (rewrite mirrored_none; [|done..]; by rewrite ?(list_insert_id _ _ s)).

(** Without a Store the operations are those of [Cache]: the same states,
    results and effects. *)
Theorem storeless_equiv c w k v ttl sc pred :
  w_store w = None → cache_wf c 0 (w_mem w) →
  let C := w_mem w in
  Get_st c w k = (let '(C, o) := Get c C k in (set_mem w C, inr o)) ∧
  Has_st c w k = (let '(C, b) := Has c C k in (set_mem w C, b)) ∧
  SetWithTTL_st c w k v ttl = (let '(C, e) := SetWithTTL c C k v ttl in (set_mem w C, CacheErr <$> e)) ∧
  SetWithOptions_st c w k v sc = (let '(C, e) := setWithOptions c C k v sc in (set_mem w C, CacheErr <$> e)) ∧
  Delete_st c w k = (let '(C, b) := Delete c C k in (set_mem w C, (b, None))) ∧
  DeleteIf_st c w k pred = (let '(C, b) := DeleteIf c C k pred in (set_mem w C, b)) ∧
  SetIfAbsent_st c w k v = (let '(C, r) := SetIfAbsent c C k v in (set_mem w C, outcome false r)) ∧
  SetIfPresent_st c w k v = (let '(C, r) := SetIfPresent c C k v in (set_mem w C, outcome false r)) ∧
  GetOrSet_st c w k v = (let '(C, r) := GetOrSet c C k v in (set_mem w C, outcome (inhabitant, false) r)) ∧
  PeekOrAdd_st c w k v = (let '(C, r) := PeekOrAdd c C k v in (set_mem w C, outcome (inhabitant, false) r)).
Proof.
  intros Hst [ms HI] C. subst C. destruct (lookup_lt_is_Some_2 _ _ (home_lt _ _ _ _ k HI)) as [s Hs].
  assert (set_mem w (w_mem w) = w) as Ew by by destruct w. split_and!.
  - unfold Get_st, Get. destruct (g_closed (c_g (w_mem w))); [by rewrite Ew|].
    destruct (getMem c (w_mem w) k) as [C [v'| |]]; [done| |done]. unfold missOrReadThrough, readThroughStore. cbn [set_mem w_store].
    by rewrite Hst.
  - unfold Has_st, Has. destruct (g_closed (c_g (w_mem w))) eqn:Hcl; [by rewrite Ew|]. cbn.
    destruct (bool_decide _); [done|]. unfold readThroughStore. cbn [set_mem w_store]. by rewrite Hst.
  - unfold SetWithTTL_st, SetWithTTL. case_bool_decide; [by rewrite Ew|]. unfold setTTLCtx_st, setTTLCtx, setAndStore_st, setAndStore.
    destruct (setLockedInto _ _ _ _ _ _ _) as [C [er|]]; [done|]. by rewrite propagate_storeless.
  - unfold SetWithOptions_st, setWithOptions. destruct (prepareOptions _ _ _ _ _) as [er|[ts wt]]; [by rewrite Ew|].
    unfold storeOptions, writeThroughStoreUntil. destruct (sc_expireAt sc) as [[at_|]|]; cbn [set_mem w_store];
      rewrite ?Hst ?propagate_storeless //.
  - unfold Delete_st, Delete, deleteKey_st, deleteKey. destruct (g_closed (c_g (w_mem w))); [by rewrite Ew|].
    unfold deleteThroughStore. rewrite Hst. unfold lockedW. by destruct (locked _ _ _ _) as [C b].
  - unfold DeleteIf_st. destruct (g_closed (c_g (w_mem w))) eqn:Hcl.
    + unfold DeleteIf. by rewrite Hcl Ew.
    + unfold hasStore. rewrite Hst bool_decide_false //.
  - unfold SetIfAbsent_st, SetIfAbsent_locked, SetIfAbsent, setIfAbsentLocked. destruct (checkWrite c (w_mem w) k v) as [er|wt]; [by rewrite Ew|]. storeless c w k s.
  - unfold SetIfPresent_st, SetIfPresent_locked, SetIfPresent, setIfPresentLocked. destruct (checkWrite c (w_mem w) k v) as [er|wt]; [by rewrite Ew|]. storeless c w k s.
  - unfold GetOrSet_st, GetOrSet_locked, GetOrSet, getOrSetLocked. destruct (checkWrite c (w_mem w) k v) as [er|wt]; [by rewrite Ew|]. storeless c w k s.
    unfold lockedW. rewrite (locked_once _ _ s) // mirrored_none //.
  - unfold PeekOrAdd_st, PeekOrAdd_locked, PeekOrAdd, peekOrAddLocked. destruct (checkWrite c (w_mem w) k v) as [er|wt]; [by rewrite Ew|]. storeless c w k s.
Qed.
End storeprops.

(** ** A cache to run *)

Abbreviation zstore := (MemoryStore Z Z).
Abbreviation zworld := (world Z Z (lruPolicy (K := Z)) (mapStore Z) expiryHeapBackend AdmitAlways zstore).

(** At most 4 entries in memory, a [MemoryStore] behind it. *)
Definition zbacked (c : zconfig) (ss : list (bstep Z Z)) : bstate :=
  brun_all c (BState (newWorld (znew c 4) (Some (NewMemoryStore tick))) ∅) ss.

Definition zstore_of (w : zworld) : zstore := default (NewMemoryStore tick) (w_store w).

Lemma zbacked_backed w t b n sf l clk ss :
  ballowed_all (zconf w t b n sf l clk) (BState (newWorld (znew (zconf w t b n sf l clk) 4) (Some (NewMemoryStore tick))) ∅) ss →
  backed (zconf w t b n sf l clk) (zbacked (zconf w t b n sf l clk) ss).
Proof.
  intros Ha. exists 4, 2, false, (λ _, newLRU), newExpiryHeapBackend, newMapStore, MkAdmitAlways, (NewMemoryStore tick), ss.
  split; [apply z_fresh|]. split; [apply z_config|]. by split.
Qed.

(** A read of key 1 starts after the memory was cleared and gets 7 from the
    Store; a write of 8 reaches memory before the read ends, and the Store
    after that. *)
Definition overtaken_read : list (bstep Z Z) :=
  [BRun (WSet 1 7); BRun WClear; BRun (WBegin 1); BRun (WFetch 1); BStart (WSet 1 8); BRun (WEnd 1)].

Lemma overtaken_backed : backed plain (zbacked plain overtaken_read).
Proof. apply zbacked_backed. repeat split; vm_compute; reflexivity. Qed.

Lemma store_coherent_witness :
  let S := zbacked plain overtaken_read in
  let w := bs_world S in
  cache_wf plain 0 (w_mem w) ∧ pending (bs_calls S) !! 1 = Some 8 ∧ sto_val (zstore_of w) 1 = Some 7 ∧
  (Get_st plain w 1).2 = inr (Some 8) ∧ (∃ v, 8 = returnValue plain v ∧ v = 8).
Proof.
  set (S := zbacked plain overtaken_read). cbv zeta.
  assert (w_store (bs_world S) = Some (zstore_of (bs_world S))) as Hs by (vm_compute; reflexivity).
  destruct (store_coherent plain S (zstore_of (bs_world S)) 1 overtaken_backed Hs) as (H1 & _ & H3).
  split; [exact H1|]. split; [vm_compute; reflexivity|]. split; [vm_compute; reflexivity|]. split; [vm_compute; reflexivity|].
  assert (pending (bs_calls S) !! 1 = Some 8) as Hp by (vm_compute; reflexivity). rewrite Hp in H3.
  apply (H3 8 (zstore_of (Get_st plain (bs_world S) 1).1)); [|vm_compute; reflexivity..].
  split; [right; vm_compute; discriminate|exact I].
Defined.

(** Key 2 is being written when key 1 is. *)
Definition two_writes : list (bstep Z Z) := [BRun (WSet 1 7); BStart (WSet 2 5)].

Lemma two_writes_backed : backed plain (zbacked plain two_writes).
Proof. apply zbacked_backed. repeat split; vm_compute; reflexivity. Qed.

Lemma write_through_witness :
  let w := bs_world (zbacked plain two_writes) in
  w_store (SetWithTTL_st plain w 1 9 50).1 = Some (sto_Set (zstore_of w) 1 9 50).2 ∧
  (SetWithTTL_st plain w 1 9 50).2 = None ∧
  ∀ v', visible plain (w_mem (SetWithTTL_st plain w 1 9 50).1) 1 v' → v' = 9.
Proof.
  set (S := zbacked plain two_writes). cbv zeta.
  pose proof (write_through plain S (zstore_of (bs_world S)) 1 9 50 1
    two_writes_backed eq_refl eq_refl eq_refl ltac:(lia) eq_refl eq_refl eq_refl) as Ht.
  assert ((sto_Set (zstore_of (bs_world S)) 1 9 50).1 = None) as Herr by (vm_compute; reflexivity).
  revert Ht Herr. generalize (sto_Set (zstore_of (bs_world S)) 1 9 50).
  generalize (SetWithTTL_st plain (bs_world S) 1 9 50). intros [w' r] [err b'] (H1 & H2 & H3) Herr.
  cbn in Herr. subst err. split; [exact H1|]. split; [exact H2|]. intros v' Hv'. apply (H3 v' Hv').
Defined.

Lemma storeless_equiv_witness :
  let C := (Set_ plain (znew plain 4) 1 7).1 in
  Get_st plain (newWorld (B := zstore) C None) 1 =
  (newWorld (Get plain C 1).1 None, inr (Get plain C 1).2) ∧ (Get plain C 1).2 = Some 7.
Proof.
  intros C. assert (cache_wf plain 0 C) as Hwf.
  { destruct (znew_wf None (λ _, []) 0 0 0 false tick 4) as (W1 & W2 & _).
    destruct (run_vstep plain 0 (znew plain 4) (OpSet 1 7) W1 (Z.le_refl 0) eq_refl I) as (W & Hv & _). apply Hv. }
  destruct (storeless_equiv plain (newWorld (B := zstore) C None) 1 0 0 (SetConfig None None None None None) (λ _, true) eq_refl Hwf)
    as (HG & _).
  split; [|vm_compute; reflexivity]. clearbody C. refine (eq_trans HG _). cbn [w_mem newWorld]. by destruct (Get plain C 1).
Defined.
