(* ===== verification/CacheProps.v ===== *)
(** * CacheProps: what the cache promises

    The properties of the whole cache, for every eviction policy, table, TTL
    backend and admission policy that meet their interfaces, each with a
    witness on the cache of [Concrete]. *)

From S2P Require Import Prelude Policy Lru Storage Ttl Heap Entry Tags Flights Shard Admission ShardInv.
From S2P Require Import ShardOps ShardBulk Cache Bulk Loads Run CacheInv CacheOps CacheReads CacheRun RunInv CacheKeep.
From S2P Require Import CacheBulk CacheNew CacheLoads Concrete.

#[local] Open Scope Z_scope.

Section props.
Context {K V P St T A : Type} `{Countable K, Inhabited K, Inhabited V}.
Context `{EvictionPolicy K P, ShardStore K St, TtlBackend T, AdmissionPolicy K A}.
Context `{!PolicyLaws K P, !StoreLaws K St, !TtlLaws T}.

Local Abbreviation entry := (entry K V).
Local Abbreviation config := (config K V).
Local Abbreviation cache := (cache K V P St T A).
Implicit Types (c : config) (C : cache) (k : K) (v : V).

(** A cache in use: well-formed, within its bounds and not closed. *)
Record live c C : Prop := Live {
  lv_wf : cache_wf c 0 C;
  lv_over : overBudget (c_g C) = false;
  lv_sealed : g_sealed (c_g C) = false;
  lv_closed : g_closed (c_g C) = false
}.

(** No operation of [os] writes [k]. *)
Definition leaves_alone k (os : list (cop (K := K) (V := V))) : Prop :=
  ∀ o v, o ∈ os → op_writes o ≠ Some (k, v).

Lemma leaves_alone_visible c C os k v :
  cache_wf c 0 C → g_sealed (c_g C) = false → overBudget (c_g C) = false → cf_negativeTTL c <= 0 →
  leaves_alone k os → visible c (run_all c C os) k v → visible c C k v.
Proof.
  intros Hwf Hsl Ho Hneg Hl Hv.
  destruct (run_all_vstep c C os Hwf Hsl Ho Hneg) as (_ & _ & _ & _ & _ & I6).
  destruct (I6 k v Hv) as [|(o & Hin & Hw)]; [done|]. by apply Hl in Hw.
Qed.

(** A hit shows a visible value. *)
Lemma hit_visible c C k v :
  cache_wf c 0 C → (Get c C k).2 = Some v → ∃ v', visible c C k v' ∧ v = returnValue c v'.
Proof.
  intros Hwf Hg. pose proof (Get_get c 0 C k Hwf (Z.le_refl 0)) as Hr. destruct (Get c C k) as [C' r].
  cbn in Hg. subst r. destruct Hr as [_ Hr]. destruct (g_closed (c_g C)); [done|].
  destruct Hr as (e & He & [Hn _] & <-). exists (loadValue e). split; [|done]. by exists e.
Qed.

Lemma groups_none c C ts :
  (∀ t, t ∈ ts → cf_groups c !! t = None) → enforceGroupBudgets c C ts = C.
Proof.
  unfold enforceGroupBudgets. induction ts as [|t ts IH]; intros Hg; [done|]. cbn [foldl].
  rewrite Hg; [|left]. apply IH. intros t' Ht'. apply Hg. by right.
Qed.

(** [Get] is a sound and complete lookup: a value it returns is the value
    of the key's live entry, which is no tombstone and, at the time the call
    read, has not expired or may be served stale; a miss means there is no
    such entry.  It changes what no key shows, and keeps the cache
    well-formed and within its bounds. *)
Theorem Get_correct c C k :
  live c C →
  let '(C', r) := Get c C k in
  vstep c 0 None C C' ∧ answers c C k (cf_clock c (g_tick (c_g C))) r.
Proof.
  intros [Hwf _ _ Hcl]. pose proof (Get_get c 0 C k Hwf (Z.le_refl 0)) as Hg.
  destruct (Get c C k) as [C' r]. by rewrite Hcl in Hg.
Qed.

(** C2: the last write wins: in a cache without negative caching, Store and
    queued writes, after a [SetWithTTL] of [k] that returned no error, and any
    of the operations of [Run] that do not write [k] (reads, deletes,
    evictions, sweeps, invalidations, writes and loads of other keys), a [Get]
    of [k] returns the value set, or nothing. *)
Theorem last_write_wins c C k v ttl os r :
  live c C → cf_negativeTTL c <= 0 → (SetWithTTL c C k v ttl).2 = None → leaves_alone k os →
  (Get c (run_all c (SetWithTTL c C k v ttl).1 os) k).2 = Some r → r = returnValue c v.
Proof.
  intros [Hwf Ho Hsl Hcl] Hneg Hs Hl Hg.
  pose proof (SetWithTTL_outcome c 0 C k v ttl Hwf (Z.le_refl 0) Hsl) as Hout. unfold set_outcome in Hout.
  rewrite Hs in Hout. destruct Hout as [[V1 V2 _ _ V5 _] Hov].
  assert (g_sealed (c_g (SetWithTTL c C k v ttl).1) = false) as Hsl' by (destruct V5; congruence).
  destruct (run_all_vstep c _ os V1 Hsl' Hov Hneg) as (R1 & _).
  destruct (hit_visible c _ k r R1 Hg) as (v' & Hv & ->).
  apply leaves_alone_visible in Hv; [|done..]. apply V2 in Hv. rewrite decide_True // in Hv. by subst.
Qed.

(** C3: a deleted key stays deleted: in a cache without negative caching,
    Store and queued writes, after a [Delete], and any of the operations of
    [Run] that do not write the key, a [Get] of it misses.  [Delete] reports
    whether the key was there. *)
Theorem delete_wins c C k os :
  live c C → cf_negativeTTL c <= 0 → leaves_alone k os →
  (Get c (run_all c (Delete c C k).1 os) k).2 = None ∧
  (Delete c C k).2 = bool_decide (is_Some (shard_get c C k)).
Proof.
  intros [Hwf Ho Hsl Hcl] Hneg Hl. pose proof (Delete_vstep c 0 C k Hwf (Z.le_refl 0)) as Hd.
  destruct (Delete c C k) as [C' b]. destruct Hd as [[V1 V2 _ _ V5 V6] Hdel].
  destruct (Hdel Hcl) as [D1 ->]. split; [|done]. cbn.
  assert (g_sealed (c_g C') = false) as Hsl' by (destruct V5; congruence).
  destruct (run_all_vstep c C' os V1 Hsl' (V6 Ho) Hneg) as (R1 & _).
  destruct (Get c (run_all c C' os) k).2 as [r|] eqn:Hg; [|done]. exfalso.
  destruct (hit_visible c _ k r R1 Hg) as (v' & Hv & _).
  apply leaves_alone_visible in Hv; [|done|done|by auto|done|done]. destruct Hv as (e & He & _). congruence.
Qed.

(** C4: a write is kept: in a cache without Store, queued writes and expiry
    function, when the validation passes, no automatic tag of the value is a
    group of [WithGroup], the key is present or admitted, and the bounds have
    room, a [SetWithTTL] returns no error, a [Get] that follows before the
    expiry returns the value, and no other entry is touched. *)
Theorem set_get c C k v ttl w :
  live c C → cf_expireFunc c = None → 0 <= ttl →
  checkKeySize c k = None → computeWeight c v = inr w → checkTagLimits c (c_g C) (cf_autoTags c v) = None →
  (∀ t, t ∈ cf_autoTags c v → cf_groups c !! t = None) → admitted c C k → room c C k w →
  let r := SetWithTTL c C k v ttl in
  let expiry := i64 (cf_clock c (g_tick (c_g C)) + (effectiveTTL c (c_g C) ttl).1) in
  ((effectiveTTL c (c_g C) ttl).1 <= 0 ∨ expiry = 0 ∨ cf_clock c (g_tick (c_g r.1)) < expiry) →
  r.2 = None ∧ (Get c r.1 k).2 = Some (returnValue c v) ∧
  ∀ k', k' ≠ k → shard_get c r.1 k' = shard_get c C k'.
Proof.
  intros [Hwf Ho Hsl Hcl] Hef Httl Hck Hcw Hct Hgr Had Hroom. cbv zeta. intros Hexp.
  pose proof (SetWithTTL_outcome c 0 C k v ttl Hwf (Z.le_refl 0) Hsl) as Hout. unfold set_outcome in Hout.
  assert (SetWithTTL c C k v ttl = (flushAndUnlock c (locked_ C (shardFor c k) (λ g s,
    let '(ettl, g) := effectiveTTL c g ttl in
    upsertLocked c g s k v w ettl (cf_slidingTTL c) ttl (cf_autoTags c v))) (shardFor c k), None)) as HS.
  { unfold SetWithTTL. rewrite bool_decide_false; [|lia]. unfold setTTLCtx, setAndStore, setLockedInto.
    rewrite Hcl Hck Hcw Hct groups_none //. }
  destruct (upsert_keeps c 0 C k v w ttl (cf_slidingTTL c) ttl (cf_autoTags c v) Hwf (computeWeight_ge _ _ _ Hcw) Hsl Had Hroom)
    as (U1 & (e & U2 & Uw) & U3).
  rewrite HS in Hexp, Hout |- *. cbn [fst snd] in *. destruct Hout as [[V1 _ _ _ V5 _] _].
  set (C1 := locked_ _ _ _) in *. set (C2 := flushAndUnlock c C1 (shardFor c k)) in *.
  split_and!; [done| |by intros k' Hne; rewrite (flush_get c C1 _ k') //; apply U3].
  assert (shard_get c C2 k = Some e) as He by (unfold C2; by rewrite flush_get).
  pose proof (Get_get c 0 C2 k V1 (Z.le_refl 0)) as Hg. destruct (Get c C2 k) as [C3 r]. destruct Hg as [_ Hg].
  assert (g_closed (c_g C2) = false) as Hcl2 by (destruct V5; congruence). rewrite Hcl2 in Hg. cbn.
  destruct Uw as [_ Wv _ Wx Wn _ _ _]. destruct r as [r|].
  - destruct Hg as (e' & He' & _ & <-). rewrite He in He'. injection He' as <-. by rewrite /loadValue Wv.
  - exfalso. apply (Hg e He). split; [done|left].
    unfold entryExpiredLocked, entryExpiredLockedReason, entry_expired. rewrite Hef.
    set (x := if bool_decide _ then _ else 0) in Wx. set (now := cf_clock c (g_tick (c_g C2))) in *.
    rewrite Wx. assert (bool_decide (x ≠ 0) && bool_decide (x <= now) = false) as Hx; [|by rewrite Hx].
    subst x. clear - Hexp. repeat case_bool_decide; cbn; try done; lia.
Qed.

(** C5: a load in flight when its key is deleted, or set without error,
    never stores its result, value or tombstone: however many operations later
    it ends and whatever it returns, with or without negative caching, its end
    changes no entry of a cache that is then within its bounds (as a cache
    without negative caching always is).  The cache has no Store and no queued
    writes. *)
Theorem superseded_load_dropped c C k o os f r k' :
  g_closed (c_g C) = false → loading f c C k →
  (o = OpDelete k ∨ ∃ v ttl, o = OpSetWithTTL k v ttl ∧ (SetWithTTL c C k v ttl).2 = None) →
  let C' := run_all c C (o :: os) in
  overBudget (c_g C') = false → shard_get c (finishLoad c C' k f r) k' = shard_get c C' k'.
Proof.
  intros Hcl Hf Hor C' Ho.
  apply finishLoad_dropped; [|done]. subst C'. cbn. apply (run_all_keeps (marked f)); [apply lets_all, marked_end|].
  destruct Hor as [->|(v & ttl & -> & Hs)]; cbn; [by apply Delete_marks|by apply SetWithTTL_marks].
Qed.

(** [Clear] empties the cache: no entry is left and both counters are
    zero. *)
Theorem Clear_empties c C :
  live c C → (∀ k, shard_get c (Clear c C) k = None) ∧ g_entries (c_g (Clear c C)) = 0 ∧ g_bytes (c_g (Clear c C)) = 0.
Proof.
  intros [Hwf Ho Hsl Hcl]. assert (∀ k, shard_get c (Clear c C) k = None) as Hn by (intros; by apply Clear_get).
  split; [done|]. destruct (vs_wf _ _ _ _ _ (Clear_vstep c 0 C Hwf (Z.le_refl 0))) as [ms HI].
  by apply (empty_counters c 0 _ ms).
Qed.

(** [DeleteExpired] removes exactly the entries that have expired at the
    time it reads: an expired entry is gone, every other one is untouched. *)
Theorem DeleteExpired_exact c C k :
  live c C →
  shard_get c (DeleteExpired c C).1 k =
    match shard_get c C k with
    | Some e => if entry_expired e (cf_clock c (g_tick (c_g C))) then None else Some e
    | None => None
    end.
Proof.
  intros [Hwf Ho Hsl Hcl]. rewrite DeleteExpired_get //. destruct (shard_get c C k) as [e|]; [|done]. cbn.
  by destruct (entry_expired e _).
Qed.

(** [InvalidateTag] leaves no entry that carries the tag, and adds or
    changes none. *)
Theorem InvalidateTag_complete c C t k e :
  live c C → shard_get c (InvalidateTag c C t).1 k = Some e → shard_get c C k = Some e ∧ t ∉ e_tags e.
Proof. intros [Hwf _ _ Hcl]. by apply InvalidateTag_get. Qed.
End props.

(** ** Witnesses *)

(** Any run of a cache without negative caching. *)
Lemma zrun_live w t b sf l clk maxEntries os :
  let c := zconf w t b 0 sf l clk in
  g_closed (c_g (run_all c (znew c maxEntries) os)) = false → live c (run_all c (znew c maxEntries) os).
Proof.
  cbv zeta. set (c := zconf w t b 0 sf l clk). intros Hcl. destruct (znew_wf w t b 0 sf l clk maxEntries) as (W1 & W2 & _).
  destruct (run_all_vstep c (znew c maxEntries) os W1 eq_refl W2 (Z.le_refl 0)) as (R1 & R2 & R3 & _).
  by constructor.
Qed.

Lemma z_live maxEntries os :
  g_closed (c_g (run_all plain (znew plain maxEntries) os)) = false →
  live plain (run_all plain (znew plain maxEntries) os).
Proof. apply zrun_live. Qed.

(** Four writes into a cache of at most three entries. *)
Definition four : list (cop (K := Z) (V := Z)) := [OpSet 1 10; OpSet 2 20; OpSet 3 30; OpSet 4 40].

Lemma four_closed : g_closed (c_g (run_all plain (znew plain 3) four)) = false.
Proof. vm_compute. done. Qed.

Lemma Get_correct_witness :
  (Get plain (run_all plain (znew plain 3) four) 4).2 = Some 40 ∧
  answers plain (run_all plain (znew plain 3) four) 4 1005 (Some 40).
Proof.
  split; [vm_compute; done|].
  pose proof (Get_correct plain (run_all plain (znew plain 3) four) 4 (z_live 3 four four_closed)) as Hg.
  assert ((Get plain (run_all plain (znew plain 3) four) 4).2 = Some 40) as Hr by (vm_compute; done).
  destruct (Get plain (run_all plain (znew plain 3) four) 4) as [C' r]. cbn in Hr. subst r. destruct Hg as [_ Ha].
  replace 1005 with (cf_clock plain (g_tick (c_g (run_all plain (znew plain 3) four)))); [exact Ha|vm_compute; done].
Defined.

Lemma last_write_wins_witness :
  (Get plain (run_all plain (SetWithTTL plain (run_all plain (znew plain 3) four) 3 33 0).1 [OpGet 3; OpSet 4 44]) 3).2
    = Some 33 ∧
  ∀ r, (Get plain (run_all plain (SetWithTTL plain (run_all plain (znew plain 3) four) 3 33 0).1 [OpGet 3; OpSet 4 44]) 3).2
    = Some r → r = 33.
Proof.
  split; [vm_compute; done|]. intros r.
  apply (last_write_wins plain _ 3 33 0 [OpGet 3; OpSet 4 44] r (z_live 3 four four_closed)); [done|vm_compute; done|].
  intros o v [->|[->|[]%elem_of_nil]%elem_of_cons]%elem_of_cons; done.
Defined.

Lemma delete_wins_witness :
  (Delete plain (run_all plain (znew plain 3) four) 4).2 = true ∧
  (Get plain (run_all plain (Delete plain (run_all plain (znew plain 3) four) 4).1 [OpSet 2 22]) 4).2 = None.
Proof.
  split; [vm_compute; done|].
  apply (delete_wins plain _ 4 [OpSet 2 22] (z_live 3 four four_closed)); [done|].
  intros o v [->|[]%elem_of_nil]%elem_of_cons; done.
Defined.

(** Two entries, so that there is room for a third. *)
Definition two : list (cop (K := Z) (V := Z)) := [OpSet 1 10; OpSet 2 20].

Lemma set_get_witness :
  let r := SetWithTTL plain (run_all plain (znew plain 3) two) 3 30 50 in
  r.2 = None ∧ (Get plain r.1 3).2 = Some 30 ∧
  ∀ k', k' ≠ 3 → shard_get plain r.1 k' = shard_get plain (run_all plain (znew plain 3) two) k'.
Proof.
  refine (set_get plain (run_all plain (znew plain 3) two) 3 30 50 1 (z_live 3 two _) _ _ _ _ _ _ _ _ _);
    [vm_compute; done..|intros t []%elem_of_nil|right; done|split_and!; [|right; vm_compute; done|left; done]|
     right; right; vm_compute; done].
  vm_compute. intros s [= <-]. vm_compute. by right.
Defined.


(** Stale values are served for a while, so that a read of an expired entry
    starts a load, and keys that are not found are remembered. *)
Definition swr : zconfig := zconf None (λ _, []) 0 30 100 false tick.
Definition stale_read : list (cop (K := Z) (V := Z)) := [OpSetWithTTL 1 10 1; OpGet 1].

(** The load ends with a key that is not found: no tombstone for the key that
    was deleted, let alone for the one that was set. *)
Lemma superseded_load_dropped_witness :
  let C := run_all swr (znew swr 3) stale_read in
  loading 1%positive swr C 1 ∧
  ∀ k', shard_get swr (finishLoad swr (run_all swr C [OpDelete 1; OpSet 2 20]) 1 1 LoadNotFound) k' =
    shard_get swr (run_all swr C [OpDelete 1; OpSet 2 20]) k'.
Proof.
  assert (loading 1%positive swr (run_all swr (znew swr 3) stale_read) 1) as Hl.
  { eexists. split; [vm_compute; done|]. left. vm_compute. done. }
  split; [exact Hl|]. intros k'.
  apply (superseded_load_dropped swr _ 1 (OpDelete 1) [OpSet 2 20]); [vm_compute; done|exact Hl|by left|vm_compute; done].
Defined.

Lemma Clear_empties_witness :
  g_entries (c_g (run_all plain (znew plain 3) four)) = 3 ∧
  g_entries (c_g (Clear plain (run_all plain (znew plain 3) four))) = 0.
Proof.
  split; [vm_compute; done|].
  exact (proj1 (proj2 (Clear_empties plain (run_all plain (znew plain 3) four) (z_live 3 four four_closed)))).
Defined.

(** An entry that has expired and one that has not. *)
Definition mixed : list (cop (K := Z) (V := Z)) := [OpSetWithTTL 1 10 1; OpSetWithTTL 2 20 500].

Lemma DeleteExpired_exact_witness :
  shard_get plain (DeleteExpired plain (run_all plain (znew plain 3) mixed)).1 1 = None ∧
  (DeleteExpired plain (run_all plain (znew plain 3) mixed)).2 = 1 ∧
  is_Some (shard_get plain (DeleteExpired plain (run_all plain (znew plain 3) mixed)).1 2).
Proof.
  assert (live plain (run_all plain (znew plain 3) mixed)) as Hl by (apply z_live; vm_compute; done).
  split; [rewrite (DeleteExpired_exact plain _ 1 Hl); vm_compute; done|].
  split; [vm_compute; done|]. rewrite (DeleteExpired_exact plain _ 2 Hl). vm_compute. by eexists.
Defined.

(** Two tagged entries and one that is not. *)
Definition tags3 : list (cop (K := Z) (V := Z)) :=
  [OpSetWithOptions 1 10 (SetConfig None None (Some ["t"%string]) None None);
   OpSetWithOptions 2 20 (SetConfig None None (Some ["t"%string; "u"%string]) None None); OpSet 3 30].

Lemma InvalidateTag_complete_witness :
  let C := run_all plain (znew plain 3) tags3 in
  (InvalidateTag plain C "t").2 = 2 ∧
  ∀ k e, shard_get plain (InvalidateTag plain C "t").1 k = Some e → "t"%string ∉ e_tags e.
Proof.
  split; [vm_compute; done|]. intros k e He.
  refine (proj2 (InvalidateTag_complete plain (run_all plain (znew plain 3) tags3) "t" k e _ He)).
  apply z_live. vm_compute. done.
Defined.
