(* ===== verification/BulkProps.v ===== *)
(** * BulkProps: what the iterators and the conditional deletes promise

    [Range] and [Keys] visit every live entry exactly once, [DeleteWhere] and
    [DeletePrefix] remove exactly the entries that satisfy their condition and
    return how many. *)

From S2P Require Import Prelude Policy Lru Storage Ttl Heap Entry Tags Flights Shard Admission ShardInv ShardOps.
From S2P Require Import Cache Bulk Loads Run CacheInv CacheOps CacheReads CacheRun CacheKeep CacheBulk BulkInv.
From S2P Require Import RunInv CacheNew CacheLoads Concrete CacheProps.

#[local] Open Scope Z_scope.

Section props.
Context {K V P St T A : Type} `{Countable K, Inhabited K, Inhabited V}.
Context `{EvictionPolicy K P, ShardStore K St, TtlBackend T, AdmissionPolicy K A}.
Context `{!PolicyLaws K P, !StoreLaws K St, !TtlLaws T}.

Local Abbreviation shard_wf := (shard_wf (E := ∅)).
Local Abbreviation entry := (entry K V).
Local Abbreviation config := (config K V).
Local Abbreviation globals := (globals K V A).
Local Abbreviation shard := (shard K V P St T).
Local Abbreviation cache := (cache K V P St T A).
Implicit Types (c : config) (C : cache) (g : globals) (s : shard) (e : entry) (k : K) (v : V).

(** ** Walks *)

(** Calls [f] on the pairs in order until it answers false. *)
Fixpoint until {R} (f : K → V → R → R * bool) (l : list (K * V)) (r : R) : R * bool :=
  match l with
  | [] => (r, true)
  | (k, v) :: l => match f k v r with
                   | (r, true) => until f l r
                   | (r, false) => (r, false)
                   end
  end.

Lemma until_app {R} (f : K → V → R → R * bool) l1 l2 r :
  until f (l1 ++ l2) r = match until f l1 r with
                         | (r, true) => until f l2 r
                         | (r, false) => (r, false)
                         end.
Proof.
  revert r. induction l1 as [|[k v] l1 IH]; intros r; [done|]. cbn.
  destruct (f k v r) as [r1 []]; [apply IH|done].
Qed.

(** [f] as a visitor of [Range] that does not call into the cache. *)
Definition quiet {R} (f : K → V → R → R * bool) : K → V → cache * R → cache * R * bool :=
  λ k v st, let '(r, b) := f k v st.2 in ((st.1, r), b).

Definition shown c (l : list (K * V)) : list (K * V) := (λ kv, (kv.1, returnValue c kv.2)) <$> l.

Lemma visit_quiet {R} c (f : K → V → R → R * bool) buf C r :
  visit c (quiet f) buf (C, r) = let '(r, b) := until f (shown c buf) r in ((C, r), b).
Proof.
  revert r. induction buf as [|[k v] buf IH]; intros r; [done|]. cbn. unfold quiet at 1. cbn.
  destruct (f k (returnValue c v) r) as [r1 []]; [apply IH|done].
Qed.

Lemma range_quiet {R} c (f : K → V → R → R * bool) now idxs C r :
  range_loop c (quiet f) now idxs (C, r) = (C, (until f (shown c (concat (map (copyAt c C now) idxs))) r).1).
Proof.
  revert r. induction idxs as [|i idxs IH]; intros r; [done|].
  cbn [range_loop map concat fst]. rewrite visit_quiet /shown fmap_app until_app.
  destruct (until f (_ <$> copyAt c C now i) r) as [r1 []]; [apply IH|done].
Qed.

(** Every pair the walk of a cache meets. *)
Definition pairs c C (now : Z) : list (K * V) := concat (map (copyAt c C now) (seq 0 (length (c_shards C)))).

Lemma elem_of_pairs c C now k v :
  cache_wf c 0 C →
  (k, v) ∈ pairs c C now ↔ ∃ e, freshAt c now (shard_get c C k) = Some e ∧ loadValue e = v.
Proof.
  intros Hwf. unfold pairs. rewrite list_elem_of_In in_concat. split.
  - intros (l & (i & <- & Hi%list_elem_of_In%elem_of_seq)%in_map_iff & Hin%list_elem_of_In).
    by apply (elem_of_copyAt c 0) in Hin as [_ ?]; [|done|lia].
  - intros He. pose proof Hwf as [ms HI]. pose proof (home_lt _ _ _ _ k HI).
    exists (copyAt c C now (shardFor c k)). split.
    + apply in_map_iff. exists (shardFor c k). split; [done|]. apply list_elem_of_In, elem_of_seq. lia.
    + apply list_elem_of_In, (elem_of_copyAt c 0); [done|lia|done].
Qed.

Lemma NoDup_pairs c C now : cache_wf c 0 C → NoDup (pairs c C now).*1.
Proof.
  intros Hwf. unfold pairs. set (n := length (c_shards C)).
  assert (∀ l, NoDup l → (∀ i, i ∈ l → (i < n)%nat) → NoDup (concat (map (copyAt c C now) l)).*1) as HL.
  2:{ apply HL; [apply NoDup_seq|]. intros i Hi%elem_of_seq. lia. }
  induction l as [|i l IH]; intros Hnd Hl; [constructor|]. apply NoDup_cons in Hnd as [Hi Hnd]. cbn. rewrite fmap_app.
  apply NoDup_app. split_and!; [by eapply NoDup_copyAt| |apply IH; [done|]; intros j Hj; apply Hl; by right].
  intros k ([k1 v1] & -> & H1')%list_elem_of_fmap ([k2 v2] & Hk & H2')%list_elem_of_fmap. cbn in Hk. subst k2.
  apply (elem_of_copyAt c 0) in H1' as [Hk1 _]; [|done|apply Hl; left].
  apply list_elem_of_In, in_concat in H2' as (l' & (j & <- & Hj%list_elem_of_In)%in_map_iff & H2'%list_elem_of_In).
  apply (elem_of_copyAt c 0) in H2' as [Hk2 _]; [|done|apply Hl; by right]. cbn in Hk1. congruence.
Qed.

Lemma Keys_pairs c C :
  g_closed (c_g C) = false → (Keys c C).2 = (pairs c C (cf_clock c (g_tick (c_g C)))).*1.
Proof.
  intros Hcl. unfold Keys, eachShard, pairs. rewrite Hcl. cbn. set (now := cf_clock c _). set (C1 := set_g C _).
  change (c_shards C1) with (c_shards C). assert (∀ i, copyAt c C1 now i = copyAt c C now i) as Hc by done.
  generalize (seq 0 (length (c_shards C))) as l. intros l.
  assert (∀ ks, (foldl (λ '(C0, r) i, (C0, r ++ (copyAt c C0 now i).*1)) (C1, ks) l).2 =
    ks ++ (concat (map (copyAt c C now) l)).*1) as Hl; [|apply Hl].
  induction l as [|i l IH]; intros ks; cbn; [by rewrite app_nil_r|]. rewrite IH Hc fmap_app. by rewrite app_assoc.
Qed.

(** C23: [Range] with a function that does not call into the cache, and
    nothing else running: the function is called on every live entry of the
    cache exactly once, with the value a read would return, until it answers
    false, and [Keys] returns the keys in the same order; expired entries and
    negative tombstones are skipped and nothing but the clock moves. *)
Theorem Range_exact c C :
  live c C →
  let now := cf_clock c (g_tick (c_g C)) in
  ∃ l, NoDup l.*1 ∧
    (∀ k v, (k, v) ∈ l ↔ ∃ e, freshAt c now (shard_get c C k) = Some e ∧ returnValue c (loadValue e) = v) ∧
    (Keys c C).2 = l.*1 ∧
    ∀ R (f : K → V → R → R * bool) r,
      Range c C (Some (quiet f)) r = (set_g C (clockNow c (c_g C)).2, (until f l r).1).
Proof.
  intros [Hwf _ _ Hcl]. cbv zeta. set (now := cf_clock c _). exists (shown c (pairs c C now)).
  assert ((shown c (pairs c C now)).*1 = (pairs c C now).*1) as Hfst.
  { unfold shown. rewrite -list_fmap_compose. by apply list_fmap_ext. }
  split_and!.
  - rewrite Hfst. by apply NoDup_pairs.
  - intros k v. unfold shown. rewrite list_elem_of_fmap. split.
    + intros ([k' v'] & [= -> ->] & (e & He & <-)%elem_of_pairs); [|done]. by exists e.
    + intros (e & He & <-). exists (k, loadValue e). split; [done|]. apply elem_of_pairs; [done|]. by exists e.
  - rewrite Hfst. by apply Keys_pairs.
  - intros R f r. unfold Range. rewrite Hcl. cbn. by rewrite range_quiet.
Qed.

(** ** Conditional deletes *)

(** The entries [DeleteWhere] removes: live ones whose key and value satisfy
    [pred]. *)
Definition condemned c (now : Z) (pred : K → V → bool) e : bool :=
  bool_decide (is_Some (freshAt c now (Some e))) && pred (e_key e) (returnValue c (loadValue e)).

Lemma elem_of_doomedAt c C now pred i s m D k e :
  cache_wf c 0 C → c_shards C !! i = Some s → shard_wf c s m D → sh_lookup s k = Some e →
  k ∈ doomedAt c C now pred i ↔ condemned c now pred e = true.
Proof.
  intros Hwf Hs Hw He. unfold doomedAt, copyAt, condemned. rewrite Hs list_elem_of_fmap.
  assert (e_key e = k) as Hk.
  { rewrite (wf_lookup _ _ _ _ k Hw) in He. destruct (m !! k) as [a|] eqn:Ha; [|done].
    destruct (wf_entry _ _ _ _ Hw _ _ Ha) as (e0 & He0 & Hk & _). cbn in He. by simplify_eq. }
  rewrite Hk andb_true_iff bool_decide_eq_true. split.
  - intros ([k' v] & -> & [Hp (e' & Hf & <-)%(elem_of_copyShard c s m D)]%list_elem_of_filter); [|done].
    cbn in Hp, He. rewrite He in Hf. pose proof Hf as [[= <-] _]%freshAt_Some. by rewrite Hf.
  - intros [[e' Hf] Hp]. exists (k, loadValue e). split; [done|]. apply list_elem_of_filter. split; [done|].
    apply (elem_of_copyShard c s m D); [done|]. exists e'. rewrite He. split; [done|].
    by apply freshAt_Some in Hf as [[= <-] _].
Qed.

(** One turn of a deleting loop: [f] removes the entries of shard [i] that fail
    [Q] and counts them. *)
Lemma delete_turn c C i (f : globals → shard → globals * shard * Z) (Q : entry → bool) n :
  cache_wf c 0 C → overBudget (c_g C) = false → (i < length (c_shards C))%nat →
  (∀ s m D, c_shards C !! i = Some s → shard_wf c s m D →
     let '(g', s', n) := f (c_g C) s in
     (∃ m', ok_step (E := ∅) c None (c_g C) s m g' s' m' ∧ n = Z.of_nat (size m) - Z.of_nat (size m')) ∧
     ∀ k, sh_lookup s' k = sh_lookup s k ≫= λ e, if Q e then Some e else None) →
  let '(C', n') := let '(C, m) := locked C i f 0 in (flushAndUnlock c C i, n + m) in
  vstep c 0 None C C' ∧ overBudget (c_g C') = false ∧ filtered c Q i C C' ∧ n' = n + Len C - Len C'.
Proof.
  intros Hwf Ho Hi Hf. destruct (filter_turn c 0 C i f 0 Q Hwf (Z.le_refl 0) Ho) as (T1 & T2 & T3 & T4); [|done|].
  { intros s m D Hs Hw. specialize (Hf s m D Hs Hw). destruct (f (c_g C) s) as [[g' s'] n'].
    destruct Hf as [(m' & ? & _) ?]. eauto. }
  pose proof (locked_count c 0 C i f 0 id Hwf Hi) as Hc. destruct (locked C i f 0) as [C2 n2].
  cbn [id fst snd] in Hc, T4. split_and!; [done..|]. unfold Len in *. rewrite T4.
  rewrite Hc; [lia|]. intros s m D Hs Hw. specialize (Hf s m D Hs Hw). destruct (f (c_g C) s) as [[g' s'] n'].
  exact (proj1 Hf).
Qed.

Lemma filter_negb (b : entry → bool) (o : option entry) :
  (o ≫= λ e, if negb (b e) then Some e else None) = o ≫= λ e, if b e then None else Some e.
Proof. destruct o as [e|]; [|done]. cbn. by destruct (b e). Qed.

Lemma doomed_ok c C now pred i s m D :
  cache_wf c 0 C → c_shards C !! i = Some s → shard_wf c s m D →
  let '(g', s', n) := removeDoomed c EvictReasonDeletedWhere (doomedAt c C now pred i) (c_g C) s in
  (∃ m', ok_step (E := ∅) c None (c_g C) s m g' s' m' ∧ n = Z.of_nat (size m) - Z.of_nat (size m')) ∧
  ∀ k, sh_lookup s' k = sh_lookup s k ≫= λ e, if negb (condemned c now pred e) then Some e else None.
Proof.
  intros Hwf Hs Hw. set (ks := doomedAt c C now pred i).
  pose proof (removeDoomed_ok c EvictReasonDeletedWhere ks (c_g C) s m D Hw) as Hr.
  destruct (removeDoomed c _ ks (c_g C) s) as [[g' s'] n']. destruct Hr as (m' & R1 & R2 & R3).
  split; [by exists m'|]. eapply filtered_lookup; [done..|]. intros k a e Hk He. rewrite R3.
  assert (sh_lookup s k = Some e) as Hl by by rewrite (wf_lookup _ _ _ _ k Hw) Hk.
  pose proof (elem_of_doomedAt c C now pred i s m D k e Hwf Hs Hw Hl) as Hd. fold ks in Hd.
  case_decide as Hin; [apply Hd in Hin; rewrite Hin; split; [by intros []|done]|].
  rewrite Hk. destruct (condemned c now pred e); [by destruct Hin; apply Hd|done].
Qed.

(** [DeleteWhere] removes precisely the live entries whose key and value
    satisfy the predicate, leaves every other entry as it is, and returns the
    number it removed. *)
Theorem DeleteWhere_exact c C pred :
  live c C →
  let '(C', n) := DeleteWhere c C (Some pred) in
  n = Len C - Len C' ∧
  ∀ k, shard_get c C' k = shard_get c C k ≫= λ e,
         if condemned c (cf_clock c (g_tick (c_g C))) pred e then None else Some e.
Proof.
  intros [Hwf Ho _ Hcl]. unfold DeleteWhere. rewrite Hcl. pose proof (clock_vstep c 0 C Hwf) as Hv.
  cbn -[eachShard] in Hv |- *. set (now := cf_clock c _). set (C1 := set_g C _) in *.
  pose proof (filter_walk c 0 C1 (deleteWhereShard c now pred) 0 (λ e, negb (condemned c now pred e))
    (λ C0 n, n = Len C - Len C0) (vs_wf _ _ _ _ _ Hv) Ho) as HL.
  destruct (eachShard C1 _ 0) as [C' n]. destruct HL as [L1 L2].
  { unfold Len. cbn. lia. }
  2:{ split; [done|]. intros k. by rewrite L2 filter_negb. }
  intros C0 i n0 Hwf0 Ho0 Hi Hn0. unfold deleteWhereShard.
  pose proof (λ s m D, doomed_ok c C0 now pred i s m D Hwf0) as Hf.
  set (ks := doomedAt c C0 now pred i) in *. destruct ks as [|k0 ks'] eqn:Hks.
  - split_and!; [by apply vstep_refl|done| |done]. intros k. case_decide as Hk; [|done]. subst i.
    pose proof Hwf0 as [ms HI]. destruct (lookup_lt_is_Some_2 _ _ Hi) as [s Hs].
    destruct (inv_shard _ _ _ _ _ _ HI Hs) as (m & D & Hm & Hw). specialize (Hf s m D Hs Hw) as [_ Hf].
    by rewrite (shard_get_lookup c C0 k s).
  - pose proof (delete_turn c C0 i _ _ n0 Hwf0 Ho0 Hi Hf) as Ht.
    destruct (locked C0 i _ 0) as [C2 n2]. destruct Ht as (T1 & T2 & T3 & T4). split_and!; [done..|]. lia.
Qed.

(** The load [f] of [k] is registered or marked. *)
Definition followed (f : loc) k (F : flights K) : Prop := marked f F ∨ registered F k f.

#[local] Instance followed_stable f k : stable (followed f k).
Proof.
  split; unfold followed, marked, registered; cbn; intros F.
  - intros k'. rewrite !elem_of_mark. destruct (decide (k' = k)) as [->|Hne]; [tauto|]. rewrite lookup_delete_ne //. tauto.
  - intros [Hm|[Hm|Hm]]; left; rewrite !elem_of_union; [tauto|right; left|left]; apply elem_of_map_img; eauto.
  - intros f'. rewrite !elem_of_union. tauto.
  - intros k' f' Hn. rewrite elem_of_mark. destruct (decide (k' = k)) as [->|Hne].
    + rewrite Hn. intros [?|[?|?]]; [tauto|done|tauto].
    + rewrite lookup_insert_ne // lookup_delete_ne //. tauto.
Qed.

Lemma prefix_marks c f k g s (p : K → bool) :
  p k = true → followed f k (sh_flights s) → marked f (sh_flights (deletePrefixShard c p g s).1.2).
Proof.
  intros Hp Hr. unfold deletePrefixShard. set (s1 := sh_set_flights s _ _).
  assert (sup (marked f) s1) as Hs1.
  { unfold sup, marked. cbn. rewrite !elem_of_union !elem_of_map_img.
    destruct Hr as [Hm|[Hm|Hm]]; [tauto| |].
    - right. left. exists k. by apply map_lookup_filter_Some.
    - left. exists k. by apply map_lookup_filter_Some. }
  cbn [fst snd]. by apply (removeEntries_sup (marked f)).
Qed.

(** The loop of [DeletePrefix] marks the loads of the matching keys. *)
Lemma each_marks c f k C (F : cache → nat → Z → cache * Z) n p :
  (∀ C i n, F C i n = let '(C, m) := locked C i (deletePrefixShard c p) 0 in (flushAndUnlock c C i, n + m)) →
  cache_wf c 0 C → p k = true → loading f c C k → csup (marked f) (eachShard C F n).1 (shardFor c k).
Proof.
  intros HF Hwf Hp (s & Hs & Hr). unfold eachShard. set (i := shardFor c k) in *.
  assert (∀ Q, stable Q → ∀ C i n, keeps Q C (F C i n).1) as Hk.
  { intros Q HQ C0 j n0. rewrite HF. pose proof (locked_flush_keeps Q c C0 j (deletePrefixShard c p) 0) as HL.
    destruct (locked C0 j _ 0). apply HL. intros g s0. by apply deletePrefix_sup. }
  assert (∀ C n, csup (followed f k) C i → csup (marked f) (F C i n).1 i) as Hm.
  { intros C0 n0 Hc. rewrite HF. unfold locked. destruct (c_shards C0 !! i) as [s0|] eqn:Hs0.
    - pose proof (prefix_marks c f k (c_g C0) s0 p Hp (Hc s0 Hs0)) as Hm.
      destruct (deletePrefixShard c p (c_g C0) s0) as [[g' s'] m']. cbn. apply flush_keeps; [apply _|].
      intros s1. cbn. rewrite list_lookup_insert_eq; [|by eapply lookup_lt_Some]. by intros [= <-].
    - cbn. apply flush_keeps; [apply _|]. intros s1 Hs1. congruence. }
  assert (i ∈ seq 0 (length (c_shards C))) as Hin by (apply lookup_lt_Some in Hs; apply elem_of_seq; lia).
  assert (csup (followed f k) C i) as Hc by (intros s0 Hs0; simplify_eq; by right).
  clear Hs Hr Hwf s. revert Hin. generalize (seq 0 (length (c_shards C))) as l. intros l. revert C n Hc.
  assert (∀ l C n, csup (marked f) C i → csup (marked f) (foldl (λ '(C, r) i, F C i r) (C, n) l).1 i) as Hrest.
  { induction l0 as [|j l0 IH]; intros C n Hc; [done|]. cbn [foldl]. pose proof (Hk (marked f) _ C j n) as Hk1.
    destruct (F C j n) as [C1 n1]. by apply IH, Hk1. }
  induction l as [|j l IH]; intros C n Hc Hin; [by apply not_elem_of_nil in Hin|]. cbn [foldl].
  pose proof (Hk (followed f k) _ C j n) as Hk1. pose proof (λ H, Hm C n H) as Hm1.
  destruct (decide (j = i)) as [->|Hne].
  - specialize (Hm1 Hc). destruct (F C i n) as [C1 n1]. by apply Hrest.
  - destruct (F C j n) as [C1 n1]. apply IH; [by apply Hk1|]. by apply elem_of_cons in Hin as [?|?].
Qed.

Lemma prefix_filters c p g s m D :
  shard_wf c s m D →
  let '(g', s', n) := deletePrefixShard c p g s in
  (∃ m', ok_step (E := ∅) c None g s m g' s' m' ∧ n = Z.of_nat (size m) - Z.of_nat (size m')) ∧
  ∀ k, sh_lookup s' k = sh_lookup s k ≫= λ e, if negb (p (e_key e)) then Some e else None.
Proof.
  intros Hw. pose proof (deletePrefixShard_ok c p g s m D Hw) as Hr.
  destruct (deletePrefixShard c p g s) as [[g' s'] n']. destruct Hr as (m' & R1 & R2 & R3).
  split; [by exists m'|]. eapply filtered_lookup; [done..|]. intros k a e Hk He. rewrite R3 Hk.
  destruct (wf_entry _ _ _ _ Hw _ _ Hk) as (e0 & He0 & Hkey & _). simplify_eq.
  destruct (p (e_key e)); cbn; split; try done; by intros [].
Qed.

Lemma shard_get_key c C k e : cache_wf c 0 C → shard_get c C k = Some e → e_key e = k.
Proof.
  intros [ms HI] He. destruct (lookup_lt_is_Some_2 _ _ (home_lt _ _ _ _ k HI)) as [s Hs].
  destruct (inv_shard _ _ _ _ _ _ HI Hs) as (m & D & Hm & Hw). rewrite (shard_get_lookup c C k s Hs) in He.
  rewrite (wf_lookup _ _ _ _ k Hw) in He. destruct (m !! k) as [a|] eqn:Ha; [|done].
  destruct (wf_entry _ _ _ _ Hw _ _ Ha) as (e0 & He0 & Hk & _). cbn in He. by simplify_eq.
Qed.

(** [DeletePrefix] removes precisely the entries whose key matches and
    returns their number, leaves every other entry as it is, and a load of a
    matching key that is in flight will store nothing. *)
Theorem DeletePrefix_exact c C hasPrefix prefix p :
  live c C → prefixMatcher hasPrefix prefix = Some p →
  let '(C', n) := DeletePrefix c C hasPrefix prefix in
  n = Len C - Len C' ∧
  (∀ k, shard_get c C' k = if p k then None else shard_get c C k) ∧
  ∀ k f r k', p k = true → loading f c C k → shard_get c (finishLoad c C' k f r) k' = shard_get c C' k'.
Proof.
  intros [Hwf Ho _ Hcl] Hp. unfold DeletePrefix. rewrite Hcl Hp. set (F := λ C i count, _).
  assert (∀ C0 i n0, cache_wf c 0 C0 → overBudget (c_g C0) = false → (i < length (c_shards C0))%nat →
    let '(C1, n1) := F C0 i n0 in
    vstep c 0 None C0 C1 ∧ overBudget (c_g C1) = false ∧ filtered c (λ e, negb (p (e_key e))) i C0 C1 ∧
    n1 = n0 + Len C0 - Len C1) as Hturn.
  { intros C0 i n0 Hwf0 Ho0 Hi. apply (delete_turn c C0 i (deletePrefixShard c p)); [done..|].
    intros s m D _ Hw. by apply (prefix_filters c p (c_g C0) s m D). }
  pose proof (filter_walk c 0 C F 0 (λ e, negb (p (e_key e)))
    (λ C0 n, cache_wf c 0 C0 ∧ overBudget (c_g C0) = false ∧ n = Len C - Len C0) Hwf Ho) as HL.
  pose proof (λ f k, each_marks c f k C F 0 p) as HM.
  destruct (eachShard C F 0) as [C' n]. destruct HL as [(L0 & L1 & L2) L3].
  { split_and!; [done..|]. lia. }
  { intros C0 i n0 Hwf0 Ho0 Hi (_ & _ & Hn). specialize (Hturn C0 i n0 Hwf0 Ho0 Hi). destruct (F C0 i n0) as [C1 n1].
    destruct Hturn as (T1 & T2 & T3 & T4). split_and!; [done..|apply T1|done|lia]. }
  split_and!; [done| |].
  - intros k. rewrite L3 filter_negb. destruct (shard_get c C k) as [e|] eqn:He; cbn; [|by destruct (p k)].
    rewrite (shard_get_key c C k e Hwf He). done.
  - intros k f r k' Hk Hload. apply finishLoad_dropped; [|done]. by apply (HM f k).
Qed.
End props.

(** ** Witnesses *)

Local Abbreviation C4 := (run_all plain (znew plain 3) four).

Lemma Range_exact_witness :
  (Keys plain C4).2 = [4; 3; 1] ∧
  (Range plain C4 (Some (quiet (λ k v r, (r + v, true)))) 0).2 = 80 ∧
  ∃ l, NoDup l.*1 ∧ l.*1 = (Keys plain C4).2 ∧
    (Range plain C4 (Some (quiet (λ k v r, (r + v, true)))) 0).2 = (until (λ k v r, (r + v, true)) l 0).1.
Proof.
  split_and!; [vm_compute; done..|]. destruct (Range_exact plain C4 (z_live 3 four four_closed)) as (l & L1 & _ & L3 & L4).
  exists l. split_and!; [done..|]. by rewrite L4.
Defined.

Lemma DeleteWhere_exact_witness :
  (DeleteWhere plain C4 (Some (λ k v, bool_decide (20 < v)))).2 = 2 ∧
  2 = Len C4 - Len (DeleteWhere plain C4 (Some (λ k v, bool_decide (20 < v)))).1.
Proof.
  assert ((DeleteWhere plain C4 (Some (λ k v, bool_decide (20 < v)))).2 = 2) as Hn by (vm_compute; done).
  split; [done|]. pose proof (DeleteWhere_exact plain C4 (λ k v, bool_decide (20 < v)) (z_live 3 four four_closed)) as Hd.
  destruct (DeleteWhere plain C4 _) as [C' n]. cbn [fst snd] in Hn |- *. subst n. exact (proj1 Hd).
Defined.

(** A key type with a [HasPrefix] method of its own. *)
Definition parity : option (Z → string → bool) := Some (λ k _, Z.even k).

Lemma DeletePrefix_exact_witness :
  (DeletePrefix plain C4 parity EmptyString).2 = 1 ∧
  ∀ k, shard_get plain (DeletePrefix plain C4 parity EmptyString).1 k = if Z.even k then None else shard_get plain C4 k.
Proof.
  split; [vm_compute; done|].
  pose proof (DeletePrefix_exact plain C4 parity EmptyString Z.even (z_live 3 four four_closed) eq_refl) as Hd.
  destruct (DeletePrefix plain C4 parity EmptyString) as [C' n]. cbn [fst]. exact (proj1 (proj2 Hd)).
Defined.
