(* ===== verification/LoadProps.v ===== *)
(** * LoadProps: what the loading reads promise

    While a load of a key is in flight no second one starts: callers that
    miss join it ([single_flight]).  When it ends, its value is what the
    waiters get and what the next caller is served from memory
    ([load_served]). *)

From S2P Require Import Prelude Policy Lru Storage Ttl Heap Entry Tags Flights Shard Admission ShardInv ShardOps.
From S2P Require Import Cache Bulk Loads Run CacheInv CacheOps CacheReads CacheRun CacheKeep CacheBulk BulkInv LoadsInv.
From S2P Require Import RunInv CacheNew CacheLoads Concrete CacheProps.

#[local] Open Scope Z_scope.

Section props.
Context {K V P St T A : Type} `{Countable K, Inhabited K, Inhabited V}.
Context `{EvictionPolicy K P, ShardStore K St, TtlBackend T, AdmissionPolicy K A}.

Local Abbreviation config := (config K V).
Local Abbreviation globals := (globals K V A).
Local Abbreviation shard := (shard K V P St T).
Local Abbreviation cache := (cache K V P St T A).
Implicit Types (c : config) (C : cache) (g : globals) (s : shard) (k : K) (v : V).

(** Flight [f] is the load of [k] in flight. *)
Definition leads k (f : loc) (F : flights K) : Prop := fl_inflight F !! k = Some f.

#[local] Instance leads_stable k f : stable (leads k f).
Proof.
  split; unfold leads; cbn; [done..|]. intros F k' f' Hn Hf. rewrite lookup_insert_ne //. congruence.
Qed.

(** The operation does not end flight [f] of [k]: neither its result nor the
    last of its waiters leaving. *)
Definition unended k (f : loc) (o : cop (K := K) (V := V)) : Prop :=
  match o with
  | OpFinishLoad k' f' _ | OpAbandon k' f' => (k', f') ≠ (k, f)
  | OpLeave k' f' n => n ≠ 0 ∨ (k', f') ≠ (k, f)
  | _ => True
  end.

Lemma leads_end k f k' f' : (k', f') ≠ (k, f) → survives_end (leads k f) k' f'.
Proof.
  intros Hne F Hf. unfold leads, leaveInflight, orphanFlight in *. cbn.
  split; (case_decide as Hd; [cbn; rewrite lookup_delete_ne //; intros ->; congruence|done]).
Qed.

Lemma unended_lets k f o : unended k f o → lets (leads k f) o.
Proof. destruct o; cbn; try done; try apply leads_end. intros [?|?] ?; [lia|by apply leads_end]. Qed.

(** A caller either meets the flight or starts it. *)
Lemma loadOrJoin_leads c C k al f :
  (loadOrJoin c C k al).2 = StartLead f ∨ (loadOrJoin c C k al).2 = StartJoined f →
  csup (leads k f) (loadOrJoin c C k al).1 (shardFor c k).
Proof.
  unfold loadOrJoin, locked. destruct (c_shards C !! shardFor c k) as [s|] eqn:Hs; [|by intros []].
  assert ((loadOrJoinLocked c (c_g C) s k al).2 = StartLead f ∨ (loadOrJoinLocked c (c_g C) s k al).2 = StartJoined f →
    leads k f (sh_flights (loadOrJoinLocked c (c_g C) s k al).1.2)) as Hl.
  { unfold loadOrJoinLocked. cbn [clockNow]. destruct (serveLoadHitLocked _ _ _ _ _) as [[g2 s2] [v|]]; [by intros []|].
    destruct (negativeHit _ _ _ _); [by intros []|]. destruct (cachedErrorLocked _ _ _ _) as [s3 []]; [by intros []|].
    destruct (fl_inflight (sh_flights s3) !! k) as [f'|] eqn:Hf; [by intros [|[= ->]]|].
    destruct (negb al); [by intros []|]. intros [[= <-]|]; [|done]. unfold leads. cbn. by rewrite lookup_insert_eq. }
  destruct (loadOrJoinLocked c (c_g C) s k al) as [[g' s'] r]. cbn in Hl |- *. intros Hr.
  assert (leads k f (sh_flights s')) as Hs' by (apply Hl; destruct r, Hr; simplify_eq; auto).
  apply set_g_keeps, flush_keeps; [apply _|]. intros s0. cbn.
  rewrite list_lookup_insert_eq; [|by eapply lookup_lt_Some]. by intros [= <-].
Qed.

(** How a caller starts while flight [f] of [k] is registered: it is served
    or refused from memory, or joins. *)
Definition joins c C s k f (r : loadStart V) : Prop :=
  match r with
  | StartHit _ | StartNegative => is_Some (shard_get c C k)
  | StartCachedError => 0 < cf_errorTTL c ∧ is_Some (sh_errors s !! k)
  | StartJoined f' => f' = f
  | StartLead _ | StartLimited => False
  end.

(** A hit needs an entry, and nothing servable leaves the shard alone. *)
Lemma serveLoadHit_inv c g s k now :
  match serveLoadHitLocked c g s k now with
  | (_, _, Some v) => is_Some (st_get (sh_storage s) k ≫= (sh_heap s !!.))
  | (_, s', None) => s' = s
  end.
Proof.
  unfold serveLoadHitLocked. destruct (st_get (sh_storage s) k) as [a|]; cbn; [|done]. destruct (sh_heap s !! a) as [e|]; cbn; [|done].
  destruct (e_has e flagNegative); [done|]. destruct (entryExpiredLocked c e now); cbn [negb].
  - by destruct (shouldServeStale c e now).
  - by destruct (shouldRefreshAhead c _ now).
Qed.

Lemma negativeHit_inv c s k now : negativeHit c s k now = true → is_Some (st_get (sh_storage s) k ≫= (sh_heap s !!.)).
Proof. unfold negativeHit. by destruct (_ ≫= _). Qed.

Lemma cachedError_inv c s k now :
  match cachedErrorLocked c s k now with
  | (_, true) => 0 < cf_errorTTL c ∧ is_Some (sh_errors s !! k)
  | (s', false) => sh_flights s' = sh_flights s
  end.
Proof.
  unfold cachedErrorLocked. case_bool_decide; [|done]. destruct (sh_errors s !! k) as [ce|]; [|done]. by case_bool_decide.
Qed.

Lemma loadOrJoin_joins c C s k al f :
  c_shards C !! shardFor c k = Some s → leads k f (sh_flights s) → joins c C s k f (loadOrJoin c C k al).2.
Proof.
  intros Hs Hc. unfold loadOrJoin, locked. rewrite Hs.
  assert (shard_get c C k = st_get (sh_storage s) k ≫= (sh_heap s !!.)) as Hget by (unfold shard_get; by rewrite Hs).
  assert (joins c C s k f (loadOrJoinLocked c (c_g C) s k al).2) as Hl.
  { unfold loadOrJoinLocked. cbn [clockNow]. set (now := cf_clock c _). set (g1 := g_env _ _ _ _).
    pose proof (serveLoadHit_inv c g1 s k now) as Hsv. destruct (serveLoadHitLocked c g1 s k now) as [[g2 s2] [v|]].
    { cbn. by rewrite Hget. }
    subst s2. destruct (negativeHit c s k now) eqn:Hn; [cbn; rewrite Hget; by eapply negativeHit_inv|].
    pose proof (cachedError_inv c s k now) as Hce. destruct (cachedErrorLocked c s k now) as [s3 []]; [done|]. by rewrite Hce Hc. }
  destruct (loadOrJoinLocked c (c_g C) s k al) as [[g' s'] r]. cbn in Hl |- *. by destruct r.
Qed.

(** C22: loads are shared: in a cache without queued writes, from the moment a caller of [GetOrLoad] leads or
    joins the load of a key until that load ends, is abandoned or is left by
    its last waiter, whatever operations run, this load stays the one that is
    registered for the key, and every further call of [GetOrLoad] that gets
    past the checks of its arguments either finds an entry of the key or a
    cached error in memory, or joins this load; in particular it starts no
    load and is not refused by the rate limit. *)
Theorem single_flight c C k f os al cd al' r s :
  (loadOrJoin c C k al).2 = StartLead f ∨ (loadOrJoin c C k al).2 = StartJoined f →
  Forall (unended k f) os →
  let C' := run_all c (loadOrJoin c C k al).1 os in
  c_shards C' !! shardFor c k = Some s →
  (GetOrLoad c C' k cd al').2 = inr r →
  leads k f (sh_flights s) ∧ joins c C' s k f r.
Proof.
  intros Hl Hos C' Hs. apply loadOrJoin_leads in Hl.
  assert (Forall (lets (leads k f)) os) as Hos' by (eapply Forall_impl; [exact Hos|apply unended_lets]).
  pose proof (run_all_keeps (leads k f) c (loadOrJoin c C k al).1 os Hos' _ Hl s Hs) as Hc. clearbody C'. unfold GetOrLoad, GetOrLoadFn.
  destruct (g_closed (c_g C')), (cf_loader c), cd; cbn [negb]; try done.
  pose proof (loadOrJoin_joins c C' s k al' f Hs Hc) as Hj. destruct (loadOrJoin c C' k al') as [C2 r2]. intros [= <-]. by split.
Qed.

(** The result of the load is not overtaken. *)
Definition wanted (f : loc) (F : flights K) : Prop := f ∉ fl_superseded F.

Context `{!PolicyLaws K P, !StoreLaws K St, !TtlLaws T}.

(** The cache at the point where [finishLoad] stores the value: the flight is
    no longer registered. *)
Definition landed c C k (f : loc) : cache :=
  locked_ C (shardFor c k) (λ g s,
    (stat c (stat c g loadsTotal) loadHits,
     sh_set_flights s (leaveInflight (sh_flights s) k f) (sh_nextFlight s))).

Definition loadTTL c (ttl : Z) : Z := if bool_decide (ttl = 0) then cf_defaultTTL c else ttl.

Lemma finishLoad_upserts c C k f v ttl w :
  cache_wf c 0 C → csup (wanted f) C (shardFor c k) → g_closed (c_g C) = false → computeWeight c v = inr w →
  ∃ ts, finishLoad c C k f (LoadOk v ttl) =
    flushAndUnlock c (locked_ (landed c C k f) (shardFor c k) (λ g s,
      let '(ettl, g) := effectiveTTL c g (loadTTL c ttl) in
      upsertLocked c g s k v w ettl (cf_slidingTTL c) (loadTTL c ttl) ts)) (shardFor c k).
Proof.
  intros [ms HI] Hwant Hcl Hcw. destruct (lookup_lt_is_Some_2 _ _ (home_lt _ _ _ _ k HI)) as [s Hs].
  assert (prepareLoaded c v = Some (w, cf_autoTags c v)) as Hp.
  { unfold computeWeight in Hcw. unfold prepareLoaded. destruct (_ && _); by simplify_eq. }
  unfold finishLoad, landed, locked_, locked. rewrite Hs. cbn [load_ok fst snd].
  set (g1 := stat c _ loadHits). set (s1 := sh_set_flights s _ _). cbn [c_shards c_g fst].
  rewrite list_lookup_insert_eq; [|by eapply lookup_lt_Some].
  assert (g_closed g1 = false) as Hcl1 by (unfold g1, stat; by destruct (cf_statsEnabled c)).
  unfold applyLoadResultLocked. rewrite Hcl1 bool_decide_false; [|by apply (Hwant s)]. cbn [orb]. rewrite Hp.
  unfold storeLoadedLocked. fold (loadTTL c ttl).
  set (ts := match cf_autoTags c v with [] => _ | _ :: _ => _ end). exists ts. destruct (effectiveTTL c g1 (loadTTL c ttl)) as [ettl g2].
  destruct (upsertLocked _ _ _ _ _ _ _ _ _ _) as [g3 s3]. cbn. by rewrite list_insert_insert_eq.
Qed.

Lemma landed_cstep c C k f :
  cache_wf c 0 C → cstep c 0 None C (landed c C k f) ∧ overBudget (c_g (landed c C k f)) = overBudget (c_g C).
Proof.
  intros [ms HI]. destruct (lookup_lt_is_Some_2 _ _ (home_lt _ _ _ _ k HI)) as [s Hs].
  destruct (inv_shard _ _ _ _ _ _ HI Hs) as (m & D & Hm & Hw). unfold landed, locked_, locked. rewrite Hs. cbn. split.
  - eapply locked_cstep; [done..| |by intros]. eapply ok_frame; [by eapply ok_refl|done..| | | |];
      unfold stat; by destruct (cf_statsEnabled c).
  - unfold stat. by destruct (cf_statsEnabled c).
Qed.

Lemma landed_frame c C k f k' : shard_get c (landed c C k f) k' = shard_get c C k'.
Proof.
  unfold landed, locked_, locked, shard_get. destruct (c_shards C !! shardFor c k) as [s|] eqn:Hs; [|done]. cbn.
  destruct (decide (shardFor c k' = shardFor c k)) as [->|Hne]; [|by rewrite list_lookup_insert_ne].
  rewrite list_lookup_insert_eq; [|by eapply lookup_lt_Some]. by rewrite Hs.
Qed.

Lemma landed_env c C k f :
  cache_wf c 0 C →
  g_tick (c_g (landed c C k f)) = g_tick (c_g C) ∧
  (∀ t, (effectiveTTL c (c_g (landed c C k f)) t).1 = (effectiveTTL c (c_g C) t).1) ∧
  g_sealed (c_g (landed c C k f)) = g_sealed (c_g C) ∧
  (∀ w, admitted c C k → room c C k w → admitted c (landed c C k f) k ∧ room c (landed c C k f) k w).
Proof.
  intros [ms HI]. destruct (lookup_lt_is_Some_2 _ _ (home_lt _ _ _ _ k HI)) as [s Hs].
  unfold admitted, room. rewrite landed_frame. unfold landed, locked_, locked. rewrite Hs. cbn.
  split_and!; [unfold stat; by destruct (cf_statsEnabled c)| |unfold stat; by destruct (cf_statsEnabled c)|].
  - intros t. unfold effectiveTTL, applyJitter, stat. destruct (cf_statsEnabled c); by repeat case_match.
  - intros w Had (R1 & R2 & R3). specialize (R1 s eq_refl).
    rewrite list_lookup_insert_eq; [|by eapply lookup_lt_Some]. unfold stat. destruct (cf_statsEnabled c); cbn;
      (split; [done|]; split; [by intros s0 [= <-]|done]).
Qed.

(** A load that no write overtook hands its value to the callers waiting
    for it and to the cache: with room for the value, the next caller before
    the expiry is served that value from memory, and no other entry has
    changed. *)
Theorem load_served c C k f v ttl w al :
  live c C → cf_expireFunc c = None → cf_loader c = true → csup (wanted f) C (shardFor c k) →
  computeWeight c v = inr w → admitted c C k → room c C k w →
  let C' := finishLoad c C k f (LoadOk v ttl) in
  let ettl := (effectiveTTL c (c_g C) (loadTTL c ttl)).1 in
  let expiry := i64 (cf_clock c (g_tick (c_g C)) + ettl) in
  (ettl <= 0 ∨ expiry = 0 ∨ cf_clock c (g_tick (c_g C')) < expiry) →
  waitResult c (LoadOk v ttl) = inr (returnValue c v) ∧
  (GetOrLoad c C' k false al).2 = inr (StartHit (returnValue c v)) ∧
  ∀ k', k' ≠ k → shard_get c C' k' = shard_get c C k'.
Proof.
  intros [Hwf Ho Hsl Hcl] Hef Hld Hwant Hcw Had Hroom. cbv zeta. intros Hexp. split; [done|].
  destruct (finishLoad_upserts c C k f v ttl w Hwf Hwant Hcl Hcw) as [ts HF]. rewrite HF in Hexp |- *.
  destruct (landed_cstep c C k f Hwf) as [[L1 _ _ _ [L5 L6]] L7]. destruct (landed_env c C k f Hwf) as (E1 & E2 & E3 & E4).
  destruct (E4 w Had Hroom) as [Had' Hroom']. set (C1 := landed c C k f) in *. rewrite -E1 -E2 in Hexp.
  pose proof (λ k', landed_frame c C k f k') as Hfr. fold C1 in Hfr.
  destruct (upsert_keeps c 0 C1 k v w (loadTTL c ttl) (cf_slidingTTL c) (loadTTL c ttl) ts L1
    (computeWeight_ge _ _ _ Hcw) ltac:(congruence) Had' Hroom') as (U1 & (e & U2 & Uw) & U3).
  pose proof L1 as [ms1 HI1]. destruct (upsert_cstep c 0 C1 ms1 k v w (loadTTL c ttl) (cf_slidingTTL c) (loadTTL c ttl) ts HI1
    (computeWeight_ge _ _ _ Hcw)) as (X & Hst & _).
  set (C2 := locked_ C1 _ _) in *. destruct (locked_flush_ok c 0 X C1 C2 (shardFor c k) Hst (Z.le_refl 0)) as [Hst3 _].
  set (C3 := flushAndUnlock c C2 (shardFor c k)) in *.
  split; [|by intros k' Hne; unfold C3; rewrite flush_get // U3 // Hfr].
  assert (shard_get c C3 k = Some e) as He by (unfold C3; by rewrite flush_get).
  assert (g_closed (c_g C3) = false) as Hcl3 by (destruct (cs_closed _ _ _ _ _ Hst3); congruence).
  unfold GetOrLoad, GetOrLoadFn. rewrite Hcl3 Hld. cbn [negb].
  pose proof (loadOrJoin_vstep c 0 C3 k al (cs_wf _ _ _ _ _ Hst3) (Z.le_refl 0)) as Hj.
  destruct (loadOrJoin c C3 k al) as [C4 r]. destruct Hj as (_ & s & s' & Hs & r0 & Ha & ->). cbn [snd].
  rewrite (shard_get_lookup c C3 k s Hs) in He. destruct Uw as [_ Wv _ Wx Wn _ _ _].
  assert (servable c e (cf_clock c (g_tick (c_g C3)))) as Hsv.
  { split; [done|left]. unfold entryExpiredLocked, entryExpiredLockedReason, entry_expired. rewrite Hef.
    set (x := if bool_decide _ then _ else 0) in Wx. set (now := cf_clock c (g_tick (c_g C3))) in *.
    rewrite Wx. assert (bool_decide (x ≠ 0) && bool_decide (x <= now) = false) as Hx; [|by rewrite Hx].
    subst x. clear - Hexp. repeat case_bool_decide; cbn; try done; lia. }
  destruct r0; cbn in Ha; try (by destruct (proj1 Ha e He)).
  - destruct Ha as (e' & He' & _ & <-). simplify_eq. by rewrite /loadValue Wv.
  - destruct Ha as (e' & He' & Hn & _). simplify_eq. congruence.
Qed.
End props.

(** ** Witnesses *)

(** The second caller joins although the rate limit would refuse it. *)
Lemma single_flight_witness :
  let C := run_all plain (znew plain 3) [OpSet 1 10] in
  let C' := run_all plain (loadOrJoin plain C 2 true).1 [OpGet 2; OpLeave 2 1 1; OpDelete 2] in
  (loadOrJoin plain C 2 true).2 = StartLead 1%positive ∧ (GetOrLoad plain C' 2 false false).2 = inr (StartJoined 1%positive) ∧
  ∃ s, c_shards C' !! shardFor plain 2 = Some s ∧ leads 2 1%positive (sh_flights s).
Proof.
  cbv zeta. set (C := run_all plain (znew plain 3) [OpSet 1 10]).
  assert ((loadOrJoin plain C 2 true).2 = StartLead 1%positive) as Hl by (vm_compute; done).
  set (os := [OpGet 2; OpLeave 2 1 1; OpDelete 2]).
  assert ((GetOrLoad plain (run_all plain (loadOrJoin plain C 2 true).1 os) 2 false false).2 = inr (StartJoined 1%positive)) as Hj
    by (vm_compute; done).
  split; [exact Hl|]. split; [exact Hj|].
  assert (bool_decide (is_Some (c_shards (run_all plain (loadOrJoin plain C 2 true).1 os) !! shardFor plain 2)) = true) as Hs by (vm_compute; done).
  apply bool_decide_eq_true in Hs. destruct Hs as [s Hs]. exists s. split; [exact Hs|].
  refine (proj1 (single_flight plain C 2 1 os true false false _ s (or_introl Hl) _ Hs Hj)).
  apply Forall_cons_2; [done|]. apply Forall_cons_2; [by left|]. by apply Forall_cons_2.
Defined.

Definition loading_two : list (cop (K := Z) (V := Z)) := [OpSet 1 10; OpGetOrLoad 2 false true].

Lemma load_served_witness :
  let C := run_all plain (znew plain 3) loading_two in
  (GetOrLoad plain (finishLoad plain C 2 1 (LoadOk 20 50)) 2 false true).2 = inr (StartHit 20).
Proof.
  cbv zeta. assert (g_closed (c_g (run_all plain (znew plain 3) loading_two)) = false) as Hcl by (vm_compute; done).
  assert ((λ s, bool_decide (1%positive ∈ fl_superseded (sh_flights s))) <$>
    c_shards (run_all plain (znew plain 3) loading_two) !! shardFor plain 2 = Some false) as Hf by (vm_compute; done).
  assert ((λ s, st_length (K := Z) (sh_storage s) <? sh_budget s) <$>
    c_shards (run_all plain (znew plain 3) loading_two) !! shardFor plain 2 = Some true) as Hb by (vm_compute; done).
  assert (computeWeight plain 20 = inr 1) as Hw by done.
  assert (admitted plain (run_all plain (znew plain 3) loading_two) 2) as Ha by (right; reflexivity).
  assert (cf_clock plain (g_tick (c_g (finishLoad plain (run_all plain (znew plain 3) loading_two) 2 1 (LoadOk 20 50))))
    < i64 (cf_clock plain (g_tick (c_g (run_all plain (znew plain 3) loading_two))) +
        (effectiveTTL plain (c_g (run_all plain (znew plain 3) loading_two)) (loadTTL plain 50)).1)) as Hx
    by (vm_compute; done).
  pose proof (z_live 3 loading_two Hcl) as Hl. clear Hcl.
  set (C := run_all plain (znew plain 3) loading_two) in *.
  assert (room plain C 2 1) as Hr.
  { split_and!; [|right; vm_compute; done|left; reflexivity]. intros s Hs. rewrite Hs in Hb.
    right. by apply (inj Some), Z.ltb_lt in Hb. }
  clearbody C.
  refine (proj1 (proj2 (load_served plain C 2 1 20 50 1 true Hl eq_refl eq_refl _ Hw Ha Hr (or_intror (or_intror Hx))))).
  intros s Hs. rewrite Hs in Hf. by apply (inj Some), bool_decide_eq_false in Hf.
Defined.
