(* ===== verification/TieredInv.v ===== *)
(** * TieredInv: copies between the tiers never resurrect a value

    The invariant of a tiered cache while copies are in progress: a copy's
    key is watched in both tiers from before the read, so that a write or
    delete of a tier marks its token there; a copy with no token marked holds a
    value that L1 may show.  The invariant is about one key, the values L1 may
    show for it and the values L2 may show. *)

From S2P Require Import Prelude Policy Storage Ttl Entry Tags Flights Shard ShardInv ShardOps ShardBulk.
From S2P Require Import Store Cache Bulk Loads Run StoreCache Tiered CacheInv CacheOps CacheReads CacheRun RunInv.
From S2P Require Import CacheKeep CacheNew CacheLoads StoreInv StoreSteps.

#[local] Open Scope Z_scope.

(** ** Tokens survive every operation *)

Section ends.
Context {K : Type} `{Countable K}.

Lemma overtaken_end x k (f : loc) : survives_end (overtaken (K := K) x) k f.
Proof. intros F HF. split; [done|]. unfold orphanFlight. by case_decide. Qed.

Lemma watched_end k' x k (f : loc) : survives_end (watched (K := K) k' x) k f.
Proof. intros F HF. split; [done|]. unfold orphanFlight. by case_decide. Qed.
End ends.

Section tiered.
Context {K V P St T A : Type} `{Countable K, Inhabited K, Inhabited V}.
Context `{EvictionPolicy K P, ShardStore K St, TtlBackend T, AdmissionPolicy K A}.
Context `{!PolicyLaws K P, !StoreLaws K St, !TtlLaws T}.

Local Abbreviation shard_wf := (shard_wf (E := ∅)).
Local Abbreviation ok_step := (ok_step (E := ∅)).
Local Abbreviation config := (config K V).
Local Abbreviation globals := (globals K V A).
Local Abbreviation shard := (shard K V P St T).
Local Abbreviation cache := (cache K V P St T A).
Local Abbreviation tiered := (tiered K V P St T A).
Local Abbreviation copy := (copy K V).
Implicit Types (c : config) (C : cache) (g : globals) (s : shard) (t : tiered) (cp : copy) (v : V) (x : loc)
  (W : option (K * V)).

Lemma run_wkeeps c C (o : cop (K := K) (V := V)) : wkeeps C (run c C o).
Proof.
  intros x. split; [|intros k]; (apply run_keeps; [apply _|]).
  - destruct o; cbn; auto using overtaken_end.
  - destruct o; cbn; auto using watched_end.
Qed.

Lemma run_mstep c C o :
  cache_wf c 0 C → g_sealed (c_g C) = false → cf_negativeTTL c <= 0 →
  ∃ W, mstep c W C (run c C o) ∧ (W = None ∨ W = op_writes o).
Proof.
  intros Hwf Hsl Hneg. destruct (run_vstep c 0 C o Hwf (Z.le_refl 0) Hsl) as (W & Hv & HW).
  { destruct o; cbn; try done. destruct r; try done. by left. }
  exists W. split; [by apply mstep_vstep|done].
Qed.

(** A step that only changes the flights of one shard. *)
Lemma flights_mstep {R} c C key (f : globals → shard → globals * shard * R) d :
  cache_wf c 0 C → (∀ g s, ∃ fl nf, (f g s).1 = (g, sh_set_flights s fl nf)) →
  ∃ s s' r, c_shards C !! shardFor c key = Some s ∧ f (c_g C) s = (c_g C, s', r) ∧
    locked C (shardFor c key) f d = (Cache (c_g C) (<[shardFor c key := s']> (c_shards C)), r) ∧
    mstep c None C (locked C (shardFor c key) f d).1.
Proof.
  intros Hwf Hf. destruct (key_mstep c C key f d (λ _ W, W = None) Hwf) as (s & g' & s' & r & W & Hs & Hfs & HL & HM & ->).
  - intros s m D Hs Hw. destruct (Hf (c_g C) s) as (fl & nf & E). destruct (f (c_g C) s) as [gs r]. cbn in E. subst gs.
    exists None, m, None. split_and!; [by eapply flights_ok|done..].
  - destruct (Hf (c_g C) s) as (fl & nf & E). rewrite Hfs in E. cbn in E. injection E as -> _.
    exists s, s', r. split_and!; [done..|]. by rewrite HL.
Qed.

Lemma watchKey_spec c C refs key spare :
  cache_wf c 0 C →
  let '(C', refs', x) := watchKey c C refs key spare in
  mstep c None C C' ∧ wkeeps C C' ∧ csup (watched key x) C' (shardFor c key) ∧
  refs' = <[x := default 0 (refs !! x) + 1]> refs.
Proof.
  intros Hwf. unfold watchKey. set (f := λ g s, _).
  assert (∀ g s, skeeps s (f g s).1.2) as Hk.
  { intros g s x. subst f. cbn. unfold watchLockedSpare. destruct (fl_watches _ !! key) as [y|] eqn:Hy; [done|].
    split; [done|]. intros k' [Hs|Hs]; [by left|right]. cbn. rewrite lookup_insert_ne //. by intros ->; congruence. }
  destruct (flights_mstep c C key f spare Hwf) as (s & s' & x & Hs & Hf & HL & HM).
  { intros g s. subst f. cbn. unfold watchLockedSpare. destruct (fl_watches _ !! key); [|by eexists _, _].
    exists (sh_flights s), (sh_nextFlight s). by destruct s. }
  pose proof (locked_wkeeps C (shardFor c key) f spare Hk) as Hkeep. rewrite HL in HM, Hkeep |- *. split_and!; [done..| |done].
  intros s0. cbn. rewrite list_lookup_insert_eq; [|by eapply lookup_lt_Some]. intros [= <-]. right.
  subst f. cbn in Hf. unfold watchLockedSpare in Hf.
  destruct (fl_watches (sh_flights s) !! key) as [y|] eqn:Hy; injection Hf as <- <-; cbn; [done|]. by rewrite lookup_insert_eq.
Qed.

Lemma unwatchKey_spec c C refs key x :
  cache_wf c 0 C →
  let '(C', refs') := unwatchKey c C refs key x in
  let n := default 0 (refs !! x) - 1 in
  mstep c None C C' ∧ refs' = <[x := n]> refs ∧
  (∀ y i, csup (overtaken y) C i → csup (overtaken y) C' i) ∧
  (∀ k' y i, y ≠ x ∨ n ≠ 0 → csup (watched k' y) C i → csup (watched k' y) C' i).
Proof.
  intros Hwf. unfold unwatchKey, locked_. cbv zeta. set (n := default 0 (refs !! x) - 1). set (f := λ g s, _).
  destruct (flights_mstep c C key f tt Hwf) as (s & s' & r & Hs & Hf & HL & HM).
  { intros g s. subst f. cbn. unfold unwatchLocked. destruct (_ && _); [by eexists _, _|].
    exists (sh_flights s), (sh_nextFlight s). by destruct s. }
  split_and!; [done..| |].
  - intros y. apply locked_keeps. intros g0 s0. apply unwatch_keeps.
  - intros k' y i Hy. apply locked_keeps. intros g0 s0. by apply unwatch_keeps.
Qed.

Lemma setGuarded_mstep c C key v sc guard :
  cache_wf c 0 C → g_sealed (c_g C) = false →
  ∃ W, mstep c W C (setGuarded c C key v sc guard).1 ∧
    (W = None ∨ (W = Some (key, v) ∧ ∃ s, c_shards C !! shardFor c key = Some s ∧ guard s = true)).
Proof.
  intros Hwf Hsl. unfold setGuarded. destruct (prepareOptions c C key v sc) as [e|[tags w]] eqn:Hp.
  { exists None. split; [by apply mstep_refl|by left]. }
  apply prepareOptions_ge in Hp. set (i := shardFor c key). set (f := λ g s, _).
  pose proof Hwf as [ms HI].
  destruct (lookup_lt_is_Some_2 _ _ (home_lt _ _ _ _ key HI)) as [s Hs]. fold i in Hs.
  destruct (guard s) eqn:Hg.
  - destruct (upsertOptions_cstep c 0 C ms key v sc tags w HI Hp Hsl) as (X & Hst & Hwr).
    assert (locked C i f false = (locked_ C i (λ g s, upsertOptions c g s key v sc tags w), true)) as ->.
    { unfold locked_, locked. rewrite Hs. subst f. cbn. rewrite Hg. by destruct (upsertOptions _ _ _ _ _ _ _ _). }
    set (C1 := locked_ C i _) in *. destruct (locked_flush_ok c 0 X C C1 i Hst (Z.le_refl 0)) as [Hst1 _].
    pose proof (groups_vstep c 0 tags _ (cs_wf _ _ _ _ _ Hst1) (Z.le_refl 0)) as Hgr.
    exists (Some (key, v)). split; [|right; split; [done|by exists s]]. cbn.
    constructor; [apply Hgr| |].
    + intros k' v' Hv'. apply (vs_visible _ _ _ _ _ Hgr) in Hv'.
      exact (wrote_visible c 0 X key v C _ Hst1 Hwr Hsl k' v' Hv').
    + destruct (vs_closed _ _ _ _ _ Hgr), (cs_closed _ _ _ _ _ Hst1). split; congruence.
  - exists None. split; [|by left].
    assert (locked C i f false = (Cache (c_g C) (<[i := s]> (c_shards C)), false)) as ->.
    { unfold locked. rewrite Hs. subst f. cbn. by rewrite Hg. }
    rewrite list_insert_id //. cbn. assert (Cache (c_g C) (c_shards C) = C) as -> by by destruct C.
    apply mstep_vstep. by apply flush_vstep; [apply vstep_refl|].
Qed.

Lemma setGuarded_wkeeps c C key v sc guard : wkeeps C (setGuarded c C key v sc guard).1.
Proof.
  apply wkeeps_stable. intros Q HQ. unfold setGuarded. destruct (prepareOptions c C key v sc) as [e|[tags w]]; [apply keeps_refl|].
  set (f := λ g s, _). assert (∀ g s, sup Q s → sup Q (f g s).1.2) as Hf.
  { intros g s Hs. subst f. cbn. destruct (guard s); [|done]. by apply upsertOptions_sup. }
  pose proof (locked_keeps Q C (shardFor c key) f false Hf) as Hl. destruct (locked C (shardFor c key) f false) as [C1 []]; cbn in Hl |- *.
  - eapply keeps_trans; [exact Hl|]. eapply keeps_trans; [by apply flush_keeps|by apply groups_keeps].
  - eapply keeps_trans; [exact Hl|by apply flush_keeps].
Qed.

(** A delete marks the tokens of its key. *)
Lemma Delete_overtakes c C k x :
  g_closed (c_g C) = false → csup (watched k x) C (shardFor c k) → csup (overtaken x) (Delete c C k).1 (shardFor c k).
Proof.
  intros Hcl Hc. unfold Delete, deleteKey, locked. rewrite Hcl.
  destruct (c_shards C !! shardFor c k) as [s|] eqn:Hs; [|cbn; apply flush_keeps; [apply _|]; intros s0; congruence].
  assert (sup (overtaken x) (removeKeyLocked c (c_g C) s k EvictReasonDeleted).1.2) as Hr.
  { unfold removeKeyLocked. set (s0 := sh_set_flights s _ _).
    assert (sup (overtaken x) s0) as Hs0 by by apply watched_superseded, (Hc s). destruct (st_get _ k) as [a|]; [|done].
    pose proof (removeLocked_sup (overtaken x) c (c_g C) s0 a EvictReasonDeleted Hs0). by destruct (removeLocked _ _ s0 a _). }
  destruct (removeKeyLocked c (c_g C) s k _) as [[g' s'] b]. cbn in Hr |- *. apply flush_keeps; [apply _|].
  intros s0. cbn. rewrite list_lookup_insert_eq; [|by eapply lookup_lt_Some]. by intros [= <-].
Qed.

(** ** The invariant *)

Section inv.
Context (c1 c2 : config) (k : K).
Context (Hneg1 : cf_negativeTTL c1 <= 0) (Hneg2 : cf_negativeTTL c2 <= 0).
Implicit Types (S : V → Prop).

(** The value a copy carries. *)
Definition stage_val (st : stage V) : option V :=
  match st with Found v | Prepared v _ => Some v | _ => None end.

(** Every value of L2 may be copied to L1. *)
Definition copyable S1 S2 : Prop := ∀ v, S2 v → S1 (returnValue c2 v).

(** The copy of [k] will not be written, or carries a value of L2 that L1 may
    show. *)
Definition harmless S1 S2 C1 C2 cp (st : stage V) : Prop :=
  csup (overtaken (cp_w1 cp)) C1 (shardFor c1 (cp_key cp)) ∨ csup (overtaken (cp_w2 cp)) C2 (shardFor c2 (cp_key cp)) ∨
  (copyable S1 S2 ∧ ∀ v, stage_val st = Some v → ∃ v', S2 v' ∧ v = returnValue c2 v').

(** The tokens of the copy are registered or marked. *)
Definition copy_ok S1 S2 C1 C2 cp : Prop :=
  csup (watched (cp_key cp) (cp_w1 cp)) C1 (shardFor c1 (cp_key cp)) ∧
  csup (watched (cp_key cp) (cp_w2 cp)) C2 (shardFor c2 (cp_key cp)) ∧
  (cp_key cp = k → harmless S1 S2 C1 C2 cp (cp_stage cp)).

Record tier_ok c C : Prop := TierOk {
  to_wf : cache_wf c 0 C;
  to_sealed : g_sealed (c_g C) = false;
  to_closed : g_closed (c_g C) = false
}.

(** L1 shows values of [S1] for [k] only, L2 values of [S2]. *)
Record tinv S1 S2 t : Prop := TInv {
  ti_open : t_closed t = false;
  ti_ok1 : tier_ok c1 (t_l1 t);
  ti_ok2 : tier_ok c2 (t_l2 t);
  ti_l1 : ∀ v, visible c1 (t_l1 t) k v → S1 v;
  ti_l2 : ∀ v, visible c2 (t_l2 t) k v → S2 v;
  ti_copies : ∀ id cp, t_copies t !! id = Some cp → copy_ok S1 S2 (t_l1 t) (t_l2 t) cp;
  ti_refs1 : ∀ x, Z.of_nat (size (holders cp_w1 (t_copies t) x)) <= default 0 (t_refs1 t !! x);
  ti_refs2 : ∀ x, Z.of_nat (size (holders cp_w2 (t_copies t) x)) <= default 0 (t_refs2 t !! x)
}.

Lemma tier_ok_mstep c W C C' : tier_ok c C → mstep c W C C' → tier_ok c C'.
Proof. intros [O1 O2 O3] [M1 _ [M2 M3]]. constructor; [done|congruence..]. Qed.

(** The values an effect [W] may make [k] show. *)
Definition permits (Q : V → Prop) W : Prop := ∀ v, W = Some (k, v) → Q v.

Lemma permits_visible (Q : V → Prop) c W C C' :
  mstep c W C C' → permits Q W → (∀ v, visible c C k v → Q v) → ∀ v, visible c C' k v → Q v.
Proof.
  intros HM HW HQ v Hv. apply (ms_vis _ _ _ _ HM) in Hv. destruct W as [[k0 v0]|]; [|by apply HQ].
  case_decide as Hk; [|by apply HQ]. subst. by apply HW.
Qed.

Lemma harmless_keeps S1 S2 C1 C1' C2 C2' cp st :
  wkeeps C1 C1' → wkeeps C2 C2' → harmless S1 S2 C1 C2 cp st → harmless S1 S2 C1' C2' cp st.
Proof.
  intros Hk1 Hk2 [Ho|[Ho|Hv]]; [left; by apply Hk1|right; left; by apply Hk2|by right; right].
Qed.

Lemma copy_ok_keeps S1 S2 C1 C1' C2 C2' cp :
  wkeeps C1 C1' → wkeeps C2 C2' → copy_ok S1 S2 C1 C2 cp → copy_ok S1 S2 C1' C2' cp.
Proof.
  intros Hk1 Hk2 (O1 & O2 & O3). split_and!; [by apply Hk1|by apply Hk2|]. intros E. eapply harmless_keeps; [done..|by apply O3].
Qed.

(** A step of L1 that keeps the tokens. *)
Lemma tinv_l1 S1 S2 t l1 W :
  tinv S1 S2 t → mstep c1 W (t_l1 t) l1 → permits S1 W → wkeeps (t_l1 t) l1 → tinv S1 S2 (t_set_tiers t l1 (t_l2 t)).
Proof.
  intros [I1 I2 I3 I4 I5 I6 I7 I8] HM HW Hk. constructor; try done; [by eapply tier_ok_mstep| |].
  - intros v. by eapply (permits_visible S1).
  - intros id cp Hcp. eapply copy_ok_keeps; [exact Hk|apply wkeeps_refl|by eapply I6].
Qed.

(** The same of L2. *)
Lemma tinv_l2 S1 S2 t l2 W :
  tinv S1 S2 t → mstep c2 W (t_l2 t) l2 → permits S2 W → wkeeps (t_l2 t) l2 →
  tinv S1 S2 (t_set_tiers t (t_l1 t) l2).
Proof.
  intros [I1 I2 I3 I4 I5 I6 I7 I8] HM HW Hk. constructor; try done; [by eapply tier_ok_mstep| |].
  - intros v. by eapply (permits_visible S2).
  - intros id cp Hcp. eapply copy_ok_keeps; [apply wkeeps_refl|exact Hk|by eapply I6].
Qed.

Lemma tinv_count S1 S2 t a b m n : tinv S1 S2 t → tinv S1 S2 (t_count t a b m n).
Proof. by intros []. Qed.

(** The copy [cp] moves on to the stage [st]. *)
Lemma holders_stage (token : copy → loc) t id cp cp' x :
  t_copies t !! id = Some cp → token cp' = token cp →
  Z.of_nat (size (holders token (<[id := cp']> (t_copies t)) x)) <= Z.of_nat (size (holders token (t_copies t) x)).
Proof.
  intros Hcp E. pose proof (holders_delete token _ _ _ x Hcp) as H1'. pose proof (holders_insert token (t_copies t) id cp' x) as H2'.
  rewrite E in H2'. lia.
Qed.

Lemma tinv_stage S1 S2 t id cp st :
  tinv S1 S2 t → t_copies t !! id = Some cp → (cp_key cp = k → harmless S1 S2 (t_l1 t) (t_l2 t) cp st) →
  tinv S1 S2 (setStage t id cp st).
Proof.
  intros [I1 I2 I3 I4 I5 I6 I7 I8] Hcp Hst. constructor; try done.
  - intros id' cp'. cbn. intros [[<- <-]|[_ Hcp']]%lookup_insert_Some; [|by eapply I6].
    destruct (I6 _ _ Hcp) as (O1 & O2 & _). by split_and!.
  - intros x. specialize (I7 x). cbn. etrans; [by eapply holders_stage|done].
  - intros x. specialize (I8 x). cbn. etrans; [by eapply holders_stage|done].
Qed.

(** A stage without a value. *)
Lemma harmless_empty S1 S2 C1 C2 cp st st' :
  harmless S1 S2 C1 C2 cp st → stage_val st' = None → harmless S1 S2 C1 C2 cp st'.
Proof. intros [?|[?|[Hc _]]] E; [by left|by right; left|right; right]. split; [done|]. intros v. by rewrite E. Qed.

Lemma holders_begin (token : copy → loc) (m : gmap loc copy) (refs : gmap loc Z) id cp x :
  (∀ y, Z.of_nat (size (holders token m y)) <= default 0 (refs !! y)) →
  Z.of_nat (size (holders token (<[id := cp]> m) x)) <= default 0 (<[token cp := default 0 (refs !! token cp) + 1]> refs !! x).
Proof.
  intros Hr. pose proof (Hr x). rewrite lookup_insert. pose proof (holders_insert token m id cp x) as Hi.
  pose proof (holders_fewer token m id x). case_decide; subst; cbn; lia.
Qed.

Lemma beginCopy_inv S1 S2 t key : key ≠ k ∨ copyable S1 S2 → tinv S1 S2 t → tinv S1 S2 (beginCopy c1 c2 t key).1.
Proof.
  intros Hkey HI. unfold beginCopy.
  pose proof (watchKey_spec c1 (t_l1 t) (t_refs1 t) key (t_next t) (to_wf _ _ (ti_ok1 _ _ _ HI))) as H1'.
  destruct (watchKey c1 _ _ _ _) as [[l1 refs1] w1]. destruct H1' as (M1 & Hk1 & Hw1 & ->).
  pose proof (watchKey_spec c2 (t_l2 t) (t_refs2 t) key (t_next t) (to_wf _ _ (ti_ok2 _ _ _ HI))) as H2'.
  destruct (watchKey c2 _ _ _ _) as [[l2 refs2] w2]. destruct H2' as (M2 & Hk2 & Hw2 & ->).
  pose proof (tinv_l2 _ _ _ l2 None (tinv_l1 _ _ _ l1 None HI M1 ltac:(done) Hk1) M2 ltac:(done) Hk2) as [I1 I2 I3 I4 I5 I6 I7 I8].
  cbn in *. constructor; cbn; try done.
  - intros id' cp' [[<- <-]|[_ Hcp']]%lookup_insert_Some; [|by eapply I6]. split_and!; [exact Hw1|exact Hw2|].
    cbn. intros ->. destruct Hkey as [|Hc]; [done|]. by right; right.
  - intros x. exact (holders_begin cp_w1 _ _ (t_next t) (Copy key w1 w2 Watching) x I7).
  - intros x. exact (holders_begin cp_w2 _ _ (t_next t) (Copy key w1 w2 Watching) x I8).
Qed.

Lemma readCopy_inv S1 S2 t id : tinv S1 S2 t → tinv S1 S2 (readCopy c2 t id).1.
Proof.
  intros HI. unfold readCopy. destruct (t_copies t !! id) as [cp|] eqn:Hcp; [|done].
  destruct (cp_stage cp); try done. pose proof (to_wf _ _ (ti_ok2 _ _ _ HI)) as Hwf.
  pose proof (Get_get c2 0 (t_l2 t) (cp_key cp) Hwf (Z.le_refl 0)) as Hg.
  assert (wkeeps (t_l2 t) (Get c2 (t_l2 t) (cp_key cp)).1) as Hk by exact (run_wkeeps c2 (t_l2 t) (OpGet (cp_key cp))).
  destruct (Get c2 (t_l2 t) (cp_key cp)) as [l2 r]. destruct Hg as [Hv Hr]. rewrite (to_closed _ _ (ti_ok2 _ _ _ HI)) in Hr.
  pose proof (tinv_l2 _ _ _ l2 None HI (mstep_vstep _ _ _ _ Hv) ltac:(done) Hk) as HI2.
  destruct (ti_copies _ _ _ HI2 id cp Hcp) as (_ & _ & Hok). destruct r as [v|]; cbn.
  - apply tinv_stage; [by apply tinv_count|done|]. intros Hkey.
    destruct (Hok Hkey) as [?|[?|[Hc _]]]; [by left|by right; left|right; right]. split; [done|]. intros v0 [= <-].
    destruct Hr as (e & He & [Hn _] & <-). exists (loadValue e). split; [|done]. apply (ti_l2 _ _ _ HI). rewrite -Hkey. by exists e.
  - apply tinv_stage; [done..|]. intros Hkey. eapply harmless_empty; [by apply Hok|done].
Qed.

Lemma clock_mstep c C : cache_wf c 0 C → mstep c None C (set_g C (clockNow c (c_g C)).2).
Proof. intros Hwf. by apply mstep_vstep, clock_vstep. Qed.

Lemma Expiry_mstep c C key : cache_wf c 0 C → mstep c None C (Expiry c C key).1 ∧ wkeeps C (Expiry c C key).1.
Proof.
  intros Hwf. unfold Expiry. destruct (g_closed (c_g C)); [split; [by apply mstep_refl|apply wkeeps_refl]|]. cbn.
  split; [by apply clock_mstep|]. apply wkeeps_stable. intros Q HQ. apply set_g_keeps.
Qed.

Lemma prepareCopy_inv S1 S2 t id : tinv S1 S2 t → tinv S1 S2 (prepareCopy c1 c2 t id).
Proof.
  intros HI. unfold prepareCopy. destruct (t_copies t !! id) as [cp|] eqn:Hcp; [|done].
  destruct (cp_stage cp) as [| |v| |] eqn:Hst; try done.
  destruct (Expiry_mstep c2 (t_l2 t) (cp_key cp) (to_wf _ _ (ti_ok2 _ _ _ HI))) as [HM Hk].
  destruct (Expiry c2 (t_l2 t) (cp_key cp)) as [l2 o]. cbn in HM, Hk.
  pose proof (tinv_l2 _ _ _ l2 None HI HM ltac:(done) Hk) as HI2.
  destruct o as [exp|].
  2:{ apply tinv_stage; [done..|]. intros Hkey. destruct (ti_copies _ _ _ HI2 _ _ Hcp) as (_ & _ & Hc).
      eapply harmless_empty; [by apply Hc|done]. }
  set (al1 := match exp with Some x => _ | None => _ end).
  assert (mstep c1 None (t_l1 t) al1.2 ∧ wkeeps (t_l1 t) al1.2) as [HM1 Hk1].
  { pose proof (to_wf _ _ (ti_ok1 _ _ _ HI)) as Hwf1. subst al1. destruct exp as [x|]; [|split; [by apply mstep_refl|apply wkeeps_refl]].
    unfold copyExpiry. case_bool_decide; cbn; [|split; [by apply mstep_refl|apply wkeeps_refl]].
    split; [by apply clock_mstep|]. apply wkeeps_stable. intros Q HQ. apply set_g_keeps. }
  destruct al1 as [at_ l1]. cbn in HM1, Hk1. pose proof (tinv_l1 _ _ _ l1 None HI2 HM1 ltac:(done) Hk1) as HI3.
  apply (tinv_stage _ _ _ id cp _ HI3); [done|]. intros Hkey. destruct (ti_copies _ _ _ HI3 _ _ Hcp) as (_ & _ & Hc).
  rewrite Hst in Hc. exact (Hc Hkey).
Qed.

(** The token of an ended copy is given back; the others stay. *)
Lemma holders_end (token : copy → loc) (m : gmap loc copy) (refs : gmap loc Z) id cp x :
  m !! id = Some cp → (∀ y, Z.of_nat (size (holders token m y)) <= default 0 (refs !! y)) →
  Z.of_nat (size (holders token (delete id m) x)) <= default 0 (<[token cp := default 0 (refs !! token cp) - 1]> refs !! x).
Proof.
  intros Hcp Hr. rewrite lookup_insert. pose proof (Hr x). pose proof (holders_delete token _ _ _ x Hcp) as H1'.
  revert H1'. case_decide; intros H1'; subst; cbn; lia.
Qed.

Lemma holders_share (token : copy → loc) (m : gmap loc copy) (refs : gmap loc Z) id cp id' cp' :
  m !! id = Some cp → delete id m !! id' = Some cp' → (∀ y, Z.of_nat (size (holders token m y)) <= default 0 (refs !! y)) →
  token cp' ≠ token cp ∨ default 0 (refs !! token cp) - 1 ≠ 0.
Proof.
  intros Hcp Hd Hr. destruct (decide (token cp' = token cp)) as [E|]; [right|by left]. specialize (Hr (token cp)).
  pose proof (holders_delete token _ _ _ (token cp) Hcp) as H1'. rewrite decide_True // in H1'.
  pose proof (holders_delete token _ _ _ (token cp) Hd) as H2'. rewrite decide_True // in H2'. lia.
Qed.

(** Both tiers let go of the tokens. *)
Lemma release_inv S1 S2 t id cp :
  tinv S1 S2 t → t_copies t !! id = Some cp →
  tinv S1 S2 (let '(l2, refs2) := unwatchKey c2 (t_l2 t) (t_refs2 t) (cp_key cp) (cp_w2 cp) in
              let '(l1, refs1) := unwatchKey c1 (t_l1 t) (t_refs1 t) (cp_key cp) (cp_w1 cp) in
              Tiered l1 l2 (t_l1Hits t) (t_l2Hits t) (t_misses t) (t_promotions t) (t_closed t)
                (delete id (t_copies t)) refs1 refs2 (t_next t)).
Proof.
  intros [I1 I2 I3 I4 I5 I6 I7 I8] Hcp.
  pose proof (unwatchKey_spec c2 (t_l2 t) (t_refs2 t) (cp_key cp) (cp_w2 cp) (to_wf _ _ I3)) as H2'.
  destruct (unwatchKey c2 _ _ _ _) as [l2 refs2]. destruct H2' as (M2 & -> & Ho2 & Hw2).
  pose proof (unwatchKey_spec c1 (t_l1 t) (t_refs1 t) (cp_key cp) (cp_w1 cp) (to_wf _ _ I2)) as H1'.
  destruct (unwatchKey c1 _ _ _ _) as [l1 refs1]. destruct H1' as (M1 & -> & Ho1 & Hw1).
  constructor; cbn; [done|by eapply tier_ok_mstep|by eapply tier_ok_mstep| | | | |].
  - intros v. by eapply (permits_visible S1).
  - intros v. by eapply (permits_visible S2).
  - intros id' cp' Hd. pose proof Hd as [Hne Hcp']%lookup_delete_Some. destruct (I6 _ _ Hcp') as (O1 & O2 & O3). split_and!.
    + apply Hw1; [|done]. by eapply (holders_share cp_w1).
    + apply Hw2; [|done]. by eapply (holders_share cp_w2).
    + intros E. destruct (O3 E) as [?|[?|?]]; [left; by apply Ho1|right; left; by apply Ho2|by right; right].
  - intros x. by apply (holders_end cp_w1).
  - intros x. by apply (holders_end cp_w2).
Qed.

(** A guarded write whose token is marked is dropped. *)
Lemma guard_current c C key x : cache_wf c 0 C → watchCurrent c C key x = true → ¬ csup (overtaken x) C (shardFor c key).
Proof.
  intros [ms HI] Hc Ho. unfold watchCurrent, superseded in Hc.
  destruct (lookup_lt_is_Some_2 _ _ (home_lt _ _ _ _ key HI)) as [s Hs]. rewrite Hs in Hc.
  apply negb_true_iff, bool_decide_eq_false in Hc. by apply Hc, (Ho s).
Qed.

Lemma endCopy_inv S1 S2 t id : tinv S1 S2 t → tinv S1 S2 (endCopy c1 c2 t id).
Proof.
  intros HI. unfold endCopy. destruct (t_copies t !! id) as [cp|] eqn:Hcp; [|done]. set (key := cp_key cp).
  set (t1 := match cp_stage cp with Prepared v sc => _ | _ => t end).
  assert (tinv S1 S2 t1 ∧ t_copies t1 = t_copies t) as (HI1 & E1).
  { subst t1. destruct (cp_stage cp) as [| | |v sc|] eqn:Hst; try done. destruct (ti_ok1 _ _ _ HI) as [O1 O2 O3].
    set (guard := λ s : shard, _). destruct (setGuarded_mstep c1 (t_l1 t) key v sc guard O1 O2) as (W & HM & HW).
    pose proof (setGuarded_wkeeps c1 (t_l1 t) key v sc guard) as Hk. destruct (setGuarded _ _ _ _ _ _) as [l1 err]. cbn in HM, Hk.
    assert (tinv S1 S2 (t_set_tiers t l1 (t_l2 t))) as HI1.
    { eapply tinv_l1; [done..| |done]. destruct HW as [->|(-> & s & Hs & [Hc1 Hc2]%andb_true_iff)]; [done|]. intros v0 [= Hkey <-].
      destruct (ti_copies _ _ _ HI _ _ Hcp) as (_ & _ & Hok). destruct (Hok Hkey) as [Ho|[Ho|[Hcs Hv]]].
      - apply bool_decide_eq_true in Hc1. by destruct Hc1; apply (Ho s).
      - exfalso. by eapply guard_current; [apply (ti_ok2 _ _ _ HI)|..].
      - destruct (Hv v) as (v' & Hv' & ->); [by rewrite Hst|]. by apply Hcs. }
    destruct err; (split; [|done]); [done|by apply tinv_count]. }
  clearbody t1. rewrite -E1 in Hcp. by apply release_inv.
Qed.

(** ** Sequences of steps *)

(** An operation on a tier, which is what every operation of the tiered cache
    but [Get] is made of, or a section of a copy. *)
Inductive top :=
| T1 (o : cop (K := K) (V := V))
| T2 (o : cop (K := K) (V := V))
| TBegin (key : K)
| TRead (id : loc)
| TPrepare (id : loc)
| TEnd (id : loc).

Definition trun t (o : top) : tiered :=
  match o with
  | T1 o => t_set_tiers t (run c1 (t_l1 t) o) (t_l2 t)
  | T2 o => t_set_tiers t (t_l1 t) (run c2 (t_l2 t) o)
  | TBegin key => (beginCopy c1 c2 t key).1
  | TRead id => (readCopy c2 t id).1
  | TPrepare id => prepareCopy c1 c2 t id
  | TEnd id => endCopy c1 c2 t id
  end.

Definition trun_all t (os : list top) : tiered := foldl trun t os.

(** The step does not write [k], other than by a copy. *)
Definition spares (o : top) : Prop :=
  match o with T1 o | T2 o => ∀ v, op_writes o ≠ Some (k, v) | _ => True end.

(** Nor does it begin a copy of [k]. *)
Definition uncopied (o : top) : Prop := spares o ∧ o ≠ TBegin k.

(** What a step may do under the invariant. *)
Definition fits_tiers S1 S2 (o : top) : Prop :=
  (spares o ∨ ((∀ v, S1 v) ∧ ∀ v, S2 v)) ∧ (o ≠ TBegin k ∨ copyable S1 S2).

Lemma trun_inv S1 S2 t o : fits_tiers S1 S2 o → tinv S1 S2 t → tinv S1 S2 (trun t o).
Proof.
  intros [Hsp Hb] HI. destruct o as [o|o|key|id|id|id]; cbn.
  - destruct (ti_ok1 _ _ _ HI) as [O1 O2 O3]. destruct (run_mstep c1 (t_l1 t) o O1 O2 Hneg1) as (W & HM & HW).
    eapply tinv_l1; [done..| |apply run_wkeeps]. intros v ->. destruct Hsp as [Hsp|[Hall _]]; [|done].
    destruct HW as [|HW]; [done|]. by destruct (Hsp v (eq_sym HW)).
  - destruct (ti_ok2 _ _ _ HI) as [O1 O2 O3]. destruct (run_mstep c2 (t_l2 t) o O1 O2 Hneg2) as (W & HM & HW).
    eapply tinv_l2; [done..| |apply run_wkeeps]. intros v ->. destruct Hsp as [Hsp|[_ Hall]]; [|done].
    destruct HW as [|HW]; [done|]. by destruct (Hsp v (eq_sym HW)).
  - apply beginCopy_inv; [|done]. destruct Hb as [Hb|]; [left|by right]. by intros ->.
  - by apply readCopy_inv.
  - by apply prepareCopy_inv.
  - by apply endCopy_inv.
Qed.

Lemma trun_all_inv S1 S2 t os : Forall (fits_tiers S1 S2) os → tinv S1 S2 t → tinv S1 S2 (trun_all t os).
Proof. intros Hos. revert t. induction Hos as [|o os Ho Hos IH]; intros t HI; [done|]. by apply IH, trun_inv. Qed.

Lemma Forall_spares S1 S2 os : copyable S1 S2 → Forall spares os → Forall (fits_tiers S1 S2) os.
Proof. intros Hc Hos. eapply Forall_impl; [exact Hos|]. intros o Ho. split; [by left|by right]. Qed.

Lemma Forall_uncopied S1 S2 os : Forall uncopied os → Forall (fits_tiers S1 S2) os.
Proof. intros Hos. eapply Forall_impl; [exact Hos|]. intros o [Ho Hb]. split; by left. Qed.

(** What a read of the tiered cache can return. *)
Lemma Get_ti_shows S1 S2 t v :
  copyable S1 S2 → tinv S1 S2 t → (Get_ti c1 c2 t k).2 = Some v →
  (∃ v', S1 v' ∧ v = returnValue c1 v') ∨ ∃ v', S2 v' ∧ v = returnValue c2 v'.
Proof.
  intros Hcs HI. unfold Get_ti. rewrite (ti_open _ _ _ HI). destruct (ti_ok1 _ _ _ HI) as [O1 O2 O3].
  pose proof (Get_get c1 0 (t_l1 t) k O1 (Z.le_refl 0)) as Hg.
  assert (wkeeps (t_l1 t) (Get c1 (t_l1 t) k).1) as Hk by exact (run_wkeeps c1 (t_l1 t) (OpGet k)).
  destruct (Get c1 (t_l1 t) k) as [l1 [v1|]].
  - destruct Hg as [_ Hr]. rewrite O3 in Hr. destruct Hr as (e & He & [Hn _] & <-). intros [= <-]. left.
    exists (loadValue e). split; [|done]. apply (ti_l1 _ _ _ HI). by exists e.
  - destruct Hg as [Hv _]. pose proof (tinv_l1 _ _ _ l1 None HI (mstep_vstep _ _ _ _ Hv) ltac:(done) Hk) as HI1.
    pose proof (beginCopy_inv _ _ _ k (or_intror Hcs) HI1) as HI2.
    assert (t_copies (beginCopy c1 c2 (t_set_tiers t l1 (t_l2 t)) k).1 !! (beginCopy c1 c2 (t_set_tiers t l1 (t_l2 t)) k).2
      = Some (Copy k (watchKey c1 l1 (t_refs1 t) k (t_next t)).2 (watchKey c2 (t_l2 t) (t_refs2 t) k (t_next t)).2 Watching)) as Hc.
    { unfold beginCopy. cbn. destruct (watchKey c1 l1 _ _ _) as [[l1' r1] w1], (watchKey c2 (t_l2 t) _ _ _) as [[l2' r2] w2].
      cbn. by rewrite lookup_insert_eq. }
    destruct (beginCopy c1 c2 (t_set_tiers t l1 (t_l2 t)) k) as [t2 id]. cbn in HI2, Hc.
    assert (∀ v, (readCopy c2 t2 id).2 = Some v → ∃ v', S2 v' ∧ v = returnValue c2 v') as Hrd.
    { intros v0. unfold readCopy. rewrite Hc. cbn. destruct (ti_ok2 _ _ _ HI2) as [P1 P2 P3].
      pose proof (Get_get c2 0 (t_l2 t2) k P1 (Z.le_refl 0)) as Hg. destruct (Get c2 (t_l2 t2) k) as [l2 [v2|]]; [|done].
      destruct Hg as [_ Hr]. rewrite P3 in Hr. destruct Hr as (e & He & [Hn _] & <-). intros [= <-].
      exists (loadValue e). split; [|done]. apply (ti_l2 _ _ _ HI2). by exists e. }
    destruct (readCopy c2 t2 id) as [t3 [v3|]]; [|done]. intros [= <-]. right. by apply Hrd.
Qed.

(** ** The two writes of a key *)

(** A delete of L2 takes the value from every copy in progress. *)
Lemma delete2_inv S1 S2 t : tinv S1 S2 t → tinv S1 (λ _, False) (trun t (T2 (OpDelete k))).
Proof.
  intros HI. destruct (ti_ok2 _ _ _ HI) as [O1 O2 O3].
  pose proof (Delete_vstep c2 0 (t_l2 t) k O1 (Z.le_refl 0)) as Hd.
  pose proof (run_wkeeps c2 (t_l2 t) (OpDelete k)) as Hk. cbn [trun run] in Hk |- *.
  assert (∀ x, csup (watched k x) (t_l2 t) (shardFor c2 k) → csup (overtaken x) (Delete c2 (t_l2 t) k).1 (shardFor c2 k)) as Hm.
  { intros x. by apply Delete_overtakes. }
  destruct (Delete c2 (t_l2 t) k) as [l2 b]. destruct Hd as [Hv Hg]. destruct (Hg O3) as [Hgone _]. cbn in Hk, Hm |- *.
  destruct HI as [I1 I2 I3 I4 I5 I6 I7 I8]. constructor; try done; cbn.
  - eapply tier_ok_mstep; [done|by apply mstep_vstep].
  - intros v (e & He & _). congruence.
  - intros id cp Hcp. destruct (I6 _ _ Hcp) as (W1 & W2 & _). split_and!; [done|by apply Hk|]. intros E. right. left.
    rewrite E in W2 |- *. by apply Hm.
Qed.
End inv.
End tiered.
