(* ===== verification/AsyncInv.v ===== *)
(** * AsyncInv: queued writes keep what readers see

    Every step of a cache with queued writes keeps the cache well-formed, the
    backlog equal to the size of the queue, and shows a reader only what it
    showed before or what the step writes.  Applying the queue, whole or by
    key and in any order, shows nothing new. *)

From S2P Require Import Prelude Policy Storage Ttl Entry Tags Flights Shard ShardInv ShardOps ShardBulk.
From S2P Require Import Store Cache Bulk Loads Run StoreCache Tiered Async CacheInv CacheOps CacheReads CacheRun.
From S2P Require Import BulkInv LoadsInv RunInv CacheKeep CacheNew CacheLoads StoreInv StoreSteps TieredInv.

#[local] Open Scope Z_scope.

Section async.
Context {K V P St T A : Type} `{Countable K, Inhabited K, Inhabited V}.
Context `{EvictionPolicy K P, ShardStore K St, TtlBackend T, AdmissionPolicy K A}.
Context `{!PolicyLaws K P, !StoreLaws K St, !TtlLaws T}.

Local Abbreviation shard_wf := (shard_wf (E := ∅)).
Local Abbreviation ok_step := (ok_step (E := ∅)).
Local Abbreviation config := (config K V).
Local Abbreviation globals := (globals K V A).
Local Abbreviation shard := (shard K V P St T).
Local Abbreviation cache := (cache K V P St T A).
Local Abbreviation pendingOp := (pendingOp V).
Local Abbreviation acache := (acache K V P St T A).
Implicit Types (c : config) (C : cache) (g : globals) (s : shard) (B : acache) (k : K) (v : V) (o : pendingOp)
  (W : option (K * V)).

(** ** What the queue shows *)

(** A reader of a key with the operation [o] queued may be given [v]. *)
Definition covers o v : Prop :=
  match o with PendingSet v' _ _ _ _ _ _ => v = v' | PendingDelete => False end.

Definition avisible c B k v : Prop :=
  match a_pending B !! k with Some o => covers o v | None => visible c (a_mem B) k v end.

Definition op_ok o : Prop := match o with PendingSet _ w _ _ _ _ _ => 1 <= w | PendingDelete => True end.

Record ainv c B : Prop := AInv {
  ai_wf : cache_wf c 0 (a_mem B);
  ai_sealed : g_sealed (c_g (a_mem B)) = false;
  ai_closed : g_closed (c_g (a_mem B)) = false;
  ai_ops : map_Forall (λ _, op_ok) (a_pending B);
  ai_backlog : a_backlog B = i64 (Z.of_nat (size (a_pending B)))
}.

(** Readers see what they saw, or what [W] writes. *)
Record astep c W B B' : Prop := AStep {
  as_inv : ainv c B';
  as_vis : ∀ k v, avisible c B' k v → avisible c B k v ∨ W = Some (k, v)
}.

Lemma astep_refl c B : ainv c B → astep c None B B.
Proof. intros HI. constructor; [done|by left]. Qed.

Lemma astep_trans c W W' B1 B2 B3 :
  astep c W B1 B2 → astep c W' B2 B3 → (W = None ∨ W' = None) →
  astep c (match W with None => W' | _ => W end) B1 B3.
Proof.
  intros [A1 A2] [B1' B2'] HW. constructor; [done|]. intros k v [Hv|Hv]%B2'.
  - apply A2 in Hv as [?|?]; [by left|right]. by destruct W.
  - right. by destruct HW as [-> | ->].
Qed.

(** A step of the table below the queue. *)
Lemma astep_mem c W B C : ainv c B → mstep c W (a_mem B) C → astep c W B (a_set B C).
Proof.
  intros [I1 I2 I3 I4 I5] [M1 M2 [M3 M4]]. constructor; [by constructor; cbn; congruence || done|].
  intros k v. unfold avisible. cbn. destruct (a_pending B !! k); [by left|]. intros Hv%M2.
  destruct W as [[k0 v0]|]; [|by left]. case_decide; [subst; by right|by left].
Qed.

Lemma astep_vmem c W B C : ainv c B → vstep c 0 W (a_mem B) C → astep c W B (a_set B C).
Proof. intros HI Hv. by apply astep_mem, mstep_vstep. Qed.

Lemma ainv_mem c B C : ainv c B → mstep c None (a_mem B) C → ainv c (a_set B C).
Proof. intros HI HM. by apply (as_inv c None B), astep_mem. Qed.

(** ** Sections without the unlock *)

Lemma mstep_cstep c C C' : cstep c 0 None C C' → mstep c None C C'.
Proof.
  intros [C1 C2 _ _ C5]. constructor; [done| |done]. intros k v (e & He & ?). exists e. split; [|done]. by apply C2.
Qed.

Lemma mstep_trans c W C1 C2 C3 : mstep c W C1 C2 → mstep c None C2 C3 → mstep c W C1 C3.
Proof.
  intros [A1 A2 [A3 A4]] [B1 B2 [B3 B4]]. constructor; [done|by intros k v Hv%B2; apply A2|]. split; congruence.
Qed.

Lemma takeCallbacks_mstep c C i : cache_wf c 0 C → mstep c None C (takeCallbacks C i).1.
Proof.
  intros Hwf. apply mstep_cstep. pose proof Hwf as [ms HI]. unfold takeCallbacks, locked.
  destruct (c_shards C !! i) as [s|] eqn:Hs; [|by apply cstep_refl].
  destruct (inv_shard _ _ _ _ _ _ HI Hs) as (m & D & Hm & Hw). cbn.
  eapply locked_cstep; [exact HI|exact Hs|exact Hm| |done]. eapply ok_frame; [by eapply ok_refl|done..].
Qed.

Lemma runCallbacks_mstep c C cbs : cache_wf c 0 C → mstep c None C (runCallbacks c C cbs).
Proof. intros Hwf. by apply mstep_cstep, set_g_cstep. Qed.

Lemma sideEffects_mstep c C o : cache_wf c 0 C → mstep c None C (applyAsyncSideEffects c C o).
Proof. intros Hwf. destruct o; [by apply mstep_vstep, groups_vstep|by apply mstep_refl]. Qed.

Lemma shed_mstep c C r last : cache_wf c 0 C → mstep c None C (shedOverBudget c C r last).1.
Proof. intros Hwf. by apply mstep_cstep, shedOverBudget_ok. Qed.

Lemma flush_mstep c C i : cache_wf c 0 C → mstep c None C (flushAndUnlock c C i).
Proof. intros Hwf. by apply mstep_cstep, flush_ok. Qed.

(** ** One queued operation reaches the table *)

Record pstep c k o C C' : Prop := PStep {
  ps_wf : cache_wf c 0 C';
  ps_vis : ∀ k' v, visible c C' k' v → if decide (k' = k) then covers o v else visible c C k' v;
  ps_closed : g_closed (c_g C') = g_closed (c_g C) ∧ g_sealed (c_g C') = g_sealed (c_g C)
}.

Lemma wrote_pstep c X k v w ettl raw sl x ts C C' :
  cstep c 0 X C C' → wrote c C X k v → g_sealed (c_g C) = false →
  pstep c k (PendingSet v w ettl raw sl x ts) C C'.
Proof. intros Hst Hw Hsl. constructor; [apply Hst|by apply (wrote_visible c 0 X)|apply Hst]. Qed.

Lemma put_pstep c C k v w ettl raw sl x ts :
  cache_wf c 0 C → g_sealed (c_g C) = false → 1 <= w →
  pstep c k (PendingSet v w ettl raw sl x ts) C
    (locked_ C (shardFor c k) (applyPendingOpLocked c k (PendingSet v w ettl raw sl x ts))).
Proof.
  intros [ms HI] Hsl Hw. unfold locked_, locked. destruct (lookup_lt_is_Some_2 _ _ (home_lt _ _ _ _ k HI)) as [s Hs].
  rewrite Hs. destruct (inv_shard _ _ _ _ _ _ HI Hs) as (m & D & Hm & Hwf). cbn [applyPendingOpLocked]. case_bool_decide.
  - pose proof (upsertAbs_ok c (c_g C) s m D k v w (Some x) ts Hwf Hw Hsl) as Hu.
    destruct (upsertWithAbsoluteExpiryLocked _ _ _ _ _ _ _ _) as [g' s']. apply put_some_ok in Hu; [|done]. cbn.
    destruct (put_cstep c 0 C ms s m D k v w _ _ ts (c_g C) g' s' HI Hs Hm Hwf Hu) as (X & Hst & Hwr & _); try done.
    by apply (wrote_pstep c X).
  - pose proof (upsert_ok c (c_g C) s m D k v w ettl sl raw ts Hwf Hw) as Hu. cbv zeta in Hu.
    destruct (upsertLocked _ _ _ _ _ _ _ _ _ _) as [g' s']. cbn.
    destruct (put_cstep c 0 C ms s m D k v w _ _ ts (c_g C) g' s' HI Hs Hm Hwf Hu) as (X & Hst & Hwr & _); try done.
    by apply (wrote_pstep c X).
Qed.

Lemma apply_pstep c C k o :
  cache_wf c 0 C → g_sealed (c_g C) = false → op_ok o →
  pstep c k o C (locked_ C (shardFor c k) (applyPendingOpLocked c k o)).
Proof.
  intros Hwf Hsl Ho. destruct o as [v w ettl raw sl x ts|]; [by apply put_pstep|].
  pose proof Hwf as [ms HI]. unfold locked_, locked. destruct (lookup_lt_is_Some_2 _ _ (home_lt _ _ _ _ k HI)) as [s Hs].
  rewrite Hs. destruct (inv_shard _ _ _ _ _ _ HI Hs) as (m & D & Hm & Hw). cbn [applyPendingOpLocked].
  pose proof (removeKey_ok c (c_g C) s m D k EvictReasonDeleted Hw) as Hr.
  destruct (removeKeyLocked _ _ _ _ _) as [[g' s'] b]. destruct Hr as [Hok _]. cbn.
  destruct (os_wf _ _ _ _ _ _ _ _ Hok) as [D' Hw'].
  assert (cstep c 0 None C (Cache g' (<[shardFor c k:=s']> (c_shards C)))) as Hst by by eapply locked_cstep.
  constructor; [apply Hst| |apply Hst]. intros k' v Hv. case_decide as Hk.
  - subst. destruct Hv as (e & He & _). revert He.
    rewrite (shard_get_lookup _ _ _ s'); [|by cbn; rewrite list_lookup_insert_eq; [|by eapply lookup_lt_Some]].
    rewrite (wf_lookup _ _ _ _ _ Hw') lookup_delete_eq //.
  - exact (ms_vis _ _ _ _ (mstep_cstep _ _ _ Hst) _ _ Hv).
Qed.

(** The operation queued for [k] has been applied. *)
Lemma applied_astep c B k o C :
  ainv c B → a_pending B !! k = Some o → pstep c k o (a_mem B) C →
  astep c None B (ACache C (delete k (a_pending B)) (i64 (a_backlog B - 1))).
Proof.
  intros [I1 I2 I3 I4 I5] Hk [P1 P2 [P3 P4]]. constructor.
  - constructor; cbn; [done|congruence..|by apply map_Forall_delete|].
    pose proof (map_size_delete_Some k (a_pending B) (ex_intro _ _ Hk)) as Hd. rewrite I5 -Z.add_opp_r i64_add. f_equal.
    assert (size (a_pending B) ≠ 0%nat) by (intros E%map_size_empty_iff; by rewrite E in Hk). lia.
  - intros k' v. unfold avisible. cbn. destruct (decide (k' = k)) as [->|Hne].
    + rewrite lookup_delete_eq Hk. intros Hv%P2. rewrite decide_True // in Hv. by left.
    + rewrite lookup_delete_ne //. destruct (a_pending B !! k'); [by left|]. intros Hv%P2. rewrite decide_False // in Hv. by left.
Qed.

Lemma pstep_mstep c k o C1 C2 C3 : pstep c k o C1 C2 → mstep c None C2 C3 → pstep c k o C1 C3.
Proof.
  intros [A1 A2 [A3 A4]] [B1 B2 [B3 B4]]. constructor; [done|by intros k' v Hv%B2; apply A2|]. split; congruence.
Qed.

(** ** Sections that begin with the queued operation of their key *)

(** What a locked routine on the shard of [k] writes, according to its
    result. *)
Definition writes_of {R} c k (body : globals → shard → globals * shard * R) (W : R → option (K * V)) : Prop :=
  ∀ g s m D, shard_wf c s m D → g_sealed g = false →
    let '(g', s', r) := body g s in ∃ X m', ok_step c X g s m g' s' m' ∧ shows X (W r) k s.

Lemma body_mstep {R} c C k (body : globals → shard → globals * shard * R) d (WR : R → option (K * V)) :
  cache_wf c 0 C → g_sealed (c_g C) = false → writes_of c k body WR →
  mstep c (WR (locked C (shardFor c k) body d).2) C (locked C (shardFor c k) body d).1.
Proof.
  intros Hwf Hsl Hb. destruct (key_mstep c C k body d (λ r w, w = WR r) Hwf) as (s & g' & s' & r & w & _ & _ & -> & HM & ->).
  - intros s m D _ Hw. specialize (Hb (c_g C) s m D Hw Hsl). destruct (body (c_g C) s) as [[g' s'] r].
    destruct Hb as (X & m' & ? & ?). by exists X, m', (WR r).
  - done.
Qed.

Lemma pendingSection_astep {R} c B k (body : globals → shard → globals * shard * R) d (WR : R → option (K * V)) :
  ainv c B → writes_of c k body WR →
  let '(B', r) := pendingSection c B k body d in
  astep c (WR r) B B' ∧ a_pending B' = delete k (a_pending B).
Proof.
  intros HI Hb. unfold pendingSection. set (i := shardFor c k). destruct (a_pending B !! k) as [o|] eqn:Hk.
  - pose proof (apply_pstep c (a_mem B) k o (ai_wf _ _ HI) (ai_sealed _ _ HI) (ai_ops _ _ HI _ _ Hk)) as Hp. fold i in Hp.
    set (C0 := locked_ (a_mem B) i _) in *. pose proof (takeCallbacks_mstep c C0 i (ps_wf _ _ _ _ _ Hp)) as Ht.
    destruct (takeCallbacks C0 i) as [C1 hooks]. cbn in Ht. pose proof (pstep_mstep _ _ _ _ _ _ Hp Ht) as Hp1.
    pose proof (applied_astep c B k o C1 HI Hk Hp1) as Ha. set (B1 := ACache C1 _ _) in Ha.
    destruct (as_inv _ _ _ _ Ha) as [J1 J2 _ _ _]. cbn in J1, J2. pose proof (body_mstep c C1 k body d WR J1 J2 Hb) as Hm. fold i in Hm.
    destruct (locked C1 i body d) as [C2 r]. cbn in Hm.
    pose proof (takeCallbacks_mstep c C2 i (ms_wf _ _ _ _ Hm)) as Ht2. destruct (takeCallbacks C2 i) as [C3 cbs]. cbn in Ht2.
    split; [|done]. refine (astep_trans c None (WR r) B B1 _ Ha _ (or_introl eq_refl)).
    apply (astep_mem c (WR r) B1 _ (as_inv _ _ _ _ Ha)). pose proof (mstep_trans _ _ _ _ _ Hm Ht2) as H3'.
    pose proof (mstep_trans _ _ _ _ _ H3' (runCallbacks_mstep c C3 hooks (ms_wf _ _ _ _ H3'))) as H4'.
    pose proof (mstep_trans _ _ _ _ _ H4' (sideEffects_mstep c _ o (ms_wf _ _ _ _ H4'))) as H5'.
    pose proof (mstep_trans _ _ _ _ _ H5' (runCallbacks_mstep c _ cbs (ms_wf _ _ _ _ H5'))) as H6'.
    exact (mstep_trans _ _ _ _ _ H6' (shed_mstep c _ _ _ (ms_wf _ _ _ _ H6'))).
  - pose proof (body_mstep c (a_mem B) k body d WR (ai_wf _ _ HI) (ai_sealed _ _ HI) Hb) as Hm. fold i in Hm.
    destruct (locked (a_mem B) i body d) as [C r]. cbn in Hm. split; [|cbn; by rewrite delete_id].
    apply astep_mem; [done|]. exact (mstep_trans _ _ _ _ _ Hm (flush_mstep c C i (ms_wf _ _ _ _ Hm))).
Qed.

Lemma idle_writes c k : writes_of c k (λ g s, (g, s, tt)) (λ _, None).
Proof. intros g s m D Hw _. by eapply idle_shows. Qed.

Lemma applyPendingKey_astep c B k :
  ainv c B → astep c None B (applyPendingKey c B k) ∧ a_pending (applyPendingKey c B k) = delete k (a_pending B).
Proof.
  intros HI. unfold applyPendingKey. pose proof (pendingSection_astep c B k (λ g s, (g, s, tt)) tt (λ _, None) HI (idle_writes c k)).
  by destruct (pendingSection c B k _ _).
Qed.

(** ** Draining a shard *)

Lemma size_filter_split {Y} (Q : K * Y → Prop) `{!∀ x, Decision (Q x)} (m : gmap K Y) :
  size m = (size (filter Q m) + size (filter (λ x, ¬ Q x) m))%nat.
Proof. by rewrite -{1}(map_filter_union_complement Q m) map_size_disj_union; [|apply map_disjoint_filter_complement]. Qed.

Lemma elem_of_pendingOf c (pend : gmap K pendingOp) i order k o :
  (k, o) ∈ pendingOf c pend i order ↔ pend !! k = Some o ∧ shardFor c k = i.
Proof.
  unfold pendingOf. rewrite elem_of_app list_elem_of_omap list_elem_of_filter list_elem_of_filter elem_of_map_to_list. cbn. split.
  - intros [(k' & _ & Hk')|(_ & ? & ?)]; [|done]. case_bool_decide; [|done]. destruct (pend !! k') eqn:E; [|done]. by simplify_eq/=.
  - intros [Hp Hi]. destruct (decide (k ∈ order)) as [Hin|Hin]; [left|by right]. exists k. rewrite elem_of_remove_dups.
    split; [done|]. by rewrite bool_decide_true // Hp.
Qed.

Lemma NoDup_pendingOf c (pend : gmap K pendingOp) i order : NoDup (pendingOf c pend i order).*1.
Proof.
  unfold pendingOf. set (first := omap _ _).
  assert (∀ l, NoDup l → NoDup (omap (λ k, (k,.) <$> (if bool_decide (shardFor c k = i) then pend !! k else None)) l).*1 ∧
    ∀ k o, (k, o) ∈ omap (λ k, (k,.) <$> (if bool_decide (shardFor c k = i) then pend !! k else None)) l → k ∈ l) as Hf.
  { induction 1 as [|k l Hk Hl [IH1 IH2]]; cbn; [split; [constructor|set_solver]|].
    destruct (if bool_decide _ then _ else _) as [o|]; cbn.
    - split; [|intros k' o' [[= -> ->]|Hin]%elem_of_cons; [left|right; by eapply IH2]]. constructor; [|done].
      intros ([k' o'] & -> & Hin)%list_elem_of_fmap. by apply IH2 in Hin.
    - split; [done|]. intros k' o' Hin. right. by eapply IH2. }
  destruct (Hf _ (NoDup_remove_dups order)) as [F1 F2]. fold first in F1, F2. rewrite fmap_app NoDup_app. split_and!; [done| |].
  - intros k Hk1 Hk2. apply list_elem_of_fmap in Hk1 as ([k1 o1] & -> & Hk1). apply list_elem_of_fmap in Hk2 as ([k2 o2] & E & Hk2).
    cbn in *. subst. apply list_elem_of_filter in Hk2 as [Hn _]. apply F2 in Hk1. by rewrite elem_of_remove_dups in Hk1.
  - assert (∀ (l : list (K * pendingOp)) Q `{∀ x, Decision (Q x)}, NoDup l.*1 → NoDup (filter Q l).*1) as Hfl.
    { intros l Q HQ Hl. induction l as [|x l IH]; [constructor|]. apply NoDup_cons in Hl as [Hx Hl].
      rewrite filter_cons. case_decide; [|by apply IH]. cbn. constructor; [|by apply IH].
      intros (y & E & [_ Hy]%list_elem_of_filter)%list_elem_of_fmap. destruct Hx. apply list_elem_of_fmap. eauto. }
    apply Hfl, Hfl, NoDup_fst_map_to_list.
Qed.

Lemma length_pendingOf c (pend : gmap K pendingOp) i order :
  length (pendingOf c pend i order) = size (filter (λ ko, shardFor c ko.1 = i) pend).
Proof.
  rewrite -length_map_to_list. apply Permutation_length, NoDup_Permutation.
  - eapply NoDup_fmap_1, NoDup_pendingOf.
  - apply NoDup_map_to_list.
  - intros [k o]. rewrite elem_of_pendingOf elem_of_map_to_list map_lookup_filter_Some. done.
Qed.

(** The operations one after the other, each in a section of its own. *)
Lemma locked_fold c C i (ops : list (K * pendingOp)) :
  locked_ C i (λ g s, foldl (λ '(g, s) '(k, o), applyPendingOpLocked c k o g s) (g, s) ops) =
  foldl (λ C '(k, o), locked_ C i (applyPendingOpLocked c k o)) C ops.
Proof.
  revert C. induction ops as [|[k o] ops IH]; intros C; cbn [foldl].
  - unfold locked_, locked. destruct (c_shards C !! i) as [s|] eqn:Hs; [|done]. cbn. rewrite list_insert_id //. by destruct C.
  - rewrite -IH. unfold locked_, locked. destruct (c_shards C !! i) as [s|] eqn:Hs; [|by rewrite Hs].
    destruct (applyPendingOpLocked c k o (c_g C) s) as [g1 s1]. cbn.
    rewrite list_lookup_insert_eq; [|by eapply lookup_lt_Some]. cbn.
    destruct (foldl _ (g1, s1) ops) as [g2 s2]. cbn. by rewrite list_insert_insert_eq.
Qed.

Lemma fold_applies c i (ops : list (K * pendingOp)) C :
  cache_wf c 0 C → g_sealed (c_g C) = false → Forall (λ ko, op_ok ko.2 ∧ shardFor c ko.1 = i) ops → NoDup ops.*1 →
  let C' := foldl (λ C '(k, o), locked_ C i (applyPendingOpLocked c k o)) C ops in
  cache_wf c 0 C' ∧ (g_closed (c_g C') = g_closed (c_g C) ∧ g_sealed (c_g C') = g_sealed (c_g C)) ∧
  ∀ k v, visible c C' k v → (∃ o, (k, o) ∈ ops ∧ covers o v) ∨ (k ∉ ops.*1 ∧ visible c C k v).
Proof.
  intros Hwf Hsl Hops Hnd. revert C Hwf Hsl.
  induction ops as [|[k0 o0] ops IH]; intros C Hwf Hsl; cbn -[locked_].
  { split_and!; try done. intros k v Hv. right. split; [set_solver|done]. }
  apply Forall_cons in Hops as [[Ho Hi] Hops]. apply NoDup_cons in Hnd as [Hnin Hnd]. cbn in Ho, Hi. subst i.
  pose proof (apply_pstep c C k0 o0 Hwf Hsl Ho) as [P1 P2 [P3 P4]]. set (C1 := locked_ C _ _) in *.
  destruct (IH Hops Hnd C1 P1) as (W1 & W2 & W3); [congruence|]. split_and!; [done|naive_solver congruence..|].
  intros k v [(o & Hin & Hc)|[Hk Hv]]%W3; [left; exists o; set_solver|]. apply P2 in Hv. case_decide as E.
  - subst. left. exists o0. set_solver.
  - right. split; [|done]. set_solver.
Qed.

Lemma sideEffects_fold c (ops : list (K * pendingOp)) C :
  cache_wf c 0 C → mstep c None C (foldl (λ C ko, applyAsyncSideEffects c C ko.2) C ops).
Proof.
  revert C. induction ops as [|ko ops IH]; intros C Hwf; cbn; [by apply mstep_refl|].
  pose proof (sideEffects_mstep c C ko.2 Hwf) as Hm. exact (mstep_trans _ _ _ _ _ Hm (IH _ (ms_wf _ _ _ _ Hm))).
Qed.

Lemma drainShard_astep c B i order :
  ainv c B →
  let '(B', n) := drainShard c B i order in
  astep c None B B' ∧ a_pending B' = filter (λ ko, shardFor c ko.1 ≠ i) (a_pending B) ∧
  n = Z.of_nat (size (filter (λ ko, shardFor c ko.1 = i) (a_pending B))).
Proof.
  intros HI. unfold drainShard. pose proof (length_pendingOf c (a_pending B) i order) as Hlen.
  pose proof (λ k o, elem_of_pendingOf c (a_pending B) i order k o) as Hops.
  pose proof (NoDup_pendingOf c (a_pending B) i order) as Hnd.
  destruct (pendingOf c (a_pending B) i order) as [|ko ops'] eqn:E.
  { split; [by apply astep_refl|]. cbn in Hlen. split; [|lia]. symmetry. apply map_filter_id. intros k o Hk Hi.
    assert ((k, o) ∈ ([] : list (K * pendingOp))) as Hin by by apply Hops. set_solver. }
  rewrite -E in Hlen, Hops, Hnd |- *. clear E ko ops'. set (ops := pendingOf _ _ _ _) in *.
  pose proof HI as [I1 I2 I3 I4 I5]. rewrite locked_fold.
  destruct (fold_applies c i ops (a_mem B) I1 I2) as (W1 & [W2 W3] & W4); [|done|].
  { apply Forall_forall. intros [k o] [Hk Hi]%Hops. split; [by apply (I4 k)|done]. }
  set (C1 := foldl _ (a_mem B) ops) in *. pose proof (flush_mstep c C1 i W1) as Hf.
  pose proof (mstep_trans _ _ _ _ _ Hf (sideEffects_fold c ops _ (ms_wf _ _ _ _ Hf))) as [M1 M2 [M3 M4]].
  set (C2 := foldl _ (flushAndUnlock c C1 i) ops) in *. clearbody C2. split_and!; [|done|by rewrite Hlen]. constructor.
  - constructor; cbn; [done|congruence|congruence|by intros k o [Hk _]%map_lookup_filter_Some; apply (I4 k)|].
    rewrite I5 -Z.add_opp_r i64_add Hlen. f_equal. pose proof (size_filter_split (λ ko : K * pendingOp, shardFor c ko.1 = i) (a_pending B)) as Hs. lia.
  - intros k v. unfold avisible. cbn. destruct (decide (shardFor c k = i)) as [Hi|Hi].
    + rewrite (proj2 (map_lookup_filter_None _ (a_pending B) k)); [|right; by intros ? _ ?].
      intros [(o & Hin & Hc)|[Hk Hv]]%M2%W4; left.
      * apply Hops in Hin as [-> _]. done.
      * destruct (a_pending B !! k) as [o|] eqn:Hp; [|done]. destruct Hk. apply list_elem_of_fmap. exists (k, o). by rewrite Hops.
    + assert (filter (λ ko, shardFor c ko.1 ≠ i) (a_pending B) !! k = a_pending B !! k) as ->.
      { destruct (a_pending B !! k) eqn:Hp; [by apply map_lookup_filter_Some|]. apply map_lookup_filter_None. by left. }
      destruct (a_pending B !! k) eqn:Hp; [by left|]. intros [(o & Hin & _)|[_ Hv]]%M2%W4; [|by left].
      apply Hops in Hin. naive_solver.
Qed.
End async.
