(* ===== verification/AsyncProps.v ===== *)
(** * AsyncProps: properties of queued writes

    Readers see their writes at once and for as long as nobody else writes
    the key, whatever is applied when and in which order; a queue that has
    been applied is empty; and queueing a write and applying it does to the
    cache what the synchronous write does. *)

From S2P Require Import Prelude Policy Lru Storage Ttl Heap Entry Tags Flights Shard Admission ShardInv ShardOps ShardBulk.
From S2P Require Import Store Cache Bulk Loads Run StoreCache Tiered Async CacheInv CacheOps CacheReads CacheRun.
From S2P Require Import BulkInv LoadsInv RunInv CacheKeep CacheNew CacheLoads StoreInv StoreSteps TieredInv AsyncInv.
From S2P Require Import Concrete CacheProps.

#[local] Open Scope Z_scope.

Section props.
Context {K V P St T A : Type} `{Countable K, Inhabited K, Inhabited V}.
Context `{EvictionPolicy K P, ShardStore K St, TtlBackend T, AdmissionPolicy K A}.
Context `{!PolicyLaws K P, !StoreLaws K St, !TtlLaws T}.

Local Abbreviation config := (config K V).
Local Abbreviation cache := (cache K V P St T A).
Local Abbreviation acache := (acache K V P St T A).
Local Abbreviation cop := (cop (K := K) (V := V)).
Implicit Types (c : config) (C : cache) (B : acache) (k : K) (v : V) (W : option (K * V)).

(** ** Steps *)

(** The steps of the goroutines, and the methods that neither read nor apply
    the queue. *)
Definition background (o : cop) : bool :=
  match o with
  | OpDeleteExpired | OpJanitor _ | OpDrain | OpFinishLoad _ _ _ | OpRefresh _ | OpRefreshAll
  | OpLeave _ _ _ | OpAbandon _ _ | OpAnnounce _ _ => true
  | _ => false
  end.

Inductive aop :=
| ASet (k : K) (v : V)
| ASetWithTTL (k : K) (v : V) (ttl : Z)
| ASetWithOptions (k : K) (v : V) (sc : setConfig) (guard : bool)
| ADelete (k : K)
| AGet (k : K)
| APeek (k : K)
| AGetWithExpiry (k : K)
| ATTL (k : K)
| AExpiry (k : K)
| ATags (k : K)
| ATouch (k : K)
| ATouchWithTTL (k : K) (ttl : Z)
| ADeleteIf (k : K) (pred : V → bool)
| AGetOrLoad (k : K) (ctxDone allowed : bool)
| AInvalidate (k : K) (reason : EvictionReason)
| ASetIfAbsent (k : K) (v : V)
| ASetIfPresent (k : K) (v : V)
| AGetOrSet (k : K) (v : V)
| APeekOrAdd (k : K) (v : V)
| AClear (order : list K)
| AReset (order : list K)
| ADeletePrefix (order : list K) (hasPrefix : option (K → string → bool)) (prefix : string)
| ADeleteWhere (order : list K) (pred : option (K → V → bool))
| AInvalidateTag (order : list K) (tag : string)
| AInvalidateTags (order : list K) (tags : list string)
| AApply (i : nat) (order : list K)
| AMem (o : cop).

Definition arun c B (o : aop) : acache :=
  match o with
  | ASet k v => (Set_as c B k v).1
  | ASetWithTTL k v ttl => (SetWithTTL_as c B k v ttl).1
  | ASetWithOptions k v sc gd => (SetWithOptions_as c B k v sc gd).1
  | ADelete k => (asyncDelete B k).1
  | AGet k => (Get_as c B k).1
  | APeek k => (Peek_as c B k).1
  | AGetWithExpiry k => (GetWithExpiry_as c B k).1
  | ATTL k => (TTL_as c B k).1
  | AExpiry k => (Expiry_as c B k).1
  | ATags k => (Tags_as c B k).1
  | ATouch k => (Touch_as c B k).1
  | ATouchWithTTL k ttl => (TouchWithTTL_as c B k ttl).1
  | ADeleteIf k pred => (DeleteIf_as c B k pred).1
  | AGetOrLoad k cd al => (GetOrLoad_as c B k cd al).1
  | AInvalidate k r => (deleteWithReason c B k r).1
  | ASetIfAbsent k v => (SetIfAbsent_as c B k v).1
  | ASetIfPresent k v => (SetIfPresent_as c B k v).1
  | AGetOrSet k v => (GetOrSet_as c B k v).1
  | APeekOrAdd k v => (PeekOrAdd_as c B k v).1
  | AClear order => Clear_as c B order
  | AReset order => Reset_as c B order
  | ADeletePrefix order hp p => (DeletePrefix_as c B order hp p).1
  | ADeleteWhere order pred => (DeleteWhere_as c B order pred).1
  | AInvalidateTag order t => (InvalidateTag_as c B order t).1
  | AInvalidateTags order ts => (InvalidateTags_as c B order ts).1
  | AApply i order => (drainShard c B i order).1
  | AMem o => if background o then a_set B (run c (a_mem B) o) else B
  end.

Definition arun_all c B (os : list aop) : acache := foldl (arun c) B os.

(** The value a step may make visible. *)
Definition awrites (o : aop) : option (K * V) :=
  match o with
  | ASet k v | ASetWithTTL k v _ | ASetWithOptions k v _ _ | ASetIfAbsent k v | ASetIfPresent k v
  | AGetOrSet k v | APeekOrAdd k v => Some (k, v)
  | AMem o => op_writes o
  | _ => None
  end.

(** ** Queueing *)

Lemma enqueue_astep c B k o gd :
  ainv c B → op_ok o →
  let '(B', err) := enqueuePending B k o gd in
  ainv c B' ∧ (∀ k' v, avisible c B' k' v → avisible c B k' v ∨ (k' = k ∧ covers o v)) ∧
  (err = None → a_pending B' !! k = Some o ∧ a_mem B' = a_mem B).
Proof.
  intros HI Ho. unfold enqueuePending. rewrite (ai_closed _ _ HI). destruct gd; [|by split_and!; [..|left|]]. cbn [negb].
  pose proof HI as [I1 I2 I3 I4 I5]. split_and!.
  - constructor; cbn; [done..|by apply map_Forall_insert_2|]. destruct (a_pending B !! k) eqn:Hk.
    + rewrite map_size_insert_Some //.
    + rewrite map_size_insert_None // I5 i64_add. f_equal. lia.
  - intros k' v. unfold avisible. cbn. rewrite lookup_insert. case_decide; [subst; by right|by left].
  - intros _. cbn. by rewrite lookup_insert_eq.
Qed.

Lemma set_g_ainv c B g :
  ainv c B → mstep c None (a_mem B) (set_g (a_mem B) g) → astep c None B (a_set B (set_g (a_mem B) g)).
Proof. intros HI HM. by apply astep_mem. Qed.

Lemma effectiveTTL_mstep c C ttl : cache_wf c 0 C → mstep c None C (set_g C (effectiveTTL c (c_g C) ttl).2).
Proof.
  intros Hwf. destruct (effectiveTTL_frame c (c_g C) ttl) as [rt ->]. by apply mstep_cstep, set_g_cstep.
Qed.

(** A write that returned no error is queued. *)
Lemma asyncSet_astep c B k v ttl sl ts gd :
  ainv c B →
  let '(B', err) := asyncSet c B k v ttl sl ts gd in
  astep c (Some (k, v)) B B' ∧
  (err = None → ∃ w ettl, a_pending B' !! k = Some (PendingSet v w ettl ttl sl 0 ts)).
Proof.
  intros HI. unfold asyncSet. rewrite (ai_closed _ _ HI).
  assert (astep c (Some (k, v)) B B) as Hid by (constructor; [done|by left]).
  destruct (checkKeySize c k); [done|]. destruct (computeWeight c v) as [|w] eqn:Hw; [done|].
  destruct (checkTagLimits c _ ts); [done|]. apply computeWeight_ge in Hw.
  pose proof (effectiveTTL_mstep c (a_mem B) ttl (ai_wf _ _ HI)) as Hm.
  destruct (effectiveTTL c (c_g (a_mem B)) ttl) as [ettl g]. cbn in Hm.
  pose proof (astep_mem c None B _ HI Hm) as [J1 J2].
  pose proof (enqueue_astep c (a_set B (set_g (a_mem B) g)) k (PendingSet v w ettl ttl sl 0 ts) gd J1 Hw) as He.
  destruct (enqueuePending _ _ _ _) as [B' err]. destruct He as (E1 & E2 & E3). split.
  - constructor; [done|]. intros k' v' [Hv|[-> ->]]%E2; [|by right]. apply J2 in Hv. by destruct Hv; [left|].
  - intros ->. destruct (E3 eq_refl) as [-> _]. eauto.
Qed.

Lemma SetWithOptions_astep c B k v sc gd :
  ainv c B → astep c (Some (k, v)) B (SetWithOptions_as c B k v sc gd).1.
Proof.
  intros HI. unfold SetWithOptions_as. assert (astep c (Some (k, v)) B B) as Hid by (constructor; [done|by left]).
  destruct (prepareOptions _ _ _ _ _) as [e|[ts w]] eqn:Hp; [done|]. apply prepareOptions_ge in Hp.
  destruct (sc_expireAt sc) as [at_|].
  - unfold asyncSetWithExpiry. rewrite (ai_closed _ _ HI). destruct (checkKeySize c k); [done|]. destruct (checkTagLimits _ _ _); [done|].
    set (o := PendingSet _ _ _ _ _ _ _). pose proof (enqueue_astep c B k o gd HI Hp) as He.
    destruct (enqueuePending B k o gd) as [B' err]. destruct He as (E1 & E2 & _). constructor; [done|].
    intros k' v' [Hv|[-> ->]]%E2; [by left|by right].
  - set (sl := default (cf_slidingTTL c) _). set (ttl := default (cf_defaultTTL c) _).
    pose proof (asyncSet_astep c B k v ttl sl ts gd HI) as Hs. destruct (asyncSet _ _ _ _ _ _ _ _). apply Hs.
Qed.

Lemma asyncDelete_astep c B k :
  ainv c B →
  astep c None B (asyncDelete B k).1 ∧ (asyncDelete B k).2 = true ∧ a_pending (asyncDelete B k).1 !! k = Some PendingDelete.
Proof.
  intros HI. unfold asyncDelete. rewrite (ai_closed _ _ HI).
  pose proof (enqueue_astep c B k PendingDelete true HI I) as He. destruct (enqueuePending B k _ true) as [B1 err] eqn:E.
  unfold enqueuePending in E. rewrite (ai_closed _ _ HI) in E. cbn in E. injection E as <- <-. destruct He as (E1 & E2 & E3).
  destruct (E3 eq_refl) as [Hk _]. split_and!; [|done|done].
  refine (astep_trans c None None B _ _ _ (astep_mem c None _ _ E1 _) (or_introl eq_refl)).
  - constructor; [done|]. intros k' v [Hv|[_ []]]%E2. by left.
  - apply mstep_cstep, set_g_cstep; try done. apply E1.
Qed.

(** ** Reads *)

Lemma clock_astep c B : ainv c B → astep c None B (a_set B (needNow c (a_mem B) None).2).
Proof. intros HI. apply astep_mem; [done|]. by apply clock_mstep, HI. Qed.

(** What [Get] answers is visible. *)
Lemma Get_as_spec c B k :
  ainv c B →
  let '(B', r) := Get_as c B k in
  astep c None B B' ∧ ∀ v, r = Some v → ∃ v', avisible c B k v' ∧ v = returnValue c v'.
Proof.
  intros HI. unfold Get_as, a_open. rewrite (ai_closed _ _ HI). cbn [negb needNow clockNow].
  set (now := cf_clock c _). set (C := set_g (a_mem B) _).
  assert (vstep c 0 None (a_mem B) C) as Hv by apply clock_vstep, HI.
  assert (∀ C' v', vstep c 0 None (a_mem B) C' → avisible c B k v' →
    let '(B', r) := (let '(C2, r) := hitResult c C' k v' in (a_set B C2, r)) in
    astep c None B B' ∧ ∀ v, r = Some v → ∃ v', avisible c B k v' ∧ v = returnValue c v') as Hhit.
  { intros C' v' Hv' Hvis. pose proof (hitResult_vstep c 0 (a_mem B) C' k v' Hv') as Hh. unfold hitResult in *. cbn in *.
    split; [by apply astep_vmem|]. intros v [= <-]. eauto. }
  assert (∀ C', vstep c 0 None (a_mem B) C' →
    let '(B', r) := (let '(C2, r) := missResult c C' k in (a_set B C2, r)) in
    astep c None B B' ∧ ∀ v, r = Some v → ∃ v', avisible c B k v' ∧ v = returnValue c v') as Hmiss.
  { intros C' Hv'. pose proof (missResult_vstep c 0 (a_mem B) C' k Hv') as Hh. unfold missResult in *. cbn in *.
    split; [by apply astep_vmem|done]. }
  unfold asyncReadHit. destruct (a_pending B !! k) as [[v w ettl raw sl x ts|]|] eqn:Hk; [destruct (bool_decide (0 < x) && _)|..]; [by apply Hmiss| |by apply Hmiss|].
  - apply Hhit; [done|]. unfold avisible. by rewrite Hk.
  - set (G := if cf_lockFreeRead c then _ else _).
    assert (vstep c 0 None C G.1 ∧ found c C k now G.2) as [Hg Hf].
    { subst G. destruct (cf_lockFreeRead c) eqn:Hlf.
      - pose proof (snapshotGet_get c 0 C k now (vs_wf _ _ _ _ _ Hv) (Z.le_refl 0) Hlf). by destruct (snapshotGet c C k now).
      - pose proof (lockedGet_get c 0 C k (Some now) (vs_wf _ _ _ _ _ Hv) (Z.le_refl 0)). by destruct (lockedGet c C k (Some now)). }
    pose proof (vstep_trans _ _ _ _ _ _ _ Hv Hg (or_introl eq_refl)) as Ht. destruct G as [C2 [v| |]]; [|by apply Hmiss..].
    apply Hhit; [done|]. destruct Hf as (e & He & [Hn _] & <-). unfold avisible. rewrite Hk. by exists e.
Qed.

(** ** Methods that apply the queue first *)

Lemma afterPending_astep {R} c B k (f : Z → cache → cache * R) :
  ainv c B → (∀ now C, cache_wf c 0 C → mstep c None C (f now C).1) → astep c None B (afterPending c B k f).1.
Proof.
  intros HI Hf. unfold afterPending. pose proof (clock_astep c B HI) as Hc.
  destruct (needNow c (a_mem B) None) as [now C]. cbn in Hc.
  destruct (applyPendingKey_astep c _ k (as_inv _ _ _ _ Hc)) as [Ha _].
  set (B1 := applyPendingKey c _ k) in *. specialize (Hf now (a_mem B1) (ai_wf _ _ (as_inv _ _ _ _ Ha))).
  destruct (f now (a_mem B1)) as [C2 r]. cbn in Hf |- *. pose proof (astep_mem c None B1 C2 (as_inv _ _ _ _ Ha) Hf) as H2'.
  exact (astep_trans _ None None _ _ _ (astep_trans _ None None _ _ _ Hc Ha (or_introl eq_refl)) H2' (or_introl eq_refl)).
Qed.

Lemma sectionOf_mstep {R} c C k (body : globals K V A → shard K V P St T → globals K V A * shard K V P St T * R) d :
  cache_wf c 0 C →
  (∀ s m D, shard_wf (E := ∅) c s m D → let '(g', s', r) := body (c_g C) s in
     ∃ X m', ok_step (E := ∅) c X (c_g C) s m g' s' m' ∧ shows X None k s) →
  mstep c None C (sectionOf c C k body d).1.
Proof.
  intros Hwf Hb. unfold sectionOf.
  pose proof (conditional_vstep c 0 C k body d (λ _, None) Hwf (Z.le_refl 0) Hb) as HL.
  destruct (locked C _ body d) as [C' r]. by apply mstep_vstep.
Qed.

Lemma drain_fold c order (idxs : list nat) B (n : Z) :
  ainv c B →
  let '(B', n') := foldl (λ '(B, n) i, let '(B, k) := drainShard c B i order in (B, n + k)) (B, n) idxs in
  astep c None B B' ∧ a_pending B' = filter (λ ko, shardFor c ko.1 ∉ idxs) (a_pending B) ∧
  n' = n + Z.of_nat (size (a_pending B)) - Z.of_nat (size (a_pending B')).
Proof.
  revert B n. induction idxs as [|i idxs IH]; intros B n HI; cbn [foldl].
  { split_and!; [by apply astep_refl| |lia]. symmetry. apply map_filter_id. set_solver. }
  pose proof (drainShard_astep c B i order HI) as Hd. destruct (drainShard c B i order) as [B1 n1].
  destruct Hd as (D1 & D2 & D3). specialize (IH B1 (n + n1) (as_inv _ _ _ _ D1)). destruct (foldl _ (B1, n + n1) idxs) as [B2 n2].
  destruct IH as (J1 & J2 & J3). split_and!.
  - exact (astep_trans _ None None _ _ _ D1 J1 (or_introl eq_refl)).
  - rewrite J2 D2 map_filter_filter. apply map_filter_ext. intros k o _. cbn. rewrite not_elem_of_cons. tauto.
  - rewrite J3 D2 D3. pose proof (size_filter_split (λ ko : K * pendingOp V, shardFor c ko.1 = i) (a_pending B)) as Hs. lia.
Qed.

Lemma drainAll_astep c B order :
  ainv c B →
  let '(B', n) := drainAllShards c B order in
  astep c None B B' ∧ a_pending B' = ∅ ∧ n = Z.of_nat (size (a_pending B)).
Proof.
  intros HI. unfold drainAllShards. pose proof (drain_fold c order (seq 0 (length (c_shards (a_mem B)))) B 0 HI) as Hd.
  destruct (foldl _ _ _) as [B' n]. destruct Hd as (D1 & D2 & D3).
  assert (a_pending B' = ∅) as E.
  { rewrite D2. apply map_empty. intros k. apply map_lookup_filter_None. right. intros o _ Hn. apply Hn. cbn.
    apply elem_of_seq. destruct (ai_wf _ _ HI) as [ms Hc]. pose proof (home_lt _ _ _ _ k Hc). lia. }
  split_and!; [done|done|]. rewrite D3 E map_size_empty. lia.
Qed.

Lemma afterAll_astep {R} c B order (f : cache → cache * R) :
  ainv c B → (∀ C, cache_wf c 0 C → mstep c None C (f C).1) → astep c None B (afterAll c B order f).1.
Proof.
  intros HI Hf. unfold afterAll, applyAllPending. pose proof (drainAll_astep c B order HI) as Ha.
  destruct (drainAllShards c B order) as [B1 n]. destruct Ha as [Ha _]. cbn.
  specialize (Hf (a_mem B1) (ai_wf _ _ (as_inv _ _ _ _ Ha))). destruct (f (a_mem B1)) as [C r]. cbn in Hf |- *.
  exact (astep_trans _ None None _ _ _ Ha (astep_mem c None B1 C (as_inv _ _ _ _ Ha) Hf) (or_introl eq_refl)).
Qed.

Lemma conditional_astep {R} c B k v (body : Z → globals K V A → shard K V P St T → globals K V A * shard K V P St T * R) d
    (wrote : R → bool) :
  ainv c B → (∀ w, 1 <= w → writes_of c k (body w) (λ r, wroteIf (wrote r) k v)) →
  astep c (Some (k, v)) B (conditional_as c B k v body d).1.
Proof.
  intros HI Hb. unfold conditional_as. destruct (checkWrite c (a_mem B) k v) as [e|w] eqn:Hw; [constructor; [done|by left]|].
  pose proof (pendingSection_astep c B k (body w) d _ HI (Hb w (checkWrite_ge _ _ _ _ _ Hw))) as Hs.
  destruct (pendingSection c B k _ _) as [B' r]. destruct Hs as [[S1 S2] _]. constructor; [done|].
  cbn. intros k' v' [?|E]%S2; [by left|]. right. unfold wroteIf in E. by destruct (wrote r).
Qed.

Lemma arun_astep c B o :
  ainv c B → cf_negativeTTL c <= 0 → ∃ W, astep c W B (arun c B o) ∧ (W = None ∨ W = awrites o).
Proof.
  intros HI Hneg. assert (∀ B', astep c None B B' → ∃ W, astep c W B B' ∧ (W = None ∨ W = awrites o)) as Hnone by eauto.
  assert (a_open B = true) as Hop by (unfold a_open; by rewrite (ai_closed _ _ HI)).
  assert (∀ R (f : Z → cache → cache * R) k, (∀ now C, cache_wf c 0 C → mstep c None C (f now C).1) →
    ∃ W, astep c W B (afterPending c B k f).1 ∧ (W = None ∨ W = awrites o)) as Hafter by (intros; by apply Hnone, afterPending_astep).
  assert (∀ R (f : cache → cache * R) order, (∀ C, cache_wf c 0 C → vstep c 0 None C (f C).1) →
    ∃ W, astep c W B (afterAll c B order f).1 ∧ (W = None ∨ W = awrites o)) as Hall.
  { intros. apply Hnone, afterAll_astep; [done|]. intros. by apply mstep_vstep; auto. }
  assert (∀ k v ttl, ∃ W, astep c W B (setTTLCtx_as c B k v ttl).1 ∧ (W = None ∨ W = Some (k, v))) as Hset.
  { intros k v ttl. exists (Some (k, v)). split; [|by right]. unfold setTTLCtx_as.
    pose proof (asyncSet_astep c B k v ttl (cf_slidingTTL c) (cf_autoTags c v) true HI). destruct (asyncSet _ _ _ _ _ _ _ _); naive_solver. }
  destruct o as [k v|k v ttl|k v sc gd|k|k|k|k|k|k|k|k|k ttl|k pred|k cd al|k r|k v|k v|k v|k v|order|order|order hp p|order pred
    |order t|order ts|i order|o]; cbn [arun awrites].
  - apply Hset.
  - unfold SetWithTTL_as. case_bool_decide; [by apply Hnone, astep_refl|apply Hset].
  - exists (Some (k, v)). split; [by apply SetWithOptions_astep|by right].
  - by apply Hnone, asyncDelete_astep.
  - apply Hnone. pose proof (Get_as_spec c B k HI). destruct (Get_as c B k); naive_solver.
  - apply Hnone. unfold Peek_as. rewrite Hop. by apply clock_astep.
  - unfold GetWithExpiry_as. rewrite Hop. apply Hafter. intros now C Hwf. apply sectionOf_mstep; [done|]. intros s m D Hw.
    pose proof (getWithExpiry_ok c (c_g C) s m D k now Hw). destruct (getWithExpiryLocked _ _ _ _ _) as [[g' s'] r]. naive_solver.
  - unfold TTL_as. rewrite Hop. apply Hafter. intros. by apply mstep_refl.
  - unfold Expiry_as. rewrite Hop. apply Hafter. intros. by apply mstep_refl.
  - apply Hnone. unfold Tags_as. rewrite Hop. by apply applyPendingKey_astep.
  - unfold Touch_as, touchKey_as. rewrite Hop. apply Hafter. intros now C Hwf. apply sectionOf_mstep; [done|].
    intros s m D Hw. by apply (touchKey_shows c _ s m D).
  - unfold TouchWithTTL_as, touchKey_as. rewrite Hop. cbn [negb orb]. case_bool_decide; [by apply Hnone, astep_refl|].
    apply Hafter. intros now C Hwf. apply sectionOf_mstep; [done|]. intros s m D Hw. by apply (touchKey_shows c _ s m D).
  - unfold DeleteIf_as. rewrite Hop. apply Hafter. intros now C Hwf. apply sectionOf_mstep; [done|].
    intros s m D Hw. by apply (deleteIf_shows c _ s m D).
  - apply Hnone. unfold GetOrLoad_as. rewrite Hop. destruct (cf_loader c), cd; try by apply astep_refl. cbn [negb].
    destruct (applyPendingKey_astep c B k HI) as [Ha _]. set (B1 := applyPendingKey c B k) in *.
    pose proof (loadOrJoin_vstep c 0 (a_mem B1) k al (ai_wf _ _ (as_inv _ _ _ _ Ha)) (Z.le_refl 0)) as Hl.
    destruct (loadOrJoin c (a_mem B1) k al) as [C r]. destruct Hl as [Hl _]. cbn.
    exact (astep_trans _ None None _ _ _ Ha (astep_vmem c None B1 C (as_inv _ _ _ _ Ha) Hl) (or_introl eq_refl)).
  - apply Hnone. unfold deleteWithReason. rewrite Hop. cbn [negb].
    pose proof (pendingSection_astep c B k (λ g s, removeKeyLocked c g s k r) false (λ _, None) HI) as Hs.
    destruct (pendingSection c B k _ _) as [B1 b1]. apply Hs. intros g s m D Hw _.
    pose proof (removeKey_ok c g s m D k r Hw) as Hr. destruct (removeKeyLocked _ _ _ _ _) as [[g2 s2] b2]. destruct Hr as [Hok _].
    by exists None, (delete k m).
  - exists (Some (k, v)). split; [|by right]. apply (conditional_astep _ _ _ _ _ _ id); [done|].
    intros w Hw g s m D Hsw Hsl. by apply (setIfAbsent_shows c g s m D).
  - exists (Some (k, v)). split; [|by right]. apply (conditional_astep _ _ _ _ _ _ id); [done|].
    intros w Hw g s m D Hsw Hsl. by apply (setIfPresent_shows c g s m D).
  - exists (Some (k, v)). split; [|by right]. apply (conditional_astep _ _ _ _ _ _ (λ r, negb r.2)); [done|].
    intros w Hw g s m D Hsw Hsl. by apply (getOrSet_shows c g s m D).
  - exists (Some (k, v)). split; [|by right]. apply (conditional_astep _ _ _ _ _ _ (λ r, negb r.2)); [done|].
    intros w Hw g s m D Hsw Hsl. by apply (peekOrAdd_shows c g s m D).
  - unfold Clear_as. rewrite Hop. apply Hall. intros. by apply Clear_vstep.
  - unfold Reset_as. apply Hall. intros. by apply Reset_vstep.
  - unfold DeletePrefix_as. rewrite Hop. apply Hall. intros. by apply DeletePrefix_vstep.
  - unfold DeleteWhere_as. destruct pred; [|by apply Hnone, astep_refl]. rewrite Hop. apply Hall. intros. by apply DeleteWhere_vstep.
  - unfold InvalidateTag_as. rewrite Hop. apply Hall. intros. by apply InvalidateTag_vstep.
  - unfold InvalidateTags_as. rewrite Hop. cbn [negb orb]. case_bool_decide; [by apply Hnone, astep_refl|].
    apply Hall. intros. by apply InvalidateTags_vstep.
  - apply Hnone. pose proof (drainShard_astep c B i order HI). destruct (drainShard c B i order); naive_solver.
  - destruct (background o); [|by apply Hnone, astep_refl].
    destruct (run_mstep c (a_mem B) o (ai_wf _ _ HI) (ai_sealed _ _ HI) Hneg) as (W & HM & HW). exists W.
    split; [by apply astep_mem|done].
Qed.

(** ** Runs *)

(** No step of [os] writes [k]. *)
Definition aspares k (os : list aop) : Prop := ∀ o v, o ∈ os → awrites o ≠ Some (k, v).

(** The states a cache with queued writes gets into. *)
Definition areached c B : Prop := ∃ C os, live c C ∧ B = arun_all c (newAsyncWrites C) os.

Lemma arun_all_spec c B os :
  ainv c B → cf_negativeTTL c <= 0 →
  ainv c (arun_all c B os) ∧
  ∀ k v, avisible c (arun_all c B os) k v → avisible c B k v ∨ ∃ o, o ∈ os ∧ awrites o = Some (k, v).
Proof.
  intros HI Hneg. revert B HI. induction os as [|o os IH]; intros B HI; cbn; [by split; [|left]|].
  destruct (arun_astep c B o HI Hneg) as (W & [S1 S2] & HW). destruct (IH _ S1) as [J1 J2]. split; [done|].
  intros k v [Hv|(o' & Hin & Ho)]%J2; [|right; exists o'; set_solver]. apply S2 in Hv as [?|E]; [by left|right].
  exists o. split; [set_solver|]. by destruct HW as [-> | <-].
Qed.

Lemma areached_ainv c B : cf_negativeTTL c <= 0 → areached c B → ainv c B.
Proof.
  intros Hneg (C & os & [L1 L2 L3 L4] & ->). apply arun_all_spec; [|done]. by constructor.
Qed.

Lemma spared c B os k v :
  ainv c B → cf_negativeTTL c <= 0 → aspares k os → avisible c (arun_all c B os) k v → avisible c B k v.
Proof. intros HI Hneg Hs Hv. apply arun_all_spec in Hv as [?|(o & Ho & E)]; [done| |done..]. by apply Hs in E. Qed.

Lemma Get_as_pending c B k v w ettl raw sl ts :
  ainv c B → a_pending B !! k = Some (PendingSet v w ettl raw sl 0 ts) → (Get_as c B k).2 = Some (returnValue c v).
Proof. intros HI Hk. unfold Get_as, a_open, asyncReadHit. rewrite (ai_closed _ _ HI) Hk. done. Qed.

(** C12: with queued writes, and without negative caching and Store, a [Set]
    that returned no error is read back at once, and later, whatever has been
    applied, expired or evicted in the meantime and in whichever order, [Get]
    returns that value or nothing until the key is written again. *)
Theorem async_read_your_writes c B k v os :
  cf_negativeTTL c <= 0 → areached c B → (Set_as c B k v).2 = None → aspares k os →
  (Get_as c (Set_as c B k v).1 k).2 = Some (returnValue c v) ∧
  ∀ r, (Get_as c (arun_all c (Set_as c B k v).1 os) k).2 = Some r → r = returnValue c v.
Proof.
  intros Hneg HB Hset Hos. apply areached_ainv in HB; [|done]. revert Hset. unfold Set_as, setTTLCtx_as.
  pose proof (asyncSet_astep c B k v (cf_valueTTL c v (cf_defaultTTL c)) (cf_slidingTTL c) (cf_autoTags c v) true HB) as Hs.
  destruct (asyncSet _ _ _ _ _ _ _ _) as [B1 err]. cbn [fst snd]. intros ->. destruct Hs as [[S1 _] Hk].
  destruct (Hk eq_refl) as (w & ettl & Hp). split; [by eapply Get_as_pending|]. intros r Hr.
  pose proof (Get_as_spec c _ k (proj1 (arun_all_spec c B1 os S1 Hneg))) as Hg. destruct (Get_as c _ k) as [B2 r']. cbn in Hr. subst r'.
  destruct Hg as [_ Hg]. destruct (Hg r eq_refl) as (v' & Hv & ->). apply spared in Hv; [|done..].
  unfold avisible in Hv. rewrite Hp in Hv. by destruct Hv.
Qed.


(** C14: without negative caching and Store, the backlog that [Sync] waits for
    is the number of queued operations, and applying the queue, in any order,
    empties it, applies each of them and shows readers nothing they did not
    see before. *)
Theorem async_drained c B order :
  cf_negativeTTL c <= 0 → areached c B →
  let '(B', n) := drainAllShards c B order in
  asyncBacklog B = i64 (Z.of_nat (size (a_pending B))) ∧ n = Z.of_nat (size (a_pending B)) ∧
  a_pending B' = ∅ ∧ asyncBacklog B' = 0 ∧ cache_wf c 0 (a_mem B') ∧
  ∀ k v, avisible c B' k v → avisible c B k v.
Proof.
  intros Hneg HB. apply areached_ainv in HB; [|done]. pose proof (drainAll_astep c B order HB) as Hd.
  destruct (drainAllShards c B order) as [B' n]. destruct Hd as ([[J1 J2 J3 J4 J5] D1] & D2 & D3). split_and!; [apply HB|done|done| |done|].
  - unfold asyncBacklog. rewrite J5 D2 map_size_empty. done.
  - intros k v [?|?]%D1; done.
Qed.

(** ** Queueing is writing later *)

Lemma pendingOf_single c k (o : pendingOp V) order : pendingOf c {[k := o]} (shardFor c k) order = [(k, o)].
Proof.
  assert (∀ x, x ∈ pendingOf c {[k := o]} (shardFor c k) order ↔ x ∈ [(k, o)]) as Hin.
  { intros [k' o']. rewrite elem_of_pendingOf lookup_singleton_Some. set_solver. }
  pose proof (NoDup_fmap_1 fst _ (NoDup_pendingOf c {[k := o]} (shardFor c k) order)) as Hnd.
  apply Permutation_singleton_r, NoDup_Permutation; [done|apply NoDup_singleton|done].
Qed.

(** C15: without negative caching and Store, a [SetWithTTL] queued while the
    queue is empty and applied before anything else happens leaves the cache
    in the state of the synchronous [SetWithTTL], and both refuse the same
    writes. *)
Theorem async_set_equiv c B k v ttl order :
  cf_negativeTTL c <= 0 → areached c B → a_pending B = ∅ →
  let '(B', err) := SetWithTTL_as c B k v ttl in
  err = WriteRefused <$> (SetWithTTL c (a_mem B) k v ttl).2 ∧
  (err = None → a_mem (drainShard c B' (shardFor c k) order).1 = (SetWithTTL c (a_mem B) k v ttl).1).
Proof.
  intros Hneg HB HE. pose proof (areached_ainv c B Hneg HB) as HI. unfold SetWithTTL_as, SetWithTTL. case_bool_decide; [done|].
  unfold setTTLCtx_as, asyncSet, setTTLCtx, setAndStore, setLockedInto. rewrite (ai_closed _ _ HI).
  destruct (checkKeySize c k); [done|]. destruct (computeWeight c v) as [|w]; [done|].
  destruct (checkTagLimits c _ _); [done|]. destruct (effectiveTTL c (c_g (a_mem B)) ttl) as [ettl g] eqn:He.
  unfold enqueuePending. assert (g_closed g = false) as Hg.
  { destruct (effectiveTTL_frame c (c_g (a_mem B)) ttl) as [rt Hrt]. rewrite He in Hrt. cbn in Hrt. subst g. apply HI. }
  cbn [a_mem a_set c_g set_g a_pending]. rewrite Hg HE. cbn [negb]. split; [done|]. intros _.
  unfold drainShard. cbn [a_pending]. rewrite insert_empty pendingOf_single. cbn -[flushAndUnlock enforceGroupBudgets locked_ effectiveTTL].
  f_equal. f_equal. unfold locked_, locked. cbn [c_shards set_g c_g]. destruct (c_shards (a_mem B) !! shardFor c k) as [s|] eqn:Hs.
  - rewrite He. cbn. by destruct (upsertLocked _ _ _ _ _ _ _ _ _ _).
  - exfalso. destruct (ai_wf _ _ HI) as [ms HC]. pose proof (home_lt _ _ _ _ k HC). apply lookup_ge_None in Hs. lia.
Qed.
End props.

(** ** Witnesses *)

(** Two entries at most; key 1 has been written, applied and written again. *)
Definition asynced : acache Z Z (lruPolicy (K := Z)) (mapStore Z) expiryHeapBackend AdmitAlways :=
  newAsyncWrites (znew plain 2).
Definition queued : list (aop (K := Z) (V := Z)) := [ASet 1 10; AApply 1 []; ASet 1 11; ASet 3 30].

Lemma z_areached os : areached plain (arun_all plain asynced os).
Proof. exists (znew plain 2), os. split; [exact (z_live 2 [] eq_refl)|done]. Qed.

Lemma async_read_your_writes_witness :
  let B := arun_all plain asynced queued in
  (Get_as plain (Set_as plain B 1 12).1 1).2 = Some 12 ∧
  (Get_as plain (arun_all plain (Set_as plain B 1 12).1 [AApply 1 [3; 1]; AGet 3]) 1).2 = Some 12 ∧
  ∀ r, (Get_as plain (arun_all plain (Set_as plain B 1 12).1 [AApply 1 [3; 1]; AGet 3]) 1).2 = Some r → r = 12.
Proof.
  cbv zeta. assert (aspares 1 [AApply 1 [3; 1]; AGet 3 : aop (K := Z) (V := Z)]) as Hs.
  { intros o v [->|[->|[]%not_elem_of_nil]%elem_of_cons]%elem_of_cons; done. }
  assert ((Set_as plain (arun_all plain asynced queued) 1 12).2 = None) as He by (vm_compute; done).
  destruct (async_read_your_writes plain (arun_all plain asynced queued) 1 12 _ ltac:(done) (z_areached queued) He Hs) as [H1 H2].
  split; [exact H1|]. split; [vm_compute; done|exact H2].
Defined.


Lemma async_drained_witness :
  let B := arun_all plain asynced queued in
  asyncBacklog B = 2 ∧ asyncBacklog (drainAllShards plain B []).1 = 0.
Proof.
  cbv zeta. split; [vm_compute; done|].
  pose proof (async_drained plain (arun_all plain asynced queued) [] ltac:(done) (z_areached queued)) as Hd.
  destruct (drainAllShards plain (arun_all plain asynced queued) []) as [B' n]. exact (proj1 (proj2 (proj2 (proj2 Hd)))).
Defined.

Lemma async_set_equiv_witness :
  let B := arun_all plain asynced [ASet 1 10; AApply 1 []] in
  a_mem (drainShard plain (SetWithTTL_as plain B 1 12 50).1 (shardFor plain 1) []).1 = (SetWithTTL plain (a_mem B) 1 12 50).1.
Proof.
  cbv zeta. set (B := arun_all plain asynced [ASet 1 10; AApply 1 []]).
  assert (a_pending B = ∅) as HE by (vm_compute; done).
  assert ((SetWithTTL_as plain B 1 12 50).2 = None) as He by (vm_compute; done).
  pose proof (async_set_equiv plain B 1 12 50 [] ltac:(done) (z_areached _) HE) as Hq.
  destruct (SetWithTTL_as plain B 1 12 50) as [B' err]. exact (proj2 Hq He).
Defined.
