(* ===== verification/ComputeProps.v ===== *)
(** * ComputeProps: what [Compute] does

    [Compute] in a cache without a Store, branch by branch, against a
    specification on the value of the key. *)

From S2P Require Import Prelude Policy Lru Storage Ttl Heap Entry Tags Flights Shard Admission ShardInv ShardOps ShardBulk.
From S2P Require Import Store Cache Bulk Loads Run StoreCache Compute CacheInv CacheOps CacheReads CacheRun RunInv CacheKeep CacheNew CacheLoads.
From S2P Require Import StoreInv StoreSteps StoreOps Concrete StoreProps CacheProps.

#[local] Open Scope Z_scope.

Section computeprops.
Context {K V P St T A B : Type} `{Countable K, Inhabited K, Inhabited V}.
Context `{EvictionPolicy K P, ShardStore K St, TtlBackend T, AdmissionPolicy K A}.
Context `{!PolicyLaws K P, !StoreLaws K St, !TtlLaws T}.
Context `{BackingLaws K V B}.

Local Abbreviation shard_wf := (shard_wf (E := ∅)).
Local Abbreviation ok_step := (ok_step (E := ∅)).
Local Abbreviation entry := (entry K V).
Local Abbreviation config := (config K V).
Local Abbreviation globals := (globals K V A).
Local Abbreviation shard := (shard K V P St T).
Local Abbreviation cache := (cache K V P St T A).
Local Abbreviation world := (world K V P St T A B).
Implicit Types (c : config) (C : cache) (g : globals) (s : shard) (e : entry) (w : world) (b : B) (m : gmap K loc)
  (k : K) (v : V) (x : loc) (X : option (K * entry)) (W : option (K * V)) (val : K → option V).

(** ** One key, exactly *)

Lemma shard_get_put c C k s g' s' k' :
  c_shards C !! shardFor c k = Some s →
  shard_get c (Cache g' (<[shardFor c k := s']> (c_shards C))) k' =
  if decide (shardFor c k' = shardFor c k) then sh_lookup s' k' else shard_get c C k'.
Proof.
  intros Hs. unfold shard_get. cbn. case_decide as Hi.
  - rewrite Hi list_lookup_insert_eq; [|by eapply lookup_lt_Some]. done.
  - by rewrite list_lookup_insert_ne.
Qed.

Lemma replace_exact c g s m D k a e v wt :
  shard_wf c s m D → m !! k = Some a → sh_heap s !! a = Some e →
  let '(g', s') := replaceValueLocked c g s a e v wt in
  (∃ now, sh_lookup s' k = Some (entry_replace e v wt now)) ∧ (∀ k', k' ≠ k → sh_lookup s' k' = sh_lookup s k') ∧
  g_entries g' = g_entries g ∧ g_bytes g' = g_bytes g + (wt - e_weight e) ∧
  g_maxEntries g' = g_maxEntries g ∧ g_maxBytes g' = g_maxBytes g.
Proof.
  intros Hw Hk He. unfold replaceValueLocked. cbn.
  set (s1 := sh_set_policy _ _). assert (∃ now, sh_lookup s1 k = Some (entry_replace e v wt now)) as Hl1.
  { unfold sh_lookup. cbn. rewrite (wf_get _ _ _ _ _ Hw) Hk. cbn. rewrite lookup_insert_eq. by eexists. }
  assert (∀ k', k' ≠ k → sh_lookup s1 k' = sh_lookup s k') as Hl2.
  { intros k' Hne. unfold sh_lookup. cbn. rewrite (wf_get _ _ _ _ _ Hw). destruct (m !! k') as [a'|] eqn:Hk'; [|done].
    cbn. rewrite lookup_insert_ne //. intros <-. apply Hne. by eapply (wf_inj c s m D). }
  unfold stat. destruct (cf_events c), (cf_statsEnabled c); cbn; (split_and!; [done|done|lia|lia|done|done]).
Qed.

Lemma remove_exact c g s m D k a r k' :
  shard_wf c s m D → m !! k = Some a →
  sh_lookup (removeLocked c g s a r).2 k' = if decide (k' = k) then None else sh_lookup s k'.
Proof.
  intros Hw Hk. destruct (removeLocked_wf c g s m D k a r Hw Hk) as [Hw' Hh]. by eapply lookup_after_delete.
Qed.

(** Within the bounds the unlock changes no entry. *)
Lemma settle_get c w k k' :
  overBudget (c_g (w_mem w)) = false → shard_get c (w_mem (settle c w k)) k' = shard_get c (w_mem w) k'.
Proof. apply flush_get. Qed.

(** ** The specification *)

(** What became of the key. *)
Inductive fate := Kept | Removed | Stored (v : V).

(** The result and the fate of a key whose value is [cur], from what the
    function returned. *)
Definition compute_spec c (cur : option V) (r : Z + V * ComputeAction) : V * option cerr * fate :=
  match r with
  | inl code => (inhabitant, Some (FnErr code), Kept)
  | inr (v, ComputeStore) =>
      match computeWeight c v with
      | inl err => (inhabitant, Some (CacheErr err), Kept)
      | inr _ => (v, None, Stored v)
      end
  | inr (_, ComputeDelete) => (inhabitant, None, match cur with Some _ => Removed | None => Kept end)
  | inr (_, ComputeNoOp) => (default inhabitant cur, None, Kept)
  | inr (_, ComputeOther n) => (inhabitant, Some (ErrUnknownComputeAction n), Kept)
  end.

(** [v] replaced the value of [e], and nothing else of it but the weight and
    the access data. *)
Definition replaced c e v e' : Prop :=
  e_key e' = e_key e ∧ e_value e' = Some v ∧ computeWeight c v = inr (e_weight e') ∧
  e_expireAt e' = e_expireAt e ∧ e_flags e' = e_flags e ∧ e_slidingTTL e' = e_slidingTTL e ∧ e_tags e' = e_tags e.

(** The expiry of a write with the default TTL, at the clock of [g]. *)
Definition defaultExpiry c g : Z :=
  let ettl := (effectiveTTL c g (cf_defaultTTL c)).1 in
  if bool_decide (0 < ettl) then i64 (cf_clock c (g_tick g) + ettl) else 0.

(** What [v] is stored as.  The entry the function saw is changed in place.  A
    key without one gets an entry without tags, with the default TTL from the
    time of the write; an expired entry or a tombstone is overwritten, unless
    the second look at it, just before the write, finds it fresh. *)
Definition stored_as c C k (cur : option entry) v wt e' : Prop :=
  match cur with
  | Some e => replaced c e v e'
  | None =>
      (∃ g, env_of (c_g C) g ∧ (shard_get c C k = None → g = c_g C) ∧
         written k v wt (defaultExpiry c g) (cf_slidingTTL c) [] e') ∨
      (∃ e, shard_get c C k = Some e ∧ replaced c e v e')
  end.

(** The bounds have room for the value and, for a new key, the admission
    policy takes it. *)
Definition fits c C k (cur : option entry) wt : Prop :=
  match cur with
  | Some e => g_maxBytes (c_g C) <= 0 ∨ g_bytes (c_g C) - e_weight e + wt <= g_maxBytes (c_g C)
  | None => admitted c C k ∧ room c C k wt
  end.

Definition fate_ok c C C' k (cur : option entry) (f : fate) : Prop :=
  match f with
  | Kept => ∀ k', shard_get c C' k' = shard_get c C k'
  | Removed => shard_get c C' k = None ∧ ∀ k', k' ≠ k → shard_get c C' k' = shard_get c C k'
  | Stored v => ∀ wt, computeWeight c v = inr wt →
      overBudget (c_g C') = false ∧
      (∀ e', shard_get c C' k = Some e' → stored_as c C k cur v wt e') ∧
      (∀ k' e', k' ≠ k → shard_get c C' k' = Some e' → shard_get c C k' = Some e') ∧
      (fits c C k cur wt → is_Some (shard_get c C' k) ∧ ∀ k', k' ≠ k → shard_get c C' k' = shard_get c C k') ∧
      (shard_get c C k = None → Admit (g_admission (c_g C)) k = false → ∀ k', shard_get c C' k' = shard_get c C k')
  end.

Lemma fresh_exact c g s m D k :
  shard_wf c s m D →
  let '(g', o) := freshEntryLocked c g s k in
  env_of g g' ∧ snd <$> o = freshAt c (cf_clock c (g_tick g)) (sh_lookup s k) ∧ (sh_lookup s k = None → g' = g) ∧
  ∀ ae, o = Some ae → m !! k = Some ae.1 ∧ sh_heap s !! ae.1 = Some ae.2.
Proof.
  intros Hw. unfold freshEntryLocked, sh_lookup. rewrite (wf_get _ _ _ _ _ Hw).
  destruct (m !! k) as [a|] eqn:Hk; cbn; [|split_and!; [apply env_refl|done|done|done]].
  destruct (wf_entry _ _ _ _ Hw _ _ Hk) as (e & He & _). rewrite He. cbn. destruct (e_has e flagNegative).
  { rewrite orb_true_r. split_and!; [apply env_refl|done|done|done]. }
  rewrite orb_false_r. destruct (entryExpiredLocked c e _); cbn; (split_and!; [apply (env_clock c g)|done|done|]); [done|].
  by intros ae [= <-].
Qed.

Lemma env_over g g1 : env_of g g1 → overBudget g1 = overBudget g.
Proof. by intros (t & rt & l & ->). Qed.

Lemma over_within g g' :
  overBudget g = false → g_maxEntries g' = g_maxEntries g → g_maxBytes g' = g_maxBytes g → g_entries g' <= g_entries g →
  g_maxBytes g <= 0 ∨ g_bytes g' <= Z.max (g_bytes g) (g_maxBytes g) → overBudget g' = false.
Proof.
  unfold overBudget. intros [O1 O2]%orb_false_iff -> -> Hn Hb. apply orb_false_iff. revert O1 O2.
  rewrite !andb_false_iff !bool_decide_eq_false. lia.
Qed.

Lemma storeless_good c C : cache_wf c 0 C → g_sealed (c_g C) = false → good c ∅ (newWorld (B := B) C None).
Proof. intros Hwf Hsl. constructor; [done|done| |done|done|done]. intros k v _. by rewrite lookup_empty. Qed.

(** The world after [currentLocked], with the shard of [k]. *)
Record at_key c C w k s m D : Prop := AtKey {
  ak_good : good c ∅ w;
  ak_mem : w_mem w = set_g C (c_g (w_mem w));
  ak_env : env_of (c_g C) (c_g (w_mem w));
  ak_store : w_store w = None;
  ak_shard : c_shards C !! shardFor c k = Some s;
  ak_wf : shard_wf c s m D;
  ak_over : overBudget (c_g C) = false;
  ak_cache : cache_wf c 0 C;
  ak_sealed : g_sealed (c_g C) = false;
  ak_absent : shard_get c C k = None → c_g (w_mem w) = c_g C
}.

Lemma ak_shard' c C w k s m D : at_key c C w k s m D → c_shards (w_mem w) !! shardFor c k = Some s.
Proof. intros [_ E _ _ Hs _ _ _ _ _]. by rewrite E. Qed.

Lemma kept_ok c C w k s m D k' : at_key c C w k s m D → shard_get c (w_mem (settle c w k)) k' = shard_get c C k'.
Proof. intros [_ E He _ _ _ Ho _ _ _]. rewrite settle_get; [|by rewrite (env_over _ _ He)]. by rewrite E. Qed.

Lemma removed_ok c C w k s m D a e sm :
  at_key c C w k s m D → m !! k = Some a →
  let w' := settle c (deleteCurrent c w sm k (Some (a, e))).1 k in
  shard_get c (w_mem w') k = None ∧ ∀ k', k' ≠ k → shard_get c (w_mem w') k' = shard_get c C k'.
Proof.
  intros Hak Hk w'. pose proof Hak as [Hg E He Hst Hs Hw Ho _ _ _].
  assert (∀ k', shard_get c (w_mem w') k' = if decide (k' = k) then None else shard_get c C k') as Hget.
  2:{ split; [by rewrite Hget decide_True|]. intros k' Hne. by rewrite Hget decide_False. }
  subst w'. unfold deleteCurrent, lockedW. rewrite (locked_once _ _ s); [|by eapply ak_shard'].
  pose proof (λ k', remove_exact c (c_g (w_mem w)) s m D k a EvictReasonComputed k' Hw Hk) as Hr.
  destruct (wf_entry _ _ _ _ Hw _ _ Hk) as (e0 & He0 & _ & Hwt & _).
  pose proof (removeLocked_globals c (c_g (w_mem w)) s a EvictReasonComputed e0 He0) as (G1 & G2 & (G3 & G4 & _) & _).
  destruct (removeLocked _ _ _ _ _) as [g' s']. cbn [fst snd] in *. intros k'.
  rewrite settle_get; cbn [w_mem set_mem c_g].
  - rewrite (shard_get_put c (w_mem w) k s); [|by eapply ak_shard']. rewrite Hr E. case_decide as Hi.
    + rewrite (shard_get_lookup c C k' s); [done|by rewrite Hi].
    + rewrite decide_False; [done|]. congruence.
  - rewrite -(env_over _ _ He) in Ho. apply (over_within _ _ Ho); [done|done|lia|lia].
Qed.

(** A put on the shard of [k]: every other key of it keeps what [s] has. *)
Lemma put_others c C w k s m D g' s' k' :
  at_key c C w k s m D → (∀ k', k' ≠ k → sh_lookup s' k' = sh_lookup s k') → k' ≠ k →
  shard_get c (Cache g' (<[shardFor c k := s']> (c_shards (w_mem w)))) k' = shard_get c C k'.
Proof.
  intros Hak Ho Hne. pose proof Hak as [_ E _ _ Hs _ _ _ _ _]. rewrite (shard_get_put c (w_mem w) k s); [|by eapply ak_shard'].
  case_decide as Hi; [|by rewrite E]. rewrite Ho // (shard_get_lookup c C k' s) //. by rewrite Hi.
Qed.

(** The cache after the locked part of a store. *)
Definition stageOf c w k s (o : option (loc * entry)) v wt : cache :=
  let '(g', s') := replaceOrStoreLocked c (c_g (w_mem w)) s o k v wt in Cache g' (<[shardFor c k := s']> (c_shards (w_mem w))).

Lemma storeCurrent_stage c C w k s m D o v wt :
  at_key c C w k s m D → w_mem (storeCurrent c w noMirror k o v wt).1 = stageOf c w k s o v wt.
Proof.
  intros Hak. unfold storeCurrent, lockedW, stageOf. rewrite (locked_once _ _ s); [|by eapply ak_shard'].
  destruct (replaceOrStoreLocked _ _ _ _ _ _ _) as [g1 s1]. unfold hasStore. rewrite (ak_store _ _ _ _ _ _ _ Hak).
  by rewrite bool_decide_false; [|intros []].
Qed.

(** What the stage shows, and that it keeps to the bounds when it fits. *)
Record stage_ok c C C1 k (cur : option entry) v wt : Prop := StageOk {
  so_wf : cache_wf c 0 C1;
  so_key : ∀ e', shard_get c C1 k = Some e' → stored_as c C k cur v wt e';
  so_others : ∀ k' e', k' ≠ k → shard_get c C1 k' = Some e' → shard_get c C k' = Some e';
  so_fits : fits c C k cur wt →
    overBudget (c_g C1) = false ∧ is_Some (shard_get c C1 k) ∧ ∀ k', k' ≠ k → shard_get c C1 k' = shard_get c C k';
  so_refused : shard_get c C k = None → Admit (g_admission (c_g C)) k = false →
    overBudget (c_g C1) = false ∧ ∀ k', shard_get c C1 k' = shard_get c C k'
}.

Lemma wf_same c s m1 m2 D1 D2 : shard_wf c s m1 D1 → shard_wf c s m2 D2 → m1 = m2.
Proof. intros H1' H2'. apply map_eq. intros k. by rewrite -(wf_get _ _ _ _ _ H1') -(wf_get _ _ _ _ _ H2'). Qed.

(** Changing the value of an entry in place, at a later reading of the
    clock. *)
Lemma replace_stage c C w k s m D a e v wt g1 :
  at_key c C w k s m D → m !! k = Some a → sh_heap s !! a = Some e → computeWeight c v = inr wt → env_of (c_g C) g1 →
  let C1 := let '(g', s') := replaceValueLocked c g1 s a e v wt in Cache g' (<[shardFor c k := s']> (c_shards (w_mem w))) in
  cache_wf c 0 C1 ∧ (∃ e', shard_get c C1 k = Some e' ∧ replaced c e v e') ∧
  (∀ k', k' ≠ k → shard_get c C1 k' = shard_get c C k') ∧ (fits c C k (Some e) wt → overBudget (c_g C1) = false).
Proof.
  intros Hak Hk He Hwt Henv. pose proof Hak as [[Hwf _ _ _ _ _] E _ _ Hs Hw Ho _ _ _].
  pose proof (replace_exact c g1 s m D k a e v wt Hw Hk He) as Hr.
  assert (env_of (c_g (w_mem w)) g1) as Henv'.
  { destruct (ak_env _ _ _ _ _ _ _ Hak) as (t & rt & l & ->). destruct Henv as (t' & rt' & l' & ->). by exists t', rt', l'. }
  pose proof (replace_shows c (c_g (w_mem w)) g1 s m D k a e v wt Hw Hk He (computeWeight_ge _ _ _ Hwt) Henv') as Hsh.
  destruct (replaceValueLocked c g1 s a e v wt) as [g' s']. destruct Hr as ([now Hl] & Hother & G1 & G2 & G3 & G4).
  destruct Hsh as (X & m' & Hok & HX). destruct Hwf as [ms HI].
  assert (ms !! shardFor c k = Some m) as Hm.
  { destruct (inv_shard _ _ _ _ _ _ HI (ak_shard' _ _ _ _ _ _ _ Hak)) as (m1 & D1 & Hm1 & Hw1). by rewrite Hm1 (wf_same c s m m1 D D1 Hw Hw1). }
  split_and!.
  - eapply cs_wf, locked_cstep; [exact HI|by eapply ak_shard'|exact Hm|exact Hok|]. intros k' Hk'. by rewrite (shows_writes _ _ _ _ _ HX Hk').
  - exists (entry_replace e v wt now). split; [|done]. rewrite (shard_get_put c (w_mem w) k s); [|by eapply ak_shard']. by rewrite decide_True.
  - intros k' Hne. by eapply put_others.
  - intros Hfit. cbn. destruct Henv as (t & rt & l & Eg). rewrite Eg in G1 G2 G3 G4. cbn in *.
    apply (over_within _ _ Ho); [done|done|lia|lia].
Qed.

Lemma env_room c C g1 k wt : env_of (c_g C) g1 → room c C k wt → room c (set_g C g1) k wt.
Proof. by intros (t & rt & l & ->). Qed.

Lemma env_admitted c C g1 k : env_of (c_g C) g1 → admitted c C k → admitted c (set_g C g1) k.
Proof. by intros (t & rt & l & ->). Qed.

(** A new key that the admission policy refuses. *)
Lemma upsert_refused c g s m D k v wt ettl sl raw ts :
  shard_wf c s m D → m !! k = None → g_sealed g = false → Admit (g_admission g) k = false →
  let '(g', s') := upsertLocked c g s k v wt ettl sl raw ts in
  (∀ k', sh_lookup s' k' = sh_lookup s k') ∧ overBudget g' = overBudget g.
Proof.
  intros Hw Hk Hsl Ha. unfold upsertLocked. cbn. rewrite Hsl (wf_get _ _ _ _ _ Hw) Hk Ha. cbn. split; [done|].
  unfold stat. by destruct (cf_statsEnabled c).
Qed.

(** A write with the default TTL, at a later reading of the clock. *)
Lemma upsert_stage c C w k s m D v wt g1 :
  at_key c C w k s m D → computeWeight c v = inr wt → env_of (c_g C) g1 → (shard_get c C k = None → g1 = c_g C) →
  let C1 := let '(ettl, g) := effectiveTTL c g1 (cf_defaultTTL c) in
            let '(g', s') := upsertLocked c g s k v wt ettl (cf_slidingTTL c) (cf_defaultTTL c) [] in
            Cache g' (<[shardFor c k := s']> (c_shards (w_mem w))) in
  stage_ok c C C1 k None v wt.
Proof.
  intros Hak Hwt Henv Habs. pose proof Hak as [_ E _ _ Hs Hw Ho Hwf Hsl _]. pose proof (computeWeight_ge _ _ _ Hwt) as Hge.
  assert (c_shards (w_mem w) = c_shards C) as Ess by by rewrite E.
  set (C0 := set_g C g1).
  assert (cache_wf c 0 C0) as Hwf0 by (eapply cs_wf, (set_g_cstep c 0 C g1); [done|by destruct Henv as (? & ? & ? & ->)..]).
  assert (g_sealed (c_g C0) = false) as Hsl0 by by destruct Henv as (? & ? & ? & ->).
  set (C1 := let '(ettl, g) := _ in _).
  assert (C1 = locked_ C0 (shardFor c k) (λ g s, let '(ettl, g) := effectiveTTL c g (cf_defaultTTL c) in
    upsertLocked c g s k v wt ettl (cf_slidingTTL c) (cf_defaultTTL c) [])) as EC.
  { subst C1. unfold locked_. rewrite (locked_once _ _ s) //. cbn [C0 c_g set_g c_shards]. rewrite Ess.
    destruct (effectiveTTL _ _ _) as [ettl g2]. by destruct (upsertLocked _ _ _ _ _ _ _ _ _ _). }
  clearbody C1. pose proof Hwf0 as [ms HI].
  destruct (upsert_cstep c 0 C0 ms k v wt (cf_defaultTTL c) (cf_slidingTTL c) (cf_defaultTTL c) [] HI Hge) as (X & HX & Hwr & Hwn).
  rewrite -EC in HX. constructor.
  - apply HX.
  - intros e' He'. apply (cs_effect _ _ _ _ _ HX) in He'. destruct X as [[k0 e0]|].
    + destruct Hwr as (-> & _). rewrite decide_True // in He'. subst e'. left. exists g1. split_and!; [done|done|by apply Hwn].
    + destruct Hwr as [Hwr|[Hwr _]]; [congruence|]. unfold C0, shard_get in *. cbn in *. congruence.
  - intros k' e' Hne He'. apply (cs_effect _ _ _ _ _ HX) in He'. destruct X as [[k0 e0]|]; [|done].
    destruct Hwr as (-> & _). by rewrite decide_False // in He'.
  - intros [Had Hroom]. rewrite EC.
    destruct (upsert_keeps c 0 C0 k v wt (cf_defaultTTL c) (cf_slidingTTL c) (cf_defaultTTL c) [] Hwf0 Hge Hsl0
      (env_admitted c C g1 k Henv Had) (env_room c C g1 k wt Henv Hroom)) as (U1 & (e & U2 & _) & U3).
    split_and!; [done|by rewrite U2|]. exact U3.
  - intros Hk Had. rewrite EC. unfold locked_. rewrite (locked_once _ _ s) //. cbn [C0 c_g set_g c_shards].
    destruct (effectiveTTL_frame c g1 (cf_defaultTTL c)) as [rt Hrt]. destruct (effectiveTTL _ _ _) as [ettl g2]. cbn in Hrt. subst g2.
    rewrite (shard_get_lookup _ _ _ _ Hs) (wf_lookup _ _ _ _ _ Hw) in Hk.
    assert (m !! k = None) as Hmk.
    { destruct (m !! k) as [a|] eqn:Hmk; [|done]. destruct (wf_entry _ _ _ _ Hw _ _ Hmk) as (e & He & _). cbn in Hk. congruence. }
    pose proof (upsert_refused c (g_env g1 (g_tick g1) rt (g_fx g1)) s m D k v wt ettl (cf_slidingTTL c) (cf_defaultTTL c) [] Hw Hmk) as Hu.
    destruct (upsertLocked _ _ _ _ _ _ _ _ _ _) as [g' s']. destruct Hu as [U1 U2]; [by destruct Henv as (? & ? & ? & ->)..|].
    cbn. split; [rewrite U2; by destruct Henv as (? & ? & ? & ->)|]. intros k'. rewrite (shard_get_put c C0 k s) //.
    case_decide as Hi; [|done]. rewrite U1 (shard_get_lookup c C k' s) //. by rewrite Hi.
Qed.

(** The locked part of a store. *)
Lemma stage_spec c C w k s m D o v wt :
  at_key c C w k s m D → computeWeight c v = inr wt →
  (∀ a e, o = Some (a, e) → m !! k = Some a ∧ sh_heap s !! a = Some e) →
  stage_ok c C (stageOf c w k s o v wt) k (snd <$> o) v wt.
Proof.
  intros Hak Hwt Hat. pose proof Hak as [_ _ Henv _ Hs Hw _ _ _ Habs]. unfold stageOf.
  assert (∀ e, sh_lookup s k = Some e → shard_get c C k = Some e) as Hget by by intros e; rewrite (shard_get_lookup _ _ _ _ Hs).
  assert (∀ a e, m !! k = Some a → sh_heap s !! a = Some e → shard_get c C k = Some e) as Hget'
    by (intros a e Hk He; apply Hget; by rewrite (wf_lookup _ _ _ _ _ Hw) Hk).
  destruct o as [[a e]|]; cbn [replaceOrStoreLocked fmap option_fmap option_map snd].
  - destruct (Hat a e eq_refl) as [Hk He].
    destruct (replace_stage c C w k s m D a e v wt (c_g (w_mem w)) Hak Hk He Hwt Henv) as (R1 & (e' & R2 & R3) & R4 & R5).
    constructor; [exact R1|..].
    + intros e0 He0. rewrite R2 in He0. by injection He0 as <-.
    + intros k' e0 Hne. by rewrite R4.
    + intros Hfit. split_and!; [by apply R5|by rewrite R2|done].
    + intros Hn. by rewrite (Hget' a e Hk He) in Hn.
  - unfold storeComputedLocked. pose proof (fresh_exact c (c_g (w_mem w)) s m D k Hw) as Hfr.
    destruct (freshEntryLocked c (c_g (w_mem w)) s k) as [g1 [[a e]|]]; destruct Hfr as (Henv1 & _ & Hn1 & Hat1).
    + destruct (Hat1 _ eq_refl) as [Hk He]. cbn in Hk, He. assert (env_of (c_g C) g1) as Henv2 by by eapply env_trans.
      destruct (replace_stage c C w k s m D a e v wt g1 Hak Hk He Hwt Henv2) as (R1 & (e' & R2 & R3) & R4 & R5).
      constructor; [exact R1|..].
      * intros e0 He0. rewrite R2 in He0. injection He0 as <-. right. exists e. split; [by eapply Hget'|done].
      * intros k' e0 Hne. by rewrite R4.
      * intros [_ (_ & _ & Hb)]. split_and!; [|by rewrite R2|done]. apply R5. cbn.
        destruct (wf_entry _ _ _ _ Hw _ _ Hk) as (e1 & He1 & _ & Hwe & _). assert (e1 = e) as -> by congruence. lia.
      * intros Hn. by rewrite (Hget' a e Hk He) in Hn.
    + opose proof (upsert_stage c C w k s m D v wt g1 Hak Hwt _ _) as Hu; [by eapply env_trans| |].
      * intros Hn. rewrite Hn1; [by apply Habs|]. by rewrite -(shard_get_lookup c C).
      * by destruct (effectiveTTL c g1 (cf_defaultTTL c)).
Qed.

(** The unlock only takes entries away, and none within the bounds. *)
Lemma stored_ok c C w k s m D o v wt :
  at_key c C w k s m D → computeWeight c v = inr wt →
  (∀ a e, o = Some (a, e) → m !! k = Some a ∧ sh_heap s !! a = Some e) →
  fate_ok c C (w_mem (settle c (storeCurrent c w noMirror k o v wt).1 k)) k (snd <$> o) (Stored v).
Proof.
  intros Hak Hwt Hat wt' Hwt'. assert (wt' = wt) as -> by congruence. destruct (stage_spec c C w k s m D o v wt Hak Hwt Hat) as [S1 S2 S3 S4 S5].
  set (w1 := (storeCurrent c w noMirror k o v wt).1).
  assert (w_mem w1 = stageOf c w k s o v wt) as E1 by by eapply storeCurrent_stage. rewrite -E1 in S1, S2, S3, S4, S5.
  destruct (flush_ok c 0 (w_mem w1) (shardFor c k) S1 (Z.le_refl 0)) as [F1 F2]. split_and!; [exact F2|..].
  - intros e' He'. by apply S2, (cs_effect _ _ _ _ _ F1).
  - intros k' e' Hne He'. by apply S3, (cs_effect _ _ _ _ _ F1).
  - intros Hfit. destruct (S4 Hfit) as (T1 & T2 & T3). rewrite settle_get //. split; [done|]. intros k' Hne. rewrite settle_get //. by apply T3.
  - intros Hk Had k'. destruct (S5 Hk Had) as [T1 T2]. rewrite settle_get //.
Qed.

Lemma lockedW_store {R} c w k (f : globals → shard → globals * shard * R) d : w_store (lockedW c w k f d).1 = w_store w.
Proof. unfold lockedW. by destruct (locked _ _ _ _). Qed.

Lemma storeCurrent_quiet c w k o v wt s :
  w_store w = None → c_shards (w_mem w) !! shardFor c k = Some s →
  let sm := (storeCurrent c w noMirror k o v wt).2 in sm_set sm = None ∧ sm_del sm = false.
Proof.
  intros Hst Hs. unfold storeCurrent, lockedW. rewrite (locked_once _ _ s) //.
  destruct (replaceOrStoreLocked _ _ _ _ _ _ _) as [g1 s1]. unfold hasStore. rewrite Hst. by rewrite bool_decide_false; [|intros []].
Qed.

Lemma deleteCurrent_quiet c w k o :
  w_store w = None → let sm := (deleteCurrent c w noMirror k o).2 in sm_set sm = None ∧ sm_del sm = false.
Proof.
  intros Hst. unfold deleteCurrent. set (x := match o with Some _ => _ | None => _ end).
  assert (w_store x.1 = None) as Hx.
  { subst x. destruct o as [[a e]|]; [by rewrite lockedW_store|done]. }
  destruct x as [w1 []]. cbn in Hx |- *. unfold hasStore. rewrite Hx. by rewrite bool_decide_false; [|intros []].
Qed.

(** C25: [Compute] without Store and queued writes, on every branch.  The function sees the
    value of the key's entry if it is fresh and the zero value otherwise, and
    the call returns what the specification says.  A call that stores nothing
    leaves every entry alone; [ComputeDelete] removes the entry the function
    saw and no other.  [ComputeStore] changes the entry the function saw in
    place, keeping its expiry, tags and flags, or gives the key a new entry
    with the default TTL; other entries are never changed, only evicted, and
    the cache ends within its bounds.  When the bounds have room for the value
    (and the admission policy takes a new key) the value is there and nothing
    was evicted; a new key that the policy refuses changes nothing. *)
Theorem Compute_correct c C k fn :
  live c C →
  let cur := freshAt c (cf_clock c (g_tick (c_g C))) (shard_get c C k) in
  let val := loadValue <$> cur in
  let '(res, f) := compute_spec c val (fn (default inhabitant val) (bool_decide (is_Some cur))) in
  let '(w', r) := Compute c (newWorld (B := B) C None) k (Some fn) in
  r = res ∧ fate_ok c C (w_mem w') k cur f.
Proof.
  intros [Hwf Ho Hsl Hcl]. pose proof Hwf as [ms HI]. destruct (lookup_lt_is_Some_2 _ _ (home_lt _ _ _ _ k HI)) as [s Hs].
  destruct (inv_shard _ _ _ _ _ _ HI Hs) as (m & D & Hm & Hw). cbv zeta. rewrite (shard_get_lookup _ _ _ _ Hs).
  unfold Compute, Compute_locked. cbn [w_mem newWorld]. rewrite Hcl (current_storeless c (newWorld C None) k s) //. cbn [w_mem newWorld].
  pose proof (fresh_exact c (c_g C) s m D k Hw) as Hfr. destruct (freshEntryLocked c (c_g C) s k) as [g1 o].
  destruct Hfr as (Henv & <- & Hn & Hat). set (w := set_mem _ _).
  assert (at_key c C w k s m D) as Hak.
  { constructor; try done; [|by rewrite (shard_get_lookup _ _ _ _ Hs)].
    apply env_frame in Henv as (? & ? & ? & ?). apply (set_g_good c ∅ (newWorld C None) g1); [|done..]. by apply storeless_good. }
  assert (∀ sm (r : V * option cerr), sm_set sm = None → sm_del sm = false →
    let '(w', r') := mirrored c w sm k id r in r' = r ∧ fate_ok c C (w_mem w') k (snd <$> o) Kept) as Hkept.
  { intros sm r H1' H2'. rewrite mirrored_none //. split; [done|]. intros k'. by eapply kept_ok. }
  set (x := (λ ae : loc * entry, (loadValue ae.2, Some ae)) <$> o).
  assert (match x with Some (current, _) => current | None => inhabitant end = default inhabitant (loadValue <$> (snd <$> o))) as ->
    by by destruct o.
  assert (bool_decide (is_Some x) = bool_decide (is_Some (snd <$> o))) as -> by by (subst x; destruct o).
  unfold applyAction, compute_spec. destruct (fn _ _) as [code|[nv act]]; [exact (Hkept noMirror _ eq_refl eq_refl)|].
  destruct act as [| | |n].
  - destruct (computeWeight c nv) as [er|wt] eqn:Hwt; [exact (Hkept noMirror _ eq_refl eq_refl)|].
    pose proof (stored_ok c C w k s m D (x ≫= snd) nv wt Hak Hwt) as Hst.
    destruct (storeCurrent_quiet c w k (x ≫= snd) nv wt s (ak_store _ _ _ _ _ _ _ Hak) (ak_shard' _ _ _ _ _ _ _ Hak)) as [Q1 Q2].
    assert (x ≫= snd = o) as Ex by by (subst x; destruct o). rewrite Ex in Hst, Q1, Q2 |- *.
    destruct (storeCurrent c w noMirror k o nv wt) as [w2 sm2]. rewrite mirrored_none //. split; [done|].
    apply Hst. intros a e ->. by apply (Hat _ eq_refl).
  - destruct o as [[a e]|]; [|exact (Hkept noMirror _ eq_refl eq_refl)]. subst x. cbn [fmap option_fmap option_map snd].
    destruct (Hat _ eq_refl) as [Hk _]. pose proof (removed_ok c C w k s m D a e noMirror Hak Hk) as Hrm.
    destruct (deleteCurrent_quiet c w k (Some (a, e)) (ak_store _ _ _ _ _ _ _ Hak)) as [Q1 Q2].
    destruct (deleteCurrent c w noMirror k (Some (a, e))) as [w2 sm2]. cbn in Q1, Q2. rewrite mirrored_none //.
  - replace (match x with Some (current, _) => current | None => inhabitant end) with (default inhabitant (loadValue <$> (snd <$> o)))
      by by destruct o. exact (Hkept noMirror _ eq_refl eq_refl).
  - exact (Hkept noMirror _ eq_refl eq_refl).
Qed.
End computeprops.

(** The value of key 1 is doubled; its expiry, 50 ns after the write, stays. *)
Lemma Compute_correct_witness :
  let C := (SetWithTTL plain (znew plain 4) 1 7 50).1 in
  let fn v (_ : bool) : Z + Z * ComputeAction := inr (2 * v, ComputeStore) in
  let '(w', r) := Compute plain (newWorld (B := zstore) C None) 1 (Some fn) in
  r = (14, None) ∧
  fate_ok plain C (w_mem w') 1 (freshAt plain (cf_clock plain (g_tick (c_g C))) (shard_get plain C 1)) (Stored 14).
Proof.
  intros C fn. assert (live plain C) as Hl.
  { apply (z_live 4 [OpSetWithTTL 1 7 50]). vm_compute. reflexivity. }
  pose proof (Compute_correct plain C 1 fn Hl) as Hc. cbv zeta in Hc.
  assert (loadValue <$> freshAt plain (cf_clock plain (g_tick (c_g C))) (shard_get plain C 1) = Some 7) as Hv
    by (vm_compute; reflexivity).
  rewrite Hv in Hc. assert (∀ b, compute_spec plain (Some 7) (fn 7 b) = (14, None, Stored 14)) as Hs by (intros []; vm_compute; reflexivity).
  cbn [default from_option id] in Hc. rewrite Hs in Hc. clearbody C. exact Hc.
Defined.
