(* ===== verification/SaveLoad.v ===== *)
(** * SaveLoad: a cache saved and loaded

    The properties of [Load] and [Merge] of the whole cache: a load is safe
    whatever the file holds ([load_sound]); and a cache loaded from what
    another one saved shows exactly the live entries of that one
    ([save_load_restores]), even when the two differ in policy, table, TTL
    backend, shard count and hash. *)

From S2P Require Import Prelude Codec Snapshot Policy Lru Storage Ttl Heap Entry Tags Flights Shard Admission ShardInv ShardOps.
From S2P Require Import Cache Bulk Loads Run CacheInv CacheOps CacheReads CacheRun RunInv CacheKeep CacheBulk CacheNew Restore Walk Concrete CacheProps.

#[local] Open Scope Z_scope.

Section sound.
Context {K V P St T A : Type} `{Countable K, Inhabited K, Inhabited V}.
Context `{EvictionPolicy K P, ShardStore K St, TtlBackend T, AdmissionPolicy K A}.
Context `{!PolicyLaws K P, !StoreLaws K St, !TtlLaws T}.
Implicit Types (c : config K V) (C : cache K V P St T A).

(** Where an entry of the loaded cache may come from. *)
Definition load_explains (L : codecEnv) (Y : snapTypes K V) (sc : snapConfig K V) c C input (reset : bool) k e : Prop :=
  (reset = false ∧ shard_get c C k = Some e) ∨
  ∃ staged, readSnapshot L Y sc input = inr staged ∧ restored staged k e.

(** C37: whatever bytes a load or a merge is given, the cache it leaves keeps
    the invariant of the whole cache and stays within its entry and byte
    bounds.  When the read fails the cache is exactly as it was; when it
    succeeds every entry is one the file gave, or (for a merge) one the
    cache held before. *)
Theorem load_sound L Y sc c C input reset :
  writable c C →
  let '(C', r) := loadInto L Y sc c C input reset in
  cache_wf c 0 C' ∧ overBudget (c_g C') = false ∧
  match r with
  | inl _ => C' = C
  | inr _ => ∀ k e, shard_get c C' k = Some e → load_explains L Y sc c C input reset k e
  end.
Proof.
  intros Hw. unfold loadInto. destruct (g_closed (c_g C)); [by destruct Hw as (? & ? & _)|].
  unfold load_explains. destruct (readSnapshot L Y sc input) as [|staged]; [by destruct Hw as (? & ? & _)|].
  pose proof (loadStaged_ok c C reset staged Hw) as [L1 L2]. destruct (loadStaged c C reset staged) as [C' n].
  destruct L1 as (? & ? & _). split_and!; [done|done|]. intros k e [?|?]%L2; [by left|right; eauto].
Qed.

End sound.

Section restores.
Context {K V : Type} `{Countable K, Inhabited K, Inhabited V}.
Context {P1 St1 T1 A1 : Type} `{EvictionPolicy K P1, ShardStore K St1, TtlBackend T1, AdmissionPolicy K A1}.
Context `{!PolicyLaws K P1, !StoreLaws K St1, !TtlLaws T1}.
Context {P2 St2 T2 A2 : Type} `{EvictionPolicy K P2, ShardStore K St2, TtlBackend T2, AdmissionPolicy K A2}.
Context `{!PolicyLaws K P2, !StoreLaws K St2, !TtlLaws T2}.
Implicit Types (Y : snapTypes K V) (e : entry K V) (c : config K V) (k : K).

(** What a load makes of a saved entry: the value filtered and the weight
    the loading cache gives it; the flags but the sliding one, and the time
    of the last access, start afresh. *)
Definition carried Y c e : entry K V :=
  Entry (e_key e) (Some (applySnapshotFilter Y (loadValue e))) (e_expireAt e) (e_inserted e) (e_inserted e) (e_hits e)
    (loadWeight c (loaded Y (snapOf e))) (if e_has e flagSliding then e_slidingTTL e else 0) (e_tags e)
    (if e_has e flagSliding then flagSliding else 0) false.

Lemma land_sliding v : Z.land v flagSliding = if flags_has v flagSliding then flagSliding else 0.
Proof.
  rewrite has_sliding. unfold flagSliding. change 1 with (Z.ones 1) at 1. rewrite Z.land_ones //. change (2 ^ 1) with 2.
  rewrite -Z.bit0_mod. by destruct (Z.testbit v 0).
Qed.

Lemma restore_carried Y c e :
  entry_restore entry_blank (with_weight (loaded Y (snapOf e)) (loadWeight c (loaded Y (snapOf e)))) = carried Y c e.
Proof.
  unfold entry_restore, carried. cbn [with_weight loaded snapOf sn_flags sn_tags sn_key sn_value sn_slidingTTL].
  rewrite land_sliding. change (flags_has (e_flags e) flagSliding) with (e_has e flagSliding).
  set (w := loadWeight c _). clearbody w. assert (bytes_str <$> (str_bytes <$> e_tags e) = e_tags e) as Ht.
  { rewrite -list_fmap_compose (list_fmap_ext _ id); [apply list_fmap_id|]. intros i s _. apply bytes_str_bytes. }
  destruct (e_has e flagSliding); (rewrite Ht; destruct (e_tags e) eqn:Et; cbn; [done|done]).
Qed.

(** C36: a load of what another cache saved succeeds, and afterwards a key
    shows an entry exactly when the saving cache held it alive (its TTL not
    passed and not a tombstone) at the time of the save and it has not expired
    by the time of the load; the entry is the one that was saved, with its
    filtered value, its expiry, insertion time, hits, tags and sliding TTL.
    The number the load reports is the number of entries the cache holds.  The
    conditions: the save succeeded under a snapshot limit that is positive and
    at most MaxInt64/16, of records its codec takes; the load has the same
    limit and codec; the loading cache is open, its limits on keys, values and
    tags take every record ([takes]), and its entry and byte bounds have room
    for all of them. *)
Theorem save_load_restores L Y sc c1 (C1 : cache K V P1 St1 T1 A1) c2 (C2 : cache K V P2 St2 T2 A2) d now out rest :
  let staged := (snapshotEntries c1 C1).1 in
  let records := loaded Y <$> staged in
  let at1 := cf_clock c1 (g_tick (c_g C1)) in
  let at2 := cf_clock c2 (g_tick (c_g (Reset_ c2 C2))) in
  cache_wf c1 d C1 → saved L Y sc now staged out →
  writable c2 C2 → g_closed (c_g C2) = false → Forall (takes (A := A2) c2) records →
  (g_maxEntries (c_g C2) <= 0 ∨ Z.of_nat (length records) <= g_maxEntries (c_g C2)) →
  (g_maxBytes (c_g C2) <= 0 ∨ sumZ (loadWeight c2 <$> records) <= g_maxBytes (c_g C2)) →
  let '(C2', r) := Load L Y sc c2 C2 (out ++ rest) in
  r = inr (g_entries (c_g C2')) ∧
  ∀ k, shard_get c2 C2' k =
    e ← shard_get c1 C1 k; if staged_skips at1 e || entry_expired e at2 then None else Some (carried Y c2 e).
Proof.
  intros staged records at1 at2 Hwf1 Hsv Hw2 Hcl Htk Hent Hby. unfold Load, loadInto. rewrite Hcl (saved_loads _ _ _ _ _ _ rest Hsv).
  fold records. unfold loadStaged. set (C0 := Reset_ c2 C2) in *. cbn. fold at2. set (C3 := set_g C0 _).
  pose proof Hw2 as (Hwf2 & Ho2 & Hsl2). pose proof (Reset_vstep c2 0 C2 Hwf2 (Z.le_refl 0)) as Hv. fold C0 in Hv.
  assert (∀ k, shard_get c2 C3 k = None) as Hnone by (intros k; exact (Reset_get c2 C2 k Hwf2 Ho2)).
  assert (writable c2 C3) as Hw3.
  { apply env_writable; [|done..]. split_and!; [apply Hv|by apply (vs_over _ _ _ _ _ Hv)|]. destruct (vs_closed _ _ _ _ _ Hv). congruence. }
  pose proof Hw3 as [[ms3 HI3] _]. destruct (empty_counters c2 0 C3 ms3 HI3 Hnone) as [E1 E2]. destruct (vs_bounds _ _ _ _ _ Hv) as [M1 M2].
  destruct (staged_spec c1 d C1 Hwf1) as [Hnd Hst]. fold staged at1 in Hnd, Hst.
  assert (sn_key <$> records = sn_key <$> staged) as Hkeys by (unfold records; by rewrite -list_fmap_compose).
  assert (spare C3 (Z.of_nat (length records)) (sumZ (loadWeight c2 <$> records))) as Hsp.
  { unfold spare. rewrite E1 E2. change (c_g C3) with (clockNow c2 (c_g C0)).2. cbn [clockNow snd g_env g_maxEntries g_maxBytes]. rewrite M1 M2. by rewrite !Z.add_0_l. }
  pose proof (fold_keeps c2 at2 records C3 0 Hw3) as HF. rewrite Hkeys in HF. specialize (HF Hnd).
  destruct (foldl _ _ records) as [C4 n]. destruct HF as (F1 & F2 & F3).
  { intros snap Hin. split; [|done]. by eapply Forall_forall in Htk. } { done. }
  split; [rewrite E1 in F3; f_equal; cbn; destruct (cf_events c2); cbn; lia|].
  intros k. transitivity (shard_get c2 C4 k); [done|].
  destruct (shard_get c1 C1 k) as [e|] eqn:He; cbn.
  - pose proof (lookup_home c1 d C1 k e Hwf1 He) as Hk.
    destruct (staged_skips at1 e) eqn:Hsk; cbn.
    + rewrite F2 // => - /list_elem_of_fmap [snap [Ek /Hst [k' [e' [He' [Hsk' Es]]]]]]. subst snap.
      pose proof (lookup_home c1 d C1 k' e' Hwf1 He'). cbn in Ek. congruence.
    + assert (loaded Y (snapOf e) ∈ records) as Hin by (apply list_elem_of_fmap_2, Hst; eauto).
      specialize (F1 _ Hin). cbn in F1. rewrite Hk in F1. by rewrite F1 restore_carried.
  - rewrite F2 // => - /list_elem_of_fmap [snap [Ek /Hst [k' [e' [He' [Hsk' Es]]]]]]. subst snap.
    pose proof (lookup_home c1 d C1 k' e' Hwf1 He'). cbn in Ek. congruence.
Qed.

End restores.

(** ** Witnesses *)

(** Integer keys and values; a value is saved without its last digit. *)
Definition intTypes : snapTypes Z Z :=
  SnapTypes _ _ (KInt 64) (KindInt 64) (λ k, match k with KInt _ n => Some n | _ => None end) (λ v, v - v `mod` 10) None None [].

(** A codec of the user's, which writes keys and values as varints. *)
Definition intBase : baseCodec Z Z :=
  BaseCodec "varint" false
    (λ d, match d with DKey n | DVal n => inr (AppendVarint n) | DBytes b => inr b end)
    (λ b dst, match dst with ToKey => inr (DKey (Varint b).1) | ToVal => inr (DVal (Varint b).1) | ToBytes => inr (DBytes b) end).

Definition intCfg : snapConfig Z Z :=
  SnapConfig _ _ (EncryptedCodec (CompressedCodec (CBase intBase) 6) (replicate 32 7)) [109; 99] ∅ 1000.

(** One entry that has expired at the save, one that expires before the load,
    one with a sliding TTL and tags, and a plain one. *)
Definition source_ops : list (cop (K := Z) (V := Z)) :=
  [OpSetWithTTL 1 10 1; OpSetWithTTL 2 20 6;
   OpSetWithOptions 3 37 (SetConfig (Some 500) None (Some ["t"%string; "u"%string]) None (Some true)); OpSet 4 40; OpGet 3].

Definition source : zcache := run_all plain (znew plain 9) source_ops.

(** A cache that runs later and holds other entries. *)
Definition later : zconfig := zconf None (λ _, []) 0 0 0 false (λ n, 1200 + Z.of_nat n).
Definition target : zcache := run_all later (znew later 3) four.

Definition saved_file : bytes :=
  match Save toyEnv intTypes intCfg 5 (snapshotEntries plain source).1 false with inr out => out | inl _ => [] end.

Lemma source_stages :
  (snapshotEntries plain source).1 =
  [Snap Z Z 4 40 0 1 1003 0 0 0 []; Snap Z Z 2 20 1007 1 1001 0 0 0 []; Snap Z Z 3 37 1502 1 1002 1 1 500 [[116]; [117]]].
Proof. vm_compute. reflexivity. Qed.

Lemma source_saved : saved toyEnv intTypes intCfg 5 (snapshotEntries plain source).1 saved_file.
Proof.
  split; [apply toyEnv_ok|]. split; [|split; [by unfold is_i64|split; [vm_compute; done|split; [by vm_compute|vm_compute; reflexivity]]]].
  rewrite source_stages.
  repeat (apply Forall_cons; split); [..|apply Forall_nil; done]; (unfold record_ok; split; [|split; [|unfold is_i64; cbn; lia]]);
    intros o [= <-]; vm_compute; done.
Qed.

Lemma target_writable : writable later target.
Proof.
  assert (g_closed (c_g (run_all later (znew later 3) four)) = false) as Hcl by (vm_compute; done).
  destruct (zrun_live None (λ _, []) 0 0 false (λ n, 1200 + Z.of_nat n) 3 four Hcl) as [W1 W2 W3 _]. by split_and!.
Qed.

Lemma load_sound_witness :
  (Merge toyEnv intTypes intCfg later target (saved_file ++ [0])).2 = inr 2 ∧
  overBudget (c_g (Merge toyEnv intTypes intCfg later target (saved_file ++ [0])).1) = false.
Proof.
  split; [vm_compute; done|].
  pose proof (load_sound toyEnv intTypes intCfg later target (saved_file ++ [0]) false target_writable) as Hs.
  unfold Merge. destruct (loadInto _ _ _ _ _ _ _) as [C' r]. exact (proj1 (proj2 Hs)).
Defined.

Lemma save_load_restores_witness :
  let C := (Load toyEnv intTypes intCfg later target (saved_file ++ [0])).1 in
  shard_get later C 1 = None ∧ shard_get later C 2 = None ∧
  shard_get later C 3 = Some (Entry 3 (Some 30) 1502 1002 1002 1 1 500 ["t"%string; "u"%string] flagSliding false) ∧
  g_entries (c_g C) = 2.
Proof.
  assert (cache_wf plain 0 source) as Hwf.
  { assert (g_closed (c_g (run_all plain (znew plain 9) source_ops)) = false) as Hcl by (vm_compute; done).
    apply (lv_wf _ _ (z_live 9 source_ops Hcl)). }
  pose proof (save_load_restores toyEnv intTypes intCfg plain source later target 0 5 saved_file [0] Hwf source_saved target_writable) as Hr.
  specialize (Hr ltac:(vm_compute; done)). cbv zeta.
  assert ((Load toyEnv intTypes intCfg later target (saved_file ++ [0])).2 = inr 2) as Hc by (vm_compute; done).
  destruct (Load _ _ _ _ _ _) as [C r]. cbn [fst snd] in *.
  destruct Hr as [Hn Hr].
  - rewrite source_stages.
    repeat (apply Forall_cons; split); [..|apply Forall_nil; done]; (split; [done|split; [by left|intros g; vm_compute; done]]).
  - right. vm_compute. done.
  - left. vm_compute. done.
  - split; [rewrite Hr; vm_compute; done|]. split; [rewrite Hr; vm_compute; done|].
    split; [rewrite Hr; vm_compute; done|]. congruence.
Defined.
