(* ===== verification/CloseProps.v ===== *)
(** * CloseProps: what is left of a closed cache

    Whatever else runs between the sections of [Close] and after them, a
    closed cache ends up empty and stays so, and the purge visitor sees what
    was in it. *)

From S2P Require Import Prelude Codec Snapshot Policy Lru Storage Ttl Heap Entry Tags Flights Shard Admission ShardInv ShardOps ShardBulk.
From S2P Require Import Cache Bulk Loads Run CacheInv CacheOps CacheReads CacheRun CacheKeep CacheBulk BulkInv LoadsInv RunInv.
From S2P Require Import CacheNew Walk Restore Concrete CacheProps Close.

#[local] Open Scope Z_scope.

Section close.
Context {K V P St T A : Type} `{Countable K, Inhabited K, Inhabited V}.
Context `{EvictionPolicy K P, ShardStore K St, TtlBackend T, AdmissionPolicy K A}.
Context `{!PolicyLaws K P, !StoreLaws K St, !TtlLaws T}.

Local Abbreviation shard_wf := (shard_wf (E := ∅)).
Local Abbreviation ok_step := (ok_step (E := ∅)).
Local Abbreviation config := (config K V).
Local Abbreviation globals := (globals K V A).
Local Abbreviation shard := (shard K V P St T).
Local Abbreviation cache := (cache K V P St T A).
Implicit Types (c : config) (C : cache) (g : globals) (s : shard) (k : K) (v : V).

(** A well-formed cache within its bounds that is marked closed; [se] tells
    whether it is sealed too. *)
Record shut c (se : bool) C : Prop := Shut {
  st_wf : cache_wf c 0 C;
  st_over : overBudget (c_g C) = false;
  st_closed : g_closed (c_g C) = true;
  st_sealed : g_sealed (c_g C) = se
}.

(** A step that keeps the marks; a sealed cache gains no entry by it. *)
Definition shut_step c se C C' : Prop :=
  shut c se C' ∧ (se = true → ∀ k e, shard_get c C' k = Some e → shard_get c C k = Some e).

Lemma shut_refl c se C : shut c se C → shut_step c se C C.
Proof. by split. Qed.

Lemma cstep_shut c se C C' :
  shut c se C → cstep c 0 None C C' → (overBudget (c_g C) = false → overBudget (c_g C') = false) → shut_step c se C C'.
Proof.
  intros [S1 S2 S3 S4] [A1 A2 A3 A4 [A5 A6]] Ho. split; [constructor; auto; congruence|]. intros _ k e He. by apply A2 in He.
Qed.

(** A locked section and the unlock. *)
Lemma section_shut {R} c se C i (f : globals → shard → globals * shard * R) dflt :
  shut c se C →
  (∀ s m D, shard_wf c s m D →
     let '(g', s', r) := f (c_g C) s in ∃ X m', ok_step c X (c_g C) s m g' s' m' ∧
       (∀ k, writes X k → shardFor c k = i) ∧ (se = true → X = None)) →
  shut_step c se C (flushAndUnlock c (locked C i f dflt).1 i).
Proof.
  intros HS Hf. pose proof HS as [[ms HI] S2 S3 S4]. unfold locked.
  destruct (c_shards C !! i) as [s|] eqn:Hs.
  2:{ destruct (locked_flush_ok c 0 None C C i (cstep_refl _ _ _ (st_wf _ _ _ HS)) (Z.le_refl 0)) as [F1 F2].
      by eapply cstep_shut. }
  destruct (inv_shard _ _ _ _ _ _ HI Hs) as (m & D & Hm & Hw). specialize (Hf s m D Hw).
  destruct (f (c_g C) s) as [[g' s'] r]. destruct Hf as (X & m' & Hok & HX & Hse). cbn.
  pose proof (locked_cstep _ _ _ _ _ _ _ _ _ _ _ HI Hs Hm Hok HX) as Hst.
  destruct (locked_flush_ok c 0 X C _ i Hst (Z.le_refl 0)) as [[F1 F2 F3 F4 [F5 F6]] F7].
  split; [constructor; [done|done|congruence|congruence]|]. intros ->. rewrite (Hse eq_refl) in F2. apply F2.
Qed.

(** ** Calls on a closed cache *)

Lemma frame_shut c se C g :
  shut c se C → g_entries g = g_entries (c_g C) → g_bytes g = g_bytes (c_g C) → g_tags g = g_tags (c_g C) →
  same_fixed (c_g C) g → shut_step c se C (set_g C g).
Proof.
  intros HS E1 E2 E3 (E4 & E5 & E6 & E7 & _). apply cstep_shut; [done| |].
  - apply set_g_cstep; try done. apply HS.
  - unfold overBudget. cbn. by rewrite E1 E2 E4 E5.
Qed.

Lemma shut_trans c se C1 C2 C3 : shut_step c se C1 C2 → (shut c se C2 → shut_step c se C2 C3) → shut_step c se C1 C3.
Proof. intros [A1 A2] [B1 B2]%(λ f, f A1). split; [done|]. auto. Qed.

(** A section that leaves the entries alone. *)
Lemma quiet_shut {R} c se C i (f : globals → shard → globals * shard * R) dflt :
  shut c se C →
  (∀ s, let '(g', s', r) := f (c_g C) s in
     (∃ fl nf, s' = sh_set_flights s fl nf) ∧ g_entries g' = g_entries (c_g C) ∧ g_bytes g' = g_bytes (c_g C) ∧
     same_fixed (c_g C) g' ∧ g_tags g' = g_tags (c_g C)) →
  shut_step c se C (flushAndUnlock c (locked C i f dflt).1 i).
Proof.
  intros HS Hf. apply section_shut; [done|]. intros s m D Hw. specialize (Hf s). destruct (f (c_g C) s) as [[g' s'] r].
  destruct Hf as ((fl & nf & ->) & F1 & F2 & F3 & F4). exists None, m. split; [|done].
  eapply ok_frame; [by eapply ok_refl|done..].
Qed.

Lemma janitor_shut c se C i : shut c se C → shut_step c se C (janitorTick c C i).
Proof.
  intros HS. unfold janitorTick. cbn [clockNow]. set (now := cf_clock c _). set (C1 := set_g C _).
  apply (shut_trans c se C C1); [by apply frame_shut|]. intros HS1.
  pose proof (section_shut c se C1 i (λ g s, sweepExpiredLocked c g s now) 0 HS1) as Hs.
  destruct (locked C1 i _ 0) as [C2 n]. apply Hs. intros s m D Hw. pose proof (sweep_ok c (c_g C1) s m D now Hw) as Ho.
  destruct (sweepExpiredLocked _ _ _ _) as [[g' s'] r]. destruct Ho as (m' & Hok & _). by exists None, m'.
Qed.

Lemma drain_shut c se C : shut c se C → shut_step c se C (drainUntag c C).
Proof.
  intros HS. pose proof (drain_vstep c 0 C (st_wf _ _ _ HS)) as [V1 _ _ _ [V5 V6] V7].
  destruct HS as [S1 S2 S3 S4]. split; [constructor; auto; congruence|]. intros _ k e.
  unfold drainUntag. by destruct (g_untagQueue (c_g C)) as [|[]].
Qed.

Lemma Reset_shut c se C : shut c se C → shut c se (Reset_ c C) ∧ ∀ k, shard_get c (Reset_ c C) k = None.
Proof.
  intros [S1 S2 S3 S4]. pose proof (Reset_vstep c 0 C S1 (Z.le_refl 0)) as [V1 _ _ _ [V5 V6] V7].
  split; [constructor; auto; congruence|]. intros k. by apply Reset_get.
Qed.

Lemma finishLoad_shut c se C k f r : shut c se C → shut_step c se C (finishLoad c C k f r).
Proof.
  intros HS. unfold finishLoad, locked_. apply quiet_shut; [done|]. intros s. cbn.
  set (g := stat c (stat c (c_g C) _) _).
  assert (g_entries g = g_entries (c_g C) ∧ g_bytes g = g_bytes (c_g C) ∧ same_fixed (c_g C) g ∧ g_tags g = g_tags (c_g C) ∧
    g_closed g = true) as (G1 & G2 & G3 & G4 & G5) by (subst g; unfold stat; destruct (cf_statsEnabled c); by destruct HS).
  unfold applyLoadResultLocked. rewrite G5 orb_true_r. split; [|done]. by eexists _, _.
Qed.

Lemma announce_shut c se C k r : shut c se C → shut_step c se C (AnnounceLoad c C k r).
Proof.
  intros HS. unfold AnnounceLoad, announceLoad, publishEvent, stat.
  destruct r as [v ttl| |[]|]; cbn; apply frame_shut; try done;
    by destruct (cf_onLoad c), (cf_statsEnabled c), (cf_events c).
Qed.

Lemma abandon_shut c se C k f : shut c se C → shut_step c se C (abandonLoad c C k f).
Proof.
  intros HS. unfold abandonLoad, publishEvent. set (C1 := flushAndUnlock _ _ _).
  apply (shut_trans c se C C1).
  - apply quiet_shut; [done|]. intros s. cbn. split; [by eexists _, _|]. unfold stat. by destruct (cf_statsEnabled c).
  - intros HS1. cbn. apply frame_shut; try done; by destruct (cf_events c).
Qed.

Lemma leave_shut c se C k f n : shut c se C → shut_step c se C (leaveFlight c C k f n).
Proof.
  intros HS. unfold leaveFlight. apply quiet_shut; [done|]. intros s. cbn. case_bool_decide; (split; [|done]).
  - by eexists _, _.
  - exists (sh_flights s), (sh_nextFlight s). by destruct s.
Qed.

(** Writes are refused. *)
Lemma setTTLCtx_closed c C k v ttl :
  g_closed (c_g C) = true → setTTLCtx c C k v ttl = (flushAndUnlock c C (shardFor c k), Some ErrClosed).
Proof. intros Hc. by rewrite /setTTLCtx /setAndStore /setLockedInto Hc. Qed.

Lemma flush_shut c se C i : shut c se C → shut_step c se C (flushAndUnlock c C i).
Proof.
  intros HS. destruct (locked_flush_ok c 0 None C C i (cstep_refl _ _ _ (st_wf _ _ _ HS)) (Z.le_refl 0)) as [F1 F2].
  by apply cstep_shut.
Qed.

Lemma closed_run c se C o : shut c se C → shut_step c se C (run c C o).
Proof.
  intros HS. pose proof (st_closed _ _ _ HS) as Hc.
  destruct o; cbn [run]; try (by rewrite /Delete /deleteKey /DeleteIf /Get /Peek /Touch /TouchWithTTL /Clear /DeleteExpired
    /InvalidateTag /InvalidateTags /GetWithExpiry /DeletePrefix /Refresh /RefreshAll ?Hc; apply shut_refl);
    try (rewrite /setWithOptions /prepareOptions /SetIfAbsent /SetIfPresent /GetOrSet /PeekOrAdd /checkWrite
      /GetOrLoad /GetOrLoadFn ?Hc; by apply shut_refl).
  - rewrite /Set_ setTTLCtx_closed //. by apply flush_shut.
  - unfold SetWithTTL. case_bool_decide; [by apply shut_refl|]. rewrite setTTLCtx_closed //. by apply flush_shut.
  - destruct (Reset_shut c se C HS) as [R1 R2]. split; [done|]. intros _ k e. by rewrite R2.
  - by apply janitor_shut.
  - by apply drain_shut.
  - by apply finishLoad_shut.
  - unfold DeleteWhere. destruct pred; rewrite ?Hc; by apply shut_refl.
  - by apply leave_shut.
  - by apply abandon_shut.
  - by apply announce_shut.
Qed.

(** ** Late writes *)

(** [computeWeight] answers at least 1. *)
Definition late_ok (w : late K V) : Prop :=
  match w with LateSet _ _ weight _ _ _ _ | LateSetUntil _ _ weight _ _ => 1 <= weight end.

Definition happening_ok (h : happening K V) : Prop := match h with Called _ => True | Late w => late_ok w end.

Lemma late_shut c se C w : late_ok w → shut c se C → shut_step c se C (runLate c C w).
Proof.
  intros Hw HS. destruct w as [k v weight ettl sliding raw tags|k v weight at_ tags]; cbn; unfold locked_;
    (apply section_shut; [done|]); intros s m D Hwf; cbn.
  - pose proof (upsert_ok c (c_g C) s m D k v weight ettl sliding raw tags Hwf Hw) as Hu. cbv zeta in Hu.
    destruct (upsertLocked _ _ _ _ _ _ _ _ _ _) as [g' s']. destruct Hu as (X & m' & Hok & HX). exists X, m'.
    split_and!; [done| |].
    + intros k'. destruct X as [[k0 e]|]; [|done]. destruct HX as (-> & _). by intros [= <-].
    + intros ->. destruct X as [[k0 e]|]; [|done]. destruct HX as (_ & _ & HX & _). rewrite (st_sealed _ _ _ HS) in HX. done.
  - destruct se eqn:Hse.
    + unfold upsertWithAbsoluteExpiryLocked. cbn. rewrite (st_sealed _ _ _ HS). exists None, m. split; [|done].
      eapply ok_frame; [by eapply ok_refl|done..].
    + pose proof (upsertAbs_ok c (c_g C) s m D k v weight at_ tags Hwf Hw (st_sealed _ _ _ HS)) as Hu.
      destruct (upsertWithAbsoluteExpiryLocked _ _ _ _ _ _ _ _) as [g' s']. destruct Hu as (e & m' & Hok & _).
      exists (Some (k, e)), m'. split_and!; [done| |done]. by intros k' [= <-].
Qed.

Lemma happen_shut c se C h : happening_ok h → shut c se C → shut_step c se C (happen c C h).
Proof. destruct h; [intros _; apply closed_run|apply late_shut]. Qed.

Lemma happen_all_shut c se C hs : Forall happening_ok hs → shut c se C → shut_step c se C (happen_all c C hs).
Proof.
  intros Hok. revert C. induction Hok as [|h hs Hh _ IH]; intros C HS; [by apply shut_refl|].
  eapply shut_trans; [by apply (happen_shut c se C h)|]. apply IH.
Qed.

(** ** The sections of [Close] *)

Lemma flags_wf c d C cl se : cache_wf c d C → cache_wf c d (set_g C (g_set_flags (c_g C) cl se)).
Proof. intros [ms [I1 I2 I3 I4 I5 I6 I7 I8]]. exists ms. by constructor. Qed.

Lemma janitors_wf c d C : cache_wf c d C → cache_wf c d (stopAllJanitors C).
Proof.
  intros [ms [I1 I2 I3 I4 I5 I6 I7 I8]]. exists ms. constructor; cbn; rewrite ?length_fmap //.
  - intros i s m. rewrite list_lookup_fmap. destruct (c_shards C !! i) as [s0|] eqn:Hs; [|done]. intros [= <-] Hm.
    destruct (I4 i s0 m Hs Hm) as [D Hw]. exists D. by apply (wf_ext c s0).
  - rewrite I7. unfold weights. by rewrite zip_with_fmap_l.
  - intros i s. rewrite list_lookup_fmap. destruct (c_shards C !! i) as [s0|] eqn:Hs; [|done]. intros [= <-]. by apply (I8 i s0).
Qed.

Lemma seal_get c C k : shard_get c (closeSeal C) k = shard_get c C k.
Proof. unfold shard_get, closeSeal. cbn. rewrite list_lookup_fmap. by destruct (c_shards C !! _). Qed.

Lemma seal_shut c C : shut c false C → shut c true (closeSeal C).
Proof. intros [S1 S2 S3 S4]. constructor; [by apply janitors_wf, flags_wf|done..]. Qed.

Lemma end_shut c C : shut c true C → shut c true (closeEnd c C) ∧ ∀ k, shard_get c (closeEnd c C) k = None.
Proof.
  intros HS. destruct (Reset_shut c true C HS) as [R1 R2]. unfold closeEnd, stopTagCleanup.
  induction (length _) as [|n [IH1 IH2]]; [done|]. rewrite Nat.iter_succ.
  destruct (drain_shut c true _ IH1) as [D1 D2]. split; [done|]. intros k. destruct (shard_get c _ k) as [e|] eqn:He; [|done].
  apply D2 in He; [|done]. by rewrite IH2 in He.
Qed.

Lemma visitor_spec c d C :
  cache_wf c d C →
  NoDup (runPurgeVisitor c C).*1 ∧
  ∀ k r, (k, r) ∈ runPurgeVisitor c C ↔
    ∃ e, shard_get c C k = Some e ∧ e_has e flagNegative = false ∧ r = returnValue c (loadValue e).
Proof.
  intros Hwf. split.
  - apply (gather_nodup _ _ c d); [done|]. intros e x. destruct (e_has e flagNegative); [done|]. by intros [= <-].
  - intros k r. unfold runPurgeVisitor. rewrite (gather_in _ c d) //. split.
    + intros (k' & e & He & Hx). destruct (e_has e flagNegative) eqn:Hn; [done|]. injection Hx as <- <-.
      rewrite (lookup_home c d C k' e Hwf He). by exists e.
    + intros (e & He & Hn & ->). exists k, e. rewrite Hn (lookup_home c d C k e Hwf He). done.
Qed.

(** C16: a cache without Store and queued writes whose byte counter is exact, as it is without
    negative caching, ends up empty when it is closed and stays empty,
    whatever operations of [Run], background work and late writes run between
    the sections of [Close] and after it: no key is found, both counters are
    zero, reads miss and writes return [ErrClosed].  The purge visitor is
    shown every entry that is in the cache when it runs, once each. *)
Theorem close_final c C hs1 hs2 hs3 :
  cache_wf c 0 C → overBudget (c_g C) = false → g_sealed (c_g C) = false →
  Forall happening_ok (hs1 ++ hs2 ++ hs3) →
  let C1 := happen_all c (closeFlag C) hs1 in
  let C2 := happen_all c (closeSeal C1) hs2 in
  let C3 := happen_all c (closeEnd c C2) hs3 in
  (NoDup (runPurgeVisitor c C2).*1 ∧
   ∀ k r, (k, r) ∈ runPurgeVisitor c C2 ↔
     ∃ e, shard_get c C2 k = Some e ∧ e_has e flagNegative = false ∧ r = returnValue c (loadValue e)) ∧
  (∀ k, shard_get c C3 k = None) ∧ Len C3 = 0 ∧ Bytes C3 = 0 ∧
  (∀ k, (Get c C3 k).2 = None) ∧ (∀ k v, (Set_ c C3 k v).2 = Some ErrClosed).
Proof.
  intros Hwf Ho Hsl Hh. rewrite !Forall_app in Hh. destruct Hh as (Hh1 & Hh2 & Hh3). cbv zeta.
  assert (shut c false (closeFlag C)) as HS0 by (constructor; [by apply flags_wf|done..]).
  destruct (happen_all_shut c false _ hs1 Hh1 HS0) as [HS1 _]. set (C1 := happen_all c (closeFlag C) hs1) in *.
  destruct (happen_all_shut c true _ hs2 Hh2 (seal_shut c C1 HS1)) as [HS2 _]. set (C2 := happen_all c (closeSeal C1) hs2) in *.
  destruct (end_shut c C2 HS2) as [HE Hnone].
  destruct (happen_all_shut c true _ hs3 Hh3 HE) as [HS3 Hget]. set (C3 := happen_all c (closeEnd c C2) hs3) in *.
  assert (∀ k, shard_get c C3 k = None) as Hn3.
  { intros k. destruct (shard_get c C3 k) as [e|] eqn:He; [|done]. apply Hget in He; [|done]. by rewrite Hnone in He. }
  split; [eapply visitor_spec, HS2|]. split; [done|]. destruct (st_wf _ _ _ HS3) as [ms HI].
  destruct (empty_counters c 0 C3 ms HI Hn3) as [N1 N2]. split; [done|]. split; [done|].
  pose proof (st_closed _ _ _ HS3) as Hc. split.
  - intros k. by rewrite /Get Hc.
  - intros k v. by rewrite /Set_ setTTLCtx_closed.
Qed.
End close.

(** Three entries; a write that was under way when the flag was set still
    lands, one that comes after the seal does not. *)
Lemma close_final_witness :
  let C := run_all plain (znew plain 0) [OpSet 1 10; OpSetWithTTL 2 20 500; OpSet 3 30] in
  let C1 := happen_all plain (closeFlag C) [Called (OpSet 4 40); Late (LateSet 5 50 1 0 false 0 [])] in
  let C2 := happen_all plain (closeSeal C1) [Late (LateSet 6 60 1 0 false 0 []); Called (OpDelete 1)] in
  let C3 := happen_all plain (closeEnd plain C2) [Late (LateSetUntil 7 70 1 None []); Called (OpFinishLoad 8 1 (LoadOk 80 0))] in
  length (runPurgeVisitor plain C2) = 4%nat ∧ Len C2 = 4 ∧ Len C3 = 0 ∧ Bytes C3 = 0 ∧
  (Get plain C3 5).2 = None ∧ (Set_ plain C3 7 70).2 = Some ErrClosed.
Proof.
  cbv zeta. set (C := run_all plain (znew plain 0) _).
  assert (cache_wf plain 0 C ∧ overBudget (c_g C) = false ∧ g_sealed (c_g C) = false) as (W1 & W2 & W3).
  { destruct (z_live 0 [OpSet 1 10; OpSetWithTTL 2 20 500; OpSet 3 30] eq_refl); auto. }
  destruct (close_final plain C [Called (OpSet 4 40); Late (LateSet 5 50 1 0 false 0 [])]
    [Late (LateSet 6 60 1 0 false 0 []); Called (OpDelete 1)]
    [Late (LateSetUntil 7 70 1 None []); Called (OpFinishLoad 8 1 (LoadOk 80 0))] W1 W2 W3) as (_ & _ & H3 & H4 & H5 & H6).
  { repeat constructor; cbn; lia. }
  split; [vm_compute; reflexivity|]. split; [vm_compute; reflexivity|]. split; [exact H3|]. split; [exact H4|].
  split; [apply H5|apply H6].
Defined.
