(* ===== verification/Diagnose.v ===== *)
(** * Diagnose: listings, rankings and histograms ([diagnose.go], [stats.go])

    Everything here reads the cache: the listings walk the shards ([gather])
    and the rankings sort a listing with [sort.Slice] and cut it.  [Dump] only
    formats what [Items] and [Stats] return. *)

From stdpp Require Import sorting.
From S2P Require Import Prelude Sorting Policy Storage Ttl Entry Tags Flights Shard Admission ShardInv ShardOps ShardBulk.
From S2P Require Import Lru Heap Cache CacheInv CacheOps CacheReads Walk Bulk Run CacheNew Concrete CacheProps.

#[local] Open Scope Z_scope.

(** ** Buckets *)

Definition second : Z := 1000000000.

Definition ageBucket (d : Z) : nat :=
  if bool_decide (d < second) then 0%nat
  else if bool_decide (d < 10 * second) then 1%nat
  else if bool_decide (d < 60 * second) then 2%nat
  else if bool_decide (d < 600 * second) then 3%nat
  else if bool_decide (d < 3600 * second) then 4%nat
  else if bool_decide (d < 24 * 3600 * second) then 5%nat
  else if bool_decide (d < 7 * 24 * 3600 * second) then 6%nat
  else 7%nat.

Definition weightBucket (w : Z) : nat :=
  if bool_decide (w < 1) then 0%nat
  else if bool_decide (w < 16) then 1%nat
  else if bool_decide (w < 256) then 2%nat
  else if bool_decide (w < 4 * 1024) then 3%nat
  else if bool_decide (w < 64 * 1024) then 4%nat
  else if bool_decide (w < 1024 * 1024) then 5%nat
  else if bool_decide (w < 16 * 1024 * 1024) then 6%nat
  else 7%nat.

Definition hitsBucket (h : Z) : nat :=
  if bool_decide (h < 1) then 0%nat
  else if bool_decide (h < 2) then 1%nat
  else if bool_decide (h < 4) then 2%nat
  else if bool_decide (h < 16) then 3%nat
  else if bool_decide (h < 64) then 4%nat
  else if bool_decide (h < 256) then 5%nat
  else 6%nat.

Record Histogram := MkHistogram {
  hi_TotalEntries : Z; hi_TotalWeight : Z; hi_Age : list Z; hi_Weight : list Z; hi_Hits : list Z }.

Definition emptyHistogram : Histogram := MkHistogram 0 0 (replicate 8 0) (replicate 8 0) (replicate 8 0).

(** [buckets[i]++] *)
Definition inc (i : nat) (buckets : list Z) : list Z := alter (λ n, i64 (n + 1)) i buckets.

(** [s[:n]], or all of it. *)
Definition topN {X} (s : list X) (n : Z) : list X :=
  if bool_decide (n <= 0) || bool_decide (Z.of_nat (length s) <= n) then s else take (Z.to_nat n) s.

Section diagnose.
Context {K V P St T A : Type} `{Countable K, Inhabited K, Inhabited V}.
Context `{EvictionPolicy K P, ShardStore K St, TtlBackend T, AdmissionPolicy K A}.
Context `{GoSort}.

Local Abbreviation entry := (entry K V).
Local Abbreviation cache := (cache K V P St T A).
Implicit Types (c : config K V) (C : cache) (e : entry) (k : K).

(** [KeyedItem]: the key, the value and what [metadata] tells. *)
Record KeyedItem := MkKeyedItem { ki_key : K; ki_value : V; ki_meta : Metadata }.

Definition item c e : KeyedItem := MkKeyedItem (e_key e) (returnValue c (loadValue e)) (metadata e).

(** What a listing at [now] shows of an entry. *)
Definition listed c (now : Z) e : option KeyedItem :=
  if entry_expired e now || e_has e flagNegative then None else Some (item c e).

Definition Items c C : cache * list KeyedItem :=
  if g_closed (c_g C) then (C, [])
  else let '(now, g) := clockNow c (c_g C) in (set_g C g, gather (listed c now) C).

Definition ItemMetadata c C k : cache * option Metadata :=
  if g_closed (c_g C) then (C, None)
  else
    let '(now, g) := clockNow c (c_g C) in
    (set_g C g,
     e ← shard_get c C k; if entry_expired e now || e_has e flagNegative then None else Some (metadata e)).

Definition hotter (a b : KeyedItem) : bool := bool_decide (md_Hits (ki_meta a) > md_Hits (ki_meta b)).
Definition colder (a b : KeyedItem) : bool := bool_decide (md_Hits (ki_meta a) < md_Hits (ki_meta b)).
Definition older (a b : KeyedItem) : bool := bool_decide (md_Inserted (ki_meta a) < md_Inserted (ki_meta b)).
Definition hasExpiry (a : KeyedItem) : bool := bool_decide (is_Some (md_Expiry (ki_meta a))).
Definition sooner (a b : KeyedItem) : bool :=
  bool_decide (default 0 (md_Expiry (ki_meta a)) < default 0 (md_Expiry (ki_meta b))).

Definition Hottest c C (n : Z) : cache * list KeyedItem :=
  let '(C, all) := Items c C in (C, topN (sort_Slice hotter all) n).

Definition Coldest c C (n : Z) : cache * list KeyedItem :=
  let '(C, all) := Items c C in (C, topN (sort_Slice colder all) n).

Definition LongestLived c C (n : Z) : cache * list KeyedItem :=
  let '(C, all) := Items c C in (C, topN (sort_Slice older all) n).

Definition SoonestExpiring c C (n : Z) : cache * list KeyedItem :=
  let '(C, all) := Items c C in (C, topN (sort_Slice sooner (filter (λ a, hasExpiry a = true) all)) n).

(** One turn of the walk of [Histogram].  [Sub] saturates beyond every bound
    of the buckets. *)
Definition tally (now : Z) (h : Histogram) e : Histogram :=
  MkHistogram (i64 (hi_TotalEntries h + 1)) (i64 (hi_TotalWeight h + e_weight e))
    (inc (ageBucket (now - e_inserted e)) (hi_Age h)) (inc (weightBucket (e_weight e)) (hi_Weight h))
    (inc (hitsBucket (e_hits e)) (hi_Hits h)).

Definition Histogram_ c C : cache * Histogram :=
  if g_closed (c_g C) then (C, emptyHistogram)
  else
    let '(now, g) := clockNow c (c_g C) in
    (set_g C g,
     foldl (tally now) emptyHistogram (gather (λ e, if entry_expired e now || e_has e flagNegative then None else Some e) C)).

(** ** Statistics *)

(** The counters, the live state and the time of the snapshot; the latency
    digest, the up-time and the detail of the policy are not modelled. *)
Record Stats := MkStats {
  ss_counters : counter → Z; ss_Entries : Z; ss_Bytes : Z; ss_Capacity : Z; ss_TagsTracked : Z; ss_Compactions : Z; ss_At : Z }.

Definition Stats_ c C : cache * Stats :=
  let '(now, g) := clockNow c (c_g C) in
  (set_g C g,
   MkStats (g_counters g) (g_entries g) (g_bytes g) (Capacity C) (ti_distinctTagCount (g_tags g))
     (foldl (λ n s, u64 (n + st_compactions (sh_storage s))) 0 (c_shards C)) now).

(** [reset] and the read of the clock for [LastResetAt]. *)
Definition resetCounters (g : globals K V A) : globals K V A :=
  Globals (g_entries g) (g_bytes g) (λ _, 0) (g_tags g) (g_untagQueue g) (g_tagOverflows g) (g_admission g)
    (g_closed g) (g_sealed g) (g_maxEntries g) (g_maxBytes g) (g_shedNext g) (g_tick g) (g_rtick g) (g_fx g).

Definition ResetStats c C : cache := let '(_, g) := clockNow c (resetCounters (c_g C)) in set_g C g.
End diagnose.
Arguments KeyedItem : clear implicits.

(** ** Rankings *)

(** [topN] is a prefix, all of the list or [n] of it. *)
Lemma topN_split {X} (s : list X) n :
  ∃ rest, s = topN s n ++ rest ∧ (rest = [] ∨ 0 < n ∧ Z.of_nat (length (topN s n)) = n) ∧
    (0 < n → Z.of_nat (length (topN s n)) <= n).
Proof.
  unfold topN. destruct (bool_decide (n <= 0) || bool_decide (Z.of_nat (length s) <= n)) eqn:E.
  - exists []. rewrite app_nil_r. split; [done|]. split; [by left|]. intros Hn. apply orb_true_iff in E as [E|E]; apply bool_decide_eq_true in E; lia.
  - apply orb_false_iff in E as [E1%bool_decide_eq_false E2%bool_decide_eq_false]. exists (drop (Z.to_nat n) s).
    rewrite take_drop length_take. split; [done|]. split; [right|]; lia.
Qed.

Section rankings.
Context {K V P St T A : Type} `{Countable K, Inhabited K, Inhabited V}.
Context `{EvictionPolicy K P, ShardStore K St, TtlBackend T, AdmissionPolicy K A}.
Context `{!PolicyLaws K P, !StoreLaws K St, !TtlLaws T, GoSort}.

Local Abbreviation cache := (cache K V P St T A).
Implicit Types (c : config K V) (C : cache) (k : K).

(** [x] shows the live entry [e]. *)
Record shows c (now : Z) (e : entry K V) (x : KeyedItem K V) : Prop := Shows {
  sw_fresh : entry_expired e now = false;
  sw_positive : e_has e flagNegative = false;
  sw_key : ki_key x = e_key e;
  sw_value : ki_value x = returnValue c (loadValue e);
  sw_meta : ki_meta x = metadata e }.

Lemma listed_shows c now e x : listed c now e = Some x ↔ shows c now e x.
Proof.
  unfold listed. split.
  - destruct (entry_expired e now) eqn:E1, (e_has e flagNegative) eqn:E2; intros [= <-]. done.
  - intros [-> -> H1' H2' H3']. cbn. f_equal. destruct x. cbn in *. unfold item. congruence.
Qed.

(** [l] ranks the live entries that [keep] selects by [key], lowest first, and
    shows at most [n] of them when [n] is positive: no entry it leaves out
    ranks before one it shows. *)
Record ranking c C (now : Z) (keep : KeyedItem K V → bool) (key : KeyedItem K V → Z) (n : Z) (l : list (KeyedItem K V)) : Prop := Ranking {
  rk_nodup : NoDup (ki_key <$> l);
  rk_sorted : sorted_by key l;
  rk_length : 0 < n → Z.of_nat (length l) <= n;
  rk_live x : x ∈ l → keep x = true ∧ ∃ e, shard_get c C (ki_key x) = Some e ∧ shows c now e x;
  rk_best k e x : shard_get c C k = Some e → shows c now e x → keep x = true →
    x ∈ l ∨ 0 < n ∧ Z.of_nat (length l) = n ∧ ∀ y, y ∈ l → key y <= key x }.

Lemma listed_key c now e x : listed c now e = Some x → ki_key x = e_key e.
Proof. unfold listed. by destruct (_ || _); intros [= <-]. Qed.

Lemma ranking_of c d C now keep less key n :
  cache_wf c d C → less_by less key →
  ranking c C now keep key n (topN (sort_Slice less (filter (λ x, keep x = true) (gather (listed c now) C))) n).
Proof.
  intros Hwf Hk. set (all := filter (λ x, keep x = true) (gather (listed c now) C)).
  assert (Hall : ∀ x, x ∈ all ↔ keep x = true ∧ ∃ k e, shard_get c C k = Some e ∧ listed c now e = Some x).
  { intros x. unfold all. by rewrite list_elem_of_filter (gather_in _ c d C x Hwf). }
  assert (Hnd : NoDup (ki_key <$> all)).
  { assert (sublist (ki_key <$> all) (ki_key <$> gather (listed c now) C)) as Hs by apply fmap_sublist, sublist_filter.
    eapply sublist_NoDup; [|exact Hs]. eapply gather_nodup; [done|]. apply listed_key. }
  pose proof (sort_Slice_perm less all) as Hp. pose proof (sort_Slice_sorted less key all Hk) as Hs.
  destruct (topN_split (sort_Slice less all) n) as (rest & Er & Hrest & Hlen).
  assert (Hin : ∀ x, x ∈ topN (sort_Slice less all) n → x ∈ all).
  { intros x Hx. rewrite -Hp Er elem_of_app. by left. }
  split.
  - rewrite -Hp Er fmap_app in Hnd. by apply NoDup_app in Hnd as [? _].
  - rewrite Er in Hs. by eapply StronglySorted_app_1_l.
  - done.
  - intros x [Hx (k & e & He & Hl)]%Hin%Hall. split; [done|]. exists e. split; [|by apply listed_shows].
    pose proof (lookup_home c d C k e Hwf He) as Ek. by rewrite (listed_key c now e x Hl) Ek.
  - intros k e x He Hl%listed_shows Hx. assert (x ∈ all) as Ha by (apply Hall; eauto). rewrite -Hp Er elem_of_app in Ha.
    destruct Ha as [Ha|Ha]; [by left|]. destruct Hrest as [->|[Hn Hc]]; [by apply not_elem_of_nil in Ha|].
    right. split; [done|]. split; [done|]. intros y Hy. rewrite Er in Hs. by eapply (StronglySorted_app_1_elem_of (λ a b, key a <= key b)).
Qed.

Lemma filter_all {X} (l : list X) : filter (λ _ : X, true = true) l = l.
Proof. induction l as [|x l IH]; [done|]. rewrite filter_cons IH. by destruct (decide _). Qed.

Lemma ranking_all c d C now less key n :
  cache_wf c d C → less_by less key → ranking c C now (λ _, true) key n (topN (sort_Slice less (gather (listed c now) C)) n).
Proof. intros Hwf Hk. pose proof (ranking_of c d C now (λ _, true) less key n Hwf Hk) as Hr. by rewrite filter_all in Hr. Qed.

(** C20: the rankings of the diagnostics: [Hottest], [Coldest], [LongestLived]
    and [SoonestExpiring] show each entry whose TTL has not passed and that is
    no tombstone (the function of [WithExpireFunc] is not consulted) at most
    once, with its current value and metadata, in the order of hit count,
    insertion time or expiry; a positive [n] bounds their length and such an
    entry is left out only for [n] entries that rank no later;
    [SoonestExpiring] shows those with a TTL and no others. *)
Theorem rankings c C n :
  cache_wf c 0 C → g_closed (c_g C) = false →
  let now := cf_clock c (g_tick (c_g C)) in
  ranking c C now (λ _, true) (λ x, - md_Hits (ki_meta x)) n (Hottest c C n).2 ∧
  ranking c C now (λ _, true) (λ x, md_Hits (ki_meta x)) n (Coldest c C n).2 ∧
  ranking c C now (λ _, true) (λ x, md_Inserted (ki_meta x)) n (LongestLived c C n).2 ∧
  ranking c C now hasExpiry (λ x, default 0 (md_Expiry (ki_meta x))) n (SoonestExpiring c C n).2.
Proof.
  intros Hwf Hc. cbn zeta. unfold Hottest, Coldest, LongestLived, SoonestExpiring, Items. rewrite Hc. cbn [clockNow fst snd].
  split; [|split; [|split]].
  - eapply ranking_all; [done|]. intros a b. unfold hotter. rewrite bool_decide_eq_true. lia.
  - eapply ranking_all; [done|]. intros a b. apply bool_decide_eq_true.
  - eapply ranking_all; [done|]. intros a b. apply bool_decide_eq_true.
  - eapply ranking_of; [done|]. intros a b. apply bool_decide_eq_true.
Qed.
End rankings.

(** ** Histograms *)

(** How many of [l] fall in bucket [i]. *)
Definition in_bucket {X} (bucket : X → nat) (i : nat) (l : list X) : Z :=
  Z.of_nat (length (filter (λ x, bool_decide (bucket x = i) = true) l)).

Lemma inc_lookup i j b : inc i b !! j = (λ n, if bool_decide (i = j) then i64 (n + 1) else n) <$> b !! j.
Proof.
  unfold inc. destruct (decide (i = j)) as [->|Hne].
  - rewrite list_lookup_alter_eq bool_decide_eq_true_2 //.
  - rewrite list_lookup_alter_ne // bool_decide_eq_false_2 //. by destruct (b !! j).
Qed.

Lemma inc_fold {X} (bucket : X → nat) (l : list X) b j n :
  b !! j = Some (i64 n) → foldl (λ b x, inc (bucket x) b) b l !! j = Some (i64 (n + in_bucket bucket j l)).
Proof.
  revert b n. induction l as [|x l IH]; intros b n Hb; cbn [foldl]; [by rewrite Hb /in_bucket Z.add_0_r|].
  unfold in_bucket. rewrite filter_cons. case_bool_decide as E.
  - rewrite (IH _ (n + 1)); [|by rewrite inc_lookup Hb /= bool_decide_eq_true_2 // i64_add].
    do 2 f_equal. unfold in_bucket. destruct (decide _) as [_|[]]; [|done]. cbn. lia.
  - destruct (decide _) as [[=]|_]. apply IH. by rewrite inc_lookup Hb /= bool_decide_eq_false_2.
Qed.

Section histograms.
Context {K V P St T A : Type} `{Countable K, Inhabited K, Inhabited V}.
Context `{EvictionPolicy K P, ShardStore K St, TtlBackend T, AdmissionPolicy K A}.

Local Abbreviation cache := (cache K V P St T A).
Implicit Types (c : config K V) (C : cache) (k : K).

Lemma tally_fold now (l : list (entry K V)) h :
  let h' := foldl (tally now) h l in
  hi_TotalEntries h' = foldl (λ n _, i64 (n + 1)) (hi_TotalEntries h) l ∧
  hi_TotalWeight h' = foldl (λ n e, i64 (n + e_weight e)) (hi_TotalWeight h) l ∧
  hi_Age h' = foldl (λ b e, inc (ageBucket (now - e_inserted e)) b) (hi_Age h) l ∧
  hi_Weight h' = foldl (λ b e, inc (weightBucket (e_weight e)) b) (hi_Weight h) l ∧
  hi_Hits h' = foldl (λ b e, inc (hitsBucket (e_hits e)) b) (hi_Hits h) l.
Proof. revert h. induction l as [|e l IH]; intros h; cbn; [done|]. apply (IH (tally now h e)). Qed.

Lemma fold_i64 {X} (f : X → Z) (l : list X) n :
  foldl (λ n x, i64 (n + f x)) (i64 n) l = i64 (n + foldr (λ x s, f x + s) 0 l).
Proof.
  revert n. induction l as [|x l IH]; intros n; cbn; [by rewrite Z.add_0_r|]. rewrite i64_add IH. f_equal. lia.
Qed.

(** [Histogram] counts every live entry once: in its totals, and in one bucket
    of each kind. *)
Theorem histogram_counts c C :
  g_closed (c_g C) = false →
  let now := cf_clock c (g_tick (c_g C)) in
  let l := gather (λ e, if entry_expired e now || e_has e flagNegative then None else Some e) C in
  let h := (Histogram_ c C).2 in
  hi_TotalEntries h = i64 (Z.of_nat (length l)) ∧
  hi_TotalWeight h = i64 (foldr (λ e s, e_weight e + s) 0 l) ∧
  ∀ i, (i < 8)%nat →
    hi_Age h !! i = Some (i64 (in_bucket (λ e, ageBucket (now - e_inserted e)) i l)) ∧
    hi_Weight h !! i = Some (i64 (in_bucket (λ e, weightBucket (e_weight e)) i l)) ∧
    hi_Hits h !! i = Some (i64 (in_bucket (λ e, hitsBucket (e_hits e)) i l)).
Proof.
  intros Hc. unfold Histogram_. rewrite Hc. cbn [clockNow snd]. cbv zeta. generalize (cf_clock c (g_tick (c_g C))) => now.
  set (l := gather _ C). destruct (tally_fold now l emptyHistogram) as (-> & -> & -> & -> & ->). split; [|split].
  - change (hi_TotalEntries emptyHistogram) with (i64 0). rewrite (fold_i64 (λ _, 1)). f_equal.
    generalize l. intros l'. induction l' as [|e l' IH]; cbn in *; lia.
  - change (hi_TotalWeight emptyHistogram) with (i64 0). by rewrite (fold_i64 e_weight).
  - intros i Hi. assert (replicate 8 0 !! i = Some (i64 0)) as Hr by (by apply lookup_replicate_2).
    split_and!; by apply (inc_fold _ _ _ _ 0).
Qed.

(** ** Statistics *)

(** [ResetStats] zeroes every counter and nothing else that [Stats] reports:
    the live counts, the bound and the tags stay, and so does every entry. *)
Theorem ResetStats_live c C :
  let C' := ResetStats c C in
  c_shards C' = c_shards C ∧
  (∀ i, ss_counters (Stats_ c C').2 i = 0) ∧
  ss_Entries (Stats_ c C').2 = ss_Entries (Stats_ c C).2 ∧ ss_Bytes (Stats_ c C').2 = ss_Bytes (Stats_ c C).2 ∧
  ss_Capacity (Stats_ c C').2 = ss_Capacity (Stats_ c C).2 ∧ ss_TagsTracked (Stats_ c C').2 = ss_TagsTracked (Stats_ c C).2.
Proof. done. Qed.
End histograms.

(** Two reads of key 3, one of key 1; key 2 expires first. *)
Lemma rankings_witness :
  let C := run_all plain (znew plain 0) [OpSet 1 10; OpSetWithTTL 2 20 500; OpSetWithTTL 3 30 900; OpGet 3; OpGet 1; OpGet 3] in
  ki_key <$> (Hottest plain C 2).2 = [3; 1] ∧ ki_key <$> (SoonestExpiring plain C 1).2 = [2] ∧
  ranking plain C (cf_clock plain (g_tick (c_g C))) (λ _, true) (λ x, - md_Hits (ki_meta x)) 2 (Hottest plain C 2).2.
Proof.
  cbv zeta. split; [vm_compute; reflexivity|]. split; [vm_compute; reflexivity|].
  set (os := [OpSet 1 10; OpSetWithTTL 2 20 500; OpSetWithTTL 3 30 900; OpGet 3; OpGet 1; OpGet 3]).
  assert (live plain (run_all plain (znew plain 0) os)) as [W1 W2] by (apply z_live; vm_compute; done).
  exact (proj1 (rankings plain (run_all plain (znew plain 0) os) 2 W1 eq_refl)).
Defined.
