(* ===== verification/View.v ===== *)
(** * View: read-only handles, values with a key, clones ([view.go], [cacheable.go])

    A [CacheView] shares the cache it was made from, or is nil.  Its methods
    are those of the cache behind a test for nil, so a view is the cache or
    None.

    [Clone] builds a cache with the options of the original and copies the
    live entries into it, shard by shard, without the eviction and admission
    of an ordinary write.  What [build] makes for the copy (policies, tables,
    TTL backends, admission) is an argument. *)

From S2P Require Import Prelude Sorting Policy Lru Storage Ttl Heap Entry Tags Flights Shard Admission ShardInv ShardOps ShardBulk.
From S2P Require Import Cache Bulk CacheInv CacheOps CacheReads CacheKeep Walk Run CacheNew Concrete CacheProps BulkProps Diagnose.

#[local] Open Scope Z_scope.

Section view.
Context {K V P St T A : Type} `{Countable K, Inhabited K, Inhabited V}.
Context `{EvictionPolicy K P, ShardStore K St, TtlBackend T, AdmissionPolicy K A}.

Local Abbreviation cache := (cache K V P St T A).
Implicit Types (c : config K V) (C : cache) (k : K).

(** A view that is nil, or whose cache is, is None. *)
Definition CacheView : Type := option cache.

Definition View C : CacheView := Some C.

(** A method: [zero] on a nil view, else the method of the cache. *)
Definition delegate {R} (v : CacheView) (zero : R) (method : cache → cache * R) : CacheView * R :=
  match v with None => (None, zero) | Some C => let '(C, r) := method C in (Some C, r) end.

Definition View_Get c (v : CacheView) k : CacheView * option V := delegate v None (λ C, Get c C k).
Definition View_Peek c (v : CacheView) k : CacheView * option V := delegate v None (λ C, Peek c C k).
Definition View_Has c (v : CacheView) k : CacheView * bool := delegate v false (λ C, Has c C k).
Definition View_TTL c (v : CacheView) k : CacheView * option Z := delegate v None (λ C, TTL c C k).
Definition View_Expiry c (v : CacheView) k : CacheView * option (option Z) := delegate v None (λ C, Expiry c C k).
Definition View_Range {R} c (v : CacheView) (fn : option (K → V → cache * R → cache * R * bool)) (r : R) : CacheView * R :=
  delegate v r (λ C, Range c C fn r).
Definition View_Keys c (v : CacheView) : CacheView * list K := delegate v [] (Keys c).
Definition View_Len (v : CacheView) : Z := from_option Len 0 v.
Definition View_Bytes (v : CacheView) : Z := from_option Bytes 0 v.
Definition zeroStats : Stats := MkStats (λ _, 0) 0 0 0 0 0 0.
Definition View_Stats c (v : CacheView) : CacheView * Stats := delegate v zeroStats (Stats_ c).

(** [SetCacheable], [GetCacheable] and [DeleteCacheable] of values whose key
    is [CacheKey]; None is a call without options. *)
Section cacheable.
Context (CacheKey : V → K).

Definition SetCacheable c C (v : V) (opts : option setConfig) : cache * option error :=
  match opts with None => Set_ c C (CacheKey v) v | Some sc => setWithOptions c C (CacheKey v) v sc end.

Definition GetCacheable c C (proto : V) : cache * option V := Get c C (CacheKey proto).

Definition DeleteCacheable c C (proto : V) : cache * bool := Delete c C (CacheKey proto).
End cacheable.

(** ** A view only reads *)

Inductive viewOp :=
  | VGet (k : K) | VPeek (k : K) | VHas (k : K) | VTTL (k : K) | VExpiry (k : K) | VKeys | VStats
  | VRange (fn : K → V → nat → nat * bool) (n : nat).

Definition view_run c (v : CacheView) (o : viewOp) : CacheView :=
  match o with
  | VGet k => (View_Get c v k).1
  | VPeek k => (View_Peek c v k).1
  | VHas k => (View_Has c v k).1
  | VTTL k => (View_TTL c v k).1
  | VExpiry k => (View_Expiry c v k).1
  | VKeys => (View_Keys c v).1
  | VStats => (View_Stats c v).1
  | VRange fn n => (View_Range c v (Some (quiet fn)) n).1
  end.

Definition view_run_all c : CacheView → list viewOp → CacheView := foldl (view_run c).

Context `{!PolicyLaws K P, !StoreLaws K St, !TtlLaws T}.

Lemma delegate_cache {R} C (zero : R) method : (delegate (Some C) zero method).1 = Some (method C).1.
Proof. cbn. by destruct (method C). Qed.

Lemma Keys_cache c C : (Keys c C).1 = C ∨ (Keys c C).1 = set_g C (clockNow c (c_g C)).2.
Proof.
  unfold Keys, eachShard. destruct (g_closed (c_g C)); [by left|right]. cbn. set (C1 := set_g C _). generalize (@nil K).
  induction (seq 0 (length (c_shards C))) as [|i l IH]; intros ks; cbn; [done|]. apply IH.
Qed.

(** Whatever a view is asked, the cache changes as a read may change it. *)
Lemma viewOp_vstep c C o : cache_wf c 0 C → ∃ C', view_run c (Some C) o = Some C' ∧ vstep c 0 None C C'.
Proof.
  intros Hwf. pose proof (clock_vstep c 0 C Hwf) as Hc. pose proof (vstep_refl c 0 C Hwf) as Hr.
  destruct o as [k|k|k|k|k| | |fn n]; cbn [view_run];
    unfold View_Get, View_Peek, View_Has, View_TTL, View_Expiry, View_Keys, View_Stats, View_Range;
    rewrite delegate_cache; (eexists; split; [reflexivity|]).
  - pose proof (Get_get c 0 C k Hwf (Z.le_refl 0)) as Hg. destruct (Get c C k). by destruct Hg.
  - unfold Peek. by destruct (g_closed (c_g C)).
  - unfold Has. by destruct (g_closed (c_g C)).
  - unfold TTL. by destruct (g_closed (c_g C)).
  - unfold Expiry. by destruct (g_closed (c_g C)).
  - by destruct (Keys_cache c C) as [->| ->].
  - done.
  - unfold Range. destruct (g_closed (c_g C)); [done|]. cbn. by rewrite range_quiet.
Qed.

(** A view reads: however it is used, the cache stays well-formed and within
    its bounds, keeps its bounds and whether it is closed, and shows no value
    that it did not show before. *)
Theorem view_reads c C os :
  cache_wf c 0 C → ∃ C', view_run_all c (View C) os = Some C' ∧ vstep c 0 None C C'.
Proof.
  revert C. induction os as [|o os IH]; intros C Hwf; [exists C; split; [done|by apply vstep_refl]|].
  destruct (viewOp_vstep c C o Hwf) as (C1 & E1 & S1). destruct (IH C1 (vs_wf _ _ _ _ _ S1)) as (C2 & E2 & S2).
  exists C2. split; [by rewrite /view_run_all /= E1|]. exact (vstep_trans _ _ _ _ _ _ _ S1 S2 (or_introl eq_refl)).
Qed.
End view.

(** ** Clones *)

Section clone.
Context {K V P St T A : Type} `{Countable K, Inhabited K, Inhabited V}.
Context `{EvictionPolicy K P, ShardStore K St, TtlBackend T, AdmissionPolicy K A}.

Local Abbreviation entry := (entry K V).
Local Abbreviation config := (config K V).
Local Abbreviation globals := (globals K V A).
Local Abbreviation shard := (shard K V P St T).
Local Abbreviation cache := (cache K V P St T A).
Implicit Types (c : config) (C : cache) (g : globals) (s : shard) (e : entry) (k : K).

(** [cfgCopy]: the current byte bound and no publisher.  The copy reads the
    same clock, after the reads made so far. *)
Definition cloneConfig c C : config :=
  Config (cf_hasher c) (cf_shardMask c) (cf_weigher c) (cf_expireFunc c) (cf_autoTags c) (cf_valueTTL c) (cf_copyOnGet c)
    (cf_keyLen c) (g_maxBytes (c_g C)) (cf_maxKeySize c) (cf_maxValueWeight c) (cf_maxTagsPerEntry c) (cf_maxTagsTotal c)
    (cf_defaultTTL c) (cf_slidingTTL c) (cf_ttlJitter c) (cf_negativeTTL c) (cf_errorTTL c) (cf_janitorInterval c)
    (cf_statsEnabled c) (cf_lockFreeRead c) (cf_loader c) (cf_refreshAhead c) (cf_swrStaleFor c) (cf_groups c)
    (cf_onHit c) (cf_onMiss c) (cf_onEvict c) (cf_onExpire c) (cf_onLoad c) false (cf_events c)
    (λ n, cf_clock c (S (g_tick (c_g C)) + n)) (cf_rand c) (cf_poolPick c).

(** The entries the walk stages. *)
Definition stagedClone c (now : Z) e : option entry :=
  if entryExpiredLocked c e now || e_has e flagNegative then None else Some e.

(** The field writes, on a pooled entry [ne]. *)
Definition entry_clone (ne ce : entry) : entry :=
  let ne := set_identity ne (e_key ce) (e_inserted ce) in
  let ne := storeValue ne (loadValue ce) in
  let ne := set_weight ne (e_weight ce) in
  let ne := set_times ne (e_expireAt ce) (e_lastAccess ce) in
  let ne := set_sliding ne (e_flags ce) (e_slidingTTL ce) in
  set_tags ne (e_tags ce).

Definition cloneLocked c g s (ce : entry) : globals * shard :=
  let '(a, s) := pool_get c s in
  match sh_heap s !! a with
  | None => (g, s)
  | Some ne =>
      let s := sh_write s a (entry_clone ne ce) in
      let s := register s (e_key ce) a in
      let g := retagLocked g (e_key ce) [] (e_tags ce) in
      let s := if bool_decide (0 < e_expireAt ce) then startJanitorLocked c g s else s in
      (g_live g 1 (e_weight ce), s)
  end.

Definition cloneEntry c C (ce : entry) : cache := locked_ C (shardFor c (e_key ce)) (λ g s, cloneLocked c g s ce).

Definition Clone c C (shards : Z) (coll : bool) (newPolicy : Z → P) (newTTL : T) (newStore : St) (adm : A)
    : cache * (error + cache) :=
  if g_closed (c_g C) then (C, inl ErrClosed)
  else
    let c' := cloneConfig c C in
    let clone := newCache c' (g_maxEntries (c_g C)) shards coll newPolicy newTTL newStore adm in
    let '(now, g) := clockNow c (c_g C) in
    (set_g C g, inr (foldl (cloneEntry c') clone (gather (stagedClone c now) C))).

(** ** The copy of one entry *)

Context `{!PolicyLaws K P, !StoreLaws K St, !TtlLaws T}.
Local Abbreviation shard_wf := (shard_wf (E := ∅)).
Local Abbreviation ok_step := (ok_step (E := ∅)).

Lemma clone_insert c g s m D ce :
  shard_wf c s m D → m !! e_key ce = None → 1 <= e_weight ce →
  let '(g', s') := cloneLocked c g s ce in
  ∃ m', ok_step c (Some (e_key ce, entry_clone entry_blank ce)) g s m g' s' m' ∧ size m' = S (size m) ∧
    g_entries g' = g_entries g + 1 ∧ g_bytes g' = g_bytes g + e_weight ce.
Proof.
  intros Hwf Hk Hw. unfold cloneLocked. set (k := e_key ce) in *. set (e' := entry_clone entry_blank ce).
  destruct (retag_spec g k [] (e_tags ce)) as (R1 & R2 & R3 & R4 & R5). pose proof (pool_get_wf c s m D Hwf) as Hp.
  pose proof (insert_ok c g s m D k e' (g_live (retagLocked g k [] (e_tags ce)) 1 (e_weight ce)) Hwf Hk) as Hi.
  destruct (pool_get c s) as [a s1]. assert (sh_heap s1 !! a = Some entry_blank) as -> by apply Hp. fold e'.
  destruct (maybe_janitor_frame c (retagLocked g k [] (e_tags ce)) (register (sh_write s1 a e') k a) (bool_decide (0 < e_expireAt ce))) as [j ->].
  exists (<[k := a]> m). split; [|by rewrite map_size_insert_None //; cbn; split_and!; lia].
  eapply ok_frame; [apply Hi|done..]; done.
Qed.

Record cloned c C ce C' : Prop := Cloned {
  cl_wf : cache_wf c 0 C';
  cl_get k : shard_get c C' k = if decide (k = e_key ce) then Some (entry_clone entry_blank ce) else shard_get c C k;
  cl_entries : g_entries (c_g C') = g_entries (c_g C) + 1;
  cl_bytes : g_bytes (c_g C') = g_bytes (c_g C) + e_weight ce;
  cl_bounds : g_maxEntries (c_g C') = g_maxEntries (c_g C) ∧ g_maxBytes (c_g C') = g_maxBytes (c_g C);
  cl_open : g_closed (c_g C') = g_closed (c_g C) ∧ g_sealed (c_g C') = g_sealed (c_g C) }.

Lemma cloneEntry_ok c C ce :
  cache_wf c 0 C → shard_get c C (e_key ce) = None → 1 <= e_weight ce → cloned c C ce (cloneEntry c C ce).
Proof.
  intros [ms HI] Hnone Hw. unfold cloneEntry, locked_, locked. set (k := e_key ce) in *. set (i := shardFor c k).
  destruct (lookup_lt_is_Some_2 _ _ (home_lt _ _ _ _ k HI)) as [s Hs]. fold i in Hs. rewrite Hs.
  destruct (inv_shard _ _ _ _ _ _ HI Hs) as (m & D & Hm & Hwf).
  assert (m !! k = None) as Hk.
  { rewrite (shard_get_lookup _ _ _ _ Hs) (wf_lookup _ _ _ _ _ Hwf) in Hnone. destruct (m !! k) as [a|] eqn:Hk; [|done].
    destruct (wf_entry _ _ _ _ Hwf _ _ Hk) as (e & He & _). cbn in Hnone. congruence. }
  pose proof (clone_insert c (c_g C) s m D ce Hwf Hk Hw) as Hi. destruct (cloneLocked c (c_g C) s ce) as [g' s'].
  destruct Hi as (m' & Hok & Hsz & Hen & Hby). cbn.
  destruct (ok_exact _ _ _ _ _ _ _ _ _ _ Hwf Hok) as [X1 X2]; [by rewrite map_size_insert_None|].
  assert (i < length (c_shards C))%nat as Hi by by eapply lookup_lt_Some.
  assert (cstep c 0 (Some (k, entry_clone entry_blank ce)) C (Cache g' (<[i := s']> (c_shards C)))) as Hc.
  { eapply locked_cstep; [exact HI|exact Hs|exact Hm|exact Hok|]. by intros k' [= <-]. }
  split; [apply Hc| |done|done|apply Hc|apply Hc].
  intros k'. fold k. fold k in X1, X2. destruct (decide (shardFor c k' = i)) as [Hk'|Hk'].
  - rewrite (shard_get_lookup _ _ _ s'); [|by cbn; rewrite Hk' list_lookup_insert_eq].
    destruct (decide (k' = k)) as [->|Hne]; [done|]. rewrite (shard_get_lookup _ _ _ s); [|by rewrite Hk']. by apply X2.
  - destruct (decide (k' = k)) as [->|Hne]; [by destruct Hk'|]. unfold shard_get. cbn. by rewrite list_lookup_insert_ne.
Qed.

(** ** The loop *)

Lemma clone_loop c C staged :
  cache_wf c 0 C → NoDup (e_key <$> staged) → (∀ e, e ∈ staged → shard_get c C (e_key e) = None ∧ 1 <= e_weight e) →
  let C' := foldl (cloneEntry c) C staged in
  cache_wf c 0 C' ∧ (∀ e, e ∈ staged → shard_get c C' (e_key e) = Some (entry_clone entry_blank e)) ∧
  (∀ k, k ∉ (e_key <$> staged) → shard_get c C' k = shard_get c C k) ∧
  g_entries (c_g C') = g_entries (c_g C) + Z.of_nat (length staged) ∧
  g_bytes (c_g C') = g_bytes (c_g C) + sumZ (e_weight <$> staged) ∧
  g_maxEntries (c_g C') = g_maxEntries (c_g C) ∧ g_maxBytes (c_g C') = g_maxBytes (c_g C) ∧
  g_closed (c_g C') = g_closed (c_g C) ∧ g_sealed (c_g C') = g_sealed (c_g C).
Proof.
  revert C. induction staged as [|e l IH]; intros C Hwf Hnd Hin; cbn [foldl].
  { cbn. split_and!; try done; [by intros ? ?%elem_of_nil|lia|unfold sumZ; cbn; lia]. }
  cbn in Hnd. apply NoDup_cons in Hnd as [Hk Hnd]. destruct (Hin e) as [Hn Hw]; [left|].
  destruct (cloneEntry_ok c C e Hwf Hn Hw) as [A1 A2 A3 A4 [A5 A6] [A7 A8]].
  destruct (IH (cloneEntry c C e) A1 Hnd) as (I1 & I2 & I3 & I4 & I5 & I6 & I7 & I8 & I9).
  { intros x Hx. destruct (Hin x) as [? ?]; [by right|]. split; [|done]. rewrite A2 decide_False //.
    intros E. apply Hk. rewrite -E. by apply list_elem_of_fmap_2. }
  cbn [length fmap list_fmap]. rewrite sumZ_cons. split_and!; [done| | |lia|lia|congruence..].
  - intros x [->|Hx]%elem_of_cons; [|by apply I2]. by rewrite I3 // A2 decide_True.
  - intros k [Hne Hk']%not_elem_of_cons. by rewrite I3 // A2 decide_False.
Qed.

(** ** What is staged fits *)

Definition only_some (f : entry → option entry) : Prop := ∀ e x, f e = Some x → x = e.

Lemma omap_bounds (f : entry → option entry) (h : gmap loc entry) l :
  only_some f → (∀ a, a ∈ l → 0 <= weight_at h a) →
  (length (omap (λ a, h !! a ≫= f) l) <= length l)%nat ∧ sumZ (e_weight <$> omap (λ a, h !! a ≫= f) l) <= lsum h l.
Proof.
  intros Hf. induction l as [|a l IH]; intros Hl; [by cbn|]. destruct IH as [I1 I2]; [intros; apply Hl; by right|].
  pose proof (Hl a (list_elem_of_here _ _)) as Ha. change (lsum h (a :: l)) with (weight_at h a + lsum h l).
  assert (weight_at h a = match h !! a with Some e => e_weight e | None => 0 end) as Ew by done. cbn [omap list_omap length].
  destruct (h !! a) as [e|]; cbn [mbind option_bind]; [|split; lia]. destruct (f e) as [x|] eqn:E; cbn [length fmap list_fmap]; [|split; lia]. apply Hf in E as ->. rewrite sumZ_cons. split; lia.
Qed.

Lemma gatherShard_bounds f c s m D :
  only_some f → shard_wf c s m D →
  Z.of_nat (length (gatherShard f s)) <= Z.of_nat (size m) ∧ sumZ (e_weight <$> gatherShard f s) <= mweight (sh_heap s) m.
Proof.
  intros Hf Hwf. pose proof (st_rep_each _ _ (wf_storage _ _ _ _ Hwf)) as Hp. unfold gatherShard.
  destruct (omap_bounds f (sh_heap s) (st_each (sh_storage s)) Hf) as [O1 O2].
  { intros a. rewrite Hp elem_of_addrs. intros [k Hk]. destruct (wf_entry _ _ _ _ Hwf _ _ Hk) as (e & He & _ & Hw & _).
    unfold weight_at. rewrite He. lia. }
  rewrite (lsum_perm _ _ _ Hp) -mweight_lsum in O2. split; [|done].
  assert (length (st_each (sh_storage s)) = size m) as Hn; [|lia].
  rewrite Hp. unfold addrs. by rewrite length_fmap length_map_to_list.
Qed.

Lemma sumZ_app l1 l2 : sumZ (l1 ++ l2) = sumZ l1 + sumZ l2.
Proof. induction l1 as [|x l1 IH]; [done|]. cbn. rewrite !sumZ_cons IH. lia. Qed.

Lemma gather_bounds f c C :
  only_some f → cache_wf c 0 C →
  Z.of_nat (length (gather f C)) <= g_entries (c_g C) ∧ sumZ (e_weight <$> gather f C) <= g_bytes (c_g C).
Proof.
  intros Hf [ms HI]. rewrite (ci_entries _ _ _ _ HI) (ci_bytes _ _ _ _ HI) Z.add_0_r. unfold gather, weights, sizes.
  assert (Forall2 (λ s m, ∃ D, shard_wf c s m D) (c_shards C) ms) as HF.
  { apply Forall2_same_length_lookup. split; [by rewrite (ci_len _ _ _ _ HI)|]. apply (ci_wf _ _ _ _ HI). }
  clear HI. induction HF as [|s m ss ms' [D Hs] _ IH]; [done|]. cbn [fmap list_fmap concat zip_with].
  destruct (gatherShard_bounds f c s m D Hf Hs) as [B1 B2].
  rewrite fmap_app sumZ_app length_app !sumZ_cons. destruct IH as [I1 I2]. split; [lia|]. lia.
Qed.

(** The copy uses the same hash and the same number of shards. *)
Lemma clone_config_ok c C shards : config_ok c shards → config_ok (cloneConfig c C) shards.
Proof. done. Qed.

(** The entry a copy should hold: all of the original but its hits. *)
Definition copy_of e : entry :=
  Entry (e_key e) (Some (loadValue e)) (e_expireAt e) (e_lastAccess e) (e_inserted e) 0 (e_weight e) (e_slidingTTL e)
    (e_tags e) (e_flags e) false.

Lemma clone_copy e : entry_clone entry_blank e = copy_of e.
Proof. done. Qed.

(** C17: [Clone] copies what a reader can see: the original changes by one read
    of the clock, the copy is well-formed, open and within the bounds of the
    original, and holds under each key the live entry of the original with
    its value, weight, times, flags and tags and no hits, and nothing for a
    key whose entry is expired, negative or absent. *)
Theorem clone_faithful c C shards coll newPolicy newTTL newStore adm :
  live c C → fresh_parts newPolicy newTTL newStore → config_ok c shards →
  let c' := cloneConfig c C in
  ∃ C', Clone c C shards coll newPolicy newTTL newStore adm = (set_g C (clockNow c (c_g C)).2, inr C') ∧
    live c' C' ∧ g_maxEntries (c_g C') = g_maxEntries (c_g C) ∧ g_maxBytes (c_g C') = g_maxBytes (c_g C) ∧
    ∀ k, shard_get c' C' k = copy_of <$> freshAt c (cf_clock c (g_tick (c_g C))) (shard_get c C k).
Proof.
  intros [Hwf Ho Hsl Hcl] HF HC. cbv zeta. set (c' := cloneConfig c C). unfold Clone. rewrite Hcl. cbn [clockNow].
  set (now := cf_clock c (g_tick (c_g C))). fold c'. set (C0 := newCache c' _ _ _ _ _ _ _). eexists. split; [done|].
  destruct (newCache_wf c' (g_maxEntries (c_g C)) shards coll newPolicy newTTL newStore adm HF (clone_config_ok c C shards HC))
    as (N1 & N2 & N3). fold C0 in N1, N2, N3.
  assert (only_some (stagedClone c now)) as Hos by (intros e x; unfold stagedClone; by destruct (_ || _); intros [= ->]).
  assert (∀ e, e ∈ gather (stagedClone c now) C ↔ ∃ k, shard_get c C k = Some e ∧ freshAt c now (Some e) = Some e) as Hin.
  { intros e. rewrite (gather_in _ c 0) //. unfold stagedClone. cbn. split.
    - intros (k & e' & He & Hf). destruct (_ || _) eqn:E; [done|]. injection Hf as ->. exists k. by rewrite E.
    - intros (k & He & Hf). exists k, e. split; [done|]. by destruct (_ || _). }
  destruct (clone_loop c' C0 (gather (stagedClone c now) C) N1) as (L1 & L2 & L3 & L4 & L5 & L6 & L7 & L8 & L9).
  { apply (gather_nodup _ _ c 0); [done|]. by intros e x ->%Hos. }
  { intros e (k & He & _)%Hin. split; [apply N3|]. pose proof Hwf as [ms HI]. unfold shard_get in He.
    apply bind_Some in He as (s & Hs & He). destruct (inv_shard _ _ _ _ _ _ HI Hs) as (m & D & Hm & Hw).
    change (sh_lookup s k = Some e) in He. rewrite (wf_lookup _ _ _ _ _ Hw) in He. apply bind_Some in He as (a & Ha & He).
    destruct (wf_entry _ _ _ _ Hw _ _ Ha) as (e' & He' & _ & Hge & _). congruence. }
  set (C' := foldl _ C0 _) in *. destruct (gather_bounds _ c C Hos Hwf) as [B1 B2].
  assert (g_maxEntries (c_g C') = g_maxEntries (c_g C) ∧ g_maxBytes (c_g C') = g_maxBytes (c_g C)) as [M1 M2] by (by rewrite L6 L7).
  split; [|split; [done|split; [done|]]].
  - split; [done| |by rewrite L9|by rewrite L8]. revert Ho. unfold overBudget. rewrite M1 M2 L4 L5.
    change (g_entries (c_g C0)) with 0. change (g_bytes (c_g C0)) with 0. rewrite !Z.add_0_l.
    repeat case_bool_decide; cbn; try done; lia.
  - intros k. destruct (freshAt c now (shard_get c C k)) as [e|] eqn:Ef.
    + destruct (shard_get c C k) as [e'|] eqn:Eg; [|done]. assert (e' = e) as ->. { revert Ef. cbn. by destruct (_ || _); [|intros [= ->]]. }
      pose proof (lookup_home c 0 C k e Hwf Eg) as <-. cbn. rewrite -clone_copy. apply L2, Hin. by exists (e_key e).
    + rewrite L3 // ?N3 //. intros (e & -> & (k' & He & Hf)%Hin)%list_elem_of_fmap.
      pose proof (lookup_home c 0 C k' e Hwf He) as E. rewrite E He Hf in Ef. done.
Qed.
End clone.

(** A cache with two live entries and one that is deleted. *)
Lemma clone_faithful_witness :
  let C := run_all plain (znew plain 3) [OpSet 1 10; OpSetWithTTL 2 20 500; OpSet 3 30; OpDelete 3] in
  ∃ C', Clone plain C 2 false (λ _, newLRU) newExpiryHeapBackend newMapStore MkAdmitAlways = (set_g C (clockNow plain (c_g C)).2, inr C') ∧
    (e_value <$> shard_get (cloneConfig plain C) C' 2) = Some (Some 20) ∧ shard_get (cloneConfig plain C) C' 3 = None.
Proof.
  cbv zeta. set (os := [OpSet 1 10; OpSetWithTTL 2 20 500; OpSet 3 30; OpDelete 3]).
  assert (live plain (run_all plain (znew plain 3) os)) as Hl by (apply z_live; vm_compute; done).
  destruct (clone_faithful plain (run_all plain (znew plain 3) os) 2 false (λ _, newLRU) newExpiryHeapBackend newMapStore MkAdmitAlways
    Hl z_fresh (z_config _ _ _ _ _ _ _)) as (C' & E & _ & _ & _ & Hg).
  exists C'. split; [exact E|]. rewrite !Hg. split; vm_compute; reflexivity.
Defined.
