(* ===== verification/Configured.v ===== *)
(** * Configured: the cache as [New] puts it together

    Every choice of the options at once: the policies of [newPolicy], the
    tables of [newShardStore] and the TTL backends of [newTTLBackend].  Since
    each meets its interface, the theorems about caches hold for all of them;
    the file instantiates them and shows that no configuration returns a
    value that was not written.  Before that, the invariant of a cache without
    a Store under every call of its API ([reachable_wf]). *)

From S2P Require Import Prelude Policy Lru Policies Storage FlatStore Ttl Heap Wheel Backends Entry Tags Flights Shard Admission.
From S2P Require Import ShardInv ShardOps ShardBulk Cache Bulk Loads Run CacheInv CacheOps CacheReads CacheRun RunInv CacheKeep.
From S2P Require Import Store StoreCache Compute StoreInv StoreSteps StoreOps Codec Snapshot Restore ComputeProps CacheBulk CacheNew Concrete CacheProps SaveLoad.

#[local] Open Scope Z_scope.

(** ** Every call of the API *)

Section calls.
Context {K V P St T A : Type} `{Countable K, Inhabited K, Inhabited V}.
Context `{EvictionPolicy K P, ShardStore K St, TtlBackend T, AdmissionPolicy K A}.
Context `{!PolicyLaws K P, !StoreLaws K St, !TtlLaws T}.

Local Abbreviation config := (config K V).
Local Abbreviation globals := (globals K V A).
Local Abbreviation shard := (shard K V P St T).
Local Abbreviation cache := (cache K V P St T A).
Local Abbreviation ok_step := (ok_step (E := ∅)).
Implicit Types (c : config) (C : cache) (g : globals) (s : shard).

(** The operations of [Run] and the calls it leaves out.  [GetMulti],
    [SetMulti] and [DeleteMulti] are sequences of operations, [Increment] and
    [Decrement] are calls of [Compute], [Save], [View] and the other reports
    leave the cache as it is; [Close] is in [CloseProps]. *)
Inductive call :=
| CallOp (o : cop (K := K) (V := V))
| CallResize (newSize : Z)
| CallCompute (k : K) (fn : option (V → bool → Z + V * ComputeAction))
| CallComputeIfAbsent (k : K) (fn : option (unit → Z + V * Z))
| CallComputeIfPresent (k : K) (fn : option (V → Z + V * ComputeAction))
| CallUpdate (k : K) (fn : option (V → V))
| CallCompareAndSwap (deepEqual : V → V → bool) (k : K) (old newValue : V)
| CallLoad (L : codecEnv) (Y : snapTypes K V) (sc : snapConfig K V) (input : bytes)
| CallMerge (L : codecEnv) (Y : snapTypes K V) (sc : snapConfig K V) (input : bytes).

(** The cache has no Store behind it. *)
Definition alone C : world K V P St T A (MemoryStore K V) := newWorld C None.

Definition perform c C (o : call) : cache :=
  match o with
  | CallOp o => run c C o
  | CallResize newSize => (Resize c C newSize).1
  | CallCompute k fn => w_mem (Compute c (alone C) k fn).1
  | CallComputeIfAbsent k fn => w_mem (ComputeIfAbsent c (alone C) k fn).1
  | CallComputeIfPresent k fn => w_mem (ComputeIfPresent c (alone C) k fn).1
  | CallUpdate k fn => w_mem (Update c (alone C) k fn).1
  | CallCompareAndSwap deq k old nv => w_mem (CompareAndSwap c deq (alone C) k old nv).1
  | CallLoad L Y sc input => (Load L Y sc c C input).1
  | CallMerge L Y sc input => (Merge L Y sc c C input).1
  end.

Definition perform_all c C (os : list call) : cache := foldl (perform c) C os.

(** [SetBudget] on one shard, and its evictions. *)
Definition resizeShardLocked c (budget : Z) g s : globals * shard * Z :=
  let s := sh_set_budget s budget in
  evictOverBudgetLocked c g (sh_set_policy s (SetBudget (sh_policy s) budget)) EvictReasonResize maxInt.

Lemma resizeShard_ok c budget g s m D :
  shard_wf (E := ∅) c s m D → let '(g', s', n) := resizeShardLocked c budget g s in ∃ m', ok_step c None g s m g' s' m'.
Proof.
  intros Hw. unfold resizeShardLocked. set (s1 := sh_set_policy _ _).
  assert (shard_wf (E := ∅) c s1 m D) as Hw1.
  { apply (set_policy_wf c (sh_set_budget s budget)); [by apply (wf_ext c s)|]. apply tracks_set_budget, Hw. }
  assert (ok_step c None g s m g s1 m) as Hok.
  { pose proof (ok_refl c g s m D Hw) as [O1 O2 O3 O4 O5 O6 O7 O8]. constructor; try done. by exists D. }
  pose proof (evictOverBudget_ok c EvictReasonResize maxInt g s1 m D Hw1 ltac:(done)) as He.
  destruct (evictOverBudgetLocked _ _ _ _ _) as [[g' s'] n]. destruct He as (m' & He & _). exists m'.
  exact (ok_trans _ _ _ _ _ _ _ _ _ _ _ _ Hok He (or_introl eq_refl)).
Qed.

Lemma locked_any_cstep {R} c C i (f : globals → shard → globals * shard * R) d :
  cache_wf c 0 C →
  (∀ s m D, shard_wf (E := ∅) c s m D → let '(g', s', r) := f (c_g C) s in ∃ m', ok_step c None (c_g C) s m g' s' m') →
  cstep c 0 None C (releaseShard c (locked C i f d).1 i).
Proof.
  intros Hwf Hf. assert (cstep c 0 None C (locked C i f d).1) as Hst.
  { pose proof Hwf as [ms HI]. unfold locked. destruct (c_shards C !! i) as [s|] eqn:Hs; [|by apply cstep_refl].
    destruct (inv_shard _ _ _ _ _ _ HI Hs) as (m & D & Hm & Hw). specialize (Hf s m D Hw).
    destruct (f (c_g C) s) as [[g' s'] r]. destruct Hf as [m' Hok]. by eapply locked_cstep. }
  exact (cstep_trans _ _ _ _ _ _ _ Hst (releaseShard_cstep _ _ _ i (cs_wf _ _ _ _ _ Hst)) (or_introl eq_refl)).
Qed.

Lemma each_cstep {R} c C (f : cache → nat → R → cache * R) r :
  cache_wf c 0 C → (∀ C0 i r0, cache_wf c 0 C0 → cstep c 0 None C0 (f C0 i r0).1) → cstep c 0 None C (eachShard C f r).1.
Proof.
  intros Hwf Hf. unfold eachShard. generalize (seq 0 (length (c_shards C))) as l. intros l.
  revert C r Hwf. induction l as [|i l IH]; intros C r Hwf; cbn; [by apply cstep_refl|].
  specialize (Hf C i r Hwf) as Hv. destruct (f C i r) as [C1 r1]. cbn in Hv.
  exact (cstep_trans _ _ _ _ _ _ _ Hv (IH C1 r1 (cs_wf _ _ _ _ _ Hv)) (or_introl eq_refl)).
Qed.

Lemma bounds_wf c C g me mb sn :
  cache_wf c 0 C → g_entries g = g_entries (c_g C) → g_bytes g = g_bytes (c_g C) → g_tags g = g_tags (c_g C) →
  cache_wf c 0 (set_g C (g_set_bounds g me mb sn)).
Proof.
  intros [ms [I1 I2 I3 I4 I5 I6 I7 I8]] E1 E2 E3. exists ms. constructor; cbn; try done; [by rewrite E1|by rewrite E2|].
  intros i s Hs k e t. cbn. rewrite E3. by eapply I8.
Qed.

(** The bounds change, entries only go, and the new bounds hold. *)
Lemma Resize_writable c C n :
  writable c C →
  writable c (Resize c C n).1 ∧ ∀ k e, shard_get c (Resize c C n).1 k = Some e → shard_get c C k = Some e.
Proof.
  intros (Hwf & Ho & Hsl). unfold Resize. destruct (_ || _); [by split; [split_and!|]|].
  set (g := if bool_decide _ then _ else _). set (C1 := set_g C g).
  assert (cache_wf c 0 C1 ∧ g_sealed (c_g C1) = false) as [Hwf1 Hsl1].
  { subst C1 g. split; [|by case_bool_decide]. case_bool_decide; by apply bounds_wf. }
  set (b := perShardBudget _ _). set (F := λ (C : cache) (i : nat) (n : Z), _).
  assert (cstep c 0 None C1 (eachShard C1 F 0).1) as H1'.
  { apply each_cstep; [done|]. intros C0 i r0 Hwf0. subst F. cbn.
    pose proof (locked_any_cstep c C0 i (resizeShardLocked c b) 0 Hwf0 (λ s m D, resizeShard_ok c b (c_g C0) s m D)) as Hl.
    unfold resizeShardLocked in Hl. by destruct (locked C0 i _ 0) as [C2 k]. }
  destruct (eachShard C1 F 0) as [C2 ev]. cbn in H1'.
  destruct (shedOverBudget_ok c 0 EvictReasonResize None C2 (cs_wf _ _ _ _ _ H1') (Z.le_refl 0)) as [H2' H3'].
  destruct (shedOverBudget c C2 EvictReasonResize None) as [C3 k3]. cbn in H2', H3' |- *.
  pose proof (cstep_trans _ _ _ _ _ _ _ H1' H2' (or_introl eq_refl)) as H12.
  set (g3 := if cf_events c then _ else _).
  assert (cstep c 0 None C3 (set_g C3 g3)) as H4' by (subst g3; apply set_g_cstep; [apply H2'|by destruct (cf_events c)..]).
  pose proof (cstep_trans _ _ _ _ _ _ _ H12 H4' (or_introl eq_refl)) as [R1 R2 _ _ [_ R5]]. split; [split_and!|].
  - done.
  - subst g3. cbn. by destruct (cf_events c).
  - cbn in R5. by rewrite R5.
  - intros k' e He. exact (R2 _ _ He).
Qed.

Lemma tidy_writable c C (w : world K V P St T A (MemoryStore K V)) : writable c C → tidy c ∅ (alone C) w → writable c (w_mem w).
Proof. intros (_ & Ho & _) [[G1 G2 _ _ _ _] Hov]. split_and!; [done|by apply Hov|done]. Qed.

Lemma perform_writable c C o : cf_negativeTTL c <= 0 → writable c C → writable c (perform c C o).
Proof.
  intros Hneg Hw. pose proof Hw as (Hwf & Ho & Hsl).
  assert (good c ∅ (alone C)) as Hg by by apply storeless_good.
  destruct o as [o|n|k fn|k fn|k fn|k fn|deq k old nv|L Y sc input|L Y sc input]; cbn [perform].
  - destruct (run_all_vstep c C [o] Hwf Hsl Ho Hneg) as (R1 & R2 & R3 & _). by split_and!.
  - by apply Resize_writable.
  - by eapply tidy_writable, Compute_good.
  - by eapply tidy_writable, ComputeIfAbsent_good.
  - by eapply tidy_writable, ComputeIfPresent_good.
  - by eapply tidy_writable, Update_good.
  - by eapply tidy_writable, CompareAndSwap_good.
  - unfold Load, loadInto. destruct (g_closed (c_g C)); [done|]. destruct (readSnapshot L Y sc input) as [|staged]; [done|].
    pose proof (loadStaged_ok c C true staged Hw) as [Hl _]. by destruct (loadStaged _ _ _ _).
  - unfold Merge, loadInto. destruct (g_closed (c_g C)); [done|]. destruct (readSnapshot L Y sc input) as [|staged]; [done|].
    pose proof (loadStaged_ok c C false staged Hw) as [Hl _]. by destruct (loadStaged _ _ _ _).
Qed.

Lemma perform_all_writable c C os : cf_negativeTTL c <= 0 → writable c C → writable c (perform_all c C os).
Proof. intros Hneg. revert C. induction os as [|o os IH]; intros C Hw; [done|]. by apply IH, perform_writable. Qed.

(** The states [New] and the calls lead to, without a Store. *)
Definition reachable c C : Prop :=
  ∃ maxEntries shards coll newPolicy newTTL newStore adm os,
    fresh_parts newPolicy newTTL newStore ∧ config_ok c shards ∧
    C = perform_all c (newCache c maxEntries shards coll newPolicy newTTL newStore adm) os.

(** C1: in a cache without negative caching, Store and queued writes, in every
    state reached from a new cache by any sequence of calls (reads, writes,
    deletes, computations, sweeps, invalidations, resizes, loads that begin
    and end, snapshots that are loaded or merged), every shard's table,
    policy, TTL backend, pool and read snapshot agree, every key is in its
    shard, the entry and byte counters are exact and the tag index covers
    every entry; and the cache is within the entry and byte bounds in
    force. *)
Theorem reachable_wf c C :
  reachable c C → cf_negativeTTL c <= 0 → cache_wf c 0 C ∧ overBudget (c_g C) = false.
Proof.
  intros (n & sh & coll & np & nt & ns & adm & os & HF & HC & ->) Hneg.
  destruct (newCache_wf c n sh coll np nt ns adm HF HC) as (W1 & W2 & _).
  by destruct (perform_all_writable c _ os Hneg (conj W1 (conj W2 eq_refl))) as (? & ? & _).
Qed.
End calls.

(** Four writes into a cache of at most three entries, a computed value, and
    then at most two entries. *)
Definition resized : list (call (K := Z) (V := Z)) :=
  (CallOp <$> four) ++ [CallCompute 4 (Some (λ v _, inr (v + 1, ComputeStore))); CallResize 2; CallUpdate 4 (Some (Z.mul 2))].

Lemma reachable_wf_witness :
  let C := perform_all plain (znew plain 3) resized in
  g_entries (c_g C) = 2 ∧ (Peek plain C 4).2 = Some 82 ∧ cache_wf plain 0 C ∧ overBudget (c_g C) = false.
Proof.
  cbv zeta. split; [vm_compute; done|]. split; [vm_compute; done|]. apply (reachable_wf plain); [|done].
  exists 3, 2, false, (λ _, newLRU), newExpiryHeapBackend, newMapStore, MkAdmitAlways, resized.
  split; [apply z_fresh|]. split; [apply z_config|done].
Defined.

(** The options that choose an implementation. *)
Record options := Options {
  o_policy : Policies.Policy;
  o_flatStorage : bool;
  o_ttlBuckets : Z;
  o_ttlBucketsTickPerBucket : Z;
  o_janitorInterval : Z;
  o_maxEntries : Z;
  o_shards : Z;
  o_collisionTracking : bool;
  o_now : Z
}.

Section configured.
Context {K V A : Type} `{Countable K, Inhabited K, Inhabited V, !AdmissionPolicy K A}.

Local Abbreviation config := (config K V).
Local Abbreviation cache := (cache K V (anyPolicy K) (anyStore K) anyTtl A).
Implicit Types (c : config) (o : options).

Definition newPolicyFor c o (budget : Z) : anyPolicy K :=
  newPolicy (o_policy o) (PolicyConfig budget (Some (cf_hasher c)) (cf_lockFreeRead c)).

(** The cache of [build] with the components [initShards] gives each shard. *)
Definition initShards c o (adm : A) : cache :=
  newCache c (o_maxEntries o) (o_shards o) (o_collisionTracking o) (newPolicyFor c o)
    (newTTLBackend (o_ttlBuckets o) (o_ttlBucketsTickPerBucket o) (o_janitorInterval o) (o_now o))
    (newShardStore (o_flatStorage o) (cf_hasher c)) adm.

Lemma parts_fresh c o :
  0 <= o_now o →
  fresh_parts (newPolicyFor c o)
    (newTTLBackend (o_ttlBuckets o) (o_ttlBucketsTickPerBucket o) (o_janitorInterval o) (o_now o))
    (newShardStore (o_flatStorage o) (cf_hasher c)).
Proof.
  intros Ho. split_and!; [|intros x; by apply newTTLBackend_rep|apply newShardStore_rep].
  intros b. apply newPolicy_tracks.
Qed.

(** Whatever the policy, table, TTL backend, admission policy and sizes a
    cache is configured with, after any sequence of operations it is
    well-formed and within its bounds, and a value a Get returns for a key
    was written for that key by one of the operations. *)
Theorem configured_sound c o (adm : A) os k r :
  0 <= o_now o → config_ok c (o_shards o) → cf_negativeTTL c <= 0 →
  let C := run_all c (initShards c o adm) os in
  cache_wf c 0 C ∧ overBudget (c_g C) = false ∧
  ((Get c C k).2 = Some r → ∃ op v, op ∈ os ∧ op_writes op = Some (k, v) ∧ r = returnValue c v).
Proof.
  intros Ho Hc Hneg. cbv zeta. unfold initShards.
  destruct (newCache_wf c (o_maxEntries o) (o_shards o) (o_collisionTracking o) _ _ _ adm (parts_fresh c o Ho) Hc) as (W1 & W2 & W3).
  set (C0 := newCache _ _ _ _ _ _ _ _) in *.
  destruct (run_all_vstep c C0 os W1 eq_refl W2 Hneg) as (R1 & R2 & _ & _ & _ & R6). split_and!; [done|done|].
  intros Hg. pose proof (Get_get c 0 _ k R1 (Z.le_refl 0)) as Hr. destruct (Get c (run_all c C0 os) k) as [C' r'].
  cbn in Hg. subst r'. destruct Hr as [_ Hr]. destruct (g_closed _); [done|].
  destruct Hr as (e & He & [Hn _] & <-). destruct (R6 k (loadValue e)) as [(e' & He' & _)|(op & Hop & Hw)].
  - by exists e.
  - by rewrite W3 in He'.
  - by exists op, (loadValue e).
Qed.
End configured.

(** W-TinyLFU over an open-addressing table and a wheel. *)
Definition tiny_options : options := Options PolicyTinyLFU true 8 1 1000 3 2 false 0.

Lemma configured_sound_witness :
  (Get plain (run_all plain (initShards plain tiny_options MkAdmitAlways)
    [OpSetWithTTL 1 10 50; OpSetWithTTL 2 20 0; OpSetWithTTL 1 11 0; OpDelete 2]) 1).2 = Some 11 ∧
  overBudget (c_g (run_all plain (initShards plain tiny_options MkAdmitAlways)
    [OpSetWithTTL 1 10 50; OpSetWithTTL 2 20 0; OpSetWithTTL 1 11 0; OpDelete 2])) = false.
Proof.
  split; [vm_compute; reflexivity|].
  destruct (configured_sound plain tiny_options MkAdmitAlways
    [OpSetWithTTL 1 10 50; OpSetWithTTL 2 20 0; OpSetWithTTL 1 11 0; OpDelete 2] 1 11) as (_ & Ho & _); [done|apply z_config|done|exact Ho].
Defined.
