(* ===== verification/Options.v ===== *)
(** * Options: settings, validation and construction

    The options of [options.go], [options_safety.go], [admission.go],
    [invalidation.go], [codec_compress.go] and [codec_encrypt.go] as functions
    on the settings, the checks of [build] ([cache.go]), and the cache that
    [New] and [NewUnbounded] return.

    An option is generic in the key and value types of its argument, the
    settings are not: the code stores such an argument as [any] and asserts
    its type when the cache is built.  A [raw] value records what that
    assertion finds.  Loggers, tracers and Stores are parameters; of a hook
    only its presence matters, since its call is an effect ([fx]). *)

From Stdlib Require Import Floats.SpecFloat.
From coqutil Require Import Datatypes.RecordSetters.
From S2P Require Import Prelude Sketch Policy Policies Storage FlatStore Ttl Backends Codec Snapshot Entry Tags Flights Shard.
From S2P Require Import Admission Cache Bulk Loads Run Restore Configured.

#[local] Open Scope Z_scope.
Import DoubleBraceUpdate.
Open Scope double_brace_record_update.

(** ** Type-erased values *)

(** Nil, a value of the type that the cache expects, or one of another type. *)
Inductive raw (X : Type) := RawNil | RawOf (x : X) | RawOther.
Arguments RawNil {X}.
Arguments RawOf {X} x.
Arguments RawOther {X}.

Inductive newError := ConfigError (field : string) | ErrUnbounded | LoadError (e : serr) | OpenError.

Abbreviation nres := (sum newError).
#[local] Instance nres_bind : MBind nres := λ X Y f r, match r with inl e => inl e | inr x => f x end.

(** The type assertion: nil is no value and no error. *)
Definition assertType {X} (field : string) (r : raw X) : nres (option X) :=
  match r with RawNil => inr None | RawOf x => inr (Some x) | RawOther => inl (ConfigError field) end.

(** ** [float64] *)

Abbreviation float64 := spec_float.
Definition float64_of (z : Z) : float64 := binary_normalize 53 1024 z 0 false.
Definition float64_mul : float64 → float64 → float64 := SFmul 53 1024.

(** [int64(x)], [other] for what the language leaves open. *)
Definition int64_of (other : Z) (x : float64) : Z :=
  match x with
  | S754_zero _ => 0
  | S754_finite s m e =>
      let n := if bool_decide (0 <= e) then Z.pos m * 2 ^ e else Z.pos m `quot` 2 ^ (- e) in
      let n := if s then - n else n in
      if bool_decide (- 2 ^ 63 <= n < 2 ^ 63) then n else other
  | _ => other
  end.

(** [defaultShardCount] *)
Definition defaultShardCount (gomaxprocs : Z) : Z :=
  let n := Z.max (gomaxprocs * 4) 1 in
  if bool_decide (1024 < n) then 1024 else nextPowerOfTwo n.

(** ** The default hasher *)

(** The type switch of [defaultHasher] on a key: floats as their bits. *)
Inductive keyView :=
| KeyString (s : list Z) | KeyBytes (b : list Z) | KeyInt (n : Z) | KeyBool (b : bool)
| KeyFloat64 (bits : Z) | KeyFloat32 (bits : Z) | KeyOther (hash : Z).

(** [k0] and [k1] are the random key; [KeyOther] carries what
    [maphash.Comparable] answers for the key. *)
Definition defaultHasher (k0 k1 : Z) (v : keyView) : Z :=
  match v with
  | KeyString s => SipHash24 k0 k1 s
  | KeyBytes b => SipHash24 k0 k1 b
  | KeyInt n => MixUint64 (Z.lxor (u64 n) k0)
  | KeyBool b => if b then MixUint64 (Z.lxor 1 k0) else MixUint64 k0
  | KeyFloat64 bits => MixUint64 (Z.lxor (if bool_decide (Z.land bits (2 ^ 63 - 1) = 0) then 0 else bits) k0)
  | KeyFloat32 bits => MixUint64 (Z.lxor (if bool_decide (Z.land bits (2 ^ 31 - 1) = 0) then 0 else bits) k0)
  | KeyOther hash => hash
  end.

Section options.
Context {K V A S Tracer Logger : Type} `{Countable K, Inhabited K, Inhabited V, !AdmissionPolicy K A}.

Local Abbreviation config := (config K V).

(** ** The admission policy of the cache *)

(** A Doorkeeper holds its hasher. *)
Inductive anyAdmission := UserAdmission (a : A) | DoorkeeperAdmission (hasher : K → Z) (d : Doorkeeper) | AlwaysAdmission.

#[export] Instance any_admission : AdmissionPolicy K anyAdmission := {
  Admit x k := match x with UserAdmission a => Admit a k | DoorkeeperAdmission h d => dk_Admit h d k | AlwaysAdmission => true end;
  Observe x k := match x with
    | UserAdmission a => UserAdmission (Observe a k)
    | DoorkeeperAdmission h d => DoorkeeperAdmission h (dk_Observe h d k)
    | AlwaysAdmission => x
    end;
  AdmReset x := match x with
    | UserAdmission a => UserAdmission (AdmReset a)
    | DoorkeeperAdmission h d => DoorkeeperAdmission h (dk_Reset d)
    | AlwaysAdmission => x
    end
}.

(** ** The settings ([config] of [options.go]) *)

Record goConfig := GoConfig {
  go_maxEntries : Z; go_maxBytes : Z; go_maxKeySize : Z; go_maxValueWeight : Z;
  go_defaultTTL : Z; go_slidingTTL : bool; go_ttlJitter : Z; go_ttlJitterExplicit : bool;
  go_janitorInterval : Z; go_negativeTTL : Z; go_errorTTL : Z; go_loaderTimeout : Z;
  go_refreshAheadAt : float64; go_swrStaleFor : Z; go_eventsBuffer : Z; go_maxSnapshotBytes : Z;
  go_autoSavePath : bytes; go_autoSaveInterval : Z; go_autoLoadPath : bytes; go_autoLoadIgnore : bool;
  go_snapshotMetadata : gmap bytes bytes; go_tracer : option Tracer; go_expvarName : bytes;
  go_onHit : raw unit; go_onMiss : raw unit; go_onEvict : raw unit; go_onExpire : raw unit; go_onLoad : raw unit;
  go_policy : Policies.Policy; go_shards : Z; go_name : bytes; go_clock : nat → Z; go_codec : Codec K V;
  go_logger : Logger; go_statsEnabled : bool;
  go_weigher : raw (V → Z); go_hasher : raw (K → Z); go_loader : raw unit; go_bulkLoader : raw unit;
  go_expireFunc : raw (K → V → Metadata → option bool);
  go_loaderRatePerSecond : Z; go_maxConcurrentLoads : Z; go_maxTagsPerEntry : Z; go_maxTagsTotal : Z;
  go_groups : gmap string Z; go_safeKeys : bool; go_callbackTimeout : Z; go_purgeVisitor : raw unit;
  go_copyOnGet : raw (V → V); go_admissionPolicy : raw A; go_doorkeeperEnabled : bool;
  go_invalidationPublisher : raw unit; go_invalidationSubscriber : raw unit;
  go_shardedStats : bool; go_collisionTracking : bool; go_codecCtorErr : option serr;
  go_ttlBuckets : Z; go_ttlBucketsTickPerBucket : Z; go_flatStorage : bool; go_store : raw S;
  go_asyncWrites : bool; go_lockFreeRead : bool
}.

Definition Option := goConfig → goConfig.
Implicit Types (cfg : goConfig).

(** What construction takes from its surroundings. *)
Record goEnv := GoEnv {
  ev_gomaxprocs : Z; ev_realClock : nat → Z; ev_gobCodec : Codec K V; ev_slogDefault : Logger;
  ev_now : Z;                              (* the clock while the shards are made *)
  ev_rand : nat → Z → Z; ev_poolPick : list loc → option loc;
  ev_k0 : Z; ev_k1 : Z;                    (* the random key of the default hasher *)
  ev_view : K → keyView; ev_keyLen : K → option Z;
  ev_autoTags : V → list string; ev_valueTTL : V → Z → Z;
  ev_events : bool;                        (* somebody subscribes *)
  ev_expvarTaken : bytes → bool;           (* published by another package *)
  ev_int64 : Z;                            (* [int64] of a float out of range *)
  ev_file : bytes → option (option bytes)  (* a file: missing, unreadable or its bytes *)
}.

Definition defaultConfig (E : goEnv) : goConfig := {|
  go_maxEntries := 0; go_maxBytes := 0; go_maxKeySize := 0; go_maxValueWeight := 0;
  go_defaultTTL := 0; go_slidingTTL := false; go_ttlJitter := 0; go_ttlJitterExplicit := false;
  go_janitorInterval := 30000000000; go_negativeTTL := 0; go_errorTTL := 0; go_loaderTimeout := 0;
  go_refreshAheadAt := S754_zero false; go_swrStaleFor := 0; go_eventsBuffer := 0; go_maxSnapshotBytes := 0;
  go_autoSavePath := []; go_autoSaveInterval := 0; go_autoLoadPath := []; go_autoLoadIgnore := false;
  go_snapshotMetadata := ∅; go_tracer := None; go_expvarName := [];
  go_onHit := RawNil; go_onMiss := RawNil; go_onEvict := RawNil; go_onExpire := RawNil; go_onLoad := RawNil;
  go_policy := PolicyS3FIFO; go_shards := defaultShardCount (ev_gomaxprocs E); go_name := [];
  go_clock := ev_realClock E; go_codec := ev_gobCodec E; go_logger := ev_slogDefault E; go_statsEnabled := true;
  go_weigher := RawNil; go_hasher := RawNil; go_loader := RawNil; go_bulkLoader := RawNil;
  go_expireFunc := RawNil;
  go_loaderRatePerSecond := 0; go_maxConcurrentLoads := 0; go_maxTagsPerEntry := 0; go_maxTagsTotal := 0;
  go_groups := ∅; go_safeKeys := false; go_callbackTimeout := 100000000; go_purgeVisitor := RawNil;
  go_copyOnGet := RawNil; go_admissionPolicy := RawNil; go_doorkeeperEnabled := false;
  go_invalidationPublisher := RawNil; go_invalidationSubscriber := RawNil;
  go_shardedStats := false; go_collisionTracking := false; go_codecCtorErr := None;
  go_ttlBuckets := 0; go_ttlBucketsTickPerBucket := 0; go_flatStorage := false; go_store := RawNil;
  go_asyncWrites := false; go_lockFreeRead := false |}.

(** ** The options *)

Definition WithMaxEntries (n : Z) : Option := λ c, c {{ go_maxEntries := n }}.
Definition WithMaxBytes (n : Z) : Option := λ c, c {{ go_maxBytes := n }}.
Definition WithDefaultTTL (d : Z) : Option := λ c, c {{ go_defaultTTL := d }}.
Definition WithSlidingTTL (b : bool) : Option := λ c, c {{ go_slidingTTL := b }}.
Definition WithTTLJitter (j : Z) : Option := λ c, c {{ go_ttlJitter := j; go_ttlJitterExplicit := true }}.
Definition WithJanitorInterval (d : Z) : Option := λ c, c {{ go_janitorInterval := d }}.
Definition WithPolicy (p : Policies.Policy) : Option := λ c, c {{ go_policy := p }}.
Definition WithShards (n : Z) : Option := λ c,
  let n := if bool_decide (n < 1) then 1 else n in c {{ go_shards := nextPowerOfTwo n }}.
Definition WithMaxKeySize (n : Z) : Option := λ c, c {{ go_maxKeySize := n }}.
Definition WithMaxValueWeight (n : Z) : Option := λ c, c {{ go_maxValueWeight := n }}.
Definition WithName (name : bytes) : Option := λ c, c {{ go_name := name }}.
Definition WithClock (clk : option (nat → Z)) : Option := λ c,
  match clk with Some clk => c {{ go_clock := clk }} | None => c end.
Definition WithCodec (codec : option (Codec K V)) : Option := λ c,
  match codec with Some codec => c {{ go_codec := codec }} | None => c end.
Definition WithCompressedCodec (base : Codec K V) (level : Z) : Option := WithCodec (Some (CompressedCodec base level)).
Definition WithEncryptedCodec (base : Codec K V) (key : bytes) : Option := λ c,
  match NewEncryptedCodec base key with
  | inl err => c {{ go_codecCtorErr := Some err }}
  | inr codec => c {{ go_codec := codec }}
  end.
Definition WithLogger (l : option Logger) : Option := λ c,
  match l with Some l => c {{ go_logger := l }} | None => c end.
Definition WithStatsEnabled (b : bool) : Option := λ c, c {{ go_statsEnabled := b }}.
Definition WithCollisionTracking (b : bool) : Option := λ c, c {{ go_collisionTracking := b }}.
Definition WithTTLBuckets (slots tickPerBucket : Z) : Option := λ c,
  c {{ go_ttlBuckets := slots; go_ttlBucketsTickPerBucket := tickPerBucket }}.
Definition WithLockFreeRead : Option := λ c, c {{ go_lockFreeRead := true }}.
Definition WithAsyncWrites : Option := λ c, c {{ go_asyncWrites := true }}.
Definition WithStore (store : raw S) : Option := λ c, c {{ go_store := store }}.
Definition WithFlatStorage : Option := λ c, c {{ go_flatStorage := true }}.
Definition WithShardedStats (b : bool) : Option := λ c, c {{ go_shardedStats := b }}.

(** Nil functions, loaders and policies are ignored. *)
Definition unlessNil {X} (r : raw X) (c c' : goConfig) : goConfig := match r with RawNil => c | _ => c' end.

Definition WithWeigher (fn : raw (V → Z)) : Option := λ c, unlessNil fn c (c {{ go_weigher := fn }}).
Definition WithHasher (fn : raw (K → Z)) : Option := λ c, unlessNil fn c (c {{ go_hasher := fn }}).
Definition WithLoader (l : raw unit) : Option := λ c, unlessNil l c (c {{ go_loader := l }}).
Definition WithBulkLoader (l : raw unit) : Option := λ c, unlessNil l c (c {{ go_bulkLoader := l }}).
Definition WithLoaderRateLimit (perSecond : Z) : Option := λ c, c {{ go_loaderRatePerSecond := perSecond }}.
Definition WithGroup (name : string) (capacity : Z) : Option := λ c,
  if bool_decide (capacity <= 0) then c {{ go_groups ::= delete name }}
  else c {{ go_groups ::= <[name := capacity]> }}.
Definition WithMaxTagsPerEntry (n : Z) : Option := λ c,
  if bool_decide (0 <= n) then c {{ go_maxTagsPerEntry := n }} else c.
Definition WithMaxTagsTotal (n : Z) : Option := λ c,
  if bool_decide (0 <= n) then c {{ go_maxTagsTotal := n }} else c.
Definition WithMaxConcurrentLoads (n : Z) : Option := λ c, c {{ go_maxConcurrentLoads := n }}.
Definition WithNegativeCache (negativeTTL : Z) : Option := λ c, c {{ go_negativeTTL := negativeTTL }}.
Definition WithErrorTTL (d : Z) : Option := λ c, c {{ go_errorTTL := d }}.
Definition WithLoaderTimeout (d : Z) : Option := λ c, c {{ go_loaderTimeout := d }}.
Definition WithRefreshAhead (refreshAt : float64) : Option := λ c, c {{ go_refreshAheadAt := refreshAt }}.
Definition WithStaleWhileRevalidate (staleFor : Z) : Option := λ c, c {{ go_swrStaleFor := staleFor }}.
Definition WithExpvar (name : bytes) : Option := λ c,
  if bool_decide (name ≠ []) then c {{ go_expvarName := name }} else c.
Definition WithTracer (t : option Tracer) : Option := λ c,
  match t with Some _ => c {{ go_tracer := t }} | None => c end.
(** A nil map is an empty one to every reader. *)
Definition WithSnapshotMetadata (meta : option (gmap bytes bytes)) : Option := λ c,
  c {{ go_snapshotMetadata := default ∅ meta }}.
Definition WithMaxSnapshotBytes (n : Z) : Option := λ c, c {{ go_maxSnapshotBytes := n }}.
Definition WithAutoSave (path : bytes) (interval : Z) : Option := λ c,
  c {{ go_autoSavePath := path; go_autoSaveInterval := interval }}.
Definition WithAutoLoad (path : bytes) : Option := λ c, c {{ go_autoLoadPath := path }}.
Definition WithAutoLoadIgnoreErrors (b : bool) : Option := λ c, c {{ go_autoLoadIgnore := b }}.
Definition WithEventsBuffer (n : Z) : Option := λ c,
  if bool_decide (0 < n) then c {{ go_eventsBuffer := n }} else c.
Definition WithOnHit (fn : raw unit) : Option := λ c, unlessNil fn c (c {{ go_onHit := fn }}).
Definition WithOnMiss (fn : raw unit) : Option := λ c, unlessNil fn c (c {{ go_onMiss := fn }}).
Definition WithOnEvict (fn : raw unit) : Option := λ c, unlessNil fn c (c {{ go_onEvict := fn }}).
Definition WithOnExpire (fn : raw unit) : Option := λ c, unlessNil fn c (c {{ go_onExpire := fn }}).
Definition WithOnLoad (fn : raw unit) : Option := λ c, unlessNil fn c (c {{ go_onLoad := fn }}).
Definition WithExpireFunc (fn : raw (K → V → Metadata → option bool)) : Option := λ c,
  unlessNil fn c (c {{ go_expireFunc := fn }}).
Definition WithSafeKeys (b : bool) : Option := λ c, c {{ go_safeKeys := b }}.
Definition WithCallbackTimeout (d : Z) : Option := λ c, c {{ go_callbackTimeout := d }}.
Definition WithPurgeVisitor (fn : raw unit) : Option := λ c, unlessNil fn c (c {{ go_purgeVisitor := fn }}).
Definition WithCopyOnGet (fn : raw (V → V)) : Option := λ c, unlessNil fn c (c {{ go_copyOnGet := fn }}).
Definition WithAdmissionPolicy (p : raw A) : Option := λ c, unlessNil p c (c {{ go_admissionPolicy := p }}).
Definition WithDoorkeeper (b : bool) : Option := λ c, c {{ go_doorkeeperEnabled := b }}.
Definition WithInvalidationPublisher (fn : raw unit) : Option := λ c,
  unlessNil fn c (c {{ go_invalidationPublisher := fn }}).
Definition WithInvalidationSubscriber (ch : raw unit) : Option := λ c,
  unlessNil ch c (c {{ go_invalidationSubscriber := ch }}).

(** ** Validation and construction ([cache.go]) *)

(** [checkExpvarName]: a name that another package has published. *)
Definition checkExpvarName (E : goEnv) (name : bytes) : option newError :=
  if bool_decide (name = []) then None
  else if ev_expvarTaken E name then Some (ConfigError "Expvar") else None.

Definition checkBounds (E : goEnv) cfg (allowUnbounded : bool) : option newError :=
  if bool_decide (go_maxEntries cfg < 0) then Some (ConfigError "MaxEntries")
  else if bool_decide (go_maxBytes cfg < 0) then Some (ConfigError "MaxBytes")
  else if negb allowUnbounded && bool_decide (go_maxEntries cfg <= 0) && bool_decide (go_maxBytes cfg <= 0)
  then Some ErrUnbounded
  else checkExpvarName E (go_expvarName cfg).

Definition resolveWeigher (r : raw (V → Z)) : nres (option (V → Z)) := assertType "Weigher" r.
Definition resolveExpireFunc (r : raw (K → V → Metadata → option bool)) := assertType "ExpireFunc" r.
Definition resolveBulkLoader (r : raw unit) := assertType "BulkLoader" r.
Definition resolveLoader (r : raw unit) := assertType "Loader" r.
Definition resolveStore (r : raw S) := assertType "Store" r.
Definition resolveInvalidationPublisher (r : raw unit) := assertType "InvalidationPublisher" r.
Definition resolveInvalidationSubscriber (r : raw unit) := assertType "InvalidationSubscriber" r.

Definition resolveHasher (E : goEnv) (r : raw (K → Z)) : nres (K → Z) :=
  match r with
  | RawNil => inr (λ k, defaultHasher (ev_k0 E) (ev_k1 E) (ev_view E k))
  | RawOf fn => inr fn
  | RawOther => inl (ConfigError "Hasher")
  end.

Record resolvedHooks := ResolvedHooks {
  h_onHit : bool; h_onMiss : bool; h_onEvict : bool; h_onExpire : bool; h_onLoad : bool;
  h_purgeVisitor : bool; h_copyOnGet : option (V → V) }.

Definition given {X} (o : option X) : bool := match o with Some _ => true | None => false end.

Definition resolveHooks cfg : nres resolvedHooks :=
  onHit ← assertType "OnHit" (go_onHit cfg);
  onMiss ← assertType "OnMiss" (go_onMiss cfg);
  onEvict ← assertType "OnEvict" (go_onEvict cfg);
  onExpire ← assertType "OnExpire" (go_onExpire cfg);
  onLoad ← assertType "OnLoad" (go_onLoad cfg);
  purgeVisitor ← assertType "PurgeVisitor" (go_purgeVisitor cfg);
  copyOnGet ← assertType "CopyOnGet" (go_copyOnGet cfg);
  inr (ResolvedHooks (given onHit) (given onMiss) (given onEvict) (given onExpire) (given onLoad)
         (given purgeVisitor) copyOnGet).

Definition resolveAdmissionPolicy cfg (hasher : K → Z) : nres anyAdmission :=
  match go_admissionPolicy cfg with
  | RawOf p => inr (UserAdmission p)
  | RawOther => inl (ConfigError "AdmissionPolicy")
  | RawNil =>
      inr (if go_doorkeeperEnabled cfg
           then DoorkeeperAdmission hasher (NewDoorkeeper (doorkeeperSize (go_maxEntries cfg)))
           else AlwaysAdmission)
  end.

(** [readmap.go] *)
Definition lockFreeReadSupported cfg : bool :=
  match go_policy cfg with PolicyS3FIFO => true | _ => false end &&
  match go_expireFunc cfg with RawNil => true | _ => false end.

Definition gateLockFreeRead cfg : goConfig :=
  if negb (go_lockFreeRead cfg) || lockFreeReadSupported cfg then cfg else cfg {{ go_lockFreeRead := false }}.

(** The fraction as [shouldRefreshAhead] uses it: inactive unless neither
    comparison with 0 and 1 holds. *)
Definition refreshThreshold (E : goEnv) (at_ : float64) : option (Z → Z) :=
  if SFleb at_ (S754_zero false) || SFleb (float64_of 1) at_ then None
  else Some (λ ttl, int64_of (ev_int64 E) (float64_mul at_ (float64_of ttl))).

(** The settings as the operations of the cache read them. *)
Definition configOf (E : goEnv) cfg (weigher : option (V → Z)) (hasher : K → Z) (loader : option unit)
    (expireFunc : option (K → V → Metadata → option bool)) (hooks : resolvedHooks) (publisher : option unit)
    (shardCount : Z) : config := {|
  cf_hasher := hasher; cf_shardMask := shardCount - 1; cf_weigher := weigher; cf_expireFunc := expireFunc;
  cf_autoTags := ev_autoTags E; cf_valueTTL := ev_valueTTL E; cf_copyOnGet := h_copyOnGet hooks;
  cf_keyLen := ev_keyLen E; cf_maxBytes := go_maxBytes cfg; cf_maxKeySize := go_maxKeySize cfg;
  cf_maxValueWeight := go_maxValueWeight cfg; cf_maxTagsPerEntry := go_maxTagsPerEntry cfg;
  cf_maxTagsTotal := go_maxTagsTotal cfg; cf_defaultTTL := go_defaultTTL cfg; cf_slidingTTL := go_slidingTTL cfg;
  cf_ttlJitter := if go_ttlJitterExplicit cfg then Some (go_ttlJitter cfg) else None;
  cf_negativeTTL := go_negativeTTL cfg; cf_errorTTL := go_errorTTL cfg;
  cf_janitorInterval := go_janitorInterval cfg; cf_statsEnabled := go_statsEnabled cfg;
  cf_lockFreeRead := go_lockFreeRead cfg; cf_loader := given loader;
  cf_refreshAhead := refreshThreshold E (go_refreshAheadAt cfg); cf_swrStaleFor := go_swrStaleFor cfg;
  cf_groups := go_groups cfg;
  cf_onHit := h_onHit hooks; cf_onMiss := h_onMiss hooks; cf_onEvict := h_onEvict hooks;
  cf_onExpire := h_onExpire hooks; cf_onLoad := h_onLoad hooks; cf_publisher := given publisher;
  cf_events := ev_events E; cf_clock := go_clock cfg; cf_rand := ev_rand E; cf_poolPick := ev_poolPick E |}.

Definition optionsOf (E : goEnv) cfg : options := {|
  o_policy := go_policy cfg; o_flatStorage := go_flatStorage cfg; o_ttlBuckets := go_ttlBuckets cfg;
  o_ttlBucketsTickPerBucket := go_ttlBucketsTickPerBucket cfg; o_janitorInterval := go_janitorInterval cfg;
  o_maxEntries := go_maxEntries cfg; o_shards := go_shards cfg;
  o_collisionTracking := go_collisionTracking cfg; o_now := ev_now E |}.

Definition snapConfigOf cfg : snapConfig K V :=
  @SnapConfig K V (go_codec cfg) (go_name cfg) (go_snapshotMetadata cfg) (go_maxSnapshotBytes cfg).

(** A cache with the settings its methods read. *)
Record built := Built {
  b_config : config;
  b_snap : snapConfig K V;
  b_mem : cache K V (anyPolicy K) (anyStore K) anyTtl anyAdmission;
  b_store : option S;
  b_async : bool;
  b_bulkLoader : bool;
  b_subscriber : bool;
  b_purgeVisitor : bool;
  b_loadSlots : option Z;                  (* capacity of the semaphore *)
  b_loaderRate : option Z                  (* tokens per second of the limiter *)
}.

(** [LoadFile] and what [New] makes of its outcome. *)
Definition applyAutoLoad (L : codecEnv) (Y : snapTypes K V) (E : goEnv) cfg (b : built) : nres built :=
  if bool_decide (go_autoLoadPath cfg = []) then inr b
  else match ev_file E (go_autoLoadPath cfg) with
       | None => inr b
       | Some None => if go_autoLoadIgnore cfg then inr b else inl OpenError
       | Some (Some input) =>
           let '(C, r) := Load L Y (b_snap b) (b_config b) (b_mem b) input in
           match r with
           | inr _ => inr (b {{ b_mem := C }})
           | inl errEncryptedLegacy => inr b
           | inl e => if go_autoLoadIgnore cfg then inr b else inl (LoadError e)
           end
       end.

Definition positive (n : Z) : option Z := if bool_decide (0 < n) then Some n else None.

Definition build (L : codecEnv) (Y : snapTypes K V) (E : goEnv) cfg (allowUnbounded : bool) : nres built :=
  match go_codecCtorErr cfg with
  | Some _ => inl (ConfigError "Codec")
  | None =>
  match checkBounds E cfg allowUnbounded with
  | Some e => inl e
  | None =>
  weigher ← resolveWeigher (go_weigher cfg);
  hasher ← resolveHasher E (go_hasher cfg);
  loader ← resolveLoader (go_loader cfg);
  bulkLoader ← resolveBulkLoader (go_bulkLoader cfg);
  expireFunc ← resolveExpireFunc (go_expireFunc cfg);
  store ← resolveStore (go_store cfg);
  hooks ← resolveHooks cfg;
  admission ← resolveAdmissionPolicy cfg hasher;
  publisher ← resolveInvalidationPublisher (go_invalidationPublisher cfg);
  subscriber ← resolveInvalidationSubscriber (go_invalidationSubscriber cfg);
  if bool_decide (0 < go_maxBytes cfg) && negb (given weigher) then inl (ConfigError "MaxBytes")
  else
    let cfg := gateLockFreeRead cfg in
    let shardCount := nextPowerOfTwo (Z.max (go_shards cfg) 1) in
    let c := configOf E cfg weigher hasher loader expireFunc hooks publisher shardCount in
    applyAutoLoad L Y E cfg
      (Built c (snapConfigOf cfg) (initShards c (optionsOf E cfg) admission) store (go_asyncWrites cfg)
         (given bulkLoader) (given subscriber) (h_purgeVisitor hooks)
         (positive (go_maxConcurrentLoads cfg)) (positive (go_loaderRatePerSecond cfg)))
  end
  end.

(** Nil options are skipped. *)
Definition applyOptions (E : goEnv) (opts : list (option Option)) : goConfig :=
  foldl (λ cfg opt, match opt with Some opt => opt cfg | None => cfg end) (defaultConfig E) opts.

Definition New L Y E (opts : list (option Option)) : nres built := build L Y E (applyOptions E opts) false.
Definition NewUnbounded L Y E (opts : list (option Option)) : nres built := build L Y E (applyOptions E opts) true.
End options.
