(* ===== verification/OptionsProps.v ===== *)
(** * OptionsProps: what [New] accepts and what it builds

    The settings every list of options leaves, the conditions under which
    [New] returns an error, and that the cache it returns meets what the
    theorems about caches ask of a configuration. *)

From Stdlib Require Import Floats.SpecFloat.
From coqutil Require Import Datatypes.RecordSetters.
From S2P Require Import Prelude Sketch Policy Policies Storage FlatStore Ttl Backends Codec Snapshot Entry Tags Flights Shard.
From S2P Require Import ShardInv ShardOps ShardBulk Admission Cache Bulk Loads Run CacheInv CacheOps CacheReads CacheRun RunInv CacheKeep.
From S2P Require Import CacheBulk CacheNew Restore Concrete SaveLoad Configured Options.

#[local] Open Scope Z_scope.

(** ** Hashes are 64-bit words *)

Lemma is_u64_bits x : 0 <= x → is_u64 x ↔ ∀ i, 64 <= i → Z.testbit x i = false.
Proof. intros Hx. rewrite -(Z.bounded_iff_bits_nonneg 64) //. unfold is_u64. lia. Qed.

Lemma lxor_u64 x y : is_u64 x → is_u64 y → is_u64 (Z.lxor x y).
Proof.
  intros Hx Hy. pose proof Hx as [Hx0 _]. pose proof Hy as [Hy0 _].
  rewrite is_u64_bits; [|by apply Z.lxor_nonneg]. rewrite is_u64_bits // in Hx. rewrite is_u64_bits // in Hy.
  intros i Hi. by rewrite Z.lxor_spec Hx // Hy.
Qed.

Lemma lor_u64 x y : is_u64 x → is_u64 y → is_u64 (Z.lor x y).
Proof.
  intros Hx Hy. pose proof Hx as [Hx0 _]. pose proof Hy as [Hy0 _].
  rewrite is_u64_bits; [|by apply Z.lor_nonneg]. rewrite is_u64_bits // in Hx. rewrite is_u64_bits // in Hy.
  intros i Hi. by rewrite Z.lor_spec Hx // Hy.
Qed.

Lemma shiftr_u64 x n : is_u64 x → 0 <= n → is_u64 (Z.shiftr x n).
Proof.
  intros [H0 H1] Hn. unfold is_u64. rewrite Z.shiftr_div_pow2 //. split; [apply Z.div_pos; lia|].
  apply Z.div_lt_upper_bound; nia.
Qed.

Lemma rotl_u64 x n : is_u64 x → 0 <= n <= 64 → is_u64 (rotl x n).
Proof. intros ??. apply lor_u64; [apply u64_range|apply shiftr_u64; [done|lia]]. Qed.

Create HintDb words.
#[local] Hint Resolve u64_range lxor_u64 lor_u64 : words.
#[local] Hint Extern 2 (is_u64 (rotl _ _)) => apply rotl_u64; [|lia] : words.
#[local] Hint Extern 2 (is_u64 (Z.shiftr _ _)) => apply shiftr_u64; [|lia] : words.

Definition words (v : Z * Z * Z * Z) : Prop :=
  let '(v0, v1, v2, v3) := v in is_u64 v0 ∧ is_u64 v1 ∧ is_u64 v2 ∧ is_u64 v3.

Lemma sipRound_words v : words v → words (sipRound v).
Proof. destruct v as [[[v0 v1] v2] v3]. intros (? & ? & ? & ?). cbn. split_and!; auto 10 with words. Qed.

Lemma sip_block_words v m : words v → is_u64 m → words (sip_block v m).
Proof.
  destruct v as [[[v0 v1] v2] v3]. intros (? & ? & ? & ?) Hm. unfold sip_block.
  assert (words (sipRound (sipRound (v0, v1, v2, Z.lxor v3 m)))) as Hw.
  { do 2 apply sipRound_words. cbn. auto with words. }
  destruct (sipRound _) as [[[w0 w1] w2] w3]. destruct Hw as (? & ? & ? & ?). cbn. auto with words.
Qed.

Definition is_byte (b : Z) : Prop := 0 <= b < 256.

Lemma le_bytes_bound bs : Forall is_byte bs → 0 <= le_bytes bs < 2 ^ (8 * Z.of_nat (length bs)).
Proof.
  induction 1 as [|b bs [Hb0 Hb1] _ [IH0 IH1]]; [done|]. cbn [le_bytes length]. rewrite Z.shiftl_mul_pow2 //.
  rewrite -Z.add_nocarry_lor.
  - rewrite (_ : 8 * Z.of_nat (S (length bs)) = 8 + 8 * Z.of_nat (length bs)); [|lia]. rewrite Z.pow_add_r; lia.
  - apply Z.bits_inj'. intros i Hi. rewrite Z.land_spec Z.bits_0. destruct (decide (i < 8)).
    + rewrite Z.mul_pow2_bits_low // andb_false_r //.
    + rewrite (proj1 (Z.bounded_iff_bits_nonneg 8 b _ Hb0)); [done|lia|lia|lia].
Qed.

Lemma le_bytes_u64 bs : Forall is_byte bs → (length bs <= 8)%nat → is_u64 (le_bytes bs).
Proof.
  intros Hb Hl. pose proof (le_bytes_bound bs Hb) as [H0 H1]. split; [done|].
  eapply Z.lt_le_trans; [exact H1|]. apply Z.pow_le_mono_r; lia.
Qed.

Lemma sip_blocks_words n v data :
  words v → Forall is_byte data → length data = (8 * n + length data mod 8)%nat →
  let '(v', rest) := sip_blocks n v data in words v' ∧ Forall is_byte rest ∧ (length rest < 8)%nat.
Proof.
  revert v data. induction n as [|n IH]; intros v data Hv Hb Hl; cbn.
  - split_and!; [done|done|]. pose proof (Nat.mod_upper_bound (length data) 8). lia.
  - apply IH; [|by apply Forall_drop|].
    + apply sip_block_words; [done|]. apply le_bytes_u64; [by apply Forall_take|]. rewrite length_take. lia.
    + rewrite length_drop. rewrite {1}Hl.
      assert ((length data - 8) mod 8 = length data mod 8)%nat as ->; [|lia].
      rewrite -(Nat.Div0.mod_add (length data - 8) 1 8). f_equal. lia.
Qed.

Lemma SipHash24_u64 k0 k1 data : is_u64 k0 → is_u64 k1 → Forall is_byte data → is_u64 (SipHash24 k0 k1 data).
Proof.
  intros Hk0 Hk1 Hb. unfold SipHash24. set (v := (_, _, _, _)).
  assert (∀ x, 0 <= x < 2 ^ 64 → is_u64 x) as Hc by done.
  assert (words v) as Hv by (cbn; split_and!; apply lxor_u64; try done; by apply Hc).
  pose proof (sip_blocks_words (length data / 8) v data Hv Hb (Nat.div_mod_eq (length data) 8)) as Hs.
  destruct (sip_blocks _ _ _) as [v' rest]. destruct Hs as (Hv' & Hr & Hl). set (b := Z.lor _ _).
  assert (is_u64 b) as Hb'. { apply lor_u64; [apply u64_range|apply le_bytes_u64; [done|lia]]. }
  pose proof (sip_block_words v' b Hv' Hb') as Hw. destruct (sip_block v' b) as [[[v0 v1] v2] v3].
  destruct Hw as (? & ? & ? & ?). assert (words (v0, v1, Z.lxor v2 255, v3)) as Hw.
  { cbn. split_and!; try done. apply lxor_u64; [done|by apply Hc]. }
  do 4 apply sipRound_words in Hw. destruct (sipRound (sipRound _)) as [[[w0 w1] w2] w3].
  destruct Hw as (? & ? & ? & ?). auto 10 with words.
Qed.

Lemma MixUint64_u64 x : is_u64 (MixUint64 x).
Proof. unfold MixUint64. cbv zeta. apply xorshift_range; [apply u64_range|lia]. Qed.

(** The views Go's types allow. *)
Definition view_ok (v : keyView) : Prop :=
  match v with
  | KeyString s | KeyBytes s => Forall is_byte s
  | KeyOther h => is_u64 h
  | _ => True
  end.

Lemma defaultHasher_u64 k0 k1 v : is_u64 k0 → is_u64 k1 → view_ok v → is_u64 (defaultHasher k0 k1 v).
Proof. intros. destruct v as [| | |[]| | |]; cbn; auto using SipHash24_u64, MixUint64_u64. Qed.

Section options.
Context {K V A S Tracer Logger : Type} `{Countable K, Inhabited K, Inhabited V, !AdmissionPolicy K A}.

Local Abbreviation goConfig := (goConfig (K := K) (V := V) (A := A) (S := S) (Tracer := Tracer) (Logger := Logger)).
Local Abbreviation Option := (Option (K := K) (V := V) (A := A) (S := S) (Tracer := Tracer) (Logger := Logger)).
Local Abbreviation goEnv := (goEnv (K := K) (V := V) (Logger := Logger)).
Local Abbreviation built := (built (K := K) (V := V) (A := A) (S := S)).
Implicit Types (cfg : goConfig) (E : goEnv) (opt : Option).

(** ** The options of the package *)

Definition raw_ok {X} (P : X → Prop) (r : raw X) : Prop := match r with RawOf x => P x | _ => True end.

(** Every option a program can pass: the type of the settings is private.  A
    shard count above 2^32 would not fit into memory; a hash function returns
    a [uint64]. *)
Inductive exported : Option → Prop :=
| ex_MaxEntries n : exported (WithMaxEntries n)
| ex_MaxBytes n : exported (WithMaxBytes n)
| ex_DefaultTTL d : exported (WithDefaultTTL d)
| ex_SlidingTTL b : exported (WithSlidingTTL b)
| ex_TTLJitter j : exported (WithTTLJitter j)
| ex_JanitorInterval d : exported (WithJanitorInterval d)
| ex_Policy p : exported (WithPolicy p)
| ex_Shards n : n <= 2 ^ 32 → exported (WithShards n)
| ex_MaxKeySize n : exported (WithMaxKeySize n)
| ex_MaxValueWeight n : exported (WithMaxValueWeight n)
| ex_Name s : exported (WithName s)
| ex_Clock clk : exported (WithClock clk)
| ex_Codec co : exported (WithCodec co)
| ex_CompressedCodec co l : exported (WithCompressedCodec co l)
| ex_EncryptedCodec co k : exported (WithEncryptedCodec co k)
| ex_Logger l : exported (WithLogger l)
| ex_StatsEnabled b : exported (WithStatsEnabled b)
| ex_CollisionTracking b : exported (WithCollisionTracking b)
| ex_TTLBuckets s t : exported (WithTTLBuckets s t)
| ex_LockFreeRead : exported WithLockFreeRead
| ex_AsyncWrites : exported WithAsyncWrites
| ex_Store s : exported (WithStore s)
| ex_FlatStorage : exported WithFlatStorage
| ex_ShardedStats b : exported (WithShardedStats b)
| ex_Weigher fn : exported (WithWeigher fn)
| ex_Hasher fn : raw_ok (λ h, ∀ k, is_u64 (h k)) fn → exported (WithHasher fn)
| ex_Loader l : exported (WithLoader l)
| ex_BulkLoader l : exported (WithBulkLoader l)
| ex_LoaderRateLimit n : exported (WithLoaderRateLimit n)
| ex_Group name n : exported (WithGroup name n)
| ex_MaxTagsPerEntry n : exported (WithMaxTagsPerEntry n)
| ex_MaxTagsTotal n : exported (WithMaxTagsTotal n)
| ex_MaxConcurrentLoads n : exported (WithMaxConcurrentLoads n)
| ex_NegativeCache d : exported (WithNegativeCache d)
| ex_ErrorTTL d : exported (WithErrorTTL d)
| ex_LoaderTimeout d : exported (WithLoaderTimeout d)
| ex_RefreshAhead f : exported (WithRefreshAhead f)
| ex_StaleWhileRevalidate d : exported (WithStaleWhileRevalidate d)
| ex_Expvar s : exported (WithExpvar s)
| ex_Tracer t : exported (WithTracer t)
| ex_SnapshotMetadata m : exported (WithSnapshotMetadata m)
| ex_MaxSnapshotBytes n : exported (WithMaxSnapshotBytes n)
| ex_AutoSave p d : exported (WithAutoSave p d)
| ex_AutoLoad p : exported (WithAutoLoad p)
| ex_AutoLoadIgnoreErrors b : exported (WithAutoLoadIgnoreErrors b)
| ex_EventsBuffer n : exported (WithEventsBuffer n)
| ex_OnHit fn : exported (WithOnHit fn)
| ex_OnMiss fn : exported (WithOnMiss fn)
| ex_OnEvict fn : exported (WithOnEvict fn)
| ex_OnExpire fn : exported (WithOnExpire fn)
| ex_OnLoad fn : exported (WithOnLoad fn)
| ex_ExpireFunc fn : exported (WithExpireFunc fn)
| ex_SafeKeys b : exported (WithSafeKeys b)
| ex_CallbackTimeout d : exported (WithCallbackTimeout d)
| ex_PurgeVisitor fn : exported (WithPurgeVisitor fn)
| ex_CopyOnGet fn : exported (WithCopyOnGet fn)
| ex_AdmissionPolicy p : exported (WithAdmissionPolicy p)
| ex_Doorkeeper b : exported (WithDoorkeeper b)
| ex_InvalidationPublisher fn : exported (WithInvalidationPublisher fn)
| ex_InvalidationSubscriber ch : exported (WithInvalidationSubscriber ch).

(** The settings that the options keep in range, whatever is asked for. *)
Record settings_ok cfg : Prop := SettingsOk {
  so_shards : 1 <= go_shards cfg <= 2 ^ 32 ∧ ∃ n : nat, go_shards cfg = 2 ^ Z.of_nat n;
  so_tagsPerEntry : 0 <= go_maxTagsPerEntry cfg;
  so_tagsTotal : 0 <= go_maxTagsTotal cfg;
  so_eventsBuffer : 0 <= go_eventsBuffer cfg;
  so_groups : map_Forall (λ _ capacity, 0 < capacity) (go_groups cfg);
  so_hasher : raw_ok (λ h, ∀ k, is_u64 (h k)) (go_hasher cfg)
}.

Lemma power_of_two n :
  n <= 2 ^ 32 → 1 <= nextPowerOfTwo n <= 2 ^ 32 ∧ ∃ b : nat, nextPowerOfTwo n = 2 ^ Z.of_nat b.
Proof.
  intros Hn. destruct (nextPowerOfTwo_spec n) as (b & B1 & B2 & B3 & B4); [lia|]. split; [|by exists b].
  destruct (decide (1 < n)) as [H1'|H1'].
  - rewrite B2. assert (2 ^ Z.of_nat b < 2 ^ 33) as Hlt by lia. apply Z.pow_lt_mono_r_iff in Hlt; [|lia..].
    split; [lia|]. apply Z.pow_le_mono_r; lia.
  - unfold nextPowerOfTwo. rewrite bool_decide_true; lia.
Qed.

Lemma default_settings E : settings_ok (defaultConfig E).
Proof.
  constructor; cbn; try done. unfold defaultShardCount. case_bool_decide.
  - split; [lia|]. by exists 10%nat.
  - apply power_of_two. lia.
Qed.

Lemma exported_settings opt cfg : exported opt → settings_ok cfg → settings_ok (opt cfg).
Proof.
  destruct cfg. intros Hex [S1 S2 S3 S4 S5 S6]. cbn in S1, S2, S3, S4, S5, S6.
  destruct Hex; match goal with |- settings_ok (?o _) => let o' := eval hnf in o in change o with o' end;
    cbv beta zeta; unfold unlessNil; repeat case_match; constructor; cbn; try done; unfold constant.
  all: repeat match goal with
    | Hb : bool_decide _ = true |- _ => apply bool_decide_eq_true in Hb
    | Hb : bool_decide _ = false |- _ => apply bool_decide_eq_false in Hb
    end.
  all: first [lia | by apply power_of_two | by apply map_Forall_delete | by apply map_Forall_insert_2; [lia|]].
Qed.

(** ** What is refused *)

Definition is_nil {X} (r : raw X) : bool := match r with RawNil => true | _ => false end.
Definition is_other {X} (r : raw X) : bool := match r with RawOther => true | _ => false end.

(** Some argument was made for other key or value types. *)
Definition mismatched cfg : bool :=
  is_other (go_weigher cfg) || is_other (go_hasher cfg) || is_other (go_loader cfg) || is_other (go_bulkLoader cfg) ||
  is_other (go_expireFunc cfg) || is_other (go_store cfg) || is_other (go_onHit cfg) || is_other (go_onMiss cfg) ||
  is_other (go_onEvict cfg) || is_other (go_onExpire cfg) || is_other (go_onLoad cfg) ||
  is_other (go_purgeVisitor cfg) || is_other (go_copyOnGet cfg) || is_other (go_admissionPolicy cfg) ||
  is_other (go_invalidationPublisher cfg) || is_other (go_invalidationSubscriber cfg).

(** The snapshot to load at the start is there and cannot be used. *)
Definition autoLoadFails (L : codecEnv) (Y : snapTypes K V) E cfg : bool :=
  bool_decide (go_autoLoadPath cfg ≠ []) && negb (go_autoLoadIgnore cfg) &&
  match ev_file E (go_autoLoadPath cfg) with
  | None => false
  | Some None => true
  | Some (Some input) =>
      match readSnapshot L Y (snapConfigOf cfg) input with
      | inr _ | inl errEncryptedLegacy => false
      | inl _ => true
      end
  end.

Definition refused (L : codecEnv) (Y : snapTypes K V) E cfg (allowUnbounded : bool) : Prop :=
  go_codecCtorErr cfg ≠ None ∨
  go_maxEntries cfg < 0 ∨ go_maxBytes cfg < 0 ∨
  (allowUnbounded = false ∧ go_maxEntries cfg = 0 ∧ go_maxBytes cfg = 0) ∨
  (go_expvarName cfg ≠ [] ∧ ev_expvarTaken E (go_expvarName cfg) = true) ∨
  mismatched cfg = true ∨
  (0 < go_maxBytes cfg ∧ go_weigher cfg = RawNil) ∨
  autoLoadFails L Y E cfg = true.

Definition failed {X} (r : nres X) : bool := match r with inl _ => true | inr _ => false end.

Lemma failed_bind {X Z} (r : nres X) (f : X → nres Z) (q : bool) :
  (∀ x, r = inr x → failed (f x) = q) → failed (nres_bind _ _ f r) = failed r || q.
Proof. destruct r; cbn; auto. Qed.

Lemma failed_assert {X} field (r : raw X) : failed (assertType field r) = is_other r.
Proof. by destruct r. Qed.

Lemma failed_hasher E r : failed (resolveHasher E r) = is_other r.
Proof. by destruct r. Qed.

Lemma failed_admission cfg hasher : failed (resolveAdmissionPolicy cfg hasher) = is_other (go_admissionPolicy cfg).
Proof. unfold resolveAdmissionPolicy. by destruct (go_admissionPolicy cfg). Qed.

Lemma failed_hooks cfg :
  failed (resolveHooks cfg) =
  is_other (go_onHit cfg) || (is_other (go_onMiss cfg) || (is_other (go_onEvict cfg) || (is_other (go_onExpire cfg) ||
  (is_other (go_onLoad cfg) || (is_other (go_purgeVisitor cfg) || (is_other (go_copyOnGet cfg) || false)))))).
Proof.
  unfold resolveHooks. do 7 (erewrite failed_bind; [rewrite failed_assert; f_equal|intros ? _]). done.
Qed.

(** The gate changes nothing but [go_lockFreeRead]. *)
Lemma gate_spec cfg : ∃ b, gateLockFreeRead cfg = apply_update (mk_update go_lockFreeRead (constant b)) cfg ∧
  (b = true → go_policy cfg = PolicyS3FIFO ∧ go_expireFunc cfg = RawNil).
Proof.
  unfold gateLockFreeRead. destruct (go_lockFreeRead cfg) eqn:El; cbn.
  - destruct (lockFreeReadSupported cfg) eqn:Es; [exists true|exists false; done]. split; [by destruct cfg; cbn in *; subst|].
    intros _. unfold lockFreeReadSupported in Es. by destruct (go_policy cfg), (go_expireFunc cfg).
  - exists false. split; [by destruct cfg; cbn in *; subst|done].
Qed.

Lemma failed_autoLoad L Y E cfg b :
  b_snap b = snapConfigOf cfg → g_closed (c_g (b_mem b)) = false →
  failed (applyAutoLoad L Y E cfg b) = autoLoadFails L Y E cfg.
Proof.
  intros Hs Hc. unfold applyAutoLoad, autoLoadFails, Load, loadInto. rewrite Hs Hc.
  destruct (decide (go_autoLoadPath cfg = [])) as [Hp|Hp].
  { rewrite bool_decide_true // (bool_decide_false (go_autoLoadPath cfg ≠ [])) //. by intros []. }
  rewrite bool_decide_false // (bool_decide_true (go_autoLoadPath cfg ≠ [])) //.
  destruct (ev_file E (go_autoLoadPath cfg)) as [[input|]|]; [|by destruct (go_autoLoadIgnore cfg)|by rewrite andb_false_r].
  destruct (readSnapshot L Y (snapConfigOf cfg) input) as [e|staged].
  - by destruct e, (go_autoLoadIgnore cfg).
  - destruct (loadStaged _ _ _ _) as [C n]. by rewrite andb_false_r.
Qed.

Lemma given_assert {X} field (r : raw X) o : assertType field r = inr o → given o = negb (is_nil r).
Proof. by destruct r; cbn; intros [= <-]. Qed.

Lemma failed_build L Y E cfg un :
  failed (build L Y E cfg un) =
  given (go_codecCtorErr cfg) || (given (checkBounds E cfg un) || (mismatched cfg ||
  (bool_decide (0 < go_maxBytes cfg) && is_nil (go_weigher cfg) || autoLoadFails L Y E cfg))).
Proof.
  unfold build. destruct (go_codecCtorErr cfg); [done|]. destruct (checkBounds E cfg un); [done|]. cbn [given orb].
  unfold mismatched. rewrite -!orb_assoc.
  erewrite failed_bind; [rewrite failed_assert; f_equal; reflexivity|intros w Hw].
  erewrite failed_bind; [rewrite failed_hasher; f_equal; reflexivity|intros hs _].
  do 4 (erewrite failed_bind; [rewrite failed_assert; f_equal; reflexivity|intros ? _]).
  erewrite failed_bind; [rewrite failed_hooks -!orb_assoc; do 7 f_equal; reflexivity|intros ? _].
  cbn [orb]. erewrite failed_bind; [rewrite failed_admission; f_equal; reflexivity|intros ? _].
  do 2 (erewrite failed_bind; [rewrite failed_assert; f_equal; reflexivity|intros ? _]).
  rewrite (given_assert _ _ _ Hw) negb_involutive. destruct (bool_decide _ && _); [done|]. cbn [orb].
  destruct (gate_spec cfg) as (bb & -> & _). by rewrite failed_autoLoad.
Qed.

Lemma failed_inl {X} (r : nres X) : (∃ e, r = inl e) ↔ failed r = true.
Proof. destruct r; naive_solver. Qed.

Lemma checkExpvar_given E name :
  (given (checkExpvarName E name) = true ↔ name ≠ [] ∧ ev_expvarTaken E name = true) ∧
  checkExpvarName E name ≠ Some ErrUnbounded.
Proof.
  unfold checkExpvarName. case_bool_decide; [naive_solver|]. destruct (ev_expvarTaken E name); naive_solver.
Qed.

Lemma missing_bound (un : bool) n m :
  0 <= n → 0 <= m →
  negb un && bool_decide (n <= 0) && bool_decide (m <= 0) = true ↔ un = false ∧ n = 0 ∧ m = 0.
Proof. intros. rewrite !andb_true_iff !bool_decide_eq_true negb_true_iff. intuition lia. Qed.

Lemma checkBounds_given E cfg un :
  (given (checkBounds E cfg un) = true ↔
   go_maxEntries cfg < 0 ∨ go_maxBytes cfg < 0 ∨ (un = false ∧ go_maxEntries cfg = 0 ∧ go_maxBytes cfg = 0) ∨
   (go_expvarName cfg ≠ [] ∧ ev_expvarTaken E (go_expvarName cfg) = true)) ∧
  (checkBounds E cfg un = Some ErrUnbounded ↔ un = false ∧ go_maxEntries cfg = 0 ∧ go_maxBytes cfg = 0).
Proof.
  unfold checkBounds. destruct (checkExpvar_given E (go_expvarName cfg)) as [X1 X2].
  generalize dependent (go_maxEntries cfg). generalize dependent (go_maxBytes cfg). intros m n.
  case_bool_decide as Hn; [split; [by split; [left|]|split; [done|lia]]|].
  case_bool_decide as Hm; [split; [by split; [right; left|]|split; [done|lia]]|].
  pose proof (missing_bound un n m ltac:(lia) ltac:(lia)) as Hb. destruct (_ && _).
  - split; [split; [|done]|]; [intros _; right; right; left; by apply Hb|by rewrite -Hb].
  - rewrite X1 -Hb. split; [|done]. split; [by right; right; right|]. by intros [?|[?|[?|?]]].
Qed.

Lemma build_refused L Y E cfg un : (∃ e, build L Y E cfg un = inl e) ↔ refused L Y E cfg un.
Proof.
  rewrite failed_inl failed_build /refused !orb_true_iff andb_true_iff bool_decide_eq_true (proj1 (checkBounds_given E cfg un)).
  assert (given (go_codecCtorErr cfg) = true ↔ go_codecCtorErr cfg ≠ None) as -> by (destruct (go_codecCtorErr cfg); naive_solver).
  assert (is_nil (go_weigher cfg) = true ↔ go_weigher cfg = RawNil) as -> by (destruct (go_weigher cfg); naive_solver).
  tauto.
Qed.

(** Only the check of the bounds answers [ErrUnbounded]. *)
Lemma bind_bounded {X Z} (r : nres X) (f : X → nres Z) :
  r ≠ inl ErrUnbounded → (∀ x, f x ≠ inl ErrUnbounded) → nres_bind _ _ f r ≠ inl ErrUnbounded.
Proof. destruct r; cbn; congruence. Qed.

Lemma assert_bounded {X} field (r : raw X) : assertType field r ≠ inl ErrUnbounded.
Proof. by destruct r. Qed.

Lemma hooks_bounded cfg : resolveHooks cfg ≠ inl ErrUnbounded.
Proof. unfold resolveHooks. do 7 (apply bind_bounded; [apply assert_bounded|intros ?]). done. Qed.

Lemma autoLoad_bounded L Y E cfg b : applyAutoLoad L Y E cfg b ≠ inl ErrUnbounded.
Proof. unfold applyAutoLoad. repeat case_match; congruence. Qed.

Lemma build_unbounded L Y E cfg un :
  build L Y E cfg un = inl ErrUnbounded ↔ go_codecCtorErr cfg = None ∧ checkBounds E cfg un = Some ErrUnbounded.
Proof.
  unfold build. destruct (go_codecCtorErr cfg); [naive_solver|]. destruct (checkBounds E cfg un); [naive_solver|].
  split; [|naive_solver]. intros Hb. exfalso. revert Hb.
  apply bind_bounded; [apply assert_bounded|intros ?].
  apply bind_bounded; [by destruct (go_hasher cfg)|intros ?].
  do 4 (apply bind_bounded; [apply assert_bounded|intros ?]).
  apply bind_bounded; [apply hooks_bounded|intros ?].
  apply bind_bounded; [unfold resolveAdmissionPolicy; by destruct (go_admissionPolicy cfg)|intros ?].
  do 2 (apply bind_bounded; [apply assert_bounded|intros ?]).
  destruct (_ && _); [done|]. apply autoLoad_bounded.
Qed.

(** C7: whatever options it is given, [New] returns an error precisely when an
    encryption key was unusable, a bound is negative, there is no bound at
    all, the expvar name is taken, an argument was made for other key or value
    types, there is a byte bound and no weigher, or the snapshot of
    [WithAutoLoad] is there and cannot be opened or loaded ([autoLoadFails]:
    not under [WithAutoLoadIgnoreErrors], and a legacy encrypted file is
    skipped); [NewUnbounded] likewise, but for the missing bound.  The error
    is [ErrUnbounded] precisely when no encryption key was unusable and both
    bounds are zero. *)
Theorem new_refuses L Y E (opts : list (option Option)) :
  let cfg := applyOptions E opts in
  ((∃ e, New L Y E opts = inl e) ↔ refused L Y E cfg false) ∧
  ((∃ e, NewUnbounded L Y E opts = inl e) ↔ refused L Y E cfg true) ∧
  (New L Y E opts = inl ErrUnbounded ↔ go_codecCtorErr cfg = None ∧ go_maxEntries cfg = 0 ∧ go_maxBytes cfg = 0) ∧
  NewUnbounded L Y E opts ≠ inl ErrUnbounded.
Proof.
  cbv zeta. unfold New, NewUnbounded. rewrite !build_refused !build_unbounded !(proj2 (checkBounds_given _ _ _)).
  split_and!; [done|done|naive_solver|]. by intros (_ & ? & _).
Qed.

(** ** What is built *)

(** What Go's types say of the surroundings. *)
Record env_ok E : Prop := EnvOk {
  eo_now : 0 <= ev_now E;
  eo_k0 : is_u64 (ev_k0 E);
  eo_k1 : is_u64 (ev_k1 E);
  eo_view : ∀ k, view_ok (ev_view E k)
}.

Lemma bind_inr {X Z} (r : nres X) (f : X → nres Z) z : nres_bind _ _ f r = inr z → ∃ x, r = inr x ∧ f x = inr z.
Proof. destruct r as [e|x]; cbn; [done|]. eauto. Qed.

Lemma hasher_ok E r hasher :
  env_ok E → raw_ok (λ h, ∀ k, is_u64 (h k)) r → resolveHasher E r = inr hasher → ∀ k, is_u64 (hasher k).
Proof.
  intros [_ E1 E2 E3] Hr. destruct r; cbn; intros [= <-] k; [|by apply Hr]. by apply defaultHasher_u64.
Qed.

Lemma build_inr L Y E cfg un b :
  env_ok E → settings_ok cfg → build L Y E cfg un = inr b →
  ∃ c adm b0,
    applyAutoLoad L Y E (gateLockFreeRead cfg) b0 = inr b ∧ b_config b0 = c ∧
    b_mem b0 = initShards c (optionsOf E (gateLockFreeRead cfg)) adm ∧
    config_ok c (go_shards cfg) ∧ cf_maxBytes c = go_maxBytes cfg ∧
    (0 < go_maxBytes cfg → is_Some (cf_weigher c)) ∧
    (cf_lockFreeRead c = true → cf_expireFunc c = None ∧ go_policy cfg = PolicyS3FIFO) ∧
    cf_maxTagsPerEntry c = go_maxTagsPerEntry cfg ∧ cf_maxTagsTotal c = go_maxTagsTotal cfg ∧
    cf_groups c = go_groups cfg.
Proof.
  intros HE Hok. unfold build. destruct (go_codecCtorErr cfg); [done|]. destruct (checkBounds E cfg un); [done|].
  intros (w & Hw & (h & Hh & (l & _ & (bl & _ & (ef & Hef & (st & _ & Hb)%bind_inr)%bind_inr)%bind_inr)%bind_inr)%bind_inr)%bind_inr.
  apply bind_inr in Hb as (hk & _ & (adm & _ & (pb & _ & (sb & _ & Hb)%bind_inr)%bind_inr)%bind_inr).
  destruct (bool_decide (0 < go_maxBytes cfg) && negb (given w)) eqn:Ew; [done|].
  destruct (gate_spec cfg) as (lf & Hg & Hlf). eexists _, adm, _. split; [exact Hb|]. cbn [b_config b_mem].
  split; [done|]. split; [done|]. destruct Hok as [[S1 _] _ _ _ _ S6].
  assert (go_shards (gateLockFreeRead cfg) = go_shards cfg) as Hsh by by rewrite Hg.
  split_and!; [split_and!; [lia|by cbn; rewrite Hsh|]|..]; try (cbn; by rewrite Hg).
  - cbn. by apply (hasher_ok E (go_hasher cfg)).
  - cbn. intros Hm. rewrite bool_decide_true // in Ew. by destruct w.
  - cbn. rewrite Hg. cbn. unfold constant. intros ->. destruct Hlf as [L1 L2]; [done|]. split; [|done].
    rewrite L2 in Hef. by injection Hef.
Qed.

Lemma autoLoad_writable L Y E cfg b0 b :
  writable (b_config b0) (b_mem b0) → applyAutoLoad L Y E cfg b0 = inr b →
  b_config b = b_config b0 ∧ writable (b_config b) (b_mem b) ∧ dims (b_mem b) = dims (b_mem b0).
Proof.
  intros Hw. unfold applyAutoLoad. case_bool_decide; [by intros [= <-]|].
  destruct (ev_file E (go_autoLoadPath cfg)) as [[input|]|]; [|by destruct (go_autoLoadIgnore cfg); [intros [= <-]|]|by intros [= <-]].
  unfold Load, loadInto. destruct (g_closed (c_g (b_mem b0))).
  { cbn. by destruct (go_autoLoadIgnore cfg); [intros [= <-]|]. }
  destruct (readSnapshot L Y (b_snap b0) input) as [e|staged].
  - destruct e; try (by destruct (go_autoLoadIgnore cfg); [intros [= <-]|]). by intros [= <-].
  - pose proof (loadStaged_ok (b_config b0) (b_mem b0) true staged Hw) as [Hl _].
    pose proof (loadStaged_dims (b_config b0) (b_mem b0) true staged Hw) as Hs.
    destruct (loadStaged _ _ _ _) as [C n]. intros [= <-]. by destruct b0.
Qed.

Lemma options_ok opts cfg :
  Forall (from_option exported True) opts → settings_ok cfg →
  settings_ok (foldl (λ cfg o, match o with Some f => f cfg | None => cfg end) cfg opts).
Proof.
  intros Hex. revert cfg. induction Hex as [|[opt|] opts Ho _ IH]; intros cfg Hok; cbn;
    [done|apply IH; by apply exported_settings|by apply IH].
Qed.

Lemma applyOptions_ok E opts : Forall (from_option exported True) opts → settings_ok (applyOptions E opts).
Proof. intros Hex. apply options_ok; [done|apply default_settings]. Qed.

(** The cache and its settings fit together. *)
Record built_ok (cfg : goConfig) (b : built) : Prop := BuiltOk {
  bo_bounds : g_maxEntries (c_g (b_mem b)) = go_maxEntries cfg ∧ g_maxBytes (c_g (b_mem b)) = go_maxBytes cfg;
  bo_range : 0 <= go_maxEntries cfg ∧ 0 <= go_maxBytes cfg;
  bo_weigher : 0 < go_maxBytes cfg → is_Some (cf_weigher (b_config b));
  bo_lockFree : cf_lockFreeRead (b_config b) = true → cf_expireFunc (b_config b) = None ∧ go_policy cfg = PolicyS3FIFO;
  bo_shards : ∃ n : nat, length (c_shards (b_mem b)) = (2 ^ n)%nat ∧ cf_shardMask (b_config b) = 2 ^ Z.of_nat n - 1;
  bo_tags : 0 <= cf_maxTagsPerEntry (b_config b) ∧ 0 <= cf_maxTagsTotal (b_config b);
  bo_groups : map_Forall (λ _ capacity, 0 < capacity) (cf_groups (b_config b));
  bo_wf : writable (b_config b) (b_mem b)
}.

Lemma initShards_ok (c : config K V) o (adm : anyAdmission (K := K) (A := A)) :
  0 <= o_now o → config_ok c (o_shards o) →
  writable c (initShards c o adm) ∧
  dims (initShards c o adm) = (Z.to_nat (nextPowerOfTwo (Z.max (o_shards o) 1)), o_maxEntries o, cf_maxBytes c).
Proof.
  intros Ho Hc. destruct (newCache_wf c (o_maxEntries o) (o_shards o) (o_collisionTracking o) _ _ _ adm (parts_fresh c o Ho) Hc)
    as (W1 & W2 & _). split; [by split_and!|]. unfold dims. cbn. by rewrite length_replicate.
Qed.

Lemma build_ok L Y E cfg un b : env_ok E → settings_ok cfg → build L Y E cfg un = inr b → built_ok cfg b.
Proof.
  intros HE Hok Hb. pose proof (proj2 (build_refused L Y E cfg un)) as Hr. rewrite Hb in Hr.
  assert (¬ refused L Y E cfg un) as Hnr by (intros [e He]%Hr; done).
  destruct (build_inr L Y E cfg un b HE Hok Hb) as (c & adm & b0 & Hal & Hc & Hm & Hcfg & Hmb & Hw & Hlf & T1 & T2 & T3).
  destruct (initShards_ok c (optionsOf E (gateLockFreeRead cfg)) adm) as [W1 W2]; [apply HE|by destruct (gate_spec cfg) as (? & -> & _)|].
  destruct (autoLoad_writable L Y E (gateLockFreeRead cfg) b0 b) as (A1 & A2 & A3); [by rewrite Hm Hc|done|].
  rewrite Hm W2 in A3. unfold dims in A3. injection A3 as A3 A4 A5. rewrite Hmb in A5.
  destruct (gate_spec cfg) as (lf & Hg & _). rewrite Hg in A3, A4. cbn in A3, A4.
  destruct Hok as [[S1 [n Hn]] S2 S3 _ S5 _]. unfold refused in Hnr.
  assert (0 <= go_maxEntries cfg ∧ 0 <= go_maxBytes cfg) as Hpos by (split; apply Z.nlt_ge; intros ?; apply Hnr; auto).
  constructor; rewrite ?A1 ?Hc ?T1 ?T2 ?T3 //; [|by rewrite -Hc -A1].
  destruct Hcfg as (C1 & C2 & _). destruct (power_of_two (Z.max (go_shards cfg) 1)) as [_ [m Hm']]; [lia|].
  exists m. rewrite A3 C2 Hm'. split; [|done]. apply Nat2Z.inj. rewrite Z2Nat.id; [|lia]. by rewrite Z2Nat.inj_pow.
Qed.

(** C6: a cache that [New] returns, whatever options of the package it was
    given, has non-negative bounds of which one is positive, a weigher if
    it has a byte bound, a power of two of shards that the hash mask
    selects, the lock-free path only under S3-FIFO without an expiry
    function, tag limits that are not negative and groups that hold
    something; it is well-formed and within its bounds.  Without negative
    caching, a Store and queued writes it remains so under every sequence of
    calls of [reachable_wf], and until a [Resize] the bounds are those of the
    options. *)
Theorem new_sound L Y E opts b :
  env_ok E → Forall (from_option exported True) opts → New L Y E opts = inr b →
  built_ok (applyOptions E opts) b ∧
  (0 < go_maxEntries (applyOptions E opts) ∨ 0 < go_maxBytes (applyOptions E opts)) ∧
  (cf_negativeTTL (b_config b) <= 0 → b_store b = None → b_async b = false →
   (∀ os, let C := perform_all (b_config b) (b_mem b) os in cache_wf (b_config b) 0 C ∧ overBudget (c_g C) = false) ∧
   (∀ os, let C := run_all (b_config b) (b_mem b) os in
     (0 < go_maxEntries (applyOptions E opts) → Len C <= go_maxEntries (applyOptions E opts)) ∧
     (0 < go_maxBytes (applyOptions E opts) → Bytes C <= go_maxBytes (applyOptions E opts)))).
Proof.
  intros HE Hex Hb. set (cfg := applyOptions E opts). pose proof (applyOptions_ok E opts Hex) as Hok. fold cfg in Hok.
  pose proof (build_ok L Y E cfg false b HE Hok Hb) as HB. split; [done|]. split.
  - destruct (bo_range _ _ HB) as [R1 R2]. destruct (decide (0 < go_maxEntries cfg)); [by left|]. right.
    apply Z.nle_gt. intros Hm. destruct (proj2 (build_refused L Y E cfg false)) as [e He]; [|unfold New in Hb; fold cfg in Hb; congruence].
    right; right; right; left. split_and!; [done|lia|lia].
  - intros Hneg _ _. split.
    { intros os. by destruct (perform_all_writable (b_config b) (b_mem b) os Hneg (bo_wf _ _ HB)) as (? & ? & _). }
    intros os. cbv zeta. destruct (bo_wf _ _ HB) as (W1 & W2 & W3). destruct (bo_bounds _ _ HB) as [B1 B2].
    destruct (run_all_vstep (b_config b) (b_mem b) os W1 W3 W2 Hneg) as (R1 & R2 & _ & R4 & R5 & _).
    rewrite -B1 -B2 -R4 -R5. revert R2. unfold overBudget, Len, Bytes.
    rewrite orb_false_iff !andb_false_iff !bool_decide_eq_false. split; intros; lia.
Qed.
End options.

(** ** An example *)

(** Caches from integers to integers, with one file on disk. *)
Definition demoEnv : goEnv (K := Z) (V := Z) (Logger := unit) :=
  GoEnv 8 (λ n, 1200 + Z.of_nat n) (CBase intBase) tt 1200 (λ _ _, 0) (λ l, None) 7 11 KeyInt (λ _, None)
    (λ _, []) (λ _ d, d) false (λ _, false) 0 (λ path, if bool_decide (path = [47]) then Some (Some (saved_file ++ [0])) else None).

Abbreviation demoOption := (Option (K := Z) (V := Z) (A := AdmitAlways) (S := unit) (Tracer := unit) (Logger := unit)).

(** Three entries or 100 bytes under TinyLFU; the snapshot is loaded at the
    start. *)
Definition demoOptions : list (option demoOption) :=
  [Some (WithMaxEntries 3); None; Some (WithMaxBytes 100); Some (WithWeigher (RawOf (λ v, v)));
   Some (WithPolicy PolicyTinyLFU); Some (WithShards 3); Some WithLockFreeRead; Some (WithDoorkeeper true);
   Some (WithEncryptedCodec (CompressedCodec (CBase intBase) 6) (replicate 32 7));
   Some (WithGroup "g" 2); Some (WithGroup "g" 0); Some (WithAutoLoad [47]); Some (WithMaxSnapshotBytes 1000)].

Lemma demo_env_ok : env_ok demoEnv.
Proof. by constructor. Qed.

Lemma demo_exported : Forall (from_option exported True) demoOptions.
Proof. repeat first [lia|constructor]. Qed.

Lemma new_sound_witness :
  match New toyEnv intTypes demoEnv demoOptions with
  | inl _ => False
  | inr b =>
      (Peek (b_config b) (b_mem b) 4).2 = Some 40 ∧
      cf_lockFreeRead (b_config b) = false ∧ length (c_shards (b_mem b)) = 4%nat ∧
      Len (run_all (b_config b) (b_mem b) [OpSet 5 50; OpSet 6 60; OpSet 5 51]) <= 3 ∧
      overBudget (c_g (perform_all (b_config b) (b_mem b) [CallOp (OpSet 5 50); CallResize 2])) = false
  end.
Proof.
  assert (match New toyEnv intTypes demoEnv demoOptions with
          | inl _ => False
          | inr b => (Peek (b_config b) (b_mem b) 4).2 = Some 40 ∧ cf_lockFreeRead (b_config b) = false ∧
              length (c_shards (b_mem b)) = 4%nat ∧ cf_negativeTTL (b_config b) = 0 ∧ b_store b = None ∧ b_async b = false
          end) as Hd by (vm_compute; split_and!; reflexivity).
  destruct (New toyEnv intTypes demoEnv demoOptions) as [e|b] eqn:Hb; [done|]. destruct Hd as (D1 & D2 & D3 & D4 & D5 & D6).
  destruct (new_sound toyEnv intTypes demoEnv demoOptions b demo_env_ok demo_exported Hb) as (_ & _ & Hn).
  destruct (Hn ltac:(by rewrite D4) D5 D6) as [Hn1 Hn2]. split; [done|]. split; [done|]. split; [done|].
  split; [by apply Hn2|]. apply Hn1.
Defined.
