(* ===== verification/Sizing.v ===== *)
(** * Sizing: jitter, sliding expiry, shard budgets and the fast read path

    Properties of the numeric parts of the cache (the TTL jitter of a write,
    the sliding expiry of reads, the sizes [New] gives the shards) and of the
    agreement of the lock-free read path with the locked one. *)

From S2P Require Import Prelude Dll Policy Duo S3fifo Fifo Lru Storage Ttl Heap Entry Tags Flights Shard Admission.
From S2P Require Import ShardInv ShardOps ShardBulk Cache Bulk Loads Run CacheInv CacheOps CacheReads CacheRun RunInv CacheNew.
From S2P Require Import Concrete.

#[local] Open Scope Z_scope.

(** ** Jitter *)

Section jitter.
Context {K V A : Type} `{Countable K}.
Implicit Types (c : config K V) (g : globals K V A).

(** [rand.Int64N m] is in [[0, m)]. *)
Definition rand_ok c : Prop := ∀ n m, 0 < m → 0 <= cf_rand c n m < m.

(** The jitter never makes a positive TTL expire at once, and never moves
    it by more than a quarter of it nor by more than the configured window
    (5% when none is configured); without a window the TTL is exact. *)
Theorem effectiveTTL_bounds c g ttl :
  rand_ok c → 0 < ttl <= 2 ^ 62 →
  let eff := (effectiveTTL c g ttl).1 in
  0 < eff ∧ Z.abs (eff - ttl) <= ttl `quot` 4 ∧ Z.abs (eff - ttl) <= Z.max 0 (resolveJitter c ttl).
Proof.
  intros Hr Ht. cbv zeta. unfold effectiveTTL, applyJitter. rewrite bool_decide_false; [|lia].
  set (j := resolveJitter c ttl). assert (ttl `quot` 4 = ttl / 4) as Hq by (apply Z.quot_div_nonneg; lia).
  rewrite Hq. assert (0 <= ttl / 4 < ttl) by (split; [apply Z.div_pos|apply Z.div_lt]; lia).
  destruct (bool_decide (j <= 0)) eqn:E1; [cbn; lia|]. apply bool_decide_eq_false in E1.
  set (j' := if bool_decide (ttl / 4 < j) then ttl / 4 else j).
  assert (j' <= ttl / 4 ∧ j' <= j) by (subst j'; case_bool_decide; lia).
  destruct (bool_decide (j' <= 0)) eqn:E2; [cbn; lia|]. apply bool_decide_eq_false in E2. cbn.
  specialize (Hr (g_rtick g) (2 * j' + 1) ltac:(lia)). set (d := cf_rand _ _ _) in *.
  rewrite i64_id; [|unfold is_i64; lia]. lia.
Qed.
End jitter.

(** ** Sliding expiry *)

Section sliding.
Context {K V : Type}.
Implicit Types (e : entry K V).

(** Reads at the times of [ts], in order: each finds whether the entry has
    expired and touches it if it has not. *)
Fixpoint accesses e (ts : list Z) : option (entry K V) :=
  match ts with
  | [] => Some e
  | t :: ts => if entry_expired e t then None else accesses (touchAccess (addHit e) t).1 ts
  end.

(** Each time follows the one before by less than [gap]. *)
Fixpoint paced (gap t0 : Z) (ts : list Z) : Prop :=
  match ts with
  | [] => True
  | t :: ts => t0 <= t < t0 + gap ∧ paced gap t ts
  end.

(** The time of the last access. *)
Fixpoint last_time (t0 : Z) (ts : list Z) : Z :=
  match ts with [] => t0 | t :: ts => last_time t ts end.

Lemma last_time_le gap t ts : paced gap t ts → t <= last_time t ts.
Proof. revert t. induction ts as [|u us IH]; intros t; cbn; [lia|]. intros [Hu Hus]. specialize (IH u Hus). lia. Qed.

(** A sliding entry: its expiry is one TTL after the access it records,
    which lies less than a quarter of the TTL before [t], the last one. *)
Definition slides e (t : Z) : Prop :=
  e_has e flagSliding = true ∧ 0 < e_slidingTTL e ∧ e_expireAt e = e_lastAccess e + e_slidingTTL e ∧
  e_lastAccess e <= t ∧ (t = e_lastAccess e ∨ t - e_lastAccess e < e_slidingTTL e `quot` 4).

Lemma touch_slides e t t' :
  slides e t → 0 < e_lastAccess e → t <= t' < t + (e_slidingTTL e - e_slidingTTL e `quot` 4) →
  t' + e_slidingTTL e < 2 ^ 63 →
  t' < e_expireAt e ∧
  let e' := (touchAccess (addHit e) t').1 in
  slides e' t' ∧ e_slidingTTL e' = e_slidingTTL e ∧ 0 < e_lastAccess e'.
Proof.
  intros (S1 & S2 & S3 & S4 & S5) H0' Ht Hov. unfold touchAccess.
  assert (e_slidingTTL e `quot` 4 = e_slidingTTL e / 4) as Hq by (apply Z.quot_div_nonneg; lia).
  assert (0 <= e_slidingTTL e / 4 < e_slidingTTL e) by (split; [apply Z.div_pos|apply Z.div_lt]; lia).
  rewrite Hq in S5, Ht. split; [destruct S5; lia|].
  change (e_has (addHit e) flagSliding) with (e_has e flagSliding). rewrite S1.
  cbn [negb orb addHit set_hits e_slidingTTL e_lastAccess].
  rewrite bool_decide_false; [|lia]. rewrite Hq i64_id; [|unfold is_i64; lia].
  case_bool_decide; unfold slides; cbn; rewrite ?i64_id ?Hq; try (unfold is_i64; lia).
  - split_and!; [done|done|done|lia|right; lia|done|done].
  - split_and!; [done|done|done|lia|by left|done|lia].
Qed.

(** A sliding entry that is read again and again, each time less than
    three quarters of its TTL after the time before, never expires, although
    most reads do not move its expiry; after the last read it has at least
    three quarters of its TTL left, and never more than the whole. *)
Theorem sliding_survives e t ts :
  slides e t → 0 < e_lastAccess e → paced (e_slidingTTL e - e_slidingTTL e `quot` 4) t ts →
  last_time t ts + e_slidingTTL e < 2 ^ 63 →
  ∃ e', accesses e ts = Some e' ∧ e_slidingTTL e' = e_slidingTTL e ∧
    last_time t ts + (e_slidingTTL e - e_slidingTTL e `quot` 4) <= e_expireAt e' <= last_time t ts + e_slidingTTL e.
Proof.
  revert e t. induction ts as [|t' ts IH]; intros e t HS Hp Ht Hov.
  - exists e. cbn. destruct HS as (_ & S2 & S3 & S4 & S5). split_and!; [done|done|..]; [|lia].
    assert (0 <= e_slidingTTL e `quot` 4) by (apply Z.quot_pos; lia). destruct S5; lia.
  - destruct Ht as [Ht Hts]. cbn [accesses].
    pose proof (last_time_le _ _ _ Hts) as Hmono. cbn [last_time] in Hov |- *.
    destruct (touch_slides e t t' HS Hp Ht ltac:(lia)) as (Hx & HS' & HT & Hp').
    unfold entry_expired. rewrite (bool_decide_false (e_expireAt e <= t')); [|lia]. rewrite andb_false_r.
    destruct (IH _ t' HS' Hp') as (e' & He' & HT' & Hb); [by rewrite HT|by rewrite HT|].
    exists e'. by rewrite He' HT' HT in Hb |- *.
Qed.
End sliding.

(** ** Shard budgets *)

(** The number of shards [New] makes when asked for [shards]. *)
Definition shardCount (shards : Z) : Z := nextPowerOfTwo (Z.max shards 1).

(** The shard count [New] uses is the least power of two that is at least
    the one asked for, and the shards' budgets together exceed the entry
    bound, each by at most a tenth of its share or by two entries; none of the
    intermediate results overflows. *)
Theorem shard_sizing maxEntries shards :
  0 < maxEntries <= 2 ^ 59 → shards <= 2 ^ 32 →
  let n := shardCount shards in
  let budget := perShardBudget maxEntries n in
  (∃ b : nat, n = 2 ^ Z.of_nat b) ∧ shards <= n ∧ (1 < shards → n < 2 * shards) ∧
  maxEntries < n * budget ∧ 10 * (budget - 2) * n <= 11 * maxEntries.
Proof.
  intros Hm Hs. cbv zeta. unfold shardCount. set (n := nextPowerOfTwo (Z.max shards 1)).
  assert ((∃ b : nat, n = 2 ^ Z.of_nat b) ∧ shards <= n ∧ (1 < shards → n < 2 * shards) ∧ 1 <= n <= 2 ^ 33)
    as (N1 & N2 & N3 & N4).
  { destruct (decide (1 < shards)) as [Hsh|Hsh].
    - destruct (nextPowerOfTwo_spec (Z.max shards 1)) as (b & B1 & B2 & B3 & B4); [lia|]. fold n in B2. rewrite B2.
      split_and!; [by exists b|lia..].
    - assert (n = 1) as -> by (subst n; unfold nextPowerOfTwo; rewrite bool_decide_true //; lia).
      split_and!; [by exists 0%nat|lia..]. }
  clearbody n. split; [done|]. split; [done|]. split; [done|]. unfold perShardBudget.
  rewrite (bool_decide_false (maxEntries <= 0)); [|lia]. rewrite (bool_decide_false (n <= 0)); [|lia]. cbn [orb].
  rewrite (i64_id (maxEntries + n)); [|unfold is_i64; lia]. rewrite (i64_id (_ - 1)); [|unfold is_i64; lia].
  rewrite Z.quot_div_nonneg; [|lia..]. set (per := (maxEntries + n - 1) / n).
  pose proof (Z.div_mod (maxEntries + n - 1) n ltac:(lia)) as Hd. fold per in Hd.
  pose proof (Z.mod_pos_bound (maxEntries + n - 1) n ltac:(lia)) as Hd'.
  assert (0 <= per <= 2 ^ 59) by (split; [apply Z.div_pos; lia|]; nia). clearbody per.
  rewrite (i64_id (per * 10)); [|unfold is_i64; lia]. rewrite Z.quot_div_nonneg; [|lia..].
  assert (10 * (per * 10 / 100) <= per ∧ 0 <= per * 10 / 100) as [Hq Hq'].
  { pose proof (Z.div_mod (per * 10) 100 ltac:(lia)). pose proof (Z.mod_pos_bound (per * 10) 100 ltac:(lia)). lia. }
  set (slop := Z.max _ 1). assert (1 <= slop ∧ (slop = 1 ∨ 10 * slop <= per)) as [Hs1 Hs2] by (subst slop; lia).
  rewrite i64_id; [|unfold is_i64; lia]. clearbody slop. split; [nia|]. destruct Hs2 as [->|Hs2]; nia.
Qed.

(** ** The lock-free read path *)

Section fast.
Context {K V P St T A : Type} `{Countable K, Inhabited K, Inhabited V}.
Context `{EvictionPolicy K P, ShardStore K St, TtlBackend T, AdmissionPolicy K A}.
Context `{!PolicyLaws K P, !StoreLaws K St, !TtlLaws T}.
Local Abbreviation cache := (cache K V P St T A).
Implicit Types (c : config K V) (C : cache) (k : K).

(** The answers of the two paths are the same, or the first has none. *)
Definition agrees (r : lockFree V) (r' : @slow V) : Prop :=
  match r with
  | TermHit v => r' = SlowHit v
  | TermMiss => r' = SlowMiss
  | NotTerminal => True
  end.

(** What a caller of [Get] gets, in a cache without a Store, from the answer
    of the locked path. *)
Definition answerOf c (r : @slow V) : option V :=
  match r with SlowHit v => Some (returnValue c v) | SlowMiss | FinalMiss => None end.

(** C8: in a cache without Store and queued writes the lock-free path agrees with the locked
    one: when it answers, the path under the write lock at the same time gives
    the same answer, a hit with the same value or a miss, although it reads a
    snapshot that may be older than the table.  Hence [Get], whichever of its
    three paths answers, returns what the path under the write lock alone
    would return. *)
Theorem lock_free_agrees c C s k now :
  cache_wf c 0 C → c_shards C !! shardFor c k = Some s →
  agrees (tryLockFreeGet c s k now).1 (slowGetLocked c (c_g C) s k now).2 ∧
  (g_closed (c_g C) = false →
   (Get c C k).2 = answerOf c (slowGetLocked c (c_g C) s k (cf_clock c (g_tick (c_g C)))).2).
Proof.
  intros Hwf0 Hs. pose proof Hwf0 as [ms HI]. destruct (inv_shard c 0 C ms _ s HI Hs) as (m & D & _ & Hwf). split.
  - pose proof (lockFree_ok c (c_g C) s m D k now Hwf) as Hf. pose proof (slowGet_ok c (c_g C) s m D k now Hwf) as Hg.
    destruct (tryLockFreeGet c s k now) as [r s']. destruct Hf as (_ & _ & _ & Hf).
    destruct (slowGetLocked c (c_g C) s k now) as [[g1 s1] r1]. destruct Hg as (_ & _ & _ & _ & Hg). cbn.
    destruct r as [| |v]; [done|by destruct r1; [destruct Hg as (e & He & _)| |destruct Hg as (e & He & _)]; congruence|].
    destruct Hf as (e & He & Hsv & <-). destruct r1 as [v'| |].
    + destruct Hg as (e' & He' & _ & <-). congruence.
    + destruct (Hg e He). by destruct (not_servable c e now).
    + destruct Hg as (e' & He' & Hn). destruct Hsv. congruence.
  - intros Hcl. set (t := cf_clock c _). pose proof (slowGet_ok c (c_g C) s m D k t Hwf) as Hg.
    pose proof (Get_get c 0 C k Hwf0 (Z.le_refl 0)) as Hr. rewrite Hcl in Hr. destruct (Get c C k) as [C' r]. destruct Hr as [_ Hr].
    fold t in Hr. destruct (slowGetLocked c (c_g C) s k t) as [[g1 s1] r1]. destruct Hg as (_ & _ & _ & _ & Hg). cbn.
    unfold answers in Hr. rewrite (shard_get_lookup c C k s Hs) in Hr. destruct r as [v|].
    + destruct Hr as (e & He & Hsv & <-). destruct r1 as [v'| |]; cbn in Hg |- *.
      * destruct Hg as (e' & He' & _ & <-). congruence.
      * destruct (Hg e He). by destruct (not_servable c e t).
      * destruct Hg as (e' & He' & Hn). destruct Hsv. congruence.
    + destruct r1 as [v'| |]; [|done..]. destruct Hg as (e & He & Hsv & _). by destruct (Hr e He).
Qed.
End fast.

(** ** Witnesses *)

(** A jitter window of 5 that the random source uses up. *)
Definition jittery : zconfig :=
  Config (λ k, u64 k) 1 None None (λ _, []) (λ _ ttl, ttl) None (λ _, None) 0 0 0 0 0 0 false
    (Some 5) 0 0 0 true false true None 0 ∅ false false true false false false false tick (λ _ m, m - 1) (λ l, head l).

Lemma effectiveTTL_bounds_witness :
  let eff := (effectiveTTL jittery (c_g (znew plain 3)) 100).1 in
  eff = 105 ∧ 0 < eff ∧ Z.abs (eff - 100) <= 100 `quot` 4.
Proof.
  cbv zeta. split; [vm_compute; done|].
  destruct (effectiveTTL_bounds jittery (c_g (znew plain 3)) 100) as (E1 & E2 & _); [|lia|done].
  intros n m Hm. cbn. lia.
Defined.

Lemma sliding_survives_witness :
  let e : entry Z Z := Entry 1 (Some 10) 1100 1000 1000 0 1 100 [] flagSliding false in
  ∃ e', accesses e [1020; 1090; 1160] = Some e' ∧ 1235 <= e_expireAt e' <= 1260.
Proof.
  cbv zeta. set (e := Entry 1 (Some 10) 1100 1000 1000 0 1 100 [] flagSliding false : entry Z Z).
  destruct (sliding_survives e 1000 [1020; 1090; 1160]) as (e' & E1 & _ & E2).
  - subst e. split_and!; cbn; [done|lia|lia|lia|by left].
  - done.
  - subst e. vm_compute. repeat split; done.
  - done.
  - exists e'. split; [exact E1|]. exact E2.
Defined.

Lemma shard_sizing_witness :
  shardCount 6 = 8 ∧ perShardBudget 1000 8 = 137 ∧ 1000 < 8 * perShardBudget 1000 8.
Proof.
  split; [vm_compute; done|]. split; [vm_compute; done|].
  exact (proj1 (proj2 (proj2 (proj2 (shard_sizing 1000 6 ltac:(lia) ltac:(lia)))))).
Defined.

(** Lock-free reads with S3-FIFO: a write and reads that publish a
    snapshot. *)
Definition fastconf : zconfig := zconf None (λ _, []) 0 0 0 true tick.

Abbreviation fcache := (cache Z Z (s3fifoPolicy Z) (mapStore Z) expiryHeapBackend AdmitAlways).

Definition fnew : fcache := newCache fastconf 0 2 false (λ b, newS3FIFO b true) newExpiryHeapBackend newMapStore MkAdmitAlways.
Definition warm : fcache := run_all fastconf fnew (OpSet 2 20 :: replicate 30 (OpGet 2)).

Lemma fnew_wf : cache_wf fastconf 0 fnew ∧ overBudget (c_g fnew) = false ∧ ∀ k, shard_get fastconf fnew k = None.
Proof.
  apply newCache_wf; [|apply z_config]. split; [|apply (proj2 z_fresh)].
  intros b. apply s3_new_ok.
Qed.

Lemma lock_free_agrees_witness :
  ∃ s, c_shards warm !! shardFor fastconf 2 = Some s ∧ (tryLockFreeGet fastconf s 2 1100).1 = TermHit 20 ∧
    (slowGetLocked fastconf (c_g warm) s 2 1100).2 = SlowHit 20.
Proof.
  destruct (c_shards warm !! shardFor fastconf 2) as [s|] eqn:Hs; [|vm_compute in Hs; done]. exists s.
  assert ((tryLockFreeGet fastconf s 2 1100).1 = TermHit 20) as Hf.
  { vm_compute in Hs. injection Hs as <-. vm_compute. done. }
  split; [done|]. split; [exact Hf|]. destruct fnew_wf as (W1 & W2 & _).
  pose proof (proj1 (lock_free_agrees fastconf warm s 2 1100 (proj1 (run_all_vstep fastconf fnew _ W1 eq_refl W2 (Z.le_refl 0))) Hs)) as Ha.
  rewrite Hf in Ha. exact Ha.
Defined.
