(* ===== verification/Findings.v ===== *)
(** * Findings: where the code and its documentation part

    Runs of the model, each on a concrete cache, of behaviours that the
    documentation or the intent of the code excludes. *)

From S2P Require Import Prelude Policy Lru Storage Ttl Heap Entry Tags Flights Shard Admission ShardInv.
From S2P Require Import Store Cache Bulk Loads Run StoreCache Tiered Compute CacheInv CacheNew Concrete StoreOps.
From Stdlib Require Import Floats.SpecFloat.
From S2P Require Import StoreProps TieredInv TieredProps Async AsyncInv AsyncProps Codec SaveLoad Options OptionsProps Events Cachetag Diagnose Counters.

#[local] Open Scope Z_scope.
#[local] Open Scope string_scope.

(** A write of value 7 under key 1 with tag "t". *)
Definition tagged_set : cop (K := Z) (V := Z) :=
  OpSetWithOptions 1 7 (SetConfig None None (Some ["t"]) None None).

(** [InvalidateTag] trusts the tag index, which is cleaned up in the
    background: a key that was tagged, deleted and set again without the tag
    is removed by an invalidation of the tag that runs before the cleanup,
    although its entry does not carry the tag; after the cleanup it is
    kept. *)
Theorem stale_tag_removes_untagged :
  let C := run_all plain (znew plain 0) [tagged_set; OpDelete 1; OpSet 1 8] in
  (e_tags <$> shard_get plain C 1) = Some [] ∧
  (Get plain (InvalidateTag plain C "t").1 1).2 = None ∧
  (Get plain (InvalidateTag plain (drainUntag plain C) "t").1 1).2 = Some 8.
Proof. vm_compute. done. Qed.

(** Values weigh themselves, and "not found" is remembered for 100 ns. *)
Definition negconf : zconfig := zconf (Some (λ v, v)) (λ _, []) 0 100 0 false tick.

(** When a load of a cached key ends with "not found", the tombstone that
    replaces the entry weighs 1 but the byte counter keeps the old weight: the
    cache then reports 5 bytes with a single entry of weight 1, and the 4
    bytes of drift are never given back, even by [Clear]. *)
Theorem tombstone_drift :
  let C := run_all negconf (znew negconf 0) [OpSet 1 5; OpFinishLoad 1 1 LoadNotFound] in
  (e_weight <$> shard_get negconf C 1) = Some 1 ∧ g_entries (c_g C) = 1 ∧ g_bytes (c_g C) = 5 ∧
  g_entries (c_g (Clear negconf C)) = 0 ∧ g_bytes (c_g (Clear negconf C)) = 4.
Proof. vm_compute. done. Qed.

(** The same with room for [n] bytes. *)
Definition boundedneg (n : Z) : zconfig := zconf (Some (λ v, v)) (λ _, []) n 100 0 false tick.

(** With a byte bound of 10, two such loads leave 9 bytes of drift in an
    empty cache: from then on a Set of a value of weight 2 returns no error and
    evicts itself, so it is never readable. *)
Theorem tombstone_drift_starves :
  let c := boundedneg 10 in
  let drift v := [OpSet 1 v; OpFinishLoad 1 1 LoadNotFound; OpDelete 1] in
  let C := run_all c (znew c 0) (drift 9 ++ drift 2) in
  g_entries (c_g C) = 0 ∧ g_bytes (c_g C) = 9 ∧
  (SetWithTTL c C 2 2 0).2 = None ∧ (Get c (SetWithTTL c C 2 2 0).1 2).2 = None.
Proof. vm_compute. done. Qed.

(** The largest [time.Duration]. *)
Definition maxDuration : Z := 2 ^ 63 - 1.

(** A TTL near the largest duration wraps around when it is added to the
    time: the entry is stored already expired. *)
Theorem huge_ttl_expires_at_once :
  let '(C, err) := SetWithTTL plain (znew plain 0) 1 7 maxDuration in
  err = None ∧ (e_expireAt <$> shard_get plain C 1) = Some (- 2 ^ 63 + 999) ∧ (Get plain C 1).2 = None.
Proof. vm_compute. done. Qed.

(** A cache with a doorkeeper for 8 keys. *)
#[local] Instance door : AdmissionPolicy Z Doorkeeper := doorkeeper_policy u64.

Definition doorcache : cache Z Z (lruPolicy (K := Z)) (mapStore Z) expiryHeapBackend Doorkeeper :=
  newCache plain 0 2 false (λ _, newLRU) newExpiryHeapBackend newMapStore (NewDoorkeeper 8).

(** [SetIfAbsent] reports that it stored the value although the admission
    policy turned the key down. *)
Theorem SetIfAbsent_claims_stored :
  let '(C, r) := SetIfAbsent plain doorcache 1 7 in r = inr true ∧ shard_get plain C 1 = None.
Proof. vm_compute. done. Qed.

(** ** With a Store *)

(** A Store that holds 7 under key 1. *)
Definition store7 : zstore := (mst_Set (NewMemoryStore tick) 1 7 0).2.

(** The Store of a world has [k]. *)
Definition in_store {P St T A} (w : world Z Z P St T A zstore) (k : Z) : storeErr + option Z :=
  (mst_Get (default (NewMemoryStore tick) (w_store w)) k).1.

(** With lock-free reads, a key that the snapshot misses is a final miss:
    [Get] never asks the Store, which has the key.  Without them it does. *)
Theorem lock_free_skips_store :
  let miss := zconf None (λ _, []) 0 0 0 true tick in
  (Get_st miss (newWorld (znew miss 4) (Some store7)) 1).2 = inr None ∧
  (Get_st plain (newWorld (znew plain 4) (Some store7)) 1).2 = inr (Some 7).
Proof. vm_compute. done. Qed.

(** [currentLocked] hands out whatever entry memory has once a promotion was
    declined, here a tombstone (the record expired between the Store's [Get]
    and its [TTL]): [Update] writes 8 into the tombstone and to the Store and
    returns no error, but the key still reads as missing. *)
Theorem update_lost_in_tombstone :
  let C := run_all negconf (znew negconf 0) [OpFinishLoad 1 1 LoadNotFound] in
  let '(w, r) := Update negconf (newWorld C (Some (mst_Set (NewMemoryStore tick) 1 7 2).2)) 1 (Some (λ v, v + 1)) in
  r = (8, None) ∧ in_store w 1 = inr (Some 8) ∧ (Get_st negconf w 1).2 = inr None.
Proof. vm_compute. done. Qed.

(** [Compute] deletes a value that memory did not keep from the Store without
    superseding the reads of the key: a read in flight then promotes the
    deleted value. *)
Theorem computed_delete_undone :
  let w := wrun_all plain (newWorld doorcache (Some store7))
             [WBegin 1; WFetch 1; WCompute 1 (Some (λ v _, inr (v, ComputeDelete))); WEnd 1] in
  in_store w 1 = inr None ∧ (Get_st plain w 1).2 = inr (Some 7).
Proof. vm_compute. done. Qed.

(** [setAndStore] supersedes the reads of the key when it writes memory.  A
    read of the Store that begins between that and the Store write, here
    because memory was cleared, gets the old record; it ends after the Store
    write and promotes a value older than the Store has. *)
Theorem read_between_writes :
  let S := zbacked plain [BRun (WSet 1 7); BStart (WSet 1 8); BRun WClear; BRun (WBegin 1); BRun (WFetch 1); BNext 1; BRun (WEnd 1)] in
  bs_calls S !! 1 = None ∧ in_store (bs_world S) 1 = inr (Some 8) ∧ (Get_st plain (bs_world S) 1).2 = inr (Some 7).
Proof. vm_compute. done. Qed.

(** ** Two tiers *)

(** [Tiered.Set] writes L1 and then L2.  When L1 drops the new value before L2
    has it, here because another write evicts it, a [Get] in between copies
    the old value of L2 back into L1, where it stays: both tiers accepted the
    write of 20, and the tiered cache serves 10. *)
Theorem tiered_stale_copy :
  let t := trun_all plain plain tiers
             [T2 (OpSet 1 10); T1 (OpSet 1 20); T1 (OpSet 3 30); TBegin 1; TRead 1; TPrepare 1; TEnd 1; T2 (OpSet 1 20)] in
  (Peek plain (t_l2 t) 1).2 = Some 20 ∧ (Get_ti plain plain t 1).2 = Some 10.
Proof. vm_compute. done. Qed.

(** ** Queued writes *)

(** [SetWithOptions] with queued writes drops the weight that [SetWeight]
    gave: [asyncSet] weighs the value itself. *)
Theorem queued_weight_dropped :
  let sc := SetConfig None (Some 50) None None None in
  let B := (SetWithOptions_as plain asynced 1 10 sc true).1 in
  (e_weight <$> shard_get plain (a_mem (drainShard plain B 1 []).1) 1) = Some 1 ∧
  (e_weight <$> shard_get plain (setWithOptions plain (znew plain 2) 1 10 sc).1 1) = Some 50.
Proof. vm_compute. done. Qed.

(** A queued delete is counted when it is queued and again when it removes an
    entry: after one delete of a present key and one of an absent key, the
    statistics report three. *)
Theorem queued_delete_counted_twice :
  let B := arun_all plain asynced [ASet 1 10; AApply 1 []; ADelete 1; ADelete 2; AApply 1 []; AApply 0 []] in
  g_counters (c_g (a_mem B)) deletes = 3.
Proof. vm_compute. done. Qed.

(** An absolute expiry before 1970 is a time in the past for a synchronous
    write and means "no expiry" to a queued one. *)
Theorem queued_expiry_before_epoch :
  let sc := SetConfig None None None (Some (Some (-5))) None in
  let B := (drainShard plain (SetWithOptions_as plain asynced 1 10 sc true).1 1 []).1 in
  (Get_as plain B 1).2 = Some 10 ∧ (Get plain (setWithOptions plain (znew plain 2) 1 10 sc).1 1).2 = None.
Proof. vm_compute. done. Qed.

(** ** Options *)

(** "refreshAt must be in (0, 1); other values disable": a NaN is neither at
    most 0 nor at least 1, and refresh-ahead is on. *)
Theorem nan_enables_refresh : is_Some (refreshThreshold demoEnv S754_nan).
Proof. by eexists. Qed.

(** "Later options override earlier ones for the same setting": an encrypted
    codec with an unusable key fails [New] although a later option installs
    another codec. *)
Theorem codec_error_sticks :
  New toyEnv intTypes demoEnv ([Some (WithEncryptedCodec (CBase intBase) []); Some (WithCodec (Some (CBase intBase)));
    Some (WithMaxEntries 3)] : list (option demoOption)) = inl (ConfigError "Codec").
Proof. reflexivity. Qed.

(** ** Events *)

(** [Subscribe] tests the mark of the bus before it takes the lock.  When the
    cache is closed in between, the channel is registered with a bus that is
    closed already: nothing ever closes it, although [Close] says that it
    closes every channel. *)
Theorem subscriber_misses_close :
  let b := bus_run_all (λ _ : Z, 0) newEventBus [SSubscribe 8 0 []; SMarkClosed; SCloseAll; SRegister 1; SMarkClosed; SCloseAll] in
  b_closed b = true ∧ b_subs b !! 1 = Some 1 ∧ (ch_open <$> b_chans b !! 1) = Some true.
Proof. vm_compute. done. Qed.

(** ** Struct tags *)

(** A session that embeds a pointer to its credentials. *)
Definition sessionDecls : decls :=
  <["Session" := [Field "Credentials" "" true true (TPtr (TNamed "Credentials"))]]>
  {["Credentials" := [Field "Password" ",secret" false true (TBasic "string")]]}.

(** The snapshot filter works on a copy of the value, but an embedded pointer
    in the copy leads to the original: taking a snapshot blanks the password
    of the value in the cache. *)
Theorem snapshot_blanks_live_value :
  ∃ vs, walkStructFields 2 sessionDecls "Session" [] = Some vs ∧
  (applySnapshotFilter (buildMeta (λ s, s) (λ s, s) vs) {[1%positive := VStruct [VBasic 42]]} (VStruct [VPtr (Some 1%positive)])).1
    !! 1%positive = Some (VStruct [VBasic 0]).
Proof. eexists. vm_compute. done. Qed.

(** The language resolves a name to the field nearest to the surface; in a
    template a field of an embedded struct that comes later takes the name
    over. *)
Theorem embedded_field_shadows :
  let D : decls := <["Order" := [Field "ID" ",tag=order:{ID}" false true (TBasic "int"); Field "Base" "" true true (TNamed "Base")]]>
                   {["Base" := [Field "ID" "" false true (TBasic "int")]]} in
  ∃ vs, walkStructFields 2 D "Order" [] = Some vs ∧
  tm_fields (buildMeta (λ s, s) (λ s, s) vs) !! "ID" = Some [1%nat; 0%nat].
Proof. eexists. vm_compute. done. Qed.

(** The walk over the fields of a type that embeds a pointer to itself never
    ends. *)
Theorem walk_of_recursive_type fuel prefix :
  walkStructFields fuel {["Node" := [Field "Node" "" true true (TPtr (TNamed "Node"))]]} "Node" prefix = None.
Proof.
  revert prefix. induction fuel as [|fuel IH]; intros prefix; [done|].
  rewrite walk_step lookup_singleton_eq. cbn. by rewrite IH.
Qed.

(** ** Listings *)

(** [WithExpireFunc] with a predicate that calls every entry expired. *)
Definition expireAll : zconfig :=
  Config (λ k, u64 k) 1 None (Some (λ _ _ _, Some true)) (λ _, []) (λ _ ttl, ttl) None (λ _, None) 0 0 0 0 0 0 false
    (Some 0) 0 0 0 true false true None 0 ∅ false false true false false false false tick (λ _ _, 0) (λ l, head l).

(** "true marks the entry expired regardless of TTL": [Items], which lists
    "every live entry", and the rankings and the histogram check the TTL
    only, and list entries that no read returns. *)
Theorem items_list_expired :
  let C := run_all expireAll (znew expireAll 0) [OpSet 1 10] in
  ki_key <$> (Items expireAll C).2 = [1] ∧ (Peek expireAll C 1).2 = None ∧ (Has expireAll C 1).2 = false.
Proof. vm_compute. done. Qed.

(** ** Latencies *)

(** The rank of a percentile is rounded down: of one load of 100 ns and one of
    a second, the 99th percentile is reported as 100 ns, which half of the
    loads exceed. *)
Theorem p99_of_two : sn_P99 (la_Snapshot (foldl la_Record noLatencies [100; 1000000000])) = 100.
Proof. vm_compute. done. Qed.

(** "to within about half a bucket": what is reported is the upper bound of the
    bucket, nearly twice the one duration that was recorded. *)
Theorem p50_upper_bound : sn_P50 (la_Snapshot (foldl la_Record noLatencies [100001])) = 200000.
Proof. vm_compute. done. Qed.
